(* ===== verification/_CoqProject ===== *)
-Q . S2P
Prelude.v
PartitionSync.v
RowBlocks.v
ExecutionStack.v
PartitionPipeline.v
Arrays.v
ArrayData.v
Executors.v
Batch.v
ExprEval.v
Operators.v
Union.v
SortLayout.v
Hash.v
HashDirectory.v
SortOrder.v
SortMerge.v
SortBlock.v
PartialSort.v
GlobalSort.v
AggHashTable.v
PartitionedTable.v
HashAggregate.v
HashAggregatePlan.v
HashAggregateSteps.v
HashAggregateCorrect.v
LogicalExpr.v
Rewrites.v
JoinConditions.v
JoinTable.v
HashJoin.v
JoinChains.v
JoinProbe.v
HashJoinSync.v
HashJoinSteps.v
HashJoinCorrect.v
Keywords.v
Tokenizer.v
TokenizerCorrect.v
SqlAst.v
SqlParser.v
ExprParser.v
QueryParser.v
StatementParser.v
ParserTotal.v
Grammar.v
ParserComplete.v
ParserCorrect.v
ParserEdges.v
ParquetBits.v
BitStreams.v
ParquetRle.v
RleCorrect.v
ParquetDelta.v
DeltaCorrect.v
ParquetValues.v
ValuesCorrect.v
ParquetByteArrays.v
ByteArraysCorrect.v
ParquetPages.v
PagesCorrect.v
ColumnChunks.v
ColumnCollection.v
NestedLoopJoin.v
NestedLoopScan.v
NestedLoopSteps.v
NestedLoopCorrect.v
