(* ===== verification/Prelude.v ===== *)
(** * GlareDB: a verification of the query engine core

    GlareDB is an analytical SQL database.  A query is parsed, bound to logical
    expressions and operators, optimized, planned into pipelines of physical
    operators, and executed by partition pipelines that push batches of columns
    through the operators.  This development models both ends of that road and
    the part that computes: the tokenizer and the parser of SQL, logical
    expressions and their rewrites, columns and batches, expression evaluation,
    the pipeline driver, a set of operators with their data structures, and the
    encodings and the column reader of Parquet files.  Paths below are relative
    to [src/crates/glaredb_core/src], those of the parser to
    [src/crates/glaredb_parser/src] and those of Parquet to
    [src/crates/glaredb_ext_parquet/src].

    ** How the parts interact

    The driver ([execution/partition_pipeline.rs]) owns the operators' states
    and the buffers between them, and asks an instruction stack
    ([execution/execution_stack.rs]) which operator to poll next.  Operators
    ([execution/operators]) consume an input batch and fill an output batch, and
    answer with a poll result that drives the stack.  Batches ([arrays/batch.rs])
    are lists of arrays ([arrays/array]): flat, constant or dictionary buffers
    with a validity mask.  Expressions ([expr/physical]) are evaluated over
    batches by vectorised executors ([arrays/executor]).  The hash aggregate
    hashes the group columns of a batch ([arrays/compute/hash.rs]), splits the
    rows over as many linear-probing tables as there are partitions
    ([execution/operators/hash_aggregate/hash_table]), merges the tables of all
    partitions, and runs DISTINCT aggregates through tables of their own.  The hash
    join ([execution/operators/hash_join]) collects the rows of its build side,
    links them into the chains of a directory with compare-and-swap, and then
    probes the chains with the rows of the other side.  The nested loop join
    ([execution/operators/nested_loop_join]) collects its build side in a column
    collection ([arrays/collection]) and pairs every batch of the other side with
    its rows, one at a time.  The global sort collects
    rows with encoded keys per partition ([arrays/sort]), sorts them in blocks
    and merges the runs of all partitions through a shared queue
    ([execution/operators/sort]).  The optimizer rewrites logical expressions
    ([expr/mod.rs]) before they are planned.

    The parser crate is apart from all this: a tokenizer over the text
    ([tokens.rs], with the tables of [keywords.rs]) and a recursive-descent parser
    over its tokens ([parser.rs], [ast]) with precedence climbing for
    expressions.  A Parquet column reader ([column/column_reader.rs]) fills the
    arrays of a batch from the pages of a column chunk: the page reader
    ([column/page_reader.rs]) reads a header, decompresses the page and sets up a
    decoder of its encoding ([column/encoding]), which works on the bit streams
    of [column/bitutil.rs] and [column/read_buffer.rs] and stores values through a
    value reader ([column/value_reader]); the encoders are those of [encodings].

    ** The files

    - [Prelude]: results of Rust code ([res], with [Ok], [Err] and [Panic]), code
      with a [&mut] receiver ([M], which keeps the writes made before an error),
      indexing, [collect], and lemmas on lists.
    - [ExecutionStack]: [ExecutionStack::pop_next] over the [Effects] trait (a
      class), the poll enums of [operators/mod.rs], the runs of the stack with
      the log of what was polled, and its invariants for arbitrary operators.
    - [PartitionPipeline]: [OperatorEffects] (the buffers, states and profiles of
      one partition), [ExecutablePartitionPipeline::poll_execute], and
      [ExecutablePipeline::create_partition_pipelines] of
      [execution/pipeline.rs].  Operators are records of their poll functions.
    - [Arrays]: [BitmapView], [Validity] and [Selection].
    - [ArrayData]: [AnyArrayBuffer], [Array] and its operations (selection,
      cloning, constants, values, [copy_rows]); an array is well formed
      ([array_wf]) and stands for the list of its rows ([rows]).
    - [Executors]: the unary, binary and uniform scalar executors, selection, and
      the aggregate updater.
    - [Batch]: [Batch] and the class [BatchLaws], the interface the operators are
      verified against; [Batch] is its instance.
    - [ExprEval]: physical expressions, their evaluator, the selection evaluator,
      AND and OR, and the filter and project operators.
    - [Operators]: the limit operator.  [Union]: the union operator and the
      interleavings of its two tasks, as a step relation.
    - [SortLayout]: the layout and the encodings of sort keys.  [SortOrder]: the
      ORDER BY order on full rows and the theory of the smallest rows that a
      limit hint keeps.  [SortMerge]: sorted segments and their binary merge.
      [SortBlock]: sorting one block; the standard library's slice sort is the
      class [SliceSort].  [PartialSort]: appending batches to blocks and sorting
      a partition's rows.  [GlobalSort]: the merge queue, the wakers and the sort
      operator of all partitions, as a step relation.
    - [PartitionSync]: the delayed counts and partition wakers that operators
      use as barriers.  [RowBlocks]: appending rows to blocks and scanning them
      ([arrays/row]), shared by the sort and the hash aggregate.
    - [Hash]: hashing of rows.  [HashDirectory] and [AggHashTable]: the directory
      of the aggregate hash table and the table on top of it (finding and
      creating groups, updating states, merging tables).
    - [PartitionedTable]: the hash table of one grouping set over all partitions
      ([hash_table/partitioned.rs]): partitioning by hash, building, flushing,
      merging, scanning, GROUPING values.  [HashAggregate]: the operator
      ([hash_aggregate/mod.rs], [distinct_aggregates.rs]) with its phases and
      barriers, as a step relation.  [HashAggregatePlan]: what a plan of grouping
      sets and DISTINCT tables looks like, and the meaning of a GROUP BY.
      [HashAggregateSteps]: the invariant of the running operator, kept by every
      step.  [HashAggregateCorrect]: its theorems.
    - [JoinTable]: the table of the hash join ([hash_join/hash_table]) with the
      matcher of [arrays/row/row_matcher.rs]: collecting rows, the directory,
      lock-free insertion, probing, marking and draining.  [HashJoin]: the
      operator ([hash_join/mod.rs]), with build and probe partitions as tasks of
      a step relation, and the meaning of a join.  [JoinChains]: the chains in
      memory, what an insertion step does to them, and what scanning finds in
      them.  [JoinProbe]: keys and hashes of rows, complete chains, and drains.
      [HashJoinSync]: what its flags, counts and wakers say about the
      partitions.  [HashJoinSteps]: the invariant of the running operator, kept
      by every step, and its measure.  [HashJoinCorrect]: its theorems.
    - [ColumnCollection]: chunks, segments and [ConcurrentColumnCollection], with
      appends, flushes, and sequential and parallel scans.  [NestedLoopJoin]: the
      match tracker, the cross product and the operator, with build and probe
      partitions as tasks of a step relation, and the meaning of a join.
      [NestedLoopScan]: what a round of its loop does.  [NestedLoopSteps]: the
      invariant of the running operator, kept by every step, and its measure.
      [NestedLoopCorrect]: its theorems.
    - [LogicalExpr]: [Expression], its traversals, and its meaning relative to an
      arbitrary interpretation of functions (class [Interpretation]).
    - [Rewrites]: the rewrite rules for conjunctions.  [JoinConditions]: the
      extraction of join conditions.
    - [Keywords]: the tables of keywords and their binary search.  [Tokenizer]:
      [Tokenizer::tokenize] over a list of characters with byte offsets; the
      Unicode classes of characters are the class [Unicode] with [UnicodeLaws],
      the order of unicase [AsciiOrder] with [AsciiOrderLaws].
      [TokenizerCorrect]: its theorems.
    - [SqlAst]: the syntax tree.  [SqlParser]: the cursor over tokens of
      [Parser].  [ExprParser], [QueryParser], [StatementParser]: the [parse]
      functions of [ast] and of [parser.rs].  The mutual recursion is tied by a
      record of the parsers of one nesting level ([parsers n]).
      [ParserTotal]: parsing ends with statements or an error.  [Grammar]: a
      declarative grammar of expressions.  [ParserComplete]: what the grammar
      derives is parsed.  [ParserCorrect]: the theorems on texts.  [ParserEdges]:
      texts the parser treats in an unexpected way.
    - [ParquetBits]: integers at their width, the cursor, bit unpacking, VLQ and
      zigzag integers, the bit writer.  [BitStreams]: their theory.
      [ParquetRle] and [RleCorrect]: the encoder and decoder of the run-length
      and bit-packing hybrid.  [ParquetDelta] and [DeltaCorrect]: delta-encoded
      integers.  [ParquetValues] and [ValuesCorrect]: the value readers (a class
      [ValueReader], with [ReaderLaws] as what a page decoder relies on) and the
      plain decoder.  [ParquetByteArrays] and [ByteArraysCorrect]: delta-encoded
      byte arrays.  [ParquetPages]: page headers, page decoders, dictionaries,
      the page reader and the column reader.  [PagesCorrect]: what a page decoder
      stands for and the loop of a column read.  [ColumnChunks]: the layout of a
      chunk, the set-up of its pages, and the theorem on columns.

    ** What the theorems show

    Execution: at every point of every run the stack has one of three shapes and
    only polls operators in range; an exhausted or finalized operator, and those
    below it, are never polled again; [Finished] means the sink was finalized and
    every operator settled; an operator that answered [HasMore] gets the same
    input again; pipelines are created fresh, each with the states of its
    partition, and polling them never panics when the operators do not panic in
    the states that their own invariants describe.

    Columns: the bit-packed masks refine lists of booleans; selecting, cloning,
    copying and writing arrays have the expected effect on their rows in every
    physical format; appending batches concatenates rows.

    Expressions and operators: the executors lift operations over NULL in every
    format; evaluation computes the row semantics of an expression, and the
    filter keeps exactly the TRUE rows, where CASE is evaluated on all rows of a
    batch and not inside another CASE; the projection maps rows; limit emits exactly
    its window; union emits both inputs completely under every schedule, without
    deadlock, in a bounded number of steps; hash aggregation computes one state
    per group, folded over exactly the rows of the group, and merging tables
    gives the table of both inputs.

    GROUP BY: hashing gives equal rows equal hashes in every array format; under
    every schedule of its partitions a hash aggregate emits, for every grouping
    set, one row per group with every aggregate over the rows of the group
    (DISTINCT ones over each different input once) and the GROUPING values; no
    step fails, no wakeup is lost at its barriers, and the number of steps is
    bounded.

    Joins: under every schedule of its build and probe partitions a hash join
    emits exactly the rows of the INNER, LEFT, RIGHT, LEFT SEMI or LEFT MARK join
    of its inputs, with NULL keys, duplicate keys and additional comparisons; no
    step fails (no chain is followed before it is complete, no match is read
    while rows are probed), no wakeup is lost, and the number of steps is
    bounded, contention included.  FULL and LEFT ANTI joins can be created and
    do not deadlock, but can only end in an error.  The same
    is shown of a nested loop join with any filter, for the join types it accepts:
    its matches are complete when the build side is drained, and every segment is
    drained by exactly one partition.

    Sorting: byte order of encoded rows is the order of the ORDER BY list for the
    types whose encoding preserves order, which are all but booleans and 64-bit
    floats; for key columns of such types, sorting a block sorts its rows in the
    order of the SQL values, strings in full, with keys and data aligned; merging keeps all rows
    in order; and under every schedule of its partitions the global sort emits
    the input rows in ORDER BY order (under a limit hint, at least the first ones
    of them), without failing, without losing a wakeup, in a bounded number of
    steps.

    Optimizer: unnesting, distributing OR and the join filter rewrite terminate
    and keep the value of every expression on every row; join conditions are put
    where they can be evaluated and together are the original conditions.

    SQL: tokenizing any text succeeds or fails cleanly and the tokens spell the
    text; printed tokens are read back; parsing ends on every input, without
    reading past the tokens; texts of the grammar of expressions in VALUES are
    parsed into the trees of the grammar, so that operators group by precedence
    and to the left.

    Parquet: values written by the hybrid encoder, integers by the delta encoder
    and byte arrays by the delta encoders of byte arrays are read back, in reads
    of any sizes where the decoder supports them, except pages of one value; a
    column chunk of dictionary
    and data pages of both versions is read back row by row into well-formed
    arrays, however reads cut its pages, for plain, dictionary, boolean
    run-length, byte-stream-split and delta byte array pages.

    Where the code departs from what it means to do, the theorem states the
    exact condition under which the result holds.  Separate theorems describe the
    failures in general for the sort keys of 64-bit floats and booleans, for two
    kinds of join conditions that are dropped or negated, and for delta-encoded
    pages that are read in several calls or hold one value; examples show them
    for CASE under a selection, [for_each_flat] on dictionary arrays,
    [a OR (a AND b)] in the distributive rewrite, and a handful of SQL texts.

    ** Bounds and fuel

    - [PartitionPipeline.poll_execute] takes fuel for its loop, since operators
      may answer forever; its theorems hold for every amount of fuel.
    - The search for groups of the hash table runs at most once per slot of the
      directory; the correctness theorem shows the bound is never reached.  It
      asks for at most [2 ^ 61] input rows, so that the doubling of the 64-bit
      capacity does not overflow.
    - The GROUP BY theorems ask for 1 to 512 partitions, at most [2 ^ 61] rows
      counted once more for every DISTINCT aggregate, value hashes below
      [2 ^ 64], aggregate functions whose operations succeed and whose combine
      is the fold over both inputs, and values with decidable equality (so no
      floats).  Draining a distinct table takes its number of rows plus two as
      fuel, scanning the tables of a grouping set the number of tables plus one;
      both are shown to be enough.  A step of a partition is one critical
      section of the code, and so atomic.
    - The hash join theorems ask for the same number of partitions on both sides,
      1 to 512, batches of at most the batch size with at most 2 GiB of heap data
      on the build side, a directory of at most [2 ^ 63] entries, and values
      whose equality implies equal hashes (so no floats, where 0.0 equals -0.0).
      Atomic operations are sequentially consistent, a weak compare-and-swap that
      fails although the entry is as expected changes nothing and is not a step.
      Following chains takes the number of rows plus one as fuel, marking rows
      plus two, draining the number of blocks plus one; all are shown to be
      enough.
    - The nested loop join theorems ask for 1 to 512 partitions on each side, a
      positive batch size, a join type its constructor accepts, and a filter unless
      the join is an inner one, as the planner has it.  The loop that appends a
      batch takes its rows plus two as fuel, a scan the number of segments plus
      two; both are shown to be enough.
    - The sort theorems ask for a data layout with at least one byte per row, a
      positive batch size, at most [2 ^ 32] rows per partition (rows are numbered
      in 32 bits) and at most 2 GiB of heap data per appended batch; the loops of
      merging and scanning take the number of rows as fuel, shown to be enough.
    - The rewrites take the size of the expression as fuel, which is shown to be
      enough.
    - The tokenizer takes the number of characters as fuel, a list of the parser
      the number of tokens, and [parsers n] allows [n] nested calls; for [n] the
      number of tokens the parser is shown never to reach any of these bounds.
      The grammar leaves out subqueries and window frames other than PARTITION
      BY.  Errors are texts without the tokens and positions put into them.
    - Reading past the end of a Parquet cursor is undefined behaviour and a
      [Panic] of the model, as is overflow of unchecked arithmetic; fresh buffers
      have unknown contents.  The hybrid encoding is verified for widths up to 64
      and fewer than [2 ^ 60] values, the delta encodings for fewer than [2 ^ 64]
      values and byte arrays of less than 2 GiB per page, a chunk for less than
      [2 ^ 63] bytes and pages of less than 2 GiB.  The loop of the delta decoder
      takes the length of its output plus the bytes left as fuel, a column read
      its rows plus the bytes left; both are shown to be enough.
    - Assertions of debug builds are panics where the model has them (bitmaps,
      join conditions); elsewhere they are left out.
    - Sizes and indices are natural numbers; hashes, bytes, keys and floats are
      integers kept within their width.

    ** What is not modelled

    Binding, planning of operators, the catalog, sessions and I/O (file systems,
    HTTP, the other extension crates) are not modelled.  Of the operators,
    aggregation without GROUP BY and materialization are not modelled, and of the
    optimizer neither plan-level rules, constant folding nor LIKE; functions in
    logical expressions are deterministic and compared as a whole.  Of Parquet, the decompression of pages, the reading of Thrift headers
    and the conversion of their statistics are parameters of the column reader;
    schemas, file metadata, the pruning of row groups and the assembly of nested
    columns are not modelled, and delta-encoded integer pages are left out of
    the theorem on columns because of the defect above.  Physical memory (buffer
    managers, row blocks and raw pointers) is abstracted to lists and positions.
    Scalar and aggregate functions are parameters with their row semantics, except
    AND, OR and the comparisons.  Printing and serialization of syntax trees are
    not modelled.  Partitions run concurrently in the program; the union, the
    global sort, the hash aggregate and both joins model tasks sharing state,
    elsewhere a partition runs alone.

    Left to be modelled: aggregation without GROUP BY and the planning of
    aggregates, materialization, the bytes of rows in blocks, and a semantics of
    logical plans for the plan-level rules. *)
From stdpp Require Export base numbers list gmap strings.
From Stdlib Require Export ZArith Lia Sorting.Sorted.

(** ** Outcomes of Rust code *)

(** A Rust call either returns [Ok], returns [Err] with the message of the
    [DbError], or panics (failed [assert!], index out of bounds, [unwrap] of a
    [None], arithmetic overflow where it is checked). *)
Inductive res (A : Type) : Type :=
| Ok (a : A)
| Err (e : string)
| Panic (why : string).
Arguments Ok {A} a.
Arguments Err {A} e.
Arguments Panic {A} why.

#[global] Instance res_ret : MRet res := fun A => Ok.
#[global] Instance res_bind : MBind res := fun A B f m =>
  match m with
  | Ok a => f a
  | Err e => Err e
  | Panic w => Panic w
  end.

Lemma bind_ok {A B} (m : res A) a (f : A -> res B) : m = Ok a -> (m ≫= f) = f a.
Proof. by intros ->. Qed.

Lemma bind_Ok_inv {A B} (m : res A) (f : A -> res B) b : (m ≫= f) = Ok b -> exists a, m = Ok a /\ f a = Ok b.
Proof. destruct m as [a| |]; [by exists a|done..]. Qed.

Definition is_ok {A} (r : res A) : bool :=
  match r with Ok _ => true | _ => false end.

Definition is_panic {A} (r : res A) : bool :=
  match r with Panic _ => true | _ => false end.

(** [assert!(b, why)]. *)
Definition rust_assert (b : bool) (why : string) : res unit :=
  if b then Ok tt else Panic why.

(** Code with a [&mut] receiver: the receiver is threaded through, and keeps
    the writes made before an error. *)
Definition M (S A : Type) : Type := S -> res A * S.

#[global] Instance M_ret {S} : MRet (M S) := fun A a s => (Ok a, s).
#[global] Instance M_bind {S} : MBind (M S) := fun A B f m s =>
  match m s with
  | (Ok a, s') => f a s'
  | (Err e, s') => (Err e, s')
  | (Panic w, s') => (Panic w, s')
  end.

Definition lift {S A} (r : res A) : M S A := fun s => (r, s).
Definition get {S} : M S S := fun s => (Ok s, s).
Definition put {S} (s : S) : M S unit := fun _ => (Ok tt, s).
Create HintDb glare.
#[export] Set Warnings "-clear-no-such-hyp,-register-all".

Definition fail {S A} (e : string) : M S A := fun s => (Err e, s).

(** [v[i]] on a slice or [Vec]. *)
Definition index {A} (l : list A) (i : nat) : res A :=
  match l !! i with
  | Some a => Ok a
  | None => Panic "index out of bounds"
  end.

Lemma index_Ok {A} (l : list A) i a : index l i = Ok a <-> l !! i = Some a.
Proof. unfold index. destruct (l !! i); naive_solver. Qed.

Lemma index_lt {A} (l : list A) i : i < length l -> exists a, index l i = Ok a /\ l !! i = Some a.
Proof.
  intros Hi. destruct (lookup_lt_is_Some_2 l i Hi) as [a Ha].
  exists a. by rewrite index_Ok.
Qed.

(** [iter().map(f).collect::<Result<Vec<_>>>()] *)
Fixpoint collect {A B} (f : A -> res B) (l : list A) : res (list B) :=
  match l with
  | [] => Ok []
  | a :: l' => b ← f a; bs ← collect f l'; Ok (b :: bs)
  end.


Lemma collect_Forall2 {A B} (f : A -> res B) l bs :
  collect f l = Ok bs <-> Forall2 (fun a b => f a = Ok b) l bs.
Proof.
  revert bs. induction l as [|a l IH]; intros bs; simpl.
  - split; [by intros [= <-]|by inversion 1].
  - split.
    + destruct (f a) as [b| |] eqn:Hf; simpl; [|done..].
      destruct (collect f l) as [bs'| |] eqn:Hl; simpl; [|done..].
      intros [= <-]. constructor; [done|]. by apply IH.
    + inversion 1 as [|? b ? bs' Hf Hrest]; subst. rewrite Hf. simpl.
      apply IH in Hrest as ->. done.
Qed.

(** ** Filtering lists *)

Lemma collect_map {A B} (f : A -> res B) (g : A -> B) l : (forall a, a ∈ l -> f a = Ok (g a)) -> collect f l = Ok (g <$> l).
Proof.
  intros Hf. apply collect_Forall2, Forall2_fmap_r, Forall_Forall2_diag, Forall_forall. exact Hf.
Qed.

Lemma filter_map_swap {A B} (f : A -> B) (P : B -> Prop) `{forall x, Decision (P x)} (l : list A) :
  filter P (f <$> l) = f <$> filter (fun a => P (f a)) l.
Proof. induction l as [|a l IH]; [done|]. rewrite fmap_cons, !filter_cons, IH. by destruct (decide (P (f a))). Qed.

Lemma filter_all {A} (P : A -> Prop) `{forall x, Decision (P x)} (l : list A) :
  Forall P l -> filter P l = l.
Proof. induction 1 as [|x l Hx _ IH]; [done|]. by rewrite filter_cons, decide_True, IH. Qed.

Lemma filter_ext_elem {A} (P Q : A -> Prop) `{forall x, Decision (P x)} `{forall x, Decision (Q x)} (l : list A) :
  (forall x, x ∈ l -> (P x <-> Q x)) -> filter P l = filter Q l.
Proof.
  induction l as [|x l IH]; intros Hl; [done|]. rewrite !filter_cons.
  rewrite IH by (intros y Hy; apply Hl; by apply list_elem_of_further).
  pose proof (Hl x (list_elem_of_here x l)) as Hx. repeat case_decide; tauto || done.
Qed.

Lemma forallb_compose {A B} (f : B -> bool) (g : A -> B) l : forallb f (map g l) = forallb (fun x => f (g x)) l.
Proof. induction l as [|x l IH]; simpl; [done|]. by rewrite IH. Qed.

Lemma filter_none {A} (P : A -> Prop) `{forall x, Decision (P x)} (l : list A) :
  (forall x, x ∈ l -> ~ P x) -> filter P l = [].
Proof.
  induction l as [|x l IH]; intros Hl; [done|]. rewrite filter_cons, decide_False by (apply Hl, list_elem_of_here).
  apply IH. intros y Hy. apply Hl. by apply list_elem_of_further.
Qed.
