(* ===== verification/PartitionSync.v ===== *)
(** * Synchronisation of partitions

    Models the helpers the operators share to wait for each other:
    [util/delayed_count.rs] and [util/partition_wakers.rs] of
    [execution/operators], with the limits on the number of partitions of
    [config/session.rs].  Sums over partitions and the concatenation of what
    they hold are the measures of the invariants of the operators. *)
From S2P Require Import Prelude.

Definition MIN_PARTITION_COUNT : nat := 1.
Definition MAX_PARTITION_COUNT : nat := 512.

(** [Partitions::validate_value] *)
Definition validate_partitions (val : nat) : res unit :=
  if val <? MIN_PARTITION_COUNT then Err "Partition count cannot be less than 1"
  else if MAX_PARTITION_COUNT <? val then Err "Partition count cannot be greater than 512"
  else Ok tt.

(** [DelayedPartitionCount] *)
Abbreviation DelayedPartitionCount := (option nat) (only parsing).

Definition count_set (c : DelayedPartitionCount) (count : nat) : res DelayedPartitionCount :=
  match c with
  | Some _ => Err "Delayed count has already been set"
  | None => _ ← validate_partitions count; Ok (Some count)
  end.

Definition count_current (c : DelayedPartitionCount) : res nat :=
  match c with Some count => Ok count | None => Err "Attempted to get current count from an unitialized count" end.

Definition dec_by_one (c : DelayedPartitionCount) : res DelayedPartitionCount :=
  match c with
  | Some 0 => Err "Attempted to decrement 0"
  | Some (S count) => Ok (Some count)
  | None => Err "Attempted to decrement an unitialized delayed count"
  end.

(** [PartitionWakers]: whether a waker of the partition is stored. *)
Abbreviation PartitionWakers := (list bool) (only parsing).

Definition init_for_partitions (w : PartitionWakers) (num_partitions : nat) : res PartitionWakers :=
  _ ← rust_assert (length w =? 0) "assertion failed: 0 == self.wakers.len()";
  _ ← rust_assert (negb (num_partitions =? 0)) "assertion failed: 0 != num_partitions";
  Ok (replicate num_partitions false).

(** All wakers are woken and removed. *)
Definition wake_all (w : PartitionWakers) : PartitionWakers := (fun _ => false) <$> w.

Definition store_waker (w : PartitionWakers) (partition : nat) : res PartitionWakers :=
  if partition <? length w then Ok (<[partition := true]> w) else Panic "index out of bounds".

(** ** Sums over partitions *)

Section Total.
Context {P : Type}.
Implicit Types (f : P -> nat) (ps : list P).

Definition total (f : P -> nat) (ps : list P) : nat := sum_list (f <$> ps).

Lemma total_insert f ps idx p p' : ps !! idx = Some p -> total f (<[idx := p']> ps) + f p = total f ps + f p'.
Proof.
  unfold total. intros Hp. rewrite list_fmap_insert. revert idx Hp. induction ps as [|x ps IH]; intros [|idx] Hp; simplify_eq/=; [lia|].
  specialize (IH _ Hp). lia.
Qed.

Lemma total_lookup f ps idx p : ps !! idx = Some p -> f p <= total f ps.
Proof. unfold total. revert idx. induction ps as [|x ps IH]; intros [|idx] Hp; simplify_eq/=; [lia|]. specialize (IH _ Hp). lia. Qed.

Lemma total_zero f ps idx p : total f ps = 0 -> ps !! idx = Some p -> f p = 0.
Proof. intros Hz Hp. pose proof (total_lookup f ps idx p Hp). lia. Qed.

Lemma total_pos f ps : 0 < total f ps -> exists idx p, ps !! idx = Some p /\ 0 < f p.
Proof.
  unfold total. induction ps as [|x ps IH]; cbn; [lia|]. intros Hpos. destruct (decide (0 < f x)) as [Hx|Hx]; [by exists 0, x|].
  destruct IH as (idx & p & Hp & Hf); [lia|]. by exists (S idx), p.
Qed.

Lemma total_le f g ps : (forall p, f p <= g p) -> total f ps <= total g ps.
Proof. intros Hfg. unfold total. induction ps as [|x ps IH]; cbn; [lia|]. specialize (Hfg x). lia. Qed.

Lemma total_ext f g ps : (forall i p, ps !! i = Some p -> f p = g p) -> total f ps = total g ps.
Proof. intros Hfg. unfold total. f_equal. apply list_fmap_ext. intros i p Hp. by eapply Hfg. Qed.

End Total.

(** Sums of weights that depend on the partition's index. *)

Lemma sum_imap_cons {A} (f : nat -> A -> nat) x l : sum_list (imap f (x :: l)) = f 0 x + sum_list (imap (f ∘ S) l).
Proof. by rewrite imap_cons. Qed.

Lemma sum_imap_le {A} (f : nat -> A -> nat) l : (forall i x, f i x <= 1) -> sum_list (imap f l) <= length l.
Proof. revert f. induction l as [|x l IH]; intros f Hf; [done|]. rewrite sum_imap_cons. cbn [length]. specialize (IH (f ∘ S) (fun i => Hf (S i))). specialize (Hf 0 x). lia. Qed.

Lemma sum_imap_mono {A} (f g : nat -> A -> nat) l : (forall j y, l !! j = Some y -> f j y <= g j y) -> sum_list (imap f l) <= sum_list (imap g l).
Proof.
  revert f g. induction l as [|y l IH]; intros f g Hfg; [done|]. rewrite !sum_imap_cons. pose proof (Hfg 0 y eq_refl). specialize (IH (f ∘ S) (g ∘ S) (fun j => Hfg (S j))). lia.
Qed.

Lemma sum_imap_lt {A} (f g : nat -> A -> nat) l i x :
  (forall j y, l !! j = Some y -> f j y <= g j y) -> l !! i = Some x -> f i x < g i x -> sum_list (imap f l) < sum_list (imap g l).
Proof.
  revert f g i. induction l as [|y l IH]; intros f g i Hfg Hi Hlt; [done|]. rewrite !sum_imap_cons. destruct i as [|i].
  - injection Hi as ->. pose proof (sum_imap_mono (f ∘ S) (g ∘ S) l (fun j => Hfg (S j))). lia.
  - pose proof (Hfg 0 y eq_refl). specialize (IH (f ∘ S) (g ∘ S) i (fun j => Hfg (S j)) Hi Hlt). lia.
Qed.

Lemma concat_insert {A} (ls : list (list A)) idx l l' :
  ls !! idx = Some l -> exists rest, concat ls ≡ₚ l ++ rest /\ concat (<[idx := l']> ls) ≡ₚ l' ++ rest.
Proof.
  revert idx. induction ls as [|x ls IH]; intros [|idx] Hl; simplify_eq/=.
  - by exists (concat ls).
  - destruct (IH idx Hl) as (rest & H1 & H2). exists (x ++ rest). rewrite H1, H2. split; solve_Permutation.
Qed.

Lemma fmap_concat {A B} (f : A -> B) (ls : list (list A)) : f <$> concat ls = concat (fmap (M:=list) (fmap (M:=list) f) ls).
Proof. induction ls as [|l ls IH]; [done|]. cbn [concat]. by rewrite fmap_app, IH. Qed.

(** ** Shares of partitions *)

Lemma concat_at {A} (x : list A) (g : nat -> list A) p m :
  p < m -> concat ((fun q => (if decide (p = q) then x else []) ++ g q) <$> seq 0 m) ≡ₚ x ++ concat (g <$> seq 0 m).
Proof.
  assert (forall m i, p < i -> concat ((fun q => (if decide (p = q) then x else []) ++ g q) <$> seq i m) = concat (g <$> seq i m)) as Hmiss.
  { clear. induction m as [|m IH]; intros i Hi; [done|]. cbn [seq fmap list_fmap concat]. rewrite decide_False by lia. cbn [app]. f_equal. apply IH. lia. }
  assert (forall m i, i <= p < i + m -> concat ((fun q => (if decide (p = q) then x else []) ++ g q) <$> seq i m) ≡ₚ x ++ concat (g <$> seq i m)) as Hhit; [|intros; apply Hhit; lia].
  clear m. induction m as [|m IH]; intros i Hi; [lia|]. cbn [seq fmap list_fmap concat]. destruct (decide (p = i)) as [->|Hne].
  - rewrite <- app_assoc. do 2 apply Permutation_app_head. apply reflexive_eq. apply Hmiss. lia.
  - cbn [app]. specialize (IH (S i) ltac:(lia)). etransitivity; [apply Permutation_app_head; exact IH|]. solve_Permutation.
Qed.

Lemma concat_mod {A} n (f : nat -> list A) (l : list nat) :
  0 < n -> concat ((fun p => concat (f <$> filter (fun b => b mod n = p) l)) <$> seq 0 n) ≡ₚ concat (f <$> l).
Proof.
  intros Hn. induction l as [|b l IH].
  - cbn. apply reflexive_eq. generalize (seq 0 n). clear. induction l as [|x l IH]; [done|]. cbn. exact IH.
  - cbn [fmap list_fmap concat]. etransitivity; [|apply Permutation_app_head; exact IH].
    etransitivity; [|apply (concat_at (f b) _ (b mod n) n); apply Nat.mod_upper_bound; lia].
    apply reflexive_eq. f_equal. apply list_fmap_ext. intros _ p _. rewrite filter_cons. by destruct (decide (b mod n = p)).
Qed.

Lemma concat_swap {A X Y} (f : X -> Y -> list A) (xs : list X) (ys : list Y) :
  concat ((fun x => concat (f x <$> ys)) <$> xs) ≡ₚ concat ((fun y => concat ((fun x => f x y) <$> xs)) <$> ys).
Proof.
  induction xs as [|x xs IH]; cbn [fmap list_fmap concat].
  - apply reflexive_eq. clear. induction ys as [|y ys IH]; [done|]. cbn. exact IH.
  - rewrite IH. clear. induction ys as [|y ys IH]; [done|]. cbn [fmap list_fmap concat] in *. rewrite <- IH. solve_Permutation.
Qed.
