(* ===== verification/RowBlocks.v ===== *)
(** * Row blocks and their scans

    Models the blocks that rows are collected in ([arrays/row/row_blocks.rs]) and
    the resumable scan of a set of blocks ([arrays/row/row_scan.rs] and
    [block_scan.rs]).  A block is the list of its rows, a heap block its size in
    bytes, a row pointer the position of a row in a block. *)
From S2P Require Import Prelude.

(** ** Row blocks *)

Section RowBlocks.
Context {R : Type}.

(** [RowBlocks]: the blocks of rows and the sizes of the heap blocks. *)
Record RowBlocks : Type := mkRowBlocks {
  row_blocks : list (list R);
  heap_blocks : list nat;
}.

Definition empty_blocks : RowBlocks := mkRowBlocks [] [].

(** [MAX_HEAP_SIZE] *)
Definition max_heap_size : Z := 2 ^ 31.

Variable row_capacity : nat.

(** The loop of [prepare_append]: the rows written through the row pointers. *)
Fixpoint append_loop (fuel : nat) (full : list (list R)) (block : list R) (rows : list R) : res (list (list R)) :=
  match fuel with
  | O => Panic "out of fuel"
  | S fuel' =>
      match rows with
      | [] => Ok (full ++ [block])
      | _ :: _ =>
          let copy_count := Nat.min (row_capacity - length block) (length rows) in
          let block := block ++ take copy_count rows in
          let rows := drop copy_count rows in
          match rows with
          | [] => Ok (full ++ [block])
          | _ :: _ => append_loop fuel' (full ++ [block]) [] rows
          end
      end
  end.

(** [RowBlocks::prepare_append] and the writes of the rows; [heap_sizes] are the
    bytes each row needs on the heap. *)
Definition append_rows (blocks : RowBlocks) (rows : list R) (heap_sizes : option (list nat)) : res RowBlocks :=
  let bs := row_blocks blocks in
  let full := take (length bs - 1) bs in
  let block := default [] (last bs) in
  bs' ← append_loop (S (S (length rows))) full block rows;
  match heap_sizes with
  | None => Ok (mkRowBlocks bs' (heap_blocks blocks))
  | Some heap_sizes =>
      let total_heap_size := sum_list heap_sizes in
      if (max_heap_size <? Z.of_nat total_heap_size)%Z then Err "Required heap allocation exceeds max"
      else Ok (mkRowBlocks bs' (heap_blocks blocks ++ [total_heap_size]))
  end.

(** [reserved_row_count] *)
Definition reserved_row_count (blocks : RowBlocks) : nat := sum_list (length <$> row_blocks blocks).

(** [take_blocks] *)
Definition take_blocks (blocks : RowBlocks) : list (list R) * list nat * RowBlocks :=
  (row_blocks blocks, heap_blocks blocks, empty_blocks).

(** The blocks hold these rows. *)
Definition blocks_hold (blocks : RowBlocks) (rows : list R) : Prop := concat (row_blocks blocks) = rows.

Lemma append_loop_spec fuel full block rows :
  0 < row_capacity -> length rows + (if length block <? row_capacity then 0 else 1) < fuel ->
  exists bs, append_loop fuel full block rows = Ok bs /\ concat bs = concat full ++ block ++ rows.
Proof.
  intros Hcap. revert full block rows. induction fuel as [|fuel IH]; intros full block rows Hfuel; [lia|].
  cbn [append_loop]. destruct rows as [|r rows].
  { eexists. split; [done|]. rewrite concat_app. cbn. by rewrite !app_nil_r. }
  set (all := r :: rows) in *. set (n := Nat.min (row_capacity - length block) (length all)).
  assert (forall rest, concat (full ++ [block ++ take n all]) ++ rest = concat full ++ block ++ take n all ++ rest) as Hc.
  { intros rest. rewrite concat_app. cbn. by rewrite app_nil_r, <- !app_assoc. }
  destruct (drop n all) as [|x rest] eqn:Hd.
  - eexists. split; [done|]. rewrite <- (app_nil_r (concat _)), Hc, <- Hd, take_drop. done.
  - destruct (IH (full ++ [block ++ take n all]) [] (x :: rest)) as (bs & -> & Hbs).
    + assert (length (x :: rest) = length all - n) as Hl by by rewrite <- Hd, length_drop.
      destruct (Nat.ltb_spec (length (@nil R)) row_capacity); [|simpl in *; lia]. rewrite Hl.
      destruct (Nat.ltb_spec (length block) row_capacity); subst n all; cbn [length] in *; lia.
    + exists bs. split; [done|]. rewrite Hbs, Hc, <- Hd, app_nil_l, take_drop. done.
Qed.

Lemma append_rows_spec blocks old rows heap_sizes :
  0 < row_capacity -> blocks_hold blocks old ->
  (forall sizes, heap_sizes = Some sizes -> (Z.of_nat (sum_list sizes) <= max_heap_size)%Z) ->
  exists blocks', append_rows blocks rows heap_sizes = Ok blocks' /\ blocks_hold blocks' (old ++ rows)
    /\ heap_blocks blocks' = heap_blocks blocks ++ (match heap_sizes with Some sizes => [sum_list sizes] | None => [] end).
Proof.
  intros Hcap Hold Hheap. unfold append_rows.
  destruct (append_loop_spec (S (S (length rows))) (take (length (row_blocks blocks) - 1) (row_blocks blocks))
    (default [] (last (row_blocks blocks))) rows Hcap) as (bs & -> & Hbs).
  { destruct (_ <? _); lia. }
  assert (concat (take (length (row_blocks blocks) - 1) (row_blocks blocks)) ++ default [] (last (row_blocks blocks)) = old) as Hsplit.
  { rewrite <- Hold. destruct (row_blocks blocks) as [|b bs' _] using rev_ind; [done|].
    rewrite last_snoc, length_app, Nat.add_sub, take_app_length, concat_app. cbn. by rewrite app_nil_r. }
  unfold mbind, res_bind. destruct heap_sizes as [sizes|].
  - rewrite (proj2 (Z.ltb_ge _ _)) by (by apply Hheap). eexists. split_and!; [done| |done]. unfold blocks_hold. cbn. by rewrite Hbs, app_assoc, Hsplit.
  - eexists. split_and!; [done| |by rewrite app_nil_r]. unfold blocks_hold. cbn. by rewrite Hbs, app_assoc, Hsplit.
Qed.

End RowBlocks.
Arguments RowBlocks : clear implicits.

(** *** Blocks filled one after another *)

Section Chunks.
Context {R : Type}.
Variable cap : nat.

Fixpoint chunk_loop (fuel : nat) (rows : list R) : list (list R) :=
  match fuel, rows with
  | S fuel', _ :: _ => take cap rows :: chunk_loop fuel' (drop cap rows)
  | _, _ => []
  end.

(** The blocks of a collection that only ever appends: all full but the last. *)
Definition chunks (rows : list R) : list (list R) := chunk_loop (length rows) rows.

Hypothesis cap_pos : 0 < cap.

Lemma chunk_loop_fuel fuel rows : length rows <= fuel -> chunk_loop fuel rows = chunks rows.
Proof.
  unfold chunks. assert (forall n m l, length l <= n -> length l <= m -> chunk_loop n l = chunk_loop m l) as Hfuel.
  { induction n as [|n IH]; intros m l Hn Hm; [destruct l; [by destruct m|simpl in *; lia]|].
    destruct l as [|x l]; [by destruct m|]. destruct m as [|m]; [simpl in *; lia|]. cbn [chunk_loop]. f_equal.
    apply IH; rewrite length_drop; simpl in *; lia. }
  intros Hlen. by apply Hfuel.
Qed.

Lemma chunks_cons rows : rows <> [] -> chunks rows = take cap rows :: chunks (drop cap rows).
Proof.
  destruct rows as [|x rows]; [done|]. intros _. unfold chunks at 1. cbn [length chunk_loop]. f_equal.
  apply chunk_loop_fuel. rewrite length_drop. cbn [length]. lia.
Qed.

Lemma chunks_ind (P : list R -> Prop) : P [] -> (forall rows, rows <> [] -> P (drop cap rows) -> P rows) -> forall rows, P rows.
Proof.
  intros H0 HS rows. induction rows as [rows IH] using (induction_ltof1 _ (@length _)). unfold ltof in IH.
  destruct rows as [|x rows]; [done|]. apply HS; [done|]. apply IH. rewrite length_drop. cbn [length]. lia.
Qed.

Lemma concat_chunks rows : concat (chunks rows) = rows.
Proof.
  induction rows as [|rows Hne IH] using chunks_ind; [done|]. rewrite chunks_cons by done. cbn [concat]. by rewrite IH, take_drop.
Qed.

Lemma chunks_full full rows : Forall (fun b => length b = cap) full -> chunks (concat full ++ rows) = full ++ chunks rows.
Proof.
  induction 1 as [|b full Hb _ IH]; [done|]. cbn [concat app]. rewrite <- app_assoc. rewrite chunks_cons.
  - by rewrite take_app_length', drop_app_length', IH by done.
  - destruct b; [simpl in Hb; lia|done].
Qed.

(** All blocks but the last are full. *)
Lemma chunks_shape rows :
  rows <> [] -> exists full b, chunks rows = full ++ [b] /\ Forall (fun b => length b = cap) full /\ length b <= cap.
Proof.
  induction rows as [|rows Hne IH] using chunks_ind; [done|]. intros _. rewrite chunks_cons by done.
  destruct (decide (drop cap rows = [])) as [Hd|Hd].
  - rewrite Hd. exists [], (take cap rows). split_and!; [done|done|rewrite length_take; lia].
  - destruct (IH Hd) as (full & b & -> & Hfull & Hb). exists (take cap rows :: full), b. split_and!; [done| |done].
    constructor; [|done]. rewrite length_take. destruct (Nat.le_gt_cases cap (length rows)) as [?|Hlt]; [lia|]. by rewrite drop_ge in Hd by lia.
Qed.

Lemma append_loop_chunks fuel full block rows :
  length block <= cap -> rows <> [] -> length rows + (if length block <? cap then 0 else 1) < fuel ->
  append_loop cap fuel full block rows = Ok (full ++ chunks (block ++ rows)).
Proof.
  revert full block rows. induction fuel as [|fuel IH]; intros full block rows Hb Hne Hfuel; [lia|]. cbn [append_loop].
  destruct rows as [|r rows']; [done|]. set (rows := r :: rows') in *. set (n := Nat.min (cap - length block) (length rows)).
  assert (block ++ rows <> []) as Hne' by (intros [_ ?]%app_eq_nil; done). rewrite chunks_cons by done.
  assert (take cap (block ++ rows) = block ++ take n rows) as ->.
  { rewrite take_app, take_ge by done. f_equal. subst n. destruct (Nat.min_spec (cap - length block) (length rows)) as [[_ ->]|[Hle ->]]; [done|].
    by rewrite !take_ge by lia. }
  assert (drop cap (block ++ rows) = drop n rows) as ->.
  { rewrite drop_app, drop_ge by done. cbn [app]. subst n. destruct (Nat.min_spec (cap - length block) (length rows)) as [[_ ->]|[Hle ->]]; [done|].
    by rewrite !drop_ge by lia. }
  destruct (drop n rows) as [|x rest] eqn:Hd; [done|]. rewrite IH; [by rewrite <- app_assoc|simpl; lia|done|].
  apply (f_equal length) in Hd. rewrite length_drop in Hd. simpl in Hd. cbn [length]. rewrite (proj2 (Nat.ltb_lt 0 cap)) by done.
  destruct (Nat.ltb_spec (length block) cap); simpl in *; lia.
Qed.

(** Appending rows keeps the blocks filled one after another. *)
Lemma append_rows_chunks blocks old rows heap_sizes blocks' :
  rows <> [] -> row_blocks blocks = chunks old -> append_rows cap blocks rows heap_sizes = Ok blocks' -> row_blocks blocks' = chunks (old ++ rows).
Proof.
  intros Hne Hold. unfold append_rows.
  assert (append_loop cap (S (S (length rows))) (take (length (row_blocks blocks) - 1) (row_blocks blocks)) (default [] (last (row_blocks blocks))) rows
    = Ok (chunks (old ++ rows))) as ->.
  { rewrite Hold. destruct (decide (old = [])) as [->|Ho].
    - rewrite append_loop_chunks; [done|simpl; lia|done|]. destruct (_ <? _); lia.
    - assert (chunks (old ++ rows) = chunks (concat (chunks old) ++ rows)) as -> by by rewrite concat_chunks.
      destruct (chunks_shape old Ho) as (full & b & -> & Hfull & Hb).
      rewrite last_snoc, length_app, Nat.add_sub, take_app_length. cbn [from_option]. unfold id. rewrite concat_app. cbn [concat].
      rewrite app_nil_r, <- app_assoc, chunks_full by done. apply append_loop_chunks; [done|done|]. destruct (_ <? _); lia. }
  unfold mbind, res_bind. destruct heap_sizes as [sizes|]; [|by intros [= <-]]. destruct (_ <? _)%Z; [done|by intros [= <-]].
Qed.

End Chunks.

(** ** Scanning *)

(** [RowScanState], with the pointers of its [BlockScanState]. *)
Record RowScanState : Type := mkScanState {
  blocks_to_scan : list nat;
  current_block : option nat;
  row_idx : nat;
  row_pointers : list (nat * nat);
}.

(** [RowScanState::empty] *)
Definition empty_scan : RowScanState := mkScanState [] None 0 [].

(** [reset_for_partial_scan] *)
Definition reset_for_partial_scan (s : RowScanState) (block_indices : list nat) : RowScanState :=
  mkScanState block_indices None 0 [].

Definition new_partial_scan (block_indices : list nat) : RowScanState := reset_for_partial_scan empty_scan block_indices.

Section Scan.
Context {R : Type}.
Variable blocks : list (list R).

(** [new_full_scan] *)
Definition new_full_scan : RowScanState := new_partial_scan (seq 0 (length blocks)).

(** [prepare_block_scan] without clearing: pointers to the selected rows. *)
Definition prepare_block_scan (ptrs : list (nat * nat)) (block : nat) (selection : list nat) : list (nat * nat) :=
  ptrs ++ (pair block <$> selection).

(** The block to scan next, and the state when there is one; without one the row
    index is reset all the same. *)
Definition next_block (s : RowScanState) : option nat * RowScanState :=
  match current_block s with
  | Some curr => (Some curr, s)
  | None =>
      match blocks_to_scan s with
      | b :: rest => (Some b, mkScanState rest (Some b) 0 (row_pointers s))
      | [] => (None, mkScanState [] None 0 (row_pointers s))
      end
  end.

(** The loop of [scan_subset]; [out] is what is written to the outputs. *)
Fixpoint scan_loop (fuel : nat) (s : RowScanState) (remaining_cap : nat) (out : list R) : res (RowScanState * list R) :=
  match fuel with
  | O => Panic "out of fuel"
  | S fuel' =>
      if remaining_cap =? 0 then Ok (s, out)
      else
        match next_block s with
        | (None, s) => Ok (s, out)
        | (Some current, s) =>
            block ← index blocks current;
            if length block <=? row_idx s then
              scan_loop fuel' (mkScanState (blocks_to_scan s) None (row_idx s) (row_pointers s)) remaining_cap out
            else
              let to_scan := Nat.min remaining_cap (length block - row_idx s) in
              let ptrs := prepare_block_scan (row_pointers s) current (seq (row_idx s) to_scan) in
              scan_loop fuel' (mkScanState (blocks_to_scan s) (Some current) (row_idx s + to_scan) ptrs)
                (remaining_cap - to_scan) (out ++ take to_scan (drop (row_idx s) block))
        end
  end.

(** [scan_subset]: the state and the rows read. *)
Definition scan_subset (s : RowScanState) (count : nat) : res (RowScanState * list R) :=
  scan_loop (S (S (2 * length (blocks_to_scan s) + count)))
    (mkScanState (blocks_to_scan s) (current_block s) (row_idx s) []) count [].

(** The rows a scan has left. *)
Definition scan_left (s : RowScanState) : list R :=
  match current_block s with Some c => drop (row_idx s) (default [] (blocks !! c)) | None => [] end
  ++ concat ((fun b => default [] (blocks !! b)) <$> blocks_to_scan s).

Record scan_wf (s : RowScanState) : Prop := {
  wf_queue : Forall (fun b => b < length blocks) (blocks_to_scan s);
  wf_current : forall c, current_block s = Some c -> c < length blocks;
}.

(** The pointers lead to the rows. *)
Definition points_to (p : nat * nat) (r : R) : Prop := exists block, blocks !! p.1 = Some block /\ block !! p.2 = Some r.

Lemma next_block_spec s :
  scan_wf s ->
  match next_block s with
  | (None, s') => scan_left s = [] /\ s' = mkScanState [] None 0 (row_pointers s)
  | (Some c, s') => exists block, blocks !! c = Some block /\ current_block s' = Some c /\ scan_wf s'
      /\ scan_left s' = scan_left s /\ row_pointers s' = row_pointers s
      /\ 2 * length (blocks_to_scan s') + 1 <= 2 * length (blocks_to_scan s) + (if current_block s is Some _ then 1 else 0)
  end.
Proof.
  intros [Hq Hc]. unfold next_block, scan_left. destruct (current_block s) as [c|] eqn:Hcur.
  - destruct (lookup_lt_is_Some_2 blocks c (Hc c eq_refl)) as [block Hb]. exists block. rewrite Hcur.
    split_and!; try done. by split; [|rewrite Hcur].
  - destruct (blocks_to_scan s) as [|b rest] eqn:Hbs; [done|]. apply Forall_cons in Hq as [Hb Hrest].
    destruct (lookup_lt_is_Some_2 blocks b Hb) as [block Hblock]. exists block. cbn [current_block blocks_to_scan row_idx row_pointers].
    split_and!; try done; [split; [done|]; cbn; intros c [= <-]; done|cbn [length]; lia].
Qed.

Lemma points_to_range c block start n :
  blocks !! c = Some block -> start + n <= length block ->
  Forall2 points_to (pair c <$> seq start n) (take n (drop start block)).
Proof.
  intros Hc Hn. apply Forall2_same_length_lookup_2; [rewrite length_fmap, length_seq, length_take, length_drop; lia|].
  intros i p r Hp Hr. rewrite list_lookup_fmap in Hp. destruct (seq start n !! i) as [k|] eqn:Hk; [|done]. injection Hp as <-.
  apply lookup_seq in Hk as [-> Hi]. exists block. split; [done|]. cbn [snd].
  rewrite lookup_take_lt, lookup_drop in Hr by done. done.
Qed.

Lemma scan_loop_spec fuel s cap out :
  scan_wf s -> 2 * length (blocks_to_scan s) + (if current_block s is Some _ then 1 else 0) + cap < fuel ->
  exists s' ptrs, scan_loop fuel s cap out = Ok (s', out ++ take cap (scan_left s))
    /\ scan_left s' = drop cap (scan_left s) /\ scan_wf s'
    /\ row_pointers s' = row_pointers s ++ ptrs /\ Forall2 points_to ptrs (take cap (scan_left s)).
Proof.
  revert s cap out. induction fuel as [|fuel IH]; intros s cap out Hwf Hfuel; [lia|]. cbn [scan_loop].
  destruct (Nat.eqb_spec cap 0) as [->|Hcap].
  { exists s, []. rewrite take_0, drop_0, !app_nil_r. by split_and!. }
  pose proof (next_block_spec s Hwf) as Hnext. destruct (next_block s) as [[c|] s1].
  2: { destruct Hnext as [Hnil ->]. eexists _, []. rewrite Hnil, take_nil, drop_nil, !app_nil_r. by split_and!. }
  destruct Hnext as (block & Hb & Hcur & Hwf1 & Hleft & Hptrs & Hm).
  rewrite (bind_ok _ _ _ (proj2 (index_Ok _ _ _) Hb)). destruct (Nat.leb_spec (length block) (row_idx s1)) as [Hle|Hgt].
  - set (s2 := mkScanState _ None _ _). assert (scan_left s2 = scan_left s) as Hl2.
    { rewrite <- Hleft. unfold scan_left, s2. cbn [current_block blocks_to_scan]. rewrite Hcur, Hb. cbn. unfold id. by rewrite drop_ge. }
    rewrite <- Hl2. assert (row_pointers s = row_pointers s2) as -> by done. apply IH; [split; [apply Hwf1|done]|]. cbn [s2 current_block blocks_to_scan]. lia.
  - set (n := Nat.min cap (length block - row_idx s1)). set (s2 := mkScanState _ (Some c) _ _).
    assert (scan_left s = take n (drop (row_idx s1) block) ++ scan_left s2) as Hl2.
    { rewrite <- Hleft. unfold scan_left, s2. cbn [current_block blocks_to_scan row_idx]. rewrite Hcur, Hb. cbn. unfold id.
      rewrite app_assoc, <- drop_drop, take_drop. done. }
    assert (length (take n (drop (row_idx s1) block)) = n) as Hn by (rewrite length_take, length_drop; lia).
    destruct (IH s2 (cap - n) (out ++ take n (drop (row_idx s1) block))) as (s' & ptrs & -> & Hs' & Hwf' & Hp' & Hpt).
    { split; [apply Hwf1|]. cbn. intros ? [= <-]. by eapply lookup_lt_Some. }
    { cbn [s2 current_block blocks_to_scan]. lia. }
    exists s', ((pair c <$> seq (row_idx s1) n) ++ ptrs). rewrite Hl2, take_app_ge, drop_app_ge, Hn, <- app_assoc by lia.
    split_and!; try done.
    + rewrite Hp'. cbn [s2 row_pointers]. unfold prepare_block_scan. by rewrite Hptrs, app_assoc.
    + apply Forall2_app; [|done]. apply points_to_range; [done|lia].
Qed.

(** A scan reads the next rows of its blocks, in order, and keeps pointers to
    exactly those rows. *)
Lemma scan_subset_spec s count :
  scan_wf s -> exists s', scan_subset s count = Ok (s', take count (scan_left s))
    /\ scan_left s' = drop count (scan_left s) /\ scan_wf s' /\ Forall2 points_to (row_pointers s') (take count (scan_left s)).
Proof.
  intros [Hq Hc]. unfold scan_subset. set (s0 := mkScanState _ _ _ []).
  destruct (scan_loop_spec (S (S (2 * length (blocks_to_scan s) + count))) s0 count []) as (s' & ptrs & -> & Hl & Hwf & Hp & Hpt); [by split| |].
  { cbn [s0 blocks_to_scan current_block]. destruct (current_block s); lia. }
  exists s'. split_and!; try done. rewrite Hp. done.
Qed.

Lemma scan_left_partial idxs : scan_left (new_partial_scan idxs) = concat ((fun b => default [] (blocks !! b)) <$> idxs).
Proof. done. Qed.

Lemma scan_left_full : scan_left new_full_scan = concat blocks.
Proof.
  unfold new_full_scan. rewrite scan_left_partial. f_equal. apply list_eq. intros i. rewrite list_lookup_fmap.
  destruct (decide (i < length blocks)) as [Hi|Hi].
  - rewrite lookup_seq_lt by done. cbn. destruct (lookup_lt_is_Some_2 blocks i Hi) as [b Hb]. by rewrite Hb.
  - rewrite lookup_seq_ge by lia. cbn. symmetry. apply lookup_ge_None. lia.
Qed.

Lemma partial_scan_wf idxs : Forall (fun b => b < length blocks) idxs -> scan_wf (new_partial_scan idxs).
Proof. by split. Qed.

End Scan.
