(* ===== verification/ExecutionStack.v ===== *)
(** * The execution stack of a pipeline

    Models [execution/execution_stack.rs] and the poll enums of
    [execution/operators/mod.rs]: the instruction stack that decides which
    operator of a partition pipeline is executed or finalized next.  The
    operators themselves are behind the [Effects] interface, exactly as in the
    Rust code, so every theorem here holds for arbitrary operators. *)
From S2P Require Import Prelude.

(** ** Poll results ([operators/mod.rs]) *)

Module PollExecute.
Inductive t : Type :=
| Ready
| Pending
| NeedsMore
| HasMore
| Exhausted.
#[global] Instance t_eq_dec : EqDecision t.
Proof. solve_decision. Defined.
End PollExecute.

Module PollPull.
Inductive t : Type :=
| Pending
| HasMore
| Exhausted.
#[global] Instance t_eq_dec : EqDecision t.
Proof. solve_decision. Defined.
(** [PollPull::as_poll_execute] *)
Definition as_poll_execute (p : t) : PollExecute.t :=
  match p with
  | Pending => PollExecute.Pending
  | HasMore => PollExecute.HasMore
  | Exhausted => PollExecute.Exhausted
  end.
End PollPull.

Module PollPush.
Inductive t : Type :=
| Pending
| NeedsMore.
#[global] Instance t_eq_dec : EqDecision t.
Proof. solve_decision. Defined.
(** [PollPush::as_poll_execute] *)
Definition as_poll_execute (p : t) : PollExecute.t :=
  match p with
  | Pending => PollExecute.Pending
  | NeedsMore => PollExecute.NeedsMore
  end.
End PollPush.

Module PollFinalize.
Inductive t : Type :=
| Finalized
| NeedsDrain
| Pending.
#[global] Instance t_eq_dec : EqDecision t.
Proof. solve_decision. Defined.
End PollFinalize.

Module StackControlFlow.
Inductive t : Type :=
| Continue
| Finished
| Pending.
#[global] Instance t_eq_dec : EqDecision t.
Proof. solve_decision. Defined.
End StackControlFlow.

(** ** The stack *)

(** The [Effects] trait: what the stack asks of the pipeline.  [H] is the
    handler's own ([&mut self]) state. *)
Class Effects (H : Type) : Type := {
  handle_execute : nat -> M H PollExecute.t;
  handle_finalize : nat -> M H PollFinalize.t;
}.

(** [enum Instruction] *)
Inductive Instruction : Type :=
| ExecuteOperator (operator_idx : nat) (is_pipeline_start : bool)
| FinalizeOperator (operator_idx : nat).

#[global] Instance Instruction_eq_dec : EqDecision Instruction.
Proof. solve_decision. Defined.

(** [struct ExecutionStack].  The Rust [Vec] is pushed and popped at its end;
    here the head of the list is the end of the [Vec]. *)
Record ExecutionStack : Type := mkStack {
  num_operators : nat;
  instructions : list Instruction;
}.

(** Replacing [self.instructions]. *)
Definition with_instructions (st : ExecutionStack) (l : list Instruction) : ExecutionStack :=
  {| num_operators := num_operators st; instructions := l |}.

(** [ExecutionStack::new]: panics for zero operators. *)
Definition new (num : nat) : res ExecutionStack :=
  _ ← rust_assert (negb (num =? 0)) "num_operators is zero";
  Ok {| num_operators := num; instructions := [ExecuteOperator 0 true] |}.

(** The arm of [pop_next] for a popped [ExecuteOperator], once the operator
    has been polled; [rest] is the stack without the popped instruction. *)
Definition after_execute (st : ExecutionStack) (rest : list Instruction)
    (operator_idx : nat) (is_pipeline_start : bool) (poll : PollExecute.t)
    : res StackControlFlow.t * ExecutionStack :=
  let instr := ExecuteOperator operator_idx is_pipeline_start in
  let is_last := operator_idx =? num_operators st - 1 in
  let next := ExecuteOperator (operator_idx + 1) false in
  match poll with
  | PollExecute.Ready =>
      let kept := if is_pipeline_start then instr :: rest else rest in
      let pushed := if negb is_last then next :: kept else kept in
      (Ok StackControlFlow.Continue, with_instructions st pushed)
  | PollExecute.Pending =>
      (Ok StackControlFlow.Pending, with_instructions st (instr :: rest))
  | PollExecute.NeedsMore =>
      (Ok StackControlFlow.Continue, with_instructions st rest)
  | PollExecute.HasMore =>
      let kept := instr :: rest in
      if negb is_last
      then (Ok StackControlFlow.Continue, with_instructions st (next :: kept))
      else (Err "Last operator returned HasMore", with_instructions st kept)
  | PollExecute.Exhausted =>
      if is_last
      then (Err "Last operator returned Exhausted", with_instructions st [])
      else (Ok StackControlFlow.Continue,
            with_instructions st [next; FinalizeOperator (operator_idx + 1)])
  end.

(** The arm of [pop_next] for a popped [FinalizeOperator]. *)
Definition after_finalize (st : ExecutionStack) (rest : list Instruction)
    (operator_idx : nat) (poll : PollFinalize.t)
    : res StackControlFlow.t * ExecutionStack :=
  let is_last := operator_idx =? num_operators st - 1 in
  match poll with
  | PollFinalize.Finalized =>
      if is_last
      then (Ok StackControlFlow.Finished, with_instructions st rest)
      else (Ok StackControlFlow.Continue,
            with_instructions st (FinalizeOperator (operator_idx + 1) :: rest))
  | PollFinalize.NeedsDrain =>
      if is_last
      then (Err "Last operator returned NeedsDrain", with_instructions st rest)
      else (Ok StackControlFlow.Continue,
            with_instructions st (ExecuteOperator operator_idx true :: rest))
  | PollFinalize.Pending =>
      (Ok StackControlFlow.Pending,
       with_instructions st (FinalizeOperator operator_idx :: rest))
  end.

(** [ExecutionStack::pop_next]. *)
Definition pop_next {H} `{Effects H} : M (ExecutionStack * H) StackControlFlow.t :=
  fun '(st, h) =>
  match instructions st with
  | [] => (Ok StackControlFlow.Finished, (st, h))
  | ExecuteOperator operator_idx is_pipeline_start :: rest =>
      match handle_execute operator_idx h with
      | (Ok poll, h') =>
          let '(r, st') := after_execute st rest operator_idx is_pipeline_start poll in
          (r, (st', h'))
      | (Err e, h') => (Err e, (with_instructions st rest, h'))
      | (Panic w, h') => (Panic w, (with_instructions st rest, h'))
      end
  | FinalizeOperator operator_idx :: rest =>
      if operator_idx =? 0
      then (Panic "attempted to finalize operator at index 0",
            (with_instructions st rest, h))
      else
        match handle_finalize operator_idx h with
        | (Ok poll, h') =>
            let '(r, st') := after_finalize st rest operator_idx poll in
            (r, (st', h'))
        | (Err e, h') => (Err e, (with_instructions st rest, h'))
        | (Panic w, h') => (Panic w, (with_instructions st rest, h'))
        end
  end.

(** ** Runs

    To speak about the order of calls, a handler is wrapped so that it records
    every poll it answers; the most recent event is the head of the log. *)

Inductive Event : Type :=
| EvExecute (operator_idx : nat) (poll : PollExecute.t)
| EvFinalize (operator_idx : nat) (poll : PollFinalize.t).

#[global] Instance Event_eq_dec : EqDecision Event.
Proof. solve_decision. Defined.

Definition event_idx (e : Event) : nat :=
  match e with EvExecute i _ => i | EvFinalize i _ => i end.

Definition instr_idx (i : Instruction) : nat :=
  match i with ExecuteOperator i _ => i | FinalizeOperator i => i end.

Definition log_call {H A} (mk : A -> Event) (call : M H A) : M (H * list Event) A :=
  fun '(h, log) =>
  match call h with
  | (Ok a, h') => (Ok a, (h', mk a :: log))
  | (Err e, h') => (Err e, (h', log))
  | (Panic w, h') => (Panic w, (h', log))
  end.

Definition logged {H} (E : Effects H) : Effects (H * list Event) := {|
  handle_execute i := log_call (EvExecute i) (handle_execute i);
  handle_finalize i := log_call (EvFinalize i) (handle_finalize i);
|}.

(** The configurations a pipeline of [n] operators reaches by calling
    [pop_next] repeatedly, for an arbitrary handler. *)
Inductive reachable {H} (E : Effects H) (n : nat) : ExecutionStack -> list Event -> H -> Prop :=
| reach_new st h :
    new n = Ok st -> reachable E n st [] h
| reach_pop st log h cf st' log' h' :
    reachable E n st log h ->
    @pop_next _ (logged E) (st, (h, log)) = (Ok cf, (st', (h', log'))) ->
    reachable E n st' log' h'.

(** A sequence of successful [pop_next] calls between two configurations. *)
Inductive pop_star {H} (E : Effects H)
    : ExecutionStack * list Event * H -> ExecutionStack * list Event * H -> Prop :=
| pop_star_refl c : pop_star E c c
| pop_star_step st log h cf st' log' h' c :
    @pop_next _ (logged E) (st, (h, log)) = (Ok cf, (st', (h', log'))) ->
    pop_star E (st', log', h') c -> pop_star E (st, log, h) c.

Lemma pop_star_reachable {H} (E : Effects H) n st log h st' log' h' :
  reachable E n st log h -> pop_star E (st, log, h) (st', log', h') -> reachable E n st' log' h'.
Proof.
  intros Hr Hs. remember (st, log, h) as c eqn:Hc. remember (st', log', h') as c' eqn:Hc'.
  revert st log h Hc Hr. induction Hs as [c|st0 log0 h0 cf st1 log1 h1 c Hpop _ IH]; intros; simplify_eq.
  - done.
  - eapply IH; [done|done|]. by eapply reach_pop.
Qed.

Lemma pop_next_log {H} (E : Effects H) st log h r st' log' h' :
  @pop_next _ (logged E) (st, (h, log)) = (r, (st', (h', log'))) -> exists evs, log' = evs ++ log.
Proof.
  unfold pop_next. destruct (instructions st) as [|[i b|i] rest]; simpl.
  - intros [= _ _ _ <-]. by exists [].
  - unfold log_call. destruct (handle_execute i h) as [[p|e|w] h1];
      [destruct (after_execute st rest i b p)|..]; intros [= _ _ _ <-];
      [by exists [EvExecute i p]|by exists []..].
  - destruct (i =? 0); [intros [= _ _ _ <-]; by exists []|].
    unfold log_call. destruct (handle_finalize i h) as [[p|e|w] h1];
      [destruct (after_finalize st rest i p)|..]; intros [= _ _ _ <-];
      [by exists [EvFinalize i p]|by exists []..].
Qed.

Lemma pop_star_log {H} (E : Effects H) st log h st' log' h' :
  pop_star E (st, log, h) (st', log', h') -> exists evs, log' = evs ++ log.
Proof.
  intros Hs. remember (st, log, h) as c eqn:Hc. remember (st', log', h') as c' eqn:Hc'.
  revert st log h Hc. induction Hs as [c|st0 log0 h0 cf st1 log1 h1 c Hpop _ IH]; intros; simplify_eq.
  - by exists [].
  - destruct (pop_next_log _ _ _ _ _ _ _ _ Hpop) as [evs1 ->].
    destruct (IH eq_refl _ _ _ eq_refl) as [evs2 ->]. exists (evs2 ++ evs1). by rewrite app_assoc.
Qed.

(** One successful call of [pop_next] as a labelled step on the stack. *)
Inductive stack_step (st : ExecutionStack) : list Event -> StackControlFlow.t -> ExecutionStack -> Prop :=
| step_empty :
    instructions st = [] ->
    stack_step st [] StackControlFlow.Finished st
| step_execute i b rest p cf st' :
    instructions st = ExecuteOperator i b :: rest ->
    after_execute st rest i b p = (Ok cf, st') ->
    stack_step st [EvExecute i p] cf st'
| step_finalize i rest p cf st' :
    instructions st = FinalizeOperator i :: rest ->
    i <> 0 ->
    after_finalize st rest i p = (Ok cf, st') ->
    stack_step st [EvFinalize i p] cf st'.

Lemma pop_next_step {H} (E : Effects H) st h log cf st' h' log' :
  @pop_next _ (logged E) (st, (h, log)) = (Ok cf, (st', (h', log'))) ->
  exists evs, log' = evs ++ log /\ stack_step st evs cf st'.
Proof.
  unfold pop_next. destruct (instructions st) as [|[i b|i] rest] eqn:Hst.
  - intros [= <- <- _ <-]. exists []. split; [done|]. by constructor.
  - simpl. unfold log_call. destruct (handle_execute i h) as [[p| |] h1]; [|done..].
    destruct (after_execute st rest i b p) as [r st1] eqn:Hafter.
    intros [= -> <- _ <-]. exists [EvExecute i p]. split; [done|]. by econstructor.
  - case (Nat.eqb_spec i 0) as [|Hi]; [done|].
    simpl. unfold log_call. destruct (handle_finalize i h) as [[p| |] h1]; [|done..].
    destruct (after_finalize st rest i p) as [r st1] eqn:Hafter.
    intros [= -> <- _ <-]. exists [EvFinalize i p]. split; [done|]. by econstructor.
Qed.

Lemma stack_step_num st evs cf st' :
  stack_step st evs cf st' -> num_operators st' = num_operators st.
Proof.
  destruct 1 as [|i b rest p cf st' _ Ha|i rest p cf st' _ _ Ha]; [done|..];
    destruct p; simpl in Ha; try (destruct (_ =? _)); simplify_eq/=; done.
Qed.

Lemma reachable_ind_step {H} (E : Effects H) n (P : ExecutionStack -> list Event -> Prop) :
  (forall st, new n = Ok st -> P st []) ->
  (forall st log evs cf st', num_operators st = n -> P st log -> stack_step st evs cf st' ->
     P st' (evs ++ log)) ->
  forall st log h, reachable E n st log h -> num_operators st = n /\ P st log.
Proof.
  intros Hnew Hstep st log h. induction 1 as [st h Hn|st log h cf st' log' h' _ [Hn HP] Hpop].
  - split; [|by apply Hnew].
    unfold new in Hn. destruct (n =? 0); by simplify_eq/=.
  - destruct (pop_next_step _ _ _ _ _ _ _ _ Hpop) as (evs & -> & Hs).
    split; [|by eapply Hstep]. by rewrite (stack_step_num _ _ _ _ Hs).
Qed.

(** ** The shape of the stack *)

(** [chain lo n l]: instructions that execute operators [lo <= j < n], none
    of them a pipeline start, with indices strictly decreasing from the top. *)
Definition chain (lo n : nat) (l : list Instruction) : Prop :=
  exists js, l = (fun j => ExecuteOperator j false) <$> js
    /\ StronglySorted (fun a b => b < a) js /\ Forall (fun j => lo <= j < n) js.

(** The three shapes: finished; running from the pipeline start [s]; or about
    to finalize [f], possibly with batches for [f] and above still in flight. *)
Inductive wf_stack (n : nat) : list Instruction -> Prop :=
| wf_done : wf_stack n []
| wf_running s top :
    s < n -> chain (s + 1) n top -> wf_stack n (top ++ [ExecuteOperator s true])
| wf_finalizing f top :
    0 < f < n -> chain f n top -> wf_stack n (top ++ [FinalizeOperator f]).

Lemma chain_nil lo n : chain lo n [].
Proof. exists []. repeat constructor. Qed.

Lemma chain_cons_inv lo n i l :
  chain lo n (i :: l) ->
  exists j, i = ExecuteOperator j false /\ lo <= j < n /\ chain lo n l
    /\ forall k, j < k < n -> chain lo n (ExecuteOperator k false :: l).
Proof.
  intros ([|j js] & Heq & Hs & Hf); [done|]. simplify_eq/=.
  apply StronglySorted_inv in Hs as [Hs Hlt]. apply Forall_cons in Hf as [Hj Hf].
  exists j. repeat split; [lia..| |].
  - by exists js.
  - intros k Hk. exists (k :: js). split; [done|]. split.
    + constructor; [done|]. eapply Forall_impl; [exact Hlt|]. simpl. lia.
    + constructor; [lia|done].
Qed.

Lemma chain_push lo n j l k :
  chain lo n (ExecuteOperator j false :: l) -> j < k < n ->
  chain lo n (ExecuteOperator k false :: ExecuteOperator j false :: l).
Proof.
  intros (js & Heq & Hs & Hf) Hk. destruct js as [|j' js]; [done|]. simplify_eq/=.
  exists (k :: j' :: js). split; [done|].
  pose proof (StronglySorted_inv Hs) as [_ Hlt].
  apply Forall_cons in Hf as [Hj Hf].
  split; constructor; [done| |lia|by constructor].
  constructor; [lia|]. eapply Forall_impl; [exact Hlt|]. simpl. lia.
Qed.

Lemma chain_single lo n k : lo <= k < n -> chain lo n [ExecuteOperator k false].
Proof. exists [k]. split_and!; [done| |]; repeat constructor; lia. Qed.

#[export] Hint Resolve chain_nil chain_single chain_push : glare.

Lemma wf_top_execute n i b rest :
  wf_stack n (ExecuteOperator i b :: rest) ->
  i < n /\ wf_stack n rest
  /\ (forall k, i < k < n -> wf_stack n (ExecuteOperator k false :: ExecuteOperator i b :: rest))
  /\ (b = false -> forall k, i < k < n -> wf_stack n (ExecuteOperator k false :: rest)).
Proof.
  inversion 1 as [|s top Hs Hc Heq|f top Hf Hc Heq].
  - destruct top as [|x top]; simplify_eq/=.
    + split_and!; [done|constructor| |done].
      intros k Hk. apply (wf_running n i [ExecuteOperator k false]); [done|].
      apply chain_single. lia.
    + destruct (chain_cons_inv _ _ _ _ Hc) as (j & ? & Hj & Hc' & Hup). simplify_eq/=.
      split_and!; [lia|by constructor| |].
      * intros k Hk. apply (wf_running n s (ExecuteOperator k false :: ExecuteOperator j false :: top)); [done|].
        by apply chain_push.
      * intros _ k Hk. apply (wf_running n s (ExecuteOperator k false :: top)); [done|]. by apply Hup.
  - destruct top as [|x top]; simplify_eq/=.
    destruct (chain_cons_inv _ _ _ _ Hc) as (j & ? & Hj & Hc' & Hup). simplify_eq/=.
    split_and!; [lia|by constructor| |].
    + intros k Hk. apply (wf_finalizing n f (ExecuteOperator k false :: ExecuteOperator j false :: top)); [done|].
      by apply chain_push.
    + intros _ k Hk. apply (wf_finalizing n f (ExecuteOperator k false :: top)); [done|]. by apply Hup.
Qed.

Lemma wf_top_finalize n f rest :
  wf_stack n (FinalizeOperator f :: rest) -> rest = [] /\ 0 < f < n.
Proof.
  inversion 1 as [|s top Hs Hc Heq|g top Hg Hc Heq]; destruct top as [|x top]; simplify_eq/=; try done;
    destruct (chain_cons_inv _ _ _ _ Hc) as (j & ? & _); done.
Qed.

Lemma wf_single_finalize n f : 0 < f < n -> wf_stack n [FinalizeOperator f].
Proof. intros Hf. apply (wf_finalizing n f []); [done|apply chain_nil]. Qed.

Lemma wf_single_start n s : s < n -> wf_stack n [ExecuteOperator s true].
Proof. intros Hs. apply (wf_running n s []); [done|apply chain_nil]. Qed.

Lemma wf_exhausted n i : i + 1 < n -> wf_stack n [ExecuteOperator (i + 1) false; FinalizeOperator (i + 1)].
Proof.
  intros Hi. apply (wf_finalizing n (i + 1) [ExecuteOperator (i + 1) false]); [lia|].
  apply chain_single. lia.
Qed.

#[export] Hint Resolve wf_done wf_single_finalize wf_single_start wf_exhausted : glare.

(** Case analysis on the "is this the last operator" test of the code. *)
Ltac case_last :=
  match goal with
  | |- context [?a =? ?b] => case (Nat.eqb_spec a b) as [?|?]
  | H : context [?a =? ?b] |- _ => case (Nat.eqb_spec a b) as [?|?]
  end; simpl in *.

Lemma wf_stack_step st evs cf st' :
  wf_stack (num_operators st) (instructions st) -> stack_step st evs cf st' ->
  wf_stack (num_operators st) (instructions st').
Proof.
  intros Hwf. destruct 1 as [He|i b rest p cf st' Hst Ha|i rest p cf st' Hst Hi Ha]; [done|..];
    rewrite Hst in Hwf.
  - destruct (wf_top_execute _ _ _ _ Hwf) as (Hi & Hrest & Hkeep & Hdrop).
    destruct p; simpl in Ha; try case_last; simplify_eq/=; try done; auto with glare.
    + destruct b; simplify_eq/=; done.
    + destruct b; simplify_eq/=; [apply Hkeep|apply Hdrop]; [lia|done|lia].
    + apply Hkeep. lia.
    + apply wf_exhausted. lia.
  - destruct (wf_top_finalize _ _ _ Hwf) as [-> Hi'].
    destruct p; simpl in Ha; try case_last; simplify_eq/=; auto with glare.
    + apply wf_single_finalize. lia.
    + apply wf_single_start. lia.
Qed.

Lemma wf_new n st : new n = Ok st -> wf_stack n (instructions st).
Proof.
  unfold new. case_last; [done|]. intros [= <-]. apply wf_single_start. lia.
Qed.

Lemma reachable_wf {H} (E : Effects H) n st log h :
  reachable E n st log h -> num_operators st = n /\ wf_stack n (instructions st).
Proof.
  apply (reachable_ind_step E n (fun st _ => wf_stack n (instructions st))).
  - apply wf_new.
  - intros st0 log0 evs cf st' <- Hwf Hs. by eapply wf_stack_step.
Qed.

Lemma stack_step_event_range st evs cf st' e :
  wf_stack (num_operators st) (instructions st) -> stack_step st evs cf st' -> e ∈ evs ->
  event_idx e < num_operators st /\ (forall i p, e = EvFinalize i p -> i <> 0).
Proof.
  intros Hwf. destruct 1 as [He|i b rest p cf st' Hst Ha|i rest p cf st' Hst Hi Ha];
    rewrite ?Hst in Hwf; intros Hin; apply list_elem_of_In in Hin; simpl in Hin;
    [done|destruct Hin as [<-|[]]..]; simpl.
  - split; [|done]. by destruct (wf_top_execute _ _ _ _ Hwf).
  - apply wf_top_finalize in Hwf as [_ ?]. split; [lia|]. intros ? ? [= -> ->]. lia.
Qed.

(** ** Induction over steps with the shape at hand *)

Lemma reachable_ind_wf {H} (E : Effects H) n (P : list Instruction -> list Event -> Prop) :
  (0 < n -> P [ExecuteOperator 0 true] []) ->
  (forall st log evs cf st', num_operators st = n -> wf_stack n (instructions st) ->
     P (instructions st) log -> stack_step st evs cf st' -> P (instructions st') (evs ++ log)) ->
  forall st log h, reachable E n st log h -> P (instructions st) log.
Proof.
  intros Hnew Hstep st log h Hr.
  cut (wf_stack n (instructions st) /\ P (instructions st) log); [by intros []|].
  refine (proj2 (reachable_ind_step E n
    (fun st log => wf_stack n (instructions st) /\ P (instructions st) log) _ _ st log h Hr)).
  - intros st0 Hn. split; [by apply wf_new|].
    unfold new in Hn. case_last; simplify_eq/=. apply Hnew. lia.
  - intros st0 log0 evs cf st' <- [Hwf HP] Hs. split; [by eapply wf_stack_step|by eapply Hstep].
Qed.

(** What one step does to the instructions, given the shape of the stack:
    every instruction it leaves was there before or is for an operator at or
    above the polled one. *)
Lemma stack_step_monotone st evs cf st' lo :
  stack_step st evs cf st' ->
  Forall (fun i => lo <= instr_idx i) (instructions st) ->
  Forall (fun i => lo <= instr_idx i) (instructions st') /\ Forall (fun e => lo <= event_idx e) evs.
Proof.
  destruct 1 as [He|i b rest p cf st' Hst Ha|i rest p cf st' Hst Hi Ha];
    rewrite ?Hst; intros Hf; rewrite ?Forall_cons, ?Forall_nil in *; [by rewrite ?He|..];
    destruct Hf as [Hi' Hrest]; simpl in *.
  - split; [|by split].
    destruct p, b; simpl in Ha; try case_last; simplify_eq/=; rewrite ?Forall_cons, ?Forall_nil; simpl; intuition lia.
  - split; [|by split].
    destruct p; simpl in Ha; try case_last; simplify_eq/=; rewrite ?Forall_cons, ?Forall_nil; simpl; intuition lia.
Qed.

(** ** No polls below an exhausted or finalized operator *)

(** [closes i e]: after [e], operator [i] must not be polled again
    ([PollExecute::Exhausted] and [PollFinalize::Finalized]). *)
Definition closes (i : nat) (e : Event) : Prop :=
  e = EvExecute i PollExecute.Exhausted \/ e = EvFinalize i PollFinalize.Finalized.

Lemma stack_step_closes st evs cf st' i e :
  wf_stack (num_operators st) (instructions st) ->
  stack_step st evs cf st' -> e ∈ evs -> closes i e ->
  Forall (fun ins => S i <= instr_idx ins) (instructions st').
Proof.
  intros Hwf. destruct 1 as [He|j b rest p cf st' Hst Ha|j rest p cf st' Hst Hi Ha];
    rewrite ?Hst in Hwf; intros Hin; [by apply not_elem_of_nil in Hin|..];
    apply list_elem_of_singleton in Hin as ->; intros [|]; simplify_eq; simpl in Ha.
  - case_last; simplify_eq/=. rewrite !Forall_cons, Forall_nil. simpl. lia.
  - apply wf_top_finalize in Hwf as [-> _].
    case_last; simplify_eq/=; rewrite ?Forall_cons, ?Forall_nil; simpl; lia.
Qed.

(** Splitting a log at one of its events. *)
Lemma app_cons_split {A} (evs log later : list A) e earlier :
  length evs <= 1 ->
  evs ++ log = later ++ e :: earlier ->
  (later = [] /\ evs = [e] /\ log = earlier) \/
  (exists later', later = evs ++ later' /\ log = later' ++ e :: earlier).
Proof.
  destruct evs as [|e' [|]]; simpl; intros Hlen Heq; [by right; exists later| |lia].
  destruct later as [|x later]; simplify_eq/=; [by left|right; by exists later].
Qed.

Lemma stack_step_events st evs cf st' : stack_step st evs cf st' -> length evs <= 1.
Proof. destruct 1; simpl; lia. Qed.

Definition closed_inv (ins : list Instruction) (log : list Event) : Prop :=
  forall later e earlier i, log = later ++ e :: earlier -> closes i e ->
    Forall (fun ev => S i <= event_idx ev) later
    /\ Forall (fun x => S i <= instr_idx x) ins.

Lemma reachable_closed {H} (E : Effects H) n st log h :
  reachable E n st log h -> closed_inv (instructions st) log.
Proof.
  apply (reachable_ind_wf E n closed_inv).
  - intros _ [|] ? ? ?; done.
  - intros st0 log0 evs cf st' <- Hwf Hinv Hs later e earlier i Heq Hc.
    destruct (app_cons_split _ _ _ _ _ (stack_step_events _ _ _ _ Hs) Heq)
      as [(-> & -> & ->)|(later' & -> & ->)].
    + split; [constructor|]. eapply stack_step_closes; [done..| |done]. by apply list_elem_of_singleton.
    + destruct (Hinv _ _ _ _ eq_refl Hc) as [Hl Hi].
      destruct (stack_step_monotone _ _ _ _ _ Hs Hi) as [Hi' He].
      split; [by apply Forall_app|done].
Qed.

(** ** [HasMore] re-executes the same operator *)

(** After operator [i] answered [HasMore] and as long as only operators above
    [i] were polled: either the stack has moved past [i], or the first
    instruction that is not for an operator above [i] executes [i]. *)
Definition resumes (i : nat) (ins : list Instruction) : Prop :=
  Forall (fun x => i < instr_idx x) ins \/
  exists upper b lower, ins = upper ++ ExecuteOperator i b :: lower
    /\ Forall (fun x => i < instr_idx x) upper.

Lemma resumes_cons i x ins : i < instr_idx x -> resumes i ins -> resumes i (x :: ins).
Proof.
  intros Hx [Hf|(upper & b & lower & -> & Hf)]; [left; by constructor|].
  right. exists (x :: upper), b, lower. split; [done|by constructor].
Qed.

Lemma resumes_cons_inv i x ins :
  resumes i (x :: ins) ->
  (i < instr_idx x /\ resumes i ins) \/ exists b, x = ExecuteOperator i b.
Proof.
  intros [Hf|(upper & b & lower & Heq & Hf)].
  - apply Forall_cons in Hf as [? ?]. left. split; [done|by left].
  - destruct upper as [|y upper]; simplify_eq/=; [right; by exists b|].
    apply Forall_cons in Hf as [? ?]. left. split; [done|]. right. by exists upper, b, lower.
Qed.

Lemma stack_step_resumes st evs cf st' i :
  stack_step st evs cf st' -> resumes i (instructions st) ->
  (exists p, evs = [EvExecute i p]) \/
  (Forall (fun e => i < event_idx e) evs /\ resumes i (instructions st')).
Proof.
  destruct 1 as [He|j b rest p cf st' Hst Ha|j rest p cf st' Hst Hi Ha]; [by right|..];
    rewrite Hst; intros [[Hj Hr]|[b' ?]]%resumes_cons_inv; simplify_eq/=.
  2: by left; exists p.
  - right. split; [by constructor|].
    destruct p, b; simpl in Ha; try case_last; simplify_eq/=;
      repeat first [done | left; by constructor | apply resumes_cons; simpl; [lia|]]; left; repeat constructor; simpl; lia.
  - right. split; [by constructor|].
    destruct p; simpl in Ha; try case_last; simplify_eq/=;
      repeat first [done | apply resumes_cons; simpl; [lia|]].
Qed.

Definition has_more_inv (ins : list Instruction) (log : list Event) : Prop :=
  forall later i earlier, log = later ++ EvExecute i PollExecute.HasMore :: earlier ->
    (Forall (fun e => i < event_idx e) later /\ resumes i ins) \/
    (exists later' p between, later = later' ++ EvExecute i p :: between
       /\ Forall (fun e => i < event_idx e) between).

Lemma stack_step_has_more st cf st' i :
  stack_step st [EvExecute i PollExecute.HasMore] cf st' -> resumes i (instructions st').
Proof.
  inversion 1 as [|j b rest p cf' st'' Hst Ha|]; simplify_eq/=.
  case_last; simplify_eq/=. right. exists [ExecuteOperator (i + 1) false], b, rest.
  split; [done|]. repeat constructor. simpl. lia.
Qed.

Lemma reachable_has_more {H} (E : Effects H) n st log h :
  reachable E n st log h -> has_more_inv (instructions st) log.
Proof.
  apply (reachable_ind_wf E n has_more_inv).
  - intros _ [|] ? ? ?; done.
  - intros st0 log0 evs cf st' <- Hwf Hinv Hs later i earlier Heq.
    destruct (app_cons_split _ _ _ _ _ (stack_step_events _ _ _ _ Hs) Heq)
      as [(-> & -> & ->)|(later1 & -> & ->)].
    { left. split; [constructor|]. by eapply stack_step_has_more. }
    destruct (Hinv _ _ _ eq_refl) as [[Hf Hr]|(later' & p & between & -> & Hb)].
    + destruct (stack_step_resumes _ _ _ _ _ Hs Hr) as [[p ->]|[He Hr']].
      * right. by exists [], p, later1.
      * left. split; [by apply Forall_app|done].
    + right. exists (evs ++ later'), p, between. by rewrite <-app_assoc.
Qed.

(** Two ways to split a log at its first event for an operator [<= i]. *)
Lemma split_at_first_low i later later' e e' between between' :
  later ++ e :: between = later' ++ e' :: between' ->
  Forall (fun ev => i < event_idx ev) between -> event_idx e <= i ->
  Forall (fun ev => i < event_idx ev) between' -> event_idx e' <= i -> e = e'.
Proof.
  revert later'. induction later as [|x later IH]; intros [|x' later'] Heq Hb He Hb' He'; simplify_eq/=; [done| | |].
  - apply Forall_app in Hb as [_ Hb]. apply Forall_cons in Hb as [? _]. lia.
  - apply Forall_app in Hb' as [_ Hb']. apply Forall_cons in Hb' as [? _]. lia.
  - by eapply IH.
Qed.

Lemma has_more_next {H} (E : Effects H) n st log h i later e between earlier :
  reachable E n st log h ->
  log = later ++ e :: between ++ EvExecute i PollExecute.HasMore :: earlier ->
  Forall (fun ev => i < event_idx ev) between -> event_idx e <= i ->
  exists p, e = EvExecute i p.
Proof.
  intros Hr Heq Hb He.
  destruct (reachable_has_more E n st log h Hr (later ++ e :: between) i earlier)
    as [[Hf _]|(later' & p & between' & Hsplit & Hb')].
  { by rewrite Heq, <-app_assoc. }
  - apply Forall_app in Hf as [_ Hf]. apply Forall_cons in Hf as [? _]. lia.
  - exists p. by apply (split_at_first_low i later later' e (EvExecute i p) between between').
Qed.

(** ** Completion *)

(** Operator [j] no longer takes part in the pipeline: it was finalized, or it
    or an operator above it was exhausted (e.g. a reached LIMIT). *)
Definition settled (log : list Event) (j : nat) : Prop :=
  EvFinalize j PollFinalize.Finalized ∈ log \/
  exists k, j <= k /\ EvExecute k PollExecute.Exhausted ∈ log.

(** What a pipeline start owes the stack: a source, and an operator that asked
    to be drained, produce output until they are exhausted, and do not ask for
    more input.  ([PollPull] has no [NeedsMore]; [PollFinalize::NeedsDrain]
    documents the second half.) *)
Definition start_contract (log : list Event) : Prop :=
  forall later i earlier, log = later ++ EvExecute i PollExecute.NeedsMore :: earlier ->
    i <> 0 /\ EvFinalize i PollFinalize.NeedsDrain ∉ earlier.

(** The bottom instruction of a running stack, with what the log says of it. *)
Definition base_inv (n : nat) (ins : list Instruction) (log : list Event) : Prop :=
  match last ins with
  | None =>
      (exists earlier, log = EvFinalize (n - 1) PollFinalize.Finalized :: earlier)
      /\ (forall j, 1 <= j < n -> settled log j)
  | Some (ExecuteOperator s b) =>
      b = true /\ (s = 0 \/ EvFinalize s PollFinalize.NeedsDrain ∈ log)
      /\ (forall j, 1 <= j < s -> settled log j)
  | Some (FinalizeOperator f) => forall j, 1 <= j < f -> settled log j
  end.

Lemma settled_weaken evs log j : settled log j -> settled (evs ++ log) j.
Proof. intros [?|(k & ? & ?)]; [left|right; exists k]; set_solver. Qed.

Lemma base_inv_weaken n ins evs log :
  base_inv n ins log -> ins <> [] -> base_inv n ins (evs ++ log).
Proof.
  unfold base_inv. destruct (last ins) as [[s b|f]|] eqn:Hl.
  - intros (-> & Hs & Hset) _. split_and!; [done| |].
    + destruct Hs as [|Hin]; [by left|right]. apply elem_of_app. by right.
    + intros j Hj. by apply settled_weaken, Hset.
  - intros Hset _ j Hj. by apply settled_weaken, Hset.
  - by apply last_None in Hl as ->.
Qed.

Lemma base_inv_exhausted n i log :
  base_inv n [ExecuteOperator (i + 1) false; FinalizeOperator (i + 1)]
    (EvExecute i PollExecute.Exhausted :: log).
Proof. intros j Hj. right. exists i. split; [lia|apply list_elem_of_here]. Qed.

Lemma stack_step_execute_base n st log i b rest p cf st' :
  instructions st = ExecuteOperator i b :: rest ->
  base_inv n (instructions st) log ->
  after_execute st rest i b p = (Ok cf, st') ->
  start_contract (EvExecute i p :: log) ->
  base_inv n (instructions st') (EvExecute i p :: log).
Proof.
  intros Hst Hb Ha Hc. rewrite Hst in Hb.
  destruct (decide (p = PollExecute.Exhausted)) as [->|Hne].
  { simpl in Ha. case_last; simplify_eq/=. apply base_inv_exhausted. }
  destruct rest as [|y rest].
  - assert (b = true /\ (i = 0 \/ EvFinalize i PollFinalize.NeedsDrain ∈ log)) as [-> Hi].
    { destruct Hb as (-> & Hi & _). done. }
    pose proof (base_inv_weaken n _ [EvExecute i p] log Hb ltac:(done)) as Hb'.
    destruct p; simpl in Ha; try case_last; simplify_eq/=; try done.
    destruct (Hc [] i log eq_refl) as [Hi0 Hnd]. by destruct Hi.
  - assert (base_inv n (y :: rest) (EvExecute i p :: log)) as Hb'.
    { by apply (base_inv_weaken n (y :: rest) [EvExecute i p] log). }
    destruct p, b; simpl in Ha; try case_last; simplify_eq/=; done.
Qed.

Lemma stack_step_finalize_base n st log i p cf st' :
  num_operators st = n -> 0 < i < n ->
  base_inv n [FinalizeOperator i] log ->
  after_finalize st [] i p = (Ok cf, st') ->
  base_inv n (instructions st') (EvFinalize i p :: log).
Proof.
  intros Hn Hi Hb Ha. unfold base_inv in Hb. simpl in Hb.
  assert (forall j, 1 <= j < i -> settled (EvFinalize i p :: log) j) as Hb'.
  { intros j Hj. apply (settled_weaken [_]). auto. }
  destruct p; simpl in Ha; try case_last; simplify_eq/=; unfold base_inv; simpl.
  - split; [by eexists|]. intros j Hj.
    destruct (decide (j = num_operators st - 1)) as [->|]; [left; apply list_elem_of_here|apply Hb'; lia].
  - intros j Hj. destruct (decide (j = i)) as [->|]; [left; apply list_elem_of_here|apply Hb'; lia].
  - split_and!; [done| |done]. right. apply list_elem_of_here.
  - done.
Qed.

Lemma start_contract_tail evs log : start_contract (evs ++ log) -> start_contract log.
Proof.
  intros Hc later i earlier ->. apply (Hc (evs ++ later)). by rewrite <-app_assoc.
Qed.

Lemma reachable_base {H} (E : Effects H) n st log h :
  reachable E n st log h -> start_contract log -> base_inv n (instructions st) log.
Proof.
  apply (reachable_ind_wf E n (fun ins log => start_contract log -> base_inv n ins log)).
  - intros Hn _. unfold base_inv. simpl. split_and!; [done|by left|lia].
  - intros st0 log0 evs cf st' Hn Hwf Hinv Hs Hc.
    pose proof (Hinv (start_contract_tail _ _ Hc)) as Hb. clear Hinv.
    destruct Hs as [He|i b rest p cf st' Hst Ha|i rest p cf st' Hst Hi Ha]; [done|..].
    + by eapply stack_step_execute_base.
    + rewrite Hst in Hwf, Hb. apply wf_top_finalize in Hwf as [-> Hi'].
      by eapply stack_step_finalize_base.
Qed.

Lemma wf_stack_range n l : wf_stack n l -> Forall (fun ins => instr_idx ins < n) l.
Proof.
  intros [|s top Hs (js & -> & _ & Hf)|f top Hf (js & -> & _ & Hf')]; [constructor|..];
    apply Forall_app; split; [|repeat constructor; simpl; lia| |repeat constructor; simpl; lia];
    apply Forall_fmap; eapply Forall_impl; [done| |done|]; simpl; lia.
Qed.

Lemma wf_stack_no_finalize_source n l : wf_stack n l -> FinalizeOperator 0 ∉ l.
Proof.
  intros [|s top Hs (js & -> & _ & _)|f top Hf (js & -> & _ & _)];
    [by apply not_elem_of_nil|..]; rewrite elem_of_app, list_elem_of_fmap, list_elem_of_singleton;
    intros [(j & ? & _)|?]; simplify_eq. lia.
Qed.

Lemma finished_step_empty st evs st' :
  wf_stack (num_operators st) (instructions st) ->
  stack_step st evs StackControlFlow.Finished st' -> instructions st' = [].
Proof.
  intros Hwf. inversion 1 as [|i b rest p cf st'' Hst Ha|i rest p cf st'' Hst Hi Ha]; simplify_eq; [done|..].
  - destruct p; simpl in Ha; try case_last; simplify_eq.
  - rewrite Hst in Hwf. apply wf_top_finalize in Hwf as [-> _].
    destruct p; simpl in Ha; try case_last; by simplify_eq.
Qed.

(** The contract is decidable on a given log. *)
Fixpoint start_contractb (log : list Event) : bool :=
  match log with
  | [] => true
  | EvExecute i PollExecute.NeedsMore :: earlier =>
      negb (i =? 0) && bool_decide (EvFinalize i PollFinalize.NeedsDrain ∉ earlier)
      && start_contractb earlier
  | _ :: earlier => start_contractb earlier
  end.

Lemma start_contractb_sound log : start_contractb log = true -> start_contract log.
Proof.
  induction log as [|e log IH]; intros Hb [|e' later] i earlier Heq; simplify_eq/=.
  - apply andb_prop in Hb as [[Hi Hd]%andb_prop _]. apply bool_decide_eq_true in Hd.
    split; [|done]. by destruct i.
  - refine (IH _ later i earlier eq_refl).
    destruct e' as [j []|]; [done..| |done|done|done]. by apply andb_prop in Hb as [_ Hb].
Qed.

(** ** Concrete runs

    A handler that answers from a script, as the unit tests of the stack do,
    and the function that drives it. *)

Definition scripted : Effects (list Event) := {|
  handle_execute i h :=
    match h with
    | EvExecute j p :: h' => if i =? j then (Ok p, h') else (Panic "assertion failed", h)
    | _ => (Panic "called `Option::unwrap()` on a `None` value", h)
    end;
  handle_finalize i h :=
    match h with
    | EvFinalize j p :: h' => if i =? j then (Ok p, h') else (Panic "assertion failed", h)
    | _ => (Panic "called `Option::unwrap()` on a `None` value", h)
    end;
|}.

(** [pop_next] called [fuel] times, as long as it succeeds. *)
Fixpoint pops {H} (E : Effects H) (fuel : nat) (st : ExecutionStack) (h : H) (log : list Event)
    : ExecutionStack * H * list Event :=
  match fuel with
  | 0 => (st, h, log)
  | S fuel' =>
      match @pop_next _ (logged E) (st, (h, log)) with
      | (Ok _, (st', (h', log'))) => pops E fuel' st' h' log'
      | _ => (st, h, log)
      end
  end.

Lemma pops_reachable {H} (E : Effects H) n fuel st h log st' h' log' :
  reachable E n st log h -> pops E fuel st h log = (st', h', log') ->
  reachable E n st' log' h'.
Proof.
  revert st h log. induction fuel as [|fuel IH]; intros st h log Hr; cbn [pops].
  - by intros [= <- <- <-].
  - destruct (@pop_next _ (logged E) (st, (h, log))) as [[cf|e|w] [st1 [h1 log1]]] eqn:Hpop.
    + apply IH. by eapply reach_pop.
    + by intros [= <- <- <-].
    + by intros [= <- <- <-].
Qed.

(** A pipeline of three operators: a source with one batch and a final empty
    one, an operator with two outputs per input that must be drained, a sink. *)
Definition example_script : list Event := [
  EvExecute 0 PollExecute.HasMore; EvExecute 1 PollExecute.HasMore;
  EvExecute 2 PollExecute.NeedsMore; EvExecute 1 PollExecute.Ready;
  EvExecute 2 PollExecute.NeedsMore; EvExecute 0 PollExecute.Exhausted;
  EvExecute 1 PollExecute.NeedsMore; EvFinalize 1 PollFinalize.NeedsDrain;
  EvExecute 1 PollExecute.Exhausted; EvExecute 2 PollExecute.NeedsMore;
  EvFinalize 2 PollFinalize.Finalized ].

Lemma example_reachable fuel st' h' log' :
  pops scripted fuel (mkStack 3 [ExecuteOperator 0 true]) example_script [] = (st', h', log') ->
  reachable scripted 3 st' log' h'.
Proof. apply pops_reachable. by apply reach_new. Qed.

(** ** Properties *)

(** C22. At every point of every run, whatever the operators answer, the stack
    has one of its three shapes (finished, running upwards from one pipeline
    start, or waiting to finalize one operator), so every operator index it
    polls is in range and the source is never finalized: the assertion in
    [pop_next] cannot fail. *)
Theorem stack_invariant {H} (E : Effects H) n st log h :
  reachable E n st log h ->
  num_operators st = n /\ wf_stack n (instructions st)
  /\ Forall (fun ins => instr_idx ins < n) (instructions st)
  /\ FinalizeOperator 0 ∉ instructions st.
Proof.
  intros Hr. destruct (reachable_wf E n st log h Hr) as [Hn Hwf]. split_and!; [done..| |].
  - by apply wf_stack_range.
  - intros Hin. by apply (wf_stack_no_finalize_source _ _ Hwf).
Qed.

Lemma stack_invariant_witness :
  num_operators (mkStack 3 [ExecuteOperator 1 false; FinalizeOperator 1]) = 3
  /\ wf_stack 3 [ExecuteOperator 1 false; FinalizeOperator 1]
  /\ Forall (fun ins => instr_idx ins < 3) [ExecuteOperator 1 false; FinalizeOperator 1]
  /\ FinalizeOperator 0 ∉ [ExecuteOperator 1 false; FinalizeOperator 1].
Proof.
  eapply (stack_invariant scripted 3 (mkStack 3 [ExecuteOperator 1 false; FinalizeOperator 1])).
  apply (example_reachable 6). vm_compute. reflexivity.
Defined.

(** Once an operator answered [Exhausted], or was [Finalized], neither it
    nor any operator below it is executed or finalized again in that run. *)
Theorem no_poll_after_close {H} (E : Effects H) n st log h later e earlier i :
  reachable E n st log h ->
  log = later ++ e :: earlier -> closes i e ->
  Forall (fun ev => i < event_idx ev) later.
Proof. intros Hr Heq Hc. by destruct (reachable_closed E n st log h Hr later e earlier i Heq Hc). Qed.

Lemma no_poll_after_close_witness :
  Forall (fun ev => 0 < event_idx ev)
    [EvFinalize 1 PollFinalize.NeedsDrain; EvExecute 1 PollExecute.NeedsMore].
Proof.
  eapply (no_poll_after_close scripted 3 _ _ _ _ (EvExecute 0 PollExecute.Exhausted) _ 0).
  - apply (example_reachable 8). vm_compute. reflexivity.
  - reflexivity.
  - left. reflexivity.
Defined.

(** An operator that answered [HasMore] is executed again before any
    operator at or below it is polled, so its input batch (the output buffer
    of the operator below) is still the one it was given. *)
Theorem has_more_resumes {H} (E : Effects H) n st log h i later e between earlier :
  reachable E n st log h ->
  log = later ++ e :: between ++ EvExecute i PollExecute.HasMore :: earlier ->
  Forall (fun ev => i < event_idx ev) between -> event_idx e <= i ->
  exists p, e = EvExecute i p.
Proof. apply has_more_next. Qed.

Lemma has_more_resumes_witness :
  exists p, EvExecute 1 PollExecute.Ready = EvExecute 1 p.
Proof.
  eapply (has_more_resumes scripted 3 _ _ _ 1 [] _ [EvExecute 2 PollExecute.NeedsMore]).
  - apply (example_reachable 4). vm_compute. reflexivity.
  - reflexivity.
  - repeat constructor.
  - simpl. lia.
Defined.

(** When [pop_next] reports [Finished], the last thing that happened is
    that the sink was finalized, and every other operator was finalized or is
    at or below an exhausted one.  The contract asked of the operators is that
    a pipeline start does not answer [NeedsMore]. *)
Theorem finished_is_complete {H} (E : Effects H) n st log h st' log' h' :
  reachable E n st log h ->
  @pop_next _ (logged E) (st, (h, log)) = (Ok StackControlFlow.Finished, (st', (h', log'))) ->
  start_contract log' ->
  (exists earlier, log' = EvFinalize (n - 1) PollFinalize.Finalized :: earlier)
  /\ (forall j, 1 <= j < n -> settled log' j).
Proof.
  intros Hr Hpop Hc.
  assert (reachable E n st' log' h') as Hr' by by eapply reach_pop.
  pose proof (reachable_base E n st' log' h' Hr' Hc) as Hb.
  destruct (reachable_wf E n st log h Hr) as [<- Hwf].
  destruct (pop_next_step _ _ _ _ _ _ _ _ Hpop) as (evs & _ & Hs).
  by rewrite (finished_step_empty _ _ _ Hwf Hs) in Hb.
Qed.

Lemma finished_is_complete_witness :
  (exists earlier, rev example_script = EvFinalize 2 PollFinalize.Finalized :: earlier)
  /\ (forall j, 1 <= j < 3 -> settled (rev example_script) j).
Proof.
  eapply (finished_is_complete scripted 3).
  - apply (example_reachable 10). vm_compute. reflexivity.
  - vm_compute. reflexivity.
  - apply start_contractb_sound. vm_compute. reflexivity.
Defined.

(** When [pop_next] reports [Pending], the stack is exactly what it was,
    so the next call polls the same operator in the same way. *)
Theorem pending_keeps_stack {H} (E : Effects H) st h st' h' :
  pop_next (st, h) = (Ok StackControlFlow.Pending, (st', h')) -> st' = st.
Proof.
  unfold pop_next. destruct st as [n [|[i b|i] rest]]; simpl; [done|..].
  - destruct (handle_execute i h) as [[p| |] h1]; [|done..].
    destruct p, b; simpl; try case_last; by intros [= <- _].
  - case_last; [done|]. destruct (handle_finalize i h) as [[p| |] h1]; [|done..].
    destruct p; simpl; try case_last; by intros [= <- _].
Qed.

Lemma pending_keeps_stack_witness :
  mkStack 2 [ExecuteOperator 1 false; ExecuteOperator 0 true]
  = mkStack 2 [ExecuteOperator 1 false; ExecuteOperator 0 true].
Proof.
  apply (pending_keeps_stack scripted _ [EvExecute 1 PollExecute.Pending] _ []).
  vm_compute. reflexivity.
Defined.
