(* ===== verification/PartitionPipeline.v ===== *)
(** * Partition pipelines

    Models [execution/partition_pipeline.rs] and the part of
    [execution/pipeline.rs] that creates partition pipelines: the effects
    handler that polls the operators of one partition of a pipeline, the
    buffers between them, and the loop that drives the execution stack.

    Operators are records of poll functions (the vtable of [PlannedOperator]),
    arbitrary in every theorem.  A poll reads and writes the operator's shared
    state, its partition state and the batches it is given.  [Batch], the two
    kinds of state and the clock ([RuntimeInstant]) are parameters. *)
From S2P Require Import Prelude ExecutionStack.

(** [std::task::Poll] *)
Inductive Poll (A : Type) : Type :=
| PollReady (a : A)
| PollPending.
Arguments PollReady {A} a.
Arguments PollPending {A}.

(** ** Answers and triples *)

(** The result of a call: if it is an answer, the answer and the state have the
    property; it may be an error but no panic. *)
Definition answers {S A} (Q : A -> S -> Prop) (x : res A * S) : Prop :=
  match x with
  | (Ok a, s) => Q a s
  | (Err _, _) => True
  | (Panic _, _) => False
  end.

Definition triple {S A} (P : S -> Prop) (m : M S A) (Q : A -> S -> Prop) : Prop := forall s, P s -> answers Q (m s).

Lemma triple_bind {S A B} (P : S -> Prop) (R : A -> S -> Prop) (m : M S A) (k : A -> M S B) (Q : B -> S -> Prop) :
  triple P m R -> (forall a, triple (R a) (k a) Q) -> triple P (m ≫= k) Q.
Proof.
  intros Hm Hk s Hs. specialize (Hm s Hs). unfold mbind, M_bind. destruct (m s) as [[a|e|w] s']; [by apply Hk|done|done].
Qed.

Section PartitionPipeline.

Context {Batch OpState PartState Clock : Type}.
(** [Batch::num_rows] *)
Variable num_rows : Batch -> nat.
(** [RuntimeInstant::now] followed by [duration_since], in nanoseconds. *)
Variable now : Clock -> nat * Clock.

(** The poll methods of [PlannedOperator] (its vtable), and the methods that
    create its states and its output batch. *)
Record PlannedOperator : Type := {
  call_poll_pull : M (OpState * PartState * Batch) PollPull.t;
  call_poll_execute : M (OpState * PartState * Batch * Batch) PollExecute.t;
  call_poll_push : M (OpState * PartState * Batch) PollPush.t;
  call_poll_finalize_execute : M (OpState * PartState) PollFinalize.t;
  call_poll_finalize_push : M (OpState * PartState) PollFinalize.t;
  call_create_partition_pull_states : OpState -> nat -> res (list PartState);
  call_create_partition_execute_states : OpState -> nat -> res (list PartState);
  call_create_partition_push_states : OpState -> nat -> res (list PartState);
  new_output_batch : nat -> res Batch;
}.

(** [struct OperatorProfile] (its counters). *)
Record OperatorProfile : Type := {
  execution_duration : nat;
  rows_in : nat;
  rows_out : nat;
}.

Definition add_rows_in (k : nat) (p : OperatorProfile) : OperatorProfile :=
  {| execution_duration := execution_duration p; rows_in := rows_in p + k; rows_out := rows_out p |}.
Definition add_rows_out (k : nat) (p : OperatorProfile) : OperatorProfile :=
  {| execution_duration := execution_duration p; rows_in := rows_in p; rows_out := rows_out p + k |}.
Definition add_duration (k : nat) (p : OperatorProfile) : OperatorProfile :=
  {| execution_duration := execution_duration p + k; rows_in := rows_in p; rows_out := rows_out p |}.

(** [struct OperatorEffects]: what the handler borrows from the pipeline. *)
Record OperatorEffects : Type := {
  operator_states : list OpState;
  partition_states : list PartState;
  buffers : list Batch;
  profiles : list OperatorProfile;
  clock : Clock;
}.

Definition with_states (i : nat) (os : OpState) (ps : PartState) (env : OperatorEffects) : OperatorEffects :=
  {| operator_states := <[i := os]> (operator_states env);
     partition_states := <[i := ps]> (partition_states env);
     buffers := buffers env; profiles := profiles env; clock := clock env |}.
Definition with_buffer (i : nat) (b : Batch) (env : OperatorEffects) : OperatorEffects :=
  {| operator_states := operator_states env; partition_states := partition_states env;
     buffers := <[i := b]> (buffers env); profiles := profiles env; clock := clock env |}.
Definition with_clock (c : Clock) (env : OperatorEffects) : OperatorEffects :=
  {| operator_states := operator_states env; partition_states := partition_states env;
     buffers := buffers env; profiles := profiles env; clock := c |}.

(** [self.profiles[i].<counter> += k] *)
Definition update_profile (i : nat) (f : OperatorProfile -> OperatorProfile) : M OperatorEffects unit :=
  fun env =>
  match profiles env !! i with
  | Some p =>
      (Ok tt, {| operator_states := operator_states env; partition_states := partition_states env;
                 buffers := buffers env; profiles := <[i := f p]> (profiles env); clock := clock env |})
  | None => (Panic "index out of bounds", env)
  end.

Variable operators : list PlannedOperator.

(** [get_execute_inout] *)
Definition get_execute_inout (op_idx : nat) (batches : list Batch) : res (Batch * Batch) :=
  _ ← rust_assert (negb (op_idx =? 0)) "assertion failed: op_idx != 0";
  _ ← rust_assert (op_idx <? length batches) "assertion failed: op_idx < batches.len()";
  child ← index batches (op_idx - 1);
  op ← index batches op_idx;
  Ok (child, op).

(** The source branch of [handle_execute_inner]. *)
Definition execute_source : M OperatorEffects PollExecute.t := fun env =>
  match operators !! 0, operator_states env !! 0, partition_states env !! 0, buffers env !! 0 with
  | Some op, Some os, Some ps, Some output =>
      let '(r, (os', ps', output')) := call_poll_pull op (os, ps, output) in
      let env' := with_buffer 0 output' (with_states 0 os' ps' env) in
      (poll ← lift r;
       _ ← (if bool_decide (poll = PollPull.Pending) then mret tt
            else update_profile 0 (add_rows_out (num_rows output')));
       mret (PollPull.as_poll_execute poll)) env'
  | _, _, _, _ => (Panic "index out of bounds", env)
  end.

(** The sink branch of [handle_execute_inner]. *)
Definition execute_sink (op_idx : nat) : M OperatorEffects PollExecute.t := fun env =>
  match operators !! op_idx, operator_states env !! op_idx, partition_states env !! op_idx,
        buffers env !! (op_idx - 1) with
  | Some op, Some os, Some ps, Some pipeline_output =>
      let '(r, (os', ps', pipeline_output')) := call_poll_push op (os, ps, pipeline_output) in
      let env' := with_buffer (op_idx - 1) pipeline_output' (with_states op_idx os' ps' env) in
      (poll ← lift r;
       _ ← (if bool_decide (poll = PollPush.Pending) then mret tt
            else update_profile op_idx (add_rows_in (num_rows pipeline_output')));
       mret (PollPush.as_poll_execute poll)) env'
  | _, _, _, _ => (Panic "index out of bounds", env)
  end.

(** The intermediate branch of [handle_execute_inner]. *)
Definition execute_intermediate (op_idx : nat) : M OperatorEffects PollExecute.t := fun env =>
  match get_execute_inout op_idx (buffers env) with
  | Ok (input, output) =>
      match operators !! op_idx, operator_states env !! op_idx, partition_states env !! op_idx with
      | Some op, Some os, Some ps =>
          let '(r, (os', ps', input', output')) := call_poll_execute op (os, ps, input, output) in
          let env' := with_buffer op_idx output'
                        (with_buffer (op_idx - 1) input' (with_states op_idx os' ps' env)) in
          (poll ← lift r;
           _ ← (if bool_decide (poll = PollExecute.Pending) then mret tt
                else
                  _ ← update_profile op_idx (add_rows_in (num_rows input'));
                  update_profile op_idx (add_rows_out (num_rows output')));
           mret poll) env'
      | _, _, _ => (Panic "index out of bounds", env)
      end
  | Err e => (Err e, env)
  | Panic w => (Panic w, env)
  end.

(** [OperatorEffects::handle_execute_inner] *)
Definition handle_execute_inner (op_idx : nat) : M OperatorEffects PollExecute.t :=
  if op_idx =? 0 then execute_source
  else if op_idx =? length operators - 1 then execute_sink op_idx
  else execute_intermediate op_idx.

(** [OperatorEffects::handle_finalize_inner] *)
Definition handle_finalize_inner (op_idx : nat) : M OperatorEffects PollFinalize.t := fun env =>
  if op_idx =? 0 then (Panic "assertion failed: op_idx != 0", env)
  else
    match operators !! op_idx, operator_states env !! op_idx, partition_states env !! op_idx with
    | Some op, Some os, Some ps =>
        let call := if op_idx =? length operators - 1
                    then call_poll_finalize_push op else call_poll_finalize_execute op in
        let '(r, (os', ps')) := call (os, ps) in
        (r, with_states op_idx os' ps' env)
    | _, _, _ => (Panic "index out of bounds", env)
    end.

(** [I::now()], as a step of the handler. *)
Definition read_clock : M OperatorEffects nat := fun env =>
  let '(t, c) := now (clock env) in (Ok t, with_clock c env).

(** The body shared by the two [Effects] methods: time the poll. *)
Definition timed {A} (op_idx : nat) (poll : M OperatorEffects A) : M OperatorEffects A :=
  start ← read_clock;
  p ← poll;
  stop ← read_clock;
  _ ← update_profile op_idx (add_duration (stop - start));
  mret p.

(** [impl Effects for OperatorEffects] *)
#[local] Instance operator_effects : Effects OperatorEffects := {|
  handle_execute i := timed i (handle_execute_inner i);
  handle_finalize i := timed i (handle_finalize_inner i);
|}.

(** ** The pipeline *)

(** [struct ExecutablePartitionPipeline]; [profile] carries the partition
    index and the operator profiles of [PartitionPipelineProfile]. *)
Record ExecutablePartitionPipeline : Type := {
  p_operator_states : list OpState;
  p_partition_states : list PartState;
  p_buffers : list Batch;
  p_stack : ExecutionStack;
  p_profile : option (nat * list OperatorProfile);
}.

(** [ExecutablePartitionPipeline::new] *)
Definition new_partition_pipeline (partition_idx : nat) (op_states : list OpState)
    : res ExecutablePartitionPipeline :=
  stack ← new (length operators);
  Ok {| p_operator_states := op_states;
        p_partition_states := [];
        p_buffers := [];
        p_stack := stack;
        p_profile := Some (partition_idx,
          (fun _ => {| execution_duration := 0; rows_in := 0; rows_out := 0 |}) <$> operators) |}.

(** The [loop] of [poll_execute]; [None] when [fuel] calls of [pop_next] did
    not decide the poll. *)
Fixpoint drive (fuel : nat) (st : ExecutionStack) (env : OperatorEffects)
    : option (Poll (res unit)) * (ExecutionStack * OperatorEffects) :=
  match fuel with
  | 0 => (None, (st, env))
  | S fuel' =>
      match pop_next (st, env) with
      | (Ok StackControlFlow.Continue, (st', env')) => drive fuel' st' env'
      | (Ok StackControlFlow.Finished, c) => (Some (PollReady (Ok tt)), c)
      | (Ok StackControlFlow.Pending, c) => (Some PollPending, c)
      | (Err e, c) => (Some (PollReady (Err e)), c)
      | (Panic w, c) => (Some (PollReady (Panic w)), c)
      end
  end.

(** [ExecutablePartitionPipeline::poll_execute] *)
Definition poll_execute (fuel : nat) (p : ExecutablePartitionPipeline) (c : Clock)
    : option (Poll (res (nat * list OperatorProfile))) * ExecutablePartitionPipeline * Clock :=
  match p_profile p with
  | None =>
      (Some (PollReady (Err "poll_execute called on already completed pipeline")), p, c)
  | Some (partition_idx, profs) =>
      let env := {| operator_states := p_operator_states p;
                    partition_states := p_partition_states p;
                    buffers := p_buffers p; profiles := profs; clock := c |} in
      let '(r, (st', env')) := drive fuel (p_stack p) env in
      let prof := (partition_idx, profiles env') in
      let back keep := {| p_operator_states := operator_states env';
                          p_partition_states := partition_states env';
                          p_buffers := buffers env'; p_stack := st'; p_profile := keep |} in
      match r with
      | None => (None, back (Some prof), clock env')
      | Some PollPending => (Some PollPending, back (Some prof), clock env')
      | Some (PollReady (Ok _)) => (Some (PollReady (Ok prof)), back None, clock env')
      | Some (PollReady (Err e)) => (Some (PollReady (Err e)), back (Some prof), clock env')
      | Some (PollReady (Panic w)) => (Some (PollReady (Panic w)), back (Some prof), clock env')
      end
  end.

(** ** Creating partition pipelines ([pipeline.rs]) *)

Definition push_partition_state (ps : PartState) (p : ExecutablePartitionPipeline)
    : ExecutablePartitionPipeline :=
  {| p_operator_states := p_operator_states p;
     p_partition_states := p_partition_states p ++ [ps];
     p_buffers := p_buffers p; p_stack := p_stack p; p_profile := p_profile p |}.

Definition push_buffer (b : Batch) (p : ExecutablePartitionPipeline) : ExecutablePartitionPipeline :=
  {| p_operator_states := p_operator_states p; p_partition_states := p_partition_states p;
     p_buffers := p_buffers p ++ [b]; p_stack := p_stack p; p_profile := p_profile p |}.

(** The [for pipeline in &mut pipelines] of [append_partition_states]:
    [states.pop()] takes the states from the end. *)
Fixpoint pop_states (pipelines : list ExecutablePartitionPipeline) (states : list PartState)
    : res (list ExecutablePartitionPipeline) :=
  match pipelines with
  | [] => Ok []
  | p :: ps =>
      match last states with
      | None => Panic "enough states to exist"
      | Some s =>
          rest ← pop_states ps (take (length states - 1) states);
          Ok (push_partition_state s p :: rest)
      end
  end.

(** The [append_partition_states] closure. *)
Definition append_partition_states (pipelines : list ExecutablePartitionPipeline)
    (states : list PartState) : res (list ExecutablePartitionPipeline) :=
  if negb (length states =? length pipelines)
  then Err "Generated incorrect number of states"
  else pop_states pipelines states.

(** The loop over the intermediate operators and their states. *)
Fixpoint append_intermediate (partitions : nat) (ops : list (PlannedOperator * OpState))
    (pipelines : list ExecutablePartitionPipeline) : res (list ExecutablePartitionPipeline) :=
  match ops with
  | [] => Ok pipelines
  | (op, os) :: ops' =>
      states ← call_create_partition_execute_states op os partitions;
      pipelines' ← append_partition_states pipelines states;
      append_intermediate partitions ops' pipelines'
  end.

(** The loop that creates the output buffers of one pipeline. *)
Fixpoint create_buffers (batch_size : nat) (ops : list PlannedOperator)
    (p : ExecutablePartitionPipeline) : res ExecutablePartitionPipeline :=
  match ops with
  | [] => Ok p
  | op :: ops' =>
      b ← new_output_batch op batch_size;
      create_buffers batch_size ops' (push_buffer b p)
  end.

(** [ExecutablePipeline::create_partition_pipelines] *)
Definition create_partition_pipelines (op_states : list OpState) (batch_size partitions : nat)
    : res (list ExecutablePartitionPipeline) :=
  if partitions <? 1 then Err "Partitions cannot be less than one"
  else if length operators <? 2
  then Err "Cannot create partition pipeline for pipeline containing fewer than two operators (sink and source)"
  else
    let n := length operators in
    pipelines ← collect (fun idx => new_partition_pipeline idx op_states) (seq 0 partitions);
    source ← index operators 0;
    source_state ← index op_states 0;
    sink ← index operators (n - 1);
    sink_state ← index op_states (n - 1);
    source_states ← call_create_partition_pull_states source source_state partitions;
    pipelines ← append_partition_states pipelines source_states;
    let intermediate := take (n - 2) (drop 1 operators) in
    let intermediate_states := take (n - 2) (drop 1 op_states) in
    pipelines ← append_intermediate partitions (zip intermediate intermediate_states) pipelines;
    sink_states ← call_create_partition_push_states sink sink_state partitions;
    pipelines ← append_partition_states pipelines sink_states;
    collect (create_buffers batch_size (take (n - 1) operators)) pipelines.

(** ** Well-formed pipelines *)

Let n := length operators.

(** The lengths [create_partition_pipelines] establishes. *)
Definition env_wf (env : OperatorEffects) : Prop :=
  length (operator_states env) = n /\ length (partition_states env) = n
  /\ length (buffers env) = n - 1 /\ length (profiles env) = n.

(** A pipeline that has been created and has not completed. *)
Definition pipeline_wf (p : ExecutablePartitionPipeline) : Prop :=
  2 <= n
  /\ length (p_operator_states p) = n /\ length (p_partition_states p) = n
  /\ length (p_buffers p) = n - 1
  /\ (exists idx profs, p_profile p = Some (idx, profs) /\ length profs = n)
  /\ num_operators (p_stack p) = n /\ wf_stack n (instructions (p_stack p)).

Lemma env_wf_states i os ps env : env_wf env -> env_wf (with_states i os ps env).
Proof. unfold env_wf. simpl. by rewrite !length_insert. Qed.

Lemma env_wf_buffer i b env : env_wf env -> env_wf (with_buffer i b env).
Proof. unfold env_wf. simpl. by rewrite !length_insert. Qed.

Lemma env_wf_clock c env : env_wf env -> env_wf (with_clock c env).
Proof. done. Qed.

#[local] Hint Resolve env_wf_states env_wf_buffer env_wf_clock : glare.

(** Looking up what belongs to operator [i] succeeds in a well-formed state. *)
Lemma env_wf_lookup i env :
  env_wf env -> i < n ->
  exists op os ps, operators !! i = Some op /\ operator_states env !! i = Some os
    /\ partition_states env !! i = Some ps.
Proof.
  intros (Ho & Hp & _ & _) Hi.
  destruct (lookup_lt_is_Some_2 operators i Hi) as [op ?].
  destruct (lookup_lt_is_Some_2 (operator_states env) i) as [os ?]; [lia|].
  destruct (lookup_lt_is_Some_2 (partition_states env) i) as [ps ?]; [lia|].
  by exists op, os, ps.
Qed.

Lemma env_wf_buffer_lookup i env : env_wf env -> i < n - 1 -> exists b, buffers env !! i = Some b.
Proof. intros (_ & _ & Hb & _) Hi. apply lookup_lt_is_Some_2. lia. Qed.

Lemma get_execute_inout_ok i env :
  env_wf env -> 0 < i < n - 1 ->
  exists input output, get_execute_inout i (buffers env) = Ok (input, output)
    /\ buffers env !! (i - 1) = Some input /\ buffers env !! i = Some output.
Proof.
  intros Hwf Hi. destruct (env_wf_buffer_lookup (i - 1) env Hwf) as [input Hin]; [lia|].
  destruct (env_wf_buffer_lookup i env Hwf) as [output Hout]; [lia|].
  exists input, output. split; [|done]. unfold get_execute_inout, index. rewrite Hin, Hout.
  destruct Hwf as (_ & _ & Hlen & _).
  destruct (Nat.eqb_spec i 0); [lia|]. destruct (Nat.ltb_spec i (length (buffers env))); [done|lia].
Qed.

(** ** Contracts of operators

    What the pipeline may expect of its operators, and they of it: an operator
    has an invariant on its states, and every buffer an invariant on the batches
    that are passed through it.  An operator is polled at its place only (a source
    is pulled, a sink pushed to), and no more once it answered that it is exhausted
    or finalized, so that its invariant need not hold from then on. *)

Section Safety.
Variable op_inv : nat -> OpState -> PartState -> Prop.
Variable batch_inv : nat -> Batch -> Prop.

Record operator_contract (i : nat) (op : PlannedOperator) : Prop := {
  oc_pull : i = 0 -> forall os ps b, op_inv i os ps -> batch_inv i b ->
    answers (fun poll '(os', ps', b') => batch_inv i b' /\ (poll <> PollPull.Exhausted -> op_inv i os' ps')) (call_poll_pull op (os, ps, b));
  oc_execute : 0 < i < n - 1 -> forall os ps input output, op_inv i os ps -> batch_inv (i - 1) input -> batch_inv i output ->
    answers (fun poll '(os', ps', input', output') => batch_inv (i - 1) input' /\ batch_inv i output' /\ (poll <> PollExecute.Exhausted -> op_inv i os' ps'))
      (call_poll_execute op (os, ps, input, output));
  oc_push : i = n - 1 -> forall os ps b, op_inv i os ps -> batch_inv (i - 1) b ->
    answers (fun _ '(os', ps', b') => batch_inv (i - 1) b' /\ op_inv i os' ps') (call_poll_push op (os, ps, b));
  oc_finalize_execute : 0 < i < n - 1 -> forall os ps, op_inv i os ps ->
    answers (fun poll '(os', ps') => poll <> PollFinalize.Finalized -> op_inv i os' ps') (call_poll_finalize_execute op (os, ps));
  oc_finalize_push : i = n - 1 -> forall os ps, op_inv i os ps ->
    answers (fun poll '(os', ps') => poll <> PollFinalize.Finalized -> op_inv i os' ps') (call_poll_finalize_push op (os, ps));
}.

(** The operators from [lo] on are open. *)
Definition env_ok (lo : nat) (env : OperatorEffects) : Prop :=
  env_wf env
  /\ (forall i os ps, lo <= i -> operator_states env !! i = Some os -> partition_states env !! i = Some ps -> op_inv i os ps)
  /\ (forall i b, buffers env !! i = Some b -> batch_inv i b).

(** The lowest operator that is not closed: that of the bottom of the stack. *)
Definition lowest_open (l : list Instruction) : nat := from_option instr_idx n (last l).

Lemma env_ok_mono lo lo' env : lo <= lo' -> env_ok lo env -> env_ok lo' env.
Proof. intros Hle (H1 & H2 & H3). split_and!; [done| |done]. intros i os ps Hi. apply H2. lia. Qed.

Lemma env_ok_states lo i os ps env : i < n -> env_ok lo env -> op_inv i os ps -> env_ok lo (with_states i os ps env).
Proof.
  intros Hi (Hwf & H2 & H3) Hinv. split_and!; [by apply env_wf_states| |done]. destruct Hwf as (Ho & Hp & _ & _). intros j os' ps' Hj. cbn.
  destruct (decide (i = j)) as [<-|Hne]; [rewrite !list_lookup_insert_eq by lia; congruence|]. rewrite !list_lookup_insert_ne by done. by apply H2.
Qed.

Lemma env_ok_close lo i os ps env : lo <= i -> env_ok lo env -> env_ok (S i) (with_states i os ps env).
Proof.
  intros Hi (Hwf & H2 & H3). split_and!; [by apply env_wf_states| |done]. intros j os' ps' Hj. cbn. rewrite !list_lookup_insert_ne by lia. apply H2. lia.
Qed.

Lemma env_ok_buffer lo i b env : env_ok lo env -> batch_inv i b -> env_ok lo (with_buffer i b env).
Proof.
  intros (Hwf & H2 & H3) Hb. split_and!; [by apply env_wf_buffer|done|]. intros j b' Hj. cbn in Hj. apply list_lookup_insert_Some in Hj as [(<- & <- & _)|[_ Hj]]; [done|by apply H3].
Qed.

Lemma env_ok_update_profile lo i f (Q : unit -> OperatorEffects -> Prop) env :
  i < n -> env_ok lo env -> (forall env', env_ok lo env' -> Q tt env') -> answers Q (update_profile i f env).
Proof.
  intros Hi ((H1 & H2 & H3 & H4) & Hs & Hb) HQ. unfold update_profile. destruct (lookup_lt_is_Some_2 (profiles env) i) as [p ->]; [lia|].
  apply HQ. split_and!; [|done|done]. split_and!; cbn; [done..|]. by rewrite length_insert.
Qed.

Lemma answers_timed {A} lo i (m : M OperatorEffects A) (lo' : A -> nat) :
  i < n -> triple (env_ok lo) m (fun a => env_ok (lo' a)) -> triple (env_ok lo) (timed i m) (fun a => env_ok (lo' a)).
Proof.
  intros Hi Hm env Henv. unfold timed. eapply (triple_bind _ (fun _ => env_ok lo)); [| |exact Henv].
  { intros e He. unfold read_clock. by destruct (now (clock e)). }
  intros start. eapply (triple_bind _ (fun a => env_ok (lo' a))); [exact Hm|]. intros a. eapply (triple_bind _ (fun _ => env_ok (lo' a))).
  { intros e He. unfold read_clock. by destruct (now (clock e)). }
  intros stop. eapply (triple_bind _ (fun _ => env_ok (lo' a))); [|by intros _ e He]. intros e He. by apply (env_ok_update_profile (lo' a)).
Qed.

Definition closed_execute (lo i : nat) (p : PollExecute.t) : nat := if decide (p = PollExecute.Exhausted) then S i else lo.
Definition closed_finalize (lo i : nat) (p : PollFinalize.t) : nat := if decide (p = PollFinalize.Finalized) then S i else lo.

Hypothesis contracts : forall i op, operators !! i = Some op -> operator_contract i op.

Lemma states_ok lo i op os ps env : env_ok lo env -> lo <= i -> operators !! i = Some op -> operator_states env !! i = Some os -> partition_states env !! i = Some ps ->
  operator_contract i op /\ op_inv i os ps.
Proof. intros (_ & H2 & _) Hi Hop Hos Hps. split; [by apply contracts|by eapply H2]. Qed.

(** Counting the rows of an answer. *)
Lemma counted_ok {A B} lo (p : A) (count : A -> M OperatorEffects unit) (f : A -> B) env :
  env_ok lo env -> triple (env_ok lo) (count p) (fun _ => env_ok lo) ->
  answers (fun b env' => b = f p /\ env_ok lo env') ((poll ← lift (Ok p); _ ← count poll; mret (f poll)) env).
Proof.
  intros Henv Hc. unfold mbind, M_bind, lift. specialize (Hc env Henv). by destruct (count p env) as [[[]|e|w] env'].
Qed.

Lemma count_ok lo i f : i < n -> triple (env_ok lo) (update_profile i f) (fun _ => env_ok lo).
Proof. intros Hi env Henv. by apply (env_ok_update_profile lo). Qed.

Lemma answers_eq {A} lo (p : A) (lo' : A -> nat) (x : res A * OperatorEffects) :
  lo' p = lo -> answers (fun b env' => b = p /\ env_ok lo env') x -> answers (fun b => env_ok (lo' b)) x.
Proof. intros <-. by destruct x as [[b|e|w] env']; [intros [-> ?]|..]. Qed.

Ltac closing_cases p := unfold closed_execute; destruct p; cbn [PollPull.as_poll_execute PollPush.as_poll_execute id]; first [rewrite decide_True by done|rewrite decide_False by done]; lazymatch goal with
  | |- env_ok (S _) _ => eapply env_ok_close; [|eassumption]; lia
  | |- _ => apply env_ok_states; [lia|done|match goal with H : _ |- op_inv _ _ _ => by apply H end]
  end.

Lemma execute_source_ok : 2 <= n -> triple (env_ok 0) execute_source (fun p => env_ok (closed_execute 0 0 p)).
Proof.
  intros Hn env Henv. pose proof Henv as (Hwf & _ & Hb). unfold execute_source. destruct (env_wf_lookup 0 env Hwf) as (op & os & ps & Hop & Hos & Hps); [lia|].
  destruct (env_wf_buffer_lookup 0 env Hwf) as [b Hbuf]; [lia|]. destruct (states_ok 0 0 op os ps env Henv ltac:(lia) Hop Hos Hps) as [Hc Hinv].
  rewrite Hop, Hos, Hps, Hbuf. pose proof (oc_pull _ _ Hc eq_refl os ps b Hinv (Hb _ _ Hbuf)) as Ha.
  destruct (call_poll_pull op (os, ps, b)) as [[p|e|w] [[os' ps'] b']]; [|done..]. destruct Ha as [Hb' Hs'].
  eapply answers_eq; [reflexivity|]. apply (counted_ok _ p (fun poll => if bool_decide (poll = PollPull.Pending) then mret tt else update_profile 0 (add_rows_out (num_rows b')))).
  - apply env_ok_buffer; [|done]. closing_cases p.
  - case_bool_decide; [by intros e He|apply count_ok; lia].
Qed.

Lemma execute_sink_ok lo i : i = n - 1 -> 0 < i -> lo <= i -> triple (env_ok lo) (execute_sink i) (fun p => env_ok (closed_execute lo i p)).
Proof.
  intros Hi Hpos Hlo env Henv. pose proof Henv as (Hwf & _ & Hb). unfold execute_sink. destruct (env_wf_lookup i env Hwf) as (op & os & ps & Hop & Hos & Hps); [lia|].
  destruct (env_wf_buffer_lookup (i - 1) env Hwf) as [b Hbuf]; [lia|]. destruct (states_ok lo i op os ps env Henv Hlo Hop Hos Hps) as [Hc Hinv].
  rewrite Hop, Hos, Hps, Hbuf. pose proof (oc_push _ _ Hc Hi os ps b Hinv (Hb _ _ Hbuf)) as Ha.
  destruct (call_poll_push op (os, ps, b)) as [[p|e|w] [[os' ps'] b']]; [|done..]. destruct Ha as [Hb' Hs'].
  eapply answers_eq; [reflexivity|]. apply (counted_ok _ p (fun poll => if bool_decide (poll = PollPush.Pending) then mret tt else update_profile i (add_rows_in (num_rows b')))).
  - apply env_ok_buffer; [|done]. closing_cases p.
  - case_bool_decide; [by intros e He|apply count_ok; lia].
Qed.

Lemma execute_intermediate_ok lo i : 0 < i < n - 1 -> lo <= i -> triple (env_ok lo) (execute_intermediate i) (fun p => env_ok (closed_execute lo i p)).
Proof.
  intros Hi Hlo env Henv. pose proof Henv as (Hwf & _ & Hb). unfold execute_intermediate. destruct (get_execute_inout_ok i env Hwf Hi) as (input & output & -> & Hin & Hout).
  destruct (env_wf_lookup i env Hwf) as (op & os & ps & Hop & Hos & Hps); [lia|]. destruct (states_ok lo i op os ps env Henv Hlo Hop Hos Hps) as [Hc Hinv].
  rewrite Hop, Hos, Hps. pose proof (oc_execute _ _ Hc Hi os ps input output Hinv (Hb _ _ Hin) (Hb _ _ Hout)) as Ha.
  destruct (call_poll_execute op (os, ps, input, output)) as [[p|e|w] [[[os' ps'] input'] output']]; [|done..]. destruct Ha as (Hb1 & Hb2 & Hs').
  eapply (answers_eq _ p); [reflexivity|]. apply (counted_ok _ p (fun poll => if bool_decide (poll = PollExecute.Pending) then mret tt
    else _ ← update_profile i (add_rows_in (num_rows input')); update_profile i (add_rows_out (num_rows output'))) id).
  - do 2 (apply env_ok_buffer; [|done]). closing_cases p.
  - case_bool_decide; [by intros e He|]. apply (triple_bind _ (fun _ => env_ok (closed_execute lo i p))); [|intros _]; apply count_ok; lia.
Qed.

Lemma handle_execute_ok lo i : 2 <= n -> i < n -> lo <= i -> triple (env_ok lo) (handle_execute i) (fun p => env_ok (closed_execute lo i p)).
Proof.
  intros Hn Hi Hlo. apply (answers_timed lo i _ (closed_execute lo i)); [done|]. unfold handle_execute_inner. fold n.
  destruct (Nat.eqb_spec i 0) as [->|]; [assert (lo = 0) as -> by lia; by apply execute_source_ok|].
  destruct (Nat.eqb_spec i (n - 1)); [apply execute_sink_ok; lia|apply execute_intermediate_ok; lia].
Qed.

Lemma handle_finalize_ok lo i : 0 < i < n -> lo <= i -> triple (env_ok lo) (handle_finalize i) (fun p => env_ok (closed_finalize lo i p)).
Proof.
  intros Hi Hlo. apply (answers_timed lo i _ (closed_finalize lo i)); [lia|]. intros env Henv. pose proof Henv as (Hwf & _ & _). unfold handle_finalize_inner.
  destruct (Nat.eqb_spec i 0); [lia|]. destruct (env_wf_lookup i env Hwf) as (op & os & ps & Hop & Hos & Hps); [lia|].
  destruct (states_ok lo i op os ps env Henv Hlo Hop Hos Hps) as [Hc Hinv]. rewrite Hop, Hos, Hps. fold n.
  assert (Ha : answers (fun poll '(os', ps') => poll <> PollFinalize.Finalized -> op_inv i os' ps')
    ((if i =? n - 1 then call_poll_finalize_push op else call_poll_finalize_execute op) (os, ps))).
  { destruct (Nat.eqb_spec i (n - 1)); [by apply Hc|apply Hc; [lia|done]]. }
  revert Ha. generalize (if i =? n - 1 then call_poll_finalize_push op else call_poll_finalize_execute op). intros call Ha. cbn zeta.
  destruct (call (os, ps)) as [[p|e|w] [os' ps']]; [|done..]. cbn [answers]. unfold closed_finalize.
  destruct p; [rewrite decide_True by done; by eapply env_ok_close|rewrite decide_False by done; apply env_ok_states; [lia|done|by apply Ha]..].
Qed.

(** ** Running *)

(** A stack and the state it drives. *)
Definition run_ok (c : ExecutionStack * OperatorEffects) : Prop :=
  num_operators (fst c) = n /\ wf_stack n (instructions (fst c)) /\ env_ok (lowest_open (instructions (fst c))) (snd c).

Lemma lowest_open_top l ins : wf_stack n (ins :: l) -> lowest_open (ins :: l) <= instr_idx ins < n.
Proof.
  intros Hwf. unfold lowest_open. assert (Hr : Forall (fun x => instr_idx x < n) (ins :: l)) by (by apply wf_stack_range). apply Forall_cons in Hr as [Hi _]. split; [|done].
  inversion Hwf as [|s top Hs Hc Heq|f top Hf Hc Heq]; (destruct top as [|x top]; simplify_eq/=; [lia|]); rewrite last_cons, last_snoc; cbn;
    destruct (chain_cons_inv _ _ _ _ Hc) as (j & -> & Hj & _); cbn; lia.
Qed.

Lemma lowest_open_rest l ins : wf_stack n (ins :: l) -> lowest_open (ins :: l) <= lowest_open l.
Proof.
  intros Hwf. pose proof (lowest_open_top _ _ Hwf). unfold lowest_open in *. destruct l as [|x l]; [cbn in *; lia|]. rewrite last_cons. by destruct (last (x :: l)) eqn:E; [|by apply last_None in E].
Qed.

Lemma lowest_open_cons k ins l : k <= instr_idx ins -> k <= lowest_open l -> k <= lowest_open (ins :: l).
Proof. unfold lowest_open. intros H1 H2. rewrite last_cons. by destruct (last l). Qed.

(** What an answer closes is below the stack. *)
Lemma after_execute_lowest st rest i b p cf st' : num_operators st = n -> wf_stack n (ExecuteOperator i b :: rest) -> after_execute st rest i b p = (Ok cf, st') ->
  closed_execute (lowest_open (ExecuteOperator i b :: rest)) i p <= lowest_open (instructions st').
Proof.
  intros Hnum Hwf Ha. pose proof (lowest_open_top _ _ Hwf) as Ht. pose proof (lowest_open_rest _ _ Hwf) as Hr. cbn [instr_idx] in Ht.
  unfold closed_execute. destruct p; cbn in Ha; rewrite ?decide_False by done; try case_last; simplify_eq/=; try done; try lia.
  - by destruct b.
  - apply lowest_open_cons; [cbn; lia|]. by destruct b.
  - unfold lowest_open. cbn. lia.
Qed.

Lemma after_finalize_lowest st i p cf st' : num_operators st = n -> wf_stack n [FinalizeOperator i] -> after_finalize st [] i p = (Ok cf, st') ->
  closed_finalize (lowest_open [FinalizeOperator i]) i p <= lowest_open (instructions st').
Proof.
  intros Hnum Hwf Ha. destruct (wf_top_finalize _ _ _ Hwf) as [_ Hi]. unfold closed_finalize.
  destruct p; cbn in Ha; try case_last; simplify_eq/=; rewrite ?decide_True, ?decide_False by done; unfold lowest_open; cbn; lia.
Qed.

Lemma stack_step_run_ok st evs cf st' env' lo : num_operators st = n -> wf_stack n (instructions st) -> stack_step st evs cf st' ->
  lo <= lowest_open (instructions st') -> env_ok lo env' -> run_ok (st', env').
Proof.
  intros Hnum Hwf Hs Hlo Henv. split_and!; simpl; [by rewrite (stack_step_num _ _ _ _ Hs)| |by eapply env_ok_mono].
  rewrite <-Hnum in Hwf |- *. by eapply wf_stack_step.
Qed.

Lemma after_no_panic st rest i b p q :
  is_panic (fst (after_execute st rest i b p)) = false
  /\ is_panic (fst (after_finalize st rest i q)) = false.
Proof. split; [destruct p|destruct q]; simpl; try case_last; done. Qed.

Lemma pop_next_safe : 2 <= n -> triple run_ok pop_next (fun _ => run_ok).
Proof.
  intros Hn [st env] (Hnum & Hwf & Henv). unfold pop_next. simpl in Hnum, Hwf, Henv. pose proof Hwf as Hwf0.
  destruct (instructions st) as [|[i b|i] rest] eqn:Hst.
  - split_and!; [done| |]; cbn; by rewrite Hst.
  - pose proof (lowest_open_top _ _ Hwf) as Hlo. cbn [instr_idx] in Hlo. pose proof (handle_execute_ok _ i Hn ltac:(lia) ltac:(apply Hlo) env Henv) as Hh.
    destruct (handle_execute i env) as [[p|e|w] env1]; [|done..]. cbn [answers] in Hh. destruct (after_no_panic st rest i b p PollFinalize.Pending) as [Hap _].
    destruct (after_execute st rest i b p) as [[cf|e|w] st2] eqn:Ha; [|done..]. cbn. eapply stack_step_run_ok; [done|by rewrite Hst|by econstructor| |exact Hh].
    by eapply after_execute_lowest.
  - destruct (wf_top_finalize _ _ _ Hwf) as [-> Hi]. destruct (Nat.eqb_spec i 0) as [|Hi0]; [lia|].
    pose proof (handle_finalize_ok _ i Hi ltac:(apply (lowest_open_top _ _ Hwf)) env Henv) as Hh.
    destruct (handle_finalize i env) as [[p|e|w] env1]; [|done..]. cbn [answers] in Hh. destruct (after_no_panic st [] i true PollExecute.Pending p) as [_ Hap].
    destruct (after_finalize st [] i p) as [[cf|e|w] st2] eqn:Ha; [|done..]. cbn. eapply stack_step_run_ok; [done|by rewrite Hst|by econstructor| |exact Hh].
    by eapply after_finalize_lowest.
Qed.

Lemma drive_safe fuel st env out c' :
  2 <= n -> run_ok (st, env) -> drive fuel st env = (out, c') ->
  (forall w, out <> Some (PollReady (Panic w)))
  /\ ((out = None \/ out = Some PollPending \/ out = Some (PollReady (Ok tt))) -> run_ok c').
Proof.
  intros Hn. revert st env. induction fuel as [|fuel IH]; intros st env Hwf; cbn [drive].
  - intros [= <- <-]. naive_solver.
  - pose proof (pop_next_safe Hn (st, env) Hwf) as Hp. destruct (pop_next (st, env)) as [[[]|e|w] [st1 env1]]; cbn [answers] in Hp;
      [by apply IH|..]; intros [= <- <-]; naive_solver.
Qed.

(** A pipeline between polls. *)
Definition pipeline_ok (p : ExecutablePartitionPipeline) : Prop :=
  pipeline_wf p
  /\ (forall i os ps, lowest_open (instructions (p_stack p)) <= i -> p_operator_states p !! i = Some os -> p_partition_states p !! i = Some ps -> op_inv i os ps)
  /\ (forall i b, p_buffers p !! i = Some b -> batch_inv i b).

End Safety.

(** ** What creation establishes *)

Definition zero_profile : OperatorProfile := {| execution_duration := 0; rows_in := 0; rows_out := 0 |}.

(** The pipeline of a partition that was not polled. *)
Definition fresh_pipeline (op_states : list OpState) (idx : nat) (states : list PartState) (bufs : list Batch) : ExecutablePartitionPipeline :=
  {| p_operator_states := op_states; p_partition_states := states; p_buffers := bufs;
     p_stack := mkStack n [ExecuteOperator 0 true]; p_profile := Some (idx, replicate n zero_profile) |}.

(** The states that operator [i] creates for all partitions. *)
Definition created_states (partitions i : nat) (op : PlannedOperator) (s : OpState) : res (list PartState) :=
  if i =? 0 then call_create_partition_pull_states op s partitions
  else if i =? n - 1 then call_create_partition_push_states op s partitions
  else call_create_partition_execute_states op s partitions.

(** Pipelines that have got the states of some operators: partition [k] has got the
    [k]-th state from the end of each. *)
Definition under_construction (op_states : list OpState) (partitions : nat) (sss : list (list PartState)) (ps : list ExecutablePartitionPipeline) : Prop :=
  length ps = partitions /\ forall k p, ps !! k = Some p ->
    exists states, p = fresh_pipeline op_states k states [] /\ Forall2 (fun ss st => reverse ss !! k = Some st) sss states.

Lemma pop_states_spec ps states ps' : length states = length ps -> pop_states ps states = Ok ps' ->
  length ps' = length ps /\ forall k p', ps' !! k = Some p' -> exists p st, ps !! k = Some p /\ reverse states !! k = Some st /\ p' = push_partition_state st p.
Proof.
  revert states ps'. induction ps as [|p ps IH]; intros states ps' Hl; cbn [pop_states]; [by intros [= <-]|].
  destruct (last states) as [s|] eqn:Hlast; [|done]. apply last_Some in Hlast as [init ->]. rewrite length_app in *. cbn [length] in *.
  rewrite Nat.add_sub, take_app_length. destruct (pop_states ps init) as [rest| |] eqn:Hrest; cbn; [|done..]. intros [= <-].
  destruct (IH init rest ltac:(lia) Hrest) as [Hlen Hall]. cbn [length]. split; [lia|]. rewrite reverse_snoc. intros [|k] p' Hp'; cbn in Hp'.
  - injection Hp' as <-. by exists p, s.
  - by apply Hall.
Qed.

Lemma append_states_construction os partitions sss ps ss ps' :
  under_construction os partitions sss ps -> append_partition_states ps ss = Ok ps' -> length ss = partitions /\ under_construction os partitions (sss ++ [ss]) ps'.
Proof.
  intros [Hlen Hall]. unfold append_partition_states. destruct (Nat.eqb_spec (length ss) (length ps)) as [Hl|]; cbn; [|done].
  intros Hp. destruct (pop_states_spec _ _ _ Hl Hp) as [Hlen' Hall']. split; [lia|]. split; [lia|]. intros k p' Hk.
  destruct (Hall' k p' Hk) as (p & st & Hpk & Hst & ->). destruct (Hall k p Hpk) as (states & -> & Hs). exists (states ++ [st]). split; [done|].
  apply Forall2_app; [done|]. by constructor.
Qed.

Lemma append_intermediate_construction os partitions sss ops ps ps' :
  under_construction os partitions sss ps -> append_intermediate partitions ops ps = Ok ps' ->
  exists ssl, Forall2 (fun o ss => call_create_partition_execute_states o.1 o.2 partitions = Ok ss /\ length ss = partitions) ops ssl
    /\ under_construction os partitions (sss ++ ssl) ps'.
Proof.
  revert sss ps. induction ops as [|[op s] ops IH]; intros sss ps Hc; cbn [append_intermediate].
  - intros [= <-]. exists []. by rewrite app_nil_r.
  - destruct (call_create_partition_execute_states op s partitions) as [ss| |] eqn:Hs; cbn; [|done..].
    destruct (append_partition_states ps ss) as [ps1| |] eqn:H1; cbn; [|done..]. destruct (append_states_construction _ _ _ _ _ _ Hc H1) as [Hl Hc1].
    intros H2. destruct (IH _ _ Hc1 H2) as (ssl & Hf & Hc2). exists (ss :: ssl). split; [by constructor|]. by rewrite <- app_assoc in Hc2.
Qed.

Lemma create_buffers_fresh os idx states batch_size ops bufs p' :
  create_buffers batch_size ops (fresh_pipeline os idx states bufs) = Ok p' ->
  exists new, p' = fresh_pipeline os idx states (bufs ++ new) /\ Forall2 (fun op b => new_output_batch op batch_size = Ok b) ops new.
Proof.
  revert bufs. induction ops as [|op ops IH]; intros bufs; cbn [create_buffers].
  - intros [= <-]. exists []. by rewrite app_nil_r.
  - destruct (new_output_batch op batch_size) as [b| |] eqn:Hb; cbn; [|done..]. intros Hc. destruct (IH _ Hc) as (new & -> & Hf).
    exists (b :: new). split; [by rewrite <- app_assoc|by constructor].
Qed.

Lemma new_pipelines_construction os partitions ps :
  0 < n -> collect (fun idx => new_partition_pipeline idx os) (seq 0 partitions) = Ok ps -> under_construction os partitions [] ps.
Proof.
  intros Hn Hc%collect_Forall2. pose proof (Forall2_length _ _ _ Hc) as Hl. rewrite length_seq in Hl. split; [done|]. intros k p Hp.
  destruct (Forall2_lookup_r _ _ _ _ _ Hc Hp) as (idx & Hidx & Hnew). apply lookup_seq in Hidx as [-> _]. unfold new_partition_pipeline, new in Hnew. fold n in Hnew.
  rewrite (proj2 (Nat.eqb_neq n 0)) in Hnew by lia. cbn in Hnew. injection Hnew as <-. exists []. split; [|constructor]. unfold fresh_pipeline. do 3 f_equal. by apply const_fmap.
Qed.

Lemma fresh_pipeline_wf os idx states bufs : 2 <= n -> length os = n -> length states = n -> length bufs = n - 1 -> pipeline_wf (fresh_pipeline os idx states bufs).
Proof.
  intros Hn Hos Hst Hb. split_and!; cbn; try done; [|by apply wf_single_start; lia]. eexists _, _. split; [done|]. apply length_replicate.
Qed.

(** Source, intermediate operators and sink. *)
Lemma operators_split (l : list PlannedOperator) (os : list OpState) x0 s0 x1 s1 : 2 <= length l -> length os = length l ->
  index l 0 = Ok x0 -> index os 0 = Ok s0 -> index l (length l - 1) = Ok x1 -> index os (length l - 1) = Ok s1 ->
  zip l os = (x0, s0) :: zip (take (length l - 2) (drop 1 l)) (take (length l - 2) (drop 1 os)) ++ [(x1, s1)].
Proof.
  intros Hn Hos H1 H2 H3 H4. unfold index in *. destruct l as [|x l]; [done|]. destruct os as [|o os]; [done|]. cbn in H1, H2. injection H1 as <-. injection H2 as <-.
  cbn [length] in *. cbn [zip_with drop]. f_equal. rewrite !drop_0. replace (S (length l) - 1) with (S (length l - 1)) in H3, H4 by lia. cbn in H3, H4.
  destruct (l !! (length l - 1)) as [x'|] eqn:Hx; [|done]. destruct (os !! (length l - 1)) as [o'|] eqn:Ho; [|done]. injection H3 as ->. injection H4 as ->.
  replace (S (length l) - 2) with (length l - 1) by lia. rewrite <- (take_drop (length l - 1) l) at 1. rewrite <- (take_drop (length l - 1) os) at 1.
  rewrite (drop_S _ _ _ Hx), (drop_S _ _ _ Ho), !drop_ge by lia. by rewrite zip_with_app by (rewrite !length_take; lia).
Qed.

(** The states of all operators. *)
Lemma states_created partitions os source source_state sink sink_state ss1 ssl ss3 :
  2 <= n -> length os = n ->
  zip operators os = (source, source_state) :: zip (take (n - 2) (drop 1 operators)) (take (n - 2) (drop 1 os)) ++ [(sink, sink_state)] ->
  call_create_partition_pull_states source source_state partitions = Ok ss1 -> length ss1 = partitions ->
  Forall2 (fun o ss => call_create_partition_execute_states o.1 o.2 partitions = Ok ss /\ length ss = partitions)
    (zip (take (n - 2) (drop 1 operators)) (take (n - 2) (drop 1 os))) ssl ->
  call_create_partition_push_states sink sink_state partitions = Ok ss3 -> length ss3 = partitions ->
  Forall2 (fun (i : nat) ss => exists op s, operators !! i = Some op /\ os !! i = Some s /\ created_states partitions i op s = Ok ss /\ length ss = partitions)
    (seq 0 n) (ss1 :: ssl ++ [ss3]).
Proof.
  intros Hn Hos Hsplit H1 L1 H2 H3 L3. set (mid := zip (take (n - 2) _) _) in *. assert (Hmid : length mid = n - 2).
  { unfold mid. rewrite length_zip, !length_take, !length_drop. fold n. lia. }
  pose proof (Forall2_length _ _ _ H2) as Hl. assert (Hzip : forall i op s, zip operators os !! i = Some (op, s) -> operators !! i = Some op /\ os !! i = Some s).
  { intros i op s (x & y & [= <- <-] & ? & ?)%lookup_zip_with_Some. done. }
  apply Forall2_same_length_lookup_2; [cbn; rewrite length_seq, length_app, <- Hl; cbn; lia|]. intros j i ss [-> Hj]%lookup_seq Hss. cbn [Nat.add] in *.
  destruct j as [|j]; [injection Hss as <-; exists source, source_state; destruct (Hzip 0 source source_state) as [-> ->]; [by rewrite Hsplit|done]|].
  change ((ssl ++ [ss3]) !! j = Some ss) in Hss. assert (Htail : zip operators os !! S j = (mid ++ [(sink, sink_state)]) !! j) by (by rewrite Hsplit). unfold created_states. rewrite (proj2 (Nat.eqb_neq (S j) 0)) by done. destruct (decide (j < length mid)) as [Hjm|Hjm].
  - rewrite lookup_app_l in Hss by lia. destruct (Forall2_lookup_r _ _ _ _ _ H2 Hss) as ([op s] & Hos' & Hc & Hls). exists op, s.
    destruct (Hzip (S j) op s) as [-> ->]; [by rewrite Htail, lookup_app_l|]. rewrite (proj2 (Nat.eqb_neq _ _)) by lia. done.
  - assert (j = length ssl) as -> by lia. rewrite list_lookup_middle in Hss by done. injection Hss as <-. exists sink, sink_state.
    destruct (Hzip (S (length ssl)) sink sink_state) as [-> ->]; [rewrite Htail; by apply list_lookup_middle|]. rewrite (proj2 (Nat.eqb_eq _ _)) by lia. done.
Qed.

(** ** Frame: what one poll can touch *)

(** [frames i env env']: between the two states only operator [i]'s states,
    its profile and the buffers next to it (its input and its output) differ. *)
Definition frames (i : nat) (env env' : OperatorEffects) : Prop :=
  (forall j, j <> i -> operator_states env' !! j = operator_states env !! j)
  /\ (forall j, j <> i -> partition_states env' !! j = partition_states env !! j)
  /\ (forall j, j <> i -> profiles env' !! j = profiles env !! j)
  /\ (forall j, j <> i -> j <> i - 1 -> buffers env' !! j = buffers env !! j).

#[local] Instance frames_refl i : Reflexive (frames i).
Proof. intros env. by split_and!. Qed.

#[local] Instance frames_trans i : Transitive (frames i).
Proof.
  intros e1 e2 e3 (O1 & P1 & F1 & B1) (O2 & P2 & F2 & B2).
  split_and!; intros j Hj; [rewrite O2|rewrite P2|rewrite F2|intros Hj'; rewrite B2]; auto.
Qed.

Lemma frames_states i os ps env : frames i env (with_states i os ps env).
Proof. split_and!; intros j Hj; simpl; [by rewrite list_lookup_insert_ne..|done|done]. Qed.

Lemma frames_buffer i k b env : k = i \/ k = i - 1 -> frames i env (with_buffer k b env).
Proof. intros Hk. split_and!; intros j Hj; simpl; [done..|]. intros Hj'. rewrite list_lookup_insert_ne; [done|lia]. Qed.

(** [m] stays within the frame of operator [i], whatever its result. *)
Definition framed {A} (i : nat) (m : M OperatorEffects A) : Prop :=
  forall env, frames i env (snd (m env)).

Lemma framed_ret {A} i (a : A) : framed i (mret a).
Proof. intros env. done. Qed.

Lemma framed_lift {A} i (r : res A) : framed i (lift r).
Proof. intros env. done. Qed.

Lemma framed_bind {A B} i (m : M OperatorEffects A) (k : A -> M OperatorEffects B) :
  framed i m -> (forall a, framed i (k a)) -> framed i (m ≫= k).
Proof.
  intros Hm Hk env. unfold mbind, M_bind. specialize (Hm env).
  destruct (m env) as [[a|e|w] env1]; simpl in *; [|done..]. etransitivity; [done|apply Hk].
Qed.

Lemma framed_update_profile i f : framed i (update_profile i f).
Proof.
  intros env. unfold update_profile. destruct (profiles env !! i); simpl; [|done].
  split_and!; intros j Hj; simpl; try done. by rewrite list_lookup_insert_ne.
Qed.

Lemma framed_read_clock i : framed i read_clock.
Proof. intros env. unfold read_clock. by destruct (now (clock env)). Qed.

#[local] Hint Resolve framed_ret framed_lift framed_bind framed_update_profile framed_read_clock : glare.

Lemma framed_timed {A} i (m : M OperatorEffects A) : framed i m -> framed i (timed i m).
Proof. intros Hm. unfold timed. repeat (apply framed_bind; [auto with glare|intros ?]). auto with glare. Qed.

Lemma framed_execute_source : framed 0 execute_source.
Proof.
  intros env. unfold execute_source.
  destruct (operators !! 0) as [op|], (operator_states env !! 0) as [os|],
    (partition_states env !! 0) as [ps|], (buffers env !! 0) as [b|]; try done.
  destruct (call_poll_pull op (os, ps, b)) as [r [[os' ps'] b']].
  etransitivity; [apply (frames_states 0 os' ps')|].
  etransitivity; [apply (frames_buffer 0 0 b'); by left|].
  apply framed_bind; [auto with glare|intros poll].
  apply framed_bind; [case_bool_decide; auto with glare|auto with glare].
Qed.

Lemma framed_execute_sink i : framed i (execute_sink i).
Proof.
  intros env. unfold execute_sink.
  destruct (operators !! i) as [op|], (operator_states env !! i) as [os|],
    (partition_states env !! i) as [ps|], (buffers env !! (i - 1)) as [b|]; try done.
  destruct (call_poll_push op (os, ps, b)) as [r [[os' ps'] b']].
  etransitivity; [apply (frames_states i os' ps')|].
  etransitivity; [apply (frames_buffer i (i - 1) b'); by right|].
  apply framed_bind; [auto with glare|intros poll].
  apply framed_bind; [case_bool_decide; auto with glare|auto with glare].
Qed.

Lemma framed_execute_intermediate i : framed i (execute_intermediate i).
Proof.
  intros env. unfold execute_intermediate.
  destruct (get_execute_inout i (buffers env)) as [[input output]| |]; [|done..].
  destruct (operators !! i) as [op|], (operator_states env !! i) as [os|],
    (partition_states env !! i) as [ps|]; try done.
  destruct (call_poll_execute op (os, ps, input, output)) as [r [[[os' ps'] input'] output']].
  etransitivity; [apply (frames_states i os' ps')|].
  etransitivity; [apply (frames_buffer i (i - 1) input'); by right|].
  etransitivity; [apply (frames_buffer i i output'); by left|].
  apply framed_bind; [auto with glare|intros poll].
  apply framed_bind; [case_bool_decide; auto with glare|auto with glare].
Qed.

Lemma framed_handle_execute i : framed i (handle_execute i).
Proof.
  apply framed_timed. unfold handle_execute_inner.
  destruct (Nat.eqb_spec i 0) as [->|]; [apply framed_execute_source|].
  destruct (i =? _); [apply framed_execute_sink|apply framed_execute_intermediate].
Qed.

Lemma framed_handle_finalize i : framed i (handle_finalize i).
Proof.
  apply framed_timed. intros env. unfold handle_finalize_inner. destruct (i =? 0); [done|].
  destruct (operators !! i) as [op|], (operator_states env !! i) as [os|],
    (partition_states env !! i) as [ps|]; try done.
  destruct (i =? length operators - 1);
    [destruct (call_poll_finalize_push op (os, ps)) as [r [os' ps']]
    |destruct (call_poll_finalize_execute op (os, ps)) as [r [os' ps']]];
    apply frames_states.
Qed.

(** A poll that succeeded is logged and stays within the frame of its operator. *)
Lemma pop_next_frames st log env cf st' log' env' :
  @pop_next _ (logged operator_effects) (st, (env, log)) = (Ok cf, (st', (env', log'))) ->
  (log' = log /\ env' = env)
  \/ exists e, log' = e :: log /\ frames (event_idx e) env env'.
Proof.
  unfold pop_next. destruct (instructions st) as [|[i b|i] rest].
  - intros [= _ _ <- <-]. by left.
  - simpl. unfold log_call. pose proof (framed_handle_execute i env) as Hf. simpl in Hf.
    destruct (timed i (handle_execute_inner i) env) as [[p| |] env1]; [|done..].
    destruct (after_execute st rest i b p) as [r st1].
    intros [= _ _ <- <-]. right. by exists (EvExecute i p).
  - destruct (i =? 0); [done|]. simpl. unfold log_call.
    pose proof (framed_handle_finalize i env) as Hf. simpl in Hf.
    destruct (timed i (handle_finalize_inner i) env) as [[p| |] env1]; [|done..].
    destruct (after_finalize st rest i p) as [r st1].
    intros [= _ _ <- <-]. right. by exists (EvFinalize i p).
Qed.

(** While only operators above [i] are polled, operator [i]'s input buffer and
    its states keep their value. *)
Lemma pop_star_frames i st log env st' log' env' evs :
  0 < i -> pop_star operator_effects (st, log, env) (st', log', env') ->
  log' = evs ++ log -> Forall (fun e => i < event_idx e) evs ->
  buffers env' !! (i - 1) = buffers env !! (i - 1)
  /\ operator_states env' !! i = operator_states env !! i
  /\ partition_states env' !! i = partition_states env !! i.
Proof.
  intros Hi Hs. remember (st, log, env) as c eqn:Hc. remember (st', log', env') as c' eqn:Hc'.
  revert st log env evs Hc. induction Hs as [c|st0 log0 env0 cf st1 log1 env1 c Hpop Hs IH];
    intros st2 log2 env2 evs ? Hlog Hf; simplify_eq; [done|].
  destruct (pop_next_frames _ _ _ _ _ _ _ Hpop) as [[-> ->]|(e & -> & HO & HP & _ & HB)].
  { by eapply IH. }
  assert (exists evs', evs = evs' ++ [e]) as [evs' ->].
  { destruct (pop_star_log _ _ _ _ _ _ _ Hs) as [evs' Heq].
    exists evs'. rewrite cons_middle, app_assoc in Heq. by apply app_inv_tail in Heq. }
  apply Forall_app in Hf as [Hf He]. apply Forall_cons in He as [He _].
  destruct (IH eq_refl st1 (e :: log2) env1 evs' eq_refl) as (-> & -> & ->); [|done|].
  { by rewrite <-app_assoc. }
  rewrite HO, HP, HB by lia. done.
Qed.

(** ** Properties *)

(** C23. [create_partition_pipelines] makes exactly the requested number of
    pipelines.  Pipeline [k] has the states that the operators created for one and
    the same partition (the [k]-th from the end of what the source, every
    intermediate operator and the sink created, each for all partitions), one
    output batch per operator but the sink, a profile with its index and all
    counts zero, and a stack that starts at the source; so it is well formed. *)
Theorem created_pipelines_wf os batch_size partitions ps :
  length os = length operators ->
  create_partition_pipelines os batch_size partitions = Ok ps ->
  exists sss, Forall2 (fun (i : nat) ss => exists op s, operators !! i = Some op /\ os !! i = Some s
        /\ created_states partitions i op s = Ok ss /\ length ss = partitions) (seq 0 (length operators)) sss
    /\ length ps = partitions
    /\ forall k p, ps !! k = Some p -> pipeline_wf p /\ exists states bufs, p = fresh_pipeline os k states bufs
         /\ Forall2 (fun ss st => reverse ss !! k = Some st) sss states
         /\ Forall2 (fun op b => new_output_batch op batch_size = Ok b) (take (length operators - 1) operators) bufs.
Proof.
  intros Hos. unfold create_partition_pipelines. fold n.
  destruct (partitions <? 1); [done|]. destruct (Nat.ltb_spec n 2) as [|Hn]; [done|].
  destruct (collect _ (seq 0 partitions)) as [ps0| |] eqn:H0; simpl; [|done..].
  destruct (index operators 0) as [source| |] eqn:Hsrc; simpl; [|done..].
  destruct (index os 0) as [source_state| |] eqn:Hsrcs; simpl; [|done..].
  destruct (index operators (n - 1)) as [sink| |] eqn:Hsnk; simpl; [|done..].
  destruct (index os (n - 1)) as [sink_state| |] eqn:Hsnks; simpl; [|done..].
  destruct (call_create_partition_pull_states _ _ _) as [ss1| |] eqn:Hc1; simpl; [|done..].
  destruct (append_partition_states ps0 ss1) as [ps1| |] eqn:H1; simpl; [|done..].
  destruct (append_intermediate _ _ ps1) as [ps2| |] eqn:H2; simpl; [|done..].
  destruct (call_create_partition_push_states _ _ _) as [ss3| |] eqn:Hc3; simpl; [|done..].
  destruct (append_partition_states ps2 ss3) as [ps3| |] eqn:H3; simpl; [|done..]. intros H4.
  pose proof (new_pipelines_construction _ _ _ ltac:(lia) H0) as F0. destruct (append_states_construction _ _ _ _ _ _ F0 H1) as [L1 F1].
  destruct (append_intermediate_construction _ _ _ _ _ _ F1 H2) as (ssl & L2 & F2). destruct (append_states_construction _ _ _ _ _ _ F2 H3) as [L3 [F3 F3']].
  pose proof (operators_split operators os source source_state sink sink_state Hn Hos Hsrc Hsrcs Hsnk Hsnks) as Hsplit. fold n in Hsplit.
  exists (ss1 :: ssl ++ [ss3]). split; [by eapply states_created|]. apply collect_Forall2 in H4. split; [by rewrite <- (Forall2_length _ _ _ H4)|].
  intros k p Hp. destruct (Forall2_lookup_r _ _ _ _ _ H4 Hp) as (p0 & Hp0 & Hb). destruct (F3' k p0 Hp0) as (states & -> & Hst).
  destruct (create_buffers_fresh _ _ _ _ _ _ _ Hb) as (bufs & -> & Hbufs). split; [|by exists states, bufs]. apply fresh_pipeline_wf; [done|done| |].
  - apply Forall2_length in Hst. rewrite <- Hst. apply Forall2_length in L2. cbn. rewrite length_app, <- L2. apply (f_equal length) in Hsplit.
    rewrite length_zip in Hsplit. cbn in Hsplit. rewrite length_app in Hsplit. cbn in *. fold n in Hsplit. lia.
  - apply Forall2_length in Hbufs. rewrite length_take in Hbufs. fold n in Hbufs. cbn. lia.
Qed.

(** C24. Polling a pipeline of operators that keep to their contracts never panics
    (no out-of-range index, no failed assertion, no operator polled at the wrong
    place or after it closed), leaves it ready for the next poll while it is
    pending, and a completed pipeline answers every later poll with an error and
    does nothing.  A contract is an invariant on the states of an operator and on
    the batches it is given and gives, from which its polls do not panic. *)
Theorem poll_execute_safe (op_inv : nat -> OpState -> PartState -> Prop) (batch_inv : nat -> Batch -> Prop) fuel p c out p' c' :
  (forall i op, operators !! i = Some op -> operator_contract op_inv batch_inv i op) -> pipeline_ok op_inv batch_inv p ->
  poll_execute fuel p c = (out, p', c') ->
  (forall w, out <> Some (PollReady (Panic w)))
  /\ (out = Some PollPending -> pipeline_ok op_inv batch_inv p')
  /\ (forall prof, out = Some (PollReady (Ok prof)) -> forall fuel2 c2,
        poll_execute fuel2 p' c2
        = (Some (PollReady (Err "poll_execute called on already completed pipeline")), p', c2)).
Proof.
  intros Hops ((Hn & Hos & Hps & Hb & (idx & profs & Hprof & Hlen) & Hnum & Hwf) & Hst & Hbuf).
  unfold poll_execute. rewrite Hprof.
  match goal with |- context [drive fuel ?st ?env] =>
    destruct (drive fuel st env) as [r [st1 env1]] eqn:Hd end.
  apply (drive_safe op_inv batch_inv Hops) in Hd as [Hd1 Hd2]; [|done|split_and!; [done|done|split_and!; done..]].
  destruct r as [[[[]|e|w]|]|]; intros [= <- <- <-]; split_and!; try done; try (by naive_solver).
  intros _. destruct (Hd2 ltac:(by right; left)) as (? & ? & (? & ? & ? & ?) & ? & ?).
  split_and!; simpl; try done. split_and!; simpl; try done. by eexists _, _.
Qed.

(** When operator [i] answered [HasMore] and is then executed again, its
    input batch and its states are exactly what that answer left: no poll in
    between reached them, and no operator at or below [i] is polled first. *)
Theorem has_more_same_input i st0 log0 env0 evs st1 env1 cf st2 env2 e :
  0 < i ->
  reachable operator_effects (length operators) st0 (EvExecute i PollExecute.HasMore :: log0) env0 ->
  pop_star operator_effects (st0, EvExecute i PollExecute.HasMore :: log0, env0)
    (st1, evs ++ EvExecute i PollExecute.HasMore :: log0, env1) ->
  Forall (fun ev => i < event_idx ev) evs ->
  @pop_next _ (logged operator_effects) (st1, (env1, evs ++ EvExecute i PollExecute.HasMore :: log0))
  = (Ok cf, (st2, (env2, e :: evs ++ EvExecute i PollExecute.HasMore :: log0))) ->
  event_idx e <= i ->
  (exists p, e = EvExecute i p)
  /\ buffers env1 !! (i - 1) = buffers env0 !! (i - 1)
  /\ operator_states env1 !! i = operator_states env0 !! i
  /\ partition_states env1 !! i = partition_states env0 !! i.
Proof.
  intros Hi Hr Hs Hf Hpop He. split; [|by eapply pop_star_frames].
  apply (has_more_next operator_effects n st2
    (e :: evs ++ EvExecute i PollExecute.HasMore :: log0) env2 i [] e evs log0); [|done..].
  eapply reach_pop; [|exact Hpop]. by eapply pop_star_reachable.
Qed.

End PartitionPipeline.

(** ** A concrete pipeline

    A source with a queue of batches, an operator that emits every input
    twice, and a sink that collects what it is given.  Polled at the wrong place an
    operator panics, and so does the source after its end. *)
Module Example.

Definition op (pull : M (unit * list (list nat) * list nat) PollPull.t)
    (exec : M (unit * list (list nat) * list nat * list nat) PollExecute.t)
    (push : M (unit * list (list nat) * list nat) PollPush.t)
    : @PlannedOperator (list nat) unit (list (list nat)) := {|
  call_poll_pull := pull;
  call_poll_execute := exec;
  call_poll_push := push;
  call_poll_finalize_execute := mret PollFinalize.Finalized;
  call_poll_finalize_push := mret PollFinalize.Finalized;
  call_create_partition_pull_states _ k := Ok (replicate k [[1; 2]; [3]]);
  call_create_partition_execute_states _ k := Ok (replicate k []);
  call_create_partition_push_states _ k := Ok (replicate k []);
  new_output_batch _ := Ok [];
|}.

Definition no_pull : M (unit * list (list nat) * list nat) PollPull.t := fun s => (Panic "not a source", s).
Definition no_exec : M (unit * list (list nat) * list nat * list nat) PollExecute.t := fun s => (Panic "not an intermediate operator", s).
Definition no_push : M (unit * list (list nat) * list nat) PollPush.t := fun s => (Panic "not a sink", s).

Definition source := op
  (fun '(o, q, _) =>
     match q with
     | [] => (Ok PollPull.Exhausted, (o, [[]], []))
     | [] :: _ => (Panic "polled after the end", (o, q, []))
     | b :: q' => (Ok PollPull.HasMore, (o, q', b))
     end) no_exec no_push.

Definition twice := op no_pull
  (fun '(o, q, input, _) =>
     match q with
     | [] => (Ok PollExecute.HasMore, (o, [input], input, input))
     | _ => (Ok PollExecute.Ready, (o, [], input, input))
     end) no_push.

Definition sink := op no_pull no_exec
  (fun '(o, q, input) => (Ok PollPush.NeedsMore, (o, q ++ [input], input))).

Definition operators := [source; twice; sink].

Definition created : res (list _) :=
  create_partition_pipelines (Batch := list nat) operators [tt; tt; tt] 16 1.

Definition the_pipeline : @ExecutablePartitionPipeline (list nat) unit (list (list nat)) :=
  Eval vm_compute in
  match created with Ok [p] => p | _ => {|
    p_operator_states := []; p_partition_states := []; p_buffers := [];
    p_stack := mkStack 0 []; p_profile := None |} end.

Definition env0 : @OperatorEffects (list nat) unit (list (list nat)) unit := Eval vm_compute in
  {| operator_states := p_operator_states the_pipeline;
     partition_states := p_partition_states the_pipeline;
     buffers := p_buffers the_pipeline;
     profiles := replicate 3 {| execution_duration := 0; rows_in := 0; rows_out := 0 |};
     clock := tt |}.

Definition effects := operator_effects length (fun c : unit => (0, c)) operators.

(** The configuration after [k] calls of [pop_next]. *)
Definition after (k : nat) := pops effects k (p_stack the_pipeline) env0 [].

Lemma after_reachable k st h log : after k = (st, h, log) -> reachable effects 3 st log h.
Proof. apply pops_reachable. by apply reach_new. Qed.

(** The source holds no empty batch. *)
Definition op_inv (i : nat) (o : unit) (q : list (list nat)) : Prop := i = 0 -> Forall (fun b => b <> []) q.

Lemma contracts i o : operators !! i = Some o -> operator_contract operators op_inv (fun _ _ => True) i o.
Proof.
  intros Hi. destruct i as [|[|[|i]]]; cbn in Hi; try done; injection Hi as <-; split; cbn; try lia; intros Hi; try lia.
  - intros [] [|[|x b] q] out Hq _; cbn; [done| |].
    + specialize (Hq eq_refl). by inversion Hq.
    + split; [done|]. intros _ _. specialize (Hq eq_refl). by inversion Hq.
  - intros [] [|b q] input output _ _ _; cbn; (split_and!; [done|done|by intros _ ?]).
  - intros [] q _. by intros _ ?.
  - intros [] q b _ _. split; [done|by intros ?].
  - intros [] q _. by intros _ ?.
Qed.
End Example.

Lemma created_pipelines_wf_witness :
  exists ps, create_partition_pipelines Example.operators [tt; tt; tt] 16 2 = Ok ps /\ length ps = 2
    /\ exists p bufs, ps !! 1 = Some p /\ p = fresh_pipeline Example.operators [tt; tt; tt] 1 [[[1; 2]; [3]]; []; []] bufs.
Proof.
  destruct (create_partition_pipelines Example.operators [tt; tt; tt] 16 2) as [ps| |] eqn:Hc; [|vm_compute in Hc; discriminate Hc..].
  destruct (created_pipelines_wf Example.operators [tt; tt; tt] 16 2 ps eq_refl Hc) as (sss & _ & Hl & Hps). exists ps. split; [reflexivity|]. split; [exact Hl|].
  destruct (ps !! 1) as [p|] eqn:Hp; [|apply lookup_ge_None in Hp; lia]. destruct (Hps 1 p Hp) as (_ & states & bufs & E & _). exists p, bufs. split; [reflexivity|].
  vm_compute in Hc. injection Hc as <-. vm_compute in Hp. injection Hp as <-. injection E as <- <-. reflexivity.
Defined.

Lemma poll_execute_safe_witness :
  exists out p',
  poll_execute length (fun c : unit => (0, c)) Example.operators 20 Example.the_pipeline tt = (out, p', tt)
  /\ p_partition_states p' !! 2 = Some [[1; 2]; [1; 2]; [3]; [3]; []; []]
  /\ (forall w, out <> Some (PollReady (Panic w))).
Proof.
  eexists _, _. split; [vm_compute; reflexivity|]. split; [vm_compute; reflexivity|].
  eapply (poll_execute_safe length (fun c : unit => (0, c)) Example.operators Example.op_inv (fun _ _ => True) 20 Example.the_pipeline tt).
  - apply Example.contracts.
  - split; [|split].
    + vm_compute. repeat split; try lia; [by eexists _, _|]. apply (wf_running 3 0 []); [lia|apply chain_nil].
    + intros i os ps _ _ Hps ->. cbn in Hps. injection Hps as <-. by repeat constructor.
    + done.
  - vm_compute. reflexivity.
Defined.

Lemma has_more_same_input_witness :
  (exists p, EvExecute 1 PollExecute.Ready = EvExecute 1 p)
  /\ buffers (snd (fst (Example.after 3))) !! 0 = Some [1; 2].
Proof.
  destruct (has_more_same_input length (fun c : unit => (0, c)) Example.operators 1
    (fst (fst (Example.after 2))) [EvExecute 0 PollExecute.HasMore] (snd (fst (Example.after 2)))
    [EvExecute 2 PollExecute.NeedsMore]
    (fst (fst (Example.after 3))) (snd (fst (Example.after 3))) StackControlFlow.Continue
    (fst (fst (Example.after 4))) (snd (fst (Example.after 4))) (EvExecute 1 PollExecute.Ready))
    as (H1 & H2 & _).
  - lia.
  - apply (Example.after_reachable 2). vm_compute. reflexivity.
  - eapply pop_star_step; [vm_compute; reflexivity|]. vm_compute. apply pop_star_refl.
  - repeat constructor.
  - vm_compute. reflexivity.
  - simpl. lia.
  - split; [done|]. etransitivity; [exact H2|]. vm_compute. reflexivity.
Defined.
