(* ===== verification/Arrays.v ===== *)
(** * Bitmaps, validity masks, selections and arrays

    Models [arrays/bitmap/view.rs], [arrays/array/validity.rs],
    [arrays/array/selection.rs] and the selection machinery of
    [arrays/array/mod.rs].  Bytes are integers in [0, 256). *)
From S2P Require Import Prelude.
Local Open Scope Z_scope.

(** ** Bitmap views ([bitmap/view.rs]) *)

Module Bitmap.

(** [num_bytes_for_bitmap]: [entries.div_ceil(8)] *)
Definition num_bytes_for_bitmap (entries : nat) : nat := ((entries + 7) / 8)%nat.

(** [debug_assert!(idx <= self.len)] *)
Definition in_bounds (len idx : nat) : res unit := rust_assert (idx <=? len)%nat "assertion failed: idx <= self.len".

(** [BitmapView::value] *)
Definition value (data : list Z) (len idx : nat) : res bool :=
  _ ← in_bounds len idx;
  byte ← index data (Nat.shiftr idx 3);
  Ok (negb (Z.land (Z.shiftr byte (Z.of_nat (Nat.land idx 7))) 1 =? 0)).

(** [u8::count_ones] *)
Definition count_ones (b : Z) : nat :=
  length (filter (fun k => Z.testbit b (Z.of_nat k) = true) (seq 0 8)).

(** [BitmapView::count_trues] *)
Definition count_trues (data : list Z) (len : nat) : res nat :=
  let nbytes := num_bytes_for_bitmap len in
  _ ← rust_assert (nbytes <=? length data)%nat "range end index out of range";
  let subset := take nbytes data in
  let count := foldl (fun acc b => acc + count_ones b)%nat 0%nat subset in
  let rem := (len mod 8)%nat in
  if (rem =? 0)%nat then Ok count
  else
    match last subset with
    | None => Panic "called `Option::unwrap()` on a `None` value"
    | Some last =>
        let mask := Z.shiftr (Z.land (Z.shiftl 255 (Z.of_nat (8 - rem))) 255) (Z.of_nat (8 - rem)) in
        Ok (count - count_ones last + count_ones (Z.land mask last))%nat
    end.

(** [BitmapView::all_true] *)
Definition all_true (data : list Z) (len : nat) : res bool :=
  c ← count_trues data len;
  Ok (c =? len)%nat.

(** [BitmapViewMut::set] *)
Definition set (data : list Z) (len idx : nat) : res (list Z) :=
  _ ← in_bounds len idx;
  let byte := (idx / 8)%nat in
  let bit := Nat.land idx 7 in
  old ← index data byte;
  Ok (<[byte := Z.lor old (Z.shiftl 1 (Z.of_nat bit))]> data).

(** [BitmapViewMut::unset]; [!x] on a [u8] is [255 - x]. *)
Definition unset (data : list Z) (len idx : nat) : res (list Z) :=
  _ ← in_bounds len idx;
  let byte := (idx / 8)%nat in
  let bit := Nat.land idx 7 in
  old ← index data byte;
  Ok (<[byte := Z.land old (Z.lxor (Z.shiftl 1 (Z.of_nat bit)) 255)]> data).

End Bitmap.

(** ** Selections ([selection.rs]) *)

Module Selection.

Inductive t : Type :=
| Constant (len loc : nat)
| Linear (start len : nat)
| Slice (sel : list nat).

(** [Selection::len] *)
Definition len (s : t) : nat :=
  match s with
  | Constant len _ => len
  | Linear _ len => len
  | Slice sel => length sel
  end.

(** [Selection::get] *)
Definition get (s : t) (idx : nat) : option nat :=
  match s with
  | Constant len loc => if (len <=? idx)%nat then None else Some loc
  | Linear start len => if (len <=? idx)%nat then None else Some (idx + start)%nat
  | Slice sel => sel !! idx
  end.

(** [FlatSelectionIter::next], with the iterator state [idx] made explicit. *)
Definition next (idx : nat) (s : t) : res (option nat) * nat :=
  if (len s <=? idx)%nat then (Ok None, idx)
  else
    match s with
    | Constant _ loc => (Ok (Some loc), S idx)
    | Linear start _ => (Ok (Some (idx + start)%nat), S idx)
    | Slice sel =>
        match sel !! idx with
        | Some v => (Ok (Some v), S idx)
        | None => (Panic "index out of bounds", idx)
        end
    end.

(** Running the iterator to its end ([collect]). *)
Fixpoint drain (fuel : nat) (idx : nat) (s : t) : res (list nat) :=
  match fuel with
  | O => Ok []
  | S fuel' =>
      match next idx s with
      | (Ok None, _) => Ok []
      | (Ok (Some v), idx') => rest ← drain fuel' idx' s; Ok (v :: rest)
      | (Err e, _) => Err e
      | (Panic w, _) => Panic w
      end
  end.

(** [into_iter().collect()]: at most [len] items are produced. *)
Definition to_list (s : t) : res (list nat) := drain (S (len s)) 0 s.

End Selection.

(** ** Validity masks ([validity.rs]) *)

Module Validity.

Inductive t : Type :=
| AllValid (len : nat)
| AllInvalid (len : nat)
| Mask (len : nat) (data : list Z).

(** [Validity::len] *)
Definition len (v : t) : nat :=
  match v with AllValid len | AllInvalid len | Mask len _ => len end.

(** [Validity::all_valid] *)
Definition all_valid (v : t) : res bool :=
  match v with
  | AllValid _ => Ok true
  | AllInvalid _ => Ok false
  | Mask len data => Bitmap.all_true data len
  end.

(** [Validity::is_valid] *)
Definition is_valid (v : t) (idx : nat) : res bool :=
  match v with
  | AllValid _ => Ok true
  | AllInvalid _ => Ok false
  | Mask len data => Bitmap.value data len idx
  end.

(** [Validity::set_valid] *)
Definition set_valid (v : t) (idx : nat) : res t :=
  match v with
  | AllValid _ => Ok v
  | AllInvalid len =>
      data ← Bitmap.set (replicate (Bitmap.num_bytes_for_bitmap len) 0) len idx;
      Ok (Mask len data)
  | Mask len data => data' ← Bitmap.set data len idx; Ok (Mask len data')
  end.

(** [Validity::set_invalid] *)
Definition set_invalid (v : t) (idx : nat) : res t :=
  match v with
  | AllValid len =>
      data ← Bitmap.unset (replicate (Bitmap.num_bytes_for_bitmap len) 255) len idx;
      Ok (Mask len data)
  | AllInvalid _ => Ok v
  | Mask len data => data' ← Bitmap.unset data len idx; Ok (Mask len data')
  end.

(** The loop of [Validity::select] over the enumerated selection. *)
Fixpoint select_loop (old_len : nat) (old : list Z) (new_len out_idx : nat) (selection : list nat) (new : list Z) : res (list Z) :=
  match selection with
  | [] => Ok new
  | sel_idx :: rest =>
      b ← Bitmap.value old old_len sel_idx;
      new' ← (if b : bool then Bitmap.set new new_len out_idx else Ok new);
      select_loop old_len old new_len (S out_idx) rest new'
  end.

(** [Validity::select] *)
Definition select (v : t) (selection : list nat) : res t :=
  match v with
  | AllValid _ => Ok (AllValid (length selection))
  | AllInvalid _ => Ok (AllInvalid (length selection))
  | Mask len data =>
      let new_len := length selection in
      new_data ← select_loop len data new_len 0 selection (replicate (Bitmap.num_bytes_for_bitmap new_len) 0);
      Ok (Mask new_len new_data)
  end.

End Validity.

(** ** Bits of a bitmap *)

Section Bits.

(** The bit a view reads at [idx]. *)
Definition bit (data : list Z) (idx : nat) : bool :=
  Z.testbit (data !!! (idx / 8)%nat) (Z.of_nat (idx mod 8)).

(** The logical content of a bitmap of [len] entries. *)
Definition bits (data : list Z) (len : nat) : list bool := bit data <$> seq 0 len.

Lemma land_7 idx : Nat.land idx 7 = (idx mod 8)%nat.
Proof. apply (Nat.land_ones idx 3). Qed.

Lemma shiftr_3 idx : Nat.shiftr idx 3 = (idx / 8)%nat.
Proof. apply (Nat.shiftr_div_pow2 idx 3). Qed.

Lemma land_1_testbit x : negb (Z.land x 1 =? 0) = Z.testbit x 0.
Proof.
  change 1 with (Z.ones 1). rewrite Z.land_ones by lia. change (2 ^ 1) with 2.
  rewrite Zmod_odd, Z.bit0_odd. by destruct (Z.odd x).
Qed.

Lemma lookup_total_index {A} `{Inhabited A} (l : list A) i :
  (i < length l)%nat -> index l i = Ok (l !!! i).
Proof. intros Hi. apply index_Ok, list_lookup_lookup_total_lt, Hi. Qed.

Lemma in_bounds_ok len idx : (idx <= len)%nat -> Bitmap.in_bounds len idx = Ok tt.
Proof. intros Hi. unfold Bitmap.in_bounds. by rewrite (proj2 (Nat.leb_le _ _)). Qed.

Lemma value_bit data len idx :
  (idx <= len)%nat -> (idx / 8 < length data)%nat -> Bitmap.value data len idx = Ok (bit data idx).
Proof.
  intros Hl Hi. unfold Bitmap.value. rewrite in_bounds_ok by done. cbn [mbind res_bind]. rewrite shiftr_3, lookup_total_index by done. simpl.
  rewrite land_1_testbit, Z.shiftr_spec, land_7 by lia. done.
Qed.

(** Writing one byte of the bitmap changes the bits of that byte only. *)
Lemma bit_insert data k b j :
  (k < length data)%nat ->
  bit (<[k := b]> data) j =
    if decide (j / 8 = k)%nat then Z.testbit b (Z.of_nat (j mod 8)) else bit data j.
Proof.
  intros Hk. unfold bit. case_decide as Hj.
  - by rewrite Hj, list_lookup_total_insert_eq.
  - by rewrite list_lookup_total_insert_ne.
Qed.

Lemma same_position i j : (j / 8 = i / 8 -> j mod 8 = i mod 8 -> j = i)%nat.
Proof.
  intros Hd Hm. rewrite (Nat.div_mod_eq j 8), (Nat.div_mod_eq i 8). by rewrite Hd, Hm.
Qed.

Lemma set_bit data len idx :
  (idx <= len)%nat -> (idx / 8 < length data)%nat ->
  exists data', Bitmap.set data len idx = Ok data' /\ length data' = length data
    /\ forall j, bit data' j = if decide (j = idx) then true else bit data j.
Proof.
  intros Hl Hi. unfold Bitmap.set. rewrite in_bounds_ok by done. cbn [mbind res_bind]. rewrite lookup_total_index by done. simpl.
  eexists. split; [done|]. split; [apply length_insert|]. intros j.
  rewrite bit_insert by done. case_decide as Hj; [|by rewrite decide_False by (by intros ->)].
  rewrite Z.lor_spec, Z.shiftl_1_l, Z.pow2_bits_eqb, land_7 by lia.
  case_decide as Hji; subst; [by rewrite Z.eqb_refl, orb_true_r|].
  destruct (Z.eqb_spec (Z.of_nat (idx mod 8)) (Z.of_nat (j mod 8))) as [Heq|]; [|by rewrite orb_false_r; unfold bit; rewrite Hj].
  destruct Hji. apply same_position; [done|by apply Nat2Z.inj].
Qed.

Lemma unset_bit data len idx :
  (idx <= len)%nat -> (idx / 8 < length data)%nat ->
  exists data', Bitmap.unset data len idx = Ok data' /\ length data' = length data
    /\ forall j, bit data' j = if decide (j = idx) then false else bit data j.
Proof.
  intros Hl Hi. unfold Bitmap.unset. rewrite in_bounds_ok by done. cbn [mbind res_bind]. rewrite lookup_total_index by done. simpl.
  eexists. split; [done|]. split; [apply length_insert|]. intros j.
  rewrite bit_insert by done. case_decide as Hj; [|by rewrite decide_False by (by intros ->)].
  rewrite Z.land_spec, Z.lxor_spec, Z.shiftl_1_l, Z.pow2_bits_eqb, land_7 by lia.
  assert (Z.testbit 255 (Z.of_nat (j mod 8)) = true) as ->.
  { change 255 with (Z.ones 8). apply Z.ones_spec_low. pose proof (Nat.mod_upper_bound j 8). lia. }
  case_decide as Hji; subst; [by rewrite Z.eqb_refl, andb_false_r|].
  destruct (Z.eqb_spec (Z.of_nat (idx mod 8)) (Z.of_nat (j mod 8))) as [Heq|]; simpl; [|by rewrite andb_true_r; unfold bit; rewrite Hj].
  destruct Hji. apply same_position; [done|by apply Nat2Z.inj].
Qed.

Lemma length_bits data len : length (bits data len) = len.
Proof. unfold bits. by rewrite length_fmap, length_seq. Qed.

Lemma lookup_bits data len i : (i < len)%nat -> bits data len !! i = Some (bit data i).
Proof. intros Hi. unfold bits. by rewrite list_lookup_fmap, lookup_seq_lt. Qed.

(** A bitmap that differs in one bit. *)
Lemma bits_insert data data' len idx b :
  (idx < len)%nat -> (forall j, bit data' j = if decide (j = idx) then b else bit data j) ->
  bits data' len = <[idx := b]> (bits data len).
Proof.
  intros Hi Hj. apply list_eq. intros i. destruct (decide (i < len)%nat) as [Hil|Hil].
  - rewrite lookup_bits, Hj by done. case_decide as Hid; subst.
    + by rewrite list_lookup_insert_eq by (by rewrite length_bits).
    + by rewrite list_lookup_insert_ne, lookup_bits.
  - rewrite !lookup_ge_None_2; [done| |]; rewrite ?length_insert, length_bits; lia.
Qed.

Lemma bytes_for_bit len idx : (idx < len -> idx / 8 < Bitmap.num_bytes_for_bitmap len)%nat.
Proof.
  intros Hi. unfold Bitmap.num_bytes_for_bitmap.
  pose proof (Nat.div_mod_eq idx 8). pose proof (Nat.div_mod_eq (len + 7) 8).
  pose proof (Nat.mod_upper_bound idx 8). pose proof (Nat.mod_upper_bound (len + 7) 8). lia.
Qed.

End Bits.

(** ** Counting *)

(** Number of set bits among the first [k] of a bitmap. *)
Definition trues (data : list Z) (k : nat) : nat :=
  length (filter (fun j => bit data j = true) (seq 0 k)).

(** Set bits among the first [k] bits of one byte. *)
Definition low_ones (b : Z) (k : nat) : nat :=
  length (filter (fun j => Z.testbit b (Z.of_nat j) = true) (seq 0 k)).

Lemma filter_ext_length {A B} (P : A -> Prop) (Q : B -> Prop)
    `{forall x, Decision (P x)} `{forall x, Decision (Q x)} (f : A -> B) (l : list A) :
  (forall x, x ∈ l -> (P x <-> Q (f x))) ->
  length (filter P l) = length (filter Q (f <$> l)).
Proof.
  induction l as [|x l IH]; intros Hl; [done|]. rewrite fmap_cons, !filter_cons.
  pose proof (Hl x ltac:(apply list_elem_of_here)) as Hx.
  assert (length (filter P l) = length (filter Q (f <$> l))) as IH'.
  { apply IH. intros y Hy. apply Hl. by apply list_elem_of_further. }
  repeat case_decide; simpl; first [by rewrite IH' | naive_solver].
Qed.

(** [k] bits from the start of byte [i] on. *)
Lemma trues_byte data i k :
  (k <= 8)%nat ->
  trues data (8 * i + k) = (trues data (8 * i) + low_ones (data !!! i) k)%nat.
Proof.
  intros Hk. unfold trues, low_ones. rewrite seq_app, filter_app, length_app. f_equal.
  rewrite Nat.add_0_l, <-(Nat.add_0_r (8 * i)) at 1. rewrite <-fmap_add_seq.
  symmetry. apply filter_ext_length. intros j Hj%elem_of_seq.
  unfold bit. rewrite Nat.mul_comm, (Nat.div_add_l i 8 j), (Nat.div_small j 8), Nat.add_0_r by lia.
  by rewrite Nat.add_comm, Nat.Div0.mod_add, Nat.mod_small by lia.
Qed.

Lemma take_S_total (data : list Z) m :
  (m < length data)%nat -> take (S m) data = take m data ++ [data !!! m].
Proof. intros Hm. by apply take_S_r, list_lookup_lookup_total_lt. Qed.

Lemma foldl_count data m :
  (m <= length data)%nat ->
  foldl (fun acc b => acc + Bitmap.count_ones b)%nat 0%nat (take m data) = trues data (8 * m).
Proof.
  induction m as [|m IH]; intros Hm; [done|].
  rewrite take_S_total, foldl_app, IH by lia.
  replace (8 * S m)%nat with (8 * m + 8)%nat by lia. by rewrite trues_byte.
Qed.

Lemma low_mask rem :
  (0 < rem < 8)%nat ->
  Z.shiftr (Z.land (Z.shiftl 255 (Z.of_nat (8 - rem))) 255) (Z.of_nat (8 - rem)) = Z.ones (Z.of_nat rem).
Proof. intros Hr. do 8 (destruct rem as [|rem]; [lia || reflexivity|]). lia. Qed.

Lemma count_ones_masked b rem :
  (rem <= 8)%nat -> Bitmap.count_ones (Z.land (Z.ones (Z.of_nat rem)) b) = low_ones b rem.
Proof.
  intros Hr. unfold Bitmap.count_ones, low_ones.
  replace 8%nat with (rem + (8 - rem))%nat by lia.
  rewrite seq_app, filter_app, length_app, Nat.add_0_l.
  rewrite (filter_ext_length _ (fun j => Z.testbit b (Z.of_nat j) = true) id), list_fmap_id.
  - rewrite <-Nat.add_0_r. f_equal. apply length_zero_iff_nil.
    apply filter_none. intros j Hj%elem_of_seq.
    by rewrite Z.land_spec, Z.ones_spec_high by lia.
  - intros j Hj%elem_of_seq. by rewrite Z.land_spec, Z.ones_spec_low by lia.
Qed.

Lemma num_bytes_cases len :
  len = (8 * (len / 8) + len mod 8)%nat
  /\ Bitmap.num_bytes_for_bitmap len = if (len mod 8 =? 0)%nat then (len / 8)%nat else S (len / 8).
Proof.
  pose proof (Nat.div_mod_eq len 8) as Hdm. split; [done|].
  pose proof (Nat.mod_upper_bound len 8). unfold Bitmap.num_bytes_for_bitmap.
  pose proof (Nat.div_mod_eq (len + 7) 8). pose proof (Nat.mod_upper_bound (len + 7) 8).
  destruct (Nat.eqb_spec (len mod 8) 0); lia.
Qed.

Lemma count_trues_bits data len :
  (Bitmap.num_bytes_for_bitmap len <= length data)%nat ->
  Bitmap.count_trues data len = Ok (trues data len).
Proof.
  intros Hlen. unfold Bitmap.count_trues, rust_assert.
  destruct (Nat.leb_spec (Bitmap.num_bytes_for_bitmap len) (length data)) as [_|]; [|lia].
  unfold mbind, res_bind. destruct (num_bytes_cases len) as [Hq Hnb]. rewrite foldl_count by done.
  pose proof (Nat.mod_upper_bound len 8) as Hmod.
  destruct (Nat.eqb_spec (len mod 8) 0) as [H0|H0].
  - rewrite Hnb. do 2 f_equal. lia.
  - rewrite Hnb in *. rewrite take_S_total, last_snoc by lia.
    rewrite low_mask, count_ones_masked by lia. f_equal.
    assert (trues data len = trues data (8 * (len / 8) + len mod 8)) as -> by (f_equal; lia).
    replace (8 * S (len / 8))%nat with (8 * (len / 8) + 8)%nat by lia.
    rewrite !trues_byte by lia.
    change (low_ones (data !!! (len / 8)%nat) 8) with (Bitmap.count_ones (data !!! (len / 8)%nat)). lia.
Qed.

(** The count against the logical content. *)
Lemma trues_bits data len : trues data len = length (filter (fun b => b = true) (bits data len)).
Proof. unfold trues, bits. by apply (filter_ext_length _ (fun b => b = true) (bit data)). Qed.

Lemma filter_full (l : list bool) :
  (length (filter (fun b => b = true) l) = length l)%nat <-> Forall (fun b => b = true) l.
Proof.
  induction l as [|b l IH]; [by split|].
  rewrite filter_cons, Forall_cons. case_decide as Hb; simpl.
  - rewrite Nat.succ_inj_wd, IH. naive_solver.
  - pose proof (length_filter (fun b => b = true) l) as Hle. split; [lia|naive_solver].
Qed.

(** ** Validity masks refine lists of booleans *)

#[export] Instance validity_eq_dec : EqDecision Validity.t.
Proof. solve_decision. Defined.

(** The logical content of a mask. *)
Definition valid_list (v : Validity.t) : list bool :=
  match v with
  | Validity.AllValid len => replicate len true
  | Validity.AllInvalid len => replicate len false
  | Validity.Mask len data => bits data len
  end.

(** A mask owns enough bytes for its entries. *)
Definition validity_wf (v : Validity.t) : Prop :=
  match v with
  | Validity.Mask len data => (Bitmap.num_bytes_for_bitmap len <= length data)%nat
  | _ => True
  end.

Lemma length_valid_list v : length (valid_list v) = Validity.len v.
Proof. destruct v; simpl; [apply length_replicate..|apply length_bits]. Qed.

Lemma is_valid_spec v idx :
  validity_wf v -> (idx < Validity.len v)%nat ->
  exists b, Validity.is_valid v idx = Ok b /\ valid_list v !! idx = Some b.
Proof.
  destruct v as [len|len|len data]; simpl; intros Hwf Hi.
  - exists true. split; [done|by apply lookup_replicate].
  - exists false. split; [done|by apply lookup_replicate].
  - exists (bit data idx). split; [|by apply lookup_bits].
    pose proof (bytes_for_bit len idx Hi). apply value_bit; lia.
Qed.

Lemma bits_replicate_full len k b :
  b = (255 : Z) -> (Bitmap.num_bytes_for_bitmap len <= k)%nat -> bits (replicate k b) len = replicate len true.
Proof.
  intros -> Hk. apply list_eq. intros i. destruct (decide (i < len)%nat) as [Hi|Hi].
  - rewrite lookup_bits, lookup_replicate_2 by done. f_equal. unfold bit.
    rewrite lookup_total_replicate_2 by (pose proof (bytes_for_bit len i Hi); lia).
    change 255 with (Z.ones 8). apply Z.ones_spec_low. pose proof (Nat.mod_upper_bound i 8). lia.
  - rewrite !lookup_ge_None_2; [done| |]; rewrite ?length_replicate, ?length_bits; lia.
Qed.

Lemma bits_replicate_zero len k :
  (Bitmap.num_bytes_for_bitmap len <= k)%nat -> bits (replicate k 0) len = replicate len false.
Proof.
  intros Hk. apply list_eq. intros i. destruct (decide (i < len)%nat) as [Hi|Hi].
  - rewrite lookup_bits, lookup_replicate_2 by done. f_equal. unfold bit.
    by rewrite lookup_total_replicate_2, Z.bits_0 by (pose proof (bytes_for_bit len i Hi); lia).
  - rewrite !lookup_ge_None_2; [done| |]; rewrite ?length_replicate, ?length_bits; lia.
Qed.

Lemma set_valid_spec v idx :
  validity_wf v -> (idx < Validity.len v)%nat ->
  exists v', Validity.set_valid v idx = Ok v' /\ validity_wf v'
    /\ valid_list v' = <[idx := true]> (valid_list v).
Proof.
  destruct v as [len|len|len data]; simpl; intros Hwf Hi; pose proof (bytes_for_bit len idx Hi) as Hb.
  - eexists. split_and!; [done..|]. symmetry. apply list_insert_id. by apply lookup_replicate.
  - destruct (set_bit (replicate (Bitmap.num_bytes_for_bitmap len) 0) len idx ltac:(lia)) as (data' & -> & Hlen & Hbit).
    { by rewrite length_replicate. }
    eexists. split_and!; [done|by simpl; rewrite Hlen, length_replicate|]. simpl.
    rewrite (bits_insert _ _ _ _ _ Hi Hbit). f_equal. by apply bits_replicate_zero.
  - destruct (set_bit data len idx ltac:(lia)) as (data' & -> & Hlen & Hbit); [lia|].
    eexists. split_and!; [done|by simpl; rewrite Hlen|]. by apply bits_insert.
Qed.

Lemma set_invalid_spec v idx :
  validity_wf v -> (idx < Validity.len v)%nat ->
  exists v', Validity.set_invalid v idx = Ok v' /\ validity_wf v'
    /\ valid_list v' = <[idx := false]> (valid_list v).
Proof.
  destruct v as [len|len|len data]; simpl; intros Hwf Hi; pose proof (bytes_for_bit len idx Hi) as Hb.
  - destruct (unset_bit (replicate (Bitmap.num_bytes_for_bitmap len) 255) len idx ltac:(lia)) as (data' & -> & Hlen & Hbit).
    { by rewrite length_replicate. }
    eexists. split_and!; [done|by simpl; rewrite Hlen, length_replicate|]. simpl.
    rewrite (bits_insert _ _ _ _ _ Hi Hbit). f_equal. by apply bits_replicate_full.
  - eexists. split_and!; [done..|]. symmetry. apply list_insert_id. by apply lookup_replicate.
  - destruct (unset_bit data len idx ltac:(lia)) as (data' & -> & Hlen & Hbit); [lia|].
    eexists. split_and!; [done|by simpl; rewrite Hlen|]. by apply bits_insert.
Qed.

(** The loop of [select] copies bit [sel[k]] to position [out_idx + k]. *)
Lemma select_loop_spec old_len old new_len out_idx sel new :
  Forall (fun i => i <= old_len /\ i / 8 < length old)%nat sel -> (out_idx + length sel <= new_len)%nat ->
  ((out_idx + length sel + 7) / 8 <= length new)%nat ->
  (forall j, (out_idx <= j < out_idx + length sel)%nat -> bit new j = false) ->
  exists new', Validity.select_loop old_len old new_len out_idx sel new = Ok new' /\ length new' = length new
    /\ (forall j, (j < out_idx)%nat -> bit new' j = bit new j)
    /\ (forall k i, sel !! k = Some i -> bit new' (out_idx + k) = bit old i).
Proof.
  revert out_idx new. induction sel as [|i sel IH]; intros out_idx new Hold Hlen0 Hnew Hz; simpl.
  { by exists new. }
  apply Forall_cons in Hold as [[Hl Hi] Hold]. cbn [length] in Hlen0. rewrite value_bit by done. unfold mbind, res_bind.
  assert (exists new1, (if bit old i then Bitmap.set new new_len out_idx else Ok new) = Ok new1
    /\ length new1 = length new
    /\ forall j, bit new1 j = if decide (j = out_idx) then bit old i else bit new j)
    as (new1 & -> & Hlen1 & Hbit1).
  { cbn [length] in Hnew. destruct (bit old i) eqn:Hb.
    - apply set_bit; [lia|]. pose proof (bytes_for_bit (out_idx + S (length sel)) out_idx).
      unfold Bitmap.num_bytes_for_bitmap in *. lia.
    - exists new. split_and!; [done..|]. intros j. case_decide as Hj; [|done]. subst. by rewrite Hz by (simpl; lia). }
  destruct (IH (S out_idx) new1 Hold ltac:(lia)) as (new' & -> & Hlen & Hlow & Hhigh).
  - cbn [length] in Hnew. rewrite Hlen1. by replace (S out_idx + length sel + 7)%nat with (out_idx + S (length sel) + 7)%nat by lia.
  - intros j Hj. rewrite Hbit1, decide_False by lia. apply Hz. simpl. lia.
  - exists new'. split_and!; [done|lia|..].
    + intros j Hj. rewrite Hlow, Hbit1, decide_False by lia. done.
    + intros [|k] i' Hk; simplify_eq/=.
      * by rewrite Nat.add_0_r, Hlow, Hbit1, decide_True by lia.
      * rewrite <-Nat.add_succ_comm. by apply Hhigh.
Qed.

Lemma fmap_lookup_total_replicate (len : nat) (b : bool) sel :
  Forall (fun i => i < len)%nat sel -> (fun i => replicate len b !!! i) <$> sel = replicate (length sel) b.
Proof.
  induction 1 as [|i sel Hi _ IH]; [done|]. by rewrite fmap_cons, IH, lookup_total_replicate_2.
Qed.

Lemma validity_select_spec v sel :
  validity_wf v -> Forall (fun i => i < Validity.len v)%nat sel ->
  exists v', Validity.select v sel = Ok v' /\ validity_wf v'
    /\ valid_list v' = (fun i => valid_list v !!! i) <$> sel.
Proof.
  destruct v as [len|len|len data]; simpl; intros Hwf Hsel.
  - eexists. split_and!; [done..|]. symmetry. by apply fmap_lookup_total_replicate.
  - eexists. split_and!; [done..|]. symmetry. by apply fmap_lookup_total_replicate.
  - destruct (select_loop_spec len data (length sel) 0 sel (replicate (Bitmap.num_bytes_for_bitmap (length sel)) 0))
      as (new & -> & Hlen & _ & Hbit).
    + eapply Forall_impl; [done|]. intros i Hi. cbn beta in Hi |- *. pose proof (bytes_for_bit len i Hi). simpl in Hi. lia.
    + done.
    + rewrite length_replicate. unfold Bitmap.num_bytes_for_bitmap. simpl. lia.
    + intros j [_ Hj]. simpl in Hj.
      pose proof (lookup_bits (replicate (Bitmap.num_bytes_for_bitmap (length sel)) 0) _ _ Hj) as Hl.
      rewrite bits_replicate_zero, lookup_replicate_2 in Hl by lia. by simplify_eq.
    + eexists. split_and!; [done|by simpl; rewrite Hlen, length_replicate|].
      simpl. apply list_eq. intros k. rewrite list_lookup_fmap.
      destruct (sel !! k) as [i|] eqn:Hk; simpl.
      * rewrite lookup_bits by (by eapply lookup_lt_Some). f_equal.
        change k with (0 + k)%nat at 1. rewrite (Hbit k i Hk). symmetry. apply list_lookup_total_correct, lookup_bits.
        by eapply Forall_lookup_1 in Hsel.
      * apply lookup_ge_None_2. rewrite length_bits. by apply lookup_ge_None.
Qed.

Lemma all_valid_spec v :
  validity_wf v -> v <> Validity.AllInvalid 0 ->
  Validity.all_valid v = Ok (bool_decide (Forall (fun b => b = true) (valid_list v))).
Proof.
  destruct v as [len|len|len data]; simpl; intros Hwf Hne.
  - rewrite bool_decide_true; [done|]. by apply Forall_replicate.
  - rewrite bool_decide_false; [done|]. destruct len as [|len]; [done|]. by inversion 1.
  - unfold Bitmap.all_true. rewrite count_trues_bits, trues_bits by done.
    unfold mbind, res_bind. f_equal. rewrite <-(length_bits data len) at 2.
    apply eq_bool_prop_intro. rewrite Is_true_true, Nat.eqb_eq, filter_full.
    by rewrite bool_decide_spec.
Qed.

Lemma all_valid_total v : validity_wf v -> exists b, Validity.all_valid v = Ok b.
Proof.
  intros Hwf. destruct (decide (v = Validity.AllInvalid 0)) as [->|Hne]; [by eexists|].
  eexists. by apply all_valid_spec.
Qed.

(** ** Masks as an abstract data type

    The promise of [Validity] to the rest of the engine: whatever sequence of
    updates is applied to it, it behaves as a plain list of booleans. *)

Inductive mask_op : Type :=
| SetValid (idx : nat)
| SetInvalid (idx : nat)
| Select (selection : list nat).

(** The operations of the implementation, in sequence. *)
Definition run_op (v : Validity.t) (o : mask_op) : res Validity.t :=
  match o with
  | SetValid idx => Validity.set_valid v idx
  | SetInvalid idx => Validity.set_invalid v idx
  | Select selection => Validity.select v selection
  end.

Fixpoint run_ops (v : Validity.t) (os : list mask_op) : res Validity.t :=
  match os with
  | [] => Ok v
  | o :: os' => v' ← run_op v o; run_ops v' os'
  end.

(** The same operations on a list of booleans; [None] when an index is out of
    range. *)
Definition abs_op (l : list bool) (o : mask_op) : option (list bool) :=
  match o with
  | SetValid idx => if decide (idx < length l)%nat then Some (<[idx := true]> l) else None
  | SetInvalid idx => if decide (idx < length l)%nat then Some (<[idx := false]> l) else None
  | Select selection => mapM (fun i => l !! i) selection
  end.

Fixpoint abs_ops (l : list bool) (os : list mask_op) : option (list bool) :=
  match os with
  | [] => Some l
  | o :: os' => l' ← abs_op l o; abs_ops l' os'
  end.

Lemma mapM_lookup_inv (l : list bool) sel r :
  mapM (fun i => l !! i) sel = Some r ->
  Forall (fun i => i < length l)%nat sel /\ r = (fun i => l !!! i) <$> sel.
Proof.
  rewrite mapM_Some. induction 1 as [|i b sel r Hi _ [IH1 IH2]]; [done|].
  split; [constructor; [by eapply lookup_lt_Some|done]|].
  rewrite fmap_cons, (list_lookup_total_correct _ _ _ Hi). by subst.
Qed.

Lemma run_op_refines v o l :
  validity_wf v -> abs_op (valid_list v) o = Some l ->
  exists v', run_op v o = Ok v' /\ validity_wf v' /\ valid_list v' = l.
Proof.
  intros Hwf Ho. destruct o as [idx|idx|sel]; simpl in *.
  - rewrite length_valid_list in Ho. case_decide; simplify_eq. by apply set_valid_spec.
  - rewrite length_valid_list in Ho. case_decide; simplify_eq. by apply set_invalid_spec.
  - apply mapM_lookup_inv in Ho as [Hsel ->]. rewrite length_valid_list in Hsel.
    by apply validity_select_spec.
Qed.

(** C35. Masks refine lists of booleans: any sequence of [set_valid],
    [set_invalid] and [select] calls that is in range for the list of booleans
    runs without a panic on the bit-packed mask, and every later [is_valid] and
    the mask's length report exactly the list's content. *)
Theorem validity_refines_list v os l :
  validity_wf v -> abs_ops (valid_list v) os = Some l ->
  exists v', run_ops v os = Ok v' /\ Validity.len v' = length l
    /\ forall i b, l !! i = Some b -> Validity.is_valid v' i = Ok b.
Proof.
  revert v. induction os as [|o os IH]; intros v Hwf Hos.
  - simpl in Hos. simplify_eq. exists v. split; [done|]. rewrite length_valid_list. split; [done|].
    intros i b Hi. assert (i < Validity.len v)%nat as Hlt by (rewrite <-length_valid_list; by eapply lookup_lt_Some).
    destruct (is_valid_spec v i Hwf Hlt) as (b' & -> & Hb'). by simplify_eq.
  - simpl in Hos. destruct (abs_op (valid_list v) o) as [l1|] eqn:Ho; [|done].
    destruct (run_op_refines v o l1 Hwf Ho) as (v1 & Hv1 & Hwf1 & <-).
    simpl. rewrite Hv1. by apply IH.
Qed.

Definition mask_example : list mask_op := [SetInvalid 3; Select [3; 9; 0; 3]; SetValid 0; SetInvalid 2]%nat.

(** The same at a concrete sequence over a mask of ten entries. *)
Lemma validity_refines_list_witness :
  exists v', run_ops (Validity.AllValid 10) mask_example = Ok v' /\ Validity.len v' = 4%nat
    /\ forall i b, [true; true; false; false] !! i = Some b -> Validity.is_valid v' i = Ok b.
Proof.
  apply (validity_refines_list (Validity.AllValid 10) mask_example [true; true; false; false]); [exact I|reflexivity].
Defined.

(** Counting: [count_trues] over a bitmap with enough bytes for [len]
    entries is the number of set entries among the first [len], whatever the
    unused high bits of the last byte hold; the subtraction in the remainder
    branch never underflows. *)
Theorem count_trues_correct data len :
  (Bitmap.num_bytes_for_bitmap len <= length data)%nat ->
  Bitmap.count_trues data len = Ok (length (filter (fun b => b = true) (bits data len)))
  /\ ((len mod 8 <> 0)%nat -> forall b, last (take (Bitmap.num_bytes_for_bitmap len) data) = Some b ->
      (Bitmap.count_ones b <= foldl (fun acc b => acc + Bitmap.count_ones b)%nat 0%nat
         (take (Bitmap.num_bytes_for_bitmap len) data))%nat).
Proof.
  intros Hlen. split; [by rewrite count_trues_bits, trues_bits|].
  intros Hrem b Hb. destruct (num_bytes_cases len) as [_ Hnb].
  destruct (Nat.eqb_spec (len mod 8) 0) as [|_]; [done|]. rewrite Hnb in *.
  rewrite take_S_total, last_snoc in Hb by lia. simplify_eq.
  rewrite take_S_total, foldl_app by lia. simpl. lia.
Qed.

(** A bitmap of eleven entries whose second byte has stray high bits. *)
Lemma count_trues_correct_witness :
  Bitmap.count_trues [5; 255] 11 = Ok 5%nat.
Proof.
  destruct (count_trues_correct [5; 255] 11) as [H _]; [apply Nat.leb_le; reflexivity|].
  rewrite H. reflexivity.
Defined.

(** [all_valid] answers whether every entry of the mask is valid, for
    every mask except the empty all-invalid one (on which it answers [false]). *)
Theorem all_valid_correct v :
  validity_wf v ->
  Validity.all_valid v =
    Ok (bool_decide (v <> Validity.AllInvalid 0 /\ Forall (fun b => b = true) (valid_list v))).
Proof.
  intros Hwf. destruct (decide (v = Validity.AllInvalid 0)) as [->|Hne].
  - by rewrite bool_decide_false by naive_solver.
  - rewrite all_valid_spec by done. f_equal. apply bool_decide_ext. naive_solver.
Qed.

(** A mask made all valid again after one entry was cleared. *)
Lemma all_valid_correct_witness :
  Validity.all_valid (Validity.Mask 9 [255; 1]) = Ok true.
Proof.
  rewrite (all_valid_correct (Validity.Mask 9 [255; 1])); [reflexivity|].
  simpl. apply Nat.leb_le. reflexivity.
Defined.

(** ** Selections *)

Lemma next_get idx s :
  Selection.next idx s =
    match Selection.get s idx with Some v => (Ok (Some v), S idx) | None => (Ok None, idx) end.
Proof.
  unfold Selection.next. destruct s as [len loc|start len|sel]; simpl.
  1,2: by destruct (Nat.leb_spec len idx).
  destruct (Nat.leb_spec (length sel) idx) as [Hge|Hlt].
  - by rewrite lookup_ge_None_2.
  - by destruct (lookup_lt_is_Some_2 sel idx Hlt) as [v ->].
Qed.

Lemma get_Some_lt s idx : is_Some (Selection.get s idx) <-> (idx < Selection.len s)%nat.
Proof.
  destruct s as [len loc|start len|sel]; simpl.
  1,2: destruct (Nat.leb_spec len idx); split; (intros [? ?] || intros ?); try done; lia || by eexists.
  apply lookup_lt_is_Some.
Qed.

Lemma drain_get fuel idx s :
  (Selection.len s < idx + fuel)%nat ->
  exists l, Selection.drain fuel idx s = Ok l /\ length l = (Selection.len s - idx)%nat
    /\ forall k, (idx + k < Selection.len s)%nat -> l !! k = Selection.get s (idx + k).
Proof.
  revert idx. induction fuel as [|fuel IH]; intros idx Hf; simpl.
  { exists []. split_and!; [done|simpl; lia|lia]. }
  rewrite next_get. destruct (Selection.get s idx) as [v|] eqn:Hg.
  - assert (idx < Selection.len s)%nat as Hlt by (apply get_Some_lt; by eexists).
    destruct (IH (S idx)) as (l & -> & Hlen & Hl); [lia|]. exists (v :: l).
    split_and!; [done|simpl; lia|]. intros [|k] Hk; simpl.
    + by rewrite Nat.add_0_r, Hg.
    + rewrite Hl by lia. f_equal. lia.
  - assert (Selection.len s <= idx)%nat as Hge.
    { destruct (decide (idx < Selection.len s)%nat) as [Hlt|]; [|lia].
      apply get_Some_lt in Hlt as [? ?]. congruence. }
    exists []. split_and!; [done|simpl; lia|lia].
Qed.

Lemma to_list_unique s l : Selection.to_list s = Ok l -> length l = Selection.len s /\ forall k, l !! k = Selection.get s k.
Proof.
  intros Hl. destruct (drain_get (S (Selection.len s)) 0 s) as (l' & Hd & Hlen & Hget); [lia|].
  unfold Selection.to_list in Hl. rewrite Hd in Hl. injection Hl as <-. split; [lia|]. intros k.
  destruct (decide (k < Selection.len s)%nat) as [Hk|Hk]; [by rewrite Hget|].
  rewrite lookup_ge_None_2 by lia. symmetry. apply eq_None_not_Some. by rewrite get_Some_lt.
Qed.

Lemma to_list_linear start n : Selection.to_list (Selection.Linear start n) = Ok (seq start n).
Proof.
  destruct (drain_get (S n) 0 (Selection.Linear start n)) as (l' & Hd & Hlen & Hget); [simpl; lia|].
  unfold Selection.to_list. simpl Selection.len. rewrite Hd. f_equal.
  apply list_eq. intros k. destruct (decide (k < n)%nat) as [Hk|Hk].
  - rewrite Hget, lookup_seq_lt by done. cbn [Selection.get].
    destruct (Nat.leb_spec n (0 + k)); [lia|]. f_equal. lia.
  - simpl in Hlen. rewrite !lookup_ge_None_2; [done|rewrite length_seq; lia|lia].
Qed.

(** Iterating a selection and indexing it agree: [collect] over the
    iterator never panics, yields exactly [len] locations, and the [k]-th one
    is [get(k)]; [get] is [None] exactly out of range. *)
Theorem selection_iter_get s :
  exists l, Selection.to_list s = Ok l /\ length l = Selection.len s
    /\ forall k, l !! k = Selection.get s k.
Proof.
  destruct (drain_get (S (Selection.len s)) 0 s) as (l & Hd & Hlen & Hl); [lia|].
  exists l. split; [done|]. split; [lia|]. intros k.
  destruct (decide (k < Selection.len s)%nat) as [Hk|Hk]; [by apply Hl|].
  rewrite lookup_ge_None_2 by lia. destruct (Selection.get s k) as [v|] eqn:Hg; [|done].
  exfalso. apply Hk, get_Some_lt. by eexists.
Qed.
