(* ===== verification/ArrayData.v ===== *)
(** * Arrays: buffers, selection, cloning and copying

    Models [arrays/array/mod.rs], the buffer types of
    [arrays/array/array_buffer.rs], [arrays/array/execution_format.rs] and
    [arrays/compute/copy.rs].  The element type [V] stands for the storage type
    of a physical type (primitive, string, list ...) and [DT] for the data
    type; a leaf buffer is the list of its elements.  A buffer carries whether
    it is uniquely owned or shared, since writes to a shared buffer are
    refused. *)
From S2P Require Import Prelude Arrays.

Section ArrayData.
Context {V DT : Type} `{EqDecision DT}.

(** ** Buffers ([array_buffer.rs]) *)

(** [OwnedOrSharedPtr] *)
Inductive ownership : Type := Unique | Shared.

(** [AnyArrayBuffer]: the scalar, string, list and struct buffers are leaves. *)
Inductive AnyArrayBuffer : Type :=
| Leaf (own : ownership) (vals : list V)
| ConstantBuffer (own : ownership) (row_idx len : nat) (buffer : AnyArrayBuffer)
| DictionaryBuffer (own : ownership) (selection : list nat) (buffer : AnyArrayBuffer).

(** [AnyArrayBuffer::logical_len] *)
Definition logical_len (b : AnyArrayBuffer) : nat :=
  match b with
  | Leaf _ vals => length vals
  | ConstantBuffer _ _ len _ => len
  | DictionaryBuffer _ selection _ => length selection
  end.

(** [AnyArrayBuffer::make_shared]: the top-level buffer only. *)
Definition make_shared (b : AnyArrayBuffer) : AnyArrayBuffer :=
  match b with
  | Leaf _ vals => Leaf Shared vals
  | ConstantBuffer _ row_idx len child => ConstantBuffer Shared row_idx len child
  | DictionaryBuffer _ selection child => DictionaryBuffer Shared selection child
  end.

(** [AnyArrayBuffer::make_shared_and_clone]: (the clone, the receiver after). *)
Definition make_shared_and_clone (b : AnyArrayBuffer) : AnyArrayBuffer * AnyArrayBuffer :=
  (make_shared b, make_shared b).

(** [ArrayBufferDowncast::downcast_ref] at the element's buffer type. *)
Definition downcast_ref (b : AnyArrayBuffer) : res (list V) :=
  match b with
  | Leaf _ vals => Ok vals
  | _ => Err "failed to downcast array buffer"
  end.

(** [ArrayBufferDowncast::downcast_mut] at the element's buffer type. *)
Definition downcast_mut (b : AnyArrayBuffer) : res (list V) :=
  match b with
  | Leaf Unique vals => Ok vals
  | ConstantBuffer Unique _ _ _ | DictionaryBuffer Unique _ _ => Err "failed to downcast array buffer (mut)"
  | _ => Err "Buffer is shared, cannot get mutable reference"
  end.

(** [ExecutionFormat] with [SelectionFormat] *)
Inductive ExecutionFormat : Type :=
| Flat (buffer : list V)
| SelectionF (selection : Selection.t) (buffer : list V).

(** [ArrayBufferDowncast::downcast_execution_format] *)
Definition downcast_execution_format (b : AnyArrayBuffer) : res ExecutionFormat :=
  match b with
  | ConstantBuffer _ row_idx len buffer =>
      child ← downcast_ref buffer;
      Ok (SelectionF (Selection.Constant len row_idx) child)
  | DictionaryBuffer _ selection buffer =>
      child ← downcast_ref buffer;
      Ok (SelectionF (Selection.Slice selection) child)
  | Leaf _ vals => Ok (Flat vals)
  end.

(** [ExecutionFormat::into_selection_format], with [SelectionFormat::flat]. *)
Definition into_selection_format (f : ExecutionFormat) : Selection.t * list V :=
  match f with
  | Flat buffer => (Selection.Linear 0 (length buffer), buffer)
  | SelectionF selection buffer => (selection, buffer)
  end.

(** [Option::unwrap] *)
Definition unwrap {A} (o : option A) : res A :=
  match o with
  | Some a => Ok a
  | None => Panic "called `Option::unwrap()` on a `None` value"
  end.

(** ** Arrays ([array/mod.rs]) *)

Record Array : Type := mkArray {
  datatype : DT;
  validity : Validity.t;
  data : AnyArrayBuffer;
}.

(** [make_array_buffer_shared_and_clone]: (the clone, the receiver after). *)
Definition make_array_buffer_shared_and_clone (b : AnyArrayBuffer) : res (AnyArrayBuffer * AnyArrayBuffer) :=
  match b with
  | ConstantBuffer Unique row_idx len child =>
      let '(cloned, child') := make_shared_and_clone child in
      Ok (ConstantBuffer Unique row_idx len cloned, ConstantBuffer Unique row_idx len child')
  | DictionaryBuffer Unique selection child =>
      let '(cloned, child') := make_shared_and_clone child in
      Ok (DictionaryBuffer Unique selection cloned, DictionaryBuffer Unique selection child')
  | ConstantBuffer Shared _ _ _ | DictionaryBuffer Shared _ _ =>
      Err "Buffer is shared, cannot get mutable reference"
  | Leaf _ _ => Ok (make_shared_and_clone b)
  end.

(** [Array::swap]: both arrays after. *)
Definition swap (self other : Array) : res (Array * Array) :=
  if decide (datatype self = datatype other) then Ok (other, self)
  else Err "Cannot swap arrays with different data types".

(** [Array::clone] and [Array::new_from_other]: (the clone, the receiver after). *)
Definition clone (self : Array) : res (Array * Array) :=
  p ← make_array_buffer_shared_and_clone (data self);
  Ok (mkArray (datatype self) (validity self) p.1, mkArray (datatype self) (validity self) p.2).

(** [Array::clone_from_other]: (self, other) after. *)
Definition clone_from_other (self other : Array) : res (Array * Array) :=
  if decide (datatype self = datatype other) then
    p ← make_array_buffer_shared_and_clone (data other);
    Ok (mkArray (datatype self) (validity other) p.1,
        mkArray (datatype other) (validity other) p.2)
  else Err "Cannot clone arrays with different data types".

(** The [new_validity] of a constant array. *)
Definition uniform_validity (valid : bool) (len : nat) : Validity.t :=
  if valid then Validity.AllValid len else Validity.AllInvalid len.

(** [Array::clone_constant_from]: (self, other) after. *)
Definition clone_constant_from (self other : Array) (row len : nat) : res (Array * Array) :=
  if decide (datatype self = datatype other) then
    valid ← Validity.is_valid (validity other) row;
    let new_validity := uniform_validity valid len in
    p ← match data other with
        | ConstantBuffer Unique row_idx olen child =>
            let '(cloned, child') := make_shared_and_clone child in
            Ok (ConstantBuffer Unique row_idx len cloned, ConstantBuffer Unique row_idx olen child')
        | DictionaryBuffer Unique selection child =>
            row_idx ← index selection row;
            let '(cloned, child') := make_shared_and_clone child in
            Ok (ConstantBuffer Unique row_idx len cloned, DictionaryBuffer Unique selection child')
        | ConstantBuffer Shared _ _ _ | DictionaryBuffer Shared _ _ =>
            Err "Buffer is shared, cannot get mutable reference"
        | Leaf _ _ =>
            let '(cloned, data') := make_shared_and_clone (data other) in
            Ok (ConstantBuffer Unique row len cloned, data')
        end;
    Ok (mkArray (datatype self) new_validity p.1, mkArray (datatype other) (validity other) p.2)
  else Err "Cannot clone arrays with different data types".

(** [Array::put_validity] *)
Definition put_validity (self : Array) (v : Validity.t) : res Array :=
  if (Validity.len v =? logical_len (data self))%nat then Ok (mkArray (datatype self) v (data self))
  else Err "Invalid validity length".

(** [Array::select] *)
Definition select (self : Array) (selection : list nat) : res Array :=
  match data self with
  | ConstantBuffer Unique row_idx _ child =>
      let new_len := length selection in
      valid ← Validity.is_valid (validity self) 0;
      Ok (mkArray (datatype self) (uniform_validity valid new_len) (ConstantBuffer Unique row_idx new_len child))
  | DictionaryBuffer Unique src child =>
      new_sel ← collect (index src) selection;
      v ← Validity.select (validity self) selection;
      Ok (mkArray (datatype self) v (DictionaryBuffer Unique new_sel child))
  | ConstantBuffer Shared _ _ _ | DictionaryBuffer Shared _ _ =>
      Err "Buffer is shared, cannot get mutable reference"
  | Leaf _ _ =>
      v ← Validity.select (validity self) selection;
      Ok (mkArray (datatype self) v (DictionaryBuffer Unique selection (data self)))
  end.

(** [Array::select_from_other]: (self, other) after. *)
Definition select_from_other (self other : Array) (selection : list nat) : res (Array * Array) :=
  p ← clone_from_other self other;
  self' ← select p.1 selection;
  Ok (self', p.2).

(** [get_value_inner] of [get_physical_value]. *)
Definition get_value_inner (b : AnyArrayBuffer) (row_idx : nat) : res V :=
  f ← downcast_execution_format b;
  match f with
  | Flat buf => unwrap (buf !! row_idx)
  | SelectionF sel buf => sel_idx ← unwrap (Selection.get sel row_idx); unwrap (buf !! sel_idx)
  end.

(** [Array::get_value]; [None] is [ScalarValue::Null]. *)
Definition get_value (self : Array) (idx : nat) : res (option V) :=
  if (logical_len (data self) <=? idx)%nat then Err "Index out of bounds"
  else
    valid ← Validity.is_valid (validity self) idx;
    if negb valid then Ok None
    else v ← get_value_inner (data self) idx; Ok (Some v).

(** [AddressableMut::put] *)
Definition put_val (vals : list V) (idx : nat) (v : V) : res (list V) :=
  if (idx <? length vals)%nat then Ok (<[idx := v]> vals) else Panic "index out of bounds".

(** [downcast_execution_format_mut] then the [Flat] branch of [set_value_inner]. *)
Definition set_value_inner (b : AnyArrayBuffer) (row_idx : nat) (v : V) : res AnyArrayBuffer :=
  match b with
  | Leaf _ _ =>
      vals ← downcast_mut b;
      vals' ← put_val vals row_idx v;
      Ok (Leaf Unique vals')
  | ConstantBuffer Unique _ _ child | DictionaryBuffer Unique _ child =>
      _ ← downcast_mut child;
      Err "Cannot set value for array buffer with selection"
  | _ => Err "Buffer is shared, cannot get mutable reference"
  end.

(** [Array::set_value] with [set_physical_value]: the validity of the row is
    changed before the buffer is written, so it stays changed when the write is
    refused. *)
Definition set_value (idx : nat) (val : option V) : M Array unit :=
  self ← get;
  if (logical_len (data self) <=? idx)%nat then fail "Index out of bounds"
  else
    match val with
    | None =>
        v ← lift (Validity.set_invalid (validity self) idx);
        put (mkArray (datatype self) v (data self))
    | Some x =>
        v ← lift (Validity.set_valid (validity self) idx);
        _ ← put (mkArray (datatype self) v (data self));
        d ← lift (set_value_inner (data self) idx x);
        put (mkArray (datatype self) v d)
    end.

(** ** Copying rows ([compute/copy.rs]) *)

(** Reading one source row in either execution format. *)
Definition read_format (f : ExecutionFormat) (src_idx : nat) : res V :=
  match f with
  | Flat src => unwrap (src !! src_idx)
  | SelectionF sel src => sel_idx ← unwrap (Selection.get sel src_idx); unwrap (src !! sel_idx)
  end.

(** The loops of [copy_rows_scalar] over the mapping, one for an all-valid
    source and one that checks each row. *)
Fixpoint copy_loop (f : ExecutionFormat) (all_valid : bool) (src_validity : Validity.t)
    (mapping : list (nat * nat)) (dest_buf : list V) (dest_validity : Validity.t) : res (list V * Validity.t) :=
  match mapping with
  | [] => Ok (dest_buf, dest_validity)
  | (src_idx, dest_idx) :: rest =>
      valid ← (if all_valid then Ok true else Validity.is_valid src_validity src_idx);
      if valid : bool then
        v ← read_format f src_idx;
        dest_buf' ← put_val dest_buf dest_idx v;
        copy_loop f all_valid src_validity rest dest_buf' dest_validity
      else
        dest_validity' ← Validity.set_invalid dest_validity dest_idx;
        copy_loop f all_valid src_validity rest dest_buf dest_validity'
  end.

(** [copy_rows_scalar] through [copy_rows_array]: the destination after. *)
Definition copy_rows (src : Array) (mapping : list (nat * nat)) (dest : Array) : res Array :=
  dest_buf ← downcast_mut (data dest);
  f ← downcast_execution_format (data src);
  all_valid ← Validity.all_valid (validity src);
  p ← copy_loop f all_valid (validity src) mapping dest_buf (validity dest);
  Ok (mkArray (datatype dest) p.2 (Leaf Unique p.1)).

End ArrayData.

Arguments AnyArrayBuffer : clear implicits.
Arguments ExecutionFormat : clear implicits.
Arguments Array : clear implicits.

(** ** Logical content and well-formedness *)

Section Content.
Context {V DT : Type} `{EqDecision DT}.
Implicit Types (b : AnyArrayBuffer V) (a : Array V DT).

(** The element a buffer holds at a logical row. *)
Definition value_at b (i : nat) : option V :=
  match downcast_execution_format b ≫= (fun f => read_format f i) with
  | Ok v => Some v
  | _ => None
  end.

(** The row of an array: [None] for NULL. *)
Definition row a (i : nat) : option V :=
  match valid_list (validity a) !! i with
  | Some true => value_at (data a) i
  | _ => None
  end.

Definition rows a : list (option V) := row a <$> seq 0 (logical_len (data a)).

(** Constant and dictionary buffers are uniquely owned, sit directly on a leaf
    and point into it. *)
Definition buffer_wf b : Prop :=
  match b with
  | Leaf _ _ => True
  | ConstantBuffer own row_idx _ child =>
      own = Unique /\ exists o vals, child = Leaf o vals /\ row_idx < length vals
  | DictionaryBuffer own selection child =>
      own = Unique /\ exists o vals, child = Leaf o vals /\ Forall (fun i => i < length vals) selection
  end.

(** A constant array's mask is one of the two uniform masks. *)
Definition constant_uniform b (v : Validity.t) : Prop :=
  match b with
  | ConstantBuffer _ _ len _ => exists valid, v = uniform_validity valid len
  | _ => True
  end.

Record array_wf a : Prop := {
  wf_buffer : buffer_wf (data a);
  wf_validity : validity_wf (validity a);
  wf_len : Validity.len (validity a) = logical_len (data a);
  wf_uniform : constant_uniform (data a) (validity a);
}.

Lemma length_rows a : length (rows a) = logical_len (data a).
Proof. unfold rows. by rewrite length_fmap, length_seq. Qed.

Lemma lookup_rows a i : i < logical_len (data a) -> rows a !! i = Some (row a i).
Proof. intros Hi. unfold rows. by rewrite list_lookup_fmap, lookup_seq_lt. Qed.

Lemma lookup_total_rows a i : i < logical_len (data a) -> rows a !!! i = row a i.
Proof. intros Hi. by apply list_lookup_total_correct, lookup_rows. Qed.

(** Rows that are picked from another array. *)
Lemma rows_picked a a' (sel : list nat) :
  logical_len (data a') = length sel ->
  Forall (fun i => i < logical_len (data a)) sel ->
  (forall k i, sel !! k = Some i -> row a' k = row a i) ->
  rows a' = (fun i => rows a !!! i) <$> sel.
Proof.
  intros Hlen Hsel Hrow. apply list_eq. intros k. rewrite list_lookup_fmap.
  destruct (sel !! k) as [i|] eqn:Hk; simpl.
  - rewrite lookup_rows by (rewrite Hlen; by eapply lookup_lt_Some).
    rewrite (Hrow k i Hk), lookup_total_rows; [done|]. by eapply Forall_lookup_1 in Hsel.
  - apply lookup_ge_None_2. rewrite length_rows, Hlen. by apply lookup_ge_None.
Qed.

Lemma selection_in_range (sel : list nat) n k i :
  Forall (fun i => i < n) sel -> sel !! k = Some i -> i < n.
Proof. intros Hsel Hk. by eapply Forall_lookup_1 in Hsel. Qed.

(** Reading a row that exists. *)
Lemma read_wf b i :
  buffer_wf b -> i < logical_len b ->
  exists f v, downcast_execution_format b = Ok f /\ read_format f i = Ok v /\ value_at b i = Some v.
Proof.
  assert (forall (vals : list V) j, j < length vals -> exists v, vals !! j = Some v) as Hlk.
  { intros vals j Hj. by apply lookup_lt_is_Some_2. }
  unfold value_at. destruct b as [own vals|own r len child|own sel child]; simpl.
  - intros _ Hi. destruct (Hlk vals i Hi) as [v Hv]. exists (Flat vals), v. simpl. by rewrite Hv.
  - intros (-> & o & vals & -> & Hr) Hi. destruct (Hlk vals r Hr) as [v Hv]. simpl.
    destruct (Nat.leb_spec len i); [lia|]. do 2 eexists. split; [done|]. simpl.
    destruct (Nat.leb_spec len i); [lia|]. simpl. by rewrite Hv.
  - intros (-> & o & vals & -> & Hsel) Hi. simpl. destruct (lookup_lt_is_Some_2 sel i Hi) as [j Hj].
    destruct (Hlk vals j) as [v Hv]; [by eapply selection_in_range|].
    do 2 eexists. split; [done|]. simpl. rewrite Hj. simpl. by rewrite Hv.
Qed.

Lemma valid_uniform valid len i : i < len -> valid_list (uniform_validity valid len) !! i = Some valid.
Proof. intros Hi. destruct valid; by apply lookup_replicate. Qed.

Lemma wf_uniform_validity valid len :
  validity_wf (uniform_validity valid len) /\ Validity.len (uniform_validity valid len) = len.
Proof. by destruct valid. Qed.

Lemma row_valid a i (b : bool) :
  array_wf a -> i < logical_len (data a) -> Validity.is_valid (validity a) i = Ok b ->
  row a i = if b then value_at (data a) i else None.
Proof.
  intros [_ Hv Hl _] Hi Hb. rewrite <-Hl in Hi. destruct (is_valid_spec _ _ Hv Hi) as (b' & Hb' & Hl').
  unfold row. rewrite Hl'. rewrite Hb in Hb'. injection Hb' as <-. by destruct b.
Qed.

Lemma get_value_row a i :
  array_wf a -> i < logical_len (data a) -> get_value a i = Ok (row a i).
Proof.
  intros Hwf Hi. unfold get_value. destruct (Nat.leb_spec (logical_len (data a)) i); [lia|].
  destruct (is_valid_spec (validity a) i) as (b & Hb & _); [apply Hwf|by rewrite (wf_len _ Hwf)|].
  rewrite (row_valid a i b Hwf Hi Hb), Hb. unfold mbind, res_bind. destruct b; [|done].
  destruct (read_wf (data a) i) as (f & v & Hf & Hr & ->); [apply Hwf|done|].
  change (get_value_inner (data a) i) with (downcast_execution_format (data a) ≫= (fun f => read_format f i)).
  by rewrite Hf; simpl; rewrite Hr.
Qed.

(** Replacing a buffer by one with the same elements. *)
Lemma row_same_values a a' i :
  validity a' = validity a -> value_at (data a') i = value_at (data a) i -> row a' i = row a i.
Proof. unfold row. by intros -> ->. Qed.

Lemma rows_same a a' :
  validity a' = validity a -> logical_len (data a') = logical_len (data a) ->
  (forall i, value_at (data a') i = value_at (data a) i) -> rows a' = rows a.
Proof.
  intros Hv Hl Hval. unfold rows. rewrite Hl. apply list_fmap_ext. intros _ i _. by apply row_same_values.
Qed.

(** *** Selecting *)

Lemma select_dictionary_value own own' src sel new_sel child k i :
  collect (index src) sel = Ok new_sel -> sel !! k = Some i ->
  value_at (DictionaryBuffer own' new_sel child) k = value_at (DictionaryBuffer own src child) i.
Proof.
  intros Hc Hk. apply collect_Forall2 in Hc.
  destruct (Forall2_lookup_l _ _ _ _ _ Hc Hk) as (j & Hj & Hidx%index_Ok).
  unfold value_at. simpl. destruct (downcast_ref child); simpl; [|done..]. by rewrite Hj, Hidx.
Qed.

Lemma row_selected a a' sel k i :
  array_wf a -> Forall (fun i => i < logical_len (data a)) sel ->
  sel !! k = Some i ->
  valid_list (validity a') = (fun i => valid_list (validity a) !!! i) <$> sel ->
  value_at (data a') k = value_at (data a) i -> row a' k = row a i.
Proof.
  intros Hwf Hsel Hk Hv Hval. unfold row. rewrite Hv, list_lookup_fmap, Hk. simpl.
  rewrite (list_lookup_lookup_total_lt (valid_list (validity a)) i), Hval; [done|].
  rewrite length_valid_list, (wf_len _ Hwf). by eapply selection_in_range.
Qed.

Lemma collect_index src sel :
  Forall (fun i => i < length src) sel -> exists new_sel, collect (@index nat src) sel = Ok new_sel.
Proof.
  induction 1 as [|i sel Hi _ [new_sel IH]]; [by exists []|].
  destruct (index_lt src i Hi) as (j & Hj & _). exists (j :: new_sel). simpl. by rewrite Hj, IH.
Qed.

Lemma collect_index_range src sel new_sel n :
  Forall (fun i => i < n) src -> collect (@index nat src) sel = Ok new_sel -> Forall (fun i => i < n) new_sel.
Proof.
  intros Hsrc Hc%collect_Forall2. induction Hc as [|i j sel new_sel Hi _ IH]; constructor; [|done].
  apply index_Ok in Hi. exact (selection_in_range src n i j Hsrc Hi).
Qed.

Lemma select_rows a sel :
  array_wf a -> Forall (fun i => i < logical_len (data a)) sel ->
  exists a', select a sel = Ok a' /\ array_wf a' /\ datatype a' = datatype a
    /\ rows a' = (fun i => rows a !!! i) <$> sel.
Proof.
  intros Hwf Hsel. pose proof Hwf as [Hb Hv Hl Hu]. unfold select.
  destruct (validity_select_spec (validity a) sel Hv) as (v & Hsv & Hwv & Hvl); [by rewrite Hl|].
  assert (Validity.len v = length sel) as Hlv by (by rewrite <-length_valid_list, Hvl, length_fmap).
  destruct (data a) as [own vals|own r len child|own src child] eqn:Hd; simpl in Hb, Hsel.
  - rewrite Hsv. simpl. eexists. split; [done|]. split; [|split; [done|]].
    + split; simpl; [|done..]. split; [done|]. by exists own, vals.
    + eapply rows_picked; [done|by rewrite Hd|]. intros k i Hk.
      eapply row_selected; [done|by rewrite Hd|done..|]. rewrite Hd. unfold value_at. simpl. by rewrite Hk.
  - destruct Hb as (-> & o & vals & -> & Hr). destruct Hu as [valid Hu]. rewrite Hu.
    assert (Validity.is_valid (uniform_validity valid len) 0 = Ok valid) as -> by (by destruct valid).
    simpl. eexists. split; [done|]. split; [|split; [done|]].
    + split; simpl; [|by apply wf_uniform_validity..|by eexists]. split; [done|]. by exists o, vals.
    + eapply rows_picked; [done|by rewrite Hd|]. intros k i Hk. unfold row. simpl.
      assert (k < length sel) as Hkl by (by eapply lookup_lt_Some).
      assert (i < len) as Hil by (by eapply selection_in_range in Hsel).
      rewrite Hu, !valid_uniform, Hd by done. destruct valid; [|done]. unfold value_at. simpl.
      destruct (Nat.leb_spec (length sel) k), (Nat.leb_spec len i); lia || done.
  - destruct Hb as (-> & o & vals & -> & Hsrc). simpl in Hsel.
    destruct (collect_index src sel Hsel) as [new_sel Hc]. rewrite Hc, Hsv. simpl.
    assert (length new_sel = length sel) as Hln.
    { apply collect_Forall2, Forall2_length in Hc. done. }
    eexists. split; [done|]. split; [|split; [done|]].
    + split; simpl; [|done|by rewrite Hln|done]. split; [done|]. exists o, vals.
      split; [done|]. by eapply collect_index_range.
    + eapply rows_picked; [done|by rewrite Hd|]. intros k i Hk.
      eapply row_selected; [done|by rewrite Hd|done..|]. rewrite Hd. by eapply select_dictionary_value.
Qed.

(** *** Sharing and cloning *)

Lemma make_shared_value own own' r len sel (child : AnyArrayBuffer V) i :
  value_at (ConstantBuffer own r len (make_shared child)) i = value_at (ConstantBuffer own' r len child) i
  /\ value_at (DictionaryBuffer own sel (make_shared child)) i = value_at (DictionaryBuffer own' sel child) i.
Proof. unfold value_at. by destruct child. Qed.

Lemma shared_clone_spec b :
  buffer_wf b ->
  exists c b', make_array_buffer_shared_and_clone b = Ok (c, b')
    /\ buffer_wf c /\ buffer_wf b' /\ logical_len c = logical_len b /\ logical_len b' = logical_len b
    /\ (forall v, constant_uniform b v -> constant_uniform c v /\ constant_uniform b' v)
    /\ (forall i, value_at c i = value_at b i) /\ (forall i, value_at b' i = value_at b i).
Proof.
  destruct b as [own vals|own r len child|own sel child]; simpl.
  - intros _. do 2 eexists. split_and!; done.
  - intros (-> & o & vals & -> & Hr). do 2 eexists. split_and!; try done; simpl; eauto.
  - intros (-> & o & vals & -> & Hsel). do 2 eexists. split_and!; try done; simpl; eauto.
Qed.

Lemma clone_from_other_rows a o :
  array_wf o -> datatype a = datatype o ->
  exists a' o', clone_from_other a o = Ok (a', o') /\ array_wf a' /\ array_wf o'
    /\ datatype a' = datatype a /\ datatype o' = datatype o /\ rows a' = rows o /\ rows o' = rows o.
Proof.
  intros [Hb Hv Hl Hu] Hdt. unfold clone_from_other. rewrite decide_True by done.
  destruct (shared_clone_spec (data o) Hb) as (c & b' & -> & Hwc & Hwb & Hlc & Hlb & Huu & Hvc & Hvb).
  destruct (Huu _ Hu) as [Huc Hub]. simpl. do 2 eexists. split; [done|].
  split; [|split]; [by split; simpl; rewrite ?Hlc|by split; simpl; rewrite ?Hlb|].
  split_and!; [done|done| |]; by apply rows_same.
Qed.

Lemma clone_constant_value b r len (valid : bool) :
  buffer_wf b -> r < logical_len b ->
  exists c b', (match b with
        | ConstantBuffer Unique row_idx olen child =>
            let '(cloned, child') := make_shared_and_clone child in
            Ok (ConstantBuffer Unique row_idx len cloned, ConstantBuffer Unique row_idx olen child')
        | DictionaryBuffer Unique selection child =>
            row_idx ← index selection r;
            let '(cloned, child') := make_shared_and_clone child in
            Ok (ConstantBuffer Unique row_idx len cloned, DictionaryBuffer Unique selection child')
        | ConstantBuffer Shared _ _ _ | DictionaryBuffer Shared _ _ =>
            Err "Buffer is shared, cannot get mutable reference"
        | Leaf _ _ =>
            let '(cloned, data') := make_shared_and_clone b in
            Ok (ConstantBuffer Unique r len cloned, data')
        end) = Ok (c, b')
    /\ buffer_wf c /\ constant_uniform c (uniform_validity valid len) /\ logical_len c = len
    /\ (forall i, i < len -> value_at c i = value_at b r)
    /\ buffer_wf b' /\ logical_len b' = logical_len b
    /\ (forall v, constant_uniform b v -> constant_uniform b' v)
    /\ (forall i, value_at b' i = value_at b i).
Proof.
  destruct b as [own vals|own r0 len0 child|own sel child]; simpl.
  - intros _ Hr. do 2 eexists. split; [done|]. split_and!; try done; simpl; eauto.
    intros i Hi. unfold value_at. simpl. destruct (Nat.leb_spec len i); [lia|done].
  - intros (-> & o & vals & -> & Hr0) Hr. do 2 eexists. split; [done|]. split_and!; try done; simpl; eauto.
    intros i Hi. unfold value_at. simpl. by destruct (Nat.leb_spec len i), (Nat.leb_spec len0 r); [lia..|].
  - intros (-> & o & vals & -> & Hsel) Hr. destruct (index_lt sel r Hr) as (j & Hj & Hlk). rewrite Hj. simpl.
    do 2 eexists. split; [done|]. split_and!; try done; simpl; eauto.
    + split; [done|]. exists Shared, vals. split; [done|]. by eapply selection_in_range.
    + intros i Hi. unfold value_at. simpl. destruct (Nat.leb_spec len i); [lia|]. by rewrite Hlk.
Qed.

Lemma clone_constant_rows a o r len :
  array_wf o -> datatype a = datatype o -> r < logical_len (data o) ->
  exists a' o', clone_constant_from a o r len = Ok (a', o') /\ array_wf a' /\ array_wf o'
    /\ datatype a' = datatype a /\ datatype o' = datatype o
    /\ rows a' = replicate len (row o r) /\ rows o' = rows o.
Proof.
  intros Hwf Hdt Hr. pose proof Hwf as [Hb Hv Hl Hu]. unfold clone_constant_from. rewrite decide_True by done.
  destruct (is_valid_spec (validity o) r) as (valid & Hvalid & _); [done|by rewrite Hl|].
  pose proof (row_valid o r valid Hwf Hr Hvalid) as Hrow. rewrite Hvalid.
  unfold mbind, res_bind.
  destruct (clone_constant_value (data o) r len valid Hb Hr)
    as (c & b' & Heq & Hwc & Huc & Hlc & Hvc & Hwb & Hlb & Hub & Hvb).
  unfold mbind, res_bind in Heq. rewrite Heq. do 2 eexists. split; [done|].
  destruct (wf_uniform_validity valid len) as [Hwu Hlu].
  split; [by split; simpl; rewrite ?Hlc|]. split; [split; simpl; rewrite ?Hlb; auto|].
  split_and!; [done|done| |by apply rows_same].
  apply list_eq. intros i. destruct (decide (i < len)) as [Hi|Hi].
  - rewrite lookup_replicate_2, lookup_rows by (simpl; rewrite ?Hlc; done). f_equal. unfold row at 1. simpl.
    rewrite valid_uniform, Hvc, Hrow by done. by destruct valid.
  - rewrite !lookup_ge_None_2; [done| |]; rewrite ?length_replicate, ?length_rows; simpl; lia.
Qed.

(** *** Writing rows *)

Lemma rows_insert a a' t x :
  logical_len (data a') = logical_len (data a) -> t < logical_len (data a) ->
  row a' t = x -> (forall i, i <> t -> row a' i = row a i) ->
  rows a' = <[t := x]> (rows a).
Proof.
  intros Hl Ht <- Hne. apply list_eq. intros i. destruct (decide (i < logical_len (data a))) as [Hi|Hi].
  - rewrite lookup_rows by lia. destruct (decide (i = t)) as [->|Hit].
    + by rewrite list_lookup_insert_eq by (by rewrite length_rows).
    + by rewrite list_lookup_insert_ne, lookup_rows, Hne.
  - rewrite !lookup_ge_None_2; [done| |]; rewrite ?length_insert, length_rows; lia.
Qed.

Lemma rows_put dt vl own own' (vals : list V) t v :
  t < length vals -> valid_list vl !! t = Some true ->
  rows (mkArray dt vl (Leaf own' (<[t := v]> vals))) = <[t := Some v]> (rows (mkArray dt vl (Leaf own vals))).
Proof.
  intros Ht Hvl. apply rows_insert; simpl; [apply length_insert|done|..].
  - unfold row, value_at. simpl. rewrite Hvl. by rewrite list_lookup_insert_eq.
  - intros i Hi. unfold row, value_at. simpl. by rewrite list_lookup_insert_ne.
Qed.

Lemma rows_invalidate dt vl vl' b t :
  t < logical_len b -> t < Validity.len vl -> valid_list vl' = <[t := false]> (valid_list vl) ->
  rows (mkArray dt vl' b) = <[t := None]> (rows (mkArray dt vl b)).
Proof.
  intros Ht Hvt Hvl. apply rows_insert; simpl; [done|done|..].
  - unfold row. simpl. by rewrite Hvl, list_lookup_insert_eq by (by rewrite length_valid_list).
  - intros i Hi. unfold row. simpl. by rewrite Hvl, list_lookup_insert_ne.
Qed.

(** The rows a mapping of (source, destination) pairs writes. *)
Definition write_rows (src : list (option V)) (mapping : list (nat * nat)) (dest : list (option V)) :=
  foldl (fun d p => <[p.2 := src !!! p.1]> d) dest mapping.

Lemma write_rows_miss src mapping dest t :
  t ∉ mapping.*2 -> write_rows src mapping dest !! t = dest !! t.
Proof.
  revert dest. induction mapping as [|[s t'] rest IH]; intros dest Ht; [done|].
  rewrite fmap_cons, not_elem_of_cons in Ht. destruct Ht as [Hne Ht]. simpl.
  etransitivity; [by apply IH|]. by apply list_lookup_insert_ne.
Qed.

Lemma write_rows_hit src mapping dest s t :
  Forall (fun p : nat * nat => p.2 < length dest) mapping -> NoDup mapping.*2 -> (s, t) ∈ mapping ->
  write_rows src mapping dest !! t = Some (src !!! s).
Proof.
  revert dest. induction mapping as [|[s' t'] rest IH]; intros dest Hlt Hnd Hin; [by apply not_elem_of_nil in Hin|].
  apply Forall_cons in Hlt as [Ht' Hlt]. rewrite fmap_cons, NoDup_cons in Hnd. destruct Hnd as [Hni Hnd].
  apply elem_of_cons in Hin as [Heq|Hin]; simpl.
  - injection Heq as <- <-. etransitivity; [by apply write_rows_miss|]. by apply list_lookup_insert_eq.
  - apply (IH (<[t' := src !!! s']> dest)); [by rewrite length_insert|done..].
Qed.

Lemma format_wf b : buffer_wf b -> exists f, downcast_execution_format b = Ok f.
Proof.
  destruct b; simpl; intros Hb; [by eexists|..]; destruct Hb as (-> & o & vals & -> & _); by eexists.
Qed.

Lemma valid_row a i :
  array_wf a -> i < logical_len (data a) ->
  exists valid : bool, Validity.is_valid (validity a) i = Ok valid
    /\ row a i = (if valid then value_at (data a) i else None)
    /\ (Validity.all_valid (validity a) = Ok true -> valid = true).
Proof.
  intros Hwf Hi.
  destruct (is_valid_spec (validity a) i) as (v & Hv & Hlk); [apply Hwf|by rewrite (wf_len _ Hwf)|].
  exists v. split; [done|]. split; [by apply row_valid|]. intros Hav.
  rewrite all_valid_spec in Hav; [|apply Hwf|]; [|by intros Heq; rewrite Heq in Hav].
  injection Hav as Hall%bool_decide_eq_true. by eapply Forall_lookup_1 in Hall.
Qed.

(** The validity test of the row loops: skipped when the whole mask is valid. *)
Lemma checked_row src s av :
  array_wf src -> s < logical_len (data src) -> Validity.all_valid (validity src) = Ok av ->
  exists b : bool, (if av then Ok true else Validity.is_valid (validity src) s) = Ok b
    /\ row src s = if b then value_at (data src) s else None.
Proof.
  intros Hwf Hs Hav. destruct (valid_row src s Hwf Hs) as (b & Hb & Hrow & Hall).
  exists b. split; [|done]. destruct av; [|done]. by rewrite Hall.
Qed.

Lemma copy_loop_spec src f all_valid dt mapping buf vl :
  array_wf src -> downcast_execution_format (data src) = Ok f ->
  Validity.all_valid (validity src) = Ok all_valid ->
  Forall (fun p => p.1 < logical_len (data src) /\ p.2 < length buf /\ valid_list vl !! p.2 = Some true) mapping ->
  NoDup mapping.*2 -> validity_wf vl -> Validity.len vl = length buf ->
  exists buf' vl', copy_loop f all_valid (validity src) mapping buf vl = Ok (buf', vl')
    /\ validity_wf vl' /\ Validity.len vl' = length buf /\ length buf' = length buf
    /\ rows (mkArray dt vl' (Leaf Unique buf')) = write_rows (rows src) mapping (rows (mkArray dt vl (Leaf Unique buf))).
Proof.
  intros Hwf Hf Hav. revert buf vl. induction mapping as [|[s t] rest IH]; intros buf vl Hm Hnd Hwv Hlv.
  { by exists buf, vl. }
  apply Forall_cons in Hm as [(Hs & Ht & Hvt) Hm]. simpl in Hs, Ht, Hvt.
  rewrite fmap_cons in Hnd. apply NoDup_cons in Hnd as [Hnotin Hnd]. simpl.
  destruct (checked_row src s all_valid Hwf Hs Hav) as (b & -> & Hrow).
  rewrite (lookup_total_rows src s Hs), Hrow.
  assert (Forall (fun p : nat * nat => p.2 <> t) rest) as Hne.
  { apply Forall_forall. intros p Hp Heq. apply Hnotin. simpl. rewrite <-Heq. by apply (list_elem_of_fmap_2 snd). }
  unfold mbind, res_bind. destruct b.
  - destruct (read_wf (data src) s) as (f' & v & Hf' & Hr & ->); [apply Hwf|done|].
    rewrite Hf in Hf'. injection Hf' as <-. rewrite Hr. unfold put_val. rewrite (proj2 (Nat.ltb_lt _ _) Ht).
    destruct (IH (<[t := v]> buf) vl) as (buf' & vl' & -> & Hw & Hl' & Hlb & Hrows); [|done|done|by rewrite length_insert|].
    { by rewrite length_insert. }
    exists buf', vl'. rewrite length_insert in Hlb, Hl'. split_and!; [done..|].
    by rewrite Hrows, (rows_put dt vl Unique Unique).
  - destruct (set_invalid_spec vl t Hwv) as (vl1 & -> & Hwv1 & Hvl1); [lia|].
    destruct (IH buf vl1) as (buf' & vl' & -> & Hw & Hl' & Hlb & Hrows); [|done|done| |].
    { pose proof (proj2 (Forall_and _ _) (conj Hm Hne)) as Hmn. eapply Forall_impl; [exact Hmn|].
      intros p [(Hp1 & Hp2 & Hp) Hpt]. by rewrite Hvl1, list_lookup_insert_ne. }
    { by rewrite <-length_valid_list, Hvl1, length_insert, length_valid_list. }
    exists buf', vl'. split_and!; [done..|].
    rewrite Hrows, (rows_invalidate dt vl vl1 _ t); [done|done|lia|done].
Qed.

Lemma copy_rows_spec src mapping dest buf :
  array_wf src -> array_wf dest -> data dest = Leaf Unique buf ->
  Forall (fun p => p.1 < logical_len (data src) /\ p.2 < length buf
                   /\ valid_list (validity dest) !! p.2 = Some true) mapping ->
  NoDup mapping.*2 ->
  exists dest' buf', copy_rows src mapping dest = Ok dest' /\ array_wf dest' /\ data dest' = Leaf Unique buf'
    /\ length buf' = length buf /\ datatype dest' = datatype dest
    /\ rows dest' = write_rows (rows src) mapping (rows dest).
Proof.
  intros Hws Hwd Hd Hm Hnd. unfold copy_rows. rewrite Hd. simpl.
  destruct (format_wf (data src)) as [f Hf]; [apply Hws|].
  assert (exists av, Validity.all_valid (validity src) = Ok av) as [av Hav].
  { apply all_valid_total, Hws. }
  rewrite Hf, Hav. unfold mbind, res_bind.
  destruct (copy_loop_spec src f av (datatype dest) mapping buf (validity dest))
    as (buf' & vl' & -> & Hw & Hl & Hlb & Hrows); try done; [apply Hwd|by rewrite (wf_len _ Hwd), Hd|].
  do 2 eexists. split; [done|]. split_and!; try done.
  - split; simpl; [done|done|by rewrite Hl, Hlb|done].
  - simpl. rewrite Hrows. by destruct dest; simpl in *; subst.
Qed.

End Content.

(** ** Correctness of array operations *)

(** [get_value] on a well-formed array never panics: it returns the
    logical row inside the array (NULL where the mask says so, through constant
    and dictionary indirections otherwise), and the bounds error outside. *)
Theorem array_get_value_total {V DT} (a : Array V DT) i :
  array_wf a ->
  get_value a i = match rows a !! i with Some r => Ok r | None => Err "Index out of bounds" end.
Proof.
  intros Hwf. destruct (decide (i < logical_len (data a))) as [Hi|Hi].
  - by rewrite lookup_rows, get_value_row.
  - rewrite lookup_ge_None_2 by (rewrite length_rows; lia). unfold get_value.
    by destruct (Nat.leb_spec (logical_len (data a)) i); [|lia].
Qed.

(** A dictionary over three values with one NULL row. *)
Definition example_dictionary : Array Z nat :=
  mkArray 0 (Validity.Mask 4 [11%Z]) (DictionaryBuffer Unique [2; 0; 0; 1] (Leaf Shared [10; 20; 30]%Z)).

Lemma example_dictionary_wf : array_wf example_dictionary.
Proof.
  split; simpl; [|by apply Nat.leb_le|done..]. split; [done|]. exists Shared, [10; 20; 30]%Z.
  split; [done|]. repeat constructor.
Qed.

(** Reading past the NULL row and out of range. *)
Lemma array_get_value_total_witness :
  get_value example_dictionary 3 = Ok (Some 20%Z) /\ get_value example_dictionary 4 = Err "Index out of bounds".
Proof.
  split; rewrite (array_get_value_total example_dictionary _ example_dictionary_wf); reflexivity.
Defined.

(** [select] on any well-formed array (flat, constant or dictionary) with
    in-range positions succeeds, keeps the data type and well-formedness, and
    the resulting rows are the selected rows in order, NULLs included. *)
Theorem array_select_correct {V DT} (a : Array V DT) sel :
  array_wf a -> Forall (fun i => i < logical_len (data a)) sel ->
  exists a', select a sel = Ok a' /\ array_wf a' /\ datatype a' = datatype a
    /\ rows a' = (fun i => rows a !!! i) <$> sel.
Proof. apply select_rows. Qed.

(** Selecting on top of a dictionary. *)
Lemma array_select_correct_witness :
  exists a', select example_dictionary [3; 2; 3] = Ok a' /\ array_wf a' /\ datatype a' = 0
    /\ rows a' = [Some 20%Z; None; Some 20%Z].
Proof.
  apply (array_select_correct example_dictionary [3; 2; 3] example_dictionary_wf).
  repeat constructor.
Defined.

(** Cloning: [clone_from_other] between arrays of one data type gives the
    receiver exactly the rows of the other array and leaves the other array's
    rows unchanged; both stay well formed.  With different data types it is
    refused. *)
Theorem array_clone_correct {V DT} `{EqDecision DT} (a o : Array V DT) :
  array_wf o ->
  (datatype a = datatype o ->
   exists a' o', clone_from_other a o = Ok (a', o') /\ array_wf a' /\ array_wf o'
     /\ rows a' = rows o /\ rows o' = rows o)
  /\ (datatype a <> datatype o -> clone_from_other a o = Err "Cannot clone arrays with different data types").
Proof.
  intros Hwf. split; intros Hdt.
  - destruct (clone_from_other_rows a o Hwf Hdt) as (a' & o' & ? & ? & ? & ? & ? & ? & ?). eauto 10.
  - unfold clone_from_other. by rewrite decide_False.
Qed.

(** Cloning the dictionary into a flat array. *)
Lemma array_clone_correct_witness :
  exists a' o', clone_from_other (mkArray 0 (Validity.AllValid 1) (Leaf Unique [7%Z])) example_dictionary = Ok (a', o')
    /\ array_wf a' /\ array_wf o' /\ rows a' = rows example_dictionary /\ rows o' = rows example_dictionary.
Proof.
  apply (array_clone_correct (mkArray 0 (Validity.AllValid 1) (Leaf Unique [7%Z])) example_dictionary
           example_dictionary_wf); reflexivity.
Defined.

(** [clone_constant_from] repeats one row: after cloning row [r] of any
    well-formed array [len] times, the receiver is [len] copies of that row
    (NULL if it was NULL), and the source keeps its rows. *)
Theorem array_clone_constant_correct {V DT} `{EqDecision DT} (a o : Array V DT) r len :
  array_wf o -> datatype a = datatype o -> r < logical_len (data o) ->
  exists a' o', clone_constant_from a o r len = Ok (a', o') /\ array_wf a' /\ array_wf o'
    /\ rows a' = replicate len (row o r) /\ rows o' = rows o.
Proof.
  intros Hwf Hdt Hr. destruct (clone_constant_rows a o r len Hwf Hdt Hr) as (a' & o' & ? & ? & ? & ? & ? & ? & ?).
  eauto 10.
Qed.

(** Repeating a row of the dictionary. *)
Lemma array_clone_constant_correct_witness :
  exists a' o', clone_constant_from (mkArray 0 (Validity.AllValid 1) (Leaf Unique [7%Z])) example_dictionary 3 2 = Ok (a', o')
    /\ array_wf a' /\ array_wf o' /\ rows a' = [Some 20%Z; Some 20%Z] /\ rows o' = rows example_dictionary.
Proof.
  apply (array_clone_constant_correct (mkArray 0 (Validity.AllValid 1) (Leaf Unique [7%Z])) example_dictionary 3 2
           example_dictionary_wf); [reflexivity|apply Nat.ltb_lt; reflexivity].
Defined.

(** [copy_rows] writes exactly the mapped rows: for a well-formed source
    of any format and a writable destination whose target rows are distinct and
    still valid (as after a reset), every target row becomes the source row,
    NULL included, and all other rows of the destination are kept. *)
Theorem copy_rows_correct {V DT} (src dest : Array V DT) mapping buf :
  array_wf src -> array_wf dest -> data dest = Leaf Unique buf ->
  Forall (fun p => p.1 < logical_len (data src) /\ p.2 < length buf
                   /\ valid_list (validity dest) !! p.2 = Some true) mapping ->
  NoDup mapping.*2 ->
  exists dest', copy_rows src mapping dest = Ok dest' /\ array_wf dest'
    /\ (forall s t, (s, t) ∈ mapping -> rows dest' !! t = Some (row src s))
    /\ (forall t, t ∉ mapping.*2 -> rows dest' !! t = rows dest !! t).
Proof.
  intros Hws Hwd Hd Hm Hnd.
  destruct (copy_rows_spec src mapping dest buf Hws Hwd Hd Hm Hnd) as (dest' & buf' & ? & ? & ? & ? & ? & Hrows).
  exists dest'. split_and!; [done..| |]; rewrite Hrows.
  - assert (Forall (fun p => p.1 < logical_len (data src) /\ p.2 < length (rows dest)) mapping) as Hr.
    { eapply Forall_impl; [exact Hm|]. rewrite length_rows, Hd. naive_solver. }
    intros s t Hst. rewrite <-lookup_total_rows by (by eapply Forall_forall in Hr as [? ?]; [|exact Hst]).
    by apply write_rows_hit; [eapply Forall_impl; [exact Hr|naive_solver]| |].
  - intros t Ht. by apply write_rows_miss.
Qed.

(** Copying a NULL and a value out of the dictionary. *)
Lemma copy_rows_correct_witness :
  exists dest', copy_rows example_dictionary [(2, 0); (3, 2)]
      (mkArray 0 (Validity.AllValid 3) (Leaf Unique [7; 8; 9]%Z)) = Ok dest' /\ array_wf dest'
    /\ (forall s t, (s, t) ∈ [(2, 0); (3, 2)] -> rows dest' !! t = Some (row example_dictionary s))
    /\ (forall t, t ∉ [0; 2] -> rows dest' !! t = [Some 7; Some 8; Some 9]%Z !! t).
Proof.
  apply (copy_rows_correct example_dictionary (mkArray 0 (Validity.AllValid 3) (Leaf Unique [7; 8; 9]%Z))
           [(2, 0); (3, 2)] [7; 8; 9]%Z example_dictionary_wf); [by split|done| |].
  - repeat constructor; simpl; lia || reflexivity.
  - apply (bool_decide_unpack (NoDup [0; 2])). reflexivity.
Defined.

(** *** Writing single values, and constant arrays *)

Section Construction.
Context {V DT : Type} `{EqDecision DT}.

(** The contents of a freshly allocated buffer: unspecified by the allocator,
    of the requested capacity. *)
Variable fresh : DT -> nat -> list V.
Hypothesis fresh_capacity : forall dt capacity, length (fresh dt capacity) = capacity.

(** [Array::new] *)
Definition new_array (dt : DT) (capacity : nat) : Array V DT :=
  mkArray dt (Validity.AllValid capacity) (Leaf Unique (fresh dt capacity)).

(** [Array::new_null] *)
Definition new_null (dt : DT) (len : nat) : Array V DT :=
  let arr := new_array dt 1 in
  mkArray (datatype arr) (Validity.AllInvalid len) (ConstantBuffer Unique 0 len (data arr)).

(** [Array::new_constant], for a value of data type [dt]. *)
Definition new_constant (dt : DT) (value : option V) (len : nat) : res (Array V DT) :=
  match set_value 0 value (new_array dt 1) with
  | (Ok _, arr) =>
      valid ← Validity.is_valid (validity arr) 0;
      Ok (mkArray dt (uniform_validity valid len) (ConstantBuffer Unique 0 len (data arr)))
  | (Err e, _) => Err e
  | (Panic w, _) => Panic w
  end.

(** [Array::new_constant_from_other]; the data type of the row's value is the
    array's own for a non-NULL value and is [null_type] for a NULL. *)
Definition new_constant_from_other (null_type : DT) (other : Array V DT) (row_reference len : nat) :
    res (Array V DT) :=
  value ← get_value other row_reference;
  new_constant (match value with Some _ => datatype other | None => null_type end) value len.

(** [BufferCache::reset_array] *)
Definition reset_array (array : Array V DT) (cap : nat) : Array V DT :=
  mkArray (datatype array) (Validity.AllValid cap) (Leaf Unique (fresh (datatype array) cap)).

Lemma new_array_wf dt cap : array_wf (new_array dt cap).
Proof. split; simpl; [done|done|by rewrite fresh_capacity|done]. Qed.

Lemma set_value_leaf (a : Array V DT) idx val vals :
  array_wf a -> data a = Leaf Unique vals -> idx < length vals ->
  exists a' vals', set_value idx val a = (Ok tt, a') /\ array_wf a' /\ datatype a' = datatype a
    /\ data a' = Leaf Unique vals' /\ length vals' = length vals /\ rows a' = <[idx := val]> (rows a).
Proof.
  intros Hwf Hd Hi. destruct a as [dt vl d]. simpl in Hd. subst d. destruct Hwf as [_ Hv Hl _]. simpl in *.
  unfold set_value, get, mbind, M_bind. simpl. destruct (Nat.leb_spec (length vals) idx); [lia|].
  destruct val as [x|]; unfold lift.
  - destruct (set_valid_spec vl idx Hv) as (vl' & -> & Hv' & Hvl'); [lia|]. simpl. unfold put_val.
    destruct (Nat.ltb_spec idx (length vals)); [|lia]. do 2 eexists. split; [done|].
    assert (Validity.len vl' = length vals) as Hl' by (by rewrite <-length_valid_list, Hvl', length_insert, length_valid_list).
    split_and!; [|done|done|apply length_insert|].
    + split; simpl; [done|done|by rewrite length_insert|done].
    + rewrite (rows_put dt vl' Unique Unique); [|done|by rewrite Hvl', list_lookup_insert_eq by (rewrite length_valid_list; lia)].
      apply list_eq. intros i. destruct (decide (i = idx)) as [->|Hne];
        [by rewrite !list_lookup_insert_eq by (rewrite length_rows; done)|].
      rewrite !list_lookup_insert_ne by done. destruct (decide (i < length vals)) as [Hil|Hil].
      * rewrite !lookup_rows by done. f_equal. unfold row. simpl. by rewrite Hvl', list_lookup_insert_ne.
      * rewrite !lookup_ge_None_2; [done| |]; rewrite length_rows; simpl; lia.
  - destruct (set_invalid_spec vl idx Hv) as (vl' & -> & Hv' & Hvl'); [lia|]. simpl.
    do 2 eexists. split; [done|].
    assert (Validity.len vl' = length vals) as Hl' by (by rewrite <-length_valid_list, Hvl', length_insert, length_valid_list).
    split_and!; [by split|done..|]. by apply rows_invalidate; [|lia|].
Qed.

Lemma new_constant_rows dt value len :
  exists a, new_constant dt value len = Ok a /\ array_wf a /\ datatype a = dt /\ rows a = replicate len value.
Proof.
  unfold new_constant.
  destruct (set_value_leaf (new_array dt 1) 0 value (fresh dt 1)) as (arr & vals & -> & Hwf & Hdt & Hd & Hlen & Hrows);
    [apply new_array_wf|done|rewrite fresh_capacity; lia|].
  rewrite fresh_capacity in Hlen.
  assert (0 < logical_len (data arr)) as H0 by (rewrite Hd; simpl; lia).
  destruct (is_valid_spec (validity arr) 0) as (valid & Hvalid & _); [apply Hwf|by rewrite (wf_len _ Hwf)|].
  pose proof (row_valid arr 0 valid Hwf H0 Hvalid) as Hrow.
  assert (row arr 0 = value) as Hv.
  { pose proof (lookup_rows arr 0 H0) as Hlk. rewrite Hrows, list_lookup_insert_eq in Hlk; [by simplify_eq|].
    rewrite length_rows. simpl. rewrite fresh_capacity. lia. }
  rewrite Hvalid. simpl. eexists. split; [done|]. split; [|split; [done|]].
  - split; simpl; [|by apply wf_uniform_validity..|by eexists].
    split; [done|]. exists Unique, vals. split; [done|lia].
  - apply list_eq. intros i. destruct (decide (i < len)) as [Hi|Hi].
    + rewrite lookup_rows, lookup_replicate_2 by done. f_equal. unfold row. simpl. rewrite valid_uniform by done.
      rewrite <-Hv, Hrow. destruct valid; [|done]. rewrite Hd. unfold value_at. simpl.
      by destruct (Nat.leb_spec len i); [lia|].
    + rewrite !lookup_ge_None_2; [done| |]; rewrite ?length_replicate, ?length_rows; simpl; lia.
Qed.

(** Building constant arrays: [new_constant_from_other] of a row of any
    well-formed array is a well-formed array of [len] copies of that row, and
    [new_null] one of [len] NULLs. *)
Theorem new_constant_correct null_type (other : Array V DT) r len dt :
  array_wf other -> r < logical_len (data other) ->
  (exists a, new_constant_from_other null_type other r len = Ok a /\ array_wf a
     /\ rows a = replicate len (row other r))
  /\ array_wf (new_null dt len) /\ rows (new_null dt len) = replicate len None.
Proof.
  intros Hwf Hr. split; [|split].
  - unfold new_constant_from_other. rewrite get_value_row by done. unfold mbind, res_bind.
    destruct (new_constant_rows (match row other r with Some _ => datatype other | None => null_type end)
      (row other r) len) as (a & Ha & Hwa & _ & Hrows). eauto.
  - split; simpl; [|done|done|by exists false]. split; [done|]. exists Unique, (fresh dt 1).
    split; [done|]. rewrite fresh_capacity. lia.
  - apply list_eq. intros i. destruct (decide (i < len)) as [Hi|Hi].
    + rewrite lookup_rows, lookup_replicate_2 by done. f_equal. unfold row. simpl. by rewrite lookup_replicate_2.
    + rewrite !lookup_ge_None_2; [done| |]; rewrite ?length_replicate, ?length_rows; simpl; lia.
Qed.

End Construction.

(** Repeating the NULL row of the dictionary, with a zero-filled allocator. *)
Lemma new_constant_correct_witness :
  (exists a, new_constant_from_other (fun _ capacity => replicate capacity 0%Z) 9 example_dictionary 2 3 = Ok a
     /\ array_wf a /\ rows a = [None; None; None])
  /\ array_wf (new_null (fun _ capacity => replicate capacity 0%Z) 4 3)
  /\ rows (new_null (fun _ capacity => replicate capacity 0%Z) 4 3) = [None; None; None].
Proof.
  apply (new_constant_correct (fun _ capacity => replicate capacity 0%Z)
    (fun _ capacity => length_replicate capacity 0%Z) 9 example_dictionary 2 3 4 example_dictionary_wf).
  apply Nat.ltb_lt. reflexivity.
Defined.

(** Writing a value: on a well-formed writable array, [set_value] followed
    by [get_value] returns what was written at that row and leaves every other
    row as it was. *)
Theorem set_value_get_value {V DT} (a : Array V DT) idx val vals i :
  array_wf a -> data a = Leaf Unique vals -> idx < length vals -> i < length vals ->
  exists a', set_value idx val a = (Ok tt, a') /\ array_wf a'
    /\ get_value a' i = if decide (i = idx) then Ok val else get_value a i.
Proof.
  intros Hwf Hd Hidx Hi. destruct (set_value_leaf a idx val vals Hwf Hd Hidx)
    as (a' & vals' & Hset & Hwf' & _ & Hd' & Hlen & Hrows).
  exists a'. split; [done|]. split; [done|].
  assert (i < logical_len (data a')) as Hi' by (rewrite Hd'; simpl; lia).
  rewrite get_value_row by done. pose proof (lookup_rows a' i Hi') as Hlk. rewrite Hrows in Hlk.
  case_decide as Hii; subst.
  - rewrite list_lookup_insert_eq in Hlk by (rewrite length_rows, Hd; done). by simplify_eq.
  - rewrite list_lookup_insert_ne, lookup_rows in Hlk by (done || rewrite Hd; done).
    rewrite get_value_row by (done || rewrite Hd; done). congruence.
Qed.

(** Writing a NULL over the first of two values. *)
Lemma set_value_get_value_witness :
  exists a', set_value 0 None (mkArray 1 (Validity.AllValid 2) (Leaf Unique [5; 6]%Z)) = (Ok tt, a') /\ array_wf a'
    /\ get_value a' 0 = Ok None.
Proof.
  apply (set_value_get_value (mkArray 1 (Validity.AllValid 2) (Leaf Unique [5; 6]%Z)) 0 None [5; 6]%Z 0);
    [by split|reflexivity|apply Nat.ltb_lt; reflexivity..].
Defined.
