(* ===== verification/Executors.v ===== *)
(** * Vectorised executors

    Models the executors that scalar functions, filters and aggregates run on:
    [executor/mod.rs] ([PutBuffer]), [executor/scalar/unary.rs],
    [executor/scalar/binary.rs], [executor/scalar/uniform.rs] and
    [executor/aggregate/unary.rs].  An operation is a function from input
    values to what it does with its [PutBuffer]. *)
From S2P Require Import Prelude Arrays ArrayData.

(** ** Output buffers ([executor/mod.rs]) *)

(** What an operation does with the [PutBuffer] it is given. *)
Inductive put_action (O : Type) : Type :=
| Put (val : O)
| PutNull.
Arguments Put {O} val.
Arguments PutNull {O}.

(** The row an action stands for. *)
Definition put_row {O} (p : put_action O) : option O :=
  match p with Put v => Some v | PutNull => None end.

(** [PutBuffer::put] and [PutBuffer::put_null] at [idx]. *)
Definition apply_put {O} (idx : nat) (p : put_action O) (buffer : list O) (v : Validity.t) :
    res (list O * Validity.t) :=
  match p with
  | Put val => buffer' ← put_val buffer idx val; Ok (buffer', v)
  | PutNull => v' ← Validity.set_invalid v idx; Ok (buffer, v')
  end.

(** The output loop of every executor: the [k]-th input decides the action at
    output row [output_idx + k]; an invalid input row is a [put_null]. *)
Fixpoint exec_loop {I O} (step : I -> res (put_action O)) (inputs : list I) (output_idx : nat)
    (buffer : list O) (v : Validity.t) : res (list O * Validity.t) :=
  match inputs with
  | [] => Ok (buffer, v)
  | i :: rest =>
      p ← step i;
      r ← apply_put output_idx p buffer v;
      exec_loop step rest (S output_idx) r.1 r.2
  end.

Section Executors.
Context {A A1 A2 O DT : Type}.

(** ** [UnaryExecutor] ([scalar/unary.rs]) *)

(** One row of the loops of [UnaryExecutor::execute], in the two formats. *)
Definition unary_step (f : ExecutionFormat A) (all_valid : bool) (v : Validity.t)
    (op : A -> put_action O) (input_idx : nat) : res (put_action O) :=
  match f with
  | Flat input =>
      valid ← (if all_valid then Ok true else Validity.is_valid v input_idx);
      if valid : bool then x ← unwrap (input !! input_idx); Ok (op x) else Ok PutNull
  | SelectionF array_selection input =>
      selected_idx ← unwrap (Selection.get array_selection input_idx);
      valid ← (if all_valid then Ok true else Validity.is_valid v input_idx);
      if valid : bool then x ← unwrap (input !! selected_idx); Ok (op x) else Ok PutNull
  end.

(** [UnaryExecutor::execute]: the output buffer and validity after. *)
Definition unary_execute (array : Array A DT) (selection : list nat)
    (out_buffer : AnyArrayBuffer O) (out_validity : Validity.t) (op : A -> put_action O) :
    res (AnyArrayBuffer O * Validity.t) :=
  f ← downcast_execution_format (data array);
  output ← downcast_mut out_buffer;
  all_valid ← Validity.all_valid (validity array);
  r ← exec_loop (unary_step f all_valid (validity array) op) selection 0 output out_validity;
  Ok (Leaf Unique r.1, r.2).

(** [UnaryExecutor::for_each_flat]: the calls made to [op], in order.  The
    validity is looked up at [selected_idx]. *)
Fixpoint for_each_loop (sel : Selection.t) (input : list A) (all_valid : bool) (v : Validity.t)
    (selection : list nat) (output_idx : nat) : res (list (nat * option A)) :=
  match selection with
  | [] => Ok []
  | input_idx :: rest =>
      selected_idx ← unwrap (Selection.get sel input_idx);
      valid ← (if all_valid then Ok true else Validity.is_valid v selected_idx);
      call ← (if valid : bool then x ← unwrap (input !! selected_idx); Ok (output_idx, Some x)
              else Ok (output_idx, None));
      calls ← for_each_loop sel input all_valid v rest (S output_idx);
      Ok (call :: calls)
  end.

Definition for_each_flat (array : Array A DT) (selection : list nat) : res (list (nat * option A)) :=
  f ← downcast_execution_format (data array);
  let '(sel, input) := into_selection_format f in
  all_valid ← Validity.all_valid (validity array);
  for_each_loop sel input all_valid (validity array) selection 0.

(** [UnaryExecutor::execute_in_place], for an operation on the element. *)
Fixpoint in_place_loop (op : A -> A) (all_valid : bool) (v : Validity.t) (selection : list nat)
    (input : list A) : res (list A) :=
  match selection with
  | [] => Ok input
  | idx :: rest =>
      valid ← (if all_valid then Ok true else Validity.is_valid v idx);
      input' ← (if valid : bool then x ← unwrap (input !! idx); Ok (<[idx := op x]> input) else Ok input);
      in_place_loop op all_valid v rest input'
  end.

Definition execute_in_place (array : Array A DT) (selection : list nat) (op : A -> A) : res (Array A DT) :=
  input ← downcast_mut (data array);
  all_valid ← Validity.all_valid (validity array);
  input' ← in_place_loop op all_valid (validity array) selection input;
  Ok (mkArray (datatype array) (validity array) (Leaf Unique input')).

(** ** [BinaryExecutor] ([scalar/binary.rs]) *)

(** Both validities, the second one consulted only when the first is set. *)
Definition both_valid (v1 v2 : Validity.t) (i1 i2 : nat) : res bool :=
  b1 ← Validity.is_valid v1 i1;
  if b1 : bool then Validity.is_valid v2 i2 else Ok false.

(** One row of the flat-flat loops of [BinaryExecutor::execute]. *)
Definition binary_flat_step (input1 : list A1) (input2 : list A2) (all_valid : bool)
    (v1 v2 : Validity.t) (op : A1 -> A2 -> put_action O) (i : nat * nat) : res (put_action O) :=
  valid ← (if all_valid then Ok true else both_valid v1 v2 i.1 i.2);
  if valid : bool then
    x1 ← unwrap (input1 !! i.1); x2 ← unwrap (input2 !! i.2); Ok (op x1 x2)
  else Ok PutNull.

(** One row of the loops of [BinaryExecutor::execute_with_selection]. *)
Definition binary_selection_step (a1 : Selection.t * list A1) (a2 : Selection.t * list A2) (all_valid : bool)
    (v1 v2 : Validity.t) (op : A1 -> A2 -> put_action O) (i : nat * nat) : res (put_action O) :=
  valid ← (if all_valid then Ok true else both_valid v1 v2 i.1 i.2);
  if valid : bool then
    sel1 ← unwrap (Selection.get a1.1 i.1); sel2 ← unwrap (Selection.get a2.1 i.2);
    x1 ← unwrap (a1.2 !! sel1); x2 ← unwrap (a2.2 !! sel2); Ok (op x1 x2)
  else Ok PutNull.

(** [BinaryExecutor::execute] *)
Definition binary_execute (array1 : Array A1 DT) (sel1 : list nat) (array2 : Array A2 DT) (sel2 : list nat)
    (out_buffer : AnyArrayBuffer O) (out_validity : Validity.t) (op : A1 -> A2 -> put_action O) :
    res (AnyArrayBuffer O * Validity.t) :=
  format1 ← downcast_execution_format (data array1);
  format2 ← downcast_execution_format (data array2);
  output ← downcast_mut out_buffer;
  av1 ← Validity.all_valid (validity array1);
  all_valid ← (if av1 : bool then Validity.all_valid (validity array2) else Ok false);
  let step :=
    match format1, format2 with
    | Flat input1, Flat input2 => binary_flat_step input1 input2 all_valid (validity array1) (validity array2) op
    | f1, f2 => binary_selection_step (into_selection_format f1) (into_selection_format f2) all_valid
                  (validity array1) (validity array2) op
    end in
  r ← exec_loop step (zip sel1 sel2) 0 output out_validity;
  Ok (Leaf Unique r.1, r.2).

(** ** [UniformExecutor] ([scalar/uniform.rs]) *)

(** [arrays.iter().all(..)]: stops at the first [false]. *)
Fixpoint all_ok {B} (p : B -> res bool) (l : list B) : res bool :=
  match l with
  | [] => Ok true
  | x :: rest => b ← p x; if b : bool then all_ok p rest else Ok false
  end.

Definition uniform_step (inputs : list (Selection.t * list A)) (validities : list Validity.t) (all_valid : bool)
    (op : list A -> put_action O) (input_idx : nat) : res (put_action O) :=
  valid ← (if all_valid then Ok true else all_ok (fun v => Validity.is_valid v input_idx) validities);
  if valid : bool then
    op_inputs ← collect (fun si => sel_idx ← unwrap (Selection.get si.1 input_idx); unwrap (si.2 !! sel_idx)) inputs;
    Ok (op op_inputs)
  else Ok PutNull.

(** [UniformExecutor::execute] *)
Definition uniform_execute (arrays : list (Array A DT)) (sel : list nat)
    (out_buffer : AnyArrayBuffer O) (out_validity : Validity.t) (op : list A -> put_action O) :
    res (AnyArrayBuffer O * Validity.t) :=
  inputs ← collect (fun arr => f ← downcast_execution_format (data arr); Ok (into_selection_format f)) arrays;
  all_valid ← all_ok (fun arr => Validity.all_valid (validity arr)) arrays;
  output ← downcast_mut out_buffer;
  r ← exec_loop (uniform_step inputs (validity <$> arrays) all_valid op) sel 0 output out_validity;
  Ok (Leaf Unique r.1, r.2).

End Executors.

(** [UnaryExecutor::select]: the positions passed to [when_true] and to
    [when_false], in order.  [as_bool] reads a boolean element. *)
Section SelectExecutor.
Context {V DT : Type} (as_bool : V -> bool).

Fixpoint select_bool_loop (sel : Selection.t) (input : list V) (all_valid : bool) (v : Validity.t)
    (selection : list nat) : res (list nat * list nat) :=
  match selection with
  | [] => Ok ([], [])
  | input_idx :: rest =>
      valid ← (if all_valid then Ok true else Validity.is_valid v input_idx);
      selected_idx ← unwrap (Selection.get sel input_idx);
      is_true ← (if valid : bool then x ← unwrap (input !! selected_idx); Ok (as_bool x) else Ok false);
      r ← select_bool_loop sel input all_valid v rest;
      Ok (if is_true : bool then (input_idx :: r.1, r.2) else (r.1, input_idx :: r.2))
  end.

Definition unary_select (array : Array V DT) (selection : list nat) : res (list nat * list nat) :=
  f ← downcast_execution_format (data array);
  let '(sel, input) := into_selection_format f in
  all_valid ← Validity.all_valid (validity array);
  select_bool_loop sel input all_valid (validity array) selection.

End SelectExecutor.

(** ** [UnaryNonNullUpdater] ([aggregate/unary.rs])

    The states are pointers: several rows may point to one state. *)
Section Aggregate.
Context {A St DT : Type} (update : St -> A -> res St).

Fixpoint update_loop (f : ExecutionFormat A) (all_valid : bool) (v : Validity.t)
    (selection : list nat) (states : list nat) : M (list St) unit :=
  match selection, states with
  | input_idx :: rest, ptr :: ptrs =>
      valid ← lift (if all_valid then Ok true else Validity.is_valid v input_idx);
      _ ← (if valid : bool then
             val ← lift (read_format f input_idx);
             store ← get;
             st ← lift (index store ptr);
             st' ← lift (update st val);
             put (<[ptr := st']> store)
           else mret tt);
      update_loop f all_valid v rest ptrs
  | _, _ => mret tt
  end.

(** [UnaryNonNullUpdater::update] on the store the pointers point into. *)
Definition non_null_update (array : Array A DT) (selection : list nat) (states : list nat) : M (list St) unit :=
  if negb (length selection =? length states) then
    fail "Invalid number of states for selection in unary agggregate executor"
  else
    f ← lift (downcast_execution_format (data array));
    all_valid ← lift (Validity.all_valid (validity array));
    update_loop f all_valid (validity array) selection states.

End Aggregate.

(** ** The output loop *)

Section OutputLoop.
Context {O DT : Type} (dt : DT).
Implicit Types (buf : list O) (vl : Validity.t).

(** The array an output buffer and validity make up. *)
Definition out_array buf vl : Array O DT := mkArray dt vl (Leaf Unique buf).

(** An output whose rows [k, n) have not been invalidated. *)
Record writable (k n : nat) buf vl : Prop := {
  w_validity : validity_wf vl;
  w_len : Validity.len vl = length buf;
  w_room : n <= length buf;
  w_valid : forall j, k <= j < n -> valid_list vl !! j = Some true;
}.

Lemma length_out_rows buf vl : length (rows (out_array buf vl)) = length buf.
Proof. by rewrite length_rows. Qed.

Lemma apply_put_rows k n p buf vl :
  writable k n buf vl -> k < n ->
  exists buf' vl', apply_put k p buf vl = Ok (buf', vl') /\ writable (S k) n buf' vl'
    /\ length buf' = length buf
    /\ rows (out_array buf' vl') = <[k := put_row p]> (rows (out_array buf vl)).
Proof.
  intros [Hwv Hl Hroom Hvalid] Hk. destruct p as [v|]; simpl.
  - unfold put_val. destruct (Nat.ltb_spec k (length buf)); [|lia]. simpl. do 2 eexists. split; [done|].
    split_and!; [split; rewrite ?length_insert; auto with lia|apply length_insert|].
    by apply rows_put; [|apply Hvalid; lia].
  - destruct (set_invalid_spec vl k Hwv) as (vl' & -> & Hwv' & Hvl'); [lia|]. simpl. do 2 eexists. split; [done|].
    split_and!; [|done|by apply rows_invalidate; simpl; [lia|lia|]].
    split; [done|by rewrite <-length_valid_list, Hvl', length_insert, length_valid_list|done|].
    intros j Hj. rewrite Hvl', list_lookup_insert_ne by lia. apply Hvalid. lia.
Qed.

Lemma exec_loop_rows {I} (step : I -> res (put_action O)) inputs ps k buf vl :
  Forall2 (fun i p => step i = Ok p) inputs ps -> writable k (k + length inputs) buf vl ->
  exists buf' vl', exec_loop step inputs k buf vl = Ok (buf', vl')
    /\ validity_wf vl' /\ Validity.len vl' = length buf' /\ length buf' = length buf
    /\ rows (out_array buf' vl') =
         take k (rows (out_array buf vl)) ++ (put_row <$> ps) ++ drop (k + length inputs) (rows (out_array buf vl)).
Proof.
  intros Hps. revert k buf vl. induction Hps as [|i p inputs ps Hp _ IH]; intros k buf vl Hw; simpl.
  - exists buf, vl. destruct Hw. split_and!; [done..|]. by rewrite Nat.add_0_r, take_drop.
  - rewrite Hp. unfold mbind, res_bind. simpl in Hw.
    destruct (apply_put_rows k _ p buf vl Hw) as (buf1 & vl1 & -> & Hw1 & Hl1 & Hr1); [lia|]. cbn [fst snd].
    destruct (IH (S k) buf1 vl1) as (buf' & vl' & -> & Hwv & Hlv & Hl & Hr).
    { by replace (S k + length inputs) with (k + S (length inputs)) by lia. }
    exists buf', vl'. split_and!; [done..|lia|]. rewrite Hr, Hr1.
    assert (k < length (rows (out_array buf vl))) as Hk by (rewrite length_out_rows; destruct Hw; lia).
    rewrite (take_S_r _ _ (put_row p)) by (by apply list_lookup_insert_eq).
    rewrite take_insert_ge, drop_insert_lt by lia.
    replace (k + S (length inputs)) with (S k + length inputs) by lia.
    by rewrite <-app_assoc.
Qed.

End OutputLoop.

(** ** Correctness of the executors *)

Section Correctness.
Context {A A1 A2 O DT : Type}.

(** NULL in, NULL out; the operation otherwise. *)
Definition lift_op (op : A -> put_action O) (x : option A) : option O :=
  match x with Some v => put_row (op v) | None => None end.

Definition lift_op2 (op : A1 -> A2 -> put_action O) (x : option A1) (y : option A2) : option O :=
  match x, y with Some v, Some w => put_row (op v w) | _, _ => None end.

(** An operation over several columns: NULL when any input is NULL. *)
Definition lift_ops (op : list A -> put_action O) (xs : list (option A)) : option O :=
  match mapM id xs with Some vs => put_row (op vs) | None => None end.

Lemma unary_step_spec (a : Array A DT) f av (op : A -> put_action O) i :
  array_wf a -> i < logical_len (data a) ->
  downcast_execution_format (data a) = Ok f -> Validity.all_valid (validity a) = Ok av ->
  unary_step f av (validity a) op i = Ok (match row a i with Some v => op v | None => PutNull end).
Proof.
  intros Hwf Hi Hf Hav. destruct (checked_row a i av Hwf Hi Hav) as (b & Hb & ->).
  destruct (read_wf (data a) i) as (f' & v & Hf' & Hr & Hv); [apply Hwf|done|].
  rewrite Hf in Hf'. injection Hf' as <-. rewrite Hv. unfold unary_step, mbind, res_bind. rewrite Hb.
  destruct f as [input|s input]; simpl in Hr.
  - by destruct b; [rewrite Hr|].
  - destruct (Selection.get s i) as [j|]; simpl in *; [|done]. by destruct b; [rewrite Hr|].
Qed.

Lemma Forall2_steps {I} (step : I -> res (put_action O)) (g : I -> put_action O) inputs :
  Forall (fun i => step i = Ok (g i)) inputs -> Forall2 (fun i p => step i = Ok p) inputs (g <$> inputs).
Proof. induction 1; simpl; constructor; auto. Qed.

(** Running a loop whose steps are known on a fresh output. *)
Lemma exec_fresh {I} (dt : DT) (step : I -> res (put_action O)) (g : I -> put_action O) inputs buf vl :
  Forall (fun i => step i = Ok (g i)) inputs -> writable 0 (length inputs) buf vl ->
  exists buf' vl', exec_loop step inputs 0 buf vl = Ok (buf', vl')
    /\ array_wf (out_array dt buf' vl')
    /\ rows (out_array dt buf' vl') =
         ((fun i => put_row (g i)) <$> inputs) ++ drop (length inputs) (rows (out_array dt buf vl)).
Proof.
  intros Hs%Forall2_steps Hw. destruct (exec_loop_rows dt step inputs _ 0 buf vl Hs Hw)
    as (buf' & vl' & Heq & Hwv & Hlv & Hl & Hr).
  exists buf', vl'. split; [done|]. split; [by split|]. rewrite Hr, <-list_fmap_compose. done.
Qed.

Lemma unary_execute_rows (a : Array A DT) sel (dt : DT) buf vl (op : A -> put_action O) :
  array_wf a -> Forall (fun i => i < logical_len (data a)) sel -> writable 0 (length sel) buf vl ->
  exists buf' vl', unary_execute a sel (Leaf Unique buf) vl op = Ok (Leaf Unique buf', vl')
    /\ array_wf (out_array dt buf' vl')
    /\ rows (out_array dt buf' vl') =
         ((fun i => lift_op op (row a i)) <$> sel) ++ drop (length sel) (rows (out_array dt buf vl)).
Proof.
  intros Hwf Hsel Hw. destruct (format_wf (data a)) as [f Hf]; [apply Hwf|].
  destruct (all_valid_total (validity a)) as [av Hav]; [apply Hwf|].
  unfold unary_execute. rewrite Hf, Hav. simpl.
  destruct (exec_fresh dt (unary_step f av (validity a) op)
    (fun i => match row a i with Some v => op v | None => PutNull end) sel buf vl) as (buf' & vl' & -> & Hwf' & Hr).
  - eapply Forall_impl; [exact Hsel|]. intros i Hi. by apply unary_step_spec.
  - done.
  - exists buf', vl'. split; [done|]. split; [done|]. rewrite Hr. f_equal. apply list_fmap_ext.
    intros _ i _. by destruct (row a i).
Qed.

(** The element read through the selection format. *)
Lemma read_selection {B} (b : AnyArrayBuffer B) f i :
  buffer_wf b -> i < logical_len b -> downcast_execution_format b = Ok f ->
  exists j v, Selection.get (into_selection_format f).1 i = Some j
    /\ (into_selection_format f).2 !! j = Some v /\ value_at b i = Some v
    /\ (forall vals, f = Flat vals -> vals !! i = Some v).
Proof.
  intros Hb Hi Hf. destruct (read_wf b i Hb Hi) as (f' & v & Hf' & Hr & Hv).
  rewrite Hf in Hf'. injection Hf' as <-. rewrite Hv. destruct f as [vals|s vals]; simpl in Hr |- *.
  - destruct (vals !! i) as [w|] eqn:Hw; simpl in Hr; [|done]. simplify_eq.
    destruct (Nat.leb_spec (length vals) i) as [Hge|_]; [by rewrite lookup_ge_None_2 in Hw|].
    exists i, v. rewrite Nat.add_0_r. split_and!; [done..|]. by intros ? [= <-].
  - destruct (Selection.get s i) as [j|]; simpl in Hr; [|done].
    destruct (vals !! j) as [w|] eqn:Hw; simpl in Hr; [|done]. simplify_eq. exists j, v. by split_and!.
Qed.

(** The shared validity test of the binary loops. *)
Lemma both_valid_rows (a1 : Array A1 DT) (a2 : Array A2 DT) i1 i2 all_valid :
  array_wf a1 -> array_wf a2 -> i1 < logical_len (data a1) -> i2 < logical_len (data a2) ->
  (all_valid = true -> Validity.all_valid (validity a1) = Ok true /\ Validity.all_valid (validity a2) = Ok true) ->
  exists b1 b2 : bool,
    (if all_valid then Ok true else both_valid (validity a1) (validity a2) i1 i2) = Ok (b1 && b2)
    /\ row a1 i1 = (if b1 then value_at (data a1) i1 else None)
    /\ row a2 i2 = (if b2 then value_at (data a2) i2 else None).
Proof.
  intros H1 H2 Hi1 Hi2 Hall. destruct (valid_row a1 i1 H1 Hi1) as (b1 & Hb1 & Hr1 & Ha1).
  destruct (valid_row a2 i2 H2 Hi2) as (b2 & Hb2 & Hr2 & Ha2). exists b1, b2. split; [|done].
  destruct all_valid.
  - destruct Hall as [Hv1 Hv2]; [done|]. by rewrite Ha1, Ha2.
  - unfold both_valid. rewrite Hb1, Hb2. by destruct b1.
Qed.

Definition binary_step (f1 : ExecutionFormat A1) (f2 : ExecutionFormat A2) (all_valid : bool)
    (v1 v2 : Validity.t) (op : A1 -> A2 -> put_action O) : nat * nat -> res (put_action O) :=
  match f1, f2 with
  | Flat input1, Flat input2 => binary_flat_step input1 input2 all_valid v1 v2 op
  | f1, f2 => binary_selection_step (into_selection_format f1) (into_selection_format f2) all_valid v1 v2 op
  end.

Lemma binary_step_spec (a1 : Array A1 DT) (a2 : Array A2 DT) f1 f2 all_valid (op : A1 -> A2 -> put_action O) i :
  array_wf a1 -> array_wf a2 -> i.1 < logical_len (data a1) -> i.2 < logical_len (data a2) ->
  downcast_execution_format (data a1) = Ok f1 -> downcast_execution_format (data a2) = Ok f2 ->
  (all_valid = true -> Validity.all_valid (validity a1) = Ok true /\ Validity.all_valid (validity a2) = Ok true) ->
  binary_step f1 f2 all_valid (validity a1) (validity a2) op i =
    Ok (match row a1 i.1, row a2 i.2 with Some x, Some y => op x y | _, _ => PutNull end).
Proof.
  intros H1 H2 Hi1 Hi2 Hf1 Hf2 Hall.
  destruct (both_valid_rows a1 a2 i.1 i.2 all_valid H1 H2 Hi1 Hi2 Hall) as (b1 & b2 & Hb & -> & ->).
  destruct (read_selection (data a1) f1 i.1) as (j1 & x1 & Hj1 & Hx1 & -> & Hflat1); [apply H1|done..|].
  destruct (read_selection (data a2) f2 i.2) as (j2 & x2 & Hj2 & Hx2 & -> & Hflat2); [apply H2|done..|].
  assert (binary_selection_step (into_selection_format f1) (into_selection_format f2) all_valid
    (validity a1) (validity a2) op i
    = Ok (match (if b1 then Some x1 else None), (if b2 then Some x2 else None) with
          | Some x, Some y => op x y | _, _ => PutNull end)) as Hsel.
  { unfold binary_selection_step, mbind, res_bind. rewrite Hb.
    destruct b1, b2; simpl; [|done..]. by rewrite Hj1, Hj2; simpl; rewrite Hx1, Hx2. }
  unfold binary_step. destruct f1 as [in1|], f2 as [in2|]; [|exact Hsel..].
  unfold binary_flat_step, mbind, res_bind. rewrite Hb, (Hflat1 in1), (Hflat2 in2) by done.
  by destruct b1, b2.
Qed.

Lemma binary_execute_rows (a1 : Array A1 DT) sel1 (a2 : Array A2 DT) sel2 (dt : DT) buf vl (op : A1 -> A2 -> put_action O) :
  array_wf a1 -> array_wf a2 ->
  Forall (fun i => i < logical_len (data a1)) sel1 -> Forall (fun i => i < logical_len (data a2)) sel2 ->
  writable 0 (length (zip sel1 sel2)) buf vl ->
  exists buf' vl', binary_execute a1 sel1 a2 sel2 (Leaf Unique buf) vl op = Ok (Leaf Unique buf', vl')
    /\ array_wf (out_array dt buf' vl')
    /\ rows (out_array dt buf' vl') =
         ((fun i => lift_op2 op (row a1 i.1) (row a2 i.2)) <$> zip sel1 sel2)
         ++ drop (length (zip sel1 sel2)) (rows (out_array dt buf vl)).
Proof.
  intros H1 H2 Hs1 Hs2 Hw.
  destruct (format_wf (data a1)) as [f1 Hf1]; [apply H1|]. destruct (format_wf (data a2)) as [f2 Hf2]; [apply H2|].
  destruct (all_valid_total (validity a1)) as [av1 Hav1]; [apply H1|].
  destruct (all_valid_total (validity a2)) as [av2 Hav2]; [apply H2|].
  assert ((if av1 then Validity.all_valid (validity a2) else Ok false) = Ok (av1 && av2)) as Hav
    by (rewrite Hav2; by destruct av1).
  unfold binary_execute. rewrite Hf1, Hf2, Hav1. simpl. rewrite Hav. simpl.
  destruct (exec_fresh dt (binary_step f1 f2 (av1 && av2) (validity a1) (validity a2) op)
    (fun i => match row a1 i.1, row a2 i.2 with Some x, Some y => op x y | _, _ => PutNull end)
    (zip sel1 sel2) buf vl) as (buf' & vl' & Heq & Hwf' & Hr).
  - apply Forall_forall. intros [i1 i2] Hi. apply binary_step_spec; try done.
    + apply elem_of_zip_l in Hi. by eapply Forall_forall in Hs1.
    + apply elem_of_zip_r in Hi. by eapply Forall_forall in Hs2.
    + intros [-> ->]%andb_prop. done.
  - done.
  - unfold binary_step in Heq. rewrite Heq. exists buf', vl'. split; [done|]. split; [done|]. rewrite Hr. f_equal.
    apply list_fmap_ext. intros _ i _. by destruct (row a1 i.1), (row a2 i.2).
Qed.

End Correctness.

Section MoreCorrectness.
Context {A O DT : Type}.

(** *** Uniform *)

(** The formats of a list of arrays, as [UniformExecutor] computes them. *)
Definition formats_of (arrays : list (Array A DT)) (inputs : list (Selection.t * list A)) : Prop :=
  Forall2 (fun arr si => (f ← downcast_execution_format (data arr); Ok (into_selection_format f)) = Ok si) arrays inputs.

Lemma uniform_row (arrays : list (Array A DT)) inputs i :
  Forall (fun arr => array_wf arr /\ i < logical_len (data arr)) arrays -> formats_of arrays inputs ->
  exists b : bool, all_ok (fun v => Validity.is_valid v i) (validity <$> arrays) = Ok b
    /\ (Forall (fun arr => Validity.all_valid (validity arr) = Ok true) arrays -> b = true)
    /\ (b = true -> exists vs,
          collect (fun si => sel_idx ← unwrap (Selection.get si.1 i); unwrap (si.2 !! sel_idx)) inputs = Ok vs
          /\ mapM id ((fun arr => row arr i) <$> arrays) = Some vs)
    /\ (b = false -> mapM id ((fun arr => row arr i) <$> arrays) = None).
Proof.
  intros Hwf Hin. induction Hin as [|arr si arrays inputs Hsi _ IH].
  { exists true. split_and!; [done..|by exists []|done]. }
  rewrite !fmap_cons. cbn [all_ok collect mapM].
  apply Forall_cons in Hwf as [[Hw Hi] Hwf]. destruct (IH Hwf) as (b & Hb & Hall & Ht & Hf).
  destruct (valid_row arr i Hw Hi) as (b0 & Hb0 & Hrow & Hall0).
  destruct (format_wf (data arr)) as [f Hfmt]; [apply Hw|]. rewrite Hfmt in Hsi. simpl in Hsi. injection Hsi as <-.
  destruct (read_selection (data arr) f i) as (j & x & Hj & Hx & Hv & _); [apply Hw|done..|].
  rewrite Hb0, Hrow. unfold mbind, res_bind. destruct b0.
  - exists b. split; [done|]. split; [|split].
    + intros [_ ?]%Forall_cons. auto.
    + intros ->. destruct Ht as (vs & Hvs & Hm); [done|]. exists (x :: vs). rewrite Hj. simpl. rewrite Hx, Hv.
      unfold mbind, res_bind in Hvs. by rewrite Hvs, Hm.
    + intros ->. rewrite Hv. simpl. by rewrite Hf.
  - exists false. split; [done|]. split; [|by split].
    intros [H0 _]%Forall_cons. by discriminate (Hall0 H0).
Qed.

Lemma all_ok_all_valid (arrays : list (Array A DT)) :
  Forall array_wf arrays ->
  exists b : bool, all_ok (fun arr => Validity.all_valid (validity arr)) arrays = Ok b
    /\ (b = true -> Forall (fun arr => Validity.all_valid (validity arr) = Ok true) arrays).
Proof.
  induction 1 as [|arr arrays Hw _ (b & Hb & IH)]; [by exists true|]. simpl.
  destruct (all_valid_total (validity arr)) as [av Hav]; [apply Hw|]. rewrite Hav. unfold mbind, res_bind.
  destruct av; [exists b|by exists false]. split; [done|]. intros Ht. constructor; auto.
Qed.

Lemma formats_total (arrays : list (Array A DT)) :
  Forall array_wf arrays ->
  exists inputs, collect (fun arr => f ← downcast_execution_format (data arr); Ok (into_selection_format f)) arrays = Ok inputs.
Proof.
  induction 1 as [|arr arrays Hw _ [inputs IH]]; [by exists []|]. simpl.
  destruct (format_wf (data arr)) as [f ->]; [apply Hw|]. simpl. rewrite IH. by eexists.
Qed.

Lemma uniform_execute_rows (arrays : list (Array A DT)) sel (dt : DT) buf vl (op : list A -> put_action O) :
  Forall array_wf arrays -> Forall (fun i => Forall (fun arr => i < logical_len (data arr)) arrays) sel ->
  writable 0 (length sel) buf vl ->
  exists buf' vl', uniform_execute arrays sel (Leaf Unique buf) vl op = Ok (Leaf Unique buf', vl')
    /\ array_wf (out_array dt buf' vl')
    /\ rows (out_array dt buf' vl') =
         ((fun i => lift_ops op ((fun arr => row arr i) <$> arrays)) <$> sel)
         ++ drop (length sel) (rows (out_array dt buf vl)).
Proof.
  intros Hwf Hsel Hw. destruct (formats_total arrays Hwf) as [inputs Hin].
  destruct (all_ok_all_valid arrays Hwf) as (av & Hav & Hall).
  unfold uniform_execute. rewrite Hin, Hav. simpl.
  destruct (exec_fresh dt (uniform_step inputs (validity <$> arrays) av op)
    (fun i => match mapM id ((fun arr => row arr i) <$> arrays) with Some vs => op vs | None => PutNull end)
    sel buf vl) as (buf' & vl' & -> & Hwf' & Hr).
  - eapply Forall_impl; [exact Hsel|]. intros i Hi. simpl.
    destruct (uniform_row arrays inputs i) as (b & Hb & Hallb & Ht & Hf);
      [by apply Forall_and|by apply collect_Forall2|].
    assert ((if av then Ok true else all_ok (fun v => Validity.is_valid v i) (validity <$> arrays)) = Ok b) as Hchk.
    { destruct av; [|done]. by rewrite Hallb by auto. }
    unfold uniform_step. rewrite Hchk. unfold mbind, res_bind in *. destruct b.
    + destruct Ht as (vs & Hvs & ->); [done|]. by rewrite Hvs.
    + by rewrite Hf.
  - done.
  - exists buf', vl'. split; [done|]. split; [done|]. rewrite Hr. f_equal. apply list_fmap_ext.
    intros _ i _. unfold lift_ops. by destruct (mapM _ _).
Qed.

(** *** Boolean selection *)

Section SelectCorrectness.
Context (as_bool : A -> bool).

Lemma select_bool_loop_rows (a : Array A DT) f av sel :
  array_wf a -> Forall (fun i => i < logical_len (data a)) sel ->
  downcast_execution_format (data a) = Ok f -> Validity.all_valid (validity a) = Ok av ->
  select_bool_loop as_bool (into_selection_format f).1 (into_selection_format f).2 av (validity a) sel
    = Ok (filter (fun i => as_bool <$> row a i = Some true) sel, filter (fun i => as_bool <$> row a i <> Some true) sel).
Proof.
  intros Hwf Hsel Hf Hav. induction Hsel as [|i sel Hi _ IH]; [done|].
  cbn [select_bool_loop]. destruct (checked_row a i av Hwf Hi Hav) as (b & -> & Hrow).
  destruct (read_selection (data a) f i) as (j & x & Hj & Hx & Hv & _); [apply Hwf|done..|].
  rewrite Hj. unfold mbind, res_bind in *. simpl. rewrite IH, !filter_cons. rewrite Hv in Hrow.
  rewrite !Hrow. destruct b; simpl; [|done]. rewrite Hx. simpl. by destruct (as_bool x).
Qed.

Lemma unary_select_rows (a : Array A DT) sel :
  array_wf a -> Forall (fun i => i < logical_len (data a)) sel ->
  unary_select as_bool a sel =
    Ok (filter (fun i => as_bool <$> row a i = Some true) sel, filter (fun i => as_bool <$> row a i <> Some true) sel).
Proof.
  intros Hwf Hsel. destruct (format_wf (data a)) as [f Hf]; [apply Hwf|].
  destruct (all_valid_total (validity a)) as [av Hav]; [apply Hwf|].
  unfold unary_select. rewrite Hf. unfold mbind at 1, res_bind at 1.
  pose proof (select_bool_loop_rows a f av sel Hwf Hsel Hf Hav) as Hloop.
  destruct (into_selection_format f) as [s input]. rewrite Hav. exact Hloop.
Qed.

End SelectCorrectness.

(** *** In place *)

Lemma in_place_loop_rows (op : A -> A) av (dt : DT) vl sel vals :
  NoDup sel -> Forall (fun i => i < length vals) sel ->
  (forall vals' : list A, length vals' = length vals -> array_wf (mkArray dt vl (Leaf Unique vals'))) ->
  Validity.all_valid vl = Ok av ->
  exists vals', in_place_loop op av vl sel vals = Ok vals' /\ length vals' = length vals
    /\ forall i, i < length vals -> row (mkArray dt vl (Leaf Unique vals')) i =
         if decide (i ∈ sel) then op <$> row (mkArray dt vl (Leaf Unique vals)) i
         else row (mkArray dt vl (Leaf Unique vals)) i.
Proof.
  intros Hnd. revert vals. induction Hnd as [|j sel Hj _ IH]; intros vals Hsel Hwf Hav.
  { exists vals. split_and!; [done..|]. intros i Hi. by rewrite decide_False by apply not_elem_of_nil. }
  cbn [in_place_loop].
  apply Forall_cons in Hsel as [Hjl Hsel].
  destruct (checked_row (mkArray dt vl (Leaf Unique vals)) j av) as (b & Hb & Hrow); [by apply Hwf|done..|].
  destruct (lookup_lt_is_Some_2 vals j Hjl) as [x Hx]. simpl in Hb. rewrite Hb. unfold mbind, res_bind.
  assert (exists vals1, (if b then match unwrap (vals !! j) with Ok x => Ok (<[j := op x]> vals) | Err e => Err e | Panic w => Panic w end
      else Ok vals) = Ok vals1 /\ length vals1 = length vals
    /\ row (mkArray dt vl (Leaf Unique vals1)) j = op <$> row (mkArray dt vl (Leaf Unique vals)) j
    /\ forall i, i <> j -> row (mkArray dt vl (Leaf Unique vals1)) i = row (mkArray dt vl (Leaf Unique vals)) i)
    as (vals1 & -> & Hl1 & Hr1 & Hne1).
  { unfold row, value_at in *. simpl in *. rewrite Hx in *. destruct b; simpl in *.
    - eexists. split; [done|]. split; [apply length_insert|]. rewrite list_lookup_insert_eq by done.
      split; [by destruct (valid_list vl !! j) as [[]|]|]. intros i Hi. by rewrite list_lookup_insert_ne.
    - exists vals. rewrite Hx. split_and!; [done..| |done]. by rewrite Hrow. }
  destruct (IH vals1) as (vals' & -> & Hl & Hr); [by rewrite Hl1|by rewrite Hl1|done|].
  exists vals'. split; [done|]. split; [lia|]. intros i Hi. rewrite Hr by lia.
  destruct (decide (i = j)) as [->|Hij].
  - by rewrite decide_False, decide_True by (done || apply list_elem_of_here).
  - rewrite Hne1 by done. destruct (decide (i ∈ sel)) as [Hin|Hin].
    + by rewrite decide_True by (by apply list_elem_of_further).
    + by rewrite decide_False by (rewrite elem_of_cons; naive_solver).
Qed.

End MoreCorrectness.

(** *** Aggregate updates *)

Section AggregateCorrectness.
Context {A St DT : Type} (upd : St -> A -> St).

(** The non-NULL rows routed to state [g], in selection order. *)
Definition group_values (a : Array A DT) (sel states : list nat) (g : nat) : list A :=
  omap (fun p => if decide (p.2 = g) then row a p.1 else None) (zip sel states).

Lemma update_loop_rows (a : Array A DT) f av sel states (store : list St) :
  array_wf a -> Forall (fun i => i < logical_len (data a)) sel ->
  Forall (fun p => p < length store) states -> length sel = length states ->
  downcast_execution_format (data a) = Ok f -> Validity.all_valid (validity a) = Ok av ->
  exists store', update_loop (fun st v => Ok (upd st v)) f av (validity a) sel states store = (Ok tt, store')
    /\ length store' = length store
    /\ forall g st, store !! g = Some st -> store' !! g = Some (foldl upd st (group_values a sel states g)).
Proof.
  intros Hwf Hsel Hst Hlen Hf Hav. revert states store Hst Hlen.
  induction Hsel as [|i sel Hi _ IH]; intros [|ptr states] store Hst Hlen; try done.
  { by exists store. }
  apply Forall_cons in Hst as [Hptr Hst]. injection Hlen as Hlen. cbn [update_loop].
  destruct (checked_row a i av Hwf Hi Hav) as (b & Hb & Hrow). rewrite Hb.
  destruct (read_wf (data a) i) as (f' & v & Hf' & Hr & Hv); [apply Hwf|done|].
  rewrite Hf in Hf'. injection Hf' as <-. rewrite Hv in Hrow. unfold mbind, M_bind, lift. destruct b.
  - rewrite Hr. unfold get, put. destruct (index_lt store ptr Hptr) as (st & -> & Hlk).
    destruct (IH states (<[ptr := upd st v]> store)) as (store' & Heq & Hl & Hg); [by rewrite length_insert|done|].
    exists store'. split; [exact Heq|]. rewrite length_insert in Hl. split; [done|]. intros g st' Hg'.
    unfold group_values. simpl. destruct (decide (ptr = g)) as [->|Hne]; [rewrite Hrow|].
    + simplify_eq. simpl. apply Hg. by apply list_lookup_insert_eq.
    + apply Hg. by rewrite list_lookup_insert_ne.
  - destruct (IH states store Hst Hlen) as (store' & Heq & Hl & Hg). exists store'. split; [exact Heq|].
    split; [done|]. intros g st Hg'. unfold group_values. simpl.
    rewrite Hrow. destruct (decide (ptr = g)); by apply Hg.
Qed.

End AggregateCorrectness.

(** ** Properties of the executors *)

(** [UnaryExecutor::execute] lifts its operation over NULLs on every
    array format: into an output whose rows are not yet invalidated, row [k]
    becomes the operation's result on row [selection[k]] of the input, NULL
    when that row is NULL or the operation puts NULL; rows past the selection
    keep their value. *)
Theorem unary_execute_correct {A O DT} (a : Array A DT) sel (dt : DT) buf vl (op : A -> put_action O) :
  array_wf a -> Forall (fun i => i < logical_len (data a)) sel -> writable 0 (length sel) buf vl ->
  exists buf' vl', unary_execute a sel (Leaf Unique buf) vl op = Ok (Leaf Unique buf', vl')
    /\ array_wf (out_array dt buf' vl')
    /\ rows (out_array dt buf' vl') =
         ((fun i => lift_op op (row a i)) <$> sel) ++ drop (length sel) (rows (out_array dt buf vl)).
Proof. apply unary_execute_rows. Qed.

(** A fresh output of [n] rows can be written from the start. *)
Lemma writable_fresh {O} (buf : list O) n :
  n <= length buf -> writable 0 n buf (Validity.AllValid (length buf)).
Proof. intros Hn. split; [done..|]. intros j Hj. apply lookup_replicate. lia. Qed.

(** Halving with NULL on odd values, through the dictionary. *)
Definition halve (x : Z) : put_action Z := if Z.even x then Put (x / 2)%Z else PutNull.

Lemma unary_execute_correct_witness :
  exists buf' vl', unary_execute example_dictionary [0; 2; 1] (Leaf Unique [0; 0; 0; 9]%Z) (Validity.AllValid 4) halve
      = Ok (Leaf Unique buf', vl')
    /\ array_wf (out_array 0 buf' vl') /\ rows (out_array 0 buf' vl') = [Some 15; None; Some 5; Some 9]%Z.
Proof.
  apply (unary_execute_correct example_dictionary [0; 2; 1] 0 [0; 0; 0; 9]%Z (Validity.AllValid 4) halve
    example_dictionary_wf); [repeat constructor|].
  apply (writable_fresh [0; 0; 0; 9]%Z 3). apply Nat.leb_le. reflexivity.
Defined.

(** [BinaryExecutor::execute] lifts a binary operation over NULLs, for
    every combination of flat, constant and dictionary inputs: output row [k]
    is the operation on the [k]-th selected rows of both inputs, NULL when
    either is NULL. *)
Theorem binary_execute_correct {A1 A2 O DT} (a1 : Array A1 DT) sel1 (a2 : Array A2 DT) sel2 (dt : DT) buf vl
    (op : A1 -> A2 -> put_action O) :
  array_wf a1 -> array_wf a2 ->
  Forall (fun i => i < logical_len (data a1)) sel1 -> Forall (fun i => i < logical_len (data a2)) sel2 ->
  writable 0 (length (zip sel1 sel2)) buf vl ->
  exists buf' vl', binary_execute a1 sel1 a2 sel2 (Leaf Unique buf) vl op = Ok (Leaf Unique buf', vl')
    /\ array_wf (out_array dt buf' vl')
    /\ rows (out_array dt buf' vl') =
         ((fun i => lift_op2 op (row a1 i.1) (row a2 i.2)) <$> zip sel1 sel2)
         ++ drop (length (zip sel1 sel2)) (rows (out_array dt buf vl)).
Proof. apply binary_execute_rows. Qed.

Definition example_flat : Array Z nat := mkArray 0 (Validity.AllValid 4) (Leaf Unique [1; 2; 3; 4]%Z).

Lemma example_flat_wf : array_wf example_flat.
Proof. by split. Qed.

(** Adding a flat array and the dictionary with a NULL. *)
Lemma binary_execute_correct_witness :
  exists buf' vl', binary_execute example_flat [0; 1; 2; 3] example_dictionary [0; 1; 2; 3]
      (Leaf Unique [0; 0; 0; 0]%Z) (Validity.AllValid 4) (fun x y => Put (x + y)%Z) = Ok (Leaf Unique buf', vl')
    /\ array_wf (out_array 0 buf' vl') /\ rows (out_array 0 buf' vl') = [Some 31; Some 12; None; Some 24]%Z.
Proof.
  apply (binary_execute_correct example_flat [0; 1; 2; 3] example_dictionary [0; 1; 2; 3] 0 [0; 0; 0; 0]%Z
    (Validity.AllValid 4) (fun x y => Put (x + y)%Z) example_flat_wf example_dictionary_wf); [repeat constructor..|].
  apply (writable_fresh [0; 0; 0; 0]%Z 4). apply Nat.leb_le. reflexivity.
Defined.

(** [UniformExecutor::execute] (used by AND, OR and string concatenation)
    is strict in NULL: an output row is NULL as soon as one input row is, and
    otherwise the operation on the values of all columns in order. *)
Theorem uniform_execute_correct {A O DT} (arrays : list (Array A DT)) sel (dt : DT) buf vl
    (op : list A -> put_action O) :
  Forall array_wf arrays -> Forall (fun i => Forall (fun arr => i < logical_len (data arr)) arrays) sel ->
  writable 0 (length sel) buf vl ->
  exists buf' vl', uniform_execute arrays sel (Leaf Unique buf) vl op = Ok (Leaf Unique buf', vl')
    /\ array_wf (out_array dt buf' vl')
    /\ rows (out_array dt buf' vl') =
         ((fun i => lift_ops op ((fun arr => row arr i) <$> arrays)) <$> sel)
         ++ drop (length sel) (rows (out_array dt buf vl)).
Proof. apply uniform_execute_rows. Qed.

(** Summing two columns row-wise. *)
Lemma uniform_execute_correct_witness :
  exists buf' vl', uniform_execute [example_flat; example_dictionary] [1; 2]
      (Leaf Unique [0; 0]%Z) (Validity.AllValid 2) (fun vs => Put (foldr Z.add 0 vs)%Z) = Ok (Leaf Unique buf', vl')
    /\ array_wf (out_array 0 buf' vl') /\ rows (out_array 0 buf' vl') = [Some 12%Z; None].
Proof.
  apply (uniform_execute_correct [example_flat; example_dictionary] [1; 2] 0 [0; 0]%Z
    (Validity.AllValid 2) (fun vs => Put (foldr Z.add 0 vs)%Z)).
  - constructor; [exact example_flat_wf|constructor; [exact example_dictionary_wf|constructor]].
  - repeat constructor.
  - apply (writable_fresh [0; 0]%Z 2). apply Nat.leb_le. reflexivity.
Defined.

(** [UnaryExecutor::select] splits the selected positions: [when_true]
    receives exactly the positions whose row is TRUE, [when_false] those whose
    row is FALSE or NULL, each in selection order. *)
Theorem unary_select_correct {DT} (a : Array bool DT) sel :
  array_wf a -> Forall (fun i => i < logical_len (data a)) sel ->
  unary_select id a sel =
    Ok (filter (fun i => row a i = Some true) sel, filter (fun i => row a i <> Some true) sel).
Proof.
  intros Hwf Hsel. rewrite (unary_select_rows id) by done. f_equal.
  f_equal; apply list_filter_iff; intros i; by rewrite option_fmap_id.
Qed.

(** A TRUE, a NULL and a FALSE row behind a dictionary. *)
Lemma unary_select_correct_witness :
  unary_select id (mkArray 0 (Validity.Mask 3 [5%Z]) (DictionaryBuffer Unique [1; 1; 0] (Leaf Unique [false; true]))) [0; 1; 2]
  = Ok ([0], [1; 2]).
Proof.
  rewrite (unary_select_correct (mkArray 0 (Validity.Mask 3 [5%Z])
    (DictionaryBuffer Unique [1; 1; 0] (Leaf Unique [false; true]))) [0; 1; 2]); [reflexivity| |repeat constructor].
  split; simpl; [|by apply Nat.leb_le|done..]. split; [done|]. exists Unique, [false; true].
  split; [done|repeat constructor].
Defined.

(** [UnaryNonNullUpdater::update] aggregates every group: when state [g]
    of the store is pointed to by some of the rows, it is folded with exactly
    the non-NULL values of those rows, in order; aliased pointers accumulate,
    other states are unchanged.  A pointer list of the wrong length is
    refused before any state is touched. *)
Theorem non_null_update_correct {A St DT} (upd : St -> A -> St) (a : Array A DT) sel states (store : list St) :
  array_wf a -> Forall (fun i => i < logical_len (data a)) sel -> Forall (fun p => p < length store) states ->
  (length sel = length states ->
   exists store', non_null_update (fun st v => Ok (upd st v)) a sel states store = (Ok tt, store')
     /\ forall g st, store !! g = Some st -> store' !! g = Some (foldl upd st (group_values a sel states g)))
  /\ (length sel <> length states ->
      non_null_update (fun st v => Ok (upd st v)) a sel states store
        = (Err "Invalid number of states for selection in unary agggregate executor", store)).
Proof.
  intros Hwf Hsel Hst. unfold non_null_update. split; intros Hlen.
  - rewrite (proj2 (Nat.eqb_eq _ _) Hlen). simpl.
    destruct (format_wf (data a)) as [f Hf]; [apply Hwf|].
    destruct (all_valid_total (validity a)) as [av Hav]; [apply Hwf|].
    unfold mbind, M_bind, lift. rewrite Hf, Hav.
    destruct (update_loop_rows upd a f av sel states store) as (store' & Heq & _ & Hg); [done..|]. eauto.
  - by rewrite (proj2 (Nat.eqb_neq _ _) Hlen).
Qed.

(** Two groups, one row NULL. *)
Lemma non_null_update_correct_witness :
  exists store', non_null_update (fun st v => Ok (st + v)%Z) example_dictionary [0; 1; 2; 3] [1; 0; 1; 1] [100; 200]%Z
      = (Ok tt, store')
    /\ forall g st, [100; 200]%Z !! g = Some st ->
         store' !! g = Some (foldl Z.add st (group_values example_dictionary [0; 1; 2; 3] [1; 0; 1; 1] g)).
Proof.
  apply (non_null_update_correct Z.add example_dictionary [0; 1; 2; 3] [1; 0; 1; 1] [100; 200]%Z example_dictionary_wf);
    [repeat constructor..|reflexivity].
Defined.

(** [UnaryExecutor::for_each_flat] reads the mask at the physical
    position of the row instead of its logical one, so on a dictionary array
    with a NULL it reports different rows than the array holds: the example has
    NULL at row 2 and [for_each_flat] presents row 2 as a value and row 0 as
    NULL. *)
Theorem for_each_flat_reads_wrong_validity :
  array_wf example_dictionary
  /\ rows example_dictionary = [Some 30%Z; Some 10%Z; None; Some 20%Z]
  /\ for_each_flat example_dictionary [0; 1; 2; 3]
     = Ok [(0, None); (1, Some 10%Z); (2, Some 10%Z); (3, Some 20%Z)].
Proof. split; [exact example_dictionary_wf|]. split; reflexivity. Qed.
