(* ===== verification/Batch.v ===== *)
(** * Batches

    Models [arrays/batch.rs]: a batch is a list of columns with a row count and
    an optional buffer cache (of which only the capacity matters).  The
    operations on two batches keep the writes made before an error.  The
    [BatchLaws] class states what batches promise to the operators. *)
From S2P Require Import Prelude Arrays ArrayData.

Section Batch.
Context {V DT : Type} `{EqDecision DT}.
Variable fresh : DT -> nat -> list V.

Record Batch : Type := mkBatch {
  arrays : list (Array V DT);
  num_rows : nat;
  cache : option nat;
}.

(** [Batch::empty_with_num_rows] *)
Definition empty_with_num_rows (n : nat) : Batch := mkBatch [] n None.

(** [Batch::new] *)
Definition new_batch (datatypes : list DT) (capacity : nat) : Batch :=
  mkBatch ((fun dt => new_array fresh dt capacity) <$> datatypes) 0 (Some capacity).

(** [Batch::from_arrays] *)
Definition from_arrays (arrs : list (Array V DT)) : res Batch :=
  match arrs with
  | [] => Ok (mkBatch [] 0 None)
  | arr :: _ =>
      let n := logical_len (data arr) in
      if forallb (fun a => logical_len (data a) =? n) arrs then Ok (mkBatch arrs n None)
      else Err "Attempted to create batch from arrays with different lengths"
  end.

(** A loop over the zipped columns of two batches: [f] gets the column of the
    receiver and the one of the other batch, and both after. *)
Fixpoint zip_loop (f : Array V DT -> Array V DT -> res (Array V DT * Array V DT))
    (self other : list (Array V DT)) : res unit * (list (Array V DT) * list (Array V DT)) :=
  match self, other with
  | a :: self', o :: other' =>
      match f a o with
      | Ok (a', o') =>
          let '(r, (s, t)) := zip_loop f self' other' in (r, (a' :: s, o' :: t))
      | Err e => (Err e, (self, other))
      | Panic w => (Panic w, (self, other))
      end
  | _, _ => (Ok tt, (self, other))
  end.

(** The columns of a pair of batches (receiver, other) through [zip_loop]. *)
Definition zip_arrays (f : Array V DT -> Array V DT -> res (Array V DT * Array V DT)) : M (Batch * Batch) unit :=
  fun '(self, other) =>
    let '(r, (s, t)) := zip_loop f (arrays self) (arrays other) in
    (r, (mkBatch s (num_rows self) (cache self), mkBatch t (num_rows other) (cache other))).

(** [check_num_arrays] *)
Definition check_num_arrays (b1 b2 : Batch) : res unit :=
  if length (arrays b1) =? length (arrays b2) then Ok tt else Err "Batches have different number of arrays".

Definition with_rows (b : Batch) (n : nat) : Batch := mkBatch (arrays b) n (cache b).

(** [Batch::clone_from_other] *)
Definition batch_clone_from_other : M (Batch * Batch) unit :=
  p ← get;
  _ ← lift (check_num_arrays p.1 p.2);
  _ ← zip_arrays clone_from_other;
  p ← get;
  put (with_rows p.1 (num_rows p.2), p.2).

(** [Batch::swap] *)
Definition batch_swap : M (Batch * Batch) unit :=
  p ← get;
  _ ← lift (if length (arrays p.1) =? length (arrays p.2) then Ok tt
            else Err "Batches have different number of arrays, cannot swap between them");
  _ ← zip_arrays swap;
  p ← get;
  put (with_rows p.1 (num_rows p.2), with_rows p.2 (num_rows p.1)).

(** [Batch::clone_row_from_other] *)
Definition clone_row_from_other (row n : nat) : M (Batch * Batch) unit :=
  p ← get;
  _ ← lift (check_num_arrays p.1 p.2);
  _ ← zip_arrays (fun dest src => clone_constant_from dest src row n);
  p ← get;
  put (with_rows p.1 n, p.2).

(** [Batch::set_num_rows] *)
Definition set_num_rows (n : nat) : M Batch unit := b ← get; put (with_rows b n).

(** The loop of [Batch::select] over the columns. *)
Fixpoint select_arrays (sel : list nat) (arrs : list (Array V DT)) : res unit * list (Array V DT) :=
  match arrs with
  | [] => (Ok tt, [])
  | a :: rest =>
      match select a sel with
      | Ok a' => let '(r, rest') := select_arrays sel rest in (r, a' :: rest')
      | Err e => (Err e, arrs)
      | Panic w => (Panic w, arrs)
      end
  end.

(** [Batch::select] *)
Definition batch_select (sel : list nat) : M Batch unit := fun b =>
  match select_arrays sel (arrays b) with
  | (Ok _, arrs) => set_num_rows (length sel) (mkBatch arrs (num_rows b) (cache b))
  | (r, arrs) => (r, mkBatch arrs (num_rows b) (cache b))
  end.

(** [Batch::reset_for_write] with [BufferCache::reset_arrays] *)
Definition reset_for_write : M Batch unit :=
  b ← get;
  match cache b with
  | Some capacity => put (mkBatch ((fun a => reset_array fresh a capacity) <$> arrays b) 0 (cache b))
  | None => fail "No buffer cache configured for batch, cannot reset for write"
  end.

(** [Batch::write_capacity] *)
Definition write_capacity (b : Batch) : res nat :=
  match cache b with
  | Some capacity => Ok capacity
  | None => Err "Batch doesn't have a buffer cache and cannot be written to"
  end.

(** [Batch::append]: the receiver after. *)
Definition append (other : Batch) : M Batch unit :=
  self ← get;
  capacity ← lift (write_capacity self);
  if capacity <? num_rows self + num_rows other then fail "Batch doesn't have sufficient capacity for append"
  else
    let mapping := zip (seq 0 (num_rows other)) (seq (num_rows self) (num_rows other)) in
    let '(r, (arrs, _)) := zip_loop (fun to from => to' ← copy_rows from mapping to; Ok (to', from))
                             (arrays self) (arrays other) in
    _ ← put (mkBatch arrs (num_rows self) (cache self));
    _ ← lift r;
    put (mkBatch arrs (num_rows self + num_rows other) (cache self)).

End Batch.
Arguments Batch : clear implicits.

(** ** The promise of batches to operators *)

(** Batches as operators use them: a schema, rows, and the operations between a
    receiver and another batch.  All laws are about batches of one schema. *)
Class BatchLaws (B R S : Type) := {
  bl_schema : B -> S;
  bl_wf : B -> Prop;
  bl_rows : B -> list R;
  bl_num_rows : B -> nat;
  bl_clone_from_other : M (B * B) unit;
  bl_swap : M (B * B) unit;
  bl_set_num_rows : nat -> M B unit;
  bl_select : list nat -> M B unit;
  bl_num_rows_spec b : bl_num_rows b = length (bl_rows b);
  bl_clone_spec a b :
    bl_wf b -> bl_schema a = bl_schema b ->
    exists a' b', bl_clone_from_other (a, b) = (Ok tt, (a', b')) /\ bl_wf a' /\ bl_wf b'
      /\ bl_schema a' = bl_schema a /\ bl_schema b' = bl_schema b
      /\ bl_rows a' = bl_rows b /\ bl_rows b' = bl_rows b;
  bl_swap_spec a b :
    bl_wf a -> bl_wf b -> bl_schema a = bl_schema b ->
    exists a' b', bl_swap (a, b) = (Ok tt, (a', b')) /\ bl_wf a' /\ bl_wf b'
      /\ bl_schema a' = bl_schema a /\ bl_schema b' = bl_schema b
      /\ bl_rows a' = bl_rows b /\ bl_rows b' = bl_rows a;
  bl_set_num_rows_spec b n :
    bl_wf b -> n <= bl_num_rows b ->
    exists b', bl_set_num_rows n b = (Ok tt, b') /\ bl_wf b' /\ bl_schema b' = bl_schema b
      /\ bl_rows b' = take n (bl_rows b);
  bl_select_spec b sel :
    bl_wf b -> Forall (fun i => i < bl_num_rows b) sel ->
    exists b', bl_select sel b = (Ok tt, b') /\ bl_wf b' /\ bl_schema b' = bl_schema b
      /\ Forall2 (fun i r => bl_rows b !! i = Some r) sel (bl_rows b');
}.

Section BatchTheory.
Context {V DT : Type} `{EqDecision DT}.
Implicit Types b : Batch V DT.

Definition schema b : list DT := datatype <$> arrays b.

Definition batch_wf b : Prop :=
  Forall (fun a => array_wf a /\ num_rows b <= logical_len (data a)) (arrays b).

(** A row of a batch: one value per column. *)
Definition row_of b (i : nat) : list (option V) := (fun a => row a i) <$> arrays b.

Definition batch_rows b : list (list (option V)) := row_of b <$> seq 0 (num_rows b).

Lemma length_batch_rows b : length (batch_rows b) = num_rows b.
Proof. unfold batch_rows. by rewrite length_fmap, length_seq. Qed.

Lemma lookup_batch_rows b i : i < num_rows b -> batch_rows b !! i = Some (row_of b i).
Proof. intros Hi. unfold batch_rows. by rewrite list_lookup_fmap, lookup_seq_lt. Qed.

(** Columns with equal rows give equal batch rows. *)
Lemma batch_rows_ext b b' :
  num_rows b' = num_rows b ->
  Forall2 (fun a a' => forall i, i < num_rows b -> row a' i = row a i) (arrays b) (arrays b') ->
  batch_rows b' = batch_rows b.
Proof.
  intros Hn Hc. unfold batch_rows. rewrite Hn. apply list_fmap_ext. intros k i [-> Hi]%lookup_seq. simpl.
  unfold row_of. induction Hc as [|a a' l l' Ha _ IH]; [done|]. rewrite !fmap_cons, IH. by rewrite Ha.
Qed.

Lemma row_of_rows (a a' : Array V DT) n :
  rows a' = rows a -> n <= logical_len (data a) -> forall i, i < n -> row a' i = row a i.
Proof.
  intros Hr Hn i Hi. assert (logical_len (data a') = logical_len (data a)) as Hl by (rewrite <-!length_rows; by rewrite Hr).
  rewrite <-!lookup_total_rows by lia. by rewrite Hr.
Qed.

(** The zip loop with a column operation that always succeeds: how the columns
    after relate to the columns before. *)
Lemma zip_loop_spec f (R1 R2 R3 R4 : Array V DT -> Array V DT -> Prop) self other :
  Forall2 (fun a o => exists a' o', f a o = Ok (a', o') /\ R1 a a' /\ R2 o a' /\ R3 o o' /\ R4 a o') self other ->
  exists self' other', zip_loop f self other = (Ok tt, (self', other'))
    /\ Forall2 R1 self self' /\ Forall2 R2 other self' /\ Forall2 R3 other other' /\ Forall2 R4 self other'.
Proof.
  induction 1 as [|a o self other (a' & o' & Hf & H1 & H2 & H3 & H4) _ (s' & t' & IH & F1 & F2 & F3 & F4)]; simpl.
  { exists [], []. by split_and!. }
  rewrite Hf, IH. exists (a' :: s'), (o' :: t'). split_and!; by (done || constructor).
Qed.

Lemma schema_Forall2 b1 b2 :
  schema b1 = schema b2 -> Forall2 (fun a o => datatype a = datatype o) (arrays b1) (arrays b2).
Proof.
  unfold schema. intros Hs%list_eq_Forall2. by rewrite Forall2_fmap in Hs.
Qed.

Lemma schema_ext b1 b2 :
  Forall2 (fun a a' => datatype a' = datatype a) (arrays b1) (arrays b2) -> schema b2 = schema b1.
Proof. unfold schema. induction 1 as [|a a' l l' Ha _ IH]; [done|]. rewrite !fmap_cons. by rewrite Ha, IH. Qed.

(** Columns that were replaced by well-formed columns with the same rows. *)
Lemma batch_copy b b' n :
  batch_wf b -> num_rows b' = num_rows b -> num_rows b = n ->
  Forall2 (fun a a' => array_wf a' /\ rows a' = rows a) (arrays b) (arrays b') ->
  batch_wf b' /\ batch_rows b' = batch_rows b.
Proof.
  intros Hwf Hn <- Hc. split.
  - unfold batch_wf in *. rewrite Hn. revert Hwf. generalize (num_rows b). intros n.
    induction Hc as [|a a' l l' [Ha Hr] _ IH]; intros Hwf; [constructor|].
    apply Forall_cons in Hwf as [[_ Hl] Hwf]. constructor; [|by apply IH].
    split; [done|]. by rewrite <-length_rows, Hr, length_rows.
  - apply batch_rows_ext; [done|]. unfold batch_wf in Hwf. revert Hwf. generalize (num_rows b). intros n.
    induction Hc as [|a a' l l' [Ha Hr] _ IH]; intros Hwf; constructor.
    + apply Forall_cons in Hwf as [[_ Hl] _]. by apply row_of_rows.
    + apply IH. by apply Forall_cons in Hwf as [_ ?].
Qed.

Lemma Forall2_with_l {A B} (P : A -> Prop) (R : A -> B -> Prop) l k :
  Forall P l -> Forall2 R l k -> Forall2 (fun x y => P x /\ R x y) l k.
Proof. intros HP. induction 1; constructor; apply Forall_cons in HP as [? ?]; auto. Qed.

Lemma batch_clone_rows a b :
  batch_wf b -> schema a = schema b ->
  exists a' b', batch_clone_from_other (a, b) = (Ok tt, (a', b')) /\ batch_wf a' /\ batch_wf b'
    /\ schema a' = schema a /\ schema b' = schema b
    /\ batch_rows a' = batch_rows b /\ batch_rows b' = batch_rows b.
Proof.
  intros Hwf Hs. pose proof (schema_Forall2 a b Hs) as Hdt.
  assert (length (arrays a) = length (arrays b)) as Hlen by (by eapply Forall2_length).
  unfold batch_clone_from_other, get, put, lift, mbind, M_bind, check_num_arrays. cbn [fst snd].
  rewrite (proj2 (Nat.eqb_eq _ _) Hlen). unfold zip_arrays.
  destruct (zip_loop_spec clone_from_other (fun x x' => datatype x' = datatype x)
    (fun o x' => array_wf x' /\ rows x' = rows o)
    (fun o o' => datatype o' = datatype o /\ array_wf o' /\ rows o' = rows o) (fun _ _ => True)
    (arrays a) (arrays b)) as (s' & t' & -> & F1 & F2 & F3 & _).
  { unfold batch_wf in Hwf. apply Forall2_flip in Hdt. apply Forall2_flip.
    eapply Forall2_impl; [exact (Forall2_with_l _ _ _ _ Hwf Hdt)|]. intros o x [[Hw _] Hd].
    destruct (clone_from_other_rows x o Hw Hd) as (x' & o' & ? & ? & ? & ? & ? & ? & ?). eauto 15. }
  do 2 eexists. split; [done|]. cbn [num_rows fst snd with_rows arrays].
  destruct (batch_copy b (mkBatch s' (num_rows b) (cache a)) (num_rows b)) as [Hwa Hra]; [done..|].
  destruct (batch_copy b (mkBatch t' (num_rows b) (cache b)) (num_rows b)) as [Hwb Hrb]; [done..|by eapply Forall2_impl; [exact F3|naive_solver]|].
  split_and!; try done; apply schema_ext; [done|]. by eapply Forall2_impl; [exact F3|naive_solver].
Qed.

Lemma batch_swap_rows a b :
  batch_wf a -> batch_wf b -> schema a = schema b ->
  exists a' b', batch_swap (a, b) = (Ok tt, (a', b')) /\ batch_wf a' /\ batch_wf b'
    /\ schema a' = schema a /\ schema b' = schema b
    /\ batch_rows a' = batch_rows b /\ batch_rows b' = batch_rows a.
Proof.
  intros Hwa Hwb Hs. pose proof (schema_Forall2 a b Hs) as Hdt.
  assert (length (arrays a) = length (arrays b)) as Hlen by (by eapply Forall2_length).
  unfold batch_swap, get, put, lift, mbind, M_bind. cbn [fst snd].
  rewrite (proj2 (Nat.eqb_eq _ _) Hlen). unfold zip_arrays.
  assert (zip_loop swap (arrays a) (arrays b) = (Ok tt, (arrays b, arrays a))) as ->.
  { clear Hwa Hwb Hs Hlen. revert Hdt. generalize (arrays a), (arrays b). intros l k Hdt.
    induction Hdt as [|x o l k Hd _ IH]; [done|]. simpl.
    assert (swap x o = Ok (o, x)) as -> by (unfold swap; by rewrite decide_True). by rewrite IH. }
  by do 2 eexists.
Qed.

Lemma select_arrays_rows sel (arrs : list (Array V DT)) n :
  Forall (fun i => i < n) sel -> Forall (fun a => array_wf a /\ n <= logical_len (data a)) arrs ->
  exists arrs', select_arrays sel arrs = (Ok tt, arrs')
    /\ Forall2 (fun a a' => array_wf a' /\ datatype a' = datatype a
         /\ rows a' = (fun i => rows a !!! i) <$> sel) arrs arrs'.
Proof.
  intros Hsel. induction 1 as [|a arrs [Hw Hn] _ (arrs' & IH & HF)]; [by exists []|]. simpl.
  destruct (select_rows a sel Hw) as (a' & -> & Hw' & Hd & Hr); [eapply Forall_impl; [exact Hsel|simpl; lia]|].
  rewrite IH. exists (a' :: arrs'). split; [done|]. by constructor.
Qed.

Lemma batch_select_rows b sel :
  batch_wf b -> Forall (fun i => i < num_rows b) sel ->
  exists b', batch_select sel b = (Ok tt, b') /\ batch_wf b' /\ schema b' = schema b
    /\ Forall2 (fun i r => batch_rows b !! i = Some r) sel (batch_rows b').
Proof.
  intros Hwf Hsel. unfold batch_select.
  destruct (select_arrays_rows sel (arrays b) (num_rows b) Hsel Hwf) as (arrs' & -> & HF).
  eexists. split; [done|]. simpl. split; [|split].
  - unfold batch_wf. simpl. clear Hwf. induction HF as [|a a' l l' (Hw & _ & Hr) _ IH]; constructor; [|done].
    split; [done|]. by rewrite <-length_rows, Hr, length_fmap.
  - apply schema_ext. simpl. eapply Forall2_impl; [exact HF|naive_solver].
  - apply Forall2_same_length_lookup. rewrite length_batch_rows. split; [done|]. intros k i r Hk Hr.
    assert (k < length sel) as Hkl by (by eapply lookup_lt_Some).
    rewrite lookup_batch_rows in Hr by done. simplify_eq.
    assert (i < num_rows b) as Hi by (by eapply selection_in_range). rewrite lookup_batch_rows by done. f_equal.
    unfold row_of. simpl. unfold batch_wf in Hwf. revert Hwf Hi. clear Hsel. generalize (num_rows b). intros n Hwf Hi.
    induction HF as [|a a' l l' (Hw & _ & Hra) _ IH]; [done|]. apply Forall_cons in Hwf as [[Hwa Hn] Hwf].
    rewrite !fmap_cons. f_equal; [|by apply IH].
    assert (k < logical_len (data a')) as Hka by (by rewrite <-length_rows, Hra, length_fmap).
    pose proof (lookup_rows a' k Hka) as Hlk. rewrite Hra, list_lookup_fmap, Hk in Hlk. simpl in Hlk.
    rewrite lookup_total_rows in Hlk by lia. by simplify_eq.
Qed.

Lemma batch_set_num_rows_rows b n :
  batch_wf b -> n <= num_rows b ->
  exists b', set_num_rows n b = (Ok tt, b') /\ batch_wf b' /\ schema b' = schema b
    /\ batch_rows b' = take n (batch_rows b).
Proof.
  intros Hwf Hn. eexists. split; [done|]. simpl. split_and!.
  - unfold batch_wf in *. eapply Forall_impl; [exact Hwf|]. simpl. intros a [? ?]. split; [done|lia].
  - done.
  - unfold batch_rows. simpl. by rewrite <-fmap_take, take_seq, Nat.min_l.
Qed.

(** Batches satisfy what operators rely on. *)
#[export] Instance batch_laws : BatchLaws (Batch V DT) (list (option V)) (list DT) := {|
  bl_schema := schema;
  bl_wf := batch_wf;
  bl_rows := batch_rows;
  bl_num_rows := num_rows;
  bl_clone_from_other := batch_clone_from_other;
  bl_swap := batch_swap;
  bl_set_num_rows := set_num_rows;
  bl_select := batch_select;
  bl_num_rows_spec b := eq_sym (length_batch_rows b);
  bl_clone_spec := batch_clone_rows;
  bl_swap_spec := batch_swap_rows;
  bl_set_num_rows_spec := batch_set_num_rows_rows;
  bl_select_spec := batch_select_rows;
|}.

End BatchTheory.

(** ** Appending *)

Section Append.
Context {V DT : Type} `{EqDecision DT}.

(** A column that can be appended to from row [n] on: a writable buffer of the
    batch's capacity with no NULL written past [n]. *)
Definition appendable (cap n : nat) (a : Array V DT) : Prop :=
  array_wf a /\ (exists buf, data a = Leaf Unique buf /\ length buf = cap)
  /\ forall j, n <= j < cap -> valid_list (validity a) !! j = Some true.

Definition append_ready (cap : nat) (b : Batch V DT) : Prop :=
  cache b = Some cap /\ num_rows b <= cap /\ Forall (appendable cap (num_rows b)) (arrays b).

Lemma mapping_range n k s t :
  (s, t) ∈ zip (seq 0 n) (seq k n) <-> s < n /\ t = k + s.
Proof.
  rewrite list_elem_of_lookup. split.
  - intros [i Hi]. apply lookup_zip_Some in Hi as [[-> Hi]%lookup_seq [-> _]%lookup_seq]. simpl. lia.
  - intros [Hs ->]. exists s. apply lookup_zip_Some. by rewrite !lookup_seq_lt.
Qed.

Lemma mapping_targets n k : (zip (seq 0 n) (seq k n)).*2 = seq k n.
Proof. apply snd_zip. by rewrite !length_seq. Qed.

Lemma valid_of_row (a : Array V DT) j :
  is_Some (row a j) -> valid_list (validity a) !! j = Some true.
Proof. unfold row. destruct (valid_list (validity a) !! j) as [[]|]; intros [? ?]; done. Qed.

Lemma row_of_valid (a : Array V DT) j :
  array_wf a -> j < logical_len (data a) -> valid_list (validity a) !! j = Some true -> is_Some (row a j).
Proof.
  intros Hwf Hj Hv. unfold row. rewrite Hv.
  destruct (read_wf (data a) j) as (? & v & _ & _ & ->); [apply Hwf|done|by eexists].
Qed.

Lemma append_column cap k n (src dest : Array V DT) :
  array_wf src -> n <= logical_len (data src) -> appendable cap k dest -> k + n <= cap ->
  exists dest', copy_rows src (zip (seq 0 n) (seq k n)) dest = Ok dest' /\ appendable cap (k + n) dest'
    /\ datatype dest' = datatype dest
    /\ (forall i, i < k -> row dest' i = row dest i) /\ (forall i, i < n -> row dest' (k + i) = row src i).
Proof.
  intros Hws Hn (Hwd & (buf & Hd & Hlen) & Hvalid) Hcap.
  set (m := zip (seq 0 n) (seq k n)).
  assert (Forall (fun p => p.1 < logical_len (data src) /\ p.2 < length buf
            /\ valid_list (validity dest) !! p.2 = Some true) m) as Hm.
  { apply Forall_forall. intros [s t] [Hs ->]%mapping_range. simpl. split_and!; [lia|lia|apply Hvalid; lia]. }
  assert (NoDup m.*2) as Hnd by (unfold m; rewrite mapping_targets; apply NoDup_seq).
  destruct (copy_rows_spec src m dest buf Hws Hwd Hd Hm Hnd) as (dest' & buf' & Hc & Hw' & Hd' & Hl' & Hdt & Hr).
  assert (forall i, i < cap -> ~ (k <= i < k + n) -> row dest' i = row dest i) as Hmiss.
  { intros i Hi Hk.
    rewrite <-(lookup_total_rows dest') by (rewrite Hd'; simpl; lia).
    rewrite <-(lookup_total_rows dest) by (rewrite Hd; simpl; lia).
    rewrite !list_lookup_total_alt, Hr. f_equal. apply write_rows_miss.
    unfold m. rewrite mapping_targets, elem_of_seq. lia. }
  exists dest'. split; [done|]. split_and!; [split_and!; [done|by exists buf'; split; [|lia]|]|done|..].
  - intros j Hj. apply valid_of_row. rewrite Hmiss by lia.
    apply row_of_valid; [done|rewrite Hd; simpl; lia|apply Hvalid; lia].
  - intros i Hi. apply Hmiss; lia.
  - intros i Hi. pose proof (lookup_rows dest' (k + i)) as Hlk. rewrite Hr in Hlk.
    rewrite (write_rows_hit _ _ _ i (k + i)), lookup_total_rows in Hlk; [|lia|..].
    + assert (k + i < logical_len (data dest')) as Hki by (rewrite Hd'; simpl; lia). specialize (Hlk Hki). by simplify_eq.
    + eapply Forall_impl; [exact Hm|]. rewrite length_rows, Hd. naive_solver.
    + done.
    + by apply mapping_range.
Qed.

(** One append, column by column. *)
Lemma append_columns cap k n (self other : list (Array V DT)) :
  Forall2 (fun a o => appendable cap k a /\ array_wf o /\ n <= logical_len (data o)) self other -> k + n <= cap ->
  exists self', zip_loop (fun to from => to' ← copy_rows from (zip (seq 0 n) (seq k n)) to; Ok (to', from)) self other
      = (Ok tt, (self', other))
    /\ Forall (appendable cap (k + n)) self' /\ datatype <$> self' = datatype <$> self
    /\ (forall i, i < k -> (fun a => row a i) <$> self' = (fun a => row a i) <$> self)
    /\ (forall i, i < n -> (fun a => row a (k + i)) <$> self' = (fun a => row a i) <$> other).
Proof.
  intros Hc Hcap. induction Hc as [|a o self other (Ha & Ho & Hn) _ (self' & IH & Happ & Hdt & Hlow & Hhigh)].
  { by exists []. }
  destruct (append_column cap k n o a Ho Hn Ha Hcap) as (a' & Hcopy & Ha' & Hd & Hl & Hh).
  cbn [zip_loop]. rewrite Hcopy. unfold mbind, res_bind in IH |- *. rewrite IH. exists (a' :: self').
  split; [done|]. rewrite !fmap_cons. split_and!; [by constructor|by rewrite Hd, Hdt|..]; intros i Hi; rewrite !fmap_cons.
  - by rewrite Hl, Hlow.
  - by rewrite Hh, Hhigh.
Qed.

Lemma append_rows cap (self other : Batch V DT) :
  append_ready cap self -> batch_wf other -> schema self = schema other ->
  num_rows self + num_rows other <= cap ->
  exists self', append other self = (Ok tt, self') /\ append_ready cap self' /\ schema self' = schema self
    /\ batch_rows self' = batch_rows self ++ batch_rows other.
Proof.
  intros (Hcache & Hle & Happ) Hwo Hs Hcap.
  unfold append, get, put, lift, mbind, M_bind, write_capacity. rewrite Hcache.
  destruct (Nat.ltb_spec cap (num_rows self + num_rows other)); [lia|].
  destruct (append_columns cap (num_rows self) (num_rows other) (arrays self) (arrays other)) as
    (self' & Heq & Happ' & Hdt & Hlow & Hhigh); [|done|].
  { pose proof (schema_Forall2 self other Hs) as Hd. unfold batch_wf in Hwo.
    apply Forall2_same_length_lookup. split; [by eapply Forall2_length|]. intros i a o Hi Ho.
    split; [by eapply Forall_lookup_1 in Happ|]. by eapply Forall_lookup_1 in Hwo. }
  unfold mbind, res_bind in Heq. unfold mbind, res_bind. rewrite Heq.
  eexists. split; [done|]. split; [by split_and!|]. split; [done|].
  unfold batch_rows. simpl. rewrite seq_app, fmap_app. f_equal.
  - apply list_fmap_ext. intros i x [-> Hi]%lookup_seq. by apply Hlow.
  - replace (seq (0 + num_rows self) (num_rows other)) with (Nat.add (num_rows self) <$> seq 0 (num_rows other))
      by (rewrite fmap_add_seq; f_equal; lia).
    rewrite <-list_fmap_compose.
    apply list_fmap_ext. intros i x [-> Hi]%lookup_seq. by apply Hhigh.
Qed.

(** A sequence of appends. *)
Fixpoint append_all (others : list (Batch V DT)) : M (Batch V DT) unit :=
  match others with
  | [] => mret tt
  | other :: rest => _ ← append other; append_all rest
  end.

Lemma append_all_rows cap others (self : Batch V DT) :
  append_ready cap self -> Forall (fun o => batch_wf o /\ schema o = schema self) others ->
  num_rows self + sum_list (num_rows <$> others) <= cap ->
  exists self', append_all others self = (Ok tt, self') /\ append_ready cap self' /\ schema self' = schema self
    /\ batch_rows self' = batch_rows self ++ concat (batch_rows <$> others).
Proof.
  revert self. induction others as [|o others IH]; intros self Hready Ho Hcap.
  { exists self. by rewrite app_nil_r. }
  apply Forall_cons in Ho as [[Hwo Hso] Ho]. rewrite fmap_cons in Hcap.
  change (sum_list (num_rows o :: (num_rows <$> others))) with (num_rows o + sum_list (num_rows <$> others)) in Hcap.
  destruct (append_rows cap self o) as (self1 & Happ & Hready1 & Hs1 & Hr1); [done..|lia|].
  destruct (IH self1) as (self' & Hall & Hready' & Hs' & Hr'); [done|by rewrite Hs1|..].
  { pose proof (f_equal length Hr1) as Hlen. rewrite length_app, !length_batch_rows in Hlen. lia. }
  exists self'. cbn [append_all]. unfold mbind, M_bind. rewrite Happ. split; [done|]. split; [done|].
  split; [congruence|]. by rewrite Hr', Hr1, fmap_cons, concat_cons, <-app_assoc.
Qed.

End Append.

(** ** Properties of batches *)

Section Properties.
Context {V DT : Type} `{EqDecision DT}.
Variable fresh : DT -> nat -> list V.
Hypothesis fresh_capacity : forall dt capacity, length (fresh dt capacity) = capacity.

Lemma new_batch_ready dts cap : append_ready cap (new_batch fresh dts cap).
Proof.
  split; [done|]. split; [simpl; lia|]. apply Forall_fmap, Forall_true. intros dt.
  split; [by apply new_array_wf|]. split; [by eexists|]. intros j Hj. simpl. apply lookup_replicate. lia.
Qed.

Lemma reset_ready cap (b b' : Batch V DT) :
  cache b = Some cap -> reset_for_write fresh b = (Ok tt, b') ->
  append_ready cap b' /\ schema b' = schema b /\ num_rows b' = 0.
Proof.
  intros Hc. unfold reset_for_write, get, put, mbind, M_bind. rewrite Hc. intros [= <-]. split; [|split; [|done]].
  - split; [done|]. split; [simpl; lia|]. apply Forall_fmap, Forall_true. intros a.
    split; [split; simpl; [done|done|by rewrite fresh_capacity|done]|]. split; [by eexists|].
    intros j Hj. simpl. apply lookup_replicate. lia.
  - unfold schema. simpl. by rewrite <-list_fmap_compose.
Qed.

(** Accumulating batches: appending a sequence of batches of the same
    schema that fits the capacity into a batch that was reset for writing
    succeeds, and the rows are the concatenation of the appended batches' rows,
    whatever formats their columns have and whatever the batch held before. *)
Theorem append_concat (b : Batch V DT) cap others :
  cache b = Some cap -> Forall (fun o => batch_wf o /\ schema o = schema b) others ->
  sum_list (num_rows <$> others) <= cap ->
  exists b0 b', reset_for_write fresh b = (Ok tt, b0) /\ append_all others b0 = (Ok tt, b')
    /\ batch_rows b' = concat (batch_rows <$> others).
Proof.
  intros Hc Ho Hcap. destruct (reset_for_write fresh b) as [r b0] eqn:Hreset.
  assert (r = Ok tt) as -> by (unfold reset_for_write, get, put, mbind, M_bind in Hreset; rewrite Hc in Hreset; by injection Hreset).
  destruct (reset_ready cap b b0 Hc Hreset) as (Hready & Hs & Hn).
  destruct (append_all_rows cap others b0) as (b' & Hall & _ & _ & Hrows); [done|by rewrite Hs|by rewrite Hn|].
  exists b0, b'. split; [done|]. split; [done|]. rewrite Hrows. unfold batch_rows at 1. by rewrite Hn.
Qed.

(** [append] never exceeds the capacity: it is refused, with the receiver
    unchanged, when the batch has no write cache or when the rows do not fit. *)
Theorem append_refused (b other : Batch V DT) :
  (cache b = None -> append other b = (Err "Batch doesn't have a buffer cache and cannot be written to", b))
  /\ (forall cap, cache b = Some cap -> cap < num_rows b + num_rows other ->
      append other b = (Err "Batch doesn't have sufficient capacity for append", b)).
Proof.
  unfold append, get, lift, mbind, M_bind, write_capacity. split; [by intros ->|].
  intros cap -> Hcap. by rewrite (proj2 (Nat.ltb_lt _ _) Hcap).
Qed.

End Properties.

Definition example_batches : list (Batch Z nat) :=
  [mkBatch [example_dictionary] 3 None;
   mkBatch [mkArray 0 (Validity.AllValid 2) (Leaf Shared [8; 9]%Z)] 2 None].

Lemma example_batches_wf : Forall (fun o => batch_wf o /\ schema o = [0]) example_batches.
Proof.
  constructor; [|constructor; [|constructor]]; (split; [|done]); (constructor; [|constructor]);
    (split; [|apply Nat.leb_le; reflexivity]); [exact example_dictionary_wf|by split].
Qed.

(** Appending a dictionary and a flat batch of one column. *)
Lemma append_concat_witness :
  exists b0 b', reset_for_write (fun _ cap => replicate cap 0%Z) (new_batch (fun _ cap => replicate cap 0%Z) [0] 6) = (Ok tt, b0)
    /\ append_all example_batches b0 = (Ok tt, b')
    /\ batch_rows b' = [[Some 30]; [Some 10]; [None]; [Some 8]; [Some 9]]%Z.
Proof.
  apply (append_concat (fun _ cap => replicate cap 0%Z) (fun _ cap => length_replicate cap 0%Z)
    (new_batch (fun _ cap => replicate cap 0%Z) [0] 6) 6 example_batches eq_refl example_batches_wf).
  apply Nat.leb_le. reflexivity.
Defined.

(** Appending two rows to a full batch, and to one without a cache. *)
Lemma append_refused_witness :
  append (mkBatch [example_dictionary] 3 None) (mkBatch [example_dictionary] 4 (Some 6))
    = (Err "Batch doesn't have sufficient capacity for append", mkBatch [example_dictionary] 4 (Some 6)).
Proof.
  apply (proj2 (append_refused (mkBatch [example_dictionary] 4 (Some 6)) (mkBatch [example_dictionary] 3 None)) 6);
    [reflexivity|apply Nat.ltb_lt; reflexivity].
Defined.
