(* ===== verification/ExprEval.v ===== *)
(** * Expression evaluation

    Models [expr/physical]: the evaluator ([evaluator.rs]), every kind of
    physical expression ([column_expr.rs], [literal_expr.rs], [cast_expr.rs],
    [conjunction_expr.rs], [scalar_function_expr.rs], [case_expr.rs]), the
    short-circuiting [selection_evaluator.rs], and the AND and OR functions of
    [functions/scalar/builtin/boolean.rs].  Scalar and cast functions are
    trait objects: a record of what the evaluator calls.  The intermediate
    buffers of an expression state are reset before each use, so they are
    modelled as fresh arrays of the evaluator's batch size. *)
From S2P Require Import Prelude Arrays ArrayData Executors Batch.

Section Expr.
Context {V DT : Type} `{EqDecision DT}.
Variable fresh : DT -> nat -> list V.
Variable as_bool : V -> bool.
Variable bool_type : DT.
Variable batch_size : nat.

(** [PlannedScalarFunction]: its return type and [call_execute]. *)
Record ScalarFunction : Type := mkScalarFunction {
  return_type : DT;
  call_execute : Batch V DT -> Array V DT -> res (Array V DT);
}.

(** [PlannedCastFunction]: [call_cast] over a child array and a selection. *)
Record CastFunction : Type := mkCastFunction {
  call_cast : Array V DT -> list nat -> Array V DT -> res (Array V DT);
}.

(** [ConjunctionOperator] *)
Inductive ConjunctionOperator : Type := And | Or.

(** [PhysicalScalarExpression] *)
Inductive PhysicalScalarExpression : Type :=
| CaseE (cases : list (PhysicalScalarExpression * PhysicalScalarExpression))
    (else_expr : PhysicalScalarExpression) (dt : DT)
| CastE (to : DT) (expr : PhysicalScalarExpression) (cast_function : CastFunction)
| ColumnE (idx : nat) (dt : DT)
| ConjunctionE (op : ConjunctionOperator) (function : ScalarFunction) (inputs : list PhysicalScalarExpression)
| LiteralE (literal : option V) (dt : DT)
| ScalarFunctionE (function : ScalarFunction) (inputs : list PhysicalScalarExpression).

(** [PhysicalScalarExpression::datatype] *)
Definition expr_datatype (e : PhysicalScalarExpression) : DT :=
  match e with
  | CaseE _ _ dt => dt
  | CastE to _ _ => to
  | ColumnE _ dt => dt
  | ConjunctionE _ f _ => return_type f
  | LiteralE _ dt => dt
  | ScalarFunctionE f _ => return_type f
  end.

(** [Selection::is_linear] *)
Definition is_linear (s : Selection.t) : bool :=
  match s with Selection.Linear _ _ => true | _ => false end.

(** [PhysicalColumnExpr::eval]: the input (whose column becomes shared) and the
    output array after. *)
Definition eval_column (idx : nat) (input : Batch V DT) (sel : Selection.t) (output : Array V DT) :
    res (Batch V DT * Array V DT) :=
  col ← index (arrays input) idx;
  p ← clone_from_other output col;
  let input' := mkBatch (<[idx := p.2]> (arrays input)) (num_rows input) (cache input) in
  out ← (if negb (is_linear sel) || negb (Selection.len sel =? num_rows input)
         then l ← Selection.to_list sel; select p.1 l
         else Ok p.1);
  Ok (input', out).

(** [PhysicalLiteralExpr::eval] *)
Definition eval_literal (literal : option V) (sel : Selection.t) (output : Array V DT) : res (Array V DT) :=
  match set_value 0 literal output with
  | (Ok _, out) => select out (replicate (Selection.len sel) 0)
  | (Err e, _) => Err e
  | (Panic w, _) => Panic w
  end.

(** A buffer of an expression state after [reset_for_write]. *)
Definition state_array (dt : DT) : Array V DT := new_array fresh dt batch_size.

(** [ExpressionEvaluator::eval_expression] with the [eval] of each expression:
    the input and the output array after. *)
Fixpoint eval_expression (expr : PhysicalScalarExpression) (input : Batch V DT) (sel : Selection.t)
    (output : Array V DT) {struct expr} : res (Batch V DT * Array V DT) :=
  let eval_children :=
    (fix eval_children (exprs : list PhysicalScalarExpression) (input : Batch V DT) :
        res (Batch V DT * list (Array V DT)) :=
       match exprs with
       | [] => Ok (input, [])
       | e :: rest =>
           r ← eval_expression e input sel (state_array (expr_datatype e));
           r' ← eval_children rest r.1;
           Ok (r'.1, r.2 :: r'.2)
       end) in
  let eval_function (function : ScalarFunction) (inputs : list PhysicalScalarExpression) :=
    r ← eval_children inputs input;
    out ← call_execute function (mkBatch r.2 (Selection.len sel) (Some batch_size)) output;
    Ok (r.1, out) in
  match expr with
  | ColumnE idx _ => eval_column idx input sel output
  | LiteralE literal _ => out ← eval_literal literal sel output; Ok (input, out)
  | CastE _ e cast_function =>
      r ← eval_expression e input sel (state_array (expr_datatype e));
      l ← Selection.to_list (Selection.Linear 0 (Selection.len sel));
      out ← call_cast cast_function r.2 l output;
      Ok (r.1, out)
  | ConjunctionE _ function inputs => eval_function function inputs
  | ScalarFunctionE function inputs => eval_function function inputs
  | CaseE cases else_expr _ =>
      let eval_else (curr_selection : list nat) (input : Batch V DT) (output : Array V DT) :=
        match curr_selection with
        | [] => Ok (input, output)
        | _ =>
            r ← eval_expression else_expr input (Selection.Slice curr_selection) (state_array (expr_datatype else_expr));
            out ← copy_rows r.2 (zip (seq 0 (length curr_selection)) curr_selection) output;
            Ok (r.1, out)
        end in
      let eval_cases :=
        (fix eval_cases (cases : list (PhysicalScalarExpression * PhysicalScalarExpression))
             (curr_selection : list nat) (input : Batch V DT) (output : Array V DT) :
             res (Batch V DT * Array V DT) :=
           match cases with
           | [] => eval_else curr_selection input output
           | (when, then_) :: rest =>
               match curr_selection with
               | [] => eval_else curr_selection input output
               | _ =>
                   w ← eval_expression when input (Selection.Slice curr_selection) (state_array bool_type);
                   s ← unary_select as_bool w.2 (seq 0 (length curr_selection));
                   then_selection ← collect (index curr_selection) s.1;
                   fallthrough_selection ← collect (index curr_selection) s.2;
                   match then_selection with
                   | [] => eval_cases rest curr_selection w.1 output
                   | _ =>
                       t ← eval_expression then_ w.1 (Selection.Slice then_selection)
                             (state_array (expr_datatype else_expr));
                       out ← copy_rows t.2 (zip (seq 0 (length then_selection)) then_selection) output;
                       eval_cases rest fallthrough_selection t.1 out
                   end
               end
           end) in
      curr_selection ← Selection.to_list sel;
      eval_cases cases curr_selection input output
  end.

(** [ExpressionEvaluator::eval_batch]: the loop over the expressions and output
    columns; an output column is missing when there are fewer columns than
    expressions. *)
Fixpoint eval_batch_loop (expressions : list PhysicalScalarExpression) (input : Batch V DT) (sel : Selection.t)
    (outputs : list (Array V DT)) : res (Batch V DT * list (Array V DT)) :=
  match expressions with
  | [] => Ok (input, outputs)
  | e :: rest =>
      match outputs with
      | [] => Panic "index out of bounds"
      | output :: outputs' =>
          r ← eval_expression e input sel output;
          r' ← eval_batch_loop rest r.1 sel outputs';
          Ok (r'.1, r.2 :: r'.2)
      end
  end.

Definition eval_batch (expressions : list PhysicalScalarExpression) (input : Batch V DT) (sel : Selection.t)
    (output : Batch V DT) : res (Batch V DT * Batch V DT) :=
  match reset_for_write fresh output with
  | (Ok _, output) =>
      r ← eval_batch_loop expressions input sel (arrays output);
      Ok (r.1, mkBatch r.2 (Selection.len sel) (cache output))
  | (Err e, _) => Err e
  | (Panic w, _) => Panic w
  end.

(** ** [SelectionEvaluator::select] *)

(** The AND branch: each conjunct is evaluated on the rows that are left. *)
Fixpoint select_conjuncts (exprs : list PhysicalScalarExpression) (input : Batch V DT) (selection : list nat) :
    res (Batch V DT * list nat) :=
  match exprs with
  | [] => Ok (input, selection)
  | expr :: rest =>
      r ← eval_expression expr input (Selection.Slice selection) (state_array bool_type);
      s ← unary_select as_bool r.2 (seq 0 (length selection));
      selection' ← collect (index selection) s.1;
      match selection' with
      | [] => Ok (r.1, [])
      | _ => select_conjuncts rest r.1 selection'
      end
  end.

(** The input after, and the selected rows. *)
Definition evaluator_select (predicate : PhysicalScalarExpression) (input : Batch V DT) :
    res (Batch V DT * list nat) :=
  match predicate with
  | ConjunctionE And _ inputs => select_conjuncts inputs input (seq 0 (num_rows input))
  | _ =>
      r ← eval_batch [predicate] input (Selection.Linear 0 (num_rows input)) (new_batch fresh [bool_type] batch_size);
      a ← index (arrays r.2) 0;
      s ← unary_select as_bool a (seq 0 (num_rows input));
      Ok (r.1, s.1)
  end.

(** ** [PhysicalFilter::poll_execute] ([operators/filter.rs]) *)

Definition filter_poll_execute (predicate : PhysicalScalarExpression) (input output : Batch V DT) :
    res (Batch V DT * Batch V DT) :=
  r ← evaluator_select predicate input;
  match batch_clone_from_other (output, r.1) with
  | (Ok _, (output, input)) =>
      if negb (length r.2 =? num_rows output) then
        match batch_select r.2 output with
        | (Ok _, output) => Ok (input, output)
        | (Err e, _) => Err e
        | (Panic w, _) => Panic w
        end
      else Ok (input, output)
  | (Err e, _) => Err e
  | (Panic w, _) => Panic w
  end.

(** [PhysicalProject::poll_execute] ([operators/project.rs]) *)
Definition project_poll_execute (projections : list PhysicalScalarExpression) (input output : Batch V DT) :
    res (Batch V DT * Batch V DT) :=
  eval_batch projections input (Selection.Linear 0 (num_rows input)) output.

End Expr.

(** ** Row semantics of expressions *)

Section Semantics.
Context {V DT : Type} `{EqDecision DT}.
Variable fresh : DT -> nat -> list V.
Hypothesis fresh_capacity : forall dt capacity, length (fresh dt capacity) = capacity.
Variable as_bool : V -> bool.
Variable bool_type : DT.
Variable batch_size : nat.
Abbreviation expr := (@PhysicalScalarExpression V DT).

(** What a function computes on one row, and a cast on one value. *)
Variable fsem : @ScalarFunction V DT -> list (option V) -> option V.
Variable csem : @CastFunction V DT -> option V -> option V.

Definition is_true_row (x : option V) : bool :=
  match x with Some v => as_bool v | None => false end.

(** The value of an expression on a row. *)
Fixpoint sem (e : expr) (r : list (option V)) : option V :=
  match e with
  | ColumnE idx _ => default None (r !! idx)
  | LiteralE literal _ => literal
  | CastE _ e c => csem c (sem e r)
  | ConjunctionE _ f inputs => fsem f (map (fun e => sem e r) inputs)
  | ScalarFunctionE f inputs => fsem f (map (fun e => sem e r) inputs)
  | CaseE cases else_expr _ =>
      (fix sem_cases cases :=
         match cases with
         | [] => sem else_expr r
         | (when, then_) :: rest => if is_true_row (sem when r) then sem then_ r else sem_cases rest
         end) cases
  end.

Fixpoint sem_cases (cases : list (expr * expr)) (else_expr : expr) (r : list (option V)) : option V :=
  match cases with
  | [] => sem else_expr r
  | (when, then_) :: rest => if is_true_row (sem when r) then sem then_ r else sem_cases rest else_expr r
  end.

Lemma sem_case cases else_expr dt r : sem (CaseE cases else_expr dt) r = sem_cases cases else_expr r.
Proof. cbn [sem]. induction cases as [|[w t] rest IH]; [done|]. simpl. by rewrite IH. Qed.

(** An output array that has not been written: [n] rows of room, no NULL. *)
Definition fresh_out (dt : DT) (n : nat) (out : Array V DT) : Prop :=
  datatype out = dt /\ exists cap, n <= cap /\ appendable cap 0 out.

(** An output whose first rows are the values [f] gives. *)
Definition holds (dt : DT) (n : nat) (f : nat -> option V) (out : Array V DT) : Prop :=
  array_wf out /\ datatype out = dt /\ n <= logical_len (data out) /\ forall k, k < n -> row out k = f k.

(** A function computes its row semantics on every batch of its input types. *)
Definition function_implements (f : @ScalarFunction V DT) (dts : list DT) : Prop :=
  forall b out, batch_wf b -> schema b = dts -> fresh_out (return_type f) (num_rows b) out ->
  exists out', call_execute f b out = Ok out' /\ holds (return_type f) (num_rows b) (fun k => fsem f (row_of b k)) out'.

Definition cast_implements (c : @CastFunction V DT) (from to : DT) : Prop :=
  forall a sel out, array_wf a -> datatype a = from -> Forall (fun i => i < logical_len (data a)) sel ->
  fresh_out to (length sel) out ->
  exists out', call_cast c a sel out = Ok out'
    /\ holds to (length sel) (fun k => csem c (row a (sel !!! k))) out'.

(** Well-typed expressions over a schema whose functions and casts implement
    their row semantics. *)
Fixpoint expr_typed (s : list DT) (e : expr) : Prop :=
  match e with
  | ColumnE idx dt => s !! idx = Some dt
  | LiteralE _ _ => True
  | CastE to e c => expr_typed s e /\ cast_implements c (expr_datatype e) to
  | ConjunctionE _ f inputs =>
      function_implements f (map expr_datatype inputs) /\ fold_right (fun e P => expr_typed s e /\ P) True inputs
  | ScalarFunctionE f inputs =>
      function_implements f (map expr_datatype inputs) /\ fold_right (fun e P => expr_typed s e /\ P) True inputs
  | CaseE cases else_expr dt =>
      expr_typed s else_expr /\ expr_datatype else_expr = dt
      /\ fold_right (fun c P => (expr_typed s c.1 /\ expr_datatype c.1 = bool_type
           /\ expr_typed s c.2 /\ expr_datatype c.2 = dt) /\ P) True cases
  end.

(** Where a CASE may be: only where it is evaluated on all rows of the batch
    ([full]), and its own parts, which are evaluated on a selection of them, are
    free of CASE.  Elsewhere CASE puts its results into the wrong rows. *)
Fixpoint cases_placed (full : bool) (e : expr) : bool :=
  match e with
  | ColumnE _ _ | LiteralE _ _ => true
  | CastE _ e _ => cases_placed full e
  | ConjunctionE _ _ inputs | ScalarFunctionE _ inputs => forallb (cases_placed full) inputs
  | CaseE cases else_expr _ =>
      full && cases_placed false else_expr && forallb (fun c => cases_placed false c.1 && cases_placed false c.2) cases
  end.

(** Both conditions in one induction. *)
Fixpoint evaluable (s : list DT) (full : bool) (e : expr) : Prop :=
  match e with
  | ColumnE idx dt => s !! idx = Some dt
  | LiteralE _ _ => True
  | CastE to e c => evaluable s full e /\ cast_implements c (expr_datatype e) to
  | ConjunctionE _ f inputs =>
      function_implements f (map expr_datatype inputs) /\ fold_right (fun e P => evaluable s full e /\ P) True inputs
  | ScalarFunctionE f inputs =>
      function_implements f (map expr_datatype inputs) /\ fold_right (fun e P => evaluable s full e /\ P) True inputs
  | CaseE cases else_expr dt =>
      full = true /\ evaluable s false else_expr /\ expr_datatype else_expr = dt
      /\ fold_right (fun c P => (evaluable s false c.1 /\ expr_datatype c.1 = bool_type
           /\ evaluable s false c.2 /\ expr_datatype c.2 = dt) /\ P) True cases
  end.

(** Induction on expressions through the lists of children. *)
Lemma expr_induction (P : expr -> Prop) :
  (forall cases else_expr dt, Forall (fun c => P c.1 /\ P c.2) cases -> P else_expr -> P (CaseE cases else_expr dt)) ->
  (forall to e c, P e -> P (CastE to e c)) ->
  (forall idx dt, P (ColumnE idx dt)) ->
  (forall op f inputs, Forall P inputs -> P (ConjunctionE op f inputs)) ->
  (forall l dt, P (LiteralE l dt)) ->
  (forall f inputs, Forall P inputs -> P (ScalarFunctionE f inputs)) ->
  forall e, P e.
Proof.
  intros Hcase Hcast Hcol Hconj Hlit Hfun. fix IH 1. intros [cases els dt|to e c|idx dt|op f inputs|l dt|f inputs].
  - apply Hcase; [|apply IH]. induction cases as [|[w t] rest IHc]; constructor; [split; apply IH|exact IHc].
  - apply Hcast, IH.
  - apply Hcol.
  - apply Hconj. induction inputs as [|e rest IHc]; constructor; [apply IH|exact IHc].
  - apply Hlit.
  - apply Hfun. induction inputs as [|e rest IHc]; constructor; [apply IH|exact IHc].
Qed.

Lemma fold_right_Forall {X} (Q : X -> Prop) l : fold_right (fun x P => Q x /\ P) True l <-> Forall Q l.
Proof.
  induction l as [|x l IH]; simpl; [by split|]. rewrite Forall_cons, IH. done.
Qed.

Lemma expr_evaluable s full e : expr_typed s e -> cases_placed full e = true -> evaluable s full e.
Proof.
  revert full. apply (expr_induction (fun e => forall full, expr_typed s e -> cases_placed full e = true -> evaluable s full e)); clear e.
  - intros cases els dt Hcases Hels full (Ht & Hdt & Hc%fold_right_Forall). cbn [cases_placed]. rewrite !andb_true_iff.
    intros [[-> Hp] Hcp]. rewrite forallb_forall in Hcp. cbn [evaluable]. split_and!; [done|by apply Hels|done|].
    apply fold_right_Forall, Forall_forall. intros c Hin. rewrite Forall_forall in Hcases, Hc. destruct (Hc c Hin) as (H1 & ? & H2 & ?).
    apply list_elem_of_In in Hin as Hin'. specialize (Hcp c Hin'). apply andb_true_iff in Hcp as [? ?]. destruct (Hcases c Hin). auto.
  - intros to e c IH full [Ht Hc] Hp. split; [by apply IH|done].
  - by intros idx dt full Ht _.
  - intros op f inputs IH full [Hf Hi%fold_right_Forall] Hp. split; [done|]. apply fold_right_Forall. cbn [cases_placed] in Hp. rewrite forallb_forall in Hp.
    rewrite Forall_forall in *. intros e He. apply IH; [done|by apply Hi|]. by apply Hp, list_elem_of_In.
  - done.
  - intros f inputs IH full [Hf Hi%fold_right_Forall] Hp. split; [done|]. apply fold_right_Forall. cbn [cases_placed] in Hp. rewrite forallb_forall in Hp.
    rewrite Forall_forall in *. intros e He. apply IH; [done|by apply Hi|]. by apply Hp, list_elem_of_In.
Qed.

(** ** Evaluation of single expressions *)

(** A batch whose columns only changed representation. *)
Record same_batch (b b' : Batch V DT) : Prop := {
  sb_wf : batch_wf b';
  sb_num : num_rows b' = num_rows b;
  sb_schema : schema b' = schema b;
  sb_rows : batch_rows b' = batch_rows b;
}.

Lemma same_batch_refl b : batch_wf b -> same_batch b b.
Proof. by split. Qed.

Lemma same_batch_trans b1 b2 b3 : same_batch b1 b2 -> same_batch b2 b3 -> same_batch b1 b3.
Proof. intros [] []. split; congruence. Qed.

Lemma same_batch_row b b' i : same_batch b b' -> i < num_rows b -> row_of b' i = row_of b i.
Proof.
  intros [_ Hn _ Hr] Hi. pose proof (lookup_batch_rows b i Hi) as H1.
  rewrite <-Hr, lookup_batch_rows in H1 by lia. by simplify_eq.
Qed.

(** A selection whose positions are rows of the batch. *)
Definition selects (b : Batch V DT) (sel : Selection.t) (l : list nat) : Prop :=
  Selection.to_list sel = Ok l /\ Forall (fun i => i < num_rows b) l.

Lemma to_list_slice l : Selection.to_list (Selection.Slice l) = Ok l.
Proof.
  destruct (drain_get (S (length l)) 0 (Selection.Slice l)) as (l' & Hd & Hlen & Hget); [simpl; lia|].
  unfold Selection.to_list. simpl Selection.len. rewrite Hd. f_equal. simpl in *.
  apply list_eq. intros k. destruct (decide (k < length l)) as [Hk|Hk]; [by rewrite Hget|].
  rewrite !lookup_ge_None_2 by lia. done.
Qed.

(** A linear selection of as many rows as the batch selects them all. *)
Lemma linear_all b start l :
  selects b (Selection.Linear start (num_rows b)) l -> l = seq 0 (num_rows b).
Proof.
  intros [Hl Hr]. destruct (to_list_unique _ _ Hl) as [Hlen Hget]. simpl in Hlen.
  assert (forall k, k < num_rows b -> l !! k = Some (k + start)) as Hk.
  { intros k Hk. rewrite Hget. simpl. by destruct (Nat.leb_spec (num_rows b) k); [lia|]. }
  apply list_eq. intros k. destruct (decide (k < num_rows b)) as [Hlt|Hge].
  - rewrite Hk, lookup_seq_lt by done. f_equal.
    pose proof (Forall_lookup_1 _ _ (num_rows b - 1) _ Hr (Hk (num_rows b - 1) ltac:(lia))) as Hlast. simpl in *. lia.
  - rewrite !lookup_ge_None_2; [done|rewrite length_seq|]; lia.
Qed.

(** Replacing one column by a copy of it. *)
Lemma same_batch_insert b idx a a' :
  batch_wf b -> arrays b !! idx = Some a -> array_wf a' -> datatype a' = datatype a -> rows a' = rows a ->
  same_batch b (mkBatch (<[idx := a']> (arrays b)) (num_rows b) (cache b)).
Proof.
  intros Hwf Ha Hwa Hdt Hr.
  destruct (batch_copy b (mkBatch (<[idx := a']> (arrays b)) (num_rows b) (cache b)) (num_rows b)) as [Hwb Hrb];
    [done..| |split; [done|done| |done]].
  - apply Forall2_same_length_lookup. simpl. rewrite length_insert. split; [done|]. intros i x y Hx Hy.
    destruct (decide (i = idx)) as [->|Hne].
    + rewrite list_lookup_insert_eq in Hy by (by eapply lookup_lt_Some). by simplify_eq.
    + rewrite list_lookup_insert_ne in Hy by done. simplify_eq. split; [|done].
      by eapply Forall_lookup_1 in Hwf as [? _].
  - unfold schema. simpl. rewrite list_fmap_insert, list_insert_id; [done|]. by rewrite list_lookup_fmap, Ha, Hdt.
Qed.

Lemma selects_len b sel l : selects b sel l -> length l = Selection.len sel.
Proof. intros [Hl _]. by apply to_list_unique in Hl as [? _]. Qed.

(** What an array holds after a selection that picks rows. *)
Lemma holds_select (a : Array V DT) dt l (f : nat -> option V) n :
  array_wf a -> datatype a = dt -> n <= logical_len (data a) -> (forall i, i < n -> row a i = f i) ->
  Forall (fun i => i < n) l ->
  exists a', select a l = Ok a' /\ holds dt (length l) (fun k => f (l !!! k)) a'.
Proof.
  intros Hwf Hdt Hn Hf Hl. destruct (select_rows a l Hwf) as (a' & Hs & Hw' & Hd' & Hr);
    [eapply Forall_impl; [exact Hl|simpl; lia]|].
  exists a'. split; [done|]. assert (logical_len (data a') = length l) as Hlen by (by rewrite <-length_rows, Hr, length_fmap).
  split; [done|]. split; [congruence|]. split; [lia|]. intros k Hk.
  destruct (lookup_lt_is_Some_2 l k Hk) as [i Hi]. rewrite (list_lookup_total_correct l k i Hi).
  assert (i < n) as Hin by (by eapply selection_in_range).
  pose proof (lookup_rows a' k) as Hlk. rewrite Hr, list_lookup_fmap, Hi in Hlk. simpl in Hlk.
  rewrite lookup_total_rows in Hlk by lia. specialize (Hlk ltac:(lia)). simplify_eq. rewrite <-Hf by done. congruence.
Qed.

Lemma eval_column_spec b sel l idx dt out :
  batch_wf b -> schema b !! idx = Some dt -> selects b sel l -> datatype out = dt ->
  exists b' out', eval_column idx b sel out = Ok (b', out') /\ same_batch b b'
    /\ holds dt (length l) (fun k => default None (row_of b (l !!! k) !! idx)) out'.
Proof.
  intros Hwf Hs Hsel Hdt. unfold schema in Hs. rewrite list_lookup_fmap in Hs.
  destruct (arrays b !! idx) as [col|] eqn:Hcol; simpl in Hs; [|done]. injection Hs as Hs.
  pose proof (Forall_lookup_1 _ _ _ _ Hwf Hcol) as [Hwc Hnc].
  destruct (clone_from_other_rows out col Hwc) as (o & c & Hclone & Hwo & Hwc' & Hdo & Hdc & Hro & Hrc); [congruence|].
  assert (forall i, i < num_rows b -> row o i = default None (row_of b i !! idx)) as Hrow.
  { intros i Hi. unfold row_of. rewrite list_lookup_fmap, Hcol. simpl.
    by apply (row_of_rows col o (num_rows b)). }
  assert (num_rows b <= logical_len (data o)) as Hno by (rewrite <-length_rows, Hro, length_rows; done).
  unfold eval_column. rewrite (proj2 (index_Ok _ _ _) Hcol). unfold mbind, res_bind. rewrite Hclone. simpl.
  pose proof (same_batch_insert b idx col c Hwf Hcol Hwc' Hdc Hrc) as Hsb.
  destruct (negb (is_linear sel) || negb (Selection.len sel =? num_rows b)) eqn:Hcase.
  - destruct Hsel as [Hl Hrng]. rewrite Hl.
    destruct (holds_select o dt l (fun i => default None (row_of b i !! idx)) (num_rows b) Hwo) as (out' & -> & Hh); [congruence|done|exact Hrow|done|].
    by do 2 eexists.
  - apply orb_false_iff in Hcase as [Hlin Hlen]. destruct sel as [|start n|]; [done| |done].
    simpl in Hlen. apply negb_false_iff, Nat.eqb_eq in Hlen as ->. apply linear_all in Hsel as ->.
    do 2 eexists. split; [done|]. split; [done|]. rewrite length_seq.
    split; [done|]. split; [congruence|]. split; [done|]. intros k Hk.
    rewrite (list_lookup_total_correct (seq 0 (num_rows b)) k k) by (by apply lookup_seq_lt). by apply Hrow.
Qed.

Lemma eval_literal_spec sel literal dt n out :
  fresh_out dt n out -> Selection.len sel <= n -> 0 < n ->
  exists out', eval_literal literal sel out = Ok out' /\ holds dt (Selection.len sel) (fun _ => literal) out'.
Proof.
  intros (Hdt & cap & Hcap & Hwf & (buf & Hd & Hlen) & Hvalid) Hn H0. unfold eval_literal.
  destruct (set_value_leaf out 0 literal buf Hwf Hd) as (o & vals & -> & Hwo & Hdo & Hd' & Hlo & Hro); [lia|].
  assert (row o 0 = literal) as Hrow.
  { pose proof (lookup_rows o 0) as Hlk. rewrite Hro, list_lookup_insert_eq in Hlk.
    - rewrite Hd' in Hlk. simpl in Hlk. specialize (Hlk ltac:(lia)). by simplify_eq.
    - rewrite length_rows, Hd. simpl. lia. }
  destruct (holds_select o dt (replicate (Selection.len sel) 0) (fun _ => literal) 1 Hwo) as (out' & Hs & Hh).
  - congruence.
  - rewrite Hd'. simpl. lia.
  - intros i Hi. by assert (i = 0) as -> by lia.
  - apply Forall_replicate. lia.
  - exists out'. rewrite length_replicate in Hh. by split.
Qed.

Lemma state_array_fresh dt n : n <= batch_size -> fresh_out dt n (state_array fresh batch_size dt).
Proof.
  intros Hn. split; [done|]. exists batch_size. split; [done|]. split; [by apply new_array_wf|].
  split; [by eexists|]. intros j Hj. simpl. apply lookup_replicate. lia.
Qed.

(** ** Evaluation of all expressions *)

Abbreviation eval := (eval_expression fresh as_bool bool_type batch_size).

(** The loop over the children of a function. *)
Section Children.
Variable sel : Selection.t.

Fixpoint eval_children (exprs : list expr) (input : Batch V DT) : res (Batch V DT * list (Array V DT)) :=
  match exprs with
  | [] => Ok (input, [])
  | e :: rest =>
      r ← eval e input sel (state_array fresh batch_size (expr_datatype e));
      r' ← eval_children rest r.1;
      Ok (r'.1, r.2 :: r'.2)
  end.

End Children.

Lemma eval_function_eq f inputs input sel output :
  eval (ScalarFunctionE f inputs) input sel output =
    (r ← eval_children sel inputs input;
     out ← call_execute f (mkBatch r.2 (Selection.len sel) (Some batch_size)) output;
     Ok (r.1, out)).
Proof. reflexivity. Qed.

Lemma eval_conjunction_eq op f inputs input sel output :
  eval (ConjunctionE op f inputs) input sel output = eval (ScalarFunctionE f inputs) input sel output.
Proof. reflexivity. Qed.

(** The ELSE part and the WHEN/THEN loop of CASE. *)
Section Cases.
Variable else_expr : expr.

Definition eval_else (curr : list nat) (input : Batch V DT) (output : Array V DT) :
    res (Batch V DT * Array V DT) :=
  match curr with
  | [] => Ok (input, output)
  | _ =>
      r ← eval else_expr input (Selection.Slice curr) (state_array fresh batch_size (expr_datatype else_expr));
      out ← copy_rows r.2 (zip (seq 0 (length curr)) curr) output;
      Ok (r.1, out)
  end.

Fixpoint eval_cases (cases : list (expr * expr)) (curr : list nat) (input : Batch V DT)
    (output : Array V DT) : res (Batch V DT * Array V DT) :=
  match cases with
  | [] => eval_else curr input output
  | (when, then_) :: rest =>
      match curr with
      | [] => eval_else curr input output
      | _ =>
          w ← eval when input (Selection.Slice curr) (state_array fresh batch_size bool_type);
          s ← unary_select as_bool w.2 (seq 0 (length curr));
          then_selection ← collect (index curr) s.1;
          fallthrough_selection ← collect (index curr) s.2;
          match then_selection with
          | [] => eval_cases rest curr w.1 output
          | _ =>
              t ← eval then_ w.1 (Selection.Slice then_selection) (state_array fresh batch_size (expr_datatype else_expr));
              out ← copy_rows t.2 (zip (seq 0 (length then_selection)) then_selection) output;
              eval_cases rest fallthrough_selection t.1 out
          end
      end
  end.

End Cases.

Lemma eval_case_eq cases else_expr dt input sel output :
  eval (CaseE cases else_expr dt) input sel output =
    (curr ← Selection.to_list sel; eval_cases else_expr cases curr input output).
Proof. reflexivity. Qed.

(** [e] evaluates to its row semantics. *)
Definition evaluates (full : bool) (e : expr) : Prop :=
  forall b sel l n out,
  batch_wf b -> evaluable (schema b) full e -> selects b sel l -> (full = true -> l = seq 0 (num_rows b)) ->
  length l <= n -> 0 < n -> length l <= batch_size -> 0 < batch_size -> fresh_out (expr_datatype e) n out ->
  exists b' out', eval e b sel out = Ok (b', out') /\ same_batch b b'
    /\ holds (expr_datatype e) (length l) (fun k => sem e (row_of b (l !!! k))) out'.

Lemma selects_same b b' sel l : same_batch b b' -> selects b sel l -> selects b' sel l.
Proof. intros [_ Hn _ _] [Hl Hr]. split; [done|]. by rewrite Hn. Qed.

Lemma selects_lookup b sel l k : selects b sel l -> k < length l -> l !!! k < num_rows b.
Proof.
  intros [_ Hr] Hk. destruct (lookup_lt_is_Some_2 l k Hk) as [i Hi].
  rewrite (list_lookup_total_correct l k i Hi). by eapply Forall_lookup_1 in Hr.
Qed.

Lemma holds_ext dt n f g (a : Array V DT) : (forall k, k < n -> f k = g k) -> holds dt n f a -> holds dt n g a.
Proof. intros Hfg (Hw & Hd & Hn & Hr). split_and!; [done..|]. intros k Hk. by rewrite Hr, Hfg. Qed.

Lemma eval_children_spec full exprs b sel l :
  Forall (evaluates full) exprs -> batch_wf b -> Forall (evaluable (schema b) full) exprs -> selects b sel l ->
  (full = true -> l = seq 0 (num_rows b)) -> length l <= batch_size -> 0 < batch_size ->
  exists b' arrs, eval_children sel exprs b = Ok (b', arrs) /\ same_batch b b'
    /\ Forall2 (fun e a => holds (expr_datatype e) (length l) (fun k => sem e (row_of b (l !!! k))) a) exprs arrs.
Proof.
  intros Hev. revert b. induction Hev as [|e exprs He _ IH]; intros b Hwf Hgood Hsel Hfull Hl H0.
  { exists b, []. split; [done|]. split; [by apply same_batch_refl|constructor]. }
  apply Forall_cons in Hgood as [Hg Hgood].
  destruct (He b sel l batch_size (state_array fresh batch_size (expr_datatype e))) as (b1 & a & Heq & Hsb & Hh); try done.
  { by apply state_array_fresh. }
  destruct (IH b1) as (b' & arrs & Heq' & Hsb' & HF); [apply Hsb|by rewrite (sb_schema _ _ Hsb)|by eapply selects_same|
    by rewrite (sb_num _ _ Hsb)|done..|].
  exists b', (a :: arrs). cbn [eval_children]. rewrite Heq. unfold mbind, res_bind. cbn [fst snd]. rewrite Heq'.
  split; [done|]. split; [by eapply same_batch_trans|]. constructor; [done|].
  eapply Forall2_impl; [exact HF|]. intros e' a'. apply holds_ext. intros k Hk.
  f_equal. apply (same_batch_row b b1); [done|]. by eapply selects_lookup.
Qed.

(** The buffer of child results as a batch. *)
Lemma children_batch exprs arrs n (f : expr -> nat -> option V) :
  Forall2 (fun e a => holds (expr_datatype e) n (f e) a) exprs arrs ->
  batch_wf (mkBatch arrs n (Some batch_size)) /\ schema (mkBatch arrs n (Some batch_size)) = map expr_datatype exprs
  /\ forall k, k < n -> row_of (mkBatch arrs n (Some batch_size)) k = map (fun e => f e k) exprs.
Proof.
  unfold batch_wf, schema, row_of. simpl.
  induction 1 as [|e a exprs arrs (Hw & Hd & Hn & Hr) _ (IHw & IHs & IHr)]; [done|].
  split_and!; [by constructor|by rewrite fmap_cons, IHs, Hd|]. intros k Hk. rewrite fmap_cons, IHr by done. by rewrite Hr.
Qed.

Lemma evaluates_function full f inputs :
  Forall (evaluates full) inputs -> evaluates full (ScalarFunctionE f inputs).
Proof.
  intros Hin b sel l n out Hwf [Hf Hg%fold_right_Forall] Hsel Hfull Hln Hn Hl H0 (Hdt & cap & Hcap & Happ).
  destruct (eval_children_spec full inputs b sel l) as (b' & arrs & Heq & Hsb & HF); [done..|].
  destruct (children_batch inputs arrs (length l) (fun e k => sem e (row_of b (l !!! k))) HF) as (Hwb & Hsc & Hro).
  rewrite eval_function_eq, Heq. unfold mbind, res_bind. cbn [fst snd]. rewrite <-(selects_len b sel l Hsel).
  destruct (Hf (mkBatch arrs (length l) (Some batch_size)) out Hwb Hsc) as (out' & -> & Hh).
  { split; [done|]. exists cap. simpl. split; [lia|done]. }
  do 2 eexists. split; [done|]. split; [done|]. eapply holds_ext; [|exact Hh]. intros k Hk. simpl. by rewrite Hro.
Qed.

Lemma evaluates_cast full to e c : evaluates full e -> evaluates full (CastE to e c).
Proof.
  intros He b sel l n out Hwf [Hg Hc] Hsel Hfull Hln Hn Hl H0 (Hdt & cap & Hcap & Happ).
  destruct (He b sel l batch_size (state_array fresh batch_size (expr_datatype e))) as (b' & a & Heq & Hsb & Hh); try done.
  { by apply state_array_fresh. }
  cbn [eval_expression]. rewrite Heq. unfold mbind, res_bind. rewrite to_list_linear. cbn [fst snd].
  rewrite <-(selects_len b sel l Hsel). destruct Hh as (Hw & Hd & Hla & Hr).
  destruct (Hc a (seq 0 (length l)) out Hw Hd) as (out' & -> & Hh).
  - apply Forall_forall. intros i Hi%elem_of_seq. lia.
  - split; [done|]. exists cap. rewrite length_seq. split; [lia|done].
  - rewrite length_seq in Hh. do 2 eexists. split; [done|]. split; [done|].
    eapply holds_ext; [|exact Hh]. intros k Hk. cbn [sem].
    rewrite (list_lookup_total_correct (seq 0 (length l)) k k) by (by apply lookup_seq_lt). by rewrite Hr.
Qed.

(** *** CASE *)

Lemma collect_filter_at (P Q : nat -> Prop) `{!forall x, Decision (P x)} `{!forall x, Decision (Q x)} pre l :
  (forall k i, l !! k = Some i -> (P (length pre + k) <-> Q i)) ->
  collect (index (pre ++ l)) (filter P (seq (length pre) (length l))) = Ok (filter Q l).
Proof.
  revert pre. induction l as [|x l IH]; intros pre HPQ; [done|]. simpl seq. rewrite !filter_cons.
  assert (collect (index (pre ++ x :: l)) (filter P (seq (S (length pre)) (length l))) = Ok (filter Q l)) as IH'.
  { specialize (IH (pre ++ [x])). rewrite length_app, Nat.add_1_r, <-app_assoc in IH. apply IH.
    intros k i Hk. rewrite Nat.add_succ_comm. by apply HPQ. }
  pose proof (HPQ 0 x eq_refl) as Hx. rewrite Nat.add_0_r in Hx.
  destruct (decide (P (length pre))) as [Hp|Hp], (decide (Q x)) as [Hq|Hq]; [|tauto|tauto|exact IH'].
  cbn [collect]. rewrite (proj2 (index_Ok (pre ++ x :: l) (length pre) x)) by (by apply list_lookup_middle).
  unfold mbind, res_bind. by rewrite IH'.
Qed.

Lemma collect_filter (P Q : nat -> Prop) `{!forall x, Decision (P x)} `{!forall x, Decision (Q x)} l :
  (forall k i, l !! k = Some i -> (P k <-> Q i)) ->
  collect (index l) (filter P (seq 0 (length l))) = Ok (filter Q l).
Proof. apply (collect_filter_at P Q []). Qed.

(** A writable output with no NULL at the positions of [curr]. *)
Definition case_out (cap : nat) (curr : list nat) (out : Array V DT) : Prop :=
  array_wf out /\ (exists buf, data out = Leaf Unique buf /\ length buf = cap)
  /\ forall i, i ∈ curr -> valid_list (validity out) !! i = Some true.

(** [out'] is [out] with the rows of [curr] replaced. *)
Definition case_written (cap : nat) (curr : list nat) (g : nat -> option V) (out out' : Array V DT) : Prop :=
  array_wf out' /\ (exists buf, data out' = Leaf Unique buf /\ length buf = cap) /\ datatype out' = datatype out
  /\ (forall i, i ∈ curr -> row out' i = g i) /\ (forall i, i ∉ curr -> i < cap -> row out' i = row out i).

Lemma enumerate_range (s : list nat) k i : (k, i) ∈ zip (seq 0 (length s)) s <-> s !! k = Some i.
Proof.
  rewrite list_elem_of_lookup. split.
  - intros [j Hj]. apply lookup_zip_Some in Hj as [[-> _]%lookup_seq Hs]. done.
  - intros Hs. exists k. apply lookup_zip_Some. rewrite lookup_seq_lt; [done|]. by eapply lookup_lt_Some.
Qed.

Lemma copy_selected cap dt s g (a out : Array V DT) :
  holds dt (length s) (fun k => g (s !!! k)) a -> NoDup s -> Forall (fun i => i < cap) s -> case_out cap s out ->
  exists out', copy_rows a (zip (seq 0 (length s)) s) out = Ok out' /\ case_written cap s g out out'.
Proof.
  intros (Hwa & _ & Hla & Hra) Hnd Hs (Hwo & (buf & Hd & Hlen) & Hv).
  set (m := zip (seq 0 (length s)) s).
  assert (m.*2 = s) as Htargets by (apply snd_zip; by rewrite length_seq).
  assert (Forall (fun p => p.1 < logical_len (data a) /\ p.2 < length buf
            /\ valid_list (validity out) !! p.2 = Some true) m) as Hm.
  { apply Forall_forall. intros [k i] Hki%enumerate_range. simpl. split_and!.
    - apply lookup_lt_Some in Hki. lia.
    - rewrite Hlen. by eapply selection_in_range.
    - apply Hv. by eapply list_elem_of_lookup_2. }
  destruct (copy_rows_spec a m out buf Hwa Hwo Hd Hm) as (out' & buf' & Hc & Hw' & Hd' & Hl' & Hdt & Hr);
    [by rewrite Htargets|].
  exists out'. split; [done|]. split; [done|]. split; [exists buf'; split; [done|lia]|]. split; [done|]. split.
  - intros i Hi. apply list_elem_of_lookup in Hi as [k Hk].
    assert (i < cap) as Hic by (by eapply selection_in_range).
    rewrite <-lookup_total_rows by (rewrite Hd'; simpl; lia). apply list_lookup_total_correct.
    rewrite Hr, (write_rows_hit _ _ _ k i).
    + f_equal. rewrite lookup_total_rows by (apply lookup_lt_Some in Hk; lia).
      rewrite Hra by (by eapply lookup_lt_Some). by rewrite (list_lookup_total_correct s k i Hk).
    + eapply Forall_impl; [exact Hm|]. rewrite length_rows, Hd. naive_solver.
    + by rewrite Htargets.
    + by apply enumerate_range.
  - intros i Hi Hic. rewrite <-(lookup_total_rows out') by (rewrite Hd'; simpl; lia).
    rewrite <-(lookup_total_rows out) by (rewrite Hd; simpl; lia).
    rewrite !list_lookup_total_alt, Hr. f_equal. apply write_rows_miss. by rewrite Htargets.
Qed.

Lemma case_out_shrink cap s curr g (out out' : Array V DT) :
  case_written cap s g out out' -> case_out cap curr out -> (forall i, i ∈ curr -> (i ∉ s) /\ i < cap) ->
  case_out cap curr out'.
Proof.
  intros (Hw & Hbuf & _ & _ & Hne) (Hwo & (buf & Hd & Hlen) & Hv) Hcurr. split_and!; [done..|].
  intros i Hi. destruct (Hcurr i Hi) as [His Hic]. apply valid_of_row. rewrite Hne by done.
  apply row_of_valid; [done|rewrite Hd; simpl; lia|auto].
Qed.

Lemma eval_else_spec else_expr cap b curr out :
  evaluates false else_expr -> batch_wf b -> evaluable (schema b) false else_expr ->
  NoDup curr -> Forall (fun i => i < num_rows b) curr -> num_rows b <= cap ->
  length curr <= batch_size -> 0 < batch_size -> case_out cap curr out ->
  exists b' out', eval_else else_expr curr b out = Ok (b', out') /\ same_batch b b'
    /\ case_written cap curr (fun i => sem else_expr (row_of b i)) out out'.
Proof.
  intros He Hwf Hg Hnd Hc Hcap Hlen H0 Hout. unfold eval_else. destruct curr as [|c0 curr0].
  { exists b, out. split; [done|]. split; [by apply same_batch_refl|]. destruct Hout as (? & ? & _).
    split_and!; try done. intros i Hi. by apply not_elem_of_nil in Hi. }
  remember (c0 :: curr0) as curr eqn:Hcurr. clear Hcurr.
  destruct (He b (Selection.Slice curr) curr batch_size (state_array fresh batch_size (expr_datatype else_expr)))
    as (b' & a & Heq & Hsb & Hh); try done.
  { split; [apply to_list_slice|done]. }
  { by apply state_array_fresh. }
  rewrite Heq. unfold mbind, res_bind. cbn [fst snd].
  destruct (copy_selected cap _ curr (fun i => sem else_expr (row_of b i)) a out Hh) as (out' & -> & Hw); [done| |done|].
  { eapply Forall_impl; [exact Hc|simpl; lia]. }
  by do 2 eexists.
Qed.

(** The rows a WHEN sends to its THEN, and those that fall through. *)
Lemma when_split (a : Array V DT) (b : Batch V DT) curr when :
  holds bool_type (length curr) (fun k => sem when (row_of b (curr !!! k))) a ->
  exists ts fs, unary_select as_bool a (seq 0 (length curr)) = Ok (ts, fs)
    /\ collect (index curr) ts = Ok (filter (fun i => is_true_row (sem when (row_of b i)) = true) curr)
    /\ collect (index curr) fs = Ok (filter (fun i => is_true_row (sem when (row_of b i)) <> true) curr).
Proof.
  intros (Hwa & _ & Hla & Hra). rewrite (unary_select_rows as_bool) by
    (done || (apply Forall_forall; intros i Hi%elem_of_seq; lia)).
  assert (forall k i, curr !! k = Some i -> as_bool <$> row a k = Some true <-> is_true_row (sem when (row_of b i)) = true) as Hiff.
  { intros k i Hk. rewrite Hra by (by eapply lookup_lt_Some). rewrite (list_lookup_total_correct curr k i Hk).
    destruct (sem when (row_of b i)); simpl; split; congruence. }
  do 2 eexists. split; [done|]. split; apply collect_filter; intros k i Hk; by rewrite (Hiff k i Hk).
Qed.

(** The loop when the current WHEN is true for no row, or for some. *)
Lemma eval_cases_cons else_expr when then_ rest curr b out :
  curr <> [] ->
  eval_cases else_expr ((when, then_) :: rest) curr b out =
    (w ← eval when b (Selection.Slice curr) (state_array fresh batch_size bool_type);
     s ← unary_select as_bool w.2 (seq 0 (length curr));
     then_selection ← collect (index curr) s.1;
     fallthrough_selection ← collect (index curr) s.2;
     match then_selection with
     | [] => eval_cases else_expr rest curr w.1 out
     | _ =>
         t ← eval then_ w.1 (Selection.Slice then_selection) (state_array fresh batch_size (expr_datatype else_expr));
         out ← copy_rows t.2 (zip (seq 0 (length then_selection)) then_selection) out;
         eval_cases else_expr rest fallthrough_selection t.1 out
     end).
Proof. by destruct curr. Qed.

Lemma case_written_trans cap s1 s2 curr g (o1 o2 o3 : Array V DT) :
  case_written cap s1 g o1 o2 -> case_written cap s2 g o2 o3 ->
  (forall i, i ∈ curr <-> i ∈ s1 \/ i ∈ s2) -> (forall i, i ∈ s1 -> i ∉ s2) -> (forall i, i ∈ curr -> i < cap) ->
  case_written cap curr g o1 o3.
Proof.
  intros (_ & _ & Hd12 & Hin1 & Hout1) (Hw3 & Hb3 & Hd23 & Hin2 & Hout2) Hsplit Hdisj Hcap.
  split_and!; [done|done|congruence|..].
  - intros i Hi. pose proof (Hcap i Hi) as Hic. apply Hsplit in Hi as [Hi|Hi]; [|by apply Hin2].
    rewrite Hout2 by (by auto). by apply Hin1.
  - intros i Hi Hic. rewrite Hsplit in Hi. rewrite Hout2, Hout1; naive_solver.
Qed.

Lemma case_written_ext cap curr g g' (out out' : Array V DT) :
  (forall i, i ∈ curr -> g i = g' i) -> case_written cap curr g out out' -> case_written cap curr g' out out'.
Proof.
  intros Hg (? & ? & ? & Hin & ?). split_and!; try done. intros i Hi. by rewrite Hin, Hg.
Qed.

(** Evaluating a THEN on its rows, then the remaining cases on the others. *)
Lemma case_then_step else_expr when then_ rest cap b b1 curr tsel fsel out :
  evaluates false then_ -> evaluable (schema b) false then_ -> expr_datatype then_ = expr_datatype else_expr ->
  same_batch b b1 -> NoDup tsel -> NoDup fsel -> length tsel <= batch_size -> length fsel <= length curr ->
  0 < batch_size -> (forall i, i ∈ curr -> i < num_rows b) -> num_rows b <= cap -> case_out cap curr out ->
  (forall i, i ∈ tsel <-> i ∈ curr /\ is_true_row (sem when (row_of b i)) = true) ->
  (forall i, i ∈ fsel <-> i ∈ curr /\ is_true_row (sem when (row_of b i)) <> true) ->
  (forall b2 l o, same_batch b b2 -> NoDup l -> (forall i, i ∈ l -> i ∈ curr) -> length l <= length curr ->
    case_out cap l o -> exists b' out', eval_cases else_expr rest l b2 o = Ok (b', out') /\ same_batch b b'
      /\ case_written cap l (fun i => sem_cases rest else_expr (row_of b i)) o out') ->
  exists b' out',
    (t ← eval then_ b1 (Selection.Slice tsel) (state_array fresh batch_size (expr_datatype else_expr));
     out ← copy_rows t.2 (zip (seq 0 (length tsel)) tsel) out;
     eval_cases else_expr rest fsel t.1 out) = Ok (b', out')
    /\ same_batch b b'
    /\ case_written cap curr (fun i => sem_cases ((when, then_) :: rest) else_expr (row_of b i)) out out'.
Proof.
  intros Ht Hgt Hdt Hsb1 Hndt Hndf Hlt Hlf H0 Hrng Hcap Hout Hint Hinf IHb.
  assert (forall i, i ∈ curr -> i < cap) as Hrc by (intros i Hi; specialize (Hrng i Hi); lia).
  destruct (Ht b1 (Selection.Slice tsel) tsel batch_size (state_array fresh batch_size (expr_datatype then_)))
    as (b2 & ta & Heqt & Hsb2 & Hh); try done.
  { apply Hsb1. } { by rewrite (sb_schema _ _ Hsb1). }
  { split; [apply to_list_slice|]. rewrite (sb_num _ _ Hsb1). apply Forall_forall. intros i [Hi _]%Hint. auto. }
  { by apply state_array_fresh. }
  set (g := fun i => sem_cases ((when, then_) :: rest) else_expr (row_of b i)).
  assert (holds (expr_datatype then_) (length tsel) (fun k => g (tsel !!! k)) ta) as Hh'.
  { eapply holds_ext; [|exact Hh]. intros k Hk. destruct (lookup_lt_is_Some_2 tsel k Hk) as [i Hi]. simpl.
    rewrite (list_lookup_total_correct tsel k i Hi). apply list_elem_of_lookup_2, Hint in Hi as [Hic Htrue].
    unfold g. cbn [sem_cases]. rewrite Htrue. by rewrite (same_batch_row b b1) by auto. }
  assert (case_out cap tsel out) as Hot.
  { destruct Hout as (? & ? & Hv). split_and!; try done. intros i [Hi _]%Hint. auto. }
  destruct (copy_selected cap _ tsel g ta out Hh' Hndt) as (out1 & Hcopy & Hcw1); [|done|].
  { apply Forall_forall. intros i [Hi _]%Hint. auto. }
  rewrite <-Hdt, Heqt. unfold mbind, res_bind. cbn [fst snd]. rewrite Hcopy.
  destruct (IHb b2 fsel out1) as (b' & out' & Heq & Hsb' & Hcw2); [by eapply same_batch_trans|done|by intros i [Hi _]%Hinf|done|..].
  { eapply (case_out_shrink cap tsel fsel g out out1); [done|..].
    - destruct Hout as (? & ? & Hv). split_and!; try done. intros i [Hi _]%Hinf. auto.
    - intros i [Hi Hf]%Hinf. split; [|auto]. by intros [_ ?]%Hint. }
  do 2 eexists. split; [done|]. split; [done|].
  eapply (case_written_trans cap tsel fsel curr g out out1 out'); [done| | | |done].
  - eapply case_written_ext; [|exact Hcw2]. intros i [_ Hf]%Hinf. unfold g. cbn [sem_cases].
    by destruct (is_true_row (sem when (row_of b i))).
  - intros i. rewrite Hint, Hinf. destruct (is_true_row (sem when (row_of b i))); split; [auto|tauto|auto|tauto].
  - intros i [_ Htrue]%Hint [_ Hf]%Hinf. done.
Qed.

Lemma eval_cases_spec else_expr cases cap b curr out :
  evaluates false else_expr -> Forall (fun c => evaluates false c.1 /\ evaluates false c.2) cases ->
  batch_wf b -> evaluable (schema b) false else_expr ->
  Forall (fun c => evaluable (schema b) false c.1 /\ expr_datatype c.1 = bool_type
    /\ evaluable (schema b) false c.2 /\ expr_datatype c.2 = expr_datatype else_expr) cases ->
  NoDup curr -> Forall (fun i => i < num_rows b) curr -> num_rows b <= cap ->
  length curr <= batch_size -> 0 < batch_size -> case_out cap curr out ->
  exists b' out', eval_cases else_expr cases curr b out = Ok (b', out') /\ same_batch b b'
    /\ case_written cap curr (fun i => sem_cases cases else_expr (row_of b i)) out out'.
Proof.
  intros He Hev. revert b curr out. induction Hev as [|[when then_] rest [Hw Ht] _ IH];
    intros b curr out Hwf Hge Hgood Hnd Hc Hcap Hlen H0 Hout; [by apply eval_else_spec|].
  apply Forall_cons in Hgood as [(Hgw & Hdw & Hgt & Hdt) Hgood]. simpl in Hw, Ht, Hgw, Hdw, Hgt, Hdt.
  destruct (decide (curr = [])) as [->|Hne].
  { exists b, out. split; [done|]. split; [by apply same_batch_refl|]. destruct Hout as (? & ? & _).
    split_and!; try done. intros i Hi. by apply not_elem_of_nil in Hi. }
  rewrite eval_cases_cons by done.
  destruct (Hw b (Selection.Slice curr) curr batch_size (state_array fresh batch_size bool_type))
    as (b1 & wa & Heqw & Hsb1 & Hhw); try done.
  { split; [apply to_list_slice|done]. } { rewrite Hdw. by apply state_array_fresh. }
  rewrite Hdw in Hhw. destruct (when_split wa b curr when Hhw) as (ts & fs & Hsel & Hts & Hfs).
  rewrite Heqw. unfold mbind at 1, res_bind at 1. cbn [fst snd]. rewrite Hsel.
  unfold mbind at 1, res_bind at 1. cbn [fst snd]. rewrite Hts. unfold mbind at 1, res_bind at 1. rewrite Hfs.
  unfold mbind at 1, res_bind at 1. remember (filter _ curr) as tsel eqn:Htsel in |- *.
  set (fsel := filter (fun i => is_true_row (sem when (row_of b i)) <> true) curr).
  assert (forall i, i ∈ tsel <-> i ∈ curr /\ is_true_row (sem when (row_of b i)) = true) as Hint
    by (intros i; rewrite Htsel, list_elem_of_filter; naive_solver).
  assert (forall i, i ∈ fsel <-> i ∈ curr /\ is_true_row (sem when (row_of b i)) <> true) as Hinf
    by (intros i; unfold fsel; rewrite list_elem_of_filter; naive_solver).
  assert (forall i, i ∈ curr -> i < num_rows b) as Hrng by (by apply Forall_forall).
  assert (forall l : list nat, (forall i, i ∈ l -> i ∈ curr) -> Forall (fun i => i < num_rows b) l) as Hsub
    by (intros l Hl; apply Forall_forall; auto).
  assert (forall b2 l o, same_batch b b2 -> NoDup l -> (forall i, i ∈ l -> i ∈ curr) -> length l <= length curr ->
    case_out cap l o -> exists b' out', eval_cases else_expr rest l b2 o = Ok (b', out') /\ same_batch b b'
      /\ case_written cap l (fun i => sem_cases rest else_expr (row_of b i)) o out') as IHb.
  { intros b2 l o Hsb Hndl Hl Hll Ho. destruct (IH b2 l o) as (b' & out' & ? & Hsb' & Hcw); try (done || lia).
    - apply Hsb.
    - by rewrite (sb_schema _ _ Hsb).
    - by rewrite (sb_schema _ _ Hsb).
    - rewrite (sb_num _ _ Hsb). by apply Hsub.
    - by rewrite (sb_num _ _ Hsb).
    - do 2 eexists. split; [done|]. split; [by eapply same_batch_trans|].
      eapply case_written_ext; [|exact Hcw]. intros i Hi. simpl. by rewrite (same_batch_row b b2) by auto. }
  destruct tsel as [|t0 tsel0].
  - destruct (IHb b1 curr out) as (b' & out' & ? & ? & Hcw); try done. do 2 eexists. split; [done|]. split; [done|].
    eapply case_written_ext; [|exact Hcw]. intros i Hi. cbn [sem_cases].
    destruct (is_true_row (sem when (row_of b i))) eqn:Htrue; [|done].
    by pose proof (proj2 (Hint i) (conj Hi Htrue)) as []%not_elem_of_nil.
  - eapply (case_then_step _ when then_ _ _ b b1 curr (t0 :: tsel0) fsel); try done.
    + rewrite Htsel. by apply NoDup_filter.
    + by apply NoDup_filter.
    + rewrite Htsel. etransitivity; [apply length_filter|done].
    + apply length_filter.
Qed.

Lemma evaluates_case full cases else_expr dt :
  Forall (fun c => evaluates false c.1 /\ evaluates false c.2) cases -> evaluates false else_expr ->
  evaluates full (CaseE cases else_expr dt).
Proof.
  intros Hcases Helse b sel l n out Hwf (Hf & Hge & Hde & Hgood%fold_right_Forall) Hsel Hfull Hln Hn Hl H0
    (Hdt & cap & Hcap & Hwo & Hbuf & Hvalid).
  specialize (Hfull Hf). subst l. rewrite length_seq in *. rewrite eval_case_eq. destruct Hsel as [-> Hrng].
  unfold mbind, res_bind. subst dt.
  destruct (eval_cases_spec else_expr cases cap b (seq 0 (num_rows b)) out) as (b' & out' & Heq & Hsb & Hcw); try done.
  - apply NoDup_seq.
  - lia.
  - by rewrite length_seq.
  - split_and!; [done..|]. intros i Hi%elem_of_seq. apply Hvalid. lia.
  - destruct Hcw as (Hw' & (buf & Hd & Hlen) & Hdt' & Hin & _). do 2 eexists. split; [done|]. split; [done|].
    split_and!; [done|by rewrite Hdt'|rewrite Hd; simpl; lia|]. intros k Hk. rewrite sem_case.
    rewrite (list_lookup_total_correct (seq 0 (num_rows b)) k k) by (by apply lookup_seq_lt).
    apply Hin, elem_of_seq. lia.
Qed.

Lemma evaluates_all e full : evaluates full e.
Proof.
  revert full. apply (expr_induction (fun e => forall full, evaluates full e)); clear e.
  - intros cases els dt Hcases Hels full. apply evaluates_case; [|done].
    eapply Forall_impl; [exact Hcases|]. intros c [H1 H2]. split; auto.
  - intros to e c He full. by apply evaluates_cast.
  - intros idx dt full b sel l n out Hwf Hg Hsel _ _ _ _ _ [Hdt _].
    by apply eval_column_spec.
  - intros op f inputs Hin full b sel l n out. rewrite eval_conjunction_eq. apply evaluates_function.
    eapply Forall_impl; [exact Hin|]. auto.
  - intros lit dt full b sel l n out Hwf _ Hsel _ Hln Hn _ _ Hout.
    destruct (eval_literal_spec sel lit dt n out Hout) as (out' & Heq & Hh); [by rewrite <-(selects_len b sel l Hsel)|done|].
    cbn [eval_expression]. rewrite Heq. do 2 eexists. split; [done|]. split; [by apply same_batch_refl|].
    by rewrite (selects_len b sel l Hsel).
  - intros f inputs Hin full. apply evaluates_function. eapply Forall_impl; [exact Hin|]. auto.
Qed.

(** ** Batches of expressions, selection and filtering *)

Lemma eval_batch_loop_spec exprs b sel l outs n :
  batch_wf b -> Forall (evaluable (schema b) true) exprs -> selects b sel l -> l = seq 0 (num_rows b) ->
  length l <= n -> 0 < n -> length l <= batch_size -> 0 < batch_size ->
  Forall2 (fun e out => fresh_out (expr_datatype e) n out) exprs outs ->
  exists b' arrs, eval_batch_loop fresh as_bool bool_type batch_size exprs b sel outs = Ok (b', arrs) /\ same_batch b b'
    /\ Forall2 (fun e a => holds (expr_datatype e) (length l) (fun k => sem e (row_of b (l !!! k))) a) exprs arrs.
Proof.
  intros Hwf Hg Hsel Hfull Hln Hn Hl H0 Hout. revert b Hwf Hg Hsel Hfull.
  induction Hout as [|e out exprs outs Ho _ IH]; intros b Hwf Hg Hsel Hfull.
  { exists b, []. split; [done|]. split; [by apply same_batch_refl|constructor]. }
  apply Forall_cons in Hg as [Hge Hg].
  destruct (evaluates_all e true b sel l n out) as (b1 & a & Heq & Hsb & Hh); try done.
  destruct (IH b1) as (b' & arrs & Heq' & Hsb' & HF);
    [apply Hsb|by rewrite (sb_schema _ _ Hsb)|by eapply selects_same|by rewrite (sb_num _ _ Hsb)|].
  exists b', (a :: arrs). cbn [eval_batch_loop]. rewrite Heq. unfold mbind, res_bind. cbn [fst snd]. rewrite Heq'.
  split; [done|]. split; [by eapply same_batch_trans|]. constructor; [done|].
  eapply Forall2_impl; [exact HF|]. intros e' a'. apply holds_ext. intros k Hk.
  f_equal. apply (same_batch_row b b1); [done|]. by eapply selects_lookup.
Qed.

Lemma selects_all b : selects b (Selection.Linear 0 (num_rows b)) (seq 0 (num_rows b)).
Proof. split; [apply to_list_linear|]. apply Forall_forall. intros i Hi%elem_of_seq. lia. Qed.

Lemma holds_map exprs arrs n (f : expr -> nat -> option V) cap :
  Forall2 (fun e a => holds (expr_datatype e) n (f e) a) exprs arrs ->
  batch_wf (mkBatch arrs n cap) /\ schema (mkBatch arrs n cap) = map expr_datatype exprs
  /\ batch_rows (mkBatch arrs n cap) = (fun k => map (fun e => f e k) exprs) <$> seq 0 n.
Proof.
  intros HF. destruct (children_batch exprs arrs n f HF) as (Hw & Hs & Hr). split_and!; [done..|].
  unfold batch_rows. apply list_fmap_ext. intros k x [-> Hk]%lookup_seq. simpl. by apply Hr.
Qed.

Lemma fresh_outs (exprs : list expr) (outs : list (Array V DT)) cap :
  Forall (appendable cap 0) outs -> datatype <$> outs = map expr_datatype exprs ->
  Forall2 (fun e o => fresh_out (expr_datatype e) cap o) exprs outs.
Proof.
  intros Happ. revert exprs. induction Happ as [|o outs Ho _ IH]; intros [|e exprs] Hs; try done.
  rewrite fmap_cons in Hs. injection Hs as Hd Hrest. constructor; [|by apply IH]. split; [done|]. by exists cap.
Qed.

Lemma eval_batch_spec exprs b out cap :
  batch_wf b -> Forall (evaluable (schema b) true) exprs -> schema out = map expr_datatype exprs ->
  cache out = Some cap -> num_rows b <= cap -> 0 < cap -> num_rows b <= batch_size -> 0 < batch_size ->
  exists b' out', eval_batch fresh as_bool bool_type batch_size exprs b (Selection.Linear 0 (num_rows b)) out = Ok (b', out')
    /\ same_batch b b' /\ batch_wf out' /\ schema out' = map expr_datatype exprs
    /\ num_rows out' = num_rows b
    /\ batch_rows out' = (fun r => map (fun e => sem e r) exprs) <$> batch_rows b.
Proof.
  intros Hwf Hg Hs Hc Hcap H1 Hbs H0. unfold eval_batch.
  destruct (reset_for_write fresh out) as [r out0] eqn:Hreset.
  assert (r = Ok tt) as -> by (unfold reset_for_write, get, put, mbind, M_bind in Hreset; rewrite Hc in Hreset; by injection Hreset).
  destruct (reset_ready fresh fresh_capacity cap out out0 Hc Hreset) as ((Hc0 & Hn0 & Happ) & Hs0 & Hz).
  rewrite Hz in Happ. pose proof (selects_all b) as Hsel.
  destruct (eval_batch_loop_spec exprs b _ (seq 0 (num_rows b)) (arrays out0) cap Hwf Hg Hsel) as (b' & arrs & Heq & Hsb & HF);
    rewrite ?length_seq; try done.
  { apply fresh_outs; [done|]. unfold schema in *. congruence. }
  rewrite Heq. rewrite length_seq in HF. unfold mbind, res_bind. do 2 eexists. split; [done|]. split; [done|].
  destruct (holds_map exprs arrs (num_rows b) _ (cache out0) HF) as (Hw' & Hs' & Hr').
  split; [done|]. split; [done|]. split; [done|].
  etransitivity; [exact Hr'|]. unfold batch_rows. rewrite <-list_fmap_compose. apply list_fmap_ext.
  intros k x [-> Hk]%lookup_seq. simpl. by rewrite (list_lookup_total_correct (seq 0 (num_rows b)) k k) by (by apply lookup_seq_lt).
Qed.

(** *** Selection *)

(** The rows of [l] on which every conjunct is true. *)
Definition all_true_on (b : Batch V DT) (exprs : list expr) (i : nat) : bool :=
  forallb (fun e => is_true_row (sem e (row_of b i))) exprs.

Lemma filter_empty_conj (b : Batch V DT) e rest (l : list nat) :
  filter (fun i => is_true_row (sem e (row_of b i)) = true) l = [] ->
  filter (fun i => all_true_on b (e :: rest) i = true) l = [].
Proof.
  intros He. apply filter_none. intros i Hi Ht. simpl in Ht. apply andb_prop in Ht as [Ht _].
  assert (i ∈ filter (fun i => is_true_row (sem e (row_of b i)) = true) l) as Hin by (by apply list_elem_of_filter).
  rewrite He in Hin. by apply not_elem_of_nil in Hin.
Qed.

Lemma select_conjuncts_spec exprs b l :
  batch_wf b -> Forall (fun e => evaluable (schema b) false e /\ expr_datatype e = bool_type) exprs ->
  Forall (fun i => i < num_rows b) l -> length l <= batch_size -> 0 < batch_size ->
  exists b', select_conjuncts fresh as_bool bool_type batch_size exprs b l
      = Ok (b', filter (fun i => all_true_on b exprs i = true) l) /\ same_batch b b'.
Proof.
  intros Hwf Hg Hl Hlen H0. revert b l Hwf Hg Hl Hlen. induction exprs as [|e rest IH]; intros b l Hwf Hg Hl Hlen.
  { exists b. split; [|by apply same_batch_refl]. simpl. do 2 f_equal. symmetry. apply filter_all. by apply Forall_true. }
  apply Forall_cons in Hg as [[Hge Hde] Hg].
  destruct (evaluates_all e false b (Selection.Slice l) l batch_size (state_array fresh batch_size bool_type))
    as (b1 & a & Heq & Hsb & Hh); try done.
  { split; [apply to_list_slice|done]. } { rewrite Hde. by apply state_array_fresh. }
  rewrite Hde in Hh. destruct (when_split a b l e Hh) as (ts & fs & Hsel & Hts & _).
  cbn [select_conjuncts]. rewrite Heq. unfold mbind at 1, res_bind at 1. cbn [fst snd]. rewrite Hsel.
  unfold mbind at 1, res_bind at 1. cbn [fst snd]. rewrite Hts. unfold mbind at 1, res_bind at 1.
  remember (filter _ l) as tl eqn:Htl in |- *. destruct tl as [|t0 tl].
  { exists b1. split; [|done]. by rewrite (filter_empty_conj b e rest l). }
  destruct (IH b1 (t0 :: tl)) as (b' & Heq' & Hsb'); [apply Hsb|by rewrite (sb_schema _ _ Hsb)|..].
  { rewrite (sb_num _ _ Hsb), Htl. apply Forall_forall. intros i [_ Hi]%list_elem_of_filter. by eapply Forall_forall in Hl. }
  { rewrite Htl. etransitivity; [apply length_filter|done]. }
  exists b'. rewrite Heq'. split; [|by eapply same_batch_trans]. do 2 f_equal. rewrite Htl, list_filter_filter.
  apply filter_ext_elem. intros i Hi. assert (i < num_rows b) as Hib by (by eapply Forall_forall in Hl).
  unfold all_true_on. simpl. rewrite (same_batch_row b b1) by done. rewrite andb_true_iff. tauto.
Qed.

(** A predicate the filter can use: a well-typed boolean expression.  The
    conjuncts of an AND are evaluated on the rows that are left, so they are free
    of CASE, and its function, which a filter does not call, has to agree with
    them; any other predicate is evaluated on all rows. *)
Definition predicate_placed (s : list DT) (pred : expr) : Prop :=
  match pred with
  | ConjunctionE And f inputs =>
      Forall (fun e => expr_typed s e /\ cases_placed false e = true /\ expr_datatype e = bool_type) inputs
      /\ forall rs, length rs = length inputs -> is_true_row (fsem f rs) = forallb is_true_row rs
  | _ => expr_typed s pred /\ cases_placed true pred = true /\ expr_datatype pred = bool_type
  end.

Definition predicate_good (s : list DT) (pred : expr) : Prop :=
  match pred with
  | ConjunctionE And f inputs =>
      Forall (fun e => evaluable s false e /\ expr_datatype e = bool_type) inputs
      /\ forall rs, length rs = length inputs -> is_true_row (fsem f rs) = forallb is_true_row rs
  | _ => evaluable s true pred /\ expr_datatype pred = bool_type
  end.

Lemma predicate_evaluable s pred : predicate_placed s pred -> predicate_good s pred.
Proof.
  assert (Hex : forall full e, expr_typed s e /\ cases_placed full e = true /\ expr_datatype e = bool_type -> evaluable s full e /\ expr_datatype e = bool_type).
  { intros full e (Ht & Hp & Hd). split; [by apply expr_evaluable|done]. }
  unfold predicate_placed, predicate_good. destruct pred as [| | |[] f inputs| |]; try apply (Hex true).
  intros [Hi Hf]. split; [|done]. eapply Forall_impl; [exact Hi|]. apply (Hex false).
Qed.

Definition is_and (pred : expr) : bool :=
  match pred with ConjunctionE And _ _ => true | _ => false end.

Lemma evaluator_select_default pred b :
  is_and pred = false ->
  evaluator_select fresh as_bool bool_type batch_size pred b =
    (r ← eval_batch fresh as_bool bool_type batch_size [pred] b (Selection.Linear 0 (num_rows b)) (new_batch fresh [bool_type] batch_size);
     a ← index (arrays r.2) 0;
     s ← unary_select as_bool a (seq 0 (num_rows b));
     Ok (r.1, s.1)).
Proof. by destruct pred as [| | |[]| |]. Qed.

Lemma evaluator_select_spec pred b :
  batch_wf b -> predicate_good (schema b) pred -> num_rows b <= batch_size -> 0 < batch_size ->
  exists b', evaluator_select fresh as_bool bool_type batch_size pred b
      = Ok (b', filter (fun i => is_true_row (sem pred (row_of b i)) = true) (seq 0 (num_rows b))) /\ same_batch b b'.
Proof.
  intros Hwf Hp Hbs H0.
  destruct (is_and pred) eqn:Hand; [|rename Hand into Hdef]; swap 1 2.
  - rewrite evaluator_select_default by done.
    assert (evaluable (schema b) true pred /\ expr_datatype pred = bool_type) as [Hg Hd] by (by destruct pred as [| | |[]| |]).
    destruct (eval_batch_spec [pred] b (new_batch fresh [bool_type] batch_size) batch_size)
      as (b' & out & -> & Hsb & Hwo & Hso & Hno & Hro); try done.
    { by constructor. } { simpl. by rewrite Hd. }
    unfold mbind, res_bind. cbn [fst snd].
    destruct (arrays out) as [|a [|]] eqn:Harr; [by unfold schema in Hso; rewrite Harr in Hso| |by unfold schema in Hso; rewrite Harr in Hso].
    pose proof Hwo as Hwa. unfold batch_wf in Hwa. rewrite Harr in Hwa. apply Forall_cons in Hwa as [[Hwa Hla] _].
    simpl. rewrite (unary_select_rows as_bool) by (done || (apply Forall_forall; intros i Hi%elem_of_seq; lia)).
    exists b'. split; [|done]. cbn [fst]. do 2 f_equal. apply filter_ext_elem. intros i Hi%elem_of_seq.
    pose proof (lookup_batch_rows out i ltac:(lia)) as Hlk. rewrite Hro, list_lookup_fmap, lookup_batch_rows in Hlk by lia.
    simpl in Hlk. injection Hlk as Hlk. unfold row_of in Hlk at 2. rewrite Harr in Hlk. simpl in Hlk. injection Hlk as Hlk.
    rewrite <-Hlk. destruct (sem pred (row_of b i)); simpl; split; congruence.
  - destruct pred as [| | |[] f inputs| |]; try done. destruct Hp as [Hin Hf].
    destruct (select_conjuncts_spec inputs b (seq 0 (num_rows b))) as (b' & Heq & Hsb); try done.
    { apply Forall_forall. intros i Hi%elem_of_seq. lia. } { by rewrite length_seq. }
    exists b'. split; [|done]. cbn [evaluator_select]. rewrite Heq. do 2 f_equal. apply list_filter_iff. intros i.
    cbn [sem]. rewrite Hf by apply length_map. unfold all_true_on. by rewrite forallb_compose.
Qed.

Lemma filter_batch_rows (P : list (option V) -> Prop) `{!forall r, Decision (P r)} (b : Batch V DT) :
  filter P (batch_rows b) = row_of b <$> filter (fun i => P (row_of b i)) (seq 0 (num_rows b)).
Proof.
  unfold batch_rows. induction (seq 0 (num_rows b)) as [|i l IH]; [done|].
  rewrite fmap_cons, !filter_cons, IH. by case_decide.
Qed.

Lemma Forall2_rows (b : Batch V DT) l rs :
  Forall2 (fun i r => batch_rows b !! i = Some r) l rs -> Forall (fun i => i < num_rows b) l -> rs = row_of b <$> l.
Proof.
  induction 1 as [|i r l rs Hi _ IH]; intros Hl; [done|]. apply Forall_cons in Hl as [Hil Hl].
  rewrite fmap_cons, <-IH by done. rewrite lookup_batch_rows in Hi by done. by simplify_eq.
Qed.

Lemma filter_full_length {X} (P : X -> Prop) `{!forall x, Decision (P x)} (l : list X) :
  length (filter P l) = length l -> filter P l = l.
Proof.
  induction l as [|x l IH]; [done|]. rewrite filter_cons. case_decide; simpl; intros Hl.
  - f_equal. apply IH. lia.
  - pose proof (length_filter P l). lia.
Qed.

Lemma filter_spec pred b out :
  batch_wf b -> predicate_good (schema b) pred -> schema out = schema b -> num_rows b <= batch_size -> 0 < batch_size ->
  exists b' out', filter_poll_execute fresh as_bool bool_type batch_size pred b out = Ok (b', out')
    /\ batch_wf out' /\ schema out' = schema b /\ batch_rows b' = batch_rows b
    /\ batch_rows out' = filter (fun r => is_true_row (sem pred r) = true) (batch_rows b).
Proof.
  intros Hwf Hp Hs Hbs H0. destruct (evaluator_select_spec pred b Hwf Hp Hbs H0) as (b1 & Hsel & Hsb).
  unfold filter_poll_execute. rewrite Hsel. unfold mbind, res_bind. cbn [fst snd].
  set (sel := filter _ (seq 0 (num_rows b))).
  destruct (batch_clone_rows out b1) as (out1 & b2 & -> & Hwo & Hwb & Hso & Hsb2 & Hro & Hrb).
  { apply Hsb. } { by rewrite Hs, (sb_schema _ _ Hsb). }
  rewrite (sb_rows _ _ Hsb) in Hro, Hrb.
  assert (num_rows out1 = num_rows b) as Hno by (by rewrite <-!length_batch_rows, Hro).
  rewrite filter_batch_rows. fold sel. destruct (Nat.eqb_spec (length sel) (num_rows out1)) as [Hlen|Hlen]; simpl.
  - exists b2, out1. split_and!; [done|done|congruence|done|]. rewrite Hro. unfold sel. rewrite filter_full_length; [done|].
    rewrite length_seq. fold sel. lia.
  - assert (Forall (fun i => i < num_rows b) sel) as Hrng.
    { apply Forall_forall. intros i [_ Hi%elem_of_seq]%list_elem_of_filter. lia. }
    destruct (batch_select_rows out1 sel Hwo) as (out' & -> & Hw' & Hs' & HF); [by rewrite Hno|].
    exists b2, out'. split_and!; [done|done|congruence|done|]. rewrite Hro in HF. by apply Forall2_rows in HF.
Qed.

End Semantics.

(** ** AND and OR ([functions/scalar/builtin/boolean.rs]) *)

Section Boolean.
Context {V DT : Type} `{EqDecision DT}.
Variable as_bool : V -> bool.
Variable of_bool : bool -> V.
Variable bool_type : DT.
Hypothesis as_of_bool : forall b, as_bool (of_bool b) = b.

Definition out_of (output : Array V DT) (r : AnyArrayBuffer V * Validity.t) : Array V DT :=
  mkArray (datatype output) r.2 r.1.

(** The common shape of [And::execute] and [Or::execute]: no input, one, two,
    or more; [op2] and [ops] combine two values or a slice of them. *)
Definition boolean_execute (op2 : bool -> bool -> bool) (ops : list bool -> bool)
    (input : Batch V DT) (output : Array V DT) : res (Array V DT) :=
  let sel := seq 0 (num_rows input) in
  match arrays input with
  | [] =>
      vals ← downcast_mut (data output);
      Ok (mkArray (datatype output) (validity output) (Leaf Unique (replicate (length vals) (of_bool false))))
  | [a] =>
      r ← unary_execute a sel (data output) (validity output) (fun v => Put v);
      Ok (out_of output r)
  | [a; b] =>
      r ← binary_execute a sel b sel (data output) (validity output)
            (fun x y => Put (of_bool (op2 (as_bool x) (as_bool y))));
      Ok (out_of output r)
  | arrs =>
      r ← uniform_execute arrs sel (data output) (validity output)
            (fun bools => Put (of_bool (ops (map as_bool bools))));
      Ok (out_of output r)
  end.

(** [And::execute] and [Or::execute] *)
Definition and_execute : Batch V DT -> Array V DT -> res (Array V DT) := boolean_execute andb (forallb id).
Definition or_execute : Batch V DT -> Array V DT -> res (Array V DT) := boolean_execute orb (existsb id).

Definition and_function : @ScalarFunction V DT := mkScalarFunction bool_type and_execute.
Definition or_function : @ScalarFunction V DT := mkScalarFunction bool_type or_execute.

(** The row semantics: NULL as soon as one input is NULL. *)
Definition strict_sem (ops : list bool -> bool) (rs : list (option V)) : option V :=
  match rs with
  | [] => Some (of_bool false)
  | [x] => x
  | _ => vs ← mapM id rs; Some (of_bool (ops (map as_bool vs)))
  end.

Lemma holds_executed n (out : Array V DT) cap buf' vl' f :
  fresh_out bool_type n out -> data out = Leaf Unique cap -> n <= length cap ->
  array_wf (out_array bool_type buf' vl') ->
  rows (out_array bool_type buf' vl') = (f <$> seq 0 n) ++ drop n (rows (out_array bool_type cap (validity out))) ->
  holds bool_type n f (out_of out (Leaf Unique buf', vl')).
Proof.
  intros [Hdt _] Hd Hn Hw Hr. unfold out_of. simpl. rewrite Hdt. fold (out_array bool_type buf' vl').
  assert (n <= logical_len (data (out_array bool_type buf' vl'))) as Hlen.
  { rewrite <-length_rows, Hr, length_app, length_fmap, length_seq. lia. }
  split_and!; [done..|]. intros k Hk. pose proof (lookup_rows (out_array bool_type buf' vl') k ltac:(lia)) as Hlk.
  rewrite Hr, lookup_app_l, list_lookup_fmap, lookup_seq_lt in Hlk by (rewrite ?length_fmap, ?length_seq; lia).
  simpl in Hlk. by simplify_eq.
Qed.

Lemma writable_fresh_out n (out : Array V DT) :
  fresh_out bool_type n out ->
  exists buf, data out = Leaf Unique buf /\ n <= length buf /\ writable 0 n buf (validity out)
    /\ datatype out = bool_type.
Proof.
  intros (Hdt & cap & Hcap & Hwf & (buf & Hd & Hlen) & Hv). exists buf. split; [done|]. split; [lia|]. split; [|done].
  split; [apply Hwf|by rewrite (wf_len _ Hwf), Hd|lia|]. intros j Hj. apply Hv. lia.
Qed.

Lemma seq_in_range (a : Array V DT) n : n <= logical_len (data a) -> Forall (fun i => i < logical_len (data a)) (seq 0 n).
Proof. intros Hn. apply Forall_forall. intros i Hi%elem_of_seq. lia. Qed.

Lemma zip_diag (l : list nat) : zip l l = (fun i => (i, i)) <$> l.
Proof. induction l as [|x l IH]; simpl; [done|]. by rewrite IH. Qed.

Lemma boolean_execute_spec op2 ops b out :
  (forall x y, op2 x y = ops [x; y]) -> batch_wf b -> fresh_out bool_type (num_rows b) out ->
  exists out', boolean_execute op2 ops b out = Ok out'
    /\ holds bool_type (num_rows b) (fun k => strict_sem ops (row_of b k)) out'.
Proof.
  intros Hop Hwf Hf. destruct (writable_fresh_out _ _ Hf) as (buf & Hd & Hlen & Hw & Hdt).
  unfold boolean_execute, batch_wf in *. unfold row_of. rewrite Hd.
  destruct (arrays b) as [|a1 [|a2 [|a3 rest]]] eqn:Harr.
  - simpl. eexists. split; [done|]. destruct Hf as (_ & cap & _ & Hwo & (buf' & Hd' & Hl') & Hv).
    rewrite Hd in Hd'. injection Hd' as <-. assert (length (replicate (length buf) (of_bool false)) = length buf) as Hr
      by apply length_replicate.
    split_and!; [|done|simpl; lia|].
    + split; simpl; [done|apply Hwo| |done]. by rewrite (wf_len _ Hwo), Hd, Hr.
    + intros k Hk. unfold row, value_at. simpl. rewrite (w_valid _ _ _ _ Hw) by lia. by rewrite lookup_replicate_2 by lia.
  - apply Forall_cons in Hwf as [[Hw1 Hn1] _].
    destruct (unary_execute_rows a1 (seq 0 (num_rows b)) bool_type buf (validity out) (fun v : V => Put v))
      as (buf' & vl' & -> & Hwa & Hr); [done|by apply seq_in_range|by rewrite length_seq|].
    eexists. split; [done|]. rewrite length_seq in Hr. eapply (holds_executed _ _ buf); try done. rewrite Hr. f_equal.
    apply list_fmap_ext. intros k x [-> Hk]%lookup_seq. simpl. by destruct (row a1 k).
  - apply Forall_cons in Hwf as [[Hw1 Hn1] Hwf]. apply Forall_cons in Hwf as [[Hw2 Hn2] _].
    destruct (binary_execute_rows a1 (seq 0 (num_rows b)) a2 (seq 0 (num_rows b)) bool_type buf (validity out)
      (fun x y => Put (of_bool (op2 (as_bool x) (as_bool y))))) as (buf' & vl' & -> & Hwa & Hr);
      [done|done|by apply seq_in_range|by apply seq_in_range|by rewrite zip_diag, length_fmap, length_seq|].
    eexists. split; [done|]. rewrite zip_diag, length_fmap, length_seq, <-list_fmap_compose in Hr.
    eapply (holds_executed _ _ buf); try done. rewrite Hr. f_equal.
    apply list_fmap_ext. intros k x [-> Hk]%lookup_seq. simpl. destruct (row a1 k), (row a2 k); simpl; [|done..]. by rewrite Hop.
  - destruct (uniform_execute_rows (a1 :: a2 :: a3 :: rest) (seq 0 (num_rows b)) bool_type buf (validity out)
      (fun bools => Put (of_bool (ops (map as_bool bools))))) as (buf' & vl' & -> & Hwa & Hr).
    + eapply Forall_impl; [exact Hwf|naive_solver].
    + apply Forall_forall. intros i Hi%elem_of_seq. eapply Forall_impl; [exact Hwf|]. intros a [_ Ha]. lia.
    + by rewrite length_seq.
    + eexists. split; [done|]. rewrite length_seq in Hr. by eapply (holds_executed _ _ buf).
Qed.

(** A conjunction is true exactly when all its inputs are. *)
Lemma strict_and_true rs :
  rs <> [] -> is_true_row as_bool (strict_sem (forallb id) rs) = forallb (is_true_row as_bool) rs.
Proof.
  intros Hne. destruct rs as [|x [|y rs]]; [done|by simpl; rewrite andb_true_r|]. unfold strict_sem.
  generalize (y :: rs). clear Hne y rs. intros rs. revert x. intros x.
  assert (forall l : list (option V), match mapM id l with
    | Some vs => forallb id (map as_bool vs) = forallb (is_true_row as_bool) l
    | None => forallb (is_true_row as_bool) l = false end) as Hgen.
  { induction l as [|z l IH]; [done|]. cbn [mapM]. destruct z as [v|]; simpl; [|done].
    destruct (mapM id l) as [vs|]; simpl; [by rewrite IH|]. by rewrite IH, andb_false_r. }
  specialize (Hgen (x :: rs)). destruct (mapM id (x :: rs)) as [vs|]; simpl in *; [by rewrite as_of_bool|done].
Qed.

End Boolean.

(** ** Properties of expression evaluation *)

Section Properties.
Context {V DT : Type} `{EqDecision DT}.
Variable fresh : DT -> nat -> list V.
Hypothesis fresh_capacity : forall dt capacity, length (fresh dt capacity) = capacity.
Variable as_bool : V -> bool.
Variable of_bool : bool -> V.
Hypothesis as_of_bool : forall b, as_bool (of_bool b) = b.
Variable bool_type : DT.
Variable batch_size : nat.
Variable fsem : @ScalarFunction V DT -> list (option V) -> option V.
Variable csem : @CastFunction V DT -> option V -> option V.

(** C26. Expression evaluation is correct: for a well-typed expression whose
    functions and casts implement their row semantics, evaluated on a selection
    of a batch into a fresh output, [eval_expression] succeeds, leaves the
    input's rows unchanged, and writes at output position [k] the value of the
    expression on the [k]-th selected row.  The expression is free of CASE, or
    the selection is that of all rows of the batch ([full]) and the parts of its
    CASEs are free of CASE; on other selections and in nested CASEs the code puts
    the results of CASE into the wrong rows. *)
Theorem eval_expression_correct full e b sel l n out :
  batch_wf b -> expr_typed bool_type fsem csem (schema b) e -> cases_placed full e = true -> selects b sel l ->
  (full = true -> l = seq 0 (num_rows b)) ->
  length l <= n -> 0 < n -> length l <= batch_size -> 0 < batch_size -> fresh_out (expr_datatype e) n out ->
  exists b' out', eval_expression fresh as_bool bool_type batch_size e b sel out = Ok (b', out')
    /\ batch_rows b' = batch_rows b /\ array_wf out' /\ length l <= logical_len (data out')
    /\ forall k i, l !! k = Some i -> row out' k = sem as_bool fsem csem e (row_of b i).
Proof.
  intros Hwf Ht Hp Hsel Hfull Hln Hn Hl H0 Hout. pose proof (expr_evaluable _ _ _ _ full e Ht Hp) as Hg.
  destruct (evaluates_all fresh fresh_capacity as_bool bool_type batch_size fsem csem e full b sel l n out)
    as (b' & out' & Heq & [_ _ _ Hrows] & Hw & _ & Hla & Hr); try done.
  exists b', out'. split_and!; try done. intros k i Hk. rewrite Hr by (by eapply lookup_lt_Some).
  by rewrite (list_lookup_total_correct l k i Hk).
Qed.

(** C27. [PhysicalFilter] keeps exactly the rows on which the predicate is
    TRUE, in order (FALSE and NULL rows are dropped), whether the predicate is
    evaluated as a whole or, when it is an AND, conjunct by conjunct with
    short-circuiting.  The predicate is well-typed; the conjuncts of an AND are
    free of CASE, and a CASE in another predicate has no CASE in its parts, since
    the code puts the results of other CASEs into the wrong rows. *)
Theorem filter_correct pred b out :
  batch_wf b -> predicate_placed as_bool bool_type fsem csem (schema b) pred -> schema out = schema b ->
  num_rows b <= batch_size -> 0 < batch_size ->
  exists b' out', filter_poll_execute fresh as_bool bool_type batch_size pred b out = Ok (b', out')
    /\ batch_rows b' = batch_rows b
    /\ batch_rows out' = filter (fun r => is_true_row as_bool (sem as_bool fsem csem pred r) = true) (batch_rows b).
Proof.
  intros Hwf Hp%predicate_evaluable Hs Hbs H0.
  destruct (filter_spec fresh fresh_capacity as_bool bool_type batch_size fsem csem pred b out)
    as (b' & out' & ? & ? & ? & ? & ?); eauto.
Qed.

(** [PhysicalProject] maps every input row to the row of its projections'
    values, when the parts of CASEs are free of CASE. *)
Theorem project_correct exprs b out cap :
  batch_wf b -> Forall (fun e => expr_typed bool_type fsem csem (schema b) e /\ cases_placed true e = true) exprs -> schema out = map expr_datatype exprs ->
  cache out = Some cap -> num_rows b <= cap -> 0 < cap -> num_rows b <= batch_size -> 0 < batch_size ->
  exists b' out', project_poll_execute fresh as_bool bool_type batch_size exprs b out = Ok (b', out')
    /\ batch_rows b' = batch_rows b
    /\ batch_rows out' = (fun r => map (fun e => sem as_bool fsem csem e r) exprs) <$> batch_rows b.
Proof.
  intros Hwf Ht Hs Hc Hcap H1 Hbs H0. assert (Hg : Forall (evaluable bool_type fsem csem (schema b) true) exprs).
  { eapply Forall_impl; [exact Ht|]. intros e [? ?]. by apply expr_evaluable. }
  destruct (eval_batch_spec fresh fresh_capacity as_bool bool_type batch_size fsem csem exprs b out cap)
    as (b' & out' & Heq & Hsb & _ & _ & _ & Hr); try done.
  exists b', out'. split; [exact Heq|]. split; [apply Hsb|done].
Qed.

(** AND and OR are strict in NULL and otherwise the boolean connectives,
    for one, two or more inputs (no input gives FALSE): both functions
    implement that row semantics, through whichever executor the number of
    inputs selects. *)
Theorem and_or_strict (b : Batch V DT) out :
  batch_wf b -> fresh_out bool_type (num_rows b) out ->
  (exists out', call_execute (and_function as_bool of_bool bool_type) b out = Ok out'
     /\ forall k, k < num_rows b -> row out' k = strict_sem as_bool of_bool (forallb id) (row_of b k))
  /\ (exists out', call_execute (or_function as_bool of_bool bool_type) b out = Ok out'
     /\ forall k, k < num_rows b -> row out' k = strict_sem as_bool of_bool (existsb id) (row_of b k)).
Proof.
  intros Hwf Hout. split; [apply (boolean_execute_spec as_bool of_bool bool_type andb (forallb id)) in Hout|
    apply (boolean_execute_spec as_bool of_bool bool_type orb (existsb id)) in Hout];
    try (done || (intros [] []; reflexivity)); destruct Hout as (out' & Heq & _ & _ & _ & Hr); by exists out'.
Qed.

End Properties.

(** *** A concrete instance: integers, 0 is false *)

Module ExprExample.

Definition as_bool (z : Z) : bool := negb (Z.eqb z 0).
Definition of_bool (b : bool) : Z := if b then 1%Z else 0%Z.
Definition fresh (_ : nat) (cap : nat) : list Z := replicate cap 0%Z.
Definition fsem (_ : @ScalarFunction Z nat) : list (option Z) -> option Z := strict_sem as_bool of_bool (forallb id).
Definition csem (_ : @CastFunction Z nat) (x : option Z) : option Z := x.

Lemma as_of_bool b : as_bool (of_bool b) = b.
Proof. by destruct b. Qed.

Definition conj_fn : @ScalarFunction Z nat := and_function as_bool of_bool 0.

Lemma conj_fn_implements dts : function_implements fsem conj_fn dts.
Proof.
  intros b out Hwf _ Hout.
  apply (boolean_execute_spec as_bool of_bool 0 andb (forallb id) b out); [by intros [] []|done|done].
Qed.

(** Three rows: two boolean columns and an integer column. *)
Definition input : Batch Z nat :=
  mkBatch [mkArray 0 (Validity.AllValid 3) (Leaf Unique [0; 1; 1]%Z);
           mkArray 0 (Validity.Mask 3 [5%Z]) (DictionaryBuffer Unique [1; 0; 0] (Leaf Unique [1; 0]%Z));
           mkArray 1 (Validity.AllValid 3) (ConstantBuffer Unique 0 3 (Leaf Unique [42%Z]))] 3 None.

Lemma input_wf : batch_wf input.
Proof.
  repeat constructor; simpl; try done; try (apply Nat.leb_le; reflexivity).
  - exists Unique, [1; 0]%Z. split; [done|repeat constructor].
  - exists Unique, [42%Z]. split; [done|repeat constructor].
  - by exists true.
Qed.

Definition output (dt : nat) : Array Z nat := new_array fresh dt 4.

Lemma output_fresh dt n : n <= 4 -> fresh_out dt n (output dt).
Proof. apply (state_array_fresh fresh (fun _ cap => length_replicate cap 0%Z) 4). Qed.

(** [CASE WHEN c0 AND c1 THEN c2 ELSE 5 END] *)
Definition case_expr : @PhysicalScalarExpression Z nat :=
  CaseE [(ConjunctionE And conj_fn [ColumnE 0 0; ColumnE 1 0], ColumnE 2 1)] (LiteralE (Some 5%Z) 1) 1.

Lemma case_expr_typed : expr_typed 0 fsem csem (schema input) case_expr.
Proof. cbn. repeat split; auto; apply conj_fn_implements. Qed.

(** A NULL condition falls through to the ELSE. *)
Lemma eval_expression_correct_witness :
  exists b' out', eval_expression fresh as_bool 0 4 case_expr input (Selection.Linear 0 3) (output 1) = Ok (b', out')
    /\ batch_rows b' = batch_rows input /\ array_wf out' /\ 3 <= logical_len (data out')
    /\ forall k i, seq 0 3 !! k = Some i -> row out' k = sem as_bool fsem csem case_expr (row_of input i).
Proof.
  apply (eval_expression_correct fresh (fun _ cap => length_replicate cap 0%Z) as_bool 0 4 fsem csem true case_expr
    input (Selection.Linear 0 3) (seq 0 3) 4 (output 1) input_wf case_expr_typed eq_refl);
    try (apply Nat.leb_le; reflexivity); try (intros; reflexivity).
  - apply (selects_all input).
  - apply output_fresh. apply Nat.leb_le. reflexivity.
Defined.

Definition conj_expr : @PhysicalScalarExpression Z nat := ConjunctionE And conj_fn [ColumnE 0 0; ColumnE 1 0].

Lemma conj_expr_placed : predicate_placed as_bool 0 fsem csem (schema input) conj_expr.
Proof.
  split; [repeat constructor|]. intros rs Hlen. apply strict_and_true; [exact as_of_bool|]. by intros ->.
Qed.

(** Filtering by [c0 AND c1]. *)
Lemma filter_correct_witness :
  exists b' out', filter_poll_execute fresh as_bool 0 4 conj_expr input (new_batch fresh [0; 0; 1] 4) = Ok (b', out')
    /\ batch_rows b' = batch_rows input /\ batch_rows out' = [[Some 1; Some 1; Some 42]]%Z.
Proof.
  apply (filter_correct fresh (fun _ cap => length_replicate cap 0%Z) as_bool 0 4 fsem csem conj_expr input
    (new_batch fresh [0; 0; 1] 4) input_wf conj_expr_placed); [reflexivity|apply Nat.leb_le; reflexivity..].
Defined.

(** Projecting the CASE and a column. *)
Lemma project_correct_witness :
  exists b' out', project_poll_execute fresh as_bool 0 4 [case_expr; ColumnE 0 0] input (new_batch fresh [1; 0] 4) = Ok (b', out')
    /\ batch_rows b' = batch_rows input
    /\ batch_rows out' = [[Some 5; Some 0]; [Some 5; Some 1]; [Some 42; Some 1]]%Z.
Proof.
  apply (project_correct fresh (fun _ cap => length_replicate cap 0%Z) as_bool 0 4 fsem csem [case_expr; ColumnE 0 0] input
    (new_batch fresh [1; 0] 4) 4 input_wf); try reflexivity; try (apply Nat.leb_le; reflexivity).
  constructor; [split; [exact case_expr_typed|reflexivity]|constructor; [split; reflexivity|constructor]].
Defined.

Lemma and_or_strict_witness :
  (exists out', call_execute (and_function as_bool of_bool 0) input (output 0) = Ok out'
     /\ forall k, k < 3 -> row out' k = strict_sem as_bool of_bool (forallb id) (row_of input k))
  /\ (exists out', call_execute (or_function as_bool of_bool 0) input (output 0) = Ok out'
     /\ forall k, k < 3 -> row out' k = strict_sem as_bool of_bool (existsb id) (row_of input k)).
Proof.
  apply (and_or_strict as_bool of_bool 0 input (output 0) input_wf). apply output_fresh. apply Nat.leb_le. reflexivity.
Defined.

(** [c0 AND CASE WHEN c1 THEN TRUE ELSE FALSE END], on three rows without NULL. *)
Definition case_predicate : @PhysicalScalarExpression Z nat :=
  ConjunctionE And conj_fn
    [ColumnE 0 0; CaseE [(ColumnE 1 0, LiteralE (Some 1%Z) 0)] (LiteralE (Some 0%Z) 0) 0].

Definition case_input : Batch Z nat :=
  mkBatch [mkArray 0 (Validity.AllValid 3) (Leaf Unique [0; 1; 1]%Z);
           mkArray 0 (Validity.AllValid 3) (Leaf Unique [0; 1; 0]%Z)] 3 None.

(** A CASE under a selection writes its results at the positions of the
    input rows instead of the positions of the selection.  In a filter
    [c0 AND CASE WHEN c1 THEN TRUE ELSE FALSE END] the CASE is evaluated on the
    rows left by [c0]; only row 1 satisfies the predicate, and the filter
    returns row 2. *)
Theorem case_under_selection_wrong :
  batch_wf case_input
  /\ filter (fun i => is_true_row as_bool (sem as_bool fsem csem case_predicate (row_of case_input i)) = true) (seq 0 3) = [1]
  /\ exists b', evaluator_select fresh as_bool 0 4 case_predicate case_input = Ok (b', [2]).
Proof.
  split; [repeat constructor|]. split; [reflexivity|]. eexists. vm_compute. reflexivity.
Qed.

End ExprExample.
