(* ===== verification/Operators.v ===== *)
(** * The limit operator

    Models [operators/limit.rs] against the batch interface [BatchLaws]: the
    operator state shared by the partitions, [poll_execute] on every branch, and
    the run of the operator over a sequence of input batches. *)
From S2P Require Import Prelude ExecutionStack Arrays ArrayData Batch.

(** ** [PhysicalLimit] ([limit.rs]) *)

Module Limit.

(** [StateInner] of [LimitOperatorState], behind the operator's mutex. *)
Record State : Type := mkState {
  remaining_offset : nat;
  remaining_count : nat;
}.

(** [PhysicalLimit::create_operator_state] *)
Definition create_operator_state (limit : nat) (offset : option nat) : State :=
  mkState (default 0 offset) limit.

Section Limit.
Context {B R S : Type} `{BatchLaws B R S}.

(** Operator state, input and output batch. *)
Definition Env : Type := State * (B * B).

(** Operations on the (output, input) pair and on the output of the environment. *)
Definition on_pair (m : M (B * B) unit) : M Env unit := fun '(st, (input, output)) =>
  let '(r, (output', input')) := m (output, input) in (r, (st, (input', output'))).

Definition on_output (m : M B unit) : M Env unit := fun '(st, (input, output)) =>
  let '(r, output') := m output in (r, (st, (input, output'))).

Definition set_state (st : State) : M Env unit := fun '(_, p) => (Ok tt, (st, p)).

(** [PhysicalLimit::poll_execute] *)
Definition poll_execute : M Env PollExecute.t :=
  env ← get;
  let '(state, (input, output)) := env in
  if 0 <? remaining_offset state then
    if bl_num_rows input <=? remaining_offset state then
      _ ← set_state (mkState (remaining_offset state - bl_num_rows input) (remaining_count state));
      mret PollExecute.NeedsMore
    else
      let count := min (bl_num_rows input - remaining_offset state) (remaining_count state) in
      let offset := remaining_offset state in
      let exhausted := remaining_count state - count =? 0 in
      _ ← set_state (mkState 0 (remaining_count state - count));
      _ ← on_pair bl_clone_from_other;
      sel ← lift (Selection.to_list (Selection.Linear offset count));
      _ ← on_output (bl_select sel);
      mret (if exhausted then PollExecute.Exhausted else PollExecute.Ready)
  else if remaining_count state <? bl_num_rows input then
    _ ← on_pair bl_clone_from_other;
    _ ← on_output (bl_set_num_rows (remaining_count state));
    _ ← set_state (mkState (remaining_offset state) 0);
    mret PollExecute.Exhausted
  else
    _ ← on_pair bl_clone_from_other;
    env ← get;
    let n := bl_num_rows env.2.2 in
    if remaining_count state <? n then lift (Panic "attempt to subtract with overflow")
    else
      _ ← set_state (mkState (remaining_offset state) (remaining_count state - n));
      mret PollExecute.Ready.

(** Feeding a sequence of input batches until the operator is exhausted: the
    rows of every batch it emits. *)
Fixpoint run (state : State) (inputs : list B) (output : B) : res (list (list R)) :=
  match inputs with
  | [] => Ok []
  | input :: rest =>
      match poll_execute (state, (input, output)) with
      | (Ok PollExecute.NeedsMore, (state', (_, output'))) => run state' rest output'
      | (Ok PollExecute.Ready, (state', (_, output'))) =>
          batches ← run state' rest output'; Ok (bl_rows output' :: batches)
      | (Ok PollExecute.Exhausted, (_, (_, output'))) => Ok [bl_rows output']
      | (Ok _, _) => Panic "unexpected poll"
      | (Err e, _) => Err e
      | (Panic w, _) => Panic w
      end
  end.

(** *** Correctness *)

(** What one call emits. *)
Definition emitted (p : PollExecute.t) (output : B) : list R :=
  match p with PollExecute.NeedsMore => [] | _ => bl_rows output end.

Lemma on_pair_clone st input output :
  bl_wf input -> bl_schema output = bl_schema input ->
  exists input' output', on_pair bl_clone_from_other (st, (input, output)) = (Ok tt, (st, (input', output')))
    /\ bl_wf output' /\ bl_schema output' = bl_schema output /\ bl_rows output' = bl_rows input.
Proof.
  intros Hwf Hs. destruct (bl_clone_spec output input Hwf Hs) as (o & i & Heq & Hwo & _ & Hso & _ & Hro & _).
  exists i, o. unfold on_pair. rewrite Heq. done.
Qed.

Lemma picked_rows (rows rows' : list R) start n :
  Forall2 (fun i r => rows !! i = Some r) (seq start n) rows' -> rows' = take n (drop start rows).
Proof.
  intros HF. apply list_eq. intros k.
  assert (length rows' = n) as Hlen by (apply Forall2_length in HF; by rewrite length_seq in HF).
  destruct (decide (k < n)) as [Hk|Hk].
  - destruct (Forall2_lookup_l _ _ _ k (start + k) HF) as (r & Hr & Hrows); [by apply lookup_seq_lt|].
    rewrite lookup_take_lt, lookup_drop by done. congruence.
  - rewrite lookup_ge_None_2, lookup_take_ge by lia. done.
Qed.

Lemma poll_execute_spec st input output :
  bl_wf input -> bl_schema output = bl_schema input ->
  exists p st' input' output', poll_execute (st, (input, output)) = (Ok p, (st', (input', output')))
    /\ bl_schema output' = bl_schema output
    /\ p ∈ [PollExecute.NeedsMore; PollExecute.Ready; PollExecute.Exhausted]
    /\ emitted p output' = take (remaining_count st) (drop (remaining_offset st) (bl_rows input))
    /\ remaining_offset st' = remaining_offset st - bl_num_rows input
    /\ remaining_count st' = remaining_count st - length (emitted p output')
    /\ (p = PollExecute.Exhausted -> remaining_count st' = 0).
Proof.
  intros Hwf Hs. pose proof (bl_num_rows_spec input) as Hn. destruct st as [off cnt].
  unfold poll_execute, get, mbind, M_bind, lift. cbn [remaining_offset remaining_count fst snd].
  destruct (Nat.ltb_spec 0 off) as [Hoff|Hoff]; [destruct (Nat.leb_spec (bl_num_rows input) off) as [Hle|Hgt]|].
  - do 4 eexists. split; [done|]. cbn. split_and!; [done|set_solver| |done|lia|done].
    rewrite drop_ge by lia. by rewrite take_nil.
  - cbn [set_state]. destruct (on_pair_clone (mkState 0 (cnt - min (bl_num_rows input - off) cnt)) input output Hwf Hs)
      as (i1 & o1 & -> & Hwo & Hso & Hro). rewrite to_list_linear.
    destruct (bl_select_spec o1 (seq off (min (bl_num_rows input - off) cnt)) Hwo) as (o2 & Hsel & _ & Hs2 & HF).
    { apply Forall_forall. intros j Hj%elem_of_seq. rewrite bl_num_rows_spec, Hro, <-Hn. lia. }
    unfold on_output. rewrite Hsel. apply picked_rows in HF. rewrite Hro in HF.
    do 4 eexists. split; [done|]. cbn [remaining_offset remaining_count].
    assert (length (bl_rows o2) = min (bl_num_rows input - off) cnt) as Hl2 by (rewrite HF, length_take, length_drop; lia).
    assert (emitted (if cnt - min (bl_num_rows input - off) cnt =? 0 then PollExecute.Exhausted else PollExecute.Ready) o2
      = bl_rows o2) as -> by (by destruct (_ =? 0)).
    split_and!; [congruence|by destruct (_ =? 0); set_solver| |lia|lia|by destruct (Nat.eqb_spec (cnt - min (bl_num_rows input - off) cnt) 0)].
    rewrite HF. destruct (Nat.min_spec (bl_num_rows input - off) cnt) as [[Hlt ->]|[_ ->]]; [|done].
    rewrite !take_ge; [done|rewrite length_drop; lia..].
  - assert (off = 0) as -> by lia. destruct (Nat.ltb_spec cnt (bl_num_rows input)) as [Hlt|Hge];
      destruct (on_pair_clone (mkState 0 cnt) input output Hwf Hs) as (i1 & o1 & Hp & Hwo & Hso & Hro); rewrite Hp.
    + destruct (bl_set_num_rows_spec o1 cnt Hwo) as (o2 & Hset & _ & Hs2 & Hr2); [rewrite bl_num_rows_spec, Hro; lia|].
      unfold on_output. rewrite Hset. do 4 eexists. split; [done|]. cbn.
      split_and!; [congruence|set_solver|by rewrite Hr2, Hro|lia| |done]. rewrite Hr2, Hro, length_take. lia.
    + cbn [fst snd]. pose proof (bl_num_rows_spec o1) as Hn1. rewrite Hro, <-Hn in Hn1.
      destruct (Nat.ltb_spec cnt (bl_num_rows o1)); [lia|]. do 4 eexists. split; [done|]. cbn.
      split_and!; [done|set_solver|rewrite Hro; symmetry; apply take_ge; lia|lia|rewrite Hro; lia|done].
Qed.

(** The window of a concatenation. *)
Lemma window_app (cnt off : nat) (l k : list R) :
  take cnt (drop off (l ++ k)) =
    take cnt (drop off l) ++ take (cnt - length (take cnt (drop off l))) (drop (off - length l) k).
Proof.
  rewrite drop_app, take_app. f_equal. f_equal. rewrite length_take. lia.
Qed.

Lemma run_spec st inputs output :
  Forall (fun i => bl_wf i /\ bl_schema i = bl_schema output) inputs ->
  exists batches, run st inputs output = Ok batches
    /\ concat batches = take (remaining_count st) (drop (remaining_offset st) (concat (bl_rows <$> inputs))).
Proof.
  revert st output. induction inputs as [|input rest IH]; intros st output Hin.
  { exists []. split; [done|]. simpl. by rewrite drop_nil, take_nil. }
  apply Forall_cons in Hin as [[Hwf Hs] Hin].
  destruct (poll_execute_spec st input output Hwf (eq_sym Hs)) as (p & st' & i' & o' & Hp & Hso & Hkind & He & Hoff & Hcnt & Hex).
  rewrite fmap_cons. cbn [concat run]. rewrite Hp.
  rewrite window_app, <-He, <-bl_num_rows_spec, <-Hoff, <-Hcnt.
  destruct (IH st' o') as (batches & Hrun & Hconcat); [by rewrite Hso|].
  rewrite !elem_of_cons in Hkind. destruct Hkind as [->|[->|[->|[]%not_elem_of_nil]]].
  - exists batches. split; [done|]. by rewrite Hconcat.
  - rewrite Hrun. eexists. split; [done|]. cbn [concat]. by rewrite Hconcat.
  - eexists. split; [done|]. cbn [concat]. rewrite Hex by done. by rewrite take_0.
Qed.

(** C40. LIMIT/OFFSET: for any sequence of input batches of one schema, the
    batches a limit operator emits before it is exhausted concatenate to
    exactly the window of [limit] rows after the first [offset] rows, however
    the rows are split into batches. *)
Theorem limit_window limit offset inputs output :
  Forall (fun i => bl_wf i /\ bl_schema i = bl_schema output) inputs ->
  exists batches, run (create_operator_state limit offset) inputs output = Ok batches
    /\ concat batches = take limit (drop (default 0 offset) (concat (bl_rows <$> inputs))).
Proof. apply run_spec. Qed.

End Limit.

(** Offset 2 and limit 2 over the example batches. *)
Lemma limit_window_witness :
  exists batches, run (create_operator_state 2 (Some 2)) example_batches (mkBatch [example_dictionary] 4 None) = Ok batches
    /\ concat batches = [[None]; [Some 8%Z]].
Proof.
  destruct (limit_window 2 (Some 2) example_batches (mkBatch [example_dictionary] 4 None)) as (batches & Hrun & Hrows).
  - exact example_batches_wf.
  - exists batches. split; [exact Hrun|]. rewrite Hrows. reflexivity.
Defined.

End Limit.
