(* ===== verification/Union.v ===== *)
(** * The union operator

    Models [operators/union.rs]: the left input pushes batches into a one-slot
    buffer per partition, the right input passes its batches through and then
    drains the buffer.  The two sides run as separate tasks that park on
    [Pending] and are woken through the wakers stored in the shared state; the
    second half of the file composes them under an arbitrary scheduler. *)
From Stdlib Require Import Relations.
From stdpp Require Import relations.
From S2P Require Import Prelude ExecutionStack Arrays ArrayData Batch.

Section Union.
Context {B R S : Type} `{BatchLaws B R S}.

(** A waker identifies the task to schedule again. *)
Inductive task : Type := PushTask | PullTask.

(** [SharedPartitionState] *)
Record SharedPartitionState : Type := mkShared {
  has_data : bool;
  push_finished : bool;
  buffer : B;
  pull_waker : option task;
  push_waker : option task;
}.

(** The tasks woken by a call, and the shared state after. *)
Definition woken (w : option task) : list task := from_option (fun t => [t]) [] w.

(** [PhysicalUnion::poll_push]: result, tasks woken, shared state and input
    after. *)
Definition poll_push (cx : task) (shared : SharedPartitionState) (input : B) :
    res PollPush.t * list task * SharedPartitionState * B :=
  if has_data shared then
    (Ok PollPush.Pending, [],
     mkShared (has_data shared) (push_finished shared) (buffer shared) (pull_waker shared) (Some cx), input)
  else
    match bl_swap (buffer shared, input) with
    | (Ok _, (buffer', input')) =>
        (Ok PollPush.NeedsMore, woken (pull_waker shared),
         mkShared true (push_finished shared) buffer' None (push_waker shared), input')
    | (Err e, (buffer', input')) =>
        (Err e, [], mkShared (has_data shared) (push_finished shared) buffer' (pull_waker shared) (push_waker shared), input')
    | (Panic w, (buffer', input')) =>
        (Panic w, [], mkShared (has_data shared) (push_finished shared) buffer' (pull_waker shared) (push_waker shared), input')
    end.

(** [PhysicalUnion::poll_finalize_push] *)
Definition poll_finalize_push (shared : SharedPartitionState) :
    PollFinalize.t * list task * SharedPartitionState :=
  (PollFinalize.Finalized, woken (pull_waker shared),
   mkShared (has_data shared) true (buffer shared) None (push_waker shared)).

(** [PhysicalUnion::poll_execute]: result, tasks woken, shared state, input and
    output after. *)
Definition poll_execute (cx : task) (draining : bool) (shared : SharedPartitionState) (input output : B) :
    res PollExecute.t * list task * SharedPartitionState * B * B :=
  if negb draining then
    match bl_swap (output, input) with
    | (Ok _, (output', input')) => (Ok PollExecute.Ready, [], shared, input', output')
    | (Err e, (output', input')) => (Err e, [], shared, input', output')
    | (Panic w, (output', input')) => (Panic w, [], shared, input', output')
    end
  else if negb (has_data shared) then
    if push_finished shared then
      match bl_set_num_rows 0 output with
      | (Ok _, output') => (Ok PollExecute.Exhausted, [], shared, input, output')
      | (Err e, output') => (Err e, [], shared, input, output')
      | (Panic w, output') => (Panic w, [], shared, input, output')
      end
    else
      (Ok PollExecute.Pending, woken (push_waker shared),
       mkShared (has_data shared) (push_finished shared) (buffer shared) (Some cx) None, input, output)
  else
    match bl_swap (output, buffer shared) with
    | (Ok _, (output', buffer')) =>
        (Ok PollExecute.HasMore, woken (push_waker shared),
         mkShared false (push_finished shared) buffer' (pull_waker shared) None, input, output')
    | (Err e, (output', buffer')) =>
        (Err e, [], mkShared (has_data shared) (push_finished shared) buffer' (pull_waker shared) (push_waker shared), input, output')
    | (Panic w, (output', buffer')) =>
        (Panic w, [], mkShared (has_data shared) (push_finished shared) buffer' (pull_waker shared) (push_waker shared), input, output')
    end.

(** [PhysicalUnion::poll_finalize_execute]: the new value of [draining]. *)
Definition poll_finalize_execute : PollFinalize.t * bool := (PollFinalize.NeedsDrain, true).

(** ** Two tasks and a scheduler *)

Record Config : Type := mkConfig {
  shared : SharedPartitionState;
  left_todo : list B;          (* batches the left input has still to push *)
  left_done : bool;            (* [poll_finalize_push] was called *)
  left_parked : bool;
  right_todo : list B;         (* batches of the right input *)
  draining : bool;
  right_parked : bool;
  right_done : bool;           (* [poll_execute] returned [Exhausted] *)
  output : B;
  emitted : list R;            (* rows of all output batches so far *)
}.

Definition parked_after (t : task) (ws : list task) (parked : bool) : bool :=
  if existsb (fun w => match w, t with PushTask, PushTask | PullTask, PullTask => true | _, _ => false end) ws
  then false else parked.

(** One scheduling step: a task that is not parked makes one call. *)
Inductive step : Config -> Config -> Prop :=
| step_push sh b rest rt dr rp rd out em r ws sh' b' :
    poll_push PushTask sh b = (Ok r, ws, sh', b') ->
    step (mkConfig sh (b :: rest) false false rt dr rp rd out em)
         (mkConfig sh' (match r with PollPush.Pending => b' :: rest | PollPush.NeedsMore => rest end) false
            (match r with PollPush.Pending => true | PollPush.NeedsMore => parked_after PushTask ws false end)
            rt dr (parked_after PullTask ws rp) rd out em)
| step_finalize_push sh rt dr rp rd out em r ws sh' :
    poll_finalize_push sh = (r, ws, sh') ->
    step (mkConfig sh [] false false rt dr rp rd out em)
         (mkConfig sh' [] true false rt dr (parked_after PullTask ws rp) rd out em)
| step_execute sh lt ld lp b rest out em ws sh' b' out' :
    poll_execute PullTask false sh b out = (Ok PollExecute.Ready, ws, sh', b', out') ->
    step (mkConfig sh lt ld lp (b :: rest) false false false out em)
         (mkConfig sh' lt ld (parked_after PushTask ws lp) rest false false false out' (em ++ bl_rows out'))
| step_finalize_execute sh lt ld lp out em :
    step (mkConfig sh lt ld lp [] false false false out em)
         (mkConfig sh lt ld lp [] (poll_finalize_execute.2) false false out em)
| step_drain sh lt ld lp out em input r ws sh' input' out' :
    poll_execute PullTask true sh input out = (Ok r, ws, sh', input', out') ->
    step (mkConfig sh lt ld lp [] true false false out em)
         (mkConfig sh' lt ld (parked_after PushTask ws lp) [] true
            (match r with PollExecute.Pending => true | _ => false end)
            (match r with PollExecute.Exhausted => true | _ => false end) out'
            (match r with PollExecute.HasMore => em ++ bl_rows out' | _ => em end)).

(** The initial configuration: the shared state of one partition as
    [ensure_shared_states] makes it, and both tasks at their start. *)
Definition init (buffer out : B) (left right : list B) : Config :=
  mkConfig (mkShared false false buffer None None) left false false right false false false out [].

(** ** The invariant of every schedule *)

(** All batches in play are well formed and of one schema. *)
Definition batches_ok (s : S) (c : Config) : Prop :=
  Forall (fun b => bl_wf b /\ bl_schema b = s) (buffer (shared c) :: output c :: left_todo c ++ right_todo c).

(** Rows still on their way to the output. *)
Definition in_flight (c : Config) : list R :=
  concat (bl_rows <$> right_todo c)
  ++ (if has_data (shared c) then bl_rows (buffer (shared c)) else [])
  ++ concat (bl_rows <$> left_todo c).

Record inv (s : S) (total : list R) (c : Config) : Prop := {
  inv_batches : batches_ok s c;
  inv_rows : emitted c ++ in_flight c = total;
  inv_push_waker : push_waker (shared c) = if left_parked c then Some PushTask else None;
  inv_pull_waker : pull_waker (shared c) = if right_parked c then Some PullTask else None;
  inv_finished : push_finished (shared c) = left_done c;
  inv_left_parked : left_parked c = true -> has_data (shared c) = true /\ left_done c = false /\ left_todo c <> [];
  inv_left_done : left_done c = true -> left_todo c = [];
  inv_right_parked : right_parked c = true ->
    has_data (shared c) = false /\ left_done c = false /\ draining c = true /\ right_done c = false;
  inv_draining : draining c = true -> right_todo c = [];
  inv_right_done : right_done c = true -> has_data (shared c) = false /\ left_done c = true /\ draining c = true;
}.

(** A bound on the number of steps left. *)
Definition measure (c : Config) : nat :=
  6 * length (left_todo c) + 3 * Nat.b2n (has_data (shared c)) + 2 * Nat.b2n (negb (left_done c))
  + Nat.b2n (negb (left_parked c)) + Nat.b2n (negb (right_parked c))
  + length (right_todo c) + Nat.b2n (negb (draining c)) + Nat.b2n (negb (right_done c)).

Lemma swap_ok s a b :
  bl_wf a /\ bl_schema a = s -> bl_wf b /\ bl_schema b = s ->
  exists a' b', bl_swap (a, b) = (Ok tt, (a', b')) /\ (bl_wf a' /\ bl_schema a' = s) /\ (bl_wf b' /\ bl_schema b' = s)
    /\ bl_rows a' = bl_rows b /\ bl_rows b' = bl_rows a.
Proof.
  intros [Ha Hsa] [Hb Hsb]. destruct (bl_swap_spec a b) as (a' & b' & ? & ? & ? & ? & ? & ? & ?); [done..|congruence|].
  exists a', b'. split_and!; congruence || done.
Qed.

Local Arguments measure : simpl never.
Local Arguments Nat.mul : simpl never.

Ltac inv_fields :=
  match goal with
  | Hi : inv _ _ _ |- _ =>
      destruct Hi as [Hb Hr Hpw Hlw Hf Hlp Hld Hrp Hdr Hrd];
      unfold batches_ok, in_flight in *; cbn in *
  end.

(** Closing the bookkeeping fields of the invariant of a new configuration. *)
Ltac inv_close := cbn; try done; try (intros; discriminate); try tauto.

(** Lists of batches that are all in order. *)
Ltac batches := repeat (apply Forall_cons; split; [done|]); first [done | apply Forall_app; split; done].

(** A push into a full buffer parks the task; into an empty one it fills it. *)
Lemma poll_push_full sh b :
  has_data sh = true ->
  poll_push PushTask sh b =
    (Ok PollPush.Pending, [], mkShared true (push_finished sh) (buffer sh) (pull_waker sh) (Some PushTask), b).
Proof. unfold poll_push. by intros ->. Qed.

Lemma poll_push_empty s sh b :
  has_data sh = false -> bl_wf (buffer sh) /\ bl_schema (buffer sh) = s -> bl_wf b /\ bl_schema b = s ->
  exists bu' b', poll_push PushTask sh b =
      (Ok PollPush.NeedsMore, woken (pull_waker sh), mkShared true (push_finished sh) bu' None (push_waker sh), b')
    /\ (bl_wf bu' /\ bl_schema bu' = s) /\ bl_rows bu' = bl_rows b.
Proof.
  intros Hhd Hbu Hb. unfold poll_push. rewrite Hhd.
  destruct (swap_ok s _ _ Hbu Hb) as (bu' & b' & -> & Hbu' & _ & Hrows & _). eauto.
Qed.

Lemma push_inv s total sh b rest rt dr rp rd out em r ws sh' b' :
  inv s total (mkConfig sh (b :: rest) false false rt dr rp rd out em) ->
  poll_push PushTask sh b = (Ok r, ws, sh', b') ->
  let c' := mkConfig sh' (match r with PollPush.Pending => b' :: rest | PollPush.NeedsMore => rest end) false
            (match r with PollPush.Pending => true | PollPush.NeedsMore => parked_after PushTask ws false end)
            rt dr (parked_after PullTask ws rp) rd out em in
  inv s total c' /\ measure c' < measure (mkConfig sh (b :: rest) false false rt dr rp rd out em).
Proof.
  intros Hi Hp. inv_fields. destruct sh as [hd pf bu plw psw]. cbn in *. subst psw plw pf.
  assert (rd = false) as -> by (destruct rd; [|done]; destruct Hrd as (_ & ? & _); done).
  apply Forall_cons in Hb as [Hbu Hb]. apply Forall_cons in Hb as [Hout Hb]. apply Forall_cons in Hb as [Hbb Hb].
  destruct hd.
  - rewrite poll_push_full in Hp by done. cbn in Hp. injection Hp as <- <- <- <-.
    assert (rp = false) as -> by (destruct rp; [|done]; destruct Hrp as (? & _); done).
    split; [constructor; unfold batches_ok, in_flight; inv_close; batches|].
    unfold measure. cbn. lia.
  - destruct (poll_push_empty s (mkShared false false bu (if rp then Some PullTask else None) None) b eq_refl Hbu Hbb)
      as (bu' & b1 & Heq & Hbu' & Hrows). rewrite Heq in Hp. cbn in Hp. injection Hp as <- <- <- <-.
    split.
    + destruct rp; cbn; (constructor; unfold batches_ok, in_flight; inv_close); try batches;
        by rewrite <-Hr, Hrows.
    + unfold measure. destruct rp; cbn; lia.
Qed.

Lemma finalize_push_inv s total sh rt dr rp rd out em r ws sh' :
  inv s total (mkConfig sh [] false false rt dr rp rd out em) ->
  poll_finalize_push sh = (r, ws, sh') ->
  let c' := mkConfig sh' [] true false rt dr (parked_after PullTask ws rp) rd out em in
  inv s total c' /\ measure c' < measure (mkConfig sh [] false false rt dr rp rd out em).
Proof.
  intros Hi [= <- <- <-]. inv_fields. destruct sh as [hd pf bu plw psw]. cbn in *. subst psw plw pf.
  assert (rd = false) as -> by (destruct rd; [|done]; destruct Hrd as (_ & ? & _); done).
  split; [|unfold measure; destruct rp; cbn; lia].
  destruct rp; cbn; (constructor; unfold batches_ok, in_flight; inv_close).
Qed.

Lemma execute_inv s total sh lt ld lp b rest out em ws sh' b' out' :
  inv s total (mkConfig sh lt ld lp (b :: rest) false false false out em) ->
  poll_execute PullTask false sh b out = (Ok PollExecute.Ready, ws, sh', b', out') ->
  let c' := mkConfig sh' lt ld (parked_after PushTask ws lp) rest false false false out' (em ++ bl_rows out') in
  inv s total c' /\ measure c' < measure (mkConfig sh lt ld lp (b :: rest) false false false out em).
Proof.
  intros Hi Hp. inv_fields. apply Forall_cons in Hb as [Hbu Hb]. apply Forall_cons in Hb as [Hout Hb].
  apply Forall_app in Hb as [Hlt Hrt]. apply Forall_cons in Hrt as [Hbb Hrt].
  unfold poll_execute in Hp. cbn in Hp.
  destruct (swap_ok s out b Hout Hbb) as (o & b1 & Heq & Ho & _ & Hrows & _). rewrite Heq in Hp.
  injection Hp as <- <- <- <-. cbn. split; [|unfold measure; cbn; lia].
  constructor; unfold batches_ok, in_flight; inv_close; [batches|].
  by rewrite <-Hr, Hrows, <-!app_assoc.
Qed.

Lemma drain_inv s total sh lt ld lp out em input r ws sh' input' out' :
  inv s total (mkConfig sh lt ld lp [] true false false out em) ->
  poll_execute PullTask true sh input out = (Ok r, ws, sh', input', out') ->
  let c' := mkConfig sh' lt ld (parked_after PushTask ws lp) [] true
            (match r with PollExecute.Pending => true | _ => false end)
            (match r with PollExecute.Exhausted => true | _ => false end) out'
            (match r with PollExecute.HasMore => em ++ bl_rows out' | _ => em end) in
  inv s total c' /\ measure c' < measure (mkConfig sh lt ld lp [] true false false out em).
Proof.
  intros Hi Hp. inv_fields. destruct sh as [hd pf bu plw psw]. unfold poll_execute in Hp. cbn in *. subst psw plw pf.
  apply Forall_cons in Hb as [Hbu Hb]. apply Forall_cons in Hb as [Hout Hb]. destruct hd; cbn in Hp.
  - destruct (swap_ok s out bu Hout Hbu) as (o & bu' & Heq & Ho & Hbu' & Hrows & _). rewrite Heq in Hp.
    injection Hp as <- <- <- <- <-. split; [|unfold measure; destruct lp; cbn; lia].
    destruct lp; cbn; (constructor; unfold batches_ok, in_flight; inv_close); try batches;
      by rewrite <-Hr, Hrows, <-!app_assoc.
  - assert (lp = false) as -> by (destruct lp; [|done]; destruct Hlp as (? & _); done). destruct ld; cbn in Hp.
    + destruct (bl_set_num_rows_spec out 0) as (o & Hset & Hwo & Hso & _); [apply Hout|lia|]. rewrite Hset in Hp.
      injection Hp as <- <- <- <- <-. split; [|unfold measure; cbn; lia].
      constructor; unfold batches_ok, in_flight; inv_close.
      destruct Hout as [_ Hso0]. rewrite Hso0 in Hso. batches.
    + injection Hp as <- <- <- <- <-. split; [|unfold measure; cbn; lia].
      constructor; unfold batches_ok, in_flight; inv_close. batches.
Qed.

Lemma step_inv s total c c' : inv s total c -> step c c' -> inv s total c' /\ measure c' < measure c.
Proof.
  intros Hi Hstep. destruct Hstep.
  - by eapply push_inv.
  - by eapply finalize_push_inv.
  - by eapply execute_inv.
  - cbn. inv_fields. split; [|unfold measure; cbn; lia]. constructor; unfold batches_ok, in_flight; inv_close.
  - by eapply drain_inv.
Qed.

Lemma steps_inv s total c c' :
  inv s total c -> clos_refl_trans _ step c c' -> inv s total c' /\ measure c' <= measure c.
Proof.
  intros Hi Hs. revert Hi. induction Hs as [x y Hxy|x|x y z _ IH1 _ IH2]; intros Hi.
  - destruct (step_inv s total x y Hi Hxy). split; [done|lia].
  - done.
  - destruct (IH1 Hi) as [Hy ?]. destruct (IH2 Hy). split; [done|lia].
Qed.

Lemma init_inv s bu out left right :
  Forall (fun b => bl_wf b /\ bl_schema b = s) (bu :: out :: left ++ right) ->
  inv s (concat (bl_rows <$> right) ++ concat (bl_rows <$> left)) (init bu out left right).
Proof. intros Hb. by constructor. Qed.

(** A task that is not parked and not done can always make its next call. *)
Lemma progress s total c :
  inv s total c -> right_done c = false -> exists c', step c c'.
Proof.
  intros Hi Hd. destruct c as [sh lt ld lp rt dr rp rd out em]. pose proof Hi as Hi0. inv_fields. subst rd.
  assert (rp = false -> exists c', step (mkConfig sh lt ld lp rt dr rp false out em) c') as Hright.
  { intros ->. apply Forall_cons in Hb as [Hbu Hb]. apply Forall_cons in Hb as [Hout Hb].
    apply Forall_app in Hb as [_ Hrt]. destruct dr.
    - rewrite Hdr by done. destruct (poll_execute PullTask true sh out out) as [[[[r ws] sh'] i'] o'] eqn:Hp.
      assert (exists p, r = Ok p) as [p ->]; [|eexists; by eapply step_drain].
      unfold poll_execute in Hp. cbn in Hp. destruct (swap_ok s out (buffer sh) Hout Hbu) as (o & bu' & Heq & _).
      rewrite Heq in Hp. destruct (bl_set_num_rows_spec out 0) as (o0 & Hset & _); [apply Hout|lia|]. rewrite Hset in Hp.
      destruct (has_data sh), (push_finished sh); cbn in Hp; injection Hp as <- _ _ _ _; by eexists.
    - destruct rt as [|b rt]; [eexists; apply step_finalize_execute|]. apply Forall_cons in Hrt as [Hbb _].
      destruct (swap_ok s out b Hout Hbb) as (o & b1 & Heq & _). eexists. eapply step_execute.
      unfold poll_execute. cbn. rewrite Heq. done. }
  destruct rp; [|by apply Hright]. destruct Hrp as (Hhd & Hld' & _); [done|]. destruct ld; [done|].
  assert (lp = false) as -> by (destruct lp; [|done]; destruct Hlp as (? & _); congruence).
  destruct lt as [|b lt]; [eexists; by eapply step_finalize_push|].
  apply Forall_cons in Hb as [Hbu Hb]. apply Forall_cons in Hb as [_ Hb]. apply Forall_cons in Hb as [Hbb _].
  destruct (poll_push_empty s sh b Hhd Hbu Hbb) as (bu' & b' & Heq & _). eexists. by eapply step_push.
Qed.

(** ** Properties *)

(** C28. No rows are lost, duplicated or reordered, and nothing deadlocks: in
    every state that any interleaving of the pushing and the pulling task can
    reach, the emitted rows followed by the rows in flight are the right
    input's rows followed by the left input's; while the pull side has not
    reported [Exhausted] some task can run (no wakeup is lost), and once it has,
    all rows were emitted. *)
Theorem union_schedules s bu out left right c :
  Forall (fun b => bl_wf b /\ bl_schema b = s) (bu :: out :: left ++ right) ->
  clos_refl_trans _ step (init bu out left right) c ->
  let total := concat (bl_rows <$> right) ++ concat (bl_rows <$> left) in
  emitted c ++ in_flight c = total
  /\ (right_done c = false -> exists c', step c c')
  /\ (right_done c = true -> emitted c = total).
Proof.
  intros Hb Hs total. destruct (steps_inv s total _ c (init_inv s bu out left right Hb) Hs) as [Hi _].
  split; [apply Hi|]. split; [by eapply progress|]. intros Hd.
  pose proof (inv_rows _ _ _ Hi) as Hr. destruct (inv_right_done _ _ _ Hi Hd) as (Hhd & Hld & Hdr).
  unfold in_flight in Hr. rewrite (inv_draining _ _ _ Hi Hdr), Hhd, (inv_left_done _ _ _ Hi Hld) in Hr.
  cbn in Hr. by rewrite app_nil_r in Hr.
Qed.

(** Every schedule terminates: a run from the initial configuration has at
    most [6 * |left| + |right| + 6] steps, so a scheduler that keeps running
    unparked tasks drains the union in a bounded number of calls. *)
Theorem union_terminates s bu out left right :
  Forall (fun b => bl_wf b /\ bl_schema b = s) (bu :: out :: left ++ right) ->
  forall n c, nsteps step n (init bu out left right) c -> n <= 6 * length left + length right + 6.
Proof.
  intros Hb n c Hn.
  assert (forall n x y, nsteps step n x y -> inv s (concat (bl_rows <$> right) ++ concat (bl_rows <$> left)) x ->
    n + measure y <= measure x) as Hgen.
  { clear n c Hn. intros n x y Hn. induction Hn as [x|n x y z Hxy _ IH]; intros Hi; [lia|].
    destruct (step_inv _ _ x y Hi Hxy) as [Hy Hm]. specialize (IH Hy). lia. }
  specialize (Hgen n _ c Hn (init_inv s bu out left right Hb)). unfold measure at 2 in Hgen. cbn in Hgen. lia.
Qed.

End Union.

(** A complete run: the left batch is buffered first, the right one passes
    through, then the buffer is drained. *)
Definition example_init : @Config (Batch Z nat) (list (option Z)) :=
  init (mkBatch [example_dictionary] 0 None) (mkBatch [example_dictionary] 0 None)
    (take 1 example_batches) (drop 1 example_batches).

Lemma example_init_wf :
  Forall (fun b => bl_wf b /\ bl_schema b = [0])
    (mkBatch [example_dictionary] 0 None :: mkBatch [example_dictionary] 0 None :: take 1 example_batches ++ drop 1 example_batches).
Proof.
  assert (batch_wf (mkBatch [example_dictionary] 0 None)) as Hw.
  { constructor; [|constructor]. split; [exact example_dictionary_wf|apply Nat.le_0_l]. }
  constructor; [by split|]. constructor; [by split|]. exact example_batches_wf.
Qed.

Lemma example_run : exists c, nsteps step 6 example_init c /\ right_done c = true.
Proof.
  eexists. split.
  - eapply nsteps_l; [eapply step_push; reflexivity|].
    eapply nsteps_l; [eapply step_execute; reflexivity|].
    eapply nsteps_l; [eapply step_finalize_push; reflexivity|].
    eapply nsteps_l; [eapply step_finalize_execute|].
    eapply nsteps_l; [eapply (step_drain _ _ _ _ _ _ (mkBatch [] 0 None)); reflexivity|].
    eapply nsteps_l; [eapply (step_drain _ _ _ _ _ _ (mkBatch [] 0 None)); reflexivity|].
    apply nsteps_O.
  - reflexivity.
Qed.

Lemma nsteps_star {A} (R : relation A) n x y : nsteps R n x y -> clos_refl_trans _ R x y.
Proof.
  induction 1 as [|n x y z Hxy _ IH]; [apply rt_refl|]. eapply rt_trans; [by apply rt_step|done].
Qed.

(** The complete run emits the right rows and then the left rows. *)
Lemma union_schedules_witness :
  exists c, clos_refl_trans _ step example_init c
    /\ emitted c = [[Some 8]; [Some 9]; [Some 30]; [Some 10]; [None]]%Z.
Proof.
  destruct example_run as (c & Hrun & Hdone). exists c.
  pose proof (nsteps_star _ _ _ _ Hrun) as Hstar. split; [exact Hstar|].
  rewrite (proj2 (proj2 (union_schedules [0] _ _ _ _ c example_init_wf Hstar)) Hdone). reflexivity.
Defined.

Lemma union_terminates_witness : 6 <= 6 * 1 + 1 + 6.
Proof.
  destruct example_run as (c & Hrun & _).
  exact (union_terminates [0] _ _ _ _ example_init_wf 6 c Hrun).
Defined.
