(* ===== verification/SortLayout.v ===== *)
(** * Sort keys

    Models [arrays/sort/sort_layout.rs]: the layout of a sort row and the
    encodings that make rows comparable byte by byte, with NULLS FIRST/LAST and
    DESC folded into the bytes.  Bytes are integers in [0, 256); a float is its
    bit pattern read as a signed integer, as the source does. *)
From S2P Require Import Prelude Arrays ArrayData Executors.
Local Open Scope Z_scope.

(** ** Byte strings *)

(** Lexicographic comparison of byte slices. *)
Fixpoint cmp_bytes (a b : list Z) : comparison :=
  match a, b with
  | [], [] => Eq
  | [], _ :: _ => Lt
  | _ :: _, [] => Gt
  | x :: a', y :: b' => match x ?= y with Eq => cmp_bytes a' b' | c => c end
  end.

(** [to_be_bytes] of an unsigned [n]-byte integer; a signed one is taken modulo
    [2 ^ (8 * n)]. *)
Fixpoint to_be_bytes (n : nat) (x : Z) : list Z :=
  match n with
  | O => []
  | S n' => (x / 2 ^ (8 * Z.of_nat n')) mod 256 :: to_be_bytes n' x
  end.

(** [!b] on a byte. *)
Definition not_byte (b : Z) : Z := Z.lxor b 255.

(** ** Encodings *)

(** The unsigned and signed integers ([comparable_encode_unsigned!],
    [comparable_encode_signed!]). *)
Definition encode_unsigned (n : nat) (x : Z) : list Z := to_be_bytes n x.

Definition encode_signed (n : nat) (x : Z) : list Z :=
  match to_be_bytes n x with
  | [] => []
  | b0 :: rest => Z.lxor b0 128 :: rest
  end.

(** A value read as a signed [w]-bit integer ([as i16] and the like). *)
Definition as_signed (w : Z) (x : Z) : Z :=
  let u := x mod 2 ^ w in if u <? 2 ^ (w - 1) then u else u - 2 ^ w.

(** [f16::encode], [f32::encode] and [f64::encode]: the shift amounts are 15, 31
    and 31. *)
Definition float_key (w shift : Z) (bits : Z) : Z :=
  let bits := as_signed w bits in
  Z.lxor bits (as_signed w (Z.shiftr (Z.shiftr bits shift mod 2 ^ w) 1)).

Definition encode_f16 (bits : Z) : list Z := encode_signed 2 (float_key 16 15 bits).
Definition encode_f32 (bits : Z) : list Z := encode_signed 4 (float_key 32 31 bits).
Definition encode_f64 (bits : Z) : list Z := encode_signed 8 (float_key 64 31 bits).

(** [bool::encode] *)
Definition encode_bool (b : bool) : list Z := if b then [0] else [1].

(** [Interval::encode] *)
Definition encode_interval (months days nanos : Z) : list Z :=
  encode_signed 4 months ++ encode_signed 4 days ++ encode_signed 8 nanos.

(** [StringPrefix::new_from_buf] *)
Definition string_prefix (buf : list Z) : list Z :=
  let count := Nat.min (length buf) 12 in
  take count buf ++ replicate (12 - count) 0.

(** [PhysicalType], as far as it can be a sort key. *)
Inductive PhysicalType : Type :=
| UntypedNull | Boolean
| Int8 | Int16 | Int32 | Int64 | Int128
| UInt8 | UInt16 | UInt32 | UInt64 | UInt128
| Float16 | Float32 | Float64
| Interval | Binary | Utf8.

(** A non-NULL value of a physical type. *)
Inductive value : Type :=
| VUnit
| VBool (b : bool)
| VInt (z : Z)
| VFloat (bits : Z)
| VInterval (months days nanos : Z)
| VBytes (bs : list Z).

(** [ComparableEncode::encode] at each physical type. *)
Definition encode (pt : PhysicalType) (v : value) : list Z :=
  match pt, v with
  | Boolean, VBool b => encode_bool b
  | Int8, VInt z => encode_signed 1 z
  | Int16, VInt z => encode_signed 2 z
  | Int32, VInt z => encode_signed 4 z
  | Int64, VInt z => encode_signed 8 z
  | Int128, VInt z => encode_signed 16 z
  | UInt8, VInt z => encode_unsigned 1 z
  | UInt16, VInt z => encode_unsigned 2 z
  | UInt32, VInt z => encode_unsigned 4 z
  | UInt64, VInt z => encode_unsigned 8 z
  | UInt128, VInt z => encode_unsigned 16 z
  | Float16, VFloat bits => encode_f16 bits
  | Float32, VFloat bits => encode_f32 bits
  | Float64, VFloat bits => encode_f64 bits
  | Interval, VInterval m d n => encode_interval m d n
  | (Binary | Utf8), VBytes bs => string_prefix bs
  | _, _ => []
  end.

(** [ENCODE_WIDTH] *)
Definition encode_width (pt : PhysicalType) : nat :=
  match pt with
  | UntypedNull => 0
  | Boolean | Int8 | UInt8 => 1
  | Int16 | UInt16 | Float16 => 2
  | Int32 | UInt32 | Float32 => 4
  | Int64 | UInt64 | Float64 => 8
  | Int128 | UInt128 | Interval => 16
  | Binary | Utf8 => 12
  end%nat.

(** [key_width_for_physical_type] *)
Definition key_width_for_physical_type (pt : PhysicalType) : nat := (encode_width pt + 1)%nat.

(** The [Default] value encoded for a NULL; [StringPrefix::EMPTY] for strings. *)
Definition default_value (pt : PhysicalType) : value :=
  match pt with
  | UntypedNull => VUnit
  | Boolean => VBool false
  | Float16 | Float32 | Float64 => VFloat 0
  | Interval => VInterval 0 0 0
  | Binary | Utf8 => VBytes []
  | _ => VInt 0
  end.

(** ** Sort columns and layouts *)

(** [SortColumn]; the data type is given by its physical type. *)
Record SortColumn : Type := mkColumn {
  desc : bool;
  nulls_first : bool;
  phys_type : PhysicalType;
}.

Definition invalid_byte (c : SortColumn) : Z := if nulls_first c then 0 else 255.
Definition valid_byte (c : SortColumn) : Z := if nulls_first c then 255 else 0.

(** [SortColumn::invert_if_desc] *)
Definition invert_if_desc (c : SortColumn) (buf : list Z) : list Z :=
  if desc c then map not_byte buf else buf.

(** What [write_scalar] and [write_binary_prefix] put in the column's buffer. *)
Definition encode_column (c : SortColumn) (pt : PhysicalType) (v : option value) : list Z :=
  match v with
  | Some v => valid_byte c :: invert_if_desc c (encode pt v)
  | None => invalid_byte c :: encode pt (default_value pt)
  end.

(** [SortLayout]: the heap layout is the list of columns that need one. *)
Record SortLayout : Type := mkLayout {
  columns : list SortColumn;
  column_widths : list nat;
  offsets : list nat;
  compare_width : nat;
  row_width : nat;
  heap_types : list PhysicalType;
  heap_mapping : list (option nat);
}.

Definition ROW_INDEX_WIDTH : nat := 4%nat.

Definition is_heap_type (pt : PhysicalType) : bool :=
  match pt with Utf8 | Binary => true | _ => false end.

(** The loop of [SortLayout::try_new]. *)
Fixpoint layout_loop (cols : list SortColumn) (offset : nat) (widths offs : list nat)
    (heap : list PhysicalType) (mapping : list (option nat)) :=
  match cols with
  | [] => (widths, offs, offset, heap, mapping)
  | c :: rest =>
      let width := key_width_for_physical_type (phys_type c) in
      if is_heap_type (phys_type c)
      then layout_loop rest (offset + width) (widths ++ [width]) (offs ++ [offset])
             (heap ++ [phys_type c]) (mapping ++ [Some (length heap)])
      else layout_loop rest (offset + width) (widths ++ [width]) (offs ++ [offset]) heap (mapping ++ [None])
  end.

(** [SortLayout::try_new] *)
Definition try_new (cols : list SortColumn) : SortLayout :=
  let '(widths, offs, offset, heap, mapping) := layout_loop cols 0 [] [] [] [] in
  mkLayout cols widths offs offset (offset + ROW_INDEX_WIDTH) heap mapping.

(** [column_buffer_mut] and the copy into it: the slice of the column is
    replaced; the source slice has the slice's length or the copy panics. *)
Definition write_column (l : SortLayout) (row : list Z) (col : nat) (bytes : list Z) : res (list Z) :=
  size ← index (column_widths l) col;
  offset ← index (offsets l) col;
  _ ← rust_assert (offset + size <=? row_width l)%nat "range end index out of range";
  _ ← rust_assert (length bytes =? size)%nat "source slice length does not match destination slice length";
  Ok (take offset row ++ bytes ++ drop (offset + size) row).

(** The loops of [write_scalar] and [write_binary_prefix] over the row pointers:
    the rows of the block after.  [pt] is the physical type of the array. *)
Fixpoint write_key_loop (l : SortLayout) (col : SortColumn) (pt : PhysicalType) (array_idx : nat)
    (validity : Validity.t) (sel : Selection.t) (buf : list value) (row_idx : nat) (block : list (list Z)) :
    res (list (list Z)) :=
  match block with
  | [] => Ok []
  | row :: rest =>
      valid ← Validity.is_valid validity row_idx;
      bytes ← (if valid : bool then
                 sel_idx ← unwrap (Selection.get sel row_idx);
                 v ← unwrap (buf !! sel_idx);
                 Ok (encode_column col pt (Some v))
               else Ok (encode_column col pt None));
      row' ← write_column l row array_idx bytes;
      rest' ← write_key_loop l col pt array_idx validity sel buf (S row_idx) rest;
      Ok (row' :: rest')
  end.

(** [write_key_array]: the data type of an array is given by its physical type. *)
Definition write_key_array (l : SortLayout) (array_idx : nat) (array : Array value PhysicalType)
    (block : list (list Z)) : res (list (list Z)) :=
  col ← index (columns l) array_idx;
  f ← downcast_execution_format (data array);
  let '(sel, buf) := into_selection_format f in
  write_key_loop l col (datatype array) array_idx (validity array) sel buf 0 block.

(** [SortLayout::write_key_arrays] *)
Fixpoint write_key_arrays (l : SortLayout) (array_idx : nat) (arrays : list (Array value PhysicalType))
    (block : list (list Z)) : res (list (list Z)) :=
  match arrays with
  | [] => Ok block
  | array :: rest =>
      block' ← write_key_array l array_idx array block;
      write_key_arrays l (S array_idx) rest block'
  end.

(** ** Theory of byte strings *)

Definition is_byte (b : Z) : Prop := 0 <= b < 256.

Lemma length_to_be_bytes n x : length (to_be_bytes n x) = n.
Proof. induction n; simpl; congruence. Qed.

Lemma to_be_bytes_byte n x : Forall is_byte (to_be_bytes n x).
Proof. induction n; simpl; constructor; [|done]. apply Z.mod_pos_bound. lia. Qed.

Lemma pow_8_S n : 2 ^ (8 * Z.of_nat (S n)) = 256 * 2 ^ (8 * Z.of_nat n).
Proof. rewrite Nat2Z.inj_succ, Z.mul_succ_r, Z.pow_add_r by lia. change (2 ^ 8) with 256. lia. Qed.

(** Only the value modulo [2 ^ (8 * n)] matters. *)
Lemma to_be_bytes_mod n m x : (n <= m)%nat -> to_be_bytes n (x mod 2 ^ (8 * Z.of_nat m)) = to_be_bytes n x.
Proof.
  induction n as [|n IH]; intros Hnm; simpl; [done|]. rewrite IH by lia. f_equal.
  replace (2 ^ (8 * Z.of_nat m)) with (2 ^ (8 * Z.of_nat n) * 2 ^ (8 * Z.of_nat (m - n)))
    by (rewrite <-Z.pow_add_r by lia; f_equal; lia).
  rewrite Z.rem_mul_r by (try apply Z.pow_nonzero; lia).
  rewrite (Z.mul_comm (2 ^ (8 * Z.of_nat n)) (_ mod _)), Z.div_add by (apply Z.pow_nonzero; lia).
  rewrite (Z.div_small (x mod 2 ^ (8 * Z.of_nat n))) by (apply Z.mod_pos_bound; apply Z.pow_pos_nonneg; lia).
  rewrite Z.add_0_l. replace (m - n)%nat with (S (m - n - 1))%nat by lia. rewrite pow_8_S.
  rewrite Z.rem_mul_r by (try apply Z.pow_nonzero; lia).
  by rewrite (Z.mul_comm 256), Z_mod_plus_full, Z.mod_mod by lia.
Qed.

(** Big-endian bytes compare like the numbers. *)
Lemma cmp_be_bytes n x y :
  0 <= x < 2 ^ (8 * Z.of_nat n) -> 0 <= y < 2 ^ (8 * Z.of_nat n) ->
  cmp_bytes (to_be_bytes n x) (to_be_bytes n y) = (x ?= y).
Proof.
  revert x y. induction n as [|n IH]; intros x y Hx Hy; simpl.
  { symmetry. apply Z.compare_eq_iff. simpl in *. lia. }
  rewrite pow_8_S in Hx, Hy. set (p := 2 ^ (8 * Z.of_nat n)) in *.
  assert (0 < p) as Hp by (apply Z.pow_pos_nonneg; lia).
  assert (0 <= x / p < 256) by (split; [apply Z.div_pos; lia|apply Z.div_lt_upper_bound; lia]).
  assert (0 <= y / p < 256) by (split; [apply Z.div_pos; lia|apply Z.div_lt_upper_bound; lia]).
  rewrite !(Z.mod_small _ 256) by lia.
  rewrite <-(to_be_bytes_mod n n x), <-(to_be_bytes_mod n n y) by lia. fold p.
  rewrite IH by (apply Z.mod_pos_bound; lia).
  pose proof (Z.div_mod x p ltac:(lia)) as Ex. pose proof (Z.div_mod y p ltac:(lia)) as Ey.
  pose proof (Z.mod_pos_bound x p Hp). pose proof (Z.mod_pos_bound y p Hp).
  destruct (Z.compare_spec (x / p) (y / p)) as [Heq|Hlt|Hgt].
  - rewrite Heq in Ex. destruct (Z.compare_spec (x mod p) (y mod p)); symmetry;
      [apply Z.compare_eq_iff|apply Z.compare_lt_iff|apply Z.compare_gt_iff]; lia.
  - symmetry. apply Z.compare_lt_iff. nia.
  - symmetry. apply Z.compare_gt_iff. nia.
Qed.

Lemma cmp_bytes_app a b c d :
  length a = length b -> cmp_bytes (a ++ c) (b ++ d) = match cmp_bytes a b with Eq => cmp_bytes c d | r => r end.
Proof.
  revert b. induction a as [|x a IH]; intros [|y b] Hl; try done. simpl in *.
  destruct (x ?= y); [|done..]. apply IH. lia.
Qed.

Lemma cmp_bytes_refl a : cmp_bytes a a = Eq.
Proof. induction a; simpl; [done|]. by rewrite Z.compare_refl. Qed.

(** Facts about a byte, by enumeration. *)
Lemma byte_cases (P : Z -> bool) :
  forallb P (Z.of_nat <$> seq 0 256) = true -> forall b, is_byte b -> P b = true.
Proof.
  intros HP b Hb. apply (proj1 (forallb_forall P (Z.of_nat <$> seq 0 256))); [done|].
  apply list_elem_of_In, list_elem_of_fmap. exists (Z.to_nat b). unfold is_byte in Hb. rewrite elem_of_seq. lia.
Qed.

Lemma not_byte_spec b : is_byte b -> not_byte b = 255 - b.
Proof. intros Hb. apply Z.eqb_eq. by apply (byte_cases (fun b => not_byte b =? 255 - b)). Qed.

Lemma flip_sign_spec b : is_byte b -> Z.lxor b 128 = (b + 128) mod 256.
Proof. intros Hb. apply Z.eqb_eq. by apply (byte_cases (fun b => Z.lxor b 128 =? (b + 128) mod 256)). Qed.

(** Inverting all bits reverses the order. *)
Lemma cmp_not_bytes a b :
  Forall is_byte a -> Forall is_byte b -> length a = length b ->
  cmp_bytes (map not_byte a) (map not_byte b) = cmp_bytes b a.
Proof.
  intros Ha. revert b. induction Ha as [|x a Hx _ IH]; intros [|y b] Hb Hl; try done.
  apply Forall_cons in Hb as [Hy Hb]. simpl in *. rewrite !not_byte_spec by done.
  replace (255 - x ?= 255 - y) with (y ?= x); [by rewrite IH by (done || lia)|].
  destruct (Z.compare_spec y x), (Z.compare_spec (255 - x) (255 - y)); lia || done.
Qed.

(** ** Signed integers *)

Lemma encode_signed_shift n x :
  (0 < n)%nat -> encode_signed n x = to_be_bytes n (x + 2 ^ (8 * Z.of_nat n - 1)).
Proof.
  intros Hn. destruct n as [|n]; [lia|]. unfold encode_signed. simpl to_be_bytes.
  set (p := 2 ^ (8 * Z.of_nat n)). assert (0 < p) as Hp by (apply Z.pow_pos_nonneg; lia).
  assert (2 ^ (8 * Z.of_nat (S n) - 1) = 128 * p) as ->.
  { replace (8 * Z.of_nat (S n) - 1) with (7 + 8 * Z.of_nat n) by lia. by rewrite Z.pow_add_r by lia. }
  rewrite flip_sign_spec by (apply Z.mod_pos_bound; lia). rewrite Z.div_add by lia.
  rewrite Zplus_mod_idemp_l. f_equal.
  rewrite <-(to_be_bytes_mod n n (x + 128 * p)) by lia. fold p. rewrite Z_mod_plus_full. unfold p. symmetry. by apply to_be_bytes_mod.
Qed.

Lemma encode_signed_cmp n x y :
  (0 < n)%nat ->
  - 2 ^ (8 * Z.of_nat n - 1) <= x < 2 ^ (8 * Z.of_nat n - 1) ->
  - 2 ^ (8 * Z.of_nat n - 1) <= y < 2 ^ (8 * Z.of_nat n - 1) ->
  cmp_bytes (encode_signed n x) (encode_signed n y) = (x ?= y).
Proof.
  intros Hn Hx Hy. rewrite !encode_signed_shift by done.
  assert (2 ^ (8 * Z.of_nat n) = 2 * 2 ^ (8 * Z.of_nat n - 1)) as Hp.
  { rewrite <-Z.pow_succ_r by lia. f_equal. lia. }
  rewrite cmp_be_bytes by lia.
  destruct (Z.compare_spec x y), (Z.compare_spec (x + 2 ^ (8 * Z.of_nat n - 1)) (y + 2 ^ (8 * Z.of_nat n - 1))); lia || done.
Qed.

Lemma encode_signed_shape n x : length (encode_signed n x) = n /\ Forall is_byte (encode_signed n x).
Proof.
  destruct n as [|n]; [done|]. rewrite encode_signed_shift by lia.
  split; [apply length_to_be_bytes|apply to_be_bytes_byte].
Qed.

(** ** Floats *)

(** The rank of a float's bit pattern: negative floats by decreasing magnitude,
    then the others by increasing magnitude; -0 comes right before +0. *)
Definition float_rank (w bits : Z) : Z := if 0 <=? bits then bits else -1 - (bits + 2 ^ (w - 1)).

Definition signed_range (w x : Z) : Prop := - 2 ^ (w - 1) <= x < 2 ^ (w - 1).

Lemma pow_half w : 0 < w -> 2 ^ w = 2 * 2 ^ (w - 1).
Proof. intros Hw. rewrite <-Z.pow_succ_r by lia. f_equal. lia. Qed.

Lemma as_signed_id w x : 0 < w -> signed_range w x -> as_signed w x = x.
Proof.
  intros Hw Hx. unfold as_signed, signed_range in *. pose proof (pow_half w Hw).
  destruct (Z.leb_spec 0 x).
  - rewrite Z.mod_small by lia. by rewrite (proj2 (Z.ltb_lt _ _)) by lia.
  - rewrite <-(Z_mod_plus_full x 1), Z.mod_small by lia.
    rewrite (proj2 (Z.ltb_ge _ _)) by lia. lia.
Qed.

(** Flipping the magnitude bits of a negative number. *)
Lemma lxor_low m k : 0 <= k -> 0 <= m < 2 ^ k -> Z.lxor (m - 2 ^ k) (2 ^ k - 1) = -1 - m.
Proof.
  intros Hk Hm. replace (2 ^ k - 1) with (Z.ones k) by (rewrite Z.ones_equiv; lia).
  assert (m - 2 ^ k = Z.lxor m (Z.shiftl (-1) k)) as ->.
  { replace (m - 2 ^ k) with (m + Z.shiftl (-1) k) by (rewrite Z.shiftl_mul_pow2 by lia; lia).
    apply Z.add_nocarry_lxor. apply Z.bits_inj'. intros i Hi. rewrite Z.land_spec, Z.bits_0.
    destruct (Z.ltb_spec i k); [by rewrite Z.shiftl_spec_low, andb_false_r|].
    by rewrite <-(Z.mod_small m (2 ^ k)), Z.mod_pow2_bits_high by lia. }
  replace (-1 - m) with (Z.lnot m) by (unfold Z.lnot; lia).
  apply Z.bits_inj'. intros i Hi. rewrite !Z.lxor_spec, Z.lnot_spec by lia.
  destruct (Z.ltb_spec i k).
  - rewrite Z.shiftl_spec_low, Z.ones_spec_low by lia. by destruct (Z.testbit m i).
  - rewrite Z.shiftl_spec_high, Z.ones_spec_high, Z.bits_m1 by lia. by destruct (Z.testbit m i).
Qed.

Lemma float_key_rank w bits :
  1 < w -> signed_range w bits -> float_key w (w - 1) bits = float_rank w bits.
Proof.
  intros Hw Hb. unfold float_key, float_rank. rewrite (as_signed_id w bits) by (lia || done).
  unfold signed_range in Hb. pose proof (pow_half w ltac:(lia)) as Hp. rewrite (Z.shiftr_div_pow2 bits) by lia.
  assert (0 < 2 ^ (w - 1)) as Hpos by (apply Z.pow_pos_nonneg; lia).
  destruct (Z.leb_spec 0 bits).
  - rewrite Z.div_small by lia. rewrite Zmod_0_l. rewrite Z.shiftr_0_l. rewrite as_signed_id, Z.lxor_0_r; [done|lia|].
    unfold signed_range. lia.
  - assert (bits / 2 ^ (w - 1) = -1) as -> by (symmetry; apply (Z.div_unique _ _ _ (bits + 2 ^ (w - 1))); lia).
    assert ((-1) mod 2 ^ w = 2 ^ w - 1) as -> by (symmetry; apply (Z.mod_unique _ _ (-1)); lia).
    assert (Z.shiftr (2 ^ w - 1) 1 = 2 ^ (w - 1) - 1) as ->.
    { rewrite Z.shiftr_div_pow2 by lia. change (2 ^ 1) with 2. symmetry. apply (Z.div_unique _ _ _ 1); lia. }
    rewrite as_signed_id by (lia || (unfold signed_range; lia)).
    replace bits with ((bits + 2 ^ (w - 1)) - 2 ^ (w - 1)) at 1 by lia. apply lxor_low; lia.
Qed.

Lemma float_rank_range w bits : 1 < w -> signed_range w bits -> signed_range w (float_rank w bits).
Proof. unfold signed_range, float_rank. intros Hw Hb. destruct (Z.leb_spec 0 bits); lia. Qed.

(** The value of a float with [p] mantissa bits, in units of the smallest
    positive subnormal. *)
Definition magnitude_value (p m : Z) : Z :=
  let e := m / 2 ^ p in let f := m mod 2 ^ p in
  if e =? 0 then f else (2 ^ p + f) * 2 ^ (e - 1).

Definition float_value (w p bits : Z) : Z :=
  if 0 <=? bits then magnitude_value p bits else - magnitude_value p (bits + 2 ^ (w - 1)).

Lemma magnitude_bounds p m :
  0 <= p -> 0 <= m ->
  let e := m / 2 ^ p in
  0 <= magnitude_value p m < 2 ^ p * 2 ^ e /\ (e <> 0 -> 2 ^ p * 2 ^ (e - 1) <= magnitude_value p m).
Proof.
  intros Hp Hm e. unfold magnitude_value. fold e. assert (0 < 2 ^ p) as Hpos by (apply Z.pow_pos_nonneg; lia).
  pose proof (Z.mod_pos_bound m (2 ^ p) Hpos). assert (0 <= e) as He by (apply Z.div_pos; lia).
  destruct (Z.eqb_spec e 0) as [->|Hne]; [simpl; lia|].
  assert (0 < 2 ^ (e - 1)) by (apply Z.pow_pos_nonneg; lia).
  assert (2 ^ e = 2 * 2 ^ (e - 1)) by (apply pow_half; lia). split; [nia|intros _; nia].
Qed.

Lemma magnitude_mono p a b : 0 <= p -> 0 <= a < b -> magnitude_value p a < magnitude_value p b.
Proof.
  intros Hp Hab. assert (0 < 2 ^ p) as Hpos by (apply Z.pow_pos_nonneg; lia).
  destruct (magnitude_bounds p a Hp ltac:(lia)) as [Ha _]. destruct (magnitude_bounds p b Hp ltac:(lia)) as [_ Hb].
  assert (a / 2 ^ p <= b / 2 ^ p) as Hle by (apply Z.div_le_mono; lia).
  assert (0 <= a / 2 ^ p) as H0 by (apply Z.div_pos; lia).
  destruct (Z.eq_dec (a / 2 ^ p) (b / 2 ^ p)) as [Heq|Hne].
  - unfold magnitude_value. rewrite <-Heq. pose proof (Z.div_mod a (2 ^ p) ltac:(lia)).
    pose proof (Z.div_mod b (2 ^ p) ltac:(lia)). rewrite Heq in *.
    assert (a mod 2 ^ p < b mod 2 ^ p) by lia. destruct (Z.eqb_spec (b / 2 ^ p) 0); [done|].
    assert (0 < 2 ^ (b / 2 ^ p - 1)) by (apply Z.pow_pos_nonneg; lia). nia.
  - specialize (Hb ltac:(lia)). assert (2 ^ (a / 2 ^ p) <= 2 ^ (b / 2 ^ p - 1)) by (apply Z.pow_le_mono_r; lia). nia.
Qed.

(** Floats with a smaller value have a smaller rank. *)
Lemma float_value_rank w p a b :
  1 < w -> 0 <= p -> signed_range w a -> signed_range w b ->
  float_value w p a < float_value w p b -> float_rank w a < float_rank w b.
Proof.
  intros Hw Hp Ha Hb. unfold float_value, float_rank, signed_range in *.
  assert (forall x y, 0 <= x -> 0 <= y -> magnitude_value p x < magnitude_value p y -> x < y) as Hinv.
  { intros x y Hx Hy Hlt. destruct (Z.lt_trichotomy x y) as [|[->|Hgt]]; [done|lia|].
    pose proof (magnitude_mono p y x Hp). lia. }
  assert (forall x, 0 <= x -> 0 <= magnitude_value p x) as Hpos.
  { intros x Hx. destruct (magnitude_bounds p x Hp Hx). lia. }
  destruct (Z.leb_spec 0 a), (Z.leb_spec 0 b); intros Hlt.
  - apply Hinv; lia.
  - pose proof (Hpos a). pose proof (Hpos (b + 2 ^ (w - 1))). lia.
  - lia.
  - pose proof (Hinv (b + 2 ^ (w - 1)) (a + 2 ^ (w - 1))). lia.
Qed.

(** ** Order of values and of columns *)

(** Values a column of the type can hold. *)
Definition typed (pt : PhysicalType) (v : value) : Prop :=
  match pt, v with
  | UntypedNull, VUnit => True
  | Boolean, VBool _ => True
  | Int8, VInt z => signed_range 8 z
  | Int16, VInt z => signed_range 16 z
  | Int32, VInt z => signed_range 32 z
  | Int64, VInt z => signed_range 64 z
  | Int128, VInt z => signed_range 128 z
  | UInt8, VInt z => 0 <= z < 2 ^ 8
  | UInt16, VInt z => 0 <= z < 2 ^ 16
  | UInt32, VInt z => 0 <= z < 2 ^ 32
  | UInt64, VInt z => 0 <= z < 2 ^ 64
  | UInt128, VInt z => 0 <= z < 2 ^ 128
  | Float16, VFloat bits => signed_range 16 bits
  | Float32, VFloat bits => signed_range 32 bits
  | Float64, VFloat bits => signed_range 64 bits
  | Interval, VInterval m d n => signed_range 32 m /\ signed_range 32 d /\ signed_range 64 n
  | (Binary | Utf8), VBytes bs => Forall is_byte bs
  | _, _ => False
  end.

Definition then_compare (c d : comparison) : comparison := match c with Eq => d | _ => c end.

(** The order the encoding is meant to have, where it does have it: strings are
    compared by their twelve-byte prefix, ties being left to the heap. *)
Definition order (pt : PhysicalType) (a b : value) : comparison :=
  match a, b with
  | VInt x, VInt y => x ?= y
  | VFloat x, VFloat y =>
      let w := match pt with Float16 => 16 | _ => 32 end in float_rank w x ?= float_rank w y
  | VInterval m d n, VInterval m' d' n' => then_compare (m ?= m') (then_compare (d ?= d') (n ?= n'))
  | VBytes x, VBytes y => cmp_bytes (string_prefix x) (string_prefix y)
  | _, _ => Eq
  end.

(** The types whose encoding preserves that order. *)
Definition order_preserving (pt : PhysicalType) : bool :=
  match pt with Boolean | Float64 => false | _ => true end.

Lemma string_prefix_shape bs : Forall is_byte bs -> length (string_prefix bs) = 12%nat /\ Forall is_byte (string_prefix bs).
Proof.
  intros Hb. unfold string_prefix. rewrite length_app, length_take, length_replicate. split; [lia|].
  apply Forall_app. split; [by apply Forall_take|]. apply Forall_replicate. unfold is_byte. lia.
Qed.

Lemma default_typed pt : typed pt (default_value pt).
Proof. destruct pt; simpl; unfold signed_range; try done; try lia; repeat split; lia. Qed.

Lemma encode_shape pt v :
  typed pt v -> length (encode pt v) = encode_width pt /\ Forall is_byte (encode pt v).
Proof.
  destruct pt, v; cbn [typed encode encode_width]; unfold encode_f16, encode_f32, encode_f64, encode_unsigned;
    intros Ht; try done; try apply encode_signed_shape;
    try (split; [apply length_to_be_bytes|apply to_be_bytes_byte]); try (by apply string_prefix_shape).
  - destruct b; (split; [done|]); repeat constructor; done.
  - unfold encode_interval. rewrite !length_app. destruct (encode_signed_shape 4 months) as [-> ?].
    destruct (encode_signed_shape 4 days) as [-> ?]. destruct (encode_signed_shape 8 nanos) as [-> ?].
    split; [done|]. by rewrite !Forall_app.
Qed.

Lemma encode_order pt a b :
  order_preserving pt = true -> typed pt a -> typed pt b -> cmp_bytes (encode pt a) (encode pt b) = order pt a b.
Proof.
  intros Hp Ha Hb. destruct pt; try done; destruct a, b; try done; cbn [typed encode order] in *; unfold encode_unsigned.
  1-5: apply encode_signed_cmp; [lia|exact Ha|exact Hb].
  1-5: apply cmp_be_bytes; [exact Ha|exact Hb].
  1,2: unfold encode_f16, encode_f32;
    rewrite (float_key_rank 16) || rewrite (float_key_rank 32); try done;
    rewrite (float_key_rank 16) || rewrite (float_key_rank 32); try done;
    apply encode_signed_cmp; try lia; by apply float_rank_range.
  destruct Ha as (Hm & Hd & Hn), Hb as (Hm' & Hd' & Hn'). unfold encode_interval.
  rewrite !cmp_bytes_app by (by rewrite !(proj1 (encode_signed_shape _ _))).
  rewrite !encode_signed_cmp by (lia || assumption). by destruct (months ?= months0), (days ?= days0).
Qed.

(** NULLS FIRST/LAST and DESC. *)
Definition column_order (c : SortColumn) (a b : option value) : comparison :=
  match a, b with
  | None, None => Eq
  | None, Some _ => if nulls_first c then Lt else Gt
  | Some _, None => if nulls_first c then Gt else Lt
  | Some x, Some y => if desc c then order (phys_type c) y x else order (phys_type c) x y
  end.

Definition typed_opt (pt : PhysicalType) (v : option value) : Prop :=
  match v with Some v => typed pt v | None => True end.

Lemma encode_column_shape c v :
  typed_opt (phys_type c) v ->
  length (encode_column c (phys_type c) v) = key_width_for_physical_type (phys_type c) /\ Forall is_byte (encode_column c (phys_type c) v).
Proof.
  assert (is_byte (valid_byte c) /\ is_byte (invalid_byte c)) as [Hvb Hib].
  { unfold valid_byte, invalid_byte, is_byte. destruct (nulls_first c); lia. }
  assert (forall bs, Forall is_byte bs -> Forall is_byte (map not_byte bs)) as Hnot.
  { intros bs Hbs. apply Forall_fmap. eapply Forall_impl; [exact Hbs|]. intros b Hb. simpl.
    rewrite not_byte_spec by done. unfold is_byte in *. lia. }
  unfold key_width_for_physical_type. destruct v as [v|]; simpl; intros Ht.
  - destruct (encode_shape _ _ Ht) as [Hl Hb]. unfold invert_if_desc.
    destruct (desc c); rewrite ?length_map, Hl; (split; [lia|]); constructor; auto.
  - destruct (encode_shape _ _ (default_typed (phys_type c))) as [Hl Hb]. rewrite Hl. split; [lia|]. by constructor.
Qed.

Lemma encode_column_order c a b :
  order_preserving (phys_type c) = true -> typed_opt (phys_type c) a -> typed_opt (phys_type c) b ->
  cmp_bytes (encode_column c (phys_type c) a) (encode_column c (phys_type c) b) = column_order c a b.
Proof.
  intros Hp Ha Hb. unfold encode_column, column_order, valid_byte, invalid_byte, invert_if_desc.
  destruct a as [x|], b as [y|]; simpl in Ha, Hb |- *.
  - rewrite Z.compare_refl. destruct (encode_shape _ _ Ha) as [Hlx Hbx], (encode_shape _ _ Hb) as [Hly Hby].
    destruct (desc c); [rewrite cmp_not_bytes by (done || congruence)|]; by apply encode_order.
  - by destruct (nulls_first c).
  - by destruct (nulls_first c).
  - by rewrite Z.compare_refl, cmp_bytes_refl.
Qed.

(** ** The layout *)

Definition width_of (c : SortColumn) : nat := key_width_for_physical_type (phys_type c).
Definition total_width (cols : list SortColumn) : nat := sum_list_with width_of cols.

Lemma total_width_snoc cols c : total_width (cols ++ [c]) = (total_width cols + width_of c)%nat.
Proof. unfold total_width. rewrite sum_list_with_app. simpl. lia. Qed.

Lemma offsets_cons c cols offset :
  (fun k => offset + total_width (take k (c :: cols)))%nat <$> seq 0 (length (c :: cols))
  = offset :: ((fun k => offset + width_of c + total_width (take k cols))%nat <$> seq 0 (length cols)).
Proof.
  cbn [length seq]. rewrite fmap_cons. f_equal; [unfold total_width; simpl; lia|].
  rewrite <-fmap_S_seq, <-list_fmap_compose. apply list_fmap_ext. intros _ k _. unfold total_width. simpl. lia.
Qed.

Lemma layout_loop_spec cols offset widths offs heap mapping w o off h m :
  layout_loop cols offset widths offs heap mapping = (w, o, off, h, m) ->
  w = widths ++ (width_of <$> cols) /\ off = (offset + total_width cols)%nat /\
  o = offs ++ ((fun k => offset + total_width (take k cols))%nat <$> seq 0 (length cols)) /\
  h = heap ++ filter (fun pt => is_heap_type pt = true) (phys_type <$> cols).
Proof.
  revert offset widths offs heap mapping. induction cols as [|c cols IH]; intros offset widths offs heap mapping.
  { intros [= <- <- <- <- <-]. unfold total_width. simpl. rewrite !app_nil_r. split_and!; done || lia. }
  rewrite offsets_cons, !fmap_cons, filter_cons. cbn [layout_loop]. fold (width_of c).
  assert (total_width (c :: cols) = width_of c + total_width cols)%nat as -> by done.
  destruct (is_heap_type (phys_type c)); intros (-> & -> & -> & ->)%IH; rewrite <-!app_assoc; simpl;
    (split_and!; [done|lia|done|]); done.
Qed.

Lemma try_new_spec cols :
  columns (try_new cols) = cols /\
  column_widths (try_new cols) = (width_of <$> cols) /\
  offsets (try_new cols) = ((fun k => total_width (take k cols)) <$> seq 0 (length cols)) /\
  compare_width (try_new cols) = total_width cols /\
  row_width (try_new cols) = (total_width cols + 4)%nat /\
  heap_types (try_new cols) = filter (fun pt => is_heap_type pt = true) (phys_type <$> cols).
Proof.
  unfold try_new. destruct (layout_loop cols 0 [] [] [] []) as [[[[w o] off] h] m] eqn:Hl.
  apply layout_loop_spec in Hl as (-> & -> & -> & ->). simpl. by split_and!.
Qed.

Lemma write_column_spec cols0 c cols pre old bytes :
  length pre = total_width cols0 -> length bytes = width_of c ->
  write_column (try_new (cols0 ++ c :: cols)) (pre ++ drop (total_width cols0) old) (length cols0) bytes
  = Ok ((pre ++ bytes) ++ drop (total_width (cols0 ++ [c])) old).
Proof.
  intros Hpre Hbytes. destruct (try_new_spec (cols0 ++ c :: cols)) as (_ & Hw & Ho & _ & Hrw & _).
  unfold write_column, index. rewrite Hw, Ho, Hrw, !list_lookup_fmap.
  rewrite lookup_app_r, Nat.sub_diag by lia. rewrite lookup_seq_lt by (rewrite length_app; simpl; lia).
  unfold mbind, res_bind. simpl. rewrite take_app_length.
  rewrite (proj2 (Nat.leb_le _ _)) by (unfold total_width; rewrite sum_list_with_app; simpl; lia).
  rewrite (proj2 (Nat.eqb_eq _ _)) by done. simpl. rewrite <-Hpre.
  rewrite take_app_length, drop_app_add, drop_drop, total_width_snoc, Hpre, <-app_assoc. done.
Qed.

(** ** Writing a block of rows *)

(** The bytes of the columns of one row. *)
Fixpoint row_key (cols : list SortColumn) (vals : list (option value)) : list Z :=
  match cols, vals with
  | c :: cols', v :: vals' => encode_column c (phys_type c) v ++ row_key cols' vals'
  | _, _ => []
  end.

Lemma row_key_snoc cols vals c v :
  length cols = length vals -> row_key (cols ++ [c]) (vals ++ [v]) = row_key cols vals ++ encode_column c (phys_type c) v.
Proof.
  revert vals. induction cols as [|c' cols IH]; intros [|v' vals] Hl; try done; simpl; [by rewrite app_nil_r|].
  rewrite IH, app_assoc by (simpl in Hl; lia). done.
Qed.

Lemma length_row_key cols vals :
  Forall2 (fun c v => typed_opt (phys_type c) v) cols vals -> length (row_key cols vals) = total_width cols.
Proof.
  induction 1 as [|c v cols vals Hv _ IH]; [done|]. simpl. rewrite length_app, IH.
  by rewrite (proj1 (encode_column_shape c v Hv)).
Qed.

(** A key array of the layout: of the column's type, with at least [n] rows. *)
Record key_array (n : nat) (c : SortColumn) (a : Array value PhysicalType) : Prop := {
  key_wf : array_wf a;
  key_type : datatype a = phys_type c;
  key_len : (n <= logical_len (data a))%nat;
  key_typed : forall i, (i < n)%nat -> typed_opt (phys_type c) (row a i);
}.

Lemma write_key_loop_spec cols0 c cols (a : Array value PhysicalType) f pre old n s k :
  key_array n c a -> downcast_execution_format (data a) = Ok f ->
  (forall i, (i < n)%nat -> length (pre i) = total_width cols0) -> (s + k <= n)%nat ->
  write_key_loop (try_new (cols0 ++ c :: cols)) c (phys_type c) (length cols0) (validity a)
    (into_selection_format f).1 (into_selection_format f).2 s
    ((fun i => pre i ++ drop (total_width cols0) (old i)) <$> seq s k)
  = Ok ((fun i => (pre i ++ encode_column c (phys_type c) (row a i)) ++ drop (total_width (cols0 ++ [c])) (old i))
        <$> seq s k).
Proof.
  intros [Hwf Hty Hlen Htyped] Hf Hpre. revert s. induction k as [|k IH]; intros s Hs; [done|].
  cbn [seq]. rewrite !fmap_cons. cbn [write_key_loop].
  destruct (is_valid_spec (validity a) s) as (b & Hb & _); [apply Hwf|rewrite (wf_len _ Hwf); lia|].
  pose proof (row_valid a s b Hwf ltac:(lia) Hb) as Hrow.
  assert (length (encode_column c (phys_type c) (row a s)) = width_of c) as Hw
    by (apply encode_column_shape, Htyped; lia).
  destruct (read_selection (data a) f s) as (j & v & Hj & Hv & Hval & _); [apply Hwf|lia|done|].
  rewrite Hb, Hj. unfold mbind, res_bind. cbn [unwrap]. rewrite Hv. cbn [unwrap].
  assert ((if b then Ok (encode_column c (phys_type c) (Some v)) else Ok (encode_column c (phys_type c) None))
    = Ok (encode_column c (phys_type c) (row a s))) as ->.
  { rewrite Hrow. destruct b; [by rewrite Hval|done]. }
  rewrite write_column_spec by (done || (apply Hpre; lia)). rewrite IH by lia. done.
Qed.

Lemma write_key_array_spec cols0 c cols (a : Array value PhysicalType) pre old n :
  key_array n c a -> (forall i, (i < n)%nat -> length (pre i) = total_width cols0) ->
  write_key_array (try_new (cols0 ++ c :: cols)) (length cols0) a
    ((fun i => pre i ++ drop (total_width cols0) (old i)) <$> seq 0 n)
  = Ok ((fun i => (pre i ++ encode_column c (phys_type c) (row a i)) ++ drop (total_width (cols0 ++ [c])) (old i))
        <$> seq 0 n).
Proof.
  intros Hka Hpre. unfold write_key_array. destruct (try_new_spec (cols0 ++ c :: cols)) as [-> _].
  unfold index. rewrite lookup_app_r, Nat.sub_diag by lia.
  destruct (format_wf _ (wf_buffer _ (key_wf _ _ _ Hka))) as [f Hf].
  pose proof (write_key_loop_spec cols0 c cols a f pre old n 0 n Hka Hf Hpre ltac:(lia)) as Hloop.
  rewrite Hf, (key_type _ _ _ Hka). unfold mbind, res_bind.
  destruct (into_selection_format f) as [sel buf]. exact Hloop.
Qed.

(** The blocks of a write: the keys of the columns in front of what the rows
    held after them. *)
Lemma write_key_arrays_spec cols0 cols vals0 arrays old n :
  Forall2 (key_array n) cols arrays ->
  (forall i, (i < n)%nat -> Forall2 (fun c v => typed_opt (phys_type c) v) cols0 (vals0 i)) ->
  write_key_arrays (try_new (cols0 ++ cols)) (length cols0) arrays
    ((fun i => row_key cols0 (vals0 i) ++ drop (total_width cols0) (old i)) <$> seq 0 n)
  = Ok ((fun i => row_key (cols0 ++ cols) (vals0 i ++ ((fun a => row a i) <$> arrays))
                  ++ drop (total_width (cols0 ++ cols)) (old i)) <$> seq 0 n).
Proof.
  intros Harr. revert cols0 vals0. induction Harr as [|c a cols arrays Hka _ IH]; intros cols0 vals0 Hvals.
  { simpl. rewrite app_nil_r. f_equal. apply list_fmap_ext. intros _ i _. by rewrite app_nil_r. }
  cbn [write_key_arrays]. rewrite (write_key_array_spec cols0 c cols a (fun i => row_key cols0 (vals0 i)) old n Hka)
    by (intros i Hi; by apply length_row_key, Hvals).
  unfold mbind, res_bind. specialize (IH (cols0 ++ [c]) (fun i => vals0 i ++ [row a i])).
  rewrite length_app, Nat.add_1_r, <-app_assoc in IH. simpl in IH.
  transitivity (write_key_arrays (try_new (cols0 ++ c :: cols)) (S (length cols0)) arrays
    ((fun i => row_key (cols0 ++ [c]) (vals0 i ++ [row a i]) ++ drop (total_width (cols0 ++ [c])) (old i)) <$> seq 0 n)).
  { f_equal. apply list_fmap_ext. intros _ i [_ Hi]%list_elem_of_lookup_2%elem_of_seq. simpl.
    rewrite row_key_snoc; [done|]. by eapply Forall2_length, Hvals. }
  rewrite IH.
  - f_equal. apply list_fmap_ext. intros _ i _. by rewrite <-app_assoc.
  - intros i Hi. apply Forall2_app; [by apply Hvals|]. constructor; [by apply (key_typed _ _ _ Hka)|done].
Qed.

(** Columns compared from left to right. *)
Fixpoint row_order (cols : list SortColumn) (x y : list (option value)) : comparison :=
  match cols, x, y with
  | c :: cols', a :: x', b :: y' => then_compare (column_order c a b) (row_order cols' x' y')
  | _, _, _ => Eq
  end.

Lemma row_key_order cols x y :
  Forall (fun c => order_preserving (phys_type c) = true) cols ->
  Forall2 (fun c v => typed_opt (phys_type c) v) cols x -> Forall2 (fun c v => typed_opt (phys_type c) v) cols y ->
  cmp_bytes (row_key cols x) (row_key cols y) = row_order cols x y.
Proof.
  intros Hcols Hx. revert y. induction Hx as [|c a cols x Ha _ IH]; intros y Hy; [by inversion Hy|].
  apply Forall_cons in Hcols as [Hc Hcols]. inversion Hy as [|? b ? y' Hb Hy']; subst. simpl.
  rewrite cmp_bytes_app
    by (rewrite (proj1 (encode_column_shape c a Ha)), (proj1 (encode_column_shape c b Hb)); done).
  rewrite encode_column_order by done. rewrite IH by done. by destruct (column_order c a b).
Qed.

(** The row's values in key order. *)
Definition key_values (arrays : list (Array value PhysicalType)) (i : nat) : list (option value) :=
  (fun a => row a i) <$> arrays.

Lemma key_values_typed cols arrays n i :
  Forall2 (key_array n) cols arrays -> (i < n)%nat ->
  Forall2 (fun c v => typed_opt (phys_type c) v) cols (key_values arrays i).
Proof.
  intros Harr Hi. unfold key_values. apply Forall2_fmap_r. eapply Forall2_impl; [exact Harr|].
  intros c a Hka. by apply (key_typed _ _ _ Hka).
Qed.

Lemma write_block_spec cols arrays (block : list (list Z)) :
  Forall2 (key_array (length block)) cols arrays ->
  write_key_arrays (try_new cols) 0 arrays block
  = Ok ((fun i => row_key cols (key_values arrays i) ++ drop (total_width cols) (block !!! i)) <$> seq 0 (length block)).
Proof.
  intros Harr. pose proof (write_key_arrays_spec [] cols (fun _ => []) arrays (fun i => block !!! i) (length block) Harr) as Hw.
  simpl in Hw. unfold key_values. etransitivity; [|apply Hw; constructor]. clear Hw. f_equal. apply list_eq. intros i. rewrite list_lookup_fmap.
  destruct (decide (i < length block)%nat) as [Hi|Hi].
  - rewrite lookup_seq_lt by done. simpl. unfold total_width. simpl. rewrite drop_0. by apply list_lookup_lookup_total_lt.
  - rewrite lookup_seq_ge by lia. simpl. apply lookup_ge_None. lia.
Qed.

(** C34. Writing the key arrays of a batch into a block of sort rows succeeds,
    leaves the bytes after the keys (the row index) alone, and makes comparing
    two rows byte by byte over the layout's compare width the same as comparing
    them column by column under each column's ASC/DESC and NULLS FIRST/LAST,
    for columns of the order-preserving types (all but booleans and 64-bit
    floats; strings by their twelve-byte prefix). *)
Theorem sort_rows_ordered cols arrays (block : list (list Z)) :
  Forall2 (key_array (length block)) cols arrays ->
  Forall (fun c => order_preserving (phys_type c) = true) cols ->
  exists block', write_key_arrays (try_new cols) 0 arrays block = Ok block' /\
    let w := compare_width (try_new cols) in
    length block' = length block /\
    (forall i, (i < length block)%nat -> drop w (block' !!! i) = drop w (block !!! i)) /\
    (forall i j, (i < length block)%nat -> (j < length block)%nat ->
      cmp_bytes (take w (block' !!! i)) (take w (block' !!! j))
      = row_order cols (key_values arrays i) (key_values arrays j)).
Proof.
  intros Harr Hcols. destruct (try_new_spec cols) as (_ & _ & _ & -> & _).
  eexists. split; [by apply write_block_spec|]. cbn zeta. rewrite length_fmap, length_seq.
  set (out := fmap _ _). assert (forall i, (i < length block)%nat ->
    out !!! i = row_key cols (key_values arrays i) ++ drop (total_width cols) (block !!! i)
    /\ length (row_key cols (key_values arrays i)) = total_width cols) as Hout.
  { intros i Hi. split; [|by eapply length_row_key, key_values_typed].
    apply list_lookup_total_correct. unfold out. by rewrite list_lookup_fmap, lookup_seq_lt. }
  split; [done|]. split.
  - intros i Hi. destruct (Hout i Hi) as [-> Hl]. by rewrite <-Hl at 1; rewrite drop_app_length.
  - intros i j Hi Hj. destruct (Hout i Hi) as [-> Hli], (Hout j Hj) as [-> Hlj].
    rewrite <-Hli at 1. rewrite take_app_length. rewrite <-Hlj at 1. rewrite take_app_length.
    apply row_key_order; [done|by eapply key_values_typed..].
Qed.

(** ORDER BY an integer DESC NULLS LAST, then a string, over three rows. *)
Definition example_columns : list SortColumn := [mkColumn true false Int32; mkColumn false true Utf8].
Definition example_keys : list (Array value PhysicalType) :=
  [mkArray Int32 (Validity.AllValid 3) (DictionaryBuffer Unique [1; 0; 1]%nat (Leaf Shared [VInt (-5); VInt 7]));
   mkArray Utf8 (Validity.AllValid 3) (Leaf Unique [VBytes [98]; VBytes [97; 98]; VBytes [97]])].

Lemma example_keys_ok : Forall2 (key_array 3) example_columns example_keys.
Proof.
  repeat constructor; simpl; try lia.
  - exists Shared, [VInt (-5); VInt 7]. split; [done|]. repeat constructor; simpl; lia.
  - intros [|[|[|i]]] Hi; vm_compute; try lia; split; done.
  - intros [|[|[|i]]] Hi; simpl; try lia; repeat constructor; unfold is_byte; lia.
Qed.

Lemma sort_rows_ordered_witness :
  exists block', write_key_arrays (try_new example_columns) 0 example_keys (replicate 3 (replicate 22 7)) = Ok block'
    /\ cmp_bytes (take 18 (block' !!! 0%nat)) (take 18 (block' !!! 2%nat)) = Gt
    /\ cmp_bytes (take 18 (block' !!! 0%nat)) (take 18 (block' !!! 1%nat)) = Lt.
Proof.
  destruct (sort_rows_ordered example_columns example_keys (replicate 3 (replicate 22 7)) example_keys_ok)
    as (block' & Hw & _ & _ & Hcmp); [by repeat constructor|].
  exists block'. split; [exact Hw|]. split; [apply (Hcmp 0 2)%nat|apply (Hcmp 0 1)%nat]; vm_compute; lia.
Defined.

(** ** Strings and floats *)

Definition pad (n : nat) (bs : list Z) : list Z := take n bs ++ replicate (n - length bs) 0.

Lemma string_prefix_pad bs : string_prefix bs = pad 12 bs.
Proof.
  unfold string_prefix, pad. destruct (Nat.min_spec (length bs) 12) as [[? ->]|[? ->]].
  - by rewrite !take_ge by lia.
  - by replace (12 - 12)%nat with 0%nat by lia; replace (12 - length bs)%nat with 0%nat by lia.
Qed.

Lemma pad_cmp n s t :
  Forall is_byte s -> Forall is_byte t -> cmp_bytes (pad n s) (pad n t) = Lt -> cmp_bytes s t = Lt.
Proof.
  revert s t. induction n as [|n IH]; intros s t Hs Ht; [done|].
  assert (forall u, Forall is_byte u -> cmp_bytes u [] <> Lt) as Hnil by (by intros [|? ?]).
  destruct s as [|x s], t as [|y t]; try done; unfold pad; cbn [take replicate length Nat.sub app cmp_bytes].
  - by rewrite cmp_bytes_refl.
  - apply Forall_cons in Hs as [Hx Hs]. unfold is_byte in Hx. destruct (Z.compare_spec x 0); try done; [|lia].
    intros Hc. specialize (IH s [] Hs (Forall_nil_2 _)). unfold pad in IH. rewrite Nat.sub_0_r, take_nil in IH.
    exfalso. by apply (Hnil s Hs), IH.
  - apply Forall_cons in Hs as [_ Hs], Ht as [_ Ht]. destruct (x ?= y); [|done..]. by apply IH.
Qed.

(** Comparing the encoded prefixes of two strings never contradicts the
    strings: a smaller prefix means a smaller string. *)
Theorem string_prefix_sound s t :
  Forall is_byte s -> Forall is_byte t -> cmp_bytes (string_prefix s) (string_prefix t) = Lt -> cmp_bytes s t = Lt.
Proof. intros Hs Ht. rewrite !string_prefix_pad. by apply pad_cmp. Qed.

Lemma string_prefix_sound_witness : cmp_bytes [97] [97; 0; 98] = Lt.
Proof. apply string_prefix_sound; [repeat constructor; unfold is_byte; lia..|done]. Defined.

(** The encodings of 16- and 32-bit floats order them by value: the value
    is computed from the exponent and mantissa fields, infinities standing
    above the finite floats. *)
Theorem float_keys_ordered a b :
  (signed_range 16 a -> signed_range 16 b -> float_value 16 10 a < float_value 16 10 b ->
     cmp_bytes (encode_f16 a) (encode_f16 b) = Lt) /\
  (signed_range 32 a -> signed_range 32 b -> float_value 32 23 a < float_value 32 23 b ->
     cmp_bytes (encode_f32 a) (encode_f32 b) = Lt).
Proof.
  split; intros Ha Hb Hv.
  - apply (float_value_rank 16 10) in Hv; [|lia..|done|done].
    etransitivity; [by apply (encode_order Float16 (VFloat a) (VFloat b))|]. by apply Z.compare_lt_iff.
  - apply (float_value_rank 32 23) in Hv; [|lia..|done|done].
    etransitivity; [by apply (encode_order Float32 (VFloat a) (VFloat b))|]. by apply Z.compare_lt_iff.
Qed.

Lemma float_keys_ordered_witness :
  cmp_bytes (encode_f32 (as_signed 32 0xC0000000)) (encode_f32 0x3F800000) = Lt.
Proof. apply float_keys_ordered; vm_compute; done || split; done. Defined.

(** The key of a 64-bit float that is not negative: the upper half of its bits
    goes into the lower half. *)
Lemma float_key_64 a : 0 <= a < 2 ^ 63 -> float_key 64 31 a = Z.lxor a (Z.shiftr a 32).
Proof.
  intros Ha. unfold float_key. rewrite (as_signed_id 64 a) by (unfold signed_range; lia).
  assert (H31 : 0 <= Z.shiftr a 31 < 2 ^ 63).
  { rewrite Z.shiftr_div_pow2 by lia. split; [apply Z.div_pos; lia|]. apply Z.div_lt_upper_bound; lia. }
  rewrite Z.mod_small, Z.shiftr_shiftr by lia. rewrite as_signed_id; [done|lia|]. unfold signed_range.
  change (31 + 1) with 32. rewrite Z.shiftr_div_pow2 by lia.
  pose proof (Z.div_pos a (2 ^ 32)). pose proof (Z.div_lt_upper_bound a (2 ^ 32) (2 ^ 63)). lia.
Qed.

Lemma float_key_64_range a : 0 <= a < 2 ^ 63 -> 0 <= float_key 64 31 a < 2 ^ 63.
Proof.
  intros Ha. rewrite float_key_64 by done. assert (H0 : 0 <= Z.lxor a (Z.shiftr a 32)).
  { apply Z.lxor_nonneg. rewrite Z.shiftr_nonneg. tauto. }
  split; [done|]. destruct (Z.lt_ge_cases (Z.lxor a (Z.shiftr a 32)) (2 ^ 63)) as [|Hge]; [done|].
  assert (E : Z.shiftr (Z.lxor a (Z.shiftr a 32)) 63 = 0).
  { rewrite Z.shiftr_lxor, Z.shiftr_shiftr, !Z.shiftr_div_pow2 by lia. rewrite !Z.div_small by lia. done. }
  rewrite Z.shiftr_div_pow2 in E by lia. pose proof (Z.div_le_lower_bound (Z.lxor a (Z.shiftr a 32)) (2 ^ 63) 1). lia.
Qed.

(** A bit that is clear is set by adding it, one that is set is cleared by
    subtracting it. *)
Lemma add_clear_bit a i : 0 <= i -> Z.testbit a i = false -> a + 2 ^ i = Z.lxor a (2 ^ i).
Proof.
  intros Hi Hb. rewrite <- Z.add_nocarry_lxor; [done|]. apply Z.bits_inj'. intros n Hn.
  rewrite Z.land_spec, Z.bits_0, Z.pow2_bits_eqb by done. destruct (Z.eqb_spec i n) as [<-|]; [by rewrite Hb|by rewrite andb_false_r].
Qed.

Lemma lxor_set_bit k i : 0 <= i -> Z.testbit k i = true -> Z.lxor k (2 ^ i) = k - 2 ^ i.
Proof.
  intros Hi Hb. assert (Hc : Z.testbit (Z.lxor k (2 ^ i)) i = false).
  { rewrite Z.lxor_spec, Hb, Z.pow2_bits_true; done. }
  pose proof (add_clear_bit _ i Hi Hc) as E. rewrite Z.lxor_assoc, Z.lxor_nilpotent, Z.lxor_0_r in E. lia.
Qed.

Lemma float_key_64_bit a i : 0 <= a -> 0 <= i < 32 -> a + 2 ^ i < 2 ^ 63 -> Z.testbit a i = false -> Z.testbit a (i + 32) = true ->
  float_key 64 31 (a + 2 ^ i) = float_key 64 31 a - 2 ^ i.
Proof.
  intros Ha Hi Hlt Hb Hu. assert (0 < 2 ^ i) by (apply Z.pow_pos_nonneg; lia).
  rewrite !float_key_64 by lia. rewrite add_clear_bit, Z.shiftr_lxor by (lia || done).
  assert (Z.shiftr (2 ^ i) 32 = 0) as ->.
  { rewrite Z.shiftr_div_pow2 by lia. apply Z.div_small. split; [lia|]. apply Z.pow_lt_mono_r; lia. }
  rewrite Z.lxor_0_r, <- (lxor_set_bit (Z.lxor a (Z.shiftr a 32)) i) by (try lia; rewrite Z.lxor_spec, Z.shiftr_spec, Hb, Hu by lia; done).
  rewrite !Z.lxor_assoc. f_equal. apply Z.lxor_comm.
Qed.

(** C38. Two encodings do not have the order they are meant to have.  The 64-bit
    float one shifts the sign by 31 instead of 63, which mixes the upper half of
    the bits into the lower one: for every finite float that is not negative and
    every bit of the lower half that is clear while its counterpart in the upper
    half is set, setting the bit makes the float larger and its key smaller.  The
    boolean one orders any two booleans the other way round, TRUE below FALSE. *)
Theorem sort_key_order_broken :
  (forall a i, 0 <= a -> a + 2 ^ i < 0x7FF0000000000000 -> 0 <= i < 32 -> Z.testbit a i = false -> Z.testbit a (i + 32) = true ->
     float_value 64 52 a < float_value 64 52 (a + 2 ^ i) /\ cmp_bytes (encode_f64 a) (encode_f64 (a + 2 ^ i)) = Gt)
  /\ forall x y, cmp_bytes (encode_bool x) (encode_bool y) = Bool.compare y x.
Proof.
  split; [|by intros [] []]. intros a i Ha Hlt Hi Hb Hu. assert (0 < 2 ^ i < 2 ^ 32) by (split; [apply Z.pow_pos_nonneg|apply Z.pow_lt_mono_r]; lia).
  split.
  - unfold float_value. rewrite !(proj2 (Z.leb_le 0 _)) by lia. apply magnitude_mono; lia.
  - pose proof (float_key_64_bit a i Ha Hi ltac:(lia) Hb Hu) as E.
    pose proof (float_key_64_range a ltac:(lia)). pose proof (float_key_64_range (a + 2 ^ i) ltac:(lia)).
    unfold encode_f64. rewrite encode_signed_cmp by lia. rewrite E. apply Z.compare_gt_iff. lia.
Qed.

(** One, and the float whose bit 29 is set besides. *)
Lemma sort_key_order_broken_witness :
  float_value 64 52 0x3FF0000000000000 < float_value 64 52 (0x3FF0000000000000 + 2 ^ 29)
  /\ cmp_bytes (encode_f64 0x3FF0000000000000) (encode_f64 (0x3FF0000000000000 + 2 ^ 29)) = Gt.
Proof. apply sort_key_order_broken; [lia|vm_compute; reflexivity|lia|reflexivity|reflexivity]. Defined.
