(* ===== verification/Hash.v ===== *)
(** * Hashing rows

    Models [arrays/compute/hash.rs]: hashing the rows of one or several arrays,
    in every physical format, with the mixing of the hashes of the columns.  The
    hash of a value is a parameter (the [ahash] crate); lists are not modelled.
    A hash is an integer below [2 ^ 64]. *)
From S2P Require Import Prelude Arrays ArrayData.

(** ** Mixing ([DefaultHasher]) *)

Definition wrap_u64 (x : Z) : Z := x mod 2 ^ 64.

Definition is_u64 (x : Z) : Prop := (0 <= x < 2 ^ 64)%Z.

Definition NULL_HASH : Z := 0xA21258D088C87A13.

(** The inner function [mix] of [combine_hashes]. *)
Definition mix (x : Z) : Z :=
  let M := 0xE9846AF9B1A615D%Z in
  let x := Z.lxor x (Z.shiftr x 32) in
  let x := wrap_u64 (x * M) in
  let x := Z.lxor x (Z.shiftr x 32) in
  let x := wrap_u64 (x * M) in
  Z.lxor x (Z.shiftr x 28).

Definition combine_hashes (v1 v2 : Z) : Z := mix (wrap_u64 (wrap_u64 (v1 + 0x9E3779B9) + v2)).

(** The implementations of [SetHashOp]. *)
Inductive SetHashOp : Type := OverwriteHash | CombineHash.

Definition set_hash (op : SetHashOp) (current new : Z) : Z :=
  match op with
  | OverwriteHash => new
  | CombineHash => combine_hashes current new
  end.

Section Hash.
Context {V DT : Type}.
(** [HashValue::hash_one] *)
Variable hash_one : V -> Z.

(** ** Hashing arrays *)

(** The loops of [hash_typed_inner] over the zipped selection and hashes. *)
Fixpoint hash_loop (f : ExecutionFormat V) (all_valid : bool) (v : Validity.t) (op : SetHashOp) (sel : list nat) (hashes : list Z) :
    res (list Z) :=
  match sel, hashes with
  | idx :: sel', hash :: hashes' =>
      valid ← (if all_valid then Ok true else Validity.is_valid v idx);
      new ← (if valid : bool then x ← read_format f idx; Ok (hash_one x) else Ok NULL_HASH);
      rest ← hash_loop f all_valid v op sel' hashes';
      Ok (set_hash op hash new :: rest)
  | _, _ => Ok hashes
  end.

(** [hash_typed_inner], the branch of [hash_inner] for a scalar type. *)
Definition hash_inner (op : SetHashOp) (arr : Array V DT) (sel : list nat) (hashes : list Z) : res (list Z) :=
  f ← downcast_execution_format (data arr);
  all_valid ← Validity.all_valid (validity arr);
  hash_loop f all_valid (validity arr) op sel hashes.

(** [hash_array] *)
Definition hash_array (arr : Array V DT) (sel : list nat) (hashes : list Z) : res (list Z) :=
  hash_inner OverwriteHash arr sel hashes.

(** The loop of [hash_many_arrays] from array [idx] on. *)
Fixpoint hash_arrays_loop (idx : nat) (arrs : list (Array V DT)) (sel : list nat) (hashes : list Z) : res (list Z) :=
  match arrs with
  | [] => Ok hashes
  | arr :: rest =>
      hashes ← hash_inner (if idx =? 0 then OverwriteHash else CombineHash) arr sel hashes;
      hash_arrays_loop (S idx) rest sel hashes
  end.

(** [hash_many_arrays] *)
Definition hash_many_arrays (arrs : list (Array V DT)) (sel : list nat) (hashes : list Z) : res (list Z) :=
  hash_arrays_loop 0 arrs sel hashes.

(** ** The hash of a row *)

Definition value_hash (o : option V) : Z :=
  match o with Some v => hash_one v | None => NULL_HASH end.

(** The hash of the values of a row; nothing is written for no columns. *)
Definition row_hash_value (vals : list (option V)) : option Z :=
  match vals with
  | [] => None
  | x :: rest => Some (fold_left (fun h y => combine_hashes h (value_hash y)) rest (value_hash x))
  end.

Lemma hash_loop_spec (arr : Array V DT) f all_valid op sel hashes :
  array_wf arr -> downcast_execution_format (data arr) = Ok f -> Validity.all_valid (validity arr) = Ok all_valid ->
  Forall (fun i => i < logical_len (data arr)) sel -> length hashes = length sel ->
  hash_loop f all_valid (validity arr) op sel hashes = Ok (zip_with (fun i h => set_hash op h (value_hash (row arr i))) sel hashes).
Proof.
  intros Hwf Hf Hav Hsel. revert hashes. induction Hsel as [|i sel Hi _ IH]; intros [|h hashes] Hlen; try done.
  cbn [hash_loop zip_with]. destruct (checked_row arr i all_valid Hwf Hi Hav) as (b & -> & Hrow).
  destruct (read_wf (data arr) i (wf_buffer _ Hwf) Hi) as (f' & v & Hf' & Hread & Hv). rewrite Hf in Hf'. injection Hf' as <-.
  unfold mbind, res_bind. rewrite IH by (simpl in Hlen; lia). rewrite Hrow. destruct b; [|done]. by rewrite Hread, Hv.
Qed.

Lemma hash_inner_spec op (arr : Array V DT) sel hashes :
  array_wf arr -> Forall (fun i => i < logical_len (data arr)) sel -> length hashes = length sel ->
  hash_inner op arr sel hashes = Ok (zip_with (fun i h => set_hash op h (value_hash (row arr i))) sel hashes).
Proof.
  intros Hwf Hsel Hlen. unfold hash_inner. destruct (format_wf (data arr) (wf_buffer _ Hwf)) as [f Hf].
  destruct (all_valid_total (validity arr) (wf_validity _ Hwf)) as [av Hav].
  rewrite (bind_ok _ _ _ Hf), (bind_ok _ _ _ Hav). by apply hash_loop_spec.
Qed.

Lemma hash_arrays_combine idx (arrs : list (Array V DT)) sel (g : nat -> Z) :
  Forall (fun a => array_wf a /\ Forall (fun i => i < logical_len (data a)) sel) arrs ->
  hash_arrays_loop (S idx) arrs sel (g <$> sel)
  = Ok ((fun i => fold_left (fun h y => combine_hashes h (value_hash y)) ((fun a => row a i) <$> arrs) (g i)) <$> sel).
Proof.
  intros Harrs. revert idx g. induction Harrs as [|a arrs [Hwf Hsel] _ IH]; intros idx g; [done|]. cbn [hash_arrays_loop Nat.eqb].
  rewrite hash_inner_spec by (by rewrite ?length_fmap). unfold mbind, res_bind. rewrite zip_with_fmap_r, zip_with_diag. by rewrite IH.
Qed.

(** *** Hashes stay within 64 bits *)

Lemma is_u64_lxor a b : is_u64 a -> is_u64 b -> is_u64 (Z.lxor a b).
Proof.
  unfold is_u64. intros Ha Hb. assert (0 <= Z.lxor a b)%Z as Hnn by (apply Z.lxor_nonneg; lia). split; [done|].
  destruct (decide (Z.lxor a b = 0)%Z) as [->|Hnz]; [done|]. apply Z.log2_lt_pow2; [lia|].
  eapply Z.le_lt_trans; [apply Z.log2_lxor; lia|]. apply Z.max_lub_lt.
  - destruct (decide (a = 0)%Z) as [->|]; [done|]. apply Z.log2_lt_pow2; lia.
  - destruct (decide (b = 0)%Z) as [->|]; [done|]. apply Z.log2_lt_pow2; lia.
Qed.

Lemma is_u64_wrap x : is_u64 (wrap_u64 x).
Proof. apply Z.mod_pos_bound. done. Qed.

Lemma is_u64_shiftr x n : (0 <= n)%Z -> is_u64 x -> is_u64 (Z.shiftr x n).
Proof.
  unfold is_u64. intros Hn Hx. split; [apply Z.shiftr_nonneg; lia|]. rewrite Z.shiftr_div_pow2 by done.
  eapply Z.le_lt_trans; [|apply Hx]. apply Z.div_le_upper_bound; [apply Z.pow_pos_nonneg; lia|].
  pose proof (Z.pow_pos_nonneg 2 n). nia.
Qed.

Lemma combine_hashes_u64 v1 v2 : is_u64 (combine_hashes v1 v2).
Proof. unfold combine_hashes, mix. repeat (apply is_u64_lxor || apply is_u64_shiftr || apply is_u64_wrap || done). Qed.

Lemma row_hash_u64 vals h : (forall v, is_u64 (hash_one v)) -> row_hash_value vals = Some h -> is_u64 h.
Proof.
  intros Hone. assert (forall o, is_u64 (value_hash o)) as Hval by (intros [v|]; [apply Hone|done]).
  destruct vals as [|x rest]; [done|]. cbn [row_hash_value]. intros [= <-].
  assert (forall l h0, is_u64 h0 -> is_u64 (fold_left (fun h y => combine_hashes h (value_hash y)) l h0)) as Hfold; [|by apply Hfold].
  induction l as [|y l IH]; intros h0 Hh; [done|]. cbn [fold_left]. apply IH, combine_hashes_u64.
Qed.

(** The hashes are those of the logical rows: whatever the formats of the
    arrays (flat, constant or dictionary) and what the slice held before, the
    hash of a selected row only depends on its values, NULLs included, and fits
    in 64 bits. *)
Theorem hash_many_arrays_correct (arrs : list (Array V DT)) sel hashes :
  arrs <> [] -> Forall (fun a => array_wf a /\ Forall (fun i => i < logical_len (data a)) sel) arrs ->
  length hashes = length sel -> (forall v, is_u64 (hash_one v)) ->
  exists hs, hash_many_arrays arrs sel hashes = Ok hs
    /\ Forall2 (fun i h => row_hash_value ((fun a => row a i) <$> arrs) = Some h /\ is_u64 h) sel hs.
Proof.
  intros Hne Harrs Hlen Hone. destruct arrs as [|a arrs]; [done|]. pose proof (Forall_inv Harrs) as [Hwf Hsel].
  unfold hash_many_arrays. cbn [hash_arrays_loop Nat.eqb]. rewrite hash_inner_spec by done. unfold mbind, res_bind.
  assert (zip_with (fun i h => set_hash OverwriteHash h (value_hash (row a i))) sel hashes = (fun i => value_hash (row a i)) <$> sel) as ->.
  { clear -Hlen. revert hashes Hlen. induction sel as [|i sel IH]; intros [|h hashes] Hlen; try done. cbn. f_equal. apply IH. simpl in Hlen. lia. }
  rewrite hash_arrays_combine by by apply Forall_cons in Harrs as [_ ?]. eexists. split; [done|]. apply Forall2_fmap_r, Forall_Forall2_diag, Forall_forall.
  intros i _. split; [done|]. by apply (row_hash_u64 ((fun a => row a i) <$> a :: arrs)).
Qed.

End Hash.

(** Two columns, one of them a dictionary with a NULL. *)
Definition hash_example : list (Array Z nat) :=
  [mkArray 0 (Validity.AllValid 3) (DictionaryBuffer Unique [1; 1; 0] (Leaf Shared [5; 6]%Z));
   mkArray 0 (Validity.AllInvalid 3) (ConstantBuffer Unique 0 3 (Leaf Shared [7]%Z))].

Lemma hash_many_arrays_correct_witness :
  exists hs, hash_many_arrays wrap_u64 hash_example [0; 2; 1] [9; 9; 9]%Z = Ok hs
    /\ hs !! 0 = hs !! 2 /\ hs !! 0 = row_hash_value wrap_u64 [Some 6%Z; None].
Proof.
  destruct (hash_many_arrays_correct wrap_u64 hash_example [0; 2; 1] [9; 9; 9]%Z) as (hs & Hrun & Hhs).
  - done.
  - constructor; [|constructor; [|constructor]]; (split; [|repeat constructor; simpl; lia]).
    + split; [split; [done|eexists _, _; split; [done|repeat constructor; simpl; lia]]|done..].
    + split; [split; [done|eexists _, _; split; [done|simpl; lia]]|done|done|by exists false].
  - done.
  - intros v. apply is_u64_wrap.
  - exists hs. split; [exact Hrun|]. vm_compute in Hrun. injection Hrun as <-. split; reflexivity.
Defined.
