(* ===== verification/HashDirectory.v ===== *)
(** * The directory of the aggregate hash table

    Models [execution/operators/hash_aggregate/hash_table/directory.rs]: the
    linear-probing directory of row pointers, its growth, and the probe
    arithmetic.  Offsets and capacities are natural numbers, hashes are 64-bit
    integers.  The second half is the theory of linear probing the hash table
    is verified with: a directory stands for the table of the groups its slots
    point to, and the chain property says that every group sits at the end of a
    run of slots occupied by other groups. *)
From S2P Require Import Prelude.

(** ** Definitions *)

(** [NonNull<u8>]: [NonNull::dangling()] marks a claimed slot whose row does not
    exist yet; a row of the collection is given by its position. *)
Inductive RowPtr : Type :=
| Dangling
| RowAt (i : nat).

#[global] Instance RowPtr_eq_dec : EqDecision RowPtr.
Proof. solve_decision. Defined.

Record Entry : Type := mkEntry {
  hash : Z;
  ptr : option RowPtr;
}.

(** [Entry::ZERO] *)
Definition ZERO : Entry := mkEntry 0 None.

Record Directory : Type := mkDirectory {
  num_occupied : nat;
  entries : list Entry;
}.

Definition LOAD_NUM : nat := 7.
Definition LOAD_DEN : nat := 10.
Definition DEFAULT_CAPACITY : nat := 512.

Definition inc_and_wrap_offset (offset cap : nat) : nat := Nat.land (offset + 1) (cap - 1).

Definition compute_offset_from_hash (hash : Z) (cap : nat) : nat := Z.to_nat (Z.land hash (Z.of_nat cap - 1)).

Definition is_power_of_two (v : nat) : bool := Nat.land v (v - 1) =? 0.

(** [usize::next_power_of_two] and [checked_next_power_of_two] *)
Definition next_power_of_two (v : nat) : nat := 2 ^ Nat.log2_up v.

Definition checked_next_power_of_two (v : nat) : option nat :=
  if Nat.log2_up v <=? 63 then Some (next_power_of_two v) else None.

(** [Directory::try_with_capacity] *)
Definition try_with_capacity (capacity : nat) : Directory :=
  mkDirectory 0 (replicate (next_power_of_two capacity) ZERO).

(** [Directory::capacity] *)
Definition capacity (d : Directory) : nat := length (entries d).

(** The probe loop of [resize], for at most [fuel] slots.  A full cycle without
    an empty slot, after which the source would loop for ever, is the last
    [Panic]. *)
Fixpoint place (fuel : nat) (ents : list Entry) (offset cap : nat) (ent : Entry) : res (list Entry) :=
  match fuel with
  | 0 => Panic "no empty slot"
  | S fuel' =>
      e ← index ents offset;
      match ptr e with
      | None => Ok (<[offset := ent]> ents)
      | Some _ => place fuel' ents (inc_and_wrap_offset offset cap) cap ent
      end
  end.

(** The loop of [resize] over the old entries. *)
Fixpoint reinsert (old : list Entry) (ents : list Entry) (cap : nat) : res (list Entry) :=
  match old with
  | [] => Ok ents
  | ent :: rest =>
      match ptr ent with
      | None => reinsert rest ents cap
      | Some _ =>
          ents' ← place cap ents (compute_offset_from_hash (hash ent) cap) cap ent;
          reinsert rest ents' cap
      end
  end.

(** [Directory::resize] *)
Definition resize (d : Directory) (new_capacity : nat) : res Directory :=
  new_capacity ← (if is_power_of_two new_capacity then Ok new_capacity
                  else match checked_next_power_of_two new_capacity with
                       | Some c => Ok c
                       | None => Err "Requested capacity for directory to high"
                       end);
  if new_capacity <? length (entries d) then Err "Cannot reduce capacity of hash table"
  else
    ents ← reinsert (entries d) (replicate new_capacity ZERO) new_capacity;
    Ok (mkDirectory (num_occupied d) ents).

(** [Directory::needs_resize] *)
Definition needs_resize (d : Directory) (num_inputs : nat) : bool :=
  capacity d * LOAD_NUM <? (num_occupied d + num_inputs) * LOAD_DEN.

(** ** Probe arithmetic *)

Definition pow2 (cap : nat) : Prop := exists k, cap = 2 ^ k.

Lemma pow2_pos cap : pow2 cap -> 0 < cap.
Proof. intros [k ->]. induction k; simpl; lia. Qed.

Lemma land_pow2 x cap : pow2 cap -> Nat.land x (cap - 1) = x mod cap.
Proof.
  intros [k ->]. rewrite <-Nat.land_ones. f_equal. rewrite Nat.ones_equiv. lia.
Qed.

Lemma next_power_of_two_spec v : pow2 (next_power_of_two v) /\ v <= next_power_of_two v.
Proof.
  unfold next_power_of_two. split; [by eexists|]. destruct (decide (v <= 1)) as [Hle|Hgt].
  - pose proof (pow2_pos (2 ^ Nat.log2_up v) ltac:(by eexists)). lia.
  - apply Nat.log2_up_spec. lia.
Qed.

Lemma next_power_of_two_le v b : pow2 b -> v <= b -> next_power_of_two v <= b.
Proof.
  intros [k ->] Hv. unfold next_power_of_two. apply Nat.pow_le_mono_r; [lia|].
  destruct (decide (v = 0)) as [->|]; [apply Nat.le_0_l|]. apply Nat.log2_up_le_pow2; lia.
Qed.

(** Doubling suffices to reach the next power of two. *)
Lemma next_power_of_two_lt v : 1 < v -> next_power_of_two v < 2 * v.
Proof.
  intros Hv. destruct (Nat.log2_up_spec v Hv) as [Hlt _]. unfold next_power_of_two.
  pose proof (Nat.log2_up_pos v Hv). destruct (Nat.log2_up v) as [|k]; [lia|]. simpl in *. lia.
Qed.

Lemma is_power_of_two_spec v : 0 < v -> is_power_of_two v = true -> pow2 v.
Proof.
  intros Hv Hland%Nat.eqb_eq. exists (Nat.log2 v).
  destruct (Nat.log2_spec v Hv) as [Hlo Hhi]. destruct (decide (v = 2 ^ Nat.log2 v)) as [|Hne]; [done|].
  assert (Nat.log2 (v - 1) = Nat.log2 v) as Hlog by (apply Nat.log2_unique; lia).
  pose proof (Nat.bit_log2 v ltac:(lia)) as Hb1.
  assert (v - 1 <> 0) as Hnz.
  { pose proof (pow2_pos (2 ^ Nat.log2 v) ltac:(by eexists)). lia. }
  pose proof (Nat.bit_log2 (v - 1) Hnz) as Hb2. rewrite Hlog in Hb2.
  assert (Nat.testbit (Nat.land v (v - 1)) (Nat.log2 v) = true) as Hbit by (by rewrite Nat.land_spec, Hb1, Hb2).
  by rewrite Hland, Nat.bits_0 in Hbit.
Qed.

(** The [j]-th slot of the probe sequence of a hash. *)
Definition slot (cap : nat) (h : Z) (j : nat) : nat := (compute_offset_from_hash h cap + j) mod cap.

Lemma offset_from_hash_lt h cap : pow2 cap -> compute_offset_from_hash h cap < cap.
Proof.
  intros Hp. pose proof (pow2_pos cap Hp) as Hpos. destruct Hp as [k ->]. unfold compute_offset_from_hash.
  rewrite Nat2Z.inj_pow. replace (Z.of_nat 2 ^ Z.of_nat k - 1)%Z with (Z.ones (Z.of_nat k)) by (rewrite Z.ones_equiv; lia).
  rewrite Z.land_ones by lia. pose proof (Z.mod_pos_bound h (2 ^ Z.of_nat k) ltac:(apply Z.pow_pos_nonneg; lia)).
  apply Nat2Z.inj_lt. rewrite Nat2Z.inj_pow, Z2Nat.id by lia. simpl (Z.of_nat 2). lia.
Qed.

Lemma slot_0 cap h : pow2 cap -> slot cap h 0 = compute_offset_from_hash h cap.
Proof. intros Hp. unfold slot. rewrite Nat.add_0_r. by apply Nat.mod_small, offset_from_hash_lt. Qed.

Lemma slot_lt cap h j : pow2 cap -> slot cap h j < cap.
Proof. intros Hp. apply Nat.mod_upper_bound. pose proof (pow2_pos cap Hp). lia. Qed.

Lemma slot_S cap h j : pow2 cap -> inc_and_wrap_offset (slot cap h j) cap = slot cap h (S j).
Proof.
  intros Hp. unfold inc_and_wrap_offset. rewrite land_pow2 by done. unfold slot.
  rewrite Nat.Div0.add_mod_idemp_l. f_equal. lia.
Qed.

(** The probe sequence reaches every slot. *)
Lemma slot_surj cap h s : pow2 cap -> s < cap -> exists j, j < cap /\ slot cap h j = s.
Proof.
  intros Hp Hs. pose proof (offset_from_hash_lt h cap Hp) as Ho. set (o := compute_offset_from_hash h cap) in *.
  exists ((s + cap - o) mod cap). split; [apply Nat.mod_upper_bound; lia|]. unfold slot. fold o.
  rewrite Nat.Div0.add_mod_idemp_r. replace (o + (s + cap - o)) with (s + 1 * cap) by lia.
  rewrite Nat.Div0.mod_add. by apply Nat.mod_small.
Qed.

(** ** Tables of groups *)

Section Table.
Context {K : Type}.
Implicit Types (T : list (option (Z * K))) (h : Z) (g : K).

(** Slots that a search for [g] with hash [h] passes over. *)
Definition skipped T h g (s : nat) : Prop := exists x, T !! s = Some (Some x) /\ x <> (h, g).

(** Every group sits at the end of a run of slots that a search for it passes
    over. *)
Definition chain (cap : nat) T : Prop :=
  forall s h g, T !! s = Some (Some (h, g)) ->
    exists d, d < cap /\ s = slot cap h d /\ forall j, j < d -> skipped T h g (slot cap h j).

(** A search for [g] has reached the [d]-th slot of its probe sequence. *)
Definition reached (cap : nat) T h g (d : nat) : Prop := forall j, j < d -> skipped T h g (slot cap h j).

Definition occupied T : nat := length (filter (fun o => is_Some o) T).

Lemma occupied_insert T s x : T !! s = Some None -> occupied (<[s := Some x]> T) = S (occupied T).
Proof.
  intros Hs. unfold occupied. rewrite insert_take_drop by (by eapply lookup_lt_Some).
  rewrite <-(take_drop_middle T s None Hs) at 3. rewrite !filter_app, !length_app, !filter_cons.
  rewrite decide_True by (by eexists). rewrite decide_False by (by intros [? ?]). simpl. lia.
Qed.

Lemma free_slot T : occupied T < length T -> exists s, T !! s = Some None.
Proof.
  unfold occupied. induction T as [|[x|] T IH]; [simpl; lia| |by exists 0].
  rewrite filter_cons, decide_True by (by eexists). cbn [length]. intros Hlt.
  destruct IH as [s Hs]; [lia|]. by exists (S s).
Qed.

Lemma occupied_replicate n : occupied (replicate n (None : option (Z * K))) = 0.
Proof.
  induction n as [|n IH]; [done|]. unfold occupied in *. cbn [replicate]. rewrite filter_cons.
  by rewrite decide_False by (by intros [? ?]).
Qed.

Lemma skipped_insert T s x h g s' : T !! s = Some None -> skipped T h g s' -> skipped (<[s := Some x]> T) h g s'.
Proof.
  intros Hs (y & Hy & Hne). exists y. split; [|done]. rewrite list_lookup_insert_ne; [done|].
  intros ->. by rewrite Hs in Hy.
Qed.

Lemma reached_insert cap T s x h g d : T !! s = Some None -> reached cap T h g d -> reached cap (<[s := Some x]> T) h g d.
Proof. intros Hs Hr j Hj. by apply skipped_insert, Hr. Qed.

(** A search that has not met a free slot has not gone round. *)
Lemma reached_lt cap T h g d :
  pow2 cap -> length T = cap -> occupied T < cap -> reached cap T h g d -> d < cap.
Proof.
  intros Hp Hlen Hocc Hr. destruct (free_slot T) as [s Hs]; [lia|].
  destruct (slot_surj cap h s Hp) as (j & Hj & <-); [rewrite <-Hlen; by eapply lookup_lt_Some|].
  destruct (decide (j < d)) as [Hlt|]; [|lia]. destruct (Hr j Hlt) as (x & Hx & _). by rewrite Hs in Hx.
Qed.

(** Claiming the free slot a search has reached. *)
Lemma chain_insert cap T h g d :
  pow2 cap -> length T = cap -> chain cap T -> T !! slot cap h d = Some None -> d < cap -> reached cap T h g d ->
  chain cap (<[slot cap h d := Some (h, g)]> T).
Proof.
  intros Hp Hlen Hc Hs Hd Hr s h' g' Hl. apply list_lookup_insert_Some in Hl as [(<- & Heq & _)|[Hne Hl]].
  - simplify_eq. exists d. split; [done|]. split; [done|]. by apply reached_insert.
  - destruct (Hc s h' g' Hl) as (d' & Hd' & -> & Hr'). exists d'. split; [done|]. split; [done|].
    intros j Hj. by apply skipped_insert, Hr'.
Qed.

(** A group has one slot, and a search that reached it ends there. *)
Lemma chain_unique cap T s s' h g :
  chain cap T -> T !! s = Some (Some (h, g)) -> T !! s' = Some (Some (h, g)) -> s = s'.
Proof.
  intros Hc Hs Hs'. destruct (Hc s h g Hs) as (d & _ & -> & Hr), (Hc s' h g Hs') as (d' & _ & -> & Hr').
  destruct (Nat.lt_trichotomy d d') as [Hlt|[->|Hlt]]; [|done|].
  - destruct (Hr' d Hlt) as (x & Hx & Hne). congruence.
  - destruct (Hr d' Hlt) as (x & Hx & Hne). congruence.
Qed.

(** A search that stands on a free slot is for a group that is not in the
    table. *)
Lemma reached_absent cap T h g d s :
  chain cap T -> reached cap T h g d -> T !! slot cap h d = Some None -> T !! s <> Some (Some (h, g)).
Proof.
  intros Hc Hr Hfree Hs. destruct (Hc s h g Hs) as (d' & _ & -> & Hr').
  destruct (Nat.lt_trichotomy d d') as [Hlt|[->|Hlt]].
  - destruct (Hr' d Hlt) as (x & Hx & _). congruence.
  - congruence.
  - destruct (Hr d' Hlt) as (x & Hx & Hne). congruence.
Qed.

Lemma reached_S cap T h g d : reached cap T h g d -> skipped T h g (slot cap h d) -> reached cap T h g (S d).
Proof. intros Hr Hs j Hj. destruct (decide (j = d)) as [->|]; [done|]. apply Hr. lia. Qed.

End Table.

(** ** Growing the directory *)

Section Resize.
Context {K : Type}.
Variable row_of : RowPtr -> option (Z * K).

(** What a slot stands for; [row_of] gives the hash and the group a pointer
    leads to. *)
Definition entry_rel (e : Entry) (o : option (Z * K)) : Prop :=
  match ptr e with
  | None => o = None
  | Some p => exists g, row_of p = Some (hash e, g) /\ o = Some (hash e, g)
  end.

Definition directory_rel (ents : list Entry) (T : list (option (Z * K))) : Prop := Forall2 entry_rel ents T.

Lemma directory_rel_insert ents T s e o :
  directory_rel ents T -> entry_rel e o -> directory_rel (<[s := e]> ents) (<[s := o]> T).
Proof. intros Hr He. by apply Forall2_insert. Qed.

Lemma place_spec fuel ents T cap h g p d :
  pow2 cap -> length T = cap -> directory_rel ents T -> chain cap T -> occupied T < cap ->
  row_of p = Some (h, g) -> (forall s, T !! s <> Some (Some (h, g))) -> reached cap T h g d -> cap <= fuel + d ->
  exists s ents', place fuel ents (slot cap h d) cap (mkEntry h (Some p)) = Ok ents'
    /\ T !! s = Some None /\ ents' = <[s := mkEntry h (Some p)]> ents /\ chain cap (<[s := Some (h, g)]> T).
Proof.
  intros Hp Hlen Hrel Hc Hocc Hrow Habs. revert d. induction fuel as [|fuel IH]; intros d Hr Hfuel.
  { pose proof (reached_lt cap T h g d Hp Hlen Hocc Hr). lia. }
  destruct (lookup_lt_is_Some_2 T (slot cap h d)) as [o Ho]; [rewrite Hlen; by apply slot_lt|].
  destruct (Forall2_lookup_r _ _ _ _ _ Hrel Ho) as (e & He & Hent). simpl. unfold index. rewrite He.
  unfold mbind, res_bind. unfold entry_rel in Hent. destruct (ptr e) as [q|].
  - destruct Hent as (g' & _ & ->). rewrite slot_S by done. apply IH; [|lia]. apply reached_S; [done|].
    eexists. split; [exact Ho|]. intros Heq. apply (Habs (slot cap h d)). by rewrite Ho, Heq.
  - subst o. exists (slot cap h d). eexists. split; [done|]. split; [done|]. split; [done|].
    apply chain_insert; try done. by eapply reached_lt.
Qed.

(** The groups of the slots that are still to be moved. *)
Definition unmoved (old : list (option (Z * K))) (T : list (option (Z * K))) : Prop :=
  forall h g s s', old !! s = Some (Some (h, g)) ->
    T !! s' <> Some (Some (h, g)) /\ (forall s'', old !! s'' = Some (Some (h, g)) -> s'' = s).

Lemma reinsert_spec old oldT ents T cap :
  pow2 cap -> length T = cap -> directory_rel old oldT -> directory_rel ents T -> chain cap T ->
  occupied T + occupied oldT <= cap -> unmoved oldT T ->
  exists ents' T', reinsert old ents cap = Ok ents' /\ directory_rel ents' T' /\ length T' = cap /\ chain cap T'
    /\ occupied T' = occupied T + occupied oldT
    /\ (forall x, (exists s, T' !! s = Some (Some x)) <-> (exists s, T !! s = Some (Some x)) \/ (exists s, oldT !! s = Some (Some x))).
Proof.
  intros Hp Hlen Hold. revert ents T Hlen. induction Hold as [|e o old oldT He Hold IH];
    intros ents T Hlen Hrel Hc Hocc Hun; simpl.
  { exists ents, T. split_and!; [done..|unfold occupied; simpl; lia|]. intros x. split; [by left|].
    intros [?|[s Hs]]; [done|]. by rewrite lookup_nil in Hs. }
  assert (forall x, (exists s, (o :: oldT) !! s = Some (Some x)) <-> o = Some x \/ exists s, oldT !! s = Some (Some x)) as Hcons.
  { intros x. split; [intros [[|s] Hs]; [left; by injection Hs|right; by exists s]|].
    intros [->|[s Hs]]; [by exists 0|by exists (S s)]. }
  unfold entry_rel in He. destruct (ptr e) as [p|] eqn:Hptr.
  - destruct He as (g & Hrow & ->).
    assert (occupied (Some (hash e, g) :: oldT) = S (occupied oldT)) as Ho
      by (unfold occupied; by rewrite filter_cons, decide_True by (by eexists)).
    destruct (place_spec cap ents T cap (hash e) g p 0) as (s & ents' & Hpl & Hs & -> & Hc'); try done; try lia.
    { intros s. by apply (Hun (hash e) g 0 s). }
    { intros j Hj. lia. }
    replace (mkEntry (hash e) (Some p)) with e in * by (destruct e; simpl in *; congruence).
    rewrite slot_0 in Hpl by done. rewrite Hpl. unfold mbind, res_bind.
    destruct (IH (<[s := e]> ents) (<[s := Some (hash e, g)]> T)) as (e2 & T2 & Hre & Hr2 & Hl2 & Hc2 & Hocc2 & Hin2).
    + by rewrite length_insert.
    + apply directory_rel_insert; [done|]. unfold entry_rel. rewrite Hptr. by exists g.
    + done.
    + rewrite occupied_insert by done. lia.
    + intros h' g' s1 s2 Hs1. destruct (Hun h' g' (S s1) s2 Hs1) as [Hno Huniq]. split.
      * intros [(-> & Heq & _)|[_ Hl]]%list_lookup_insert_Some; [|done]. simplify_eq.
        by specialize (Huniq 0 eq_refl).
      * intros s'' Hs''. specialize (Huniq (S s'') Hs''). lia.
    + exists e2, T2. split_and!; try done; [rewrite Hocc2, occupied_insert by done; lia|].
      intros x. rewrite Hin2, Hcons. split.
      * intros [[s' [(-> & Heq & _)|[_ Hl]]%list_lookup_insert_Some]|Hx]; [right; left; congruence|left; by exists s'|by right; right].
      * intros [[s' Hl]|[Heq|Hx]]; [left; exists s'|left; exists s|by right].
        -- rewrite list_lookup_insert_ne; [done|]. intros ->. congruence.
        -- rewrite list_lookup_insert_eq; [congruence|]. by eapply lookup_lt_Some.
  - subst o. assert (occupied (None :: oldT) = occupied oldT) as Ho
      by (unfold occupied; by rewrite filter_cons, decide_False by (by intros [? ?])).
    rewrite Ho in Hocc. destruct (IH ents T Hlen Hrel Hc Hocc) as (e2 & T2 & Hre & Hr2 & Hl2 & Hc2 & Hocc2 & Hin2).
    { intros h' g' s1 s2 Hs1. destruct (Hun h' g' (S s1) s2 Hs1) as [Hno Huniq]. split; [done|].
      intros s'' Hs''. specialize (Huniq (S s'') Hs''). lia. }
    exists e2, T2. rewrite Ho. split_and!; [done..|]. intros x. rewrite Hin2, Hcons.
    split; [intros [?|?]; auto|]. intros [?|[?|?]]; auto. done.
Qed.

(** A well-formed directory for the table [T]. *)
Record directory_wf (d : Directory) (T : list (option (Z * K))) : Prop := {
  dir_pow2 : pow2 (length T);
  dir_rel : directory_rel (entries d) T;
  dir_chain : chain (length T) T;
  dir_occupied : num_occupied d = occupied T;
}.

Lemma directory_capacity d T : directory_rel (entries d) T -> capacity d = length T.
Proof. intros Hr. by eapply Forall2_length. Qed.

Lemma occupied_le T : occupied (K := K) T <= length T.
Proof. apply length_filter. Qed.

(** Growing keeps the groups. *)
Lemma resize_spec d T n :
  directory_wf d T -> capacity d <= n -> Nat.log2_up n <= 63 ->
  exists d' T', resize d n = Ok d' /\ directory_wf d' T' /\ num_occupied d' = num_occupied d
    /\ length T' = next_power_of_two n
    /\ (forall x, (exists s, T' !! s = Some (Some x)) <-> exists s, T !! s = Some (Some x)).
Proof.
  intros [Hp Hrel Hc Hocc] Hn Hlog. pose proof (directory_capacity d T Hrel) as Hcap.
  pose proof (pow2_pos _ Hp) as Hpos. destruct (next_power_of_two_spec n) as [Hp' Hle].
  unfold resize.
  assert ((if is_power_of_two n then Ok n else match checked_next_power_of_two n with
      | Some c => Ok c | None => Err "Requested capacity for directory to high" end) = Ok (next_power_of_two n)) as ->.
  { destruct (is_power_of_two n) eqn:Hpn.
    - f_equal. apply is_power_of_two_spec in Hpn; [|lia]. pose proof (next_power_of_two_le n n Hpn). lia.
    - unfold checked_next_power_of_two. by rewrite (proj2 (Nat.leb_le _ _)). }
  unfold mbind, res_bind. unfold capacity in *. rewrite (proj2 (Nat.ltb_ge _ _)) by lia.
  set (cap := next_power_of_two n) in *.
  destruct (reinsert_spec (entries d) T (replicate cap ZERO) (replicate cap None) cap) as
    (ents' & T' & -> & Hr' & Hl' & Hc' & Ho' & Hin'); try done.
  - by rewrite length_replicate.
  - by apply Forall2_replicate.
  - intros s h g Hs. by apply lookup_replicate in Hs as [? _].
  - rewrite occupied_replicate. pose proof (occupied_le T). lia.
  - intros h g s s' Hs. split; [by intros [? _]%lookup_replicate|]. intros s'' Hs''. by eapply chain_unique.
  - exists (mkDirectory (num_occupied d) ents'), T'. rewrite occupied_replicate in Ho'.
    split_and!; [done|constructor; simpl; rewrite ?Hl'; (done || lia)|done..|].
    intros x. rewrite Hin'. split; [intros [[s [? _]%lookup_replicate]|?]; done|by right].
Qed.

End Resize.
