(* ===== verification/SortOrder.v ===== *)
(** * The order of sort rows

    The order of keys: column by column, each with its direction and its NULLS
    FIRST/LAST, strings by all of their bytes.  Shows that it is a total preorder,
    how the fixed-size key of a column ([arrays/sort/sort_layout.rs]) and the full
    string on the heap decide it together, and that it is the order that ORDER BY
    means ([sql_row_order]) except on booleans and 64-bit floats. *)
From stdpp Require Import sorting.
From S2P Require Import Prelude Arrays ArrayData SortLayout.

(** ** Comparisons that are total preorders *)

Class TotalPreorder {A} (cmp : A -> A -> comparison) : Prop := {
  cmp_opp : forall x y, cmp y x = CompOpp (cmp x y);
  cmp_trans : forall x y z, cmp x y <> Gt -> cmp y z <> Gt -> cmp x z <> Gt;
}.
Arguments cmp_opp {A} cmp {_} x y.
Arguments cmp_trans {A} cmp {_} x y z.

Section Preorders.
Context {A : Type} (cmp : A -> A -> comparison) `{!TotalPreorder cmp}.

Lemma cmp_refl x : cmp x x = Eq.
Proof. pose proof (cmp_opp cmp x x) as H. by destruct (cmp x x). Qed.

Lemma cmp_ge x y : cmp x y <> Lt -> cmp y x <> Gt.
Proof. rewrite (cmp_opp cmp x y). by destruct (cmp x y). Qed.

Lemma cmp_eq_le x y z : cmp x y <> Gt -> cmp y z <> Gt -> cmp x z = Eq -> cmp x y = Eq /\ cmp y z = Eq.
Proof.
  intros Hxy Hyz Hxz. assert (cmp z x <> Gt) as Hzx by (rewrite (cmp_opp cmp x z), Hxz; done).
  pose proof (cmp_trans cmp _ _ _ Hyz Hzx) as Hyx. pose proof (cmp_trans cmp _ _ _ Hzx Hxy) as Hzy.
  rewrite (cmp_opp cmp x y) in Hyx. rewrite (cmp_opp cmp y z) in Hzy. split; [by destruct (cmp x y)|by destruct (cmp y z)].
Qed.

Lemma cmp_lt_le x y z : cmp x y = Lt -> cmp y z <> Gt -> cmp x z = Lt.
Proof.
  intros Hxy Hyz. assert (cmp x y <> Gt) as Hle by by rewrite Hxy. pose proof (cmp_trans cmp _ _ _ Hle Hyz) as Hxz.
  destruct (cmp x z) eqn:Hc; [|done..]. destruct (cmp_eq_le x y z Hle Hyz Hc). congruence.
Qed.

Lemma cmp_le_lt x y z : cmp x y <> Gt -> cmp y z = Lt -> cmp x z = Lt.
Proof.
  intros Hle Hyz. assert (cmp y z <> Gt) as Hle' by by rewrite Hyz. pose proof (cmp_trans cmp _ _ _ Hle Hle') as Hxz.
  destruct (cmp x z) eqn:Hc; [|done..]. destruct (cmp_eq_le x y z Hle Hle' Hc). congruence.
Qed.

Lemma cmp_eq_cong x y z : cmp x y = Eq -> cmp x z = cmp y z.
Proof.
  intros Hxy. assert (cmp y x = Eq) as Hyx by by rewrite (cmp_opp cmp x y), Hxy.
  destruct (cmp y z) eqn:Hyz.
  - assert (cmp x z <> Gt) as H1 by (apply (cmp_trans cmp x y z); congruence).
    assert (cmp z x <> Gt) as H2. { apply (cmp_trans cmp z y x); [rewrite (cmp_opp cmp y z), Hyz; done|congruence]. }
    rewrite (cmp_opp cmp x z) in H2. by destruct (cmp x z).
  - apply (cmp_le_lt x y z); congruence.
  - assert (cmp z x = Lt) as H1. { apply (cmp_lt_le z y x); [by rewrite (cmp_opp cmp y z), Hyz|congruence]. }
    by rewrite (cmp_opp cmp z x), H1.
Qed.

(** Reversing the order. *)
Lemma flip_preorder : TotalPreorder (fun x y => cmp y x).
Proof. split; intros; [apply (cmp_opp cmp)|eapply (cmp_trans cmp); eauto]. Qed.

(** Comparing by a key. *)
Lemma key_preorder {B} (f : B -> A) : TotalPreorder (fun x y => cmp (f x) (f y)).
Proof. split; intros; [apply (cmp_opp cmp)|eapply (cmp_trans cmp); eauto]. Qed.

End Preorders.

Lemma then_compare_opp c d : CompOpp (then_compare c d) = then_compare (CompOpp c) (CompOpp d).
Proof. by destruct c. Qed.

Lemma then_compare_le c d : then_compare c d <> Gt <-> c <> Gt /\ (c = Eq -> d <> Gt).
Proof. destruct c; simpl; naive_solver. Qed.

(** Comparing by one order and breaking ties by another. *)
Lemma lexicographic_preorder {A} (c d : A -> A -> comparison) :
  TotalPreorder c -> TotalPreorder d -> TotalPreorder (fun x y => then_compare (c x y) (d x y)).
Proof.
  intros Hc Hd. split.
  - intros x y. by rewrite then_compare_opp, <- (cmp_opp c), <- (cmp_opp d).
  - intros x y z. rewrite !then_compare_le. intros [Hxy Hxy'] [Hyz Hyz']. split; [eapply (cmp_trans c); eauto|].
    intros Heq. destruct (cmp_eq_le c x y z Hxy Hyz Heq) as [H1 H2]. eapply (cmp_trans d); eauto.
Qed.

#[global] Instance cmp_bytes_preorder : TotalPreorder cmp_bytes.
Proof.
  split.
  - induction x as [|a x IH]; intros [|b y]; simpl; try done. rewrite (Z.compare_antisym a b), IH. by destruct (a ?= b)%Z.
  - induction x as [|a x IH]; intros [|b y] [|e z]; simpl; try done.
    destruct (Z.compare_spec a b), (Z.compare_spec b e), (Z.compare_spec a e); try done; try lia. apply IH.
Qed.

(** ** The order of values, columns and rows *)

(** What the sort compares values by: all bytes of a string, else the key that is
    encoded.  The order of SQL is [sql_value_order] below. *)
Definition order_key (pt : PhysicalType) (v : value) : list Z :=
  match v with VBytes bs => bs | _ => encode pt v end.

Definition value_order (pt : PhysicalType) (a b : value) : comparison := cmp_bytes (order_key pt a) (order_key pt b).

(** Which for integers, floats of up to 32 bits and intervals is their own order. *)
Lemma value_order_order pt a b :
  order_preserving pt = true -> is_heap_type pt = false -> typed pt a -> typed pt b -> value_order pt a b = order pt a b.
Proof.
  intros Hp Hh Ha Hb. rewrite <- encode_order by done. unfold value_order, order_key. by destruct pt, a, b.
Qed.

Definition full_column_order (c : SortColumn) (a b : option value) : comparison :=
  match a, b with
  | None, None => Eq
  | None, Some _ => if nulls_first c then Lt else Gt
  | Some _, None => if nulls_first c then Gt else Lt
  | Some x, Some y => if desc c then value_order (phys_type c) y x else value_order (phys_type c) x y
  end.

#[global] Instance full_column_preorder c : TotalPreorder (full_column_order c).
Proof.
  assert (TotalPreorder (value_order (phys_type c))) as Hv by apply (key_preorder cmp_bytes).
  split.
  - intros [x|] [y|]; simpl; [|by destruct (nulls_first c)..|done]. destruct (desc c); apply (cmp_opp (value_order _)).
  - intros [x|] [y|] [z|]; simpl; try (by destruct (nulls_first c)). destruct (desc c); intros ? ?; eapply (cmp_trans (value_order _)); eauto.
Qed.

(** The value of a column of a row. *)
Definition column_value (vals : list (option value)) : option value := from_option id None (head vals).

Fixpoint full_row_order (cols : list SortColumn) (x y : list (option value)) : comparison :=
  match cols with
  | [] => Eq
  | c :: cols' =>
      then_compare (full_column_order c (column_value x) (column_value y)) (full_row_order cols' (tail x) (tail y))
  end.

#[global] Instance full_row_preorder cols : TotalPreorder (full_row_order cols).
Proof.
  induction cols as [|c cols IH]; [by split|].
  apply (lexicographic_preorder (fun x y => full_column_order c (column_value x) (column_value y))
           (fun x y => full_row_order cols (tail x) (tail y))).
  - apply (key_preorder (full_column_order c)).
  - apply (key_preorder (full_row_order cols)).
Qed.

(** Rows in the order. *)
Definition row_le (cols : list SortColumn) (x y : list (option value)) : Prop := full_row_order cols x y <> Gt.

#[global] Instance row_le_preorder cols : PreOrder (row_le cols).
Proof.
  split; [intros x; unfold row_le; by rewrite (cmp_refl (full_row_order cols))|].
  intros x y z. apply (cmp_trans (full_row_order cols)).
Qed.

(** ** The order of SQL

    The order that ORDER BY asks for, given by the values and not by their keys:
    FALSE before TRUE, numbers by their size, floats by their rank (which is the
    order of their values, see [float_value_rank]; NaNs are beyond the
    infinities), intervals by months, days and nanoseconds, strings by all of
    their bytes. *)
Definition float_width (pt : PhysicalType) : Z :=
  match pt with Float16 => 16 | Float32 => 32 | _ => 64 end%Z.

Definition sql_value_order (pt : PhysicalType) (a b : value) : comparison :=
  match a, b with
  | VBool x, VBool y => Bool.compare x y
  | VInt x, VInt y => (x ?= y)%Z
  | VFloat x, VFloat y => (float_rank (float_width pt) x ?= float_rank (float_width pt) y)%Z
  | VInterval m d n, VInterval m' d' n' => then_compare (m ?= m')%Z (then_compare (d ?= d')%Z (n ?= n')%Z)
  | VBytes x, VBytes y => cmp_bytes x y
  | _, _ => Eq
  end.

Definition sql_column_order (c : SortColumn) (a b : option value) : comparison :=
  match a, b with
  | None, None => Eq
  | None, Some _ => if nulls_first c then Lt else Gt
  | Some _, None => if nulls_first c then Gt else Lt
  | Some x, Some y => if desc c then sql_value_order (phys_type c) y x else sql_value_order (phys_type c) x y
  end.

Fixpoint sql_row_order (cols : list SortColumn) (x y : list (option value)) : comparison :=
  match cols, x, y with
  | c :: cols', a :: x', b :: y' => then_compare (sql_column_order c a b) (sql_row_order cols' x' y')
  | _, _, _ => Eq
  end.

(** The columns whose keys have that order: not booleans and 64-bit floats. *)
Definition keys_ordered (cols : list SortColumn) : Prop := Forall (fun c => order_preserving (phys_type c) = true) cols.

Lemma sql_value_order_key pt a b : order_preserving pt = true -> typed pt a -> typed pt b -> sql_value_order pt a b = value_order pt a b.
Proof.
  intros Hp Ha Hb. destruct (is_heap_type pt) eqn:Hh.
  - by destruct pt, a, b.
  - rewrite value_order_order by done. by destruct pt, a, b.
Qed.

Lemma sql_row_order_key cols x y : keys_ordered cols ->
  Forall2 (fun c v => typed_opt (phys_type c) v) cols x -> Forall2 (fun c v => typed_opt (phys_type c) v) cols y ->
  sql_row_order cols x y = full_row_order cols x y.
Proof.
  intros Hc Hx. revert y. induction Hx as [|c a cols x Ha _ IH]; intros y Hy; [by inversion Hy|].
  apply Forall_cons in Hc as [Hc Hcols]. inversion Hy as [|? b ? y' Hb Hy']; subst. cbn [sql_row_order full_row_order].
  change (column_value (a :: x)) with a. change (column_value (b :: y')) with b. cbn [tail]. rewrite IH by done. f_equal.
  unfold sql_column_order, full_column_order. destruct a as [v|], b as [w|]; try done. by destruct (desc c); apply sql_value_order_key.
Qed.

(** Rows sorted by their keys are sorted. *)
Lemma sql_sorted {X} (cols : list SortColumn) (vals : X -> list (option value)) (xs : list X) : keys_ordered cols ->
  Forall (fun x => Forall2 (fun c v => typed_opt (phys_type c) v) cols (vals x)) xs ->
  StronglySorted (fun x y => full_row_order cols (vals x) (vals y) <> Gt) xs ->
  StronglySorted (fun x y => sql_row_order cols (vals x) (vals y) <> Gt) xs.
Proof.
  intros Hc Ht Hs. induction Hs as [|x xs _ IH Hx]; [constructor|]. apply Forall_cons in Ht as [Htx Ht]. constructor; [by apply IH|].
  rewrite Forall_forall in *. intros y Hy. rewrite sql_row_order_key by (done || by apply Ht). by apply Hx.
Qed.

(** ** Keys and heap values *)

(** The order of the fixed-size keys of a column decides, and where they are
    equal the strings on the heap do. *)
Definition heap_tie (c : SortColumn) (a b : option value) : comparison :=
  match a, b with
  | Some (VBytes x), Some (VBytes y) => let ord := cmp_bytes x y in if desc c then CompOpp ord else ord
  | _, _ => Eq
  end.

Lemma prefix_decides s t :
  Forall is_byte s -> Forall is_byte t ->
  cmp_bytes s t = then_compare (cmp_bytes (string_prefix s) (string_prefix t)) (cmp_bytes s t).
Proof.
  intros Hs Ht. rewrite !string_prefix_pad. destruct (cmp_bytes (pad 12 s) (pad 12 t)) eqn:Hc; [done|by apply (pad_cmp 12)|].
  simpl. assert (cmp_bytes t s = Lt) as Hlt. { apply (pad_cmp 12); [done..|]. by rewrite (cmp_opp cmp_bytes (pad 12 s)), Hc. }
  by rewrite (cmp_opp cmp_bytes t s), Hlt.
Qed.

Lemma typed_bytes pt v : is_heap_type pt = true -> typed pt v -> exists bs, v = VBytes bs /\ Forall is_byte bs.
Proof. intros Hh Ht. destruct pt, v; try done; eauto. Qed.

(** The comparison of one column. *)
Lemma column_decides c a b :
  typed_opt (phys_type c) a -> typed_opt (phys_type c) b ->
  full_column_order c a b
  = then_compare (cmp_bytes (encode_column c (phys_type c) a) (encode_column c (phys_type c) b))
      (if is_heap_type (phys_type c) then heap_tie c a b else Eq).
Proof.
  intros Ha Hb. unfold encode_column, full_column_order, valid_byte, invalid_byte, invert_if_desc.
  destruct a as [x|], b as [y|]; simpl in Ha, Hb |- *.
  - rewrite Z.compare_refl. destruct (encode_shape _ _ Ha) as [Hlx Hbx], (encode_shape _ _ Hb) as [Hly Hby].
    destruct (is_heap_type (phys_type c)) eqn:Hh.
    + destruct (typed_bytes _ _ Hh Ha) as (s & -> & Hs), (typed_bytes _ _ Hh Hb) as (t & -> & Ht).
      unfold value_order. cbn [order_key heap_tie].
      assert (forall u, encode (phys_type c) (VBytes u) = string_prefix u) as He by (by destruct (phys_type c)).
      rewrite !He in *. destruct (desc c).
      * rewrite cmp_not_bytes by (done || congruence). rewrite <- (cmp_opp cmp_bytes s t). by apply prefix_decides.
      * by apply prefix_decides.
    + assert (forall v, typed (phys_type c) v -> order_key (phys_type c) v = encode (phys_type c) v) as He.
      { intros v Hv. by destruct (phys_type c), v. }
      unfold value_order. rewrite !He by done. assert (forall o, then_compare o Eq = o) as -> by (by intros []).
      destruct (desc c); [|done]. by rewrite cmp_not_bytes by (done || congruence).
  - by destruct (nulls_first c).
  - by destruct (nulls_first c).
  - rewrite Z.compare_refl, cmp_bytes_refl. by destruct (is_heap_type (phys_type c)).
Qed.

(** The bytes of the keys never contradict the order. *)
Lemma row_key_decides cols x y :
  Forall2 (fun c v => typed_opt (phys_type c) v) cols x -> Forall2 (fun c v => typed_opt (phys_type c) v) cols y ->
  Forall (fun c => is_heap_type (phys_type c) = false) cols ->
  cmp_bytes (row_key cols x) (row_key cols y) = full_row_order cols x y.
Proof.
  intros Hx. revert y. induction Hx as [|c a cols x Ha _ IH]; intros y Hy Hh; [by inversion Hy|].
  apply Forall_cons in Hh as [Hc Hh]. inversion Hy as [|? b ? y' Hb Hy']; subst. simpl.
  rewrite cmp_bytes_app by by rewrite (proj1 (encode_column_shape c a Ha)), (proj1 (encode_column_shape c b Hb)).
  rewrite IH by done. change (column_value (a :: x)) with a. change (column_value (b :: y')) with b.
  rewrite column_decides, Hc by done. by destruct (cmp_bytes (encode_column _ _ _) _).
Qed.

(** ** The first rows of an order

    With a limit hint, rows are dropped early: a row may be dropped once enough
    rows that are not greater are kept. *)

Section TopK.
Context {A : Type} (cmp : A -> A -> comparison) `{!TotalPreorder cmp}.
Implicit Types (all kept : list A).

Definition dominated (limit : nat) kept (d : A) : Prop :=
  exists sub, sub ⊆+ kept /\ limit <= length sub /\ Forall (fun a => cmp a d <> Gt) sub.

Definition keeps_top (limit_hint : option nat) all kept : Prop :=
  exists dropped, kept ++ dropped ≡ₚ all
    /\ forall d, d ∈ dropped -> exists limit, limit_hint = Some limit /\ dominated limit kept d.

Lemma dominated_mono limit kept kept' d : kept ⊆+ kept' -> dominated limit kept d -> dominated limit kept' d.
Proof. intros Hk (sub & Hs & ? & ?). exists sub. split_and!; [by transitivity kept|done|done]. Qed.

#[global] Instance keeps_top_proper limit_hint : Proper ((≡ₚ) ==> (≡ₚ) ==> iff) (keeps_top limit_hint).
Proof.
  assert (forall all all' kept kept', all ≡ₚ all' -> kept ≡ₚ kept' -> keeps_top limit_hint all kept -> keeps_top limit_hint all' kept') as H.
  { intros all all' kept kept' Ha Hk (dropped & Hp & Hd). exists dropped. split; [by rewrite <- Hk, <- Ha|].
    intros d (limit & ? & Hdom)%Hd. exists limit. split; [done|]. eapply dominated_mono; [|exact Hdom]. by rewrite Hk. }
  intros all all' Ha kept kept' Hk. split; apply H; done.
Qed.

Lemma keeps_top_refl limit_hint all : keeps_top limit_hint all all.
Proof. exists []. split; [by rewrite app_nil_r|]. by intros d Hd%not_elem_of_nil. Qed.

Lemma keeps_top_app limit_hint all1 all2 kept1 kept2 :
  keeps_top limit_hint all1 kept1 -> keeps_top limit_hint all2 kept2 -> keeps_top limit_hint (all1 ++ all2) (kept1 ++ kept2).
Proof.
  intros (d1 & Hp1 & Hd1) (d2 & Hp2 & Hd2). exists (d1 ++ d2). split.
  - rewrite <- Hp1, <- Hp2. solve_Permutation.
  - intros d [Hd|Hd]%elem_of_app.
    + destruct (Hd1 d Hd) as (limit & ? & Hdom). exists limit. split; [done|]. eapply dominated_mono; [|exact Hdom]. apply submseteq_inserts_r. done.
    + destruct (Hd2 d Hd) as (limit & ? & Hdom). exists limit. split; [done|]. eapply dominated_mono; [|exact Hdom]. apply submseteq_inserts_l. done.
Qed.

Lemma keeps_top_trans limit_hint all kept1 kept2 :
  keeps_top limit_hint all kept1 -> keeps_top limit_hint kept1 kept2 -> keeps_top limit_hint all kept2.
Proof.
  intros (d1 & Hp1 & Hd1) (d2 & Hp2 & Hd2). exists (d2 ++ d1). split; [by rewrite <- Hp1, <- Hp2, app_assoc|].
  intros d [Hd|Hd]%elem_of_app; [by apply Hd2|]. destruct (Hd1 d Hd) as (limit & -> & sub & Hsub & Hlen & Hle).
  exists limit. split; [done|]. rewrite <- Hp2 in Hsub. apply submseteq_app_r in Hsub as (s1 & s2 & Hs & H1 & H2).
  destruct s2 as [|s s2].
  - exists s1. rewrite app_nil_r in Hs. split_and!; [done|by rewrite <- Hs|by rewrite <- Hs].
  - assert (s ∈ d2) as Hsd by (eapply elem_of_submseteq; [|exact H2]; left).
    destruct (Hd2 s Hsd) as (limit' & [= <-] & sub' & ? & ? & Hle'). exists sub'. split_and!; [done|done|].
    rewrite Hs, Forall_app, Forall_cons in Hle. eapply Forall_impl; [exact Hle'|]. intros a Ha. apply (cmp_trans cmp a s d); [done|tauto].
Qed.

(** In a sorted list, the first [limit] rows are not greater than a dropped one. *)
Lemma dominated_sorted limit kept d a i :
  StronglySorted (fun x y => cmp x y <> Gt) kept -> dominated limit kept d -> i < limit -> kept !! i = Some a -> cmp a d <> Gt.
Proof.
  intros Hs (sub & Hsub & Hlen & Hle) Hi Ha Hgt.
  assert (forall b j, i <= j -> kept !! j = Some b -> cmp b d <> Gt -> False) as Hno.
  { intros b j Hij Hb Hbd. assert (cmp a b <> Gt) as Hab.
    { destruct (decide (i = j)) as [->|Hne]; [simplify_eq; by rewrite (cmp_refl cmp)|].
      rewrite <- (take_drop_middle kept i a Ha) in Hs. apply StronglySorted_app_1_r, StronglySorted_inv in Hs as [_ Hall].
      rewrite Forall_lookup in Hall. apply (Hall (j - S i)). rewrite lookup_drop. by replace (S i + (j - S i)) with j by lia. }
    by apply (cmp_trans cmp a b d) in Hbd. }
  assert (length (filter (fun b => cmp b d <> Gt) kept) <= i) as Hcount.
  { rewrite <- (take_drop i kept), filter_app, length_app. assert (filter (fun b => cmp b d <> Gt) (drop i kept) = []) as ->.
    { destruct (filter _ (drop i kept)) as [|b l] eqn:Hf; [done|].
      assert (b ∈ filter (fun b => cmp b d <> Gt) (drop i kept)) as Hb by (rewrite Hf; left).
      apply list_elem_of_filter in Hb as [Hbd [j Hj]%list_elem_of_lookup_1]. rewrite lookup_drop in Hj.
      exfalso. by apply (Hno b (i + j)); [lia|..]. }
    pose proof (length_filter (fun b => cmp b d <> Gt) (take i kept)). rewrite length_take in *. simpl. lia. }
  assert (length sub <= length (filter (fun b => cmp b d <> Gt) kept)) as Hfilter.
  { apply submseteq_Permutation in Hsub as [rest Hrest]. rewrite Hrest, filter_app, length_app, (filter_all _ sub) by done. lia. }
  lia.
Qed.

End TopK.
