(* ===== verification/SortMerge.v ===== *)
(** * Merging sorted segments

    Models [arrays/sort/binary_merge.rs], [arrays/sort/heap_compare.rs] and the
    segments of [arrays/sort/sorted_segment.rs].  A segment keeps its fixed-size
    keys, its heap keys and its data in three parallel lists of blocks, and the
    merge goes over them separately, steered by the sides computed from the
    keys; a block is the list of its rows.  A heap key row is the list of its
    values (a string or NULL per column that needs the heap), a data row is
    arbitrary.  Blocks of heap memory are only kept alive. *)
From S2P Require Import Prelude Arrays ArrayData SortLayout SortOrder.

(** ** Definitions *)

Inductive ScanSide : Type := ScanLeft | ScanRight.

#[global] Instance ScanSide_eq_dec : EqDecision ScanSide.
Proof. solve_decision. Defined.

Record ScanState : Type := mkScan {
  block_idx : nat;
  row_idx : nat;
  remaining : nat;
}.

#[global] Instance ScanState_eq_dec : EqDecision ScanState.
Proof. solve_decision. Defined.

(** A sort row (its bytes) and a row of the heap layout. *)
Abbreviation KeyRow := (list Z).
Abbreviation HeapRow := (list (option (list Z))).

Section Merge.
Context {D Heap : Type}.

Record SortedSegment : Type := mkSegment {
  keys : list (list KeyRow);
  heap_keys : list (list HeapRow);
  heap_keys_heap : list Heap;
  data : list (list D);
  data_heap : list Heap;
}.

(** [ScanState::reset_for_run] *)
Definition reset_for_run (run : SortedSegment) : ScanState :=
  mkScan 0 0 (sum_list (length <$> keys run)).

(** [usize] subtraction. *)
Definition checked_sub (a b : nat) : res nat :=
  if b <=? a then Ok (a - b) else Panic "attempt to subtract with overflow".

(** [row_idx += 1; remaining -= 1] *)
Definition advance (s : ScanState) : res ScanState :=
  rem ← checked_sub (remaining s) 1;
  Ok (mkScan (block_idx s) (S (row_idx s)) rem).

(** Moving to the next block. *)
Definition next_block (s : ScanState) : ScanState := mkScan (S (block_idx s)) 0 (remaining s).

(** [SortLayout::any_requires_heap], [SortLayout::column_requires_heap] *)
Definition any_requires_heap (l : SortLayout) : bool := negb (bool_decide (heap_types l = [])).
Definition column_requires_heap (l : SortLayout) (col : nat) : bool :=
  match heap_mapping l !! col with Some (Some _) => true | _ => false end.

(** [compare_heap_values], for the string types; other types have no heap keys. *)
Definition compare_heap_values (a b : list Z) (phys_type : PhysicalType) : res comparison :=
  if is_heap_type phys_type then Ok (cmp_bytes a b) else Err "Unsupported heap value comparison for type".

(** [compare_heap_key] on the heap rows of both sides.  Reading the string of a
    NULL is undefined, which the model treats as a failure. *)
Definition compare_heap_key (l : SortLayout) (key_column : nat) (left_row right_row : HeapRow) : res comparison :=
  match heap_mapping l !! key_column with
  | Some (Some heap_key_column) =>
      match left_row !! heap_key_column, right_row !! heap_key_column with
      | Some None, Some None => Ok Eq
      | Some (Some a), Some (Some b) =>
          phys_type ← index (heap_types l) heap_key_column;
          ord ← compare_heap_values a b phys_type;
          col ← index (columns l) key_column;
          Ok (if desc col then CompOpp ord else ord)
      | _, _ => Panic "read of an invalid heap value"
      end
  | _ => Panic "to be provided a column index that has a heap key"
  end.

(** The comparison column by column, from column [col_idx] and byte [offset]
    on, over [num] columns. *)
Fixpoint compare_columns (l : SortLayout) (num col_idx offset : nat) (lk rk : KeyRow) (lh rh : HeapRow) : res comparison :=
  match num with
  | O => Ok Eq
  | S num' =>
      width ← index (column_widths l) col_idx;
      let col_cmp := cmp_bytes (take width (drop offset lk)) (take width (drop offset rk)) in
      col_cmp' ← (if decide (col_cmp = Eq) then
                    if column_requires_heap l col_idx then compare_heap_key l col_idx lh rh else Ok Eq
                  else Ok col_cmp);
      if decide (col_cmp' = Eq) then compare_columns l num' (S col_idx) (offset + width) lk rk lh rh else Ok col_cmp'
  end.

(** The test that decides to scan the row from the left. *)
Definition scan_from_left (l : SortLayout) (lk rk : KeyRow) (lh rh : HeapRow) : res bool :=
  if any_requires_heap l then
    c ← compare_columns l (length (columns l)) 0 0 lk rk lh rh;
    Ok (bool_decide (c = Lt))
  else Ok (bool_decide (cmp_bytes lk rk = Lt)).

(** The heap row at the scan position, where the layout has one. *)
Definition heap_row (l : SortLayout) (run : SortedSegment) (s : ScanState) : res HeapRow :=
  if any_requires_heap l then block ← index (heap_keys run) (block_idx s); index block (row_idx s) else Ok [].

(** The inner loop of [find_merge_side]: scans until one of the current blocks
    is exhausted or [todo] sides are decided. *)
Fixpoint scan_rows (l : SortLayout) (left right : SortedSegment) (lrows rrows : list KeyRow)
    (todo : nat) (ls rs : ScanState) (sides : list ScanSide) : res (nat * ScanState * ScanState * list ScanSide) :=
  match todo with
  | O => Ok (O, ls, rs, sides)
  | S todo' =>
      if (row_idx ls <? length lrows) && (row_idx rs <? length rrows) then
        lk ← index lrows (row_idx ls);
        rk ← index rrows (row_idx rs);
        lh ← heap_row l left ls;
        rh ← heap_row l right rs;
        from_left ← scan_from_left l lk rk lh rh;
        if from_left : bool then
          ls' ← advance ls;
          scan_rows l left right lrows rrows todo' ls' rs (sides ++ [ScanLeft])
        else
          rs' ← advance rs;
          scan_rows l left right lrows rrows todo' ls rs' (sides ++ [ScanRight])
      else Ok (todo, ls, rs, sides)
  end.

(** The outer loop: moves to the next blocks, stops when a segment has no more
    blocks. *)
Fixpoint find_sides_loop (l : SortLayout) (left right : SortedSegment) (fuel todo : nat)
    (ls rs : ScanState) (sides : list ScanSide) : res (nat * ScanState * ScanState * list ScanSide) :=
  match fuel with
  | O => Panic "out of fuel"
  | S fuel' =>
      match todo with
      | O => Ok (O, ls, rs, sides)
      | S _ =>
          match keys left !! block_idx ls with
          | None =>
              _ ← rust_assert (remaining ls =? 0) "assertion failed: left_scan.remaining == 0";
              Ok (todo, ls, rs, sides)
          | Some lrows =>
              match keys right !! block_idx rs with
              | None =>
                  _ ← rust_assert (remaining rs =? 0) "assertion failed: right_scan.remaining == 0";
                  Ok (todo, ls, rs, sides)
              | Some rrows =>
                  if row_idx ls =? length lrows then find_sides_loop l left right fuel' todo (next_block ls) rs sides
                  else if row_idx rs =? length rrows then find_sides_loop l left right fuel' todo ls (next_block rs) sides
                  else
                    '(todo', ls', rs', sides') ← scan_rows l left right lrows rrows todo ls rs sides;
                    find_sides_loop l left right fuel' todo' ls' rs' sides'
              end
          end
      end
  end.

(** The two assertions on which side is exhausted; [true] for the left one. *)
Definition exhausted_side (ls rs : ScanState) : res bool :=
  let left_exhausted := remaining ls =? 0 in
  let right_exhausted := remaining rs =? 0 in
  _ ← rust_assert (left_exhausted || right_exhausted) "assertion failed: left_exhausted || right_exhausted";
  _ ← rust_assert (xorb left_exhausted right_exhausted) "assertion failed: left_exhausted != right_exhausted";
  Ok left_exhausted.

(** [find_merge_side]: [scan_count] sides and the scan states after. *)
Definition find_merge_side (l : SortLayout) (left right : SortedSegment) (ls rs : ScanState) (scan_count : nat) :
    res (list ScanSide * ScanState * ScanState) :=
  '(todo, ls', rs', sides) ←
    find_sides_loop l left right (S (length (keys left) + length (keys right) + scan_count)) scan_count ls rs [];
  match todo with
  | O => Ok (sides, ls', rs')
  | S _ =>
      left_exhausted ← exhausted_side ls' rs';
      if left_exhausted : bool then
        rem ← checked_sub (remaining rs') todo;
        Ok (sides ++ replicate todo ScanRight, ls', mkScan (block_idx rs') (row_idx rs') rem)
      else
        rem ← checked_sub (remaining ls') todo;
        Ok (sides ++ replicate todo ScanLeft, mkScan (block_idx ls') (row_idx ls') rem, rs')
  end.

End Merge.

(** *** Merging the blocks of one kind *)

Section Blocks.
Context {A : Type}.

(** The inner loop of [merge_fixed_size_blocks]; [todo] are the sides not yet
    handled. *)
Fixpoint copy_rows_by_side (lrows rrows : list A) (todo : list ScanSide) (ls rs : ScanState) (out : list A) :
    res (list ScanSide * ScanState * ScanState * list A) :=
  match todo with
  | [] => Ok ([], ls, rs, out)
  | side :: todo' =>
      if (row_idx ls <? length lrows) && (row_idx rs <? length rrows) then
        match side with
        | ScanLeft =>
            row ← index lrows (row_idx ls);
            ls' ← advance ls;
            copy_rows_by_side lrows rrows todo' ls' rs (out ++ [row])
        | ScanRight =>
            row ← index rrows (row_idx rs);
            rs' ← advance rs;
            copy_rows_by_side lrows rrows todo' ls rs' (out ++ [row])
        end
      else Ok (todo, ls, rs, out)
  end.

Fixpoint merge_blocks_loop (left right : list (list A)) (fuel : nat) (todo : list ScanSide) (ls rs : ScanState) (out : list A) :
    res (list ScanSide * ScanState * ScanState * list A) :=
  match fuel with
  | O => Panic "out of fuel"
  | S fuel' =>
      match todo with
      | [] => Ok ([], ls, rs, out)
      | _ :: _ =>
          match left !! block_idx ls with
          | None =>
              _ ← rust_assert (remaining ls =? 0) "assertion failed: left_scan.remaining == 0";
              Ok (todo, ls, rs, out)
          | Some lrows =>
              match right !! block_idx rs with
              | None =>
                  _ ← rust_assert (remaining rs =? 0) "assertion failed: right_scan.remaining == 0";
                  Ok (todo, ls, rs, out)
              | Some rrows =>
                  if row_idx ls =? length lrows then merge_blocks_loop left right fuel' todo (next_block ls) rs out
                  else if row_idx rs =? length rrows then merge_blocks_loop left right fuel' todo ls (next_block rs) out
                  else
                    '(todo', ls', rs', out') ← copy_rows_by_side lrows rrows todo ls rs out;
                    merge_blocks_loop left right fuel' todo' ls' rs' out'
              end
          end
      end
  end.

(** The loop of [bulk_copy]. *)
Fixpoint bulk_copy_loop (blocks : list (list A)) (fuel : nat) (rem_rows : nat) (s : ScanState) (out : list A) :
    res (ScanState * list A) :=
  match fuel with
  | O => Panic "out of fuel"
  | S fuel' =>
      match rem_rows with
      | O => Ok (s, out)
      | S _ =>
          match blocks !! block_idx s with
          | None => Err "Block must exist for bulk copying remaining rows"
          | Some rows =>
              if row_idx s =? length rows then bulk_copy_loop blocks fuel' rem_rows (next_block s) out
              else
                let copy_count := Nat.min (length rows - row_idx s) rem_rows in
                bulk_copy_loop blocks fuel' (rem_rows - copy_count)
                  (mkScan (block_idx s) (row_idx s + copy_count) (remaining s))
                  (out ++ take copy_count (drop (row_idx s) rows))
          end
      end
  end.

(** [bulk_copy] *)
Definition bulk_copy (blocks : list (list A)) (s : ScanState) (out : list A) (rem_rows : nat) : res (ScanState * list A) :=
  rem ← checked_sub (remaining s) rem_rows;
  bulk_copy_loop blocks (S (length blocks + rem_rows)) rem_rows (mkScan (block_idx s) (row_idx s) rem) out.

(** [merge_fixed_size_blocks] *)
Definition merge_fixed_size_blocks (left right : list (list A)) (ls rs : ScanState) (scan_sides : list ScanSide) :
    res (list A * ScanState * ScanState) :=
  _ ← rust_assert (length scan_sides <=? remaining ls + remaining rs)
        "assertion failed: left_scan.remaining + right_scan.remaining >= scan_sides.len()";
  '(todo, ls', rs', out) ←
    merge_blocks_loop left right (S (length left + length right + length scan_sides)) scan_sides ls rs [];
  match todo with
  | [] => Ok (out, ls', rs')
  | _ :: _ =>
      left_exhausted ← exhausted_side ls' rs';
      _ ← rust_assert (forallb (fun s => bool_decide (s = if left_exhausted : bool then ScanRight else ScanLeft)) todo)
            "assertion failed: remaining scan sides";
      if left_exhausted : bool then
        '(rs2, out') ← bulk_copy right rs' out (length todo);
        Ok (out', ls', rs2)
      else
        '(ls2, out') ← bulk_copy left ls' out (length todo);
        Ok (out', ls2, rs')
  end.

End Blocks.

(** *** The merge *)

Section Merger.
Context {D Heap : Type}.
Variable key_layout : SortLayout.
Variable block_capacity : nat.
Variable limit_hint : option nat.

(** The merged blocks so far. *)
Record Merged : Type := mkMerged {
  merged_keys : list (list KeyRow);
  merged_heap_keys : list (list HeapRow);
  merged_data : list (list D);
}.

(** The limit check of the loop. *)
Definition limit_reached (total_scan_count : nat) : bool :=
  match limit_hint with Some limit => limit <=? total_scan_count | None => false end.

(** The loop of [BinaryMerger::merge]. *)
Fixpoint merge_loop (left right : @SortedSegment D Heap) (fuel : nat) (ls rs : ScanState) (total_scan_count : nat) (acc : Merged) :
    res Merged :=
  match fuel with
  | O => Panic "out of fuel"
  | S fuel' =>
      let scan_count := Nat.min block_capacity (remaining ls + remaining rs) in
      if (remaining ls =? 0) && (remaining rs =? 0) then Ok acc
      else if limit_reached total_scan_count then Ok acc
      else
        '(scan_sides, _, _) ← find_merge_side key_layout left right ls rs scan_count;
        '(key_block, l2, r2) ← merge_fixed_size_blocks (keys left) (keys right) ls rs scan_sides;
        heap_blocks ← (if any_requires_heap key_layout then
                         '(heap_key_block, l3, r3) ← merge_fixed_size_blocks (heap_keys left) (heap_keys right) ls rs scan_sides;
                         _ ← rust_assert (bool_decide (l2 = l3)) "assertion failed: left scans differ";
                         _ ← rust_assert (bool_decide (r2 = r3)) "assertion failed: right scans differ";
                         Ok [heap_key_block]
                       else Ok []);
        '(data_block, new_ls, new_rs) ← merge_fixed_size_blocks (data left) (data right) ls rs scan_sides;
        _ ← rust_assert (bool_decide (l2 = new_ls)) "assertion failed: left scans differ";
        _ ← rust_assert (bool_decide (r2 = new_rs)) "assertion failed: right scans differ";
        merge_loop left right fuel' new_ls new_rs (total_scan_count + scan_count)
          (mkMerged (merged_keys acc ++ [key_block]) (merged_heap_keys acc ++ heap_blocks) (merged_data acc ++ [data_block]))
  end.

(** [BinaryMerger::merge] *)
Definition merge (left right : @SortedSegment D Heap) : res SortedSegment :=
  let ls := reset_for_run left in
  let rs := reset_for_run right in
  m ← merge_loop left right (S (remaining ls + remaining rs)) ls rs 0 (mkMerged [] [] []);
  Ok (mkSegment (merged_keys m) (merged_heap_keys m) (heap_keys_heap left ++ heap_keys_heap right)
        (merged_data m) (data_heap left ++ data_heap right)).

End Merger.

(** ** Scanning blocks *)

Section Scans.
Context {A : Type}.
Implicit Types (blocks : list (list A)) (s : ScanState).

(** The rows from the scan position on. *)
Definition scan_rest blocks s : list A :=
  drop (row_idx s) (default [] (blocks !! block_idx s)) ++ concat (drop (S (block_idx s)) blocks).

Definition scan_ok blocks s : Prop :=
  remaining s = length (scan_rest blocks s) /\ row_idx s <= length (default [] (blocks !! block_idx s)).

Lemma scan_rest_none blocks s : blocks !! block_idx s = None -> scan_rest blocks s = [].
Proof.
  intros Hb. unfold scan_rest. rewrite Hb. simpl. rewrite drop_nil. apply lookup_ge_None in Hb.
  by rewrite drop_ge by lia.
Qed.

Lemma scan_rest_end blocks s rows :
  blocks !! block_idx s = Some rows -> row_idx s = length rows -> scan_rest blocks (next_block s) = scan_rest blocks s.
Proof.
  intros Hb Hr. unfold scan_rest, next_block. cbn [block_idx row_idx]. rewrite Hb. cbn [from_option]. unfold id. rewrite (drop_ge rows) by lia.
  rewrite drop_0. destruct (blocks !! S (block_idx s)) as [rows'|] eqn:Hn.
  - rewrite (drop_S _ _ _ Hn). done.
  - apply lookup_ge_None in Hn. simpl. by rewrite !drop_ge by lia.
Qed.

Lemma scan_ok_next blocks s rows :
  blocks !! block_idx s = Some rows -> row_idx s = length rows -> scan_ok blocks s -> scan_ok blocks (next_block s).
Proof.
  intros Hb Hr [Hrem _]. split; [|simpl; lia]. rewrite (scan_rest_end _ _ rows) by done. done.
Qed.

Lemma scan_rest_cons blocks s rows x :
  blocks !! block_idx s = Some rows -> rows !! row_idx s = Some x ->
  scan_rest blocks s = x :: scan_rest blocks (mkScan (block_idx s) (S (row_idx s)) (remaining s)).
Proof. intros Hb Hx. unfold scan_rest. cbn [block_idx row_idx]. rewrite Hb. cbn [from_option]. unfold id. by rewrite (drop_S _ _ _ Hx). Qed.

(** Reading a row and advancing. *)
Lemma advance_spec blocks s rows :
  scan_ok blocks s -> blocks !! block_idx s = Some rows -> row_idx s < length rows ->
  exists x s', index rows (row_idx s) = Ok x /\ advance s = Ok s' /\ scan_ok blocks s'
    /\ scan_rest blocks s = x :: scan_rest blocks s'
    /\ block_idx s' = block_idx s /\ row_idx s' = S (row_idx s).
Proof.
  intros [Hrem _] Hb Hr. destruct (index_lt rows (row_idx s) Hr) as (x & Hx & Hl).
  pose proof (scan_rest_cons _ _ _ _ Hb Hl) as Hc. exists x, (mkScan (block_idx s) (S (row_idx s)) (remaining s - 1)).
  split_and!; [done| | |done|done|done].
  - assert (1 <= remaining s) by (rewrite Hrem, Hc; cbn [length]; lia).
    unfold advance, checked_sub. by rewrite (proj2 (Nat.leb_le 1 _)) by done.
  - split; cbn [remaining block_idx row_idx]; [|rewrite Hb; simpl; lia].
    assert (remaining s = S (length (scan_rest blocks (mkScan (block_idx s) (S (row_idx s)) (remaining s))))) as Hn
      by by rewrite Hrem at 1; rewrite Hc.
    unfold scan_rest in *. cbn [block_idx row_idx] in *. lia.
Qed.

Lemma sum_lengths blocks : sum_list (length <$> blocks) = length (concat blocks).
Proof. induction blocks as [|b blocks IH]; [done|]. cbn [concat]. rewrite length_app, <- IH. done. Qed.

Lemma scan_ok_reset blocks : scan_ok blocks (mkScan 0 0 (sum_list (length <$> blocks)))
  /\ scan_rest blocks (mkScan 0 0 (sum_list (length <$> blocks))) = concat blocks.
Proof.
  assert (scan_rest blocks (mkScan 0 0 (sum_list (length <$> blocks))) = concat blocks) as Hr.
  { unfold scan_rest. cbn. destruct blocks as [|b blocks]; [done|]. simpl. by rewrite !drop_0. }
  split; [|done]. split; [|simpl; lia]. rewrite Hr. apply sum_lengths.
Qed.

(** Blocks left to move over. *)
Definition moves blocks s : nat := length blocks - block_idx s.

Lemma moves_next blocks s rows : blocks !! block_idx s = Some rows -> moves blocks (next_block s) < moves blocks s.
Proof. intros Hb%lookup_lt_Some. unfold moves, next_block. cbn. lia. Qed.

(** *** Taking rows by side *)

Fixpoint apply_sides (sides : list ScanSide) (xs ys : list A) : option (list A * list A * list A) :=
  match sides with
  | [] => Some ([], xs, ys)
  | ScanLeft :: sides' =>
      match xs with
      | x :: xs' => '(out, xs2, ys2) ← apply_sides sides' xs' ys; Some (x :: out, xs2, ys2)
      | [] => None
      end
  | ScanRight :: sides' =>
      match ys with
      | y :: ys' => '(out, xs2, ys2) ← apply_sides sides' xs ys'; Some (y :: out, xs2, ys2)
      | [] => None
      end
  end.

Lemma apply_sides_left_nil sides ys out xs2 ys2 :
  apply_sides sides [] ys = Some (out, xs2, ys2) ->
  sides = replicate (length sides) ScanRight /\ length sides <= length ys
  /\ out = take (length sides) ys /\ xs2 = [] /\ ys2 = drop (length sides) ys.
Proof.
  revert ys out. induction sides as [|[] sides IH]; intros ys out; simpl.
  - intros [= <- <- <-]. rewrite drop_0. split_and!; done || lia.
  - done.
  - destruct ys as [|y ys]; [done|]. destruct (apply_sides sides [] ys) as [[[o a] b]|] eqn:Ha; [|done].
    simpl. intros [= <- <- <-]. destruct (IH _ _ Ha) as (Hs & ? & -> & -> & ->).
    split_and!; [by f_equal|lia|done|done|done].
Qed.

Lemma apply_sides_right_nil sides xs out xs2 ys2 :
  apply_sides sides xs [] = Some (out, xs2, ys2) ->
  sides = replicate (length sides) ScanLeft /\ length sides <= length xs
  /\ out = take (length sides) xs /\ xs2 = drop (length sides) xs /\ ys2 = [].
Proof.
  revert xs out. induction sides as [|[] sides IH]; intros xs out; simpl.
  - intros [= <- <- <-]. rewrite drop_0. split_and!; done || lia.
  - destruct xs as [|x xs]; [done|]. destruct (apply_sides sides xs []) as [[[o a] b]|] eqn:Ha; [|done].
    simpl. intros [= <- <- <-]. destruct (IH _ _ Ha) as (Hs & ? & -> & -> & ->).
    split_and!; [by f_equal|lia|done|done|done].
  - done.
Qed.

Lemma apply_sides_length sides xs ys out xs2 ys2 :
  apply_sides sides xs ys = Some (out, xs2, ys2) -> length sides + length xs2 + length ys2 = length xs + length ys.
Proof.
  revert xs ys out. induction sides as [|[] sides IH]; intros xs ys out; simpl.
  - by intros [= <- <- <-].
  - destruct xs as [|x xs]; [done|]. destruct (apply_sides sides xs ys) as [[[o a] b]|] eqn:Ha; [|done].
    simpl. intros [= <- <- <-]. apply IH in Ha. lia.
  - destruct ys as [|y ys]; [done|]. destruct (apply_sides sides xs ys) as [[[o a] b]|] eqn:Ha; [|done].
    simpl. intros [= <- <- <-]. apply IH in Ha. lia.
Qed.

(** What a loop over sides has done: it copied [out1], and the remaining sides
    take the rest. *)
Definition sides_progress left right (out xs2 ys2 : list A)
    (todo' : list ScanSide) (ls' rs' : ScanState) (out1 : list A) : Prop :=
  scan_ok left ls' /\ scan_ok right rs'
  /\ exists out2, out = out1 ++ out2 /\ apply_sides todo' (scan_rest left ls') (scan_rest right rs') = Some (out2, xs2, ys2).

Lemma copy_rows_by_side_spec left right lrows rrows todo ls rs acc out xs2 ys2 :
  scan_ok left ls -> scan_ok right rs -> left !! block_idx ls = Some lrows -> right !! block_idx rs = Some rrows ->
  apply_sides todo (scan_rest left ls) (scan_rest right rs) = Some (out, xs2, ys2) ->
  exists todo' ls' rs' out1, copy_rows_by_side lrows rrows todo ls rs acc = Ok (todo', ls', rs', acc ++ out1)
    /\ sides_progress left right out xs2 ys2 todo' ls' rs' out1
    /\ block_idx ls' = block_idx ls /\ block_idx rs' = block_idx rs /\ length todo' <= length todo
    /\ (todo <> [] -> row_idx ls < length lrows -> row_idx rs < length rrows -> length todo' < length todo).
Proof.
  revert ls rs acc out. induction todo as [|side todo IH]; intros ls rs acc out Hls Hrs Hl Hr Ha; cbn [copy_rows_by_side].
  { exists [], ls, rs, []. rewrite app_nil_r. split_and!; try done. split_and!; [done..|]. exists out. done. }
  destruct (row_idx ls <? length lrows) eqn:Hlt; cbn [andb].
  2: { exists (side :: todo), ls, rs, []. rewrite app_nil_r. apply Nat.ltb_ge in Hlt. split_and!; try done; [|lia].
       split_and!; [done..|]. exists out. done. }
  destruct (row_idx rs <? length rrows) eqn:Hrt.
  2: { exists (side :: todo), ls, rs, []. rewrite app_nil_r. apply Nat.ltb_ge in Hrt. split_and!; try done; [|lia].
       split_and!; [done..|]. exists out. done. }
  apply Nat.ltb_lt in Hlt, Hrt. destruct side.
  - destruct (advance_spec _ _ _ Hls Hl Hlt) as (x & ls1 & Hx & Hadv & Hls1 & Hrest & Hb & _).
    rewrite Hx, Hadv. unfold mbind, res_bind. rewrite Hrest in Ha. cbn [apply_sides] in Ha.
    destruct (apply_sides todo (scan_rest left ls1) (scan_rest right rs)) as [[[o a] b]|] eqn:Ha'; [|done].
    simpl in Ha. injection Ha as <- <- <-.
    destruct (IH ls1 rs (acc ++ [x]) o) as (todo' & ls' & rs' & out1 & -> & (Hok1 & Hok2 & out2 & -> & Happ) & Hb1 & Hb2 & Hlen & _);
      [done|done|by rewrite Hb|done|done|].
    exists todo', ls', rs', (x :: out1). rewrite <- app_assoc. split_and!; try done; [|congruence|simpl; lia|simpl; lia].
    split_and!; [done|done|]. exists out2. done.
  - destruct (advance_spec _ _ _ Hrs Hr Hrt) as (x & rs1 & Hx & Hadv & Hrs1 & Hrest & Hb & _).
    rewrite Hx, Hadv. unfold mbind, res_bind. rewrite Hrest in Ha. cbn [apply_sides] in Ha.
    destruct (apply_sides todo (scan_rest left ls) (scan_rest right rs1)) as [[[o a] b]|] eqn:Ha'; [|done].
    simpl in Ha. injection Ha as <- <- <-.
    destruct (IH ls rs1 (acc ++ [x]) o) as (todo' & ls' & rs' & out1 & -> & (Hok1 & Hok2 & out2 & -> & Happ) & Hb1 & Hb2 & Hlen & _);
      [done|done|done|by rewrite Hb|done|].
    exists todo', ls', rs', (x :: out1). rewrite <- app_assoc. split_and!; try done; [|congruence|simpl; lia|simpl; lia].
    split_and!; [done|done|]. exists out2. done.
Qed.

Lemma merge_blocks_loop_spec left right fuel todo ls rs acc out xs2 ys2 :
  scan_ok left ls -> scan_ok right rs ->
  apply_sides todo (scan_rest left ls) (scan_rest right rs) = Some (out, xs2, ys2) ->
  moves left ls + moves right rs + length todo < fuel ->
  exists todo' ls' rs' out1, merge_blocks_loop left right fuel todo ls rs acc = Ok (todo', ls', rs', acc ++ out1)
    /\ sides_progress left right out xs2 ys2 todo' ls' rs' out1
    /\ (todo' = [] \/ scan_rest left ls' = [] \/ scan_rest right rs' = []).
Proof.
  revert todo ls rs acc out. induction fuel as [|fuel IH]; intros todo ls rs acc out Hls Hrs Ha Hfuel; [lia|].
  assert (sides_progress left right out xs2 ys2 todo ls rs []) as Hstay by (split_and!; [done..|]; by exists out).
  cbn [merge_blocks_loop]. destruct todo as [|side todo].
  { exists [], ls, rs, []. rewrite app_nil_r. by split_and!; [|..|left]. }
  destruct (left !! block_idx ls) as [lrows|] eqn:Hl.
  2: { exists (side :: todo), ls, rs, []. pose proof (scan_rest_none _ _ Hl) as Hn. destruct Hls as [Hrem _].
       rewrite Hn in Hrem. rewrite Hrem, app_nil_r. by split_and!; [|..|right; left]. }
  destruct (right !! block_idx rs) as [rrows|] eqn:Hr.
  2: { exists (side :: todo), ls, rs, []. pose proof (scan_rest_none _ _ Hr) as Hn. destruct Hrs as [Hrem _].
       rewrite Hn in Hrem. rewrite Hrem, app_nil_r. by split_and!; [|..|right; right]. }
  destruct (row_idx ls =? length lrows) eqn:Hle.
  { apply Nat.eqb_eq in Hle. pose proof (moves_next _ _ _ Hl).
    apply IH; [by eapply scan_ok_next|done|by rewrite (scan_rest_end _ _ lrows)|lia]. }
  destruct (row_idx rs =? length rrows) eqn:Hre.
  { apply Nat.eqb_eq in Hre. pose proof (moves_next _ _ _ Hr).
    apply IH; [done|by eapply scan_ok_next|by rewrite (scan_rest_end right _ rrows)|lia]. }
  apply Nat.eqb_neq in Hle, Hre. pose proof (proj2 Hls) as Hl2. pose proof (proj2 Hrs) as Hr2.
  rewrite Hl in Hl2. rewrite Hr in Hr2. cbn in Hl2, Hr2.
  destruct (copy_rows_by_side_spec left right lrows rrows (side :: todo) ls rs acc out xs2 ys2)
    as (todo1 & ls1 & rs1 & out1 & -> & (Hls1 & Hrs1 & o2 & -> & Ha1) & Hb1 & Hb2 & _ & Hlt); [done..|].
  specialize (Hlt ltac:(done) ltac:(lia) ltac:(lia)). unfold mbind, res_bind.
  destruct (IH todo1 ls1 rs1 (acc ++ out1) o2) as (todo' & ls' & rs' & out' & -> & (? & ? & o3 & -> & ?) & Hend); [done|done|done| |].
  { unfold moves in *. rewrite Hb1, Hb2. lia. }
  exists todo', ls', rs', (out1 ++ out'). rewrite app_assoc. split_and!; [done| |done].
  split_and!; [done|done|]. exists o3. by rewrite app_assoc.
Qed.

Lemma bulk_copy_loop_spec blocks fuel n s acc :
  row_idx s <= length (default [] (blocks !! block_idx s)) -> n <= length (scan_rest blocks s) ->
  moves blocks s + n < fuel ->
  exists s', bulk_copy_loop blocks fuel n s acc = Ok (s', acc ++ take n (scan_rest blocks s))
    /\ scan_rest blocks s' = drop n (scan_rest blocks s) /\ remaining s' = remaining s
    /\ row_idx s' <= length (default [] (blocks !! block_idx s')).
Proof.
  revert n s acc. induction fuel as [|fuel IH]; intros n s acc Hrow Hn Hfuel; [lia|].
  cbn [bulk_copy_loop]. destruct n as [|n].
  { exists s. rewrite take_0, app_nil_r, drop_0. done. }
  destruct (blocks !! block_idx s) as [rows|] eqn:Hb.
  2: { rewrite (scan_rest_none _ _ Hb) in Hn. simpl in Hn. lia. }
  cbn in Hrow. destruct (row_idx s =? length rows) eqn:He.
  - apply Nat.eqb_eq in He. pose proof (moves_next _ _ _ Hb). rewrite <- (scan_rest_end _ _ rows Hb He) in *.
    destruct (IH (S n) (next_block s) acc) as (s' & Hs'); [simpl; lia|done|lia|]. by exists s'.
  - apply Nat.eqb_neq in He. set (k := Nat.min (length rows - row_idx s) (S n)).
    set (s1 := mkScan (block_idx s) (row_idx s + k) (remaining s)).
    assert (scan_rest blocks s = take k (drop (row_idx s) rows) ++ scan_rest blocks s1) as Hr.
    { unfold scan_rest, s1. cbn [block_idx row_idx]. rewrite Hb. cbn. rewrite app_assoc. f_equal.
      rewrite <- drop_drop. symmetry. apply take_drop. }
    assert (length (take k (drop (row_idx s) rows)) = k) as Hk by (rewrite length_take, length_drop; lia).
    destruct (IH (S n - k) s1 (acc ++ take k (drop (row_idx s) rows))) as (s' & -> & Hs' & Hrem & Hrow').
    + unfold s1. cbn. rewrite Hb. cbn. lia.
    + rewrite Hr, length_app, Hk in Hn. lia.
    + unfold moves, s1 in *. cbn [block_idx]. lia.
    + exists s'. rewrite Hr, take_app_ge, drop_app_ge, Hk, <- app_assoc by (rewrite Hk; lia). done.
Qed.

Lemma bulk_copy_spec blocks n s acc :
  scan_ok blocks s -> n <= length (scan_rest blocks s) ->
  exists s', bulk_copy blocks s acc n = Ok (s', acc ++ take n (scan_rest blocks s))
    /\ scan_ok blocks s' /\ scan_rest blocks s' = drop n (scan_rest blocks s).
Proof.
  intros [Hrem Hrow] Hn. unfold bulk_copy, checked_sub. rewrite (proj2 (Nat.leb_le _ _)) by lia. unfold mbind, res_bind.
  destruct (bulk_copy_loop_spec blocks (S (length blocks + n)) n (mkScan (block_idx s) (row_idx s) (remaining s - n)) acc)
    as (s' & -> & Hs' & Hrem' & Hrow'); [done|done|unfold moves; cbn; lia|].
  exists s'. split_and!; [done| |done]. split; [|done]. rewrite Hrem', Hs', length_drop.
  cbn [remaining]. unfold scan_rest in *. cbn [block_idx row_idx] in *. lia.
Qed.

(** [merge_fixed_size_blocks] takes the rows from the sides it is told to. *)
Lemma merge_fixed_size_blocks_spec left right ls rs sides out xs2 ys2 :
  scan_ok left ls -> scan_ok right rs ->
  apply_sides sides (scan_rest left ls) (scan_rest right rs) = Some (out, xs2, ys2) ->
  exists ls' rs', merge_fixed_size_blocks left right ls rs sides = Ok (out, ls', rs')
    /\ scan_ok left ls' /\ scan_ok right rs' /\ scan_rest left ls' = xs2 /\ scan_rest right rs' = ys2.
Proof.
  intros Hls Hrs Ha. unfold merge_fixed_size_blocks. pose proof (apply_sides_length _ _ _ _ _ _ Ha) as Hlen.
  rewrite (proj2 (Nat.leb_le _ _)) by (rewrite (proj1 Hls), (proj1 Hrs); lia). cbn [rust_assert]. unfold mbind, res_bind.
  destruct (merge_blocks_loop_spec left right (S (length left + length right + length sides)) sides ls rs [] out xs2 ys2)
    as (todo & ls' & rs' & out1 & -> & (Hls' & Hrs' & out2 & -> & Ha') & Hend); [done|done|done|unfold moves; lia|].
  cbn [app]. destruct todo as [|side todo].
  { cbn in Ha'. injection Ha' as <- <- <-. rewrite app_nil_r. eauto 10. }
  unfold exhausted_side. destruct Hend as [|[Hnil|Hnil]]; [done| |].
  - rewrite Hnil in Ha'. destruct (apply_sides_left_nil _ _ _ _ _ Ha') as (Hs & Hle & -> & -> & ->).
    pose proof (proj1 Hls') as Hrl. pose proof (proj1 Hrs') as Hrr. rewrite Hnil in Hrl. cbn [length] in Hle, Hrl.
    rewrite Hrl, (proj2 (Nat.eqb_neq (remaining rs') 0)) by lia. cbn.
    assert (bool_decide (side = ScanRight) && forallb (fun side' => bool_decide (side' = ScanRight)) todo = true) as ->.
    { change (forallb (fun side' => bool_decide (side' = ScanRight)) (side :: todo) = true). rewrite Hs. apply forallb_forall.
      intros x Hx%list_elem_of_In%elem_of_replicate. apply bool_decide_eq_true. tauto. }
    cbn. destruct (bulk_copy_spec right (S (length todo)) rs' out1 Hrs') as (rs2 & -> & ? & ?); [lia|].
    exists ls', rs2. split_and!; done.
  - rewrite Hnil in Ha'. destruct (apply_sides_right_nil _ _ _ _ _ Ha') as (Hs & Hle & -> & -> & ->).
    pose proof (proj1 Hls') as Hrl. pose proof (proj1 Hrs') as Hrr. rewrite Hnil in Hrr. cbn [length] in Hle, Hrr.
    rewrite Hrr, (proj2 (Nat.eqb_neq (remaining ls') 0)) by lia. cbn.
    assert (bool_decide (side = ScanLeft) && forallb (fun side' => bool_decide (side' = ScanLeft)) todo = true) as ->.
    { change (forallb (fun side' => bool_decide (side' = ScanLeft)) (side :: todo) = true). rewrite Hs. apply forallb_forall.
      intros x Hx%list_elem_of_In%elem_of_replicate. apply bool_decide_eq_true. tauto. }
    cbn. destruct (bulk_copy_spec left (S (length todo)) ls' out1 Hls') as (ls2 & -> & ? & ?); [lia|].
    exists ls2, rs'. split_and!; done.
Qed.

End Scans.

(** ** The kinds of blocks move together

    Merging blocks only looks at their lengths, so blocks of keys, heap keys and
    data that come from the same rows are merged alike. *)

Section Naturality.
Context {A B : Type} (f : A -> B).

Definition map_progress (r : list ScanSide * ScanState * ScanState * list A) : list ScanSide * ScanState * ScanState * list B :=
  let '(todo, ls, rs, out) := r in (todo, ls, rs, f <$> out).
Definition map_merged (r : list A * ScanState * ScanState) : list B * ScanState * ScanState :=
  let '(out, ls, rs) := r in (f <$> out, ls, rs).
Definition map_copied (r : ScanState * list A) : ScanState * list B := (r.1, f <$> r.2).

Definition res_map {C E} (g : C -> E) (r : res C) : res E := r ≫= fun x => Ok (g x).

Lemma index_fmap (l : list A) i : index (f <$> l) i = res_map f (index l i).
Proof. unfold index, res_map. rewrite list_lookup_fmap. by destruct (l !! i). Qed.

Lemma copy_rows_by_side_map (lrows rrows : list A) todo ls rs (out : list A) :
  copy_rows_by_side (f <$> lrows) (f <$> rrows) todo ls rs (f <$> out)
  = res_map map_progress (copy_rows_by_side lrows rrows todo ls rs out).
Proof.
  revert ls rs out. induction todo as [|side todo IH]; intros ls rs out; cbn [copy_rows_by_side]; [done|].
  rewrite !length_fmap. destruct (_ && _); [|done]. destruct side; rewrite index_fmap.
  - destruct (index lrows (row_idx ls)) as [x| |]; [|done..]. cbn. destruct (advance ls) as [ls'| |]; [|done..].
    specialize (IH ls' rs (out ++ [x])). rewrite fmap_app in IH. exact IH.
  - destruct (index rrows (row_idx rs)) as [x| |]; [|done..]. cbn. destruct (advance rs) as [rs'| |]; [|done..].
    specialize (IH ls rs' (out ++ [x])). rewrite fmap_app in IH. exact IH.
Qed.

Lemma merge_blocks_loop_map (left right : list (list A)) fuel todo ls rs (out : list A) :
  merge_blocks_loop (fmap (M:=list) (fmap f) left) (fmap (M:=list) (fmap f) right) fuel todo ls rs (f <$> out)
  = res_map map_progress (merge_blocks_loop left right fuel todo ls rs out).
Proof.
  revert todo ls rs out. induction fuel as [|fuel IH]; intros todo ls rs out; cbn [merge_blocks_loop]; [done|].
  destruct todo as [|side todo]; [done|]. rewrite !list_lookup_fmap.
  destruct (left !! block_idx ls) as [lrows|]; cbn [fmap option_fmap option_map]; [|by destruct (remaining ls =? 0)].
  destruct (right !! block_idx rs) as [rrows|]; cbn [fmap option_fmap option_map]; [|by destruct (remaining rs =? 0)].
  rewrite !length_fmap. destruct (row_idx ls =? length lrows); [apply IH|].
  destruct (row_idx rs =? length rrows); [apply IH|]. rewrite copy_rows_by_side_map.
  destruct (copy_rows_by_side lrows rrows (side :: todo) ls rs out) as [[[[todo' ls'] rs'] out']| |]; [|done..].
  cbn. apply IH.
Qed.

Lemma bulk_copy_loop_map (blocks : list (list A)) fuel n s (out : list A) :
  bulk_copy_loop (fmap (M:=list) (fmap f) blocks) fuel n s (f <$> out) = res_map map_copied (bulk_copy_loop blocks fuel n s out).
Proof.
  revert n s out. induction fuel as [|fuel IH]; intros n s out; cbn [bulk_copy_loop]; [done|].
  destruct n as [|n]; [done|]. rewrite list_lookup_fmap. destruct (blocks !! block_idx s) as [rows|]; [|done].
  cbn [fmap option_fmap option_map]. rewrite length_fmap. destruct (row_idx s =? length rows); [apply IH|].
  rewrite <- IH. by rewrite fmap_app, fmap_take, fmap_drop.
Qed.

Lemma merge_fixed_size_blocks_map (left right : list (list A)) ls rs sides :
  merge_fixed_size_blocks (fmap (M:=list) (fmap f) left) (fmap (M:=list) (fmap f) right) ls rs sides
  = res_map map_merged (merge_fixed_size_blocks left right ls rs sides).
Proof.
  unfold merge_fixed_size_blocks. destruct (rust_assert _ _); [|done..]. unfold mbind at 1 3, res_bind at 1 3.
  rewrite !length_fmap. rewrite (merge_blocks_loop_map left right _ sides ls rs []).
  destruct (merge_blocks_loop left right _ sides ls rs []) as [[[[todo ls'] rs'] out]| |]; [|done..].
  cbn. destruct todo as [|side todo]; [done|]. destruct (exhausted_side ls' rs') as [b| |]; [|done..]. cbn.
  destruct (rust_assert _ _); [|done..]. cbn. destruct b; unfold bulk_copy; rewrite length_fmap.
  - destruct (checked_sub (remaining rs') _) as [r| |]; [|done..]. unfold mbind, res_bind. rewrite bulk_copy_loop_map.
    by destruct (bulk_copy_loop right _ _ _ out) as [[]| |].
  - destruct (checked_sub (remaining ls') _) as [r| |]; [|done..]. unfold mbind, res_bind. rewrite bulk_copy_loop_map.
    by destruct (bulk_copy_loop left _ _ _ out) as [[]| |].
Qed.

End Naturality.

(** ** Merging lists *)

Section MergeLists.
Context {A : Type} (lt : A -> A -> bool).

(** [n] steps of merging two lists: the sides, the rows, and what is left. *)
Fixpoint merge_steps (n : nat) (xs ys : list A) : list ScanSide * list A * list A * list A :=
  match n with
  | O => ([], [], xs, ys)
  | S n' =>
      match xs, ys with
      | [], [] => ([], [], [], [])
      | x :: xs', [] => let '(sides, out, xs2, ys2) := merge_steps n' xs' [] in (ScanLeft :: sides, x :: out, xs2, ys2)
      | [], y :: ys' => let '(sides, out, xs2, ys2) := merge_steps n' [] ys' in (ScanRight :: sides, y :: out, xs2, ys2)
      | x :: xs', y :: ys' =>
          if lt x y
          then let '(sides, out, xs2, ys2) := merge_steps n' xs' ys in (ScanLeft :: sides, x :: out, xs2, ys2)
          else let '(sides, out, xs2, ys2) := merge_steps n' xs ys' in (ScanRight :: sides, y :: out, xs2, ys2)
      end
  end.

Lemma merge_steps_apply n xs ys sides out xs2 ys2 :
  merge_steps n xs ys = (sides, out, xs2, ys2) -> apply_sides sides xs ys = Some (out, xs2, ys2).
Proof.
  revert xs ys sides out. induction n as [|n IH]; intros xs ys sides out; cbn [merge_steps].
  { by intros [= <- <- <- <-]. }
  destruct xs as [|x xs], ys as [|y ys].
  - by intros [= <- <- <- <-].
  - destruct (merge_steps n [] ys) as [[[s o] a] b] eqn:E. intros [= <- <- <- <-]. cbn. by rewrite (IH _ _ _ _ E).
  - destruct (merge_steps n xs []) as [[[s o] a] b] eqn:E. intros [= <- <- <- <-]. cbn. by rewrite (IH _ _ _ _ E).
  - destruct (lt x y).
    + destruct (merge_steps n xs (y :: ys)) as [[[s o] a] b] eqn:E. intros [= <- <- <- <-]. cbn. by rewrite (IH _ _ _ _ E).
    + destruct (merge_steps n (x :: xs) ys) as [[[s o] a] b] eqn:E. intros [= <- <- <- <-]. cbn. by rewrite (IH _ _ _ _ E).
Qed.

Lemma merge_steps_length n xs ys sides out xs2 ys2 :
  merge_steps n xs ys = (sides, out, xs2, ys2) -> n <= length xs + length ys ->
  length sides = n /\ length out = n /\ length xs2 + length ys2 = length xs + length ys - n.
Proof.
  revert xs ys sides out. induction n as [|n IH]; intros xs ys sides out; cbn [merge_steps].
  { intros [= <- <- <- <-] _. simpl. lia. }
  destruct xs as [|x xs], ys as [|y ys].
  - simpl. lia.
  - destruct (merge_steps n [] ys) as [[[s o] a] b] eqn:E. intros [= <- <- <- <-] Hn. apply IH in E; simpl in *; lia.
  - destruct (merge_steps n xs []) as [[[s o] a] b] eqn:E. intros [= <- <- <- <-] Hn. apply IH in E; simpl in *; lia.
  - destruct (lt x y).
    + destruct (merge_steps n xs (y :: ys)) as [[[s o] a] b] eqn:E. intros [= <- <- <- <-] Hn. apply IH in E; simpl in *; lia.
    + destruct (merge_steps n (x :: xs) ys) as [[[s o] a] b] eqn:E. intros [= <- <- <- <-] Hn. apply IH in E; simpl in *; lia.
Qed.

(** Steps compose. *)
Lemma merge_steps_add n m xs ys :
  merge_steps (n + m) xs ys =
  (let '(sides, out, xs1, ys1) := merge_steps n xs ys in
   let '(sides', out', xs2, ys2) := merge_steps m xs1 ys1 in
   (sides ++ sides', out ++ out', xs2, ys2)).
Proof.
  revert xs ys. induction n as [|n IH]; intros xs ys; cbn [merge_steps Nat.add].
  { by destruct (merge_steps m xs ys) as [[[]]]. }
  destruct xs as [|x xs], ys as [|y ys].
  - destruct m; done.
  - rewrite IH. destruct (merge_steps n [] ys) as [[[]]]. by destruct (merge_steps m _ _) as [[[]]].
  - rewrite IH. destruct (merge_steps n xs []) as [[[]]]. by destruct (merge_steps m _ _) as [[[]]].
  - destruct (lt x y).
    + rewrite IH. destruct (merge_steps n xs (y :: ys)) as [[[]]]. by destruct (merge_steps m _ _) as [[[]]].
    + rewrite IH. destruct (merge_steps n (x :: xs) ys) as [[[]]]. by destruct (merge_steps m _ _) as [[[]]].
Qed.

(** The order the comparison decides. *)
Variable le : A -> A -> Prop.
Variable is_row : A -> Prop.
Hypothesis le_trans : forall x y z, le x y -> le y z -> le x z.
Hypothesis lt_le : forall x y, is_row x -> is_row y -> lt x y = true -> le x y.
Hypothesis nlt_le : forall x y, is_row x -> is_row y -> lt x y = false -> le y x.

(** Merging sorted lists gives the smallest rows of both, in order. *)
Lemma merge_steps_sorted n xs ys sides out xs2 ys2 :
  Forall is_row xs -> Forall is_row ys -> StronglySorted le xs -> StronglySorted le ys -> merge_steps n xs ys = (sides, out, xs2, ys2) ->
  out ++ xs2 ++ ys2 ≡ₚ xs ++ ys /\ StronglySorted le out /\ StronglySorted le xs2 /\ StronglySorted le ys2
  /\ (forall a b, a ∈ out -> b ∈ xs2 ++ ys2 -> le a b).
Proof.
  revert xs ys sides out. induction n as [|n IH]; intros xs ys sides out Px Py Hx Hy; cbn [merge_steps].
  { intros [= <- <- <- <-]. split_and!; [done|constructor|done|done|]. by intros a b Ha%not_elem_of_nil. }
  assert (forall z rest out' xs2 ys2, out' ++ xs2 ++ ys2 ≡ₚ rest -> StronglySorted le out' ->
    (forall a b, a ∈ out' -> b ∈ xs2 ++ ys2 -> le a b) -> (forall b, b ∈ rest -> le z b) ->
    StronglySorted le (z :: out') /\ (forall a b, a ∈ z :: out' -> b ∈ xs2 ++ ys2 -> le a b)) as Hcons.
  { intros z rest out' xs' ys' Hp Hs Hle Hz.
    assert (forall b, b ∈ out' ++ xs' ++ ys' -> le z b) as Hz' by (intros b Hb; apply Hz; by rewrite <- Hp).
    split.
    - constructor; [done|]. apply Forall_forall. intros b Hb. apply Hz', elem_of_app. by left.
    - intros a b [->|Ha]%elem_of_cons Hb; [apply Hz', elem_of_app; by right|by apply Hle]. }
  destruct xs as [|x xs], ys as [|y ys].
  - intros [= <- <- <- <-]. split_and!; try constructor. by intros a b Ha%not_elem_of_nil.
  - destruct (merge_steps n [] ys) as [[[s o] a] b] eqn:E. intros [= <- <- <- <-].
    apply StronglySorted_inv in Hy as [Hy Hall]. apply Forall_cons in Py as [Pz Py]. destruct (IH _ _ _ _ Px Py Hx Hy E) as (Hp & Hs & Ha & Hb & Hle).
    rewrite Forall_forall in Hall. destruct (Hcons y ys o a b) as [? ?]; [done..|].
    split_and!; try done. simpl. by rewrite Hp.
  - destruct (merge_steps n xs []) as [[[s o] a] b] eqn:E. intros [= <- <- <- <-].
    apply StronglySorted_inv in Hx as [Hx Hall]. apply Forall_cons in Px as [Pz Px]. destruct (IH _ _ _ _ Px Py Hx Hy E) as (Hp & Hs & Ha & Hb & Hle).
    rewrite Forall_forall in Hall. destruct (Hcons x (xs ++ []) o a b) as [? ?]; [done..|by rewrite app_nil_r|].
    split_and!; try done. simpl. by rewrite Hp.
  - apply StronglySorted_inv in Hx as Hx', Hy as Hy'. destruct Hx' as [Hx' Hallx], Hy' as [Hy' Hally].
    rewrite Forall_forall in Hallx, Hally. apply Forall_cons in Px as Px', Py as Py'. destruct Px' as [Pa Px'], Py' as [Pb Py']. destruct (lt x y) eqn:Hlt.
    + destruct (merge_steps n xs (y :: ys)) as [[[s o] a] b] eqn:E. intros [= <- <- <- <-].
      destruct (IH _ _ _ _ Px' Py Hx' Hy E) as (Hp & Hs & Ha & Hb & Hle). apply lt_le in Hlt; [|done..].
      destruct (Hcons x (xs ++ y :: ys) o a b) as [? ?]; [done..| |].
      { intros z [Hz|[->|Hz]%elem_of_cons]%elem_of_app; [auto|done|]. apply (le_trans _ y); auto. }
      split_and!; try done. simpl. by rewrite Hp.
    + destruct (merge_steps n (x :: xs) ys) as [[[s o] a] b] eqn:E. intros [= <- <- <- <-].
      destruct (IH _ _ _ _ Px Py' Hx Hy' E) as (Hp & Hs & Ha & Hb & Hle). apply nlt_le in Hlt; [|done..].
      destruct (Hcons y ((x :: xs) ++ ys) o a b) as [? ?]; [done..| |].
      { intros z [[->|Hz]%elem_of_cons|Hz]%elem_of_app; [done| |auto]. apply (le_trans _ x); auto. }
      split_and!; try done. cbn [app]. rewrite Hp. apply (Permutation_middle (x :: xs)).
Qed.

End MergeLists.

(** ** Finding the sides *)

Lemma merge_steps_left_nil {A} (lt : A -> A -> bool) n ys :
  n <= length ys -> (merge_steps lt n [] ys).1.1.1 = replicate n ScanRight.
Proof.
  revert ys. induction n as [|n IH]; intros [|y ys] Hn; cbn [merge_steps]; [done..|simpl in Hn; lia|].
  specialize (IH ys ltac:(simpl in Hn; lia)). destruct (merge_steps lt n [] ys) as [[[]]]. simpl in *. by rewrite IH.
Qed.

Lemma merge_steps_right_nil {A} (lt : A -> A -> bool) n xs :
  n <= length xs -> (merge_steps lt n xs []).1.1.1 = replicate n ScanLeft.
Proof.
  revert xs. induction n as [|n IH]; intros [|x xs] Hn; cbn [merge_steps]; [done..|simpl in Hn; lia|].
  specialize (IH xs ltac:(simpl in Hn; lia)). destruct (merge_steps lt n xs []) as [[[]]]. simpl in *. by rewrite IH.
Qed.

(** ** Rows *)

(** A row of a segment: the values of its sort columns, the bytes after the keys
    and its data. *)
Record Row (D : Type) : Type := mkRow { row_vals : list (option value); row_index : list Z; row_data : D }.
Arguments mkRow {D}. Arguments row_vals {D}. Arguments row_index {D}. Arguments row_data {D}.

(** The heap row of the values: one entry per column of a string type. *)
Fixpoint heap_values (cols : list SortColumn) (vals : list (option value)) : HeapRow :=
  match cols, vals with
  | c :: cols', v :: vals' =>
      if is_heap_type (phys_type c)
      then match v with Some (VBytes bs) => Some bs | _ => None end :: heap_values cols' vals'
      else heap_values cols' vals'
  | _, _ => []
  end.

(** The heap column of each column, counting from [n]. *)
Fixpoint heap_columns (cols : list SortColumn) (n : nat) : list (option nat) :=
  match cols with
  | [] => []
  | c :: cols' => if is_heap_type (phys_type c) then Some n :: heap_columns cols' (S n) else None :: heap_columns cols' n
  end.

Lemma row_key_app cs1 cs2 v1 v2 :
  length cs1 = length v1 -> row_key (cs1 ++ cs2) (v1 ++ v2) = row_key cs1 v1 ++ row_key cs2 v2.
Proof.
  revert v1. induction cs1 as [|c cs1 IH]; intros [|v v1] Hl; try done. cbn [row_key app].
  by rewrite IH, app_assoc by (simpl in Hl; lia).
Qed.

Section Segments.
Context {D Heap : Type}.
Variable cols : list SortColumn.
Local Abbreviation key_layout := (try_new cols).

(** How a row is stored. *)
Definition row_key_bytes (r : Row D) : KeyRow := row_key cols (row_vals r) ++ row_index r.
Definition row_heap (r : Row D) : HeapRow := heap_values cols (row_vals r).

(** The values have the types of the columns. *)
Definition row_typed (r : Row D) : Prop := Forall2 (fun c v => typed_opt (phys_type c) v) cols (row_vals r).

(** A segment that holds these blocks of rows; without columns that need the
    heap the heap keys [hk] are never looked at. *)
Definition segment_of (blocks : list (list (Row D))) (hk : list (list HeapRow)) (h1 h2 : list Heap) : SortedSegment :=
  mkSegment (fmap (M:=list) (fmap row_key_bytes) blocks)
    (if any_requires_heap key_layout then fmap (M:=list) (fmap row_heap) blocks else hk) h1
    (fmap (M:=list) (fmap row_data) blocks) h2.

(** *** The comparison of two rows *)

(** Column by column. *)
Lemma layout_mapping_spec cs offset widths offs heap mapping :
  (layout_loop cs offset widths offs heap mapping).2
  = mapping ++ heap_columns cs (length heap).
Proof.
  revert offset widths offs heap mapping. induction cs as [|c cs IH]; intros; cbn [layout_loop heap_columns]; [by rewrite app_nil_r|].
  destruct (is_heap_type (phys_type c)); rewrite IH, <- app_assoc, ?length_app; [|done]. by rewrite Nat.add_1_r.
Qed.

Lemma heap_mapping_spec cs : heap_mapping (try_new cs) = heap_columns cs 0.
Proof.
  pose proof (layout_mapping_spec cs 0 [] [] [] []) as H. unfold try_new.
  by destruct (layout_loop cs 0 [] [] [] []) as [[[[w o] off] h] m].
Qed.

Lemma heap_values_app cs1 cs2 v1 v2 :
  length cs1 = length v1 -> heap_values (cs1 ++ cs2) (v1 ++ v2) = heap_values cs1 v1 ++ heap_values cs2 v2.
Proof.
  revert v1. induction cs1 as [|c cs1 IH]; intros [|v v1] Hl; try done. cbn [heap_values app].
  rewrite IH by (simpl in Hl; lia). by destruct (is_heap_type (phys_type c)).
Qed.

Lemma heap_columns_lookup pre c suf pvals n :
  length pre = length pvals ->
  heap_columns (pre ++ c :: suf) n !! length pre
  = Some (if is_heap_type (phys_type c) then Some (n + length (heap_values pre pvals)) else None).
Proof.
  revert pvals n. induction pre as [|p pre IH]; intros [|v pvals] n Hl; try done; cbn [heap_columns app length heap_values].
  { destruct (is_heap_type (phys_type c)); simpl; [by rewrite Nat.add_0_r|done]. }
  destruct (is_heap_type (phys_type p)); cbn [lookup list_lookup length]; rewrite (IH pvals) by (simpl in Hl; lia); [|done].
  by rewrite Nat.add_succ_comm.
Qed.

Lemma heap_types_lookup pre c suf pvals :
  length pre = length pvals -> is_heap_type (phys_type c) = true ->
  heap_types (try_new (pre ++ c :: suf)) !! length (heap_values pre pvals) = Some (phys_type c).
Proof.
  intros Hl Hc. destruct (try_new_spec (pre ++ c :: suf)) as (_ & _ & _ & _ & _ & ->). revert pvals Hl.
  induction pre as [|p pre IH]; intros [|v pvals] Hl; try done; cbn [app]; rewrite fmap_cons, filter_cons.
  { by rewrite decide_True. }
  cbn [heap_values]. destruct (is_heap_type (phys_type p)); [rewrite decide_True by done|rewrite decide_False by done];
    apply IH; simpl in Hl; lia.
Qed.

(** The heap row has the same length for all values. *)
Lemma length_heap_values pre pa pb :
  length pre = length pa -> length pre = length pb -> length (heap_values pre pa) = length (heap_values pre pb).
Proof.
  revert pa pb. induction pre as [|p pre IH]; intros [|? pa] [|? pb] Hpa Hpb; try done.
  cbn [heap_values]. destruct (is_heap_type (phys_type p)); simpl; rewrite (IH pa pb); simpl in *; lia.
Qed.

(** On columns of the layout, the comparison of heap keys breaks ties. *)
Lemma compare_heap_key_spec pre c suf pa pb a b x y :
  length pre = length pa -> length pre = length pb -> is_heap_type (phys_type c) = true ->
  typed_opt (phys_type c) a -> typed_opt (phys_type c) b -> (is_Some a <-> is_Some b) ->
  compare_heap_key (try_new (pre ++ c :: suf)) (length pre)
    (heap_values (pre ++ c :: suf) (pa ++ a :: x)) (heap_values (pre ++ c :: suf) (pb ++ b :: y)) = Ok (heap_tie c a b).
Proof.
  intros Hpa Hpb Hc Ha Hb Hab. unfold compare_heap_key.
  rewrite heap_mapping_spec, (heap_columns_lookup _ _ _ pa), Hc by done. cbn [Nat.add].
  pose proof (length_heap_values pre pa pb Hpa Hpb) as Hlen.
  rewrite !heap_values_app by done. cbn [heap_values]. rewrite Hc. cbn iota.
  rewrite !list_lookup_middle by done.
  destruct a as [a|], b as [b|]; [|naive_solver..|done].
  destruct (typed_bytes _ _ Hc Ha) as (s & -> & _), (typed_bytes _ _ Hc Hb) as (t & -> & _).
  unfold index. rewrite heap_types_lookup by done. unfold compare_heap_values. unfold mbind, res_bind. rewrite Hc.
  rewrite (proj1 (try_new_spec _)), list_lookup_middle by done. done.
Qed.

(** Equal keys of a column: both values are NULL or none is. *)
Lemma equal_keys_nulls c a b :
  cmp_bytes (encode_column c (phys_type c) a) (encode_column c (phys_type c) b) = Eq -> is_Some a <-> is_Some b.
Proof.
  unfold encode_column, valid_byte, invalid_byte. destruct a, b, (nulls_first c); simpl; done.
Qed.

Lemma column_requires_heap_spec pre c suf :
  column_requires_heap (try_new (pre ++ c :: suf)) (length pre) = is_heap_type (phys_type c).
Proof.
  unfold column_requires_heap. rewrite heap_mapping_spec, (heap_columns_lookup _ _ _ (replicate (length pre) None))
    by by rewrite length_replicate. by destruct (is_heap_type (phys_type c)).
Qed.

Lemma compare_columns_spec pre suf pa pb x y lidx ridx :
  let typed_row := Forall2 (fun c v => typed_opt (phys_type c) v) in
  typed_row pre pa -> typed_row pre pb -> typed_row suf x -> typed_row suf y ->
  compare_columns (try_new (pre ++ suf)) (length suf) (length pre) (total_width pre)
    (row_key (pre ++ suf) (pa ++ x) ++ lidx) (row_key (pre ++ suf) (pb ++ y) ++ ridx)
    (heap_values (pre ++ suf) (pa ++ x)) (heap_values (pre ++ suf) (pb ++ y))
  = Ok (full_row_order suf x y).
Proof.
  intros typed_row Hpa Hpb Hx. revert pre pa pb y Hpa Hpb.
  induction Hx as [|c a suf x Ha Hx IH]; intros pre pa pb y Hpa Hpb Hy; [done|].
  inversion Hy as [|? b ? y' Hb Hy']; subst. cbn [compare_columns length].
  pose proof (Forall2_length _ _ _ Hpa) as Hla. pose proof (Forall2_length _ _ _ Hpb) as Hlb.
  destruct (try_new_spec (pre ++ c :: suf)) as (_ & -> & _). rewrite fmap_app, fmap_cons. unfold index.
  rewrite list_lookup_middle by by rewrite length_fmap. unfold mbind, res_bind.
  assert (forall pv v vs idx, typed_row pre pv -> typed_opt (phys_type c) v ->
    take (width_of c) (drop (total_width pre) (row_key (pre ++ c :: suf) (pv ++ v :: vs) ++ idx)) = encode_column c (phys_type c) v) as Hkey.
  { intros pv v vs idx Hpv Hv. rewrite row_key_app by by eapply Forall2_length. cbn [row_key].
    rewrite <- (length_row_key pre pv Hpv), <- !app_assoc, drop_app_length.
    unfold width_of. by rewrite <- (proj1 (encode_column_shape c v Hv)), take_app_length. }
  rewrite !Hkey by done. cbn [full_row_order]. change (column_value (a :: x)) with a. change (column_value (b :: y')) with b.
  rewrite column_decides, column_requires_heap_spec by done. cbn [tail].
  specialize (IH (pre ++ [c]) (pa ++ [a]) (pb ++ [b]) y'). rewrite <- !app_assoc in IH. cbn [app] in IH.
  rewrite length_app, total_width_snoc in IH. cbn [length] in IH. rewrite Nat.add_1_r in IH.
  assert (typed_row [c] [a] /\ typed_row [c] [b]) as [? ?] by (split; by repeat constructor).
  specialize (IH ltac:(by apply Forall2_app) ltac:(by apply Forall2_app) Hy').
  destruct (cmp_bytes _ _) eqn:Hc; cbn [then_compare]; [rewrite decide_True by done| |]; [|by rewrite decide_False..].
  destruct (is_heap_type (phys_type c)) eqn:Hh.
  - rewrite compare_heap_key_spec by (done || by eapply equal_keys_nulls). destruct (heap_tie c a b) eqn:Ht; [|done..].
    rewrite decide_True by done. apply IH.
  - rewrite decide_True by done. apply IH.
Qed.

Lemma any_requires_heap_false : any_requires_heap key_layout = false -> Forall (fun c => is_heap_type (phys_type c) = false) cols.
Proof.
  unfold any_requires_heap. rewrite negb_false_iff, bool_decide_eq_true. destruct (try_new_spec cols) as (_ & _ & _ & _ & _ & ->).
  intros Hnil. apply Forall_forall. intros c Hc. destruct (is_heap_type (phys_type c)) eqn:Hh; [|done].
  assert (phys_type c ∈ filter (fun pt => is_heap_type pt = true) (phys_type <$> cols)) as Hin.
  { apply list_elem_of_filter. split; [done|]. by apply list_elem_of_fmap_2. }
  rewrite Hnil in Hin. by apply not_elem_of_nil in Hin.
Qed.

(** The order of rows, and the test of the merge. *)
Definition row_cmp (x y : Row D) : comparison := full_row_order cols (row_vals x) (row_vals y).
Definition row_sorted : list (Row D) -> Prop := StronglySorted (fun x y => row_cmp x y <> Gt).
Definition row_lt (x y : Row D) : bool :=
  if any_requires_heap key_layout then bool_decide (row_cmp x y = Lt)
  else bool_decide (cmp_bytes (row_key_bytes x) (row_key_bytes y) = Lt).

Lemma row_lt_spec x y : row_typed x -> row_typed y ->
  scan_from_left key_layout (row_key_bytes x) (row_key_bytes y)
    (if any_requires_heap key_layout then row_heap x else []) (if any_requires_heap key_layout then row_heap y else [])
  = Ok (row_lt x y).
Proof.
  intros Hx Hy. unfold scan_from_left, row_lt. destruct (any_requires_heap key_layout) eqn:Hh; [|done].
  rewrite (proj1 (try_new_spec cols)). unfold row_key_bytes, row_heap.
  pose proof (compare_columns_spec [] cols [] [] (row_vals x) (row_vals y) (row_index x) (row_index y)) as Hc.
  cbn [app length] in Hc. change (total_width []) with 0 in Hc. by rewrite Hc.
Qed.

Lemma row_cmp_trans x y z : row_cmp x y <> Gt -> row_cmp y z <> Gt -> row_cmp x z <> Gt.
Proof. apply (cmp_trans (full_row_order cols)). Qed.

(** Rows without heap keys are compared by all of their bytes. *)
Lemma row_bytes_cmp x y :
  any_requires_heap key_layout = false -> row_typed x -> row_typed y ->
  cmp_bytes (row_key_bytes x) (row_key_bytes y) = then_compare (row_cmp x y) (cmp_bytes (row_index x) (row_index y)).
Proof.
  intros Hh%any_requires_heap_false Hx Hy. unfold row_key_bytes, row_cmp.
  rewrite cmp_bytes_app by by rewrite !length_row_key. rewrite row_key_decides by done.
  by destruct (full_row_order cols (row_vals x) (row_vals y)).
Qed.

Lemma row_lt_le x y : row_typed x -> row_typed y -> row_lt x y = true -> row_cmp x y <> Gt.
Proof.
  intros Hx Hy. unfold row_lt. destruct (any_requires_heap key_layout) eqn:Hh; rewrite bool_decide_eq_true; [by intros ->|].
  rewrite row_bytes_cmp by done. by destruct (row_cmp x y).
Qed.

Lemma row_nlt_le x y : row_typed x -> row_typed y -> row_lt x y = false -> row_cmp y x <> Gt.
Proof.
  intros Hx Hy. unfold row_lt. destruct (any_requires_heap key_layout) eqn:Hh; rewrite bool_decide_eq_false.
  - apply (cmp_ge (full_row_order cols)).
  - rewrite row_bytes_cmp by done. intros Hn. apply (cmp_ge (full_row_order cols)). unfold row_cmp in Hn.
    by destruct (full_row_order cols (row_vals x) (row_vals y)).
Qed.
Variables lb rb : list (list (Row D)).
Variables lhk rhk : list (list HeapRow).
Variables lh1 lh2 rh1 rh2 : list Heap.
Hypothesis lb_rows : Forall (Forall row_typed) lb.
Hypothesis rb_rows : Forall (Forall row_typed) rb.
Local Abbreviation left := (segment_of lb lhk lh1 lh2).
Local Abbreviation right := (segment_of rb rhk rh1 rh2).

Lemma heap_row_spec blocks hk h1 h2 s rows x :
  blocks !! block_idx s = Some rows -> rows !! row_idx s = Some x ->
  heap_row key_layout (segment_of blocks hk h1 h2) s = Ok (if any_requires_heap key_layout then row_heap x else []).
Proof.
  intros Hb Hx. unfold heap_row, segment_of. cbn [heap_keys]. destruct (any_requires_heap key_layout); [|done].
  unfold index. rewrite list_lookup_fmap, Hb. cbn. by rewrite list_lookup_fmap, Hx.
Qed.

Lemma row_typed_at blocks i j rows x : Forall (Forall row_typed) blocks -> blocks !! i = Some rows -> rows !! j = Some x -> row_typed x.
Proof. rewrite Forall_lookup. intros Hall Hb Hx. specialize (Hall _ _ Hb). rewrite Forall_lookup in Hall. eauto. Qed.

(** What finding [todo] sides has done when [todo'] are left: the sides are those
    of merging the rows. *)
Definition found (todo : nat) (ls rs : ScanState) (todo' : nat) (ls' rs' : ScanState) (s1 : list ScanSide) : Prop :=
  scan_ok lb ls' /\ scan_ok rb rs' /\ exists n o1, todo = n + todo'
    /\ merge_steps row_lt n (scan_rest lb ls) (scan_rest rb rs) = (s1, o1, scan_rest lb ls', scan_rest rb rs').

Lemma found_refl todo ls rs : scan_ok lb ls -> scan_ok rb rs -> found todo ls rs todo ls rs [].
Proof. intros ? ?. split_and!; [done..|]. by exists 0, []. Qed.

Lemma found_trans todo ls rs todo1 ls1 rs1 todo2 ls2 rs2 s1 s2 :
  found todo ls rs todo1 ls1 rs1 s1 -> found todo1 ls1 rs1 todo2 ls2 rs2 s2 -> found todo ls rs todo2 ls2 rs2 (s1 ++ s2).
Proof.
  intros (_ & _ & n & o1 & -> & H1) (? & ? & m & o2 & -> & H2). split_and!; [done..|].
  exists (n + m), (o1 ++ o2). split; [lia|]. by rewrite merge_steps_add, H1, H2.
Qed.

Lemma scan_rows_spec lrows rrows todo ls rs sides :
  scan_ok lb ls -> scan_ok rb rs -> lb !! block_idx ls = Some lrows -> rb !! block_idx rs = Some rrows ->
  exists todo' ls' rs' s1,
    scan_rows key_layout left right (row_key_bytes <$> lrows) (row_key_bytes <$> rrows) todo ls rs sides = Ok (todo', ls', rs', sides ++ s1)
    /\ found todo ls rs todo' ls' rs' s1
    /\ block_idx ls' = block_idx ls /\ block_idx rs' = block_idx rs /\ todo' <= todo
    /\ (todo <> 0 -> row_idx ls < length lrows -> row_idx rs < length rrows -> todo' < todo).
Proof.
  revert ls rs sides. induction todo as [|todo IH]; intros ls rs sides Hls Hrs Hl Hr; cbn [scan_rows].
  { exists 0, ls, rs, []. rewrite app_nil_r. split_and!; try done. by apply found_refl. }
  rewrite !length_fmap.
  destruct (row_idx ls <? length lrows) eqn:Hlt; cbn [andb].
  2: { exists (S todo), ls, rs, []. rewrite app_nil_r. apply Nat.ltb_ge in Hlt. split_and!; try done; [by apply found_refl|lia]. }
  destruct (row_idx rs <? length rrows) eqn:Hrt.
  2: { exists (S todo), ls, rs, []. rewrite app_nil_r. apply Nat.ltb_ge in Hrt. split_and!; try done; [by apply found_refl|lia]. }
  apply Nat.ltb_lt in Hlt, Hrt.
  destruct (advance_spec _ _ _ Hls Hl Hlt) as (x & ls1 & Hx & Hadvl & Hls1 & Hrestl & Hbl & _).
  destruct (advance_spec _ _ _ Hrs Hr Hrt) as (y & rs1 & Hy & Hadvr & Hrs1 & Hrestr & Hbr & _).
  rewrite !index_fmap, Hx, Hy. apply index_Ok in Hx, Hy.
  rewrite (heap_row_spec lb _ _ _ _ _ _ Hl Hx), (heap_row_spec rb _ _ _ _ _ _ Hr Hy).
  unfold res_map, mbind, res_bind. rewrite row_lt_spec by eauto using row_typed_at. destruct (row_lt x y) eqn:Hxy.
  - rewrite Hadvl. destruct (IH ls1 rs (sides ++ [ScanLeft])) as (todo' & ls' & rs' & s1 & -> & Hf & ? & ? & ? & _);
      [done|done|by rewrite Hbl|done|].
    exists todo', ls', rs', (ScanLeft :: s1). rewrite <- app_assoc. split_and!; [done| |congruence|done|lia|lia].
    apply (found_trans _ _ _ todo ls1 rs _ _ _ [ScanLeft] s1); [|done]. split_and!; [done..|].
    exists 1, [x]. rewrite Hrestl, Hrestr. cbn [merge_steps]. by rewrite Hxy.
  - rewrite Hadvr. destruct (IH ls rs1 (sides ++ [ScanRight])) as (todo' & ls' & rs' & s1 & -> & Hf & ? & ? & ? & _);
      [done|done|done|by rewrite Hbr|].
    exists todo', ls', rs', (ScanRight :: s1). rewrite <- app_assoc. split_and!; [done| |done|congruence|lia|lia].
    apply (found_trans _ _ _ todo ls rs1 _ _ _ [ScanRight] s1); [|done]. split_and!; [done..|].
    exists 1, [y]. rewrite Hrestl, Hrestr. cbn [merge_steps]. by rewrite Hxy.
Qed.

Lemma find_sides_loop_spec fuel todo ls rs sides :
  scan_ok lb ls -> scan_ok rb rs -> moves lb ls + moves rb rs + todo < fuel ->
  exists todo' ls' rs' s1, find_sides_loop key_layout left right fuel todo ls rs sides = Ok (todo', ls', rs', sides ++ s1)
    /\ found todo ls rs todo' ls' rs' s1
    /\ (todo' = 0 \/ scan_rest lb ls' = [] \/ scan_rest rb rs' = []).
Proof.
  revert todo ls rs sides. induction fuel as [|fuel IH]; intros todo ls rs sides Hls Hrs Hfuel; [lia|].
  pose proof (found_refl todo ls rs Hls Hrs) as Hstay. cbn [find_sides_loop].
  destruct todo as [|todo]. { exists 0, ls, rs, []. rewrite app_nil_r. by split_and!; [|..|left]. }
  cbn [keys segment_of]. rewrite !list_lookup_fmap. destruct (lb !! block_idx ls) as [lrows|] eqn:Hl.
  2: { exists (S todo), ls, rs, []. pose proof (scan_rest_none _ _ Hl) as Hn. destruct Hls as [Hrem _].
       rewrite Hn in Hrem. cbn [fmap option_fmap option_map]. rewrite Hrem, app_nil_r. by split_and!; [|..|right; left]. }
  destruct (rb !! block_idx rs) as [rrows|] eqn:Hr.
  2: { exists (S todo), ls, rs, []. pose proof (scan_rest_none _ _ Hr) as Hn. destruct Hrs as [Hrem _].
       rewrite Hn in Hrem. cbn [fmap option_fmap option_map]. rewrite Hrem, app_nil_r. by split_and!; [|..|right; right]. }
  cbn [fmap option_fmap option_map]. rewrite !length_fmap.
  destruct (row_idx ls =? length lrows) eqn:Hle.
  { apply Nat.eqb_eq in Hle. pose proof (moves_next _ _ _ Hl).
    destruct (IH (S todo) (next_block ls) rs sides) as (todo' & ls' & rs' & s1 & -> & Hf & Hend);
      [by eapply scan_ok_next|done|lia|]. exists todo', ls', rs', s1. split_and!; [done| |done].
    unfold found in *. by rewrite (scan_rest_end _ _ lrows) in Hf. }
  destruct (row_idx rs =? length rrows) eqn:Hre.
  { apply Nat.eqb_eq in Hre. pose proof (moves_next _ _ _ Hr).
    destruct (IH (S todo) ls (next_block rs) sides) as (todo' & ls' & rs' & s1 & -> & Hf & Hend);
      [done|by eapply scan_ok_next|lia|]. exists todo', ls', rs', s1. split_and!; [done| |done].
    unfold found in *. by rewrite (scan_rest_end rb _ rrows) in Hf. }
  apply Nat.eqb_neq in Hle, Hre. pose proof (proj2 Hls) as Hl2. pose proof (proj2 Hrs) as Hr2.
  rewrite Hl in Hl2. rewrite Hr in Hr2. cbn in Hl2, Hr2.
  destruct (scan_rows_spec lrows rrows (S todo) ls rs sides) as (todo1 & ls1 & rs1 & s1 & -> & Hf & Hb1 & Hb2 & _ & Hlt); [done..|].
  specialize (Hlt ltac:(done) ltac:(lia) ltac:(lia)). unfold mbind, res_bind. pose proof Hf as (? & ? & _).
  destruct (IH todo1 ls1 rs1 (sides ++ s1)) as (todo' & ls' & rs' & s2 & -> & Hf2 & Hend); [done|done| |].
  { unfold moves in *. rewrite Hb1, Hb2. lia. }
  exists todo', ls', rs', (s1 ++ s2). rewrite app_assoc. split_and!; [done|by eapply found_trans|done].
Qed.

(** [find_merge_side] finds the sides of merging the rows. *)
Lemma find_merge_side_spec ls rs scan_count :
  scan_ok lb ls -> scan_ok rb rs -> scan_count <= length (scan_rest lb ls) + length (scan_rest rb rs) ->
  exists ls' rs', find_merge_side key_layout left right ls rs scan_count
    = Ok ((merge_steps row_lt scan_count (scan_rest lb ls) (scan_rest rb rs)).1.1.1, ls', rs').
Proof.
  intros Hls Hrs Hn. unfold find_merge_side.
  destruct (find_sides_loop_spec (S (length (keys left) + length (keys right) + scan_count)) scan_count ls rs [])
    as (todo & ls' & rs' & s1 & -> & (Hls' & Hrs' & n & o1 & -> & Hm) & Hend); [done|done| |].
  { cbn [keys segment_of]. rewrite !length_fmap. unfold moves. lia. }
  cbn [app]. unfold mbind, res_bind. rewrite merge_steps_add, Hm.
  pose proof (merge_steps_length _ _ _ _ _ _ _ _ Hm ltac:(lia)) as (_ & _ & Hlen).
  destruct todo as [|todo]; [exists ls', rs'; cbn [merge_steps fst]; by rewrite app_nil_r|].
  destruct Hls' as [Hreml _], Hrs' as [Hremr _]. unfold exhausted_side, checked_sub. destruct Hend as [|[Hnil|Hnil]]; [done| |].
  - rewrite Hnil in Hreml, Hlen |- *. cbn [length] in Hreml, Hlen.
    pose proof (merge_steps_left_nil row_lt (S todo) (scan_rest rb rs') ltac:(lia)) as Hs.
    rewrite Hreml, Hremr, (proj2 (Nat.eqb_neq (length (scan_rest rb rs')) 0)), (proj2 (Nat.leb_le (S todo) _)) by lia. cbn [xorb Nat.eqb orb rust_assert].
    eexists _, _. destruct (merge_steps row_lt (S todo) [] _) as [[[]]]. cbn [fst] in *. by rewrite Hs.
  - rewrite Hnil in Hremr, Hlen |- *. cbn [length] in Hremr, Hlen.
    pose proof (merge_steps_right_nil row_lt (S todo) (scan_rest lb ls') ltac:(lia)) as Hs.
    rewrite Hreml, Hremr, (proj2 (Nat.eqb_neq (length (scan_rest lb ls')) 0)), (proj2 (Nat.leb_le (S todo) (length (scan_rest lb ls')))) by lia. cbn [xorb Nat.eqb orb rust_assert].
    eexists _, _. destruct (merge_steps row_lt (S todo) (scan_rest lb ls') []) as [[[]]]. cbn [fst] in *. by rewrite Hs.
Qed.

(** *** The merge *)

Variable block_capacity : nat.
Variable limit_hint : option nat.
Hypothesis capacity_pos : 0 < block_capacity.

(** The blocks merged so far and the new ones. *)
Definition add_blocks (acc : @Merged D) (blocks : list (list (Row D))) : @Merged D :=
  mkMerged (merged_keys acc ++ fmap (M:=list) (fmap row_key_bytes) blocks)
    (merged_heap_keys acc ++ if any_requires_heap key_layout then fmap (M:=list) (fmap row_heap) blocks else [])
    (merged_data acc ++ fmap (M:=list) (fmap row_data) blocks).

Lemma add_blocks_nil acc : add_blocks acc [] = acc.
Proof. unfold add_blocks. destruct acc. cbn. destruct (any_requires_heap key_layout); by rewrite !app_nil_r. Qed.

Lemma add_blocks_app acc b1 b2 : add_blocks (add_blocks acc b1) b2 = add_blocks acc (b1 ++ b2).
Proof.
  unfold add_blocks. cbn [merged_keys merged_heap_keys merged_data]. rewrite !fmap_app, <- !app_assoc. f_equal. f_equal.
  by destruct (any_requires_heap key_layout).
Qed.

(** One round: the three kinds of blocks are merged alike. *)
Lemma merge_round ls rs sides out xs2 ys2 :
  scan_ok lb ls -> scan_ok rb rs -> apply_sides sides (scan_rest lb ls) (scan_rest rb rs) = Some (out, xs2, ys2) ->
  exists ls' rs', scan_ok lb ls' /\ scan_ok rb rs' /\ scan_rest lb ls' = xs2 /\ scan_rest rb rs' = ys2 /\
    forall B (f : Row D -> B),
      merge_fixed_size_blocks (fmap (M:=list) (fmap f) lb) (fmap (M:=list) (fmap f) rb) ls rs sides = Ok (f <$> out, ls', rs').
Proof.
  intros Hls Hrs Ha. destruct (merge_fixed_size_blocks_spec lb rb ls rs sides out xs2 ys2) as (ls' & rs' & Hm & ? & ? & ? & ?); [done..|].
  exists ls', rs'. split_and!; [done..|]. intros B f. by rewrite merge_fixed_size_blocks_map, Hm.
Qed.

Lemma merge_rounds_spec fuel ls rs total acc :
  scan_ok lb ls -> scan_ok rb rs -> remaining ls + remaining rs < fuel ->
  let size := length (scan_rest lb ls) + length (scan_rest rb rs) in
  exists n blocks, merge_loop key_layout block_capacity limit_hint left right fuel ls rs total acc = Ok (add_blocks acc blocks)
    /\ concat blocks = (merge_steps row_lt n (scan_rest lb ls) (scan_rest rb rs)).1.1.2
    /\ Forall (fun b => 0 < length b <= block_capacity) blocks
    /\ n <= size /\ (n = size \/ exists limit, limit_hint = Some limit /\ limit <= total + n).
Proof.
  cbn zeta. revert ls rs total acc. induction fuel as [|fuel IH]; intros ls rs total acc Hls Hrs Hfuel; [lia|].
  cbn [merge_loop]. pose proof (proj1 Hls) as Hreml. pose proof (proj1 Hrs) as Hremr.
  destruct ((remaining ls =? 0) && (remaining rs =? 0)) eqn:Hz.
  { apply andb_true_iff in Hz as [H1%Nat.eqb_eq H2%Nat.eqb_eq].
    exists 0, []. rewrite add_blocks_nil. split_and!; [done..|constructor|lia|left; lia]. }
  destruct (limit_reached limit_hint total) eqn:Hlimit.
  { exists 0, []. rewrite add_blocks_nil. split_and!; [done..|constructor|lia|]. right. unfold limit_reached in Hlimit.
    destruct limit_hint as [limit|]; [|done]. exists limit. apply Nat.leb_le in Hlimit. split; [done|lia]. }
  set (n := Nat.min block_capacity (remaining ls + remaining rs)).
  assert (0 < remaining ls + remaining rs) as Hpos.
  { apply andb_false_iff in Hz as [H1%Nat.eqb_neq|H1%Nat.eqb_neq]; lia. }
  destruct (find_merge_side_spec ls rs n) as (l0 & r0 & ->); [done|done|lia|].
  destruct (merge_steps row_lt n (scan_rest lb ls) (scan_rest rb rs)) as [[[sides out] xs2] ys2] eqn:Hm. cbn [fst].
  pose proof (merge_steps_apply _ _ _ _ _ _ _ _ Hm) as Ha.
  pose proof (merge_steps_length _ _ _ _ _ _ _ _ Hm ltac:(lia)) as (_ & Hlout & Hlen).
  destruct (merge_round ls rs sides out xs2 ys2) as (ls' & rs' & Hls' & Hrs' & Hxs & Hys & Hround); [done..|].
  unfold segment_of. cbn [keys heap_keys data]. unfold mbind, res_bind. rewrite !Hround. fold (segment_of lb lhk lh1 lh2) (segment_of rb rhk rh1 rh2).
  destruct (IH ls' rs' (total + n) (add_blocks acc [out])) as (m & blocks & Hloop & Hconcat & Hcap & Hm1 & Hm2); [done|done| |].
  { rewrite (proj1 Hls'), (proj1 Hrs'), Hxs, Hys. lia. }
  rewrite Hxs, Hys in Hconcat, Hm1, Hm2. exists (n + m), (out :: blocks). split_and!.
  - change (out :: blocks) with ([out] ++ blocks). rewrite <- add_blocks_app, <- Hloop. unfold add_blocks at 1. cbn [fmap list_fmap].
    destruct (any_requires_heap key_layout); rewrite ?Hround; cbn [rust_assert]; rewrite !bool_decide_true by done; done.
  - cbn [concat]. rewrite Hconcat, merge_steps_add, Hm. by destruct (merge_steps row_lt m xs2 ys2) as [[[]]].
  - constructor; [|done]. lia.
  - lia.
  - destruct Hm2 as [->|(limit & ? & ?)]; [left; lia|right; exists limit; split; [done|lia]].
Qed.

(** [BinaryMerger::merge] makes a segment of the first rows of the merged ones. *)
Lemma merge_spec :
  exists n blocks, merge key_layout block_capacity limit_hint left right = Ok (segment_of blocks [] (lh1 ++ rh1) (lh2 ++ rh2))
    /\ concat blocks = (merge_steps row_lt n (concat lb) (concat rb)).1.1.2
    /\ Forall (fun b => 0 < length b <= block_capacity) blocks
    /\ n <= length (concat lb) + length (concat rb)
    /\ (n = length (concat lb) + length (concat rb) \/ exists limit, limit_hint = Some limit /\ limit <= n).
Proof.
  assert (forall bs : list (list (Row D)), sum_list (length <$> fmap (M:=list) (fmap row_key_bytes) bs) = sum_list (length <$> bs)) as Hsum.
  { intros bs. f_equal. rewrite <- list_fmap_compose. apply list_fmap_ext. intros _ b _. apply length_fmap. }
  unfold merge, reset_for_run. cbn [keys segment_of]. rewrite !Hsum.
  destruct (scan_ok_reset lb) as [Hls Hlr], (scan_ok_reset rb) as [Hrs Hrr].
  destruct (merge_rounds_spec (S (sum_list (length <$> lb) + sum_list (length <$> rb)))
    (mkScan 0 0 (sum_list (length <$> lb))) (mkScan 0 0 (sum_list (length <$> rb))) 0 (mkMerged [] [] []))
    as (n & blocks & Hm & Hc & Hcap & Hn & Hn2); [done|done|cbn [remaining]; lia|].
  rewrite Hlr, Hrr in *. cbn [remaining] in *. rewrite Hm. exists n, blocks. split_and!; done.
Qed.

End Segments.

(** ** Properties *)

(** The rows of a segment, and that they are sorted. *)
Record merged_from {D} (cols : list SortColumn) (limit_hint : option nat) (all out : list (Row D)) : Prop := {
  merged_sorted : row_sorted cols out;
  merged_rows : exists dropped, out ++ dropped ≡ₚ all
    /\ (forall a b, a ∈ out -> b ∈ dropped -> row_cmp cols a b <> Gt)
    /\ (dropped = [] \/ exists limit, limit_hint = Some limit /\ limit <= length out);
}.

Lemma merge_steps_from {D} cols limit_hint (xs ys : list (Row D)) n :
  Forall (row_typed cols) xs -> Forall (row_typed cols) ys -> row_sorted cols xs -> row_sorted cols ys ->
  n <= length xs + length ys -> (n = length xs + length ys \/ exists limit, limit_hint = Some limit /\ limit <= n) ->
  merged_from cols limit_hint (xs ++ ys) (merge_steps (row_lt cols) n xs ys).1.1.2.
Proof.
  intros Hx Hy Hsx Hsy Hn Hlim. destruct (merge_steps (row_lt cols) n xs ys) as [[[sides out] xs2] ys2] eqn:Hs. cbn [fst snd].
  destruct (merge_steps_length _ _ _ _ _ _ _ _ Hs Hn) as (_ & Hlo & Hrest).
  destruct (merge_steps_sorted (row_lt cols) (fun x y => row_cmp cols x y <> Gt) (row_typed cols) (row_cmp_trans cols)
    (row_lt_le cols) (row_nlt_le cols) n xs ys sides out xs2 ys2) as (Hp & Hso & _ & _ & Hle); [auto..|].
  split; [done|]. exists (xs2 ++ ys2). split_and!; [done|done|]. destruct Hlim as [->|(limit & ? & ?)].
  - left. apply nil_length_inv. rewrite length_app. lia.
  - right. exists limit. split; [done|lia].
Qed.

(** The segment holds these blocks of rows, with keys, heap keys and data aligned. *)
Definition represents {D Heap} (cols : list SortColumn) (blocks : list (list (Row D))) (seg : @SortedSegment D Heap) : Prop :=
  exists hk h1 h2, seg = segment_of cols blocks hk h1 h2.

Lemma merge_represents {D Heap} cols (left right : @SortedSegment D Heap) lb rb block_capacity limit_hint :
  represents cols lb left -> represents cols rb right ->
  Forall (row_typed cols) (concat lb) -> Forall (row_typed cols) (concat rb) ->
  row_sorted cols (concat lb) -> row_sorted cols (concat rb) -> 0 < block_capacity ->
  exists out blocks,
    merge (try_new cols) block_capacity limit_hint left right = Ok out
    /\ represents cols blocks out
    /\ heap_keys_heap out = heap_keys_heap left ++ heap_keys_heap right /\ data_heap out = data_heap left ++ data_heap right
    /\ Forall (fun b => 0 < length b <= block_capacity) blocks
    /\ merged_from cols limit_hint (concat lb ++ concat rb) (concat blocks).
Proof.
  intros (lhk & lh1 & lh2 & ->) (rhk & rh1 & rh2 & ->) Hl Hr Hsl Hsr Hcap.
  destruct (merge_spec cols lb rb lhk rhk lh1 lh2 rh1 rh2 (proj1 (Forall_concat _ _) Hl) (proj1 (Forall_concat _ _) Hr)
    block_capacity limit_hint Hcap) as (n & blocks & Hm & Hc & Hb & Hn & Hlim).
  exists (segment_of cols blocks [] (lh1 ++ rh1) (lh2 ++ rh2)), blocks. split_and!; [done| |done|done|done|].
  - by exists [], (lh1 ++ rh1), (lh2 ++ rh2).
  - rewrite Hc. by apply merge_steps_from.
Qed.

(** Merging two sorted segments succeeds (no assertion fails, all reads
    are in range), and the output segment keeps its keys, heap keys and data
    aligned in blocks of at most the block capacity.  Its rows are sorted by the
    ORDER BY order over full string values; they are all rows of both segments,
    or, where there is a limit hint, at least that many, none greater than a
    dropped one. *)
Theorem merge_correct {D Heap} cols (left right : @SortedSegment D Heap) lb rb block_capacity limit_hint :
  represents cols lb left -> represents cols rb right ->
  Forall (row_typed cols) (concat lb) -> Forall (row_typed cols) (concat rb) ->
  row_sorted cols (concat lb) -> row_sorted cols (concat rb) -> 0 < block_capacity ->
  exists out blocks,
    merge (try_new cols) block_capacity limit_hint left right = Ok out
    /\ represents cols blocks out
    /\ Forall (fun b => 0 < length b <= block_capacity) blocks
    /\ row_sorted cols (concat blocks)
    /\ exists dropped, concat blocks ++ dropped ≡ₚ concat lb ++ concat rb
      /\ (forall a b, a ∈ concat blocks -> b ∈ dropped -> row_cmp cols a b <> Gt)
      /\ (dropped = [] \/ exists limit, limit_hint = Some limit /\ limit <= length (concat blocks)).
Proof.
  intros. destruct (merge_represents cols left right lb rb block_capacity limit_hint) as (out & blocks & ? & ? & _ & _ & ? & [? ?]); [done..|].
  eauto 10.
Qed.

(** ORDER BY a string DESC; the rows of the left segment differ after the prefix. *)
Definition example_row (last : Z) (d : nat) : Row nat :=
  mkRow [Some (VBytes (replicate 12 97%Z ++ [last]))] [0; 0; 0; 0]%Z d.
Definition example_left : list (list (Row nat)) := [[example_row 100 1; example_row 98 2]; [mkRow [None] [0;0;0;1]%Z 3]].
Definition example_right : list (list (Row nat)) := [[example_row 99 4]].
Definition string_desc : list SortColumn := [mkColumn true false Utf8].

Lemma merge_correct_witness :
  exists out, merge (try_new string_desc) 2 (Some 2) (segment_of string_desc example_left [] [tt] []) (segment_of string_desc example_right [] [] [])
    = Ok out /\ data out = [[1; 4]] /\ exists blocks, represents string_desc blocks out /\ row_sorted string_desc (concat blocks).
Proof.
  destruct (merge_correct string_desc (segment_of string_desc example_left [] [tt] []) (segment_of string_desc example_right [] [] [])
    example_left example_right 2 (Some 2)) as (out & blocks & Hm & Hr & _ & Hs & _).
  - eexists _, _, _. reflexivity.
  - eexists _, _, _. reflexivity.
  - repeat constructor; vm_compute; done.
  - repeat constructor; vm_compute; done.
  - unfold row_sorted. repeat constructor; vm_compute; done.
  - unfold row_sorted. repeat constructor; vm_compute; done.
  - lia.
  - exists out. split; [exact Hm|]. split; [|exists blocks; split; [exact Hr|exact Hs]].
    vm_compute in Hm. injection Hm as <-. reflexivity.
Defined.
