(* ===== verification/SortBlock.v ===== *)
(** * Sorting a block

    Models [arrays/sort/sorted_block.rs]: the rows of a block are sorted by the
    fixed-size keys up to the first column that needs the heap, ties are found
    and broken by the strings on the heap, then the next columns are sorted
    within the ties, and so on; heap keys and data are put in the order of the
    keys at the end, by the row index each key row carries.  A block is the list
    of its rows. *)
From stdpp Require Import sorting.
From S2P Require Import Prelude Arrays ArrayData SortLayout SortOrder SortMerge.

(** ** Definitions *)

(** [slice::sort_unstable_by] on indices: sorted where the comparison is a total
    preorder, in any order among equal elements. *)
Class SliceSort : Type := {
  sort_unstable_by : (nat -> nat -> comparison) -> list nat -> list nat;
  sort_permutation : forall cmp l, TotalPreorder cmp -> sort_unstable_by cmp l ≡ₚ l;
  sort_sorts : forall cmp l, TotalPreorder cmp -> StronglySorted (fun a b => cmp a b <> Gt) (sort_unstable_by cmp l);
}.

(** A [u32] in memory, little endian. *)
Definition le_bytes (x : Z) : list Z := rev (to_be_bytes 4 x).
Definition of_le_bytes (bs : list Z) : Z := foldr (fun b acc => b + 256 * acc)%Z 0%Z bs.

Section SortBlock.
Context {D Heap : Type} `{SliceSort}.
Variable layout : SortLayout.

Record SortedBlock : Type := mkSortedBlock {
  block_keys : list KeyRow;
  block_heap_keys : list HeapRow;
  block_heap_keys_heap : list Heap;
  block_data : list D;
  block_data_heap : list Heap;
}.

(** Writing the row index to each row. *)
Definition write_row_idx (row_idx : nat) (row : KeyRow) : KeyRow :=
  take (compare_width layout) row ++ le_bytes (Z.of_nat row_idx) ++ drop (compare_width layout + 4) row.

(** [read_inline_idx] *)
Definition read_inline_idx (row : KeyRow) : nat := Z.to_nat (of_le_bytes (take 4 (drop (compare_width layout) row))).

(** The bytes of a row in the compare range. *)
Definition compare_slice (compare_offset compare_width : nat) (row : KeyRow) : list Z :=
  take compare_width (drop compare_offset row).

(** [fill_ties] *)
Fixpoint fill_ties (compare_offset compare_width : nat) (keys : list KeyRow) (ties : list bool) : list bool :=
  match ties, keys with
  | tie :: ties', a :: ((b :: _) as keys') =>
      (if tie then bool_decide (compare_slice compare_offset compare_width a = compare_slice compare_offset compare_width b) else false)
      :: fill_ties compare_offset compare_width keys' ties'
  | _, _ => ties
  end.

(** The rows of the subset in the order of the sort indices, in place. *)
Definition reorder (keys : list KeyRow) (row_offset row_count : nat) (sort_indices : list nat) : list KeyRow :=
  let rows := take row_count (drop row_offset keys) in
  take row_offset keys ++ ((fun i => rows !!! i) <$> sort_indices) ++ drop (row_offset + row_count) keys.

(** [sort_keys_in_place] *)
Definition sort_keys_in_place (keys : list KeyRow) (row_offset row_count compare_offset compare_width : nat) : res (list KeyRow) :=
  _ ← rust_assert (compare_offset + compare_width <=? row_width layout)
        "assertion failed: layout.row_width >= compare_offset + compare_width";
  _ ← rust_assert (row_offset + row_count <=? length keys) "rows out of bounds";
  let rows := take row_count (drop row_offset keys) in
  let key i := compare_slice compare_offset compare_width (rows !!! i) in
  let sort_indices := sort_unstable_by (fun a b => cmp_bytes (key a) (key b)) (seq 0 row_count) in
  Ok (reorder keys row_offset row_count sort_indices).

(** How many of the next rows are tied. *)
Fixpoint leading_ties (ties : list bool) : nat :=
  match ties with true :: ties' => S (leading_ties ties') | _ => 0 end.

(** The loops of [sort_tied_keys_in_place] and [sort_tied_heap_keys_in_place],
    with the sort of the tied rows as [body]. *)
Fixpoint tied_loop (body : list KeyRow -> list bool -> nat -> nat -> res (list KeyRow * list bool))
    (fuel : nat) (keys : list KeyRow) (ties : list bool) (row_offset : nat) : res (list KeyRow * list bool) :=
  match fuel with
  | O => Panic "out of fuel"
  | S fuel' =>
      match ties !! row_offset with
      | None => Ok (keys, ties)
      | Some false => tied_loop body fuel' keys ties (S row_offset)
      | Some true =>
          let next_row_offset := row_offset + 1 + leading_ties (drop (row_offset + 1) ties) in
          let row_count := next_row_offset - row_offset + 1 in
          '(keys', ties') ← body keys ties row_offset row_count;
          tied_loop body fuel' keys' ties' next_row_offset
      end
  end.

(** [sort_tied_keys_in_place] *)
Definition sort_tied_keys_in_place (keys : list KeyRow) (ties : list bool) (compare_offset compare_width : nat) : res (list KeyRow) :=
  '(keys', _) ← tied_loop (fun keys ties row_offset row_count =>
                    keys' ← sort_keys_in_place keys row_offset row_count compare_offset compare_width;
                    Ok (keys', ties))
                  (S (length ties)) keys ties 0;
  Ok keys'.

(** The string a heap key row holds for the column, by the inline index. *)
Definition heap_value (heap_keys : list HeapRow) (heap_key_column : nat) (row : KeyRow) : res (list Z) :=
  heap_row ← index heap_keys (read_inline_idx row);
  v ← index heap_row heap_key_column;
  match v with Some bs => Ok bs | None => Panic "read of an invalid heap value" end.

(** Which neighbours are equal. *)
Fixpoint equal_next (vals : list (list Z)) : list bool :=
  match vals with
  | a :: ((b :: _) as vals') => bool_decide (cmp_bytes a b = Eq) :: equal_next vals'
  | _ => []
  end.

(** [sort_heap_keys] *)
Definition sort_heap_keys (heap_keys : list HeapRow) (key_column : nat) (keys : list KeyRow) (ties : list bool)
    (row_offset row_count : nat) : res (list KeyRow * list bool) :=
  heap_key_column ← match heap_mapping layout !! key_column with
                    | Some (Some c) => Ok c
                    | _ => Panic "to be provides s column that has a heap key"
                    end;
  first_key ← index keys row_offset;
  first_heap_row ← index heap_keys (read_inline_idx first_key);
  first ← index first_heap_row heap_key_column;
  match first with
  | None => Ok (keys, ties)
  | Some _ =>
      phys_type ← index (heap_types layout) heap_key_column;
      if negb (is_heap_type phys_type) then Err "Heap key compare for type (sorted block)" else
      _ ← rust_assert (row_offset + row_count <=? length keys) "rows out of bounds";
      col ← index (columns layout) key_column;
      vals ← collect (heap_value heap_keys heap_key_column) (take row_count (drop row_offset keys));
      let cmp a b := let ord := cmp_bytes (vals !!! a) (vals !!! b) in if desc col then CompOpp ord else ord in
      let keys' := reorder keys row_offset row_count (sort_unstable_by cmp (seq 0 row_count)) in
      sorted_vals ← collect (heap_value heap_keys heap_key_column) (take row_count (drop row_offset keys'));
      _ ← rust_assert (row_offset + row_count - 1 <=? length ties) "index out of bounds";
      Ok (keys', take row_offset ties ++ equal_next sorted_vals ++ drop (row_offset + row_count - 1) ties)
  end.

(** [sort_tied_heap_keys_in_place] *)
Definition sort_tied_heap_keys_in_place (heap_keys : list HeapRow) (key_column : nat) (keys : list KeyRow) (ties : list bool) :
    res (list KeyRow * list bool) :=
  tied_loop (sort_heap_keys heap_keys key_column) (S (length ties)) keys ties 0.

Definition no_ties (ties : list bool) : bool := forallb negb ties.

(** The loop of [sort_from_blocks] over the last [num] columns. *)
Fixpoint sort_columns (heap_keys : list HeapRow) (num col_idx compare_offset compare_width : nat) (first_sort : bool)
    (keys : list KeyRow) (tied_with_next : list bool) : res (list KeyRow) :=
  match num with
  | O => Ok keys
  | S num' =>
      width ← index (column_widths layout) col_idx;
      let compare_width := compare_width + width in
      let last := num' =? 0 in
      let requires_heap := column_requires_heap layout col_idx in
      if negb last && negb requires_heap then
        sort_columns heap_keys num' (S col_idx) compare_offset compare_width first_sort keys tied_with_next
      else
        keys ← (if first_sort then sort_keys_in_place keys 0 (length keys) compare_offset compare_width
                else sort_tied_keys_in_place keys tied_with_next compare_offset compare_width);
        if last && negb requires_heap then Ok keys
        else
          let ties := fill_ties compare_offset compare_width keys tied_with_next in
          if no_ties ties then Ok keys
          else if requires_heap then
            '(keys, ties) ← sort_tied_heap_keys_in_place heap_keys col_idx keys ties;
            if no_ties ties then Ok keys
            else sort_columns heap_keys num' (S col_idx) (compare_offset + compare_width) 0 false keys ties
          else sort_columns heap_keys num' (S col_idx) (compare_offset + compare_width) 0 false keys ties
  end.

(** [apply_sort_indices] *)
Definition apply_sort_indices {A} (src : list A) (indices : list nat) : res (list A) :=
  _ ← rust_assert (length indices <=? length src) "assertion failed: src.data.len() >= indices.len() * row_width";
  collect (index src) indices.

(** The rows kept under the limit hint. *)
Definition num_rows_to_copy (limit_hint : option nat) (num_rows : nat) : nat :=
  match limit_hint with
  | Some limit_hint => if limit_hint <? num_rows then limit_hint else num_rows
  | None => num_rows
  end.

(** [SortedBlock::sort_from_blocks]; the data layout has columns. *)
Definition sort_from_blocks (keys : list KeyRow) (heap_keys : list HeapRow) (heap_keys_heap : list Heap)
    (data : list D) (data_heap : list Heap) (limit_hint : option nat) : res (option SortedBlock) :=
  let num_rows := length keys in
  if num_rows =? 0 then Ok None
  else
    sorted_keys ← sort_columns heap_keys (length (columns layout)) 0 0 0 true (imap write_row_idx keys) (replicate (num_rows - 1) true);
    let sorted_keys := take (num_rows_to_copy limit_hint num_rows) sorted_keys in
    let row_idx_iter := read_inline_idx <$> sorted_keys in
    sorted_heap_keys ← (if any_requires_heap layout then apply_sort_indices heap_keys row_idx_iter else Ok []);
    sorted_data ← apply_sort_indices data row_idx_iter;
    Ok (Some (mkSortedBlock sorted_keys sorted_heap_keys heap_keys_heap sorted_data data_heap)).

(** [SortedSegment::from_sorted_block] *)
Definition from_sorted_block (block : SortedBlock) : @SortedSegment D Heap :=
  mkSegment [block_keys block] [block_heap_keys block] (block_heap_keys_heap block) [block_data block] (block_data_heap block).

End SortBlock.

(** ** Rows in groups of ties *)

Section Groups.
Context {R : Type}.
Implicit Types (p c : R -> R -> comparison) (g xs : list R) (ts : list bool).

(** All rows compare equal. *)
Definition all_tied p g : Prop := forall a b, a ∈ g -> b ∈ g -> p a b = Eq.

(** The rows are sorted, and each tie marks the rows that compare equal. *)
Inductive grouped p : list R -> list bool -> Prop :=
| grouped_last g : g <> [] -> all_tied p g -> grouped p g (replicate (length g - 1) true)
| grouped_cons g xs ts :
    g <> [] -> all_tied p g -> (forall a b, a ∈ g -> b ∈ xs -> p a b = Lt) -> grouped p xs ts ->
    grouped p (g ++ xs) (replicate (length g - 1) true ++ false :: ts).

(** Each group is replaced by [g'] with the ties [gt'] between its rows. *)
Inductive regroup p (Step : list R -> list R -> list bool -> Prop) : list R -> list bool -> list R -> list bool -> Prop :=
| regroup_last g g' gt' :
    g <> [] -> all_tied p g -> Step g g' gt' -> regroup p Step g (replicate (length g - 1) true) g' gt'
| regroup_cons g g' gt' xs ts xs' ts' :
    g <> [] -> all_tied p g -> (forall a b, a ∈ g -> b ∈ xs -> p a b = Lt) -> Step g g' gt' -> regroup p Step xs ts xs' ts' ->
    regroup p Step (g ++ xs) (replicate (length g - 1) true ++ false :: ts) (g' ++ xs') (gt' ++ false :: ts').

(** The neighbours that compare equal. *)
Fixpoint ties_of c xs : list bool :=
  match xs with
  | a :: ((b :: _) as xs') => bool_decide (c a b = Eq) :: ties_of c xs'
  | _ => []
  end.

Lemma grouped_length p xs ts : grouped p xs ts -> length xs = S (length ts).
Proof.
  induction 1 as [g Hg|g xs ts Hg _ _ _ IH].
  - rewrite length_replicate. destruct g; [done|simpl; lia].
  - rewrite !length_app, length_replicate. simpl. destruct g; [done|simpl; lia].
Qed.

Lemma grouped_nonempty p xs ts : grouped p xs ts -> xs <> [].
Proof. intros Hg%grouped_length ->. done. Qed.

Lemma grouped_ext p p' xs ts : (forall a b, a ∈ xs -> b ∈ xs -> p a b = p' a b) -> grouped p xs ts -> grouped p' xs ts.
Proof.
  intros Hext Hg. induction Hg as [g Hg Ht|g xs ts Hg Ht Hlt _ IH].
  - constructor; [done|]. intros a b Ha Hb. rewrite <- Hext by done. by apply Ht.
  - assert (forall a, a ∈ g -> a ∈ g ++ xs) as Hl by (intros; apply elem_of_app; tauto).
    assert (forall a, a ∈ xs -> a ∈ g ++ xs) as Hr by (intros; apply elem_of_app; tauto).
    constructor; [done| | |auto].
    + intros a b Ha Hb. rewrite <- Hext by auto. by apply Ht.
    + intros a b Ha Hb. rewrite <- Hext by auto. by apply Hlt.
Qed.

Lemma strongly_sorted_app (le : R -> R -> Prop) g xs :
  StronglySorted le g -> StronglySorted le xs -> (forall a b, a ∈ g -> b ∈ xs -> le a b) -> StronglySorted le (g ++ xs).
Proof.
  induction 1 as [|x g _ IH Hx]; intros Hxs Hle; [done|]. cbn. constructor.
  - apply IH; [done|]. intros a b Ha Hb. apply Hle; [by right|done].
  - apply Forall_app. split; [done|]. apply Forall_forall. intros b Hb. apply Hle; [by left|done].
Qed.

Lemma strongly_sorted_all (le : R -> R -> Prop) g : (forall a b, a ∈ g -> b ∈ g -> le a b) -> StronglySorted le g.
Proof.
  induction g as [|x g IH]; intros Hle; constructor.
  - apply IH. intros a b Ha Hb. apply Hle; by right.
  - apply Forall_forall. intros b Hb. apply Hle; [left|by right].
Qed.

Lemma grouped_sorted p xs ts : grouped p xs ts -> StronglySorted (fun a b => p a b <> Gt) xs.
Proof.
  induction 1 as [g _ Ht|g xs ts _ Ht Hlt _ IH].
  - apply strongly_sorted_all. intros a b Ha Hb. by rewrite Ht.
  - apply strongly_sorted_app; [|done|].
    + apply strongly_sorted_all. intros a b Ha Hb. by rewrite Ht.
    + intros a b Ha Hb. by rewrite Hlt.
Qed.

(** Without ties, further columns do not matter. *)
Lemma grouped_no_ties p c xs ts :
  (forall x, c x x <> Gt) -> grouped p xs ts -> no_ties ts = true ->
  StronglySorted (fun a b => then_compare (p a b) (c a b) <> Gt) xs.
Proof.
  assert (forall n l, forallb negb (replicate n true ++ l) = true -> n = 0 /\ forallb negb l = true) as Hrep.
  { intros [|n] l Hl; [done|]. done. }
  assert (forall g, g <> [] -> length g - 1 = 0 -> exists x, g = [x]) as Hone.
  { intros [|x [|y g]] Hg Hl; [done|by exists x|simpl in Hl; lia]. }
  intros Hc. unfold no_ties. induction 1 as [g Hg Ht|g xs ts Hg Ht Hlt Hxs IH]; intros Hts.
  - rewrite <- (app_nil_r (replicate _ _)) in Hts. apply Hrep in Hts as [Hn _]. destruct (Hone g Hg Hn) as [x ->].
    repeat constructor.
  - apply Hrep in Hts as [Hn Hts]. destruct (Hone g Hg Hn) as [x ->]. cbn. constructor; [by apply IH|].
    apply Forall_forall. intros b Hb. rewrite Hlt; [done|left|done].
Qed.

Lemma strongly_sorted_ext (le le' : R -> R -> Prop) g :
  (forall a b, a ∈ g -> b ∈ g -> le a b -> le' a b) -> StronglySorted le g -> StronglySorted le' g.
Proof.
  intros Hle. induction 1 as [|x g _ IH Hx]; constructor.
  - apply IH. intros a b Ha Hb. apply Hle; by right.
  - rewrite Forall_forall in Hx |- *. intros b Hb. apply Hle; [left|by right|by apply Hx].
Qed.

Lemma length_ties_of c xs : length (ties_of c xs) = length xs - 1.
Proof. induction xs as [|x [|y xs] IH]; [done..|]. cbn [ties_of length] in *. rewrite IH. lia. Qed.

Lemma replicate_tie (x : R) g : g <> [] -> true :: replicate (length g - 1) true = replicate (length (x :: g) - 1) true.
Proof. intros Hg. destruct g as [|y g]; [done|]. simpl. by rewrite Nat.sub_0_r. Qed.

Lemma ties_of_all_tied c g : all_tied c g -> replicate (length g - 1) true = ties_of c g.
Proof.
  induction g as [|x [|y g] IH]; intros Ht; [done..|]. rewrite <- (replicate_tie x) by done. cbn [ties_of].
  rewrite bool_decide_true by (apply Ht; [left|right; left]). f_equal. apply IH. intros a b Ha Hb. apply Ht; by right.
Qed.

(** A sorted list with its ties. *)
Lemma ties_of_grouped c xs `{!TotalPreorder c} :
  xs <> [] -> StronglySorted (fun a b => c a b <> Gt) xs -> grouped c xs (ties_of c xs).
Proof.
  intros Hne Hs. induction Hs as [|x xs Hs IH Hx]; [done|]. destruct xs as [|y xs].
  { apply (grouped_last c [x]); [done|]. intros a b ->%list_elem_of_singleton ->%list_elem_of_singleton. apply (cmp_refl c). }
  specialize (IH ltac:(done)). rewrite Forall_forall in Hx. change (ties_of c (x :: y :: xs)) with (bool_decide (c x y = Eq) :: ties_of c (y :: xs)).
  revert IH. generalize (ties_of c (y :: xs)). intros ts Hg. case_bool_decide as Hxy.
  - assert (forall g, g <> [] -> all_tied c g -> y ∈ g -> all_tied c (x :: g)) as Hext.
    { intros g _ Ht Hy a b [->|Ha]%elem_of_cons [->|Hb]%elem_of_cons; [apply (cmp_refl c)| | |by apply Ht].
      - rewrite (cmp_eq_cong c x y) by done. by apply Ht.
      - rewrite (cmp_opp c x a), (cmp_eq_cong c x y) by done. by rewrite (Ht y a). }
    clear Hne Hs. remember (y :: xs) as l eqn:Hl. destruct Hg as [g Hne Ht|g zs ts' Hne Ht Hlt Hzs].
    + subst g. rewrite (replicate_tie x) by done. apply (grouped_last c (x :: y :: xs)); [done|]. apply Hext; [done|done|left].
    + destruct g as [|y' g]; [done|]. injection Hl as -> <-. rewrite !app_comm_cons, (replicate_tie x) by done.
      apply (grouped_cons c (x :: y :: g) zs ts'); [done| | |done].
      * apply Hext; [done|done|left].
      * intros a b [->|Ha]%elem_of_cons Hb; [|by apply Hlt]. rewrite (cmp_eq_cong c x y) by done. apply Hlt; [left|done].
  - apply (grouped_cons c [x]); [done| | |done].
    + intros a b ->%list_elem_of_singleton ->%list_elem_of_singleton. apply (cmp_refl c).
    + intros a b ->%list_elem_of_singleton Hb. assert (c x y = Lt) as Hlt by (specialize (Hx y (list_elem_of_here _ _)); by destruct (c x y)).
      apply (cmp_lt_le c x y b Hlt). apply elem_of_cons in Hb as [->|Hb]; [by rewrite (cmp_refl c)|].
      apply StronglySorted_inv in Hs as [_ Hs]. rewrite Forall_forall in Hs. by apply Hs.
Qed.

Lemma grouped_app p xs ts ys us :
  grouped p xs ts -> grouped p ys us -> (forall a b, a ∈ xs -> b ∈ ys -> p a b = Lt) -> grouped p (xs ++ ys) (ts ++ false :: us).
Proof.
  intros Hx Hy. induction Hx as [g Hg Ht|g xs ts Hg Ht Hlt _ IH]; intros Hxy.
  - by apply grouped_cons.
  - rewrite <- !app_assoc. cbn. apply grouped_cons; [done|done| |].
    + intros a b Ha [Hb|Hb]%elem_of_app; [by apply Hlt|]. apply Hxy; [|done]. apply elem_of_app. by left.
    + apply IH. intros a b Ha Hb. apply Hxy; [|done]. apply elem_of_app. by right.
Qed.

Lemma all_tied_permutation p g g' : g' ≡ₚ g -> all_tied p g -> all_tied p g'.
Proof. intros Hp Ht a b. rewrite Hp. apply Ht. Qed.

Lemma regroup_nonempty p Step xs ts xs' ts' : regroup p Step xs ts xs' ts' -> xs <> [].
Proof. intros [g g' gt' Hg _ _|g g' gt' ys us ys' us' Hg _ _ _ _]; [done|]. by destruct g. Qed.

Section Regroup.
Variables (p c : R -> R -> comparison) (Step : list R -> list R -> list bool -> Prop).
Context `{!TotalPreorder c}.
Hypothesis step_sorts : forall g g' gt', Step g g' gt' -> g' ≡ₚ g /\ StronglySorted (fun a b => c a b <> Gt) g'.

Lemma regroup_permutation xs ts xs' ts' : regroup p Step xs ts xs' ts' -> xs' ≡ₚ xs.
Proof.
  induction 1 as [g g' gt' _ _ Hs|g g' gt' xs ts xs' ts' _ _ _ Hs _ IH]; apply step_sorts in Hs as [Hp _]; [done|].
  by rewrite Hp, IH.
Qed.

(** The rows are sorted by the first order, then by the second. *)
Lemma regroup_sorted xs ts xs' ts' :
  regroup p Step xs ts xs' ts' -> StronglySorted (fun a b => then_compare (p a b) (c a b) <> Gt) xs'.
Proof.
  assert (forall g g' gt', all_tied p g -> Step g g' gt' -> StronglySorted (fun a b => then_compare (p a b) (c a b) <> Gt) g') as Hgroup.
  { intros g g' gt' Ht [Hp Hs]%step_sorts. apply (all_tied_permutation p g g' Hp) in Ht. clear Hp.
    induction Hs as [|x l _ IH Hx]; constructor.
    - apply IH. intros a b Ha Hb. apply Ht; by right.
    - rewrite Forall_forall in Hx |- *. intros b Hb. rewrite Ht; [by apply Hx|left|by right]. }
  induction 1 as [g g' gt' _ Ht Hs|g g' gt' xs ts xs' ts' _ Ht Hlt Hs Hr IH]; [by eapply Hgroup|].
  apply strongly_sorted_app; [by eapply Hgroup|done|]. intros a b.
  rewrite (proj1 (step_sorts _ _ _ Hs)), (regroup_permutation _ _ _ _ Hr). intros Ha Hb. by rewrite Hlt.
Qed.

(** And the ties of the second order within the groups are the ties of both. *)
Lemma regroup_grouped xs ts xs' ts' :
  (forall g g' gt', all_tied p g -> Step g g' gt' -> gt' = ties_of c g') ->
  regroup p Step xs ts xs' ts' -> grouped (fun a b => then_compare (p a b) (c a b)) xs' ts'.
Proof.
  intros Hties.
  assert (forall g g' gt', g <> [] -> all_tied p g -> Step g g' gt' -> grouped (fun a b => then_compare (p a b) (c a b)) g' gt') as Hgroup.
  { intros g g' gt' Hg Ht Hs. rewrite (Hties g g' gt' Ht Hs). apply step_sorts in Hs as [Hp Hs].
    apply (all_tied_permutation p g g' Hp) in Ht. apply (grouped_ext c).
    - intros a b Ha Hb. by rewrite Ht.
    - apply ties_of_grouped; [done| |done]. intros ->. by apply Permutation_nil_l in Hp. }
  induction 1 as [g g' gt' Hg Ht Hs|g g' gt' xs ts xs' ts' Hg Ht Hlt Hs Hr IH]; [by eapply Hgroup|].
  apply grouped_app; [by eapply Hgroup|done|]. intros a b.
  rewrite (proj1 (step_sorts _ _ _ Hs)), (regroup_permutation _ _ _ _ Hr). intros Ha Hb. by rewrite Hlt.
Qed.

End Regroup.

(** *** The loop over the groups *)

Section Loop.
Variables (p : R -> R -> comparison) (Step : list R -> list R -> list bool -> Prop) (is_row : R -> Prop).
Variable enc : R -> KeyRow.
Variable body : list KeyRow -> list bool -> nat -> nat -> res (list KeyRow * list bool).
Hypothesis step_one : forall x, is_row x -> Step [x] [x] [].
Hypothesis body_ok : forall pre g suf tp ts, 2 <= length g -> length tp = length pre -> all_tied p g -> Forall is_row g ->
  exists g' gt', body (enc <$> pre ++ g ++ suf) (tp ++ replicate (length g - 1) true ++ ts) (length pre) (length g)
    = Ok (enc <$> pre ++ g' ++ suf, tp ++ gt' ++ ts)
    /\ Step g g' gt' /\ length g' = length g /\ length gt' = length g - 1.

Lemma leading_ties_replicate n ts : (ts = [] \/ exists ts', ts = false :: ts') -> leading_ties (replicate n true ++ ts) = n.
Proof. intros Hts. induction n as [|n IH]; cbn; [|by rewrite IH]. by destruct Hts as [->|[ts' ->]]. Qed.

(** One group of at least two rows. *)
Lemma tied_loop_group fuel pre g suf tp ts :
  2 <= length g -> length tp = length pre -> all_tied p g -> Forall is_row g -> (ts = [] \/ exists ts', ts = false :: ts') ->
  exists g' gt', tied_loop body (S fuel) (enc <$> pre ++ g ++ suf) (tp ++ replicate (length g - 1) true ++ ts) (length pre)
    = tied_loop body fuel (enc <$> pre ++ g' ++ suf) (tp ++ gt' ++ ts) (length pre + (length g - 1))
    /\ Step g g' gt' /\ length g' = length g /\ length gt' = length g - 1.
Proof.
  intros Hg Htp Ht Hrow Hts. destruct (body_ok pre g suf tp ts Hg Htp Ht Hrow) as (g' & gt' & Hb & Hs & Hl1 & Hl2).
  exists g', gt'. split; [|done]. cbn [tied_loop]. destruct (length g - 1) as [|n] eqn:Hn; [lia|].
  rewrite lookup_app_r, Htp, Nat.sub_diag by lia. cbn [replicate app lookup list_lookup].
  replace (drop (length pre + 1) (tp ++ true :: replicate n true ++ ts)) with (replicate n true ++ ts).
  2: { rewrite <- Htp, Nat.add_1_r, (cons_middle true tp), app_assoc, drop_app_length'; [done|]. rewrite length_app. simpl. lia. }
  rewrite leading_ties_replicate by done. replace (length pre + 1 + n - length pre + 1) with (length g) by lia.
  change (true :: replicate n true ++ ts) with (replicate (S n) true ++ ts). rewrite Hb. cbn. f_equal. lia.
Qed.

Lemma tied_loop_spec xs ts :
  grouped p xs ts -> forall fuel pre tp, length tp = length pre -> length ts < fuel -> Forall is_row xs ->
  exists xs' ts', tied_loop body fuel (enc <$> pre ++ xs) (tp ++ ts) (length pre) = Ok (enc <$> pre ++ xs', tp ++ ts')
    /\ regroup p Step xs ts xs' ts'.
Proof.
  induction 1 as [g Hg Ht|g xs ts Hg Ht Hlt Hxs IH]; intros fuel pre tp Htp Hfuel Hrow.
  - destruct g as [|x [|y g]]; [done| |].
    + destruct fuel as [|fuel]; [simpl in Hfuel; lia|]. cbn [length Nat.sub replicate tied_loop]. rewrite app_nil_r.
      rewrite (lookup_ge_None_2 tp) by lia. exists [x], []. rewrite app_nil_r. split; [done|].
      apply (regroup_last p Step [x]); [done|done|]. apply step_one. by inversion Hrow.
    + set (g0 := x :: y :: g) in *. rewrite length_replicate in Hfuel. assert (2 <= length g0) as Hlen by (simpl; lia).
      destruct fuel as [|[|fuel]]; [lia|lia|].
      destruct (tied_loop_group (S fuel) pre g0 [] tp []) as (g' & gt' & Hl & Hs & Hg' & Hgt'); [done..|by left|].
      rewrite !app_nil_r in Hl. rewrite Hl. exists g', gt'. split; [|by constructor].
      cbn [tied_loop]. rewrite lookup_ge_None_2; [done|]. rewrite length_app. lia.
  - apply Forall_app in Hrow as [Hrg Hrx]. rewrite length_app, length_replicate in Hfuel. cbn [length] in Hfuel.
    assert (forall fuel, length ts < fuel -> forall g' gt', length g' = length g -> length gt' = length g - 1 -> Step g g' gt' ->
      exists xs' ts', tied_loop body fuel (enc <$> pre ++ g' ++ xs) (tp ++ gt' ++ false :: ts) (length pre + length g) = Ok (enc <$> pre ++ xs', tp ++ ts')
        /\ regroup p Step (g ++ xs) (replicate (length g - 1) true ++ false :: ts) xs' ts') as Hnext.
    { intros fuel' Hf g' gt' Hg' Hgt' Hs. assert (0 < length g) by (destruct g; [done|simpl; lia]).
      destruct (IH fuel' (pre ++ g') (tp ++ gt' ++ [false])) as (xs' & ts' & Hl & Hr); [rewrite !length_app; simpl; lia|lia|done|].
      rewrite <- !app_assoc, length_app, Hg' in Hl. cbn [app] in Hl. exists (g' ++ xs'), (gt' ++ false :: ts').
      split; [|by constructor]. exact Hl. }
    destruct g as [|x [|y g]]; [done| |].
    + destruct fuel as [|fuel]; [lia|]. cbn [tied_loop]. cbn [length Nat.sub replicate app].
      rewrite lookup_app_r, Htp, Nat.sub_diag by lia. cbn [lookup list_lookup].
      destruct (Hnext fuel ltac:(simpl in Hfuel; lia) [x] []) as (xs' & ts' & Hl & Hr); [done|done|apply step_one; by inversion Hrg|].
      cbn [app length] in Hl. rewrite Nat.add_1_r in Hl. exists xs', ts'. split; [exact Hl|done].
    + set (g0 := x :: y :: g) in *. assert (2 <= length g0) as Hlen by (simpl; lia).
      destruct fuel as [|[|fuel]]; [lia|lia|].
      destruct (tied_loop_group (S fuel) pre g0 xs tp (false :: ts)) as (g' & gt' & Hl & Hs & Hg' & Hgt'); [done..|by right; exists ts|].
      rewrite Hl. cbn [tied_loop]. rewrite (lookup_app_r tp), (lookup_app_r gt') by lia.
      replace (length pre + (length g0 - 1) - length tp - length gt') with 0 by lia. cbn [lookup list_lookup].
      destruct (Hnext fuel ltac:(lia) g' gt') as (xs' & ts' & Hl' & Hr); [done..|].
      exists xs', ts'. split; [|done]. rewrite <- Hl'. f_equal. lia.
Qed.

End Loop.
End Groups.

(** ** Sorting the rows of a group *)

Definition step_sorted {R} (c : R -> R -> comparison) (T : list R -> list bool) (g g' : list R) (gt' : list bool) : Prop :=
  g' ≡ₚ g /\ StronglySorted (fun a b => c a b <> Gt) g' /\ gt' = T g'.

Lemma step_sorted_sorts {R} (c : R -> R -> comparison) T g g' gt' :
  step_sorted c T g g' gt' -> g' ≡ₚ g /\ StronglySorted (fun a b => c a b <> Gt) g'.
Proof. by intros (? & ? & _). Qed.

Lemma step_sorted_one {R} (c : R -> R -> comparison) T x : T [x] = [] -> step_sorted c T [x] [x] [].
Proof. intros HT. split_and!; [done|repeat constructor|done]. Qed.

Lemma strongly_sorted_fmap {A B} (f : A -> B) (le : A -> A -> Prop) (le' : B -> B -> Prop) l :
  (forall x y, x ∈ l -> y ∈ l -> le x y -> le' (f x) (f y)) -> StronglySorted le l -> StronglySorted le' (f <$> l).
Proof.
  intros Hf Hs. induction Hs as [|x l Hs IH Hx]; cbn; constructor.
  - apply IH. intros a b Ha Hb. apply Hf; by right.
  - apply Forall_fmap, Forall_forall. intros b Hb. rewrite Forall_forall in Hx. apply Hf; [left|by right|by apply Hx].
Qed.

Lemma default_lookup_seq {R} (x : R) (g : list R) : (fun i => default x (g !! i)) <$> seq 0 (length g) = g.
Proof.
  apply list_eq. intros i. rewrite list_lookup_fmap. destruct (decide (i < length g)) as [Hi|Hi].
  - rewrite lookup_seq_lt by done. destruct (lookup_lt_is_Some_2 g i Hi) as [a Ha]. cbn. by rewrite Ha.
  - rewrite lookup_seq_ge by lia. symmetry. apply lookup_ge_None. lia.
Qed.

Section SortGroup.
Context `{SliceSort} {R : Type} (enc : R -> KeyRow).

(** The rows of [g] by the sorted indices. *)
Definition by_indices (x : R) (g : list R) (cmp : nat -> nat -> comparison) : list R :=
  (fun i => default x (g !! i)) <$> sort_unstable_by cmp (seq 0 (length g)).

Lemma by_indices_sorted (c : R -> R -> comparison) cmp (x : R) g :
  TotalPreorder cmp -> (forall i j a b, g !! i = Some a -> g !! j = Some b -> cmp i j = c a b) ->
  by_indices x g cmp ≡ₚ g /\ StronglySorted (fun a b => c a b <> Gt) (by_indices x g cmp).
Proof.
  intros Hcmp Hc. unfold by_indices. split; [by rewrite sort_permutation, default_lookup_seq|].
  eapply strongly_sorted_fmap; [|by apply sort_sorts]. intros i j. rewrite !sort_permutation by done.
  intros [_ Hi]%elem_of_seq [_ Hj]%elem_of_seq. destruct (lookup_lt_is_Some_2 g i Hi) as [a Ha], (lookup_lt_is_Some_2 g j Hj) as [b Hb].
  cbn. rewrite Ha, Hb. cbn. by rewrite (Hc i j a b).
Qed.

Lemma group_rows (pre g suf : list R) : take (length g) (drop (length pre) (enc <$> pre ++ g ++ suf)) = enc <$> g.
Proof. rewrite <- fmap_drop, drop_app_length, <- fmap_take, take_app_length. done. Qed.

Lemma reorder_spec (x : R) pre g suf cmp :
  TotalPreorder cmp ->
  reorder (enc <$> pre ++ g ++ suf) (length pre) (length g) (sort_unstable_by cmp (seq 0 (length g)))
  = enc <$> pre ++ by_indices x g cmp ++ suf.
Proof.
  intros Hcmp. unfold reorder. rewrite group_rows, <- fmap_take, take_app_length, <- fmap_drop.
  replace (drop (length pre + length g) (pre ++ g ++ suf)) with suf
    by (rewrite app_assoc, drop_app_length'; [done|by rewrite length_app]).
  rewrite !fmap_app. f_equal. f_equal. unfold by_indices. rewrite <- list_fmap_compose. apply list_fmap_ext.
  intros _ i Hi%list_elem_of_lookup_2. rewrite sort_permutation, elem_of_seq in Hi by done.
  destruct (lookup_lt_is_Some_2 g i) as [a Ha]; [lia|]. cbn. rewrite Ha. cbn. apply list_lookup_total_correct. by rewrite list_lookup_fmap, Ha.
Qed.

Variable layout : SortLayout.

(** Sorting a range of the key block sorts the rows by the compared bytes. *)
Lemma sort_keys_spec (c : R -> R -> comparison) compare_offset compare_width pre g suf :
  g <> [] -> compare_offset + compare_width <= row_width layout ->
  (forall a b, a ∈ g -> b ∈ g -> cmp_bytes (compare_slice compare_offset compare_width (enc a)) (compare_slice compare_offset compare_width (enc b)) = c a b) ->
  exists g', sort_keys_in_place layout (enc <$> pre ++ g ++ suf) (length pre) (length g) compare_offset compare_width
    = Ok (enc <$> pre ++ g' ++ suf) /\ g' ≡ₚ g /\ StronglySorted (fun a b => c a b <> Gt) g'.
Proof.
  intros Hg Hw Hc. destruct g as [|x g0] eqn:Hg0; [done|]. rewrite <- Hg0 in *. clear Hg.
  unfold sort_keys_in_place. rewrite (proj2 (Nat.leb_le _ _) Hw). rewrite (proj2 (Nat.leb_le _ _)) by (rewrite length_fmap, !length_app; lia).
  cbn [rust_assert]. unfold mbind, res_bind. rewrite group_rows.
  set (cmp := fun a b : nat => _).
  assert (TotalPreorder cmp) as Hcmp by apply (key_preorder cmp_bytes (fun i => compare_slice compare_offset compare_width ((enc <$> g) !!! i))).
  exists (by_indices x g cmp). rewrite (reorder_spec x) by done. split; [done|]. apply by_indices_sorted; [done|].
  intros i j a b Ha Hb. unfold cmp.
  rewrite (list_lookup_total_correct (enc <$> g) i (enc a)), (list_lookup_total_correct (enc <$> g) j (enc b))
    by by rewrite list_lookup_fmap, ?Ha, ?Hb.
  apply Hc; by eapply list_elem_of_lookup_2.
Qed.

End SortGroup.

(** ** Orders by ranges of columns *)

Lemma cmp_bytes_eq a b : cmp_bytes a b = Eq -> a = b.
Proof.
  revert b. induction a as [|x a IH]; intros [|y b]; try done. simpl. destruct (Z.compare_spec x y); [|done..].
  intros Hc%IH. congruence.
Qed.

Lemma full_row_order_app cs1 cs2 x y :
  full_row_order (cs1 ++ cs2) x y
  = then_compare (full_row_order cs1 x y) (full_row_order cs2 (drop (length cs1) x) (drop (length cs1) y)).
Proof.
  revert x y. induction cs1 as [|c cs1 IH]; intros x y; cbn [app full_row_order length]; [by rewrite !drop_0|].
  rewrite IH. assert (forall l : list (option value), drop (length cs1) (tail l) = drop (S (length cs1)) l) as Ht.
  { intros [|? ?]; cbn; by rewrite ?drop_nil. }
  rewrite !Ht. by destruct (full_column_order c (column_value x) (column_value y)).
Qed.

Lemma row_key_extra cs v w : length cs = length v -> row_key cs (v ++ w) = row_key cs v.
Proof.
  revert v. induction cs as [|c cs IH]; intros [|a v] Hl; try done. cbn [row_key app].
  by rewrite IH by (simpl in Hl; lia).
Qed.

Lemma full_row_order_extra cs v w v' w' : length cs = length v -> length cs = length v' ->
  full_row_order cs (v ++ w) (v' ++ w') = full_row_order cs v v'.
Proof.
  revert v v'. induction cs as [|c cs IH]; intros [|a v] [|b v'] Hl Hl'; try done. cbn [full_row_order app tail].
  by rewrite IH by (simpl in Hl, Hl'; lia).
Qed.

Section RowSort.
Context {D Heap : Type} `{SliceSort}.
Variable cols : list SortColumn.
Local Abbreviation layout := (try_new cols).
Local Abbreviation enc := (row_key_bytes cols).
Implicit Types x y : Row D.

(** The columns before, the key bytes of columns [mid] after the first [n], and
    the string of column [n]. *)
Definition prefix_order (pre : list SortColumn) x y : comparison := full_row_order pre (row_vals x) (row_vals y).
Definition chunk_key (n : nat) (mid : list SortColumn) x : list Z := row_key mid (drop n (row_vals x)).
Definition chunk_order (n : nat) (mid : list SortColumn) x y : comparison := cmp_bytes (chunk_key n mid x) (chunk_key n mid y).
Definition column_string (n : nat) x : option (list Z) :=
  match row_vals x !! n with Some (Some (VBytes bs)) => Some bs | _ => None end.
Definition string_of (n : nat) x : list Z := from_option id [] (column_string n x).
Definition heap_order (n : nat) (c : SortColumn) x y : comparison :=
  if desc c then cmp_bytes (string_of n y) (string_of n x) else cmp_bytes (string_of n x) (string_of n y).

#[global] Instance chunk_order_preorder n mid : TotalPreorder (chunk_order n mid).
Proof. apply (key_preorder cmp_bytes). Qed.

#[global] Instance heap_order_preorder n c : TotalPreorder (heap_order n c).
Proof.
  unfold heap_order. destruct (desc c); [|apply (key_preorder cmp_bytes)].
  pose proof (flip_preorder cmp_bytes) as Hf. apply (key_preorder (fun a b => cmp_bytes b a)).
Qed.

(** The values of a typed row, split at columns. *)
Lemma row_split pre mid suf x : cols = pre ++ mid ++ suf -> row_typed cols x ->
  exists va vm vs, row_vals x = va ++ vm ++ vs
    /\ Forall2 (fun c v => typed_opt (phys_type c) v) pre va
    /\ Forall2 (fun c v => typed_opt (phys_type c) v) mid vm
    /\ Forall2 (fun c v => typed_opt (phys_type c) v) suf vs.
Proof.
  unfold row_typed. intros -> (va & v2 & Ha & (vm & vs & Hm & Hs & ->)%Forall2_app_inv_l & ->)%Forall2_app_inv_l. eauto 10.
Qed.

Lemma compare_slice_row pre mid suf x : cols = pre ++ mid ++ suf -> row_typed cols x ->
  compare_slice (total_width pre) (total_width mid) (enc x) = chunk_key (length pre) mid x.
Proof.
  intros Hcols Hx. destruct (row_split _ _ _ _ Hcols Hx) as (va & vm & vs & Hv & Ha & Hm & Hs).
  unfold compare_slice, chunk_key, row_key_bytes. rewrite Hv, Hcols. pose proof (Forall2_length _ _ _ Ha) as Hl.
  pose proof (Forall2_length _ _ _ Hm) as Hlm.
  rewrite !row_key_app by done. rewrite <- !app_assoc, <- (length_row_key pre va Ha), drop_app_length.
  rewrite <- (length_row_key mid vm Hm), take_app_length, Hl, drop_app_length. by rewrite row_key_extra.
Qed.

Lemma width_in_row pre mid suf : cols = pre ++ mid ++ suf -> total_width pre + total_width mid <= row_width layout.
Proof.
  intros Hcols. destruct (try_new_spec cols) as (_ & _ & _ & _ & -> & _). rewrite Hcols. unfold total_width.
  rewrite !sum_list_with_app. lia.
Qed.

(** The key bytes of a run of columns whose last one may need the heap, and the
    string of that one, decide the order of those columns. *)
Lemma chunk_decides pre m c suf x y :
  cols = pre ++ (m ++ [c]) ++ suf -> row_typed cols x -> row_typed cols y ->
  Forall (fun c => is_heap_type (phys_type c) = false) m ->
  prefix_order (pre ++ m ++ [c]) x y
  = then_compare (then_compare (prefix_order pre x y) (chunk_order (length pre) (m ++ [c]) x y))
      (if is_heap_type (phys_type c) then heap_order (length pre + length m) c x y else Eq).
Proof.
  intros Hcols Hx Hy Hm. unfold prefix_order. rewrite full_row_order_app.
  destruct (full_row_order pre (row_vals x) (row_vals y)); cbn [then_compare]; [|done..].
  destruct (row_split _ _ _ _ Hcols Hx) as (va & vm & vs & Hv & Ha & Hvm & _).
  destruct (row_split _ _ _ _ Hcols Hy) as (wa & wm & ws & Hw & Hb & Hwm & _).
  pose proof (Forall2_length _ _ _ Ha) as Hla. pose proof (Forall2_length _ _ _ Hb) as Hlb.
  apply Forall2_app_inv_l in Hvm as (v1 & v2 & Hv1 & Hv2 & ->), Hwm as (w1 & w2 & Hw1 & Hw2 & ->).
  apply Forall2_cons_inv_l in Hv2 as (a & ? & Hca & ->%Forall2_nil_inv_l & ->), Hw2 as (b & ? & Hcb & ->%Forall2_nil_inv_l & ->).
  pose proof (Forall2_length _ _ _ Hv1) as Hl1. pose proof (Forall2_length _ _ _ Hw1) as Hl2.
  unfold chunk_order, chunk_key, heap_order, string_of, column_string. rewrite Hv, Hw.
  rewrite <- !app_assoc. cbn [app].
  rewrite (drop_app_length' va) by done. rewrite (drop_app_length' wa) by done.
  rewrite !row_key_app by done. cbn [app row_key]. rewrite !app_nil_r, cmp_bytes_app by by rewrite !length_row_key.
  rewrite row_key_decides, full_row_order_app, full_row_order_extra by done.
  rewrite (drop_app_length' v1), (drop_app_length' w1) by done.
  assert ((va ++ v1 ++ a :: vs) !! (length pre + length m) = Some a) as ->.
  { rewrite app_assoc. apply list_lookup_middle. rewrite length_app. lia. }
  assert ((wa ++ w1 ++ b :: ws) !! (length pre + length m) = Some b) as ->.
  { rewrite app_assoc. apply list_lookup_middle. rewrite length_app. lia. }
  destruct (full_row_order m v1 w1); [|done..]. cbn [full_row_order then_compare].
  change (column_value (a :: vs)) with a. change (column_value (b :: ws)) with b. rewrite column_decides by done.
  destruct (is_heap_type (phys_type c)) eqn:Hh; [|by destruct (cmp_bytes _ _)].
  destruct (cmp_bytes (encode_column _ _ a) _) eqn:Hc; cbn [then_compare]; [|done..].
  apply equal_keys_nulls in Hc. destruct a as [a|], b as [b|]; [|naive_solver..|by destruct (desc c)].
  destruct (typed_bytes _ _ Hh Hca) as (s & -> & _), (typed_bytes _ _ Hh Hcb) as (t & -> & _).
  cbn. rewrite <- (cmp_opp cmp_bytes). by destruct (desc c), (cmp_bytes s t), (cmp_bytes t s).
Qed.

(** Rows with equal keys: both strings are NULL or none is. *)
Lemma tied_nulls pre m c suf x y :
  cols = pre ++ (m ++ [c]) ++ suf -> is_heap_type (phys_type c) = true -> row_typed cols x -> row_typed cols y ->
  chunk_order (length pre) (m ++ [c]) x y = Eq ->
  is_Some (column_string (length (pre ++ m)) x) <-> is_Some (column_string (length (pre ++ m)) y).
Proof.
  intros Hcols Hh Hx Hy.
  assert (forall z, row_typed cols z -> exists v1 a, chunk_key (length pre) (m ++ [c]) z = row_key m v1 ++ encode_column c (phys_type c) a
    /\ length (row_key m v1) = total_width m /\ typed_opt (phys_type c) a /\ row_vals z !! length (pre ++ m) = Some a) as Hkey.
  { intros z Hz. destruct (row_split _ _ _ _ Hcols Hz) as (va & vm & vs & Hv & Ha & Hvm & _).
    apply Forall2_app_inv_l in Hvm as (v1 & v2 & Hv1 & Hv2 & ->).
    apply Forall2_cons_inv_l in Hv2 as (a & ? & Hca & ->%Forall2_nil_inv_l & ->). pose proof (Forall2_length _ _ _ Ha) as Hla.
    pose proof (Forall2_length _ _ _ Hv1) as Hl1. exists v1, a. unfold chunk_key. rewrite Hv, <- app_assoc. cbn [app]. split_and!.
    - rewrite (drop_app_length' va), row_key_app by done. cbn [row_key]. by rewrite app_nil_r.
    - by apply length_row_key.
    - done.
    - rewrite app_assoc. apply list_lookup_middle. rewrite !length_app. lia. }
  destruct (Hkey x Hx) as (v1 & a & Hk1 & Hl1 & Ha & Hv1), (Hkey y Hy) as (v2 & b & Hk2 & Hl2 & Hb & Hv2).
  unfold chunk_order, column_string. rewrite Hk1, Hk2, Hv1, Hv2, cmp_bytes_app by congruence.
  destruct (cmp_bytes (row_key m v1) (row_key m v2)); [|done..]. intros Hn%equal_keys_nulls.
  destruct a as [a|], b as [b|]; [|naive_solver..|done].
  destruct (typed_bytes _ _ Hh Ha) as (s & -> & _), (typed_bytes _ _ Hh Hb) as (t & -> & _). split; eauto.
Qed.

(** *** Sorting by the key bytes of a run of columns *)

Definition marked_tied (g : list (Row D)) : list bool := replicate (length g - 1) true.

Section Chunk.
Variables pre mid suf : list SortColumn.
Hypothesis Hcols : cols = pre ++ mid ++ suf.
Local Abbreviation offset := (total_width pre).
Local Abbreviation width := (total_width mid).
Local Abbreviation chunk := (chunk_order (length pre) mid).

Lemma chunk_slices x y : row_typed cols x -> row_typed cols y ->
  cmp_bytes (compare_slice offset width (enc x)) (compare_slice offset width (enc y)) = chunk x y.
Proof. intros Hx Hy. by rewrite !(compare_slice_row pre mid suf). Qed.

Lemma sort_tied_keys_spec p rows ties :
  grouped p rows ties -> Forall (row_typed cols) rows ->
  exists rows' ties', sort_tied_keys_in_place layout (enc <$> rows) ties offset width = Ok (enc <$> rows')
    /\ regroup p (step_sorted chunk marked_tied) rows ties rows' ties' /\ ties' = ties.
Proof.
  intros Hg Hrows. unfold sort_tied_keys_in_place.
  destruct (tied_loop_spec p (step_sorted chunk marked_tied) (row_typed cols) enc
    (fun keys ties row_offset row_count =>
       keys' ← sort_keys_in_place layout keys row_offset row_count offset width; Ok (keys', ties))) with (xs := rows) (ts := ties)
      (fuel := S (length ties)) (pre := @nil (Row D)) (tp := @nil bool) as (rows' & ties' & Hl & Hr); [| |done|done|lia|done|].
  - intros x _. by apply step_sorted_one.
  - intros before g after tp ts Hg2 _ _ Hrow. rewrite Forall_forall in Hrow.
    destruct (sort_keys_spec enc layout chunk offset width before g after) as (g' & Hs & Hp & Hsort).
    { intros ->. simpl in Hg2. lia. }
    { by apply (width_in_row pre mid suf). }
    { intros a b Ha Hb. apply chunk_slices; auto. }
    pose proof (Permutation_length Hp) as Hlen. exists g', (marked_tied g'). rewrite Hs. unfold marked_tied.
    rewrite Hlen, length_replicate. split_and!; try done. unfold step_sorted, marked_tied. by rewrite Hlen.
  - cbn [app length] in Hl. rewrite Hl. exists rows', ties'. split_and!; [done|done|].
    clear Hl Hg. induction Hr as [g g' gt' _ _ (Hp%Permutation_length & _ & ->)|g g' gt' xs ts xs' ts' _ _ _ (Hp%Permutation_length & _ & ->) _ IH]; unfold marked_tied; rewrite Hp; [done|].
    apply Forall_app in Hrows as [_ Hrows]. by rewrite (IH Hrows).
Qed.

(** [fill_ties] marks the rows whose bytes are equal. *)
Lemma fill_ties_group g xs ts : g <> [] -> Forall (row_typed cols) g ->
  fill_ties offset width (enc <$> g) (marked_tied g) = ties_of chunk g
  /\ (xs <> [] -> fill_ties offset width (enc <$> g ++ xs) (marked_tied g ++ false :: ts)
      = ties_of chunk g ++ false :: fill_ties offset width (enc <$> xs) ts).
Proof.
  intros Hne Hg. assert (forall a b, row_typed cols a -> row_typed cols b ->
    bool_decide (compare_slice offset width (enc a) = compare_slice offset width (enc b)) = bool_decide (chunk a b = Eq)) as Hslice.
  { intros a b Ha Hb. rewrite <- chunk_slices by done. apply bool_decide_ext. split; [intros ->; apply cmp_bytes_refl|apply cmp_bytes_eq]. }
  unfold marked_tied. induction Hg as [|x g Hx Hg IH]; [done|]. destruct g as [|y g].
  - split; [done|]. intros Hxs. destruct xs as [|z xs]; [done|]. done.
  - destruct (IH ltac:(done)) as [IH1 IH2]. inversion Hg as [|? ? Hy Hg']; subst.
    rewrite <- (replicate_tie x) by done. split.
    + cbn [fmap list_fmap fill_ties ties_of]. rewrite Hslice by done. f_equal. exact IH1.
    + intros Hxs. specialize (IH2 Hxs). cbn [fmap list_fmap app fill_ties ties_of]. rewrite Hslice by done. f_equal. exact IH2.
Qed.

Lemma fill_ties_spec p rows ties rows' ties' :
  regroup p (step_sorted chunk marked_tied) rows ties rows' ties' -> Forall (row_typed cols) rows ->
  regroup p (step_sorted chunk (ties_of chunk)) rows ties rows' (fill_ties offset width (enc <$> rows') ties').
Proof.
  induction 1 as [g g' gt' Hg Ht (Hp & Hs & ->)|g g' gt' xs ts xs' ts' Hg Ht Hlt (Hp & Hs & ->) Hr IH]; intros Hrows.
  - assert (g' <> []) as Hg' by (intros ->; by apply Permutation_nil_l in Hp).
    rewrite (proj1 (fill_ties_group g' [] [] Hg' (Permutation_Forall (Permutation_sym Hp) Hrows))). by apply regroup_last.
  - assert (g' <> []) as Hg' by (intros ->; by apply Permutation_nil_l in Hp).
    apply Forall_app in Hrows as [Hrg Hrx].
    assert (xs' <> []) as Hxs'.
    { apply (regroup_permutation _ chunk) in Hr as Hpx; [|apply step_sorted_sorts]. intros ->. apply Permutation_nil_l in Hpx. by apply (regroup_nonempty _ _ _ _ _ _ Hr). }
    rewrite (proj2 (fill_ties_group g' xs' ts' Hg' (Permutation_Forall (Permutation_sym Hp) Hrg)) Hxs'). apply regroup_cons; [done..|by apply IH].
Qed.

End Chunk.
(** *** Sorting by the strings on the heap *)

Lemma of_le_bytes_spec n z : of_le_bytes (rev (to_be_bytes n z)) = (z mod 2 ^ (8 * Z.of_nat n))%Z.
Proof.
  assert (forall bs b, of_le_bytes (bs ++ [b]) = of_le_bytes bs + 2 ^ (8 * Z.of_nat (length bs)) * b)%Z as Hsnoc.
  { intros bs b. induction bs as [|a bs IH]; [cbn; lia|]. cbn [app of_le_bytes foldr length]. unfold of_le_bytes in *.
    rewrite IH, pow_8_S. lia. }
  induction n as [|n IH]; [by rewrite Z.mod_1_r|]. cbn [to_be_bytes rev]. rewrite Hsnoc, IH, length_rev, length_to_be_bytes, pow_8_S.
  assert (0 < 2 ^ (8 * Z.of_nat n))%Z by (apply Z.pow_pos_nonneg; lia).
  rewrite (Z.mul_comm 256), Z.rem_mul_r by lia. done.
Qed.

Lemma read_inline_idx_row x i : row_typed cols x -> row_index x = le_bytes (Z.of_nat i) -> (Z.of_nat i < 2 ^ 32)%Z ->
  read_inline_idx layout (enc x) = i.
Proof.
  intros Hx Hidx Hi. unfold read_inline_idx, row_key_bytes. destruct (try_new_spec cols) as (_ & _ & _ & -> & _).
  rewrite <- (length_row_key cols (row_vals x) Hx), drop_app_length, Hidx, take_ge by done.
  unfold le_bytes. rewrite of_le_bytes_spec. change (8 * Z.of_nat 4)%Z with 32%Z. rewrite Z.mod_small by lia. lia.
Qed.

(** The column of the heap row for column [length before]. *)
Definition heap_column_of (before : list SortColumn) : nat := length (heap_values before (replicate (length before) None)).

Lemma row_heap_lookup before c after x :
  cols = before ++ c :: after -> is_heap_type (phys_type c) = true -> row_typed cols x ->
  row_heap cols x !! heap_column_of before = Some (column_string (length before) x).
Proof.
  intros Hcols Hc Hx. destruct (row_split before [c] after x Hcols Hx) as (va & vm & vs & Hv & Ha & Hm & _).
  apply Forall2_cons_inv_l in Hm as (a & ? & Hca & ->%Forall2_nil_inv_l & ->). pose proof (Forall2_length _ _ _ Ha) as Hl.
  unfold row_heap, heap_column_of, column_string. rewrite Hcols, Hv, heap_values_app by done. cbn [app heap_values]. rewrite Hc. cbn iota.
  rewrite list_lookup_middle by (apply length_heap_values; [by rewrite length_replicate|done]).
  rewrite (list_lookup_middle va) by done. by destruct a as [[]|].
Qed.

Section HeapSort.
Variable orig : list (Row D).
Hypothesis orig_index : forall i x, orig !! i = Some x -> row_index x = le_bytes (Z.of_nat i).
Hypothesis orig_typed : Forall (row_typed cols) orig.
Hypothesis orig_length : (Z.of_nat (length orig) <= 2 ^ 32)%Z.

Lemma orig_row x : x ∈ orig -> row_typed cols x /\ orig !! read_inline_idx layout (enc x) = Some x.
Proof.
  intros Hx. rewrite Forall_forall in orig_typed. split; [auto|]. apply list_elem_of_lookup_1 in Hx as [i Hi].
  rewrite (read_inline_idx_row x i); [done|eauto using list_elem_of_lookup_2|auto|]. apply lookup_lt_Some in Hi. lia.
Qed.

Variables (before : list SortColumn) (c : SortColumn) (after : list SortColumn).
Hypothesis Hcols : cols = before ++ c :: after.
Hypothesis Hc : is_heap_type (phys_type c) = true.
Local Abbreviation n := (length before).
Local Abbreviation heap_keys := (row_heap cols <$> orig).

(** Reading the string of a row. *)
Lemma heap_value_spec x s : x ∈ orig -> column_string n x = Some s ->
  heap_value layout heap_keys (heap_column_of before) (enc x) = Ok (string_of n x).
Proof.
  intros Hx Hs. destruct (orig_row x Hx) as [Ht Hi]. unfold heap_value, index, string_of. rewrite list_lookup_fmap, Hi. cbn.
  rewrite (row_heap_lookup before c after) by done. by rewrite Hs.
Qed.

Lemma collect_heap_values g : (forall x, x ∈ g -> x ∈ orig) -> (forall x, x ∈ g -> is_Some (column_string n x)) ->
  collect (heap_value layout heap_keys (heap_column_of before)) (enc <$> g) = Ok (string_of n <$> g).
Proof.
  intros Hin Hs. induction g as [|x g IH]; [done|]. cbn [fmap list_fmap collect].
  destruct (Hs x (list_elem_of_here _ _)) as [s Hsx]. rewrite (heap_value_spec x s) by (done || apply Hin; left).
  unfold mbind, res_bind. rewrite IH; [done|intros; apply Hin; by right|intros; apply Hs; by right].
Qed.

Lemma equal_next_ties g : equal_next (string_of n <$> g) = ties_of (heap_order n c) g.
Proof.
  induction g as [|x [|y g] IH]; [done..|]. cbn [fmap list_fmap equal_next ties_of] in *. f_equal; [|exact IH].
  apply bool_decide_ext. unfold heap_order. destruct (desc c); [|done].
  rewrite (cmp_opp cmp_bytes (string_of n x) (string_of n y)). by destruct (cmp_bytes _ _).
Qed.

(** Sorting the tied rows by their strings: all of them have one, or none. *)
Lemma sort_heap_keys_spec p before' g after' tp ts :
  2 <= length g -> length tp = length before' -> (forall x, x ∈ g -> x ∈ orig) ->
  (forall x y, x ∈ g -> y ∈ g -> is_Some (column_string n x) <-> is_Some (column_string n y)) -> all_tied p g ->
  exists g' gt', sort_heap_keys layout heap_keys n (enc <$> before' ++ g ++ after') (tp ++ replicate (length g - 1) true ++ ts)
      (length before') (length g) = Ok (enc <$> before' ++ g' ++ after', tp ++ gt' ++ ts)
    /\ step_sorted (heap_order n c) (ties_of (heap_order n c)) g g' gt' /\ length g' = length g /\ length gt' = length g - 1.
Proof.
  intros Hg Htp Hin Hnull Ht. destruct (lookup_lt_is_Some_2 g 0) as [x Hx0]; [lia|]. clear Ht.
  assert (x ∈ g) as Hx by by eapply list_elem_of_lookup_2. destruct (orig_row x (Hin x Hx)) as [Hxt Hxi].
  assert (heap_mapping layout !! n = Some (Some (heap_column_of before))) as Hmap.
  { rewrite heap_mapping_spec, Hcols, (heap_columns_lookup before c after (replicate n None)), Hc by by rewrite length_replicate. done. }
  unfold sort_heap_keys. rewrite Hmap. unfold mbind, res_bind. unfold index at 1.
  rewrite list_lookup_fmap, lookup_app_r, Nat.sub_diag, lookup_app_l, Hx0 by lia. cbn [fmap option_fmap option_map]. unfold index at 1. rewrite list_lookup_fmap, Hxi. cbn [fmap option_fmap option_map].
  unfold index at 1. rewrite (row_heap_lookup before c after) by done.
  destruct (column_string n x) as [s|] eqn:Hs.
  - assert (heap_types layout !! heap_column_of before = Some (phys_type c)) as Htypes.
    { rewrite Hcols. apply heap_types_lookup; [by rewrite length_replicate|done]. }
    unfold index at 1. rewrite Htypes, Hc. cbn [negb].
    rewrite (proj2 (Nat.leb_le _ _)) by (rewrite length_fmap, !length_app; lia). cbn [rust_assert].
    assert (columns layout !! n = Some c) as Hcol.
    { rewrite (proj1 (try_new_spec cols)), Hcols. by apply list_lookup_middle. }
    unfold index at 1. rewrite Hcol.
    assert (forall y, y ∈ g -> is_Some (column_string n y)) as Hall by (intros y Hy; apply (Hnull x y); [done|done|by rewrite Hs]).
    rewrite group_rows, collect_heap_values by done.
    set (cmp := fun a b : nat => _).
    assert (TotalPreorder cmp /\ forall i j a b, g !! i = Some a -> g !! j = Some b -> cmp i j = heap_order n c a b) as [Hcmp Hord].
    { assert (forall i j, cmp i j = if desc c then cmp_bytes ((string_of n <$> g) !!! j) ((string_of n <$> g) !!! i)
        else cmp_bytes ((string_of n <$> g) !!! i) ((string_of n <$> g) !!! j)) as Hcmp.
      { intros i j. unfold cmp. destruct (desc c); [|done]. by rewrite <- (cmp_opp cmp_bytes). }
      split.
      - split; intros *; rewrite !Hcmp; destruct (desc c); try apply (cmp_opp cmp_bytes); intros; eapply (cmp_trans cmp_bytes); eauto.
      - intros i j a b Ha Hb. rewrite Hcmp.
        rewrite (list_lookup_total_correct (string_of n <$> g) i (string_of n a)), (list_lookup_total_correct (string_of n <$> g) j (string_of n b))
          by by rewrite list_lookup_fmap, ?Ha, ?Hb. done. }
    destruct (by_indices_sorted (heap_order n c) cmp x g Hcmp Hord) as [Hperm Hsort].
    pose proof (Permutation_length Hperm) as Hlen.
    pose proof (group_rows enc before' (by_indices x g cmp) after') as Hgr. rewrite Hlen in Hgr.
    rewrite (reorder_spec enc x), Hgr by done.
    rewrite collect_heap_values by (intros y; rewrite Hperm; auto). rewrite equal_next_ties.
    rewrite (proj2 (Nat.leb_le _ _)) by (rewrite !length_app, length_replicate; lia). cbn [rust_assert].
    exists (by_indices x g cmp), (ties_of (heap_order n c) (by_indices x g cmp)). split_and!.
    + f_equal. f_equal. rewrite <- Htp, take_app_length. f_equal. f_equal.
      rewrite app_assoc, drop_app_length'; [done|]. rewrite length_app, length_replicate. lia.
    + done.
    + done.
    + rewrite length_ties_of. lia.
  - assert (forall y, y ∈ g -> string_of n y = []) as Hall.
    { intros y Hy. unfold string_of. destruct (column_string n y) eqn:Hsy; [|done].
      assert (is_Some (column_string n x)) as [? ?] by (apply (Hnull x y); [done|done|by rewrite Hsy]). congruence. }
    exists g, (replicate (length g - 1) true). split_and!; [done| |done|by rewrite length_replicate].
    assert (forall a b, a ∈ g -> b ∈ g -> heap_order n c a b = Eq) as Heq.
    { intros a b Ha Hb. unfold heap_order. rewrite !Hall by done. by destruct (desc c). }
    split_and!; [done| |].
    + apply strongly_sorted_all. intros a b Ha Hb. by rewrite Heq.
    + by apply ties_of_all_tied.
Qed.

End HeapSort.

(** *** The columns in order *)

Section Columns.
Variable orig : list (Row D).
Variable heap_keys : list HeapRow.
Hypothesis orig_index : forall i x, orig !! i = Some x -> row_index x = le_bytes (Z.of_nat i).
Hypothesis orig_typed : Forall (row_typed cols) orig.
Hypothesis orig_length : (Z.of_nat (length orig) <= 2 ^ 32)%Z.
Hypothesis heap_keys_rows : any_requires_heap layout = true -> heap_keys = (row_heap cols <$> orig).

Lemma any_requires_heap_true c : c ∈ cols -> is_heap_type (phys_type c) = true -> any_requires_heap layout = true.
Proof.
  intros Hc Hh. destruct (any_requires_heap layout) eqn:Ha; [done|]. apply any_requires_heap_false in Ha.
  rewrite Forall_forall in Ha. rewrite Ha in Hh by done. done.
Qed.

(** Breaking the ties of a run of columns by the strings of its last column. *)
Lemma sort_tied_heap_spec pre m c suf rows ties :
  cols = pre ++ (m ++ [c]) ++ suf -> is_heap_type (phys_type c) = true ->
  Forall (fun c => is_heap_type (phys_type c) = false) m -> rows ≡ₚ orig ->
  grouped (fun a b => then_compare (prefix_order pre a b) (chunk_order (length pre) (m ++ [c]) a b)) rows ties ->
  exists rows' ties',
    sort_tied_heap_keys_in_place layout heap_keys (length pre + length m) (enc <$> rows) ties = Ok (enc <$> rows', ties')
    /\ rows' ≡ₚ orig /\ grouped (prefix_order (pre ++ m ++ [c])) rows' ties'.
Proof.
  intros Hcols Hc Hm Hrows Hg. set (p := fun a b : Row D => _) in Hg. unfold sort_tied_heap_keys_in_place.
  assert (cols = (pre ++ m) ++ c :: suf) as Hcols' by by rewrite Hcols, <- !app_assoc.
  rewrite heap_keys_rows by (apply (any_requires_heap_true c); [rewrite Hcols'; apply elem_of_app; right; left|done]).
  destruct (tied_loop_spec p (step_sorted (heap_order (length (pre ++ m)) c) (ties_of (heap_order (length (pre ++ m)) c))) (fun x => x ∈ orig) enc
    (sort_heap_keys layout (row_heap cols <$> orig) (length (pre ++ m)))) with (xs := rows) (ts := ties)
      (fuel := S (length ties)) (pre := @nil (Row D)) (tp := @nil bool) as (rows' & ties' & Hl & Hr); [| |done|done|lia| |].
  - intros x _. by apply step_sorted_one.
  - intros before g after tp ts Hg2 Htp Ht Hin. rewrite Forall_forall in Hin.
    apply (sort_heap_keys_spec orig orig_index orig_typed orig_length (pre ++ m) c suf Hcols' Hc p); [done|done|done| |done].
    intros x y Hx Hy. specialize (Ht x y Hx Hy). rewrite Forall_forall in orig_typed.
    apply (tied_nulls pre m c suf); [done|auto..|]. unfold p in Ht.
    by destruct (prefix_order pre x y), (chunk_order (length pre) (m ++ [c]) x y).
  - apply Forall_forall. intros x. by rewrite Hrows.
  - cbn [app length] in Hl. rewrite length_app in Hl. exists rows', ties'. rewrite Hl.
    assert (rows' ≡ₚ orig) as Hp. { rewrite <- Hrows. eapply regroup_permutation; [|exact Hr]. apply step_sorted_sorts. }
    split_and!; [done|done|]. apply (grouped_ext (fun a b => then_compare (p a b) (heap_order (length (pre ++ m)) c a b))).
    + intros a b. rewrite Hp. intros Ha Hb. rewrite Forall_forall in orig_typed. unfold p.
      rewrite (chunk_decides pre m c suf a b), Hc, length_app by auto. done.
    + eapply (regroup_grouped _ (heap_order (length (pre ++ m)) c)); [apply _|apply step_sorted_sorts| |exact Hr]. by intros g g' gt' _ (_ & _ & ->).
Qed.

(** The first sort, of all rows, or the sort within the ties. *)
Lemma sort_chunk_spec pre mid suf first rows ties :
  cols = pre ++ mid ++ suf -> Forall (row_typed cols) rows -> grouped (prefix_order pre) rows ties -> (first = true -> pre = []) ->
  exists rows',
    (if first : bool then sort_keys_in_place layout (enc <$> rows) 0 (length (enc <$> rows)) (total_width pre) (total_width mid)
     else sort_tied_keys_in_place layout (enc <$> rows) ties (total_width pre) (total_width mid)) = Ok (enc <$> rows')
    /\ regroup (prefix_order pre) (step_sorted (chunk_order (length pre) mid) marked_tied) rows ties rows' ties.
Proof.
  intros Hcols Hrows Hg Hfirst. destruct first.
  - specialize (Hfirst eq_refl). subst pre. pose proof (grouped_nonempty _ _ _ Hg) as Hne. rewrite Forall_forall in Hrows.
    destruct (sort_keys_spec enc layout (chunk_order (length (@nil SortColumn)) mid) (total_width []) (total_width mid) [] rows [])
      as (rows' & Hs & Hp & Hsort); [done|by apply (width_in_row [] mid suf)|intros; apply (chunk_slices [] mid suf); auto|].
    rewrite !app_nil_r in Hs. cbn [app length] in Hs. rewrite length_fmap. exists rows'. split; [exact Hs|].
    assert (all_tied (prefix_order []) rows) as Hall by (intros ? ? _ _; done).
    assert (ties = replicate (length rows - 1) true) as ->.
    { destruct Hg as [g _ _|g xs ts Hg _ Hlt Hxs]; [done|]. destruct g as [|a g]; [done|].
      destruct xs as [|b xs]; [by apply grouped_nonempty in Hxs|]. specialize (Hlt a b (list_elem_of_here _ _) (list_elem_of_here _ _)). done. }
    apply regroup_last; [done|done|]. split_and!; [done|done|]. unfold marked_tied. by rewrite (Permutation_length Hp).
  - destruct (sort_tied_keys_spec pre mid suf Hcols (prefix_order pre) rows ties Hg Hrows) as (rows' & ties' & Hs & Hr & ->). eauto.
Qed.

Lemma sort_columns_spec suf pre mid first rows ties :
  cols = pre ++ mid ++ suf -> Forall (fun c => is_heap_type (phys_type c) = false) mid -> (suf = [] -> mid = []) ->
  rows ≡ₚ orig -> grouped (prefix_order pre) rows ties -> (first = true -> pre = []) ->
  exists rows', sort_columns layout heap_keys (length suf) (length pre + length mid) (total_width pre) (total_width mid) first (enc <$> rows) ties
    = Ok (enc <$> rows') /\ rows' ≡ₚ orig /\ row_sorted cols rows'.
Proof.
  revert pre mid first rows ties. induction suf as [|c suf IH]; intros pre mid first rows ties Hcols Hmid Hnil Hrows Hg Hfirst.
  { exists rows. split_and!; [done|done|]. rewrite (Hnil eq_refl), !app_nil_r in Hcols. rewrite Hcols. by apply grouped_sorted in Hg. }
  assert (cols = pre ++ (mid ++ [c]) ++ suf) as Hcols' by by rewrite Hcols, <- !app_assoc.
  assert (Forall (row_typed cols) rows) as Htyped by (eapply Permutation_Forall; [symmetry; exact Hrows|done]).
  assert (index (column_widths layout) (length pre + length mid) = Ok (width_of c)) as Hw.
  { destruct (try_new_spec cols) as (_ & Hwidths & _). rewrite index_Ok, Hwidths, Hcols, app_assoc, fmap_app, fmap_cons.
    apply list_lookup_middle. by rewrite length_fmap, length_app. }
  cbn [sort_columns length]. rewrite Hw. unfold mbind, res_bind.
  rewrite <- total_width_snoc. replace (column_requires_heap layout (length pre + length mid)) with (is_heap_type (phys_type c)).
  2: { rewrite Hcols, app_assoc, <- length_app. symmetry. apply column_requires_heap_spec. }
  destruct (negb (length suf =? 0) && negb (is_heap_type (phys_type c))) eqn:Hskip.
  { apply andb_true_iff in Hskip as [H1%negb_true_iff%Nat.eqb_neq H2%negb_true_iff].
    destruct (IH pre (mid ++ [c]) first rows ties) as (rows' & Hs & ? & ?); [done| |by intros ->|done|done|done|].
    { apply Forall_app. split; [done|]. by constructor. }
    rewrite length_app in Hs. cbn [length] in Hs. rewrite Nat.add_1_r, Nat.add_succ_r in Hs. exists rows'. by rewrite Hs. }
  destruct (sort_chunk_spec pre (mid ++ [c]) suf first rows ties Hcols' Htyped Hg Hfirst) as (rows1 & -> & Hr).
  assert (rows1 ≡ₚ orig) as Hp1. { rewrite <- Hrows. eapply regroup_permutation; [|exact Hr]. apply step_sorted_sorts. }
  set (p := fun a b : Row D => then_compare (prefix_order pre a b) (chunk_order (length pre) (mid ++ [c]) a b)).
  assert (forall a b, a ∈ rows1 -> b ∈ rows1 -> prefix_order (pre ++ mid ++ [c]) a b
    = then_compare (p a b) (if is_heap_type (phys_type c) then heap_order (length pre + length mid) c a b else Eq)) as Hdec.
  { intros a b. rewrite Hp1. intros Ha Hb. rewrite Forall_forall in orig_typed. apply (chunk_decides pre mid c suf); auto. }
  destruct ((length suf =? 0) && negb (is_heap_type (phys_type c))) eqn:Hlast.
  { apply andb_true_iff in Hlast as [H1%Nat.eqb_eq%nil_length_inv H2%negb_true_iff]. exists rows1. split_and!; [done|done|].
    apply (regroup_sorted _ (chunk_order (length pre) (mid ++ [c]))) in Hr; [|apply step_sorted_sorts]. rewrite H1, app_nil_r in Hcols'.
    eapply (strongly_sorted_ext (fun a b => p a b <> Gt)); [|exact Hr]. intros a b Ha Hb Hle.
    assert (row_cmp cols a b = prefix_order (pre ++ mid ++ [c]) a b) as -> by by rewrite <- Hcols'.
    rewrite Hdec, H2 by done. by destruct (p a b). }
  assert (is_heap_type (phys_type c) = true) as Hc.
  { destruct (is_heap_type (phys_type c)), (length suf =? 0); done. }
  rewrite Hc in *. apply (fill_ties_spec pre (mid ++ [c]) suf) in Hr; [|done|done].
  set (ties1 := fill_ties _ _ _ _) in *.
  assert (grouped p rows1 ties1) as Hg1.
  { eapply (regroup_grouped _ (chunk_order (length pre) (mid ++ [c]))); [apply _|apply step_sorted_sorts| |exact Hr]. by intros g g' gt' _ (_ & _ & ->). }
  set (rest := fun a b : Row D => full_row_order suf (drop (length (pre ++ mid ++ [c])) (row_vals a)) (drop (length (pre ++ mid ++ [c])) (row_vals b))).
  assert (forall a b, row_cmp cols a b = then_compare (prefix_order (pre ++ mid ++ [c]) a b) (rest a b)) as Hrest.
  { intros a b. unfold rest, prefix_order, row_cmp. rewrite <- full_row_order_app. by rewrite Hcols' at 1; rewrite <- !app_assoc. }
  assert (forall a, rest a a = Eq) as Hrefl by (intros; apply (cmp_refl (full_row_order suf))).
  destruct (no_ties ties1) eqn:Hn1.
  { exists rows1. split_and!; [done|done|].
    apply (grouped_no_ties p (fun a b => then_compare (heap_order (length pre + length mid) c a b) (rest a b))) in Hg1; [| |done].
    - eapply strongly_sorted_ext; [|exact Hg1]. intros a b Ha Hb. cbn beta. rewrite Hrest, Hdec by done. by destruct (p a b).
    - intros a. by rewrite (cmp_refl (heap_order _ _)), Hrefl. }
  destruct (sort_tied_heap_spec pre mid c suf rows1 ties1) as (rows2 & ties2 & -> & Hp2 & Hg2); [done..|].
  destruct (no_ties ties2) eqn:Hn2.
  { exists rows2. split_and!; [done|done|]. apply (grouped_no_ties _ rest) in Hg2; [|intros a; by rewrite Hrefl|done].
    eapply strongly_sorted_ext; [|exact Hg2]. intros a b _ _. cbn beta. by rewrite Hrest. }
  destruct (IH (pre ++ mid ++ [c]) [] false rows2 ties2) as (rows' & Hs & ? & ?); [|constructor|done|done|done|done|].
  { by rewrite Hcols', <- !app_assoc. }
  exists rows'. split_and!; [|done|done]. rewrite <- Hs. f_equal.
  - rewrite !length_app. cbn [length]. lia.
  - unfold total_width. rewrite !sum_list_with_app. lia.
Qed.

End Columns.
End RowSort.

(** ** Sorting a block *)

Section Block.
Context {D Heap : Type} `{SliceSort}.
Variable cols : list SortColumn.
Local Abbreviation layout := (try_new cols).

(** The rows with the row index written. *)
Definition indexed (i : nat) (r : Row D) : Row D := mkRow (row_vals r) (le_bytes (Z.of_nat i)) (row_data r).

Lemma write_row_idx_spec rows :
  Forall (row_typed cols) rows -> Forall (fun r => length (row_index r) = 4) rows ->
  imap (write_row_idx layout) (row_key_bytes cols <$> rows) = row_key_bytes cols <$> imap indexed rows.
Proof.
  intros Ht Hi. apply list_eq. intros i. rewrite list_lookup_imap, !list_lookup_fmap, list_lookup_imap.
  destruct (rows !! i) as [r|] eqn:Hr; [|done]. cbn. f_equal. rewrite Forall_lookup in Ht, Hi. specialize (Ht _ _ Hr). specialize (Hi _ _ Hr).
  unfold write_row_idx, row_key_bytes. destruct (try_new_spec cols) as (_ & _ & _ & -> & _).
  rewrite <- (length_row_key cols (row_vals r) Ht), take_app_length, drop_ge by (rewrite length_app; lia). by rewrite app_nil_r.
Qed.

Lemma collect_rows_index {A} (src : list A) (f : Row D -> nat) g (rows : list (Row D)) :
  (forall r, r ∈ rows -> src !! f r = Some (g r)) -> collect (index src) (f <$> rows) = Ok (g <$> rows).
Proof.
  intros Hf. apply collect_Forall2, Forall2_fmap, Forall_Forall2_diag, Forall_forall. intros r Hr. apply index_Ok. auto.
Qed.

Lemma sort_from_blocks_spec rows heap_keys hh dh limit_hint :
  rows <> [] -> Forall (row_typed cols) rows -> Forall (fun r => length (row_index r) = 4) rows ->
  (Z.of_nat (length rows) <= 2 ^ 32)%Z ->
  (any_requires_heap layout = true -> heap_keys = row_heap cols <$> rows) ->
  exists block out, sort_from_blocks (Heap := Heap) layout (row_key_bytes cols <$> rows) heap_keys hh (row_data <$> rows) dh limit_hint = Ok (Some block)
    /\ represents cols [out] (from_sorted_block block)
    /\ block_heap_keys_heap block = hh /\ block_data_heap block = dh
    /\ length out = num_rows_to_copy limit_hint (length rows)
    /\ merged_from cols limit_hint (imap indexed rows) out.
Proof.
  intros Hne Ht Hi Hlen Hheap. set (orig := imap indexed rows).
  assert (length orig = length rows) as Hlo by apply length_imap.
  assert (forall i x, orig !! i = Some x -> exists r, rows !! i = Some r /\ x = indexed i r) as Horig.
  { intros i x. unfold orig. rewrite list_lookup_imap. destruct (rows !! i) as [r|]; [|done]. intros [= <-]. eauto. }
  assert (Forall (row_typed cols) orig) as Hto.
  { apply Forall_lookup. intros i x (r & Hr & ->)%Horig. rewrite Forall_lookup in Ht. apply (Ht _ _ Hr). }
  assert (any_requires_heap layout = true -> heap_keys = row_heap cols <$> orig) as Hheap'.
  { intros Ha. rewrite Hheap by done. apply list_eq. intros i. rewrite !list_lookup_fmap. unfold orig. rewrite list_lookup_imap. by destruct (rows !! i). }
  assert (row_data <$> rows = row_data <$> orig) as Hdata.
  { apply list_eq. intros i. rewrite !list_lookup_fmap. unfold orig. rewrite list_lookup_imap. by destruct (rows !! i). }
  assert (forall i x, orig !! i = Some x -> row_index x = le_bytes (Z.of_nat i)) as Hidx by (intros i x (r & _ & ->)%Horig; done).
  unfold sort_from_blocks. rewrite length_fmap. rewrite (proj2 (Nat.eqb_neq _ _)) by (destruct rows; [done|simpl; lia]).
  rewrite write_row_idx_spec, (proj1 (try_new_spec cols)) by done. fold orig.
  destruct (sort_columns_spec cols orig heap_keys Hidx Hto ltac:(lia) Hheap' cols [] [] true orig (replicate (length rows - 1) true))
    as (sorted & Hs & Hp & Hsorted); [done|constructor|done|done| |done|].
  { rewrite <- Hlo. apply grouped_last; [|by intros ? ? _ _]. intros Hnil. apply (f_equal length) in Hnil. rewrite Hlo in Hnil. by destruct rows. }
  cbn [length Nat.add] in Hs. change (total_width []) with 0 in Hs. rewrite Hs. unfold mbind at 1, res_bind at 1.
  set (n := num_rows_to_copy limit_hint (length rows)).
  assert (n <= length rows /\ (n = length rows \/ limit_hint = Some n)) as [Hle Hn].
  { unfold n, num_rows_to_copy. destruct limit_hint as [limit|]; [|auto]. destruct (Nat.ltb_spec limit (length rows)); auto with lia. }
  rewrite <- fmap_take, <- list_fmap_compose. set (out := take n sorted).
  assert (length out = n) as Hlout by (unfold out; rewrite length_take, Hp; lia).
  assert (forall r, r ∈ out -> r ∈ orig) as Hin by (intros r Hr; rewrite <- Hp; by eapply subseteq_take).
  assert (forall r, r ∈ out -> orig !! (read_inline_idx layout ∘ row_key_bytes cols) r = Some r) as Hread.
  { intros r Hr. by apply (orig_row cols orig Hidx Hto ltac:(lia)), Hin. }
  assert (forall A (f : Row D -> A), apply_sort_indices (f <$> orig) ((read_inline_idx layout ∘ row_key_bytes cols) <$> out) = Ok (f <$> out)) as Happly.
  { intros A f. unfold apply_sort_indices. rewrite (proj2 (Nat.leb_le _ _)) by (rewrite !length_fmap; lia). cbn [rust_assert].
    apply collect_rows_index. intros r Hr. rewrite list_lookup_fmap. by rewrite Hread. }
  assert (exists hk, (if any_requires_heap layout then apply_sort_indices heap_keys ((read_inline_idx layout ∘ row_key_bytes cols) <$> out) else Ok []) = Ok hk
    /\ (any_requires_heap layout = true -> hk = row_heap cols <$> out)) as (hk & -> & Hhk).
  { destruct (any_requires_heap layout); [|by exists []]. rewrite Hheap' by done. rewrite Happly. eauto. }
  unfold mbind, res_bind. rewrite Hdata, Happly. eexists _, out. split; [reflexivity|]. split_and!; [|done|done|congruence|].
  - exists [hk], hh, dh. unfold from_sorted_block, segment_of. cbn [block_keys block_heap_keys block_heap_keys_heap block_data block_data_heap].
    destruct (any_requires_heap layout); [|done]. by rewrite Hhk.
  - split.
    + unfold out. rewrite <- (take_drop n sorted) in Hsorted. by apply StronglySorted_app_1_l in Hsorted.
    + exists (drop n sorted). split_and!.
      * unfold out. by rewrite take_drop.
      * intros a b Ha Hb. unfold row_sorted in Hsorted. rewrite <- (take_drop n sorted) in Hsorted.
        by eapply (StronglySorted_app_1_elem_of (fun x y => row_cmp cols x y <> Gt)).
      * destruct Hn as [Hn|Hn]; [left; apply drop_ge; rewrite Hp; lia|right; exists n; split; [done|lia]].
Qed.

End Block.

(** ** Properties *)

(** A sort that meets the contract: merge sort. *)
Definition merge_sort_by (cmp : nat -> nat -> comparison) (l : list nat) : list nat := merge_sort (fun a b => cmp a b <> Gt) l.

#[global] Instance merge_slice_sort : SliceSort.
Proof.
  refine {| sort_unstable_by := merge_sort_by |}.
  - intros cmp l _. apply merge_sort_Permutation.
  - intros cmp l Hcmp. apply StronglySorted_merge_sort.
    + intros x y z. apply (cmp_trans cmp).
    + intros x y. destruct (cmp x y) eqn:Hxy; [by left|by left|]. right. by rewrite (cmp_opp cmp x y), Hxy.
Defined.

Lemma indexed_typed {D} cols (rows : list (Row D)) : Forall (row_typed cols) rows -> Forall (row_typed cols) (imap indexed rows).
Proof.
  intros Ht. apply Forall_lookup. intros i r. rewrite list_lookup_imap. destruct (rows !! i) as [q|] eqn:Hq; [|done]. intros [= <-].
  rewrite Forall_lookup in Ht. exact (Ht i q Hq).
Qed.

(** C29. Sorting a block of rows by columns of any types but booleans and 64-bit
    floats succeeds and keeps its keys, heap keys and data aligned: the block holds
    rows in the order of SQL over the whole ORDER BY list (by the values of the
    columns, directions, NULLS FIRST/LAST and full strings, though keys are sorted
    in runs of columns and strings only break ties).  They are all the input rows
    or, under a smaller limit hint, exactly that many, none greater than a
    dropped one. *)
Theorem sort_block_correct {D Heap} `{SliceSort} cols (rows : list (Row D)) heap_keys (hh dh : list Heap) limit_hint :
  keys_ordered cols ->
  rows <> [] -> Forall (row_typed cols) rows -> Forall (fun r => length (row_index r) = 4) rows ->
  (Z.of_nat (length rows) <= 2 ^ 32)%Z ->
  (any_requires_heap (try_new cols) = true -> heap_keys = row_heap cols <$> rows) ->
  exists block out,
    sort_from_blocks (try_new cols) (row_key_bytes cols <$> rows) heap_keys hh (row_data <$> rows) dh limit_hint = Ok (Some block)
    /\ represents cols [out] (from_sorted_block block)
    /\ StronglySorted (fun x y => sql_row_order cols (row_vals x) (row_vals y) <> Gt) out
    /\ length out = num_rows_to_copy limit_hint (length rows)
    /\ exists dropped, out ++ dropped ≡ₚ imap indexed rows
      /\ forall a b, a ∈ out -> b ∈ dropped -> sql_row_order cols (row_vals a) (row_vals b) <> Gt.
Proof.
  intros Hk ? Ht ? ? ?. destruct (sort_from_blocks_spec cols rows heap_keys hh dh limit_hint)
    as (block & out & ? & ? & _ & _ & ? & [Hs (dropped & Hp & Hd & _)]); [done..|].
  assert (Hall : Forall (row_typed cols) (out ++ dropped)) by (rewrite Hp; by apply indexed_typed).
  pose proof (proj1 (Forall_app _ _ _) Hall) as [Ho Hdr]. exists block, out. split_and!; [done|done|exact (sql_sorted cols row_vals out Hk Ho Hs)|done|].
  exists dropped. split; [done|]. intros a b Ha Hb. rewrite Forall_forall in Ho, Hdr.
  rewrite sql_row_order_key; [by apply Hd|done|exact (Ho a Ha)|exact (Hdr b Hb)].
Qed.

(** Strings of a common prefix and NULLs, DESC NULLS FIRST, then a number. *)
Definition mixed_columns : list SortColumn := [mkColumn true true Utf8; mkColumn false true Int32].
Definition mixed_row (s : option Z) (n : Z) (d : nat) : Row nat :=
  mkRow [(fun last => VBytes (replicate 12 97%Z ++ [last])) <$> s; Some (VInt n)] [7; 7; 7; 7]%Z d.
Definition mixed_rows : list (Row nat) :=
  [mixed_row (Some 98%Z) 1 0; mixed_row None 2 1; mixed_row (Some 99%Z) (-1) 2; mixed_row (Some 98%Z) (-3) 3; mixed_row None 0 4].

Lemma sort_block_correct_witness :
  exists block, sort_from_blocks (try_new mixed_columns) (row_key_bytes mixed_columns <$> mixed_rows)
      (row_heap mixed_columns <$> mixed_rows) [tt] (row_data <$> mixed_rows) [] (Some 4) = Ok (Some block)
    /\ block_data block = [4; 1; 2; 3] /\ exists out, represents mixed_columns [out] (from_sorted_block block)
      /\ StronglySorted (fun x y => sql_row_order mixed_columns (row_vals x) (row_vals y) <> Gt) out.
Proof.
  destruct (sort_block_correct mixed_columns mixed_rows (row_heap mixed_columns <$> mixed_rows) [tt] [] (Some 4))
    as (block & out & Hs & Hr & Hsorted & _).
  - by repeat constructor.
  - done.
  - repeat constructor; vm_compute; done.
  - repeat constructor.
  - vm_compute. done.
  - done.
  - exists block. split; [exact Hs|]. split; [|exists out; split; [exact Hr|exact Hsorted]].
    vm_compute in Hs. injection Hs as <-. reflexivity.
Defined.
