(* ===== verification/PartialSort.v ===== *)
(** * Collecting rows and sorting them in runs

    Models [arrays/sort/partial_sort.rs] and the key encoding it uses
    ([arrays/sort/key_encode.rs], with [Block::concat] of [arrays/row/block.rs]).
    The rows are collected in row blocks; the data of a row is arbitrary, and its
    size on the heap is a parameter. *)
From stdpp Require Import sorting.
From S2P Require Import Prelude RowBlocks Arrays ArrayData Executors SortLayout SortOrder SortMerge SortBlock.

(** ** The collection *)

Section Collection.
Context {D : Type} `{SliceSort}.
Variable key_layout : SortLayout.
Variable block_capacity : nat.
(** What [compute_heap_sizes] of the data layout gives for a row. *)
Variable data_heap_size : D -> nat.

Record PartialSortedRowCollection : Type := mkCollection {
  key_blocks : RowBlocks KeyRow;
  key_heap_blocks : RowBlocks HeapRow;
  data_blocks : RowBlocks D;
  sorted : list (@SortedBlock D nat);
}.

(** [PartialSortedRowCollection::new] *)
Definition new_collection : PartialSortedRowCollection := mkCollection empty_blocks empty_blocks empty_blocks [].

(** [unsorted_row_count] *)
Definition unsorted_row_count (c : PartialSortedRowCollection) : nat := reserved_row_count (key_blocks c).

(** The value of a row of a string array, as [write_binary] reads it. *)
Definition read_string (array : Array value PhysicalType) (row : nat) : res (option (list Z)) :=
  f ← downcast_execution_format (ArrayData.data array);
  let '(sel, buf) := into_selection_format f in
  valid ← Validity.is_valid (validity array) row;
  if valid : bool then
    sel_idx ← unwrap (Selection.get sel row);
    v ← unwrap (buf !! sel_idx);
    match v with VBytes bs => Ok (Some bs) | _ => Err "Unexpected buffer" end
  else Ok None.

(** The bytes a heap row needs: [compute_heap_sizes] skips inlined strings. *)
Definition string_heap_size (s : option (list Z)) : nat :=
  match s with Some bs => if length bs <=? 12 then 0 else length bs | None => 0 end.
Definition key_heap_size (row : HeapRow) : nat := sum_list (string_heap_size <$> row).

(** The key arrays that need the heap. *)
Definition heap_key_arrays (keys : list (Array value PhysicalType)) : res (list (Array value PhysicalType)) :=
  collect (index keys)
    (omap (fun '(key_idx, maybe_heap_idx) => match maybe_heap_idx : option nat with Some _ => Some key_idx | None => None end)
       (imap pair (heap_mapping key_layout))).

(** [sort_key_encode]: appends the keys of the first [count] rows; [fresh] is
    what the new rows of the key blocks held before. *)
Definition sort_key_encode (kb : RowBlocks KeyRow) (hb : RowBlocks HeapRow) (fresh : list KeyRow)
    (keys : list (Array value PhysicalType)) (count : nat) : res (RowBlocks KeyRow * RowBlocks HeapRow) :=
  rows ← write_key_arrays key_layout 0 keys (take count fresh);
  kb' ← append_rows block_capacity kb rows None;
  if any_requires_heap key_layout then
    heap_keys ← heap_key_arrays keys;
    heap_rows ← collect (fun row => collect (fun array => read_string array row) heap_keys) (seq 0 count);
    hb' ← append_rows block_capacity hb heap_rows (Some (key_heap_size <$> heap_rows));
    Ok (kb', hb')
  else Ok (kb', hb).

(** [append_unsorted_keys_and_data] *)
Definition append_unsorted_keys_and_data (c : PartialSortedRowCollection) (fresh : list KeyRow)
    (keys : list (Array value PhysicalType)) (data : list D) (count : nat) : res PartialSortedRowCollection :=
  _ ← rust_assert (length keys =? length (columns key_layout)) "assertion failed: keys.len() == key_layout.columns.len()";
  '(kb, hb) ← sort_key_encode (key_blocks c) (key_heap_blocks c) fresh keys count;
  let rows := take count data in
  db ← append_rows block_capacity (data_blocks c) rows (Some (data_heap_size <$> rows));
  Ok (mkCollection kb hb db (sorted c)).

(** [sort_unsorted] *)
Definition sort_unsorted (c : PartialSortedRowCollection) (limit_hint : option nat) : res PartialSortedRowCollection :=
  let '(keys, _, kb) := take_blocks (key_blocks c) in
  let '(heap_keys, heap_keys_heap, hb) := take_blocks (key_heap_blocks c) in
  let '(data, data_heap, db) := take_blocks (data_blocks c) in
  sorted_block ← sort_from_blocks key_layout (concat keys) (concat heap_keys) heap_keys_heap (concat data) data_heap limit_hint;
  Ok (mkCollection kb hb db (match sorted_block with Some block => sorted c ++ [block] | None => sorted c end)).

(** [try_into_sorted_blocks] *)
Definition try_into_sorted_blocks (c : PartialSortedRowCollection) (limit_hint : option nat) : res (list (@SortedBlock D nat)) :=
  c' ← sort_unsorted c limit_hint;
  _ ← rust_assert (unsorted_row_count c' =? 0) "assertion failed: self.unsorted_row_count() == 0";
  Ok (sorted c').

End Collection.

(** ** Encoding a batch *)

Section Encode.
Variable cols : list SortColumn.

(** The arrays of the columns that need the heap. *)
Fixpoint heap_arrays (cs : list SortColumn) (arrays : list (Array value PhysicalType)) : list (Array value PhysicalType) :=
  match cs, arrays with
  | c :: cs', a :: arrays' => if is_heap_type (phys_type c) then a :: heap_arrays cs' arrays' else heap_arrays cs' arrays'
  | _, _ => []
  end.

Lemma heap_key_arrays_spec arrays : length arrays = length cols -> heap_key_arrays (try_new cols) arrays = Ok (heap_arrays cols arrays).
Proof.
  assert (forall cs pre arrays n, length arrays = length cs ->
    collect (index (pre ++ arrays))
      (omap (fun '(key_idx, maybe_heap_idx) => match maybe_heap_idx : option nat with Some _ => Some key_idx | None => None end)
         (imap (fun i m => (length pre + i, m)) (heap_columns cs n))) = Ok (heap_arrays cs arrays)) as Hgen.
  { induction cs as [|c cs IH]; intros pre [|a arr] n Hl; try done. cbn [heap_columns heap_arrays].
    specialize (IH (pre ++ [a]) arr). rewrite <- app_assoc in IH. cbn [app] in IH. rewrite length_app in IH. cbn [length] in IH.
    assert (forall n, imap ((fun i (m : option nat) => (length pre + i, m)) ∘ S) (heap_columns cs n)
      = imap (fun i m => (length pre + 1 + i, m)) (heap_columns cs n)) as Hshift.
    { intros k. apply imap_ext. intros i m _. cbn. f_equal. lia. }
    destruct (is_heap_type (phys_type c)); rewrite imap_cons, Hshift; cbn [omap list_omap collect].
    - assert (index (pre ++ a :: arr) (length pre + 0) = Ok a) as ->.
      { rewrite index_Ok, Nat.add_0_r. by apply list_lookup_middle. }
      unfold mbind, res_bind. by rewrite (IH (S n)) by (simpl in Hl; lia).
    - apply IH. simpl in Hl. lia. }
  intros Hl. unfold heap_key_arrays. rewrite heap_mapping_spec. apply (Hgen cols [] arrays 0 Hl).
Qed.

(** The string of a value. *)
Definition string_value (v : option value) : option (list Z) := match v with Some (VBytes bs) => Some bs | _ => None end.

Lemma read_string_spec n c a i : key_array n c a -> is_heap_type (phys_type c) = true -> i < n ->
  read_string a i = Ok (string_value (ArrayData.row a i)).
Proof.
  intros [Hwf Hty Hlen Htyped] Hc Hi. unfold read_string.
  destruct (format_wf _ (wf_buffer _ Hwf)) as [f Hf]. rewrite Hf. unfold mbind, res_bind.
  destruct (is_valid_spec (validity a) i) as (b & Hb & _); [apply Hwf|rewrite (wf_len _ Hwf); lia|].
  pose proof (row_valid a i b Hwf ltac:(lia) Hb) as Hrow.
  destruct (read_selection (ArrayData.data a) f i) as (j & v & Hj & Hv & Hval & _); [apply Hwf|lia|done|].
  specialize (Htyped i Hi). destruct (into_selection_format f) as [sel buf]. cbn [fst snd] in *. rewrite Hb, Hrow in *. destruct b; [|done].
  rewrite Hj. cbn [unwrap]. rewrite Hv. cbn [unwrap]. rewrite Hval in *.
  destruct (typed_bytes _ _ Hc Htyped) as (bs & -> & _). done.
Qed.

Lemma collect_strings n cs arrays i : Forall2 (key_array n) cs arrays -> i < n ->
  collect (fun a => read_string a i) (heap_arrays cs arrays) = Ok (heap_values cs (key_values arrays i)).
Proof.
  intros Ha Hi. induction Ha as [|c a cs arrays Hca _ IH]; [done|]. cbn [heap_arrays key_values fmap list_fmap heap_values].
  destruct (is_heap_type (phys_type c)) eqn:Hc; [|exact IH]. cbn [collect].
  rewrite (read_string_spec n c a i), IH by done. done.
Qed.

End Encode.

(** ** What a collection holds *)

Section Holds.
Context {D : Type} `{SliceSort}.
Variable cols : list SortColumn.
Variable block_capacity : nat.
Variable data_heap_size : D -> nat.
Hypothesis capacity_pos : 0 < block_capacity.
Local Abbreviation layout := (try_new cols).
Implicit Types c : @PartialSortedRowCollection D.

(** The values and the data of a row. *)
Definition payload (r : Row D) : list (option value) * D := (row_vals r, row_data r).
Definition payload_cmp (x y : list (option value) * D) : comparison := full_row_order cols x.1 y.1.

#[global] Instance payload_preorder : TotalPreorder payload_cmp.
Proof. apply (key_preorder (full_row_order cols)). Qed.

(** A sorted run. *)
Definition sorted_run (out : list (Row D)) : Prop := row_sorted cols out /\ Forall (row_typed cols) out.

Record collection_holds c (unsorted : list (Row D)) (runs : list (list (Row D))) : Prop := {
  holds_keys : blocks_hold (key_blocks c) (row_key_bytes cols <$> unsorted);
  holds_heap : any_requires_heap layout = true -> blocks_hold (key_heap_blocks c) (row_heap cols <$> unsorted);
  holds_data : blocks_hold (data_blocks c) (row_data <$> unsorted);
  holds_typed : Forall (row_typed cols) unsorted;
  holds_index : Forall (fun r => length (row_index r) = 4) unsorted;
  holds_runs : Forall2 (fun out b => sorted_run out /\ represents cols [out] (from_sorted_block b)) runs (sorted c);
}.

(** The rows of a batch. *)
Definition batch_rows (keys : list (Array value PhysicalType)) (data : list D) : list (list (option value) * D) :=
  imap (fun i d => (key_values keys i, d)) data.

(** A batch that can be appended: its keys, and its strings fit on the heap. *)
Record batch_ok (fresh : list KeyRow) (keys : list (Array value PhysicalType)) (data : list D) : Prop := {
  batch_fresh : length fresh = length data /\ Forall (fun r => length r = row_width layout) fresh;
  batch_keys : Forall2 (key_array (length data)) cols keys;
  batch_key_heap : (Z.of_nat (sum_list ((fun i => key_heap_size (heap_values cols (key_values keys i))) <$> seq 0 (length data))) <= max_heap_size)%Z;
  batch_data_heap : (Z.of_nat (sum_list (data_heap_size <$> data)) <= max_heap_size)%Z;
}.

Lemma batch_rows_typed fresh keys data : batch_ok fresh keys data ->
  Forall (fun x : list (option value) * D => Forall2 (fun (c : SortColumn) v => typed_opt (phys_type c) v) cols x.1) (batch_rows keys data).
Proof.
  intros Hok. apply Forall_lookup. intros i x. unfold batch_rows. rewrite list_lookup_imap. destruct (data !! i) as [d|] eqn:Hd; [|done]. intros [= <-].
  eapply key_values_typed; [apply Hok|by eapply lookup_lt_Some].
Qed.

Lemma new_holds : collection_holds new_collection [] [].
Proof. split; try done. all: constructor. Qed.

Lemma row_count_spec c unsorted runs : collection_holds c unsorted runs -> unsorted_row_count c = length unsorted.
Proof.
  intros Hc. unfold unsorted_row_count, reserved_row_count. rewrite sum_lengths, (holds_keys _ _ _ Hc). by rewrite length_fmap.
Qed.

(** Appending a batch. *)
Lemma append_spec c unsorted runs fresh keys data :
  collection_holds c unsorted runs -> batch_ok fresh keys data ->
  exists c' new, append_unsorted_keys_and_data layout block_capacity data_heap_size c fresh keys data (length data) = Ok c'
    /\ collection_holds c' (unsorted ++ new) runs /\ payload <$> new = batch_rows keys data.
Proof.
  intros Hc [[Hfl Hfw] Hkeys Hkh Hdh]. unfold append_unsorted_keys_and_data.
  pose proof (Forall2_length _ _ _ Hkeys) as Hlk. rewrite (proj1 (try_new_spec cols)), <- Hlk, Nat.eqb_refl. cbn [rust_assert].
  unfold sort_key_encode. rewrite !take_ge by lia. rewrite <- Hfl in Hkeys.
  rewrite (write_block_spec cols keys fresh Hkeys). unfold mbind, res_bind.
  set (new := imap (fun i d => mkRow (key_values keys i) (drop (total_width cols) (fresh !!! i)) d) data).
  assert (length new = length data) as Hlnew by apply length_imap.
  assert (forall {B} (f : Row D -> B) (g : nat -> B), (forall i d, data !! i = Some d -> f (mkRow (key_values keys i) (drop (total_width cols) (fresh !!! i)) d) = g i) ->
    g <$> seq 0 (length fresh) = f <$> new) as Hmap.
  { intros B f g Hfg. apply list_eq. intros i. rewrite !list_lookup_fmap. unfold new. rewrite list_lookup_imap.
    destruct (data !! i) as [d|] eqn:Hd; cbn.
    - rewrite lookup_seq_lt by (apply lookup_lt_Some in Hd; lia). cbn. by rewrite <- (Hfg i d).
    - rewrite lookup_seq_ge; [done|]. apply lookup_ge_None in Hd. lia. }
  rewrite (Hmap _ (row_key_bytes cols) _) by done.
  destruct (append_rows_spec block_capacity (key_blocks c) _ (row_key_bytes cols <$> new) None capacity_pos (holds_keys _ _ _ Hc))
    as (kb & -> & Hkb & _); [done|].
  assert (exists hb, (if any_requires_heap layout then
      heap_keys ← heap_key_arrays layout keys;
      heap_rows ← collect (fun row => collect (fun array => read_string array row) heap_keys) (seq 0 (length data));
      hb' ← append_rows block_capacity (key_heap_blocks c) heap_rows (Some (key_heap_size <$> heap_rows)); Ok (kb, hb')
    else Ok (kb, key_heap_blocks c)) = Ok (kb, hb) /\ (any_requires_heap layout = true -> blocks_hold hb ((row_heap cols <$> unsorted) ++ (row_heap cols <$> new)))) as (hb & Heq & Hhb).
  { destruct (any_requires_heap layout) eqn:Hh; [|by eexists]. rewrite heap_key_arrays_spec by done. unfold mbind, res_bind.
    assert (collect (fun row => collect (fun array => read_string array row) (heap_arrays cols keys)) (seq 0 (length data)) = Ok (row_heap cols <$> new)) as ->.
    { rewrite <- Hfl, <- (Hmap _ (row_heap cols) (fun i => heap_values cols (key_values keys i))) by done.
      apply collect_Forall2, Forall2_fmap_r, Forall_Forall2_diag, Forall_forall. intros i [_ Hi]%elem_of_seq. by eapply collect_strings. }
    destruct (append_rows_spec block_capacity (key_heap_blocks c) _ (row_heap cols <$> new) (Some (key_heap_size <$> (row_heap cols <$> new))) capacity_pos (holds_heap _ _ _ Hc Hh))
      as (hb & -> & Hhb & _); [|by exists hb].
    intros sizes [= <-]. rewrite <- list_fmap_compose, <- (Hmap _ _ (fun i => key_heap_size (heap_values cols (key_values keys i)))), Hfl by done. done. }
  unfold mbind, res_bind in Heq. rewrite Heq.
  destruct (append_rows_spec block_capacity (data_blocks c) _ data (Some (data_heap_size <$> data)) capacity_pos (holds_data _ _ _ Hc))
    as (db & -> & Hdb & _); [by intros ? [= <-]|].
  assert (row_data <$> new = data) as Hnd.
  { apply list_eq. intros i. rewrite list_lookup_fmap. unfold new. rewrite list_lookup_imap. by destruct (data !! i). }
  eexists _, new. split_and!; [reflexivity| |].
  - split; cbn [key_blocks key_heap_blocks data_blocks sorted]; rewrite ?fmap_app, ?Hnd; try done; [| |by apply Hc].
    + apply Forall_app. split; [apply Hc|]. apply Forall_lookup. intros i r. unfold new. rewrite list_lookup_imap.
      destruct (data !! i) as [d|] eqn:Hd; [|done]. intros [= <-]. apply lookup_lt_Some in Hd. eapply key_values_typed; [exact Hkeys|lia].
    + apply Forall_app. split; [apply Hc|]. apply Forall_lookup. intros i r. unfold new. rewrite list_lookup_imap.
      destruct (data !! i) as [d|] eqn:Hd; [|done]. intros [= <-]. apply lookup_lt_Some in Hd. cbn [row_index].
      rewrite length_drop. rewrite Forall_forall in Hfw. rewrite (Hfw (fresh !!! i)) by (apply list_elem_of_lookup_total_2; lia).
      destruct (try_new_spec cols) as (_ & _ & _ & _ & -> & _). lia.
  - unfold new, batch_rows. apply list_eq. intros i. rewrite list_lookup_fmap, !list_lookup_imap. by destruct (data !! i).
Qed.

(** Sorting the rows collected so far. *)
Lemma sort_unsorted_spec c unsorted runs limit_hint :
  collection_holds c unsorted runs -> (Z.of_nat (length unsorted) <= 2 ^ 32)%Z ->
  exists c' outs, sort_unsorted layout c limit_hint = Ok c' /\ collection_holds c' [] (runs ++ outs)
    /\ keeps_top payload_cmp limit_hint (payload <$> unsorted) (payload <$> concat outs)
    /\ length outs = if decide (unsorted = []) then 0 else 1.
Proof.
  intros Hc Hlen. unfold sort_unsorted, take_blocks. rewrite (holds_keys _ _ _ Hc), (holds_data _ _ _ Hc).
  destruct (decide (unsorted = [])) as [->|Hne].
  - cbn. eexists _, []. split; [done|]. split; [|split; [apply keeps_top_refl|done]]. split; try done. rewrite app_nil_r. apply Hc.
  - destruct (sort_from_blocks_spec cols unsorted (concat (row_blocks (key_heap_blocks c))) (heap_blocks (key_heap_blocks c))
      (heap_blocks (data_blocks c)) limit_hint) as (block & out & Hs & Hrep & _ & _ & _ & [Hsorted (dropped & Hp & Hle & Hd)]);
      [done|apply Hc|apply Hc|done|apply (holds_heap _ _ _ Hc)|].
    rewrite Hs. unfold mbind, res_bind. eexists _, [out]. split; [reflexivity|].
    assert (payload <$> imap indexed unsorted = payload <$> unsorted) as Hpay.
    { apply list_eq. intros i. rewrite !list_lookup_fmap, list_lookup_imap. by destruct (unsorted !! i). }
    assert (Forall (row_typed cols) (out ++ dropped)) as Hty.
    { eapply Permutation_Forall; [symmetry; exact Hp|]. apply Forall_lookup. intros i r. rewrite list_lookup_imap.
      destruct (unsorted !! i) as [r'|] eqn:Hr; [|done]. intros [= <-]. pose proof (holds_typed _ _ _ Hc) as Ht. rewrite Forall_lookup in Ht. by apply (Ht i r'). }
    apply Forall_app in Hty as [Hty _]. split; [|split; [|by destruct (decide (unsorted = []))]].
    + split; try done. cbn [sorted]. apply Forall2_app; [apply Hc|]. by repeat constructor.
    + cbn [concat]. rewrite app_nil_r. exists (payload <$> dropped). split; [by rewrite <- Hpay, <- Hp, fmap_app|].
      intros d (d' & -> & Hd')%list_elem_of_fmap. destruct Hd as [->|(limit & -> & Hlim)]; [by apply not_elem_of_nil in Hd'|].
      exists limit. split; [done|]. exists (payload <$> out). split_and!; [done|by rewrite length_fmap|].
      apply Forall_fmap, Forall_forall. intros a Ha. by apply (Hle a d').
Qed.

End Holds.
