(* ===== verification/GlobalSort.v ===== *)
(** * The global sort

    Models [execution/operators/sort/global_sort.rs] and [merge_queue.rs], with
    the scan of the sorted run ([SortedSegment::scan_data]).  Every partition collects and sorts
    its rows, hands its runs to a queue all partitions share, and all of them
    merge runs until one is left, which one partition drains.  The queue is
    behind a mutex: an atomic step is what a task does between two acquisitions
    of the lock, so a merge, which runs outside of it, is two steps.  Key
    expressions are evaluated before: a batch comes with its key arrays. *)
From stdpp Require Import sorting.
From S2P Require Import Prelude PartitionSync Arrays ArrayData SortLayout SortOrder SortMerge SortBlock PartialSort.

(** [unwrap] of a result. *)
Definition unwrap_ok {A} (r : res A) : res A :=
  match r with Err _ => Panic "called `Result::unwrap()` on an `Err` value" | _ => r end.

(** ** Scanning a sorted run *)

Record SegmentScan : Type := mkSegmentScan { scan_block_idx : nat; scan_row_idx : nat }.

(** The loop of [SortedSegment::scan_data]. *)
Fixpoint scan_data_loop {D} (blocks : list (list D)) (fuel : nat) (s : SegmentScan) (rem_cap : nat) (out : list D) : res (SegmentScan * list D) :=
  match fuel with
  | O => Panic "out of fuel"
  | S fuel' =>
      match blocks !! scan_block_idx s with
      | None => Ok (s, out)
      | Some block =>
          if rem_cap =? 0 then Ok (s, out)
          else if length block <=? scan_row_idx s then
            scan_data_loop blocks fuel' (mkSegmentScan (S (scan_block_idx s)) 0) rem_cap out
          else
            let scan_count := Nat.min (length block - scan_row_idx s) rem_cap in
            scan_data_loop blocks fuel' (mkSegmentScan (scan_block_idx s) (scan_row_idx s + scan_count)) (rem_cap - scan_count)
              (out ++ take scan_count (drop (scan_row_idx s) block))
      end
  end.

(** [SortedSegment::scan_data]: the rows read into a batch of the capacity. *)
Definition scan_data {D Heap} (run : @SortedSegment D Heap) (s : SegmentScan) (capacity : nat) : res (SegmentScan * list D) :=
  scan_data_loop (SortMerge.data run) (S (S (2 * length (SortMerge.data run)))) s capacity [].

Section Queue.
Context {D : Type} `{SliceSort}.
Variable key_layout : SortLayout.
Variable block_capacity : nat.
Variable limit_hint : option nat.

Local Abbreviation Segment := (@SortedSegment D nat).

(** [MergeQueueInner] *)
Record MergeQueue : Type := mkQueue {
  runs : list Segment;
  remaining_collection_count : DelayedPartitionCount;
  running_merges : nat;
  wakers : PartitionWakers;
}.

(** [MergeQueue::new] *)
Definition new_queue : MergeQueue := mkQueue [] None 0 [].

(** [is_complete] *)
Definition is_complete (q : MergeQueue) : res bool :=
  remaining ← unwrap_ok (count_current (remaining_collection_count q));
  Ok ((remaining =? 0) && (running_merges q =? 0) && ((length (runs q) =? 1) || (length (runs q) =? 0))).

(** [prepare_for_partitions] *)
Definition prepare_for_partitions (q : MergeQueue) (num_partitions : nat) : res MergeQueue :=
  count ← unwrap_ok (count_set (remaining_collection_count q) num_partitions);
  w ← init_for_partitions (wakers q) num_partitions;
  Ok (mkQueue (runs q) count (running_merges q) w).

(** [add_sorted_blocks] *)
Definition add_sorted_blocks (q : MergeQueue) (blocks : list (@SortedBlock D nat)) : res MergeQueue :=
  count ← dec_by_one (remaining_collection_count q);
  Ok (mkQueue (runs q ++ (from_sorted_block <$> blocks)) count (running_merges q) (wakers q)).

(** [add_sorted_partition] *)
Definition add_sorted_partition (q : MergeQueue) (collection : @PartialSortedRowCollection D) : res MergeQueue :=
  blocks ← try_into_sorted_blocks key_layout collection limit_hint;
  add_sorted_blocks q blocks.

(** [poll_merge_next] up to the end of its first critical section. *)
Inductive PollMerge : Type :=
| MergeFinished
| MergePending
| MergeStarted (left_run right_run : Segment).

Definition poll_merge_next (q : MergeQueue) (partition_idx : nat) : res (PollMerge * MergeQueue) :=
  complete ← is_complete q;
  if complete : bool then Ok (MergeFinished, q)
  else
    match runs q with
    | left_run :: right_run :: rest =>
        Ok (MergeStarted left_run right_run, mkQueue rest (remaining_collection_count q) (S (running_merges q)) (wakers q))
    | _ =>
        w ← store_waker (wakers q) partition_idx;
        Ok (MergePending, mkQueue (runs q) (remaining_collection_count q) (running_merges q) w)
    end.

(** The rest of [poll_merge_next]: the merge, and the second critical section. *)
Definition finish_merge (q : MergeQueue) (left_run right_run : Segment) : res MergeQueue :=
  out ← merge key_layout block_capacity limit_hint left_run right_run;
  running ← checked_sub (running_merges q) 1;
  Ok (mkQueue (runs q ++ [out]) (remaining_collection_count q) running (wake_all (wakers q))).

(** [take_sorted_run] *)
Definition take_sorted_run (q : MergeQueue) : res (option Segment * MergeQueue) :=
  complete ← is_complete q;
  if complete : bool then
    Ok (head (runs q), mkQueue (tail (runs q)) (remaining_collection_count q) (running_merges q) (wake_all (wakers q)))
  else Err "Attempted to take final run from queue before merging complete".

End Queue.

(** ** The operator and its partitions *)

(** A batch: what fresh rows of the key block hold, its key arrays and its rows. *)
Record InputBatch (D : Type) : Type := mkInput {
  input_fresh : list KeyRow;
  input_keys : list (Array value PhysicalType);
  input_data : list D;
}.
Arguments mkInput {D}. Arguments input_fresh {D}. Arguments input_keys {D}. Arguments input_data {D}.

Section Operator.
Context {D : Type} `{SliceSort}.
Variable key_layout : SortLayout.
Variable batch_size : nat.
Variable data_heap_size : D -> nat.
Variable limit_hint : option nat.

Local Abbreviation Segment := (@SortedSegment D nat).

(** [SortPartitionState], with the points inside of [poll_execute] where the
    lock is not held. *)
Inductive SortPartitionState : Type :=
| Collecting (collection : @PartialSortedRowCollection D)
| Merging
| MergingRuns (left_run right_run : Segment)
| TakingRun
| Draining (scan_state : SegmentScan) (sorted_run : Segment)
| Finished.

(** A partition: its state, the input it has still to get and its output. *)
Record Partition : Type := mkPartition {
  pstate : SortPartitionState;
  input : list (InputBatch D);
  emitted : list D;
}.

Record System : Type := mkSystem { queue : @MergeQueue D; partitions : list Partition }.

(** [poll_execute] on a collecting partition. *)
Definition execute_collecting (c : @PartialSortedRowCollection D) (b : InputBatch D) : res (@PartialSortedRowCollection D) :=
  c' ← append_unsorted_keys_and_data key_layout batch_size data_heap_size c (input_fresh b) (input_keys b) (input_data b) (length (input_data b));
  match limit_hint with
  | Some limit => if limit <? unsorted_row_count c' then sort_unsorted key_layout c' limit_hint else Ok c'
  | None => Ok c'
  end.

(** [poll_finalize_execute] *)
Definition finalize_collecting (q : MergeQueue) (c : @PartialSortedRowCollection D) : res MergeQueue :=
  c' ← sort_unsorted key_layout c limit_hint;
  add_sorted_partition key_layout limit_hint q c'.

(** [SortDrainingState::drain_next] and the state after. *)
Definition drain_next (s : SegmentScan) (run : Segment) : res (SortPartitionState * list D) :=
  '(s', rows) ← scan_data run s batch_size;
  if length rows =? 0 then Ok (Finished, []) else Ok (Draining s' run, rows).

(** One atomic step of partition [idx]: [None] when it has nothing to do. *)
Definition partition_step (idx : nat) (q : MergeQueue) (p : Partition) : option (res (MergeQueue * Partition)) :=
  match pstate p with
  | Collecting c =>
      match input p with
      | b :: rest => Some (c' ← execute_collecting c b; Ok (q, mkPartition (Collecting c') rest (emitted p)))
      | [] => Some (q' ← finalize_collecting q c; Ok (q', mkPartition Merging [] (emitted p)))
      end
  | Merging =>
      if default false (wakers q !! idx) then None
      else Some (
        '(poll, q') ← poll_merge_next q idx;
        Ok (q', mkPartition (match poll with
                             | MergeFinished => TakingRun
                             | MergePending => Merging
                             | MergeStarted left_run right_run => MergingRuns left_run right_run
                             end) (input p) (emitted p)))
  | MergingRuns left_run right_run =>
      Some (q' ← finish_merge key_layout batch_size limit_hint q left_run right_run; Ok (q', mkPartition Merging (input p) (emitted p)))
  | TakingRun =>
      Some (
        '(run, q') ← take_sorted_run q;
        '(st, rows) ← match run with Some run => drain_next (mkSegmentScan 0 0) run | None => Ok (Finished, []) end;
        Ok (q', mkPartition st (input p) (emitted p ++ rows)))
  | Draining s run =>
      Some ('(st, rows) ← drain_next s run; Ok (q, mkPartition st (input p) (emitted p ++ rows)))
  | Finished => None
  end.

(** One step of the system. *)
Definition system_step (idx : nat) (s : System) : option (res System) :=
  p ← partitions s !! idx;
  r ← partition_step idx (queue s) p;
  Some ('(q', p') ← (r : res _); Ok (mkSystem q' (<[idx := p']> (partitions s)))).

Inductive step : System -> System -> Prop :=
| step_partition idx s s' : system_step idx s = Some (Ok s') -> step s s'.

(** [create_operator_state] and [create_partition_execute_states]. *)
Definition create (inputs : list (list (InputBatch D))) : res System :=
  q ← prepare_for_partitions new_queue (length inputs);
  Ok (mkSystem q ((fun bs => mkPartition (Collecting new_collection) bs []) <$> inputs)).

Definition finished (s : System) : Prop := Forall (fun p => pstate p = Finished) (partitions s).

End Operator.

(** ** Scans *)

Section Scan.
Context {A : Type}.

(** The rows not yet scanned. *)
Definition segment_rest (blocks : list (list A)) (s : SegmentScan) : list A :=
  scan_rest blocks (mkScan (scan_block_idx s) (scan_row_idx s) 0).

Definition scan_work (blocks : list (list A)) (s : SegmentScan) : nat :=
  2 * (length blocks - scan_block_idx s) + (if scan_row_idx s <? length (default [] (blocks !! scan_block_idx s)) then 1 else 0).

Lemma scan_data_loop_spec (blocks : list (list A)) fuel s cap out :
  scan_work blocks s < fuel ->
  exists s', scan_data_loop blocks fuel s cap out = Ok (s', out ++ take cap (segment_rest blocks s))
    /\ segment_rest blocks s' = drop cap (segment_rest blocks s).
Proof.
  revert s cap out. induction fuel as [|fuel IH]; intros s cap out Hfuel; [lia|]. cbn [scan_data_loop].
  destruct (blocks !! scan_block_idx s) as [block|] eqn:Hb.
  2: { exists s. unfold segment_rest. rewrite scan_rest_none by done. rewrite take_nil, drop_nil, app_nil_r. done. }
  destruct (Nat.eqb_spec cap 0) as [->|Hcap]; [exists s; by rewrite take_0, drop_0, app_nil_r|].
  pose proof (lookup_lt_Some _ _ _ Hb) as Hlt. unfold scan_work in Hfuel. rewrite Hb in Hfuel. cbn [from_option id] in Hfuel. unfold id in Hfuel.
  destruct (Nat.leb_spec (length block) (scan_row_idx s)) as [Hle|Hgt].
  - assert (segment_rest blocks (mkSegmentScan (S (scan_block_idx s)) 0) = segment_rest blocks s) as Hrest.
    { unfold segment_rest, scan_rest. cbn. rewrite Hb. cbn. unfold id. rewrite (drop_ge block) by done. cbn [app]. rewrite drop_0.
      destruct (blocks !! S (scan_block_idx s)) as [b'|] eqn:Hb'.
      - by rewrite (drop_S _ _ _ Hb').
      - apply lookup_ge_None in Hb'. by rewrite !drop_ge by lia. }
    rewrite <- Hrest. apply IH. unfold scan_work. cbn [scan_block_idx scan_row_idx].
    destruct (0 <? _); destruct (scan_row_idx s <? length block); lia.
  - set (n := Nat.min (length block - scan_row_idx s) cap). set (s1 := mkSegmentScan (scan_block_idx s) (scan_row_idx s + n)).
    assert (segment_rest blocks s = take n (drop (scan_row_idx s) block) ++ segment_rest blocks s1) as Hrest.
    { unfold segment_rest, scan_rest, s1. cbn. rewrite Hb. cbn. unfold id. rewrite app_assoc, <- drop_drop, take_drop. done. }
    assert (length (take n (drop (scan_row_idx s) block)) = n) as Hn by (rewrite length_take, length_drop; lia).
    destruct (decide (n = cap)) as [Heq|Hne].
    + rewrite Heq, Nat.sub_diag. destruct fuel as [|fuel]; [destruct (scan_row_idx s <? length block) eqn:Hf; [lia|apply Nat.ltb_ge in Hf; lia]|].
      cbn [scan_data_loop]. rewrite <- Heq. fold s1. cbn [s1 scan_block_idx]. rewrite Hb, Nat.eqb_refl. exists s1.
      rewrite Hrest. rewrite take_app_le, drop_app_ge, Hn, Nat.sub_diag by lia. rewrite (take_ge (take _ _)) by lia. split; [done|]. by rewrite drop_0.
    + destruct (IH s1 (cap - n) (out ++ take n (drop (scan_row_idx s) block))) as (s' & -> & Hs').
      { unfold scan_work, s1. cbn [scan_block_idx scan_row_idx]. rewrite Hb. cbn [from_option]. unfold id.
        rewrite (proj2 (Nat.ltb_ge _ _)) by lia. rewrite (proj2 (Nat.ltb_lt _ _)) in Hfuel by lia. lia. }
      exists s'. rewrite Hrest, take_app_ge, drop_app_ge, Hn, <- app_assoc by lia. done.
Qed.

End Scan.

(** The scan only looks at the lengths of the blocks. *)
Lemma scan_data_loop_map {A B} (f : A -> B) (blocks : list (list A)) fuel s cap out :
  scan_data_loop (fmap (M:=list) (fmap f) blocks) fuel s cap (f <$> out)
  = res_map (fun r => (r.1, f <$> r.2)) (scan_data_loop blocks fuel s cap out).
Proof.
  revert s cap out. induction fuel as [|fuel IH]; intros s cap out; cbn [scan_data_loop]; [done|].
  rewrite list_lookup_fmap. destruct (blocks !! scan_block_idx s) as [block|]; cbn [fmap option_fmap option_map]; [|done].
  destruct (cap =? 0); [done|]. rewrite length_fmap. destruct (length block <=? scan_row_idx s); [apply IH|].
  rewrite <- IH. by rewrite fmap_app, fmap_take, fmap_drop.
Qed.

(** ** What the system holds *)

Section Invariant.
Context {D : Type} `{SliceSort}.
Variable cols : list SortColumn.
Variable batch_size : nat.
Variable data_heap_size : D -> nat.
Variable limit_hint : option nat.
Hypothesis batch_size_pos : 0 < batch_size.
Local Abbreviation layout := (try_new cols).
Local Abbreviation Segment := (@SortedSegment D nat).
Local Abbreviation rows_t := (list (option value) * D)%type.
Local Abbreviation top := (keeps_top (payload_cmp (D:=D) cols) limit_hint).

(** A run of the queue and its rows. *)
Definition run_holds (run : Segment) (rows : list (Row D)) : Prop :=
  exists blocks, represents cols blocks run /\ concat blocks = rows /\ sorted_run cols rows.

(** The rows of the batches still to come. *)
Definition input_rows (bs : list (InputBatch D)) : list rows_t :=
  concat ((fun b => batch_rows (input_keys b) (input_data b)) <$> bs).

Definition input_ok (b : InputBatch D) : Prop := batch_ok cols data_heap_size (input_fresh b) (input_keys b) (input_data b).

(** What a partition holds that is not yet in order, and its part of the output. *)
Inductive holds : Partition -> list rows_t -> list (Row D) -> Prop :=
| holds_collecting c bs unsorted rs :
    collection_holds cols c unsorted rs -> Forall input_ok bs -> (Z.of_nat (length unsorted + length (input_rows bs)) <= 2 ^ 32)%Z ->
    holds (mkPartition (Collecting c) bs []) ((payload <$> unsorted ++ concat rs) ++ input_rows bs) []
| holds_merging : holds (mkPartition Merging [] []) [] []
| holds_merging_runs l r rl rr : run_holds l rl -> run_holds r rr -> holds (mkPartition (MergingRuns l r) [] []) (payload <$> rl ++ rr) []
| holds_taking : holds (mkPartition TakingRun [] []) [] []
| holds_draining s run blocks em :
    represents cols blocks run -> sorted_run cols (concat blocks) -> concat blocks = em ++ segment_rest blocks s -> em <> [] ->
    holds (mkPartition (Draining s run) [] (row_data <$> em)) [] (concat blocks)
| holds_finished out : sorted_run cols out -> holds (mkPartition Finished [] (row_data <$> out)) [] out.

(** *** One step keeps the rows *)

Lemma execute_collecting_spec c bs b unsorted rs :
  collection_holds cols c unsorted rs -> Forall input_ok (b :: bs) -> (Z.of_nat (length unsorted + length (input_rows (b :: bs))) <= 2 ^ 32)%Z ->
  exists c' unsorted' rs', execute_collecting layout batch_size data_heap_size limit_hint c b = Ok c'
    /\ collection_holds cols c' unsorted' rs' /\ Forall input_ok bs
    /\ (Z.of_nat (length unsorted' + length (input_rows bs)) <= 2 ^ 32)%Z
    /\ top ((payload <$> unsorted ++ concat rs) ++ input_rows (b :: bs)) ((payload <$> unsorted' ++ concat rs') ++ input_rows bs)
    /\ length rs' <= S (length rs).
Proof.
  intros Hc Hin Hlen. apply Forall_cons in Hin as [Hb Hbs]. unfold execute_collecting.
  destruct (append_spec cols batch_size data_heap_size batch_size_pos c unsorted rs (input_fresh b) (input_keys b) (input_data b) Hc Hb)
    as (c1 & new & -> & Hc1 & Hnew). unfold mbind, res_bind.
  assert (input_rows (b :: bs) = (payload <$> new) ++ input_rows bs) as Hrows by (rewrite Hnew; done).
  rewrite Hrows, length_app, length_fmap in Hlen.
  assert (top ((payload <$> unsorted ++ concat rs) ++ input_rows (b :: bs)) ((payload <$> (unsorted ++ new) ++ concat rs) ++ input_rows bs)) as Htop.
  { rewrite Hrows. match goal with |- top ?x ?y => enough (x ≡ₚ y) as Heq end.
    - rewrite <- Heq. apply keeps_top_refl.
    - rewrite !fmap_app. solve_Permutation. }
  assert (exists c' unsorted' rs', Ok c1 = Ok c' /\ collection_holds cols c' unsorted' rs' /\ Forall input_ok bs
    /\ (Z.of_nat (length unsorted' + length (input_rows bs)) <= 2 ^ 32)%Z
    /\ top ((payload <$> unsorted ++ concat rs) ++ input_rows (b :: bs)) ((payload <$> unsorted' ++ concat rs') ++ input_rows bs)
    /\ length rs' <= S (length rs)) as Hkeep.
  { exists c1, (unsorted ++ new), rs. split_and!; [done|done|done| |done|lia]. rewrite length_app. lia. }
  destruct limit_hint as [limit|] eqn:Hl; [|exact Hkeep].
  destruct (limit <? unsorted_row_count c1); [|exact Hkeep]. rewrite <- Hl in *.
  destruct (sort_unsorted_spec cols c1 (unsorted ++ new) rs limit_hint Hc1) as (c' & outs & -> & Hc' & Hk & Houts); [rewrite length_app; lia|].
  exists c', [], (rs ++ outs). split_and!; [done|done|done|cbn [length]; lia| |rewrite length_app, Houts; destruct (decide _); lia].
  eapply keeps_top_trans; [apply _|exact Htop|]. apply keeps_top_app; [|apply keeps_top_refl].
  cbn [app]. rewrite concat_app, !fmap_app. rewrite <- fmap_app.
  rewrite (Permutation_app_comm (payload <$> concat rs)). apply keeps_top_app; [exact Hk|apply keeps_top_refl].
Qed.

Lemma try_into_sorted_blocks_spec c unsorted rs :
  collection_holds cols c unsorted rs -> (Z.of_nat (length unsorted) <= 2 ^ 32)%Z ->
  exists blocks outs, try_into_sorted_blocks layout c limit_hint = Ok blocks
    /\ Forall2 (fun b out => run_holds (from_sorted_block b) out) blocks outs
    /\ top (payload <$> unsorted ++ concat rs) (payload <$> concat outs)
    /\ (unsorted = [] -> length outs = length rs).
Proof.
  intros Hc Hlen. unfold try_into_sorted_blocks.
  destruct (sort_unsorted_spec cols c unsorted rs limit_hint Hc Hlen) as (c' & outs & -> & Hc' & Hk & Houts). unfold mbind, res_bind.
  rewrite (row_count_spec cols c' [] (rs ++ outs) Hc'). cbn [length Nat.eqb rust_assert].
  exists (sorted c'), (rs ++ outs). split_and!; [done| | |intros ->; rewrite length_app, Houts; simpl; lia].
  - apply Forall2_flip. eapply Forall2_impl; [apply (holds_runs _ _ _ _ Hc')|]. intros out b [Hs Hr]. exists [out]. split_and!; [done|by cbn; rewrite app_nil_r|done].
  - rewrite concat_app, !fmap_app, (Permutation_app_comm (payload <$> unsorted)). apply keeps_top_app; [apply keeps_top_refl|exact Hk].
Qed.

(** Finalizing a partition adds its runs to the queue. *)
Lemma finalize_collecting_spec q n c unsorted rs :
  collection_holds cols c unsorted rs -> (Z.of_nat (length unsorted) <= 2 ^ 32)%Z -> remaining_collection_count q = Some (S n) ->
  exists blocks outs, finalize_collecting layout limit_hint q c
      = Ok (mkQueue (runs q ++ (from_sorted_block <$> blocks)) (Some n) (running_merges q) (wakers q))
    /\ Forall2 run_holds (from_sorted_block <$> blocks) outs
    /\ top (payload <$> unsorted ++ concat rs) (payload <$> concat outs) /\ length outs <= S (length rs).
Proof.
  intros Hc Hlen Hrem. unfold finalize_collecting, add_sorted_partition.
  destruct (sort_unsorted_spec cols c unsorted rs limit_hint Hc Hlen) as (c1 & outs1 & -> & Hc1 & Hk1 & Houts1). unfold mbind, res_bind.
  destruct (try_into_sorted_blocks_spec c1 [] (rs ++ outs1) Hc1) as (blocks & outs & -> & Hb & Hk & Houts); [cbn; lia|].
  unfold add_sorted_blocks. rewrite Hrem. cbn [dec_by_one]. exists blocks, outs.
  split_and!; [done|by apply Forall2_fmap_l| |rewrite Houts, length_app, Houts1 by done; destruct (decide _); lia].
  eapply keeps_top_trans; [apply _| |exact Hk].
  cbn [app]. rewrite concat_app, !fmap_app, (Permutation_app_comm (payload <$> unsorted)). apply keeps_top_app; [apply keeps_top_refl|exact Hk1].
Qed.

(** A merge of two runs of the queue. *)
Lemma finish_merge_spec q n left_run right_run rl rr :
  run_holds left_run rl -> run_holds right_run rr -> running_merges q = S n ->
  exists out rows, finish_merge layout batch_size limit_hint q left_run right_run
      = Ok (mkQueue (runs q ++ [out]) (remaining_collection_count q) n (wake_all (wakers q)))
    /\ run_holds out rows /\ top (payload <$> rl ++ rr) (payload <$> rows) /\ length rows <= length rl + length rr.
Proof.
  intros (lb & Hl & <- & [Hsl Htl]) (rb & Hr & <- & [Hsr Htr]) Hrun. unfold finish_merge.
  destruct (merge_represents cols left_run right_run lb rb batch_size limit_hint)
    as (out & blocks & -> & Hrep & _ & _ & _ & [Hsorted (dropped & Hp & Hle & Hd)]); [done..|].
  unfold mbind, res_bind. rewrite Hrun. cbn [checked_sub Nat.leb]. rewrite Nat.sub_1_r. cbn [Nat.pred].
  assert (Forall (row_typed cols) (concat blocks ++ dropped)) as Hty.
  { eapply Permutation_Forall; [symmetry; exact Hp|]. by apply Forall_app. }
  apply Forall_app in Hty as [Hty _]. exists out, (concat blocks). split_and!; [done|by exists blocks| |].
  - exists (payload <$> dropped). split; [by rewrite <- fmap_app, Hp|].
    intros d (d' & -> & Hd')%list_elem_of_fmap. destruct Hd as [->|(limit & -> & Hlim)]; [by apply not_elem_of_nil in Hd'|].
    exists limit. split; [done|]. exists (payload <$> concat blocks). split_and!; [done|by rewrite length_fmap|].
    apply Forall_fmap, Forall_forall. intros a Ha. by apply (Hle a d').
  - apply Permutation_length in Hp. rewrite !length_app in Hp. lia.
Qed.

(** Draining reads the next rows of the run. *)
Lemma drain_next_spec s run blocks em :
  represents cols blocks run -> sorted_run cols (concat blocks) -> concat blocks = em ++ segment_rest blocks s ->
  exists st out, drain_next batch_size s run = Ok (st, row_data <$> out)
    /\ holds (mkPartition st [] (row_data <$> (em ++ out))) [] (concat blocks)
    /\ (st = Finished \/ exists s', st = Draining s' run) /\ (st <> Finished -> out <> [])
    /\ length em + length out <= length (concat blocks).
Proof.
  intros Hrep Hs Hem. pose proof Hrep as (hk & h1 & h2 & Hrun). pose proof (f_equal length Hem) as Hlen. rewrite length_app in Hlen.
  unfold drain_next, scan_data.
  assert (SortMerge.data run = fmap (M:=list) (fmap row_data) blocks) as -> by by rewrite Hrun. rewrite length_fmap.
  rewrite (scan_data_loop_map row_data blocks _ s batch_size []).
  destruct (scan_data_loop_spec blocks (S (S (2 * length blocks))) s batch_size []) as (s' & -> & Hrest).
  { unfold scan_work. destruct (_ <? _); lia. }
  unfold res_map, mbind, res_bind. cbn [fst snd app]. rewrite length_fmap. set (rest := segment_rest blocks s) in *.
  destruct (Nat.eqb_spec (length (take batch_size rest)) 0) as [Hz|Hnz].
  - exists Finished, []. assert (rest = []) as Hnil.
    { apply nil_length_inv in Hz. destruct rest; [done|]. destruct batch_size; [lia|done]. }
    rewrite Hnil, app_nil_r in Hem. rewrite app_nil_r. split_and!; [done|rewrite Hem in *; by constructor|by left|done|cbn [length]; lia].
  - assert (take batch_size rest <> []) as Hne by (intros Heq; by rewrite Heq in Hnz).
    exists (Draining s' run), (take batch_size rest). split_and!; [done| |right; by exists s'|done|rewrite length_take; lia].
    apply holds_draining; [done|done| |].
    + by rewrite Hem, Hrest, <- app_assoc, take_drop.
    + intros [_ ?]%app_eq_nil. done.
Qed.

(** *** The invariant *)

Definition collecting (p : Partition) : nat := match @pstate D p with Collecting _ => 1 | _ => 0 end.
Definition merging_runs (p : Partition) : nat := match @pstate D p with MergingRuns _ _ => 1 | _ => 0 end.
Definition late (p : Partition) : nat := match @pstate D p with TakingRun | Draining _ _ | Finished => 1 | _ => 0 end.
Definition taken (p : Partition) : nat := match @pstate D p with Draining _ _ | Finished => 1 | _ => 0 end.

(** A partition whose next step may wake up others. *)
Definition active (q : @MergeQueue D) (idx : nat) (p : @Partition D) : Prop :=
  match pstate p with
  | Collecting _ | MergingRuns _ _ | TakingRun => True
  | Merging => wakers q !! idx = Some false
  | Draining _ _ | Finished => False
  end.

Record invariant (all : list rows_t) (s : @System D) (hos : list (list rows_t * list (Row D))) (qs : list (list (Row D))) : Prop := {
  inv_runs : Forall2 run_holds (runs (queue s)) qs;
  inv_parts : Forall2 (fun p ho => holds p ho.1 ho.2) (partitions s) hos;
  inv_rows : top all ((payload <$> concat qs) ++ concat (fst <$> hos) ++ (payload <$> concat (snd <$> hos)));
  inv_sorted : row_sorted cols (concat (snd <$> hos));
  inv_collecting : remaining_collection_count (queue s) = Some (total collecting (partitions s));
  inv_running : running_merges (queue s) = total merging_runs (partitions s);
  inv_late : 0 < total late (partitions s) ->
    total collecting (partitions s) = 0 /\ total merging_runs (partitions s) = 0 /\ length (runs (queue s)) <= 1;
  inv_taken : 0 < total taken (partitions s) -> runs (queue s) = [];
  inv_wakers : length (wakers (queue s)) = length (partitions s);
  inv_parked : forall i, wakers (queue s) !! i = Some true -> exists p, partitions s !! i = Some p /\ pstate p = Merging;
  inv_active : (exists i, wakers (queue s) !! i = Some true) -> exists j p, partitions s !! j = Some p /\ active (queue s) j p;
}.

(** Replacing a partition that keeps its output. *)
Lemma inv_step all s hos qs idx p h o q' p' h' o' qs' :
  invariant all s hos qs -> partitions s !! idx = Some p -> hos !! idx = Some (h, o) ->
  holds p' h' o' -> Forall2 run_holds (runs q') qs' ->
  top ((payload <$> concat qs) ++ h ++ (payload <$> o)) ((payload <$> concat qs') ++ h' ++ (payload <$> o')) ->
  row_sorted cols (concat (snd <$> <[idx := (h', o')]> hos)) ->
  remaining_collection_count q' = Some (total collecting (<[idx := p']> (partitions s))) ->
  running_merges q' = total merging_runs (<[idx := p']> (partitions s)) ->
  (0 < total late (<[idx := p']> (partitions s)) ->
    total collecting (<[idx := p']> (partitions s)) = 0 /\ total merging_runs (<[idx := p']> (partitions s)) = 0 /\ length (runs q') <= 1) ->
  (0 < total taken (<[idx := p']> (partitions s)) -> runs q' = []) ->
  length (wakers q') = length (wakers (queue s)) ->
  (forall i, wakers q' !! i = Some true -> exists p, <[idx := p']> (partitions s) !! i = Some p /\ pstate p = Merging) ->
  ((exists i, wakers q' !! i = Some true) -> exists j p, <[idx := p']> (partitions s) !! j = Some p /\ active q' j p) ->
  invariant all (mkSystem q' (<[idx := p']> (partitions s))) (<[idx := (h', o')]> hos) qs'.
Proof.
  intros Hinv Hp Hho Hp' Hruns Htop Hsorted Hcol Hrun Hlate Htaken Hw Hparked Hactive.
  split; cbn [queue partitions]; try done.
  - apply Forall2_insert; [apply Hinv|done].
  - eapply keeps_top_trans; [apply _|apply (inv_rows _ _ _ _ Hinv)|].
    rewrite !list_fmap_insert. cbn [fst snd].
    assert ((fst <$> hos) !! idx = Some h) as Hh by by rewrite list_lookup_fmap, Hho.
    assert ((snd <$> hos) !! idx = Some o) as Ho by by rewrite list_lookup_fmap, Hho.
    destruct (concat_insert _ _ _ h' Hh) as (H1 & HH & HH'), (concat_insert _ _ _ o' Ho) as (O1 & HO & HO').
    rewrite HH, HO, HH', HO', !fmap_app.
    match goal with |- top ?x ?y => assert (x ≡ₚ ((payload <$> concat qs) ++ h ++ (payload <$> o)) ++ (H1 ++ (payload <$> O1))) as ->
      by solve_Permutation; assert (y ≡ₚ ((payload <$> concat qs') ++ h' ++ (payload <$> o')) ++ (H1 ++ (payload <$> O1))) as ->
      by solve_Permutation end.
    apply keeps_top_app; [exact Htop|apply keeps_top_refl].
  - by rewrite length_insert, Hw, (inv_wakers _ _ _ _ Hinv).
Qed.

(** *** Every step keeps the invariant *)

Lemma taken_late ps : total taken ps <= total late ps.
Proof. apply total_le. intros p. unfold taken, late. by destruct (pstate p); lia. Qed.

Lemma output_insert_same (hos : list (list rows_t * list (Row D))) (idx : nat) h o h' :
  hos !! idx = Some (h, o) -> snd <$> <[idx := (h', o)]> hos = snd <$> hos.
Proof. intros Hho. rewrite list_fmap_insert. apply list_insert_id. by rewrite list_lookup_fmap, Hho. Qed.

(** *** A measure of the work left *)

(** The work a partition has left, by what it holds: batches to collect, runs
    to merge, rows to drain. *)
Definition work (p : @Partition D) (ho : list rows_t * list (Row D)) : nat :=
  match pstate p with
  | Collecting c => 5 + 2 * length (input p) + length (sorted c) + length ho.1
  | Merging => 3
  | MergingRuns _ _ => 5 + length ho.1
  | TakingRun => 2
  | Draining _ _ => 1 + (length ho.2 - length (emitted p))
  | Finished => 0
  end.

Definition awake (p : @Partition D) (parked : bool) : nat := match pstate p with Merging => if parked then 0 else 1 | _ => 0 end.

Definition queue_work (qs : list (list (Row D))) : nat := length qs + length (concat qs).

Definition measure (s : @System D) (hos : list (list rows_t * list (Row D))) (qs : list (list (Row D))) : nat :=
  S (length (partitions s)) * (sum_list (zip_with work (partitions s) hos) + queue_work qs)
  + sum_list (zip_with awake (partitions s) (wakers (queue s))).

Lemma sum_zip_insert {A B} (f : A -> B -> nat) xs ys idx x y x' y' :
  xs !! idx = Some x -> ys !! idx = Some y ->
  sum_list (zip_with f (<[idx := x']> xs) (<[idx := y']> ys)) + f x y = sum_list (zip_with f xs ys) + f x' y'.
Proof.
  revert ys idx. induction xs as [|a xs IH]; intros [|b ys] [|idx] Hx Hy; simplify_eq/=; [lia|]. specialize (IH _ _ Hx Hy). lia.
Qed.

Lemma awake_bound ps ws : sum_list (zip_with awake ps ws) <= length ps.
Proof.
  revert ws. induction ps as [|p ps IH]; intros [|w ws]; cbn [zip_with sum_list sum_list_with foldr length]; try lia.
  assert (awake p w <= 1) by (unfold awake; destruct (pstate p), w; lia). specialize (IH ws). simpl. lia.
Qed.

(** Less work in a partition and the queue together is less work. *)
Lemma measure_work s hos qs idx p ho q' p' ho' qs' :
  partitions s !! idx = Some p -> hos !! idx = Some ho -> work p' ho' + queue_work qs' < work p ho + queue_work qs ->
  measure (mkSystem q' (<[idx := p']> (partitions s))) (<[idx := ho']> hos) qs' < measure s hos qs.
Proof.
  intros Hp Hho Hlt. unfold measure. cbn [partitions queue]. pose proof (sum_zip_insert work _ _ _ _ _ p' ho' Hp Hho) as Hw.
  pose proof (awake_bound (<[idx := p']> (partitions s)) (wakers q')) as Ha. rewrite length_insert in *.
  set (n := length (partitions s)) in *. set (a := sum_list (zip_with work (<[idx := p']> (partitions s)) (<[idx := ho']> hos))) in *.
  set (b := sum_list (zip_with work (partitions s) hos)) in *. nia.
Qed.

(** So is the same work with one more partition waiting. *)
Lemma measure_awake s hos qs idx p ho q' p' ho' qs' w w' :
  partitions s !! idx = Some p -> hos !! idx = Some ho -> wakers (queue s) !! idx = Some w -> wakers q' = <[idx := w']> (wakers (queue s)) ->
  work p' ho' + queue_work qs' = work p ho + queue_work qs -> awake p' w' < awake p w ->
  measure (mkSystem q' (<[idx := p']> (partitions s))) (<[idx := ho']> hos) qs' < measure s hos qs.
Proof.
  intros Hp Hho Hwk Hq Heq Hlt. unfold measure. cbn [partitions queue]. rewrite Hq.
  pose proof (sum_zip_insert work _ _ _ _ _ p' ho' Hp Hho) as Hw.
  pose proof (sum_zip_insert awake _ _ _ _ _ p' w' Hp Hwk) as Ha. rewrite length_insert in *.
  set (n := length (partitions s)) in *. set (a := sum_list (zip_with work (<[idx := p']> (partitions s)) (<[idx := ho']> hos))) in *.
  set (b := sum_list (zip_with work (partitions s) hos)) in *. nia.
Qed.

Lemma keeps_top_length (xs ys : list rows_t) : top xs ys -> length ys <= length xs.
Proof. intros (dropped & Hp & _). apply Permutation_length in Hp. rewrite length_app in Hp. lia. Qed.

Lemma queue_work_app qs1 qs2 : queue_work (qs1 ++ qs2) = queue_work qs1 + queue_work qs2.
Proof. unfold queue_work. rewrite concat_app, !length_app. lia. Qed.

Section Step.
Variables (all : list rows_t) (s : @System D) (hos : list (list rows_t * list (Row D))) (qs : list (list (Row D))).
Hypothesis Hinv : invariant all s hos qs.
Lemma keep_parked idx p' : wakers (queue s) !! idx <> Some true ->
  forall i, wakers (queue s) !! i = Some true -> exists p0, <[idx := p']> (partitions s) !! i = Some p0 /\ pstate p0 = Merging.
Proof.
  intros Hm i Hi. destruct (inv_parked _ _ _ _ Hinv i Hi) as (p0 & Hp0 & Hpm). exists p0. split; [|done].
  rewrite list_lookup_insert_ne; [done|]. intros ->. by apply Hm.
Qed.

Variables (idx : nat) (p : @Partition D).
Hypothesis Hp : partitions s !! idx = Some p.

Lemma keep_active (q' : @MergeQueue D) p' : wakers q' = wakers (queue s) -> (active (queue s) idx p -> active q' idx p') ->
  (exists i, wakers (queue s) !! i = Some true) -> exists j p0, <[idx := p']> (partitions s) !! j = Some p0 /\ active q' j p0.
Proof.
  intros Hw Ha Hi. destruct (inv_active _ _ _ _ Hinv Hi) as (j & p0 & Hp0 & Hact).
  destruct (decide (j = idx)) as [->|Hne].
  - exists idx, p'. rewrite list_lookup_insert_eq by (by eapply lookup_lt_Some). split; [done|]. apply Ha. congruence.
  - exists j, p0. rewrite list_lookup_insert_ne by done. split; [done|]. unfold active in *. by rewrite Hw.
Qed.

Lemma woken_parked (w : PartitionWakers) i : wake_all w !! i <> Some true.
Proof. unfold wake_all. rewrite list_lookup_fmap. by destruct (w !! i). Qed.

Lemma not_parked : pstate p <> Merging -> wakers (queue s) !! idx = Some false.
Proof.
  intros Hm. destruct (lookup_lt_is_Some_2 (wakers (queue s)) idx) as [b Hb].
  { rewrite (inv_wakers _ _ _ _ Hinv). by eapply lookup_lt_Some. }
  destruct b; [|done]. destruct (inv_parked _ _ _ _ Hinv idx Hb) as (p0 & Hp0 & ?). congruence.
Qed.

Lemma is_complete_spec :
  is_complete (queue s) = Ok ((total collecting (partitions s) =? 0) && (total merging_runs (partitions s) =? 0)
    && ((length (runs (queue s)) =? 1) || (length (runs (queue s)) =? 0))).
Proof. unfold is_complete. by rewrite (inv_collecting _ _ _ _ Hinv), (inv_running _ _ _ _ Hinv). Qed.

(** Before a run is taken there is no output. *)
Lemma no_output : total taken (partitions s) = 0 -> forall ho, ho ∈ hos -> ho.2 = [].
Proof.
  intros Hz ho [i Hi]%list_elem_of_lookup_1. destruct (Forall2_lookup_r _ _ _ _ _ (inv_parts _ _ _ _ Hinv) Hi) as (p0 & Hp0 & Hh).
  pose proof (total_zero taken _ _ _ Hz Hp0) as Ht. by destruct Hh.
Qed.

End Step.

Ltac step_counts Hp p' :=
  pose proof (total_insert collecting _ _ _ p' Hp); pose proof (total_insert merging_runs _ _ _ p' Hp);
  pose proof (total_insert late _ _ _ p' Hp); pose proof (total_insert taken _ _ _ p' Hp);
  pose proof (total_lookup collecting _ _ _ Hp); pose proof (total_lookup merging_runs _ _ _ Hp);
  pose proof (total_lookup late _ _ _ Hp); pose proof (total_lookup taken _ _ _ Hp).

Lemma step_collect all s hos qs idx c b bs unsorted rs :
  invariant all s hos qs -> partitions s !! idx = Some (mkPartition (Collecting c) (b :: bs) []) ->
  hos !! idx = Some ((payload <$> unsorted ++ concat rs) ++ input_rows (b :: bs), []) ->
  collection_holds cols c unsorted rs -> Forall input_ok (b :: bs) -> (Z.of_nat (length unsorted + length (input_rows (b :: bs))) <= 2 ^ 32)%Z ->
  exists c' hos', execute_collecting layout batch_size data_heap_size limit_hint c b = Ok c'
    /\ invariant all (mkSystem (queue s) (<[idx := mkPartition (Collecting c') bs []]> (partitions s))) hos' qs
    /\ measure (mkSystem (queue s) (<[idx := mkPartition (Collecting c') bs []]> (partitions s))) hos' qs < measure s hos qs.
Proof.
  intros Hinv Hp Hho Hc Hin Hlen.
  destruct (execute_collecting_spec c bs b unsorted rs Hc Hin Hlen) as (c' & unsorted' & rs' & Hex & Hc' & Hin' & Hlen' & Htop & Hruns).
  exists c'. eexists (<[idx := ((payload <$> unsorted' ++ concat rs') ++ input_rows bs, [])]> hos). split; [exact Hex|]. split.
  2: { eapply measure_work; [done|done|]. cbn [work pstate input fst length]. apply keeps_top_length in Htop.
       rewrite <- (Forall2_length _ _ _ (holds_runs _ _ _ _ Hc)), <- (Forall2_length _ _ _ (holds_runs _ _ _ _ Hc')). lia. } step_counts Hp (mkPartition (Collecting c') bs []). cbn [collecting merging_runs late taken pstate] in *.
  eapply (inv_step all s hos qs idx _ _ _ _ _ _ _ qs Hinv Hp Hho); [by constructor|apply Hinv| | | | | | |done| |].
  - rewrite !app_nil_r. apply keeps_top_app; [apply keeps_top_refl|exact Htop].
  - rewrite (output_insert_same _ _ _ _ _ Hho). apply Hinv.
  - rewrite (inv_collecting _ _ _ _ Hinv). f_equal. lia.
  - rewrite (inv_running _ _ _ _ Hinv). lia.
  - intros. destruct (inv_late _ _ _ _ Hinv); lia.
  - intros. apply (inv_taken _ _ _ _ Hinv). lia.
  - apply (keep_parked all s hos qs Hinv idx). by rewrite (not_parked all s hos qs Hinv idx _ Hp ltac:(done)).
  - by apply (keep_active all s hos qs Hinv idx _ Hp).
Qed.

Lemma step_finalize all s hos qs idx c unsorted rs :
  invariant all s hos qs -> partitions s !! idx = Some (mkPartition (Collecting c) [] []) ->
  hos !! idx = Some ((payload <$> unsorted ++ concat rs) ++ input_rows [], []) ->
  collection_holds cols c unsorted rs -> (Z.of_nat (length unsorted + length (input_rows [])) <= 2 ^ 32)%Z ->
  exists q' hos' qs', finalize_collecting layout limit_hint (queue s) c = Ok q'
    /\ invariant all (mkSystem q' (<[idx := mkPartition Merging [] []]> (partitions s))) hos' qs'
    /\ measure (mkSystem q' (<[idx := mkPartition Merging [] []]> (partitions s))) hos' qs' < measure s hos qs.
Proof.
  intros Hinv Hp Hho Hc Hlen. step_counts Hp (mkPartition (D:=D) Merging [] []). cbn [collecting merging_runs late taken pstate] in *.
  destruct (total collecting (partitions s)) as [|n] eqn:Hn; [lia|].
  destruct (finalize_collecting_spec (queue s) n c unsorted rs) as (blocks & outs & Hf & Hb & Htop & Houts);
    [done|lia|by rewrite (inv_collecting _ _ _ _ Hinv), Hn|].
  eexists _, (<[idx := ([], [])]> hos), (qs ++ outs). split; [exact Hf|]. split.
  2: { eapply measure_work; [done|done|]. cbn [work pstate input fst length]. apply keeps_top_length in Htop.
       change (input_rows []) with (@nil rows_t). rewrite app_nil_r, !length_fmap in *. rewrite queue_work_app. unfold queue_work at 2.
       rewrite <- (Forall2_length _ _ _ (holds_runs _ _ _ _ Hc)). lia. } pose proof (taken_late (partitions s)).
  eapply (inv_step all s hos qs idx _ _ _ _ _ [] [] (qs ++ outs) Hinv Hp Hho);
    cbn [runs remaining_collection_count running_merges wakers];
    [constructor|apply Forall2_app; [apply Hinv|done]| | | | | | |done| |].
  - change (input_rows []) with (@nil rows_t). change (payload <$> @nil (Row D)) with (@nil rows_t).
    rewrite !app_nil_r, concat_app, (fmap_app payload (concat qs)). apply keeps_top_app; [apply keeps_top_refl|exact Htop].
  - rewrite (output_insert_same _ _ _ _ _ Hho). apply Hinv.
  - f_equal. lia.
  - rewrite (inv_running _ _ _ _ Hinv). lia.
  - intros. destruct (inv_late _ _ _ _ Hinv); lia.
  - intros. destruct (inv_late _ _ _ _ Hinv); lia.
  - apply (keep_parked all s hos qs Hinv idx). by rewrite (not_parked all s hos qs Hinv idx _ Hp ltac:(done)).
  - apply (keep_active all s hos qs Hinv idx _ Hp); [done|]. intros _. by apply (not_parked all s hos qs Hinv idx _ Hp).
Qed.

Lemma step_poll_merge all s hos qs idx :
  invariant all s hos qs -> partitions s !! idx = Some (mkPartition Merging [] []) -> hos !! idx = Some ([], []) ->
  wakers (queue s) !! idx = Some false ->
  exists poll q' hos' qs', poll_merge_next (queue s) idx = Ok (poll, q')
    /\ invariant all (mkSystem q' (<[idx := mkPartition (match poll with
                             | MergeFinished => TakingRun
                             | MergePending => Merging
                             | MergeStarted left_run right_run => MergingRuns left_run right_run
                             end) [] []]> (partitions s))) hos' qs'
    /\ measure (mkSystem q' (<[idx := mkPartition (match poll with
                             | MergeFinished => TakingRun
                             | MergePending => Merging
                             | MergeStarted left_run right_run => MergingRuns left_run right_run
                             end) [] []]> (partitions s))) hos' qs' < measure s hos qs.
Proof.
  intros Hinv Hp Hho Hawake. unfold poll_merge_next. rewrite (is_complete_spec all s hos qs Hinv). unfold mbind, res_bind.
  pose proof (inv_runs _ _ _ _ Hinv) as Hruns. pose proof (taken_late (partitions s)).
  assert (wakers (queue s) !! idx <> Some true) as Hawake' by congruence.
  destruct ((total collecting (partitions s) =? 0) && (total merging_runs (partitions s) =? 0)
    && ((length (runs (queue s)) =? 1) || (length (runs (queue s)) =? 0))) eqn:Hcomplete.
  { apply andb_true_iff in Hcomplete as [[H1%Nat.eqb_eq H2%Nat.eqb_eq]%andb_true_iff H3%orb_true_iff].
    rewrite !Nat.eqb_eq in H3. eexists MergeFinished, _, (<[idx := ([], [])]> hos), qs. split; [done|]. split.
    2: { eapply measure_work; [done|done|]. cbn [work pstate]. lia. }
    step_counts Hp (mkPartition (D:=D) TakingRun [] []). cbn [collecting merging_runs late taken pstate] in *.
    eapply (inv_step all s hos qs idx _ _ _ _ _ [] [] qs Hinv Hp Hho); [constructor|done|apply keeps_top_refl| | | | | |done| |].
    - rewrite (output_insert_same _ _ _ _ _ Hho). apply Hinv.
    - rewrite (inv_collecting _ _ _ _ Hinv). f_equal. lia.
    - rewrite (inv_running _ _ _ _ Hinv). lia.
    - intros. lia.
    - intros. apply (inv_taken _ _ _ _ Hinv). lia.
    - by apply (keep_parked all s hos qs Hinv idx).
    - by apply (keep_active all s hos qs Hinv idx _ Hp). }
  assert (length (runs (queue s)) < 2 ->
    exists q', (w ← store_waker (wakers (queue s)) idx; Ok (MergePending, mkQueue (runs (queue s)) (remaining_collection_count (queue s)) (running_merges (queue s)) w))
        = Ok (@MergePending D, q')
      /\ invariant all (mkSystem q' (<[idx := mkPartition Merging [] []]> (partitions s))) (<[idx := ([], [])]> hos) qs
      /\ measure (mkSystem q' (<[idx := mkPartition Merging [] []]> (partitions s))) (<[idx := ([], [])]> hos) qs < measure s hos qs) as Hpending.
  { intros Hlen. unfold store_waker. rewrite (proj2 (Nat.ltb_lt _ _)) by (by eapply lookup_lt_Some). eexists. split; [done|]. split.
    2: { eapply (measure_awake _ _ _ _ _ _ _ _ _ _ false true); [done|done|done|done|done|]. cbn. lia. }
    step_counts Hp (mkPartition (D:=D) Merging [] []).
    eapply (inv_step all s hos qs idx _ _ _ _ _ [] [] qs Hinv Hp Hho);
      cbn [runs remaining_collection_count running_merges wakers]; [constructor|done|apply keeps_top_refl| | | | | |by rewrite length_insert| |].
    - rewrite (output_insert_same _ _ _ _ _ Hho). apply Hinv.
    - rewrite (inv_collecting _ _ _ _ Hinv). f_equal. lia.
    - rewrite (inv_running _ _ _ _ Hinv). lia.
    - intros. destruct (inv_late _ _ _ _ Hinv); lia.
    - intros. apply (inv_taken _ _ _ _ Hinv). lia.
    - intros i Hi. destruct (decide (i = idx)) as [->|Hne].
      + eexists. rewrite list_lookup_insert_eq by (by eapply lookup_lt_Some). done.
      + rewrite list_lookup_insert_ne in Hi by done. by apply (keep_parked all s hos qs Hinv idx).
    - intros _. assert (0 < total collecting (partitions s) \/ 0 < total merging_runs (partitions s)) as Hbusy.
      { destruct (Nat.eqb_spec (total collecting (partitions s)) 0), (Nat.eqb_spec (total merging_runs (partitions s)) 0); try lia.
        destruct (Nat.eqb_spec (length (runs (queue s))) 1), (Nat.eqb_spec (length (runs (queue s))) 0); try done. lia. }
      assert (exists j p, partitions s !! j = Some p /\ pstate p <> Merging /\ active (queue s) j p) as (j & p & Hj & Hm & Hact).
      { destruct Hbusy as [Hb|Hb]; apply total_pos in Hb as (j & p & Hj & Hf); exists j, p; unfold collecting, merging_runs, active in *; by destruct (pstate p); try lia. }
      exists j, p. rewrite list_lookup_insert_ne by (intros ->; rewrite Hp in Hj; by injection Hj as <-).
      split; [done|]. unfold active in *. by destruct (pstate p). }
  destruct (runs (queue s)) as [|l [|r rest]] eqn:Hq.
  - destruct Hpending as (q' & Heq & Hi & Hm); [simpl; lia|]. eexists MergePending, q', _, qs. split; [exact Heq|]. split; [exact Hi|exact Hm].
  - destruct Hpending as (q' & Heq & Hi & Hm); [simpl; lia|]. eexists MergePending, q', _, qs. split; [exact Heq|]. split; [exact Hi|exact Hm].
  - apply Forall2_cons_inv_l in Hruns as (rl & qs1 & Hrl & (rr & qs2 & Hrr & Hrest & ->)%Forall2_cons_inv_l & ->).
    eexists (MergeStarted l r), _, (<[idx := (payload <$> rl ++ rr, [])]> hos), qs2. split; [done|]. split.
    2: { eapply (measure_awake _ _ _ _ _ _ _ _ _ _ false false); [done|done|done| | |cbn; lia].
         - cbn [wakers]. by rewrite list_insert_id.
         - cbn [work pstate fst]. unfold queue_work. cbn [concat length]. rewrite length_fmap, !length_app. lia. }
    step_counts Hp (mkPartition (MergingRuns l r) [] []). cbn [collecting merging_runs late taken pstate] in *.
    pose proof (inv_late _ _ _ _ Hinv) as Hlate. rewrite Hq in Hlate. cbn [length] in Hlate.
    eapply (inv_step all s hos _ idx _ _ _ _ _ (payload <$> rl ++ rr) [] qs2 Hinv Hp Hho);
      cbn [runs remaining_collection_count running_merges wakers]; [by constructor|done| | | | | | |done| |].
    + match goal with |- top ?x ?y => enough (x ≡ₚ y) as -> end; [apply keeps_top_refl|]. cbn [concat]. rewrite !fmap_app. solve_Permutation.
    + rewrite (output_insert_same _ _ _ _ _ Hho). apply Hinv.
    + rewrite (inv_collecting _ _ _ _ Hinv). f_equal. lia.
    + rewrite (inv_running _ _ _ _ Hinv). lia.
    + intros. lia.
    + intros. lia.
    + by apply (keep_parked all s hos _ Hinv idx).
    + by apply (keep_active all s hos _ Hinv idx _ Hp).
Qed.

Lemma step_finish_merge all s hos qs idx l r rl rr :
  invariant all s hos qs -> partitions s !! idx = Some (mkPartition (MergingRuns l r) [] []) -> hos !! idx = Some (payload <$> rl ++ rr, []) ->
  run_holds l rl -> run_holds r rr ->
  exists q' hos' qs', finish_merge layout batch_size limit_hint (queue s) l r = Ok q'
    /\ invariant all (mkSystem q' (<[idx := mkPartition Merging [] []]> (partitions s))) hos' qs'
    /\ measure (mkSystem q' (<[idx := mkPartition Merging [] []]> (partitions s))) hos' qs' < measure s hos qs.
Proof.
  intros Hinv Hp Hho Hl Hr. step_counts Hp (mkPartition (D:=D) Merging [] []). cbn [collecting merging_runs late taken pstate] in *.
  destruct (total merging_runs (partitions s)) as [|n] eqn:Hn; [lia|]. pose proof (taken_late (partitions s)).
  destruct (finish_merge_spec (queue s) n l r rl rr Hl Hr) as (out & rows & Hf & Hout & Htop & Hlen); [by rewrite (inv_running _ _ _ _ Hinv), Hn|].
  eexists _, (<[idx := ([], [])]> hos), (qs ++ [rows]). split; [exact Hf|]. split.
  2: { eapply measure_work; [done|done|]. cbn [work pstate fst]. rewrite queue_work_app. unfold queue_work at 2. cbn [concat length].
       rewrite app_nil_r, length_fmap, length_app. lia. }
  eapply (inv_step all s hos qs idx _ _ _ _ _ [] [] (qs ++ [rows]) Hinv Hp Hho);
    cbn [runs remaining_collection_count running_merges wakers].
  - constructor.
  - apply Forall2_app; [apply Hinv|by repeat constructor].
  - rewrite !app_nil_r, concat_app. cbn [concat]. rewrite app_nil_r, (fmap_app payload (concat qs)). apply keeps_top_app; [apply keeps_top_refl|exact Htop].
  - rewrite (output_insert_same _ _ _ _ _ Hho). apply Hinv.
  - rewrite (inv_collecting _ _ _ _ Hinv). f_equal. lia.
  - lia.
  - intros. destruct (inv_late _ _ _ _ Hinv); lia.
  - intros. destruct (inv_late _ _ _ _ Hinv); lia.
  - unfold wake_all. by rewrite length_fmap.
  - intros i Hi. by apply woken_parked in Hi.
  - intros [i Hi]. by apply woken_parked in Hi.
Qed.

Lemma step_take all s hos qs idx :
  invariant all s hos qs -> partitions s !! idx = Some (mkPartition TakingRun [] []) -> hos !! idx = Some ([], []) ->
  exists run q' st rows hos', take_sorted_run (queue s) = Ok (run, q')
    /\ (match run with Some run => drain_next batch_size (mkSegmentScan 0 0) run | None => Ok (Finished, []) end) = Ok (st, rows)
    /\ invariant all (mkSystem q' (<[idx := mkPartition st [] rows]> (partitions s))) hos' []
    /\ measure (mkSystem q' (<[idx := mkPartition st [] rows]> (partitions s))) hos' [] < measure s hos qs.
Proof.
  intros Hinv Hp Hho. pose proof (total_lookup late _ _ _ Hp) as Hlate. cbn [late pstate] in Hlate.
  destruct (inv_late _ _ _ _ Hinv) as (Hcol & Hrun & Hlen); [lia|]. unfold take_sorted_run.
  rewrite (is_complete_spec all s hos qs Hinv), Hcol, Hrun. unfold mbind, res_bind. pose proof (inv_runs _ _ _ _ Hinv) as Hruns.
  assert (forall st rows h' o', late (mkPartition (D:=D) st [] rows) = 1 -> taken (mkPartition (D:=D) st [] rows) = 1 ->
    holds (mkPartition st [] rows) h' o' -> top ((payload <$> concat qs) ++ []) (h' ++ (payload <$> o')) ->
    row_sorted cols (concat (snd <$> <[idx := (h', o')]> hos)) ->
    invariant all (mkSystem (mkQueue [] (remaining_collection_count (queue s)) (running_merges (queue s)) (wake_all (wakers (queue s))))
      (<[idx := mkPartition st [] rows]> (partitions s))) (<[idx := (h', o')]> hos) []) as Hstep.
  { intros st rows h' o' Hl Ht Hh Htop Hsorted. step_counts Hp (mkPartition (D:=D) st [] rows).
    assert (collecting (mkPartition (D:=D) st [] rows) = 0 /\ merging_runs (mkPartition (D:=D) st [] rows) = 0) as [Hc0 Hm0].
    { unfold collecting, merging_runs, taken in *. cbn [pstate] in *. by destruct st. }
    cbn [collecting merging_runs late taken pstate] in *.
    eapply (inv_step all s hos qs idx _ _ _ _ _ h' o' [] Hinv Hp Hho); cbn [runs remaining_collection_count running_merges wakers]; try done.
    - rewrite (inv_collecting _ _ _ _ Hinv). f_equal. lia.
    - rewrite (inv_running _ _ _ _ Hinv). lia.
    - intros. simpl. lia.
    - unfold wake_all. by rewrite length_fmap.
    - intros i Hi. by apply woken_parked in Hi.
    - intros [i Hi]. by apply woken_parked in Hi. }
  destruct (runs (queue s)) as [|run rest] eqn:Hq.
  - apply Forall2_nil_inv_l in Hruns as ->. cbn [length Nat.eqb andb orb head tail]. eexists None, _, Finished, [], (<[idx := ([], [])]> hos). split; [done|]. split; [done|]. split.
    2: { eapply measure_work; [done|done|]. cbn [work pstate]. lia. }
    apply (Hstep Finished [] [] []); try done.
    + apply (holds_finished []). split; [constructor|done].
    + apply keeps_top_refl.
    + rewrite (output_insert_same _ _ _ _ _ Hho). apply Hinv.
  - destruct rest; [|simpl in Hlen; lia]. apply Forall2_cons_inv_l in Hruns as (rows & ? & (blocks & Hrep & <- & Hs) & ->%Forall2_nil_inv_l & ->).
    cbn [length Nat.eqb andb orb head tail]. destruct (drain_next_spec (mkSegmentScan 0 0) run blocks []) as (st & out & Hd & Hh & Hst & _); [done|done| |].
    { unfold segment_rest, scan_rest. destruct blocks; [done|]. cbn. by rewrite !drop_0. }
    eexists (Some run), _, st, _, (<[idx := ([], concat blocks)]> hos). split; [done|]. split; [exact Hd|]. split.
    2: { eapply measure_work; [done|done|]. destruct Hst as [->|[s' ->]]; cbn [work pstate snd emitted]; unfold queue_work; cbn [concat length]; rewrite app_nil_r; lia. }
    assert (taken (mkPartition (D:=D) st [] (row_data <$> out)) = 1 /\ late (mkPartition (D:=D) st [] (row_data <$> out)) = 1) as [Ht Hl].
    { destruct Hst as [->|[s' ->]]; done. }
    apply (Hstep st (row_data <$> out) [] (concat blocks) Hl Ht Hh).
    + cbn [concat app]. rewrite !app_nil_r. apply keeps_top_refl.
    + assert (total taken (partitions s) = 0) as Hz.
      { destruct (total taken (partitions s)) eqn:Hz; [done|]. pose proof (inv_taken _ _ _ _ Hinv ltac:(lia)). congruence. }
      assert (concat (snd <$> <[idx := ([], concat blocks)]> hos) = concat blocks) as ->; [|apply Hs].
      pose proof (no_output all s hos _ Hinv Hz) as Hno. clear -Hno Hho. revert idx Hho. induction hos as [|ho hos IH]; intros [|idx] Hho; simplify_eq/=.
      * assert (concat (snd <$> hos) = []) as ->; [|by rewrite app_nil_r]. assert (forall ho, ho ∈ hos -> ho.2 = []) as Hno' by (intros; apply Hno; by right).
        clear -Hno'. induction hos as [|ho hos IH]; [done|]. cbn. rewrite (Hno' ho) by left. apply IH. intros; apply Hno'; by right.
      * rewrite (Hno ho) by left. cbn. apply IH; [intros; apply Hno; by right|done].
Qed.

Lemma step_drain all s hos qs idx st0 run blocks em :
  invariant all s hos qs -> partitions s !! idx = Some (mkPartition (Draining st0 run) [] (row_data <$> em)) -> hos !! idx = Some ([], concat blocks) ->
  represents cols blocks run -> sorted_run cols (concat blocks) -> concat blocks = em ++ segment_rest blocks st0 ->
  exists st rows hos', drain_next batch_size st0 run = Ok (st, rows)
    /\ invariant all (mkSystem (queue s) (<[idx := mkPartition st [] ((row_data <$> em) ++ rows)]> (partitions s))) hos' qs
    /\ measure (mkSystem (queue s) (<[idx := mkPartition st [] ((row_data <$> em) ++ rows)]> (partitions s))) hos' qs < measure s hos qs.
Proof.
  intros Hinv Hp Hho Hrep Hs Hem. destruct (drain_next_spec st0 run blocks em Hrep Hs Hem) as (st & out & Hd & Hh & Hst & Hout & Hlen).
  rewrite fmap_app in Hh. eexists st, _, (<[idx := ([], concat blocks)]> hos). split; [exact Hd|]. split.
  2: { eapply measure_work; [done|done|]. destruct Hst as [->|[s' ->]]; cbn [work pstate snd emitted]; [lia|].
       specialize (Hout ltac:(done)). rewrite length_app, !length_fmap. destruct out; [done|]. cbn [length] in *. lia. } set (p' := mkPartition st [] ((row_data <$> em) ++ (row_data <$> out))) in *.
  assert (collecting p' = 0 /\ merging_runs p' = 0 /\ late p' = 1 /\ taken p' = 1) as (Hc0 & Hm0 & Hl & Ht).
  { destruct Hst as [Hst|[s' Hst]]; unfold collecting, merging_runs, late, taken, p'; cbn [pstate]; by rewrite Hst. }
  step_counts Hp p'. cbn [collecting merging_runs late taken pstate] in *.
  eapply (inv_step all s hos qs idx _ _ _ _ _ [] (concat blocks) qs Hinv Hp Hho); [done|apply Hinv|apply keeps_top_refl| | | | | |done| |].
  - rewrite (output_insert_same _ _ _ _ _ Hho). apply Hinv.
  - rewrite (inv_collecting _ _ _ _ Hinv). f_equal. lia.
  - rewrite (inv_running _ _ _ _ Hinv). lia.
  - intros. destruct (inv_late _ _ _ _ Hinv); lia.
  - intros. apply (inv_taken _ _ _ _ Hinv). lia.
  - apply (keep_parked all s hos qs Hinv idx). by rewrite (not_parked all s hos qs Hinv idx _ Hp ltac:(done)).
  - apply (keep_active all s hos qs Hinv idx _ Hp); [done|]. intros [].
Qed.

(** No step fails, and each keeps the invariant. *)
Lemma step_invariant all s hos qs idx r :
  invariant all s hos qs -> system_step layout batch_size data_heap_size limit_hint idx s = Some r ->
  exists s' hos' qs', r = Ok s' /\ invariant all s' hos' qs' /\ measure s' hos' qs' < measure s hos qs.
Proof.
  intros Hinv. unfold system_step. destruct (partitions s !! idx) as [p|] eqn:Hp; [|done].
  destruct (Forall2_lookup_l _ _ _ _ _ (inv_parts _ _ _ _ Hinv) Hp) as ([h o] & Hho & Hh). cbn [fst snd] in Hh.
  cbn [mbind option_bind]. unfold partition_step.
  destruct Hh as [c bs unsorted rs Hc Hin Hlen| |l r0 rl rr Hl Hr| |st run blocks em Hrep Hs Hem Hne|out Hs]; cbn [pstate input emitted].
  - destruct bs as [|b bs].
    + destruct (step_finalize all s hos qs idx c unsorted rs) as (q' & hos' & qs' & -> & Hi & Hm); [done..|]. intros [= <-]. eauto 10.
    + destruct (step_collect all s hos qs idx c b bs unsorted rs) as (c' & hos' & -> & Hi & Hm); [done..|]. intros [= <-]. eauto 10.
  - destruct (default false (wakers (queue s) !! idx)) eqn:Hw; [done|].
    assert (wakers (queue s) !! idx = Some false) as Hw'.
    { destruct (lookup_lt_is_Some_2 (wakers (queue s)) idx) as [b Hb]; [rewrite (inv_wakers _ _ _ _ Hinv); by eapply lookup_lt_Some|].
      rewrite Hb in Hw |- *. cbn in Hw. by rewrite Hw. }
    destruct (step_poll_merge all s hos qs idx) as (poll & q' & hos' & qs' & -> & Hi & Hm); [done..|]. intros [= <-]. eauto 10.
  - destruct (step_finish_merge all s hos qs idx l r0 rl rr) as (q' & hos' & qs' & -> & Hi & Hm); [done..|]. intros [= <-]. eauto 10.
  - destruct (step_take all s hos qs idx) as (run & q' & st & rows & hos' & -> & Hd & Hi & Hm); [done..|].
    unfold mbind, res_bind. rewrite Hd. intros [= <-]. eauto 10.
  - destruct (step_drain all s hos qs idx st run blocks em) as (st' & rows & hos' & -> & Hi & Hm); [done..|]. intros [= <-]. eauto 10.
  - done.
Qed.

(** *** The start, the end and in between *)

(** Inputs a sort can be started on: well-formed key arrays of at most [2 ^ 32]
    rows per partition, whose strings fit in a heap block, on a number of
    partitions the session allows. *)
Record sort_input (inputs : list (list (InputBatch D))) : Prop := {
  input_partitions : MIN_PARTITION_COUNT <= length inputs <= MAX_PARTITION_COUNT;
  input_batches : Forall (Forall input_ok) inputs;
  input_lengths : Forall (fun bs => (Z.of_nat (length (input_rows bs)) <= 2 ^ 32)%Z) inputs;
}.

Definition all_rows (inputs : list (list (InputBatch D))) : list rows_t := concat (input_rows <$> inputs).

(** An upper bound on the work. *)
Definition step_bound (inputs : list (list (InputBatch D))) : nat :=
  S (length inputs) * sum_list ((fun bs => 5 + 2 * length bs + length (input_rows bs)) <$> inputs).

Lemma create_invariant inputs : sort_input inputs ->
  exists s0 hos, create inputs = Ok s0 /\ invariant (all_rows inputs) s0 hos [] /\ measure s0 hos [] <= step_bound inputs
    /\ length (partitions s0) = length inputs.
Proof.
  intros [[Hmin Hmax] Hin Hlen]. unfold create, prepare_for_partitions, new_queue. cbn [remaining_collection_count count_set].
  unfold validate_partitions. rewrite (proj2 (Nat.ltb_ge _ _) Hmin), (proj2 (Nat.ltb_ge _ _) Hmax). unfold init_for_partitions.
  cbn [wakers length Nat.eqb rust_assert runs running_merges]. unfold MIN_PARTITION_COUNT in Hmin.
  rewrite (proj2 (Nat.eqb_neq (length inputs) 0)) by lia. unfold mbind, res_bind. cbn [unwrap_ok negb rust_assert].
  set (start := fun bs : list (InputBatch D) => mkPartition (Collecting new_collection) bs []).
  assert (forall f n, (forall bs, f (start bs) = n) -> total f (start <$> inputs) = n * length inputs) as Htotal.
  { intros f n Hf. unfold total. clear -Hf. induction inputs as [|bs inputs IH]; [simpl; lia|]. cbn [fmap list_fmap sum_list sum_list_with foldr] in *.
    simpl. rewrite Hf. rewrite Nat.mul_succ_r, <- IH. unfold sum_list. simpl. lia. }
  eexists _, ((fun bs => (input_rows bs, [])) <$> inputs). split; [done|].
  assert (forall xs : list (list (InputBatch D)), (fst <$> ((fun bs => (input_rows bs, @nil (Row D))) <$> xs)) = input_rows <$> xs
    /\ concat (snd <$> ((fun bs => (input_rows bs, @nil (Row D))) <$> xs)) = []) as Hproj.
  { intros xs. induction xs as [|x xs [IH1 IH2]]; [done|]. cbn. split; [f_equal; exact IH1|exact IH2]. }
  destruct (Hproj inputs) as [Hfst Hsnd]. split_and!.
  - split; cbn [queue partitions runs remaining_collection_count running_merges wakers].
    + constructor.
    + apply Forall2_fmap, Forall_Forall2_diag, Forall_forall. intros bs Hbs. cbn [fst snd].
      rewrite Forall_forall in Hin, Hlen. pose proof (holds_collecting new_collection bs [] []) as Hc. cbn in Hc.
      apply Hc; [apply new_holds|by apply Hin|by apply Hlen].
    + rewrite Hfst, Hsnd. cbn. rewrite app_nil_r. apply keeps_top_refl.
    + rewrite Hsnd. constructor.
    + f_equal. rewrite (Htotal collecting 1) by done. lia.
    + by rewrite (Htotal merging_runs 0) by done.
    + rewrite (Htotal late 0) by done. lia.
    + by rewrite (Htotal taken 0) by done.
    + by rewrite length_replicate, length_fmap.
    + intros i Hi%lookup_replicate_1. by destruct Hi.
    + intros [i Hi%lookup_replicate_1]. by destruct Hi.
  - unfold measure, step_bound. cbn [partitions queue wakers]. rewrite length_fmap.
    assert (forall (xs : list (list (InputBatch D))) n, sum_list (zip_with work (start <$> xs) ((fun bs => (input_rows bs, @nil (Row D))) <$> xs))
      = sum_list ((fun bs => 5 + 2 * length bs + length (input_rows bs)) <$> xs) /\ sum_list (zip_with awake (start <$> xs) (replicate n false)) = 0) as Hsum.
    { assert (forall a l, sum_list (a :: l) = a + sum_list l) as Hcons by done. induction xs as [|x xs IH]; intros n; [done|]. split.
      - destruct (IH 0) as [IH1 _]. rewrite !fmap_cons. cbn [zip_with]. rewrite !Hcons, IH1.
        unfold work, start. cbn [pstate input sorted new_collection length fst]. lia.
      - destruct n as [|n]; [done|]. destruct (IH n) as [_ IH2]. cbn [fmap list_fmap zip_with replicate]. exact IH2. }
    destruct (Hsum inputs (length inputs)) as [-> ->]. unfold queue_work. cbn [length concat]. lia.
  - cbn [partitions]. by rewrite length_fmap.
Qed.

(** A system that is not finished can take a step. *)
Lemma invariant_progress all s hos qs :
  invariant all s hos qs -> finished s \/ exists idx r, system_step layout batch_size data_heap_size limit_hint idx s = Some r.
Proof.
  intros Hinv. destruct (decide (Forall (fun p => taken p = 1 /\ match pstate p with Finished => true | _ => false end = true) (partitions s))) as [Hf|Hf].
  { left. eapply Forall_impl; [exact Hf|]. intros p [_ Hp]. by destruct (pstate p). }
  right. apply not_Forall_Exists, Exists_exists in Hf as (p & [idx Hp]%list_elem_of_lookup_1 & Hnf); [|apply _].
  assert (forall j p', partitions s !! j = Some p' -> active (queue s) j p' -> exists r, system_step layout batch_size data_heap_size limit_hint j s = Some r) as Hactive.
  { intros j p' Hj Ha. unfold system_step. rewrite Hj. cbn [mbind option_bind]. unfold partition_step, active in *.
    destruct (pstate p'); try done; cbn [mbind option_bind]; [destruct (input p'); eauto|rewrite Ha; cbn; eauto|eauto|eauto]. }
  destruct (pstate p) eqn:Hst; [| | | |exists idx; unfold system_step; rewrite Hp; cbn [mbind option_bind]; unfold partition_step; rewrite Hst; cbn; eauto|].
  - exists idx. apply (Hactive idx p Hp). unfold active. by rewrite Hst.
  - destruct (default false (wakers (queue s) !! idx)) eqn:Hw.
    + destruct (wakers (queue s) !! idx) as [b|] eqn:Hb; [|done]. cbn in Hw. subst b.
      destruct (inv_active _ _ _ _ Hinv ltac:(by exists idx)) as (j & p' & Hj & Ha). exists j. by apply (Hactive j p').
    + exists idx. unfold system_step. rewrite Hp. cbn [mbind option_bind]. unfold partition_step. rewrite Hst, Hw. cbn. eauto.
  - exists idx. apply (Hactive idx p Hp). unfold active. by rewrite Hst.
  - exists idx. apply (Hactive idx p Hp). unfold active. by rewrite Hst.
  - exfalso. apply Hnf. unfold taken. by rewrite Hst.
Qed.

(** When all partitions are finished, the output is in order. *)
Lemma invariant_finished all s hos qs :
  invariant all s hos qs -> finished s -> partitions s <> [] ->
  exists out, row_sorted cols out /\ concat (emitted <$> partitions s) = (row_data <$> out) /\ top all (payload <$> out).
Proof.
  intros Hinv Hfin Hne. unfold finished in Hfin. exists (concat (snd <$> hos)). split; [apply Hinv|].
  assert (0 < total taken (partitions s)) as Htaken.
  { destruct (partitions s) as [|p ps]; [done|]. apply Forall_cons in Hfin as [Hp _]. unfold total. cbn. unfold taken at 1. rewrite Hp. lia. }
  assert (qs = []) as ->. { pose proof (inv_runs _ _ _ _ Hinv) as Hr. rewrite (inv_taken _ _ _ _ Hinv Htaken) in Hr. by apply Forall2_nil_inv_l in Hr. }
  pose proof (inv_rows _ _ _ _ Hinv) as Htop. cbn [concat fmap list_fmap app] in Htop.
  assert (concat (emitted <$> partitions s) = row_data <$> concat (snd <$> hos) /\ concat (fst <$> hos) = []) as [Hem Hnil].
  { pose proof (inv_parts _ _ _ _ Hinv) as Hparts. clear -Hparts Hfin. revert Hfin.
    induction Hparts as [|p ho ps hos Hh _ IH]; intros Hfin; [done|]. apply Forall_cons in Hfin as [Hp Hfin]. destruct (IH Hfin) as [IH1 IH2].
    destruct ho as [h o]. cbn [fst snd] in Hh. destruct Hh as [| | | | |out Hs]; try done.
    cbn [fmap list_fmap concat fst snd emitted]. rewrite fmap_app. split; [f_equal; exact IH1|exact IH2]. }
  split; [done|]. by rewrite Hnil in Htop.
Qed.

End Invariant.

(** ** Properties *)

Section Theorems.
Context {D : Type} `{SliceSort}.
Variable cols : list SortColumn.
Variable batch_size : nat.
Variable data_heap_size : D -> nat.
Variable limit_hint : option nat.

Local Abbreviation steps := (rtc (step (try_new cols) batch_size data_heap_size limit_hint)).

Lemma reachable_invariant all s0 s hos qs :
  0 < batch_size -> invariant cols data_heap_size limit_hint all s0 hos qs -> steps s0 s ->
  exists hos' qs', invariant cols data_heap_size limit_hint all s hos' qs' /\ length (partitions s) = length (partitions s0).
Proof.
  intros Hb Hinv Hsteps. revert hos qs Hinv. induction Hsteps as [s|s1 s2 s3 Hstep _ IH]; intros hos qs Hinv; [eauto|].
  destruct Hstep as [idx s1 s2 Hstep].
  destruct (step_invariant cols batch_size data_heap_size limit_hint Hb all s1 hos qs idx _ Hinv Hstep) as (s' & hos' & qs' & [= <-] & Hinv' & _).
  destruct (IH hos' qs' Hinv') as (hos2 & qs2 & H2 & Hl). exists hos2, qs2. split; [done|]. rewrite Hl.
  unfold system_step in Hstep. destruct (partitions s1 !! idx) as [p|]; [|done]. cbn [mbind option_bind] in Hstep.
  destruct (partition_step _ _ _ _ idx (queue s1) p) as [r|]; [|done]. cbn [mbind option_bind] in Hstep. destruct r as [[q' p']| |]; try done.
  cbn in Hstep. injection Hstep as <-. cbn [partitions]. apply length_insert.
Qed.

Lemma all_rows_typed inputs : sort_input cols data_heap_size inputs ->
  Forall (fun x : list (option value) * D => Forall2 (fun c v => typed_opt (phys_type c) v) cols x.1) (all_rows inputs).
Proof.
  intros Hin. unfold all_rows. apply Forall_concat, Forall_fmap. eapply Forall_impl; [exact (input_batches _ _ _ Hin)|]. intros bs Hbs.
  apply Forall_concat, Forall_fmap. eapply Forall_impl; [exact Hbs|]. intros b Hb. by apply (batch_rows_typed cols data_heap_size (input_fresh b)).
Qed.

(** C7. However the partitions of a global sort by columns of any types but
    booleans and 64-bit floats are scheduled, when all are finished their outputs
    together are in the order of SQL over the ORDER BY list and are the input rows
    of all partitions; with a limit hint, rows may be missing, but then there are
    at least as many rows as the limit, and none of that many first rows is
    greater than a missing one. *)
Theorem global_sort_correct inputs :
  keys_ordered cols -> 0 < batch_size -> sort_input cols data_heap_size inputs ->
  exists s0, create inputs = Ok s0 /\ forall s, steps s0 s -> finished s ->
    exists out dropped, StronglySorted (fun x y => sql_row_order cols (row_vals x) (row_vals y) <> Gt) out
      /\ concat (emitted <$> partitions s) = (row_data <$> out)
      /\ (payload <$> out) ++ dropped ≡ₚ all_rows inputs
      /\ (limit_hint = None -> dropped = [])
      /\ (forall limit d, limit_hint = Some limit -> d ∈ dropped -> limit <= length out /\
            forall a, a ∈ take limit out -> sql_row_order cols (row_vals a) d.1 <> Gt).
Proof.
  intros Hk Hb Hin. destruct (create_invariant cols batch_size data_heap_size limit_hint Hb inputs Hin) as (s0 & hos & Hc & Hinv & _ & Hlen).
  exists s0. split; [done|]. intros s Hsteps Hfin. destruct (reachable_invariant _ s0 s hos [] Hb Hinv Hsteps) as (hos' & qs' & Hinv' & Hl).
  destruct (invariant_finished cols batch_size data_heap_size limit_hint Hb _ s hos' qs' Hinv' Hfin) as (out & Hsorted & Hem & dropped & Hp & Hd).
  { intros Hnil. apply (f_equal length) in Hnil. pose proof (proj1 (input_partitions _ _ _ Hin)) as Hmin. unfold MIN_PARTITION_COUNT in Hmin. simpl in Hnil. lia. }
  pose proof (all_rows_typed inputs Hin) as Ht. rewrite <- Hp in Ht. apply Forall_app in Ht as [Ho Hdr]. rewrite Forall_fmap in Ho.
  exists out, dropped. split_and!; [exact (sql_sorted cols row_vals out Hk Ho Hsorted)|done..| |].
  - intros Hnone. destruct dropped as [|d dropped]; [done|]. destruct (Hd d) as (limit & Hlimit & _); [left|congruence].
  - intros limit d Hlimit Hdd. destruct (Hd d Hdd) as (limit' & Hlimit' & Hdom). assert (limit' = limit) as -> by congruence.
    pose proof Hdom as (sub & Hsub & Hls & _). apply submseteq_length in Hsub. rewrite length_fmap in Hsub. split; [lia|].
    intros a [i Hi]%list_elem_of_lookup_1. apply lookup_take_Some in Hi as [Hi Hlt]. rewrite Forall_forall in Hdr. rewrite Forall_lookup in Ho.
    rewrite sql_row_order_key; [|done|exact (Ho i a Hi)|exact (Hdr d Hdd)].
    apply (dominated_sorted (payload_cmp (D:=D) cols) limit (payload <$> out) d (payload a) i); [|done|done|by rewrite list_lookup_fmap, Hi].
    eapply strongly_sorted_fmap; [|exact Hsorted]. done.
Qed.

(** C8. A global sort never gets stuck: in every reachable state no partition's
    step fails (no assertion, error or out-of-range access; in particular the
    run is never taken before merging is complete), and unless all partitions
    are finished some partition can take a step, so no wakeup is lost. *)
Theorem global_sort_progress inputs :
  0 < batch_size -> sort_input cols data_heap_size inputs ->
  exists s0, create inputs = Ok s0 /\ forall s, steps s0 s ->
    (forall idx r, system_step (try_new cols) batch_size data_heap_size limit_hint idx s = Some r -> is_ok r = true)
    /\ (finished s \/ exists s', step (try_new cols) batch_size data_heap_size limit_hint s s').
Proof.
  intros Hb Hin. destruct (create_invariant cols batch_size data_heap_size limit_hint Hb inputs Hin) as (s0 & hos & Hc & Hinv & _ & _).
  exists s0. split; [done|]. intros s Hsteps. destruct (reachable_invariant _ s0 s hos [] Hb Hinv Hsteps) as (hos' & qs' & Hinv' & _).
  split.
  - intros idx r Hr. destruct (step_invariant _ _ _ _ Hb _ _ _ _ _ _ Hinv' Hr) as (s' & ? & ? & -> & _). done.
  - destruct (invariant_progress cols batch_size data_heap_size limit_hint _ s hos' qs' Hinv') as [Hf|(idx & r & Hr)]; [by left|right].
    destruct (step_invariant _ _ _ _ Hb _ _ _ _ _ _ Hinv' Hr) as (s' & ? & ? & -> & _). exists s'. by apply (step_partition _ _ _ _ idx).
Qed.

(** C9. A global sort terminates: no schedule has more steps than a bound that
    depends on the inputs alone, waiting and waking up included. *)
Theorem global_sort_terminates inputs :
  0 < batch_size -> sort_input cols data_heap_size inputs ->
  exists s0, create inputs = Ok s0 /\
    forall n s, nsteps (step (try_new cols) batch_size data_heap_size limit_hint) n s0 s -> n <= step_bound inputs.
Proof.
  intros Hb Hin. destruct (create_invariant cols batch_size data_heap_size limit_hint Hb inputs Hin) as (s0 & hos & Hc & Hinv & Hm & _).
  exists s0. split; [done|]. intros n s Hsteps. etransitivity; [|exact Hm]. clear Hm Hc. revert hos Hinv. generalize (@nil (list (Row D))).
  induction Hsteps as [s|n s1 s2 s3 Hstep _ IH]; intros qs hos Hinv; [lia|]. destruct Hstep as [idx s1 s2 Hstep].
  destruct (step_invariant _ _ _ _ Hb _ _ _ _ _ _ Hinv Hstep) as (s' & hos' & qs' & [= <-] & Hinv' & Hlt).
  specialize (IH qs' hos' Hinv'). lia.
Qed.

End Theorems.

(** *** Examples *)

(** Two partitions sort three integers. *)
Definition one_int : list SortColumn := [mkColumn false true Int32].
Definition int_batch (ks : list Z) (ds : list nat) : InputBatch nat :=
  mkInput (replicate (length ds) (replicate 9 0%Z))
    [mkArray Int32 (Validity.AllValid (length ks)) (Leaf Unique (VInt <$> ks))] ds.
Definition two_inputs : list (list (InputBatch nat)) := [[int_batch [3; 1]%Z [30; 10]]; [int_batch [2]%Z [20]]].
Definition no_heap (d : nat) : nat := 0.

(** A schedule: the partition to step, one after the other. *)
Fixpoint run_schedule (limit_hint : option nat) (schedule : list nat) (s : @System nat) : option System :=
  match schedule with
  | [] => Some s
  | idx :: rest =>
      match system_step (try_new one_int) 2 no_heap limit_hint idx s with
      | Some (Ok s') => run_schedule limit_hint rest s'
      | _ => None
      end
  end.

Lemma run_schedule_steps limit_hint schedule s s' :
  run_schedule limit_hint schedule s = Some s' -> rtc (step (try_new one_int) 2 no_heap limit_hint) s s'.
Proof.
  revert s. induction schedule as [|idx rest IH]; intros s; cbn [run_schedule]; [by intros [= ->]|].
  destruct (system_step (try_new one_int) 2 no_heap limit_hint idx s) as [[s1| |]|] eqn:Hs; try done. intros Hr.
  eapply rtc_l; [by apply (step_partition _ _ _ _ idx)|by apply IH].
Qed.

Lemma two_inputs_ok : sort_input one_int no_heap two_inputs.
Proof.
  split.
  - unfold MIN_PARTITION_COUNT, MAX_PARTITION_COUNT. simpl. lia.
  - repeat constructor; simpl; try lia; try done.
    + intros [|[|i]] Hi; vm_compute; try lia; split; done.
    + intros [|i] Hi; vm_compute; try lia; split; done.
  - repeat constructor; vm_compute; done.
Qed.

Definition example_schedule : list nat := [0; 0; 0; 1; 1; 1; 1; 1; 1; 1; 1; 0; 0].

Lemma global_sort_correct_witness :
  exists s0 s, create two_inputs = Ok s0 /\ rtc (step (try_new one_int) 2 no_heap None) s0 s /\ finished s
    /\ concat (emitted <$> partitions s) = [10; 20; 30]
    /\ exists out, StronglySorted (fun x y => sql_row_order one_int (row_vals x) (row_vals y) <> Gt) out /\ row_data <$> out = [10; 20; 30].
Proof.
  destruct (global_sort_correct one_int 2 no_heap None two_inputs ltac:(by repeat constructor) ltac:(lia) two_inputs_ok) as (s0 & Hc & Hs).
  assert (exists s, run_schedule None example_schedule s0 = Some s /\ finished s /\ concat (emitted <$> partitions s) = [10; 20; 30]) as (s & Hr & Hf & He).
  { vm_compute in Hc. injection Hc as <-. eexists. split; [vm_compute; reflexivity|]. split; [|vm_compute; reflexivity]. repeat constructor. }
  apply run_schedule_steps in Hr. destruct (Hs s Hr Hf) as (out & dropped & Hsorted & Hem & _).
  exists s0, s. split; [exact Hc|]. split; [exact Hr|]. split; [exact Hf|]. split; [exact He|]. exists out. split; [exact Hsorted|]. by rewrite <- Hem.
Defined.

Lemma global_sort_progress_witness :
  exists s0, create two_inputs = Ok s0 /\ forall s, rtc (step (try_new one_int) 2 no_heap (Some 1)) s0 s ->
    finished s \/ exists s', step (try_new one_int) 2 no_heap (Some 1) s s'.
Proof.
  destruct (global_sort_progress one_int 2 no_heap (Some 1) two_inputs ltac:(lia) two_inputs_ok) as (s0 & Hc & Hs).
  exists s0. split; [exact Hc|]. intros s Hr. apply (Hs s Hr).
Defined.

Lemma global_sort_terminates_witness :
  exists s0, create two_inputs = Ok s0 /\
    forall n s, nsteps (step (try_new one_int) 2 no_heap None) n s0 s -> n <= 51.
Proof. apply (global_sort_terminates one_int 2 no_heap None two_inputs ltac:(lia) two_inputs_ok). Defined.
