(* ===== verification/AggHashTable.v ===== *)
(** * The aggregate hash table

    Models [execution/operators/hash_aggregate/hash_table/base.rs] (finding and
    creating groups, inserting batches, merging tables), the collection of
    groups and states of [arrays/row/aggregate_collection.rs], the update and
    combination of states of [arrays/row/aggregate_layout.rs] and the group
    matcher of [arrays/row/row_matcher.rs].

    A column is the list of its logical rows.  A row pointer is the position of
    the row in the collection.  Aggregate functions are records of their
    operations on states. *)
From S2P Require Import Prelude HashDirectory.

Section AggHashTable.
Context {V St : Type} `{EqDecision V}.

(** [PhysicalAggregateExpression]: how many input columns the function takes,
    and its state functions ([call_new_aggregate_state], [call_update],
    [call_combine] and [call_finalize], per state), which do not fail. *)
Record Aggregate : Type := mkAggregate {
  num_columns : nat;
  new_aggregate_state : St;
  update : St -> list (option V) -> St;
  combine : St -> St -> St;
  finalize : St -> option V;
}.

(** A row of the collection: group values, hash column, aggregate states. *)
Record GroupRow : Type := mkRow {
  group : list (option V);
  row_hash : Z;
  states : list St;
}.

(** [BaseHashTable]; the layout is the list of its aggregates. *)
Record BaseHashTable : Type := mkTable {
  aggregates : list Aggregate;
  directory : Directory;
  data : list GroupRow;
  row_capacity : nat;
}.

(** [BaseHashTable::try_new], for a layout with at least the hash column. *)
Definition try_new_table (aggs : list Aggregate) (row_cap : nat) : BaseHashTable :=
  mkTable aggs (try_with_capacity DEFAULT_CAPACITY) [] row_cap.

(** ** The group matcher *)

(** [IsNotDistinctFromOperation::compare_nullable] *)
Definition compare_nullable (left right : option V) : bool :=
  match left, right with
  | Some l, Some r => bool_decide (l = r)
  | None, None => true
  | _, _ => false
  end.

(** The loop of [compute_matches]: the selection after, and [not_matched]
    extended with the rows that fail the test of the column. *)
Fixpoint compute_matches (test : nat -> res bool) (selection not_matched : list nat) : res (list nat * list nat) :=
  match selection with
  | [] => Ok ([], not_matched)
  | sel_idx :: rest =>
      b ← test sel_idx;
      '(matched, not_matched') ← compute_matches test rest (if b then not_matched else not_matched ++ [sel_idx]);
      Ok (if b : bool then sel_idx :: matched else matched, not_matched')
  end.

(** Reading the row a pointer leads to; null and dangling pointers lead
    nowhere. *)
Definition deref (rows : list GroupRow) (p : option RowPtr) : res GroupRow :=
  match p with
  | Some (RowAt i) => index rows i
  | _ => Panic "invalid row pointer"
  end.

Definition test_column (rows : list GroupRow) (lhs_rows : list (option RowPtr)) (lhs_column : nat)
    (rhs_column : list (option V)) (sel_idx : nat) : res bool :=
  p ← index lhs_rows sel_idx;
  row ← deref rows p;
  lhs ← index (group row) lhs_column;
  rhs ← index rhs_column sel_idx;
  Ok (compare_nullable lhs rhs).

Definition test_hash (rows : list GroupRow) (lhs_rows : list (option RowPtr)) (hashes : list Z) (sel_idx : nat) : res bool :=
  p ← index lhs_rows sel_idx;
  row ← deref rows p;
  rhs ← index hashes sel_idx;
  Ok (row_hash row =? rhs)%Z.

(** [PredicateRowMatcher::find_matches] over the group columns and, last, the
    hash column. *)
Fixpoint find_matches (rows : list GroupRow) (lhs_rows : list (option RowPtr)) (lhs_column : nat)
    (rhs_columns : list (list (option V))) (hashes : list Z) (selection not_matched : list nat) :
    res (list nat * list nat) :=
  match rhs_columns with
  | [] => compute_matches (test_hash rows lhs_rows hashes) selection not_matched
  | col :: cols =>
      '(selection', not_matched') ← compute_matches (test_column rows lhs_rows lhs_column col) selection not_matched;
      find_matches rows lhs_rows (S lhs_column) cols hashes selection' not_matched'
  end.

(** ** Appending groups *)

(** [AggregateCollection::append_groups]: the collection after; the pointers of
    the new rows are the positions from the old length on. *)
Definition append_groups (aggs : list Aggregate) (rows : list GroupRow) (groups : list (list (option V)))
    (hashes : list Z) (new_rows : list nat) : res (list GroupRow) :=
  appended ← collect (fun r =>
    vals ← collect (fun col => index col r) groups;
    h ← index hashes r;
    Ok (mkRow vals h (new_aggregate_state <$> aggs))) new_rows;
  Ok (rows ++ appended).

Definition row_pointers (rows : list GroupRow) (new_rows : list nat) : list RowPtr :=
  RowAt <$> seq (length rows) (length new_rows).

(** ** Finding or creating groups *)

(** The probe loop for one row: the offset it stops at, and whether the slot is
    empty ([true]) or has the row's hash. *)
Fixpoint probe (iter : nat) (ents : list Entry) (offset : nat) (h : Z) (cap : nat) : res (nat * bool) :=
  match iter with
  | 0 => Err "Hash table completely full"
  | S iter' =>
      ent ← index ents offset;
      match ptr ent with
      | None => Ok (offset, true)
      | Some _ =>
          if (hash ent =? h)%Z then Ok (offset, false)
          else probe iter' ents (inc_and_wrap_offset offset cap) h cap
      end
  end.

(** The buffers of one pass. *)
Record Pass : Type := mkPass {
  pass_entries : list Entry;
  pass_offsets : list nat;
  new_groups : list nat;
  needs_compare : list nat;
}.

(** The [for] loop over [needs_insert]. *)
Fixpoint probe_rows (needs_insert : list nat) (hashes : list Z) (cap : nat) (p : Pass) : res Pass :=
  match needs_insert with
  | [] => Ok p
  | row_idx :: rest =>
      offset ← index (pass_offsets p) row_idx;
      h ← index hashes row_idx;
      '(offset', empty) ← probe cap (pass_entries p) offset h cap;
      let offsets' := <[row_idx := offset']> (pass_offsets p) in
      probe_rows rest hashes cap
        (if empty : bool
         then mkPass (<[offset' := mkEntry h (Some Dangling)]> (pass_entries p)) offsets'
                (new_groups p ++ [row_idx]) (needs_compare p)
         else mkPass (pass_entries p) offsets' (new_groups p) (needs_compare p ++ [row_idx]))
  end.

(** Storing the pointers of the new rows in their entries and in the output. *)
Fixpoint store_pointers (new : list (nat * RowPtr)) (offsets : list nat) (ents : list Entry)
    (out : list (option RowPtr)) : res (list Entry * list (option RowPtr)) :=
  match new with
  | [] => Ok (ents, out)
  | (row_idx, p) :: rest =>
      offset ← index offsets row_idx;
      ent ← index ents offset;
      _ ← index out row_idx;
      store_pointers rest offsets (<[offset := mkEntry (hash ent) (Some p)]> ents) (<[row_idx := Some p]> out)
  end.

(** Output pointers of the rows that have to be compared. *)
Fixpoint read_pointers (compare : list nat) (offsets : list nat) (ents : list Entry) (out : list (option RowPtr)) :
    res (list (option RowPtr)) :=
  match compare with
  | [] => Ok out
  | row_idx :: rest =>
      offset ← index offsets row_idx;
      ent ← index ents offset;
      match ptr ent with
      | None => Panic "ptr to be Some"
      | Some p =>
          _ ← index out row_idx;
          read_pointers rest offsets ents (<[row_idx := Some p]> out)
      end
  end.

(** Moving the rows that did not match to their next slot. *)
Fixpoint bump_offsets (rows : list nat) (offsets : list nat) (cap : nat) : res (list nat) :=
  match rows with
  | [] => Ok offsets
  | row_idx :: rest =>
      offset ← index offsets row_idx;
      bump_offsets rest (<[row_idx := inc_and_wrap_offset offset cap]> offsets) cap
  end.

(** What the passes thread through. *)
Record Search : Type := mkSearch {
  s_entries : list Entry;
  s_offsets : list nat;
  s_rows : list GroupRow;
  s_out : list (option RowPtr);
  s_needs_insert : list nat;
  s_total_new : nat;
}.

(** The body of the [while] loop. *)
Definition search_pass (aggs : list Aggregate) (groups : list (list (option V))) (hashes : list Z) (cap : nat)
    (s : Search) : res Search :=
  p ← probe_rows (s_needs_insert s) hashes cap (mkPass (s_entries s) (s_offsets s) [] []);
  '(ents, rows, out) ←
    (if length (new_groups p) =? 0 then Ok (pass_entries p, s_rows s, s_out s)
     else
       rows ← append_groups aggs (s_rows s) groups hashes (new_groups p);
       '(ents, out) ← store_pointers (zip (new_groups p) (row_pointers (s_rows s) (new_groups p)))
                        (pass_offsets p) (pass_entries p) (s_out s);
       Ok (ents, rows, out));
  let total := s_total_new s + length (new_groups p) in
  if length (needs_compare p) =? 0 then Ok (mkSearch ents (pass_offsets p) rows out [] total)
  else
    out ← read_pointers (needs_compare p) (pass_offsets p) ents out;
    '(_, needs_insert) ← find_matches rows out 0 groups hashes (needs_compare p) [];
    offsets ← bump_offsets needs_insert (pass_offsets p) cap;
    Ok (mkSearch ents offsets rows out needs_insert total).

(** The [while] loop, for at most [fuel] passes. *)
Fixpoint search_loop (fuel : nat) (aggs : list Aggregate) (groups : list (list (option V))) (hashes : list Z)
    (cap : nat) (s : Search) : res Search :=
  match s_needs_insert s with
  | [] => Ok s
  | _ =>
      match fuel with
      | 0 => Panic "out of fuel"
      | S fuel' => s' ← search_pass aggs groups hashes cap s; search_loop fuel' aggs groups hashes cap s'
      end
  end.

(** The growth of the directory before a search. *)
Definition grow (d : Directory) (num_rows : nat) : res Directory :=
  if needs_resize d num_rows
  then resize d (Nat.max (capacity d * 2) (num_rows + capacity d))
  else Ok d.

(** [BaseHashTable::find_or_create_groups]: the table and the output pointers
    after. *)
Definition find_or_create_groups (t : BaseHashTable) (groups : list (list (option V))) (hashes : list Z)
    (num_rows : nat) (out_ptrs : list (option RowPtr)) : res (BaseHashTable * list (option RowPtr)) :=
  if num_rows =? 0 then Ok (t, out_ptrs)
  else
    let selected_hashes := take num_rows hashes in
    d ← grow (directory t) num_rows;
    let cap := capacity d in
    offsets ← collect (fun idx => h ← index selected_hashes idx; Ok (compute_offset_from_hash h cap)) (seq 0 num_rows);
    s ← search_loop (S cap) (aggregates t) groups selected_hashes cap
          (mkSearch (entries d) offsets (data t) out_ptrs (seq 0 num_rows) 0);
    Ok (mkTable (aggregates t) (mkDirectory (num_occupied d + s_total_new s) (s_entries s)) (s_rows s) (row_capacity t),
        s_out s).

(** ** Updating states *)

(** One state of the row a pointer leads to. *)
Definition modify_state (rows : list GroupRow) (p : option RowPtr) (agg_idx : nat) (f : St -> St) : res (list GroupRow) :=
  match p with
  | Some (RowAt i) =>
      row ← index rows i;
      s ← index (states row) agg_idx;
      Ok (<[i := mkRow (group row) (row_hash row) (<[agg_idx := f s]> (states row))]> rows)
  | _ => Panic "invalid row pointer"
  end.

(** [call_update] of one aggregate: row [k] of the inputs into the state
    [ptrs[k]] points to. *)
Fixpoint call_update (agg : Aggregate) (agg_idx : nat) (inputs : list (list (option V))) (k : nat)
    (ptrs : list (option RowPtr)) (rows : list GroupRow) : res (list GroupRow) :=
  match ptrs with
  | [] => Ok rows
  | p :: rest =>
      args ← collect (fun col => index col k) inputs;
      rows' ← modify_state rows p agg_idx (fun s => update agg s args);
      call_update agg agg_idx inputs (S k) rest rows'
  end.

(** [CompleteInputSelector::next]: skipping the inputs of the aggregates up to
    the selected one ([n] of them). *)
Fixpoint skip_inputs (aggs : list Aggregate) (n prev : nat) (inputs : list (list (option V))) :
    res (list (list (option V))) :=
  match n with
  | 0 => Ok inputs
  | S n' =>
      agg ← index aggs prev;
      _ ← rust_assert (num_columns agg <=? length inputs) "range start index out of range";
      skip_inputs aggs n' (S prev) (drop (num_columns agg) inputs)
  end.

(** [AggregateLayout::update_states] over the selected aggregates, which come in
    order: the selector runs off the aggregates when they do not. *)
Fixpoint update_states (aggs : list Aggregate) (agg_selection : list nat) (prev : nat)
    (inputs : list (list (option V))) (ptrs : list (option RowPtr)) (rows : list GroupRow) : res (list GroupRow) :=
  match agg_selection with
  | [] => Ok rows
  | agg_sel :: rest =>
      _ ← rust_assert (prev <=? agg_sel) "index out of bounds";
      inputs' ← skip_inputs aggs (agg_sel - prev) prev inputs;
      agg ← index aggs agg_sel;
      _ ← rust_assert (num_columns agg <=? length inputs') "range end index out of range";
      rows' ← call_update agg agg_sel (take (num_columns agg) inputs') 0 ptrs rows;
      update_states aggs rest agg_sel inputs' ptrs rows'
  end.

(** [BaseHashTable::insert_with_hashes] *)
Definition insert_with_hashes (t : BaseHashTable) (agg_selection : list nat) (groups inputs : list (list (option V)))
    (hashes : list Z) (num_rows : nat) : res BaseHashTable :=
  '(t', ptrs) ← find_or_create_groups t groups hashes num_rows (replicate num_rows None);
  rows ← update_states (aggregates t') agg_selection 0 inputs ptrs (data t');
  Ok (mkTable (aggregates t') (directory t') rows (row_capacity t')).

(** ** Merging tables *)

(** [call_combine] of one aggregate: the states of the scanned rows into the
    rows the pointers lead to. *)
Fixpoint call_combine (agg : Aggregate) (agg_idx : nat) (srcs : list GroupRow) (ptrs : list (option RowPtr))
    (rows : list GroupRow) : res (list GroupRow) :=
  match srcs, ptrs with
  | src :: srcs', p :: ptrs' =>
      s ← index (states src) agg_idx;
      rows' ← modify_state rows p agg_idx (fun dest => combine agg dest s);
      call_combine agg agg_idx srcs' ptrs' rows'
  | _, _ => Ok rows
  end.

(** [AggregateLayout::combine_states] *)
Fixpoint combine_states (aggs : list Aggregate) (agg_selection : list nat) (srcs : list GroupRow)
    (ptrs : list (option RowPtr)) (rows : list GroupRow) : res (list GroupRow) :=
  match agg_selection with
  | [] => Ok rows
  | agg_sel :: rest =>
      agg ← index aggs agg_sel;
      rows' ← call_combine agg agg_sel srcs ptrs rows;
      combine_states aggs rest srcs ptrs rows'
  end.

(** The group columns of scanned rows. *)
Definition group_columns (ncols : nat) (srcs : list GroupRow) : list (list (option V)) :=
  (fun c => (fun row => default None (group row !! c)) <$> srcs) <$> seq 0 ncols.

(** The [loop] of [merge_from]: [src] is what the scan has left. *)
Fixpoint merge_loop (fuel : nat) (ncols : nat) (agg_selection : list nat) (t : BaseHashTable) (src : list GroupRow) :
    res BaseHashTable :=
  match fuel with
  | 0 => Panic "out of fuel"
  | S fuel' =>
      let scanned := take (row_capacity t) src in
      if length scanned =? 0 then Ok t
      else
        '(t', ptrs) ← find_or_create_groups t (group_columns ncols scanned) (row_hash <$> scanned)
                        (length scanned) (replicate (length scanned) None);
        rows ← combine_states (aggregates t') agg_selection scanned ptrs (data t');
        merge_loop fuel' ncols agg_selection
          (mkTable (aggregates t') (directory t') rows (row_capacity t')) (drop (row_capacity t) src)
  end.

(** [BaseHashTable::merge_from]; [ncols] is the number of group columns of the
    layout. *)
Definition merge_from (ncols : nat) (agg_selection : list nat) (t other : BaseHashTable) : res BaseHashTable :=
  if num_occupied (directory t) =? 0 then Ok other
  else if num_occupied (directory other) =? 0 then Ok t
  else merge_loop (S (length (data other))) ncols agg_selection t (data other).

End AggHashTable.

Arguments Aggregate : clear implicits.
Arguments GroupRow : clear implicits.
Arguments BaseHashTable : clear implicits.
Arguments Search : clear implicits.

(** ** Searching *)

Section Search.
Context {V St : Type} `{EqDecision V}.
Variables (aggs : list (Aggregate V St)) (groups : list (list (option V))) (hashes : list Z) (n cap : nat).
Hypothesis cap_pow2 : pow2 cap.
Hypothesis groups_len : Forall (fun col => n <= length col) groups.
Hypothesis hashes_len : length hashes = n.

Abbreviation key_of r := ((fun col : list (option V) => col !!! r) <$> groups).
Abbreviation hash_of r := (hashes !!! r).

(** The hash and the group a pointer leads to. *)
Definition row_of (rows : list (GroupRow V St)) (p : RowPtr) : option (Z * list (option V)) :=
  match p with
  | Dangling => None
  | RowAt i => (fun row => (row_hash row, group row)) <$> rows !! i
  end.

(** A directory in the middle of a pass: claimed slots have no row yet. *)
Definition loose_rel (rows : list (GroupRow V St)) (e : Entry) (o : option (Z * list (option V))) : Prop :=
  match ptr e with
  | None => o = None
  | Some Dangling => exists g, o = Some (hash e, g)
  | Some p => exists g, row_of rows p = Some (hash e, g) /\ o = Some (hash e, g)
  end.

Lemma entry_rel_loose rows e o : entry_rel (row_of rows) e o -> loose_rel rows e o.
Proof. unfold entry_rel, loose_rel. destruct (ptr e) as [[|i]|]; [|done..]. by intros (g & ? & _). Qed.

(** The row [r] has reached a slot at distance at least [k]. *)
Definition at_slot (T : list (option (Z * list (option V)))) (offsets : list nat) (k r : nat) : Prop :=
  exists d, k <= d /\ offsets !! r = Some (slot cap (hash_of r) d) /\ reached cap T (hash_of r) (key_of r) d.

Lemma lookup_hash r : r < n -> hashes !! r = Some (hash_of r).
Proof. intros Hr. apply list_lookup_lookup_total_lt. lia. Qed.

Lemma index_hash r : r < n -> index hashes r = Ok (hash_of r).
Proof. intros Hr. by apply index_Ok, lookup_hash. Qed.

Lemma collect_key r : r < n -> collect (fun col => index col r) groups = Ok (key_of r).
Proof.
  intros Hr. apply collect_Forall2. apply Forall2_fmap_r. apply Forall_Forall2_diag.
  eapply Forall_impl; [exact groups_len|]. intros col Hcol. apply index_Ok, list_lookup_lookup_total_lt. simpl in *. lia.
Qed.

Lemma probe_spec fuel rows ents T h g d :
  length T = cap -> Forall2 (loose_rel rows) ents T -> occupied T < cap -> reached cap T h g d -> cap <= fuel + d ->
  exists d' (empty : bool), probe fuel ents (slot cap h d) h cap = Ok (slot cap h d', empty) /\ d <= d'
    /\ reached cap T h g d'
    /\ (if empty then T !! slot cap h d' = Some None else exists g', T !! slot cap h d' = Some (Some (h, g'))).
Proof.
  intros Hlen Hrel Hocc. revert d. induction fuel as [|fuel IH]; intros d Hr Hfuel.
  { pose proof (reached_lt cap T h g d cap_pow2 Hlen Hocc Hr). lia. }
  destruct (lookup_lt_is_Some_2 T (slot cap h d)) as [o Ho]; [rewrite Hlen; by apply slot_lt|].
  destruct (Forall2_lookup_r _ _ _ _ _ Hrel Ho) as (e & He & Hent). simpl. unfold index. rewrite He.
  unfold mbind, res_bind.
  assert (forall p, ptr e = Some p -> exists g', o = Some (hash e, g')) as Hocc'.
  { intros p Hp. unfold loose_rel in Hent. rewrite Hp in Hent. destruct p; [done|].
    destruct Hent as (g' & _ & ->). by exists g'. }
  destruct (ptr e) as [p|] eqn:Hp.
  - destruct (Hocc' p eq_refl) as [g' ->]. destruct (Z.eqb_spec (hash e) h) as [<-|Hne].
    + exists d, false. split_and!; try done. by exists g'.
    + rewrite slot_S by done. destruct (IH (S d)) as (d' & b & Hpr & Hle & Hr' & Hb); [|lia|].
      * apply reached_S; [done|]. exists (hash e, g'). split; [done|]. congruence.
      * exists d', b. split_and!; try done. lia.
  - exists d, true. split_and!; try done. unfold loose_rel in Hent. rewrite Hp in Hent. by subst o.
Qed.

(** The invariant of a pass; [todo] are the rows it has not looked at. *)
Record pass_inv (k : nat) (rows : list (GroupRow V St)) (T : list (option (Z * list (option V))))
    (todo : list nat) (p : Pass) : Prop := {
  pi_len : length T = cap;
  pi_rel : Forall2 (loose_rel rows) (pass_entries p) T;
  pi_chain : chain cap T;
  pi_offsets : length (pass_offsets p) = n;
  pi_nodup : NoDup (todo ++ new_groups p ++ needs_compare p);
  pi_range : Forall (fun r => r < n) (todo ++ new_groups p ++ needs_compare p);
  pi_todo : Forall (at_slot T (pass_offsets p) k) todo;
  pi_new : Forall (fun r => exists s, pass_offsets p !! r = Some s /\ T !! s = Some (Some (hash_of r, key_of r))
                    /\ pass_entries p !! s = Some (mkEntry (hash_of r) (Some Dangling))) (new_groups p);
  pi_slots : NoDup ((fun r => pass_offsets p !!! r) <$> new_groups p);
  pi_dangling : forall s e, pass_entries p !! s = Some e -> ptr e = Some Dangling ->
                  (s ∈ ((fun r => pass_offsets p !!! r) <$> new_groups p));
  pi_compare : Forall (fun r => exists d g', k <= d /\ pass_offsets p !! r = Some (slot cap (hash_of r) d)
                    /\ reached cap T (hash_of r) (key_of r) d
                    /\ T !! slot cap (hash_of r) d = Some (Some (hash_of r, g'))) (needs_compare p);
  pi_count : occupied T = length rows + length (new_groups p);
  pi_room : occupied T + length todo + length (needs_compare p) <= cap;
}.

Lemma at_slot_other T offsets k r r' s : r <> r' -> at_slot T offsets k r -> at_slot T (<[r' := s]> offsets) k r.
Proof.
  intros Hne (d & Hd & Ho & Hr). exists d. split; [done|]. split; [|done]. by rewrite list_lookup_insert_ne.
Qed.

Lemma at_slot_claim T offsets k r s x : T !! s = Some None -> at_slot T offsets k r -> at_slot (<[s := Some x]> T) offsets k r.
Proof. intros Hs (d & Hd & Ho & Hr). exists d. split; [done|]. split; [done|]. by apply reached_insert. Qed.

Lemma total_other (offsets : list nat) r s (l : list nat) :
  r ∉ l -> (fun i => <[r := s]> offsets !!! i) <$> l = (fun i => offsets !!! i) <$> l.
Proof.
  intros Hr. apply list_fmap_ext. intros _ i Hi%list_elem_of_lookup_2. apply list_lookup_total_insert_ne.
  by intros ->.
Qed.

(** The row claims the free slot it stands on. *)
Lemma pass_claim k rows T r todo p d :
  pass_inv k rows T (r :: todo) p -> k <= d -> reached cap T (hash_of r) (key_of r) d ->
  T !! slot cap (hash_of r) d = Some None ->
  pass_inv k rows (<[slot cap (hash_of r) d := Some (hash_of r, key_of r)]> T) todo
    (mkPass (<[slot cap (hash_of r) d := mkEntry (hash_of r) (Some Dangling)]> (pass_entries p))
       (<[r := slot cap (hash_of r) d]> (pass_offsets p)) (new_groups p ++ [r]) (needs_compare p)).
Proof.
  intros [Hlen Hrel Hc Hoff Hnd Hrange Htodo Hnew Hslots Hdang Hcmp Hcount Hroom] Hd Hr Hfree.
  simpl in Hnd, Hrange, Hroom. apply NoDup_cons in Hnd as [Hnin Hnd]. apply Forall_cons in Hrange as [Hrn Hrange], Htodo as [_ Htodo].
  rewrite !elem_of_app in Hnin. assert ((r ∉ todo) /\ (r ∉ new_groups p) /\ (r ∉ needs_compare p)) as (Hn1 & Hn2 & Hn3) by naive_solver.
  set (s := slot cap (hash_of r) d) in *.
  assert (s < length (pass_entries p)) as Hs by (rewrite (Forall2_length _ _ _ Hrel), Hlen; by apply slot_lt).
  assert (occupied T < cap) as Hocc by lia.
  constructor; simpl.
  - by rewrite length_insert.
  - apply Forall2_insert; [done|]. by eexists.
  - apply chain_insert; try done. by eapply reached_lt.
  - by rewrite length_insert.
  - rewrite <-!app_assoc. simpl. rewrite app_assoc, <-Permutation_middle, <-app_assoc. constructor; [|done].
    rewrite !elem_of_app. naive_solver.
  - rewrite <-!app_assoc. simpl. rewrite app_assoc, <-Permutation_middle, <-app_assoc. by constructor.
  - apply Forall_forall. intros r' Hr'. rewrite Forall_forall in Htodo. apply at_slot_other; [by intros ->|].
    by apply at_slot_claim, Htodo.
  - apply Forall_app. split.
    + apply Forall_forall. intros r' Hr'. rewrite Forall_forall in Hnew. destruct (Hnew r' Hr') as (s' & Ho & HT & He).
      assert (s' <> s) by congruence. assert (r' <> r) by (by intros ->).
      exists s'. rewrite !list_lookup_insert_ne by congruence. done.
    + constructor; [|done]. exists s. assert (s < length T) by (by eapply lookup_lt_Some).
      split_and!; apply list_lookup_insert_eq; lia.
  - rewrite fmap_app, total_other by done. apply NoDup_app. split; [done|]. simpl.
    rewrite list_lookup_total_insert_eq by lia. split; [|apply NoDup_singleton].
    intros x (r' & -> & Hr')%list_elem_of_fmap Hx%list_elem_of_singleton. rewrite Forall_forall in Hnew.
    destruct (Hnew r' Hr') as (s' & Ho & HT & _). apply list_lookup_total_correct in Ho. congruence.
  - intros s' e He Hp. rewrite fmap_app, total_other by done. apply elem_of_app.
    apply list_lookup_insert_Some in He as [(-> & <- & _)|[Hne He]]; [|left; by eapply Hdang].
    right. simpl. rewrite list_lookup_total_insert_eq by lia. by apply list_elem_of_singleton.
  - apply Forall_forall. intros r' Hr'. rewrite Forall_forall in Hcmp. destruct (Hcmp r' Hr') as (d' & g' & Hd' & Ho & Hre & HT).
    assert (r' <> r) by (by intros ->).
    exists d', g'. rewrite !list_lookup_insert_ne by congruence. split_and!; try done. by apply reached_insert.
  - rewrite occupied_insert by done. rewrite length_app. simpl. lia.
  - rewrite occupied_insert by done. lia.
Qed.

(** The row stands on a slot with its hash. *)
Lemma pass_collide k rows T r todo p d g' :
  pass_inv k rows T (r :: todo) p -> k <= d -> reached cap T (hash_of r) (key_of r) d ->
  T !! slot cap (hash_of r) d = Some (Some (hash_of r, g')) ->
  pass_inv k rows T todo
    (mkPass (pass_entries p) (<[r := slot cap (hash_of r) d]> (pass_offsets p)) (new_groups p) (needs_compare p ++ [r])).
Proof.
  intros [Hlen Hrel Hc Hoff Hnd Hrange Htodo Hnew Hslots Hdang Hcmp Hcount Hroom] Hd Hr HT.
  simpl in Hnd, Hrange, Hroom. apply NoDup_cons in Hnd as [Hnin Hnd]. apply Forall_cons in Hrange as [Hrn Hrange], Htodo as [_ Htodo].
  rewrite !elem_of_app in Hnin. assert ((r ∉ todo) /\ (r ∉ new_groups p) /\ (r ∉ needs_compare p)) as (Hn1 & Hn2 & Hn3) by naive_solver.
  constructor; simpl; rewrite ?total_other by done; try done.
  - by rewrite length_insert.
  - rewrite !app_assoc, <-Permutation_cons_append, <-!app_assoc. constructor; [|done]. rewrite !elem_of_app. naive_solver.
  - rewrite !app_assoc, <-Permutation_cons_append, <-!app_assoc. by constructor.
  - apply Forall_forall. intros r' Hr'. rewrite Forall_forall in Htodo. apply at_slot_other; [by intros ->|by apply Htodo].
  - apply Forall_forall. intros r' Hr'. rewrite Forall_forall in Hnew. destruct (Hnew r' Hr') as (s' & Ho & HT' & He).
    exists s'. rewrite list_lookup_insert_ne by (by intros ->). done.
  - apply Forall_app. split.
    + apply Forall_forall. intros r' Hr'. rewrite Forall_forall in Hcmp. destruct (Hcmp r' Hr') as (d' & g2 & Hd' & Ho & Hre & HT').
      exists d', g2. rewrite list_lookup_insert_ne by (by intros ->). done.
    + constructor; [|done]. exists d, g'. rewrite list_lookup_insert_eq by lia. done.
  - rewrite length_app. simpl. lia.
Qed.

Lemma probe_rows_spec k rows todo T p :
  pass_inv k rows T todo p ->
  exists T' p', probe_rows todo hashes cap p = Ok p' /\ pass_inv k rows T' [] p'
    /\ Permutation (new_groups p' ++ needs_compare p') (todo ++ new_groups p ++ needs_compare p)
    /\ (forall s e, pass_entries p !! s = Some e -> ptr e <> None -> pass_entries p' !! s = Some e).
Proof.
  revert T p. induction todo as [|r todo IH]; intros T p Hinv; [by exists T, p|].
  pose proof Hinv as [Hlen Hrel Hc Hoff Hnd Hrange Htodo Hnew Hslots Hdang Hcmp Hcount Hroom].
  apply Forall_cons in Htodo as [(d & Hd & Ho & Hr) _]. apply Forall_cons in Hrange as [Hrn _]. simpl in Hroom.
  destruct (probe_spec cap rows (pass_entries p) T (hash_of r) (key_of r) d) as (d' & b & Hpr & Hle & Hr' & Hb); try done; [lia..|].
  cbn [probe_rows]. rewrite (proj2 (index_Ok _ _ _) Ho), index_hash by done. unfold mbind at 1 2, res_bind at 1 2.
  rewrite Hpr. unfold mbind, res_bind. destruct b.
  - destruct (IH _ _ (pass_claim k rows T r todo p d' Hinv ltac:(lia) Hr' Hb)) as (T' & p' & Hrun & Hinv' & Hperm & Hmono).
    exists T', p'. split; [done|]. split; [done|]. split.
    + rewrite Hperm. simpl. rewrite <-app_assoc, app_assoc. simpl. by rewrite <-Permutation_middle, <-app_assoc.
    + intros s e Hs Hp. apply Hmono; [|done]. simpl. rewrite list_lookup_insert_ne; [done|]. intros <-.
      pose proof (Forall2_lookup_lr _ _ _ _ _ _ Hrel Hs Hb) as Hent. unfold loose_rel in Hent.
      destruct (ptr e) as [[|i]|]; [by destruct Hent|by destruct Hent as (g & _ & ?)|done].
  - destruct Hb as [g' Hg'].
    destruct (IH _ _ (pass_collide k rows T r todo p d' g' Hinv ltac:(lia) Hr' Hg')) as (T' & p' & Hrun & Hinv' & Hperm & Hmono).
    exists T', p'. split; [done|]. split; [done|]. split; [|done].
    rewrite Hperm. simpl. by rewrite !app_assoc, <-Permutation_cons_append.
Qed.

(** ** Creating the new groups *)

Definition new_row (r : nat) : GroupRow V St := mkRow (key_of r) (hash_of r) (new_aggregate_state <$> aggs).

Lemma append_groups_spec rows news :
  Forall (fun r => r < n) news -> append_groups aggs rows groups hashes news = Ok (rows ++ (new_row <$> news)).
Proof.
  intros Hn. unfold append_groups.
  assert (collect (fun r => vals ← collect (fun col => index col r) groups; h ← index hashes r;
    Ok (mkRow vals h (new_aggregate_state <$> aggs))) news = Ok (new_row <$> news)) as ->; [|done].
  apply collect_Forall2, Forall2_fmap_r, Forall_Forall2_diag. eapply Forall_impl; [exact Hn|]. intros r Hr.
  by rewrite collect_key, index_hash.
Qed.

Lemma row_of_app rows more p x : row_of rows p = Some x -> row_of (rows ++ more) p = Some x.
Proof.
  destruct p as [|i]; [done|]. simpl. destruct (rows !! i) as [row|] eqn:Hi; [|done].
  by rewrite (lookup_app_l_Some _ _ _ _ Hi).
Qed.

Lemma loose_rel_app rows more ents T :
  Forall2 (loose_rel rows) ents T -> Forall2 (loose_rel (rows ++ more)) ents T.
Proof.
  intros Hrel. eapply Forall2_impl; [exact Hrel|]. intros e o. unfold loose_rel.
  destruct (ptr e) as [[|i]|]; [done| |done]. intros (g & Hrow & ->). exists g. split; [|done]. by apply row_of_app.
Qed.

Lemma store_pointers_spec rows offsets T news i0 ents out :
  Forall2 (loose_rel rows) ents T ->
  (forall j r, news !! j = Some r -> rows !! (i0 + j) = Some (new_row r)) ->
  Forall (fun r => exists s, offsets !! r = Some s /\ T !! s = Some (Some (hash_of r, key_of r))
            /\ ents !! s = Some (mkEntry (hash_of r) (Some Dangling))) news ->
  NoDup ((fun r => offsets !!! r) <$> news) -> NoDup news -> Forall (fun r => r < length out) news ->
  (forall s e, ents !! s = Some e -> ptr e = Some Dangling -> (s ∈ ((fun r => offsets !!! r) <$> news))) ->
  exists ents' out', store_pointers (zip news (RowAt <$> seq i0 (length news))) offsets ents out = Ok (ents', out')
    /\ directory_rel (row_of rows) ents' T /\ length out' = length out
    /\ (forall j r, news !! j = Some r -> out' !! r = Some (Some (RowAt (i0 + j))))
    /\ (forall r, r ∉ news -> out' !! r = out !! r)
    /\ (forall j, j < length news -> exists s e, ents' !! s = Some e /\ ptr e = Some (RowAt (i0 + j)))
    /\ (forall s e i, ents !! s = Some e -> ptr e = Some (RowAt i) -> ents' !! s = Some e).
Proof.
  revert i0 ents out. induction news as [|r news IH]; intros i0 ents out Hrel Hrows Hnew Hslots Hnd Hlt Hdang.
  { exists ents, out. split_and!; try done; [|intros j Hj; simpl in Hj; lia].
    apply Forall2_same_length_lookup. split; [by eapply Forall2_length|]. intros s e o He Ho.
    pose proof (Forall2_lookup_lr _ _ _ _ _ _ Hrel He Ho) as Hent. unfold loose_rel, entry_rel in *.
    destruct (ptr e) as [[|i]|] eqn:Hp; [|done..]. by destruct (not_elem_of_nil s (Hdang s e He Hp)). }
  apply Forall_cons in Hnew as [(s & Ho & HT & He) Hnew], Hlt as [Hr Hlt].
  rewrite fmap_cons in Hslots. apply NoDup_cons in Hslots as [Hsn Hslots]. apply NoDup_cons in Hnd as [Hrn Hnd].
  assert (offsets !!! r = s) as Hos by (by apply list_lookup_total_correct).
  cbn [length seq zip store_pointers fmap list_fmap zip_with]. destruct (lookup_lt_is_Some_2 out r Hr) as [q Hq].
  unfold index. rewrite Ho. unfold mbind, res_bind. rewrite He, Hq. simpl (hash _).
  set (e' := mkEntry (hash_of r) (Some (RowAt i0))).
  pose proof (Hrows 0 r eq_refl) as Hrow0. rewrite Nat.add_0_r in Hrow0.
  assert (s < length ents) as Hsl by (by eapply lookup_lt_Some).
  assert (forall r', r' ∈ news -> offsets !!! r' <> s) as Hdiff.
  { intros r' Hr' Heq. apply Hsn. rewrite Hos, <-Heq. by apply list_elem_of_fmap_2 with (f := fun r => offsets !!! r). }
  destruct (IH (S i0) (<[s := e']> ents) (<[r := Some (RowAt i0)]> out)) as
    (ents' & out' & Hrun & Hrel' & Hlen' & Hout & Hother & Hslot & Hkeep).
  - rewrite <-(list_insert_id T s (Some (hash_of r, key_of r))) by done. apply Forall2_insert; [done|].
    exists (key_of r). simpl. by rewrite Hrow0.
  - intros j r' Hj. rewrite Nat.add_succ_comm. by apply Hrows.
  - apply Forall_forall. intros r' Hr'. rewrite Forall_forall in Hnew. destruct (Hnew r' Hr') as (s' & Ho' & HT' & He').
    exists s'. specialize (Hdiff r' Hr'). rewrite (list_lookup_total_correct _ _ _ Ho') in Hdiff.
    by rewrite list_lookup_insert_ne by congruence.
  - done.
  - done.
  - by rewrite length_insert.
  - intros s' e [(-> & <- & _)|[Hne Hs']]%list_lookup_insert_Some Hp; [done|].
    specialize (Hdang s' e Hs' Hp). rewrite fmap_cons in Hdang. apply elem_of_cons in Hdang as [->|]; [congruence|done].
  - exists ents', out'. rewrite length_insert in Hlen'. split; [done|]. split; [done|]. split; [done|]. split; [|split; [|split]].
    + intros [|j] r' Hj; [|rewrite <-Nat.add_succ_comm; by apply Hout]. injection Hj as <-.
      rewrite Hother by done. rewrite list_lookup_insert_eq by done. by rewrite Nat.add_0_r.
    + intros r' [Hne Hnin]%not_elem_of_cons. rewrite Hother by done. by rewrite list_lookup_insert_ne.
    + intros [|j] Hj; [|rewrite <-Nat.add_succ_comm; apply Hslot; simpl in Hj; lia].
      exists s, e'. rewrite Nat.add_0_r. split; [|done]. eapply Hkeep; [by apply list_lookup_insert_eq|done].
    + intros s' e i Hs' Hp. eapply Hkeep; [|exact Hp]. rewrite list_lookup_insert_ne; [done|]. intros <-. rewrite He in Hs'. by simplify_eq.
Qed.

(** ** Comparing groups *)

Lemma compare_nullable_spec (l r : option V) : compare_nullable l r = true <-> l = r.
Proof.
  destruct l as [l|], r as [r|]; simpl; try done. rewrite bool_decide_eq_true. split; [by intros ->|by intros [= ->]].
Qed.

Lemma compute_matches_spec test (f : nat -> bool) sel nm :
  Forall (fun r => test r = Ok (f r)) sel ->
  exists m nm', compute_matches test sel nm = Ok (m, nm') /\ Permutation (m ++ nm') (sel ++ nm)
    /\ (forall r, r ∈ m <-> (r ∈ sel) /\ f r = true) /\ (forall r, r ∈ nm' <-> (r ∈ nm) \/ (r ∈ sel) /\ f r = false).
Proof.
  intros Hf. revert nm. induction Hf as [|r sel Hr _ IH]; intros nm.
  { exists [], nm. split; [done|]. split; [done|]. split; intros r; rewrite elem_of_nil; clear; tauto. }
  cbn [compute_matches]. rewrite Hr. unfold mbind, res_bind.
  destruct (IH (if f r then nm else nm ++ [r])) as (m & nm' & -> & Hperm & Hm & Hnm).
  eexists _, _. split; [done|]. destruct (f r) eqn:Hfr; simpl in *.
  - split; [by rewrite Hperm|]. split; intros r'; rewrite ?Hnm, !elem_of_cons, ?Hm; clear -Hfr; intuition congruence.
  - split; [rewrite Hperm, <-Permutation_cons_append; by rewrite <-Permutation_middle|].
    split; intros r'; rewrite ?Hnm, ?elem_of_app, !elem_of_cons, ?elem_of_nil, ?Hm; clear -Hfr; intuition congruence.
Qed.

(** The row the output pointer of a row leads to. *)
Definition row_at (rows : list (GroupRow V St)) (out : list (option RowPtr)) (r : nat) : GroupRow V St :=
  match p ← index out r; deref rows p with
  | Ok row => row
  | _ => mkRow [] 0 []
  end.

Definition points (rows : list (GroupRow V St)) (out : list (option RowPtr)) (r i : nat) (row : GroupRow V St) : Prop :=
  out !! r = Some (Some (RowAt i)) /\ rows !! i = Some row.

Lemma row_at_points rows out r i row : points rows out r i row -> row_at rows out r = row.
Proof. intros [Ho Hi]. unfold row_at, index. rewrite Ho. simpl. unfold index. by rewrite Hi. Qed.

Lemma find_matches_spec rows out c cols sel nm :
  groups = take c groups ++ cols -> c <= length groups ->
  Forall (fun r => r < n /\ exists i row, points rows out r i row /\ length (group row) = length groups) sel ->
  exists m nm', find_matches rows out c cols hashes sel nm = Ok (m, nm') /\ Permutation (m ++ nm') (sel ++ nm)
    /\ (forall r, r ∈ m -> (r ∈ sel) /\ drop c (group (row_at rows out r)) = ((fun col => col !!! r) <$> cols)
                           /\ row_hash (row_at rows out r) = hash_of r)
    /\ (forall r, r ∈ nm' -> (r ∈ nm) \/ (r ∈ sel)
          /\ (drop c (group (row_at rows out r)) <> ((fun col => col !!! r) <$> cols) \/ row_hash (row_at rows out r) <> hash_of r)).
Proof.
  revert c sel nm. induction cols as [|col cols IH]; intros c sel nm Hcols Hc Hsel; cbn [find_matches].
  - destruct (compute_matches_spec (test_hash rows out hashes) (fun r => (row_hash (row_at rows out r) =? hash_of r)%Z) sel nm)
      as (m & nm' & Hrun & Hperm & Hm & Hnm).
    { eapply Forall_impl; [exact Hsel|]. intros r (Hr & i & row & Hpt & _). pose proof (row_at_points _ _ _ _ _ Hpt) as ->.
      destruct Hpt as [Ho Hi]. unfold test_hash. rewrite (proj2 (index_Ok _ _ _) Ho). unfold mbind, res_bind. cbn [deref].
      by rewrite (proj2 (index_Ok _ _ _) Hi), index_hash. }
    exists m, nm'. split; [done|]. split; [done|]. split.
    + intros r [Hin Heq%Z.eqb_eq]%Hm. split; [done|]. split; [|done]. rewrite Forall_forall in Hsel.
      destruct (Hsel r Hin) as (_ & i & row & Hpt & Hl). rewrite (row_at_points _ _ _ _ _ Hpt). apply drop_ge.
      apply (f_equal length) in Hcols. rewrite length_app, length_take in Hcols. simpl in Hcols. lia.
    + intros r [Hin|[Hin Heq%Z.eqb_neq]]%Hnm; [by left|]. right. split; [done|]. by right.
  - assert (groups !! c = Some col) as Hcol.
    { rewrite Hcols, lookup_app_r by (rewrite length_take; lia). rewrite length_take. by replace (c - c `min` length groups) with 0 by lia. }
    assert (c < length groups) as Hclt by (by eapply lookup_lt_Some).
    set (f := fun r => compare_nullable (group (row_at rows out r) !!! c) (col !!! r)).
    destruct (compute_matches_spec (test_column rows out c col) f sel nm) as (m & nm1 & Hrun & Hperm & Hm & Hnm).
    { eapply Forall_impl; [exact Hsel|]. intros r (Hr & i & row & Hpt & Hl). unfold f.
      pose proof (row_at_points _ _ _ _ _ Hpt) as ->. destruct Hpt as [Ho Hi]. unfold test_column.
      rewrite (proj2 (index_Ok _ _ _) Ho). unfold mbind, res_bind. cbn [deref]. rewrite (proj2 (index_Ok _ _ _) Hi).
      assert (index (group row) c = Ok (group row !!! c)) as -> by (apply index_Ok, list_lookup_lookup_total_lt; lia).
      assert (index col r = Ok (col !!! r)) as ->; [|done]. apply index_Ok, list_lookup_lookup_total_lt.
      eapply Forall_lookup_1 in groups_len; [|exact Hcol]. simpl in *. lia. }
    rewrite Hrun. unfold mbind, res_bind.
    assert (forall r, r ∈ sel -> drop c (group (row_at rows out r)) =
      group (row_at rows out r) !!! c :: drop (S c) (group (row_at rows out r))) as Hdrop.
    { intros r Hin. rewrite Forall_forall in Hsel. destruct (Hsel r Hin) as (_ & i & row & Hpt & Hl).
      rewrite (row_at_points _ _ _ _ _ Hpt). apply drop_S. apply list_lookup_lookup_total_lt. lia. }
    destruct (IH (S c) m nm1) as (m' & nm' & -> & Hperm' & Hm' & Hnm').
    + rewrite Hcols at 1. rewrite (take_S_r _ _ _ Hcol), <-app_assoc. done.
    + lia.
    + apply Forall_forall. intros r [Hin _]%Hm. by rewrite Forall_forall in Hsel; apply Hsel.
    + exists m', nm'. split; [done|]. split; [by rewrite Hperm'|]. split.
      * intros r Hin. destruct (Hm' r Hin) as ([Hs Hfr]%Hm & Hd & Hh). split; [done|]. split; [|done].
        rewrite Hdrop by done. apply compare_nullable_spec in Hfr. by rewrite Hd, Hfr.
      * intros r [Hin|[Hin Hne]]%Hnm'.
        -- apply Hnm in Hin as [|[Hin Hfr]]; [by left|]. right. split; [done|]. left. rewrite Hdrop by done. simpl.
           intros [= Heq _]. apply compare_nullable_spec in Heq. unfold f in Hfr. congruence.
        -- apply Hm in Hin as [Hin Hfr]. right. split; [done|]. rewrite Hdrop by done. destruct Hne as [Hne|Hne]; [left|by right].
           simpl. by intros [= _ Heq].
Qed.

Lemma read_pointers_spec ents offsets compare out :
  Forall (fun r => r < length out /\ exists s e p, offsets !! r = Some s /\ ents !! s = Some e /\ ptr e = Some p) compare ->
  exists out', read_pointers compare offsets ents out = Ok out' /\ length out' = length out
    /\ (forall r s e p, r ∈ compare -> offsets !! r = Some s -> ents !! s = Some e -> ptr e = Some p -> out' !! r = Some (Some p))
    /\ (forall r, r ∉ compare -> out' !! r = out !! r).
Proof.
  revert out. induction compare as [|r compare IH]; intros out Hc.
  { exists out. split_and!; try done. intros r s e p Hr. by apply elem_of_nil in Hr. }
  apply Forall_cons in Hc as [(Hr & s & e & p & Ho & He & Hp) Hc]. cbn [read_pointers].
  unfold index. rewrite Ho. unfold mbind, res_bind. rewrite He, Hp. destruct (lookup_lt_is_Some_2 out r Hr) as [q ->].
  destruct (IH (<[r := Some p]> out)) as (out' & -> & Hl & Hin & Hout); [by rewrite length_insert|].
  exists out'. rewrite length_insert in Hl. split; [done|]. split; [done|]. split.
  - intros r' s' e' p' Hr' Ho' He' Hp'. destruct (decide (r' ∈ compare)) as [|Hn]; [by eapply Hin|].
    apply elem_of_cons in Hr' as [->|]; [|done]. rewrite Hout by done. rewrite list_lookup_insert_eq by done. congruence.
  - intros r' [Hne Hn]%not_elem_of_cons. rewrite Hout by done. by rewrite list_lookup_insert_ne.
Qed.

Lemma bump_offsets_spec rows offsets :
  NoDup rows -> Forall (fun r => r < length offsets) rows ->
  exists offsets', bump_offsets rows offsets cap = Ok offsets' /\ length offsets' = length offsets
    /\ (forall r o, r ∈ rows -> offsets !! r = Some o -> offsets' !! r = Some (inc_and_wrap_offset o cap)).
Proof.
  revert offsets. induction rows as [|r rows IH]; intros offsets Hnd Hlt.
  { exists offsets. split_and!; try done. intros r o Hr. by apply elem_of_nil in Hr. }
  apply NoDup_cons in Hnd as [Hrn Hnd]. apply Forall_cons in Hlt as [Hr Hlt].
  assert (forall rows' offs, NoDup rows' -> Forall (fun r => r < length offs) rows' -> r ∉ rows' ->
    forall offs', bump_offsets rows' offs cap = Ok offs' -> offs' !! r = offs !! r) as Hsame.
  { clear. induction rows' as [|r' rows' IH]; intros offs Hnd Hlt Hn offs'; [by intros [= ->]|].
    apply NoDup_cons in Hnd as [_ Hnd]. apply Forall_cons in Hlt as [Hr' Hlt]. apply not_elem_of_cons in Hn as [Hne Hn].
    cbn [bump_offsets]. destruct (lookup_lt_is_Some_2 offs r' Hr') as [o Ho]. unfold index. rewrite Ho. unfold mbind, res_bind.
    intros Hrun. rewrite (IH (<[r' := inc_and_wrap_offset o cap]> offs) Hnd) with (offs' := offs'); [|by rewrite length_insert|done|done].
    by rewrite list_lookup_insert_ne. }
  destruct (lookup_lt_is_Some_2 offsets r Hr) as [o Ho].
  destruct (IH (<[r := inc_and_wrap_offset o cap]> offsets) Hnd) as (offs' & Hrun & Hl & Hin); [by rewrite length_insert|].
  exists offs'. rewrite length_insert in Hl. cbn [bump_offsets]. unfold index. rewrite Ho. unfold mbind, res_bind.
  split; [done|]. split; [done|]. intros r' o' [->|Hr']%elem_of_cons Ho'.
  - erewrite Hsame; [|exact Hnd| |exact Hrn|exact Hrun]; [|by rewrite length_insert].
    rewrite list_lookup_insert_eq by done. congruence.
  - apply Hin; [done|]. rewrite list_lookup_insert_ne; [done|]. by intros ->.
Qed.

(** ** The invariant between passes *)

Record search_inv (k : nat) (rows0 : list (GroupRow V St)) (T : list (option (Z * list (option V)))) (s : Search V St) : Prop := {
  si_len : length T = cap;
  si_rel : directory_rel (row_of (s_rows s)) (s_entries s) T;
  si_chain : chain cap T;
  si_offsets : length (s_offsets s) = n;
  si_out : length (s_out s) = n;
  si_nodup : NoDup (s_needs_insert s);
  si_range : Forall (fun r => r < n) (s_needs_insert s);
  si_at : Forall (at_slot T (s_offsets s) k) (s_needs_insert s);
  si_count : occupied T = length (s_rows s);
  si_room : occupied T + length (s_needs_insert s) <= cap;
  si_done : forall r, r < n -> r ∉ s_needs_insert s -> exists i row, points (s_rows s) (s_out s) r i row
              /\ group row = key_of r /\ row_hash row = hash_of r;
  si_rows : exists news, s_rows s = rows0 ++ (new_row <$> news) /\ Forall (fun r => r < n) news
              /\ s_total_new s = length news;
  si_slots : forall i, i < length (s_rows s) -> exists sl e, s_entries s !! sl = Some e /\ ptr e = Some (RowAt i);
  si_width : Forall (fun row => length (group row) = length groups) (s_rows s);
}.

Lemma loose_rel_strict rows ents T : directory_rel (row_of rows) ents T -> Forall2 (loose_rel rows) ents T.
Proof. intros Hr. eapply Forall2_impl; [exact Hr|]. intros e o. apply entry_rel_loose. Qed.

Lemma search_pass_init k rows0 T s :
  search_inv k rows0 T s -> pass_inv k (s_rows s) T (s_needs_insert s) (mkPass (s_entries s) (s_offsets s) [] []).
Proof.
  intros [Hlen Hrel Hc Hoff Hout Hnd Hrange Hat Hcount Hroom _ _ _ _].
  constructor; simpl; rewrite ?app_nil_r; try done; try lia.
  - by apply loose_rel_strict.
  - constructor.
  - intros sl e He Hp. destruct (Forall2_lookup_l _ _ _ _ _ Hrel He) as (o & _ & Hent). unfold entry_rel in Hent.
    rewrite Hp in Hent. by destruct Hent as (g & ? & _).
Qed.

(** The rows of the new groups, and the directory that points to them. *)
Lemma create_spec k rows T p out :
  pass_inv k rows T [] p -> length out = n ->
  (forall i, i < length rows -> exists sl e, pass_entries p !! sl = Some e /\ ptr e = Some (RowAt i)) ->
  exists ents' out',
    (if length (new_groups p) =? 0 then Ok (pass_entries p, rows, out)
     else
       rows' ← append_groups aggs rows groups hashes (new_groups p);
       '(ents, out) ← store_pointers (zip (new_groups p) (row_pointers rows (new_groups p))) (pass_offsets p) (pass_entries p) out;
       Ok (ents, rows', out))
    = Ok (ents', rows ++ (new_row <$> new_groups p), out')
    /\ directory_rel (row_of (rows ++ (new_row <$> new_groups p))) ents' T /\ length out' = n
    /\ (forall r, r ∈ new_groups p -> exists i, points (rows ++ (new_row <$> new_groups p)) out' r i (new_row r))
    /\ (forall r, r ∉ new_groups p -> out' !! r = out !! r)
    /\ (forall i, i < length rows + length (new_groups p) -> exists sl e, ents' !! sl = Some e /\ ptr e = Some (RowAt i)).
Proof.
  intros [Hlen Hrel Hc Hoff Hnd Hrange Htodo Hnew Hslots Hdang Hcmp Hcount Hroom] Hout Hsl. simpl in Hnd, Hrange.
  apply NoDup_app in Hnd as (Hnd & _ & _). apply Forall_app in Hrange as [Hrange _].
  assert (forall j r, new_groups p !! j = Some r -> (rows ++ (new_row <$> new_groups p)) !! (length rows + j) = Some (new_row r)) as Hrows.
  { intros j r Hj. rewrite lookup_app_r by lia. replace (length rows + j - length rows) with j by lia.
    by rewrite list_lookup_fmap, Hj. }
  destruct (store_pointers_spec (rows ++ (new_row <$> new_groups p)) (pass_offsets p) T (new_groups p) (length rows) (pass_entries p) out)
    as (ents' & out' & Hrun & Hrel' & Hlen' & Hin & Hother & Hslot & Hkeep); try done.
  { by apply loose_rel_app. }
  { eapply Forall_impl; [exact Hrange|]. intros r Hr. simpl in Hr. lia. }
  exists ents', out'. split; [|split; [done|split; [lia|split; [|split; [done|]]]]].
  - unfold row_pointers. destruct (Nat.eqb_spec (length (new_groups p)) 0) as [Hz|Hz].
    + apply length_zero_iff_nil in Hz. rewrite Hz in Hrun |- *. simpl in *. rewrite app_nil_r. by simplify_eq.
    + rewrite append_groups_spec by done. unfold mbind, res_bind. by rewrite Hrun.
  - intros r (j & Hj)%list_elem_of_lookup. exists (length rows + j). split; [by apply Hin|by apply Hrows].
  - intros i Hi. destruct (decide (i < length rows)) as [Hlt|].
    + destruct (Hsl i Hlt) as (sl & e & He & Hp). exists sl, e. split; [by eapply Hkeep|done].
    + destruct (Hslot (i - length rows)) as (sl & e & He & Hp); [lia|]. exists sl, e.
      by replace (length rows + (i - length rows)) with i in Hp by lia.
Qed.

(** Comparing the rows that met their hash. *)
Lemma compare_rows_spec k rows1 rows T p ents out :
  pass_inv k rows1 T [] p -> length out = n -> directory_rel (row_of rows) ents T ->
  Forall (fun row => length (group row) = length groups) rows ->
  exists out' m nm offsets', read_pointers (needs_compare p) (pass_offsets p) ents out = Ok out'
    /\ find_matches rows out' 0 groups hashes (needs_compare p) [] = Ok (m, nm)
    /\ bump_offsets nm (pass_offsets p) cap = Ok offsets'
    /\ length out' = n /\ length offsets' = n /\ Permutation (m ++ nm) (needs_compare p)
    /\ (forall r, r ∉ needs_compare p -> out' !! r = out !! r)
    /\ (forall r, r ∈ m -> exists i row, points rows out' r i row /\ group row = key_of r /\ row_hash row = hash_of r)
    /\ Forall (at_slot T offsets' (S k)) nm.
Proof.
  intros [Hlen _ Hc Hoff Hnd Hrange _ _ _ _ Hcmp _ _] Hout Hrel Hwidth.
  simpl in Hnd, Hrange. apply NoDup_app in Hnd as (_ & _ & Hnd). apply Forall_app in Hrange as [_ Hrange].
  assert (forall r, r ∈ needs_compare p -> exists d e i row, k <= d /\ pass_offsets p !! r = Some (slot cap (hash_of r) d)
    /\ reached cap T (hash_of r) (key_of r) d /\ T !! slot cap (hash_of r) d = Some (Some (hash_of r, group row))
    /\ ents !! slot cap (hash_of r) d = Some e /\ ptr e = Some (RowAt i) /\ rows !! i = Some row
    /\ row_hash row = hash_of r /\ length (group row) = length groups) as Hinfo.
  { intros r Hr. rewrite Forall_forall in Hcmp. destruct (Hcmp r Hr) as (d & g' & Hd & Ho & Hre & HT).
    destruct (Forall2_lookup_r _ _ _ _ _ Hrel HT) as (e & He & Hent). unfold entry_rel in Hent.
    destruct (ptr e) as [q|] eqn:Hq; [|done]. destruct Hent as (g & Hrow & Heq). injection Heq as Hh <-.
    destruct q as [|i]; [done|]. simpl in Hrow. destruct (rows !! i) as [row|] eqn:Hi; [|done]. injection Hrow as Hrh <-.
    exists d, e, i, row. split_and!; try done; [congruence|]. by eapply Forall_lookup_1 in Hwidth. }
  destruct (read_pointers_spec ents (pass_offsets p) (needs_compare p) out) as (out' & Hread & Hl' & Hin' & Hother).
  { apply Forall_forall. intros r Hr. destruct (Hinfo r Hr) as (d & e & i & row & _ & Ho & _ & _ & He & Hp & _).
    rewrite Forall_forall in Hrange. specialize (Hrange r Hr). split; [simpl in *; lia|]. by exists (slot cap (hash_of r) d), e, (RowAt i). }
  assert (forall r d e i row, r ∈ needs_compare p -> pass_offsets p !! r = Some (slot cap (hash_of r) d) ->
    ents !! slot cap (hash_of r) d = Some e -> ptr e = Some (RowAt i) -> rows !! i = Some row -> points rows out' r i row) as Hpoints.
  { intros r d e i row Hr Ho He Hp Hi. split; [by eapply Hin'|done]. }
  destruct (find_matches_spec rows out' 0 groups (needs_compare p) []) as (m & nm & Hfind & Hperm & Hm & Hnm); [done|lia| |].
  { apply Forall_forall. intros r Hr. destruct (Hinfo r Hr) as (d & e & i & row & _ & Ho & _ & _ & He & Hp & Hi & _ & Hw).
    rewrite Forall_forall in Hrange. split; [by apply Hrange|]. exists i, row. split; [by eapply Hpoints|done]. }
  rewrite app_nil_r in Hperm. pose proof Hnd as Hnd'. rewrite <-Hperm in Hnd'. apply NoDup_app in Hnd' as (_ & _ & Hndm).
  assert (forall r, r ∈ nm -> r ∈ needs_compare p) as Hsub by (intros r Hr; rewrite <-Hperm; apply elem_of_app; by right).
  destruct (bump_offsets_spec nm (pass_offsets p) Hndm) as (offs' & Hbump & Hlo & Hinc).
  { apply Forall_forall. intros r Hr%Hsub. rewrite Forall_forall in Hrange. specialize (Hrange r Hr). simpl in *. lia. }
  exists out', m, nm, offs'. split_and!; try done; [lia|lia| |].
  - intros r Hr. destruct (Hm r Hr) as (Hc' & Hg & Hh). destruct (Hinfo r Hc') as (d & e & i & row & _ & Ho & _ & _ & He & Hp & Hi & _).
    assert (points rows out' r i row) as Hpt by (by eapply Hpoints). rewrite (row_at_points _ _ _ _ _ Hpt) in Hg, Hh.
    exists i, row. rewrite drop_0 in Hg. done.
  - apply Forall_forall. intros r Hr. destruct (Hinfo r (Hsub r Hr)) as (d & e & i & row & Hd & Ho & Hre & HT & He & Hp & Hi & Hrh & _).
    assert (points rows out' r i row) as Hpt by (by eapply Hpoints; [apply Hsub| | | |]).
    destruct (Hnm r Hr) as [Hnil|[_ Hne]]; [by apply elem_of_nil in Hnil|].
    rewrite (row_at_points _ _ _ _ _ Hpt), drop_0 in Hne. exists (S d). split; [lia|].
    rewrite (Hinc r _ Hr Ho), slot_S by done. split; [done|]. apply reached_S; [done|].
    exists (hash_of r, group row). split; [done|]. intros [= Heq]. by destruct Hne as [Hne|Hne].
Qed.

(** One pass over the pending rows. *)
Lemma search_pass_spec k rows0 T s :
  search_inv k rows0 T s ->
  exists s' T', search_pass aggs groups hashes cap s = Ok s' /\ search_inv (S k) rows0 T' s'.
Proof.
  intros Hinv. destruct (probe_rows_spec _ _ _ _ _ (search_pass_init _ _ _ _ Hinv)) as (T' & p & Hprobe & Hpi & Hperm & Hkeep).
  simpl in Hperm, Hkeep. rewrite app_nil_r in Hperm.
  destruct Hinv as [_ _ _ _ Hout Hnd0 Hrange0 _ _ _ Hdone (news & Hrows & Hnews & Htotal) Hslots Hwidth].
  destruct (create_spec k (s_rows s) T' p (s_out s) Hpi Hout) as (ents & out & Hcreate & Hrel & Hlen & Hin & Hother & Hslots').
  { intros i Hi. destruct (Hslots i Hi) as (sl & e & He & Hp). exists sl, e. split; [apply Hkeep; [done|congruence]|done]. }
  set (rows := s_rows s ++ (new_row <$> new_groups p)) in *.
  assert (Forall (fun row => length (group row) = length groups) rows) as Hw.
  { apply Forall_app. split; [done|]. apply Forall_fmap, Forall_forall. intros r _. simpl. by rewrite length_fmap. }
  destruct (compare_rows_spec k (s_rows s) rows T' p ents out Hpi Hlen Hrel Hw) as
    (out' & m & nm & offs' & Hread & Hfind & Hbump & Hl1 & Hl2 & Hperm' & Hsame & Hm & Hat).
  exists (mkSearch ents offs' rows out' nm (s_total_new s + length (new_groups p))), T'. split.
  - unfold search_pass. rewrite (bind_ok _ _ _ Hprobe), (bind_ok _ _ _ Hcreate). destruct (Nat.eqb_spec (length (needs_compare p)) 0) as [Hz|Hz].
    + apply length_zero_iff_nil in Hz. rewrite Hz in Hread, Hfind, Hperm'. simpl in Hread. injection Hread as <-.
      symmetry in Hperm'. apply Permutation_nil_l in Hperm'. symmetry in Hperm'. apply app_nil in Hperm' as [-> ->]. simpl in Hbump. by injection Hbump as <-.
    + rewrite Hread. unfold mbind, res_bind. by rewrite Hfind, Hbump.
  - destruct Hpi as [Hlen' _ Hc' _ Hnd _ _ _ _ _ _ Hcount Hroom]. simpl in Hnd, Hroom.
    assert (forall r, r ∈ nm -> r ∈ needs_compare p) as Hsub by (intros r Hr; rewrite <-Hperm'; apply elem_of_app; by right).
    assert (length nm <= length (needs_compare p)) as Hle by (rewrite <-Hperm', length_app; lia).
    pose proof Hnd as (_ & Hdis & Hndc)%NoDup_app. rewrite <-Hperm' in Hndc. apply NoDup_app in Hndc as (_ & _ & Hndm).
    assert (forall r, r ∈ s_needs_insert s <-> (r ∈ new_groups p) \/ (r ∈ needs_compare p)) as Hsplit
      by (intros r; by rewrite <-Hperm, elem_of_app).
    constructor; simpl; try done.
    + apply Forall_forall. intros r Hr%Hsub. rewrite Forall_forall in Hrange0. apply Hrange0, Hsplit. by right.
    + rewrite Hcount. unfold rows. by rewrite length_app, length_fmap.
    + lia.
    + intros r Hr Hn. destruct (decide (r ∈ needs_compare p)) as [Hc|Hc].
      { apply Hm. assert (r ∈ m ++ nm) as [|]%elem_of_app by (by rewrite Hperm'); done. }
      destruct (decide (r ∈ new_groups p)) as [Hg|Hg].
      { destruct (Hin r Hg) as (i & Ho & Hi). exists i, (new_row r). split; [|done]. split; [by rewrite Hsame|done]. }
      destruct (Hdone r Hr) as (i & row & [Ho Hi] & Hk); [by intros [|]%Hsplit|].
      exists i, row. split; [|done]. split; [by rewrite Hsame, Hother|]. by apply lookup_app_l_Some.
    + exists (news ++ new_groups p). unfold rows. rewrite Hrows, fmap_app, app_assoc, length_app. split; [done|]. split; [|lia].
      apply Forall_app. split; [done|]. apply Forall_forall. intros r Hr. rewrite Forall_forall in Hrange0. apply Hrange0, Hsplit. by left.
    + intros i Hi. apply Hslots'. unfold rows in Hi. by rewrite length_app, length_fmap in Hi.
Qed.

(** The search ends after at most as many passes as there are slots. *)
Lemma search_loop_spec fuel k rows0 T s :
  search_inv k rows0 T s -> S cap <= fuel + k ->
  exists s' T', search_loop fuel aggs groups hashes cap s = Ok s' /\ search_inv (k + fuel) rows0 T' s' /\ s_needs_insert s' = [].
Proof.
  revert k T s. induction fuel as [|fuel IH]; intros k T s Hinv Hfuel.
  - destruct (s_needs_insert s) as [|r rest] eqn:Hn.
    + exists s, T. rewrite Nat.add_0_r. simpl. by rewrite Hn.
    + destruct Hinv as [Hlen _ _ _ _ _ _ Hat _ Hroom _ _ _ _]. rewrite Hn in Hat, Hroom. simpl in Hroom.
      apply Forall_cons in Hat as [(d & Hd & _ & Hr) _]. pose proof (reached_lt cap T _ _ d cap_pow2 Hlen ltac:(lia) Hr). lia.
  - destruct (s_needs_insert s) as [|r rest] eqn:Hn.
    + exists s, T. simpl. rewrite Hn. split; [done|]. split; [|done].
      destruct Hinv. constructor; try done. by rewrite Hn.
    + destruct (search_pass_spec k rows0 T s Hinv) as (s1 & T1 & Hrun & Hinv1). simpl. rewrite Hn, Hrun. unfold mbind, res_bind.
      replace (k + S fuel) with (S k + fuel) by lia. apply (IH (S k) T1 s1 Hinv1). lia.
Qed.

End Search.

(** ** Tables *)

Section Tables.
Context {V St : Type} `{EqDecision V}.
(** The hash the groups are inserted with ([hash_many_arrays]). *)
Variable hf : list (option V) -> Z.
Variable ncols : nat.
Implicit Types (t : BaseHashTable V St) (T : list (option (Z * list (option V)))).

Record table_wf t T : Prop := {
  tw_dir : directory_wf (row_of (data t)) (directory t) T;
  tw_count : num_occupied (directory t) = length (data t);
  tw_slots : forall i, i < length (data t) -> exists sl e, entries (directory t) !! sl = Some e /\ ptr e = Some (RowAt i);
  tw_width : Forall (fun row => length (group row) = ncols) (data t);
  tw_hash : Forall (fun row => row_hash row = hf (group row)) (data t);
  tw_states : Forall (fun row => length (states row) = length (aggregates t)) (data t);
}.

(** The group of the [r]-th row of a batch of group columns. *)
Definition batch_key (groups : list (list (option V))) (r : nat) : list (option V) := (fun col => col !!! r) <$> groups.

(** Group columns with their hashes. *)
Record batch_ok (groups : list (list (option V))) (hashes : list Z) (n : nat) : Prop := {
  bo_cols : length groups = ncols;
  bo_len : Forall (fun col => n <= length col) groups;
  bo_hashes : hashes = (fun r => hf (batch_key groups r)) <$> seq 0 n;
}.

Lemma batch_hash groups hashes n r : batch_ok groups hashes n -> r < n -> hashes !!! r = hf (batch_key groups r).
Proof.
  intros [_ _ ->] Hr. apply list_lookup_total_correct. by rewrite list_lookup_fmap, lookup_seq_lt.
Qed.

Lemma row_in_table t T i row :
  table_wf t T -> data t !! i = Some row -> exists sl e, entries (directory t) !! sl = Some e /\ ptr e = Some (RowAt i)
    /\ T !! sl = Some (Some (row_hash row, group row)).
Proof.
  intros Hwf Hi. destruct (tw_slots _ _ Hwf i) as (sl & e & He & Hp); [by eapply lookup_lt_Some|].
  exists sl, e. split; [done|]. split; [done|]. destruct (Forall2_lookup_l _ _ _ _ _ (dir_rel _ _ _ (tw_dir _ _ Hwf)) He) as (o & Ho & Hent).
  unfold entry_rel in Hent. rewrite Hp in Hent. destruct Hent as (g & Hrow & ->). simpl in Hrow. rewrite Hi in Hrow.
  simpl in Hrow. by injection Hrow as -> ->.
Qed.

(** No group has two rows. *)
Lemma table_nodup t T : table_wf t T -> NoDup (group <$> data t).
Proof.
  intros Hwf. apply NoDup_alt. intros i j g Hi Hj. rewrite list_lookup_fmap in Hi, Hj.
  destruct (data t !! i) as [ri|] eqn:Hri; [|done]. destruct (data t !! j) as [rj|] eqn:Hrj; [|done].
  simpl in *. simplify_eq. destruct (row_in_table t T i ri Hwf Hri) as (si & ei & Hei & Hpi & HTi).
  destruct (row_in_table t T j rj Hwf Hrj) as (sj & ej & Hej & Hpj & HTj).
  pose proof (tw_hash _ _ Hwf) as Hh. pose proof (Forall_lookup_1 _ _ _ _ Hh Hri) as Hhi.
  pose proof (Forall_lookup_1 _ _ _ _ Hh Hrj) as Hhj. simpl in *.
  assert (si = sj) as ->; [|congruence]. eapply chain_unique; [apply (dir_chain _ _ _ (tw_dir _ _ Hwf))|exact HTi|].
  rewrite HTj. congruence.
Qed.

(** Growing the directory of a table. *)
Lemma grow_spec t T n b :
  table_wf t T -> length (data t) <= b -> capacity (directory t) <= Nat.max 512 (6 * b) ->
  (Z.of_nat (b + n) <= 2 ^ 61)%Z ->
  exists d T', grow (directory t) n = Ok d /\ table_wf (mkTable (aggregates t) d (data t) (row_capacity t)) T'
    /\ length (data t) + n <= length T' /\ capacity d <= Nat.max 512 (6 * (b + n)).
Proof.
  intros Hwf Hb Hcap Hbound. pose proof (tw_dir _ _ Hwf) as Hdir. pose proof (directory_capacity _ _ _ (dir_rel _ _ _ Hdir)) as Hct.
  pose proof (tw_count _ _ Hwf) as Hcount. unfold grow, needs_resize, LOAD_NUM, LOAD_DEN.
  destruct (Nat.ltb_spec (capacity (directory t) * 7) ((num_occupied (directory t) + n) * 10)) as [Hlt|Hge].
  2: { exists (directory t), T. split; [done|]. split; [by destruct t|]. lia. }
  set (want := Nat.max (capacity (directory t) * 2) (n + capacity (directory t))).
  assert (want <= 3 * (b + n)) as Hwant by lia.
  pose proof (pow2_pos _ (dir_pow2 _ _ _ Hdir)) as Hpos.
  destruct (resize_spec _ (directory t) T want Hdir) as (d & T' & Hrun & Hdir' & Hocc & Hlen & Hsame); [lia| |].
  { apply Nat.log2_up_le_pow2; [lia|]. apply Nat2Z.inj_le. rewrite Nat2Z.inj_pow. change (Z.of_nat 2 ^ Z.of_nat 63)%Z with (2 ^ 63)%Z. lia. }
  exists d, T'. split; [done|]. split; [|split].
  - constructor; simpl; try apply Hwf; [done|by rewrite Hocc|]. intros i Hi.
    destruct (lookup_lt_is_Some_2 (data t) i Hi) as [row Hrow]. destruct (row_in_table t T i row Hwf Hrow) as (sl & _ & _ & _ & HT).
    destruct (proj2 (Hsame (row_hash row, group row)) (ex_intro _ sl HT)) as [sl' HT'].
    destruct (Forall2_lookup_r _ _ _ _ _ (dir_rel _ _ _ Hdir') HT') as (e & He & Hent). exists sl', e. split; [done|].
    unfold entry_rel in Hent. destruct (ptr e) as [[|j]|]; [by destruct Hent as (? & ? & _)| |done].
    destruct Hent as (g & Hrj & Heq). simpl in Hrj. destruct (data t !! j) as [rowj|] eqn:Hj; [|done]. simpl in Hrj.
    do 2 f_equal. eapply (NoDup_lookup (group <$> data t)); [by eapply table_nodup| |].
    + rewrite list_lookup_fmap, Hj. simpl. reflexivity.
    + rewrite list_lookup_fmap, Hrow. simpl. congruence.
  - rewrite Hlen. pose proof (next_power_of_two_spec want) as [_ Hle]. pose proof (occupied_le T).
    pose proof (dir_occupied _ _ _ Hdir). lia.
  - rewrite (directory_capacity _ _ _ (dir_rel _ _ _ Hdir')), Hlen.
    pose proof (next_power_of_two_lt want ltac:(lia)). lia.
Qed.

(** Finding or creating the groups of a batch. *)
Lemma find_or_create_spec t T groups hashes n out b :
  table_wf t T -> batch_ok groups hashes n -> length out = n ->
  length (data t) <= b -> capacity (directory t) <= Nat.max 512 (6 * b) -> (Z.of_nat (b + n) <= 2 ^ 61)%Z ->
  exists t' T' ptrs news, find_or_create_groups t groups hashes n out = Ok (t', ptrs) /\ table_wf t' T'
    /\ data t' = data t ++ (new_row (aggregates t) groups hashes <$> news) /\ Forall (fun r => r < n) news
    /\ aggregates t' = aggregates t /\ row_capacity t' = row_capacity t /\ length ptrs = n
    /\ capacity (directory t') <= Nat.max 512 (6 * (b + n))
    /\ (forall r, r < n -> exists i row, ptrs !! r = Some (Some (RowAt i)) /\ data t' !! i = Some row /\ group row = batch_key groups r).
Proof.
  intros Hwf Hok Hout Hb Hcap Hbound. unfold find_or_create_groups.
  assert (length hashes = n) as Hhl by (rewrite (bo_hashes _ _ _ Hok), length_fmap, length_seq; done).
  destruct (Nat.eqb_spec n 0) as [->|Hn].
  { exists t, T, out, []. simpl. rewrite app_nil_r, Nat.add_0_r. split_and!; try done. intros r Hr. lia. }
  rewrite take_ge by lia.
  destruct (grow_spec t T n b Hwf Hb Hcap Hbound) as (d & T1 & Hgrow & Hwf1 & Hroom & Hcap1). rewrite (bind_ok _ _ _ Hgrow).
  pose proof (tw_dir _ _ Hwf1) as Hdir. simpl in Hdir. pose proof (directory_capacity _ _ _ (dir_rel _ _ _ Hdir)) as Hct.
  set (offsets := (fun r => compute_offset_from_hash (hashes !!! r) (capacity d)) <$> seq 0 n).
  assert (collect (fun idx => h ← index hashes idx; Ok (compute_offset_from_hash h (capacity d))) (seq 0 n) = Ok offsets) as Hoffs.
  { apply collect_Forall2, Forall2_fmap_r, Forall_Forall2_diag, Forall_forall. intros r Hr%elem_of_seq.
    rewrite (index_hash hashes n Hhl) by lia. done. }
  rewrite (bind_ok _ _ _ Hoffs). rewrite Hct in *.
  assert (search_inv (aggregates t) groups hashes n (length T1) 0 (data t) T1
    (mkSearch (entries d) offsets (data t) out (seq 0 n) 0)) as Hinv.
  { pose proof (dir_pow2 _ _ _ Hdir) as Hp. pose proof (dir_occupied _ _ _ Hdir) as Ho. pose proof (tw_count _ _ Hwf1) as Hc. simpl in Hc.
    constructor; simpl; try done; try apply Hdir; rewrite ?length_seq; try lia.
    - unfold offsets. by rewrite length_fmap, length_seq.
    - apply NoDup_seq.
    - apply Forall_seq. lia.
    - apply Forall_seq. intros r Hr. exists 0. split; [lia|]. split; [|intros j Hj; lia].
      rewrite slot_0 by done. unfold offsets. rewrite list_lookup_fmap, lookup_seq_lt by lia. simpl. by rewrite Hct.
    - intros r Hr Hnin. destruct Hnin. apply elem_of_seq. lia.
    - exists []. simpl. by rewrite app_nil_r.
    - apply (tw_slots _ _ Hwf1).
    - rewrite (bo_cols _ _ _ Hok). apply Hwf. }
  destruct (search_loop_spec (aggregates t) groups hashes n (length T1) (dir_pow2 _ _ _ Hdir) (bo_len _ _ _ Hok) Hhl (S (length T1)) 0 (data t) T1 _ Hinv)
    as (s & T2 & Hloop & [Hlen Hrel Hc Hlo Hso _ _ _ Hcount _ Hdone (news & Hrows & Hnews & Htotal) Hslots Hwidth] & Hnil); [lia|].
  rewrite (bind_ok _ _ _ Hloop). eexists _, T2, (s_out s), news. split; [done|].
  pose proof (tw_count _ _ Hwf1) as Hc1. simpl in Hc1.
  assert (length (s_rows s) = length (data t) + length news) as Hsr by (by rewrite Hrows, length_app, length_fmap).
  split_and!; simpl; try done.
  - constructor; simpl; try done.
    + constructor; simpl; try done; rewrite ?Hlen; [apply Hdir|done|lia].
    + lia.
    + by rewrite <-(bo_cols _ _ _ Hok).
    + rewrite Hrows. apply Forall_app. split; [apply Hwf|]. apply Forall_fmap. eapply Forall_impl; [exact Hnews|].
      intros r Hr. simpl in *. by apply (batch_hash groups hashes n).
    + rewrite Hrows. apply Forall_app. split; [apply Hwf|]. apply Forall_fmap, Forall_forall. intros r _. simpl. by rewrite length_fmap.
  - unfold capacity. simpl. rewrite (Forall2_length _ _ _ Hrel), Hlen. lia.
  - intros r Hr. destruct (Hdone r Hr) as (i & row & [Ho Hi] & Hg & _); [rewrite Hnil; by apply not_elem_of_nil|].
    by exists i, row.
Qed.

(** ** States *)

Definition upd_row (a : nat) (f : St -> St) (row : GroupRow V St) : GroupRow V St :=
  mkRow (group row) (row_hash row) (alter f a (states row)).

Lemma modify_state_spec (rows : list (GroupRow V St)) i a f row :
  rows !! i = Some row -> a < length (states row) ->
  modify_state rows (Some (RowAt i)) a f = Ok (alter (upd_row a f) i rows).
Proof.
  intros Hi Ha. destruct (lookup_lt_is_Some_2 (states row) a Ha) as [s Hs]. simpl.
  rewrite (bind_ok _ _ _ (proj2 (index_Ok _ _ _) Hi)), (bind_ok _ _ _ (proj2 (index_Ok _ _ _) Hs)). f_equal.
  apply list_eq. intros j. destruct (decide (j = i)) as [->|Hne].
  - rewrite list_lookup_alter_eq, Hi, list_lookup_insert_eq by (by eapply lookup_lt_Some). simpl. unfold upd_row. do 2 f_equal.
    apply list_eq. intros b. destruct (decide (b = a)) as [->|Hb].
    + by rewrite list_lookup_alter_eq, Hs, list_lookup_insert_eq.
    + by rewrite list_lookup_alter_ne, list_lookup_insert_ne.
  - by rewrite list_lookup_alter_ne, list_lookup_insert_ne.
Qed.

(** Folding the rows that point to [j] into a state. *)
Definition fold_rows {X} (step : X -> St -> St) (ris : list (X * nat)) (j : nat) (s : St) : St :=
  fold_left (fun s ri => if decide (ri.2 = j) then step ri.1 s else s) ris s.

Lemma alter_compose {A} (f g : A -> A) i (l : list A) : alter f i (alter g i l) = alter (fun x => f (g x)) i l.
Proof.
  apply list_eq. intros j. destruct (decide (j = i)) as [->|].
  - rewrite !list_lookup_alter_eq. by destruct (l !! i).
  - by rewrite !list_lookup_alter_ne.
Qed.

Lemma alter_id' {A} (f : A -> A) i (l : list A) : (forall x, f x = x) -> alter f i l = l.
Proof.
  intros Hf. apply list_eq. intros j. destruct (decide (j = i)) as [->|].
  - rewrite list_lookup_alter_eq. destruct (l !! i); simpl; congruence.
  - by rewrite list_lookup_alter_ne.
Qed.

Definition fold_states {X} (a : nat) (step : X -> St -> St) (ris : list (X * nat)) (rows : list (GroupRow V St)) :=
  imap (fun j => upd_row a (fold_rows step ris j)) rows.

Lemma fold_rows_ext {X} (step step' : X -> St -> St) ris j s :
  (forall x s, step x s = step' x s) -> fold_rows step ris j s = fold_rows step' ris j s.
Proof.
  intros Hs. revert s. induction ris as [|[x i] ris IH]; intros s; [done|]. unfold fold_rows in *. simpl.
  rewrite IH. by destruct (decide (i = j)); rewrite ?Hs.
Qed.

Lemma fold_states_ext {X} a (step step' : X -> St -> St) ris rows :
  (forall x s, step x s = step' x s) -> fold_states a step ris rows = fold_states a step' ris rows.
Proof.
  intros Hs. apply list_eq. intros j. unfold fold_states. rewrite !list_lookup_imap. destruct (rows !! j) as [row|]; [|done].
  simpl. unfold upd_row. do 2 f_equal. apply list_alter_ext; [|done]. intros x _. by apply fold_rows_ext.
Qed.

Lemma fold_states_nil {X} a (step : X -> St -> St) rows : fold_states a step [] rows = rows.
Proof.
  apply list_eq. intros j. unfold fold_states. rewrite list_lookup_imap.
  destruct (rows !! j) as [row|]; [|done]. simpl. unfold upd_row. rewrite alter_id' by done. by destruct row.
Qed.

Lemma fold_states_cons {X} a (step : X -> St -> St) x i ris rows :
  fold_states a step ris (alter (upd_row a (step x)) i rows) = fold_states a step ((x, i) :: ris) rows.
Proof.
  apply list_eq. intros j. unfold fold_states. rewrite !list_lookup_imap. destruct (decide (j = i)) as [->|Hne].
  - rewrite list_lookup_alter_eq. destruct (rows !! i) as [row|]; [|done]. simpl. unfold upd_row. simpl. rewrite alter_compose.
    do 2 f_equal. unfold fold_rows. simpl. destruct (decide (i = i)); done.
  - rewrite list_lookup_alter_ne by done. destruct (rows !! j) as [rowj|]; [|done]. simpl. unfold upd_row, fold_rows. simpl.
    destruct (decide (i = j)); done.
Qed.

Lemma alter_rows_ok (a i : nat) f (rows : list (GroupRow V St)) :
  Forall (fun row => a < length (states row)) rows -> Forall (fun row => a < length (states row)) (alter (upd_row a f) i rows).
Proof. intros Hst. apply Forall_alter; [done|]. intros row' Hrow' Hl. simpl. by rewrite length_alter. Qed.

Lemma call_update_spec agg a inputs rows k idxs :
  Forall (fun col => k + length idxs <= length col) inputs ->
  Forall (fun i => i < length rows) idxs -> Forall (fun row => a < length (states row)) rows ->
  call_update agg a inputs k ((fun i => Some (RowAt i)) <$> idxs) rows
  = Ok (fold_states a (fun r s => update agg s (batch_key inputs r)) (zip (seq k (length idxs)) idxs) rows).
Proof.
  revert k rows. induction idxs as [|i idxs IH]; intros k rows Hcols Hlt Hst.
  { simpl. by rewrite fold_states_nil. }
  apply Forall_cons in Hlt as [Hi Hlt]. destruct (lookup_lt_is_Some_2 rows i Hi) as [row Hrow].
  cbn [length seq zip zip_with fmap list_fmap call_update].
  assert (collect (fun col => index col k) inputs = Ok (batch_key inputs k)) as Hargs.
  { apply collect_Forall2, Forall2_fmap_r, Forall_Forall2_diag. eapply Forall_impl; [exact Hcols|]. intros col Hcol.
    simpl in Hcol. apply index_Ok, list_lookup_lookup_total_lt. lia. }
  rewrite (bind_ok _ _ _ Hargs), (bind_ok _ _ _ (modify_state_spec rows i a _ row Hrow (Forall_lookup_1 _ _ _ _ Hst Hrow))).
  rewrite <-(fold_states_cons a (fun r s => update agg s (batch_key inputs r)) k i). apply IH.
  - eapply Forall_impl; [exact Hcols|]. intros col Hcol. simpl in *. lia.
  - by rewrite length_alter.
  - by apply alter_rows_ok.
Qed.

(** Combining the state of a source row, if it has one, into a destination. *)
Definition combine_step (agg : Aggregate V St) (src : option St) (dest : St) : St :=
  match src with Some s => combine agg dest s | None => dest end.

Lemma call_combine_spec agg a srcs idxs rows :
  length srcs = length idxs -> Forall (fun i => i < length rows) idxs ->
  Forall (fun row => a < length (states row)) rows -> Forall (fun row => a < length (states row)) srcs ->
  call_combine agg a srcs ((fun i => Some (RowAt i)) <$> idxs) rows
  = Ok (fold_states a (combine_step agg) (zip ((fun src => states src !! a) <$> srcs) idxs) rows).
Proof.
  revert idxs rows. induction srcs as [|src srcs IH]; intros [|i idxs] rows Hl Hlt Hst Hsrc; try done.
  { simpl. by rewrite fold_states_nil. }
  apply Forall_cons in Hlt as [Hi Hlt], Hsrc as [Ha Hsrc]. destruct (lookup_lt_is_Some_2 rows i Hi) as [row Hrow].
  destruct (lookup_lt_is_Some_2 (states src) a Ha) as [s Hs]. cbn [call_combine fmap list_fmap zip zip_with].
  rewrite (bind_ok _ _ _ (proj2 (index_Ok _ _ _) Hs)), (bind_ok _ _ _ (modify_state_spec rows i a _ row Hrow (Forall_lookup_1 _ _ _ _ Hst Hrow))).
  rewrite Hs, <-(fold_states_cons a (combine_step agg) (Some s) i). apply IH.
  - simpl in Hl. lia.
  - by rewrite length_alter.
  - by apply alter_rows_ok.
  - done.
Qed.

(** Folding one aggregate after the other. *)
Definition fold_aggs {X} (step : nat -> X -> St -> St) (ris : nat -> list (X * nat)) (sel : list nat)
    (rows : list (GroupRow V St)) : list (GroupRow V St) :=
  fold_left (fun rows a => fold_states a (step a) (ris a) rows) sel rows.

Lemma fold_aggs_lookup {X} step (ris : nat -> list (X * nat)) sel rows j row :
  NoDup sel -> rows !! j = Some row ->
  exists row', fold_aggs step ris sel rows !! j = Some row' /\ group row' = group row /\ row_hash row' = row_hash row
    /\ length (states row') = length (states row)
    /\ forall a, states row' !! a = (if decide (a ∈ sel) then fold_rows (step a) (ris a) j else id) <$> states row !! a.
Proof.
  intros Hnd. revert rows row. induction sel as [|b sel IH]; intros rows row Hj.
  { exists row. split_and!; try done. intros a. rewrite decide_False by (by apply not_elem_of_nil). by rewrite option_fmap_id. }
  apply NoDup_cons in Hnd as [Hb Hnd]. specialize (IH Hnd).
  destruct (IH (fold_states b (step b) (ris b) rows) (upd_row b (fold_rows (step b) (ris b) j) row)) as (row' & Hl & Hg & Hh & Hlen & Hst).
  { unfold fold_states. by rewrite list_lookup_imap, Hj. }
  exists row'. split; [done|]. split; [done|]. split; [done|]. simpl in Hlen. rewrite length_alter in Hlen. split; [done|].
  intros a. rewrite Hst. simpl. destruct (decide (a = b)) as [->|Hne].
  - rewrite list_lookup_alter_eq. rewrite (decide_True (P := b ∈ b :: sel)) by left. rewrite (decide_False (P := b ∈ sel)) by done.
    by rewrite option_fmap_id.
  - rewrite list_lookup_alter_ne by done. destruct (decide (a ∈ sel)) as [Hin|Hin].
    + by rewrite decide_True by (by right).
    + rewrite decide_False; [done|]. by intros [|]%elem_of_cons.
Qed.

Lemma length_fold_aggs {X} step (ris : nat -> list (X * nat)) sel rows : length (fold_aggs step ris sel rows) = length rows.
Proof.
  revert rows. induction sel as [|b sel IH]; intros rows; [done|]. simpl. rewrite IH. unfold fold_states. apply length_imap.
Qed.

Lemma fold_states_ok {X} (b : nat) (step : X -> St -> St) ris (rows : list (GroupRow V St)) m :
  Forall (fun row => m = length (states row)) rows -> Forall (fun row => m = length (states row)) (fold_states b step ris rows).
Proof.
  intros Hst. apply Forall_lookup. intros j row. unfold fold_states. rewrite list_lookup_imap.
  intros (r0 & Hr0 & ->)%fmap_Some. simpl. rewrite length_alter. by eapply Forall_lookup_1 in Hst.
Qed.

(** The inputs of an aggregate within the complete set of inputs. *)
Definition col_offset (aggs : list (Aggregate V St)) (a : nat) : nat := sum_list_with num_columns (take a aggs).

Definition agg_step (aggs : list (Aggregate V St)) (a : nat) (input_row : list (option V)) (s : St) : St :=
  match aggs !! a with
  | Some agg => update agg s (take (num_columns agg) (drop (col_offset aggs a) input_row))
  | None => s
  end.

Lemma col_offset_S aggs a agg : aggs !! a = Some agg -> col_offset aggs (S a) = col_offset aggs a + num_columns agg.
Proof. intros Ha. unfold col_offset. rewrite (take_S_r _ _ _ Ha), sum_list_with_app. simpl. lia. Qed.

Lemma col_offset_le aggs a : col_offset aggs a <= sum_list_with num_columns aggs.
Proof. unfold col_offset. rewrite <-(take_drop a aggs) at 2. rewrite sum_list_with_app. lia. Qed.

Lemma skip_inputs_spec aggs m prev inputs :
  prev + m <= length aggs -> length inputs = sum_list_with num_columns aggs ->
  skip_inputs aggs m prev (drop (col_offset aggs prev) inputs) = Ok (drop (col_offset aggs (prev + m)) inputs).
Proof.
  intros Hm Hl. revert prev Hm. induction m as [|m IH]; intros prev Hm; [by rewrite Nat.add_0_r|].
  destruct (lookup_lt_is_Some_2 aggs prev) as [agg Ha]; [lia|]. cbn [skip_inputs].
  rewrite (bind_ok _ _ _ (proj2 (index_Ok _ _ _) Ha)). pose proof (col_offset_S _ _ _ Ha) as HS. pose proof (col_offset_le aggs (S prev)).
  rewrite (proj2 (Nat.leb_le _ _)) by (rewrite length_drop; lia).
  change (rust_assert true _ ≫= ?f) with (f tt). cbv beta. rewrite drop_drop, <-HS, IH by lia. by rewrite Nat.add_succ_comm.
Qed.

Lemma update_states_spec aggs sel prev inputs idxs rows :
  StronglySorted lt sel -> Forall (fun a => prev <= a < length aggs) sel ->
  length inputs = sum_list_with num_columns aggs -> Forall (fun col => length idxs <= length col) inputs ->
  Forall (fun i => i < length rows) idxs -> Forall (fun row => length aggs = length (states row)) rows ->
  update_states aggs sel prev (drop (col_offset aggs prev) inputs) ((fun i => Some (RowAt i)) <$> idxs) rows
  = Ok (fold_aggs (fun a r => agg_step aggs a (batch_key inputs r)) (fun _ => zip (seq 0 (length idxs)) idxs) sel rows).
Proof.
  intros Hsort. revert prev rows. induction Hsort as [|a sel Hsort IH Hlt]; intros prev rows Hsel Hl Hcols Hidx Hst; [done|].
  apply Forall_cons in Hsel as [Ha Hsel]. destruct (lookup_lt_is_Some_2 aggs a) as [agg Hagg]; [lia|]. cbn [update_states].
  rewrite (proj2 (Nat.leb_le _ _)) by lia. change (rust_assert true _ ≫= ?f) with (f tt). cbv beta.
  rewrite (bind_ok _ _ _ (skip_inputs_spec aggs (a - prev) prev inputs ltac:(lia) Hl)).
  replace (prev + (a - prev)) with a by lia. rewrite (bind_ok _ _ _ (proj2 (index_Ok _ _ _) Hagg)).
  pose proof (col_offset_S _ _ _ Hagg) as HS. pose proof (col_offset_le aggs (S a)).
  rewrite (proj2 (Nat.leb_le _ _)) by (rewrite length_drop; lia). change (rust_assert true _ ≫= ?f) with (f tt). cbv beta.
  rewrite (bind_ok _ _ _ (call_update_spec agg a (take (num_columns agg) (drop (col_offset aggs a) inputs)) rows 0 idxs
    ltac:(by apply Forall_take, Forall_drop) Hidx ltac:(eapply Forall_impl; [exact Hst|]; simpl; intros; lia))).
  rewrite IH.
  - f_equal. unfold fold_aggs. simpl. f_equal. apply fold_states_ext. intros r s. unfold agg_step, batch_key.
    by rewrite Hagg, fmap_take, fmap_drop.
  - apply Forall_forall. intros b Hb. rewrite Forall_forall in Hsel, Hlt. specialize (Hsel b Hb). specialize (Hlt b Hb). lia.
  - done.
  - done.
  - unfold fold_states. by rewrite length_imap.
  - by apply fold_states_ok.
Qed.

(** ** What a table stands for *)

(** One input row: its group, the selected aggregates and the complete inputs. *)
Record event : Type := mkEvent {
  ev_key : list (option V);
  ev_sel : list nat;
  ev_row : list (option V);
}.

Definition event_step (aggs : list (Aggregate V St)) (a : nat) (s : St) (ev : event) : St :=
  if decide (a ∈ ev_sel ev) then agg_step aggs a (ev_row ev) s else s.

(** The state of aggregate [a] for the group [g]: the rows of the group, in
    order. *)
Definition agg_fold (aggs : list (Aggregate V St)) (g : list (option V)) (evs : list event) (a : nat) (s : St) : St :=
  fold_left (event_step aggs a) (filter (fun ev => ev_key ev = g) evs) s.

Record represents t (evs : list event) : Prop := {
  rep_states : forall i row, data t !! i = Some row -> forall a,
    states row !! a = (fun agg => agg_fold (aggregates t) (group row) evs a (new_aggregate_state agg)) <$> aggregates t !! a;
  rep_groups : forall g, g ∈ (group <$> data t) <-> (g ∈ (ev_key <$> evs));
}.

Record table_ok t (evs : list event) : Prop := {
  ok_wf : exists T, table_wf t T;
  ok_rep : represents t evs;
  ok_cap : capacity (directory t) <= Nat.max 512 (6 * length evs);
}.

Lemma table_groups_le t evs : table_ok t evs -> length (data t) <= length evs.
Proof.
  intros [[T Hwf] [_ Hg] _]. rewrite <-(length_fmap group), <-(length_fmap ev_key evs). apply submseteq_length.
  apply NoDup_submseteq; [by eapply table_nodup|]. intros g. by apply Hg.
Qed.

(** Changing only states keeps a table well formed. *)
Lemma table_wf_states t T rows :
  table_wf t T -> length rows = length (data t) ->
  (forall j row, data t !! j = Some row -> exists row', rows !! j = Some row' /\ group row' = group row
     /\ row_hash row' = row_hash row /\ length (states row') = length (states row)) ->
  table_wf (mkTable (aggregates t) (directory t) rows (row_capacity t)) T.
Proof.
  intros [[Hp Hrel Hc Ho] Hcount Hslots Hwidth Hhash Hst] Hlen Hrows.
  assert (forall j row', rows !! j = Some row' -> exists row, data t !! j = Some row /\ group row' = group row
     /\ row_hash row' = row_hash row /\ length (states row') = length (states row)) as Hback.
  { intros j row' Hj. destruct (lookup_lt_is_Some_2 (data t) j) as [row Hrow]; [rewrite <-Hlen; by eapply lookup_lt_Some|].
    destruct (Hrows j row Hrow) as (r2 & Hr2 & Hsame). exists row. split; [done|]. by simplify_eq. }
  constructor; simpl; try done; try congruence.
  - constructor; try done. eapply Forall2_impl; [exact Hrel|]. intros e o. unfold entry_rel. destruct (ptr e) as [[|i]|]; [done| |done].
    intros (g & Hrow & ->). exists g. split; [|done]. simpl in *. destruct (data t !! i) as [row|] eqn:Hi; [|done].
    destruct (Hrows i row Hi) as (row' & -> & Hg & Hh & _). simpl in *. by rewrite Hg, Hh.
  - intros i Hi. apply Hslots. lia.
  - apply Forall_lookup. intros j row' Hj. destruct (Hback j row' Hj) as (row & Hrow & -> & _). by eapply Forall_lookup_1 in Hwidth.
  - apply Forall_lookup. intros j row' Hj. destruct (Hback j row' Hj) as (row & Hrow & Hg & -> & _). rewrite Hg. by eapply Forall_lookup_1 in Hhash.
  - apply Forall_lookup. intros j row' Hj. destruct (Hback j row' Hj) as (row & Hrow & _ & _ & ->). by eapply Forall_lookup_1 in Hst.
Qed.

(** New groups have no rows yet. *)
Lemma represents_create t t' T' evs groups hashes news :
  represents t evs -> table_wf t' T' -> aggregates t' = aggregates t ->
  data t' = data t ++ (new_row (aggregates t) groups hashes <$> news) ->
  forall i row, data t' !! i = Some row -> forall a,
    states row !! a = (fun agg => agg_fold (aggregates t) (group row) evs a (new_aggregate_state agg)) <$> aggregates t !! a.
Proof.
  intros [Hst Hg] Hwf Haggs Hdata i row Hi a. pose proof (table_nodup _ _ Hwf) as Hnd. rewrite Hdata, fmap_app in Hnd.
  rewrite Hdata in Hi. apply lookup_app_Some in Hi as [Hi|[Hge Hi]]; [by eapply Hst|].
  apply NoDup_app in Hnd as (_ & Hdis & _).
  assert (filter (fun ev => ev_key ev = group row) evs = []) as Hnone.
  { destruct (filter _ evs) as [|ev rest] eqn:Hf; [done|]. assert (ev ∈ filter (fun ev => ev_key ev = group row) evs) as Hin by (rewrite Hf; left).
    apply list_elem_of_filter in Hin as [Hk Hin]. exfalso. apply (Hdis (group row)).
    - apply Hg. rewrite <-Hk. by apply list_elem_of_fmap_2.
    - eapply list_elem_of_lookup_2. rewrite list_lookup_fmap, Hi. done. }
  rewrite list_lookup_fmap in Hi. destruct (news !! _) as [r|]; [|done]. injection Hi as <-. simpl in *.
  rewrite list_lookup_fmap. destruct (aggregates t !! a) as [agg|]; [|done]. simpl. unfold agg_fold. by rewrite Hnone.
Qed.

(** The rows of a batch as events. *)
Definition batch_events (sel : list nat) (groups inputs : list (list (option V))) (n : nat) : list event :=
  (fun r => mkEvent (batch_key groups r) sel (batch_key inputs r)) <$> seq 0 n.

Lemma fold_batch_selected aggs sel groups inputs a g j ris s :
  a ∈ sel -> Forall (fun ri => ri.2 = j <-> batch_key groups ri.1 = g) ris ->
  fold_left (event_step aggs a) (filter (fun ev => ev_key ev = g)
    ((fun r => mkEvent (batch_key groups r) sel (batch_key inputs r)) <$> ris.*1)) s
  = fold_rows (fun r => agg_step aggs a (batch_key inputs r)) ris j s.
Proof.
  intros Ha Hris. revert s. induction Hris as [|[r i] ris Hri _ IH]; intros s; [done|]. simpl in Hri.
  rewrite !fmap_cons, filter_cons. unfold fold_rows. cbn [fst snd fold_left ev_key]. destruct (decide (i = j)) as [Hij|Hij].
  - rewrite decide_True by (by apply Hri). cbn [fold_left]. unfold event_step at 2. cbn [ev_sel ev_row].
    rewrite decide_True by done. apply IH.
  - rewrite decide_False by (by intros ?%Hri). apply IH.
Qed.

Lemma fold_unselected aggs a (evs : list event) s :
  Forall (fun ev => a ∉ ev_sel ev) evs -> fold_left (event_step aggs a) evs s = s.
Proof.
  intros Hevs. induction Hevs as [|ev evs Hev _ IH]; [done|]. simpl. unfold event_step at 2. by rewrite decide_False.
Qed.

(** Pointers as positions. *)
Definition pointed (p : option RowPtr) : nat := match p with Some (RowAt i) => i | _ => 0 end.

Lemma pointers_positions (ptrs : list (option RowPtr)) n :
  length ptrs = n -> (forall r, r < n -> exists i, ptrs !! r = Some (Some (RowAt i))) ->
  ptrs = (fun i => Some (RowAt i)) <$> (pointed <$> ptrs).
Proof.
  intros Hlen Hp. rewrite <-list_fmap_compose. rewrite <-(list_fmap_id ptrs) at 1. apply list_fmap_ext.
  intros r p Hr. destruct (Hp r) as (i & Hi); [rewrite <-Hlen; by eapply lookup_lt_Some|]. simplify_eq. done.
Qed.

(** The positions a search returned, paired with the rows of the batch. *)
Lemma positions_match t T groups ptrs n :
  table_wf t T -> length ptrs = n ->
  (forall r, r < n -> exists i row, ptrs !! r = Some (Some (RowAt i)) /\ data t !! i = Some row /\ group row = batch_key groups r) ->
  let idxs := pointed <$> ptrs in
  length idxs = n /\ Forall (fun i => i < length (data t)) idxs /\
  (forall j row, data t !! j = Some row -> Forall (fun ri => ri.2 = j <-> batch_key groups ri.1 = group row) (zip (seq 0 n) idxs)).
Proof.
  intros Hwf Hlen Hp idxs. assert (length idxs = n) as Hl by (unfold idxs; by rewrite length_fmap).
  assert (forall r i, idxs !! r = Some i -> exists row, data t !! i = Some row /\ group row = batch_key groups r) as Hidx.
  { intros r i. unfold idxs. rewrite list_lookup_fmap. intros (p & Hr & ->)%fmap_Some.
    destruct (Hp r) as (i & row & Hi & Hrow & Hg); [rewrite <-Hlen; by eapply lookup_lt_Some|]. simplify_eq. by exists row. }
  split; [done|]. split.
  - apply Forall_lookup. intros r i Hr. destruct (Hidx r i Hr) as (row & Hrow & _). by eapply lookup_lt_Some.
  - intros j row Hj. apply Forall_lookup. intros r [r' i] (Hr1 & Hr2)%lookup_zip_Some. simpl in *.
    apply lookup_seq in Hr1 as [-> _]. simpl. destruct (Hidx r i Hr2) as (rowi & Hi & Hg). split.
    + intros ->. congruence.
    + intros Heq. eapply (NoDup_lookup (group <$> data t)); [by eapply table_nodup| |].
      * rewrite list_lookup_fmap, Hi. simpl. reflexivity.
      * rewrite list_lookup_fmap, Hj. simpl. congruence.
Qed.

Lemma zip_seq_fst n (l : list nat) : length l = n -> (zip (seq 0 n) l).*1 = seq 0 n.
Proof. intros Hl. apply fst_zip. rewrite length_seq. lia. Qed.

(** Inputs of the aggregates, and a selection of them in order. *)
Record inputs_ok (aggs : list (Aggregate V St)) (sel : list nat) (inputs : list (list (option V))) (n : nat) : Prop := {
  io_sel : StronglySorted lt sel;
  io_range : Forall (fun a => a < length aggs) sel;
  io_cols : length inputs = sum_list_with num_columns aggs;
  io_len : Forall (fun col => n <= length col) inputs;
}.

Lemma sorted_nodup (l : list nat) : StronglySorted lt l -> NoDup l.
Proof.
  induction 1 as [|x l _ IH Hx]; constructor; [|done]. intros Hin. rewrite Forall_forall in Hx. specialize (Hx x Hin). lia.
Qed.

(** The groups after a search. *)
Lemma created_groups t t' evs groups hashes n news (ptrs : list (option RowPtr)) :
  represents t evs -> data t' = data t ++ (new_row (aggregates t) groups hashes <$> news) -> Forall (fun r => r < n) news ->
  (forall r, r < n -> exists i row, ptrs !! r = Some (Some (RowAt i)) /\ data t' !! i = Some row /\ group row = batch_key groups r) ->
  forall g, g ∈ (group <$> data t') <-> (g ∈ (ev_key <$> evs)) \/ exists r, r < n /\ g = batch_key groups r.
Proof.
  intros Hrep Hdata Hnews Hptr g. rewrite <-(rep_groups _ _ Hrep). split.
  - rewrite Hdata, fmap_app, elem_of_app. intros [|Hin]; [by left|right]. rewrite <-list_fmap_compose in Hin.
    apply list_elem_of_fmap in Hin as (r & -> & Hr). exists r. split; [|done]. rewrite Forall_forall in Hnews. by apply Hnews.
  - intros [Hin|(r & Hr & ->)].
    + rewrite Hdata, fmap_app, elem_of_app. by left.
    + destruct (Hptr r Hr) as (i & row & _ & Hi & <-). apply list_elem_of_fmap_2. by eapply list_elem_of_lookup_2.
Qed.

(** Folding into the states of a searched table. *)
Lemma fold_table_ok {X} t t' T' evs evs' groups hashes news sel (step : nat -> X -> St -> St) ris :
  represents t evs -> table_wf t' T' -> aggregates t' = aggregates t ->
  data t' = data t ++ (new_row (aggregates t) groups hashes <$> news) -> NoDup sel ->
  (forall j row a agg, data t' !! j = Some row -> aggregates t !! a = Some agg ->
     (if decide (a ∈ sel) then fold_rows (step a) (ris a) j else id)
       (agg_fold (aggregates t) (group row) evs a (new_aggregate_state agg))
     = agg_fold (aggregates t) (group row) evs' a (new_aggregate_state agg)) ->
  (forall g, g ∈ (group <$> data t') <-> (g ∈ (ev_key <$> evs'))) ->
  capacity (directory t') <= Nat.max 512 (6 * length evs') ->
  table_ok (mkTable (aggregates t') (directory t') (fold_aggs step ris sel (data t')) (row_capacity t')) evs'.
Proof.
  intros Hrep Hwf Haggs Hdata Hsel Hfold Hgroups Hcap. set (rows := fold_aggs _ _ _ _).
  assert (forall j row, data t' !! j = Some row -> exists row', rows !! j = Some row' /\ group row' = group row
     /\ row_hash row' = row_hash row /\ length (states row') = length (states row)
     /\ forall a, states row' !! a = (fun agg => agg_fold (aggregates t) (group row) evs' a (new_aggregate_state agg)) <$> aggregates t !! a)
    as Hrows.
  { intros j row Hj. destruct (fold_aggs_lookup step ris sel (data t') j row Hsel Hj) as (row' & Hl & Hg & Hh & Hls & Hst).
    exists row'. split_and!; try done. intros a. rewrite Hst.
    rewrite (represents_create t t' T' evs groups hashes news Hrep Hwf Haggs Hdata j row Hj a).
    destruct (aggregates t !! a) as [agg|] eqn:Ha; [|done]. simpl. f_equal. by apply (Hfold j row a agg). }
  assert (length rows = length (data t')) as Hlen by apply length_fold_aggs.
  constructor; [| |done].
  - exists T'. apply table_wf_states; [done|done|].
    intros j row Hj. destruct (Hrows j row Hj) as (row' & ? & ? & ? & ? & _). by exists row'.
  - constructor; simpl.
    + intros j row' Hj a. destruct (lookup_lt_is_Some_2 (data t') j) as [row Hrow]; [rewrite <-Hlen; by eapply lookup_lt_Some|].
      destruct (Hrows j row Hrow) as (r2 & Hr2 & Hg & _ & _ & Hst). simplify_eq. by rewrite Hst, Hg, Haggs.
    + intros g. rewrite <-Hgroups. assert (group <$> rows = group <$> data t') as ->; [|done].
      apply list_eq. intros j. rewrite !list_lookup_fmap. destruct (data t' !! j) as [row|] eqn:Hj.
      * destruct (Hrows j row Hj) as (row' & -> & Hg & _). simpl. by rewrite Hg.
      * rewrite (lookup_ge_None_2 rows); [done|]. rewrite Hlen. by apply lookup_ge_None.
Qed.

(** Inserting a batch. *)
Lemma insert_spec t evs sel groups inputs hashes n :
  table_ok t evs -> batch_ok groups hashes n -> inputs_ok (aggregates t) sel inputs n ->
  (Z.of_nat (length evs + n) <= 2 ^ 61)%Z ->
  exists t', insert_with_hashes t sel groups inputs hashes n = Ok t'
    /\ table_ok t' (evs ++ batch_events sel groups inputs n) /\ aggregates t' = aggregates t /\ row_capacity t' = row_capacity t.
Proof.
  intros Hok Hb [Hsel Hrange Hcols Hlen] Hbound. pose proof (table_groups_le _ _ Hok) as Hle.
  destruct Hok as [[T Hwf] Hrep Hcap].
  destruct (find_or_create_spec t T groups hashes n (replicate n None) (length evs) Hwf Hb)
    as (t1 & T1 & ptrs & news & Hfind & Hwf1 & Hdata & Hnews & Haggs & Hrc & Hlp & Hcap1 & Hptr); [by rewrite length_replicate|done..|].
  destruct (positions_match t1 T1 groups ptrs n Hwf1 Hlp Hptr) as (Hli & Hidx & Hmatch).
  assert (ptrs = (fun i => Some (RowAt i)) <$> (pointed <$> ptrs)) as Hpp.
  { apply (pointers_positions ptrs n Hlp). intros r Hr. destruct (Hptr r Hr) as (i & _ & Hi & _). by exists i. }
  set (idxs := pointed <$> ptrs) in *. unfold insert_with_hashes. rewrite (bind_ok _ _ _ Hfind). cbv beta iota.
  pose proof (update_states_spec (aggregates t1) sel 0 inputs idxs (data t1) Hsel) as Hupd. rewrite drop_0, <-Hpp in Hupd.
  rewrite Hupd; clear Hupd; try (rewrite Haggs; done); try done.
  2: { rewrite Haggs. eapply Forall_impl; [exact Hrange|]. simpl. lia. }
  2: by rewrite Hli.
  2: { eapply Forall_impl; [apply (tw_states _ _ Hwf1)|]. done. }
  eexists. split; [done|]. split; [|done].
  eapply (fold_table_ok t t1 T1 evs _ groups hashes news); try done; [by apply sorted_nodup| | |].
  - intros j row a agg Hj Ha. unfold agg_fold. rewrite filter_app, fold_left_app. rewrite Haggs, Hli. symmetry. destruct (decide (a ∈ sel)) as [Hin|Hin].
    + unfold batch_events. rewrite <-(zip_seq_fst n idxs Hli) at 1. by apply fold_batch_selected, Hmatch.
    + apply fold_unselected. apply Forall_forall. intros ev [_ Hev]%list_elem_of_filter.
      apply list_elem_of_fmap in Hev as (r & -> & _). done.
  - intros g. rewrite (created_groups t t1 evs groups hashes n news ptrs Hrep Hdata Hnews Hptr g), fmap_app, elem_of_app.
    apply or_iff_compat_l. unfold batch_events. rewrite <-list_fmap_compose, list_elem_of_fmap.
    split; [intros (r & Hr & ->); exists r; rewrite elem_of_seq; split; [done|lia]|].
    intros (r & -> & [_ Hr]%elem_of_seq). by exists r.
  - unfold batch_events. by rewrite length_app, length_fmap, length_seq.
Qed.

(** ** Merging *)

Lemma combine_states_spec aggs sel srcs idxs rows :
  Forall (fun a => a < length aggs) sel -> length srcs = length idxs ->
  Forall (fun i => i < length rows) idxs -> Forall (fun row => length aggs = length (states row)) rows ->
  Forall (fun row => length aggs = length (states row)) srcs ->
  combine_states aggs sel srcs ((fun i => Some (RowAt i)) <$> idxs) rows
  = Ok (fold_aggs (fun a src dest => match aggs !! a with Some agg => combine_step agg src dest | None => dest end)
          (fun a => zip ((fun src => states src !! a) <$> srcs) idxs) sel rows).
Proof.
  intros Hsel Hl. revert rows. induction Hsel as [|a sel Ha _ IH]; intros rows Hidx Hst Hsrc; [done|].
  destruct (lookup_lt_is_Some_2 aggs a Ha) as [agg Hagg]. cbn [combine_states].
  rewrite (bind_ok _ _ _ (proj2 (index_Ok _ _ _) Hagg)).
  rewrite (bind_ok _ _ _ (call_combine_spec agg a srcs idxs rows Hl Hidx ltac:(eapply Forall_impl; [exact Hst|]; simpl; intros; lia)
    ltac:(eapply Forall_impl; [exact Hsrc|]; simpl; intros; lia))).
  rewrite IH; [|unfold fold_states; by rewrite length_imap|by apply fold_states_ok|done].
  f_equal. unfold fold_aggs. simpl. f_equal. apply fold_states_ext. intros o dest. by rewrite Hagg.
Qed.

Lemma fold_rows_miss {X} (step : X -> St -> St) ris j s : j ∉ ris.*2 -> fold_rows step ris j s = s.
Proof.
  revert s. induction ris as [|[x i] ris IH]; intros s Hn; [done|]. rewrite fmap_cons in Hn. apply not_elem_of_cons in Hn as [Hne Hn].
  unfold fold_rows in *. simpl in *. destruct (decide (i = j)); [congruence|]. by apply IH.
Qed.

Lemma fold_rows_once {X} (step : X -> St -> St) ris j x s :
  NoDup (ris.*2) -> (x, j) ∈ ris -> fold_rows step ris j s = step x s.
Proof.
  revert s. induction ris as [|[y i] ris IH]; intros s Hnd Hin; [by apply elem_of_nil in Hin|].
  rewrite fmap_cons in Hnd. apply NoDup_cons in Hnd as [Hi Hnd]. simpl in Hi. unfold fold_rows. simpl.
  apply elem_of_cons in Hin as [[= <- <-]|Hin].
  - destruct (decide (j = j)); [|done]. by apply (fold_rows_miss step ris j).
  - destruct (decide (i = j)) as [->|]; [|by apply IH]. destruct Hi. by apply (list_elem_of_fmap_2 snd ris (x, j)).
Qed.

(** The arguments an aggregate receives from a list of events. *)
Definition agg_inputs (aggs : list (Aggregate V St)) (a : nat) (agg : Aggregate V St) (evs : list event) : list (list (option V)) :=
  omap (fun ev => if decide (a ∈ ev_sel ev) then Some (take (num_columns agg) (drop (col_offset aggs a) (ev_row ev))) else None) evs.

Lemma event_fold aggs a agg evs s :
  aggs !! a = Some agg -> fold_left (event_step aggs a) evs s = fold_left (update agg) (agg_inputs aggs a agg evs) s.
Proof.
  intros Ha. revert s. induction evs as [|ev evs IH]; intros s; [done|]. simpl. rewrite IH. unfold event_step, agg_step.
  rewrite Ha. by destruct (decide (a ∈ ev_sel ev)).
Qed.

(** Combining the states of two lists of inputs gives the state of both, in
    order. *)
Definition combines (agg : Aggregate V St) : Prop :=
  forall l1 l2, combine agg (fold_left (update agg) l1 (new_aggregate_state agg)) (fold_left (update agg) l2 (new_aggregate_state agg))
    = fold_left (update agg) (l1 ++ l2) (new_aggregate_state agg).

Lemma combine_folds aggs a agg evs1 evs2 :
  aggs !! a = Some agg -> combines agg ->
  combine agg (fold_left (event_step aggs a) evs1 (new_aggregate_state agg)) (fold_left (event_step aggs a) evs2 (new_aggregate_state agg))
  = fold_left (event_step aggs a) (evs1 ++ evs2) (new_aggregate_state agg).
Proof.
  intros Ha Hc. rewrite !(event_fold aggs a agg) by done. rewrite Hc. unfold agg_inputs. by rewrite omap_app.
Qed.

Lemma group_columns_key srcs r row :
  Forall (fun row : GroupRow V St => length (group row) = ncols) srcs -> srcs !! r = Some row ->
  batch_key (group_columns ncols srcs) r = group row.
Proof.
  intros Hw Hr. pose proof (Forall_lookup_1 _ _ _ _ Hw Hr) as Hl. simpl in Hl. unfold batch_key, group_columns.
  rewrite <-list_fmap_compose. apply list_eq. intros c. rewrite list_lookup_fmap. destruct (decide (c < ncols)) as [Hc|Hc].
  - rewrite lookup_seq_lt by done. simpl. destruct (lookup_lt_is_Some_2 (group row) c) as [v Hv]; [lia|].
    rewrite Hv. f_equal. apply list_lookup_total_correct. by rewrite list_lookup_fmap, Hr; simpl; rewrite Hv.
  - rewrite lookup_seq_ge by lia. symmetry. apply lookup_ge_None. lia.
Qed.

Lemma group_columns_ok srcs :
  Forall (fun row : GroupRow V St => length (group row) = ncols) srcs -> Forall (fun row => row_hash row = hf (group row)) srcs ->
  batch_ok (group_columns ncols srcs) (row_hash <$> srcs) (length srcs).
Proof.
  intros Hw Hh. constructor.
  - unfold group_columns. by rewrite length_fmap, length_seq.
  - unfold group_columns. apply Forall_fmap, Forall_forall. intros c _. simpl. by rewrite length_fmap.
  - apply list_eq. intros r. rewrite !list_lookup_fmap. destruct (srcs !! r) as [row|] eqn:Hr; simpl.
    + rewrite lookup_seq_lt by (by eapply lookup_lt_Some). simpl. rewrite (group_columns_key srcs r row Hw Hr). f_equal.
      by eapply Forall_lookup_1 in Hh.
    + rewrite lookup_seq_ge by (by apply lookup_ge_None). done.
Qed.

(** The events of some groups. *)
Definition events_of (ks : list (list (option V))) (evs : list event) : list event := filter (fun ev => ev_key ev ∈ ks) evs.

Lemma filter_events_of g ks evs :
  filter (fun ev => ev_key ev = g) (events_of ks evs) = if decide (g ∈ ks) then filter (fun ev => ev_key ev = g) evs else [].
Proof.
  unfold events_of. induction evs as [|ev evs IH]; [by case_decide|]. rewrite !filter_cons.
  destruct (decide (ev_key ev ∈ ks)) as [Hk|Hk].
  - rewrite filter_cons. destruct (decide (ev_key ev = g)) as [<-|Hne]; [|done]. rewrite IH. by rewrite !decide_True.
  - rewrite IH. destruct (decide (g ∈ ks)) as [Hg|]; [|done]. rewrite decide_False; [done|]. by intros <-.
Qed.

Lemma elem_events_of g ks evs : g ∈ (ev_key <$> events_of ks evs) <-> (g ∈ ks) /\ (g ∈ (ev_key <$> evs)).
Proof.
  unfold events_of. rewrite !list_elem_of_fmap. split.
  - intros (ev & -> & [Hk Hin]%list_elem_of_filter). split; [done|]. by exists ev.
  - intros (Hk & ev & -> & Hin). exists ev. split; [done|]. by apply list_elem_of_filter.
Qed.

Lemma length_events_of ks gs evs :
  NoDup gs -> (forall g, g ∈ gs -> (g ∉ ks) /\ (g ∈ (ev_key <$> evs))) ->
  length (events_of ks evs) + length gs <= length (events_of (ks ++ gs) evs).
Proof.
  intros Hnd. revert ks. induction Hnd as [|g gs Hg Hnd IH]; intros ks Hin; [rewrite app_nil_r; simpl; lia|].
  assert (length (events_of ks evs) < length (events_of (ks ++ [g]) evs)) as Hlt.
  { destruct (Hin g ltac:(left)) as [Hgk Hge]. clear -Hgk Hge. unfold events_of. induction evs as [|ev evs IH]; [by apply elem_of_nil in Hge|].
    assert (forall evs, length (filter (fun ev => ev_key ev ∈ ks) evs) <= length (filter (fun ev => ev_key ev ∈ ks ++ [g]) evs)) as Hmono.
    { clear. induction evs as [|ev evs IH]; [done|]. rewrite !filter_cons. destruct (decide (ev_key ev ∈ ks)) as [Hk|].
      - rewrite decide_True by (apply elem_of_app; by left). simpl. lia.
      - case_decide; simpl; lia. }
    rewrite fmap_cons in Hge. rewrite !filter_cons. apply elem_of_cons in Hge as [->|Hge].
    - rewrite decide_False by done. rewrite decide_True by (apply elem_of_app; right; left). specialize (Hmono evs). simpl. lia.
    - specialize (IH Hge). destruct (decide (ev_key ev ∈ ks)) as [Hk|].
      + rewrite decide_True by (apply elem_of_app; by left). simpl. lia.
      + case_decide; simpl; lia. }
  specialize (IH (ks ++ [g])). rewrite <-app_assoc in IH. simpl in IH |- *.
  assert (length (events_of (ks ++ [g]) evs) + length gs <= length (events_of (ks ++ g :: gs) evs)); [|lia].
  apply IH. intros g' Hg'. destruct (Hin g' ltac:(by right)) as [Hn Hk]. split; [|done].
  rewrite elem_of_app. intros [Hx|Hx%list_elem_of_singleton]; [done|congruence].
Qed.

(** Scanned rows of a table that stands for [evs]. *)
Record scanned_ok (aggs : list (Aggregate V St)) (evs : list event) (srcs : list (GroupRow V St)) : Prop := {
  so_nodup : NoDup (group <$> srcs);
  so_width : Forall (fun row => length (group row) = ncols) srcs;
  so_hash : Forall (fun row => row_hash row = hf (group row)) srcs;
  so_states : Forall (fun row => forall a,
    states row !! a = (fun agg => agg_fold aggs (group row) evs a (new_aggregate_state agg)) <$> aggs !! a) srcs;
  so_events : Forall (fun row => group row ∈ ev_key <$> evs) srcs;
}.

Lemma scanned_app aggs evs s1 s2 : scanned_ok aggs evs (s1 ++ s2) -> scanned_ok aggs evs s1 /\ scanned_ok aggs evs s2
  /\ (forall g, g ∈ (group <$> s1) -> g ∉ (group <$> s2)).
Proof.
  intros [Hnd Hw Hh Hs He]. rewrite fmap_app in Hnd. apply NoDup_app in Hnd as (Hn1 & Hdis & Hn2).
  rewrite !Forall_app in *. destruct Hw, Hh, Hs, He. by split_and!.
Qed.

Lemma scanned_lengths aggs evs srcs :
  scanned_ok aggs evs srcs -> Forall (fun row => length aggs = length (states row)) srcs.
Proof.
  intros Hs. eapply Forall_impl; [apply (so_states _ _ _ Hs)|]. intros row Hrow. apply Nat.le_antisymm; apply Nat.nlt_ge; intros Hlt.
  - destruct (lookup_lt_is_Some_2 aggs _ Hlt) as [agg Ha]. specialize (Hrow (length (states row))).
    rewrite Ha in Hrow. by rewrite lookup_ge_None_2 in Hrow by done.
  - destruct (lookup_lt_is_Some_2 (states row) _ Hlt) as [st Hst]. specialize (Hrow (length aggs)).
    rewrite Hst in Hrow. by rewrite lookup_ge_None_2 in Hrow by done.
Qed.

(** The positions of scanned rows in the searched table. *)
Record chunk_positions t T (srcs : list (GroupRow V St)) (idxs : list nat) : Prop := {
  cp_wf : table_wf t T;
  cp_len : length idxs = length srcs;
  cp_nodup : NoDup idxs;
  cp_row : forall k src i, srcs !! k = Some src -> idxs !! k = Some i -> exists row, data t !! i = Some row /\ group row = group src;
}.

Lemma chunk_positions_intro t T srcs ptrs :
  table_wf t T -> NoDup (group <$> srcs) -> Forall (fun row => length (group row) = ncols) srcs -> length ptrs = length srcs ->
  (forall r, r < length srcs -> exists i row, ptrs !! r = Some (Some (RowAt i)) /\ data t !! i = Some row
     /\ group row = batch_key (group_columns ncols srcs) r) ->
  chunk_positions t T srcs (pointed <$> ptrs).
Proof.
  intros Hwf Hnd Hw Hlp Hptr. assert (length (pointed <$> ptrs) = length srcs) as Hli by (by rewrite length_fmap).
  assert (forall k src i, srcs !! k = Some src -> (pointed <$> ptrs) !! k = Some i ->
    exists row, data t !! i = Some row /\ group row = group src) as Hpair.
  { intros k src i Hk Hi. destruct (Hptr k) as (i' & row & Hi' & Hrow & Hg); [by eapply lookup_lt_Some|].
    rewrite list_lookup_fmap, Hi' in Hi. simpl in Hi. simplify_eq. exists row. split; [done|].
    rewrite Hg. by apply group_columns_key. }
  constructor; try done. apply NoDup_alt. intros k1 k2 i Hk1 Hk2.
  destruct (lookup_lt_is_Some_2 srcs k1) as [s1 Hs1]; [rewrite <-Hli; by eapply lookup_lt_Some|].
  destruct (lookup_lt_is_Some_2 srcs k2) as [s2 Hs2]; [rewrite <-Hli; by eapply lookup_lt_Some|].
  destruct (Hpair _ _ _ Hs1 Hk1) as (r1 & Hr1 & Hg1), (Hpair _ _ _ Hs2 Hk2) as (r2 & Hr2 & Hg2).
  eapply (NoDup_lookup (group <$> srcs)); [done| |].
  - rewrite list_lookup_fmap, Hs1. simpl. reflexivity.
  - rewrite list_lookup_fmap, Hs2. simpl. congruence.
Qed.

Lemma same_group t T i j ri rj :
  table_wf t T -> data t !! i = Some ri -> data t !! j = Some rj -> group ri = group rj -> i = j.
Proof.
  intros Hwf Hi Hj Hg. eapply (NoDup_lookup (group <$> data t)); [by eapply table_nodup| |].
  - rewrite list_lookup_fmap, Hi. simpl. reflexivity.
  - rewrite list_lookup_fmap, Hj. simpl. congruence.
Qed.

(** Combining a chunk into the states of a group. *)
Lemma chunk_fold aggs t T evs1 evs2 ks srcs idxs j row a agg :
  chunk_positions t T srcs idxs -> scanned_ok aggs evs2 srcs -> (forall g, g ∈ (group <$> srcs) -> g ∉ ks) ->
  data t !! j = Some row -> aggs !! a = Some agg -> combines agg ->
  fold_rows (combine_step agg) (zip ((fun src => states src !! a) <$> srcs) idxs) j
    (agg_fold aggs (group row) (evs1 ++ events_of ks evs2) a (new_aggregate_state agg))
  = agg_fold aggs (group row) (evs1 ++ events_of (ks ++ (group <$> srcs)) evs2) a (new_aggregate_state agg).
Proof.
  intros [Hwf Hli Hnd Hpair] Hs Hks Hj Ha Hcomb. unfold agg_fold. rewrite !filter_app, !filter_events_of.
  destruct (decide (group row ∈ group <$> srcs)) as [Hin|Hin].
  - rewrite (decide_False (P := group row ∈ ks)) by (by apply Hks). rewrite app_nil_r.
    rewrite decide_True by (apply elem_of_app; by right). apply list_elem_of_fmap in Hin as (src & Hgs & Hsrc).
    apply list_elem_of_lookup in Hsrc as [k Hk]. destruct (lookup_lt_is_Some_2 idxs k) as [i Hi]; [rewrite Hli; by eapply lookup_lt_Some|].
    destruct (Hpair k src i Hk Hi) as (row' & Hrow' & Hg').
    assert (i = j) as -> by (eapply same_group; [done|exact Hrow'|exact Hj|congruence]).
    rewrite (fold_rows_once _ _ j (states src !! a)).
    + pose proof (so_states _ _ _ Hs) as Hst. rewrite Forall_forall in Hst. rewrite (Hst src) by (by eapply list_elem_of_lookup_2).
      rewrite Ha. simpl. rewrite <-Hgs. unfold agg_fold. by apply combine_folds.
    + rewrite snd_zip; [done|]. rewrite length_fmap. lia.
    + eapply list_elem_of_lookup_2. apply lookup_zip_Some. split; [|exact Hi]. by rewrite list_lookup_fmap, Hk.
  - rewrite fold_rows_miss.
    + do 2 f_equal. destruct (decide (group row ∈ ks)) as [Hk|Hk].
      * by rewrite decide_True by (apply elem_of_app; by left).
      * rewrite decide_False; [done|]. by intros [|]%elem_of_app.
    + rewrite snd_zip by (rewrite length_fmap; lia). intros (k & Hk)%list_elem_of_lookup.
      destruct (lookup_lt_is_Some_2 srcs k) as [src Hsrc]; [rewrite <-Hli; by eapply lookup_lt_Some|].
      destruct (Hpair k src j Hsrc Hk) as (row' & Hrow' & Hg'). simplify_eq. apply Hin. rewrite Hg'.
      apply list_elem_of_fmap_2. by eapply list_elem_of_lookup_2.
Qed.

(** The groups after a chunk. *)
Lemma chunk_groups aggs evs1 evs2 ks srcs g :
  scanned_ok aggs evs2 srcs ->
  (g ∈ (ev_key <$> evs1 ++ events_of ks evs2)) \/ (exists r, r < length srcs /\ g = batch_key (group_columns ncols srcs) r)
  <-> (g ∈ (ev_key <$> evs1 ++ events_of (ks ++ (group <$> srcs)) evs2)).
Proof.
  intros Hs. rewrite !fmap_app, !elem_of_app, !elem_events_of, elem_of_app.
  assert ((exists r, r < length srcs /\ g = batch_key (group_columns ncols srcs) r) <-> g ∈ group <$> srcs) as ->.
  { split.
    - intros (r & Hr & ->). destruct (lookup_lt_is_Some_2 srcs r Hr) as [src Hsrc].
      rewrite (group_columns_key srcs r src (so_width _ _ _ Hs) Hsrc). apply list_elem_of_fmap_2. by eapply list_elem_of_lookup_2.
    - intros (src & -> & (r & Hr)%list_elem_of_lookup)%list_elem_of_fmap. exists r. split; [by eapply lookup_lt_Some|].
      by rewrite (group_columns_key srcs r src (so_width _ _ _ Hs) Hr). }
  assert (g ∈ group <$> srcs -> g ∈ ev_key <$> evs2) as Hev.
  { intros (src & -> & Hsrc)%list_elem_of_fmap. pose proof (so_events _ _ _ Hs) as He. rewrite Forall_forall in He. by apply He. }
  tauto.
Qed.

(** One chunk of a merge. *)
Lemma merge_chunk t evs1 evs2 ks srcs :
  table_ok t (evs1 ++ events_of ks evs2) -> Forall combines (aggregates t) -> scanned_ok (aggregates t) evs2 srcs ->
  (forall g, g ∈ (group <$> srcs) -> g ∉ ks) -> (Z.of_nat (length evs1 + length evs2) <= 2 ^ 61)%Z ->
  exists t' ptrs rows,
    find_or_create_groups t (group_columns ncols srcs) (row_hash <$> srcs) (length srcs) (replicate (length srcs) None) = Ok (t', ptrs)
    /\ combine_states (aggregates t') (seq 0 (length (aggregates t))) srcs ptrs (data t') = Ok rows
    /\ aggregates t' = aggregates t /\ row_capacity t' = row_capacity t
    /\ table_ok (mkTable (aggregates t') (directory t') rows (row_capacity t')) (evs1 ++ events_of (ks ++ (group <$> srcs)) evs2).
Proof.
  intros Hok Hcomb Hs Hks Hbound. pose proof (table_groups_le _ _ Hok) as Hle. destruct Hok as [[T Hwf] Hrep Hcap].
  pose proof (group_columns_ok srcs (so_width _ _ _ Hs) (so_hash _ _ _ Hs)) as Hb.
  assert (length (events_of ks evs2) + length srcs <= length (events_of (ks ++ (group <$> srcs)) evs2)) as Hgrow.
  { rewrite <-(length_fmap group srcs). apply length_events_of; [apply Hs|]. intros g Hg. split; [by apply Hks|].
    apply list_elem_of_fmap in Hg as (row & -> & Hrow). pose proof (so_events _ _ _ Hs) as He. rewrite Forall_forall in He. by apply He. }
  assert (length (events_of (ks ++ (group <$> srcs)) evs2) <= length evs2) as Hmax by apply length_filter.
  destruct (find_or_create_spec t T (group_columns ncols srcs) (row_hash <$> srcs) (length srcs) (replicate (length srcs) None)
    (length (evs1 ++ events_of ks evs2)) Hwf Hb)
    as (t1 & T1 & ptrs & news & Hfind & Hwf1 & Hdata & Hnews & Haggs & Hrc & Hlp & Hcap1 & Hptr);
    [by rewrite length_replicate|done..|rewrite length_app; lia|].
  pose proof (chunk_positions_intro t1 T1 srcs ptrs Hwf1 (so_nodup _ _ _ Hs) (so_width _ _ _ Hs) Hlp Hptr) as Hcp.
  destruct (positions_match t1 T1 _ ptrs _ Hwf1 Hlp Hptr) as (Hli & Hidx & _).
  pose proof (combine_states_spec (aggregates t) (seq 0 (length (aggregates t))) srcs (pointed <$> ptrs) (data t1)) as Hrun.
  rewrite <-(pointers_positions ptrs (length srcs) Hlp) in Hrun by (intros r Hr; destruct (Hptr r Hr) as (i & _ & Hi & _); by exists i).
  exists t1, ptrs. eexists. split; [done|]. split; [|split; [done|split; [done|]]].
  - rewrite Haggs. apply Hrun; try done; [apply Forall_seq; lia| |by eapply scanned_lengths].
    eapply Forall_impl; [apply (tw_states _ _ Hwf1)|]. intros row Hrow. simpl in Hrow. by rewrite Hrow, Haggs.
  - eapply (fold_table_ok t t1 T1 _ _ _ _ news); try done; [apply NoDup_seq| | |].
    + intros j row a agg Hj Ha. rewrite decide_True by (apply elem_of_seq; split; [lia|]; by eapply lookup_lt_Some).
      rewrite Ha. eapply chunk_fold; try done. by eapply Forall_lookup_1 in Hcomb.
    + intros g. rewrite (created_groups t t1 _ _ _ _ news ptrs Hrep Hdata Hnews Hptr g). by eapply chunk_groups.
    + rewrite !length_app in *. lia.
Qed.

Lemma merge_loop_spec fuel t evs1 evs2 done_ src :
  table_ok t (evs1 ++ events_of (group <$> done_) evs2) -> Forall combines (aggregates t) ->
  scanned_ok (aggregates t) evs2 (done_ ++ src) -> 0 < row_capacity t -> length src < fuel ->
  (Z.of_nat (length evs1 + length evs2) <= 2 ^ 61)%Z ->
  exists t', merge_loop fuel ncols (seq 0 (length (aggregates t))) t src = Ok t'
    /\ table_ok t' (evs1 ++ events_of (group <$> done_ ++ src) evs2).
Proof.
  revert t done_ src. induction fuel as [|fuel IH]; intros t done_ src Hok Hcomb Hs Hrc Hfuel Hbound; [lia|]. cbn [merge_loop].
  destruct (Nat.eqb_spec (length (take (row_capacity t) src)) 0) as [Hz|Hz].
  { rewrite length_take in Hz. destruct src as [|row src]; [|simpl in Hz; lia]. exists t. by rewrite app_nil_r. }
  rewrite <-(take_drop (row_capacity t) src) in Hs. rewrite app_assoc in Hs.
  destruct (scanned_app _ _ _ _ Hs) as ([_ [Hchunk Hdis]]%scanned_app & _ & _).
  destruct (merge_chunk t evs1 evs2 (group <$> done_) (take (row_capacity t) src) Hok Hcomb Hchunk)
    as (t1 & ptrs & rows & Hfind & Hrun & Haggs & Hrc1 & Hok1); [by intros g Hg Hin; apply (Hdis g Hin)|done|].
  rewrite (bind_ok _ _ _ Hfind). cbv beta iota. rewrite (bind_ok _ _ _ Hrun). rewrite <-fmap_app in Hok1.
  destruct (IH _ (done_ ++ take (row_capacity t) src) (drop (row_capacity t) src) Hok1) as (t' & Hloop & Hok'); simpl; rewrite ?Haggs; try done.
  - lia.
  - rewrite length_take in Hz. rewrite length_drop. lia.
  - exists t'. simpl in Hloop. rewrite Haggs in Hloop. split; [done|]. by rewrite <-app_assoc, take_drop in Hok'.
Qed.

Lemma table_scanned t evs : table_ok t evs -> scanned_ok (aggregates t) evs (data t).
Proof.
  intros [[T Hwf] [Hst Hg] _]. constructor; try apply Hwf.
  - by eapply table_nodup.
  - apply Forall_lookup. intros i row Hi. by eapply Hst.
  - apply Forall_lookup. intros i row Hi. apply Hg. apply list_elem_of_fmap_2. by eapply list_elem_of_lookup_2.
Qed.

Lemma events_of_all t evs : table_ok t evs -> events_of (group <$> data t) evs = evs.
Proof.
  intros [_ [_ Hg] _]. apply filter_all, Forall_forall. intros ev Hev. apply Hg. by apply list_elem_of_fmap_2.
Qed.

Lemma table_empty t evs : table_ok t evs -> num_occupied (directory t) = 0 -> evs = [].
Proof.
  intros [[T Hwf] [_ Hg] _] Hz. rewrite (tw_count _ _ Hwf) in Hz. apply length_zero_iff_nil in Hz. rewrite Hz in Hg.
  destruct evs as [|ev evs]; [done|]. exfalso. apply (not_elem_of_nil (ev_key ev)). apply Hg. left.
Qed.

Lemma merge_from_spec t1 t2 evs1 evs2 :
  table_ok t1 evs1 -> table_ok t2 evs2 -> aggregates t2 = aggregates t1 -> Forall combines (aggregates t1) ->
  0 < row_capacity t1 -> (Z.of_nat (length evs1 + length evs2) <= 2 ^ 61)%Z ->
  exists t', merge_from ncols (seq 0 (length (aggregates t1))) t1 t2 = Ok t' /\ table_ok t' (evs1 ++ evs2).
Proof.
  intros Hok1 Hok2 Haggs Hcomb Hrc Hbound. unfold merge_from.
  destruct (Nat.eqb_spec (num_occupied (directory t1)) 0) as [Hz|_].
  { rewrite (table_empty t1 evs1 Hok1 Hz). by exists t2. }
  destruct (Nat.eqb_spec (num_occupied (directory t2)) 0) as [Hz|_].
  { rewrite (table_empty t2 evs2 Hok2 Hz), app_nil_r. by exists t1. }
  pose proof (table_scanned t2 evs2 Hok2) as Hs. rewrite Haggs in Hs.
  destruct (merge_loop_spec (S (length (data t2))) t1 evs1 evs2 [] (data t2)) as (t' & Hrun & Hok'); try done; [|lia|].
  - assert (events_of (group <$> []) evs2 = []) as ->; [|by rewrite app_nil_r].
    unfold events_of. clear. induction evs2 as [|ev evs IH]; [done|]. rewrite filter_cons, decide_False by apply not_elem_of_nil. done.
  - exists t'. split; [done|]. simpl in Hok'. by rewrite (events_of_all t2 evs2 Hok2) in Hok'.
Qed.

Lemma try_new_ok aggs row_cap : table_ok (try_new_table aggs row_cap) [].
Proof.
  constructor.
  - exists (replicate 512 None). constructor; try done; [|intros i Hi; simpl in Hi; lia]. constructor.
    + exists 9. by rewrite length_replicate.
    + by apply Forall2_replicate.
    + intros s h g Hs. by apply lookup_replicate in Hs as [? _].
    + by rewrite occupied_replicate.
  - constructor; [done|]. intros g. done.
  - done.
Qed.

End Tables.

(** ** Properties *)

Section Properties.
Context {V St : Type} `{EqDecision V}.
Variable hf : list (option V) -> Z.
Variable ncols : nat.

(** A batch to insert: selected aggregates, group and input columns, hashes. *)
Record InputBatch : Type := mkInput {
  ib_sel : list nat;
  ib_groups : list (list (option V));
  ib_inputs : list (list (option V));
  ib_hashes : list Z;
  ib_rows : nat;
}.

Fixpoint insert_all (t : BaseHashTable V St) (bs : list InputBatch) : res (BaseHashTable V St) :=
  match bs with
  | [] => Ok t
  | b :: bs' =>
      t' ← insert_with_hashes t (ib_sel b) (ib_groups b) (ib_inputs b) (ib_hashes b) (ib_rows b);
      insert_all t' bs'
  end.

Record input_wf (aggs : list (Aggregate V St)) (b : InputBatch) : Prop := {
  iw_batch : batch_ok hf ncols (ib_groups b) (ib_hashes b) (ib_rows b);
  iw_inputs : inputs_ok aggs (ib_sel b) (ib_inputs b) (ib_rows b);
}.

(** The rows of a sequence of batches. *)
Definition input_events (bs : list InputBatch) : list event :=
  b ← bs; batch_events (ib_sel b) (ib_groups b) (ib_inputs b) (ib_rows b).

Lemma insert_all_spec t evs bs :
  table_ok hf ncols t evs -> Forall (input_wf (aggregates t)) bs ->
  (Z.of_nat (length evs + length (input_events bs)) <= 2 ^ 61)%Z ->
  exists t', insert_all t bs = Ok t' /\ table_ok hf ncols t' (evs ++ input_events bs)
    /\ aggregates t' = aggregates t /\ row_capacity t' = row_capacity t.
Proof.
  revert t evs. induction bs as [|b bs IH]; intros t evs Hok Hbs Hbound.
  { exists t. unfold input_events. simpl. by rewrite app_nil_r. }
  apply Forall_cons in Hbs as [[Hb Hi] Hbs]. unfold input_events in *. cbn [mbind list_bind] in *. rewrite length_app in Hbound.
  assert (length (batch_events (ib_sel b) (ib_groups b) (ib_inputs b) (ib_rows b)) = ib_rows b) as Hlen
    by (unfold batch_events; by rewrite length_fmap, length_seq).
  destruct (insert_spec hf ncols t evs (ib_sel b) (ib_groups b) (ib_inputs b) (ib_hashes b) (ib_rows b) Hok Hb Hi)
    as (t1 & Hrun & Hok1 & Ha1 & Hr1); [lia|]. cbn [insert_all]. rewrite (bind_ok _ _ _ Hrun).
  destruct (IH t1 _ Hok1) as (t' & Hrun' & Hok' & Ha' & Hr'); [by rewrite Ha1|rewrite length_app; lia|].
  exists t'. rewrite <-app_assoc in Hok'. split_and!; try done; congruence.
Qed.

(** Hash aggregation is correct: inserting any sequence of batches into a
    new table succeeds (the directory grows as needed, every probe and every
    search ends, no pointer is invalid), no group has two rows, the groups are
    exactly those of the input, and the state of every aggregate for a group is
    the fold of the inputs of exactly that group's rows, in order, over the
    batches that select the aggregate.  Groups are compared with NULL equal to
    NULL, whatever the hash function, collisions included. *)
Theorem hash_aggregate_correct (aggs : list (Aggregate V St)) row_cap bs :
  Forall (input_wf aggs) bs -> (Z.of_nat (length (input_events bs)) <= 2 ^ 61)%Z ->
  exists t, insert_all (try_new_table aggs row_cap) bs = Ok t /\ aggregates t = aggs
    /\ NoDup (group <$> data t) /\ represents t (input_events bs).
Proof.
  intros Hbs Hbound.
  destruct (insert_all_spec (try_new_table aggs row_cap) [] bs (try_new_ok hf ncols aggs row_cap) Hbs Hbound)
    as (t & Hrun & [[T Hwf] Hrep _] & Haggs & _).
  exists t. split_and!; try done. by eapply table_nodup.
Qed.

(** Merging is correct: for aggregates whose combination of two states is
    the state of both inputs, merging the table of one sequence of batches into
    the table of another succeeds and gives the table of both sequences, which
    is how the tables the partitions built are put together. *)
Theorem hash_merge_correct (aggs : list (Aggregate V St)) row_cap bs1 bs2 :
  0 < row_cap -> Forall combines aggs -> Forall (input_wf aggs) (bs1 ++ bs2) ->
  (Z.of_nat (length (input_events (bs1 ++ bs2))) <= 2 ^ 61)%Z ->
  exists t1 t2 t, insert_all (try_new_table aggs row_cap) bs1 = Ok t1 /\ insert_all (try_new_table aggs row_cap) bs2 = Ok t2
    /\ merge_from ncols (seq 0 (length aggs)) t1 t2 = Ok t
    /\ NoDup (group <$> data t) /\ represents t (input_events (bs1 ++ bs2)).
Proof.
  intros Hcap Hcomb [Hb1 Hb2]%Forall_app Hbound. unfold input_events in *. rewrite bind_app, length_app in *.
  destruct (insert_all_spec (try_new_table aggs row_cap) [] bs1 (try_new_ok hf ncols aggs row_cap) Hb1)
    as (t1 & Hrun1 & Hok1 & Ha1 & Hr1); [unfold input_events; simpl; lia|].
  destruct (insert_all_spec (try_new_table aggs row_cap) [] bs2 (try_new_ok hf ncols aggs row_cap) Hb2)
    as (t2 & Hrun2 & Hok2 & Ha2 & Hr2); [unfold input_events; simpl; lia|].
  destruct (merge_from_spec hf ncols t1 t2 _ _ Hok1 Hok2) as (t & Hm & [[T Hwf] Hrep _]).
  - congruence.
  - by rewrite Ha1.
  - by rewrite Hr1.
  - unfold input_events. simpl. lia.
  - exists t1, t2, t. rewrite Ha1 in Hm. split_and!; try done. by eapply table_nodup.
Qed.

End Properties.

(** A sum and a count over two columns, grouped by one column, with a hash
    function that makes all groups collide. *)
Module AggExample.

Definition sum_agg : Aggregate Z Z :=
  mkAggregate 1 0%Z (fun s args => match args with [Some v] => s + v | _ => s end)%Z Z.add Some.
Definition count_agg : Aggregate Z Z :=
  mkAggregate 1 0%Z (fun s args => match args with [Some _] => s + 1 | _ => s end)%Z Z.add Some.
Definition aggs : list (Aggregate Z Z) := [sum_agg; count_agg].

Definition hf (_ : list (option Z)) : Z := 7%Z.

Definition batch1 : @InputBatch Z :=
  mkInput [0; 1] [[Some 1; None; Some 1; Some 2]]%Z [[Some 10; Some 20; Some 30; None]; [None; Some 1; Some 1; Some 1]]%Z
    (replicate 4 7%Z) 4.
Definition batch2 : @InputBatch Z :=
  mkInput [1] [[Some 2; None]]%Z [[Some 5; Some 6]; [Some 1; Some 1]]%Z (replicate 2 7%Z) 2.

Lemma batches_ok : Forall (input_wf hf 1 aggs) [batch1; batch2].
Proof.
  repeat constructor; simpl; try lia.
Qed.

Lemma sums_combine : Forall combines aggs.
Proof.
  assert (forall (f : list (option Z) -> Z) l (s : Z), fold_left (fun s args => s + f args)%Z l s = (s + fold_left (fun s args => s + f args)%Z l 0)%Z) as Hadd.
  { intros f l. induction l as [|x l IH]; intros s; simpl; [lia|]. rewrite (IH (s + f x)%Z), (IH (0 + f x)%Z). lia. }
  assert (forall agg (f : list (option Z) -> Z), new_aggregate_state agg = 0%Z -> combine agg = Z.add ->
    (forall s args, update agg s args = s + f args)%Z -> combines agg) as Hc.
  { intros agg f Hn Hcb Hu l1 l2. rewrite Hn, Hcb, fold_left_app.
    assert (forall l s, fold_left (update agg) l s = fold_left (fun s args => s + f args)%Z l s) as Hext.
    { induction l as [|x l IH]; intros s; [done|]. simpl. by rewrite Hu. }
    rewrite !Hext. symmetry. apply Hadd. }
  repeat constructor.
  - apply (Hc sum_agg (fun args => match args with [Some v] => v | _ => 0 end)%Z); [done|done|].
    intros s args. destruct args as [|[v|] [|]]; simpl; lia.
  - apply (Hc count_agg (fun args => match args with [Some v] => 1 | _ => 0 end)%Z); [done|done|].
    intros s args. destruct args as [|[v|] [|]]; simpl; lia.
Qed.

Lemma hash_aggregate_correct_witness :
  exists t, insert_all (try_new_table aggs 16) [batch1; batch2] = Ok t
    /\ NoDup (group <$> data t) /\ forall i row, data t !! i = Some row -> group row = [None] -> states row !! 1 = Some 2%Z.
Proof.
  destruct (hash_aggregate_correct hf 1 aggs 16 [batch1; batch2] batches_ok) as (t & Hrun & Ha & Hnd & [Hst _]); [vm_compute; done|].
  exists t. split; [exact Hrun|]. split; [exact Hnd|]. intros i row Hi Hg. rewrite (Hst i row Hi 1), Hg, Ha. reflexivity.
Defined.

Lemma hash_merge_correct_witness :
  exists t1 t2 t, insert_all (try_new_table aggs 1) [batch1] = Ok t1 /\ insert_all (try_new_table aggs 1) [batch2] = Ok t2
    /\ merge_from 1 [0; 1] t1 t2 = Ok t /\ represents t (input_events [batch1; batch2]).
Proof.
  destruct (hash_merge_correct hf 1 aggs 1 [batch1] [batch2] (Nat.lt_0_1) sums_combine batches_ok)
    as (t1 & t2 & t & Hr1 & Hr2 & Hm & _ & Hrep); [vm_compute; done|].
  exists t1, t2, t. split; [exact Hr1|]. split; [exact Hr2|]. split; [exact Hm|exact Hrep].
Defined.

End AggExample.
