(* ===== verification/PartitionedTable.v ===== *)
(** * The partitioned aggregate hash table

    Models [execution/operators/hash_aggregate/hash_table/partitioned.rs] with
    [grouping_value.rs]: every partition inserts into tables of its own, one per
    output partition, picked by the hash of the group; the tables are flushed to
    the shared operator state, every partition merges those of its output
    partition, and all partitions scan disjoint blocks of all final tables.  A
    batch is the list of its logical columns. *)
From S2P Require Import Prelude PartitionSync RowBlocks Hash HashDirectory AggHashTable.

(** ** Partitioning by hash *)

(** [partition] *)
Definition partition (hash : Z) (partitions : nat) : nat := Z.to_nat (Z.shiftr (hash * Z.of_nat partitions) 64).

(** [NO_GROUPS_HASH_VALUE] of [base.rs]. *)
Definition NO_GROUPS_HASH_VALUE : Z := 49820.

(** [PartitionSelector] *)
Record PartitionSelector : Type := mkSelector {
  partition_indices : list nat;
  counts : list nat;
  buckets : list (list nat);
}.

(** [PartitionSelector::new] *)
Definition new_selector (partition_count : nat) : PartitionSelector :=
  mkSelector [] (replicate partition_count 0) (replicate partition_count []).

(** [counts[p] += 1] for every partition index. *)
Fixpoint count_partitions (indices : list nat) (counts : list nat) : res (list nat) :=
  match indices with
  | [] => Ok counts
  | p :: rest => c ← index counts p; count_partitions rest (<[p := S c]> counts)
  end.

(** [buckets[partition].push(i)] from row [i] on. *)
Fixpoint fill_buckets (i : nat) (indices : list nat) (buckets : list (list nat)) : res (list (list nat)) :=
  match indices with
  | [] => Ok buckets
  | p :: rest => bucket ← index buckets p; fill_buckets (S i) rest (<[p := bucket ++ [i]]> buckets)
  end.

(** [PartitionSelector::reset_using_hashes] *)
Definition reset_using_hashes (s : PartitionSelector) (hashes : list Z) : res PartitionSelector :=
  let pcount := length (counts s) in
  let indices := (fun hash => partition hash pcount) <$> hashes in
  counts' ← count_partitions indices (replicate pcount 0);
  buckets' ← fill_buckets 0 indices ((fun _ => []) <$> buckets s);
  Ok (mkSelector indices counts' buckets').

(** [compute_grouping_value]: [exprs] is what is left of the expressions in
    reverse, [idx] the next bit. *)
Fixpoint grouping_value_loop (grouping_set : list nat) (exprs : list nat) (idx : nat) (grouping_val : Z) : res Z :=
  match exprs with
  | [] => Ok grouping_val
  | group_col :: rest =>
      if bool_decide (group_col ∈ grouping_set) then grouping_value_loop grouping_set rest (S idx) grouping_val
      else
        _ ← rust_assert (idx <? 64) "attempt to shift left with overflow";
        let bit := if idx =? 63 then (- 2 ^ 63)%Z else Z.shiftl 1 (Z.of_nat idx) in
        grouping_value_loop grouping_set rest (S idx) (Z.lor grouping_val bit)
  end.

Definition compute_grouping_value (group_exprs : list nat) (grouping_set : list nat) : res Z :=
  grouping_value_loop grouping_set (rev group_exprs) 0 0.

Section PartitionedTable.
Context {V St : Type} `{EqDecision V}.
(** Hashing of a value, and the value of an [Int64] scalar. *)
Variable hash_one : V -> Z.
Variable int64_value : Z -> V.
Variable batch_size : nat.

Local Abbreviation Table := (BaseHashTable V St).

(** [PhysicalAggregateExpression] *)
Record PhysicalAggregate : Type := mkPhysical {
  function : Aggregate V St;
  columns : list nat;
  is_distinct : bool;
}.

(** The columns of a [Batch]. *)
Record Columns : Type := mkColumns {
  arrays : list (list (option V));
  num_rows : nat;
}.

(** [PartitionedHashTable]; the grouping set is in ascending order. *)
Record PartitionedHashTable : Type := mkPartitioned {
  layout : list PhysicalAggregate;
  grouping_set : list nat;
  groups : list nat;
  grouping_values : list Z;
}.

(** [PartitionedHashTable::try_new] *)
Definition try_new_partitioned (aggs_groups : list nat) (grouping_functions : list (list nat)) (aggs : list PhysicalAggregate)
    (set : list nat) : res PartitionedHashTable :=
  values ← collect (fun func => compute_grouping_value func set) grouping_functions;
  _ ← collect (index aggs_groups) set;
  Ok (mkPartitioned aggs set aggs_groups values).

(** [InitializedOperatorState]: a row of [flushed] per output partition, with a
    cell per partition. *)
Record TableOperatorState : Type := mkTableState {
  flushed : list (list (option Table));
  final_tables : list (option Table);
  remaining_flushers : nat;
  remaining_mergers : nat;
}.

Record LocalBuildingState : Type := mkBuilding {
  building_idx : nat;
  partition_selector : PartitionSelector;
  building_tables : list Table;
}.

Record LocalScanningState : Type := mkScanning {
  scan_tables : list Table;
  scan_states : list RowScanState;
}.

(** [PartitionedHashTablePartitionState] *)
Inductive TablePartitionState : Type :=
| Initializing (partition_idx : nat) (selector : PartitionSelector)
| Building (building : LocalBuildingState)
| MergeReady (partition_idx : nat)
| ScanReady (partition_idx : nat)
| Scanning (scanning : LocalScanningState)
| Uninit.

Variable table : PartitionedHashTable.

(** [create_partition_states], on the not yet initialized operator state. *)
Definition create_partition_states (op : option TableOperatorState) (partitions : nat) :
    res (TableOperatorState * list TablePartitionState) :=
  match op with
  | Some _ => Panic "op state to only be initialized once"
  | None =>
      Ok (mkTableState (replicate partitions (replicate partitions None)) (replicate partitions None) partitions partitions,
          (fun idx => Initializing idx (new_selector partitions)) <$> seq 0 partitions)
  end.

(** [partition_count] *)
Definition partition_count (op : TableOperatorState) : nat := length (final_tables op).

(** [prepare_build] *)
Definition prepare_build (op : TableOperatorState) (st : TablePartitionState) : res TablePartitionState :=
  match st with
  | Initializing idx selector =>
      let tables := replicate (partition_count op) (try_new_table (function <$> layout table) batch_size) in
      Ok (Building (mkBuilding idx selector tables))
  | _ => Err "Partition in invalid state, cannot prepare build"
  end.

(** [prepare_build_maybe] *)
Definition prepare_build_maybe (op : TableOperatorState) (st : TablePartitionState) : res TablePartitionState :=
  match st with
  | Initializing _ _ => prepare_build op st
  | _ => Ok st
  end.

(** The hash of a group: [hash_many_arrays], or the fixed value without groups. *)
Definition group_hash (key : list (option V)) : Z := default NO_GROUPS_HASH_VALUE (row_hash_value hash_one key).

Definition hash_groups (group_cols : list (list (option V))) (n : nat) : res (list Z) :=
  collect (fun r => key ← collect (fun col => index col r) group_cols; Ok (group_hash key)) (seq 0 n).

(** [Batch::select] *)
Definition select_columns (cols : list (list (option V))) (sel : list nat) : res (list (list (option V))) :=
  collect (fun col => collect (index col) sel) cols.

(** The loop of [insert_local] over the tables from partition [idx] on. *)
Fixpoint insert_tables (idx : nat) (tables : list Table) (selector : PartitionSelector) (agg_selection : list nat)
    (group_cols input_cols : list (list (option V))) (hashes : list Z) : res (list Table) :=
  match tables with
  | [] => Ok []
  | t :: rest =>
      row_sel ← index (buckets selector) idx;
      t' ← (if length row_sel =? 0 then Ok t
            else
              g ← select_columns group_cols row_sel;
              i ← select_columns input_cols row_sel;
              h ← collect (index hashes) row_sel;
              insert_with_hashes t agg_selection g i h (length row_sel));
      rest' ← insert_tables (S idx) rest selector agg_selection group_cols input_cols hashes;
      Ok (t' :: rest')
  end.

(** [insert_local] *)
Definition insert_local (b : LocalBuildingState) (agg_selection : list nat) (group_cols input_cols : list (list (option V))) (n : nat) :
    res LocalBuildingState :=
  hashes ← hash_groups group_cols n;
  selector ← reset_using_hashes (partition_selector b) hashes;
  tables ← insert_tables 0 (building_tables b) selector agg_selection group_cols input_cols hashes;
  Ok (mkBuilding (building_idx b) selector tables).

(** [insert_partition_local] *)
Definition insert_partition_local (op : TableOperatorState) (st : TablePartitionState) (agg_selection : list nat) (input : Columns) :
    res TablePartitionState :=
  st ← prepare_build_maybe op st;
  match st with
  | Building b =>
      group_cols ← collect (fun src => c ← index (groups table) src; index (arrays input) c) (grouping_set table);
      input_cols ← collect (index (arrays input)) (layout table ≫= columns);
      b' ← insert_local b agg_selection group_cols input_cols (num_rows input);
      Ok (Building b')
  | _ => Err "Partition in invalid state, cannot insert"
  end.

(** The [while] loop over [prev_sel], for [n] aggregates. *)
Fixpoint skip_columns (n prev_sel state_input_idx : nat) : res nat :=
  match n with
  | 0 => Ok state_input_idx
  | S n' =>
      agg ← index (layout table) prev_sel;
      skip_columns n' (S prev_sel) (state_input_idx + length (columns agg))
  end.

(** [clone_array_from] of [n] consecutive columns. *)
Fixpoint clone_columns (n own_idx other_idx : nat) (other own : list (list (option V))) : res (list (list (option V))) :=
  match n with
  | 0 => Ok own
  | S n' =>
      col ← index other other_idx;
      _ ← index own own_idx;
      clone_columns n' (S own_idx) (S other_idx) other (<[own_idx := col]> own)
  end.

(** The loop over the selected aggregates, which come in order: a smaller one
    would run [prev_sel] off the aggregates. *)
Fixpoint clone_distinct_inputs (agg_selection : list nat) (prev_sel state_input_idx input_idx : nat)
    (distinct_input inputs : list (list (option V))) : res (list (list (option V))) :=
  match agg_selection with
  | [] => Ok inputs
  | sel :: rest =>
      _ ← rust_assert (prev_sel <=? sel) "index out of bounds";
      state_input_idx ← skip_columns (sel - prev_sel) prev_sel state_input_idx;
      agg ← index (layout table) sel;
      inputs ← clone_columns (length (columns agg)) state_input_idx input_idx distinct_input inputs;
      clone_distinct_inputs rest sel state_input_idx (input_idx + length (columns agg)) distinct_input inputs
  end.

(** What the buffers of a batch hold after [reset_for_write]. *)
Variable blank : option V.

(** [insert_partition_local_distinct_values] *)
Definition insert_partition_local_distinct_values (op : TableOperatorState) (st : TablePartitionState) (agg_selection : list nat)
    (distinct_input : Columns) : res TablePartitionState :=
  st ← prepare_build_maybe op st;
  match st with
  | Building b =>
      if length agg_selection =? 0 then Ok (Building b)
      else
        let inputs := replicate (length (layout table ≫= columns)) (replicate batch_size blank) in
        group_cols ← collect (index (arrays distinct_input)) (seq 0 (length (grouping_set table)));
        input_cols ← clone_distinct_inputs agg_selection 0 0 (length (grouping_set table)) (arrays distinct_input) inputs;
        b' ← insert_local b agg_selection group_cols input_cols (num_rows distinct_input);
        Ok (Building b')
  | _ => Err "Partition in invalid state, cannot insert distinct"
  end.

(** ** Flushing and merging *)

(** [UnsafeSyncOnceCell::set] with its [expect]. *)
Definition cell_set {A} (cell : option A) (a : A) (why : string) : res (option A) :=
  match cell with Some _ => Panic why | None => Ok (Some a) end.

Definition cell_expect {A} (cell : option A) (why : string) : res A :=
  match cell with Some a => Ok a | None => Panic why end.

(** The loop of [flush] from output partition [q] on. *)
Fixpoint flush_tables (partition_idx q : nat) (tables : list Table) (cells : list (list (option Table))) :
    res (list (list (option Table))) :=
  match tables with
  | [] => Ok cells
  | t :: rest =>
      row ← index cells q;
      cell ← index row partition_idx;
      cell' ← cell_set cell t "partition table to have only been initialized once";
      flush_tables partition_idx (S q) rest (<[q := <[partition_idx := cell']> row]> cells)
  end.

(** [flush] *)
Definition flush (op : TableOperatorState) (st : TablePartitionState) : res (TableOperatorState * TablePartitionState) :=
  st ← prepare_build_maybe op st;
  match st with
  | Building b =>
      cells ← flush_tables (building_idx b) 0 (building_tables b) (flushed op);
      _ ← rust_assert (negb (remaining_flushers op =? 0)) "Atomic remaining count for flushers must not go negative";
      Ok (mkTableState cells (final_tables op) (remaining_flushers op - 1) (remaining_mergers op), MergeReady (building_idx b))
  | _ => Err "Partition in invalid state, cannot flush tables"
  end.

(** The loop of [merge_global] over the other tables: the merged table, and what
    the cells hold after, since merging into an empty table swaps the two. *)
Fixpoint merge_others (global : Table) (others : list (option Table)) : res (Table * list (option Table)) :=
  match others with
  | [] => Ok (global, [])
  | cell :: rest =>
      other ← cell_expect cell "other table to have been initialized";
      global' ← merge_from (length (grouping_set table)) (seq 0 (length (layout table))) global other;
      let other' := if num_occupied (directory global) =? 0 then global else other in
      '(result, rest') ← merge_others global' rest;
      Ok (result, Some other' :: rest')
  end.

(** [merge_global] *)
Definition merge_global (op : TableOperatorState) (st : TablePartitionState) : res (TableOperatorState * TablePartitionState) :=
  match st with
  | MergeReady idx =>
      row ← index (flushed op) idx;
      if negb (remaining_flushers op =? 0) then Err "Attempted to merge into final table, but some tables missing"
      else
        match row with
        | [] => Panic "Must have at least one flushed table"
        | first :: others =>
            global ← cell_expect first "first table to have been initialized";
            '(merged, others') ← merge_others global others;
            cell ← index (final_tables op) idx;
            cell' ← cell_set cell merged "final table to not have been initialized";
            _ ← rust_assert (negb (remaining_mergers op =? 0)) "Atomic count for remaining mergers must not go negative";
            Ok (mkTableState (<[idx := None :: others']> (flushed op)) (<[idx := cell']> (final_tables op))
                  (remaining_flushers op) (remaining_mergers op - 1), ScanReady idx)
        end
  | _ => Err "Partition in invalid state, cannot merge tables"
  end.

(** ** Scanning *)

(** The blocks of a table's collection. *)
Definition table_blocks (t : Table) : list (list (GroupRow V St)) := chunks (row_capacity t) (data t).

(** [prepare_scan] *)
Definition prepare_scan (op : TableOperatorState) (st : TablePartitionState) : res LocalScanningState :=
  match st with
  | ScanReady idx =>
      if negb (remaining_mergers op =? 0) then Err "Attempted to read final tables before all partitions finished merging"
      else
        tables ← collect (fun cell => cell_expect cell "table to have been set") (final_tables op);
        let num_partitions := length tables in
        Ok (mkScanning tables ((fun t =>
          new_partial_scan (filter (fun block_idx => block_idx mod num_partitions = idx) (seq 0 (length (table_blocks t))))) <$> tables))
  | _ => Err "Partition in invalid state, cannot prepare scan"
  end.

(** The group columns of an output row, from output column [output_idx] on:
    the groups of the set are packed to the left, the others are NULL. *)
Fixpoint place_groups (n output_idx group_idx : nat) (key : list (option V)) : res (list (option V)) :=
  match n with
  | 0 => Ok []
  | S n' =>
      if bool_decide (output_idx ∈ grouping_set table) then
        v ← index key group_idx;
        rest ← place_groups n' (S output_idx) (S group_idx) key;
        Ok (v :: rest)
      else
        rest ← place_groups n' (S output_idx) group_idx key;
        Ok (None :: rest)
  end.

(** [finalize_states] of one row. *)
Definition finalize_states (sts : list St) : list (option V) :=
  zip_with (fun agg s => finalize (function agg) s) (layout table) sts.

(** An output row: groups, results of the aggregates, grouping values. *)
Definition output_row (row : GroupRow V St) : res (list (option V)) :=
  key ← place_groups (length (groups table)) 0 0 (group row);
  Ok (key ++ finalize_states (states row) ++ ((fun v => Some (int64_value v)) <$> grouping_values table)).

(** The [loop] of [scan], for at most one round more than there are tables. *)
Fixpoint scan_tables_loop (fuel : nat) (s : LocalScanningState) : res (LocalScanningState * list (list (option V))) :=
  match fuel with
  | O => Panic "out of fuel"
  | S fuel' =>
      match last (scan_tables s) with
      | None => Ok (s, [])
      | Some t =>
          scan ← cell_expect (last (scan_states s)) "tables and states to be the same length";
          '(scan', rows) ← scan_subset (table_blocks t) scan batch_size;
          if length rows =? 0 then
            scan_tables_loop fuel' (mkScanning (removelast (scan_tables s)) (removelast (scan_states s)))
          else
            out ← collect output_row rows;
            Ok (mkScanning (scan_tables s) (removelast (scan_states s) ++ [scan']), out)
      end
  end.

(** [scan]: the state after and the rows written to the output batch. *)
Definition scan (op : TableOperatorState) (st : TablePartitionState) : res (TablePartitionState * list (list (option V))) :=
  s ← match st with
      | ScanReady _ => prepare_scan op st
      | Scanning s => Ok s
      | _ => Err "Partition in invalid state, cannot scan"
      end;
  '(s', out) ← scan_tables_loop (S (length (scan_tables s))) s;
  Ok (Scanning s', out).

End PartitionedTable.

Arguments PhysicalAggregate : clear implicits.
Arguments Columns : clear implicits.
Arguments PartitionedHashTable : clear implicits.
Arguments TableOperatorState : clear implicits.
Arguments TablePartitionState : clear implicits.
Arguments LocalBuildingState : clear implicits.
Arguments LocalScanningState : clear implicits.

(** ** Partitions of hashes *)

Lemma partition_lt hash n : is_u64 hash -> 0 < n -> partition hash n < n.
Proof.
  unfold is_u64, partition. intros Hh Hn. rewrite Z.shiftr_div_pow2 by done.
  assert (0 <= hash * Z.of_nat n / 2 ^ 64 < Z.of_nat n)%Z; [|lia].
  split; [apply Z.div_pos; lia|]. apply Z.div_lt_upper_bound; [done|]. nia.
Qed.

Lemma count_partitions_ok indices cs : Forall (fun p => p < length cs) indices -> exists cs', count_partitions indices cs = Ok cs' /\ length cs' = length cs.
Proof.
  intros Hall. revert cs Hall. induction indices as [|p rest IH]; intros cs Hall; [by exists cs|].
  apply Forall_cons in Hall as [Hp Hrest]. cbn [count_partitions]. destruct (index_lt cs p Hp) as (c & Hc & _). rewrite (bind_ok _ _ _ Hc).
  destruct (IH (<[p := S c]> cs)) as (cs' & Hrun & Hlen); [by rewrite length_insert|]. exists cs'. split; [done|]. by rewrite length_insert in Hlen.
Qed.

(** The rows, from row [i] on, that go to partition [q]. *)
Definition rows_for (q i : nat) (indices : list nat) : list nat := fst <$> filter (fun rp => rp.2 = q) (zip (seq i (length indices)) indices).

Lemma rows_for_cons q i p rest : rows_for q i (p :: rest) = (if decide (p = q) then [i] else []) ++ rows_for q (S i) rest.
Proof.
  unfold rows_for. cbn [length seq zip zip_with]. rewrite filter_cons. cbn [snd]. by destruct (decide (p = q)).
Qed.

Lemma fill_buckets_spec i indices bs :
  Forall (fun p => p < length bs) indices ->
  exists bs', fill_buckets i indices bs = Ok bs' /\ length bs' = length bs
    /\ forall q b, bs !! q = Some b -> bs' !! q = Some (b ++ rows_for q i indices).
Proof.
  revert i bs. induction indices as [|p rest IH]; intros i bs Hall.
  { exists bs. split_and!; [done|done|]. intros q b Hq. by rewrite app_nil_r. }
  apply Forall_cons in Hall as [Hp Hrest]. cbn [fill_buckets]. destruct (index_lt bs p Hp) as (b & Hb & Hlk). rewrite (bind_ok _ _ _ Hb).
  destruct (IH (S i) (<[p := b ++ [i]]> bs)) as (bs' & Hrun & Hlen & Hq); [by rewrite length_insert|].
  exists bs'. rewrite length_insert in Hlen. split_and!; [done|done|]. intros q b' Hb'. rewrite rows_for_cons, app_assoc. apply Hq.
  destruct (decide (p = q)) as [->|Hne]; [|by rewrite list_lookup_insert_ne, app_nil_r].
  rewrite list_lookup_insert_eq by done. by simplify_eq.
Qed.

Lemma reset_using_hashes_spec s hashes n :
  length (counts s) = n -> length (buckets s) = n -> 0 < n -> Forall is_u64 hashes ->
  exists s', reset_using_hashes s hashes = Ok s' /\ length (counts s') = n /\ length (buckets s') = n
    /\ forall q, q < n -> buckets s' !! q = Some (rows_for q 0 ((fun h => partition h n) <$> hashes)).
Proof.
  intros Hc Hb Hn Hh. unfold reset_using_hashes. rewrite Hc.
  assert (Forall (fun p => p < n) ((fun h => partition h n) <$> hashes)) as Hall.
  { apply Forall_fmap. eapply Forall_impl; [exact Hh|]. intros h Hu. change (partition h n < n). by apply partition_lt. }
  destruct (count_partitions_ok ((fun h => partition h n) <$> hashes) (replicate n 0)) as (cs & -> & Hcs); [by rewrite length_replicate|].
  destruct (fill_buckets_spec 0 ((fun h => partition h n) <$> hashes) ((fun _ => []) <$> buckets s)) as (bs & -> & Hbs & Hq); [by rewrite length_fmap, Hb|].
  eexists. split; [done|]. cbn [counts buckets]. rewrite length_replicate in Hcs. rewrite length_fmap, Hb in Hbs. split_and!; [done|done|].
  intros q Hqn. rewrite (Hq q []); [done|]. rewrite list_lookup_fmap. destruct (lookup_lt_is_Some_2 (buckets s) q) as [x Hx]; [lia|]. by rewrite Hx.
Qed.

(** ** What a partitioned table holds *)

Section Invariant.
Context {V St : Type} `{EqDecision V}.
Variable hash_one : V -> Z.
Hypothesis hash_one_u64 : forall v, is_u64 (hash_one v).
Variable batch_size : nat.
Hypothesis batch_size_pos : 0 < batch_size.
Variable table : PartitionedHashTable V St.
Variable n : nat.
Hypothesis n_pos : 0 < n.

Local Abbreviation Table := (BaseHashTable V St).
Local Abbreviation gh := (group_hash hash_one).
Local Abbreviation ncols := (length (grouping_set table)).
Local Abbreviation aggs := (function <$> layout table).

Lemma group_hash_u64 key : is_u64 (gh key).
Proof.
  unfold group_hash. destruct (row_hash_value hash_one key) as [h|] eqn:Hh; [|done]. cbn. by eapply row_hash_u64.
Qed.

(** The output partition of a group, and the events of one. *)
Definition part_of (key : list (option V)) : nat := partition (gh key) n.

Definition part_events (q : nat) (evs : list event) : list (@event V) := filter (fun ev => part_of (ev_key ev) = q) evs.

Lemma part_of_lt key : part_of key < n.
Proof. unfold part_of. apply partition_lt; [apply group_hash_u64|exact n_pos]. Qed.

(** A table of the layout that stands for some events. *)
Record tok (t : Table) (evs : list event) : Prop := {
  tok_ok : table_ok gh ncols t evs;
  tok_aggs : aggregates t = aggs;
  tok_cap : row_capacity t = batch_size;
}.

Lemma tok_new : tok (try_new_table aggs batch_size) [].
Proof. split; [apply try_new_ok|done|done]. Qed.

Lemma hash_groups_spec cols m :
  Forall (fun col => m <= length col) cols -> hash_groups hash_one cols m = Ok ((fun r => gh (batch_key cols r)) <$> seq 0 m).
Proof.
  intros Hcols. unfold hash_groups. apply collect_map. intros r [_ Hr]%elem_of_seq. rewrite (collect_map _ (fun col => col !!! r)); [done|].
  intros col Hcol. apply index_Ok, list_lookup_lookup_total_lt. rewrite Forall_forall in Hcols. specialize (Hcols col Hcol). simpl in *. lia.
Qed.

Lemma rows_for_seq (f : nat -> nat) q i m : rows_for q i (f <$> seq i m) = filter (fun r => f r = q) (seq i m).
Proof.
  revert i. induction m as [|m IH]; intros i; [done|]. cbn [seq fmap list_fmap]. rewrite rows_for_cons, filter_cons. change (list_fmap nat nat f (seq (S i) m)) with (f <$> seq (S i) m).
  rewrite IH. by destruct (decide (f i = q)).
Qed.

Lemma select_columns_spec (cols : list (list (option V))) m sel :
  Forall (fun col => m <= length col) cols -> Forall (fun r => r < m) sel ->
  select_columns cols sel = Ok (fmap (M:=list) (fun col : list (option V) => (fun r => col !!! r) <$> sel) cols).
Proof.
  intros Hcols Hsel. rewrite Forall_forall in Hcols. rewrite Forall_forall in Hsel. apply collect_map. intros col Hcol. apply collect_map. intros r Hr.
  apply index_Ok, list_lookup_lookup_total_lt. specialize (Hcols col Hcol). specialize (Hsel r Hr). simpl in *. lia.
Qed.

Lemma batch_key_selected (cols : list (list (option V))) sel k r :
  sel !! k = Some r -> batch_key (fmap (M:=list) (fun col : list (option V) => (fun r => col !!! r) <$> sel) cols) k = batch_key cols r.
Proof.
  intros Hk. unfold batch_key. rewrite <- list_fmap_compose. apply list_fmap_ext. intros _ col _. cbn.
  apply list_lookup_total_correct. by rewrite list_lookup_fmap, Hk.
Qed.

Lemma batch_events_selected sel (group_cols input_cols : list (list (option V))) rows :
  batch_events sel (fmap (M:=list) (fun col : list (option V) => (fun r => col !!! r) <$> rows) group_cols)
    (fmap (M:=list) (fun col : list (option V) => (fun r => col !!! r) <$> rows) input_cols) (length rows)
  = (fun r => mkEvent (batch_key group_cols r) sel (batch_key input_cols r)) <$> rows.
Proof.
  unfold batch_events. apply list_eq. intros k. rewrite !list_lookup_fmap. destruct (rows !! k) as [r|] eqn:Hk.
  - rewrite lookup_seq_lt by by eapply lookup_lt_Some. cbn. by rewrite !(batch_key_selected _ _ _ r Hk).
  - apply lookup_ge_None in Hk. by rewrite lookup_seq_ge by lia.
Qed.

(** The rows of partition [q] among the rows of a batch. *)
Lemma part_batch_events q sel (group_cols input_cols : list (list (option V))) m :
  part_events q (batch_events sel group_cols input_cols m)
  = (fun r => mkEvent (batch_key group_cols r) sel (batch_key input_cols r)) <$> filter (fun r => part_of (batch_key group_cols r) = q) (seq 0 m).
Proof.
  unfold part_events, batch_events. by rewrite filter_map_swap.
Qed.

Lemma part_events_length q evs : length (part_events q evs) <= length evs.
Proof. apply length_filter. Qed.

Lemma insert_tables_spec idx tables selector sel group_cols input_cols m evs :
  length group_cols = ncols -> Forall (fun col => m <= length col) group_cols -> inputs_ok aggs sel input_cols m ->
  (Z.of_nat (length evs + m) <= 2 ^ 61)%Z -> idx + length tables <= n ->
  (forall q, q < n -> buckets selector !! q = Some (filter (fun r => part_of (batch_key group_cols r) = q) (seq 0 m))) ->
  (forall k t, tables !! k = Some t -> tok t (part_events (idx + k) evs)) ->
  exists tables', insert_tables idx tables selector sel group_cols input_cols ((fun r => gh (batch_key group_cols r)) <$> seq 0 m) = Ok tables'
    /\ length tables' = length tables
    /\ forall k t, tables' !! k = Some t -> tok t (part_events (idx + k) (evs ++ batch_events sel group_cols input_cols m)).
Proof.
  intros Hg Hgl Hin Hbound Hidx Hbuckets. revert idx Hidx. induction tables as [|t rest IH]; intros idx Hidx Htok; [by exists []|].
  cbn [insert_tables]. set (rows := filter (fun r => part_of (batch_key group_cols r) = idx) (seq 0 m)).
  assert (index (buckets selector) idx = Ok rows) as Hrows by (apply index_Ok, Hbuckets; simpl in Hidx; lia).
  rewrite (bind_ok _ _ _ Hrows).
  destruct (IH (S idx)) as (rest' & Hrest & Hlen & Hrest'); [simpl in Hidx; lia|intros k t' Hk; rewrite Nat.add_succ_l, <- Nat.add_succ_r; by apply Htok|].
  pose proof (Htok 0 t eq_refl) as [Hok Ha Hc]. rewrite Nat.add_0_r in Hok.
  assert (Forall (fun r => r < m) rows) as Hlt.
  { apply Forall_forall. intros r [_ [_ Hr]%elem_of_seq]%list_elem_of_filter. lia. }
  assert (length rows <= m) as Hle by (etransitivity; [apply length_filter|by rewrite length_seq]).
  assert (exists t', (if length rows =? 0 then Ok t else
      g ← select_columns group_cols rows; i ← select_columns input_cols rows;
      h ← collect (index ((fun r => gh (batch_key group_cols r)) <$> seq 0 m)) rows;
      insert_with_hashes t sel g i h (length rows)) = Ok t'
    /\ tok t' (part_events idx (evs ++ batch_events sel group_cols input_cols m))) as (t' & -> & Ht').
  { unfold part_events at 1. rewrite filter_app. fold (part_events idx (batch_events sel group_cols input_cols m)). rewrite part_batch_events. fold rows.
    destruct (Nat.eqb_spec (length rows) 0) as [Hz|_].
    - apply nil_length_inv in Hz. rewrite Hz. exists t. split; [done|]. cbn. rewrite app_nil_r. by split.
    - rewrite (select_columns_spec group_cols m) by done. rewrite (select_columns_spec input_cols m) by (done || apply Hin).
      unfold mbind at 1 2, res_bind at 1 2. rewrite (collect_map _ (fun r => gh (batch_key group_cols r))).
      2: { intros r Hr. rewrite Forall_forall in Hlt. apply index_Ok. rewrite list_lookup_fmap, lookup_seq_lt by by apply Hlt. done. }
      unfold mbind, res_bind.
      edestruct (insert_spec gh ncols t (part_events idx evs) sel) as (t' & Hrun & Hok' & Ha' & Hc'); [exact Hok| | | |exists t'; split; [exact Hrun|]].
      + split; [by rewrite length_fmap|apply Forall_fmap, Forall_forall; intros col _; cbn; by rewrite length_fmap|].
        apply list_eq. intros k. rewrite !list_lookup_fmap. destruct (rows !! k) as [r|] eqn:Hk.
        * rewrite lookup_seq_lt by by eapply lookup_lt_Some. cbn. by rewrite (batch_key_selected _ _ _ r Hk).
        * apply lookup_ge_None in Hk. by rewrite lookup_seq_ge by lia.
      + destruct Hin as [Hs Hr Hi _]. rewrite Ha. split; [done|done|by rewrite length_fmap|].
        apply Forall_fmap, Forall_forall. intros col _. cbn. by rewrite length_fmap.
      + pose proof (part_events_length idx evs). lia.
      + rewrite batch_events_selected in Hok'. split; [exact Hok'|congruence|congruence]. }
  unfold mbind, res_bind. rewrite Hrest. exists (t' :: rest'). split_and!; [done|cbn; by rewrite Hlen|].
  intros [|k] t'' Hk; [injection Hk as <-; by rewrite Nat.add_0_r|]. rewrite Nat.add_succ_r, <- Nat.add_succ_l. by apply Hrest'.
Qed.

(** *** Building *)

Record building_ok (p : nat) (evs : list event) (b : LocalBuildingState V St) : Prop := {
  bok_idx : building_idx b = p;
  bok_counts : length (counts (partition_selector b)) = n;
  bok_buckets : length (buckets (partition_selector b)) = n;
  bok_len : length (building_tables b) = n;
  bok_tables : forall q t, building_tables b !! q = Some t -> tok t (part_events q evs);
}.

Lemma insert_local_spec p evs b sel group_cols input_cols m :
  building_ok p evs b -> length group_cols = ncols -> Forall (fun col => m <= length col) group_cols ->
  inputs_ok aggs sel input_cols m -> (Z.of_nat (length evs + m) <= 2 ^ 61)%Z ->
  exists b', insert_local hash_one b sel group_cols input_cols m = Ok b'
    /\ building_ok p (evs ++ batch_events sel group_cols input_cols m) b'.
Proof.
  intros [Hidx Hc Hb Hl Ht] Hg Hgl Hin Hbound. unfold insert_local. rewrite hash_groups_spec by done. unfold mbind at 1, res_bind at 1.
  destruct (reset_using_hashes_spec (partition_selector b) ((fun r => gh (batch_key group_cols r)) <$> seq 0 m) n Hc Hb n_pos)
    as (s' & -> & Hc' & Hb' & Hq).
  { apply Forall_fmap, Forall_forall. intros r _. cbn. apply group_hash_u64. }
  unfold mbind at 1, res_bind at 1.
  destruct (insert_tables_spec 0 (building_tables b) s' sel group_cols input_cols m evs) as (ts & -> & Hlt & Hts); try done.
  - lia.
  - intros q Hqn. rewrite Hq by done. f_equal. rewrite <- list_fmap_compose. apply (rows_for_seq (fun r => part_of (batch_key group_cols r))).
  - eexists. split; [done|]. split; cbn; [done..|by rewrite Hlt|done].
Qed.

(** The state of a partition that may still insert. *)
Inductive build_ok (p : nat) : list event -> TablePartitionState V St -> Prop :=
| build_initializing s : length (counts s) = n -> length (buckets s) = n -> build_ok p [] (Initializing p s)
| build_building evs b : building_ok p evs b -> build_ok p evs (Building b).

Lemma prepare_build_maybe_spec op p evs st :
  partition_count op = n -> build_ok p evs st ->
  exists b, prepare_build_maybe batch_size table op st = Ok (Building b) /\ building_ok p evs b.
Proof.
  intros Hn. destruct 1 as [s Hc Hb|evs b Hok]; [|by exists b]. cbn. rewrite Hn. eexists. split; [done|].
  split; cbn; [done..|by rewrite length_replicate|]. intros q t [-> _]%lookup_replicate. apply tok_new.
Qed.

(** *** Input rows and events *)

(** The static facts of a table over inputs with [w] columns. *)
Record table_static (w : nat) : Prop := {
  ts_groups : Forall (fun c => c < w) (groups table);
  ts_set : Forall (fun src => src < length (groups table)) (grouping_set table);
  ts_columns : Forall (fun c => c < w) (layout table ≫= columns);
  ts_widths : Forall (fun a => num_columns (function a) = length (columns a)) (layout table);
}.

Definition columns_ok (w : nat) (input : Columns V) : Prop :=
  length (arrays input) = w /\ Forall (fun col => num_rows input <= length col) (arrays input).

(** The rows of a batch. *)
Definition batch_rows (input : Columns V) : list (list (option V)) := batch_key (arrays input) <$> seq 0 (num_rows input).

(** The group of an input row, and what it inserts. *)
Definition group_key (row : list (option V)) : list (option V) := (fun src => row !!! (groups table !!! src)) <$> grouping_set table.

Definition row_event (sel : list nat) (row : list (option V)) : event :=
  mkEvent (group_key row) sel ((fun c => row !!! c) <$> (layout table ≫= columns)).

Lemma lookup_batch_key (cols : list (list (option V))) r c : c < length cols -> batch_key cols r !!! c = (cols !!! c) !!! r.
Proof.
  intros Hc. destruct (lookup_lt_is_Some_2 cols c Hc) as [col Hcol]. rewrite (list_lookup_total_correct cols c col Hcol).
  unfold batch_key. apply list_lookup_total_correct. by rewrite list_lookup_fmap, Hcol.
Qed.

Lemma sum_columns : Forall (fun a => num_columns (function a) = length (columns a)) (layout table) ->
  length (layout table ≫= columns) = sum_list_with num_columns aggs.
Proof.
  intros Hw. induction Hw as [|a l Ha _ IH]; [done|]. change (mbind (M:=list) columns (a :: l)) with (columns a ++ (l ≫= columns)). cbn. rewrite length_app, IH. lia.
Qed.

Lemma insert_partition_local_spec op p evs st w sel input :
  table_static w -> columns_ok w input -> partition_count op = n -> build_ok p evs st ->
  StronglySorted lt sel -> Forall (fun a => a < length (layout table)) sel ->
  (Z.of_nat (length evs + num_rows input) <= 2 ^ 61)%Z ->
  exists st', insert_partition_local hash_one batch_size table op st sel input = Ok st'
    /\ build_ok p (evs ++ (row_event sel <$> batch_rows input)) st'.
Proof.
  intros [Hgr Hset Hcols Hwidth] [Hw Hlen] Hn Hst Hsorted Hsel Hbound. unfold insert_partition_local.
  destruct (prepare_build_maybe_spec op p evs st Hn Hst) as (b & -> & Hb). unfold mbind at 1, res_bind at 1.
  assert (forall c, c < w -> index (arrays input) c = Ok (arrays input !!! c)) as Hidx.
  { intros c Hc. apply index_Ok, list_lookup_lookup_total_lt. lia. }
  assert (collect (fun src => c ← index (groups table) src; index (arrays input) c) (grouping_set table)
    = Ok ((fun src => arrays input !!! (groups table !!! src)) <$> grouping_set table)) as Hgc.
  { apply collect_map. intros src Hsrc. rewrite Forall_forall in Hset. destruct (lookup_lt_is_Some_2 (groups table) src (Hset src Hsrc)) as [c Hc].
    rewrite (list_lookup_total_correct _ _ _ Hc), (bind_ok _ _ _ (proj2 (index_Ok _ _ _) Hc)). apply Hidx. by eapply Forall_lookup_1 in Hgr. }
  assert (collect (index (arrays input)) (layout table ≫= columns) = Ok ((fun c => arrays input !!! c) <$> (layout table ≫= columns))) as Hic.
  { apply collect_map. intros c Hc. apply Hidx. rewrite Forall_forall in Hcols. by apply Hcols. }
  rewrite (bind_ok _ _ _ Hgc), (bind_ok _ _ _ Hic).
  assert (forall c, c < w -> num_rows input <= length (arrays input !!! c)) as Hrows.
  { intros c Hc. destruct (lookup_lt_is_Some_2 (arrays input) c) as [col Hcol]; [lia|].
    rewrite (list_lookup_total_correct _ _ _ Hcol). by eapply Forall_lookup_1 in Hlen. }
  assert (forall src, src ∈ grouping_set table -> groups table !!! src < w) as Hsrc.
  { intros src Hs. rewrite Forall_forall in Hset. destruct (lookup_lt_is_Some_2 (groups table) src (Hset src Hs)) as [c Hc].
    rewrite (list_lookup_total_correct _ _ _ Hc). by eapply Forall_lookup_1 in Hgr. }
  edestruct (insert_local_spec p evs b sel ((fun src => arrays input !!! (groups table !!! src)) <$> grouping_set table)
    ((fun c => arrays input !!! c) <$> (layout table ≫= columns)) (num_rows input) Hb) as (b' & -> & Hb').
  - by rewrite length_fmap.
  - apply Forall_fmap, Forall_forall. intros src Hs. cbn. by apply Hrows, Hsrc.
  - split; [done|by rewrite length_fmap|by rewrite length_fmap, sum_columns|].
    apply Forall_fmap, Forall_forall. intros c Hc. cbn. rewrite Forall_forall in Hcols. by apply Hrows, Hcols.
  - done.
  - eexists. split; [done|]. constructor. unfold batch_events in Hb'. unfold batch_rows. rewrite <- list_fmap_compose.
    erewrite list_fmap_ext; [exact Hb'|]. intros _ r _. cbn. unfold row_event, group_key. f_equal.
    + unfold batch_key at 2. rewrite <- list_fmap_compose. apply list_fmap_ext. intros i src Hi. cbn.
      rewrite lookup_batch_key; [done|]. rewrite Hw. apply Hsrc. by eapply list_elem_of_lookup_2.
    + unfold batch_key at 2. rewrite <- list_fmap_compose. apply list_fmap_ext. intros i c Hi. cbn.
      rewrite lookup_batch_key; [done|]. rewrite Hw. by eapply Forall_lookup_1 in Hcols.
Qed.

(** *** Flushing and merging *)

Lemma flush_tables_spec p (tables : list Table) q cells :
  (forall k, k < length tables -> exists row, cells !! (q + k) = Some row /\ row !! p = Some None) ->
  exists cells', flush_tables p q tables cells = Ok cells' /\ length cells' = length cells
    /\ forall q' row, cells !! q' = Some row ->
         cells' !! q' = Some (if decide (q <= q' < q + length tables) then <[p := tables !! (q' - q)]> row else row).
Proof.
  revert q cells. induction tables as [|t rest IH]; intros q cells Hfree.
  { exists cells. split_and!; [done..|]. intros q' row Hq. rewrite decide_False by (cbn; lia). done. }
  destruct (Hfree 0) as (row & Hrow & Hcell); [cbn; lia|]. rewrite Nat.add_0_r in Hrow. cbn [flush_tables].
  rewrite (bind_ok _ _ _ (proj2 (index_Ok _ _ _) Hrow)), (bind_ok _ _ _ (proj2 (index_Ok _ _ _) Hcell)). cbn [cell_set].
  unfold mbind at 1, res_bind at 1.
  destruct (IH (S q) (<[q := <[p := Some t]> row]> cells)) as (cells' & -> & Hlen & Hcells).
  { intros k Hk. destruct (Hfree (S k)) as (row' & Hrow' & Hcell'); [cbn; lia|]. exists row'. rewrite list_lookup_insert_ne by lia.
    by rewrite Nat.add_succ_l, <- Nat.add_succ_r. }
  exists cells'. rewrite length_insert in Hlen. split_and!; [done..|]. intros q' row' Hq'. destruct (decide (q' = q)) as [->|Hne].
  - rewrite (Hcells q (<[p := Some t]> row)) by (apply list_lookup_insert_eq; by eapply lookup_lt_Some).
    rewrite decide_False by lia. rewrite decide_True by (cbn; lia). rewrite Nat.sub_diag. cbn. by simplify_eq.
  - rewrite (Hcells q' row') by by rewrite list_lookup_insert_ne. cbn [length]. destruct (decide (S q <= q' < S q + length rest)).
    + rewrite decide_True by lia. by replace (q' - q) with (S (q' - S q)) by lia.
    + by rewrite decide_False by lia.
Qed.

Lemma merge_loop_layout fuel m sel (t t' : Table) src :
  merge_loop fuel m sel t src = Ok t' -> aggregates t' = aggregates t /\ row_capacity t' = row_capacity t.
Proof.
  revert t src. induction fuel as [|fuel IH]; intros t src; cbn [merge_loop]; [done|].
  destruct (length (take (row_capacity t) src) =? 0); [by intros [= <-]|].
  unfold find_or_create_groups. destruct (length (take (row_capacity t) src) =? 0); [|].
  - unfold mbind, res_bind. destruct (combine_states _ _ _ _ _); [|done..]. intros Hrun. by destruct (IH _ _ Hrun) as [-> ->].
  - unfold mbind, res_bind. destruct (grow _ _); [|done..]. destruct (collect _ _); [|done..]. destruct (search_loop _ _ _ _ _ _); [|done..].
    destruct (combine_states _ _ _ _ _); [|done..]. intros Hrun. by destruct (IH _ _ Hrun) as [-> ->].
Qed.

Hypothesis aggs_combine : Forall combines aggs.

Lemma merge_tok t1 t2 evs1 evs2 :
  tok t1 evs1 -> tok t2 evs2 -> (Z.of_nat (length evs1 + length evs2) <= 2 ^ 61)%Z ->
  exists t', merge_from ncols (seq 0 (length (layout table))) t1 t2 = Ok t' /\ tok t' (evs1 ++ evs2).
Proof.
  intros [Hok1 Ha1 Hc1] [Hok2 Ha2 Hc2] Hbound. rewrite <- (length_fmap function (layout table)), <- Ha1.
  destruct (merge_from_spec gh ncols t1 t2 evs1 evs2 Hok1 Hok2) as (t' & Hrun & Hok'); try done; try congruence.
  exists t'. split; [done|]. unfold merge_from in Hrun. revert Hrun.
  destruct (num_occupied (directory t1) =? 0); [intros [= <-]; by split|]. destruct (num_occupied (directory t2) =? 0); [intros [= <-]; by split|].
  intros Hrun. destruct (merge_loop_layout _ _ _ _ _ _ Hrun) as [Ha Hc]. split; [done|congruence|congruence].
Qed.

Lemma merge_others_spec global evs0 ts evsl :
  tok global evs0 -> Forall2 tok ts evsl -> (Z.of_nat (length evs0 + length (concat evsl)) <= 2 ^ 61)%Z ->
  exists t' others', merge_others table global (Some <$> ts) = Ok (t', others') /\ tok t' (evs0 ++ concat evsl) /\ length others' = length ts.
Proof.
  intros Hg Hts. revert global evs0 Hg. induction Hts as [|t evs ts evsl Ht _ IH]; intros global evs0 Hg Hbound.
  { exists global, []. cbn. by rewrite app_nil_r. }
  cbn [concat] in Hbound. rewrite length_app in Hbound. cbn [fmap list_fmap merge_others cell_expect]. unfold mbind at 1, res_bind at 1.
  destruct (merge_tok global t evs0 evs Hg Ht) as (g' & -> & Hg'); [lia|]. unfold mbind at 1, res_bind at 1.
  destruct (IH g' (evs0 ++ evs) Hg') as (t' & others' & Hrun & Ht' & Hlen); [rewrite length_app; lia|].
  change (list_fmap _ _ Some ts) with (Some <$> ts). rewrite Hrun. cbn. eexists _, _. split; [done|]. rewrite <- app_assoc in Ht'. cbn. by rewrite Hlen.
Qed.

(** *** The states of all partitions *)

Definition phase (st : TablePartitionState V St) : nat :=
  match st with
  | Initializing _ _ | Building _ => 0
  | MergeReady _ => 1
  | ScanReady _ => 2
  | Scanning _ => 3
  | Uninit => 4
  end.

(** Whether a partition has still to flush, or to merge. *)
Definition unflushed (st : TablePartitionState V St) : nat := if phase st <? 1 then 1 else 0.
Definition unmerged (st : TablePartitionState V St) : nat := if phase st <? 2 then 1 else 0.

Record scanning_ok (finals : list (option Table)) (s : LocalScanningState V St) : Prop := {
  sok_tables : exists ts, finals = (Some <$> ts) /\ scan_tables s `prefix_of` ts;
  sok_scans : Forall2 (fun t sc => scan_wf (table_blocks t) sc) (scan_tables s) (scan_states s);
}.

Definition st_ok (op : TableOperatorState V St) (p : nat) (evs : list event) (st : TablePartitionState V St) : Prop :=
  match st with
  | Initializing _ _ | Building _ => build_ok p evs st
  | MergeReady i | ScanReady i => i = p
  | Scanning s => scanning_ok (final_tables op) s
  | Uninit => False
  end.

(** The operator state and the states of the partitions stand for the events
    each partition has inserted. *)
Record tinv (op : TableOperatorState V St) (sts : list (TablePartitionState V St)) (evss : list (list event)) : Prop := {
  ti_len : length sts = n;
  ti_evss : length evss = n;
  ti_rows : length (flushed op) = n;
  ti_cells : Forall (fun row => length row = n) (flushed op);
  ti_finals : length (final_tables op) = n;
  ti_states : forall p st evs, sts !! p = Some st -> evss !! p = Some evs -> st_ok op p evs st;
  ti_flushed : forall q p sq st evs row cell, sts !! q = Some sq -> sts !! p = Some st -> evss !! p = Some evs ->
    phase sq < 2 -> flushed op !! q = Some row -> row !! p = Some cell ->
    match phase st with 0 => cell = None | _ => exists t, cell = Some t /\ tok t (part_events q evs) end;
  ti_final : forall q sq cell, sts !! q = Some sq -> final_tables op !! q = Some cell ->
    if phase sq <? 2 then cell = None else exists t, cell = Some t /\ tok t (part_events q (concat evss));
  ti_flushers : remaining_flushers op = total unflushed sts;
  ti_mergers : remaining_mergers op = total unmerged sts;
  ti_merged : forall p st q sq, sts !! p = Some st -> sts !! q = Some sq -> 2 <= phase st -> 1 <= phase sq;
  ti_scanning : forall p st q sq, sts !! p = Some st -> sts !! q = Some sq -> 3 <= phase st -> 2 <= phase sq;
  ti_bound : (Z.of_nat (length (concat evss)) <= 2 ^ 61)%Z;
}.

Lemma phase_build p evs st : build_ok p evs st -> phase st = 0.
Proof. by destruct 1. Qed.

Lemma st_ok_build op p evs st : build_ok p evs st -> st_ok op p evs st.
Proof. intros Hb. by destruct Hb; constructor. Qed.

Lemma create_tinv :
  exists op sts, create_partition_states (V:=V) (St:=St) None n = Ok (op, sts) /\ tinv op sts (replicate n [])
    /\ Forall (fun st => phase st = 0) sts.
Proof.
  eexists _, _. split; [done|].
  assert (forall p st, ((fun idx => Initializing idx (new_selector n)) <$> seq 0 n) !! p = Some st -> st = Initializing (V:=V) (St:=St) p (new_selector n)) as Hst.
  { intros p st. rewrite list_lookup_fmap. destruct (seq 0 n !! p) as [k|] eqn:Hk; [|done]. apply lookup_seq in Hk as [-> _]. by intros [= <-]. }
  assert (forall f m i, (forall idx, f (Initializing (V:=V) (St:=St) idx (new_selector n)) = 1) ->
    total f ((fun idx => Initializing idx (new_selector n)) <$> seq i m) = m) as Htotal.
  { intros f m. induction m as [|m IH]; intros i Hf; [done|]. unfold total in *. cbn [seq fmap list_fmap sum_list sum_list_with foldr].
    specialize (IH (S i) Hf). unfold sum_list in *. cbn. rewrite Hf. f_equal. exact IH. }
  split.
  - split; cbn [flushed final_tables remaining_flushers remaining_mergers]; rewrite ?length_replicate, ?length_fmap, ?length_seq; try done.
    + apply Forall_replicate. by rewrite length_replicate.
    + intros p st evs Hp Hev. apply Hst in Hp as ->. apply lookup_replicate in Hev as [-> _]. cbn. constructor; cbn; by rewrite length_replicate.
    + intros q p sq st evs row cell _ Hp _ _ Hrow Hcell. apply Hst in Hp as ->. cbn. apply lookup_replicate in Hrow as [-> _].
      by apply lookup_replicate in Hcell as [-> _].
    + intros q sq cell Hq Hcell. apply Hst in Hq as ->. cbn. by apply lookup_replicate in Hcell as [-> _].
    + by rewrite Htotal.
    + by rewrite Htotal.
    + intros p st q sq Hp _. apply Hst in Hp as ->. cbn. lia.
    + intros p st q sq Hp _. apply Hst in Hp as ->. cbn. lia.
    + assert (concat (replicate n (@nil (@event V))) = []) as ->; [|done]. clear. by induction n as [|m IH].
  - apply Forall_lookup. intros p st Hp. by apply Hst in Hp as ->.
Qed.

(** A partition inserts. *)
Lemma insert_tinv op sts evss p st evs st' new :
  tinv op sts evss -> sts !! p = Some st -> evss !! p = Some evs -> phase st = 0 -> build_ok p (evs ++ new) st' ->
  (Z.of_nat (length (concat (<[p := evs ++ new]> evss))) <= 2 ^ 61)%Z ->
  tinv op (<[p := st']> sts) (<[p := evs ++ new]> evss).
Proof.
  intros Hinv Hp Hevs Hph Hb Hbound. pose proof (phase_build _ _ _ Hb) as Hph'.
  assert (forall q sq, sts !! q = Some sq -> phase sq < 2) as Hlow.
  { intros q sq Hq. destruct (decide (phase sq < 2)) as [|Hge]; [done|]. pose proof (ti_merged _ _ _ Hinv q sq p st Hq Hp). lia. }
  assert (forall q sq, <[p := st']> sts !! q = Some sq -> exists sq0, sts !! q = Some sq0 /\ phase sq = phase sq0) as Hph2.
  { intros q sq [(-> & -> & _)|(_ & Hq)]%list_lookup_insert_Some; [exists st; by rewrite Hph, Hph'|by exists sq]. }
  split; rewrite ?length_insert; try apply Hinv; try done.
  - intros q sq evs' Hq He. destruct (decide (q = p)) as [->|Hne].
    + rewrite list_lookup_insert_eq in Hq by by eapply lookup_lt_Some. rewrite list_lookup_insert_eq in He by by eapply lookup_lt_Some.
      injection Hq as <-. injection He as <-. by apply st_ok_build.
    + rewrite list_lookup_insert_ne in Hq by done. rewrite list_lookup_insert_ne in He by done. by apply (ti_states _ _ _ Hinv q sq evs').
  - intros q r sq sr evs' row cell Hq Hr He Hlt Hrow Hcell. destruct (decide (r = p)) as [->|Hne].
    + rewrite list_lookup_insert_eq in Hr by by eapply lookup_lt_Some. injection Hr as <-. rewrite Hph'. destruct (Hph2 q sq Hq) as (sq0 & Hq0 & Heq).
      pose proof (ti_flushed _ _ _ Hinv q p sq0 st evs row cell Hq0 Hp Hevs) as Hf. rewrite Hph in Hf. apply Hf; [lia|done|done].
    + rewrite list_lookup_insert_ne in Hr by done. rewrite list_lookup_insert_ne in He by done. destruct (Hph2 q sq Hq) as (sq0 & Hq0 & Heq). rewrite Heq in Hlt.
      by apply (ti_flushed _ _ _ Hinv q r sq0 sr evs' row cell).
  - intros q sq cell Hq Hcell. destruct (Hph2 q sq Hq) as (sq0 & Hq0 & Heq). rewrite Heq. pose proof (Hlow q sq0 Hq0) as Hlt.
    pose proof (ti_final _ _ _ Hinv q sq0 cell Hq0 Hcell) as Hf. apply Nat.ltb_lt in Hlt. by rewrite Hlt in *.
  - rewrite (ti_flushers _ _ _ Hinv). pose proof (total_insert unflushed sts p st st' Hp) as Ht.
    assert (unflushed st' = unflushed st) by (unfold unflushed; by rewrite Hph, Hph'). lia.
  - rewrite (ti_mergers _ _ _ Hinv). pose proof (total_insert unmerged sts p st st' Hp) as Ht.
    assert (unmerged st' = unmerged st) by (unfold unmerged; by rewrite Hph, Hph'). lia.
  - intros q sq r sr Hq Hr Hge. destruct (Hph2 q sq Hq) as (sq0 & Hq0 & Heq). specialize (Hlow q sq0 Hq0). lia.
  - intros q sq r sr Hq Hr Hge. destruct (Hph2 q sq Hq) as (sq0 & Hq0 & Heq). specialize (Hlow q sq0 Hq0). lia.
Qed.

(** A partition flushes its tables. *)
Lemma flush_tinv op sts evss p st :
  tinv op sts evss -> sts !! p = Some st -> phase st = 0 ->
  exists op', flush batch_size table op st = Ok (op', MergeReady p) /\ tinv op' (<[p := MergeReady p]> sts) evss.
Proof.
  intros Hinv Hp Hph. pose proof (lookup_lt_Some _ _ _ Hp) as Hpn. rewrite (ti_len _ _ _ Hinv) in Hpn.
  destruct (lookup_lt_is_Some_2 evss p) as [evs Hevs]; [by rewrite (ti_evss _ _ _ Hinv)|].
  assert (build_ok p evs st) as Hb by (pose proof (ti_states _ _ _ Hinv p st evs Hp Hevs) as Hs; by destruct st).
  assert (forall q sq, sts !! q = Some sq -> phase sq < 2) as Hlow.
  { intros q sq Hq. destruct (decide (phase sq < 2)) as [|Hge]; [done|]. pose proof (ti_merged _ _ _ Hinv q sq p st Hq Hp). lia. }
  unfold flush. destruct (prepare_build_maybe_spec op p evs st) as (b & -> & [Hidx _ _ Hl Ht]); [apply Hinv|done|]. unfold mbind at 1, res_bind at 1.
  rewrite Hidx. destruct (flush_tables_spec p (building_tables b) 0 (flushed op)) as (cells & -> & Hlen & Hcells).
  { intros q Hq. rewrite Hl in Hq. destruct (lookup_lt_is_Some_2 (flushed op) q) as [row Hrow]; [by rewrite (ti_rows _ _ _ Hinv)|].
    exists row. split; [done|]. destruct (lookup_lt_is_Some_2 row p) as [cell Hcell].
    { pose proof (ti_cells _ _ _ Hinv) as Hc. eapply Forall_lookup_1 in Hc; [|exact Hrow]. cbn in Hc. lia. }
    destruct (lookup_lt_is_Some_2 sts q) as [sq Hsq]; [by rewrite (ti_len _ _ _ Hinv)|].
    pose proof (ti_flushed _ _ _ Hinv q p sq st evs row cell Hsq Hp Hevs (Hlow q sq Hsq) Hrow Hcell) as Hf. rewrite Hph in Hf. by subst. }
  unfold mbind at 1, res_bind at 1.
  assert (remaining_flushers op <> 0) as Hrem.
  { rewrite (ti_flushers _ _ _ Hinv). pose proof (total_lookup unflushed sts p st Hp) as Hle.
    assert (unflushed st = 1) by (unfold unflushed; by rewrite Hph). lia. }
  apply Nat.eqb_neq in Hrem. rewrite Hrem. cbn [negb rust_assert]. unfold mbind, res_bind. eexists. split; [done|].
  assert (forall q row, flushed op !! q = Some row -> q < n -> cells !! q = Some (<[p := building_tables b !! q]> row)) as Hcells'.
  { intros q row Hrow Hq. rewrite (Hcells q row Hrow), decide_True by lia. by rewrite Nat.sub_0_r. }
  assert (forall q row', cells !! q = Some row' -> q < n /\ exists row, flushed op !! q = Some row /\ row' = <[p := building_tables b !! q]> row) as Hback.
  { intros q row' Hrow'. assert (q < n) as Hq by (rewrite <- (ti_rows _ _ _ Hinv), <- Hlen; by eapply lookup_lt_Some).
    split; [done|]. destruct (lookup_lt_is_Some_2 (flushed op) q) as [row Hrow]; [by rewrite (ti_rows _ _ _ Hinv)|]. exists row. split; [done|].
    rewrite (Hcells' q row Hrow Hq) in Hrow'. by injection Hrow' as <-. }
  assert (forall q sq, <[p := MergeReady p]> sts !! q = Some sq -> exists sq0, sts !! q = Some sq0 /\ phase sq < 2 /\ phase sq0 < 2) as Hph2.
  { intros q sq [(-> & <- & _)|(_ & Hq)]%list_lookup_insert_Some; [exists st; split_and!; [done|cbn; lia|lia]|exists sq; split_and!; [done|by eapply Hlow..]]. }
  split; cbn [flushed final_tables remaining_flushers remaining_mergers]; rewrite ?length_insert; try apply Hinv; try done.
  - by rewrite Hlen, (ti_rows _ _ _ Hinv).
  - apply Forall_lookup. intros q row' (Hq & row & Hrow & ->)%Hback. rewrite length_insert.
    pose proof (ti_cells _ _ _ Hinv) as Hc. by eapply Forall_lookup_1 in Hc.
  - intros q sq evs' Hq He. apply list_lookup_insert_Some in Hq as [(-> & <- & _)|(Hne & Hq)]; [done|].
    pose proof (ti_states _ _ _ Hinv q sq evs' Hq He) as Hs. by destruct sq.
  - intros q r sq sr evs' row cell Hq Hr He _ Hrow Hcell. apply Hback in Hrow as (Hqn & row0 & Hrow0 & ->).
    destruct (Hph2 q sq Hq) as (sq0 & Hq0 & _ & Hlt). apply list_lookup_insert_Some in Hr as [(-> & <- & _)|(Hne & Hr)].
    + rewrite Hevs in He. injection He as <-. cbn. rewrite list_lookup_insert_eq in Hcell.
      * injection Hcell as <-. destruct (lookup_lt_is_Some_2 (building_tables b) q) as [t Htq]; [lia|]. exists t. split; [done|]. by apply Ht.
      * pose proof (ti_cells _ _ _ Hinv) as Hc. eapply Forall_lookup_1 in Hc; [|exact Hrow0]. cbn in Hc. lia.
    + rewrite list_lookup_insert_ne in Hcell by done. by apply (ti_flushed _ _ _ Hinv q r sq0 sr evs' row0 cell).
  - intros q sq cell Hq Hcell. destruct (Hph2 q sq Hq) as (sq0 & Hq0 & Hlt & Hlt0). pose proof (ti_final _ _ _ Hinv q sq0 cell Hq0 Hcell) as Hf.
    apply Nat.ltb_lt in Hlt, Hlt0. by rewrite Hlt, Hlt0 in *.
  - rewrite (ti_flushers _ _ _ Hinv). pose proof (total_insert unflushed sts p st (MergeReady p) Hp) as Htot.
    assert (unflushed st = 1) by (unfold unflushed; by rewrite Hph). change (unflushed (MergeReady p)) with 0 in Htot. lia.
  - rewrite (ti_mergers _ _ _ Hinv). pose proof (total_insert unmerged sts p st (MergeReady p) Hp) as Htot.
    assert (unmerged st = 1) by (unfold unmerged; by rewrite Hph). change (unmerged (MergeReady p)) with 1 in Htot. lia.
  - intros q sq r sr Hq Hr Hge. destruct (Hph2 q sq Hq) as (sq0 & _ & Hlt & _). lia.
  - intros q sq r sr Hq Hr Hge. destruct (Hph2 q sq Hq) as (sq0 & _ & Hlt & _). lia.
Qed.

Lemma concat_part_events q evss : concat (part_events q <$> evss) = part_events q (concat evss).
Proof. unfold part_events. induction evss as [|evs evss IH]; [done|]. cbn [fmap list_fmap concat]. rewrite filter_app. f_equal. exact IH. Qed.

(** The tables flushed for output partition [q], once all have flushed. *)
Lemma flushed_row op sts evss q sq row :
  tinv op sts evss -> sts !! q = Some sq -> phase sq < 2 -> (forall r sr, sts !! r = Some sr -> 1 <= phase sr) -> flushed op !! q = Some row ->
  exists ts, row = (Some <$> ts) /\ Forall2 tok ts (part_events q <$> evss).
Proof.
  intros Hinv Hq Hlt Hall Hrow.
  assert (Forall2 (fun cell evs => exists t, cell = Some t /\ tok t (part_events q evs)) row evss) as Hcells.
  { apply Forall2_same_length_lookup_2.
    - pose proof (ti_cells _ _ _ Hinv) as Hc. eapply Forall_lookup_1 in Hc; [|exact Hrow]. cbn in Hc. by rewrite Hc, (ti_evss _ _ _ Hinv).
    - intros r cell evs Hcell Hevs. destruct (lookup_lt_is_Some_2 sts r) as [sr Hr].
      { rewrite (ti_len _ _ _ Hinv), <- (ti_evss _ _ _ Hinv). by eapply lookup_lt_Some. }
      pose proof (ti_flushed _ _ _ Hinv q r sq sr evs row cell Hq Hr Hevs Hlt Hrow Hcell) as Hf. specialize (Hall r sr Hr).
      destruct (phase sr); [lia|done]. }
  clear -Hcells. induction Hcells as [|cell evs row evss (t & -> & Ht) _ (ts & -> & Hts)]; [by exists []|].
  exists (t :: ts). split; [done|]. cbn [fmap list_fmap]. by constructor.
Qed.

(** A partition merges the tables of its output partition. *)
Lemma merge_tinv op sts evss p st :
  tinv op sts evss -> sts !! p = Some st -> phase st = 1 -> (forall r sr, sts !! r = Some sr -> 1 <= phase sr) ->
  exists op', merge_global table op st = Ok (op', ScanReady p) /\ tinv op' (<[p := ScanReady p]> sts) evss.
Proof.
  intros Hinv Hp Hph Hall. pose proof (lookup_lt_Some _ _ _ Hp) as Hpn. rewrite (ti_len _ _ _ Hinv) in Hpn.
  destruct (lookup_lt_is_Some_2 evss p) as [evs Hevs]; [by rewrite (ti_evss _ _ _ Hinv)|].
  assert (st = MergeReady p) as ->.
  { pose proof (ti_states _ _ _ Hinv p st evs Hp Hevs) as Hs. destruct st; try done. cbn in Hs. by subst. }
  destruct (lookup_lt_is_Some_2 (flushed op) p) as [row Hrow]; [by rewrite (ti_rows _ _ _ Hinv)|].
  destruct (lookup_lt_is_Some_2 (final_tables op) p) as [cell Hcell]; [by rewrite (ti_finals _ _ _ Hinv)|].
  destruct (flushed_row op sts evss p (MergeReady p) row Hinv Hp ltac:(cbn; lia) Hall Hrow) as (ts & -> & Hts).
  unfold merge_global. rewrite (bind_ok _ _ _ (proj2 (index_Ok _ _ _) Hrow)).
  assert (remaining_flushers op = 0) as Hf0.
  { rewrite (ti_flushers _ _ _ Hinv). destruct (decide (total unflushed sts = 0)) as [|Hnz]; [done|].
    destruct (total_pos unflushed sts ltac:(lia)) as (r & sr & Hr & Hpos). specialize (Hall r sr Hr). unfold unflushed in Hpos.
    rewrite (proj2 (Nat.ltb_ge _ _)) in Hpos by lia. lia. }
  rewrite Hf0. cbn [Nat.eqb negb]. pose proof (ti_evss _ _ _ Hinv) as Hlen. pose proof (ti_bound _ _ _ Hinv) as Hbound.
  destruct evss as [|evs0 evss']; [simpl in Hlen; lia|]. destruct ts as [|t0 ts]; [by inversion Hts|].
  rewrite fmap_cons in Hts. apply Forall2_cons in Hts as [Ht0 Hts]. rewrite fmap_cons. cbn [cell_expect]. unfold mbind at 1, res_bind at 1.
  destruct (merge_others_spec t0 (part_events p evs0) ts (fmap (M:=list) (part_events p) evss') Ht0 Hts) as (t' & others' & Hrun & Ht' & Hothers).
  { rewrite concat_part_events. cbn [concat] in Hbound. rewrite length_app in Hbound.
    pose proof (part_events_length p evs0). pose proof (part_events_length p (concat evss')). lia. }
  rewrite (bind_ok _ _ _ Hrun). cbv beta iota.
  assert (cell = None) as ->.
  { pose proof (ti_final _ _ _ Hinv p _ cell Hp Hcell) as Hf. exact Hf. }
  rewrite (bind_ok _ _ _ (proj2 (index_Ok _ _ _) Hcell)). cbn [cell_set]. unfold mbind at 1, res_bind at 1.
  assert (remaining_mergers op <> 0) as Hrem.
  { rewrite (ti_mergers _ _ _ Hinv). pose proof (total_lookup unmerged sts p (MergeReady p) Hp) as Hle. change (unmerged (MergeReady p)) with 1 in Hle. lia. }
  apply Nat.eqb_neq in Hrem as Hrem'. rewrite Hrem'. cbn [negb rust_assert]. unfold mbind, res_bind. eexists. split; [done|].
  rewrite concat_part_events in Ht'. unfold part_events in Ht'. rewrite <- filter_app in Ht'. fold (part_events p (evs0 ++ concat evss')) in Ht'.
  assert (forall r sr, sts !! r = Some sr -> phase sr < 3) as Hlow.
  { intros r sr Hr. destruct (decide (phase sr < 3)) as [|Hge]; [done|]. pose proof (ti_scanning _ _ _ Hinv r sr p _ Hr Hp). cbn in *. lia. }
  split; cbn [flushed final_tables remaining_flushers remaining_mergers]; rewrite ?length_insert; try apply Hinv; try done.
  - apply Forall_insert; [apply Hinv|]. pose proof (ti_cells _ _ _ Hinv) as Hc. eapply Forall_lookup_1 in Hc; [|exact Hrow]. cbn in Hc |- *.
    rewrite length_fmap in Hc. lia.
  - intros q sq evs' Hq He. apply list_lookup_insert_Some in Hq as [(-> & <- & _)|(Hne & Hq)]; [done|].
    pose proof (ti_states _ _ _ Hinv q sq evs' Hq He) as Hs. specialize (Hlow q sq Hq). destruct sq; cbn in Hlow; try done; lia.
  - intros q r sq sr evs' row cell Hq Hr He Hlt Hrow' Hcell'. apply list_lookup_insert_Some in Hq as [(-> & <- & _)|(Hne & Hq)]; [cbn in Hlt; lia|].
    rewrite list_lookup_insert_ne in Hrow' by done. apply list_lookup_insert_Some in Hr as [(<- & <- & _)|(Hne' & Hr)].
    + pose proof (ti_flushed _ _ _ Hinv q p sq _ evs' row cell Hq Hp He Hlt Hrow' Hcell') as Hf. exact Hf.
    + by apply (ti_flushed _ _ _ Hinv q r sq sr evs' row cell).
  - intros q sq cell Hq Hc. apply list_lookup_insert_Some in Hq as [(-> & <- & _)|(Hne & Hq)].
    + rewrite list_lookup_insert_eq in Hc by (by rewrite (ti_finals _ _ _ Hinv)). injection Hc as <-. cbn. by exists t'.
    + rewrite list_lookup_insert_ne in Hc by done. by apply (ti_final _ _ _ Hinv q sq cell).
  - pose proof (ti_flushers _ _ _ Hinv). pose proof (total_insert unflushed sts p _ (ScanReady p) Hp) as Htot.
    change (unflushed (MergeReady p)) with 0 in Htot. change (unflushed (ScanReady p)) with 0 in Htot. lia.
  - pose proof (total_insert unmerged sts p _ (ScanReady p) Hp) as Htot. pose proof (ti_mergers _ _ _ Hinv).
    change (unmerged (MergeReady p)) with 1 in Htot. change (unmerged (ScanReady p)) with 0 in Htot. lia.
  - intros q sq r sr Hq Hr _. apply list_lookup_insert_Some in Hr as [(-> & <- & _)|(Hne & Hr)]; [cbn; lia|by eapply Hall].
  - intros q sq r sr Hq Hr Hge. apply list_lookup_insert_Some in Hq as [(-> & <- & _)|(Hne & Hq)]; [cbn in Hge; lia|].
    specialize (Hlow q sq Hq). lia.
Qed.

(** *** Scanning *)

Variable int64_value : Z -> V.
Hypothesis set_sorted : StronglySorted lt (grouping_set table).

(** The group columns of the output: values of the groups in the set, NULL for
    the others. *)
Definition spread_groups (f : nat -> option V) : list (option V) :=
  (fun i => if decide (i ∈ grouping_set table) then f i else None) <$> seq 0 (length (groups table)).

Lemma place_groups_spec (f : nat -> option V) m o l1 l2 :
  grouping_set table = l1 ++ l2 -> Forall (fun i => i < o) l1 -> Forall (fun i => o <= i) l2 -> StronglySorted lt l2 ->
  place_groups table m o (length l1) (f <$> grouping_set table)
  = Ok ((fun i => if decide (i ∈ grouping_set table) then f i else None) <$> seq o m).
Proof.
  revert o l1 l2. induction m as [|m IH]; intros o l1 l2 Hset Hl1 Hl2 Hs; [done|]. cbn [place_groups seq fmap list_fmap].
  change (list_fmap _ _ ?f (seq (S o) m)) with (f <$> seq (S o) m).
  assert (Forall (fun i => i < S o) l1) as Hl1' by (eapply Forall_impl; [exact Hl1|cbn; lia]).
  destruct (decide (o ∈ grouping_set table)) as [Hin|Hin].
  - rewrite bool_decide_eq_true_2 by done.
    destruct l2 as [|x l2].
    { exfalso. rewrite Hset, app_nil_r in Hin. rewrite Forall_forall in Hl1. specialize (Hl1 o Hin). cbn in Hl1. lia. }
    apply Forall_cons in Hl2 as [Hx Hl2]. inversion Hs as [|? ? Hs' Hlt]; subst.
    assert (x = o) as ->.
    { rewrite Hset in Hin. apply elem_of_app in Hin as [Hin|[->|Hin]%elem_of_cons]; [|done|].
      - rewrite Forall_forall in Hl1. specialize (Hl1 o Hin). cbn in Hl1. lia.
      - rewrite Forall_forall in Hlt. specialize (Hlt o Hin). lia. }
    assert (index (f <$> grouping_set table) (length l1) = Ok (f o)) as Hidx.
    { apply index_Ok. rewrite Hset, list_lookup_fmap, list_lookup_middle by done. done. }
    rewrite (bind_ok _ _ _ Hidx). assert (S (length l1) = length (l1 ++ [o])) as -> by (rewrite length_app; cbn; lia).
    rewrite (IH (S o) (l1 ++ [o]) l2); [done|by rewrite <- app_assoc|apply Forall_app; split; [done|by repeat constructor]| |done].
    eapply Forall_impl; [exact Hlt|]. cbn. lia.
  - rewrite bool_decide_eq_false_2 by done. rewrite (IH (S o) l1 l2); [done|done|done| |done].
    apply Forall_forall. intros i Hi. rewrite Forall_forall in Hl2. specialize (Hl2 i Hi). cbn in Hl2.
    destruct (decide (i = o)) as [->|]; [|lia]. destruct Hin. rewrite Hset. apply elem_of_app. by right.
Qed.

(** The output row of a group. *)
Definition result_row (f : nat -> option V) (sts : list St) : list (option V) :=
  spread_groups f ++ finalize_states table sts ++ ((fun v => Some (int64_value v)) <$> grouping_values table).

Lemma output_row_spec f (row : GroupRow V St) :
  group row = (f <$> grouping_set table) -> output_row int64_value table row = Ok (result_row f (states row)).
Proof.
  intros Hkey. unfold output_row. rewrite Hkey, (place_groups_spec f _ 0 [] (grouping_set table)); [done|done|constructor| |done].
  apply Forall_forall. intros. lia.
Qed.

(** The rows a partition has still to emit. *)
Definition scanning_left (s : LocalScanningState V St) : list (GroupRow V St) :=
  concat (rev (zip_with (fun t sc => scan_left (table_blocks t) sc) (scan_tables s) (scan_states s))).

(** The rows of the final tables that partition [p] scans. *)
Definition table_share (p : nat) (t : Table) : list (GroupRow V St) :=
  concat ((fun b => default [] (table_blocks t !! b)) <$> filter (fun b => b mod n = p) (seq 0 (length (table_blocks t)))).

Definition share (ts : list Table) (p : nat) : list (GroupRow V St) := concat (rev (table_share p <$> ts)).

Lemma scan_left_elem {R} (blocks : list (list R)) sc r : r ∈ scan_left blocks sc -> r ∈ concat blocks.
Proof.
  assert (forall b x, x ∈ default [] (blocks !! b) -> x ∈ concat blocks) as Hb.
  { intros b x Hx. destruct (blocks !! b) as [block|] eqn:Hb; [|by apply not_elem_of_nil in Hx]. cbn in Hx. apply list_elem_of_In, in_concat.
    exists block. split; [apply list_elem_of_In; by eapply list_elem_of_lookup_2|by apply list_elem_of_In]. }
  unfold scan_left. intros [Hr|Hr]%elem_of_app.
  - destruct (current_block sc) as [c|]; [|by apply not_elem_of_nil in Hr]. apply (Hb c). by eapply subseteq_drop.
  - apply list_elem_of_In, in_concat in Hr as (l & Hl & Hr). apply list_elem_of_In, list_elem_of_fmap in Hl as (b & -> & _). apply (Hb b). by apply list_elem_of_In.
Qed.

Lemma table_blocks_data t : row_capacity t = batch_size -> concat (table_blocks (V:=V) (St:=St) t) = data t.
Proof. intros Hc. apply concat_chunks. by rewrite Hc. Qed.

Lemma scan_tables_loop_spec finals fuel s :
  scanning_ok finals s -> length (scan_tables s) < fuel ->
  (forall r, r ∈ scanning_left s -> exists f, group r = (f <$> grouping_set table)) ->
  exists s' rows out, scan_tables_loop int64_value batch_size table fuel s = Ok (s', out) /\ collect (output_row int64_value table) rows = Ok out
    /\ scanning_left s = rows ++ scanning_left s' /\ scanning_ok finals s' /\ (rows = [] -> scanning_left s = []) /\ length rows <= batch_size.
Proof.
  revert s. induction fuel as [|fuel IH]; intros s [(ts & Hts & Hpre) Hscans] Hfuel Hkeys; [lia|]. cbn [scan_tables_loop].
  destruct s as [tables scans]. cbn [scan_tables scan_states] in *.
  destruct tables as [|t tables _] using rev_ind.
  { inversion Hscans; subst. exists (mkScanning [] []), [], []. split_and!; try done; [|cbn; lia]. split; [by exists ts|constructor]. }
  apply Forall2_app_inv_l in Hscans as (scans0 & scans1 & Hs0 & Hs1 & ->). apply Forall2_cons_inv_l in Hs1 as (sc & scans2 & Hsc & Hs2 & ->).
  apply Forall2_nil_inv_l in Hs2 as ->. rewrite !last_snoc. cbn [cell_expect]. unfold mbind at 1, res_bind at 1.
  assert (scanning_left (mkScanning (tables ++ [t]) (scans0 ++ [sc])) = scan_left (table_blocks t) sc ++ scanning_left (mkScanning tables scans0)) as Hleft.
  { unfold scanning_left. cbn [scan_tables scan_states]. rewrite zip_with_app by by eapply Forall2_length. rewrite rev_app_distr. done. }
  assert (tables `prefix_of` ts) as Hpre' by (etransitivity; [by eexists|exact Hpre]).
  destruct (scan_subset_spec (table_blocks t) sc batch_size Hsc) as (sc' & -> & Hl & Hwf & _). unfold mbind at 1, res_bind at 1.
  set (rows := take batch_size (scan_left (table_blocks t) sc)) in *.
  destruct (Nat.eqb_spec (length rows) 0) as [Hz|Hnz].
  - assert (scan_left (table_blocks t) sc = []) as Hnil.
    { unfold rows in Hz. rewrite length_take in Hz. apply nil_length_inv. lia. }
    rewrite !removelast_last. rewrite Hnil in Hleft. cbn [app] in Hleft. rewrite Hleft in *.
    apply IH; [split; [by exists ts|done]|cbn; rewrite length_app in Hfuel; cbn in Hfuel; lia|done].
  - rewrite (collect_map _ (fun r => default [] (match output_row int64_value table r with Ok x => Some x | _ => None end))).
    2: { intros r Hr. destruct (Hkeys r) as [f Hf]; [rewrite Hleft; apply elem_of_app; left; by eapply subseteq_take|].
         by rewrite (output_row_spec f r Hf). }
    unfold mbind, res_bind. rewrite removelast_last. eexists _, rows, _. split; [done|]. split.
    { apply collect_map. intros r Hr. destruct (Hkeys r) as [f Hf]; [rewrite Hleft; apply elem_of_app; left; by eapply subseteq_take|].
      by rewrite (output_row_spec f r Hf). }
    split_and!.
    + rewrite Hleft. unfold scanning_left at 2. cbn [scan_tables scan_states]. rewrite zip_with_app by by eapply Forall2_length.
      rewrite rev_app_distr. cbn [zip_with rev app concat]. rewrite Hl, app_assoc. unfold rows. by rewrite take_drop.
    + split; [by exists ts|]. cbn. apply Forall2_app; [done|]. by constructor.
    + intros Hn. by rewrite Hn in Hnz.
    + unfold rows. rewrite length_take. lia.
Qed.

(** The final tables once all partitions have merged. *)
Lemma merged_finals op sts evss :
  tinv op sts evss -> (forall r sr, sts !! r = Some sr -> 2 <= phase sr) ->
  exists ts, final_tables op = (Some <$> ts) /\ length ts = n
    /\ forall q t, ts !! q = Some t -> tok t (part_events q (concat evss)).
Proof.
  intros Hinv Hall.
  assert (forall q cell, final_tables op !! q = Some cell -> exists t, cell = Some t /\ tok t (part_events q (concat evss))) as Hcell.
  { intros q cell Hq. destruct (lookup_lt_is_Some_2 sts q) as [sq Hsq].
    { rewrite (ti_len _ _ _ Hinv), <- (ti_finals _ _ _ Hinv). by eapply lookup_lt_Some. }
    pose proof (ti_final _ _ _ Hinv q sq cell Hsq Hq) as Hf. rewrite (proj2 (Nat.ltb_ge _ _)) in Hf by by eapply Hall. done. }
  assert (forall cells : list (option Table), (forall q cell, cells !! q = Some cell -> exists t, cell = Some t) -> exists ts, cells = (Some <$> ts)) as Hsome.
  { induction cells as [|c cells IH]; intros Hc; [by exists []|]. destruct (Hc 0 c eq_refl) as [t ->]. destruct IH as [ts ->]; [intros q; apply (Hc (S q))|].
    by exists (t :: ts). }
  destruct (Hsome (final_tables op)) as [ts Hts]; [intros q cell Hq; destruct (Hcell q cell Hq) as (t & -> & _); by exists t|].
  exists ts. pose proof (ti_finals _ _ _ Hinv) as Hlen. rewrite Hts, length_fmap in Hlen. split_and!; [done..|]. intros q t Hq.
  destruct (Hcell q (Some t)) as (t' & [= <-] & Ht); [by rewrite Hts, list_lookup_fmap, Hq|done].
Qed.

Definition left_of (ts : list Table) (p : nat) (st : TablePartitionState V St) : list (GroupRow V St) :=
  match st with
  | ScanReady _ => share ts p
  | Scanning s => scanning_left s
  | _ => []
  end.

Lemma prepare_scan_spec op ts p :
  final_tables op = (Some <$> ts) -> length ts = n -> remaining_mergers op = 0 ->
  exists s, prepare_scan op (ScanReady p) = Ok s /\ scanning_ok (final_tables op) s /\ scanning_left s = share ts p.
Proof.
  intros Hts Hlen Hrem. unfold prepare_scan. rewrite Hrem. cbn [Nat.eqb negb].
  assert (collect (fun cell => cell_expect cell "table to have been set") (final_tables op) = Ok ts) as ->.
  { rewrite Hts. apply collect_Forall2. apply Forall2_fmap_l. by apply Forall_Forall2_diag, Forall_forall. }
  unfold mbind, res_bind. rewrite Hlen. eexists. split; [done|]. split.
  - split; cbn [scan_tables scan_states]; [by exists ts|]. apply Forall2_fmap_r, Forall_Forall2_diag, Forall_forall. intros t _.
    apply partial_scan_wf, Forall_forall. intros b [_ [_ Hb]%elem_of_seq]%list_elem_of_filter. lia.
  - unfold scanning_left, share. cbn [scan_tables scan_states]. do 2 f_equal. by rewrite zip_with_fmap_r, zip_with_diag.
Qed.

Lemma scan_tinv op sts evss p st ts :
  tinv op sts evss -> (forall r sr, sts !! r = Some sr -> 2 <= phase sr) -> final_tables op = (Some <$> ts) -> sts !! p = Some st ->
  (forall ev, ev ∈ concat evss -> exists f, ev_key ev = (f <$> grouping_set table)) ->
  exists s rows out, scan int64_value batch_size table op st = Ok (Scanning s, out) /\ collect (output_row int64_value table) rows = Ok out
    /\ left_of ts p st = rows ++ scanning_left s /\ (rows = [] -> left_of ts p st = []) /\ length rows <= batch_size
    /\ tinv op (<[p := Scanning s]> sts) evss.
Proof.
  intros Hinv Hall Hts Hp Hkeys. pose proof (lookup_lt_Some _ _ _ Hp) as Hpn. rewrite (ti_len _ _ _ Hinv) in Hpn.
  destruct (lookup_lt_is_Some_2 evss p) as [evs Hevs]; [by rewrite (ti_evss _ _ _ Hinv)|].
  destruct (merged_finals op sts evss Hinv Hall) as (ts' & Hts' & Hlen & Htok). rewrite Hts in Hts'. apply list_fmap_eq_inj in Hts' as <-; [|by intros ?? [=]].
  assert (remaining_mergers op = 0) as Hrem.
  { rewrite (ti_mergers _ _ _ Hinv). destruct (decide (total unmerged sts = 0)) as [|Hnz]; [done|].
    destruct (total_pos unmerged sts ltac:(lia)) as (r & sr & Hr & Hpos). specialize (Hall r sr Hr). unfold unmerged in Hpos.
    rewrite (proj2 (Nat.ltb_ge _ _)) in Hpos by lia. lia. }
  assert (exists s, match st with ScanReady _ => prepare_scan op st | Scanning s => Ok s | _ => Err "Partition in invalid state, cannot scan" end = Ok s
    /\ scanning_ok (final_tables op) s /\ scanning_left s = left_of ts p st) as (s & Hs & Hok & Hleft).
  { pose proof (Hall p st Hp) as Hge. pose proof (ti_states _ _ _ Hinv p st evs Hp Hevs) as Hst. destruct st; cbn in Hge; try lia.
    - cbn in Hst. subst. by apply prepare_scan_spec.
    - by exists scanning.
    - done. }
  unfold scan. rewrite Hs. unfold mbind at 1, res_bind at 1. rewrite <- Hleft.
  destruct (scan_tables_loop_spec (final_tables op) (S (length (scan_tables s))) s Hok) as (s' & rows & out & -> & Hout & Hl & Hok' & Hnil & Hle); [lia| |].
  { intros r Hr. unfold scanning_left in Hr. apply list_elem_of_In, in_concat in Hr as (l & Hl & Hr). apply in_rev, list_elem_of_In in Hl.
    apply list_elem_of_In in Hr. apply list_elem_of_lookup_1 in Hl as [i Hi]. apply lookup_zip_with_Some in Hi as (t & sc & -> & Ht & _).
    apply scan_left_elem in Hr. destruct Hok as [(ts' & Hts' & Hpre) _]. rewrite Hts in Hts'. apply list_fmap_eq_inj in Hts' as <-; [|by intros ?? [=]].
    eapply prefix_lookup_Some in Ht; [|exact Hpre]. destruct (Htok i t Ht) as [Htable _ Hcap]. rewrite table_blocks_data in Hr by done.
    assert (group r ∈ (ev_key <$> part_events i (concat evss))) as Hin by (apply (rep_groups _ _ (ok_rep _ _ _ _ Htable)); by apply list_elem_of_fmap_2).
    apply list_elem_of_fmap in Hin as (ev & -> & Hev). unfold part_events in Hev. apply list_elem_of_filter in Hev as [_ Hev]. by apply Hkeys. }
  unfold mbind, res_bind. exists s', rows, out. split_and!; try done.
  assert (forall q sq, <[p := Scanning s']> sts !! q = Some sq -> exists sq0, sts !! q = Some sq0 /\ 2 <= phase sq /\ 2 <= phase sq0) as Hph2.
  { intros q sq [(-> & <- & _)|(_ & Hq)]%list_lookup_insert_Some; [exists st; split_and!; [done|cbn; lia|by eapply Hall]|exists sq; split_and!; [done|by eapply Hall..]]. }
  split; rewrite ?length_insert; try apply Hinv; try done.
  - intros q sq evs' Hq He. apply list_lookup_insert_Some in Hq as [(-> & <- & _)|(Hne & Hq)]; [done|]. by apply (ti_states _ _ _ Hinv q sq evs').
  - intros q r sq sr evs' row cell Hq Hr He Hlt. destruct (Hph2 q sq Hq) as (_ & _ & Hge & _). lia.
  - intros q sq cell Hq Hcell. destruct (Hph2 q sq Hq) as (sq0 & Hq0 & Hge & Hge0). pose proof (ti_final _ _ _ Hinv q sq0 cell Hq0 Hcell) as Hf.
    apply Nat.ltb_ge in Hge, Hge0. by rewrite Hge, Hge0 in *.
  - rewrite (ti_flushers _ _ _ Hinv). pose proof (total_insert unflushed sts p st (Scanning s') Hp) as Htot. change (unflushed (Scanning s')) with 0 in Htot.
    assert (unflushed st = 0); [|lia]. unfold unflushed. specialize (Hall p st Hp). rewrite (proj2 (Nat.ltb_ge _ _)) by lia. done.
  - rewrite (ti_mergers _ _ _ Hinv). pose proof (total_insert unmerged sts p st (Scanning s') Hp) as Htot. change (unmerged (Scanning s')) with 0 in Htot.
    assert (unmerged st = 0); [|lia]. unfold unmerged. specialize (Hall p st Hp). rewrite (proj2 (Nat.ltb_ge _ _)) by lia. done.
  - intros q sq r sr Hq Hr _. destruct (Hph2 r sr Hr) as (_ & _ & Hge & _). lia.
  - intros q sq r sr Hq Hr _. destruct (Hph2 r sr Hr) as (_ & _ & Hge & _). lia.
Qed.

(** *** The shares of the partitions *)

(** Together the partitions scan every row of every final table once. *)
Lemma shares_all ts :
  Forall (fun t => row_capacity t = batch_size) ts -> concat (share ts <$> seq 0 n) ≡ₚ concat (data <$> ts).
Proof.
  intros Hcap. unfold share.
  transitivity (concat ((fun p => concat (table_share p <$> ts)) <$> seq 0 n)).
  { generalize (seq 0 n). induction l as [|p l IH]; [done|]. cbn [fmap list_fmap concat] in *. rewrite IH. apply Permutation_app_tail.
    by rewrite <- Permutation_rev. }
  rewrite concat_swap. induction Hcap as [|t ts Ht _ IH]; [done|]. cbn [fmap list_fmap concat] in *. rewrite IH. apply Permutation_app_tail.
  unfold table_share. rewrite concat_mod by exact n_pos. apply reflexive_eq. rewrite <- (table_blocks_data t Ht). rewrite <- (scan_left_full (table_blocks t)). done.
Qed.

(** *** The result *)

(** What the rows of the final tables are, for the events of all partitions. *)
Record result_of (rows : list (GroupRow V St)) (evs : list event) : Prop := {
  res_nodup : NoDup (group <$> rows);
  res_groups : forall g, g ∈ (group <$> rows) <-> g ∈ (ev_key <$> evs);
  res_states : forall row, row ∈ rows -> forall a,
    states row !! a = (fun agg => agg_fold aggs (group row) evs a (new_aggregate_state agg)) <$> aggs !! a;
}.

Lemma part_filter q g evs : part_of g = q -> filter (fun ev => ev_key ev = g) (part_events q evs) = filter (fun ev => ev_key ev = g) evs.
Proof.
  intros Hq. unfold part_events. induction evs as [|ev evs IH]; [done|]. rewrite !filter_cons.
  destruct (decide (part_of (ev_key ev) = q)) as [Hp|Hp]; [rewrite filter_cons, IH; done|].
  rewrite decide_False by (intros <-; done). done.
Qed.

Lemma tables_result ts evs :
  length ts = n -> (forall q t, ts !! q = Some t -> tok t (part_events q evs)) -> result_of (concat (data <$> ts)) evs.
Proof.
  intros Hlen Htok.
  assert (forall q t g, ts !! q = Some t -> g ∈ (group <$> data t) <-> (g ∈ (ev_key <$> evs) /\ part_of g = q)) as Hgroups.
  { intros q t g Hq. destruct (Htok q t Hq) as [Hok _ _]. rewrite (rep_groups _ _ (ok_rep _ _ _ _ Hok)). unfold part_events.
    rewrite !list_elem_of_fmap. split.
    - intros (ev & -> & [Hp Hev]%list_elem_of_filter). split; [by exists ev|done].
    - intros [(ev & -> & Hev) Hp]. exists ev. split; [done|]. by apply list_elem_of_filter. }
  assert (forall row, row ∈ concat (data <$> ts) -> exists q t, ts !! q = Some t /\ row ∈ data t) as Hrow.
  { intros row Hr. apply list_elem_of_In, in_concat in Hr as (l & Hl & Hr). apply list_elem_of_In, list_elem_of_fmap in Hl as (t & -> & Ht).
    apply list_elem_of_lookup_1 in Ht as [q Hq]. exists q, t. split; [done|]. by apply list_elem_of_In. }
  split.
  - assert (forall l i, (forall q t, l !! q = Some t -> ts !! (i + q) = Some t) -> NoDup (group <$> concat (data <$> l))) as Hnd; [|by apply (Hnd ts 0)].
    induction l as [|t l IH]; intros i Hl; [constructor|]. cbn [fmap list_fmap concat]. rewrite fmap_app. apply NoDup_app. split_and!.
    + pose proof (Hl 0 t eq_refl) as Ht. rewrite Nat.add_0_r in Ht. destruct (Htok i t Ht) as [[[T Hwf] _ _] _ _]. by eapply table_nodup.
    + intros g Hg Hg'. pose proof (Hl 0 t eq_refl) as Ht. rewrite Nat.add_0_r in Ht. apply (Hgroups i t g Ht) in Hg as [_ Hi].
      apply list_elem_of_fmap in Hg' as (row & -> & Hr). apply list_elem_of_In, in_concat in Hr as (d & Hd & Hr).
      apply list_elem_of_In, list_elem_of_fmap in Hd as (t' & -> & Ht'). apply list_elem_of_lookup_1 in Ht' as [k Hk].
      specialize (Hl (S k) t' Hk). assert (group row ∈ (group <$> data t')) as Hg by (apply list_elem_of_fmap_2; by apply list_elem_of_In).
      apply (Hgroups _ _ _ Hl) in Hg as [_ Hj]. lia.
    + apply (IH (S i)). intros q t' Hq. rewrite Nat.add_succ_l, <- Nat.add_succ_r. by apply Hl.
  - intros g. split.
    + intros (row & -> & Hr)%list_elem_of_fmap. destruct (Hrow row Hr) as (q & t & Hq & Hrt). apply (Hgroups q t); [done|]. by apply list_elem_of_fmap_2.
    + intros Hg. destruct (lookup_lt_is_Some_2 ts (part_of g)) as [t Ht]; [rewrite Hlen; apply part_of_lt|].
      assert (g ∈ (group <$> data t)) as (row & -> & Hr)%list_elem_of_fmap by by apply (Hgroups (part_of g) t).
      apply list_elem_of_fmap_2. apply list_elem_of_In, in_concat. exists (data t). split; [|by apply list_elem_of_In].
      apply list_elem_of_In, list_elem_of_fmap_2. by eapply list_elem_of_lookup_2.
  - intros row Hr a. destruct (Hrow row Hr) as (q & t & Hq & Hrt). destruct (Htok q t Hq) as [Hok Ha _].
    apply list_elem_of_lookup_1 in Hrt as [i Hi]. rewrite (rep_states _ _ (ok_rep _ _ _ _ Hok) i row Hi a), Ha.
    destruct (aggs !! a) as [agg|]; [|done]. cbn. f_equal. unfold agg_fold. f_equal. apply part_filter.
    apply (Hgroups q t); [done|]. apply list_elem_of_fmap_2. by eapply list_elem_of_lookup_2.
Qed.

(** *** Inserting distinct values *)

Variable blank : option V.
Hypothesis widths : Forall (fun a => num_columns (function a) = length (columns a)) (layout table).

Lemma skip_columns_spec m prev idx :
  prev + m <= length (layout table) -> skip_columns table m prev idx = Ok (idx + (col_offset aggs (prev + m) - col_offset aggs prev)).
Proof.
  revert prev idx. induction m as [|m IH]; intros prev idx Hle; cbn [skip_columns]; [rewrite Nat.add_0_r; f_equal; lia|].
  destruct (lookup_lt_is_Some_2 (layout table) prev) as [agg Hagg]; [lia|]. rewrite (bind_ok _ _ _ (proj2 (index_Ok _ _ _) Hagg)).
  rewrite IH by lia. f_equal. rewrite Nat.add_succ_r, <- Nat.add_succ_l.
  assert (aggs !! prev = Some (function agg)) as Ha by by rewrite list_lookup_fmap, Hagg.
  pose proof (col_offset_S aggs prev _ Ha) as Hoff. eapply Forall_lookup_1 in widths as Hw; [|exact Hagg]. cbn in Hw.
  assert (forall k, col_offset aggs (S prev) <= col_offset aggs (S prev + k)) as Hmono.
  { induction k as [|k IHk]; [by rewrite Nat.add_0_r|]. rewrite Nat.add_succ_r. destruct (aggs !! (S prev + k)) as [x|] eqn:Hx.
    - rewrite (col_offset_S _ _ _ Hx). lia.
    - apply lookup_ge_None in Hx. unfold col_offset in *. rewrite (take_ge _ (S (S prev + k))) by lia. rewrite (take_ge _ (S prev + k)) in IHk by lia. exact IHk. }
  specialize (Hmono m). lia.
Qed.

Lemma clone_columns_spec c own other (ocols cols : list (list (option V))) :
  own + c <= length cols -> other + c <= length ocols ->
  exists cols', clone_columns c own other ocols cols = Ok cols' /\ length cols' = length cols
    /\ forall i, cols' !! i = if decide (own <= i < own + c) then ocols !! (other + (i - own)) else cols !! i.
Proof.
  revert own other cols. induction c as [|c IH]; intros own other cols Hown Hother.
  { exists cols. split_and!; [done..|]. intros i. by rewrite decide_False by lia. }
  cbn [clone_columns]. destruct (lookup_lt_is_Some_2 ocols other) as [col Hcol]; [lia|]. rewrite (bind_ok _ _ _ (proj2 (index_Ok _ _ _) Hcol)).
  destruct (lookup_lt_is_Some_2 cols own) as [x Hx]; [lia|]. rewrite (bind_ok _ _ _ (proj2 (index_Ok _ _ _) Hx)).
  destruct (IH (S own) (S other) (<[own := col]> cols)) as (cols' & -> & Hlen & Hlk); [rewrite length_insert; lia|lia|].
  exists cols'. rewrite length_insert in Hlen. split_and!; [done..|]. intros i. rewrite Hlk. destruct (decide (i = own)) as [->|Hne].
  - rewrite decide_False by lia. rewrite decide_True by lia. rewrite list_lookup_insert_eq by lia. by rewrite Nat.sub_diag, Nat.add_0_r.
  - destruct (decide (S own <= i < S own + c)).
    + rewrite decide_True by lia. f_equal. lia.
    + rewrite decide_False by lia. by rewrite list_lookup_insert_ne.
Qed.

(** Aggregates without inputs leave the buffers as they are. *)
Lemma clone_distinct_none sel prev idx input_idx ocols cols :
  Forall (fun a => a < length (layout table)) sel -> StronglySorted lt sel -> Forall (fun a => prev <= a) sel ->
  (forall a agg, a ∈ sel -> layout table !! a = Some agg -> length (columns agg) = 0) ->
  clone_distinct_inputs table sel prev idx input_idx ocols cols = Ok cols.
Proof.
  revert prev idx input_idx. induction sel as [|a sel IH]; intros prev idx input_idx Hr Hs Hge Hz; cbn [clone_distinct_inputs]; [done|].
  apply Forall_cons in Hr as [Ha Hr]. apply Forall_cons in Hge as [Hpa Hge]. inversion Hs as [|? ? Hs' Hlt]; subst.
  rewrite (proj2 (Nat.leb_le _ _) Hpa). cbn [rust_assert]. unfold mbind at 1, res_bind at 1. rewrite skip_columns_spec by lia. unfold mbind at 1, res_bind at 1.
  destruct (lookup_lt_is_Some_2 (layout table) a Ha) as [agg Hagg]. rewrite (bind_ok _ _ _ (proj2 (index_Ok _ _ _) Hagg)).
  rewrite (Hz a agg) by (done || left). cbn [clone_columns]. unfold mbind at 1, res_bind at 1. apply IH; [done|done| |].
  - eapply Forall_impl; [exact Hlt|]. cbn. lia.
  - intros b agg' Hb. apply Hz. by right.
Qed.

(** What the distinct values of one row insert. *)
Definition distinct_event (sel : list nat) (row : list (option V)) (ev : event) : Prop :=
  ev_key ev = take ncols row /\ ev_sel ev = sel
  /\ forall a agg, a ∈ sel -> aggs !! a = Some agg -> take (num_columns agg) (drop (col_offset aggs a) (ev_row ev)) = drop ncols row.

(** The columns of rows of a width. *)
Definition columns_of (w : nat) (rows : list (list (option V))) : list (list (option V)) :=
  (fun c => (fun row : list (option V) => row !!! c) <$> rows) <$> seq 0 w.

Lemma lookup_columns_of w rows c r row : c < w -> rows !! r = Some row -> (columns_of w rows !!! c) !!! r = row !!! c.
Proof.
  intros Hc Hr. unfold columns_of. rewrite (list_lookup_total_correct _ c ((fun row : list (option V) => row !!! c) <$> rows)).
  - apply list_lookup_total_correct. by rewrite list_lookup_fmap, Hr.
  - by rewrite list_lookup_fmap, lookup_seq_lt.
Qed.

(** The aggregate inputs: those of the selected aggregate, if it has any. *)
Lemma clone_distinct_spec sel c m (ocols : list (list (option V))) :
  Forall (fun a => a < length (layout table)) sel -> StronglySorted lt sel ->
  (forall a agg, a ∈ sel -> layout table !! a = Some agg -> length (columns agg) = c) -> (c = 0 \/ length sel = 1) ->
  length ocols = ncols + c -> (forall k col, ocols !! k = Some col -> length col = m) -> m <= batch_size ->
  exists cols, clone_distinct_inputs table sel 0 0 ncols ocols (replicate (length (layout table ≫= columns)) (replicate batch_size blank)) = Ok cols
    /\ length cols = length (layout table ≫= columns) /\ Forall (fun col => m <= length col) cols
    /\ (forall a agg k, a ∈ sel -> aggs !! a = Some agg -> k < num_columns agg -> cols !! (col_offset aggs a + k) = ocols !! (ncols + k)).
Proof.
  intros Hr Hs Hc Hone Hol Hcl Hbatch. set (total_cols := length (layout table ≫= columns)). assert (total_cols = sum_list_with num_columns aggs) as Htc by by apply sum_columns.
  assert (Forall (fun col => m <= length col) (replicate total_cols (replicate batch_size blank))) as Hblank
    by (apply Forall_replicate; by rewrite length_replicate).
  destruct Hone as [->|Hone].
  - exists (replicate total_cols (replicate batch_size blank)). rewrite clone_distinct_none; [|done|done|apply Forall_forall; intros; lia|done].
    rewrite length_replicate. split_and!; [done..|]. intros a agg k Ha Hagg Hk. exfalso. rewrite list_lookup_fmap in Hagg.
    destruct (layout table !! a) as [pa|] eqn:Hpa; [|done]. injection Hagg as <-. eapply Forall_lookup_1 in widths as Hw; [|exact Hpa]. cbn in Hw.
    rewrite (Hc a pa Ha Hpa) in Hw. lia.
  - destruct sel as [|a [|]]; try done. apply Forall_cons in Hr as [Ha _]. cbn [clone_distinct_inputs Nat.leb rust_assert].
    unfold mbind at 1, res_bind at 1. rewrite Nat.sub_0_r, skip_columns_spec by lia. unfold mbind at 1, res_bind at 1. cbn [Nat.add].
    destruct (lookup_lt_is_Some_2 (layout table) a Ha) as [agg Hagg]. rewrite (bind_ok _ _ _ (proj2 (index_Ok _ _ _) Hagg)).
    rewrite (Hc a agg) by (done || left). assert (aggs !! a = Some (function agg)) as Hfa by by rewrite list_lookup_fmap, Hagg.
    eapply Forall_lookup_1 in widths as Hw; [|exact Hagg]. cbn in Hw. rewrite (Hc a agg) in Hw by (done || left).
    pose proof (col_offset_S aggs a _ Hfa) as Hoff. pose proof (col_offset_le aggs (S a)) as Hle.
    rewrite (Nat.sub_0_r (col_offset aggs a) : col_offset aggs a - col_offset aggs 0 = _).
    destruct (clone_columns_spec c (col_offset aggs a) ncols ocols (replicate total_cols (replicate batch_size blank))) as (cols & Hclone & Hlen & Hlk);
      [rewrite length_replicate; lia|lia|].
    rewrite (bind_ok _ _ _ Hclone). exists cols. rewrite length_replicate in Hlen. split_and!; [done..| |].
    + apply Forall_lookup. intros k col Hk. rewrite Hlk in Hk. destruct (decide _).
      * by rewrite (Hcl _ _ Hk).
      * apply lookup_replicate in Hk as [-> _]. by rewrite length_replicate.
    + intros a' agg' k Ha' Hagg' Hk. apply list_elem_of_singleton in Ha' as ->. rewrite Hfa in Hagg'. injection Hagg' as <-.
      rewrite Hlk, decide_True by lia. f_equal. lia.
Qed.

Lemma insert_distinct_spec op p evs st sel c rows :
  partition_count op = n -> build_ok p evs st -> sel <> [] -> StronglySorted lt sel -> Forall (fun a => a < length (layout table)) sel ->
  (forall a agg, a ∈ sel -> layout table !! a = Some agg -> length (columns agg) = c) -> (c = 0 \/ length sel = 1) ->
  Forall (fun row => length row = ncols + c) rows -> length rows <= batch_size -> (Z.of_nat (length evs + length rows) <= 2 ^ 61)%Z ->
  exists st' des, insert_partition_local_distinct_values hash_one batch_size table blank op st sel (mkColumns (columns_of (ncols + c) rows) (length rows)) = Ok st'
    /\ build_ok p (evs ++ des) st' /\ Forall2 (distinct_event sel) rows des.
Proof.
  intros Hn Hst Hne Hs Hr Hc Hone Hrows Hbatch Hbound. unfold insert_partition_local_distinct_values.
  destruct (prepare_build_maybe_spec op p evs st Hn Hst) as (b & -> & Hb). unfold mbind at 1, res_bind at 1.
  destruct (Nat.eqb_spec (length sel) 0) as [Hz|_]; [by apply nil_length_inv in Hz|].
  set (w := ncols + c). set (ocols := columns_of w rows). cbn [arrays num_rows].
  assert (length ocols = w) as Hol by (unfold ocols, columns_of; by rewrite length_fmap, length_seq).
  assert (forall k col, ocols !! k = Some col -> length col = length rows) as Hcl.
  { intros k col Hk. unfold ocols, columns_of in Hk. rewrite list_lookup_fmap in Hk. destruct (seq 0 w !! k); [|done]. injection Hk as <-. apply length_fmap. }
  rewrite (collect_map _ (fun k => ocols !!! k)).
  2: { intros k [_ Hk]%elem_of_seq. apply index_Ok, list_lookup_lookup_total_lt. unfold w in *. lia. }
  unfold mbind at 1, res_bind at 1. pose proof (sum_columns widths) as Htc.
  destruct (clone_distinct_spec sel c (length rows) ocols Hr Hs Hc Hone Hol Hcl Hbatch) as (cols & Hrun & Hlen & Hcols & Hlk).
  rewrite (bind_ok _ _ _ Hrun).
  edestruct (insert_local_spec p evs b sel ((fun k => ocols !!! k) <$> seq 0 ncols) cols (length rows) Hb) as (b' & -> & Hb').
  { by rewrite length_fmap, length_seq. }
  { apply Forall_fmap, Forall_forall. intros k [_ Hk]%elem_of_seq. cbn. destruct (lookup_lt_is_Some_2 ocols k) as [col Hcol]; [unfold w in Hol; lia|].
    rewrite (list_lookup_total_correct _ _ _ Hcol). by rewrite (Hcl _ _ Hcol). }
  { split; [done|by rewrite length_fmap|congruence|done]. }
  { done. }
  eexists _, _. split; [done|]. split; [constructor; exact Hb'|]. unfold batch_events. apply Forall2_same_length_lookup_2.
  { by rewrite length_fmap, length_seq. }
  intros r row ev Hrow Hev. rewrite list_lookup_fmap, lookup_seq_lt in Hev by by eapply lookup_lt_Some. injection Hev as <-. cbn [Nat.add].
  assert (length row = w) as Hw by by eapply Forall_lookup_1 in Hrows.
  split_and!; cbn [ev_key ev_sel ev_row]; [|done|].
  - apply list_eq. intros k. unfold batch_key. rewrite <- list_fmap_compose, list_lookup_fmap. destruct (decide (k < ncols)) as [Hk|Hk].
    + rewrite lookup_seq_lt, lookup_take_lt by done. cbn. pose proof (lookup_columns_of w rows k r row ltac:(unfold w; lia) Hrow) as Hv. fold ocols in Hv. rewrite Hv.
      symmetry. apply list_lookup_lookup_total_lt. unfold w in Hw. lia.
    + rewrite lookup_seq_ge, lookup_take_ge by lia. done.
  - intros a agg Ha Hagg. assert (num_columns agg = c) as Hnc.
    { rewrite list_lookup_fmap in Hagg. destruct (layout table !! a) as [pa|] eqn:Hpa; [|done]. injection Hagg as <-.
      eapply Forall_lookup_1 in widths as Hwd; [|exact Hpa]. cbn in Hwd. rewrite Hwd. by apply (Hc a). }
    apply list_eq. intros k. destruct (decide (k < c)) as [Hk|Hk].
    + rewrite lookup_take_lt, !lookup_drop by lia. unfold batch_key. rewrite list_lookup_fmap, (Hlk a agg k) by (done || lia).
      destruct (lookup_lt_is_Some_2 ocols (ncols + k)) as [col Hcol]; [unfold w in Hol; lia|]. rewrite Hcol. cbn.
      pose proof (lookup_columns_of w rows (ncols + k) r row ltac:(unfold w; lia) Hrow) as Hv. fold ocols in Hv.
      rewrite (list_lookup_total_correct _ _ _ Hcol) in Hv. rewrite Hv. symmetry. apply list_lookup_lookup_total_lt. unfold w in Hw. lia.
    + rewrite lookup_take_ge, lookup_drop by lia. symmetry. apply lookup_ge_None. unfold w in Hw. lia.
Qed.

End Invariant.
