(* ===== verification/HashAggregate.v ===== *)
(** * The hash aggregate operator

    Models [execution/operators/hash_aggregate/mod.rs] and
    [distinct_aggregates.rs]: GROUP BY with grouping sets and DISTINCT
    aggregates over partitioned hash tables.  Every partition aggregates its
    input into its own tables; where there are DISTINCT aggregates, the
    partitions then merge the tables of distinct inputs and feed disjoint parts
    of them to their aggregate tables; then they merge the aggregate tables and
    scan disjoint parts of the result.  The phases are separated by counts of
    partitions behind a mutex, and a partition that is too early stores a waker.
    An atomic step is what a task does up to the end of a critical section. *)
From S2P Require Import Prelude PartitionSync RowBlocks Hash HashDirectory AggHashTable PartitionedTable.

#[global] Instance local_state_inhabited {V St} : Inhabited (TablePartitionState V St) := populate Uninit.

Section Operator.
Context {V St : Type} `{EqDecision V}.
Variable hash_one : V -> Z.
Variable int64_value : Z -> V.
Variable blank : option V.
Variable batch_size : nat.

Local Abbreviation Row := (list (option V)).
Local Abbreviation TableState := (TableOperatorState V St).
Local Abbreviation LocalState := (TablePartitionState V St).

(** ** DISTINCT aggregates ([distinct_aggregates.rs]) *)

(** [AggregateSelection::new], from aggregate [idx] on: the distinct and the
    other aggregates. *)
Fixpoint aggregate_selection (idx : nat) (aggs : list (PhysicalAggregate V St)) : list nat * list nat :=
  match aggs with
  | [] => ([], [])
  | agg :: rest =>
      let '(distinct, non_distinct) := aggregate_selection (S idx) rest in
      if is_distinct agg then (idx :: distinct, non_distinct) else (distinct, idx :: non_distinct)
  end.

Record DistinctTable : Type := mkDistinct {
  distinct_table : PartitionedHashTable V St;
  inputs : list nat;
  table_to_agg_index : list nat;
}.

(** [DistinctTable::inputs_match] *)
Definition inputs_match (t : DistinctTable) (other : list nat) : bool := bool_decide (inputs t = other).

(** The table of the aggregate [agg_idx]: an existing one with the same inputs,
    or a new one. *)
Fixpoint add_distinct (tables : list DistinctTable) (agg_idx : nat) (ins : list nat) : res (list DistinctTable) :=
  match tables with
  | [] =>
      table ← try_new_partitioned ins [] [] (seq 0 (length ins));
      Ok [mkDistinct table ins [agg_idx]]
  | t :: rest =>
      if inputs_match t ins then Ok (mkDistinct (distinct_table t) (inputs t) (table_to_agg_index t ++ [agg_idx]) :: rest)
      else rest' ← add_distinct rest agg_idx ins; Ok (t :: rest')
  end.

(** [DistinctCollection::new], from aggregate [agg_idx] on: the groups and the
    inputs of each DISTINCT aggregate. *)
Fixpoint new_collection (agg_idx : nat) (infos : list (list nat * list nat)) (tables : list DistinctTable) : res (list DistinctTable) :=
  match infos with
  | [] => Ok tables
  | (gs, ins) :: rest =>
      tables ← add_distinct tables agg_idx (gs ++ ins);
      new_collection (S agg_idx) rest tables
  end.

(** ** The operator *)

(** [PhysicalHashAggregate] *)
Record PhysicalHashAggregate : Type := mkHashAggregate {
  agg_groups : list nat;
  grouping_functions : list (list nat);
  agg_aggregates : list (PhysicalAggregate V St);
  grouping_sets : list (list nat);
}.

(** The part of [HashAggregateOperatorState] that does not change. *)
Record Plan : Type := mkPlan {
  tables : list (PartitionedHashTable V St);
  distinct_collections : list (list DistinctTable);
  sel_distinct : list nat;
  sel_non_distinct : list nat;
}.

(** [create_operator_state]: tables and distinct collections per grouping set. *)
Definition create_plan (op : PhysicalHashAggregate) : res Plan :=
  let '(distinct, non_distinct) := aggregate_selection 0 (agg_aggregates op) in
  tables ← collect (try_new_partitioned (agg_groups op) (grouping_functions op) (agg_aggregates op)) (grouping_sets op);
  collections ← collect (fun set =>
    gs ← collect (index (agg_groups op)) set;
    infos ← collect (fun idx => agg ← index (agg_aggregates op) idx; Ok (gs, columns agg)) distinct;
    new_collection 0 infos []) (grouping_sets op);
  Ok (mkPlan tables collections distinct non_distinct).

(** [HashAggregateOperatoreStateInner] with the states of the tables. *)
Record Shared : Type := mkShared {
  table_states : list TableState;
  distinct_states : list (list TableState);
  remaining_normal : DelayedPartitionCount;
  remaining_distinct_mergers : DelayedPartitionCount;
  remaining_distinct_aggregators : DelayedPartitionCount;
  remaining_mergers : DelayedPartitionCount;
  pending_distinct_mergers : PartitionWakers;
  pending_distinct_aggregators : PartitionWakers;
  pending_mergers : PartitionWakers;
  pending_drainers : PartitionWakers;
}.

(** [AggregatingPartitionState] *)
Record Inner : Type := mkInner {
  local_states : list LocalState;
  local_distinct : list (list LocalState);
}.

(** [HashAggregatePartitionState], with the points of [poll_execute] at which a
    partition has seen that it can go on, and the end. *)
Inductive PartitionState : Type :=
| Aggregating (inner : Inner)
| MergingDistinct (ready : bool) (inner : Inner)
| AggregatingDistinct (ready : bool) (inner : Inner)
| Merging (ready : bool) (inner : Inner)
| ScanningGroups (scan_ready : bool) (states : list (nat * LocalState))
| Exhausted.

Record Partition : Type := mkPartition {
  pstate : PartitionState;
  pinput : list (Columns V);
  emitted : list Row;
}.

Record System : Type := mkSystem { shared : Shared; partitions : list Partition }.

(** A step on every table, with its operator and partition state. *)
Fixpoint each_table {T O S : Type} (f : T -> O -> S -> res (O * S)) (ts : list T) (os : list O) (ss : list S) : res (list O * list S) :=
  match ts, os, ss with
  | [], _, _ => Ok (os, ss)
  | t :: ts', o :: os', s :: ss' =>
      '(o', s') ← f t o s;
      '(os'', ss'') ← each_table f ts' os' ss';
      Ok (o' :: os'', s' :: ss'')
  | _, _, _ => Panic "index out of bounds"
  end.

Definition each_distinct (f : PartitionedHashTable V St -> TableState -> LocalState -> res (TableState * LocalState))
    (plan : Plan) (os : list (list TableState)) (ss : list (list LocalState)) : res (list (list TableState) * list (list LocalState)) :=
  each_table (fun coll => each_table (fun t => f (distinct_table t)) coll) (distinct_collections plan) os ss.

(** *** Aggregating *)

Definition insert_step (sel : list nat) (input : Columns V) (t : PartitionedHashTable V St) (o : TableState) (s : LocalState) :
    res (TableState * LocalState) :=
  s' ← insert_partition_local hash_one batch_size t o s sel input; Ok (o, s').

(** [poll_execute] on an aggregating partition; the tables' operator states are
    only read. *)
Definition execute_aggregating (plan : Plan) (sh : Shared) (inner : Inner) (input : Columns V) : res Inner :=
  '(_, ds) ← each_distinct (insert_step [] input) plan (distinct_states sh) (local_distinct inner);
  '(_, ss) ← each_table (insert_step (sel_non_distinct plan) input) (tables plan) (table_states sh) (local_states inner);
  Ok (mkInner ss ds).

(** The count after [dec_by_one], and the wakers, which are woken at zero. *)
Definition count_down (c : DelayedPartitionCount) (w : PartitionWakers) : res (DelayedPartitionCount * PartitionWakers) :=
  c' ← dec_by_one c;
  Ok (c', if bool_decide (c' = Some 0) then wake_all w else w).

(** [poll_finalize_execute] *)
Definition finalize_aggregating (plan : Plan) (sh : Shared) (inner : Inner) : res (Shared * PartitionState) :=
  '(dos, ds) ← each_distinct (flush batch_size) plan (distinct_states sh) (local_distinct inner);
  if length (sel_distinct plan) =? 0 then
    '(count, w) ← count_down (remaining_normal sh) (pending_mergers sh);
    '(os, ss) ← each_table (flush batch_size) (tables plan) (table_states sh) (local_states inner);
    Ok (mkShared os dos count (remaining_distinct_mergers sh) (remaining_distinct_aggregators sh) (remaining_mergers sh)
          (pending_distinct_mergers sh) (pending_distinct_aggregators sh) w (pending_drainers sh),
        Merging false (mkInner ss ds))
  else
    '(count, w) ← count_down (remaining_normal sh) (pending_distinct_mergers sh);
    Ok (mkShared (table_states sh) dos count (remaining_distinct_mergers sh) (remaining_distinct_aggregators sh) (remaining_mergers sh)
          w (pending_distinct_aggregators sh) (pending_mergers sh) (pending_drainers sh),
        MergingDistinct false (mkInner (local_states inner) ds)).

(** *** Waiting *)

(** The first critical section of the waiting states: whether the partition can
    go on; otherwise its waker is stored. *)
Definition check_count (c : DelayedPartitionCount) (w : PartitionWakers) (idx : nat) : res (bool * PartitionWakers) :=
  cur ← count_current c;
  if cur =? 0 then Ok (true, w) else w' ← store_waker w idx; Ok (false, w').

Definition check_merging_distinct (sh : Shared) (idx : nat) : res (bool * Shared) :=
  '(ready, w) ← check_count (remaining_normal sh) (pending_distinct_mergers sh) idx;
  Ok (ready, mkShared (table_states sh) (distinct_states sh) (remaining_normal sh) (remaining_distinct_mergers sh)
        (remaining_distinct_aggregators sh) (remaining_mergers sh) w (pending_distinct_aggregators sh) (pending_mergers sh) (pending_drainers sh)).

Definition check_aggregating_distinct (sh : Shared) (idx : nat) : res (bool * Shared) :=
  '(ready, w) ← check_count (remaining_distinct_mergers sh) (pending_distinct_aggregators sh) idx;
  Ok (ready, mkShared (table_states sh) (distinct_states sh) (remaining_normal sh) (remaining_distinct_mergers sh)
        (remaining_distinct_aggregators sh) (remaining_mergers sh) (pending_distinct_mergers sh) w (pending_mergers sh) (pending_drainers sh)).

Definition check_merging (plan : Plan) (sh : Shared) (idx : nat) : res (bool * Shared) :=
  '(ready, w) ← check_count (if length (sel_distinct plan) =? 0 then remaining_normal sh else remaining_distinct_aggregators sh) (pending_mergers sh) idx;
  Ok (ready, mkShared (table_states sh) (distinct_states sh) (remaining_normal sh) (remaining_distinct_mergers sh)
        (remaining_distinct_aggregators sh) (remaining_mergers sh) (pending_distinct_mergers sh) (pending_distinct_aggregators sh) w (pending_drainers sh)).

Definition check_scanning (sh : Shared) (idx : nat) : res (bool * Shared) :=
  '(ready, w) ← check_count (remaining_mergers sh) (pending_drainers sh) idx;
  Ok (ready, mkShared (table_states sh) (distinct_states sh) (remaining_normal sh) (remaining_distinct_mergers sh)
        (remaining_distinct_aggregators sh) (remaining_mergers sh) (pending_distinct_mergers sh) (pending_distinct_aggregators sh) (pending_mergers sh) w).

(** *** DISTINCT inputs *)

(** [poll_execute] on a ready partition that merges distinct tables. *)
Definition execute_merging_distinct (plan : Plan) (sh : Shared) (inner : Inner) : res (Shared * PartitionState) :=
  '(dos, ds) ← each_distinct merge_global plan (distinct_states sh) (local_distinct inner);
  '(count, w) ← count_down (remaining_distinct_mergers sh) (pending_distinct_aggregators sh);
  Ok (mkShared (table_states sh) dos (remaining_normal sh) count (remaining_distinct_aggregators sh) (remaining_mergers sh)
        (pending_distinct_mergers sh) w (pending_mergers sh) (pending_drainers sh),
      AggregatingDistinct false (mkInner (local_states inner) ds)).

(** The columns of a batch with these rows. *)
Definition to_columns (width : nat) (rows : list Row) : Columns V :=
  mkColumns ((fun c => (fun row : Row => row !!! c) <$> rows) <$> seq 0 width) (length rows).

(** Rows of the final tables: a bound on the number of scans. *)
Definition final_rows (o : TableState) : nat :=
  sum_list ((fun cell => match cell with Some t => length (data t) | None => 0 end) <$> final_tables o).

(** The [loop] that scans a distinct table into an aggregate table. *)
Fixpoint drain_loop (fuel : nat) (dt : DistinctTable) (dop : TableState) (t : PartitionedHashTable V St) (op : TableState) (agg_sel : list nat)
    (ds s : LocalState) : res (LocalState * LocalState) :=
  match fuel with
  | O => Panic "out of fuel"
  | S fuel' =>
      '(ds', rows) ← scan int64_value batch_size (distinct_table dt) dop ds;
      if length rows =? 0 then Ok (ds', s)
      else
        s' ← insert_partition_local_distinct_values hash_one batch_size t blank op s agg_sel (to_columns (length (inputs dt)) rows);
        drain_loop fuel' dt dop t op agg_sel ds' s'
  end.

(** The distinct tables of one grouping set into its aggregate table. *)
Fixpoint drain_tables (distinct : list nat) (dts : list DistinctTable) (dops : list TableState) (dss : list LocalState)
    (t : PartitionedHashTable V St) (op : TableState) (s : LocalState) : res (list LocalState * LocalState) :=
  match dts, dops, dss with
  | [], _, _ => Ok (dss, s)
  | dt :: dts', dop :: dops', ds :: dss' =>
      agg_sel ← collect (index distinct) (table_to_agg_index dt);
      '(ds', s') ← drain_loop (S (S (final_rows dop))) dt dop t op agg_sel ds s;
      '(dss'', s'') ← drain_tables distinct dts' dops' dss' t op s';
      Ok (ds' :: dss'', s'')
  | _, _, _ => Panic "index out of bounds"
  end.

(** All grouping sets. *)
Fixpoint drain_collections (distinct : list nat) (colls : list (list DistinctTable)) (dopss : list (list TableState))
    (dsss : list (list LocalState)) (ts : list (PartitionedHashTable V St)) (ops : list TableState) (ss : list LocalState) :
    res (list (list LocalState) * list LocalState) :=
  match colls, dopss, dsss, ts, ops, ss with
  | [], _, _, _, _, _ => Ok (dsss, ss)
  | coll :: colls', dops :: dopss', dss :: dsss', t :: ts', op :: ops', s :: ss' =>
      '(dss', s') ← drain_tables distinct coll dops dss t op s;
      '(dsss'', ss'') ← drain_collections distinct colls' dopss' dsss' ts' ops' ss';
      Ok (dss' :: dsss'', s' :: ss'')
  | _, _, _, _, _, _ => Panic "index out of bounds"
  end.

(** [poll_execute] on a ready partition that aggregates distinct inputs. *)
Definition execute_aggregating_distinct (plan : Plan) (sh : Shared) (inner : Inner) : res (Shared * PartitionState) :=
  '(ds, ss) ← drain_collections (sel_distinct plan) (distinct_collections plan) (distinct_states sh) (local_distinct inner)
                (tables plan) (table_states sh) (local_states inner);
  '(os, ss) ← each_table (flush batch_size) (tables plan) (table_states sh) ss;
  '(count, w) ← count_down (remaining_distinct_aggregators sh) (pending_mergers sh);
  Ok (mkShared os (distinct_states sh) (remaining_normal sh) (remaining_distinct_mergers sh) count (remaining_mergers sh)
        (pending_distinct_mergers sh) (pending_distinct_aggregators sh) w (pending_drainers sh),
      Merging false (mkInner ss ds)).

(** *** Merging and scanning *)

(** [poll_execute] on a ready merging partition. *)
Definition execute_merging (plan : Plan) (sh : Shared) (inner : Inner) : res (Shared * PartitionState) :=
  '(os, ss) ← each_table merge_global (tables plan) (table_states sh) (local_states inner);
  '(count, w) ← count_down (remaining_mergers sh) (pending_drainers sh);
  Ok (mkShared os (distinct_states sh) (remaining_normal sh) (remaining_distinct_mergers sh) (remaining_distinct_aggregators sh) count
        (pending_distinct_mergers sh) (pending_distinct_aggregators sh) (pending_mergers sh) w,
      ScanningGroups false (zip (seq 0 (length ss)) ss)).

(** The [loop] of a scanning partition: states are popped from the end. *)
Fixpoint scan_groups (fuel : nat) (plan : Plan) (sh : Shared) (states : list (nat * LocalState)) : res (PartitionState * list Row) :=
  match fuel with
  | O => Panic "out of fuel"
  | S fuel' =>
      match last states with
      | None => Ok (Exhausted, [])
      | Some (table_idx, scan_state) =>
          let states' := removelast states in
          t ← index (tables plan) table_idx;
          op ← index (table_states sh) table_idx;
          '(scan_state', rows) ← scan int64_value batch_size t op scan_state;
          if length rows =? 0 then scan_groups fuel' plan sh states'
          else Ok (ScanningGroups true (states' ++ [(table_idx, scan_state')]), rows)
      end
  end.

(** ** Partitions and schedules *)

Definition parked (w : PartitionWakers) (idx : nat) : bool := default false (w !! idx).

(** One atomic step of partition [idx]: [None] when it has nothing to do. *)
Definition partition_step (plan : Plan) (idx : nat) (sh : Shared) (p : Partition) : option (res (Shared * Partition)) :=
  let become (r : res (Shared * PartitionState)) := Some ('(sh', st) ← r; Ok (sh', mkPartition st (pinput p) (emitted p))) in
  match pstate p with
  | Aggregating inner =>
      match pinput p with
      | b :: rest => Some (inner' ← execute_aggregating plan sh inner b; Ok (sh, mkPartition (Aggregating inner') rest (emitted p)))
      | [] => become (finalize_aggregating plan sh inner)
      end
  | MergingDistinct false inner =>
      if parked (pending_distinct_mergers sh) idx then None
      else become ('(ready, sh') ← check_merging_distinct sh idx; Ok (sh', MergingDistinct ready inner))
  | MergingDistinct true inner => become (execute_merging_distinct plan sh inner)
  | AggregatingDistinct false inner =>
      if parked (pending_distinct_aggregators sh) idx then None
      else become ('(ready, sh') ← check_aggregating_distinct sh idx; Ok (sh', AggregatingDistinct ready inner))
  | AggregatingDistinct true inner => become (execute_aggregating_distinct plan sh inner)
  | Merging false inner =>
      if parked (pending_mergers sh) idx then None
      else become ('(ready, sh') ← check_merging plan sh idx; Ok (sh', Merging ready inner))
  | Merging true inner => become (execute_merging plan sh inner)
  | ScanningGroups false states =>
      if parked (pending_drainers sh) idx then None
      else become ('(ready, sh') ← check_scanning sh idx; Ok (sh', ScanningGroups ready states))
  | ScanningGroups true states =>
      Some ('(st, rows) ← scan_groups (S (length states)) plan sh states; Ok (sh, mkPartition st (pinput p) (emitted p ++ rows)))
  | Exhausted => None
  end.

Definition system_step (plan : Plan) (idx : nat) (s : System) : option (res System) :=
  p ← partitions s !! idx;
  r ← partition_step plan idx (shared s) p;
  Some ('(sh', p') ← (r : res _); Ok (mkSystem sh' (<[idx := p']> (partitions s)))).

Inductive step (plan : Plan) : System -> System -> Prop :=
| step_partition idx s s' : system_step plan idx s = Some (Ok s') -> step plan s s'.

(** *** Creation *)

(** The states of the tables, and per partition those of all tables. *)
Definition create_states (n : nat) {T : Type} (ts : list T) : res (list TableState * list (list LocalState)) :=
  cs ← collect (fun _ => create_partition_states (V:=V) (St:=St) None n) ts;
  Ok (cs.*1, (fun p => (fun c : TableState * list LocalState => c.2 !!! p) <$> cs) <$> seq 0 n).

(** [create_partition_execute_states] *)
Definition create (plan : Plan) (ins : list (list (Columns V))) : res System :=
  let n := length ins in
  drainers ← init_for_partitions [] n;
  mergers_d ← init_for_partitions [] n;
  aggregators_d ← init_for_partitions [] n;
  mergers ← init_for_partitions [] n;
  normal ← count_set None n;
  dm ← count_set None n;
  da ← count_set None n;
  m ← count_set None n;
  '(os, ss) ← create_states n (tables plan);
  dcs ← collect (create_states n) (distinct_collections plan);
  let local p := mkInner (ss !!! p) ((fun c : list TableState * list (list LocalState) => c.2 !!! p) <$> dcs) in
  Ok (mkSystem (mkShared os (dcs.*1) normal dm da m mergers_d aggregators_d mergers drainers)
        (zip_with (fun p bs => mkPartition (Aggregating (local p)) bs []) (seq 0 n) ins)).

Definition finished (s : System) : Prop := Forall (fun p => pstate p = Exhausted) (partitions s).

End Operator.

Arguments DistinctTable : clear implicits.
Arguments PhysicalHashAggregate : clear implicits.
Arguments Plan : clear implicits.
Arguments Shared : clear implicits.
Arguments Inner : clear implicits.
Arguments PartitionState : clear implicits.
Arguments Partition : clear implicits.
Arguments System : clear implicits.

(** ** Synchronisation *)

(** A partition's state without its data. *)
Inductive Tag : Type :=
| TAggregating
| TMergingDistinct (ready : bool)
| TAggregatingDistinct (ready : bool)
| TMerging (ready : bool)
| TScanning (ready : bool)
| TExhausted.

Definition tag {V St} (st : PartitionState V St) : Tag :=
  match st with
  | Aggregating _ => TAggregating
  | MergingDistinct r _ => TMergingDistinct r
  | AggregatingDistinct r _ => TAggregatingDistinct r
  | Merging r _ => TMerging r
  | ScanningGroups r _ => TScanning r
  | Exhausted => TExhausted
  end.

(** Partitions that have still to pass a count. *)
Definition in_normal (t : Tag) : nat := match t with TAggregating => 1 | _ => 0 end.
Definition in_distinct_merge (t : Tag) : nat := match t with TAggregating | TMergingDistinct _ => 1 | _ => 0 end.
Definition in_aggregation (t : Tag) : nat := match t with TAggregating | TMergingDistinct _ | TAggregatingDistinct _ => 1 | _ => 0 end.
Definition in_merge (t : Tag) : nat := match t with TScanning _ | TExhausted => 0 | _ => 1 end.

(** Wakers are only stored by partitions that wait for a count above zero. *)
Definition parked_ok (w : PartitionWakers) (tags : list Tag) (waiting : Tag) (count : nat) : Prop :=
  length w = length tags /\ forall i, w !! i = Some true -> tags !! i = Some waiting /\ 0 < count.

Lemma parked_keep w tags waiting count count' p t t' :
  parked_ok w tags waiting count -> tags !! p = Some t -> t <> waiting -> (0 < count -> 0 < count') -> parked_ok w (<[p := t']> tags) waiting count'.
Proof.
  intros [Hlen Hw] Hp Ht Hc. split; [by rewrite length_insert|]. intros i Hi. destruct (Hw i Hi) as [Hti Hpos]. split; [|auto].
  rewrite list_lookup_insert_ne; [done|]. intros ->. congruence.
Qed.

Lemma wake_all_false w i : wake_all w !! i <> Some true.
Proof. unfold wake_all. rewrite list_lookup_fmap. by destruct (w !! i). Qed.

Lemma length_wake_all w : length (wake_all w) = length w.
Proof. apply length_fmap. Qed.

Lemma parked_down w tags waiting count p t t' :
  parked_ok w tags waiting (S count) -> tags !! p = Some t -> t <> waiting ->
  parked_ok (if bool_decide (Some count = Some 0) then wake_all w else w) (<[p := t']> tags) waiting count.
Proof.
  intros Hok Hp Ht. destruct (bool_decide_reflect (Some count = Some 0)) as [[= ->]|Hne].
  - split; [rewrite length_wake_all, length_insert; apply Hok|]. intros i Hi. by apply wake_all_false in Hi.
  - eapply parked_keep; [done|done|done|]. intros _. destruct count; [done|lia].
Qed.

Lemma parked_store w tags waiting count p : parked_ok w tags waiting count -> 0 < count -> tags !! p = Some waiting ->
  parked_ok (<[p := true]> w) tags waiting count.
Proof.
  intros [Hlen Hw] Hc Hp. split; [by rewrite length_insert|]. intros i Hi. apply list_lookup_insert_Some in Hi as [(<- & _)|(_ & Hi)]; [done|by apply Hw].
Qed.

Lemma parked_ready w tags waiting p t' : parked_ok w tags waiting 0 -> parked_ok w (<[p := t']> tags) waiting 0.
Proof. intros [Hlen Hw]. split; [by rewrite length_insert|]. intros i Hi. destruct (Hw i Hi). lia. Qed.

(** What a state says about all others; [distinct] is whether there are
    DISTINCT aggregates. *)
Definition tag_ok (distinct : bool) (tags : list Tag) (t : Tag) : Prop :=
  match t with
  | TAggregating => True
  | TMergingDistinct r => distinct = true /\ (r = true -> total in_normal tags = 0)
  | TAggregatingDistinct r => distinct = true /\ total in_normal tags = 0 /\ (r = true -> total in_distinct_merge tags = 0)
  | TMerging r => (distinct = true -> total in_distinct_merge tags = 0) /\ (r = true -> total in_aggregation tags = 0)
  | TScanning r => total in_aggregation tags = 0 /\ (r = true -> total in_merge tags = 0)
  | TExhausted => total in_merge tags = 0
  end.

Record sync {V St} (distinct : bool) (sh : Shared V St) (tags : list Tag) : Prop := {
  sync_normal : remaining_normal sh = Some (total in_normal tags);
  sync_distinct_merge : distinct = true -> remaining_distinct_mergers sh = Some (total in_distinct_merge tags);
  sync_aggregation : distinct = true -> remaining_distinct_aggregators sh = Some (total in_aggregation tags);
  sync_merge : remaining_mergers sh = Some (total in_merge tags);
  sync_tags : forall i t, tags !! i = Some t -> tag_ok distinct tags t;
  sync_w1 : parked_ok (pending_distinct_mergers sh) tags (TMergingDistinct false) (total in_normal tags);
  sync_w2 : parked_ok (pending_distinct_aggregators sh) tags (TAggregatingDistinct false) (total in_distinct_merge tags);
  sync_w3 : parked_ok (pending_mergers sh) tags (TMerging false) (total in_aggregation tags);
  sync_w4 : parked_ok (pending_drainers sh) tags (TScanning false) (total in_merge tags);
}.

Lemma normal_le_distinct tags : total in_normal tags <= total in_distinct_merge tags.
Proof. apply total_le. by intros []; cbn; lia. Qed.
Lemma distinct_le_aggregation tags : total in_distinct_merge tags <= total in_aggregation tags.
Proof. apply total_le. by intros []; cbn; lia. Qed.
Lemma aggregation_le_merge tags : total in_aggregation tags <= total in_merge tags.
Proof. apply total_le. by intros []; cbn; lia. Qed.

(** Counts only go down. *)
Lemma tag_ok_mono distinct tags tags' t :
  total in_normal tags' <= total in_normal tags -> total in_distinct_merge tags' <= total in_distinct_merge tags ->
  total in_aggregation tags' <= total in_aggregation tags -> total in_merge tags' <= total in_merge tags ->
  tag_ok distinct tags t -> tag_ok distinct tags' t.
Proof. destruct t; cbn; intros; destruct_and?; repeat split; try done; intros; lia || (assert (total in_normal tags = 0) by auto; lia) ||
  (assert (total in_distinct_merge tags = 0) by auto; lia) || (assert (total in_aggregation tags = 0) by auto; lia) || (assert (total in_merge tags = 0) by auto; lia). Qed.

(** Without DISTINCT aggregates the aggregating partitions are those that have
    still to flush their tables. *)
Lemma no_distinct_normal tags : (forall i t, tags !! i = Some t -> tag_ok false tags t) -> total in_aggregation tags = total in_normal tags.
Proof.
  intros Hall. assert (forall l, (forall t, t ∈ l -> in_aggregation t = in_normal t) -> total in_aggregation l = total in_normal l) as Hext.
  { unfold total. induction l as [|t l IH]; intros Ht; [done|]. cbn. rewrite (Ht t) by left. f_equal. apply IH. intros. apply Ht. by right. }
  apply Hext. intros t [i Hi]%list_elem_of_lookup_1. specialize (Hall i t Hi). by destruct t as [| | | | |]; cbn in *; try done; destruct Hall.
Qed.

(** The totals after a partition changed its state. *)
Ltac tag_totals Hp t' :=
  let H1 := fresh "Hn" in let H2 := fresh "Hd" in let H3 := fresh "Ha" in let H4 := fresh "Hm" in
  pose proof (total_insert in_normal _ _ _ t' Hp) as H1; pose proof (total_insert in_distinct_merge _ _ _ t' Hp) as H2;
  pose proof (total_insert in_aggregation _ _ _ t' Hp) as H3; pose proof (total_insert in_merge _ _ _ t' Hp) as H4;
  cbn [in_normal in_distinct_merge in_aggregation in_merge] in H1, H2, H3, H4.

Section Sync.
Context {V St : Type}.
Implicit Types (sh : Shared V St) (tags : list Tag) (distinct : bool).

Lemma count_down_S k w : count_down (Some (S k)) w = Ok (Some k, if bool_decide (Some k = Some 0) then wake_all w else w).
Proof. done. Qed.

(** All other partitions keep what they know. *)
Lemma tags_insert distinct tags p t t' :
  (forall i t, tags !! i = Some t -> tag_ok distinct tags t) -> tags !! p = Some t ->
  in_normal t' <= in_normal t -> in_distinct_merge t' <= in_distinct_merge t -> in_aggregation t' <= in_aggregation t -> in_merge t' <= in_merge t ->
  tag_ok distinct (<[p := t']> tags) t' ->
  forall i t0, <[p := t']> tags !! i = Some t0 -> tag_ok distinct (<[p := t']> tags) t0.
Proof.
  intros Hall Hp H1 H2 H3 H4 Ht' i t0 Hi. apply list_lookup_insert_Some in Hi as [(_ & <- & _)|(_ & Hi)]; [done|]. tag_totals Hp t'.
  eapply tag_ok_mono; [..|by eapply Hall]; lia.
Qed.

Lemma sync_finalize sh tags p :
  sync false sh tags -> tags !! p = Some TAggregating ->
  exists c w, count_down (remaining_normal sh) (pending_mergers sh) = Ok (c, w) /\
    forall (os : list (TableOperatorState V St)) dos, sync false (mkShared os dos c (remaining_distinct_mergers sh) (remaining_distinct_aggregators sh) (remaining_mergers sh)
      (pending_distinct_mergers sh) (pending_distinct_aggregators sh) w (pending_drainers sh)) (<[p := TMerging false]> tags).
Proof.
  intros [Hn _ _ Hm Htags H1 H2 H3 H4] Hp. tag_totals Hp (TMerging false). pose proof (no_distinct_normal _ Htags) as Heq.
  rewrite Hn. replace (total in_normal tags) with (S (total in_normal (<[p := TMerging false]> tags))) by lia. rewrite count_down_S.
  eexists _, _. split; [done|]. intros os dos. assert (total in_aggregation (<[p := TMerging false]> tags) = total in_normal (<[p := TMerging false]> tags)) as Heq' by lia.
  split; cbn; [done|done|done|rewrite Hm; f_equal; lia| | | | |].
  - eapply tags_insert; [done|done|cbn; lia..|done].
  - split; [rewrite length_insert; apply H1|]. intros i Hi. destruct (proj2 H1 i Hi) as [Hti _]. by destruct (Htags _ _ Hti).
  - split; [rewrite length_insert; apply H2|]. intros i Hi. destruct (proj2 H2 i Hi) as [Hti _]. by destruct (Htags _ _ Hti).
  - rewrite <- Heq'. eapply parked_down; [|done|done]. by replace (S (total in_aggregation (<[p := TMerging false]> tags))) with (total in_aggregation tags) by lia.
  - eapply parked_keep; [done|done|done|lia].
Qed.

Lemma sync_finalize_distinct sh tags p :
  sync true sh tags -> tags !! p = Some TAggregating ->
  exists c w, count_down (remaining_normal sh) (pending_distinct_mergers sh) = Ok (c, w) /\
    forall (os : list (TableOperatorState V St)) dos, sync true (mkShared os dos c (remaining_distinct_mergers sh) (remaining_distinct_aggregators sh) (remaining_mergers sh)
      w (pending_distinct_aggregators sh) (pending_mergers sh) (pending_drainers sh)) (<[p := TMergingDistinct false]> tags).
Proof.
  intros [Hn Hd' Ha' Hm Htags H1 H2 H3 H4] Hp. specialize (Hd' eq_refl). specialize (Ha' eq_refl). tag_totals Hp (TMergingDistinct false).
  rewrite Hn. replace (total in_normal tags) with (S (total in_normal (<[p := TMergingDistinct false]> tags))) by lia. rewrite count_down_S.
  eexists _, _. split; [done|]. intros os dos.
  split; cbn; [done|intros _; rewrite Hd'; f_equal; lia|intros _; rewrite Ha'; f_equal; lia|rewrite Hm; f_equal; lia| | | | |].
  - eapply tags_insert; [done|done|cbn; lia..|done].
  - eapply parked_down; [|done|done]. by replace (S (total in_normal (<[p := TMergingDistinct false]> tags))) with (total in_normal tags) by lia.
  - eapply parked_keep; [done|done|done|lia].
  - eapply parked_keep; [done|done|done|lia].
  - eapply parked_keep; [done|done|done|lia].
Qed.

Lemma sync_merging_distinct sh tags p :
  sync true sh tags -> tags !! p = Some (TMergingDistinct true) ->
  exists c w, count_down (remaining_distinct_mergers sh) (pending_distinct_aggregators sh) = Ok (c, w) /\
    forall (os : list (TableOperatorState V St)) dos, sync true (mkShared os dos (remaining_normal sh) c (remaining_distinct_aggregators sh) (remaining_mergers sh)
      (pending_distinct_mergers sh) w (pending_mergers sh) (pending_drainers sh)) (<[p := TAggregatingDistinct false]> tags).
Proof.
  intros [Hn Hd' Ha' Hm Htags H1 H2 H3 H4] Hp. specialize (Hd' eq_refl). specialize (Ha' eq_refl). tag_totals Hp (TAggregatingDistinct false).
  destruct (Htags _ _ Hp) as [_ Hz]. specialize (Hz eq_refl).
  rewrite Hd'. replace (total in_distinct_merge tags) with (S (total in_distinct_merge (<[p := TAggregatingDistinct false]> tags))) by lia. rewrite count_down_S.
  eexists _, _. split; [done|]. intros os dos.
  split; cbn; [rewrite Hn; f_equal; lia|done|intros _; rewrite Ha'; f_equal; lia|rewrite Hm; f_equal; lia| | | | |].
  - eapply tags_insert; [done|done|cbn; lia..|]. cbn. split_and!; [done|lia|done].
  - eapply parked_keep; [done|done|done|lia].
  - eapply parked_down; [|done|done]. by replace (S (total in_distinct_merge (<[p := TAggregatingDistinct false]> tags))) with (total in_distinct_merge tags) by lia.
  - eapply parked_keep; [done|done|done|lia].
  - eapply parked_keep; [done|done|done|lia].
Qed.

Lemma sync_aggregating_distinct sh tags p :
  sync true sh tags -> tags !! p = Some (TAggregatingDistinct true) ->
  exists c w, count_down (remaining_distinct_aggregators sh) (pending_mergers sh) = Ok (c, w) /\
    forall (os : list (TableOperatorState V St)) dos, sync true (mkShared os dos (remaining_normal sh) (remaining_distinct_mergers sh) c (remaining_mergers sh)
      (pending_distinct_mergers sh) (pending_distinct_aggregators sh) w (pending_drainers sh)) (<[p := TMerging false]> tags).
Proof.
  intros [Hn Hd' Ha' Hm Htags H1 H2 H3 H4] Hp. specialize (Hd' eq_refl). specialize (Ha' eq_refl). tag_totals Hp (TMerging false).
  destruct (Htags _ _ Hp) as (_ & Hz & Hz'). specialize (Hz' eq_refl).
  rewrite Ha'. replace (total in_aggregation tags) with (S (total in_aggregation (<[p := TMerging false]> tags))) by lia. rewrite count_down_S.
  eexists _, _. split; [done|]. intros os dos.
  split; cbn; [rewrite Hn; f_equal; lia|intros _; rewrite Hd'; f_equal; lia|done|rewrite Hm; f_equal; lia| | | | |].
  - eapply tags_insert; [done|done|cbn; lia..|]. cbn. split_and!; [lia|done].
  - eapply parked_keep; [done|done|done|lia].
  - eapply parked_keep; [done|done|done|lia].
  - eapply parked_down; [|done|done]. by replace (S (total in_aggregation (<[p := TMerging false]> tags))) with (total in_aggregation tags) by lia.
  - eapply parked_keep; [done|done|done|lia].
Qed.

Lemma sync_merging distinct sh tags p :
  sync distinct sh tags -> tags !! p = Some (TMerging true) ->
  exists c w, count_down (remaining_mergers sh) (pending_drainers sh) = Ok (c, w) /\
    forall (os : list (TableOperatorState V St)) dos, sync distinct (mkShared os dos (remaining_normal sh) (remaining_distinct_mergers sh) (remaining_distinct_aggregators sh) c
      (pending_distinct_mergers sh) (pending_distinct_aggregators sh) (pending_mergers sh) w) (<[p := TScanning false]> tags).
Proof.
  intros [Hn Hd' Ha' Hm Htags H1 H2 H3 H4] Hp. tag_totals Hp (TScanning false). destruct (Htags _ _ Hp) as [_ Hz]. specialize (Hz eq_refl).
  rewrite Hm. replace (total in_merge tags) with (S (total in_merge (<[p := TScanning false]> tags))) by lia. rewrite count_down_S.
  eexists _, _. split; [done|]. intros os dos.
  split; cbn; [rewrite Hn; f_equal; lia|intros Hx; rewrite (Hd' Hx); f_equal; lia|intros Hx; rewrite (Ha' Hx); f_equal; lia|done| | | | |].
  - eapply tags_insert; [done|done|cbn; lia..|]. cbn. split_and!; [lia|done].
  - eapply parked_keep; [done|done|done|lia].
  - eapply parked_keep; [done|done|done|lia].
  - eapply parked_keep; [done|done|done|lia].
  - eapply parked_down; [|done|done]. by replace (S (total in_merge (<[p := TScanning false]> tags))) with (total in_merge tags) by lia.
Qed.

Lemma sync_exhausted distinct sh tags p :
  sync distinct sh tags -> tags !! p = Some (TScanning true) -> sync distinct sh (<[p := TExhausted]> tags).
Proof.
  intros [Hn Hd' Ha' Hm Htags H1 H2 H3 H4] Hp. tag_totals Hp TExhausted. destruct (Htags _ _ Hp) as [_ Hz]. specialize (Hz eq_refl).
  assert (total in_normal (<[p := TExhausted]> tags) = total in_normal tags) as E1 by lia.
  assert (total in_distinct_merge (<[p := TExhausted]> tags) = total in_distinct_merge tags) as E2 by lia.
  assert (total in_aggregation (<[p := TExhausted]> tags) = total in_aggregation tags) as E3 by lia.
  assert (total in_merge (<[p := TExhausted]> tags) = total in_merge tags) as E4 by lia.
  split; rewrite ?E1, ?E2, ?E3, ?E4; try done; [|by eapply parked_keep..].
  eapply tags_insert; [done|done|cbn; lia..|]. cbn. lia.
Qed.

(** *** Waiting *)

Lemma check_count_spec w tags waiting k p :
  parked_ok w tags waiting k -> tags !! p = Some waiting ->
  exists ready w', check_count (Some k) w p = Ok (ready, w') /\ parked_ok w' tags waiting k /\ (if ready : bool then k = 0 /\ w' = w else w' = <[p := true]> w /\ p < length w).
Proof.
  intros Hok Hp. unfold check_count. cbn. destruct (Nat.eqb_spec k 0) as [->|Hk]; [by exists true, w|]. unfold store_waker.
  assert (p < length w) as Hlt by (rewrite (proj1 Hok); by eapply lookup_lt_Some). rewrite (proj2 (Nat.ltb_lt _ _) Hlt). cbn.
  exists false, (<[p := true]> w). split_and!; [done|apply parked_store; [done|lia|done]|done|done].
Qed.

(** A state that passed its check. *)
Definition ready_tag (t : Tag) : Tag :=
  match t with
  | TMergingDistinct _ => TMergingDistinct true
  | TAggregatingDistinct _ => TAggregatingDistinct true
  | TMerging _ => TMerging true
  | TScanning _ => TScanning true
  | _ => t
  end.

Lemma totals_ready tags p t : tags !! p = Some t ->
  total in_normal (<[p := ready_tag t]> tags) = total in_normal tags /\ total in_distinct_merge (<[p := ready_tag t]> tags) = total in_distinct_merge tags
  /\ total in_aggregation (<[p := ready_tag t]> tags) = total in_aggregation tags /\ total in_merge (<[p := ready_tag t]> tags) = total in_merge tags.
Proof. intros Hp. tag_totals Hp (ready_tag t). destruct t; cbn [ready_tag in_normal in_distinct_merge in_aggregation in_merge] in *; lia. Qed.

(** The count a state waits for. *)
Definition waits_for (t : Tag) (tags : list Tag) : nat :=
  match t with
  | TAggregating | TExhausted => 0
  | TMergingDistinct _ => total in_normal tags
  | TAggregatingDistinct _ => total in_distinct_merge tags
  | TMerging _ => total in_aggregation tags
  | TScanning _ => total in_merge tags
  end.

Lemma sync_ready distinct sh tags p t :
  sync distinct sh tags -> tags !! p = Some t -> waits_for t tags = 0 -> sync distinct sh (<[p := ready_tag t]> tags).
Proof.
  intros [Hn Hd' Ha' Hm Htags H1 H2 H3 H4] Hp Hzero. destruct (totals_ready tags p t Hp) as (E1 & E2 & E3 & E4).
  assert (forall w waiting k, parked_ok w tags waiting k -> (waiting = t -> k = 0) -> parked_ok w (<[p := ready_tag t]> tags) waiting k) as Hparked.
  { intros w waiting k Hpk Hz. assert ({waiting = t} + {waiting <> t}) as [Heq|Hne] by (repeat decide equality).
    - assert (k = 0) as -> by auto. by apply parked_ready.
    - eapply parked_keep; [done|done|congruence|done]. }
  split; rewrite ?E1, ?E2, ?E3, ?E4; try done; [|apply Hparked; [done|intros <-; done]..].
  eapply tags_insert; [done|done|destruct t; cbn; lia..|]. eapply (tag_ok_mono distinct tags); [lia..|].
  specialize (Htags p t Hp). destruct t; cbn in *; destruct_and?; repeat split; done.
Qed.

(** The check of a waiting state, and the wakers it is stored in. *)
Definition check_of (plan : Plan V St) (t : Tag) (sh : Shared V St) (idx : nat) : res (bool * Shared V St) :=
  match t with
  | TMergingDistinct _ => check_merging_distinct sh idx
  | TAggregatingDistinct _ => check_aggregating_distinct sh idx
  | TMerging _ => check_merging plan sh idx
  | _ => check_scanning sh idx
  end.

Definition pending_of (t : Tag) (sh : Shared V St) : PartitionWakers :=
  match t with
  | TMergingDistinct _ => pending_distinct_mergers sh
  | TAggregatingDistinct _ => pending_distinct_aggregators sh
  | TMerging _ => pending_mergers sh
  | _ => pending_drainers sh
  end.

Definition waiting_tag (t : Tag) : bool :=
  match t with TMergingDistinct false | TAggregatingDistinct false | TMerging false | TScanning false => true | _ => false end.

Lemma check_of_spec plan sh tags p t :
  sync (negb (length (sel_distinct plan) =? 0)) sh tags -> tags !! p = Some t -> waiting_tag t = true ->
  exists ready sh', check_of plan t sh p = Ok (ready, sh') /\ table_states sh' = table_states sh /\ distinct_states sh' = distinct_states sh
    /\ sync (negb (length (sel_distinct plan) =? 0)) sh' tags /\ (forall t', t' <> t -> waiting_tag t' = true -> pending_of t' sh' = pending_of t' sh)
    /\ (if ready then waits_for t tags = 0 /\ sh' = sh else pending_of t sh' = <[p := true]> (pending_of t sh) /\ p < length (pending_of t sh)).
Proof.
  intros Hsync Hp Hw. pose proof Hsync as [Hn Hd' Ha' Hm Htags H1 H2 H3 H4]. pose proof (Htags p t Hp) as Hok.
  destruct t as [|[]|[]|[]|[]|]; try done; cbn [check_of pending_of waits_for].
  - destruct (check_count_spec _ _ _ _ _ H1 Hp) as (ready & w & Hrun & Hw' & Hres). rewrite <- Hn in Hrun.
    unfold check_merging_distinct. rewrite (bind_ok _ _ _ Hrun).
    eexists ready, _. split; [done|]. split_and!; [done|done|by split|by intros [|[]|[]|[]|[]|]|]. destruct ready; [|done]. destruct Hres as [-> ->]. by destruct sh.
  - destruct (check_count_spec _ _ _ _ _ H2 Hp) as (ready & w & Hrun & Hw' & Hres). rewrite <- Hd' in Hrun by by destruct Hok.
    unfold check_aggregating_distinct. rewrite (bind_ok _ _ _ Hrun).
    eexists ready, _. split; [done|]. split_and!; [done|done|by split|by intros [|[]|[]|[]|[]|]|]. destruct ready; [|done]. destruct Hres as [-> ->]. by destruct sh.
  - destruct (check_count_spec _ _ _ _ _ H3 Hp) as (ready & w & Hrun & Hw' & Hres).
    assert ((if length (sel_distinct plan) =? 0 then remaining_normal sh else remaining_distinct_aggregators sh) = Some (total in_aggregation tags)) as Hcount.
    { destruct (length (sel_distinct plan) =? 0) eqn:Hz; [|by apply Ha']. rewrite Hn. f_equal. symmetry. by apply no_distinct_normal. }
    rewrite <- Hcount in Hrun. unfold check_merging. rewrite (bind_ok _ _ _ Hrun).
    eexists ready, _. split; [done|]. split_and!; [done|done|by split|by intros [|[]|[]|[]|[]|]|]. destruct ready; [|done]. destruct Hres as [-> ->]. by destruct sh.
  - destruct (check_count_spec _ _ _ _ _ H4 Hp) as (ready & w & Hrun & Hw' & Hres). rewrite <- Hm in Hrun.
    unfold check_scanning. rewrite (bind_ok _ _ _ Hrun).
    eexists ready, _. split; [done|]. split_and!; [done|done|by split|by intros [|[]|[]|[]|[]|]|]. destruct ready; [|done]. destruct Hres as [-> ->]. by destruct sh.
Qed.

(** *** Creation and progress *)

Lemma total_replicate {P} (f : P -> nat) k x : total f (replicate k x) = k * f x.
Proof. unfold total. induction k as [|k IH]; [done|]. cbn in *. lia. Qed.

Lemma sync_create distinct k (os : list (TableOperatorState V St)) dos :
  sync distinct (mkShared os dos (Some k) (Some k) (Some k) (Some k) (replicate k false) (replicate k false) (replicate k false) (replicate k false))
    (replicate k TAggregating).
Proof.
  assert (forall waiting c, parked_ok (replicate k false) (replicate k TAggregating) waiting c) as Hparked.
  { intros waiting c. split; [by rewrite !length_replicate|]. intros i [? _]%lookup_replicate. done. }
  split; cbn; rewrite ?total_replicate; cbn; rewrite ?Nat.mul_1_r; try done. by intros i t [-> _]%lookup_replicate.
Qed.

(** A partition that has nothing to do. *)
Definition blocked (sh : Shared V St) (i : nat) (t : Tag) : Prop :=
  t = TExhausted \/ (waiting_tag t = true /\ parked (pending_of t sh) i = true).

Lemma parked_waits distinct sh tags i t : sync distinct sh tags -> tags !! i = Some t -> waiting_tag t = true -> parked (pending_of t sh) i = true -> 0 < waits_for t tags.
Proof.
  intros [_ _ _ _ _ H1 H2 H3 H4] Hi Hw Hp. assert (pending_of t sh !! i = Some true) as Hp' by (unfold parked in Hp; destruct (pending_of t sh !! i); cbn in *; congruence).
  destruct t as [|[]|[]|[]|[]|]; try done; cbn in *; [by destruct (proj2 H1 i Hp')|by destruct (proj2 H2 i Hp')|by destruct (proj2 H3 i Hp')|by destruct (proj2 H4 i Hp')].
Qed.

(** No wakeup is lost: when no partition can go on, all are done. *)
Lemma all_blocked distinct sh tags : sync distinct sh tags -> (forall i t, tags !! i = Some t -> blocked sh i t) -> forall i t, tags !! i = Some t -> t = TExhausted.
Proof.
  intros Hs Hall. pose proof (fun i t Hi Hw Hp => parked_waits distinct sh tags i t Hs Hi Hw Hp) as Hwait.
  assert (forall f, (forall i t, tags !! i = Some t -> f t = 0) -> total f tags = 0) as Hzero.
  { intros f Hf. destruct (Nat.eq_0_gt_0_cases (total f tags)) as [|Hpos]; [done|]. destruct (total_pos f tags Hpos) as (i & t & Hi & Ht). specialize (Hf i t Hi). lia. }
  assert (total in_normal tags = 0) as Z1.
  { apply Hzero. intros i t Hi. destruct (Hall i t Hi) as [->|[Hw _]]; [done|]. by destruct t. }
  assert (total in_distinct_merge tags = 0) as Z2.
  { apply Hzero. intros i t Hi. destruct (Hall i t Hi) as [->|[Hw Hp]]; [done|]. specialize (Hwait i t Hi Hw Hp). destruct t; cbn in *; done || lia. }
  assert (total in_aggregation tags = 0) as Z3.
  { apply Hzero. intros i t Hi. destruct (Hall i t Hi) as [->|[Hw Hp]]; [done|]. specialize (Hwait i t Hi Hw Hp). destruct t; cbn in *; done || lia. }
  assert (total in_merge tags = 0) as Z4.
  { apply Hzero. intros i t Hi. destruct (Hall i t Hi) as [->|[Hw Hp]]; [done|]. specialize (Hwait i t Hi Hw Hp). destruct t; cbn in *; done || lia. }
  intros i t Hi. destruct (Hall i t Hi) as [->|[Hw Hp]]; [done|]. specialize (Hwait i t Hi Hw Hp). destruct t; cbn in *; done || lia.
Qed.

End Sync.
