(* ===== verification/HashAggregatePlan.v ===== *)
(** * The tables a hash aggregate plans and what it computes

    What [create_operator_state] of [hash_aggregate/mod.rs] and
    [DistinctCollection::new] set up: an aggregate table per grouping set, and for
    the DISTINCT aggregates one table per distinct list of inputs, which groups by
    the groups of the set and these inputs.  The specification of the operator is
    GROUP BY with grouping sets on the rows of its input. *)
From S2P Require Import Prelude PartitionSync RowBlocks Hash HashDirectory AggHashTable PartitionedTable HashAggregate.

(** ** GROUPING values *)

Definition is_i64 (x : Z) : Prop := (- 2 ^ 63 <= x < 2 ^ 63)%Z.

Lemma is_i64_shiftr x : is_i64 x <-> Z.shiftr x 63 = 0%Z \/ Z.shiftr x 63 = (-1)%Z.
Proof.
  unfold is_i64. rewrite Z.shiftr_div_pow2 by done. pose proof (Z.div_mod x (2 ^ 63) ltac:(done)) as Hd. pose proof (Z.mod_pos_bound x (2 ^ 63) ltac:(done)) as Hm.
  change (2 ^ 63)%Z with 9223372036854775808%Z in *. split; lia.
Qed.

Lemma lor_i64 x y : is_i64 x -> is_i64 y -> is_i64 (Z.lor x y).
Proof. rewrite !is_i64_shiftr, Z.shiftr_lor. intros [-> | ->] [-> | ->]; by (left + right). Qed.

(** The bit of the loop, which is the sign bit at 63. *)
Lemma grouping_bit idx j : idx < 64 -> j < 64 ->
  Z.testbit (if idx =? 63 then (- 2 ^ 63)%Z else Z.shiftl 1 (Z.of_nat idx)) (Z.of_nat j) = (idx =? j).
Proof.
  intros Hi Hj. destruct (Nat.eqb_spec idx 63) as [->|Hne].
  - change (- 2 ^ 63)%Z with (Z.shiftl (-1) 63). rewrite Z.shiftl_spec by lia. destruct (Nat.eqb_spec 63 j) as [<-|Hne]; [done|]. apply Z.testbit_neg_r. lia.
  - rewrite Z.shiftl_spec by lia. destruct (Nat.eqb_spec idx j) as [->|Hj']; [by rewrite Z.sub_diag|].
    destruct (decide (j < idx)); [apply Z.testbit_neg_r; lia|]. apply (Z.bits_above_log2 1); cbn; lia.
Qed.

Lemma grouping_bit_i64 idx : idx < 64 -> is_i64 (if idx =? 63 then (- 2 ^ 63)%Z else Z.shiftl 1 (Z.of_nat idx)).
Proof.
  intros Hi. destruct (Nat.eqb_spec idx 63) as [->|Hne]; [split; done|]. unfold is_i64. rewrite Z.shiftl_mul_pow2, Z.mul_1_l by lia.
  pose proof (Z.pow_lt_mono_r 2 (Z.of_nat idx) 63 ltac:(lia) ltac:(lia) ltac:(lia)). pose proof (Z.pow_pos_nonneg 2 (Z.of_nat idx) ltac:(lia) ltac:(lia)). lia.
Qed.

Lemma grouping_loop_spec set exprs idx val : idx + length exprs <= 64 -> is_i64 val ->
  exists v, grouping_value_loop set exprs idx val = Ok v /\ is_i64 v
    /\ forall j, j < 64 -> Z.testbit v (Z.of_nat j) = Z.testbit val (Z.of_nat j) || match exprs !! (j - idx) with Some e => (idx <=? j) && bool_decide (e ∉ set) | None => false end.
Proof.
  revert idx val. induction exprs as [|e exprs IH]; intros idx val Hlen Hval; cbn [grouping_value_loop].
  { exists val. split_and!; [done|done|]. intros j _. by rewrite orb_false_r. }
  cbn [length] in Hlen.
  assert (forall j (P : nat -> bool), match (e :: exprs) !! (j - idx) with Some e => (idx <=? j) && P e | None => false end
    = ((idx =? j) && P e) || match exprs !! (j - S idx) with Some e => (S idx <=? j) && P e | None => false end) as Hcons.
  { intros j P. destruct (Nat.lt_total j idx) as [Hlt|[->|Hgt]].
    - replace (j - idx) with 0 by lia. rewrite (proj2 (Nat.leb_gt idx j)), (proj2 (Nat.eqb_neq idx j)), (proj2 (Nat.leb_gt (S idx) j)) by lia. cbn. by destruct (exprs !! _).
    - rewrite Nat.sub_diag, Nat.leb_refl, Nat.eqb_refl, (proj2 (Nat.leb_gt (S idx) idx)) by lia. cbn. destruct (exprs !! _); by rewrite ?orb_false_r.
    - replace (j - idx) with (S (j - S idx)) by lia. rewrite (proj2 (Nat.leb_le idx j)), (proj2 (Nat.eqb_neq idx j)), (proj2 (Nat.leb_le (S idx) j)) by lia. done. }
  destruct (bool_decide_reflect (e ∈ set)) as [Hin|Hin].
  - destruct (IH (S idx) val) as (v & Hrun & Hv & Hbits); [lia|done|]. exists v. split_and!; [done|done|]. intros j Hj. rewrite Hbits, Hcons by done.
    rewrite (bool_decide_eq_false_2 (e ∉ set)) by tauto. by rewrite andb_false_r.
  - rewrite (proj2 (Nat.ltb_lt idx 64)) by lia. cbn [rust_assert]. unfold mbind, res_bind.
    destruct (IH (S idx) (Z.lor val (if idx =? 63 then (- 2 ^ 63)%Z else Z.shiftl 1 (Z.of_nat idx)))) as (v & Hrun & Hv & Hbits); [lia|apply lor_i64; [done|apply grouping_bit_i64; lia]|].
    exists v. split_and!; [done|done|]. intros j Hj. rewrite Hbits, Hcons, Z.lor_spec, grouping_bit by lia.
    by rewrite (bool_decide_eq_true_2 (e ∉ set)), andb_true_r, orb_assoc.
Qed.

(** C25. The value of a GROUPING function: a 64-bit integer whose bit for each of
    its arguments, the last one lowest, tells whether the argument is not in the
    grouping set, and whose other bits are zero. *)
Theorem grouping_value_correct exprs set : length exprs <= 64 ->
  exists v, compute_grouping_value exprs set = Ok v /\ is_i64 v
    /\ forall j, j < 64 -> Z.testbit v (Z.of_nat j) = match rev exprs !! j with Some e => bool_decide (e ∉ set) | None => false end.
Proof.
  intros Hlen. destruct (grouping_loop_spec set (rev exprs) 0 0%Z) as (v & Hrun & Hv & Hbits); [rewrite length_rev; lia|split; done|].
  exists v. split_and!; [done|done|]. intros j Hj. rewrite Hbits by done. rewrite Z.testbit_0_l, Nat.sub_0_r. by destruct (rev exprs !! j).
Qed.

Lemma grouping_value_correct_witness : exists v, compute_grouping_value [3; 1; 0] [0; 1] = Ok v /\ v = 4%Z /\ Z.testbit v 2 = true.
Proof.
  destruct (grouping_value_correct [3; 1; 0] [0; 1]) as (v & Hrun & _ & Hbits); [cbn; lia|]. exists v. split; [exact Hrun|].
  split; [vm_compute in Hrun; by injection Hrun|]. exact (Hbits 2 ltac:(lia)).
Defined.

(** ** Plans *)

Section Plan.
Context {V St : Type}.
Implicit Types (aggs : list (PhysicalAggregate V St)).

(** What the planner provides: columns and groups exist in the [w] columns of
    the input, grouping sets are sorted sets of groups, and two DISTINCT
    aggregates never have the same input columns, as every aggregate has columns
    of its own in the projection below the operator. *)
Record agg_ok (op : PhysicalHashAggregate V St) (w : nat) : Prop := {
  ao_groups : Forall (fun c => c < w) (agg_groups op);
  ao_columns : Forall (fun a => Forall (fun c => c < w) (columns a) /\ num_columns (function a) = length (columns a)) (agg_aggregates op);
  ao_combines : Forall (fun a => combines (function a)) (agg_aggregates op);
  ao_sets : Forall (fun set => StronglySorted lt set /\ Forall (fun g => g < length (agg_groups op)) set) (grouping_sets op);
  ao_functions : Forall (fun f => length f <= 64) (grouping_functions op);
  ao_distinct : forall i j a b, agg_aggregates op !! i = Some a -> agg_aggregates op !! j = Some b ->
    is_distinct a = true -> is_distinct b = true -> columns a = columns b -> i = j \/ columns a = [];
}.

(** The positions of the DISTINCT and of the other aggregates. *)
Lemma aggregate_selection_spec idx aggs :
  StronglySorted lt (aggregate_selection idx aggs).1 /\ StronglySorted lt (aggregate_selection idx aggs).2
  /\ (forall k, k ∈ (aggregate_selection idx aggs).1 <-> exists a, idx <= k /\ aggs !! (k - idx) = Some a /\ is_distinct a = true)
  /\ (forall k, k ∈ (aggregate_selection idx aggs).2 <-> exists a, idx <= k /\ aggs !! (k - idx) = Some a /\ is_distinct a = false).
Proof.
  revert idx. induction aggs as [|a aggs IH]; intros idx.
  { cbn. split_and!; try constructor; [by intros ?%not_elem_of_nil|by intros (? & _ & ? & _)|by intros ?%not_elem_of_nil|by intros (? & _ & ? & _)]. }
  cbn [aggregate_selection]. specialize (IH (S idx)). destruct (aggregate_selection (S idx) aggs) as [ds ns]. cbn [fst snd] in IH.
  destruct IH as (Hs1 & Hs2 & H1 & H2).
  assert (forall k (P : PhysicalAggregate V St -> Prop), (exists b, idx <= k /\ (a :: aggs) !! (k - idx) = Some b /\ P b)
    <-> (k = idx /\ P a) \/ (exists b, S idx <= k /\ aggs !! (k - S idx) = Some b /\ P b)) as Hcons.
  { intros k P. split.
    - intros (b & Hk & Hb & HP). destruct (decide (k = idx)) as [->|Hne]; [rewrite Nat.sub_diag in Hb; injection Hb as <-; by left|].
      right. exists b. split; [lia|]. split; [|done]. by replace (k - idx) with (S (k - S idx)) in Hb by lia.
    - intros [[-> HP]|(b & Hk & Hb & HP)]; [exists a; rewrite Nat.sub_diag; by split_and!|].
      exists b. split; [lia|]. split; [|done]. by replace (k - idx) with (S (k - S idx)) by lia. }
  assert (forall l (P : PhysicalAggregate V St -> Prop), (forall k, k ∈ l <-> exists b, S idx <= k /\ aggs !! (k - S idx) = Some b /\ P b) ->
    StronglySorted lt l -> StronglySorted lt (idx :: l)) as Hsort.
  { intros l P Hl Hs. constructor; [done|]. apply Forall_forall. intros k Hk. apply Hl in Hk as (b & Hk & _). lia. }
  destruct (is_distinct a) eqn:Hd; cbn [fst snd]; split_and!; try done; try exact (Hsort _ (fun b => is_distinct b = true) H1 Hs1); try exact (Hsort _ (fun b => is_distinct b = false) H2 Hs2).
  - intros k. rewrite elem_of_cons, H1, (Hcons k (fun b => is_distinct b = true)). tauto.
  - intros k. rewrite H2, (Hcons k (fun b => is_distinct b = false)). split; [by right|]. intros [[_ Hf]|?]; [congruence|done].
  - intros k. rewrite H1, (Hcons k (fun b => is_distinct b = true)). split; [by right|]. intros [[_ Hf]|?]; [congruence|done].
  - intros k. rewrite elem_of_cons, H2, (Hcons k (fun b => is_distinct b = false)). tauto.
Qed.

(** *** Distinct collections *)

(** A distinct table groups by its inputs. *)
Definition distinct_form (dt : DistinctTable V St) : Prop :=
  distinct_table dt = mkPartitioned [] (seq 0 (length (inputs dt))) (inputs dt) [].

(** The collection for the first [j] of the DISTINCT aggregates, whose columns
    are [cols], in a grouping set with the group columns [gs]. *)
Record coll_inv (gs : list nat) (cols : nat -> list nat) (j : nat) (dts : list (DistinctTable V St)) : Prop := {
  ci_nodup : NoDup (inputs <$> dts);
  ci_form : Forall distinct_form dts;
  ci_index : Forall (fun dt => exists C, inputs dt = gs ++ C /\ table_to_agg_index dt = filter (fun i => cols i = C) (seq 0 j)) dts;
  ci_nonempty : Forall (fun dt => table_to_agg_index dt <> []) dts;
  ci_cover : forall i, i < j -> gs ++ cols i ∈ (inputs <$> dts);
  ci_length : length dts <= j;
}.

Lemma filter_seq_S (P : nat -> Prop) `{forall i, Decision (P i)} j : filter P (seq 0 (S j)) = filter P (seq 0 j) ++ (if decide (P j) then [j] else []).
Proof. rewrite seq_S, filter_app, filter_cons. cbn [Nat.add]. by destruct (decide (P j)). Qed.

Lemma try_new_distinct ins : try_new_partitioned (V:=V) (St:=St) ins [] [] (seq 0 (length ins)) = Ok (mkPartitioned [] (seq 0 (length ins)) ins []).
Proof.
  unfold try_new_partitioned. cbn [collect]. unfold mbind at 1, res_bind at 1. rewrite (collect_map _ (fun i => ins !!! i)); [done|].
  intros i [_ Hi]%elem_of_seq. apply index_Ok, list_lookup_lookup_total_lt. lia.
Qed.

Lemma add_distinct_spec gs cols j dts :
  coll_inv gs cols j dts -> exists dts', add_distinct dts j (gs ++ cols j) = Ok dts' /\ coll_inv gs cols (S j) dts'.
Proof.
  (* the tables before the position are left as they are *)
  assert (forall pre rest, coll_inv gs cols j (pre ++ rest) -> gs ++ cols j ∉ (inputs <$> pre) ->
    exists rest', add_distinct rest j (gs ++ cols j) = Ok rest' /\ coll_inv gs cols (S j) (pre ++ rest')) as Hgo; [|intros Hinv; apply (Hgo []); [done|apply not_elem_of_nil]].
  intros pre rest. revert pre. induction rest as [|dt rest IH]; intros pre [Hnd Hform Hidx Hne Hcover Hlength] Hpre.
  - cbn [add_distinct]. rewrite try_new_distinct. unfold mbind, res_bind. eexists. split; [done|]. rewrite app_nil_r in *. split.
    + rewrite fmap_app. apply NoDup_app. split_and!; [done| |apply NoDup_singleton]. intros x Hx ->%list_elem_of_singleton. done.
    + apply Forall_app. split; [done|]. by repeat constructor.
    + apply Forall_app. split.
      * apply Forall_forall. intros dt Hdt. rewrite Forall_forall in Hidx. destruct (Hidx dt Hdt) as (C & HC & Hi). exists C. split; [done|].
        rewrite filter_seq_S, Hi, decide_False, app_nil_r; [done|]. intros <-. apply Hpre. rewrite <- HC. by apply list_elem_of_fmap_2.
      * constructor; [|constructor]. exists (cols j). split; [done|]. cbn [table_to_agg_index]. rewrite filter_seq_S, decide_True by done.
        assert (filter (fun i => cols i = cols j) (seq 0 j) = []) as ->; [|done].
        destruct (filter _ _) as [|i l] eqn:Hf; [done|]. assert (i ∈ filter (fun i => cols i = cols j) (seq 0 j)) as [Hi [_ Hlt]%elem_of_seq]%list_elem_of_filter by (rewrite Hf; left).
        destruct Hpre. rewrite <- Hi. apply Hcover. lia.
    + apply Forall_app. split; [done|]. by repeat constructor.
    + intros i Hi. rewrite fmap_app, elem_of_app. destruct (decide (i = j)) as [->|]; [right; left|left; apply Hcover; lia].
    + rewrite length_app. cbn. lia.
  - cbn [add_distinct]. unfold inputs_match. destruct (bool_decide_reflect (inputs dt = gs ++ cols j)) as [Heq|Hneq].
    + eexists. split; [done|]. rewrite fmap_app in Hnd, Hcover. split.
      * rewrite fmap_app. done.
      * apply Forall_app in Hform as [Hf1 Hf2]. apply Forall_cons in Hf2 as [Hf2 Hf3]. apply Forall_app. split; [done|]. by constructor.
      * assert (forall x, x ∈ pre ++ rest -> exists C, inputs x = gs ++ C /\ table_to_agg_index x = filter (fun i => cols i = C) (seq 0 (S j))) as Hother.
        { intros x Hx. assert (inputs x <> gs ++ cols j) as Hxne.
          { rewrite <- Heq. cbn in Hnd. apply NoDup_app in Hnd as (_ & Hd1 & Hd2). apply NoDup_cons in Hd2 as [Hd2 _].
            intros E. apply elem_of_app in Hx as [Hx|Hx].
            - apply (Hd1 (inputs x)); [by apply list_elem_of_fmap_2|]. rewrite E. left.
            - apply Hd2. rewrite <- E. by apply list_elem_of_fmap_2. }
          rewrite Forall_forall in Hidx. destruct (Hidx x) as (C & HC & Hi). { apply elem_of_app in Hx as [|]; apply elem_of_app; [by left|by right; right]. }
          exists C. split; [done|]. rewrite filter_seq_S, Hi, decide_False, app_nil_r; [done|]. intros <-. done. }
        apply Forall_app. split; [apply Forall_forall; intros x Hx; apply Hother, elem_of_app; by left|]. constructor.
        -- exists (cols j). split; [done|]. cbn [table_to_agg_index]. rewrite filter_seq_S, decide_True by done. f_equal.
           apply Forall_app in Hidx as [_ Hi]. apply Forall_cons in Hi as [(C & HC & Hi) _]. rewrite Hi. rewrite Heq in HC. by apply app_inv_head in HC as <-.
        -- apply Forall_forall; intros x Hx; apply Hother, elem_of_app; by right.
      * apply Forall_app in Hne as [Hn1 Hn2]. apply Forall_cons in Hn2 as [Hn2 Hn3]. apply Forall_app. split; [done|]. constructor; [|done].
        cbn. by intros [_ ?]%app_eq_nil.
      * intros i Hi. rewrite fmap_app. destruct (decide (i = j)) as [->|]; [apply elem_of_app; right; rewrite <- Heq; left|apply Hcover; lia].
      * rewrite length_app in *. cbn in *. lia.
    + rewrite cons_middle, app_assoc in Hnd, Hform, Hidx, Hne, Hcover, Hlength. destruct (IH (pre ++ [dt])) as (rest' & -> & Hinv').
      * by split.
      * rewrite fmap_app, elem_of_app. intros [?|?%list_elem_of_singleton]; [done|]. congruence.
      * unfold mbind, res_bind. eexists. split; [done|]. by rewrite <- app_assoc in Hinv'.
Qed.

Lemma new_collection_spec gs cols j dts m :
  coll_inv gs cols j dts -> exists dts', new_collection j ((fun i => (gs, cols i)) <$> seq j m) dts = Ok dts' /\ coll_inv gs cols (j + m) dts'.
Proof.
  revert j dts. induction m as [|m IH]; intros j dts Hinv; [exists dts; by rewrite Nat.add_0_r|]. cbn [seq fmap list_fmap new_collection].
  destruct (add_distinct_spec gs cols j dts Hinv) as (dts1 & -> & Hinv1). unfold mbind, res_bind.
  destruct (IH (S j) dts1 Hinv1) as (dts' & Hrun & Hinv'). exists dts'. rewrite <- Nat.add_succ_comm. split; [exact Hrun|exact Hinv'].
Qed.

(** *** Plans *)

(** The columns of the [j]-th DISTINCT aggregate. *)
Definition distinct_cols (aggs : list (PhysicalAggregate V St)) (j : nat) : list nat :=
  match (aggregate_selection 0 aggs).1 !! j with
  | Some a => match aggs !! a with Some agg => columns agg | None => [] end
  | None => []
  end.

Record plan_ok (op : PhysicalHashAggregate V St) (plan : Plan V St) : Prop := {
  po_distinct : sel_distinct plan = (aggregate_selection 0 (agg_aggregates op)).1;
  po_non_distinct : sel_non_distinct plan = (aggregate_selection 0 (agg_aggregates op)).2;
  po_tables : Forall2 (fun set t => layout t = agg_aggregates op /\ grouping_set t = set /\ groups t = agg_groups op
    /\ Forall2 (fun func v => compute_grouping_value func set = Ok v) (grouping_functions op) (grouping_values t)) (grouping_sets op) (tables plan);
  po_collections : Forall2 (fun set dts => coll_inv ((fun g => agg_groups op !!! g) <$> set) (distinct_cols (agg_aggregates op)) (length (sel_distinct plan)) dts)
    (grouping_sets op) (distinct_collections plan);
}.

Lemma try_new_partitioned_spec (op : PhysicalHashAggregate V St) set :
  Forall (fun g => g < length (agg_groups op)) set -> Forall (fun f => length f <= 64) (grouping_functions op) ->
  exists vals, try_new_partitioned (agg_groups op) (grouping_functions op) (agg_aggregates op) set = Ok (mkPartitioned (agg_aggregates op) set (agg_groups op) vals)
    /\ Forall2 (fun func v => compute_grouping_value func set = Ok v) (grouping_functions op) vals.
Proof.
  intros Hset Hfun.
  assert (exists vals, collect (fun func => compute_grouping_value func set) (grouping_functions op) = Ok vals) as [vals Hvals].
  { clear -Hfun. induction Hfun as [|f fs Hf _ [vals IH]]; [by exists []|]. cbn [collect].
    destruct (grouping_loop_spec set (rev f) 0 0%Z) as (v & Hv & _); [rewrite length_rev; cbn in Hf; lia|split; done|]. fold (compute_grouping_value f set) in Hv.
    rewrite (bind_ok _ _ _ Hv), IH. by eexists. }
  exists vals. split; [|by apply collect_Forall2]. unfold try_new_partitioned. rewrite (bind_ok _ _ _ Hvals).
  rewrite (collect_map (index (agg_groups op)) (fun g => agg_groups op !!! g)); [done|].
  intros g Hg. rewrite Forall_forall in Hset. apply index_Ok, list_lookup_lookup_total_lt. by apply Hset.
Qed.

Lemma set_collection_spec (op : PhysicalHashAggregate V St) set :
  Forall (fun g => g < length (agg_groups op)) set ->
  exists dts, (gs ← collect (index (agg_groups op)) set;
      infos ← collect (fun idx => agg ← index (agg_aggregates op) idx; Ok (gs, columns agg)) (aggregate_selection 0 (agg_aggregates op)).1;
      new_collection 0 infos []) = Ok dts
    /\ coll_inv ((fun g => agg_groups op !!! g) <$> set) (distinct_cols (agg_aggregates op)) (length (aggregate_selection 0 (agg_aggregates op)).1) dts.
Proof.
  intros Hset. destruct (aggregate_selection_spec 0 (agg_aggregates op)) as (_ & _ & Hd & _). set (ds := (aggregate_selection 0 (agg_aggregates op)).1) in *.
  rewrite (bind_ok _ ((fun g => agg_groups op !!! g) <$> set)).
  2: { apply collect_map. intros g Hg. rewrite Forall_forall in Hset. apply index_Ok, list_lookup_lookup_total_lt. by apply Hset. }
  set (gs := (fun g => agg_groups op !!! g) <$> set).
  rewrite (bind_ok _ ((fun i => (gs, distinct_cols (agg_aggregates op) i)) <$> seq 0 (length ds))).
  { destruct (new_collection_spec gs (distinct_cols (agg_aggregates op)) 0 [] (length ds)) as (dts & Hrun & Hdts); [|by exists dts].
    split; try constructor; cbn; lia. }
  apply collect_Forall2, Forall2_same_length_lookup_2; [by rewrite length_fmap, length_seq|]. intros j a gc Ha Hgc.
  rewrite list_lookup_fmap, lookup_seq_lt in Hgc by by eapply lookup_lt_Some. injection Hgc as <-. cbn [Nat.add].
  assert (a ∈ ds) as Hin by by eapply list_elem_of_lookup_2. apply Hd in Hin as (agg & _ & Hagg & _). rewrite Nat.sub_0_r in Hagg.
  rewrite (bind_ok _ _ _ (proj2 (index_Ok _ _ _) Hagg)). unfold distinct_cols. fold ds. by rewrite Ha, Hagg.
Qed.

Lemma create_plan_spec op w : agg_ok op w -> exists plan, create_plan op = Ok plan /\ plan_ok op plan.
Proof.
  intros [Hgr Hcols _ Hsets Hfun _]. unfold create_plan.
  destruct (aggregate_selection_spec 0 (agg_aggregates op)) as (_ & _ & Hd & _).
  destruct (aggregate_selection 0 (agg_aggregates op)) as [ds ns] eqn:Hsel. cbn [fst] in Hd.
  assert (exists ts, collect (try_new_partitioned (agg_groups op) (grouping_functions op) (agg_aggregates op)) (grouping_sets op) = Ok ts
    /\ Forall2 (fun set t => layout t = agg_aggregates op /\ grouping_set t = set /\ groups t = agg_groups op
    /\ Forall2 (fun func v => compute_grouping_value func set = Ok v) (grouping_functions op) (grouping_values t)) (grouping_sets op) ts) as (ts & -> & Hts).
  { clear -Hsets Hfun. induction Hsets as [|set sets [_ Hset] _ (ts & Hrun & Hts)]; [by exists []|]. cbn [collect].
    destruct (try_new_partitioned_spec op set Hset Hfun) as (vals & Ht & Hvals). rewrite (bind_ok _ _ _ Ht), Hrun. eexists. split; [done|]. by constructor. }
  unfold mbind at 1, res_bind at 1.
  assert (exists cs, collect (fun set => gs ← collect (index (agg_groups op)) set;
      infos ← collect (fun idx => agg ← index (agg_aggregates op) idx; Ok (gs, columns agg)) ds; new_collection 0 infos []) (grouping_sets op) = Ok cs
    /\ Forall2 (fun set dts => coll_inv ((fun g => agg_groups op !!! g) <$> set) (distinct_cols (agg_aggregates op)) (length ds) dts) (grouping_sets op) cs) as (cs & -> & Hcs).
  { clear -Hsets Hd Hsel. induction Hsets as [|set sets [_ Hset] _ (cs & Hrun & Hcs)]; [by exists []|]. cbn [collect].
    destruct (set_collection_spec op set Hset) as (dts & Ht & Hdts). rewrite Hsel in Ht, Hdts. rewrite (bind_ok _ _ _ Ht), Hrun.
    eexists. split; [done|]. by constructor. }
  unfold mbind, res_bind. eexists. split; [done|]. split; cbn; by rewrite ?Hsel.
Qed.

End Plan.

(** ** The specification: GROUP BY *)

Section Spec.
Context {V St : Type} `{EqDecision V}.
Variable int64_value : Z -> V.
Variable op : PhysicalHashAggregate V St.

Local Abbreviation Row := (list (option V)).

(** The rows of the batches of a partition. *)
Definition input_rows (bs : list (Columns V)) : list Row := concat (batch_rows <$> bs).

(** The inputs of an aggregate in a row. *)
Definition args (C : list nat) (row : Row) : Row := (fun c => row !!! c) <$> C.

(** The key of a row in a grouping set, which is a list of groups. *)
Definition key_of (set : list nat) (row : Row) : Row := (fun g => row !!! (agg_groups op !!! g)) <$> set.

(** [v] is the aggregate of the rows [rs]: of their inputs in order, or, for a
    DISTINCT aggregate, of each different input once. *)
Definition agg_value (rs : list Row) (agg : PhysicalAggregate V St) (v : option V) : Prop :=
  exists l, v = finalize (function agg) (fold_left (update (function agg)) l (new_aggregate_state (function agg)))
    /\ (if is_distinct agg then NoDup l /\ (forall x, x ∈ l <-> x ∈ (args (columns agg) <$> rs)) else l = (args (columns agg) <$> rs)).

(** [out] is the output row of the group [key]: the groups of the set and NULL
    for the others, the aggregates of the rows of the group, and the values of
    the GROUPING functions. *)
Definition group_output (set : list nat) (rows : list Row) (key out : Row) : Prop :=
  exists row vs vals, row ∈ rows /\ key_of set row = key
    /\ Forall2 (agg_value (filter (fun r => key_of set r = key) rows)) (agg_aggregates op) vs
    /\ Forall2 (fun func v => compute_grouping_value func set = Ok v) (grouping_functions op) vals
    /\ out = ((fun i => if decide (i ∈ set) then row !!! (agg_groups op !!! i) else None) <$> seq 0 (length (agg_groups op)))
         ++ vs ++ ((fun v => Some (int64_value v)) <$> vals).

(** One row for every key. *)
Definition set_output (rows : list Row) (set : list nat) (outs : list Row) : Prop :=
  exists keys, NoDup keys /\ (forall key, key ∈ keys <-> key ∈ (key_of set <$> rows)) /\ Forall2 (group_output set rows) keys outs.

End Spec.
