(* ===== verification/HashAggregateSteps.v ===== *)
(** * The invariant of the hash aggregate operator

    What the tables of [HashAggregate] hold at any point of any schedule: every
    table stands for the rows its partitions have inserted, in the phase that the
    state of each partition tells, and aggregate tables also for the shares of
    the distinct inputs that have been added.  Every step keeps the invariant,
    succeeds and does some work; the invariant of a finished operator is the
    specification of [HashAggregatePlan]. *)
From S2P Require Import Prelude PartitionSync RowBlocks Hash HashDirectory AggHashTable PartitionedTable HashAggregate HashAggregatePlan.

(** ** Steps on all tables *)

Lemma each_table_map {T O S G} (f : T -> O -> S -> res (O * S)) (tg : G -> T) (og : G -> O) (sg : G -> S) (R : G -> G -> Prop) gs :
  (forall g, g ∈ gs -> exists g', f (tg g) (og g) (sg g) = Ok (og g', sg g') /\ R g g') ->
  exists gs', each_table f (tg <$> gs) (og <$> gs) (sg <$> gs) = Ok (og <$> gs', sg <$> gs') /\ Forall2 R gs gs'.
Proof.
  induction gs as [|g gs IH]; intros Hf; [by exists []|]. destruct (Hf g) as (g' & Hg & HR); [left|].
  destruct IH as (gs' & Hrun & HRs); [intros x Hx; apply Hf; by right|]. exists (g' :: gs'). rewrite !fmap_cons. cbn [each_table].
  rewrite (bind_ok _ _ _ Hg), (bind_ok _ _ _ Hrun). split; [done|by constructor].
Qed.

Section Correct.
Context {V St : Type} `{EqDecision V}.
Variable hash_one : V -> Z.
Hypothesis hash_one_u64 : forall v, is_u64 (hash_one v).
Variable int64_value : Z -> V.
Variable blank : option V.
Variable batch_size : nat.
Hypothesis batch_size_pos : 0 < batch_size.
Variable n : nat.
Hypothesis n_pos : 0 < n.

Local Abbreviation Row := (list (option V)).

(** What a hash table and the states of all partitions stand for: the events
    that each partition has inserted. *)
Record Ghost : Type := mkGhost {
  g_op : TableOperatorState V St;
  g_sts : list (TablePartitionState V St);
  g_evss : list (list (@event V));
}.

Definition g_ok (t : PartitionedHashTable V St) (g : Ghost) : Prop := tinv hash_one batch_size t n (g_op g) (g_sts g) (g_evss g).
Definition st_at (p : nat) (g : Ghost) : TablePartitionState V St := g_sts g !!! p.
Definition evs_at (p : nat) (g : Ghost) : list (@event V) := g_evss g !!! p.

(** The ghost after partition [p] has made a step. *)
Definition set_at (p : nat) (o : TableOperatorState V St) (st : TablePartitionState V St) (evs : list event) (g : Ghost) : Ghost :=
  mkGhost o (<[p := st]> (g_sts g)) (<[p := evs]> (g_evss g)).

(** A grouping set: its table and its collection of tables of distinct inputs. *)
Record GSet : Type := mkGSet {
  s_table : PartitionedHashTable V St;
  s_main : Ghost;
  s_coll : list (DistinctTable V St * Ghost);
}.

Definition main_op (s : GSet) : TableOperatorState V St := g_op (s_main s).
Definition main_st (p : nat) (s : GSet) : TablePartitionState V St := st_at p (s_main s).
Definition coll_dts (s : GSet) : list (DistinctTable V St) := fst <$> s_coll s.
Definition coll_ops (s : GSet) : list (TableOperatorState V St) := (fun dg => g_op dg.2) <$> s_coll s.
Definition coll_sts (p : nat) (s : GSet) : list (TablePartitionState V St) := (fun dg => st_at p dg.2) <$> s_coll s.

Lemma each_distinct_map f plan p sets (R : GSet -> DistinctTable V St -> Ghost -> Ghost -> Prop) :
  distinct_collections plan = (coll_dts <$> sets) ->
  (forall s dt g, s ∈ sets -> (dt, g) ∈ s_coll s -> exists g', f (distinct_table dt) (g_op g) (st_at p g) = Ok (g_op g', st_at p g') /\ R s dt g g') ->
  exists sets', each_distinct f plan (coll_ops <$> sets) (coll_sts p <$> sets) = Ok (coll_ops <$> sets', coll_sts p <$> sets')
    /\ Forall2 (fun s s' => s_table s' = s_table s /\ s_main s' = s_main s
         /\ Forall2 (fun dg dg' => dg'.1 = dg.1 /\ R s dg.1 dg.2 dg'.2) (s_coll s) (s_coll s')) sets sets'.
Proof.
  intros Hplan Hf. unfold each_distinct. rewrite Hplan. apply each_table_map. intros s Hs.
  destruct (each_table_map (fun t => f (distinct_table t)) fst (fun dg => g_op dg.2) (fun dg => st_at p dg.2)
    (fun dg dg' => dg'.1 = dg.1 /\ R s dg.1 dg.2 dg'.2) (s_coll s)) as (coll & Hrun & HR).
  { intros [dt g] Hin. destruct (Hf s dt g Hs Hin) as (g' & Hg & HR). by exists (dt, g'). }
  by exists (mkGSet (s_table s) (s_main s) coll).
Qed.

Lemma each_main_map f plan p sets (R : GSet -> Ghost -> Prop) :
  tables plan = (s_table <$> sets) ->
  (forall s, s ∈ sets -> exists g', f (s_table s) (main_op s) (main_st p s) = Ok (g_op g', st_at p g') /\ R s g') ->
  exists sets', each_table f (tables plan) (main_op <$> sets) (main_st p <$> sets) = Ok (main_op <$> sets', main_st p <$> sets')
    /\ Forall2 (fun s s' => exists g', s' = mkGSet (s_table s) g' (s_coll s) /\ R s g') sets sets'.
Proof.
  intros -> Hf. apply each_table_map. intros s Hs. destruct (Hf s Hs) as (g' & Hg & HR). exists (mkGSet (s_table s) g' (s_coll s)). split; [done|]. by exists g'.
Qed.

(** *** One table *)

Section Table.
Variable t : PartitionedHashTable V St.
Variables (g : Ghost) (p : nat).
Hypothesis Hg : g_ok t g.
Hypothesis Hp : p < n.

Lemma lookup_st : g_sts g !! p = Some (st_at p g).
Proof. apply list_lookup_lookup_total_lt. by rewrite (ti_len _ _ _ _ _ _ _ Hg). Qed.

Lemma lookup_evs : g_evss g !! p = Some (evs_at p g).
Proof. apply list_lookup_lookup_total_lt. by rewrite (ti_evss _ _ _ _ _ _ _ Hg). Qed.

Lemma set_at_same o st evs : st_at p (set_at p o st evs g) = st /\ evs_at p (set_at p o st evs g) = evs.
Proof.
  unfold st_at, evs_at, set_at. cbn. rewrite !list_lookup_total_insert_eq; [done|by rewrite (ti_evss _ _ _ _ _ _ _ Hg)|by rewrite (ti_len _ _ _ _ _ _ _ Hg)].
Qed.

Lemma set_at_keep o st evs q : q <> p -> st_at q (set_at p o st evs g) = st_at q g /\ evs_at q (set_at p o st evs g) = evs_at q g.
Proof. intros Hne. unfold st_at, evs_at, set_at. cbn. by rewrite !list_lookup_total_insert_ne by done. Qed.

Lemma set_at_evs o st : g_evss (set_at p o st (evs_at p g) g) = g_evss g.
Proof. cbn. apply list_insert_id, lookup_evs. Qed.

Lemma ghost_build : phase (st_at p g) = 0 -> build_ok hash_one batch_size t n p (evs_at p g) (st_at p g).
Proof. intros Hph. pose proof (ti_states _ _ _ _ _ _ _ Hg p _ _ lookup_st lookup_evs) as Hs. by destruct (st_at p g). Qed.

Lemma ghost_insert st new :
  phase (st_at p g) = 0 -> build_ok hash_one batch_size t n p (evs_at p g ++ new) st ->
  (Z.of_nat (length (concat (<[p := evs_at p g ++ new]> (g_evss g)))) <= 2 ^ 61)%Z ->
  g_ok t (set_at p (g_op g) st (evs_at p g ++ new) g).
Proof. intros Hph Hb Hbound. unfold g_ok. cbn. eapply insert_tinv; eauto using lookup_st, lookup_evs. Qed.

Lemma ghost_flush :
  phase (st_at p g) = 0 -> exists o, flush batch_size t (g_op g) (st_at p g) = Ok (o, MergeReady p) /\ g_ok t (set_at p o (MergeReady p) (evs_at p g) g).
Proof.
  intros Hph. destruct (flush_tinv hash_one batch_size batch_size_pos t n n_pos _ _ _ p _ Hg lookup_st Hph) as (o & Hrun & Hinv).
  exists o. split; [done|]. unfold g_ok. by rewrite set_at_evs.
Qed.

Lemma ghost_phases k : (forall q, q < n -> k <= phase (st_at q g)) -> forall r sr, g_sts g !! r = Some sr -> k <= phase sr.
Proof.
  intros Hall r sr Hr. assert (r < n) as Hlt by (rewrite <- (ti_len _ _ _ _ _ _ _ Hg); by eapply lookup_lt_Some). specialize (Hall r Hlt).
  unfold st_at in Hall. by rewrite (list_lookup_total_correct _ _ _ Hr) in Hall.
Qed.

Lemma ghost_merge :
  Forall combines (function <$> layout t) -> phase (st_at p g) = 1 -> (forall q, q < n -> 1 <= phase (st_at q g)) ->
  exists o, merge_global t (g_op g) (st_at p g) = Ok (o, ScanReady p) /\ g_ok t (set_at p o (ScanReady p) (evs_at p g) g).
Proof.
  intros Hc Hph Hall. destruct (merge_tinv hash_one batch_size batch_size_pos t n n_pos Hc _ _ _ p _ Hg lookup_st Hph) as (o & Hrun & Hinv); [by apply ghost_phases|].
  exists o. split; [done|]. unfold g_ok. by rewrite set_at_evs.
Qed.

(** The final tables. *)
Definition finals : list (BaseHashTable V St) := omap id (final_tables (g_op g)).

Lemma omap_Some {A} (l : list A) : omap id (Some <$> l) = l.
Proof. induction l as [|a l IH]; [done|]. cbn. by rewrite IH. Qed.

Lemma ghost_finals : (forall q, q < n -> 2 <= phase (st_at q g)) ->
  final_tables (g_op g) = (Some <$> finals) /\ length finals = n
  /\ forall q b, finals !! q = Some b -> tok hash_one batch_size t b (part_events hash_one n q (concat (g_evss g))).
Proof.
  intros Hall. destruct (merged_finals _ _ _ _ _ _ _ Hg) as (ts & Hts & Hlen & Htok); [by apply ghost_phases|]. unfold finals. by rewrite Hts, omap_Some.
Qed.

Lemma ghost_result : (forall q, q < n -> 2 <= phase (st_at q g)) -> result_of t (concat (data <$> finals)) (concat (g_evss g)).
Proof. intros Hall. destruct (ghost_finals Hall) as (_ & Hlen & Htok). exact (tables_result hash_one hash_one_u64 batch_size batch_size_pos t n n_pos _ _ Hlen Htok). Qed.

Lemma ghost_shares : (forall q, q < n -> 2 <= phase (st_at q g)) -> concat (share n finals <$> seq 0 n) ≡ₚ concat (data <$> finals).
Proof.
  intros Hall. destruct (ghost_finals Hall) as (_ & Hlen & Htok). apply (shares_all batch_size); [done|done|]. apply Forall_lookup. intros q b Hb.
  exact (tok_cap _ _ _ _ _ (Htok q b Hb)).
Qed.

(** The rows a partition has still to scan. *)
Definition left_at : list (GroupRow V St) := left_of n finals p (st_at p g).

Lemma ghost_scan :
  StronglySorted lt (grouping_set t) -> (forall q, q < n -> 2 <= phase (st_at q g)) ->
  (forall ev, ev ∈ concat (g_evss g) -> exists f, ev_key ev = (f <$> grouping_set t)) ->
  exists sc rows out, scan int64_value batch_size t (g_op g) (st_at p g) = Ok (Scanning sc, out) /\ collect (output_row int64_value t) rows = Ok out
    /\ left_at = rows ++ scanning_left sc /\ (rows = [] -> left_at = []) /\ length rows <= batch_size
    /\ g_ok t (set_at p (g_op g) (Scanning sc) (evs_at p g) g).
Proof.
  intros Hs Hall Hkeys. destruct (ghost_finals Hall) as (Hts & _).
  destruct (scan_tinv hash_one batch_size batch_size_pos t n n_pos int64_value Hs _ _ _ p _ _ Hg ltac:(by apply ghost_phases) Hts lookup_st Hkeys)
    as (sc & rows & out & H1 & H2 & H3 & H4 & H5 & H6).
  exists sc, rows, out. split_and!; try done. unfold g_ok. by rewrite set_at_evs.
Qed.

End Table.

(** *** Plans *)

Variable op : PhysicalHashAggregate V St.
Variable w : nat.
Hypothesis Hop : agg_ok op w.

Local Abbreviation aggs := (agg_aggregates op).
Local Abbreviation distinct_sel := ((aggregate_selection 0 (agg_aggregates op)).1).
Local Abbreviation normal_sel := ((aggregate_selection 0 (agg_aggregates op)).2).

(** The plan of a grouping set. *)
Record set_static (s : GSet) : Prop := {
  ss_layout : layout (s_table s) = aggs;
  ss_groups : groups (s_table s) = agg_groups op;
  ss_set : grouping_set (s_table s) ∈ grouping_sets op;
  ss_coll : coll_inv ((fun g => agg_groups op !!! g) <$> grouping_set (s_table s)) (distinct_cols aggs) (length distinct_sel) (coll_dts s);
  ss_values : Forall2 (fun func v => compute_grouping_value func (grouping_set (s_table s)) = Ok v) (grouping_functions op) (grouping_values (s_table s));
}.

Lemma set_facts s : set_static s ->
  StronglySorted lt (grouping_set (s_table s)) /\ Forall (fun g => g < length (agg_groups op)) (grouping_set (s_table s)).
Proof. intros [_ _ Hset _]. pose proof (ao_sets _ _ Hop) as Hs. rewrite Forall_forall in Hs. by apply Hs. Qed.

Lemma main_static s : set_static s -> table_static (s_table s) w.
Proof.
  intros Hs. destruct (set_facts s Hs) as [_ Hset]. destruct Hs as [Hl Hg _ _]. destruct Hop as [Hgr Hcols _ _ _ _]. split; rewrite ?Hl, ?Hg; [done|done| |].
  - apply Forall_bind. eapply Forall_impl; [exact Hcols|]. by intros a [Ha _].
  - eapply Forall_impl; [exact Hcols|]. by intros a [_ Ha].
Qed.

Lemma normal_sel_ok : StronglySorted lt normal_sel /\ Forall (fun a => a < length aggs) normal_sel.
Proof.
  destruct (aggregate_selection_spec 0 aggs) as (_ & Hs & _ & Hn). split; [done|]. apply Forall_forall. intros a Ha. apply Hn in Ha as (agg & _ & Ha & _).
  rewrite Nat.sub_0_r in Ha. by eapply lookup_lt_Some.
Qed.

(** The aggregates a table of distinct inputs is for. *)
Definition agg_sel (dt : DistinctTable V St) : list nat := (fun j => distinct_sel !!! j) <$> table_to_agg_index dt.

Lemma distinct_cols_lookup j a agg : distinct_sel !! j = Some a -> aggs !! a = Some agg -> distinct_cols aggs j = columns agg.
Proof. intros Hj Ha. unfold distinct_cols. by rewrite Hj, Ha. Qed.

Lemma distinct_sel_lookup j : j < length distinct_sel ->
  exists a agg, distinct_sel !! j = Some a /\ distinct_sel !!! j = a /\ aggs !! a = Some agg /\ is_distinct agg = true /\ distinct_cols aggs j = columns agg.
Proof.
  intros Hj. destruct (lookup_lt_is_Some_2 _ _ Hj) as [a Ha]. destruct (aggregate_selection_spec 0 aggs) as (_ & _ & Hd & _).
  assert (a ∈ distinct_sel) as (agg & _ & Hagg & Hdis)%Hd by by eapply list_elem_of_lookup_2. rewrite Nat.sub_0_r in Hagg.
  exists a, agg. split_and!; [done|by apply list_lookup_total_correct|done|done|by eapply distinct_cols_lookup].
Qed.

(** What a table of distinct inputs is for. *)
Record distinct_ok (s : GSet) (dt : DistinctTable V St) (C : list nat) : Prop := {
  do_inputs : inputs dt = ((fun g => agg_groups op !!! g) <$> grouping_set (s_table s)) ++ C;
  do_form : distinct_form dt;
  do_range : Forall (fun c => c < w) (inputs dt);
  do_index : collect (index distinct_sel) (table_to_agg_index dt) = Ok (agg_sel dt);
  do_nonempty : agg_sel dt <> [];
  do_sorted : StronglySorted lt (agg_sel dt);
  do_aggs : forall a, a ∈ agg_sel dt <-> exists agg, aggs !! a = Some agg /\ is_distinct agg = true /\ columns agg = C;
  do_single : length C = 0 \/ length (agg_sel dt) = 1;
}.

Lemma sorted_lookup (l : list nat) i j x y : StronglySorted lt l -> i < j -> l !! i = Some x -> l !! j = Some y -> x < y.
Proof.
  intros Hs. revert i j. induction Hs as [|a l _ IH Ha]; intros i j Hij Hx Hy; [done|]. destruct j as [|j]; [lia|]. destruct i as [|i].
  - injection Hx as <-. rewrite Forall_forall in Ha. apply Ha. by eapply list_elem_of_lookup_2.
  - eapply (IH i j); [lia|done|done].
Qed.

Lemma sorted_select (l idxs : list nat) :
  StronglySorted lt l -> StronglySorted lt idxs -> Forall (fun i => i < length l) idxs -> StronglySorted lt ((fun j => l !!! j) <$> idxs).
Proof.
  intros Hl Hs Hr. induction Hs as [|i idxs _ IH Hi]; [constructor|]. apply Forall_cons in Hr as [Hil Hr]. rewrite fmap_cons. constructor; [by apply IH|].
  apply Forall_fmap, Forall_forall. intros j Hj. cbn. rewrite Forall_forall in Hi, Hr.
  eapply (sorted_lookup l i j); [done|by apply Hi|by apply list_lookup_lookup_total_lt|apply list_lookup_lookup_total_lt; by apply Hr].
Qed.

Lemma filter_sorted (P : nat -> Prop) `{forall i, Decision (P i)} (l : list nat) : StronglySorted lt l -> StronglySorted lt (filter P l).
Proof.
  induction 1 as [|a l _ IH Ha]; [constructor|]. rewrite filter_cons. destruct (decide (P a)); [|done]. constructor; [done|].
  apply Forall_forall. intros b [_ Hb]%list_elem_of_filter. rewrite Forall_forall in Ha. by apply Ha.
Qed.

Lemma seq_sorted i m : StronglySorted lt (seq i m).
Proof. revert i. induction m as [|m IH]; intros i; cbn; constructor; [done|]. apply Forall_forall. intros j [Hj _]%elem_of_seq. lia. Qed.

Lemma agg_sel_elem dt C a :
  table_to_agg_index dt = filter (fun i => distinct_cols aggs i = C) (seq 0 (length distinct_sel)) ->
  a ∈ agg_sel dt <-> exists agg, aggs !! a = Some agg /\ is_distinct agg = true /\ columns agg = C.
Proof.
  intros Hidx. unfold agg_sel. rewrite Hidx, list_elem_of_fmap. split.
  - intros (j & -> & [HC [_ Hj]%elem_of_seq]%list_elem_of_filter). destruct (distinct_sel_lookup j Hj) as (a & agg & _ & -> & Ha & Hd & Hcols).
    exists agg. split_and!; [done|done|congruence].
  - intros (agg & Ha & Hd & HC). destruct (aggregate_selection_spec 0 aggs) as (_ & _ & Hds & _).
    assert (a ∈ distinct_sel) as [j Hj]%list_elem_of_lookup_1 by (apply Hds; exists agg; rewrite Nat.sub_0_r; split_and!; [lia|done|done]).
    exists j. split; [symmetry; by apply list_lookup_total_correct|]. apply list_elem_of_filter. split; [by rewrite (distinct_cols_lookup j a agg)|].
    apply elem_of_seq. apply lookup_lt_Some in Hj. lia.
Qed.

Lemma set_distinct_ok s dt : set_static s -> dt ∈ coll_dts s -> exists C, distinct_ok s dt C.
Proof.
  intros Hs Hdt. destruct (set_facts s Hs) as [_ Hset]. destruct Hs as [_ _ _ [_ Hform Hidx Hne _ _]]. rewrite Forall_forall in Hform, Hidx, Hne.
  destruct (Hidx dt Hdt) as (C & Hin & Hi). specialize (Hne dt Hdt). specialize (Hform dt Hdt). cbn in Hne.
  assert (Forall (fun i => i < length distinct_sel) (table_to_agg_index dt)) as Hrange.
  { rewrite Hi. apply Forall_forall. intros i [_ [_ Hlt]%elem_of_seq]%list_elem_of_filter. lia. }
  pose proof (fun a => agg_sel_elem dt C a Hi) as Haggs.
  assert (agg_sel dt <> []) as Hsel by (unfold agg_sel; by destruct (table_to_agg_index dt)).
  assert (StronglySorted lt (agg_sel dt)) as Hsorted.
  { unfold agg_sel. apply sorted_select; [apply aggregate_selection_spec| |done]. rewrite Hi. apply filter_sorted, seq_sorted. }
  exists C. split; try done.
  - rewrite Hin. apply Forall_app. split.
    + apply Forall_fmap. eapply Forall_impl; [exact Hset|]. intros g Hg. cbn. pose proof (ao_groups _ _ Hop) as Hgr. rewrite Forall_lookup in Hgr.
      eapply Hgr. by apply list_lookup_lookup_total_lt.
    + destruct (agg_sel dt) as [|a l] eqn:Hl; [done|]. destruct (proj1 (Haggs a)) as (agg & Ha & _ & <-); [left|].
      pose proof (ao_columns _ _ Hop) as Hcols. rewrite Forall_lookup in Hcols. by destruct (Hcols a agg Ha).
  - unfold agg_sel. apply collect_map. intros i Hin'. apply index_Ok, list_lookup_lookup_total_lt. rewrite Forall_forall in Hrange. by apply Hrange.
  - destruct (agg_sel dt) as [|a [|b l]] eqn:Hl; [done|by right|]. left.
    destruct (proj1 (Haggs a)) as (agg & Ha & Hda & HCa); [left|]. destruct (proj1 (Haggs b)) as (agg' & Hb & Hdb & HCb); [right; left|].
    destruct (ao_distinct _ _ Hop a b agg agg' Ha Hb Hda Hdb ltac:(congruence)) as [Hab|Hnil]; [|by rewrite <- HCa, Hnil].
    apply StronglySorted_inv in Hsorted as [_ Hlt]. apply Forall_cons in Hlt as [Hlt _]. lia.
Qed.

Lemma distinct_static s dt C : distinct_ok s dt C -> table_static (distinct_table dt) w.
Proof.
  intros [_ Hform Hr _ _ _ _ _]. rewrite Hform. split; cbn; [done| |constructor|constructor]. apply Forall_forall. intros i [_ Hi]%elem_of_seq. lia.
Qed.

(** *** Distinct inputs *)

Lemma distinct_key s dt C row : set_static s -> distinct_ok s dt C -> group_key (distinct_table dt) row = group_key (s_table s) row ++ args C row.
Proof.
  intros [_ Hg _ _] [Hin Hform _ _ _ _ _ _]. rewrite Hform. unfold group_key, args. cbn [groups grouping_set]. rewrite Hg.
  transitivity ((fun c => row !!! c) <$> inputs dt); [|by rewrite Hin, fmap_app, <- list_fmap_compose]. apply list_eq. intros i. rewrite !list_lookup_fmap.
  destruct (decide (i < length (inputs dt))) as [Hi|Hi].
  - rewrite lookup_seq_lt by done. cbn. rewrite (list_lookup_lookup_total_lt (inputs dt) i Hi). done.
  - rewrite lookup_seq_ge by lia. rewrite (lookup_ge_None_2 (inputs dt)) by lia. done.
Qed.

Lemma length_group_key t row : length (group_key (V:=V) (St:=St) t row) = length (grouping_set t).
Proof. apply length_fmap. Qed.

Lemma distinct_width s dt C : distinct_ok s dt C -> length (inputs dt) = length (grouping_set (s_table s)) + length C.
Proof. intros Hd. by rewrite (do_inputs _ _ _ Hd), length_app, length_fmap. Qed.

(** The rows of a table of distinct inputs are its keys. *)
Lemma distinct_output dt (row : GroupRow V St) : distinct_form dt -> length (group row) = length (inputs dt) -> output_row int64_value (distinct_table dt) row = Ok (group row).
Proof.
  intros Hform Hlen. rewrite Hform.
  assert (group row = ((fun i => group row !!! i) <$> seq 0 (length (inputs dt)))) as Hkey.
  { apply list_eq. intros i. rewrite list_lookup_fmap. destruct (decide (i < length (inputs dt))) as [Hi|Hi].
    - rewrite lookup_seq_lt by done. apply list_lookup_lookup_total_lt. lia.
    - rewrite lookup_seq_ge by lia. apply lookup_ge_None_2. lia. }
  rewrite (output_row_spec batch_size batch_size_pos _ n n_pos int64_value (seq_sorted _ _ : StronglySorted lt (grouping_set (mkPartitioned [] (seq 0 _) (inputs dt) []))) _ row Hkey).
  unfold result_row, spread_groups. cbn. rewrite app_nil_r. f_equal. etransitivity; [|exact (eq_sym Hkey)]. apply list_fmap_ext. intros i j Hj.
  apply lookup_seq in Hj as [-> Hj]. rewrite decide_True; [done|]. apply elem_of_seq. lia.
Qed.

Lemma set_at_set_at p o st evs o' st' evs' g : set_at p o st evs (set_at p o' st' evs' g) = set_at p o st evs g.
Proof. unfold set_at. cbn. by rewrite !list_insert_insert_eq. Qed.

Lemma set_at_phases k t g p o st evs : g_ok t g -> p < n -> (forall q, q < n -> k <= phase (st_at q g)) -> k <= phase st ->
  forall q, q < n -> k <= phase (st_at q (set_at p o st evs g)).
Proof.
  intros Hg Hp Hall Hst q Hq. destruct (decide (q = p)) as [->|Hne]; [by rewrite (proj1 (set_at_same t g p Hg Hp o st evs))|].
  rewrite (proj1 (set_at_keep g p o st evs q Hne)). by apply Hall.
Qed.

Record drain_ready (dt : DistinctTable V St) (g : Ghost) (p : nat) : Prop := {
  dr_ok : g_ok (distinct_table dt) g;
  dr_phases : forall q, q < n -> 2 <= phase (st_at q g);
  dr_keys : forall ev, ev ∈ concat (g_evss g) -> exists f, ev_key ev = (f <$> grouping_set (distinct_table dt));
  dr_left : Forall (fun row => length (group row) = length (inputs dt)) (left_at g p);
}.

Lemma drain_loop_spec s dt C fuel g p o evs st :
  set_static s -> distinct_ok s dt C -> p < n -> drain_ready dt g p -> partition_count o = n -> build_ok hash_one batch_size (s_table s) n p evs st ->
  length (left_at g p) < fuel -> (Z.of_nat (length evs + length (left_at g p)) <= 2 ^ 61)%Z ->
  exists sd st' des, drain_loop hash_one int64_value blank batch_size fuel dt (g_op g) (s_table s) o (agg_sel dt) (st_at p g) st = Ok (sd, st')
    /\ 2 <= phase sd /\ g_ok (distinct_table dt) (set_at p (g_op g) sd (evs_at p g) g)
    /\ build_ok hash_one batch_size (s_table s) n p (evs ++ des) st' /\ Forall2 (distinct_event (s_table s) (agg_sel dt)) (group <$> left_at g p) des.
Proof.
  intros Hs Hd Hp. pose proof (main_static s Hs) as Hstatic. revert g evs st. induction fuel as [|fuel IH]; intros g evs st [Hg Hall Hkeys Hleft] Ho Hst Hfuel Hbound; [lia|].
  cbn [drain_loop]. destruct (ghost_scan (distinct_table dt) g p Hg Hp) as (sc & rows & out & Hscan & Hout & Hsplit & Hnil & Hbatch & Hg1);
    [rewrite (do_form _ _ _ Hd); apply seq_sorted|done|done|].
  rewrite (bind_ok _ _ _ Hscan). rewrite Hsplit in Hleft, Hfuel, Hbound. apply Forall_app in Hleft as [Hrows Hleft]. rewrite length_app in Hfuel, Hbound.
  assert (out = (group <$> rows)) as ->.
  { assert (collect (output_row int64_value (distinct_table dt)) rows = Ok (group <$> rows)) as E; [|congruence]. apply collect_map. intros row Hrow.
    rewrite Forall_forall in Hrows. apply distinct_output; [apply Hd|by apply Hrows]. }
  rewrite length_fmap. destruct (Nat.eqb_spec (length rows) 0) as [Hz|Hnz].
  { apply nil_length_inv in Hz as ->. eexists _, st, []. split; [done|]. rewrite Hnil, app_nil_r by done. split_and!; [cbn; lia|done|done|constructor]. }
  assert (forall a agg, a ∈ agg_sel dt -> layout (s_table s) !! a = Some agg -> length (columns agg) = length C) as Hcols.
  { intros a agg (agg' & Ha' & _ & <-)%(do_aggs _ _ _ Hd) Ha. rewrite (ss_layout _ Hs) in Ha. congruence. }
  destruct (insert_distinct_spec hash_one hash_one_u64 batch_size batch_size_pos (s_table s) n n_pos blank (ts_widths _ _ Hstatic) o p evs st (agg_sel dt) (length C) (group <$> rows))
    as (st1 & des1 & Hins & Hst1 & Hdes1); try done; try apply Hd.
  { apply Forall_forall. intros a (agg & Ha & _)%(do_aggs _ _ _ Hd). rewrite (ss_layout _ Hs). by eapply lookup_lt_Some. }
  { apply Forall_fmap. eapply Forall_impl; [exact Hrows|]. intros row Hrow. cbn. by rewrite <- (distinct_width s dt C Hd). }
  { by rewrite length_fmap. }
  { rewrite length_fmap. lia. }
  assert (to_columns (length (inputs dt)) (group <$> rows) = mkColumns (columns_of (length (grouping_set (s_table s)) + length C) (group <$> rows)) (length (group <$> rows))) as ->
    by by rewrite <- (distinct_width s dt C Hd).
  rewrite (bind_ok _ _ _ Hins). set (g1 := set_at p (g_op g) (Scanning sc) (evs_at p g) g) in *.
  destruct (set_at_same (distinct_table dt) g p Hg Hp (g_op g) (Scanning sc) (evs_at p g)) as [Hst_at Hevs_at]. fold g1 in Hst_at, Hevs_at.
  assert (left_at g1 p = scanning_left sc) as Hleft1 by (unfold left_at; by rewrite Hst_at).
  destruct (IH g1 (evs ++ des1) st1) as (sd & st' & des & Hrun & Hsd & Hgd & Hst' & Hdes); try done.
  { split; [done| | |by rewrite Hleft1].
    - eapply set_at_phases; [done|done|done|cbn; lia].
    - unfold g1. by rewrite (set_at_evs (distinct_table dt)). }
  { rewrite Hleft1. lia. }
  { rewrite Hleft1, length_app. apply Forall2_length in Hdes1. rewrite length_fmap in Hdes1. lia. }
  rewrite Hst_at in Hrun. exists sd, st', (des1 ++ des). split; [exact Hrun|]. rewrite Hevs_at in Hgd. unfold g1 in Hgd. rewrite set_at_set_at in Hgd.
  rewrite app_assoc, Hsplit, fmap_app. rewrite Hleft1 in Hdes. split_and!; [done|done|done|by apply Forall2_app].
Qed.

(** The collection of a grouping set before and after a partition drained it. *)
Definition drained_from (p : nat) (dg dg' : DistinctTable V St * Ghost) : Prop :=
  exists sd, dg' = (dg.1, set_at p (g_op dg.2) sd (evs_at p dg.2) dg.2) /\ 2 <= phase sd /\ g_ok (distinct_table dg.1) dg'.2.

(** The events that insert the distinct inputs of some rows. *)
Definition distinct_events (s : GSet) (rows : DistinctTable V St * Ghost -> list (GroupRow V St)) (coll : list (DistinctTable V St * Ghost))
    (dess : list (list (@event V))) : Prop :=
  Forall2 (fun dg des => Forall2 (distinct_event (s_table s) (agg_sel dg.1)) (group <$> rows dg) des) coll dess.

Lemma drain_tables_spec s coll p o evs st :
  set_static s -> p < n -> partition_count o = n -> build_ok hash_one batch_size (s_table s) n p evs st ->
  Forall (fun dg => (exists C, distinct_ok s dg.1 C) /\ drain_ready dg.1 dg.2 p /\ length (left_at dg.2 p) <= final_rows (g_op dg.2)) coll ->
  (Z.of_nat (length evs + sum_list_with (fun dg => length (left_at dg.2 p)) coll) <= 2 ^ 61)%Z ->
  exists coll' st' dess,
    drain_tables hash_one int64_value blank batch_size distinct_sel (fst <$> coll) ((fun dg => g_op dg.2) <$> coll) ((fun dg => st_at p dg.2) <$> coll) (s_table s) o st
      = Ok ((fun dg => st_at p dg.2) <$> coll', st')
    /\ Forall2 (drained_from p) coll coll' /\ build_ok hash_one batch_size (s_table s) n p (evs ++ concat dess) st'
    /\ distinct_events s (fun dg => left_at dg.2 p) coll dess.
Proof.
  intros Hs Hp Ho. revert evs st. induction coll as [|[dt g] coll IH]; intros evs st Hst Hcoll Hbound.
  { exists [], st, []. cbn. rewrite app_nil_r. split_and!; try done; constructor. }
  apply Forall_cons in Hcoll as [([C Hd] & Hready & Hrows) Hcoll]. cbn [fst snd] in Hd, Hready, Hrows. rewrite !fmap_cons. cbn [drain_tables fst snd]. cbn [sum_list_with fst snd] in Hbound.
  rewrite (bind_ok _ _ _ (do_index _ _ _ Hd)).
  destruct (drain_loop_spec s dt C (S (S (final_rows (g_op g)))) g p o evs st Hs Hd Hp Hready Ho Hst ltac:(lia) ltac:(lia)) as (sd & st1 & des & Hrun & Hsd & Hgd & Hst1 & Hdes).
  rewrite (bind_ok _ _ _ Hrun). destruct (IH (evs ++ des) st1 Hst1 Hcoll) as (coll' & st' & dess & Hrun' & Hfrom & Hst' & Hev).
  { apply Forall2_length in Hdes. rewrite length_fmap in Hdes. rewrite length_app. lia. }
  rewrite (bind_ok _ _ _ Hrun'). exists ((dt, set_at p (g_op g) sd (evs_at p g) g) :: coll'), st', (des :: dess). rewrite fmap_cons. cbn [snd concat]. split_and!.
  - do 2 f_equal. f_equal. symmetry. by apply (set_at_same (distinct_table dt) g p (dr_ok _ _ _ Hready) Hp).
  - constructor; [|done]. by exists sd.
  - by rewrite app_assoc.
  - by constructor.
Qed.

(** The grouping set after a partition drained its collection. *)
Definition drain_set (p : nat) (s s' : GSet) : Prop :=
  exists coll' st' dess, s' = mkGSet (s_table s) (set_at p (main_op s) st' (evs_at p (s_main s) ++ concat dess) (s_main s)) coll'
    /\ Forall2 (drained_from p) (s_coll s) coll' /\ build_ok hash_one batch_size (s_table s) n p (evs_at p (s_main s) ++ concat dess) st'
    /\ distinct_events s (fun dg => left_at dg.2 p) (s_coll s) dess.

Record drain_set_ready (p : nat) (s : GSet) : Prop := {
  ds_static : set_static s;
  ds_main : g_ok (s_table s) (s_main s);
  ds_phase : phase (main_st p s) = 0;
  ds_coll : Forall (fun dg => (exists C, distinct_ok s dg.1 C) /\ drain_ready dg.1 dg.2 p /\ length (left_at dg.2 p) <= final_rows (g_op dg.2)) (s_coll s);
  ds_bound : (Z.of_nat (length (evs_at p (s_main s)) + sum_list_with (fun dg => length (left_at dg.2 p)) (s_coll s)) <= 2 ^ 61)%Z;
}.

Lemma drain_collections_spec p sets :
  p < n -> Forall (drain_set_ready p) sets ->
  exists sets', drain_collections hash_one int64_value blank batch_size distinct_sel (coll_dts <$> sets) (coll_ops <$> sets) (coll_sts p <$> sets)
      (s_table <$> sets) (main_op <$> sets) (main_st p <$> sets) = Ok (coll_sts p <$> sets', main_st p <$> sets')
    /\ Forall2 (drain_set p) sets sets'.
Proof.
  intros Hp. induction 1 as [|s sets [Hs Hg Hph Hcoll Hbound] _ (sets' & Hrun & HR)]; [by exists []|]. rewrite !fmap_cons. cbn [drain_collections].
  destruct (drain_tables_spec s (s_coll s) p (main_op s) (evs_at p (s_main s)) (main_st p s) Hs Hp) as (coll' & st' & dess & Hrun1 & Hfrom & Hst' & Hev); try done.
  { apply Hg. }
  { by apply (ghost_build (s_table s)). }
  unfold coll_dts at 1, coll_ops at 1, coll_sts at 1. rewrite (bind_ok _ _ _ Hrun1), (bind_ok _ _ _ Hrun).
  exists (mkGSet (s_table s) (set_at p (main_op s) st' (evs_at p (s_main s) ++ concat dess) (s_main s)) coll' :: sets'). rewrite !fmap_cons. split.
  - do 3 f_equal. symmetry. by apply (set_at_same (s_table s) (s_main s) p Hg Hp).
  - constructor; [|done]. by exists coll', st', dess.
Qed.

(** ** The invariant of a grouping set *)

(** The phases of the tables of a partition. *)
Definition main_phase (t : Tag) (k : nat) : Prop :=
  match t with
  | TAggregating | TMergingDistinct _ | TAggregatingDistinct _ => k = 0
  | TMerging _ => k = 1
  | TScanning false => k = 2
  | TScanning true | TExhausted => 2 <= k
  end.

Definition distinct_phase (t : Tag) (k : nat) : Prop :=
  match t with
  | TAggregating => k = 0
  | TMergingDistinct _ => k = 1
  | TAggregatingDistinct _ => k = 2
  | _ => 2 <= k
  end.

(** Whether the partition has added its share of the distinct inputs. *)
Definition drained_tag (t : Tag) : bool := match t with TMerging _ | TScanning _ | TExhausted => true | _ => false end.

(** What a partition that consumed the rows [r] has put into an aggregate table. *)
Definition main_events (s : GSet) (q : nat) (t : Tag) (r : list Row) (evs : list (@event V)) : Prop :=
  exists dess, evs = (row_event (s_table s) normal_sel <$> r) ++ concat dess
    /\ (if drained_tag t then distinct_events s (fun dg => share n (finals dg.2) q) (s_coll s) dess else dess = []).

Record set_inv (tags : list Tag) (rows : list (list Row)) (s : GSet) : Prop := {
  si_static : set_static s;
  si_main : g_ok (s_table s) (s_main s);
  si_mphase : forall q t, tags !! q = Some t -> main_phase t (phase (main_st q s));
  si_mevs : forall q t r, tags !! q = Some t -> rows !! q = Some r -> main_events s q t r (evs_at q (s_main s));
  si_coll : Forall (fun dg => g_ok (distinct_table dg.1) dg.2
    /\ (forall q t, tags !! q = Some t -> distinct_phase t (phase (st_at q dg.2)))
    /\ (forall q r, rows !! q = Some r -> evs_at q dg.2 = (row_event (distinct_table dg.1) [] <$> r))) (s_coll s);
}.

(** A step of partition [p] on a table. *)
Definition kept (p : nat) (g g' : Ghost) : Prop := forall q, q <> p -> st_at q g' = st_at q g /\ evs_at q g' = evs_at q g.

Record coll_step (tags : list Tag) (p : nat) (t' : Tag) (r' : list Row) (dg dg' : DistinctTable V St * Ghost) : Prop := {
  cs_table : dg'.1 = dg.1;
  cs_ok : g_ok (distinct_table dg.1) dg'.2;
  cs_kept : kept p dg.2 dg'.2;
  cs_phase : distinct_phase t' (phase (st_at p dg'.2));
  cs_evs : evs_at p dg'.2 = (row_event (distinct_table dg.1) [] <$> r');
  cs_finals : (forall q t, tags !! q = Some t -> q <> p -> drained_tag t = false) \/ finals dg'.2 = finals dg.2;
}.

Lemma distinct_events_ext s s' rows rows' coll coll' dess :
  s_table s' = s_table s -> Forall2 (fun dg dg' => dg'.1 = dg.1 /\ rows' dg' = rows dg) coll coll' ->
  distinct_events s rows coll dess -> distinct_events s' rows' coll' dess.
Proof.
  intros Ht Hc. unfold distinct_events. rewrite Ht. revert dess. induction Hc as [|dg dg' coll coll' [H1 H2] _ IH]; intros dess; inversion 1; subst; constructor.
  - by rewrite H1, H2.
  - by apply IH.
Qed.

Lemma set_inv_step tags rows s s' p t' r' :
  set_inv tags rows s -> s_table s' = s_table s ->
  g_ok (s_table s) (s_main s') -> kept p (s_main s) (s_main s') -> main_phase t' (phase (main_st p s')) -> main_events s' p t' r' (evs_at p (s_main s')) ->
  Forall2 (coll_step tags p t' r') (s_coll s) (s_coll s') ->
  set_inv (<[p := t']> tags) (<[p := r']> rows) s'.
Proof.
  intros [Hs Hg Hph Hevs Hcoll] Ht Hg' Hkept Hph' Hevs' Hstep. split.
  - assert (coll_dts s' = coll_dts s) as Hdts.
    { unfold coll_dts. clear -Hstep. induction Hstep as [|dg dg' coll coll' [H1 _ _ _ _ _] _ IH]; [done|]. by rewrite !fmap_cons, H1, IH. }
    destruct Hs. by split; rewrite ?Ht, ?Hdts.
  - by rewrite Ht.
  - intros q t [(-> & -> & _)|(Hne & Hq)]%list_lookup_insert_Some; [done|]. unfold main_st. rewrite (proj1 (Hkept q (not_eq_sym Hne))). by apply Hph.
  - intros q t r Hq Hr. apply list_lookup_insert_Some in Hq as [(-> & -> & _)|(Hne & Hq)].
    + by apply list_lookup_insert_Some in Hr as [(_ & -> & _)|(? & _)].
    + rewrite list_lookup_insert_ne in Hr by done. rewrite (proj2 (Hkept q (not_eq_sym Hne))). destruct (Hevs q t r Hq Hr) as (dess & -> & Hdess).
      exists dess. rewrite Ht. split; [done|]. destruct (drained_tag t) eqn:Hd; [|done]. eapply distinct_events_ext; [done| |exact Hdess].
      eapply Forall2_impl; [exact Hstep|]. intros dg dg' [H1 _ _ _ _ [Hno|Hf]]; [|by rewrite Hf]. rewrite (Hno q t) in Hd; [done|done|by apply not_eq_sym].
  - clear Hevs Hevs'. induction Hstep as [|dg dg' coll coll' [H1 H2 H3 H4 H5 _] _ IH]; [constructor|]. apply Forall_cons in Hcoll as [(_ & Hp1 & Hp2) Hcoll].
    constructor; [|by apply IH]. rewrite H1. split_and!; [done| |].
    + intros q t [(-> & -> & _)|(Hne & Hq)]%list_lookup_insert_Some; [done|]. rewrite (proj1 (H3 q (not_eq_sym Hne))). by apply Hp1.
    + intros q r [(-> & -> & _)|(Hne & Hq)]%list_lookup_insert_Some; [done|]. rewrite (proj2 (H3 q (not_eq_sym Hne))). by apply Hp2.
Qed.

(** *** Steps on a grouping set *)

Lemma concat_length_le {A B} (l : list (list A)) (l' : list (list B)) : Forall2 (fun a b => length a <= length b) l l' -> length (concat l) <= length (concat l').
Proof. induction 1 as [|a b l l' Hab _ IH]; [done|]. cbn. rewrite !length_app. lia. Qed.

Lemma set_at_kept p o st evs g : kept p g (set_at p o st evs g).
Proof. intros q Hq. by apply set_at_keep. Qed.

Section SetSteps.
Variables (tags : list Tag) (rows : list (list Row)) (p : nat) (t : Tag) (r : list Row).
Hypothesis Htags : length tags = n.
Hypothesis Hrows : length rows = n.
Hypothesis Ht : tags !! p = Some t.
Hypothesis Hr : rows !! p = Some r.

Lemma p_lt : p < n.
Proof. rewrite <- Htags. by eapply lookup_lt_Some. Qed.

Lemma same_rows : <[p := r]> rows = rows.
Proof. by apply list_insert_id. Qed.

Lemma coll_same s t' : set_inv tags rows s -> (forall k, distinct_phase t k -> distinct_phase t' k) -> Forall2 (coll_step tags p t' r) (s_coll s) (s_coll s).
Proof.
  intros [_ _ _ _ Hcoll] Hph. apply Forall_Forall2_diag. eapply Forall_impl; [exact Hcoll|]. intros dg (Hg & Hp1 & Hp2).
  split; [done|done|by intros q|by apply Hph, Hp1|by apply Hp2|by right].
Qed.

(** The events of all partitions are as many as the rows they stand for. *)
Lemma events_bound t' g evs' r' :
  g_ok t' g -> (forall q r0, q <> p -> rows !! q = Some r0 -> length (evs_at q g) <= length r0) -> length evs' <= length r' ->
  length (concat (<[p := evs']> (g_evss g))) <= length (concat (<[p := r']> rows)).
Proof.
  intros Hg Hother Hp. apply concat_length_le, Forall2_same_length_lookup_2; [by rewrite !length_insert, (ti_evss _ _ _ _ _ _ _ Hg)|].
  intros q evs r0 Hq Hq'. apply list_lookup_insert_Some in Hq as [(-> & -> & _)|(Hne & Hq)].
  { by apply list_lookup_insert_Some in Hq' as [(_ & -> & _)|(? & _)]. }
  rewrite list_lookup_insert_ne in Hq' by done. specialize (Hother q r0 (not_eq_sym Hne) Hq'). unfold evs_at in Hother. by rewrite (list_lookup_total_correct _ _ _ Hq) in Hother.
Qed.

(** A row of an aggregating partition goes into a table. *)
Lemma ghost_insert_rows t' g sel input :
  g_ok t' g -> phase (st_at p g) = 0 -> table_static t' w -> columns_ok w input -> StronglySorted lt sel -> Forall (fun a => a < length (layout t')) sel ->
  (forall q r0, rows !! q = Some r0 -> evs_at q g = (row_event t' sel <$> r0)) ->
  (Z.of_nat (length (concat (<[p := r ++ batch_rows input]> rows))) <= 2 ^ 61)%Z ->
  exists st, insert_step hash_one batch_size sel input t' (g_op g) (st_at p g) = Ok (g_op g, st) /\ phase st = 0
    /\ g_ok t' (set_at p (g_op g) st (row_event t' sel <$> (r ++ batch_rows input)) g).
Proof.
  intros Hg Hph Hst Hin Hs Hsel Hevs Hbound. rewrite fmap_app, <- (Hevs p r Hr).
  assert (length (concat (<[p := evs_at p g ++ (row_event t' sel <$> batch_rows input)]> (g_evss g))) <= length (concat (<[p := r ++ batch_rows input]> rows))) as Hle.
  { eapply events_bound; [done| |].
    - intros q r0 _ Hq. by rewrite (Hevs q r0 Hq), length_fmap.
    - by rewrite (Hevs p r Hr), !length_app, !length_fmap. }
  assert (length (evs_at p g) + num_rows input <= length (concat (<[p := r ++ batch_rows input]> rows))) as Hle'.
  { destruct (concat_insert rows p r (r ++ batch_rows input) Hr) as (rest & _ & ->). rewrite (Hevs p r Hr), !length_app, !length_fmap. unfold batch_rows. rewrite length_fmap, length_seq. lia. }
  destruct (insert_partition_local_spec hash_one hash_one_u64 batch_size batch_size_pos t' n n_pos (g_op g) p (evs_at p g) (st_at p g) w sel input) as (st & Hrun & Hb); try done.
  { apply Hg. }
  { apply ghost_build; [done|exact p_lt|done]. }
  { lia. }
  exists st. unfold insert_step. rewrite (bind_ok _ _ _ Hrun). split_and!; [done|by eapply phase_build|]. apply ghost_insert; [done|exact p_lt|done|done|lia].
Qed.

End SetSteps.

(** ** The invariant of the operator *)

Variable plan : Plan V St.
Hypothesis Hplan : plan_ok op plan.

(** The batches of every partition. *)
Variable ins : list (list (Columns V)).
Hypothesis Hins : Forall (Forall (columns_ok w)) ins.
Hypothesis Hn : length ins = n.

Local Abbreviation all_rows := (concat (input_rows <$> ins)).

Hypothesis bound : (Z.of_nat ((1 + length distinct_sel) * length all_rows) <= 2 ^ 61)%Z.

Definition has_distinct : bool := negb (length (sel_distinct plan) =? 0).

Definition inner_of (q : nat) (sets : list GSet) : Inner V St := mkInner (main_st q <$> sets) (coll_sts q <$> sets).

(** Rows of the output: those a partition has still to emit, and all it emits. *)
Definition out_row (s : GSet) (row : GroupRow V St) : Row := match output_row int64_value (s_table s) row with Ok out => out | _ => [] end.
Definition left_rows (q : nat) (s : GSet) : list Row := out_row s <$> left_at (s_main s) q.
Definition share_rows (q : nat) (s : GSet) : list Row := out_row s <$> share n (finals (s_main s)) q.

Definition part_state (sets : list GSet) (q : nat) (st : PartitionState V St) (em : list Row) : Prop :=
  match st with
  | Aggregating i | MergingDistinct _ i | AggregatingDistinct _ i | Merging _ i => i = inner_of q sets /\ em = []
  | ScanningGroups false states => states = zip (seq 0 (length sets)) (main_st q <$> sets) /\ em = []
  | ScanningGroups true states => exists j, j <= length sets /\ states = take j (zip (seq 0 (length sets)) (main_st q <$> sets))
      /\ Forall (fun s => left_at (s_main s) q = []) (drop j sets) /\ em ++ concat (left_rows q <$> sets) ≡ₚ concat (share_rows q <$> sets)
  | Exhausted => em ≡ₚ concat (share_rows q <$> sets)
  end.

Record part_inv (sets : list GSet) (q : nat) (p : Partition V St) (r : list Row) : Prop := {
  pi_state : part_state sets q (pstate p) (emitted p);
  pi_input : r ++ input_rows (pinput p) = input_rows (ins !!! q);
  pi_columns : Forall (columns_ok w) (pinput p);
  pi_done : tag (pstate p) = TAggregating \/ pinput p = [];
}.

Definition tags_of (s : System V St) : list Tag := (fun p => tag (pstate p)) <$> partitions s.

Record inv (sets : list GSet) (rows : list (list Row)) (s : System V St) : Prop := {
  in_tables : tables plan = (s_table <$> sets);
  in_collections : distinct_collections plan = (coll_dts <$> sets);
  in_states : table_states (shared s) = (main_op <$> sets);
  in_distinct : distinct_states (shared s) = (coll_ops <$> sets);
  in_partitions : length (partitions s) = n;
  in_rows : length rows = n;
  in_sync : sync has_distinct (shared s) (tags_of s);
  in_sets : Forall (set_inv (tags_of s) rows) sets;
  in_parts : forall q p r, partitions s !! q = Some p -> rows !! q = Some r -> part_inv sets q p r;
}.

(** *** Other partitions *)

Definition scanned_tag (t : Tag) : bool := match t with TScanning true | TExhausted => true | _ => false end.

(** A step of partition [p] leaves the states of the others, and the result
    once it can be scanned. *)
Record set_kept (tags : list Tag) (p : nat) (s s' : GSet) : Prop := {
  sk_table : s_table s' = s_table s;
  sk_main : kept p (s_main s) (s_main s');
  sk_coll : Forall2 (fun dg dg' => dg'.1 = dg.1 /\ kept p dg.2 dg'.2) (s_coll s) (s_coll s');
  sk_finals : (forall q t, tags !! q = Some t -> q <> p -> scanned_tag t = false) \/ finals (s_main s') = finals (s_main s);
}.

Lemma fmap_same {A B} (f g : A -> B) l l' : Forall2 (fun x x' => g x' = f x) l l' -> g <$> l' = f <$> l.
Proof. induction 1 as [|x x' l l' Hx _ IH]; [done|]. by rewrite !fmap_cons, Hx, IH. Qed.

Lemma part_state_kept tags sets sets' p q st em :
  Forall2 (set_kept tags p) sets sets' -> tags !! q = Some (tag st) -> q <> p -> part_state sets q st em -> part_state sets' q st em.
Proof.
  intros Hk Hq Hne. pose proof (Forall2_length _ _ _ Hk) as Hlen.
  assert (main_st q <$> sets' = main_st q <$> sets) as Hmain.
  { apply fmap_same. eapply Forall2_impl; [exact Hk|]. intros s s' Hs. by apply (sk_main _ _ _ _ Hs). }
  assert (inner_of q sets' = inner_of q sets) as Hinner.
  { unfold inner_of. rewrite Hmain. f_equal. apply fmap_same. eapply Forall2_impl; [exact Hk|]. intros s s' Hs. unfold coll_sts. apply fmap_same.
    eapply Forall2_impl; [apply Hs|]. intros dg dg' [_ Hd]. by apply Hd. }
  assert (scanned_tag (tag st) = true -> Forall2 (fun s s' => left_at (s_main s') q = left_at (s_main s) q /\ left_rows q s' = left_rows q s /\ share_rows q s' = share_rows q s) sets sets') as Hscan.
  { intros Hs. eapply Forall2_impl; [exact Hk|]. intros s s' [Ht Hm _ [Hno|Hf]]; [by rewrite (Hno q _ Hq Hne) in Hs|].
    unfold left_rows, share_rows, left_at, out_row. by rewrite (proj1 (Hm q Hne)), Hf, Ht. }
  assert (scanned_tag (tag st) = true -> left_rows q <$> sets' = left_rows q <$> sets /\ share_rows q <$> sets' = share_rows q <$> sets) as Hboth.
  { intros Hs. split; apply fmap_same; (eapply Forall2_impl; [by apply Hscan|]); by intros s s' (? & ? & ?). }
  destruct st as [i|b i|b i|b i|[] states|]; cbn [part_state tag scanned_tag] in *; rewrite ?Hinner, ?Hmain, <- ?Hlen; try done.
  - destruct Hboth as [-> ->]; [done|]. intros (j & Hj & Hst & Hleft & Hem). exists j. split_and!; try done.
    specialize (Hscan eq_refl). apply (Forall2_drop _ _ _ j) in Hscan. clear -Hscan Hleft. induction Hscan as [|s s' l l' (Hl & _) _ IH]; [constructor|].
    apply Forall_cons in Hleft as [Hs Hleft]. constructor; [congruence|by apply IH].
  - by destruct Hboth as [_ ->].
Qed.

Lemma agg_inv_step sets rows s idx p r sh' p' sets' r' :
  inv sets rows s -> partitions s !! idx = Some p -> rows !! idx = Some r ->
  table_states sh' = (main_op <$> sets') -> distinct_states sh' = (coll_ops <$> sets') ->
  sync has_distinct sh' (<[idx := tag (pstate p')]> (tags_of s)) ->
  Forall2 (set_kept (tags_of s) idx) sets sets' ->
  Forall (set_inv (<[idx := tag (pstate p')]> (tags_of s)) (<[idx := r']> rows)) sets' ->
  part_inv sets' idx p' r' ->
  inv sets' (<[idx := r']> rows) (mkSystem sh' (<[idx := p']> (partitions s))).
Proof.
  intros [H1 H2 H3 H4 H5 H6 H7 H8 H9] Hp Hr Hos Hdos Hsync Hkept Hsets Hpart.
  assert (tags_of (mkSystem sh' (<[idx := p']> (partitions s))) = <[idx := tag (pstate p')]> (tags_of s)) as Htags by (unfold tags_of; cbn; by rewrite list_fmap_insert).
  split; cbn [shared partitions]; rewrite ?length_insert, ?Htags; try done.
  - rewrite H1. symmetry. apply fmap_same. eapply Forall2_impl; [exact Hkept|]. intros a b Hab. apply Hab.
  - rewrite H2. symmetry. apply fmap_same. eapply Forall2_impl; [exact Hkept|]. intros a b Hab. unfold coll_dts. apply fmap_same.
    eapply Forall2_impl; [apply Hab|]. by intros ? ? [? _].
  - intros q pq rq Hq Hrq. apply list_lookup_insert_Some in Hq as [(-> & -> & _)|(Hne & Hq)].
    + by apply list_lookup_insert_Some in Hrq as [(_ & -> & _)|(? & _)].
    + rewrite list_lookup_insert_ne in Hrq by done. destruct (H9 q pq rq Hq Hrq) as [Hst Hin Hcols Hdone]. split; try done.
      eapply (part_state_kept (tags_of s)); [exact Hkept| |by apply not_eq_sym|done]. unfold tags_of. by rewrite list_lookup_fmap, Hq.
Qed.

(** *** Steps *)

Lemma not_drained (sh : Shared V St) tags p t q t' :
  sync true sh tags -> tags !! p = Some t -> in_distinct_merge t = 1 -> tags !! q = Some t' -> drained_tag t' = false.
Proof.
  intros Hs Hp Hin Hq. pose proof (total_lookup in_distinct_merge tags p t Hp). pose proof (distinct_le_aggregation tags). pose proof (aggregation_le_merge tags).
  pose proof (sync_tags _ _ _ Hs q t' Hq) as Hok. destruct t' as [| | | | |]; cbn in *; try done; destruct_and?; try lia.
Qed.

Lemma not_scanned distinct (sh : Shared V St) tags p t q t' :
  sync distinct sh tags -> tags !! p = Some t -> in_merge t = 1 -> tags !! q = Some t' -> scanned_tag t' = false.
Proof.
  intros Hs Hp Hin Hq. pose proof (total_lookup in_merge tags p t Hp). pose proof (sync_tags _ _ _ Hs q t' Hq) as Hok.
  destruct t' as [| | | |[]|]; cbn in *; try done; destruct_and?; lia.
Qed.

Lemma coll_empty s : set_static s -> has_distinct = false -> s_coll s = [].
Proof.
  intros [_ _ _ Hc] Hd. unfold has_distinct in Hd. apply negb_false_iff, Nat.eqb_eq in Hd. rewrite (po_distinct _ _ Hplan) in Hd.
  pose proof (ci_length _ _ _ _ Hc) as Hlen. unfold coll_dts in Hlen. rewrite length_fmap in Hlen. apply nil_length_inv. lia.
Qed.

Lemma rows_bound (rows : list (list Row)) : length rows = n -> (forall q r, rows !! q = Some r -> length r <= length (input_rows (ins !!! q))) ->
  length (concat rows) <= length all_rows.
Proof.
  intros Hlen Hall. apply concat_length_le, Forall2_same_length_lookup_2; [by rewrite length_fmap, Hn|]. intros q r bs Hr Hbs.
  rewrite list_lookup_fmap in Hbs. destruct (ins !! q) as [b|] eqn:Hb; [|done]. injection Hbs as <-. specialize (Hall q r Hr).
  by rewrite (list_lookup_total_correct _ _ _ Hb) in Hall.
Qed.

Lemma sets_step {SR : GSet -> GSet -> Prop} tags rows tags' rows' idx sets sets' :
  Forall (set_inv tags rows) sets -> Forall2 SR sets sets' ->
  (forall s s', set_inv tags rows s -> SR s s' -> set_kept tags idx s s' /\ set_inv tags' rows' s') ->
  Forall2 (set_kept tags idx) sets sets' /\ Forall (set_inv tags' rows') sets'.
Proof.
  intros Hinv HR Hstep. induction HR as [|s s' sets sets' Hs _ IH]; [by split; constructor|]. apply Forall_cons in Hinv as [H1 H2].
  destruct (Hstep s s' H1 Hs) as [Ha Hb]. destruct (IH H2) as [Hc Hd]. by split; constructor.
Qed.

Lemma forall2_elem_r {A B} (P : A -> B -> Prop) l l' y : Forall2 P l l' -> y ∈ l' -> exists x, x ∈ l /\ P x y.
Proof. intros HP [i Hi]%list_elem_of_lookup_1. destruct (Forall2_lookup_r _ _ _ _ _ HP Hi) as (x & Hx & HR). exists x. split; [by eapply list_elem_of_lookup_2|done]. Qed.

Lemma forall2_impl_elem {A B} (P Q : A -> B -> Prop) l l' : Forall2 P l l' -> (forall x y, x ∈ l -> P x y -> Q x y) -> Forall2 Q l l'.
Proof.
  induction 1 as [|x y l l' Hxy _ IH]; intros HPQ; constructor; [apply HPQ; [left|done]|]. apply IH. intros. apply HPQ; [by right|done].
Qed.

Lemma sum_swap {A B} (f : A -> B -> nat) (l : list A) (k : list B) :
  sum_list_with (fun a => sum_list_with (f a) k) l = sum_list_with (fun b => sum_list_with (fun a => f a b) l) k.
Proof.
  induction l as [|a l IH]; cbn; [by induction k|]. rewrite IH. clear IH. induction k as [|b k IH]; cbn; [done|]. lia.
Qed.

Lemma sum_concat {A B} (f : A -> list B) (l : list A) : sum_list_with (fun a => length (f a)) l = length (concat (f <$> l)).
Proof. induction l as [|a l IH]; [done|]. cbn. rewrite length_app. by f_equal. Qed.

Lemma sum_elem {A} (f : A -> nat) l a : a ∈ l -> f a <= sum_list_with f l.
Proof. induction l as [|x l IH]; [by intros ?%not_elem_of_nil|]. cbn. intros [->|Ha]%elem_of_cons; [lia|]. specialize (IH Ha). lia. Qed.

Lemma concat_length_sum {A B} (f : nat -> nat) (l : list (list A)) (l' : list (list B)) i :
  length l = length l' -> (forall q a b, l !! q = Some a -> l' !! q = Some b -> length a <= length b + f (i + q)) ->
  length (concat l) <= length (concat l') + sum_list_with f (seq i (length l')).
Proof.
  revert i l. induction l' as [|b l' IH]; intros i l Hlen Hall; [by apply nil_length_inv in Hlen as ->|]. destruct l as [|a l]; [done|].
  cbn [concat seq length sum_list_with]. rewrite !length_app. specialize (IH (S i) l ltac:(by injection Hlen)).
  pose proof (Hall 0 a b eq_refl eq_refl) as H0. rewrite Nat.add_0_r in H0. rewrite <- Nat.add_assoc.
  assert (length (concat l) <= length (concat l') + sum_list_with f (seq (S i) (length l'))) as Hle; [|lia].
  apply IH. intros q x y Hx Hy. rewrite Nat.add_succ_l, <- Nat.add_succ_r. by apply (Hall (S q)).
Qed.

Lemma final_rows_data (o : TableOperatorState V St) ts : final_tables o = (Some <$> ts) -> final_rows o = length (concat (data <$> ts)).
Proof.
  intros Hf. unfold final_rows. rewrite Hf. clear. induction ts as [|t ts IH]; [done|]. rewrite !fmap_cons. cbn [concat]. rewrite length_app, <- IH. done.
Qed.

(** How far a partition is from the end. *)
Definition rank (t : Tag) : nat :=
  match t with
  | TAggregating => 9
  | TMergingDistinct false => 8 | TMergingDistinct true => 7
  | TAggregatingDistinct false => 6 | TAggregatingDistinct true => 5
  | TMerging false => 4 | TMerging true => 3
  | TScanning false => 2 | TScanning true => 1
  | TExhausted => 0
  end.

(** A bound on the rows a partition emits, and the work it has left. *)
Definition max_rows : nat := length (grouping_sets op) * length all_rows.
Definition work (p : Partition V St) : nat := length (pinput p) + rank (tag (pstate p)) + (max_rows - length (emitted p)).

(** What a step of a partition does: some of its work, or storing its waker. *)
Definition advanced (idx : nat) (sh : Shared V St) (p : Partition V St) (sh' : Shared V St) (p' : Partition V St) : Prop :=
  work p' < work p
  \/ (p' = p /\ waiting_tag (tag (pstate p)) = true /\ parked (pending_of (tag (pstate p)) sh) idx = false
      /\ pending_of (tag (pstate p)) sh' = <[idx := true]> (pending_of (tag (pstate p)) sh) /\ idx < length (pending_of (tag (pstate p)) sh)
      /\ forall t', t' <> tag (pstate p) -> waiting_tag t' = true -> pending_of t' sh' = pending_of t' sh).

Section Steps.
Variables (sets : list GSet) (rows : list (list Row)) (s : System V St) (idx : nat) (p : Partition V St) (r : list Row).
Hypothesis Hinv : inv sets rows s.
Hypothesis Hp : partitions s !! idx = Some p.
Hypothesis Hr : rows !! idx = Some r.

Local Abbreviation tags := (tags_of s).
Local Abbreviation become sh st sets' := (rank (tag st) < rank (tag (pstate p)) /\ inv sets' rows (mkSystem sh (<[idx := mkPartition st (pinput p) (emitted p)]> (partitions s)))).

Lemma tag_at : tags !! idx = Some (tag (pstate p)).
Proof. unfold tags_of. by rewrite list_lookup_fmap, Hp. Qed.

Lemma tags_len : length tags = n.
Proof. unfold tags_of. rewrite length_fmap. apply Hinv. Qed.

Lemma idx_lt : idx < n.
Proof. rewrite <- tags_len. eapply lookup_lt_Some, tag_at. Qed.

Lemma part_at : part_inv sets idx p r.
Proof. by apply (in_parts _ _ _ Hinv). Qed.

Lemma set_at_inv g : g ∈ sets -> set_inv tags rows g.
Proof. pose proof (in_sets _ _ _ Hinv) as Hs. rewrite Forall_forall in Hs. apply Hs. Qed.

Lemma rows_le : length (concat rows) <= length all_rows.
Proof.
  apply rows_bound; [apply Hinv|]. intros q r0 Hq.
  destruct (lookup_lt_is_Some_2 (partitions s) q) as [pq Hpq]; [rewrite (in_partitions _ _ _ Hinv), <- (in_rows _ _ _ Hinv); by eapply lookup_lt_Some|].
  rewrite <- (pi_input _ _ _ _ (in_parts _ _ _ Hinv q pq r0 Hpq Hq)), length_app. lia.
Qed.

Lemma rows_after r' : length r' <= length (input_rows (ins !!! idx)) -> (Z.of_nat (length (concat (<[idx := r']> rows))) <= 2 ^ 61)%Z.
Proof.
  intros Hr'. assert (length (concat (<[idx := r']> rows)) <= length all_rows) as Hle; [|lia].
  apply rows_bound; [rewrite length_insert; apply Hinv|]. intros q r0 [(-> & -> & _)|(_ & Hq)]%list_lookup_insert_Some; [done|].
  destruct (lookup_lt_is_Some_2 (partitions s) q) as [pq Hpq]; [rewrite (in_partitions _ _ _ Hinv), <- (in_rows _ _ _ Hinv); by eapply lookup_lt_Some|].
  rewrite <- (pi_input _ _ _ _ (in_parts _ _ _ Hinv q pq r0 Hpq Hq)), length_app. lia.
Qed.

(** While a partition still aggregates, no distinct inputs have been added. *)
Lemma undrained g q t r0 evs : tag (pstate p) = TAggregating -> set_inv tags rows g -> tags !! q = Some t -> main_events g q t r0 evs ->
  evs = (row_event (s_table g) normal_sel <$> r0).
Proof.
  intros Hagg Hg Hq (dess & -> & Hdess). assert (dess = []) as ->; [|cbn; by rewrite app_nil_r].
  destruct (drained_tag t) eqn:Hd; [|done]. destruct has_distinct eqn:Hhas.
  - pose proof (in_sync _ _ _ Hinv) as Hs. rewrite Hhas in Hs. pose proof tag_at as Hat. rewrite Hagg in Hat.
    by rewrite (not_drained _ _ _ _ _ _ Hs Hat eq_refl Hq) in Hd.
  - rewrite (coll_empty g (si_static _ _ _ Hg) Hhas) in Hdess. by inversion Hdess.
Qed.

Lemma coll_at g dt dg : set_inv tags rows g -> (dt, dg) ∈ s_coll g ->
  (exists C, distinct_ok g dt C) /\ g_ok (distinct_table dt) dg /\ (forall q t, tags !! q = Some t -> distinct_phase t (phase (st_at q dg)))
  /\ (forall q r, rows !! q = Some r -> evs_at q dg = (row_event (distinct_table dt) [] <$> r)).
Proof.
  intros Hg Hin. split; [apply set_distinct_ok; [apply Hg|by apply (list_elem_of_fmap_2 fst _ (dt, dg))]|].
  pose proof (si_coll _ _ _ Hg) as Hc. rewrite Forall_forall in Hc. exact (Hc _ Hin).
Qed.

(** The grouping set after the rows [r'] in all. *)
Definition rows_set (r' : list Row) (g g' : GSet) : Prop :=
  s_table g' = s_table g
  /\ (exists st, phase st = 0 /\ s_main g' = set_at idx (main_op g) st (row_event (s_table g) normal_sel <$> r') (s_main g) /\ g_ok (s_table g) (s_main g'))
  /\ Forall2 (fun dg dg' => dg'.1 = dg.1 /\ exists st, phase st = 0 /\ dg'.2 = set_at idx (g_op dg.2) st (row_event (distinct_table dg.1) [] <$> r') dg.2
       /\ g_ok (distinct_table dg.1) dg'.2) (s_coll g) (s_coll g').

Lemma rows_set_inv r' g g' : tag (pstate p) = TAggregating -> set_inv tags rows g -> rows_set r' g g' ->
  set_kept tags idx g g' /\ set_inv (<[idx := TAggregating]> tags) (<[idx := r']> rows) g'.
Proof.
  intros Hagg Hg (Ht & (st & Hst & Hmain & Hok) & Hcoll). destruct (set_at_same _ _ _ (si_main _ _ _ Hg) idx_lt (main_op g) st (row_event (s_table g) normal_sel <$> r')) as [E1 E2].
  assert (Forall2 (coll_step tags idx TAggregating r') (s_coll g) (s_coll g')) as Hsteps.
  { eapply forall2_impl_elem; [exact Hcoll|]. intros [dt dg] [dt' dg'] Hdg (H1 & st' & H2 & H3 & H4). destruct (coll_at g dt dg Hg Hdg) as (_ & H5 & _).
    cbn [fst snd] in *. destruct (set_at_same _ _ _ H5 idx_lt (g_op dg) st' (row_event (distinct_table dt) [] <$> r')) as [F1 F2].
    split; cbn [fst snd]; [done|done|rewrite H3; apply set_at_kept|by rewrite H3, F1|by rewrite H3, F2|right; by rewrite H3]. }
  split.
  - split; [done|rewrite Hmain; apply set_at_kept| |right; by rewrite Hmain]. eapply Forall2_impl; [exact Hsteps|]. by intros dg dg' [? _ ? _ _ _].
  - eapply set_inv_step; [done|done|done|rewrite Hmain; apply set_at_kept|unfold main_st; rewrite Hmain, E1; exact Hst| |done].
    exists []. rewrite Hmain, E2, Ht. cbn. by rewrite app_nil_r.
Qed.

Lemma step_aggregating inner b rest :
  pstate p = Aggregating inner -> pinput p = b :: rest ->
  exists inner' sets', execute_aggregating hash_one batch_size plan (shared s) inner b = Ok inner'
    /\ inv sets' (<[idx := r ++ batch_rows b]> rows) (mkSystem (shared s) (<[idx := mkPartition (Aggregating inner') rest (emitted p)]> (partitions s))).
Proof.
  intros Hst Hin. destruct part_at as [Hstate Hinput Hcols Hdone]. rewrite Hst in Hstate. destruct Hstate as [-> Hem]. rewrite Hin in Hinput, Hcols.
  apply Forall_cons in Hcols as [Hb Hcols]. pose proof tag_at as Htag. rewrite Hst in Htag. cbn in Htag.
  assert (tag (pstate p) = TAggregating) as Hagg by by rewrite Hst.
  assert (input_rows (b :: rest) = batch_rows b ++ input_rows rest) as Hirows by done. rewrite Hirows, app_assoc in Hinput.
  assert (Z.of_nat (length (concat (<[idx := r ++ batch_rows b]> rows))) <= 2 ^ 61)%Z as Hbound.
  { apply rows_after. rewrite <- Hinput, !length_app. lia. }
  unfold execute_aggregating. rewrite (in_distinct _ _ _ Hinv), (in_states _ _ _ Hinv). cbn [local_distinct local_states inner_of].
  destruct (each_distinct_map (insert_step hash_one batch_size [] b) plan idx sets (fun g dt dg dg' =>
    exists st, phase st = 0 /\ dg' = set_at idx (g_op dg) st (row_event (distinct_table dt) [] <$> (r ++ batch_rows b)) dg /\ g_ok (distinct_table dt) dg'))
    as (sets1 & Hrun1 & Hsets1); [apply Hinv| |].
  { intros g dt dg Hg Hdg. pose proof (set_at_inv g Hg) as Hgi. destruct (coll_at g dt dg Hgi Hdg) as ([C Hd] & Hok & Hph & Hevs).
    destruct (ghost_insert_rows tags rows idx TAggregating r tags_len (in_rows _ _ _ Hinv) Htag Hr (distinct_table dt) dg [] b) as (st' & Hrun & Hst' & Hok');
      [done|exact (Hph _ _ Htag)|by eapply distinct_static|done|constructor|constructor|done|done|].
    exists (set_at idx (g_op dg) st' (row_event (distinct_table dt) [] <$> (r ++ batch_rows b)) dg).
    rewrite (proj1 (set_at_same _ _ _ Hok idx_lt _ _ _)). split; [done|]. by exists st'. }
  rewrite (bind_ok _ _ _ Hrun1). assert (main_op <$> sets1 = main_op <$> sets /\ main_st idx <$> sets1 = main_st idx <$> sets /\ s_table <$> sets1 = s_table <$> sets) as (<- & <- & Htables).
  { split_and!; apply fmap_same; (eapply Forall2_impl; [exact Hsets1|]); intros g g1 (H1 & H2 & _); unfold main_op, main_st; by rewrite ?H1, ?H2. }
  destruct (each_main_map (insert_step hash_one batch_size (sel_non_distinct plan) b) plan idx sets1 (fun g g' =>
    exists st, phase st = 0 /\ g' = set_at idx (main_op g) st (row_event (s_table g) normal_sel <$> (r ++ batch_rows b)) (s_main g) /\ g_ok (s_table g) g'))
    as (sets2 & Hrun2 & Hsets2).
  { rewrite Htables. apply Hinv. }
  { intros g1 Hg1. destruct (forall2_elem_r _ _ _ _ Hsets1 Hg1) as (g & Hg & Ht1 & Hm1 & _). pose proof (set_at_inv g Hg) as Hgi.
    unfold main_op, main_st. rewrite Ht1, Hm1, (po_non_distinct _ _ Hplan). destruct normal_sel_ok as [Hsorted Hsel].
    destruct (ghost_insert_rows tags rows idx TAggregating r tags_len (in_rows _ _ _ Hinv) Htag Hr (s_table g) (s_main g) normal_sel b) as (st' & Hrun & Hst' & Hok');
      [apply Hgi|exact (si_mphase _ _ _ Hgi _ _ Htag)|apply main_static, Hgi|done|done|by rewrite (ss_layout _ (si_static _ _ _ Hgi))| |done|].
    { intros q r0 Hq. assert (exists t, tags !! q = Some t) as [t Ht]
        by (apply lookup_lt_is_Some_2; rewrite tags_len, <- (in_rows _ _ _ Hinv); by eapply lookup_lt_Some).
      eapply undrained; [done|done|done|by apply (si_mevs _ _ _ Hgi)]. }
    exists (set_at idx (main_op g) st' (row_event (s_table g) normal_sel <$> (r ++ batch_rows b)) (s_main g)).
    rewrite (proj1 (set_at_same _ _ _ (si_main _ _ _ Hgi) idx_lt _ _ _)). split; [done|]. by exists st'. }
  rewrite (bind_ok _ _ _ Hrun2). eexists _, sets2. split; [done|].
  assert (Forall2 (rows_set (r ++ batch_rows b)) sets sets2) as Hsets.
  { eapply Forall2_trans; [|exact Hsets1|exact Hsets2]. cbn. intros g g1 g2 (Ht1 & Hm1 & Hc1) (g' & -> & st' & Hst' & Hg' & Hok').
    unfold main_op in Hg'. rewrite Ht1, Hm1 in Hg'. rewrite Ht1 in Hok'. split_and!; cbn; [done|by exists st'|done]. }
  edestruct (sets_step tags rows (<[idx := TAggregating]> tags) (<[idx := r ++ batch_rows b]> rows) idx sets sets2 (in_sets _ _ _ Hinv) Hsets) as [Hkept Hsets'];
    [intros; by apply rows_set_inv|].
  assert (coll_ops <$> sets2 = coll_ops <$> sets /\ main_op <$> sets2 = main_op <$> sets) as [Hco Hmo].
  { split; apply fmap_same; (eapply Forall2_impl; [exact Hsets|]); intros g g2 (H1 & (st' & _ & H2 & _) & H3).
    - unfold coll_ops. apply fmap_same. eapply Forall2_impl; [exact H3|]. by intros dg dg' (_ & st'' & _ & -> & _).
    - unfold main_op. by rewrite H2. }
  assert (coll_sts idx <$> sets1 = coll_sts idx <$> sets2) as Hcs.
  { symmetry. apply fmap_same. eapply Forall2_impl; [exact Hsets2|]. by intros g1 g2 (g' & -> & _). }
  eapply agg_inv_step; [done|done|done|by rewrite Hmo; apply Hinv|by rewrite Hco; apply Hinv| |done|done|].
  - cbn [pstate tag]. rewrite list_insert_id by done. apply Hinv.
  - split; cbn; [by rewrite Hcs|by rewrite <- app_assoc in *|done|by left].
Qed.

(** A step that changes the state of the table but adds no events. *)
Definition op_step (st : TablePartitionState V St) (t : PartitionedHashTable V St) (g g' : Ghost) : Prop :=
  exists o, g' = set_at idx o st (evs_at idx g) g /\ g_ok t g'.

Lemma op_step_at st t g g' : g_ok t g -> op_step st t g g' -> kept idx g g' /\ st_at idx g' = st /\ evs_at idx g' = evs_at idx g.
Proof. intros Hg (o & -> & _). split; [apply set_at_kept|]. by apply (set_at_same t g idx Hg idx_lt). Qed.

Definition coll_op_step (st : TablePartitionState V St) (dg dg' : DistinctTable V St * Ghost) : Prop :=
  dg'.1 = dg.1 /\ op_step st (distinct_table dg.1) dg.2 dg'.2.

Lemma coll_op_steps st t' g coll' :
  set_inv tags rows g -> Forall2 (coll_op_step st) (s_coll g) coll' -> distinct_phase t' (phase st) ->
  (forall q t, tags !! q = Some t -> q <> idx -> drained_tag t = false) ->
  Forall2 (coll_step tags idx t' r) (s_coll g) coll'.
Proof.
  intros Hg Hc Hph Hno. eapply forall2_impl_elem; [exact Hc|]. intros [dt dg] [dt' dg'] Hdg [H1 H2]. destruct (coll_at g dt dg Hg Hdg) as (_ & Hok & _ & Hevs).
  cbn [fst snd] in *. destruct (op_step_at _ _ _ _ Hok H2) as (Hk & Hst & Hev). split; cbn [fst snd]; [done| |done|by rewrite Hst|by rewrite Hev, (Hevs _ _ Hr)|by left].
  by destruct H2 as (o & _ & ?).
Qed.

(** All tables of distinct inputs are flushed. *)
Lemma flush_collections : tag (pstate p) = TAggregating ->
  exists sets', each_distinct (flush batch_size) plan (distinct_states (shared s)) (coll_sts idx <$> sets) = Ok (coll_ops <$> sets', coll_sts idx <$> sets')
    /\ Forall2 (fun g g' => s_table g' = s_table g /\ s_main g' = s_main g /\ Forall2 (coll_op_step (MergeReady idx)) (s_coll g) (s_coll g')) sets sets'.
Proof.
  intros Hagg. rewrite (in_distinct _ _ _ Hinv). pose proof tag_at as Htag. rewrite Hagg in Htag.
  apply (each_distinct_map (flush batch_size) plan idx sets (fun g dt dg dg' => op_step (MergeReady idx) (distinct_table dt) dg dg')); [apply Hinv|].
  intros g dt dg Hg Hdg. destruct (coll_at g dt dg (set_at_inv g Hg) Hdg) as (_ & Hok & Hph & _).
  destruct (ghost_flush (distinct_table dt) dg idx Hok idx_lt (Hph _ _ Htag)) as (o & Hrun & Hok').
  exists (set_at idx o (MergeReady idx) (evs_at idx dg) dg). rewrite (proj1 (set_at_same _ _ _ Hok idx_lt _ _ _)). split; [done|]. by exists o.
Qed.

(** The aggregate tables are flushed. *)
Lemma flush_mains sets1 :
  tables plan = (s_table <$> sets1) -> Forall (fun g => g_ok (s_table g) (s_main g) /\ phase (main_st idx g) = 0) sets1 ->
  exists sets', each_table (flush batch_size) (tables plan) (main_op <$> sets1) (main_st idx <$> sets1) = Ok (main_op <$> sets', main_st idx <$> sets')
    /\ Forall2 (fun g g' => exists m, g' = mkGSet (s_table g) m (s_coll g) /\ op_step (MergeReady idx) (s_table g) (s_main g) m) sets1 sets'.
Proof.
  intros Htabs Hall. apply each_main_map; [done|]. intros g Hg. rewrite Forall_forall in Hall. destruct (Hall g Hg) as [Hok Hph].
  destruct (ghost_flush (s_table g) (s_main g) idx Hok idx_lt Hph) as (o & Hrun & Hok').
  exists (set_at idx o (MergeReady idx) (evs_at idx (s_main g)) (s_main g)). rewrite (proj1 (set_at_same _ _ _ Hok idx_lt _ _ _)). split; [done|]. by exists o.
Qed.

Lemma step_finalize_distinct inner :
  pstate p = Aggregating inner -> pinput p = [] -> has_distinct = true ->
  exists sh' st' sets', finalize_aggregating batch_size plan (shared s) inner = Ok (sh', st') /\ become sh' st' sets'.
Proof.
  intros Hst Hin Hd. destruct part_at as [Hstate Hinput Hcols Hdone]. rewrite Hst in Hstate. destruct Hstate as [-> Hem].
  pose proof tag_at as Htag. rewrite Hst in Htag. cbn in Htag. pose proof (in_sync _ _ _ Hinv) as Hsync. rewrite Hd in Hsync.
  destruct flush_collections as (sets' & Hrun & HR); [by rewrite Hst|]. unfold finalize_aggregating. cbn [local_distinct local_states inner_of].
  rewrite (bind_ok _ _ _ Hrun). unfold has_distinct in Hd. apply negb_true_iff in Hd. rewrite Hd.
  destruct (sync_finalize_distinct _ _ _ Hsync Htag) as (c & wk & Hcount & Hsync'). rewrite (bind_ok _ _ _ Hcount).
  assert (main_op <$> sets' = main_op <$> sets /\ main_st idx <$> sets' = main_st idx <$> sets) as [Hmo Hms].
  { split; apply fmap_same; (eapply Forall2_impl; [exact HR|]); intros g g1 (_ & H2 & _); unfold main_op, main_st; by rewrite H2. }
  eexists _, _, sets'. split; [done|]. split; [rewrite Hst; cbn; lia|]. edestruct (sets_step tags rows (<[idx := TMergingDistinct false]> tags) rows idx sets sets' (in_sets _ _ _ Hinv) HR) as [Hkept Hsets'].
  { intros g g' Hg (Ht & Hm & Hc).
    assert (Forall2 (coll_step tags idx (TMergingDistinct false) r) (s_coll g) (s_coll g')) as Hcs.
    { eapply coll_op_steps; [done|done|done|]. intros q t Hq _. exact (not_drained _ _ _ _ _ _ Hsync Htag eq_refl Hq). }
    split.
    - split; [done|by rewrite Hm|eapply Forall2_impl; [exact Hcs|]; by intros ? ? [? _ ? _ _ _]|right; by rewrite Hm].
    - rewrite <- (same_rows rows idx r Hr). eapply set_inv_step; [done|done|rewrite Hm; apply Hg|by rewrite Hm|unfold main_st; rewrite Hm; exact (si_mphase _ _ _ Hg _ _ Htag)| |done].
      exists []. rewrite Ht, Hm. cbn. rewrite app_nil_r. split; [|done]. eapply (undrained g idx); [by rewrite Hst|done|done|by apply (si_mevs _ _ _ Hg)]. }
  rewrite <- (same_rows rows idx r Hr). eapply agg_inv_step; [done|done|done|by rewrite Hmo; apply Hinv|done|cbn [pstate tag]; unfold has_distinct; rewrite Hd; apply Hsync'|done| |].
  - by rewrite (same_rows rows idx r Hr).
  - split; cbn; [by rewrite <- Hms|done|done|by right].
Qed.

Lemma main_op_set st t' g m coll' :
  set_inv tags rows g -> op_step st (s_table g) (s_main g) m -> main_phase t' (phase st) ->
  main_events (mkGSet (s_table g) m coll') idx t' r (evs_at idx (s_main g)) -> Forall2 (coll_step tags idx t' r) (s_coll g) coll' ->
  (forall q t, tags !! q = Some t -> q <> idx -> scanned_tag t = false) ->
  set_kept tags idx g (mkGSet (s_table g) m coll') /\ set_inv (<[idx := t']> tags) rows (mkGSet (s_table g) m coll').
Proof.
  intros Hg Hm Hph Hevs Hcs Hno. destruct (op_step_at _ _ _ _ (si_main _ _ _ Hg) Hm) as (Hk & Hst & Hev). split.
  - split; cbn; [done|done|eapply Forall2_impl; [exact Hcs|]; by intros ? ? [? _ ? _ _ _]|by left].
  - rewrite <- (same_rows rows idx r Hr). eapply set_inv_step; cbn; [done|done|by destruct Hm as (? & _ & ?)|done| |by rewrite Hev|done].
    unfold main_st. cbn. by rewrite Hst.
Qed.

Lemma agg_step_finalize inner :
  pstate p = Aggregating inner -> pinput p = [] -> has_distinct = false ->
  exists sh' st' sets', finalize_aggregating batch_size plan (shared s) inner = Ok (sh', st') /\ become sh' st' sets'.
Proof.
  intros Hst Hin Hd. destruct part_at as [Hstate Hinput Hcols Hdone]. rewrite Hst in Hstate. destruct Hstate as [-> Hem].
  pose proof tag_at as Htag. rewrite Hst in Htag. cbn in Htag. pose proof (in_sync _ _ _ Hinv) as Hsync. rewrite Hd in Hsync.
  destruct flush_collections as (sets1 & Hrun & HR); [by rewrite Hst|]. unfold finalize_aggregating. cbn [local_distinct local_states inner_of].
  rewrite (bind_ok _ _ _ Hrun). assert ((length (sel_distinct plan) =? 0) = true) as -> by by apply negb_false_iff.
  destruct (sync_finalize _ _ _ Hsync Htag) as (c & wk & Hcount & Hsync'). rewrite (bind_ok _ _ _ Hcount).
  assert (main_op <$> sets1 = main_op <$> sets /\ main_st idx <$> sets1 = main_st idx <$> sets /\ s_table <$> sets1 = s_table <$> sets) as (Hmo & Hms & Htabs).
  { split_and!; apply fmap_same; (eapply Forall2_impl; [exact HR|]); intros g g1 (H1 & H2 & _); unfold main_op, main_st; by rewrite ?H1, ?H2. }
  rewrite (in_states _ _ _ Hinv), <- Hmo, <- Hms. destruct (flush_mains sets1) as (sets2 & Hrun2 & HR2).
  { rewrite Htabs. apply Hinv. }
  { apply Forall_forall. intros g1 Hg1. destruct (forall2_elem_r _ _ _ _ HR Hg1) as (g & Hg & Ht & Hm & _). unfold main_st. rewrite Ht, Hm.
    pose proof (set_at_inv g Hg) as Hgi. split; [apply Hgi|exact (si_mphase _ _ _ Hgi _ _ Htag)]. }
  rewrite (bind_ok _ _ _ Hrun2). eexists _, _, sets2. split; [done|]. split; [rewrite Hst; cbn; lia|].
  assert (Forall2 (fun g g' => exists m coll', g' = mkGSet (s_table g) m coll' /\ op_step (MergeReady idx) (s_table g) (s_main g) m
    /\ Forall2 (coll_op_step (MergeReady idx)) (s_coll g) coll') sets sets2) as HR'.
  { eapply Forall2_trans; [|exact HR|exact HR2]. intros g g1 g2 (Ht & Hm & Hc) (m & -> & Hop'). exists m, (s_coll g1). rewrite Ht in *. by rewrite Hm in Hop'. }
  edestruct (sets_step tags rows (<[idx := TMerging false]> tags) rows idx sets sets2 (in_sets _ _ _ Hinv) HR') as [Hkept Hsets'].
  { intros g g' Hg (m & coll' & -> & Hm & Hc). rewrite (coll_empty g (si_static _ _ _ Hg) Hd) in Hc. inversion Hc; subst.
    eapply main_op_set; [done|done|done| |by rewrite (coll_empty g (si_static _ _ _ Hg) Hd); constructor|].
    - exists []. cbn. rewrite app_nil_r. split; [|constructor]. eapply (undrained g idx); [by rewrite Hst|done|done|by apply (si_mevs _ _ _ Hg)].
    - intros q t Hq _. exact (not_scanned _ _ _ _ _ _ _ Hsync Htag eq_refl Hq). }
  assert (coll_ops <$> sets1 = coll_ops <$> sets2 /\ coll_sts idx <$> sets1 = coll_sts idx <$> sets2) as [Hco Hcs].
  { split; symmetry; apply fmap_same; (eapply Forall2_impl; [exact HR2|]); by intros g1 g2 (g' & -> & _). }
  rewrite <- (same_rows rows idx r Hr). eapply agg_inv_step; [done|done|done|done|exact Hco|cbn [pstate tag]; rewrite Hd; apply Hsync'|done| |].
  - by rewrite (same_rows rows idx r Hr).
  - split; cbn; [by rewrite Hcs|done|done|by right].
Qed.

(** A partition that passed its check. *)
Lemma step_ready st' :
  waiting_tag (tag (pstate p)) = true -> tag st' = ready_tag (tag (pstate p)) -> waits_for (tag (pstate p)) tags = 0 -> part_state sets idx st' (emitted p) -> pinput p = [] ->
  become (shared s) st' sets.
Proof.
  intros Hwait Ht Hw Hst Hin. split; [rewrite Ht; revert Hwait; destruct (tag (pstate p)) as [|[]|[]|[]|[]|]; cbn; intros; done || lia|].
  rewrite <- (same_rows rows idx r Hr). destruct part_at as [_ Hinput Hcols _].
  edestruct (sets_step (SR := eq) tags rows (<[idx := tag st']> tags) (<[idx := r]> rows) idx sets sets (in_sets _ _ _ Hinv)) as [Hkept Hsets'].
  { by apply Forall_Forall2_diag, Forall_forall. }
  { intros g g' Hg <-. split.
    - split; [done|done| |by right]. apply Forall_Forall2_diag, Forall_forall. done.
    - eapply set_inv_step; [done|done|apply Hg|done| | |].
      + pose proof (si_mphase _ _ _ Hg _ _ tag_at) as Hph. rewrite Ht. destruct (tag (pstate p)) as [| | | |[]|]; cbn in *; lia || done.
      + pose proof (si_mevs _ _ _ Hg _ _ _ tag_at Hr) as Hev. unfold main_events in *. rewrite Ht. by destruct (tag (pstate p)).
      + eapply coll_same; [exact tag_at|done|done|]. intros k. rewrite Ht. by destruct (tag (pstate p)). }
  eapply agg_inv_step; [done|done|done|apply Hinv|apply Hinv| |done|done|].
  - cbn [pstate]. rewrite Ht. apply sync_ready; [apply Hinv|apply tag_at|done].
  - split; cbn; [done|done|done|by right].
Qed.

Lemma phases_from (f : Tag -> nat) (P : Tag -> nat -> Prop) k (st : nat -> nat) :
  total f tags = 0 -> (forall t j, f t = 0 -> P t j -> k <= j) -> (forall q t, tags !! q = Some t -> P t (st q)) -> forall q, q < n -> k <= st q.
Proof.
  intros Hz HP Hst q Hq. destruct (lookup_lt_is_Some_2 tags q) as [t Ht]; [by rewrite tags_len|]. eapply HP; [|by apply Hst]. by eapply total_zero.
Qed.

Lemma step_merging_distinct inner :
  pstate p = MergingDistinct true inner ->
  exists sh' st' sets', execute_merging_distinct plan (shared s) inner = Ok (sh', st') /\ become sh' st' sets'.
Proof.
  intros Hst. destruct part_at as [Hstate Hinput Hcols Hdone]. rewrite Hst in Hstate, Hdone. destruct Hstate as [-> Hem].
  destruct Hdone as [|Hin]; [done|]. pose proof tag_at as Htag. rewrite Hst in Htag. cbn in Htag.
  pose proof (in_sync _ _ _ Hinv) as Hsync. destruct (sync_tags _ _ _ Hsync _ _ Htag) as [Hd Hz]. specialize (Hz eq_refl). rewrite Hd in Hsync.
  unfold execute_merging_distinct. cbn [local_distinct local_states inner_of]. rewrite (in_distinct _ _ _ Hinv).
  destruct (each_distinct_map merge_global plan idx sets (fun g dt dg dg' => op_step (ScanReady idx) (distinct_table dt) dg dg')) as (sets' & Hrun & HR); [apply Hinv| |].
  { intros g dt dg Hg Hdg. destruct (coll_at g dt dg (set_at_inv g Hg) Hdg) as ([C HC] & Hok & Hph & _).
    destruct (ghost_merge (distinct_table dt) dg idx Hok idx_lt) as (o & Hrun & Hok').
    - rewrite (do_form _ _ _ HC). constructor.
    - exact (Hph _ _ Htag).
    - eapply (phases_from in_normal distinct_phase); [done| |done]. by intros [] j; cbn; intros; lia.
    - exists (set_at idx o (ScanReady idx) (evs_at idx dg) dg). rewrite (proj1 (set_at_same _ _ _ Hok idx_lt _ _ _)). split; [done|]. by exists o. }
  rewrite (bind_ok _ _ _ Hrun). destruct (sync_merging_distinct _ _ _ Hsync Htag) as (c & wk & Hcount & Hsync'). rewrite (bind_ok _ _ _ Hcount).
  assert (main_op <$> sets' = main_op <$> sets /\ main_st idx <$> sets' = main_st idx <$> sets) as [Hmo Hms].
  { split; apply fmap_same; (eapply Forall2_impl; [exact HR|]); intros g g1 (_ & H2 & _); unfold main_op, main_st; by rewrite H2. }
  eexists _, _, sets'. split; [done|]. split; [rewrite Hst; cbn; lia|]. edestruct (sets_step tags rows (<[idx := TAggregatingDistinct false]> tags) rows idx sets sets' (in_sets _ _ _ Hinv) HR) as [Hkept Hsets'].
  { intros g g' Hg (Ht & Hm & Hc).
    assert (Forall2 (coll_step tags idx (TAggregatingDistinct false) r) (s_coll g) (s_coll g')) as Hcs.
    { eapply coll_op_steps; [done|done|done|]. intros q t Hq _. exact (not_drained _ _ _ _ _ _ Hsync Htag eq_refl Hq). }
    split.
    - split; [done|by rewrite Hm|eapply Forall2_impl; [exact Hcs|]; by intros ? ? [? _ ? _ _ _]|right; by rewrite Hm].
    - rewrite <- (same_rows rows idx r Hr). eapply set_inv_step; [done|done|rewrite Hm; apply Hg|by rewrite Hm|unfold main_st; rewrite Hm; exact (si_mphase _ _ _ Hg _ _ Htag)| |done].
      rewrite Hm. destruct (si_mevs _ _ _ Hg _ _ _ Htag Hr) as (dess & -> & ->). exists []. by rewrite Ht. }
  rewrite <- (same_rows rows idx r Hr). eapply agg_inv_step; [done|done|done|rewrite Hmo; apply Hinv|done|cbn [pstate tag]; rewrite Hd; apply Hsync'|done| |].
  - by rewrite (same_rows rows idx r Hr).
  - split; cbn; [by rewrite <- Hms|done|done|by right].
Qed.

Lemma step_merging inner :
  pstate p = Merging true inner ->
  exists sh' st' sets', execute_merging plan (shared s) inner = Ok (sh', st') /\ become sh' st' sets'.
Proof.
  intros Hst. destruct part_at as [Hstate Hinput Hcols Hdone]. rewrite Hst in Hstate, Hdone. destruct Hstate as [-> Hem].
  destruct Hdone as [|Hin]; [done|]. pose proof tag_at as Htag. rewrite Hst in Htag. cbn in Htag.
  pose proof (in_sync _ _ _ Hinv) as Hsync. destruct (sync_tags _ _ _ Hsync _ _ Htag) as [_ Hz]. specialize (Hz eq_refl).
  unfold execute_merging. cbn [local_distinct local_states inner_of]. rewrite (in_states _ _ _ Hinv).
  destruct (each_main_map merge_global plan idx sets (fun g m => op_step (ScanReady idx) (s_table g) (s_main g) m)) as (sets' & Hrun & HR); [apply Hinv| |].
  { intros g Hg. pose proof (set_at_inv g Hg) as Hgi. pose proof (si_main _ _ _ Hgi) as Hok. destruct (ghost_merge (s_table g) (s_main g) idx Hok idx_lt) as (o & Hrun & Hok').
    - rewrite (ss_layout _ (si_static _ _ _ Hgi)). apply Forall_fmap, Hop.
    - exact (si_mphase _ _ _ Hgi _ _ Htag).
    - eapply (phases_from in_aggregation main_phase); [done| |apply Hgi]. by intros [| | | |[]|] j; cbn; intros; lia.
    - exists (set_at idx o (ScanReady idx) (evs_at idx (s_main g)) (s_main g)). rewrite (proj1 (set_at_same _ _ _ Hok idx_lt _ _ _)). split; [done|]. by exists o. }
  rewrite (bind_ok _ _ _ Hrun). destruct (sync_merging _ _ _ _ Hsync Htag) as (c & wk & Hcount & Hsync'). rewrite (bind_ok _ _ _ Hcount).
  eexists _, _, sets'. split; [done|]. split; [rewrite Hst; cbn; lia|]. edestruct (sets_step tags rows (<[idx := TScanning false]> tags) rows idx sets sets' (in_sets _ _ _ Hinv) HR) as [Hkept Hsets'].
  { intros g g' Hg (m & -> & Hm). eapply main_op_set; [done|done|done| | |].
    - destruct (si_mevs _ _ _ Hg _ _ _ Htag Hr) as (dess & -> & Hdess). exists dess. split; [done|]. cbn in *. exact Hdess.
    - eapply coll_same; [exact Htag|done|done|]. done.
    - intros q t Hq _. exact (not_scanned _ _ _ _ _ _ _ Hsync Htag eq_refl Hq). }
  assert (coll_ops <$> sets' = coll_ops <$> sets) as Hco.
  { apply fmap_same. eapply Forall2_impl; [exact HR|]. by intros g1 g2 (g' & -> & _). }
  rewrite <- (same_rows rows idx r Hr). eapply agg_inv_step; [done|done|done|done|rewrite Hco; apply Hinv|apply Hsync'|done| |].
  - by rewrite (same_rows rows idx r Hr).
  - split; cbn; [|done|done|by right]. split; [|done]. by rewrite length_fmap.
Qed.

(** The tables of distinct inputs once all partitions have merged them. *)
Section Merged.
Variables (g : GSet) (dt : DistinctTable V St) (dg : Ghost).
Hypothesis Hg : set_inv tags rows g.
Hypothesis Hdg : (dt, dg) ∈ s_coll g.
Hypothesis Hz : total in_distinct_merge tags = 0.

Lemma distinct_merged q : q < n -> 2 <= phase (st_at q dg).
Proof.
  destruct (coll_at g dt dg Hg Hdg) as (_ & _ & Hph & _). revert q. eapply (phases_from in_distinct_merge distinct_phase); [done| |done]. by intros [] j; cbn; intros; lia.
Qed.

Lemma distinct_evss : g_evss dg = fmap (M:=list) (fun r0 : list Row => row_event (distinct_table dt) [] <$> r0) rows.
Proof.
  destruct (coll_at g dt dg Hg Hdg) as (_ & Hok & _ & Hevs). apply list_eq_same_length with (n := n); [by rewrite length_fmap; apply Hinv|apply Hok|].
  intros q x y Hq Hx Hy. rewrite list_lookup_fmap in Hy. destruct (rows !! q) as [r0|] eqn:Hr0; [|done]. injection Hy as <-. rewrite <- (Hevs q r0 Hr0).
  symmetry. by apply list_lookup_total_correct.
Qed.

Lemma distinct_result : NoDup (group <$> concat (data <$> finals dg))
  /\ forall key, key ∈ (group <$> concat (data <$> finals dg)) <-> key ∈ (group_key (distinct_table dt) <$> concat rows).
Proof.
  destruct (coll_at g dt dg Hg Hdg) as (_ & Hok & _ & _). destruct (ghost_result (distinct_table dt) dg Hok distinct_merged) as [Hnd Hgr _].
  split; [done|]. intros key. rewrite Hgr, distinct_evss. by rewrite <- fmap_concat, <- list_fmap_compose.
Qed.

Lemma distinct_shares : sum_list_with (fun q => length (share n (finals dg) q)) (seq 0 n) <= length (concat rows).
Proof.
  destruct (coll_at g dt dg Hg Hdg) as (_ & Hok & _ & _). rewrite sum_concat, (ghost_shares (distinct_table dt) dg Hok distinct_merged).
  destruct distinct_result as [Hnd Hgr]. rewrite <- (length_fmap group). rewrite <- (length_fmap (group_key (distinct_table dt)) (concat rows)).
  apply submseteq_length, NoDup_submseteq; [done|]. intros key. apply Hgr.
Qed.

Lemma share_elem q row : q < n -> row ∈ share n (finals dg) q -> row ∈ concat (data <$> finals dg).
Proof.
  intros Hq Hrow. destruct (coll_at g dt dg Hg Hdg) as (_ & Hok & _ & _). rewrite <- (ghost_shares (distinct_table dt) dg Hok distinct_merged).
  apply list_elem_of_In, in_concat. exists (share n (finals dg) q). split; [|by apply list_elem_of_In]. apply list_elem_of_In, list_elem_of_fmap_2, elem_of_seq. lia.
Qed.

Lemma drain_ready_at : tag (pstate p) = TAggregatingDistinct true ->
  drain_ready dt dg idx /\ left_at dg idx = share n (finals dg) idx /\ length (left_at dg idx) <= final_rows (g_op dg).
Proof.
  intros Ht. destruct (coll_at g dt dg Hg Hdg) as ([C HC] & Hok & Hph & Hevs). pose proof tag_at as Htag. rewrite Ht in Htag.
  assert (left_at dg idx = share n (finals dg) idx) as Hleft.
  { specialize (Hph _ _ Htag). cbn in Hph. unfold left_at. by destruct (st_at idx dg). }
  split_and!; [split|done|].
  - done.
  - exact distinct_merged.
  - rewrite distinct_evss. intros ev Hev. apply list_elem_of_In, in_concat in Hev as (l & Hl & Hev). apply list_elem_of_In, list_elem_of_fmap in Hl as (r0 & -> & _).
    apply list_elem_of_In, list_elem_of_fmap in Hev as (row & -> & _). cbn. by eexists.
  - rewrite Hleft. apply Forall_forall. intros row Hrow. apply (share_elem _ _ idx_lt) in Hrow. destruct distinct_result as [_ Hgr].
    apply (list_elem_of_fmap_2 group), Hgr, list_elem_of_fmap in Hrow as (row0 & -> & _). rewrite length_group_key, (do_form _ _ _ HC). apply length_seq.
  - rewrite Hleft. destruct (ghost_finals (distinct_table dt) dg Hok distinct_merged) as (Hf & _). rewrite (final_rows_data _ _ Hf).
    rewrite <- (ghost_shares (distinct_table dt) dg Hok distinct_merged), <- sum_concat.
    apply (sum_elem (fun q => length (share n (finals dg) q))), elem_of_seq. pose proof idx_lt. lia.
Qed.

End Merged.

Lemma sum_bound {A} (f : A -> nat) l m : (forall a, a ∈ l -> f a <= m) -> sum_list_with f l <= length l * m.
Proof.
  induction l as [|a l IH]; intros Hf; [done|]. cbn. pose proof (Hf a (list_elem_of_here a l)). specialize (IH (fun b Hb => Hf b (list_elem_of_further b a l Hb))). lia.
Qed.

Lemma drain_bound g evss' :
  set_inv tags rows g -> total in_distinct_merge tags = 0 -> length evss' = n ->
  (forall q (evs : list (@event V)) r0, evss' !! q = Some evs -> rows !! q = Some r0 -> length evs <= length r0 + sum_list_with (fun dg => length (share n (finals dg.2) q)) (s_coll g)) ->
  (Z.of_nat (length (concat evss')) <= 2 ^ 61)%Z.
Proof.
  intros Hg Hz Hlen Hall. pose proof rows_le as Hle.
  pose proof (concat_length_sum (fun q => sum_list_with (fun dg => length (share n (finals dg.2) q)) (s_coll g)) evss' rows 0) as Hsum.
  rewrite (in_rows _ _ _ Hinv), sum_swap in Hsum. specialize (Hsum Hlen Hall).
  pose proof (sum_bound (fun dg => sum_list_with (fun q => length (share n (finals dg.2) q)) (seq 0 n)) (s_coll g) (length (concat rows))) as Hcoll.
  assert (length (s_coll g) <= length distinct_sel) as Hc.
  { pose proof (ci_length _ _ _ _ (ss_coll _ (si_static _ _ _ Hg))) as Hc. unfold coll_dts in Hc. by rewrite length_fmap in Hc. }
  assert (sum_list_with (fun dg => sum_list_with (fun q => length (share n (finals dg.2) q)) (seq 0 n)) (s_coll g) <= length (s_coll g) * length (concat rows)) as Hcs.
  { apply Hcoll. intros [dt dg] Hdg. by eapply distinct_shares. }
  assert (length (concat evss') <= (1 + length distinct_sel) * length all_rows) as Hfin; [|lia]. nia.
Qed.

Lemma distinct_events_length g f coll dess : distinct_events g f coll dess -> length (concat dess) = sum_list_with (fun dg => length (f dg)) coll.
Proof. induction 1 as [|dg des coll dess Hd _ IH]; [done|]. cbn. rewrite length_app, IH. apply Forall2_length in Hd. by rewrite <- Hd, length_fmap. Qed.

Lemma main_events_length g q t r0 evs : main_events g q t r0 evs -> length evs <= length r0 + sum_list_with (fun dg => length (share n (finals dg.2) q)) (s_coll g).
Proof.
  intros (dess & -> & Hd). rewrite length_app, length_fmap. destruct (drained_tag t); [by rewrite (distinct_events_length _ _ _ _ Hd)|]. rewrite Hd. cbn. lia.
Qed.

Lemma drain_ready_set g : tag (pstate p) = TAggregatingDistinct true -> total in_distinct_merge tags = 0 -> set_inv tags rows g -> drain_set_ready idx g.
Proof.
  intros Ht Hz Hg. pose proof tag_at as Htag. rewrite Ht in Htag. split; [apply Hg|apply Hg|exact (si_mphase _ _ _ Hg _ _ Htag)| |].
  - apply Forall_forall. intros [dt dg] Hdg. destruct (coll_at g dt dg Hg Hdg) as (HC & _). destruct (drain_ready_at g dt dg Hg Hdg Hz Ht) as (H1 & _ & H3). done.
  - destruct (si_mevs _ _ _ Hg _ _ _ Htag Hr) as (dess & -> & Hd). cbn in Hd. subst dess. cbn. rewrite app_nil_r, length_fmap.
    assert (sum_list_with (fun dg => length (left_at dg.2 idx)) (s_coll g) = sum_list_with (fun dg => length (share n (finals dg.2) idx)) (s_coll g)) as ->.
    { assert (forall dg, dg ∈ s_coll g -> left_at dg.2 idx = share n (finals dg.2) idx) as Heq.
      { intros [dt dg] Hdg. by destruct (drain_ready_at g dt dg Hg Hdg Hz Ht) as (_ & ? & _). }
      revert Heq. generalize (s_coll g). induction l as [|dg l IH]; intros Heq; [done|]. cbn. rewrite (Heq dg) by left. f_equal. apply IH. intros. apply Heq. by right. }
    pose proof (drain_bound g (<[idx := replicate (length r + sum_list_with (fun dg => length (share n (finals dg.2) idx)) (s_coll g)) (mkEvent [] [] [])]> (replicate n []))
      Hg Hz ltac:(by rewrite length_insert, length_replicate)) as Hb.
    destruct (concat_insert (replicate n (@nil (@event V))) idx [] (replicate (length r + sum_list_with (fun dg => length (share n (finals dg.2) idx)) (s_coll g)) (mkEvent [] [] [])))
      as (rest & _ & Hperm); [apply lookup_replicate_2, idx_lt|]. rewrite Hperm, length_app, length_replicate in Hb.
    assert (forall k m, Z.of_nat (k + m) <= 2 ^ 61 -> Z.of_nat k <= 2 ^ 61)%Z as Hmono by lia. apply (Hmono _ (length rest)), Hb.
    intros q evs r0 [(-> & <- & _)|(_ & Hq)]%list_lookup_insert_Some Hr0; [rewrite length_replicate; simplify_eq; lia|]. apply lookup_replicate in Hq as [-> _]. cbn. lia.
Qed.

Lemma drained_events g dess : tag (pstate p) = TAggregatingDistinct true -> total in_distinct_merge tags = 0 -> set_inv tags rows g ->
  distinct_events g (fun dg => left_at dg.2 idx) (s_coll g) dess -> distinct_events g (fun dg => share n (finals dg.2) idx) (s_coll g) dess.
Proof.
  intros Ht Hz Hg Hd. eapply (distinct_events_ext g g); [done| |exact Hd]. apply Forall_Forall2_diag, Forall_forall. intros [dt dg] Hdg. split; [done|].
  destruct (drain_ready_at g dt dg Hg Hdg Hz Ht) as (_ & E & _). exact (eq_sym E).
Qed.

(** The aggregate table after the share of the distinct inputs. *)
Lemma drained_main g g1 : tag (pstate p) = TAggregatingDistinct true -> total in_distinct_merge tags = 0 -> set_inv tags rows g -> drain_set idx g g1 ->
  g_ok (s_table g) (s_main g1) /\ phase (main_st idx g1) = 0.
Proof.
  intros Ht Hz Hg (coll' & st' & dess & -> & _ & Hb & Hd). cbn [s_main]. pose proof (si_main _ _ _ Hg) as Hok. pose proof tag_at as Htag. rewrite Ht in Htag.
  apply (drained_events g dess Ht Hz Hg) in Hd. destruct (si_mevs _ _ _ Hg _ _ _ Htag Hr) as (dess0 & Hevs & Hd0). cbn in Hd0. subst dess0.
  split.
  - apply ghost_insert; [done|exact idx_lt|exact (si_mphase _ _ _ Hg _ _ Htag)|done|]. apply (drain_bound g); [done|done|rewrite length_insert; apply Hok|].
    intros q evs r0 Hq Hr0. apply list_lookup_insert_Some in Hq as [(-> & <- & _)|(_ & Hq)].
    + rewrite length_app, Hevs, (distinct_events_length _ _ _ _ Hd). cbn. rewrite app_nil_r, length_fmap. by simplify_eq.
    + destruct (lookup_lt_is_Some_2 tags q) as [t Hqt]; [rewrite tags_len, <- (in_rows _ _ _ Hinv); by eapply lookup_lt_Some|].
      pose proof (si_mevs _ _ _ Hg q t r0 Hqt Hr0) as Hme. unfold evs_at in Hme. rewrite (list_lookup_total_correct _ _ _ Hq) in Hme. by eapply main_events_length.
  - unfold main_st. cbn [s_main]. rewrite (proj1 (set_at_same _ _ _ Hok idx_lt _ _ _)). by eapply phase_build.
Qed.

Lemma drained_colls g coll' : set_inv tags rows g -> Forall2 (drained_from idx) (s_coll g) coll' ->
  Forall2 (coll_step tags idx (TMerging false) r) (s_coll g) coll' /\ Forall2 (fun dg dg' => dg'.1 = dg.1 /\ finals dg'.2 = finals dg.2) (s_coll g) coll'.
Proof.
  intros Hg Hc. split; eapply forall2_impl_elem; [exact Hc| |exact Hc|].
  - intros [dt dg] dg' Hdg (sd & -> & Hph & Hok'). destruct (coll_at g dt dg Hg Hdg) as (_ & Hok & _ & Hevs). cbn [fst snd] in *.
    destruct (set_at_same _ _ _ Hok idx_lt (g_op dg) sd (evs_at idx dg)) as [E1 E2].
    split; cbn [fst snd]; [done|done|apply set_at_kept|by rewrite E1|by rewrite E2, (Hevs _ _ Hr)|by right].
  - by intros [dt dg] dg' Hdg (sd & -> & _ & _).
Qed.

Lemma step_aggregating_distinct inner :
  pstate p = AggregatingDistinct true inner ->
  exists sh' st' sets', execute_aggregating_distinct hash_one int64_value blank batch_size plan (shared s) inner = Ok (sh', st') /\ become sh' st' sets'.
Proof.
  intros Hst. destruct part_at as [Hstate Hinput Hcols Hdone]. rewrite Hst in Hstate, Hdone. destruct Hstate as [-> Hem].
  destruct Hdone as [|Hin]; [done|]. pose proof tag_at as Htag. rewrite Hst in Htag. cbn in Htag. assert (tag (pstate p) = TAggregatingDistinct true) as Ht by by rewrite Hst.
  pose proof (in_sync _ _ _ Hinv) as Hsync. destruct (sync_tags _ _ _ Hsync _ _ Htag) as (Hd & _ & Hz). specialize (Hz eq_refl). rewrite Hd in Hsync.
  unfold execute_aggregating_distinct. cbn [local_distinct local_states inner_of].
  rewrite (in_distinct _ _ _ Hinv), (in_states _ _ _ Hinv), (in_collections _ _ _ Hinv), (po_distinct _ _ Hplan).
  destruct (drain_collections_spec idx sets idx_lt) as (sets1 & Hrun1 & HR1).
  { eapply Forall_impl; [apply Hinv|]. intros g Hg. by apply drain_ready_set. }
  rewrite (in_tables _ _ _ Hinv), (bind_ok _ _ _ Hrun1).
  assert (main_op <$> sets1 = main_op <$> sets /\ s_table <$> sets1 = s_table <$> sets) as (Hmo & Htabs).
  { split_and!; apply fmap_same; (eapply Forall2_impl; [exact HR1|]); by intros g g1 (coll' & st' & dess & -> & _). }
  rewrite <- Hmo, <- (in_tables _ _ _ Hinv). destruct (flush_mains sets1) as (sets2 & Hrun2 & HR2).
  { rewrite Htabs. apply Hinv. }
  { apply Forall_forall. intros g1 Hg1. destruct (forall2_elem_r _ _ _ _ HR1 Hg1) as (g & Hg & Hds).
    assert (s_table g1 = s_table g) as -> by by destruct Hds as (coll' & st' & dess & -> & _). by apply drained_main, Hds; [| |apply set_at_inv]. }
  rewrite (bind_ok _ _ _ Hrun2). destruct (sync_aggregating_distinct _ _ _ Hsync Htag) as (c & wk & Hcount & Hsync'). rewrite (bind_ok _ _ _ Hcount).
  eexists _, _, sets2. split; [done|]. split; [rewrite Hst; cbn; lia|].
  assert (Forall2 (fun g g2 => exists m g1, g2 = mkGSet (s_table g) m (s_coll g1) /\ drain_set idx g g1 /\ op_step (MergeReady idx) (s_table g) (s_main g1) m) sets sets2) as HR.
  { eapply Forall2_trans; [|exact HR1|exact HR2]. intros g g1 g2 Hds (m & -> & Hm). exists m, g1.
    assert (s_table g1 = s_table g) as Hts by by destruct Hds as (coll' & st' & dess & -> & _). by rewrite Hts in *. }
  edestruct (sets_step tags rows (<[idx := TMerging false]> tags) rows idx sets sets2 (in_sets _ _ _ Hinv) HR) as [Hkept Hsets'].
  { intros g g2 Hg (m & g1 & -> & Hds & Hm). destruct (drained_main g g1 Ht Hz Hg Hds) as [Hok1 Hph1]. pose proof Hds as (coll' & st' & dess & -> & Hfrom & Hb & Hev). cbn [s_main s_coll] in *.
    destruct (drained_colls g coll' Hg Hfrom) as [Hcs Hfin]. apply (drained_events g dess Ht Hz Hg) in Hev.
    destruct (op_step_at _ _ _ _ Hok1 Hm) as (Hk & Hst' & Hevs'). rewrite (proj2 (set_at_same _ _ _ (si_main _ _ _ Hg) idx_lt _ _ _)) in Hevs'.
    assert (kept idx (s_main g) m) as Hkm by (intros q Hq; destruct (Hk q Hq) as [-> ->]; by apply set_at_kept).
    split.
    - split; cbn; [done|done|eapply Forall2_impl; [exact Hcs|]; by intros ? ? [? _ ? _ _ _]|left].
      intros q t Hq _. exact (not_scanned _ _ _ _ _ _ _ Hsync Htag eq_refl Hq).
    - rewrite <- (same_rows rows idx r Hr). eapply set_inv_step; cbn; [done|done|by destruct Hm as (? & _ & ?)|done|unfold main_st; cbn; by rewrite Hst'| |done].
      rewrite Hevs'. destruct (si_mevs _ _ _ Hg _ _ _ Htag Hr) as (dess0 & -> & Hd0). cbn in Hd0. subst dess0. cbn [concat]. rewrite app_nil_r.
      exists dess. split; [done|]. cbn. eapply (distinct_events_ext g); [done| |exact Hev]. eapply Forall2_impl; [exact Hfin|]. cbn. by intros dg dg' [-> ->]. }
  assert (coll_ops <$> sets2 = coll_ops <$> sets /\ coll_sts idx <$> sets1 = coll_sts idx <$> sets2) as [Hco Hcs].
  { split.
    - apply fmap_same. eapply Forall2_impl; [exact HR|]. intros g g2 (m & g1 & -> & (coll' & st' & dess & -> & Hfrom & _) & _). unfold coll_ops. cbn. apply fmap_same.
      eapply Forall2_impl; [exact Hfrom|]. by intros dg dg' (sd & -> & _).
    - symmetry. apply fmap_same. eapply Forall2_impl; [exact HR2|]. by intros g1 g2 (m & -> & _). }
  rewrite <- (same_rows rows idx r Hr). eapply agg_inv_step; [done|done|done|done|by rewrite Hco|cbn [pstate tag]; rewrite Hd; apply Hsync'|done| |].
  - by rewrite (same_rows rows idx r Hr).
  - split; cbn; [by rewrite Hcs|done|done|by right].
Qed.

(** *** Scanning *)

(** The keys of an aggregate table. *)
Lemma main_keys g ev : total in_distinct_merge tags = 0 -> set_inv tags rows g -> ev ∈ concat (g_evss (s_main g)) ->
  exists row, row ∈ concat rows /\ ev_key ev = group_key (s_table g) row.
Proof.
  intros Hz Hg Hev. apply list_elem_of_In, in_concat in Hev as (evs & Hevs & Hev). apply list_elem_of_In, list_elem_of_lookup_1 in Hevs as [q Hq].
  apply list_elem_of_In in Hev. assert (q < n) as Hqn by (rewrite <- (ti_evss _ _ _ _ _ _ _ (si_main _ _ _ Hg)); by eapply lookup_lt_Some).
  destruct (lookup_lt_is_Some_2 tags q) as [t Ht]; [by rewrite tags_len|]. destruct (lookup_lt_is_Some_2 rows q) as [r0 Hr0]; [by rewrite (in_rows _ _ _ Hinv)|].
  destruct (si_mevs _ _ _ Hg q t r0 Ht Hr0) as (dess & Heq & Hdess). unfold evs_at in Heq. rewrite (list_lookup_total_correct _ _ _ Hq) in Heq. subst evs.
  apply elem_of_app in Hev as [(row & -> & Hrow)%list_elem_of_fmap|Hev].
  { exists row. split; [|done]. apply list_elem_of_In, in_concat. exists r0. split; [apply list_elem_of_In; by eapply list_elem_of_lookup_2|by apply list_elem_of_In]. }
  destruct (drained_tag t); [|by subst dess; apply not_elem_of_nil in Hev].
  apply list_elem_of_In, in_concat in Hev as (des & Hdes & Hev). apply list_elem_of_In in Hdes, Hev. unfold distinct_events in Hdess.
  destruct (forall2_elem_r _ _ _ _ Hdess Hdes) as ([dt dg] & Hdg & Hds). cbn [fst snd] in Hds. destruct (forall2_elem_r _ _ _ _ Hds Hev) as (key & Hkey & Hkev & _).
  apply list_elem_of_fmap in Hkey as (grow & -> & Hgrow). apply (share_elem g dt dg Hg Hdg Hz q grow Hqn) in Hgrow.
  destruct (distinct_result g dt dg Hg Hdg Hz) as [_ Hgr]. apply (list_elem_of_fmap_2 group), Hgr, list_elem_of_fmap in Hgrow as (row & Hkrow & Hrow).
  exists row. split; [done|]. destruct (coll_at g dt dg Hg Hdg) as ([C HC] & _). rewrite Hkev, Hkrow, (distinct_key g dt C row (si_static _ _ _ Hg) HC).
  apply take_app_length'. by rewrite length_group_key.
Qed.

Lemma collect_out g rws out : collect (output_row int64_value (s_table g)) rws = Ok out -> out = (out_row g <$> rws).
Proof.
  rewrite collect_Forall2. induction 1 as [|x y rws out Hx _ IH]; [done|]. rewrite fmap_cons, <- IH. unfold out_row. by rewrite Hx.
Qed.

Lemma scan_main g : total in_merge tags = 0 -> set_inv tags rows g ->
  exists sc rws, scan int64_value batch_size (s_table g) (main_op g) (main_st idx g) = Ok (Scanning sc, out_row g <$> rws)
    /\ left_at (s_main g) idx = rws ++ scanning_left sc /\ (rws = [] -> left_at (s_main g) idx = [])
    /\ g_ok (s_table g) (set_at idx (main_op g) (Scanning sc) (evs_at idx (s_main g)) (s_main g)).
Proof.
  intros Hz Hg. pose proof (distinct_le_aggregation tags). pose proof (aggregation_le_merge tags).
  destruct (ghost_scan (s_table g) (s_main g) idx (si_main _ _ _ Hg) idx_lt) as (sc & rws & out & Hrun & Hout & Hleft & Hnil & _ & Hok).
  - by apply set_facts, Hg.
  - eapply (phases_from in_merge main_phase); [done| |apply Hg]. by intros [| | | |[]|] j; cbn; intros; lia.
  - intros ev Hev. destruct (main_keys g ev ltac:(lia) Hg Hev) as (row & _ & Hkey). by eexists.
  - exists sc, rws. by rewrite <- (collect_out g rws out Hout).
Qed.

Local Abbreviation indexed := (zip (seq 0 (length sets)) (main_st idx <$> sets)).

Lemma lookup_indexed i g : sets !! i = Some g -> indexed !! i = Some (i, main_st idx g).
Proof.
  intros Hi. apply lookup_zip_with_Some. exists i, (main_st idx g). split_and!; [done| |by rewrite list_lookup_fmap, Hi]. apply lookup_seq_lt. by eapply lookup_lt_Some.
Qed.

(** Either all has been emitted, or rows of the grouping set [i] are. *)
Inductive scan_outcome : PartitionState V St -> list Row -> Prop :=
| scan_exhausted : Forall (fun g => left_at (s_main g) idx = []) sets -> scan_outcome Exhausted []
| scan_some i g sc rws : sets !! i = Some g -> rws <> [] -> left_at (s_main g) idx = rws ++ scanning_left sc ->
    Forall (fun g => left_at (s_main g) idx = []) (drop (S i) sets) ->
    g_ok (s_table g) (set_at idx (main_op g) (Scanning sc) (evs_at idx (s_main g)) (s_main g)) ->
    scan_outcome (ScanningGroups true (take i indexed ++ [(i, Scanning sc)])) (out_row g <$> rws).

Lemma scan_groups_spec fuel j : total in_merge tags = 0 -> j <= length sets -> j < fuel -> Forall (fun g => left_at (s_main g) idx = []) (drop j sets) ->
  exists st out, scan_groups int64_value batch_size fuel plan (shared s) (take j indexed) = Ok (st, out) /\ scan_outcome st out.
Proof.
  intros Hz. revert j. induction fuel as [|fuel IH]; intros j Hj Hfuel Hleft; [lia|]. cbn [scan_groups]. destruct j as [|j].
  { eexists _, _. split; [done|]. by constructor. }
  destruct (lookup_lt_is_Some_2 sets j) as [g Hg]; [lia|]. rewrite (take_S_r _ _ _ (lookup_indexed j g Hg)), last_snoc, removelast_last.
  assert (index (tables plan) j = Ok (s_table g)) as Ht by (apply index_Ok; by rewrite (in_tables _ _ _ Hinv), list_lookup_fmap, Hg).
  assert (index (table_states (shared s)) j = Ok (main_op g)) as Ho by (apply index_Ok; by rewrite (in_states _ _ _ Hinv), list_lookup_fmap, Hg).
  rewrite (bind_ok _ _ _ Ht), (bind_ok _ _ _ Ho). assert (set_inv tags rows g) as Hgi by (apply set_at_inv; by eapply list_elem_of_lookup_2).
  destruct (scan_main g Hz Hgi) as (sc & rws & Hrun & Hl & Hnil & Hok). rewrite (bind_ok _ _ _ Hrun). rewrite length_fmap.
  destruct (Nat.eqb_spec (length rws) 0) as [Hzero|Hnz].
  - apply IH; [lia|lia|]. apply nil_length_inv in Hzero. rewrite (drop_S _ _ _ Hg). constructor; [by apply Hnil|done].
  - eexists _, _. split; [done|]. eapply scan_some; try done. by intros ->.
Qed.

Lemma forall2_insert {A} (R : A -> A -> Prop) l i x y : (forall z, z ∈ l -> R z z) -> l !! i = Some x -> R x y -> Forall2 R l (<[i := y]> l).
Proof.
  intros Hrefl Hi Hxy. apply Forall2_same_length_lookup_2; [by rewrite length_insert|]. intros j a b Ha Hb.
  apply list_lookup_insert_Some in Hb as [(-> & <- & _)|(_ & Hb)]; simplify_eq; [done|]. apply Hrefl. by eapply list_elem_of_lookup_2.
Qed.

Lemma take_zip {A B} i (l : list A) (k : list B) : take i (zip l k) = zip (take i l) (take i k).
Proof. revert l k. induction i as [|i IH]; intros [|a l] [|b k]; cbn; try done. f_equal. apply IH. Qed.

Lemma length_indexed : length indexed = length sets.
Proof. rewrite length_zip_with, length_seq, length_fmap. lia. Qed.

(** The grouping set [i] after a scan. *)
Definition scan_set (sc : LocalScanningState V St) (g : GSet) : GSet :=
  mkGSet (s_table g) (set_at idx (main_op g) (Scanning sc) (evs_at idx (s_main g)) (s_main g)) (s_coll g).

Lemma scan_set_at sc g : set_inv tags rows g ->
  main_st idx (scan_set sc g) = Scanning sc /\ left_at (s_main (scan_set sc g)) idx = scanning_left sc
  /\ left_rows idx (scan_set sc g) = (out_row g <$> scanning_left sc) /\ share_rows idx (scan_set sc g) = share_rows idx g.
Proof.
  intros Hg. destruct (set_at_same _ _ _ (si_main _ _ _ Hg) idx_lt (main_op g) (Scanning sc) (evs_at idx (s_main g))) as [E1 _].
  assert (left_at (s_main (scan_set sc g)) idx = scanning_left sc) as Hl by (unfold left_at, scan_set; cbn [s_main]; by rewrite E1).
  split_and!; [exact E1|exact Hl|unfold left_rows; by rewrite Hl|done].
Qed.

Lemma scan_some_inv i g sc rws em :
  tag (pstate p) = TScanning true -> pinput p = [] -> sets !! i = Some g -> left_at (s_main g) idx = rws ++ scanning_left sc ->
  Forall (fun g => left_at (s_main g) idx = []) (drop (S i) sets) ->
  g_ok (s_table g) (set_at idx (main_op g) (Scanning sc) (evs_at idx (s_main g)) (s_main g)) ->
  em ++ concat (left_rows idx <$> sets) ≡ₚ concat (share_rows idx <$> sets) ->
  inv (<[i := scan_set sc g]> sets) rows (mkSystem (shared s)
    (<[idx := mkPartition (ScanningGroups true (take i indexed ++ [(i, Scanning sc)])) (pinput p) (em ++ (out_row g <$> rws))]> (partitions s))).
Proof.
  intros Ht Hin Hi Hleft Hdrop Hok Hem. pose proof tag_at as Htag. rewrite Ht in Htag. assert (set_inv tags rows g) as Hg by (apply set_at_inv; by eapply list_elem_of_lookup_2).
  destruct (scan_set_at sc g Hg) as (E1 & E2 & E3 & E4). destruct part_at as [_ Hinput Hcols _].
  set (g' := scan_set sc g) in *. edestruct (sets_step (SR := fun x y => x = y \/ (x = g /\ y = g')) tags rows (<[idx := TScanning true]> tags) (<[idx := r]> rows) idx sets (<[i := g']> sets) (in_sets _ _ _ Hinv)) as [Hkept Hsets'].
  { apply (forall2_insert _ sets i g g'); [by left|done|by right]. }
  { intros x y Hx [<-|[-> ->]].
    - split; [split; [done|done|apply Forall_Forall2_diag, Forall_forall; done|by right]|]. by rewrite (same_rows rows idx r Hr), list_insert_id.
    - split; [split; cbn; [done|apply set_at_kept|apply Forall_Forall2_diag, Forall_forall; done|by right]|].
      eapply set_inv_step; [done|done|done|apply set_at_kept|rewrite E1; cbn; lia| |change (s_coll g') with (s_coll g); by eapply coll_same].
      unfold g', scan_set. cbn [s_main]. rewrite (proj2 (set_at_same _ _ _ (si_main _ _ _ Hg) idx_lt _ _ _)).
      exact (si_mevs _ _ _ Hg _ _ _ Htag Hr). }
  rewrite <- (same_rows rows idx r Hr). eapply agg_inv_step; [done|done|done| | | |done|done|].
  - rewrite list_fmap_insert, list_insert_id; [apply Hinv|]. by rewrite list_lookup_fmap, Hi.
  - rewrite list_fmap_insert, list_insert_id; [apply Hinv|]. by rewrite list_lookup_fmap, Hi.
  - cbn [pstate tag]. rewrite list_insert_id by done. apply Hinv.
  - pose proof (lookup_lt_Some _ _ _ Hi) as Hlt. split; cbn; [|done|done|by right]. exists (S i). rewrite length_insert. split_and!; [lia| | |].
    + rewrite list_fmap_insert, E1. rewrite (take_S_r _ i (i, Scanning sc)).
      * f_equal. by rewrite !take_zip, take_insert_ge.
      * apply lookup_zip_with_Some. exists i, (Scanning sc). split_and!; [done|by apply lookup_seq_lt|]. by rewrite list_lookup_insert_eq by by rewrite length_fmap.
    + by rewrite drop_insert_lt by lia.
    + rewrite !list_fmap_insert, E4, (list_insert_id (share_rows idx <$> sets)) by by rewrite list_lookup_fmap, Hi.
      destruct (concat_insert (left_rows idx <$> sets) i (left_rows idx g) (left_rows idx g')) as (rest & H1 & H2); [by rewrite list_lookup_fmap, Hi|].
      rewrite H2, <- Hem, H1, E3. unfold left_rows. rewrite Hleft, fmap_app. by rewrite <- !app_assoc.
Qed.

Lemma scan_exhausted_inv em :
  tag (pstate p) = TScanning true -> pinput p = [] -> Forall (fun g => left_at (s_main g) idx = []) sets ->
  em ++ concat (left_rows idx <$> sets) ≡ₚ concat (share_rows idx <$> sets) ->
  inv sets rows (mkSystem (shared s) (<[idx := mkPartition Exhausted (pinput p) em]> (partitions s))).
Proof.
  intros Ht Hin Hall Hem. pose proof tag_at as Htag. rewrite Ht in Htag. destruct part_at as [_ Hinput Hcols _].
  edestruct (sets_step (SR := eq) tags rows (<[idx := TExhausted]> tags) (<[idx := r]> rows) idx sets sets (in_sets _ _ _ Hinv)) as [Hkept Hsets'].
  { by apply Forall_Forall2_diag, Forall_forall. }
  { intros g g' Hg <-. split; [split; [done|done|apply Forall_Forall2_diag, Forall_forall; done|by right]|].
    eapply set_inv_step; [done|done|apply Hg|done|exact (si_mphase _ _ _ Hg _ _ Htag)|exact (si_mevs _ _ _ Hg _ _ _ Htag Hr)|by eapply coll_same]. }
  rewrite <- (same_rows rows idx r Hr). eapply agg_inv_step; [done|done|done|apply Hinv|apply Hinv|cbn [pstate tag]; apply sync_exhausted; [apply Hinv|done]|done|done|].
  split; cbn; [|done|done|by right]. assert (concat (left_rows idx <$> sets) = []) as Hnil; [|by rewrite Hnil, app_nil_r in Hem].
  clear -Hall. induction Hall as [|g l Hg _ IH]; [done|]. rewrite fmap_cons. cbn [concat]. unfold left_rows at 1. by rewrite Hg, IH.
Qed.

Lemma step_scanning states :
  pstate p = ScanningGroups true states ->
  exists st' out sets', scan_groups int64_value batch_size (S (length states)) plan (shared s) states = Ok (st', out)
    /\ (st' = Exhausted /\ out = [] \/ tag st' = TScanning true /\ 0 < length out)
    /\ inv sets' rows (mkSystem (shared s) (<[idx := mkPartition st' (pinput p) (emitted p ++ out)]> (partitions s))).
Proof.
  intros Hst. destruct part_at as [Hstate Hinput Hcols Hdone]. rewrite Hst in Hstate, Hdone. destruct Hstate as (j & Hj & -> & Hdrop & Hem).
  destruct Hdone as [|Hin]; [done|]. pose proof tag_at as Htag. rewrite Hst in Htag. cbn in Htag. assert (tag (pstate p) = TScanning true) as Ht by by rewrite Hst.
  destruct (sync_tags _ _ _ (in_sync _ _ _ Hinv) _ _ Htag) as [_ Hz]. specialize (Hz eq_refl).
  destruct (scan_groups_spec (S (length (take j indexed))) j Hz Hj) as (st & out & Hrun & Hout); [rewrite length_take, length_indexed; lia|done|].
  rewrite Hrun. destruct Hout as [Hall|i g sc rws Hi Hne Hleft Hd Hok].
  - exists Exhausted, [], sets. split_and!; [done|by left|]. rewrite app_nil_r. by apply scan_exhausted_inv.
  - eexists _, _, _. split_and!; [done|right; split; [done|]|by apply scan_some_inv]. rewrite length_fmap. destruct rws; [done|cbn; lia].
Qed.

(** *** All steps *)

Lemma become_work st' : rank (tag st') < rank (tag (pstate p)) -> work (mkPartition st' (pinput p) (emitted p)) < work p.
Proof. unfold work. cbn. lia. Qed.

Lemma step_check (mk : bool -> PartitionState V St) :
  pstate p = mk false -> waiting_tag (tag (mk false)) = true -> tag (mk true) = ready_tag (tag (mk false)) -> part_state sets idx (mk true) (emitted p) ->
  parked (pending_of (tag (mk false)) (shared s)) idx = false ->
  exists ready sh', check_of plan (tag (mk false)) (shared s) idx = Ok (ready, sh')
    /\ inv sets rows (mkSystem sh' (<[idx := mkPartition (mk ready) (pinput p) (emitted p)]> (partitions s)))
    /\ advanced idx (shared s) p sh' (mkPartition (mk ready) (pinput p) (emitted p)).
Proof.
  intros Hst Hwait Hready Hpart Hawake. pose proof tag_at as Htag. rewrite Hst in Htag.
  destruct (check_of_spec plan (shared s) tags idx (tag (mk false)) (in_sync _ _ _ Hinv) Htag Hwait) as (ready & sh' & Hrun & Ho & Hd & Hsync & Hother & Hres).
  assert (pinput p = []) as Hin.
  { destruct (pi_done _ _ _ _ part_at) as [Hagg|Hin]; [|done]. rewrite Hst in Hagg. by rewrite Hagg in Hwait. }
  exists ready, sh'. split; [done|]. destruct ready.
  - destruct Hres as [Hzero ->]. destruct (step_ready (mk true)) as [Hrank Hinv']; [by rewrite Hst|by rewrite Hst|by rewrite Hst|done|done|].
    split; [done|]. left. by apply become_work.
  - rewrite <- Hst. assert (mkPartition (pstate p) (pinput p) (emitted p) = p) as -> by by destruct p. split.
    + rewrite list_insert_id by done. destruct Hinv. by split; cbn; rewrite ?Ho, ?Hd.
    + right. rewrite Hst. by split_and!; try apply Hres.
Qed.

Lemma scanning_start states : pstate p = ScanningGroups false states -> part_state sets idx (ScanningGroups true states) (emitted p).
Proof.
  intros Hst. destruct part_at as [Hstate _ _ _]. rewrite Hst in Hstate. destruct Hstate as [-> Hem]. rewrite Hem. pose proof tag_at as Htag. rewrite Hst in Htag. cbn in Htag.
  exists (length sets). rewrite drop_all, take_ge by by rewrite length_indexed. split_and!; [done|done|constructor|]. apply reflexive_eq. cbn. f_equal.
  apply list_fmap_ext. intros i g Hi. assert (set_inv tags rows g) as Hg by (apply set_at_inv; by eapply list_elem_of_lookup_2).
  pose proof (si_mphase _ _ _ Hg _ _ Htag) as Hph. unfold left_rows, share_rows, left_at. unfold main_st in Hph. by destruct (st_at idx (s_main g)).
Qed.

(** A partition never emits more than the bound. *)
Lemma emitted_le : length (emitted p) <= max_rows.
Proof.
  destruct part_at as [Hstate _ _ _]. pose proof tag_at as Htag. pose proof rows_le as Hle.
  assert (length sets = length (grouping_sets op)) as Hlen.
  { pose proof (Forall2_length _ _ _ (po_tables _ _ Hplan)) as Hl. by rewrite (in_tables _ _ _ Hinv), length_fmap in Hl. }
  assert (scanned_tag (tag (pstate p)) = true -> length (concat (share_rows idx <$> sets)) <= max_rows) as Hshare.
  { intros Hscan. assert (total in_merge tags = 0) as Hz.
    { pose proof (sync_tags _ _ _ (in_sync _ _ _ Hinv) _ _ Htag) as Hok. destruct (tag (pstate p)) as [| | | |[]|]; try done. by destruct Hok as [_ ?]; auto. }
    pose proof (distinct_le_aggregation tags). pose proof (aggregation_le_merge tags).
    rewrite <- sum_concat. unfold max_rows. rewrite <- Hlen. etransitivity; [apply sum_bound|apply Nat.mul_le_mono_l, Hle].
    intros g Hg. pose proof (set_at_inv g Hg) as Hgi. pose proof (si_main _ _ _ Hgi) as Hok. unfold share_rows. rewrite length_fmap.
    assert (forall q, q < n -> 2 <= phase (st_at q (s_main g))) as Hph.
    { eapply (phases_from in_merge main_phase); [done| |apply Hgi]. by intros [| | | |[]|] j; cbn; intros; lia. }
    transitivity (length (concat (data <$> finals (s_main g)))).
    - rewrite <- (ghost_shares (s_table g) (s_main g) Hok Hph), <- sum_concat. apply (sum_elem (fun q => length (share n (finals (s_main g)) q))), elem_of_seq. pose proof idx_lt. lia.
    - destruct (ghost_result (s_table g) (s_main g) Hok Hph) as [Hnd Hgr _]. rewrite <- (length_fmap group), <- (length_fmap (group_key (s_table g)) (concat rows)).
      apply submseteq_length, NoDup_submseteq; [done|]. intros key (ev & -> & Hev)%Hgr%list_elem_of_fmap.
      destruct (main_keys g ev ltac:(lia) Hgi Hev) as (row & Hrow & ->). by apply list_elem_of_fmap_2. }
  destruct (pstate p) as [i|b i|b i|b i|[] states|]; cbn in Hstate; try (destruct Hstate as [_ ->]; cbn; lia).
  - destruct Hstate as (j & _ & _ & _ & Hem). specialize (Hshare eq_refl). rewrite <- Hem, length_app in Hshare. lia.
  - rewrite Hstate. by apply Hshare.
Qed.

End Steps.

(** Every step of a partition succeeds, keeps the invariant and does some work;
    a partition without a step is done or waits. *)
Definition step_ok (s : System V St) (idx : nat) (p : Partition V St) (r : option (res (Shared V St * Partition V St))) : Prop :=
  match r with
  | None => tag (pstate p) = TExhausted \/ (waiting_tag (tag (pstate p)) = true /\ parked (pending_of (tag (pstate p)) (shared s)) idx = true)
  | Some res => exists sh' p' sets' rows', res = Ok (sh', p') /\ inv sets' rows' (mkSystem sh' (<[idx := p']> (partitions s))) /\ advanced idx (shared s) p sh' p'
  end.

(** A step to a next state. *)
Lemma become_ok rows s idx p (r : res (Shared V St * PartitionState V St)) :
  (exists sh' st' sets', r = Ok (sh', st') /\ rank (tag st') < rank (tag (pstate p))
    /\ inv sets' rows (mkSystem sh' (<[idx := mkPartition st' (pinput p) (emitted p)]> (partitions s)))) ->
  step_ok s idx p (Some ('(sh', st) ← r; Ok (sh', mkPartition st (pinput p) (emitted p)))).
Proof.
  intros (sh' & st' & sets' & -> & Hrank & Hinv'). eexists _, _, sets', rows. split_and!; [done|done|]. left. by apply become_work.
Qed.

(** A check whether the partition can go on. *)
Lemma check_ok sets rows s idx p r (mk : bool -> PartitionState V St) :
  inv sets rows s -> partitions s !! idx = Some p -> rows !! idx = Some r ->
  pstate p = mk false -> waiting_tag (tag (mk false)) = true -> tag (mk true) = ready_tag (tag (mk false)) -> part_state sets idx (mk true) (emitted p) ->
  step_ok s idx p (if parked (pending_of (tag (mk false)) (shared s)) idx then None
    else Some ('(sh', st) ← ('(ready, sh') ← check_of plan (tag (mk false)) (shared s) idx; Ok (sh', mk ready)); Ok (sh', mkPartition st (pinput p) (emitted p)))).
Proof.
  intros Hinv Hp Hr Hst Hw Ht Hpart. destruct (parked _ idx) eqn:Hpk; [right; by rewrite Hst|].
  destruct (step_check sets rows s idx p r Hinv Hp Hr mk Hst Hw Ht Hpart Hpk) as (ready & sh' & Hrun & Hinv' & Hadv). rewrite (bind_ok _ _ _ Hrun). by eexists _, _, sets, rows.
Qed.

Lemma aggregating_ok sets rows s idx p r i :
  inv sets rows s -> partitions s !! idx = Some p -> rows !! idx = Some r -> pstate p = Aggregating i ->
  step_ok s idx p (partition_step hash_one int64_value blank batch_size plan idx (shared s) p).
Proof.
  intros Hinv Hp Hr Hst. unfold partition_step. rewrite Hst. destruct (pinput p) as [|b rest] eqn:Hin.
  - rewrite <- Hin. apply (become_ok rows). destruct has_distinct eqn:Hd; [by eapply step_finalize_distinct|by eapply agg_step_finalize].
  - destruct (step_aggregating sets rows s idx p r Hinv Hp Hr i b rest Hst Hin) as (inner' & sets' & Hrun & Hinv'). rewrite (bind_ok _ _ _ Hrun).
    eexists _, _, sets', _. split_and!; [done|done|]. left. unfold work. cbn. rewrite Hst, Hin. cbn. lia.
Qed.

Lemma scanning_ok_step sets rows s idx p r states :
  inv sets rows s -> partitions s !! idx = Some p -> rows !! idx = Some r -> pstate p = ScanningGroups true states ->
  step_ok s idx p (partition_step hash_one int64_value blank batch_size plan idx (shared s) p).
Proof.
  intros Hinv Hp Hr Hst. unfold partition_step. rewrite Hst.
  destruct (step_scanning sets rows s idx p r Hinv Hp Hr states Hst) as (st' & out & sets' & Hrun & Hout & Hinv'). rewrite (bind_ok _ _ _ Hrun).
  eexists _, _, sets', _. split_and!; [done|done|]. left. unfold work. cbn. rewrite Hst. cbn. destruct Hout as [[-> ->]|[Htag Hlen]].
  - rewrite app_nil_r. cbn. lia.
  - rewrite Htag. cbn. eassert (_ <= max_rows) as Hle; [eapply (emitted_le sets' rows _ idx); [exact Hinv'| |done]|].
    { cbn. apply list_lookup_insert_eq. by eapply lookup_lt_Some. }
    cbn in Hle. rewrite length_app in *. lia.
Qed.

Lemma partition_step_spec sets rows s idx p :
  inv sets rows s -> partitions s !! idx = Some p -> step_ok s idx p (partition_step hash_one int64_value blank batch_size plan idx (shared s) p).
Proof.
  intros Hinv Hp. destruct (lookup_lt_is_Some_2 rows idx) as [r Hr].
  { rewrite (in_rows _ _ _ Hinv), <- (in_partitions _ _ _ Hinv). by eapply lookup_lt_Some. }
  pose proof (part_at sets rows s idx p r Hinv Hp Hr) as [Hstate _ _ _].
  destruct (pstate p) as [i|[] i|[] i|[] i|[] states|] eqn:Hst; [by eapply aggregating_ok| | | | | | |by eapply scanning_ok_step| |]; unfold partition_step; rewrite Hst.
  - apply (become_ok rows). by eapply step_merging_distinct.
  - by apply (check_ok sets rows s idx p r (fun b => MergingDistinct b i)).
  - apply (become_ok rows). by eapply step_aggregating_distinct.
  - by apply (check_ok sets rows s idx p r (fun b => AggregatingDistinct b i)).
  - apply (become_ok rows). by eapply step_merging.
  - by apply (check_ok sets rows s idx p r (fun b => Merging b i)).
  - apply (check_ok sets rows s idx p r (fun b => ScanningGroups b states)); try done. by eapply scanning_start.
  - left. by rewrite Hst.
Qed.

(** *** The system *)

(** Partitions that wait but have not stored their waker. *)
Definition awake (sh : Shared V St) (i : nat) (p : Partition V St) : nat :=
  if waiting_tag (tag (pstate p)) && negb (parked (pending_of (tag (pstate p)) sh) i) then 1 else 0.

Definition measure (s : System V St) : nat := (n + 1) * total work (partitions s) + sum_list (imap (awake (shared s)) (partitions s)).

Lemma measure_advanced s idx p sh' p' : length (partitions s) = n -> partitions s !! idx = Some p -> advanced idx (shared s) p sh' p' ->
  measure (mkSystem sh' (<[idx := p']> (partitions s))) < measure s.
Proof.
  intros Hlen Hp Hadv. unfold measure. cbn [shared partitions]. pose proof (total_insert work _ idx p p' Hp) as Htotal. destruct Hadv as [Hlt|(-> & Hw & Hpk & Hpend & Hl & Hother)].
  - assert (sum_list (imap (awake sh') (<[idx := p']> (partitions s))) <= n) as Hle.
    { rewrite <- Hlen, <- (length_insert (partitions s) idx p'). apply sum_imap_le. intros i x. unfold awake. by destruct (_ && _); lia. }
    assert (total work (<[idx := p']> (partitions s)) + 1 <= total work (partitions s)) as Hdec by lia.
    apply (Nat.mul_le_mono_l _ _ (n + 1)) in Hdec. lia.
  - rewrite (list_insert_id _ _ _ Hp). apply Nat.add_lt_mono_l. eapply sum_imap_lt; [|exact Hp|].
    + intros j y Hy. unfold awake. destruct (waiting_tag (tag (pstate y))) eqn:Hwy; [|done]. cbn.
      assert ({tag (pstate y) = tag (pstate p)} + {tag (pstate y) <> tag (pstate p)}) as [Heq|Hne] by (repeat decide equality).
      * rewrite Heq, Hpend. unfold parked. destruct (decide (j = idx)) as [->|Hj]; [rewrite list_lookup_insert_eq by done; cbn; lia|]. by rewrite list_lookup_insert_ne.
      * by rewrite (Hother _ Hne Hwy).
    + unfold awake. rewrite Hw, Hpend, Hpk. unfold parked. rewrite list_lookup_insert_eq by done. cbn. lia.
Qed.

Local Abbreviation sys_step := (system_step hash_one int64_value blank batch_size plan).

Lemma system_step_inv sets rows s idx res : inv sets rows s -> sys_step idx s = Some res ->
  exists s' sets' rows', res = Ok s' /\ inv sets' rows' s' /\ measure s' < measure s.
Proof.
  intros Hinv. unfold system_step. destruct (partitions s !! idx) as [p|] eqn:Hp; [|done]. cbn. pose proof (partition_step_spec sets rows s idx p Hinv Hp) as Hspec.
  destruct (partition_step _ _ _ _ plan idx (shared s) p) as [r|]; [|done]. destruct Hspec as (sh' & p' & sets' & rows' & -> & Hinv' & Hadv). cbn. intros [= <-].
  eexists _, sets', rows'. split_and!; [done|done|]. eapply measure_advanced; [apply Hinv|done|done].
Qed.

Lemma inv_progress sets rows s : inv sets rows s -> finished s \/ exists idx r, sys_step idx s = Some r.
Proof.
  intros Hinv. destruct (decide (Exists (fun i => sys_step i s <> None) (seq 0 n))) as [Hex|Hno].
  - right. apply Exists_exists in Hex as (i & _ & Hi). exists i. destruct (sys_step i s) as [r|]; [by exists r|done].
  - left. assert (forall i t, tags_of s !! i = Some t -> blocked (shared s) i t) as Hb.
    { intros i t Hi. unfold tags_of in Hi. rewrite list_lookup_fmap in Hi. destruct (partitions s !! i) as [p|] eqn:Hp; [|done]. injection Hi as <-.
      pose proof (partition_step_spec sets rows s i p Hinv Hp) as Hspec. destruct (partition_step _ _ _ _ plan i (shared s) p) as [r|] eqn:Hstep; [|done].
      exfalso. apply Hno, Exists_exists. exists i. split.
      - apply elem_of_seq. split; [lia|]. rewrite Nat.add_0_l, <- (in_partitions _ _ _ Hinv). by eapply lookup_lt_Some.
      - unfold system_step. rewrite Hp. cbn. by rewrite Hstep. }
    apply Forall_lookup. intros i p Hp. assert (tag (pstate p) = TExhausted) as Ht.
    { eapply all_blocked; [apply Hinv|exact Hb|]. unfold tags_of. by rewrite list_lookup_fmap, Hp. }
    by destruct (pstate p).
Qed.

(** *** Creation *)

Definition new_op : TableOperatorState V St := mkTableState (replicate n (replicate n None)) (replicate n None) n n.
Definition new_sts : list (TablePartitionState V St) := (fun idx => Initializing idx (new_selector n)) <$> seq 0 n.
Definition new_ghost : Ghost := mkGhost new_op new_sts (replicate n []).

Definition new_set (tc : PartitionedHashTable V St * list (DistinctTable V St)) : GSet := mkGSet tc.1 new_ghost ((fun dt => (dt, new_ghost)) <$> tc.2).
Definition new_sets : list GSet := new_set <$> zip (tables plan) (distinct_collections plan).

Lemma new_ghost_ok t : g_ok t new_ghost.
Proof. destruct (create_tinv hash_one batch_size batch_size_pos t n n_pos) as (o & sts & Hc & Hinv & _). injection Hc as <- <-. exact Hinv. Qed.

Lemma new_ghost_at q : q < n -> phase (st_at q new_ghost) = 0 /\ evs_at q new_ghost = [].
Proof.
  intros Hq. unfold st_at, evs_at. cbn. split.
  - rewrite (list_lookup_total_correct _ q (Initializing q (new_selector n))); [done|]. unfold new_sts. by rewrite list_lookup_fmap, lookup_seq_lt.
  - apply list_lookup_total_correct. by apply lookup_replicate_2.
Qed.

Lemma create_states_spec {T} (ts : list T) :
  exists ss, create_states (V:=V) (St:=St) n ts = Ok ((fun _ => new_op) <$> ts, ss) /\ forall q, q < n -> ss !!! q = ((fun _ => st_at q new_ghost) <$> ts).
Proof.
  unfold create_states. rewrite (bind_ok _ ((fun _ => (new_op, new_sts)) <$> ts)) by by apply collect_map. eexists. split.
  - f_equal. f_equal. by rewrite <- list_fmap_compose.
  - intros q Hq. apply list_lookup_total_correct. rewrite list_lookup_fmap, lookup_seq_lt by done. cbn. f_equal. by rewrite <- list_fmap_compose.
Qed.

Lemma new_sets_static g : g ∈ new_sets -> set_static g.
Proof.
  intros ([t dts] & -> & Htc)%list_elem_of_fmap. apply list_elem_of_lookup_1 in Htc as [i Hi]. apply lookup_zip_with_Some in Hi as (t0 & dts0 & [= -> ->] & Ht & Hdts).
  destruct (Forall2_lookup_r _ _ _ _ _ (po_tables _ _ Hplan) Ht) as (set & Hset & Hl & Hs & Hgr & Hvals).
  destruct (Forall2_lookup_r _ _ _ _ _ (po_collections _ _ Hplan) Hdts) as (set' & Hset' & Hcoll). simplify_eq.
  split; cbn; [done|done|by eapply list_elem_of_lookup_2| |done]. unfold coll_dts. cbn. rewrite <- list_fmap_compose. cbn. rewrite list_fmap_id.
  by rewrite <- (po_distinct _ _ Hplan).
Qed.

Lemma fmap_fst_zip {A B C} (f : A -> C) (l : list A) (k : list B) : length l = length k -> (fun ab => f ab.1) <$> zip l k = f <$> l.
Proof. intros Hlen. rewrite <- (fst_zip l k) at 2 by lia. by rewrite <- list_fmap_compose. Qed.

Lemma fmap_snd_zip {A B C} (f : B -> C) (l : list A) (k : list B) : length l = length k -> (fun ab => f ab.2) <$> zip l k = f <$> k.
Proof. intros Hlen. rewrite <- (snd_zip l k) at 2 by lia. by rewrite <- list_fmap_compose. Qed.

Lemma new_set_inv g : g ∈ new_sets -> set_inv (replicate n TAggregating) (replicate n []) g.
Proof.
  intros Hg. pose proof (new_sets_static g Hg) as Hs. apply list_elem_of_fmap in Hg as (tc & -> & _). split; [done|apply new_ghost_ok| | |].
  - intros q t [-> Hq]%lookup_replicate. cbn. by apply new_ghost_at.
  - intros q t r [-> Hq]%lookup_replicate [-> _]%lookup_replicate. exists []. split; [|done]. cbn. by apply new_ghost_at.
  - cbn. apply Forall_fmap, Forall_forall. intros dt _. cbn. split_and!; [apply new_ghost_ok| |].
    + intros q t [-> Hq]%lookup_replicate. cbn. by apply new_ghost_at.
    + intros q r [-> Hq]%lookup_replicate. by apply new_ghost_at.
Qed.

(** A bound on the number of steps, from the input alone. *)
Definition step_bound : nat := (n + 1) * (sum_list (length <$> ins) + n * (9 + max_rows)).

Hypothesis n_max : n <= MAX_PARTITION_COUNT.

(** The system that [create] makes. *)
Definition new_partition (q : nat) (bs : list (Columns V)) : Partition V St := mkPartition (Aggregating (inner_of q new_sets)) bs [].

Definition new_system : System V St :=
  mkSystem (mkShared (main_op <$> new_sets) (coll_ops <$> new_sets) (Some n) (Some n) (Some n) (Some n)
      (replicate n false) (replicate n false) (replicate n false) (replicate n false))
    (zip_with new_partition (seq 0 n) ins).

Lemma plan_lengths : length (tables plan) = length (distinct_collections plan).
Proof. rewrite <- (Forall2_length _ _ _ (po_tables _ _ Hplan)). apply (Forall2_length _ _ _ (po_collections _ _ Hplan)). Qed.

Lemma new_sets_main {C} (c : C) (f : GSet -> C) : (forall tc, f (new_set tc) = c) -> f <$> new_sets = ((fun _ => c) <$> tables plan).
Proof.
  intros Hf. unfold new_sets. rewrite <- list_fmap_compose. etransitivity; [|exact (fmap_fst_zip (fun _ => c) _ _ plan_lengths)]. apply list_fmap_ext. intros i tc _. apply Hf.
Qed.

Lemma new_sets_coll {C} (c : C) (f : GSet -> list C) : (forall tc, f (new_set tc) = ((fun _ => c) <$> tc.2)) ->
  f <$> new_sets = fmap (M:=list) (fun dts : list (DistinctTable V St) => (fun _ => c) <$> dts) (distinct_collections plan).
Proof.
  intros Hf. unfold new_sets. rewrite <- list_fmap_compose. etransitivity; [|exact (fmap_snd_zip _ _ _ plan_lengths)]. apply list_fmap_ext. intros i tc _. apply Hf.
Qed.

Lemma collections_spec (colls : list (list (DistinctTable V St))) :
  exists dcs, collect (create_states (V:=V) (St:=St) n) colls = Ok dcs
    /\ dcs.*1 = fmap (M:=list) (fun dts : list (DistinctTable V St) => (fun _ => new_op) <$> dts) colls
    /\ forall q, q < n -> (fun c : list (TableOperatorState V St) * list (list (TablePartitionState V St)) => c.2 !!! q) <$> dcs
         = fmap (M:=list) (fun dts : list (DistinctTable V St) => (fun _ => st_at q new_ghost) <$> dts) colls.
Proof.
  induction colls as [|dts l (dcs & Hrun & H1 & H2)]; [by exists []|]. cbn [collect].
  destruct (create_states_spec dts) as (ss & Hss & Hq). rewrite (bind_ok _ _ _ Hss), (bind_ok _ _ _ Hrun). eexists. split; [done|]. rewrite !fmap_cons. split; [by rewrite H1|].
  intros q Hqn. rewrite fmap_cons. cbn [snd]. by rewrite (Hq q Hqn), (H2 q Hqn).
Qed.

Lemma create_ok : create plan ins = Ok new_system.
Proof.
  assert (count_set None n = Ok (Some n)) as Hcount.
  { unfold count_set, validate_partitions. rewrite (proj2 (Nat.ltb_ge n MIN_PARTITION_COUNT)) by (unfold MIN_PARTITION_COUNT; lia).
    by rewrite (proj2 (Nat.ltb_ge MAX_PARTITION_COUNT n)) by lia. }
  assert (init_for_partitions [] n = Ok (replicate n false)) as Hinit by (unfold init_for_partitions; by destruct n).
  unfold create. rewrite Hn. do 4 rewrite (bind_ok _ _ _ Hinit). do 4 rewrite (bind_ok _ _ _ Hcount).
  destruct (create_states_spec (tables plan)) as (ss & Hss & Hssq). rewrite (bind_ok _ _ _ Hss).
  destruct (collections_spec (distinct_collections plan)) as (dcs & Hdcs & Hd1 & Hd2). rewrite (bind_ok _ _ _ Hdcs), Hd1. unfold new_system.
  rewrite <- (new_sets_main new_op main_op) by done. rewrite <- (new_sets_coll new_op coll_ops) by (intros; unfold coll_ops; cbn; by rewrite <- list_fmap_compose).
  do 2 f_equal. apply Forall_zip_with_ext_l; [|done]. apply Forall_forall. intros q [_ Hq]%elem_of_seq bs. unfold new_partition. do 2 f_equal. unfold inner_of. f_equal.
  - rewrite (Hssq q) by lia. symmetry. by apply new_sets_main.
  - rewrite (Hd2 q) by lia. symmetry. apply new_sets_coll. intros. unfold coll_sts. cbn. by rewrite <- list_fmap_compose.
Qed.

Lemma new_partition_at q p : partitions new_system !! q = Some p -> exists bs, ins !! q = Some bs /\ q < n /\ p = new_partition q bs.
Proof. intros (q' & bs & -> & Hq & Hbs)%lookup_zip_with_Some. apply lookup_seq in Hq as [-> Hq]. by exists bs. Qed.

Lemma new_tags : tags_of new_system = replicate n TAggregating.
Proof.
  assert (length (partitions new_system) = n) as Hlen by (cbn; rewrite length_zip_with, length_seq; lia).
  apply list_eq_same_length with (n := n); [by rewrite length_replicate|unfold tags_of; by rewrite length_fmap|].
  intros q x y Hq Hx Hy. apply lookup_replicate in Hy as [-> _]. unfold tags_of in Hx. rewrite list_lookup_fmap in Hx.
  destruct (partitions new_system !! q) as [p|] eqn:Hp; [|done]. destruct (new_partition_at q p Hp) as (bs & _ & _ & ->). by injection Hx.
Qed.

Lemma new_system_inv : inv new_sets (replicate n []) new_system.
Proof.
  split; rewrite ?new_tags; try done.
  - symmetry. unfold new_sets. rewrite <- list_fmap_compose. etransitivity; [|apply (list_fmap_id (tables plan))]. exact (fmap_fst_zip id _ _ plan_lengths).
  - symmetry. unfold new_sets. rewrite <- list_fmap_compose. etransitivity; [|apply (list_fmap_id (distinct_collections plan))].
    etransitivity; [|exact (fmap_snd_zip id _ _ plan_lengths)]. apply list_fmap_ext. intros i tc _. unfold coll_dts. cbn. rewrite <- list_fmap_compose. apply list_fmap_id.
  - cbn. rewrite length_zip_with, length_seq. lia.
  - by rewrite length_replicate.
  - apply sync_create.
  - apply Forall_forall. apply new_set_inv.
  - intros q p r Hq [-> _]%lookup_replicate. destruct (new_partition_at q p Hq) as (bs & Hbs & Hqn & ->). split; cbn; [done| | |by left].
    + by rewrite (list_lookup_total_correct _ _ _ Hbs).
    + rewrite Forall_lookup in Hins. by eapply Hins.
Qed.

Lemma new_system_measure : measure new_system = step_bound.
Proof.
  unfold measure, step_bound. cbn [shared partitions new_system].
  assert (sum_list (imap (awake (shared new_system)) (partitions new_system)) <= sum_list (imap (fun _ _ => 0) (partitions new_system))) as Hz.
  { apply sum_imap_mono. intros j y Hy. destruct (new_partition_at j y Hy) as (bs & _ & _ & ->). done. }
  assert (forall l : list (Partition V St), sum_list (imap (fun _ _ => 0) l) = 0) as Hz0 by (induction l as [|x l IH]; [done|rewrite sum_imap_cons; exact IH]).
  assert (forall l i, total work (zip_with new_partition (seq i (length l)) l) = sum_list (length <$> l) + length l * (9 + max_rows)) as Hwork.
  { unfold total. induction l as [|bs l IH]; intros i; [done|]. cbn [length seq zip_with]. rewrite !fmap_cons.
    change (sum_list (?x :: ?k)) with (x + sum_list k). rewrite IH. unfold work, new_partition. cbn [pinput pstate tag rank emitted length]. lia. }
  rewrite Hz0 in Hz. apply Nat.le_0_r in Hz. cbn [shared partitions new_system] in Hz. rewrite Hz, Nat.add_0_r. f_equal. rewrite <- Hn. apply Hwork.
Qed.

(** ** The result *)

Lemma forall2_concat {A B} (R : A -> B -> Prop) ll kk : Forall2 (Forall2 R) ll kk -> Forall2 R (concat ll) (concat kk).
Proof. induction 1 as [|l k ll kk Hlk _ IH]; [constructor|]. cbn. by apply Forall2_app. Qed.

Lemma filter_concat {A} (P : A -> Prop) `{forall x, Decision (P x)} (ll : list (list A)) : filter P (concat ll) = concat (filter P <$> ll).
Proof. induction ll as [|l ll IH]; [done|]. cbn [concat]. by rewrite filter_app, IH. Qed.

(** The inputs an event gives to an aggregate. *)
Definition ev_args (fs : list (Aggregate V St)) (a : nat) (agg : Aggregate V St) (ev : @event V) : Row := take (num_columns agg) (drop (col_offset fs a) (ev_row ev)).

Lemma fold_events fs a agg (evs : list (@event V)) st : fs !! a = Some agg ->
  fold_left (event_step fs a) evs st = fold_left (update agg) (ev_args fs a agg <$> filter (fun ev => a ∈ ev_sel ev) evs) st.
Proof.
  intros Ha. revert st. induction evs as [|ev evs IH]; intros st; [done|]. cbn [fold_left]. rewrite IH, filter_cons. unfold event_step at 1, agg_step. rewrite Ha.
  by destruct (decide (a ∈ ev_sel ev)).
Qed.

Lemma layout_columns (l : list (PhysicalAggregate V St)) a agg :
  Forall (fun x => num_columns (function x) = length (columns x)) l -> l !! a = Some agg ->
  take (length (columns agg)) (drop (col_offset (function <$> l) a) (l ≫= columns)) = columns agg.
Proof.
  intros Hw. revert a. induction Hw as [|x l Hx _ IH]; intros a Ha; [done|]. change (mbind (M:=list) columns (x :: l)) with (columns x ++ (l ≫= columns)).
  destruct a as [|a]; [injection Ha as ->; change (drop _ ?k) with k; apply take_app_length|]. rewrite fmap_cons. unfold col_offset. cbn [take sum_list_with].
  rewrite Hx, drop_app_add'; [|done]. by apply IH.
Qed.

Lemma row_event_args g a agg sel row : set_static g -> aggs !! a = Some agg ->
  ev_args (function <$> layout (s_table g)) a (function agg) (row_event (s_table g) sel row) = args (columns agg) row.
Proof.
  intros Hs Ha. pose proof (ts_widths _ _ (main_static g Hs)) as Hw. rewrite (ss_layout _ Hs) in *. unfold ev_args, row_event, args. cbn [ev_row]. rewrite (ss_layout _ Hs).
  rewrite Forall_lookup in Hw. rewrite (Hw a agg Ha), <- fmap_drop, <- fmap_take. f_equal. apply layout_columns; [by apply Forall_lookup|done].
Qed.

(** The table of the distinct inputs of an aggregate. *)
Lemma distinct_part g a agg : set_static g -> aggs !! a = Some agg -> is_distinct agg = true ->
  exists c1 dt dg c2, s_coll g = c1 ++ (dt, dg) :: c2 /\ a ∈ agg_sel dt /\ distinct_ok g dt (columns agg) /\ Forall (fun d => a ∉ agg_sel d.1) (c1 ++ c2).
Proof.
  intros Hs Ha Hd. pose proof (ss_coll _ Hs) as [Hnd _ _ _ Hcover _]. destruct (aggregate_selection_spec 0 aggs) as (_ & _ & Hds & _).
  assert (a ∈ distinct_sel) as [j Hj]%list_elem_of_lookup_1 by (apply Hds; exists agg; rewrite Nat.sub_0_r; split_and!; [lia|done|done]).
  pose proof (Hcover j (lookup_lt_Some _ _ _ Hj)) as Hin. rewrite (distinct_cols_lookup j a agg Hj Ha) in Hin. unfold coll_dts in Hin, Hnd. rewrite <- list_fmap_compose in Hin, Hnd.
  apply list_elem_of_fmap in Hin as ([dt dg] & Hin & Hdg). cbn in Hin. destruct (set_distinct_ok g dt Hs) as [C HC]; [by apply (list_elem_of_fmap_2 fst _ (dt, dg))|].
  assert (C = columns agg) as -> by (rewrite (do_inputs _ _ _ HC) in Hin; by apply app_inv_head in Hin).
  apply list_elem_of_split in Hdg as (c1 & c2 & Hsplit). exists c1, dt, dg, c2. split_and!; [done|apply (do_aggs _ _ _ HC); by exists agg|done|].
  apply Forall_forall. intros [dt' dg'] Hd' Hsel. cbn in Hsel. destruct (set_distinct_ok g dt' Hs) as [C' HC'].
  { apply (list_elem_of_fmap_2 fst _ (dt', dg')). rewrite Hsplit. apply elem_of_app in Hd' as [|]; apply elem_of_app; [by left|right; by right]. }
  destruct (proj1 (do_aggs _ _ _ HC' a) Hsel) as (agg' & Ha' & _ & HCeq). rewrite Ha in Ha'. injection Ha' as <-. subst C'. rewrite Hsplit, fmap_app, fmap_cons in Hnd. apply NoDup_app in Hnd as (_ & Hdis & Hnd).
  apply NoDup_cons in Hnd as [Hnotin _]. assert (inputs dt' = inputs dt) as Heq by by rewrite (do_inputs _ _ _ HC'), (do_inputs _ _ _ HC).
  apply elem_of_app in Hd' as [Hd'|Hd'].
  - apply (Hdis (inputs dt')); [by apply (list_elem_of_fmap_2 (inputs ∘ fst) _ (dt', dg'))|]. rewrite Heq. left.
  - apply Hnotin. cbn. rewrite <- Heq. by apply (list_elem_of_fmap_2 (inputs ∘ fst) _ (dt', dg')).
Qed.

Lemma distinct_event_sel t sel keys (des : list (@event V)) ev : Forall2 (distinct_event (St:=St) t sel) keys des -> ev ∈ des -> ev_sel ev = sel.
Proof. intros Hd Hev. by destruct (forall2_elem_r _ _ _ _ Hd Hev) as (key & _ & _ & ? & _). Qed.

Lemma distinct_events_none g f coll dess a : distinct_events g f coll dess -> Forall (fun d => a ∉ agg_sel d.1) coll -> filter (fun ev => a ∈ ev_sel ev) (concat dess) = [].
Proof.
  intros Hd Hno. apply filter_none. intros ev Hev Ha. apply list_elem_of_In, in_concat in Hev as (des & Hdes & Hev). apply list_elem_of_In in Hdes, Hev.
  destruct (forall2_elem_r _ _ _ _ Hd Hdes) as (dg & Hdg & Hds). rewrite (distinct_event_sel _ _ _ _ _ Hds Hev) in Ha. rewrite Forall_forall in Hno. by apply (Hno dg).
Qed.

Lemma distinct_events_of g f c1 d c2 dess a : distinct_events g f (c1 ++ d :: c2) dess -> a ∈ agg_sel d.1 -> Forall (fun d => a ∉ agg_sel d.1) (c1 ++ c2) ->
  Forall2 (distinct_event (s_table g) (agg_sel d.1)) (group <$> f d) (filter (fun ev => a ∈ ev_sel ev) (concat dess)).
Proof.
  intros Hd Ha [Hn1 Hn2]%Forall_app. unfold distinct_events in Hd. apply Forall2_app_inv_l in Hd as (dess1 & dess' & Hd1 & Hd' & ->).
  apply Forall2_cons_inv_l in Hd' as (des & dess2 & Hdes & Hd2 & ->). rewrite concat_app, filter_app, (distinct_events_none g f c1 dess1 a Hd1 Hn1). cbn [concat app].
  rewrite filter_app, (distinct_events_none g f c2 dess2 a Hd2 Hn2), app_nil_r, filter_all; [done|]. apply Forall_forall. intros ev Hev.
  by rewrite (distinct_event_sel _ _ _ _ _ Hdes Hev).
Qed.

Lemma normal_sel_elem a agg : aggs !! a = Some agg -> a ∈ normal_sel <-> is_distinct agg = false.
Proof.
  intros Ha. destruct (aggregate_selection_spec 0 aggs) as (_ & _ & _ & Hn'). rewrite Hn', Nat.sub_0_r. split.
  - intros (agg' & _ & Ha' & Hd). by simplify_eq.
  - intros Hd. exists agg. split_and!; [lia|done|done].
Qed.

Section Result.
Variables (sets : list GSet) (rows : list (list Row)) (s : System V St).
Hypothesis Hinv : inv sets rows s.
Hypothesis Hfin : finished s.

Lemma fin_tag q : q < n -> tags_of s !! q = Some TExhausted.
Proof.
  intros Hq. unfold tags_of. rewrite list_lookup_fmap. destruct (lookup_lt_is_Some_2 (partitions s) q) as [p Hp]; [by rewrite (in_partitions _ _ _ Hinv)|].
  rewrite Hp. cbn. unfold finished in Hfin. rewrite Forall_lookup in Hfin. by rewrite (Hfin q p Hp).
Qed.

Lemma fin_merged : total in_merge (tags_of s) = 0 /\ total in_distinct_merge (tags_of s) = 0.
Proof.
  pose proof (sync_tags _ _ _ (in_sync _ _ _ Hinv) _ _ (fin_tag 0 n_pos)) as Hz. cbn in Hz.
  pose proof (distinct_le_aggregation (tags_of s)). pose proof (aggregation_le_merge (tags_of s)). lia.
Qed.

Lemma fin_rows : rows = (input_rows <$> ins).
Proof.
  apply list_eq_same_length with (n := n); [by rewrite length_fmap|apply Hinv|]. intros q r x Hq Hr Hx.
  rewrite list_lookup_fmap in Hx. destruct (ins !! q) as [bs|] eqn:Hbs; [|done]. injection Hx as <-.
  destruct (lookup_lt_is_Some_2 (partitions s) q) as [p Hp]; [by rewrite (in_partitions _ _ _ Hinv)|]. destruct (in_parts _ _ _ Hinv q p r Hp Hr) as [_ Hin _ Hdone].
  unfold finished in Hfin. rewrite Forall_lookup in Hfin. rewrite (Hfin q p Hp) in Hdone. destruct Hdone as [|Hnil]; [done|].
  rewrite Hnil in Hin. unfold input_rows at 1 in Hin. cbn in Hin. rewrite app_nil_r in Hin. by rewrite Hin, (list_lookup_total_correct _ _ _ Hbs).
Qed.

Lemma evs_at_all g : g_ok (s_table g) (s_main g) -> g_evss (s_main g) = ((fun q => evs_at q (s_main g)) <$> seq 0 n).
Proof.
  intros Hok. apply list_eq_same_length with (n := n); [by rewrite length_fmap, length_seq|apply Hok|]. intros q x y Hq Hx Hy.
  rewrite list_lookup_fmap, lookup_seq_lt in Hy by done. injection Hy as <-. symmetry. by apply list_lookup_total_correct.
Qed.

Lemma rows_all : rows = ((fun q => rows !!! q) <$> seq 0 n).
Proof.
  apply list_eq_same_length with (n := n); [by rewrite length_fmap, length_seq|apply Hinv|]. intros q x y Hq Hx Hy.
  rewrite list_lookup_fmap, lookup_seq_lt in Hy by done. injection Hy as <-. symmetry. by apply list_lookup_total_correct.
Qed.

(** The events of an aggregate. *)
Lemma normal_events g a agg : set_inv (tags_of s) rows g -> aggs !! a = Some agg -> is_distinct agg = false ->
  filter (fun ev => a ∈ ev_sel ev) (concat (g_evss (s_main g))) = (row_event (s_table g) normal_sel <$> concat rows).
Proof.
  intros Hg Ha Hd. rewrite fmap_concat, filter_concat, (evs_at_all g (si_main _ _ _ Hg)), rows_all at 1. rewrite <- !list_fmap_compose. f_equal. apply list_fmap_ext.
  intros i q Hq%lookup_seq. destruct Hq as [-> Hq]. cbn [compose Nat.add]. destruct (lookup_lt_is_Some_2 rows i) as [r Hr]; [by rewrite (in_rows _ _ _ Hinv)|].
  rewrite (list_lookup_total_correct _ _ _ Hr). destruct (si_mevs _ _ _ Hg i _ r (fin_tag i Hq) Hr) as (dess & -> & Hdess). cbn in Hdess.
  rewrite filter_app, (distinct_events_none _ _ _ _ _ Hdess), app_nil_r, filter_all; [done| |].
  - apply Forall_fmap, Forall_forall. intros row _. cbn. by apply (normal_sel_elem a agg).
  - apply Forall_forall. intros [dt dg] Hdg Hsel. destruct (coll_at rows s g dt dg Hg Hdg) as ([C HC] & _). destruct (proj1 (do_aggs _ _ _ HC a) Hsel) as (agg' & Ha' & Hd' & _).
    rewrite Ha in Ha'. injection Ha' as ->. congruence.
Qed.

Lemma distinct_agg_events g a agg c1 dt dg c2 : set_inv (tags_of s) rows g -> aggs !! a = Some agg -> is_distinct agg = true ->
  s_coll g = c1 ++ (dt, dg) :: c2 -> a ∈ agg_sel dt -> Forall (fun d => a ∉ agg_sel d.1) (c1 ++ c2) ->
  Forall2 (distinct_event (s_table g) (agg_sel dt)) (group <$> concat (share n (finals dg) <$> seq 0 n)) (filter (fun ev => a ∈ ev_sel ev) (concat (g_evss (s_main g)))).
Proof.
  intros Hg Ha Hd Hsplit Hsel Hno. rewrite fmap_concat, filter_concat, (evs_at_all g (si_main _ _ _ Hg)). rewrite <- !list_fmap_compose. apply forall2_concat.
  apply Forall2_fmap_2, Forall_Forall2_diag, Forall_forall. intros q [_ Hq]%elem_of_seq. cbn [compose]. destruct (lookup_lt_is_Some_2 rows q) as [r Hr]; [by rewrite (in_rows _ _ _ Hinv)|].
  destruct (si_mevs _ _ _ Hg q _ r (fin_tag q Hq) Hr) as (dess & -> & Hdess). cbn in Hdess. rewrite Hsplit in Hdess. rewrite filter_app, filter_none.
  - exact (distinct_events_of g _ c1 (dt, dg) c2 dess a Hdess Hsel Hno).
  - intros ev (row & -> & _)%list_elem_of_fmap. cbn. rewrite (normal_sel_elem a agg Ha). congruence.
Qed.

Lemma filter_comm {A} (P Q : A -> Prop) `{forall x, Decision (P x)} `{forall x, Decision (Q x)} (l : list A) : filter P (filter Q l) = filter Q (filter P l).
Proof. induction l as [|x l IH]; [done|]. rewrite !filter_cons. destruct (decide (P x)), (decide (Q x)); rewrite ?filter_cons, ?decide_True, ?decide_False by done; by rewrite IH. Qed.

Lemma group_key_of g row : set_static g -> group_key (s_table g) row = key_of op (grouping_set (s_table g)) row.
Proof. intros Hs. unfold group_key, key_of. by rewrite (ss_groups _ Hs). Qed.

(** The inputs of a DISTINCT aggregate in one group. *)
Lemma distinct_event_args g dt C a agg key keys (des : list (@event V)) : set_static g -> distinct_ok g dt C -> a ∈ agg_sel dt -> aggs !! a = Some agg ->
  Forall2 (distinct_event (s_table g) (agg_sel dt)) keys des ->
  ev_args (function <$> layout (s_table g)) a (function agg) <$> filter (fun ev => ev_key ev = key) des
  = (drop (length (grouping_set (s_table g))) <$> filter (fun k => take (length (grouping_set (s_table g))) k = key) keys).
Proof.
  intros Hs HC Hsel Ha. induction 1 as [|k ev keys des (Hkey & _ & Hargs) _ IH]; [done|]. rewrite !filter_cons, Hkey. destruct (decide (_ = key)); [|done].
  rewrite !fmap_cons, IH. f_equal. apply (Hargs a (function agg)); [done|]. by rewrite (ss_layout _ Hs), list_lookup_fmap, Ha.
Qed.

Lemma nodup_drop m key (keys : list Row) : NoDup keys -> NoDup (drop m <$> filter (fun k => take m k = key) keys).
Proof.
  intros Hnd. apply NoDup_fmap_2_strong; [|by apply NoDup_filter]. intros x y [Hx _]%list_elem_of_filter [Hy _]%list_elem_of_filter Heq.
  by rewrite <- (take_drop m x), <- (take_drop m y), Heq, Hx, Hy.
Qed.

Lemma agg_result g a agg key : set_inv (tags_of s) rows g -> aggs !! a = Some agg ->
  agg_value (filter (fun r => key_of op (grouping_set (s_table g)) r = key) (concat rows)) agg
    (finalize (function agg) (agg_fold (function <$> layout (s_table g)) key (concat (g_evss (s_main g))) a (new_aggregate_state (function agg)))).
Proof.
  intros Hg Ha. pose proof (si_static _ _ _ Hg) as Hs. eexists. split.
  { unfold agg_fold. rewrite (fold_events _ a (function agg)); [done|]. by rewrite (ss_layout _ Hs), list_lookup_fmap, Ha. }
  rewrite filter_comm. destruct (is_distinct agg) eqn:Hd.
  - destruct (distinct_part g a agg Hs Ha Hd) as (c1 & dt & dg & c2 & Hsplit & Hsel & HC & Hno). assert ((dt, dg) ∈ s_coll g) as Hdg by (rewrite Hsplit; apply elem_of_app; right; left).
    destruct (coll_at rows s g dt dg Hg Hdg) as (_ & Hok & _). destruct (distinct_result sets rows s Hinv g dt dg Hg Hdg (proj2 fin_merged)) as [Hnd Hgr].
    rewrite (distinct_event_args g dt _ a agg key _ _ Hs HC Hsel Ha (distinct_agg_events g a agg c1 dt dg c2 Hg Ha Hd Hsplit Hsel Hno)).
    set (m := length (grouping_set (s_table g))).
    assert (group <$> concat (share n (finals dg) <$> seq 0 n) ≡ₚ group <$> concat (data <$> finals dg)) as Hperm
      by (apply fmap_Permutation, (ghost_shares (distinct_table dt) dg Hok); eapply (distinct_merged sets rows s Hinv); [exact Hg|exact Hdg|apply fin_merged]).
    split; [apply nodup_drop; by rewrite Hperm|]. intros x. rewrite !list_elem_of_fmap. split.
    + intros (k & -> & [Hk Hin]%list_elem_of_filter). rewrite Hperm in Hin. apply Hgr, list_elem_of_fmap in Hin as (row & -> & Hrow).
      rewrite (distinct_key g dt _ row Hs HC) in *. exists row. rewrite drop_app_length' by by rewrite length_group_key.
      rewrite take_app_length' in Hk by by rewrite length_group_key. split; [done|]. apply list_elem_of_filter. by rewrite <- group_key_of.
    + intros (row & -> & [Hk Hrow]%list_elem_of_filter). exists (group_key (distinct_table dt) row). rewrite (distinct_key g dt _ row Hs HC).
      split; [by rewrite drop_app_length' by by rewrite length_group_key|]. apply list_elem_of_filter. rewrite take_app_length' by by rewrite length_group_key.
      split; [by rewrite group_key_of|]. rewrite <- (distinct_key g dt _ row Hs HC), Hperm. apply Hgr. by apply list_elem_of_fmap_2.
  - rewrite (normal_events g a agg Hg Ha Hd), filter_map_swap. cbn [ev_key row_event]. rewrite <- list_fmap_compose.
    rewrite (filter_ext_elem _ (fun r => key_of op (grouping_set (s_table g)) r = key)) by (intros; by rewrite group_key_of).
    apply list_fmap_ext. intros i row _. by apply row_event_args.
Qed.

Lemma set_result g : set_inv (tags_of s) rows g ->
  set_output int64_value op (concat rows) (grouping_set (s_table g)) (out_row g <$> concat (data <$> finals (s_main g))).
Proof.
  intros Hg. pose proof (si_static _ _ _ Hg) as Hs. destruct (set_facts g Hs) as [Hsorted _].
  assert (forall q, q < n -> 2 <= phase (st_at q (s_main g))) as Hph.
  { eapply (phases_from sets rows s Hinv in_merge main_phase); [apply fin_merged| |apply Hg]. by intros [| | | |[]|] j; cbn; intros; lia. }
  destruct (ghost_result (s_table g) (s_main g) (si_main _ _ _ Hg) Hph) as [Hnd Hgr Hst].
  exists (group <$> concat (data <$> finals (s_main g))). split_and!; [done| |].
  - intros key. rewrite Hgr. split.
    + intros (ev & -> & Hev)%list_elem_of_fmap. destruct (main_keys sets rows s Hinv g ev (proj2 fin_merged) Hg Hev) as (row & Hrow & ->).
      rewrite (group_key_of g row Hs). by apply list_elem_of_fmap_2.
    + intros (row & -> & Hrow)%list_elem_of_fmap. rewrite <- (group_key_of g row Hs). apply list_elem_of_In, in_concat in Hrow as (r & Hr & Hrow).
      apply list_elem_of_In, list_elem_of_lookup_1 in Hr as [q Hq]. assert (q < n) as Hqn by (rewrite <- (in_rows _ _ _ Hinv); by eapply lookup_lt_Some).
      destruct (si_mevs _ _ _ Hg q _ r (fin_tag q Hqn) Hq) as (dess & Hevs & _). apply (list_elem_of_fmap_2 ev_key _ (row_event (s_table g) normal_sel row)).
      apply list_elem_of_In, in_concat. exists (evs_at q (s_main g)). split.
      * apply list_elem_of_In. eapply list_elem_of_lookup_2, (lookup_evs (s_table g)); [apply Hg|done].
      * apply list_elem_of_In. rewrite Hevs. apply elem_of_app. left. apply list_elem_of_fmap_2. by apply list_elem_of_In.
  - apply Forall2_fmap_2, Forall_Forall2_diag, Forall_forall. intros row Hrow.
    assert (group row ∈ (ev_key <$> concat (g_evss (s_main g)))) as (ev & Hkey & Hev)%list_elem_of_fmap by (apply Hgr; by apply list_elem_of_fmap_2).
    destruct (main_keys sets rows s Hinv g ev (proj2 fin_merged) Hg Hev) as (row0 & Hrow0 & Hkey0). rewrite Hkey0 in Hkey.
    exists row0, (finalize_states (s_table g) (states row)), (grouping_values (s_table g)). split_and!; [done|by rewrite <- group_key_of| |apply Hs|].
    + unfold finalize_states. rewrite (ss_layout _ Hs). specialize (Hst row Hrow). rewrite (ss_layout _ Hs) in Hst.
      assert (length (states row) = length aggs) as Hlen.
      { apply Nat.le_antisymm; apply Nat.nlt_ge; intros Hlt.
        - destruct (lookup_lt_is_Some_2 (states row) (length aggs)) as [x Hx]; [done|]. rewrite Hst, (lookup_ge_None_2 (function <$> aggs)) in Hx by by rewrite length_fmap. done.
        - destruct (lookup_lt_is_Some_2 aggs (length (states row))) as [x Hx]; [done|]. specialize (Hst (length (states row))). rewrite list_lookup_fmap, Hx in Hst. cbn in Hst.
          by rewrite lookup_ge_None_2 in Hst. }
      apply Forall2_same_length_lookup_2; [rewrite length_zip_with; lia|]. intros a agg v Ha (agg' & st & -> & Ha' & Hsta)%lookup_zip_with_Some. simplify_eq.
      specialize (Hst a). rewrite Hsta, list_lookup_fmap, Ha in Hst. cbn in Hst. injection Hst as ->. rewrite <- (ss_layout _ Hs). by apply agg_result.
    + unfold out_row. rewrite (output_row_spec batch_size batch_size_pos (s_table g) n n_pos int64_value Hsorted (fun i => row0 !!! (groups (s_table g) !!! i)) row Hkey).
      unfold result_row, spread_groups. by rewrite (ss_groups _ Hs).
Qed.

Lemma finished_result : exists outs, concat (emitted <$> partitions s) ≡ₚ concat outs
  /\ Forall2 (set_output int64_value op all_rows) (grouping_sets op) outs.
Proof.
  exists ((fun g => out_row g <$> concat (data <$> finals (s_main g))) <$> sets). split.
  - transitivity (concat ((fun q => concat (share_rows q <$> sets)) <$> seq 0 n)).
    + assert (forall (l : list (Partition V St)) i, (forall q p, l !! q = Some p -> emitted p ≡ₚ concat (share_rows (i + q) <$> sets)) ->
        concat (emitted <$> l) ≡ₚ concat ((fun q => concat (share_rows q <$> sets)) <$> seq i (length l))) as Hgo.
      { induction l as [|p l IH]; intros i Hl; [done|]. cbn [length seq]. rewrite !fmap_cons. cbn [concat]. apply Permutation_app.
        - rewrite (Hl 0 p eq_refl). by rewrite Nat.add_0_r.
        - apply IH. intros q p' Hq. rewrite Nat.add_succ_l, <- Nat.add_succ_r. by apply (Hl (S q)). }
      rewrite <- (in_partitions _ _ _ Hinv). apply Hgo. intros q p Hp. destruct (lookup_lt_is_Some_2 rows q) as [r Hr].
      { rewrite (in_rows _ _ _ Hinv), <- (in_partitions _ _ _ Hinv). by eapply lookup_lt_Some. }
      destruct (in_parts _ _ _ Hinv q p r Hp Hr) as [Hst _ _ _]. unfold finished in Hfin. rewrite Forall_lookup in Hfin. by rewrite (Hfin q p Hp) in Hst.
    + rewrite concat_swap. assert (forall l, Forall (set_inv (tags_of s) rows) l -> concat ((fun g => concat ((fun q => share_rows q g) <$> seq 0 n)) <$> l)
        ≡ₚ concat ((fun g => out_row g <$> concat (data <$> finals (s_main g))) <$> l)) as Hgo; [|apply Hgo, Hinv].
      induction 1 as [|g l Hg _ IH]; [done|]. rewrite !fmap_cons. cbn [concat]. apply Permutation_app; [|done].
      assert (concat ((fun q => share_rows q g) <$> seq 0 n) = (out_row g <$> concat (share n (finals (s_main g)) <$> seq 0 n))) as ->
        by by rewrite fmap_concat, <- list_fmap_compose.
      apply fmap_Permutation, (ghost_shares (s_table g) (s_main g) (si_main _ _ _ Hg)).
      eapply (phases_from sets rows s Hinv in_merge main_phase); [apply fin_merged| |apply Hg]. by intros [| | | |[]|] j; cbn; intros; lia.
  - rewrite <- fin_rows. assert (grouping_sets op = ((fun g => grouping_set (s_table g)) <$> sets)) as ->.
    { pose proof (po_tables _ _ Hplan) as Ht. rewrite (in_tables _ _ _ Hinv), Forall2_fmap_r in Ht. clear -Ht. induction Ht as [|set g l l' (_ & H2 & _) _ IH]; [done|].
      by rewrite fmap_cons, H2, IH. }
    apply Forall2_fmap_2, Forall_Forall2_diag. eapply Forall_impl; [apply Hinv|]. apply set_result.
Qed.

End Result.

End Correct.
