(* ===== verification/HashAggregateCorrect.v ===== *)
(** * Correctness of the hash aggregate operator

    The operator of [HashAggregate] computes GROUP BY: under every schedule of
    its partitions the output has, for every grouping set, one row per group,
    whose aggregates are those of the rows of the group, or of their distinct
    inputs.  It does not fail, does not lose a wakeup, and ends. *)
From S2P Require Import Prelude PartitionSync RowBlocks Hash HashDirectory AggHashTable PartitionedTable HashAggregate HashAggregatePlan HashAggregateSteps.

Section Theorems.
Context {V St : Type} `{EqDecision V}.
Variable hash_one : V -> Z.
Variable int64_value : Z -> V.
Variable blank : option V.
Variable batch_size : nat.

Implicit Types (op : PhysicalHashAggregate V St) (ins : list (list (Columns V))).

(** The operator and the batches of its partitions: columns in range, a valid
    number of partitions, and few enough rows for the directories of the tables. *)
Record agg_input op (w : nat) ins : Prop := {
  gi_op : agg_ok op w;
  gi_columns : Forall (Forall (columns_ok w)) ins;
  gi_partitions : MIN_PARTITION_COUNT <= length ins <= MAX_PARTITION_COUNT;
  gi_bound : (Z.of_nat ((1 + length (aggregate_selection 0 (agg_aggregates op)).1) * length (concat (input_rows <$> ins))) <= 2 ^ 61)%Z;
}.

Local Abbreviation agg_step plan := (step hash_one int64_value blank batch_size plan).

Lemma reachable_inv op w ins plan :
  0 < batch_size -> (forall v, is_u64 (hash_one v)) -> agg_input op w ins -> plan_ok op plan ->
  forall s sets rows, inv hash_one int64_value batch_size (length ins) op w plan ins sets rows s ->
  forall s', rtc (agg_step plan) s s' -> exists sets' rows', inv hash_one int64_value batch_size (length ins) op w plan ins sets' rows' s'.
Proof.
  intros Hb Hh [Hop Hcols Hn Hbound] Hplan s sets rows Hinv s' Hsteps. revert sets rows Hinv. induction Hsteps as [s|s1 s2 s3 [idx sa sb Hstep] _ IH]; intros sets rows Hinv; [by eexists _, _|].
  destruct (system_step_inv hash_one Hh int64_value blank batch_size Hb (length ins) (proj1 Hn) op w Hop plan Hplan ins eq_refl Hbound sets rows sa idx _ Hinv Hstep)
    as (s' & sets' & rows' & [= <-] & Hinv' & _). by eapply IH.
Qed.

(** C1. GROUP BY: however the partitions of a hash aggregate are scheduled, when
    all are finished their outputs together are, for every grouping set, one row
    for every group of the input rows of all partitions, with the groups that
    are not in the set NULL, every aggregate over the rows of the group, every
    DISTINCT aggregate over each different input of the group once, and the
    values of the GROUPING functions. *)
Theorem group_by_correct op w ins :
  0 < batch_size -> (forall v, is_u64 (hash_one v)) -> agg_input op w ins ->
  exists plan s0, create_plan op = Ok plan /\ create plan ins = Ok s0 /\ forall s, rtc (agg_step plan) s0 s -> finished s ->
    exists outs, concat (emitted <$> partitions s) ≡ₚ concat outs
      /\ Forall2 (set_output int64_value op (concat (input_rows <$> ins))) (grouping_sets op) outs.
Proof.
  intros Hb Hh Hin. pose proof Hin as [Hop Hcols Hn Hbound]. destruct (create_plan_spec op w Hop) as (plan & Hplan & Hok). exists plan, (new_system (length ins) plan ins).
  split_and!; [done|by eapply (create_ok batch_size Hb _ (proj1 Hn) op plan Hok ins eq_refl Hbound (proj2 Hn))|]. intros s Hsteps Hfin.
  destruct (reachable_inv op w ins plan Hb Hh Hin Hok _ _ _ (new_system_inv hash_one int64_value batch_size Hb _ (proj1 Hn) op w plan Hok ins Hcols eq_refl Hbound (proj2 Hn)) s Hsteps)
    as (sets & rows & Hinv). exact (finished_result hash_one Hh int64_value batch_size Hb _ (proj1 Hn) op w Hop plan Hok ins eq_refl Hbound (proj2 Hn) sets rows s Hinv Hfin).
Qed.

(** C2. A hash aggregate never gets stuck: in every reachable state no step of a
    partition fails (no error, assertion or out-of-range access; in particular
    no table is merged or scanned too early), and unless all partitions are
    finished some partition can take a step, so no wakeup is lost. *)
Theorem group_by_progress op w ins :
  0 < batch_size -> (forall v, is_u64 (hash_one v)) -> agg_input op w ins ->
  exists plan s0, create_plan op = Ok plan /\ create plan ins = Ok s0 /\ forall s, rtc (agg_step plan) s0 s ->
    (forall idx r, system_step hash_one int64_value blank batch_size plan idx s = Some r -> is_ok r = true)
    /\ (finished s \/ exists s', agg_step plan s s').
Proof.
  intros Hb Hh Hin. pose proof Hin as [Hop Hcols Hn Hbound]. destruct (create_plan_spec op w Hop) as (plan & Hplan & Hok). exists plan, (new_system (length ins) plan ins).
  split_and!; [done|by eapply (create_ok batch_size Hb _ (proj1 Hn) op plan Hok ins eq_refl Hbound (proj2 Hn))|]. intros s Hsteps.
  destruct (reachable_inv op w ins plan Hb Hh Hin Hok _ _ _ (new_system_inv hash_one int64_value batch_size Hb _ (proj1 Hn) op w plan Hok ins Hcols eq_refl Hbound (proj2 Hn)) s Hsteps)
    as (sets & rows & Hinv).
  pose proof (system_step_inv hash_one Hh int64_value blank batch_size Hb (length ins) (proj1 Hn) op w Hop plan Hok ins eq_refl Hbound sets rows s) as Hstep. split.
  - intros idx r Hr. by destruct (Hstep idx r Hinv Hr) as (s' & ? & ? & -> & _).
  - destruct (inv_progress hash_one Hh int64_value blank batch_size Hb (length ins) (proj1 Hn) op w Hop plan Hok ins eq_refl Hbound sets rows s Hinv) as [|(idx & r & Hr)]; [by left|right].
    destruct (Hstep idx r Hinv Hr) as (s' & ? & ? & -> & _). exists s'. by apply (step_partition _ _ _ _ _ idx).
Qed.

(** C3. A hash aggregate terminates: no schedule has more steps than a bound that
    depends on the inputs alone, waiting and waking up included. *)
Theorem group_by_terminates op w ins :
  0 < batch_size -> (forall v, is_u64 (hash_one v)) -> agg_input op w ins ->
  exists plan s0, create_plan op = Ok plan /\ create plan ins = Ok s0 /\ forall k s, nsteps (agg_step plan) k s0 s -> k <= step_bound (length ins) op ins.
Proof.
  intros Hb Hh [Hop Hcols Hn Hbound]. destruct (create_plan_spec op w Hop) as (plan & Hplan & Hok). exists plan, (new_system (length ins) plan ins).
  split_and!; [done|by eapply (create_ok batch_size Hb _ (proj1 Hn) op plan Hok ins eq_refl Hbound (proj2 Hn))|]. intros k s Hsteps.
  rewrite <- (new_system_measure batch_size Hb _ (proj1 Hn) op plan ins eq_refl Hbound (proj2 Hn)).
  pose proof (new_system_inv hash_one int64_value batch_size Hb _ (proj1 Hn) op w plan Hok ins Hcols eq_refl Hbound (proj2 Hn)) as Hinv. revert Hinv.
  generalize (new_sets (length ins) plan) (replicate (length ins) (@nil (list (option V)))). induction Hsteps as [s0|k s1 s2 s3 [idx sa sb Hstep] _ IH]; intros sets rows Hinv; [lia|].
  destruct (system_step_inv hash_one Hh int64_value blank batch_size Hb (length ins) (proj1 Hn) op w Hop plan Hok ins eq_refl Hbound sets rows sa idx _ Hinv Hstep)
    as (s' & sets' & rows' & [= <-] & Hinv' & Hlt). specialize (IH sets' rows' Hinv'). lia.
Qed.

End Theorems.

(** *** Examples *)

(** Two partitions: a sum, a distinct count and a distinct sum by two columns,
    for the grouping sets of a ROLLUP. *)
Module GroupByExample.

Definition hash_value (v : Z) : Z := ((v * 0x9E3779B97F4A7C15) mod 2 ^ 64)%Z.

Lemma hash_value_u64 v : is_u64 (hash_value v).
Proof. unfold is_u64, hash_value. by apply Z.mod_pos_bound. Qed.

Definition rollup : PhysicalHashAggregate Z Z :=
  mkHashAggregate [0; 1] [[0; 1]]
    [mkPhysical AggExample.sum_agg [2] false; mkPhysical AggExample.count_agg [3] true; mkPhysical AggExample.sum_agg [4] true]
    [[0; 1]; [0]; []].

Definition sales1 : Columns Z :=
  mkColumns [[Some 1; Some 1; Some 2]; [Some 5; None; Some 5]; [Some 10; Some 20; Some 30]; [Some 7; Some 7; Some 8]; [Some 7; Some 7; Some 8]]%Z 3.
Definition sales2 : Columns Z :=
  mkColumns [[Some 2; Some 1]; [Some 5; None]; [Some 100; Some 200]; [Some 8; Some 9]; [Some 8; Some 9]]%Z 2.
Definition sales : list (list (Columns Z)) := [[sales1]; [sales2; sales1]].

Local Abbreviation the_step plan := (step hash_value id None 2 plan).

Fixpoint run_steps (plan : Plan Z Z) (schedule : list nat) (s : System Z Z) : option (System Z Z) :=
  match schedule with
  | [] => Some s
  | idx :: rest => match system_step hash_value id None 2 plan idx s with Some (Ok s') => run_steps plan rest s' | Some _ => None | None => run_steps plan rest s end
  end.

Lemma run_steps_rtc plan schedule s s' : run_steps plan schedule s = Some s' -> rtc (the_step plan) s s'.
Proof.
  revert s. induction schedule as [|idx rest IH]; intros s; cbn [run_steps]; [by intros [= ->]|].
  destruct (system_step _ _ _ _ plan idx s) as [[s1| |]|] eqn:Hs; try done; [|apply IH]. intros Hr.
  eapply rtc_l; [by apply (step_partition _ _ _ _ _ idx)|by apply IH].
Qed.

Lemma rollup_ok : agg_input rollup 5 sales.
Proof.
  pose proof AggExample.sums_combine as Hc. apply Forall_cons in Hc as [Hsum Hc]. apply Forall_cons in Hc as [Hcount _]. split.
  - split; cbn.
    + repeat constructor.
    + repeat constructor.
    + by repeat constructor.
    + repeat constructor; lia.
    + repeat constructor; lia.
    + intros [|[|[|i]]] [|[|[|j]]] a b [= <-] [= <-]; try done; by left.
  - repeat constructor.
  - unfold MIN_PARTITION_COUNT, MAX_PARTITION_COUNT. cbn. lia.
  - done.
Qed.

(** The partitions step in turn. *)
Definition in_turn : list nat := concat (replicate 20 [0; 1]).

Definition rollup_rows : list (list (option Z)) :=
  [[None; None; Some 420; Some 3; Some 24; Some 3]; [Some 1; None; Some 260; Some 2; Some 16; Some 1]; [Some 2; None; Some 160; Some 1; Some 8; Some 1];
   [Some 1; None; Some 240; Some 2; Some 16; Some 0]; [Some 2; Some 5; Some 160; Some 1; Some 8; Some 0]; [Some 1; Some 5; Some 20; Some 1; Some 7; Some 0]]%Z.

Lemma group_by_correct_witness :
  exists plan s0 s, create_plan rollup = Ok plan /\ create plan sales = Ok s0 /\ rtc (the_step plan) s0 s /\ finished s
    /\ concat (emitted <$> partitions s) = rollup_rows
    /\ exists outs, rollup_rows ≡ₚ concat outs /\ Forall2 (set_output id rollup (concat (input_rows <$> sales))) (grouping_sets rollup) outs.
Proof.
  destruct (group_by_correct hash_value id None 2 rollup 5 sales ltac:(lia) hash_value_u64 rollup_ok) as (plan & s0 & Hp & Hc & Hs).
  assert (exists s, run_steps plan in_turn s0 = Some s /\ finished s /\ concat (emitted <$> partitions s) = rollup_rows) as (s & Hr & Hf & He).
  { vm_compute in Hp. injection Hp as <-. vm_compute in Hc. injection Hc as <-. eexists. split; [vm_compute; reflexivity|]. split; [|vm_compute; reflexivity]. repeat constructor. }
  apply run_steps_rtc in Hr. destruct (Hs s Hr Hf) as (outs & Hperm & Hout). exists plan, s0, s. split; [exact Hp|]. split; [exact Hc|]. split; [exact Hr|]. split; [exact Hf|].
  split; [exact He|]. exists outs. split; [by rewrite <- He|exact Hout].
Defined.

Lemma group_by_progress_witness :
  exists plan s0, create_plan rollup = Ok plan /\ create plan sales = Ok s0 /\ forall s, rtc (the_step plan) s0 s -> finished s \/ exists s', the_step plan s s'.
Proof.
  destruct (group_by_progress hash_value id None 2 rollup 5 sales ltac:(lia) hash_value_u64 rollup_ok) as (plan & s0 & Hp & Hc & Hs).
  exists plan, s0. split; [exact Hp|]. split; [exact Hc|]. intros s Hr. apply (Hs s Hr).
Defined.

Lemma group_by_terminates_witness :
  exists plan s0, create_plan rollup = Ok plan /\ create plan sales = Ok s0 /\ forall k s, nsteps (the_step plan) k s0 s -> k <= 207.
Proof. apply (group_by_terminates hash_value id None 2 rollup 5 sales ltac:(lia) hash_value_u64 rollup_ok). Defined.

End GroupByExample.
