(* ===== verification/LogicalExpr.v ===== *)
(** * Logical expressions

    Models [expr/mod.rs] and the expression structs of [expr/*_expr.rs]: the
    [Expression] enum the binder produces and the optimizer rewrites, its
    traversals [for_each_child] and [for_each_child_mut], and the table
    references of an expression.  The second half gives expressions a meaning:
    AND and OR as the evaluator computes them, comparisons as in
    [functions/scalar/builtin/comparison.rs], and any other node through an
    arbitrary interpretation of its own data and its children. *)
From S2P Require Import Prelude Arrays ArrayData Executors Batch ExprEval.

(** ** Definitions *)

(** The data carried by expression nodes that the rewrites only copy and
    compare: data types, literals, bound functions, bound subqueries, window
    frames and sort options. *)
Class Payload : Type := {
  DataType : Type;
  ScalarValue : Type;
  PlannedScalarFunction : Type;
  PlannedAggregateFunction : Type;
  PlannedCastFunction : Type;
  SubqueryExpr : Type;
  WindowFrame : Type;
  SortOptions : Type;
  DataType_eq_dec :: EqDecision DataType;
  ScalarValue_eq_dec :: EqDecision ScalarValue;
  PlannedScalarFunction_eq_dec :: EqDecision PlannedScalarFunction;
  PlannedAggregateFunction_eq_dec :: EqDecision PlannedAggregateFunction;
  PlannedCastFunction_eq_dec :: EqDecision PlannedCastFunction;
  SubqueryExpr_eq_dec :: EqDecision SubqueryExpr;
  WindowFrame_eq_dec :: EqDecision WindowFrame;
  SortOptions_eq_dec :: EqDecision SortOptions;
}.

Module ArithOperator.
Inductive t : Type := Add | Sub | Div | Mul | Mod.
#[global] Instance t_eq_dec : EqDecision t.
Proof. solve_decision. Defined.
End ArithOperator.

Module ComparisonOperator.
Inductive t : Type := Eq | NotEq | Lt | LtEq | Gt | GtEq | IsDistinctFrom | IsNotDistinctFrom.
#[global] Instance t_eq_dec : EqDecision t.
Proof. solve_decision. Defined.

(** [ComparisonOperator::flip] *)
Definition flip (op : t) : t :=
  match op with
  | Eq => Eq
  | NotEq => NotEq
  | Lt => Gt
  | LtEq => GtEq
  | Gt => Lt
  | GtEq => LtEq
  | IsDistinctFrom => IsDistinctFrom
  | IsNotDistinctFrom => IsDistinctFrom
  end.

End ComparisonOperator.

Module ConjunctionOperator.
Inductive t : Type := And | Or.
#[global] Instance t_eq_dec : EqDecision t.
Proof. solve_decision. Defined.
End ConjunctionOperator.

Module IsOperator.
Inductive t : Type := IsTrue | IsFalse | IsNull | IsNotNull.
#[global] Instance t_eq_dec : EqDecision t.
Proof. solve_decision. Defined.
End IsOperator.

Module NegateOperator.
Inductive t : Type := Not | Negate.
#[global] Instance t_eq_dec : EqDecision t.
Proof. solve_decision. Defined.
End NegateOperator.

(** [TableRef] *)
Definition TableRef : Type := nat.

Record ColumnReference : Type := mkColumn {
  table_scope : TableRef;
  column : nat;
}.

#[global] Instance ColumnReference_eq_dec : EqDecision ColumnReference.
Proof. solve_decision. Defined.

Section Expression.
Context {PL : Payload}.

(** [Expression], with the fields of the expression structs. *)
Inductive Expression : Type :=
| Aggregate (agg : PlannedAggregateFunction) (inputs : list Expression) (flt : option Expression) (distinct : bool)
| Arith (op : ArithOperator.t) (left right : Expression) (return_type : DataType)
| Between (lower upper input : Expression)
| Case (cases : list (Expression * Expression)) (else_expr : Expression) (datatype : DataType)
| Cast (to : DataType) (expr : Expression) (cast_function : PlannedCastFunction)
| Column (reference : ColumnReference) (datatype : DataType)
| Comparison (op : ComparisonOperator.t) (left right : Expression)
| Conjunction (op : ConjunctionOperator.t) (expressions : list Expression)
| Is (op : IsOperator.t) (input : Expression)
| Literal (value : ScalarValue)
| Negate (op : NegateOperator.t) (expr : Expression)
| ScalarFunction (function : PlannedScalarFunction) (inputs : list Expression)
| Subquery (subquery : SubqueryExpr)
| Window (agg : PlannedAggregateFunction) (inputs partition_by : list Expression)
    (order_by : list (Expression * SortOptions)) (frame : WindowFrame)
| Unnest (expr : Expression)
| GroupingSet (inputs : list Expression).

(** [Expression::for_each_child]: the children, in the order they are visited. *)
Definition children (e : Expression) : list Expression :=
  match e with
  | Aggregate _ inputs flt _ => inputs ++ option_list flt
  | Arith _ l r _ => [l; r]
  | Between lower upper input => [lower; upper; input]
  | Case cases else_expr _ => flat_map (fun wt => [wt.1; wt.2]) cases ++ [else_expr]
  | Cast _ expr _ => [expr]
  | Column _ _ => []
  | Comparison _ l r => [l; r]
  | Conjunction _ expressions => expressions
  | Is _ input => [input]
  | Literal _ => []
  | Negate _ expr => [expr]
  | ScalarFunction _ inputs => inputs
  | Subquery _ => []
  | Window _ inputs partition_by order_by _ => inputs ++ partition_by ++ map fst order_by
  | Unnest expr => [expr]
  | GroupingSet inputs => inputs
  end.

(** [Expression::for_each_child_mut]: the closure updates every child in
    place; an error stops the visit. *)
Definition for_each_child_mut (func : Expression -> res Expression) (e : Expression) : res Expression :=
  match e with
  | Aggregate agg inputs flt distinct =>
      inputs' ← collect func inputs;
      match flt with
      | Some f => f' ← func f; Ok (Aggregate agg inputs' (Some f') distinct)
      | None => Ok (Aggregate agg inputs' None distinct)
      end
  | Arith op l r dt => l' ← func l; r' ← func r; Ok (Arith op l' r' dt)
  | Between lower upper input =>
      lower' ← func lower; upper' ← func upper; input' ← func input; Ok (Between lower' upper' input')
  | Cast to expr f => expr' ← func expr; Ok (Cast to expr' f)
  | Case cases else_expr dt =>
      cases' ← collect (fun wt => w ← func wt.1; t ← func wt.2; Ok (w, t)) cases;
      else' ← func else_expr;
      Ok (Case cases' else' dt)
  | Column r dt => Ok (Column r dt)
  | Comparison op l r => l' ← func l; r' ← func r; Ok (Comparison op l' r')
  | Conjunction op expressions => es ← collect func expressions; Ok (Conjunction op es)
  | Is op input => input' ← func input; Ok (Is op input')
  | Literal v => Ok (Literal v)
  | Negate op expr => expr' ← func expr; Ok (Negate op expr')
  | ScalarFunction f inputs => inputs' ← collect func inputs; Ok (ScalarFunction f inputs')
  | Subquery s => Ok (Subquery s)
  | Window agg inputs partition_by order_by frame =>
      inputs' ← collect func inputs;
      partition_by' ← collect func partition_by;
      order_by' ← collect (fun o => o' ← func o.1; Ok (o', o.2)) order_by;
      Ok (Window agg inputs' partition_by' order_by' frame)
  | Unnest expr => expr' ← func expr; Ok (Unnest expr')
  | GroupingSet inputs => inputs' ← collect func inputs; Ok (GroupingSet inputs')
  end.

(** A node without its children. *)
Inductive Label : Type :=
| LAggregate (agg : PlannedAggregateFunction) (inputs : nat) (has_filter distinct : bool)
| LArith (op : ArithOperator.t) (return_type : DataType)
| LBetween
| LCase (cases : nat) (datatype : DataType)
| LCast (to : DataType) (cast_function : PlannedCastFunction)
| LColumn (reference : ColumnReference) (datatype : DataType)
| LComparison (op : ComparisonOperator.t)
| LConjunction (op : ConjunctionOperator.t)
| LIs (op : IsOperator.t)
| LLiteral (value : ScalarValue)
| LNegate (op : NegateOperator.t)
| LScalarFunction (function : PlannedScalarFunction)
| LSubquery (subquery : SubqueryExpr)
| LWindow (agg : PlannedAggregateFunction) (inputs partition_by : nat) (order_by : list SortOptions)
    (frame : WindowFrame)
| LUnnest
| LGroupingSet.

#[global] Instance Label_eq_dec : EqDecision Label.
Proof. solve_decision. Defined.

Definition label (e : Expression) : Label :=
  match e with
  | Aggregate agg inputs flt distinct => LAggregate agg (length inputs) (bool_decide (is_Some flt)) distinct
  | Arith op _ _ dt => LArith op dt
  | Between _ _ _ => LBetween
  | Case cases _ dt => LCase (length cases) dt
  | Cast to _ f => LCast to f
  | Column r dt => LColumn r dt
  | Comparison op _ _ => LComparison op
  | Conjunction op _ => LConjunction op
  | Is op _ => LIs op
  | Literal v => LLiteral v
  | Negate op _ => LNegate op
  | ScalarFunction f _ => LScalarFunction f
  | Subquery s => LSubquery s
  | Window agg inputs partition_by order_by frame =>
      LWindow agg (length inputs) (length partition_by) (map snd order_by) frame
  | Unnest _ => LUnnest
  | GroupingSet _ => LGroupingSet
  end.

(** Recursion over an expression: a node and the results for its children. *)
Fixpoint expr_fold {A} (f : Expression -> list A -> A) (e : Expression) : A :=
  f e match e with
      | Aggregate _ inputs flt _ =>
          map (expr_fold f) inputs ++ match flt with Some x => [expr_fold f x] | None => [] end
      | Arith _ l r _ => [expr_fold f l; expr_fold f r]
      | Between lower upper input => [expr_fold f lower; expr_fold f upper; expr_fold f input]
      | Case cases else_expr _ =>
          flat_map (fun wt => [expr_fold f wt.1; expr_fold f wt.2]) cases ++ [expr_fold f else_expr]
      | Cast _ expr _ => [expr_fold f expr]
      | Column _ _ => []
      | Comparison _ l r => [expr_fold f l; expr_fold f r]
      | Conjunction _ expressions => map (expr_fold f) expressions
      | Is _ input => [expr_fold f input]
      | Literal _ => []
      | Negate _ expr => [expr_fold f expr]
      | ScalarFunction _ inputs => map (expr_fold f) inputs
      | Subquery _ => []
      | Window _ inputs partition_by order_by _ =>
          map (expr_fold f) inputs ++ map (expr_fold f) partition_by ++ map (fun o => expr_fold f o.1) order_by
      | Unnest expr => [expr_fold f expr]
      | GroupingSet inputs => map (expr_fold f) inputs
      end.

Definition size : Expression -> nat := expr_fold (fun _ sizes => S (sum_list sizes)).

(** [#[derive(PartialEq)]].  Payloads are compared as a whole: a planned function
    stands for what its [PartialEq] looks at (name, types and inputs), and its
    meaning is a function of that, so functions are taken as deterministic. *)
Fixpoint all2 {A} (fs : list (A -> bool)) (l : list A) : bool :=
  match fs, l with
  | [], [] => true
  | f :: fs', x :: l' => f x && all2 fs' l'
  | _, _ => false
  end.

Definition expr_eqb : Expression -> Expression -> bool :=
  expr_fold (fun e1 eqs e2 => bool_decide (label e1 = label e2) && all2 eqs (children e2)).

(** [Expression::get_table_references] *)
Definition get_table_references : Expression -> gset TableRef :=
  expr_fold (fun e tables =>
    match e with
    | Column r _ => {[table_scope r]}
    | _ => ⋃ tables
    end).

End Expression.

(** ** Structure of expressions *)

Section Structure.
Context {PL : Payload}.
Implicit Types e : Expression.

Lemma expr_fold_eq {A} (f : Expression -> list A -> A) e :
  expr_fold f e = f e (map (expr_fold f) (children e)).
Proof.
  destruct e as [? inputs flt ?| | |cases els ?| | | | | | | | | |? inputs parts order ?| |]; cbn [expr_fold children]; try done.
  - f_equal. rewrite map_app. by destruct flt.
  - f_equal. rewrite map_app. f_equal. induction cases as [|[w t] cases IH]; [done|]. cbn. by rewrite IH.
  - f_equal. rewrite !map_app, map_map. done.
Qed.

Lemma size_eq e : size e = S (sum_list (size <$> children e)).
Proof. unfold size at 1. by rewrite expr_fold_eq. Qed.

Lemma sum_list_elem (l : list nat) n : n ∈ l -> n <= sum_list l.
Proof. induction 1; simpl; lia. Qed.

Lemma size_child e c : c ∈ children e -> size c < size e.
Proof.
  intros Hc. rewrite (size_eq e).
  assert (size c <= sum_list (size <$> children e)); [|lia].
  apply sum_list_elem, list_elem_of_fmap. eauto.
Qed.

Lemma expr_ind_children (P : Expression -> Prop) :
  (forall e, (forall c, c ∈ children e -> P c) -> P e) -> forall e, P e.
Proof.
  intros Hstep e. remember (size e) as n eqn:Hn. revert e Hn.
  induction (lt_wf n) as [n _ IH]. intros e ->. apply Hstep. intros c Hc. eapply IH; [|done]. by apply size_child.
Qed.

Lemma cases_inj (cs cs' : list (Expression * Expression)) :
  length cs = length cs' -> flat_map (fun wt => [wt.1; wt.2]) cs = flat_map (fun wt => [wt.1; wt.2]) cs' -> cs = cs'.
Proof.
  revert cs'. induction cs as [|[w t] cs IH]; intros [|[w' t'] cs']; simpl; try done.
  intros [= Hlen] [= -> -> Heq]. by rewrite (IH cs').
Qed.

Lemma pairs_inj {A B} (l l' : list (A * B)) : map snd l = map snd l' -> map fst l = map fst l' -> l = l'.
Proof.
  revert l'. induction l as [|[x o] l IH]; intros [|[x' o'] l']; simpl; try done.
  intros [= -> H2] [= -> H1]. f_equal. by apply IH.
Qed.

Lemma label_children_inj e1 e2 : label e1 = label e2 -> children e1 = children e2 -> e1 = e2.
Proof.
  destruct e1, e2; cbn [label children]; intros Hl Hc; simplify_eq; try done.
  - apply app_inj_1 in Hc as [-> Hf]; [|done]. destruct flt, flt0; simpl in Hf; by simplify_eq.
  - apply app_inj_2 in Hc as [Hc [= ->]]; [|done]. f_equal. by apply cases_inj.
  - apply app_inj_1 in Hc as [-> Hc]; [|done]. apply app_inj_1 in Hc as [-> Hc]; [|done]. f_equal.
    by apply pairs_inj.
Qed.

Lemma all2_spec {A} (eqb : A -> A -> bool) l1 l2 :
  (forall x y, x ∈ l1 -> eqb x y = true <-> x = y) -> all2 (map eqb l1) l2 = true <-> l1 = l2.
Proof.
  revert l2. induction l1 as [|x l1 IH]; intros [|y l2] Heq; simpl; try done.
  rewrite andb_true_iff, Heq by apply list_elem_of_here.
  rewrite IH by (intros; apply Heq; by apply list_elem_of_further). naive_solver.
Qed.

Lemma expr_eqb_spec e1 e2 : expr_eqb e1 e2 = true <-> e1 = e2.
Proof.
  revert e2. induction e1 as [e1 IH] using expr_ind_children. intros e2.
  unfold expr_eqb. rewrite expr_fold_eq. fold expr_eqb.
  rewrite andb_true_iff, bool_decide_eq_true, all2_spec by (intros x y Hx; by apply IH).
  split; [intros [??]; by apply label_children_inj|by intros ->].
Qed.

(** The derived equality of expressions. *)
#[global] Instance Expression_eq_dec : EqDecision Expression.
Proof.
  intros e1 e2. destruct (expr_eqb e1 e2) eqn:Heq.
  - left. by apply expr_eqb_spec.
  - right. intros ->. assert (expr_eqb e2 e2 = true) by by apply expr_eqb_spec. congruence.
Defined.

(** Visiting the children one after the other. *)
Definition visits (f : Expression -> res Expression) (l : list Expression) : Prop :=
  forall c, c ∈ l -> exists c', f c = Ok c'.

Lemma visits_cons f x l : visits f (x :: l) <-> (exists x', f x = Ok x') /\ visits f l.
Proof.
  split.
  - intros Hv. split; [apply Hv, list_elem_of_here|]. intros c Hc. apply Hv. by apply list_elem_of_further.
  - intros [Hx Hl] c [->|Hc]%elem_of_cons; auto.
Qed.

Lemma visits_app f l1 l2 : visits f (l1 ++ l2) <-> visits f l1 /\ visits f l2.
Proof.
  unfold visits. split.
  - intros Hv. split; intros c Hc; apply Hv, elem_of_app; auto.
  - intros [H1 H2] c [Hc|Hc]%elem_of_app; auto.
Qed.

Lemma collect_visits f l :
  visits f l -> exists l', collect f l = Ok l' /\ Forall2 (fun c c' => f c = Ok c') l l'.
Proof.
  induction l as [|x l IH]; [by exists []|]. intros [[x' Hx] Hl]%visits_cons.
  destruct IH as (l' & Hl' & HF); [done|]. exists (x' :: l'). cbn. rewrite Hx. cbn. rewrite Hl'.
  split; [done|by constructor].
Qed.

Lemma collect_cases_visits f (cases : list (Expression * Expression)) :
  visits f (flat_map (fun wt => [wt.1; wt.2]) cases) ->
  exists l', collect (fun wt : Expression * Expression => w ← f wt.1; t ← f wt.2; Ok (w, t)) cases = Ok l'
    /\ length l' = length cases
    /\ Forall2 (fun c c' => f c = Ok c') (flat_map (fun wt => [wt.1; wt.2]) cases) (flat_map (fun wt => [wt.1; wt.2]) l').
Proof.
  induction cases as [|[w t] cases IH]; [by exists []|]. cbn.
  intros [[w' Hw] [[t' Ht] Hc]%visits_cons]%visits_cons. destruct IH as (l' & Hl' & Hlen & HF); [done|].
  exists ((w', t') :: l'). rewrite Hw. cbn. rewrite Ht. cbn. rewrite Hl'. cbn. rewrite Hlen.
  split_and!; [done|done|by repeat constructor].
Qed.

Lemma collect_fst_visits {B} f (l : list (Expression * B)) :
  visits f (map fst l) ->
  exists l', collect (fun o : Expression * B => o' ← f o.1; Ok (o', o.2)) l = Ok l' /\ map snd l' = map snd l
    /\ Forall2 (fun c c' => f c = Ok c') (map fst l) (map fst l').
Proof.
  induction l as [|[x o] l IH]; [by exists []|]. cbn. intros [[x' Hx] Hc]%visits_cons.
  destruct IH as (l' & Hl' & Hs & HF); [done|]. exists ((x', o) :: l'). rewrite Hx. cbn. rewrite Hl'. cbn. rewrite Hs.
  split_and!; [done|done|by constructor].
Qed.

(** [for_each_child_mut] replaces every child and keeps the rest of the node. *)
Lemma for_each_child_mut_spec (f : Expression -> res Expression) e :
  visits f (children e) ->
  exists e', for_each_child_mut f e = Ok e' /\ label e' = label e
    /\ Forall2 (fun c c' => f c = Ok c') (children e) (children e').
Proof.
  destruct e; cbn [children for_each_child_mut]; intros Hf.
  all: try (by eexists).
  all: try (destruct (collect_visits _ _ Hf) as (l' & Hl' & HF); rewrite Hl'; eexists; by split_and!).
  all: repeat match goal with
    | H : visits _ (_ :: _) |- _ => let Hx := fresh "Hx" in apply visits_cons in H as [[? Hx] H]; rewrite Hx; cbn
    end.
  all: try (eexists; split_and!; [done|done|by repeat constructor]).
  - apply visits_app in Hf as [Hi Ho]. destruct (collect_visits _ _ Hi) as (l' & Hl' & HF). rewrite Hl'.
    destruct flt as [x|]; cbn.
    + apply visits_cons in Ho as [[x' Hx] _]. rewrite Hx. cbn. eexists.
      split_and!; [done|by cbn; rewrite (Forall2_length _ _ _ HF)|]. apply Forall2_app; [done|by repeat constructor].
    + eexists. split_and!; [done|by cbn; rewrite (Forall2_length _ _ _ HF)|]. by apply Forall2_app.
  - apply visits_app in Hf as [Hc [[x' Hx] _]%visits_cons]. destruct (collect_cases_visits _ _ Hc) as (l' & Hl' & Hlen & HF).
    rewrite Hl'. cbn. rewrite Hx. cbn.
    eexists. split_and!; [done|by cbn; rewrite Hlen|]. apply Forall2_app; [done|by repeat constructor].
  - apply visits_app in Hf as [Hi [Hp Ho]%visits_app]. destruct (collect_visits _ _ Hi) as (l1 & Hl1 & HF1).
    destruct (collect_visits _ _ Hp) as (l2 & Hl2 & HF2). destruct (collect_fst_visits _ _ Ho) as (l3 & Hl3 & Hs & HF3).
    rewrite Hl1. cbn. rewrite Hl2. cbn. rewrite Hl3. cbn. eexists. split_and!; [done| |by repeat apply Forall2_app].
    cbn. by rewrite (Forall2_length _ _ _ HF1), (Forall2_length _ _ _ HF2), Hs.
Qed.

End Structure.

(** ** Meaning of expressions *)

(** What evaluation promises to the rewrites: rows give values to columns
    ([column_value]), booleans are represented, values compare as with
    [PartialEq] and [PartialOrd], and any other node computes its value from
    its own data and from its children, seen as functions of the row (an
    aggregate or a window function may look at other rows than the current
    one). *)
Class Interpretation (PL : Payload) (V : Type) : Type := {
  Env : Type;
  column_value : Env -> ColumnReference -> option V;
  as_bool : V -> bool;
  of_bool : bool -> V;
  as_of_bool : forall b, as_bool (of_bool b) = b;
  partial_eq : V -> V -> bool;
  partial_lt : V -> V -> bool;
  partial_le : V -> V -> bool;
  partial_eq_sym : forall a b, partial_eq a b = partial_eq b a;
  node_value : Label -> list (Env -> option V) -> Env -> option V;
  node_value_proper : forall lbl fs gs,
    Forall2 (fun f g => forall env, f env = g env) fs gs -> forall env, node_value lbl fs env = node_value lbl gs env;
}.

Section Semantics.
Context {PL : Payload} {V : Type} {I : Interpretation PL V}.
Implicit Types e : Expression.

(** [IsDistinctFromOperation::compare_nullable] and
    [IsNotDistinctFromOperation::compare_nullable] *)
Definition is_distinct_from (l r : option V) : bool :=
  match l, r with
  | Some a, Some b => negb (partial_eq a b)
  | Some _, None | None, Some _ => true
  | None, None => false
  end.

Definition is_not_distinct_from (l r : option V) : bool :=
  match l, r with
  | Some a, Some b => partial_eq a b
  | Some _, None | None, Some _ => false
  | None, None => true
  end.

(** The comparison functions: NULL if an input is NULL, except for the two
    distinctness tests. *)
Definition compare_values (op : ComparisonOperator.t) (l r : option V) : option V :=
  let strict (f : V -> V -> bool) := a ← l; b ← r; Some (of_bool (f a b)) in
  match op with
  | ComparisonOperator.Eq => strict partial_eq
  | ComparisonOperator.NotEq => strict (fun a b => negb (partial_eq a b))
  | ComparisonOperator.Lt => strict partial_lt
  | ComparisonOperator.LtEq => strict partial_le
  | ComparisonOperator.Gt => strict (fun a b => partial_lt b a)
  | ComparisonOperator.GtEq => strict (fun a b => partial_le b a)
  | ComparisonOperator.IsDistinctFrom => Some (of_bool (is_distinct_from l r))
  | ComparisonOperator.IsNotDistinctFrom => Some (of_bool (is_not_distinct_from l r))
  end.

Definition conjunction_fn (op : ConjunctionOperator.t) : list bool -> bool :=
  match op with
  | ConjunctionOperator.And => forallb id
  | ConjunctionOperator.Or => existsb id
  end.

(** The value of a node from the values of its children.  A conjunction of one
    expression is planned as that expression. *)
Definition denote (lbl : Label) (vs : list (Env -> option V)) (env : Env) : option V :=
  match lbl with
  | LColumn r _ => column_value env r
  | LConjunction op => strict_sem as_bool of_bool (conjunction_fn op) (map (fun v => v env) vs)
  | LComparison op => match vs with [l; r] => compare_values op (l env) (r env) | _ => None end
  | _ => node_value lbl vs env
  end.

Definition eval : Expression -> Env -> option V := expr_fold (fun e vs => denote (label e) vs).

(** Expressions with the same value on every row. *)
Definition expr_equiv e1 e2 : Prop := forall env, eval e1 env = eval e2 env.

#[global] Instance expr_equiv_equivalence : Equivalence expr_equiv.
Proof.
  split; [by intros e env|by intros e1 e2 H env|]. intros e1 e2 e3 H12 H23 env. by rewrite H12.
Qed.

(** An expression of type Boolean: its values are NULL, TRUE or FALSE. *)
Definition boolean e : Prop := forall env v, eval e env = Some v -> exists b, v = of_bool b.

(** Every conjunction has inputs, and they are booleans. *)
Definition conjunction_typed e : Prop :=
  match e with Conjunction _ es => es <> [] /\ Forall boolean es | _ => True end.

Definition well_typed : Expression -> Prop :=
  expr_fold (fun e children_typed => conjunction_typed e /\ Forall id children_typed).

(** The truth value of an expression on a row. *)
Definition truth e (env : Env) : option bool := as_bool <$> eval e env.

Lemma eval_node e env : eval e env = denote (label e) (map eval (children e)) env.
Proof. unfold eval at 1. by rewrite expr_fold_eq. Qed.

Lemma well_typed_node e : well_typed e <-> conjunction_typed e /\ Forall well_typed (children e).
Proof. unfold well_typed at 1. rewrite expr_fold_eq. fold well_typed. by rewrite Forall_map. Qed.

Lemma well_typed_child e c : well_typed e -> c ∈ children e -> well_typed c.
Proof. intros [_ Hc]%well_typed_node Hin. rewrite Forall_forall in Hc. auto. Qed.

Lemma well_typed_conj op es : well_typed (Conjunction op es) <-> es <> [] /\ Forall (fun c => boolean c /\ well_typed c) es.
Proof. rewrite well_typed_node. cbn. rewrite Forall_and. tauto. Qed.

#[global] Instance boolean_proper : Proper (expr_equiv ==> iff) boolean.
Proof. intros e1 e2 Heq. unfold boolean. split; intros H env v Hv; apply (H env); by rewrite Heq in * || rewrite <- Heq in *. Qed.

Lemma denote_proper lbl fs gs env :
  Forall2 (fun f g => forall env, f env = g env) fs gs -> denote lbl fs env = denote lbl gs env.
Proof.
  intros HF. destruct lbl; cbn; try done; try by apply node_value_proper.
  - destruct HF as [|f g fs gs Hl HF]; [done|]. destruct HF as [|f' g' fs gs Hr HF]; [done|].
    destruct HF; [by rewrite Hl, Hr|done].
  - f_equal. induction HF as [|f g fs gs Hf _ IH]; [done|]. cbn. by rewrite Hf, IH.
Qed.

(** Rewriting the children of a node to equivalent ones keeps its meaning. *)
Lemma eval_congruence e e' :
  label e' = label e -> Forall2 expr_equiv (children e) (children e') -> expr_equiv e e'.
Proof.
  intros Hl HF env. rewrite !eval_node, Hl. apply denote_proper.
  induction HF as [|c c' l l' Hc _ IH]; cbn; by constructor.
Qed.

Lemma well_typed_congruence e e' :
  label e' = label e -> Forall2 (fun c c' => expr_equiv c c' /\ well_typed c') (children e) (children e') ->
  well_typed e -> well_typed e'.
Proof.
  intros Hl HF [Hc _]%well_typed_node. apply well_typed_node. split.
  - destruct e' as [| | | | | | |op' es'| | | | | | | |]; try done. destruct e as [| | | | | | |op es| | | | | | | |]; try done.
    cbn in *. destruct Hc as [Hne Hb]. split; [intros ->; by inversion HF|].
    clear Hne Hl. induction HF as [|c c' l l' [Hq _] _ IH]; [done|]. apply Forall_cons in Hb as [Hb1 Hb2].
    constructor; [by rewrite <- Hq|by apply IH].
  - clear Hc Hl. induction HF as [|c c' l l' [_ Hw] _ IH]; by constructor.
Qed.

(** *** Truth values of conjunctions *)

Lemma truth_ext e1 e2 env :
  (truth e1 env = None <-> truth e2 env = None) -> (truth e1 env = Some true <-> truth e2 env = Some true) ->
  truth e1 env = truth e2 env.
Proof. destruct (truth e1 env) as [[]|], (truth e2 env) as [[]|]; naive_solver. Qed.

Lemma boolean_truth_ext e1 e2 : boolean e1 -> boolean e2 -> (forall env, truth e1 env = truth e2 env) -> expr_equiv e1 e2.
Proof.
  intros H1 H2 Ht env. specialize (Ht env). unfold truth in Ht.
  destruct (eval e1 env) as [v1|] eqn:E1, (eval e2 env) as [v2|] eqn:E2; cbn in Ht; simplify_eq; [|done].
  destruct (H1 _ _ E1) as [b1 ->], (H2 _ _ E2) as [b2 ->]. rewrite !as_of_bool in Ht. by simplify_eq.
Qed.

Lemma strict_truth ops (vs : list (option V)) :
  vs <> [] -> (forall b, ops [b] = b) ->
  as_bool <$> strict_sem as_bool of_bool ops vs = ops <$> mapM (fun v => as_bool <$> v) vs.
Proof.
  intros Hne H1. assert (forall vs : list (option V), mapM (fun v => as_bool <$> v) vs = map as_bool <$> mapM id vs) as Hm.
  { induction vs0 as [|v l IH]; [done|]. cbn [mapM]. rewrite IH. by destruct v; cbn; [destruct (mapM id l)|]. }
  rewrite Hm. destruct vs as [|x [|y l]]; [done| |].
  - destruct x; cbn; [by rewrite H1|done].
  - unfold strict_sem. destruct (mapM id (x :: y :: l)); cbn; [by rewrite as_of_bool|done].
Qed.

Lemma truth_conj op es env : es <> [] -> truth (Conjunction op es) env = conjunction_fn op <$> mapM (fun c => truth c env) es.
Proof.
  intros Hne. unfold truth. rewrite eval_node. cbn. rewrite strict_truth.
  - rewrite !map_map. f_equal. clear Hne. induction es as [|c es IH]; [done|]. cbn. unfold truth. by rewrite IH.
  - by destruct es.
  - intros b. destruct op; cbn; [apply andb_true_r|apply orb_false_r].
Qed.

Lemma truth_conj_null op es env : es <> [] -> truth (Conjunction op es) env = None <-> exists c, c ∈ es /\ truth c env = None.
Proof.
  intros Hne. rewrite truth_conj by done. rewrite fmap_None, mapM_None, Exists_exists. done.
Qed.

Lemma truth_and_true es env :
  es <> [] -> truth (Conjunction ConjunctionOperator.And es) env = Some true <-> forall c, c ∈ es -> truth c env = Some true.
Proof.
  intros Hne. rewrite truth_conj by done. cbn. rewrite fmap_Some. clear Hne. split.
  - intros (bs & Hbs%mapM_Some & Hall) c Hc. symmetry in Hall. rewrite forallb_forall in Hall.
    apply list_elem_of_lookup in Hc as [i Hi]. destruct (Forall2_lookup_l _ _ _ _ _ Hbs Hi) as (b & Hb & Htr).
    rewrite Htr. f_equal. apply (Hall b), list_elem_of_In. by eapply list_elem_of_lookup_2.
  - intros Hall. exists (replicate (length es) true). split.
    + apply mapM_Some. induction es as [|c es IH]; cbn; constructor.
      * apply Hall, list_elem_of_here.
      * apply IH. intros; apply Hall. by apply list_elem_of_further.
    + symmetry. apply forallb_forall. intros b Hb%list_elem_of_In%elem_of_replicate. naive_solver.
Qed.

Lemma truth_or_true es env :
  es <> [] -> truth (Conjunction ConjunctionOperator.Or es) env = Some true <->
    (forall c, c ∈ es -> truth c env <> None) /\ exists c, c ∈ es /\ truth c env = Some true.
Proof.
  intros Hne. pose proof (truth_conj_null ConjunctionOperator.Or es env Hne) as Hnull.
  rewrite truth_conj in * by done. cbn in *. destruct (mapM (fun c => truth c env) es) as [bs|] eqn:Hm; cbn in *.
  - apply mapM_Some in Hm. split.
    + intros [= Hex]. split; [intros c Hc Hn; by assert (Some (existsb id bs) = None) by (apply Hnull; eauto)|].
      apply existsb_exists in Hex as (b & Hb & Hid). unfold id in Hid. subst b.
      apply list_elem_of_In, list_elem_of_lookup in Hb as [i Hi].
      destruct (Forall2_lookup_r _ _ _ _ _ Hm Hi) as (c & Hc & Htr). exists c. split; [by eapply list_elem_of_lookup_2|done].
    + intros [_ (c & Hc & Htr)]. f_equal. apply existsb_exists. apply list_elem_of_lookup in Hc as [i Hi].
      destruct (Forall2_lookup_l _ _ _ _ _ Hm Hi) as (b & Hb & Htr'). exists b. split.
      * apply list_elem_of_In. by eapply list_elem_of_lookup_2.
      * unfold id. congruence.
  - split; [done|]. intros [Hnn _]. destruct (proj1 Hnull eq_refl) as (c & Hc & Hn). by destruct (Hnn c).
Qed.

Lemma boolean_conj op es : es <> [] -> Forall boolean es -> boolean (Conjunction op es).
Proof.
  intros Hne Hb env v. rewrite eval_node. cbn. rewrite map_map.
  destruct es as [|x [|y l]]; [done| |]; cbn [map].
  - cbn. apply Forall_cons in Hb as [Hx _]. apply Hx.
  - unfold strict_sem. destruct (mapM id _) as [vs|]; cbn; [|done]. intros [= <-]. eauto.
Qed.

End Semantics.

(** ** A concrete interpretation

    Boolean values, no data on the nodes, and [+] as exclusive or; used to
    evaluate expressions on concrete rows. *)

Module BoolExpr.

#[global] Instance payload : Payload := {|
  DataType := unit; ScalarValue := bool; PlannedScalarFunction := nat; PlannedAggregateFunction := nat;
  PlannedCastFunction := unit; SubqueryExpr := unit; WindowFrame := unit; SortOptions := unit;
|}.

Definition value_of_node (lbl : Label) (fs : list ((nat -> nat -> option bool) -> option bool))
    (env : nat -> nat -> option bool) : option bool :=
  match lbl, fs with
  | LLiteral b, [] => Some b
  | LArith _ _, [f; g] => a ← f env; b ← g env; Some (xorb a b)
  | _, _ => None
  end.

Lemma value_of_node_proper lbl fs gs :
  Forall2 (fun f g => forall env, f env = g env) fs gs -> forall env, value_of_node lbl fs env = value_of_node lbl gs env.
Proof.
  intros HF env. destruct HF as [|f g fs gs Hf HF]; [done|]. destruct HF as [|f' g' fs gs Hf' HF]; [by destruct lbl|].
  destruct HF; [destruct lbl; cbn; by rewrite ?Hf, ?Hf'|by destruct lbl].
Qed.

#[global] Instance interpretation : Interpretation payload bool := {|
  Env := nat -> nat -> option bool;
  column_value := fun env r => env (table_scope r) (column r);
  as_bool := id;
  of_bool := id;
  as_of_bool := fun b => eq_refl;
  partial_eq := Bool.eqb;
  partial_lt := fun a b => negb a && b;
  partial_le := fun a b => negb a || b;
  partial_eq_sym := fun a b => match a, b with true, true | true, false | false, true | false, false => eq_refl end;
  node_value := value_of_node;
  node_value_proper := value_of_node_proper;
|}.

(** Column [c] of table [t]. *)
Definition col (t c : nat) : Expression := Column (mkColumn t c) tt.

Lemma boolean_any (e : Expression) : boolean e.
Proof. intros env v _. by exists v. Qed.

(** Every conjunction has inputs. *)
Definition conjunctions_ne : Expression -> bool :=
  expr_fold (fun e oks => match e with Conjunction _ [] => false | _ => forallb id oks end).

Lemma conjunctions_ne_typed e : conjunctions_ne e = true -> well_typed e.
Proof.
  induction e as [e IH] using expr_ind_children. unfold conjunctions_ne. rewrite expr_fold_eq. fold conjunctions_ne.
  intros Hok. assert (forallb id (map conjunctions_ne (children e)) = true) as Hc by (by destruct e as [| | | | | | |? []| | | | | | | |]).
  rewrite forallb_compose, forallb_forall in Hc. apply well_typed_node. split.
  - destruct e as [| | | | | | |? []| | | | | | | |]; try done. cbn. split; [done|]. apply Forall_forall. intros x _. apply boolean_any.
  - apply Forall_forall. intros c Hin. apply IH; [done|]. by apply Hc, list_elem_of_In.
Qed.

End BoolExpr.
