(* ===== verification/Rewrites.v ===== *)
(** * Expression rewrites

    Models the rules of [optimizer/expr_rewrite] that restructure conjunctions
    ([unnest_conjunction.rs], [distributive_or.rs], [join_filter_or.rs]),
    [optimizer/filter_pushdown/split.rs] and the reordering of
    [optimizer/selection_reorder.rs].  The recursive functions that rewrite a
    node before visiting its new children take the size of the expression as
    fuel; the theorems show it is never exhausted. *)
From S2P Require Import Prelude LogicalExpr.

(** ** Definitions *)

(** *** [unnest_conjunction.rs] *)

Module UnnestConjunction.
Section Unnest.
Context {PL : Payload}.

(** [unnest_op]: the expressions pushed to [out], in order. *)
Fixpoint unnest_op (search_op : ConjunctionOperator.t) (expr : Expression) : list Expression :=
  match expr with
  | Conjunction op expressions =>
      if decide (op = search_op) then flat_map (unnest_op search_op) expressions else [expr]
  | other => [other]
  end.

(** [inner] of [UnnestConjunctionRewrite::rewrite] *)
Fixpoint inner (fuel : nat) (expression : Expression) : res Expression :=
  match fuel with
  | O => Panic "out of fuel"
  | S fuel' =>
      match expression with
      | Conjunction op expressions =>
          for_each_child_mut (inner fuel') (Conjunction op (flat_map (unnest_op op) expressions))
      | other => for_each_child_mut (inner fuel') other
      end
  end.

(** [UnnestConjunctionRewrite::rewrite] *)
Definition rewrite (expression : Expression) : res Expression := inner (size expression) expression.

End Unnest.
End UnnestConjunction.

(** *** [distributive_or.rs] *)

Module DistributiveOr.
Section Distribute.
Context {PL : Payload}.

(** [IndexSet::insert] and [IndexSet::extend] *)
Definition index_insert (exprs : list Expression) (e : Expression) : list Expression :=
  if decide (e ∈ exprs) then exprs else exprs ++ [e].

Definition index_extend (exprs es : list Expression) : list Expression := foldl index_insert exprs es.

(** [insert_children_to_common_set] *)
Definition insert_children_to_common_set (child : Expression) (exprs : list Expression) : list Expression :=
  match child with
  | Conjunction ConjunctionOperator.And expressions => index_extend exprs expressions
  | other => index_insert exprs other
  end.

(** The loop over the remaining children: intersect with their candidates. *)
Definition retain_common (common_exprs : list Expression) (child : Expression) : list Expression :=
  let candidates := insert_children_to_common_set child [] in
  filter (fun e => e ∈ candidates) common_exprs.

(** What is left of a child of the OR: the expressions pushed to
    [new_or_children]. *)
Definition remaining_child (common_exprs : list Expression) (or_expr_child : Expression) : list Expression :=
  match or_expr_child with
  | Conjunction ConjunctionOperator.And expressions =>
      let new_and_children := filter (fun e => e ∉ common_exprs) expressions in
      match new_and_children with
      | [] => []
      | [x] => [x]
      | _ => [Conjunction ConjunctionOperator.And new_and_children]
      end
  | other => if decide (other ∈ common_exprs) then [] else [other]
  end.

(** The common expressions of the children of an OR. *)
Definition common_exprs (child : Expression) (child_iter : list Expression) : list Expression :=
  foldl retain_common (insert_children_to_common_set child []) child_iter.

(** [maybe_rewrite_or] on the OR of [expressions]. *)
Definition maybe_rewrite_or (expressions : list Expression) : res (ConjunctionOperator.t * list Expression) :=
  match expressions with
  | [] => Err "Missing child expression for OR"
  | child :: child_iter =>
      match common_exprs child child_iter with
      | [] => Ok (ConjunctionOperator.Or, expressions)
      | common =>
          let new_or_children := flat_map (remaining_child common) expressions in
          Ok (ConjunctionOperator.And,
              common ++ match new_or_children with
                        | [] => []
                        | [x] => [x]
                        | _ => [Conjunction ConjunctionOperator.Or new_or_children]
                        end)
      end
  end.

(** [inner] of [DistributiveOrRewrite::rewrite] *)
Fixpoint inner (fuel : nat) (expr : Expression) : res Expression :=
  match fuel with
  | O => Panic "out of fuel"
  | S fuel' =>
      match expr with
      | Conjunction ConjunctionOperator.Or expressions =>
          '(op, expressions') ← maybe_rewrite_or expressions;
          es ← collect (inner fuel') expressions';
          Ok (Conjunction op es)
      | other => for_each_child_mut (inner fuel') other
      end
  end.

(** [DistributiveOrRewrite::rewrite] *)
Definition rewrite (expression : Expression) : res Expression := inner (size expression) expression.

(** Some child of the OR is pulled out entirely while others are not. *)
Definition absorbs (expressions : list Expression) : bool :=
  match expressions with
  | [] => false
  | child :: child_iter =>
      let rest := remaining_child (common_exprs child child_iter) in
      existsb (fun e => bool_decide (rest e = [])) expressions
      && existsb (fun e => bool_decide (rest e <> [])) expressions
  end.

(** No OR met by the traversal has such a child. *)
Fixpoint no_absorption (fuel : nat) (expr : Expression) : bool :=
  match fuel with
  | O => true
  | S fuel' =>
      match expr with
      | Conjunction ConjunctionOperator.Or expressions =>
          negb (absorbs expressions)
          && match maybe_rewrite_or expressions with
             | Ok (_, es) => forallb (no_absorption fuel') es
             | _ => true
             end
      | other => forallb (no_absorption fuel') (children other)
      end
  end.

End Distribute.
End DistributiveOr.

(** *** [join_filter_or.rs] *)

Module JoinFilterOr.
Section JoinFilter.
Context {PL : Payload}.

(** [HashMap::into_iter] gives the entries in an unspecified order. *)
Variable into_iter : gmap TableRef (list Expression) -> list (TableRef * list Expression).

(** [extract_and_exprs] *)
Fixpoint extract_and_exprs (expr : Expression) (and_exprs : gmap TableRef (list Expression)) :
    gmap TableRef (list Expression) :=
  match expr with
  | Conjunction ConjunctionOperator.And expressions =>
      foldl (fun m child => extract_and_exprs child m) and_exprs expressions
  | other =>
      match elements (get_table_references other) with
      | [table] => partial_alter (fun exprs => Some (default [] exprs ++ [other])) table and_exprs
      | _ => and_exprs
      end
  end.

(** The OR of the expressions that reference one table, if every child of the
    OR has some. *)
Definition table_or (others : list (gmap TableRef (list Expression))) (entry : TableRef * list Expression) :
    list Expression :=
  match mapM (fun other_extracted : gmap TableRef (list Expression) => other_extracted !! entry.1) others with
  | Some exprs => [Conjunction ConjunctionOperator.Or (concat exprs ++ entry.2)]
  | None => []
  end.

(** The check that some child is an AND referencing several tables. *)
Definition can_rewrite (expressions : list Expression) : bool :=
  existsb (fun expr =>
    match expr with
    | Conjunction ConjunctionOperator.And _ => 1 <? stdpp.base.size (get_table_references expr)
    | _ => false
    end) expressions.

(** [maybe_rewrite_or] on the OR of [expressions]. *)
Definition maybe_rewrite_or (expressions : list Expression) : ConjunctionOperator.t * list Expression :=
  if can_rewrite expressions then
    match rev (map (fun expr => extract_and_exprs expr ∅) expressions) with
    | [] => (ConjunctionOperator.Or, expressions)
    | first_extracted :: others =>
        (ConjunctionOperator.And,
         flat_map (table_or (rev others)) (into_iter first_extracted)
         ++ [Conjunction ConjunctionOperator.Or expressions])
    end
  else (ConjunctionOperator.Or, expressions).

(** [inner] of [JoinFilterOrRewrite::rewrite] *)
Fixpoint inner (fuel : nat) (expr : Expression) : res Expression :=
  match fuel with
  | O => Panic "out of fuel"
  | S fuel' =>
      match expr with
      | Conjunction ConjunctionOperator.Or expressions =>
          let '(op, es) := maybe_rewrite_or expressions in Ok (Conjunction op es)
      | other => for_each_child_mut (inner fuel') other
      end
  end.

(** [JoinFilterOrRewrite::rewrite] *)
Definition rewrite (expression : Expression) : res Expression :=
  inner (LogicalExpr.size expression) expression.

End JoinFilter.
End JoinFilterOr.

(** *** [filter_pushdown/split.rs] and [selection_reorder.rs] *)

Section Filters.
Context {PL : Payload}.

(** [split_conjunction]: the expressions pushed to [out], in order. *)
Fixpoint split_conjunction (expr : Expression) : list Expression :=
  match expr with
  | Conjunction ConjunctionOperator.And expressions => flat_map split_conjunction expressions
  | other => [other]
  end.

(** [expr_cost] of [reorder_conj] *)
Definition expr_cost (expr : Expression) : nat :=
  match expr with
  | Literal _ => 0
  | Column _ _ => 1
  | Is _ _ => 2
  | Comparison op _ _ =>
      match op with
      | ComparisonOperator.Eq | ComparisonOperator.IsNotDistinctFrom => 5
      | ComparisonOperator.NotEq | ComparisonOperator.IsDistinctFrom => 6
      | _ => 7
      end
  | _ => 50
  end.

(** [slice::sort_unstable_by]: some reordering that is sorted by the key. *)
Variable sort_unstable_by : (Expression -> nat) -> list Expression -> list Expression.

(** [reorder_conj], on the fields of the conjunction. *)
Definition reorder_conj (op : ConjunctionOperator.t) (expressions : list Expression) : Expression :=
  Conjunction op (sort_unstable_by expr_cost expressions).

End Filters.

(** ** Correctness of the rewrites *)

Section Correctness.
Context {PL : Payload} {V : Type} {I : Interpretation PL V}.
Implicit Types e c : Expression.

(** A rewrite of [e] that succeeds and keeps its meaning and its typing. *)
Definition rewrites (r : res Expression) e : Prop :=
  exists e', r = Ok e' /\ expr_equiv e e' /\ well_typed e'.

Lemma rewrites_children (f : Expression -> res Expression) e :
  well_typed e -> (forall c, c ∈ children e -> rewrites (f c) c) -> rewrites (for_each_child_mut f e) e.
Proof.
  intros Hw Hc. destruct (for_each_child_mut_spec f e) as (e' & He & Hl & HF).
  { intros c Hin. destruct (Hc c Hin) as (c' & ? & _). eauto. }
  assert (Forall2 (fun c c' => expr_equiv c c' /\ well_typed c') (children e) (children e')) as HF'.
  { apply Forall2_same_length_lookup in HF as [Hlen HF]. apply Forall2_same_length_lookup. split; [done|].
    intros i c c' Hi Hi'. destruct (Hc c) as (c'' & Hok & ? & ?); [by eapply list_elem_of_lookup_2|].
    specialize (HF i c c' Hi Hi'). rewrite Hok in HF. injection HF as <-. done. }
  exists e'. split_and!; [done| |by eapply well_typed_congruence].
  apply eval_congruence; [done|]. eapply Forall2_impl; [done|]. by intros ?? [].
Qed.

Lemma rewrites_trans r e e1 : expr_equiv e e1 -> rewrites r e1 -> rewrites r e.
Proof. intros He (e' & ? & ? & ?). exists e'. split_and!; [done|by etrans|done]. Qed.

Lemma ne_list_elem (l : list Expression) : l <> [] <-> exists c, c ∈ l.
Proof.
  destruct l as [|c l]; split; try done.
  - by intros [c Hc%not_elem_of_nil].
  - intros _. exists c. apply list_elem_of_here.
Qed.

Lemma flat_map_ne (f : Expression -> list Expression) es :
  es <> [] -> (forall c, c ∈ es -> f c <> []) -> flat_map f es <> [].
Proof. destruct es as [|c es]; [done|]. intros _ Hf. specialize (Hf c (list_elem_of_here _ _)). cbn. by destruct (f c). Qed.

(** Replacing every input of a conjunction by several inputs whose conjunction
    is the input. *)
Lemma truth_conj_flat_map op (f : Expression -> list Expression) es env :
  es <> [] -> (forall c, c ∈ es -> f c <> [] /\ truth (Conjunction op (f c)) env = truth c env) ->
  truth (Conjunction op (flat_map f es)) env = truth (Conjunction op es) env.
Proof.
  intros Hne Hf.
  assert (forall x, x ∈ flat_map f es <-> exists c, c ∈ es /\ x ∈ f c) as Hin.
  { intros x. rewrite list_elem_of_In, in_flat_map. setoid_rewrite <- list_elem_of_In. done. }
  assert (flat_map f es <> []) as Hne' by (apply flat_map_ne; [done|]; intros c Hc; by apply Hf).
  apply truth_ext.
  - rewrite !truth_conj_null by done. setoid_rewrite Hin. split.
    + intros (x & (c & Hc & Hx) & Hn). exists c. split; [done|]. destruct (Hf c Hc) as [? <-].
      apply truth_conj_null; [done|eauto].
    + intros (c & Hc & Hn). destruct (Hf c Hc) as [? Ht]. rewrite <- Ht in Hn.
      apply truth_conj_null in Hn as (x & ? & ?); [eauto|done].
  - destruct op.
    + rewrite !truth_and_true by done. setoid_rewrite Hin. split.
      * intros Hall c Hc. destruct (Hf c Hc) as [? <-]. apply truth_and_true; [done|]. intros x Hx. apply Hall. eauto.
      * intros Hall x (c & Hc & Hx). destruct (Hf c Hc) as [Hn Ht].
        specialize (Hall c Hc). rewrite <- Ht in Hall. by apply (proj1 (truth_and_true _ _ Hn) Hall).
    + rewrite !truth_or_true by done. setoid_rewrite Hin. split.
      * intros [Hnn (x & (c & Hc & Hx) & Ht)]. split.
        -- intros c' Hc' Hn. destruct (Hf c' Hc') as [? Htc]. rewrite <- Htc in Hn.
           apply truth_conj_null in Hn as (y & Hy & Hyn); [|done]. apply (Hnn y); eauto.
        -- exists c. split; [done|]. destruct (Hf c Hc) as [? <-]. apply truth_or_true; [done|].
           split; [|eauto]. intros y Hy. apply Hnn. eauto.
      * intros [Hnn (c & Hc & Ht)]. split.
        -- intros y (c' & Hc' & Hy) Hyn. apply (Hnn c' Hc'). destruct (Hf c' Hc') as [? <-]. apply truth_conj_null; [done|eauto].
        -- destruct (Hf c Hc) as [Hn Htc]. rewrite <- Htc in Ht. apply truth_or_true in Ht as [_ (x & ? & ?)]; [eauto|done].
Qed.

(** *** Unnesting *)

(** Splitting an expression on an operator: non-empty, well typed, and the
    conjunction of the parts is the expression. *)
Definition splits op e (l : list Expression) : Prop :=
  l <> [] /\ Forall (fun c => boolean c /\ well_typed c /\ LogicalExpr.size c <= LogicalExpr.size e) l
  /\ forall env, truth (Conjunction op l) env = truth e env.

Lemma splits_single op e : boolean e -> well_typed e -> splits op e [e].
Proof.
  intros Hb Hw. split_and!; [done|by repeat constructor|]. intros env. rewrite truth_conj by done. cbn [mapM].
  destruct (truth e env) as [b|]; cbn; [|done]. f_equal. destruct op; cbn; [apply andb_true_r|apply orb_false_r].
Qed.

Lemma splits_flat_map op f es :
  well_typed (Conjunction op es) -> (forall c, c ∈ es -> boolean c -> well_typed c -> splits op c (f c)) ->
  splits op (Conjunction op es) (flat_map f es).
Proof.
  intros [Hne Hes]%well_typed_conj Hf. rewrite Forall_forall in Hes.
  assert (forall c, c ∈ es -> splits op c (f c)) as Hf' by (intros c Hc; destruct (Hes c Hc); auto).
  split_and!.
  - apply flat_map_ne; [done|]. intros c Hc. by apply Hf'.
  - rewrite Forall_forall. intros x Hx%list_elem_of_In. apply in_flat_map in Hx as (c & Hc%list_elem_of_In & Hx%list_elem_of_In).
    destruct (Hf' c Hc) as (_ & HF & _). rewrite Forall_forall in HF. destruct (HF x Hx) as (? & ? & ?).
    split_and!; [done|done|]. etrans; [done|]. apply Nat.lt_le_incl. by apply size_child.
  - intros env. apply truth_conj_flat_map; [done|]. intros c Hc. split; apply (Hf' c Hc).
Qed.

Lemma splits_equiv op es l :
  well_typed (Conjunction op es) -> splits op (Conjunction op es) l ->
  expr_equiv (Conjunction op es) (Conjunction op l) /\ well_typed (Conjunction op l).
Proof.
  intros [Hne Hes]%well_typed_conj (Hne' & HF & Ht). split.
  - apply boolean_truth_ext; [| |done].
    + apply boolean_conj; [done|]. eapply Forall_impl; [done|]. by intros ? [].
    + apply boolean_conj; [done|]. eapply Forall_impl; [done|]. by intros ? [].
  - apply well_typed_conj. split; [done|]. eapply Forall_impl; [done|]. by intros ? (? & ? & ?).
Qed.

Lemma unnest_op_splits op e : boolean e -> well_typed e -> splits op e (UnnestConjunction.unnest_op op e).
Proof.
  induction e as [e IH] using expr_ind_children. intros Hb Hw. destruct e; try by apply splits_single.
  cbn [UnnestConjunction.unnest_op]. case_decide as Hop; [subst|by apply splits_single].
  apply splits_flat_map; [done|]. intros c Hc Hbc Hwc. by apply IH.
Qed.

Lemma unnest_inner_rewrites fuel e :
  LogicalExpr.size e <= fuel -> well_typed e -> rewrites (UnnestConjunction.inner fuel e) e.
Proof.
  revert e. induction fuel as [|fuel IH]; intros e Hs Hw; [rewrite size_eq in Hs; lia|].
  assert (forall c, c ∈ children e -> rewrites (UnnestConjunction.inner fuel c) c) as Hc.
  { intros c Hc. apply IH; [apply size_child in Hc; lia|by eapply well_typed_child]. }
  destruct e; cbn [UnnestConjunction.inner]; try by apply rewrites_children.
  assert (splits op (Conjunction op expressions) (flat_map (UnnestConjunction.unnest_op op) expressions)) as Hsp
    by (apply splits_flat_map; [done|]; intros; by apply unnest_op_splits).
  destruct (splits_equiv _ _ _ Hw Hsp) as [Hq Hw']. eapply rewrites_trans; [exact Hq|].
  apply rewrites_children; [done|]. cbn [children]. intros c Hin.
  apply list_elem_of_In, in_flat_map in Hin as (x & Hx%list_elem_of_In & Hin%list_elem_of_In).
  apply well_typed_conj in Hw as [_ Hes]. rewrite Forall_forall in Hes. destruct (Hes x Hx) as [Hbx Hwx].
  destruct (unnest_op_splits op x Hbx Hwx) as (_ & HF & _). rewrite Forall_forall in HF.
  destruct (HF c Hin) as (_ & Hwc & Hsc). apply IH; [|done].
  assert (LogicalExpr.size x < LogicalExpr.size (Conjunction op expressions)) by by apply size_child. lia.
Qed.

Lemma split_conjunction_splits e :
  boolean e -> well_typed e -> splits ConjunctionOperator.And e (split_conjunction e).
Proof.
  induction e as [e IH] using expr_ind_children. intros Hb Hw. destruct e; try by apply splits_single.
  destruct op; [|by apply splits_single]. cbn [split_conjunction].
  apply splits_flat_map; [done|]. intros c Hc Hbc Hwc. by apply IH.
Qed.

(** *** Distributing OR over AND *)

Definition conjuncts e : list Expression :=
  match e with Conjunction ConjunctionOperator.And es => es | other => [other] end.

Lemma elem_of_index_insert acc e x : x ∈ DistributiveOr.index_insert acc e <-> x ∈ acc \/ x = e.
Proof.
  unfold DistributiveOr.index_insert. case_decide; [split; [by left|by intros [| ->]]|].
  by rewrite elem_of_app, list_elem_of_singleton.
Qed.

Lemma elem_of_insert_children e acc x :
  x ∈ DistributiveOr.insert_children_to_common_set e acc <-> x ∈ acc \/ x ∈ conjuncts e.
Proof.
  assert (forall es acc, x ∈ DistributiveOr.index_extend acc es <-> x ∈ acc \/ x ∈ es) as Hext.
  { unfold DistributiveOr.index_extend. induction es as [|y es IH]; intros acc'; cbn; [set_solver|].
    rewrite IH, elem_of_index_insert, elem_of_cons. tauto. }
  destruct e; cbn; try (by rewrite elem_of_index_insert, list_elem_of_singleton).
  destruct op; [by rewrite Hext|by rewrite elem_of_index_insert, list_elem_of_singleton].
Qed.

Lemma elem_of_common child child_iter x :
  x ∈ DistributiveOr.common_exprs child child_iter <-> forall c, c ∈ child :: child_iter -> x ∈ conjuncts c.
Proof.
  assert (forall iter acc, x ∈ foldl DistributiveOr.retain_common acc iter <-> x ∈ acc /\ forall c, c ∈ iter -> x ∈ conjuncts c) as Hf.
  { induction iter as [|c iter IH]; intros acc; cbn; [set_solver|].
    rewrite IH. unfold DistributiveOr.retain_common. rewrite list_elem_of_filter, elem_of_insert_children.
    setoid_rewrite elem_of_cons. split.
    - intros [[[[]%not_elem_of_nil|Hc] Ha] Hr]. split; [done|]. intros c' [->|]; auto.
    - intros [Ha Hr]. split_and!; auto. }
  unfold DistributiveOr.common_exprs. rewrite Hf, elem_of_insert_children. setoid_rewrite elem_of_cons. split.
  - intros [[[]%not_elem_of_nil|Hc] Hr] c [->|]; auto.
  - intros Hr. split; auto.
Qed.

(** The conjuncts of a child that are not common. *)
Definition rest (common : list Expression) c : list Expression := filter (fun x => x ∉ common) (conjuncts c).

Definition regroup (op : ConjunctionOperator.t) (l : list Expression) : list Expression :=
  match l with [] => [] | [x] => [x] | _ => [Conjunction op l] end.

Lemma remaining_child_eq common c :
  DistributiveOr.remaining_child common c = regroup ConjunctionOperator.And (rest common c).
Proof.
  assert (forall e, (if decide (e ∈ common) then [] else [e])
    = regroup ConjunctionOperator.And (filter (fun x => x ∉ common) [e])) as Hsingle.
  { intros e. cbn. destruct (decide (e ∈ common)) as [Hin|Hin].
    - rewrite decide_False; [done|]. intros Hn. by apply Hn.
    - by rewrite decide_True. }
  unfold rest. destruct c; try apply Hsingle. destruct op; [done|]. apply Hsingle.
Qed.

Lemma elem_of_rest common c x : x ∈ rest common c <-> x ∈ conjuncts c /\ x ∉ common.
Proof. unfold rest. rewrite list_elem_of_filter. tauto. Qed.

(** Regrouping a non-empty list gives one expression with the meaning of the
    conjunction. *)
Lemma regroup_spec op l :
  l <> [] -> Forall (fun c => boolean c /\ well_typed c) l ->
  exists r, regroup op l = [r] /\ boolean r /\ well_typed r /\ forall env, truth r env = truth (Conjunction op l) env.
Proof.
  intros Hne HF. destruct l as [|x [|y l]]; [done| |].
  - exists x. apply Forall_cons in HF as [[Hb Hw] _]. split_and!; [done..|]. intros env. symmetry. by apply (splits_single op x).
  - eexists. split_and!; [done| |by apply well_typed_conj|done]. apply boolean_conj; [done|].
    eapply Forall_impl; [done|]. by intros ? [].
Qed.

Lemma conjuncts_typed c :
  boolean c -> well_typed c -> conjuncts c <> [] /\ Forall (fun x => boolean x /\ well_typed x) (conjuncts c).
Proof.
  intros Hb Hw. assert ([c] <> [] /\ Forall (fun x => boolean x /\ well_typed x) [c]) as Hs by by repeat constructor.
  destruct c; try done. destruct op; [|done]. by apply well_typed_conj in Hw.
Qed.

Lemma truth_conjuncts c env : boolean c -> well_typed c -> truth (Conjunction ConjunctionOperator.And (conjuncts c)) env = truth c env.
Proof.
  intros Hb Hw. assert (truth (Conjunction ConjunctionOperator.And [c]) env = truth c env) as Hs
    by by apply (splits_single ConjunctionOperator.And c).
  destruct c; try done. by destruct op.
Qed.

Lemma conjuncts_null c env : boolean c -> well_typed c -> truth c env = None <-> exists x, x ∈ conjuncts c /\ truth x env = None.
Proof. intros Hb Hw. rewrite <- truth_conjuncts by done. apply truth_conj_null. by apply conjuncts_typed. Qed.

Lemma conjuncts_true c env :
  boolean c -> well_typed c -> truth c env = Some true <-> forall x, x ∈ conjuncts c -> truth x env = Some true.
Proof. intros Hb Hw. rewrite <- truth_conjuncts by done. apply truth_and_true. by apply conjuncts_typed. Qed.

(** *** One step of distribution *)

Section Distribution.
Variables (es common : list Expression).
Hypothesis Hes : Forall (fun c => boolean c /\ well_typed c) es.
Hypothesis Hne : es <> [].
Hypothesis Hcommon : forall x, x ∈ common <-> forall c, c ∈ es -> x ∈ conjuncts c.

Lemma or_child c : c ∈ es -> boolean c /\ well_typed c.
Proof. rewrite Forall_forall in Hes. apply Hes. Qed.

Lemma conjuncts_decompose c x : c ∈ es -> x ∈ conjuncts c <-> x ∈ common \/ x ∈ rest common c.
Proof.
  intros Hc. rewrite elem_of_rest. split.
  - intros Hx. destruct (decide (x ∈ common)); auto.
  - intros [Hx|[Hx _]]; [by apply Hcommon|done].
Qed.

Lemma rest_typed c : c ∈ es -> Forall (fun x => boolean x /\ well_typed x) (rest common c).
Proof.
  intros Hc. destruct (or_child c Hc) as [Hb Hw]. destruct (conjuncts_typed c Hb Hw) as [_ HF].
  rewrite Forall_forall in *. intros x [Hx _]%elem_of_rest. auto.
Qed.

Lemma common_typed : Forall (fun x => boolean x /\ well_typed x) common.
Proof.
  rewrite Forall_forall. intros x Hx. 
  destruct (proj1 (ne_list_elem es) Hne) as [c Hc].
  destruct (or_child c Hc) as [Hb Hw]. destruct (conjuncts_typed c Hb Hw) as [_ HF].
  rewrite Forall_forall in HF. apply HF. by apply Hcommon.
Qed.

(** An OR is NULL when a conjunct of a child is, and TRUE when none is and all
    conjuncts of some child are TRUE. *)
Lemma or_conjuncts_null env :
  truth (Conjunction ConjunctionOperator.Or es) env = None <->
  exists c x, c ∈ es /\ x ∈ conjuncts c /\ truth x env = None.
Proof.
  rewrite truth_conj_null by done. split.
  - intros (c & Hc & Hn). destruct (or_child c Hc). apply conjuncts_null in Hn as (x & ? & ?); eauto.
  - intros (c & x & Hc & Hx & Hn). destruct (or_child c Hc). exists c. split; [done|]. apply conjuncts_null; eauto.
Qed.

Lemma or_conjuncts_true env :
  truth (Conjunction ConjunctionOperator.Or es) env = Some true <->
  (forall c x, c ∈ es -> x ∈ conjuncts c -> truth x env <> None)
  /\ exists c, c ∈ es /\ forall x, x ∈ conjuncts c -> truth x env = Some true.
Proof.
  rewrite truth_or_true by done. split.
  - intros [Hnn (c & Hc & Ht)]. split.
    + intros c' x Hc' Hx Hn. destruct (or_child c' Hc'). apply (Hnn c' Hc'). apply conjuncts_null; eauto.
    + exists c. split; [done|]. destruct (or_child c Hc). by apply conjuncts_true.
  - intros [Hnn (c & Hc & Ht)]. split.
    + intros c' Hc' Hn. destruct (or_child c' Hc'). apply conjuncts_null in Hn as (x & Hx & Hn); [|done..].
      by apply (Hnn c' x).
    + exists c. split; [done|]. destruct (or_child c Hc). by apply conjuncts_true.
Qed.

(** What remains of a child that is not pulled out entirely. *)
Lemma remaining_spec c :
  c ∈ es -> rest common c <> [] ->
  exists r, DistributiveOr.remaining_child common c = [r] /\ boolean r /\ well_typed r
    /\ forall env, truth r env = truth (Conjunction ConjunctionOperator.And (rest common c)) env.
Proof. intros Hc Hr. rewrite remaining_child_eq. apply regroup_spec; [done|]. by apply rest_typed. Qed.

Lemma elem_of_remaining r :
  r ∈ flat_map (DistributiveOr.remaining_child common) es <->
  exists c, c ∈ es /\ r ∈ DistributiveOr.remaining_child common c.
Proof. rewrite list_elem_of_In, in_flat_map. by setoid_rewrite <- list_elem_of_In. Qed.

Lemma remaining_typed :
  Forall (fun x => boolean x /\ well_typed x) (flat_map (DistributiveOr.remaining_child common) es).
Proof.
  rewrite Forall_forall. intros r (c & Hc & Hr)%elem_of_remaining.
  destruct (decide (rest common c = [])) as [Hn|Hn].
  - rewrite remaining_child_eq, Hn in Hr. by apply not_elem_of_nil in Hr.
  - destruct (remaining_spec c Hc Hn) as (r' & Heq & ? & ? & _). rewrite Heq in Hr. apply list_elem_of_singleton in Hr. by subst.
Qed.

(** When no child is pulled out entirely, the OR of what remains. *)
Lemma remaining_null env :
  (forall c, c ∈ es -> rest common c <> []) ->
  truth (Conjunction ConjunctionOperator.Or (flat_map (DistributiveOr.remaining_child common) es)) env = None <->
  exists c x, c ∈ es /\ x ∈ rest common c /\ truth x env = None.
Proof.
  intros Hr. rewrite truth_conj_null.
  2: { apply flat_map_ne; [done|]. intros c Hc. destruct (remaining_spec c Hc (Hr c Hc)) as (r & -> & _). done. }
  split.
  - intros (r & (c & Hc & Hin)%elem_of_remaining & Hn). destruct (remaining_spec c Hc (Hr c Hc)) as (r' & Heq & _ & _ & Ht).
    rewrite Heq in Hin. apply list_elem_of_singleton in Hin as ->. rewrite Ht in Hn.
    apply truth_conj_null in Hn as (x & ? & ?); [eauto|by apply Hr].
  - intros (c & x & Hc & Hx & Hn). destruct (remaining_spec c Hc (Hr c Hc)) as (r' & Heq & _ & _ & Ht).
    exists r'. split; [apply elem_of_remaining; exists c; split; [done|]; rewrite Heq; apply list_elem_of_here|].
    rewrite Ht. apply truth_conj_null; [by apply Hr|eauto].
Qed.

Lemma remaining_true env :
  (forall c, c ∈ es -> rest common c <> []) ->
  truth (Conjunction ConjunctionOperator.Or (flat_map (DistributiveOr.remaining_child common) es)) env = Some true <->
  (forall c x, c ∈ es -> x ∈ rest common c -> truth x env <> None)
  /\ exists c, c ∈ es /\ forall x, x ∈ rest common c -> truth x env = Some true.
Proof.
  intros Hr. pose proof (remaining_null env Hr) as Hnull. rewrite truth_or_true.
  2: { apply flat_map_ne; [done|]. intros c Hc. destruct (remaining_spec c Hc (Hr c Hc)) as (r & -> & _). done. }
  rewrite truth_conj_null in Hnull.
  2: { apply flat_map_ne; [done|]. intros c Hc. destruct (remaining_spec c Hc (Hr c Hc)) as (r & -> & _). done. }
  split.
  - intros [Hnn (r & (c & Hc & Hin)%elem_of_remaining & Ht)]. split.
    + intros c' x Hc' Hx Hn. destruct (proj2 Hnull) as (r' & Hr' & Hn'); [eauto|]. by apply (Hnn r').
    + exists c. split; [done|]. destruct (remaining_spec c Hc (Hr c Hc)) as (r' & Heq & _ & _ & Htr).
      rewrite Heq in Hin. apply list_elem_of_singleton in Hin as ->. rewrite Htr in Ht.
      exact (proj1 (truth_and_true _ _ (Hr c Hc)) Ht).
  - intros [Hnn (c & Hc & Ht)]. split.
    + intros r Hin Hn. destruct (proj1 Hnull) as (c' & x & Hc' & Hx & Hn'); [eauto|]. by apply (Hnn c' x).
    + destruct (remaining_spec c Hc (Hr c Hc)) as (r' & Heq & _ & _ & Htr). exists r'. split.
      * apply elem_of_remaining. exists c. split; [done|]. rewrite Heq. apply list_elem_of_here.
      * rewrite Htr. apply truth_and_true; [by apply Hr|done].
Qed.

Hypothesis Hsome : common <> [].

(** The children of the AND that replaces the OR. *)
Definition distributed : list Expression :=
  common ++ regroup ConjunctionOperator.Or (flat_map (DistributiveOr.remaining_child common) es).

Lemma distributed_ne : distributed <> [].
Proof. unfold distributed. destruct common; [by destruct Hsome|done]. Qed.

Lemma distributed_typed : Forall (fun x => boolean x /\ well_typed x) distributed.
Proof.
  apply Forall_app. split; [apply common_typed|]. pose proof remaining_typed as HF.
  destruct (decide (flat_map (DistributiveOr.remaining_child common) es = [])) as [->|Hn]; [by constructor|].
  destruct (regroup_spec ConjunctionOperator.Or _ Hn HF) as (r & -> & ? & ? & _). by repeat constructor.
Qed.

Lemma distributed_truth_all env :
  (forall c, c ∈ es -> rest common c = []) ->
  truth (Conjunction ConjunctionOperator.And distributed) env = truth (Conjunction ConjunctionOperator.Or es) env.
Proof.
  intros Hr. assert (distributed = common) as ->.
  { unfold distributed. replace (flat_map _ es) with (@nil Expression); [apply app_nil_r|].
    symmetry. clear Hes Hne Hcommon. induction es as [|c es' IH]; [done|]. cbn.
    rewrite remaining_child_eq, Hr by apply list_elem_of_here. apply IH. intros; apply Hr. by apply list_elem_of_further. }
  assert (forall c x, c ∈ es -> x ∈ conjuncts c <-> x ∈ common) as Hcj.
  { intros c x Hc. rewrite (conjuncts_decompose c x Hc), (Hr c Hc), elem_of_nil. tauto. }
  destruct (proj1 (ne_list_elem es) Hne) as [c0 Hc0]. apply truth_ext.
  - rewrite truth_conj_null, or_conjuncts_null by done. split.
    + intros (x & Hx & Hn). exists c0, x. rewrite Hcj by done. auto.
    + intros (c & x & Hc & Hx & Hn). exists x. rewrite Hcj in Hx by done. auto.
  - rewrite truth_and_true, or_conjuncts_true by done. split.
    + intros Ht. split.
      * intros c x Hc Hx. rewrite Hcj in Hx by done. by rewrite (Ht x Hx).
      * exists c0. split; [done|]. intros x Hx. rewrite Hcj in Hx by done. auto.
    + intros [_ (c & Hc & Ht)] x Hx. apply Ht. by apply Hcj.
Qed.

Lemma distributed_truth_none env :
  (forall c, c ∈ es -> rest common c <> []) ->
  truth (Conjunction ConjunctionOperator.And distributed) env = truth (Conjunction ConjunctionOperator.Or es) env.
Proof.
  intros Hr. assert (flat_map (DistributiveOr.remaining_child common) es <> []) as Hn.
  { apply flat_map_ne; [done|]. intros c Hc. destruct (remaining_spec c Hc (Hr c Hc)) as (r & -> & _). done. }
  destruct (regroup_spec ConjunctionOperator.Or _ Hn remaining_typed) as (t & Hreg & _ & _ & Ht).
  assert (forall x, x ∈ distributed <-> x ∈ common \/ x = t) as Hd.
  { intros x. unfold distributed. rewrite Hreg, elem_of_app, list_elem_of_singleton. done. }
  apply truth_ext.
  - rewrite truth_conj_null, or_conjuncts_null by apply distributed_ne || done. split.
    + intros (x & [Hx|Hx]%Hd & Hxn).
      * destruct (proj1 (ne_list_elem es) Hne) as [c0 Hc0]. exists c0, x. split_and!; [done|by apply Hcommon|done].
      * subst x. rewrite Ht in Hxn. apply (remaining_null env Hr) in Hxn as (c & x & Hc & Hx & Hxn).
        exists c, x. apply elem_of_rest in Hx as [??]. auto.
    + intros (c & x & Hc & [Hx|Hx]%(conjuncts_decompose c x Hc) & Hxn).
      * exists x. rewrite Hd. auto.
      * exists t. rewrite Hd, Ht. split; [by right|]. apply remaining_null; eauto.
  - rewrite truth_and_true, or_conjuncts_true by apply distributed_ne || done. split.
    + intros Hall. assert (truth t env = Some true) as Htt by (apply Hall, Hd; by right).
      rewrite Ht in Htt. apply (remaining_true env Hr) in Htt as [Hnn (c & Hc & Hct)]. split.
      * intros c' x Hc' [Hx|Hx]%(conjuncts_decompose c' x Hc'); [by rewrite Hall by (apply Hd; by left)|by eapply Hnn].
      * exists c. split; [done|]. intros x [Hx|Hx]%(conjuncts_decompose c x Hc); [apply Hall, Hd; by left|auto].
    + intros [Hnn (c & Hc & Hct)] x [Hx| ->]%Hd; [by apply Hct, Hcommon|].
      rewrite Ht. apply remaining_true; [done|]. split.
      * intros c' y Hc' [Hy _]%elem_of_rest. by apply (Hnn c').
      * exists c. split; [done|]. intros y [Hy _]%elem_of_rest. auto.
Qed.

Lemma sum_filter_le (P : Expression -> Prop) `{forall x, Decision (P x)} l :
  sum_list (LogicalExpr.size <$> filter P l) <= sum_list (LogicalExpr.size <$> l).
Proof. induction l as [|x l IH]; [done|]. rewrite filter_cons. case_decide; cbn; lia. Qed.

Lemma sum_filter_lt (P : Expression -> Prop) `{forall x, Decision (P x)} l x :
  x ∈ l -> ~ P x -> sum_list (LogicalExpr.size <$> filter P l) < sum_list (LogicalExpr.size <$> l).
Proof.
  induction 1 as [x l|x y l Hx IH]; intros Hp; rewrite filter_cons; cbn.
  - rewrite decide_False by done. pose proof (sum_filter_le P l). rewrite (size_eq x). lia.
  - specialize (IH Hp). case_decide; cbn; lia.
Qed.

Lemma regroup_size op l : sum_list (LogicalExpr.size <$> regroup op l) <= S (sum_list (LogicalExpr.size <$> l)).
Proof. destruct l as [|x [|y l]]; [cbn; lia|cbn; lia|]. cbn [regroup fmap list_fmap sum_list sum_list_with]. rewrite size_eq. cbn; lia. Qed.

Lemma remaining_size c :
  c ∈ es -> sum_list (LogicalExpr.size <$> DistributiveOr.remaining_child common c) < LogicalExpr.size c.
Proof.
  intros Hc. destruct (proj1 (ne_list_elem common) Hsome) as [x Hx].
  assert (x ∈ conjuncts c) as Hxc by by apply Hcommon.
  rewrite remaining_child_eq. pose proof (regroup_size ConjunctionOperator.And (rest common c)) as Hreg.
  assert (sum_list (LogicalExpr.size <$> rest common c) < sum_list (LogicalExpr.size <$> conjuncts c)) as Hlt.
  { unfold rest. apply (sum_filter_lt _ _ x); [done|]. intros Hn. by apply Hn. }
  assert (conjuncts c = [c] -> sum_list (LogicalExpr.size <$> regroup ConjunctionOperator.And (rest common c)) < LogicalExpr.size c) as Hsingle.
  { intros Heq. rewrite Heq in Hxc. apply list_elem_of_singleton in Hxc as ->. unfold rest. rewrite Heq, filter_cons.
    rewrite decide_False by (intros Hn; by apply Hn). cbn. rewrite (size_eq c). lia. }
  destruct c; try by apply Hsingle. destruct op; [|by apply Hsingle]. rewrite (size_eq (Conjunction _ _)). cbn [children conjuncts] in *. lia.
Qed.

Lemma distributed_size x : x ∈ distributed -> LogicalExpr.size x < LogicalExpr.size (Conjunction ConjunctionOperator.Or es).
Proof.
  intros [Hx|Hx]%elem_of_app.
  - destruct (proj1 (ne_list_elem es) Hne) as [c Hc]. assert (x ∈ conjuncts c) as Hxc by by apply Hcommon.
    assert (LogicalExpr.size c < LogicalExpr.size (Conjunction ConjunctionOperator.Or es)) by by apply size_child.
    assert (LogicalExpr.size x <= LogicalExpr.size c); [|lia].
    assert (x ∈ [c] -> LogicalExpr.size x <= LogicalExpr.size c) as Hs by by intros ->%list_elem_of_singleton.
    destruct c; try by apply Hs. destruct op; [|by apply Hs]. apply Nat.lt_le_incl. by apply size_child.
  - assert (sum_list (LogicalExpr.size <$> flat_map (DistributiveOr.remaining_child common) es)
      < sum_list (LogicalExpr.size <$> es)) as Hlt.
    { assert (forall l, (forall c, c ∈ l -> c ∈ es) -> length l + sum_list (LogicalExpr.size <$> flat_map (DistributiveOr.remaining_child common) l)
        <= sum_list (LogicalExpr.size <$> l)) as Hsum.
      { induction l as [|c l IH]; intros Hl; [done|]. cbn [flat_map]. rewrite fmap_app, sum_list_with_app. cbn.
        pose proof (remaining_size c (Hl c (list_elem_of_here _ _))).
        specialize (IH (fun d Hd => Hl d (list_elem_of_further _ _ _ Hd))). unfold sum_list in *. lia. }
      specialize (Hsum es (fun _ H => H)). destruct es; [by destruct Hne|]. cbn in *. lia. }
    pose proof (regroup_size ConjunctionOperator.Or (flat_map (DistributiveOr.remaining_child common) es)) as Hreg.
    rewrite (size_eq (Conjunction _ _)). cbn [children].
    assert (LogicalExpr.size x <= sum_list (LogicalExpr.size <$> regroup ConjunctionOperator.Or (flat_map (DistributiveOr.remaining_child common) es))).
    { apply sum_list_elem, list_elem_of_fmap. eauto. }
    lia.
Qed.

End Distribution.

(** *** The whole rule *)

Lemma existsb_pointwise (f g : Expression -> bool) l : (forall x, f x = g x) -> existsb f l = existsb g l.
Proof. intros Hfg. induction l as [|x l IH]; cbn; [done|]. by rewrite Hfg, IH. Qed.

Lemma maybe_rewrite_or_spec es :
  es <> [] ->
  exists common, (forall x, x ∈ common <-> forall c, c ∈ es -> x ∈ conjuncts c)
    /\ DistributiveOr.absorbs es = existsb (fun e => bool_decide (rest common e = [])) es
                                    && existsb (fun e => bool_decide (rest common e <> [])) es
    /\ DistributiveOr.maybe_rewrite_or es =
        Ok (if decide (common = []) then (ConjunctionOperator.Or, es) else (ConjunctionOperator.And, distributed es common)).
Proof.
  destruct es as [|child iter]; [done|]. intros _. exists (DistributiveOr.common_exprs child iter). split_and!.
  - intros x. apply elem_of_common.
  - assert (forall l, DistributiveOr.remaining_child (DistributiveOr.common_exprs child iter) l = []
      <-> rest (DistributiveOr.common_exprs child iter) l = []) as Hr.
    { intros l. rewrite remaining_child_eq. by destruct (rest _ l) as [|? []]. }
    unfold DistributiveOr.absorbs. f_equal; apply existsb_pointwise; intros l; apply bool_decide_ext; by rewrite Hr.
  - unfold DistributiveOr.maybe_rewrite_or, distributed. by destruct (DistributiveOr.common_exprs child iter).
Qed.

(** The children of the rewritten OR are typed and smaller. *)
Lemma rewritten_children es :
  well_typed (Conjunction ConjunctionOperator.Or es) ->
  exists op es', DistributiveOr.maybe_rewrite_or es = Ok (op, es') /\ es' <> []
    /\ Forall (fun c => boolean c /\ well_typed c) es'
    /\ (forall c, c ∈ es' -> LogicalExpr.size c < LogicalExpr.size (Conjunction ConjunctionOperator.Or es))
    /\ (DistributiveOr.absorbs es = false -> expr_equiv (Conjunction ConjunctionOperator.Or es) (Conjunction op es')).
Proof.
  intros [Hne Hes]%well_typed_conj. destruct (maybe_rewrite_or_spec es Hne) as (common & Hc & Habs & ->).
  case_decide as Hcm; eexists _, _.
  - split_and!; [done|done|done| |done]. intros c Hin. by apply size_child.
  - split_and!; [done|by apply distributed_ne|by apply distributed_typed| |].
    + intros c. by apply distributed_size.
    + intros Hab. assert (forall l, Forall (fun c => boolean c /\ well_typed c) l -> Forall boolean l) as Hbl
        by (intros l Hl; eapply Forall_impl; [exact Hl|]; by intros ? []).
      apply boolean_truth_ext; [by apply boolean_conj; auto| |].
      { apply boolean_conj; [by apply distributed_ne|]. by apply Hbl, distributed_typed. }
      intros env. symmetry. rewrite Hab in Habs. symmetry in Habs. apply andb_false_iff in Habs as [Hf|Hf].
      * apply distributed_truth_none; try done. intros c Hin Hr.
        apply not_true_iff_false in Hf. apply Hf, existsb_exists. exists c. split; [by apply list_elem_of_In|by apply bool_decide_eq_true].
      * apply distributed_truth_all; try done. intros c Hin. destruct (decide (rest common c = [])) as [|Hr]; [done|].
        apply not_true_iff_false in Hf. destruct Hf. apply existsb_exists. exists c. split; [by apply list_elem_of_In|by apply bool_decide_eq_true].
Qed.

Lemma distribute_inner_total fuel e :
  LogicalExpr.size e <= fuel -> well_typed e -> exists e', DistributiveOr.inner fuel e = Ok e'.
Proof.
  revert e. induction fuel as [|fuel IH]; intros e Hs Hw; [rewrite size_eq in Hs; lia|].
  assert (exists e', for_each_child_mut (DistributiveOr.inner fuel) e = Ok e') as Hother.
  { destruct (for_each_child_mut_spec (DistributiveOr.inner fuel) e) as (e' & ? & _); [|eauto].
    intros c Hc. apply IH; [apply size_child in Hc; lia|by eapply well_typed_child]. }
  destruct e; try exact Hother. destruct op; [exact Hother|]. clear Hother. cbn [DistributiveOr.inner].
  destruct (rewritten_children _ Hw) as (op & es' & -> & _ & HF & Hsz & _). rewrite Forall_forall in HF.
  destruct (collect_visits (DistributiveOr.inner fuel) es') as (l & Hl & _).
  { intros c Hc. apply IH; [specialize (Hsz c Hc); lia|by apply HF]. }
  cbn. rewrite Hl. eexists. reflexivity.
Qed.

Lemma distribute_inner_rewrites fuel e :
  LogicalExpr.size e <= fuel -> well_typed e -> DistributiveOr.no_absorption fuel e = true ->
  rewrites (DistributiveOr.inner fuel e) e.
Proof.
  revert e. induction fuel as [|fuel IH]; intros e Hs Hw Hna; [rewrite size_eq in Hs; lia|].
  assert (forallb (DistributiveOr.no_absorption fuel) (children e) = true ->
    rewrites (for_each_child_mut (DistributiveOr.inner fuel) e) e) as Hother.
  { intros Hall. rewrite forallb_forall in Hall. apply rewrites_children; [done|]. intros c Hc.
    apply IH; [apply size_child in Hc; lia|by eapply well_typed_child|by apply Hall, list_elem_of_In]. }
  destruct e; try by apply Hother. destruct op; [by apply Hother|]. clear Hother.
  cbn [DistributiveOr.inner DistributiveOr.no_absorption] in *. apply andb_true_iff in Hna as [Hab Hall].
  apply negb_true_iff in Hab. destruct (rewritten_children _ Hw) as (op & es' & Heq & Hne & HF & Hsz & Hq).
  rewrite Heq in *. cbn. eapply rewrites_trans; [by apply Hq|].
  change (rewrites (for_each_child_mut (DistributiveOr.inner fuel) (Conjunction op es')) (Conjunction op es')).
  rewrite forallb_forall in Hall. apply rewrites_children; [by apply well_typed_conj|]. cbn [children]. intros c Hc.
  rewrite Forall_forall in HF. apply IH; [specialize (Hsz c Hc); lia|by apply HF|by apply Hall, list_elem_of_In].
Qed.

(** *** Join filters *)

(** Adding an expression that one table alone determines. *)
Definition add_leaf (m : gmap TableRef (list Expression)) (leaf : Expression) : gmap TableRef (list Expression) :=
  match elements (get_table_references leaf) with
  | [table] => partial_alter (fun exprs => Some (default [] exprs ++ [leaf])) table m
  | _ => m
  end.

Lemma extract_and_exprs_eq e m : JoinFilterOr.extract_and_exprs e m = foldl add_leaf m (split_conjunction e).
Proof.
  revert m. induction e as [e IH] using expr_ind_children. intros m. destruct e; try done. destruct op; [|done].
  cbn [JoinFilterOr.extract_and_exprs split_conjunction children] in *. revert m.
  induction expressions as [|c es IHes]; intros m; [done|]. cbn. rewrite foldl_app, <- (IH c) by apply list_elem_of_here.
  apply IHes. intros c' Hc'. apply IH. by apply list_elem_of_further.
Qed.

(** Every entry of the extraction holds some conjuncts of the expression. *)
Lemma extract_entry e t exprs :
  JoinFilterOr.extract_and_exprs e ∅ !! t = Some exprs -> exprs <> [] /\ forall x, x ∈ exprs -> x ∈ split_conjunction e.
Proof.
  rewrite extract_and_exprs_eq.
  assert (forall l m, (forall t exprs, m !! t = Some exprs -> exprs <> [] /\ forall x, x ∈ exprs -> x ∈ split_conjunction e) ->
    (forall x, x ∈ l -> x ∈ split_conjunction e) ->
    forall t exprs, foldl add_leaf m l !! t = Some exprs -> exprs <> [] /\ forall x, x ∈ exprs -> x ∈ split_conjunction e) as Hf.
  { induction l as [|y l IH]; intros m Hm Hl; [done|]. cbn. apply IH; [|intros; apply Hl; by apply list_elem_of_further].
    intros t' exprs'. unfold add_leaf. destruct (elements _) as [|tb []]; [apply Hm| |apply Hm].
    destruct (decide (tb = t')) as [->|]; [rewrite lookup_partial_alter_eq|rewrite lookup_partial_alter_ne by done; apply Hm].
    intros [= <-]. split; [by destruct (default [] _)|]. intros x [Hx| ->%list_elem_of_singleton]%elem_of_app.
    - destruct (m !! t') eqn:Hmt; [|by apply not_elem_of_nil in Hx]. by apply (Hm _ _ Hmt).
    - apply Hl, list_elem_of_here. }
  apply Hf; [|done]. intros t' exprs'. by rewrite lookup_empty.
Qed.

(** The leaves collected for one table: all are conjuncts of children, and
    every child contributes one. *)
Lemma table_or_spec es extracted entry e :
  extracted = map (fun expr => JoinFilterOr.extract_and_exprs expr ∅) es ->
  forall others first, extracted = others ++ [first] -> first !! entry.1 = Some entry.2 ->
  e ∈ JoinFilterOr.table_or others entry ->
  exists l, e = Conjunction ConjunctionOperator.Or l /\ l <> []
    /\ (forall x, x ∈ l -> exists c, c ∈ es /\ x ∈ split_conjunction c)
    /\ (forall c, c ∈ es -> exists x, x ∈ l /\ x ∈ split_conjunction c).
Proof.
  intros -> others first Heq Hfirst. unfold JoinFilterOr.table_or.
  destruct (mapM _ others) as [exprss|] eqn:Hm; [|by intros Hx%not_elem_of_nil].
  intros ->%list_elem_of_singleton. apply mapM_Some in Hm.
  assert (Forall2 (fun c exprs => JoinFilterOr.extract_and_exprs c ∅ !! entry.1 = Some exprs) es (exprss ++ [entry.2])) as HF.
  { assert (Forall2 (fun m exprs => m !! entry.1 = Some exprs)
      (map (fun expr => JoinFilterOr.extract_and_exprs expr ∅) es) (exprss ++ [entry.2])) as HF'.
    { rewrite Heq. apply Forall2_app; [done|by repeat constructor]. }
    by apply Forall2_fmap_l in HF'. }
  replace (concat exprss ++ entry.2) with (concat (exprss ++ [entry.2])) by (rewrite concat_app; cbn; by rewrite app_nil_r).
  exists (concat (exprss ++ [entry.2])).
  assert (forall c, c ∈ es -> exists x, x ∈ concat (exprss ++ [entry.2]) /\ x ∈ split_conjunction c) as Hcov.
  { intros c [i Hi]%list_elem_of_lookup. destruct (Forall2_lookup_l _ _ _ _ _ HF Hi) as (exprs & Hexprs & Hent).
    destruct (extract_entry _ _ _ Hent) as [Hne Hin]. destruct (proj1 (ne_list_elem _) Hne) as [x Hx].
    exists x. split; [|auto]. apply list_elem_of_In, in_concat. exists exprs.
    split; apply list_elem_of_In; [by eapply list_elem_of_lookup_2|done]. }
  split_and!; [done| | |done].
  - assert (es <> []) as [c Hc]%ne_list_elem by (intros ->; by destruct others).
    destruct (Hcov c Hc) as (x & Hx & _). apply ne_list_elem. eauto.
  - intros x (exprs & [i Hi]%list_elem_of_In%list_elem_of_lookup & Hx%list_elem_of_In)%list_elem_of_In%in_concat.
    destruct (Forall2_lookup_r _ _ _ _ _ HF Hi) as (c & Hc & Hent).
    exists c. split; [by eapply list_elem_of_lookup_2|]. by apply (extract_entry _ _ _ Hent).
Qed.

(** An expression that holds whenever [e] does, and is not NULL when [e] is
    not. *)
Definition implied e x : Prop :=
  boolean x /\ well_typed x
  /\ forall env, (truth x env = None -> truth e env = None) /\ (truth e env = Some true -> truth x env = Some true).

(** Such expressions can be added to [e] with AND. *)
Lemma and_implied e l :
  boolean e -> well_typed e -> (forall x, x ∈ l -> implied e x) ->
  rewrites (Ok (Conjunction ConjunctionOperator.And (l ++ [e]))) e.
Proof.
  intros Hb Hw Hl. assert (l ++ [e] <> []) as Hne by by destruct l.
  assert (Forall (fun c => boolean c /\ well_typed c) (l ++ [e])) as HF.
  { apply Forall_app. split; [|by repeat constructor]. apply Forall_forall. intros x Hx. by destruct (Hl x Hx) as (? & ? & _). }
  eexists. split_and!; [reflexivity| |by apply well_typed_conj].
  apply boolean_truth_ext; [done| |].
  - apply boolean_conj; [done|]. eapply Forall_impl; [exact HF|]. by intros ? [].
  - intros env. symmetry. apply truth_ext.
    + rewrite truth_conj_null by done. setoid_rewrite elem_of_app. setoid_rewrite list_elem_of_singleton. split.
      * intros (x & [Hx| ->] & Hn); [|done]. destruct (Hl x Hx) as (_ & _ & Hi). by apply (Hi env).
      * eauto.
    + rewrite truth_and_true by done. setoid_rewrite elem_of_app. setoid_rewrite list_elem_of_singleton. split; [auto|].
      intros Ht x [Hx| ->]; [|done]. destruct (Hl x Hx) as (_ & _ & Hi). by apply (Hi env).
Qed.

(** The OR of a table is implied by the OR it was extracted from. *)
Lemma table_or_implied es l :
  Forall (fun c => boolean c /\ well_typed c) es -> es <> [] -> l <> [] ->
  (forall x, x ∈ l -> exists c, c ∈ es /\ x ∈ split_conjunction c) ->
  (forall c, c ∈ es -> exists x, x ∈ l /\ x ∈ split_conjunction c) ->
  implied (Conjunction ConjunctionOperator.Or es) (Conjunction ConjunctionOperator.Or l).
Proof.
  intros Hes Hne Hnl Hl Hcov. rewrite Forall_forall in Hes.
  assert (forall c, c ∈ es -> splits ConjunctionOperator.And c (split_conjunction c)) as Hsp
    by (intros c Hc; destruct (Hes c Hc); by apply split_conjunction_splits).
  assert (forall x, x ∈ l -> boolean x /\ well_typed x) as Htl.
  { intros x (c & Hc & Hx)%Hl. destruct (Hsp c Hc) as (_ & HF & _). rewrite Forall_forall in HF. by destruct (HF x Hx) as (? & ? & _). }
  assert (forall x env, x ∈ l -> truth x env = None -> truth (Conjunction ConjunctionOperator.Or es) env = None) as Hnull.
  { intros x env (c & Hc & Hx)%Hl Hn. apply truth_conj_null; [done|]. exists c. split; [done|].
    destruct (Hsp c Hc) as (Hns & _ & <-). apply truth_conj_null; eauto. }
  split_and!.
  - apply boolean_conj; [done|]. rewrite Forall_forall. intros x Hx. by apply Htl.
  - apply well_typed_conj. split; [done|]. by rewrite Forall_forall.
  - intros env. split; [intros (x & Hx & Hn)%truth_conj_null; [eauto|done]|].
    intros Ht. apply truth_or_true; [done|]. split.
    + intros x Hx Hn. specialize (Hnull x env Hx Hn). congruence.
    + apply truth_or_true in Ht as [_ (c & Hc & Ht)]; [|done]. destruct (Hcov c Hc) as (x & Hx & Hxc).
      exists x. split; [done|]. destruct (Hsp c Hc) as (Hns & _ & Htr). rewrite <- Htr in Ht.
      exact (proj1 (truth_and_true _ _ Hns) Ht x Hxc).
Qed.

Section JoinFilter.
Variable into_iter : gmap TableRef (list Expression) -> list (TableRef * list Expression).
Hypothesis into_iter_perm : forall m, into_iter m ≡ₚ map_to_list m.

Lemma join_filter_or_rewritten es :
  well_typed (Conjunction ConjunctionOperator.Or es) ->
  rewrites (let '(op, es') := JoinFilterOr.maybe_rewrite_or into_iter es in Ok (Conjunction op es'))
    (Conjunction ConjunctionOperator.Or es).
Proof.
  intros Hw. assert (rewrites (Ok (Conjunction ConjunctionOperator.Or es)) (Conjunction ConjunctionOperator.Or es)) as Hid
    by (eexists; by split_and!).
  unfold JoinFilterOr.maybe_rewrite_or. destruct (JoinFilterOr.can_rewrite es); [|exact Hid].
  destruct (rev _) as [|first others] eqn:Hrev; [exact Hid|]. clear Hid.
  assert (map (fun expr => JoinFilterOr.extract_and_exprs expr ∅) es = rev others ++ [first]) as Heq
    by (rewrite <- (rev_involutive (map _ es)), Hrev; done).
  destruct (proj1 (well_typed_conj _ _) Hw) as [Hne Hes]. apply and_implied; [|done|].
  { apply boolean_conj; [done|]. eapply Forall_impl; [exact Hes|]. by intros ? []. }
  intros x (entry & Hent & Hx)%list_elem_of_In%in_flat_map. apply list_elem_of_In in Hx, Hent.
  rewrite into_iter_perm in Hent. destruct entry as [t exprs]. apply elem_of_map_to_list in Hent.
  destruct (table_or_spec es _ (t, exprs) x eq_refl _ _ Heq Hent Hx) as (l & -> & Hnl & Hl & Hcov).
  by apply table_or_implied.
Qed.

Lemma join_filter_inner_rewrites fuel e :
  LogicalExpr.size e <= fuel -> well_typed e -> rewrites (JoinFilterOr.inner into_iter fuel e) e.
Proof.
  revert e. induction fuel as [|fuel IH]; intros e Hs Hw; [rewrite size_eq in Hs; lia|].
  assert (rewrites (for_each_child_mut (JoinFilterOr.inner into_iter fuel) e) e) as Hother.
  { apply rewrites_children; [done|]. intros c Hc. apply IH; [apply size_child in Hc; lia|by eapply well_typed_child]. }
  destruct e; try exact Hother. destruct op; [exact Hother|]. by apply join_filter_or_rewritten.
Qed.

End JoinFilter.

(** *** Reordering *)

Lemma conj_perm op es es' : es ≡ₚ es' -> well_typed (Conjunction op es) -> expr_equiv (Conjunction op es) (Conjunction op es').
Proof.
  intros Hp Hw. destruct (proj1 (well_typed_conj _ _) Hw) as [Hne Hes].
  apply splits_equiv; [done|]. split_and!.
  - intros ->. by apply Permutation_nil_r in Hp.
  - rewrite <- Hp. rewrite Forall_forall in *. intros c Hc. destruct (Hes c Hc).
    split_and!; [done|done|]. apply Nat.lt_le_incl. by apply size_child.
  - intros env. assert (es' <> []) as Hne' by (intros ->; by apply Permutation_nil_r in Hp). apply truth_ext.
    + rewrite !truth_conj_null by done. by setoid_rewrite Hp.
    + destruct op; [rewrite !truth_and_true by done|rewrite !truth_or_true by done]; by setoid_rewrite Hp.
Qed.

End Correctness.

(** ** Properties *)

Section Properties.
Context {PL : Payload} {V : Type} {I : Interpretation PL V}.

(** C30. Unnesting nested ANDs and ORs terminates and keeps the value of the
    expression on every row, NULLs included, whatever the other nodes compute. *)
Theorem unnest_preserves (e : Expression) :
  well_typed e ->
  exists e', UnnestConjunction.rewrite e = Ok e' /\ well_typed e' /\ forall env, eval e' env = eval e env.
Proof.
  intros Hw. destruct (unnest_inner_rewrites (LogicalExpr.size e) e) as (e' & He & Hq & Hw'); [done|done|].
  exists e'. split_and!; [done|done|]. intros env. by rewrite Hq.
Qed.

(** C31. Lifting the common conjuncts out of an OR terminates on every
    expression, and keeps its value on every row when no child of an OR it
    rewrites is lifted out entirely while another is not. *)
Theorem distributive_or_preserves (e : Expression) :
  well_typed e ->
  exists e', DistributiveOr.rewrite e = Ok e'
    /\ (DistributiveOr.no_absorption (LogicalExpr.size e) e = true ->
        well_typed e' /\ forall env, eval e' env = eval e env).
Proof.
  intros Hw. destruct (distribute_inner_total (LogicalExpr.size e) e) as [e' He]; [done|done|].
  exists e'. split; [done|]. intros Hna.
  destruct (distribute_inner_rewrites (LogicalExpr.size e) e) as (e1 & He1 & Hq & Hw1); [done..|].
  rewrite He1 in He. injection He as <-. split; [done|]. intros env. by rewrite Hq.
Qed.

(** C32. The rewrite of join filters adds, for each table that every child of
    an OR filters, the OR of those filters; it terminates and keeps the value of
    the expression on every row, in whatever order the tables are visited. *)
Theorem join_filter_or_preserves into_iter (e : Expression) :
  (forall m, into_iter m ≡ₚ map_to_list m) -> well_typed e ->
  exists e', JoinFilterOr.rewrite into_iter e = Ok e' /\ well_typed e' /\ forall env, eval e' env = eval e env.
Proof.
  intros Hp Hw. destruct (join_filter_inner_rewrites into_iter Hp (LogicalExpr.size e) e) as (e' & He & Hq & Hw'); [done|done|].
  exists e'. split_and!; [done|done|]. intros env. by rewrite Hq.
Qed.

(** Sorting the inputs of a conjunction by cost keeps its value on every
    row, however the sort orders inputs of the same cost. *)
Theorem reorder_conj_preserves sort_unstable_by op es :
  (forall cost l, sort_unstable_by cost l ≡ₚ l) -> well_typed (Conjunction op es) ->
  forall env, eval (reorder_conj sort_unstable_by op es) env = eval (Conjunction op es) env.
Proof. intros Hs Hw env. symmetry. apply conj_perm; [|done]. by rewrite Hs. Qed.

End Properties.

Module RewriteExample.
Import BoolExpr.

Definition conj_and : list Expression -> Expression := Conjunction ConjunctionOperator.And.
Definition conj_or : list Expression -> Expression := Conjunction ConjunctionOperator.Or.

Lemma unnest_preserves_witness :
  exists e', UnnestConjunction.rewrite (conj_and [col 0 0; conj_and [col 0 1; conj_or [col 0 2; conj_or [col 0 3; col 0 4]]]]) = Ok e'
    /\ e' = conj_and [col 0 0; col 0 1; conj_or [col 0 2; col 0 3; col 0 4]]
    /\ well_typed e'.
Proof.
  destruct (unnest_preserves (conj_and [col 0 0; conj_and [col 0 1; conj_or [col 0 2; conj_or [col 0 3; col 0 4]]]]))
    as (e' & He & Hw & _); [apply conjunctions_ne_typed; vm_compute; reflexivity|].
  exists e'. split; [exact He|]. split; [|exact Hw]. vm_compute in He. injection He as <-. reflexivity.
Defined.

(** [(a AND b) OR (a AND c)] *)
Lemma distributive_or_preserves_witness :
  exists e', DistributiveOr.rewrite (conj_or [conj_and [col 0 0; col 0 1]; conj_and [col 0 0; col 0 2]]) = Ok e'
    /\ e' = conj_and [col 0 0; conj_or [col 0 1; col 0 2]]
    /\ forall env, eval e' env = eval (conj_or [conj_and [col 0 0; col 0 1]; conj_and [col 0 0; col 0 2]]) env.
Proof.
  destruct (distributive_or_preserves (conj_or [conj_and [col 0 0; col 0 1]; conj_and [col 0 0; col 0 2]]))
    as (e' & He & Hq); [apply conjunctions_ne_typed; vm_compute; reflexivity|].
  destruct (Hq ltac:(vm_compute; reflexivity)) as [_ Hev].
  exists e'. split; [exact He|]. split; [|exact Hev]. vm_compute in He. injection He as <-. reflexivity.
Defined.

(** [(t0.a AND t1.a) OR (t0.b AND t1.b)] *)
Lemma join_filter_or_preserves_witness :
  exists e', JoinFilterOr.rewrite map_to_list (conj_or [conj_and [col 0 0; col 1 0]; conj_and [col 0 1; col 1 1]]) = Ok e'
    /\ length (children e') = 3
    /\ forall env, eval e' env = eval (conj_or [conj_and [col 0 0; col 1 0]; conj_and [col 0 1; col 1 1]]) env.
Proof.
  destruct (join_filter_or_preserves map_to_list (conj_or [conj_and [col 0 0; col 1 0]; conj_and [col 0 1; col 1 1]]))
    as (e' & He & _ & Hev); [intros m; reflexivity|apply conjunctions_ne_typed; vm_compute; reflexivity|].
  exists e'. split; [exact He|]. split; [|exact Hev]. vm_compute in He. injection He as <-. reflexivity.
Defined.

Lemma reorder_conj_preserves_witness : forall env : Env,
  eval (reorder_conj (fun _ l => rev l) ConjunctionOperator.And [conj_or [col 0 0; col 0 1]; col 0 2]) env
  = eval (conj_and [conj_or [col 0 0; col 0 1]; col 0 2]) env.
Proof.
  intros env. apply (reorder_conj_preserves (fun _ l => rev l)).
  - intros _ l. symmetry. apply Permutation_rev.
  - apply conjunctions_ne_typed. vm_compute. reflexivity.
Defined.

(** When a child of an OR is lifted out entirely, the rewrite changes the
    value: [a OR (a AND b)] becomes [a AND b], which is FALSE where [a] is TRUE
    and [b] is FALSE. *)
Theorem distributive_or_absorbs_wrong :
  DistributiveOr.rewrite (conj_or [col 0 0; conj_and [col 0 0; col 0 1]]) = Ok (conj_and [col 0 0; col 0 1])
  /\ exists env, eval (conj_or [col 0 0; conj_and [col 0 0; col 0 1]]) env = Some true
       /\ eval (conj_and [col 0 0; col 0 1]) env = Some false.
Proof.
  split; [vm_compute; reflexivity|]. exists (fun _ c => Some (Nat.eqb c 0)). split; vm_compute; reflexivity.
Qed.

End RewriteExample.
