(* ===== verification/JoinConditions.v ===== *)
(** * Join conditions

    Models [optimizer/filter_pushdown/condition_extractor.rs], which splits the
    conditions of a join into comparisons between its two sides, filters that
    only concern one side, and the remaining expressions, with
    [JoinCondition::flip_sides] of [logical/logical_join.rs]. *)
From S2P Require Import Prelude LogicalExpr Rewrites.

(** ** Definitions *)

Module ExprJoinSide.
Inductive t : Type := Left | Right | Both | None.
#[global] Instance t_eq_dec : EqDecision t.
Proof. solve_decision. Defined.

(** [ExprJoinSide::combine] *)
Definition combine (self other : t) : t :=
  match self, other with
  | a, None => a
  | None, b => b
  | Both, _ => Both
  | _, Both => Both
  | Left, Left => Left
  | Right, Right => Right
  | _, _ => Both
  end.
End ExprJoinSide.

Module JoinType.
Inductive t : Type := Left | Right | Inner | Full | LeftSemi | LeftAnti | LeftMark (table_ref : TableRef).
#[global] Instance t_eq_dec : EqDecision t.
Proof. solve_decision. Defined.
End JoinType.

Section Extractor.
Context {PL : Payload}.

Record JoinCondition : Type := mkCondition {
  cond_left : Expression;
  cond_right : Expression;
  cond_op : ComparisonOperator.t;
}.

(** [JoinCondition::flip_sides] *)
Definition flip_sides (c : JoinCondition) : JoinCondition :=
  mkCondition (cond_right c) (cond_left c) (ComparisonOperator.flip (cond_op c)).

Record ExtractedConditions : Type := mkExtracted {
  comparisons : list JoinCondition;
  arbitrary : list Expression;
  left_filter : list Expression;
  right_filter : list Expression;
}.

(** [ExtractedConditions::default] and the pushes onto its lists. *)
Definition no_conditions : ExtractedConditions := mkExtracted [] [] [] [].
Definition push_comparison (x : ExtractedConditions) c :=
  mkExtracted (comparisons x ++ [c]) (arbitrary x) (left_filter x) (right_filter x).
Definition push_arbitrary (x : ExtractedConditions) e :=
  mkExtracted (comparisons x) (arbitrary x ++ [e]) (left_filter x) (right_filter x).
Definition push_left_filter (x : ExtractedConditions) e :=
  mkExtracted (comparisons x) (arbitrary x) (left_filter x ++ [e]) (right_filter x).
Definition push_right_filter (x : ExtractedConditions) e :=
  mkExtracted (comparisons x) (arbitrary x) (left_filter x) (right_filter x ++ [e]).

(** The two [TableRefContainer]s, by their [contains_ref]. *)
Variables left_tables right_tables : TableRef -> bool.
Variable join_type : JoinType.t.

(** [ExprJoinSide::try_from_table_ref] *)
Definition try_from_table_ref (table_ref : TableRef) : res ExprJoinSide.t :=
  if left_tables table_ref then Ok ExprJoinSide.Left
  else if right_tables table_ref then Ok ExprJoinSide.Right
  else Err "Table ref is invalid".

(** The loop of [inner] over the children: each is given the side found so
    far. *)
Fixpoint visit_sides (inners : list (ExprJoinSide.t -> res ExprJoinSide.t)) (side : ExprJoinSide.t) : res ExprJoinSide.t :=
  match inners with
  | [] => Ok side
  | inner :: rest =>
      new_side ← inner side;
      visit_sides rest (ExprJoinSide.combine new_side side)
  end.

(** [inner] of [ExprJoinSide::try_from_expr] *)
Definition side_inner : Expression -> ExprJoinSide.t -> res ExprJoinSide.t :=
  expr_fold (fun expr inners side =>
    match expr with
    | Column reference _ => try_from_table_ref (table_scope reference)
    | Subquery _ => Err "Not yet implemented: subquery in join condition"
    | _ => visit_sides inners side
    end).

(** [ExprJoinSide::try_from_expr] *)
Definition try_from_expr (expr : Expression) : res ExprJoinSide.t := side_inner expr ExprJoinSide.None.

(** The body of the loop of [JoinConditionExtractor::extract]. *)
Definition extract_expr (extracted : ExtractedConditions) (expr : Expression) : res ExtractedConditions :=
  side ← try_from_expr expr;
  match side with
  | ExprJoinSide.Both =>
      match expr with
      | Comparison op l r =>
          left_side ← try_from_expr l;
          right_side ← try_from_expr r;
          if bool_decide (left_side <> ExprJoinSide.Both) && bool_decide (right_side <> ExprJoinSide.Both) then
            _ ← rust_assert (bool_decide (left_side <> right_side)) "assertion failed: left_side != right_side";
            let condition := mkCondition l r op in
            Ok (push_comparison extracted
                  (if bool_decide (left_side = ExprJoinSide.Right) then flip_sides condition else condition))
          else Ok extracted
      | other => Ok (push_arbitrary extracted other)
      end
  | ExprJoinSide.Right =>
      if bool_decide (join_type = JoinType.Left \/ join_type = JoinType.Inner)
      then Ok (push_right_filter extracted expr)
      else Ok (push_arbitrary extracted expr)
  | ExprJoinSide.Left =>
      if bool_decide (join_type = JoinType.Right \/ join_type = JoinType.Inner)
      then Ok (push_left_filter extracted expr)
      else Ok (push_arbitrary extracted expr)
  | ExprJoinSide.None => Ok (push_arbitrary extracted expr)
  end.

Fixpoint extract_loop (extracted : ExtractedConditions) (split_exprs : list Expression) : res ExtractedConditions :=
  match split_exprs with
  | [] => Ok extracted
  | expr :: rest => extracted' ← extract_expr extracted expr; extract_loop extracted' rest
  end.

(** [JoinConditionExtractor::extract] *)
Definition extract (exprs : list Expression) : res ExtractedConditions :=
  extract_loop no_conditions (flat_map split_conjunction exprs).

End Extractor.

(** ** The side of an expression *)

Section Sides.
Context {PL : Payload}.
Variables left_tables right_tables : TableRef -> bool.
Implicit Types e : Expression.

Local Abbreviation side_inner := (side_inner left_tables right_tables).
Local Abbreviation try_from_expr := (try_from_expr left_tables right_tables).

Definition is_left (s : ExprJoinSide.t) : bool := bool_decide (s = ExprJoinSide.Left \/ s = ExprJoinSide.Both).
Definition is_right (s : ExprJoinSide.t) : bool := bool_decide (s = ExprJoinSide.Right \/ s = ExprJoinSide.Both).

(** A side is the set of inputs it names. *)
Lemma side_ext s1 s2 : is_left s1 = is_left s2 -> is_right s1 = is_right s2 -> s1 = s2.
Proof. by destruct s1, s2. Qed.

Lemma combine_left s1 s2 : is_left (ExprJoinSide.combine s1 s2) = is_left s1 || is_left s2.
Proof. by destruct s1, s2. Qed.

Lemma combine_right s1 s2 : is_right (ExprJoinSide.combine s1 s2) = is_right s1 || is_right s2.
Proof. by destruct s1, s2. Qed.

(** The expression mentions a table of the left input, of the right input. *)
Definition uses_left e : Prop := exists t, t ∈ get_table_references e /\ left_tables t = true.
Definition uses_right e : Prop := exists t, t ∈ get_table_references e /\ left_tables t = false /\ right_tables t = true.

(** Its tables are those of the two inputs, and it has no subquery. *)
Definition resolvable : Expression -> bool :=
  expr_fold (fun e oks =>
    match e with
    | Column r _ => left_tables (table_scope r) || right_tables (table_scope r)
    | Subquery _ => false
    | _ => forallb id oks
    end).

Lemma references_node e :
  get_table_references e = match e with Column r _ => {[table_scope r]} | _ => ⋃ (get_table_references <$> children e) end.
Proof. unfold get_table_references at 1. rewrite expr_fold_eq. fold get_table_references. by destruct e. Qed.

Lemma uses_node (Q : TableRef -> Prop) e :
  (forall r dt, e <> Column r dt) ->
  (exists t, t ∈ get_table_references e /\ Q t) <-> exists c, c ∈ children e /\ exists t, t ∈ get_table_references c /\ Q t.
Proof.
  intros Hne. assert (get_table_references e = ⋃ (get_table_references <$> children e)) as ->
    by (rewrite references_node; destruct e; try done; by destruct (Hne reference datatype)).
  setoid_rewrite elem_of_union_list. setoid_rewrite list_elem_of_fmap. naive_solver.
Qed.

(** [inner] adds the inputs of the expression to the side it is given. *)
Lemma visit_sides_spec l side s :
  (forall c, c ∈ l -> forall s0 s1, side_inner c s0 = Ok s1 ->
    (is_left s1 || is_left s0 = true <-> is_left s0 = true \/ uses_left c)
    /\ (is_right s1 || is_right s0 = true <-> is_right s0 = true \/ uses_right c)) ->
  visit_sides (map side_inner l) side = Ok s ->
  (is_left s = true <-> is_left side = true \/ exists c, c ∈ l /\ uses_left c)
  /\ (is_right s = true <-> is_right side = true \/ exists c, c ∈ l /\ uses_right c).
Proof.
  revert side. induction l as [|c l IH]; intros side Hl; cbn; [intros [= ->]; set_solver|].
  destruct (side_inner c side) as [s1| |] eqn:Hc; cbn; [|done..]. intros Hv.
  destruct (Hl c (list_elem_of_here _ _) _ _ Hc) as [HL HR].
  destruct (IH _ (fun c' Hc' => Hl c' (list_elem_of_further _ _ _ Hc')) Hv) as [IL IR].
  rewrite combine_left in IL. rewrite combine_right in IR. rewrite HL in IL. rewrite HR in IR.
  setoid_rewrite elem_of_cons. split; [rewrite IL|rewrite IR]; split.
  all: try (intros [[|]|(c' & ? & ?)]; eauto; fail).
  all: intros [|(c' & [->|] & ?)]; eauto.
Qed.

Lemma side_inner_spec e s0 s1 :
  side_inner e s0 = Ok s1 ->
  (is_left s1 || is_left s0 = true <-> is_left s0 = true \/ uses_left e)
  /\ (is_right s1 || is_right s0 = true <-> is_right s0 = true \/ uses_right e).
Proof.
  revert s0 s1. induction e as [e IH] using expr_ind_children. intros s0 s1.
  unfold JoinConditions.side_inner. rewrite expr_fold_eq. fold side_inner.
  assert (visit_sides (map side_inner (children e)) s0 = Ok s1 -> (forall r dt, e <> Column r dt) ->
    (is_left s1 || is_left s0 = true <-> is_left s0 = true \/ uses_left e)
    /\ (is_right s1 || is_right s0 = true <-> is_right s0 = true \/ uses_right e)) as Hother.
  { intros Hv Hne. destruct (visit_sides_spec _ _ _ IH Hv) as [HL HR]. unfold uses_left, uses_right.
    rewrite !uses_node by done. rewrite !orb_true_iff, HL, HR. unfold uses_left, uses_right. tauto. }
  destruct e; try (intros Hv; by apply Hother).
  unfold try_from_table_ref, uses_left, uses_right. rewrite references_node. setoid_rewrite elem_of_singleton.
  destruct (left_tables (table_scope reference)) eqn:HL; [|destruct (right_tables (table_scope reference)) eqn:HR]; [..|done].
  all: intros [= <-]; cbn; rewrite !orb_true_iff || idtac; split; split; naive_solver.
Qed.

Lemma try_from_expr_spec e s :
  try_from_expr e = Ok s -> (is_left s = true <-> uses_left e) /\ (is_right s = true <-> uses_right e).
Proof.
  intros Hs. destruct (side_inner_spec e _ _ Hs) as [HL HR]. cbn in HL, HR. rewrite orb_false_r in HL, HR.
  rewrite HL, HR. naive_solver.
Qed.

Lemma resolvable_node e :
  resolvable e = match e with
                 | Column r _ => left_tables (table_scope r) || right_tables (table_scope r)
                 | Subquery _ => false
                 | _ => forallb resolvable (children e)
                 end.
Proof. unfold resolvable at 1. rewrite expr_fold_eq. fold resolvable. destruct e; try done; by rewrite forallb_compose. Qed.

Lemma resolvable_child e c : resolvable e = true -> c ∈ children e -> resolvable c = true.
Proof.
  intros Hr Hc. rewrite resolvable_node in Hr. apply list_elem_of_In in Hc.
  destruct e; try (rewrite forallb_forall in Hr; by apply Hr); done.
Qed.

Lemma side_inner_total e s0 : resolvable e = true -> exists s, side_inner e s0 = Ok s.
Proof.
  revert s0. induction e as [e IH] using expr_ind_children. intros s0 Hr.
  assert (forall l s, (forall c, c ∈ l -> c ∈ children e) -> exists s', visit_sides (map side_inner l) s = Ok s') as Hv.
  { induction l as [|c l IHl]; intros s Hl; cbn; [eauto|]. destruct (IH c (Hl c (list_elem_of_here _ _)) s) as [s1 ->].
    - eapply resolvable_child; [done|]. apply Hl, list_elem_of_here.
    - cbn. apply IHl. intros c' Hc'. apply Hl. by apply list_elem_of_further. }
  unfold JoinConditions.side_inner. rewrite expr_fold_eq. fold side_inner. rewrite resolvable_node in Hr.
  destruct e; try (by apply Hv); [|done].
  unfold try_from_table_ref. destruct (left_tables _); [eauto|]. cbn in Hr. rewrite Hr. eauto.
Qed.

(** A comparison that concerns both inputs, with no such operand, has one
    operand per input. *)
Lemma comparison_sides op l r sl sr :
  try_from_expr (Comparison op l r) = Ok ExprJoinSide.Both -> try_from_expr l = Ok sl -> try_from_expr r = Ok sr ->
  sl <> ExprJoinSide.Both -> sr <> ExprJoinSide.Both ->
  (sl = ExprJoinSide.Left /\ sr = ExprJoinSide.Right) \/ (sl = ExprJoinSide.Right /\ sr = ExprJoinSide.Left).
Proof.
  intros [HL HR]%try_from_expr_spec [HLl HRl]%try_from_expr_spec [HLr HRr]%try_from_expr_spec Hnl Hnr.
  assert (uses_left l \/ uses_left r) as Hl.
  { destruct (proj1 HL eq_refl) as (t & Ht & Hq). rewrite references_node in Ht. cbn in Ht.
    rewrite !elem_of_union in Ht. unfold uses_left. destruct Ht as [?|[?|[]%not_elem_of_empty]]; eauto. }
  assert (uses_right l \/ uses_right r) as Hr.
  { destruct (proj1 HR eq_refl) as (t & Ht & Hq). rewrite references_node in Ht. cbn in Ht.
    rewrite !elem_of_union in Ht. unfold uses_right. destruct Ht as [?|[?|[]%not_elem_of_empty]]; eauto. }
  rewrite <- HLl, <- HLr in Hl. rewrite <- HRl, <- HRr in Hr. destruct sl, sr; cbn in *; naive_solver.
Qed.

End Sides.

(** ** The extracted conditions *)

Section Conditions.
Context {PL : Payload} {V : Type} {I : Interpretation PL V}.
Variables left_tables right_tables : TableRef -> bool.
Variable join_type : JoinType.t.
Implicit Types e : Expression.

Local Abbreviation try_from_expr := (try_from_expr left_tables right_tables).
Local Abbreviation extract_expr := (extract_expr left_tables right_tables join_type).

Definition condition_expr (c : JoinCondition) : Expression := Comparison (cond_op c) (cond_left c) (cond_right c).

(** Everything that will be checked of a pair of rows. *)
Definition conditions (x : ExtractedConditions) : list Expression :=
  map condition_expr (comparisons x) ++ arbitrary x ++ left_filter x ++ right_filter x.

(** Each part can be evaluated where it is put: the operands of comparisons and
    the filters on their own input, and filters are only pushed to an input the
    join does not preserve. *)
Definition placed (x : ExtractedConditions) : Prop :=
  Forall (fun c => try_from_expr (cond_left c) = Ok ExprJoinSide.Left
                   /\ try_from_expr (cond_right c) = Ok ExprJoinSide.Right) (comparisons x)
  /\ Forall (fun e => try_from_expr e = Ok ExprJoinSide.Left) (left_filter x)
  /\ Forall (fun e => try_from_expr e = Ok ExprJoinSide.Right) (right_filter x)
  /\ (left_filter x <> [] -> join_type = JoinType.Right \/ join_type = JoinType.Inner)
  /\ (right_filter x <> [] -> join_type = JoinType.Left \/ join_type = JoinType.Inner).

(** The expression is not a comparison of which an operand concerns both
    inputs, and not an IS NOT DISTINCT FROM whose operands have to be swapped. *)
Definition representable e : bool :=
  match e with
  | Comparison op l r =>
      match try_from_expr e, try_from_expr l, try_from_expr r with
      | Ok ExprJoinSide.Both, Ok sl, Ok sr =>
          bool_decide (sl <> ExprJoinSide.Both) && bool_decide (sr <> ExprJoinSide.Both)
          && negb (bool_decide (op = ComparisonOperator.IsNotDistinctFrom) && bool_decide (sl = ExprJoinSide.Right))
      | _, _, _ => true
      end
  | _ => true
  end.

Definition all_true (l : list Expression) (env : Env) : Prop := forall e, e ∈ l -> truth e env = Some true.

Lemma truth_flip (c : JoinCondition) env :
  cond_op c <> ComparisonOperator.IsNotDistinctFrom ->
  truth (condition_expr (flip_sides c)) env = truth (condition_expr c) env.
Proof.
  intros Hop. unfold truth, condition_expr. rewrite !eval_node. cbn. f_equal. destruct c as [l r op]. cbn in *.
  destruct op; try done; cbn; destruct (eval l env), (eval r env); cbn; by rewrite 1?partial_eq_sym.
Qed.

Lemma all_true_app l1 l2 env : all_true (l1 ++ l2) env <-> all_true l1 env /\ all_true l2 env.
Proof. unfold all_true. setoid_rewrite elem_of_app. naive_solver. Qed.

Lemma all_true_single e env : all_true [e] env <-> truth e env = Some true.
Proof. unfold all_true. setoid_rewrite list_elem_of_singleton. naive_solver. Qed.

(** One expression: it is put somewhere, and what is checked afterwards is what
    was checked before and the expression. *)
Lemma extract_expr_spec x e :
  resolvable left_tables right_tables e = true -> placed x ->
  exists x', extract_expr x e = Ok x' /\ placed x'
    /\ (representable e = true -> forall env, all_true (conditions x') env <-> all_true (conditions x) env /\ truth e env = Some true).
Proof.
  intros Hres (Hc & Hl & Hr & Hjl & Hjr).
  destruct (side_inner_total left_tables right_tables e ExprJoinSide.None Hres) as [s Hs].
  change (try_from_expr e = Ok s) in Hs. unfold JoinConditions.extract_expr. rewrite Hs. cbn.
  assert (exists x', Ok (push_arbitrary x e) = Ok x' /\ placed x'
    /\ (representable e = true -> forall env, all_true (conditions x') env <-> all_true (conditions x) env /\ truth e env = Some true)) as Harb.
  { eexists. split_and!; [done|done|]. intros _ env. unfold conditions. cbn. rewrite !all_true_app, all_true_single. tauto. }
  destruct s.
  - case_bool_decide; [|exact Harb]. eexists. split_and!; [done| |].
    + split_and!; cbn; try done. apply Forall_app. by repeat constructor.
    + intros _ env. unfold conditions. cbn. rewrite !all_true_app, all_true_single. tauto.
  - case_bool_decide; [|exact Harb]. eexists. split_and!; [done| |].
    + split_and!; cbn; try done. apply Forall_app. by repeat constructor.
    + intros _ env. unfold conditions. cbn. rewrite !all_true_app, all_true_single. tauto.
  - destruct e; try exact Harb. clear Harb.
    destruct (side_inner_total left_tables right_tables e1 ExprJoinSide.None) as [sl Hsl];
      [eapply resolvable_child; [done|]; apply list_elem_of_here|].
    destruct (side_inner_total left_tables right_tables e2 ExprJoinSide.None) as [sr Hsr];
      [eapply resolvable_child; [done|]; apply list_elem_of_further, list_elem_of_here|].
    change (try_from_expr e1 = Ok sl) in Hsl. change (try_from_expr e2 = Ok sr) in Hsr.
    unfold representable. rewrite Hs, Hsl, Hsr. cbn.
    destruct (bool_decide (sl <> _)) eqn:Hbl; [|eexists; by split_and!].
    destruct (bool_decide (sr <> _)) eqn:Hbr; [|eexists; by split_and!]. cbn.
    apply bool_decide_eq_true in Hbl, Hbr.
    destruct (comparison_sides _ _ _ _ _ _ _ Hs Hsl Hsr Hbl Hbr) as [[-> ->]|[-> ->]]; cbn.
    + eexists. split_and!; [done| |].
      * split_and!; cbn; try done. apply Forall_app. by repeat constructor.
      * intros _ env. unfold conditions. cbn. rewrite map_app, !all_true_app. cbn [map]. rewrite all_true_single. tauto.
    + eexists. split_and!; [done| |].
      * split_and!; cbn; try done. apply Forall_app. by repeat constructor.
      * rewrite andb_true_r, negb_true_iff, bool_decide_eq_false. intros Hop env.
        pose proof (truth_flip (mkCondition e1 e2 op) env Hop) as Hflip. unfold condition_expr at 2 in Hflip. cbn in Hflip.
        unfold conditions, push_comparison. cbn [comparisons arbitrary left_filter right_filter].
        rewrite map_app, !all_true_app. cbn [map]. rewrite all_true_single. rewrite <- Hflip. tauto.
  - exact Harb.
Qed.

Lemma extract_loop_spec l x :
  Forall (fun e => resolvable left_tables right_tables e = true) l -> placed x ->
  exists x', extract_loop left_tables right_tables join_type x l = Ok x' /\ placed x'
    /\ (Forall (fun e => representable e = true) l ->
        forall env, all_true (conditions x') env <-> all_true (conditions x) env /\ all_true l env).
Proof.
  revert x. induction l as [|e l IH]; intros x Hres Hp.
  - exists x. split_and!; [done|done|]. intros _ env. split; [|by intros []]. intros Ha. split; [done|by intros c Hc%not_elem_of_nil].
  - apply Forall_cons in Hres as [He Hl]. destruct (extract_expr_spec x e He Hp) as (x1 & Hx1 & Hp1 & Hc1).
    destruct (IH x1 Hl Hp1) as (x2 & Hx2 & Hp2 & Hc2). exists x2. cbn. rewrite Hx1. cbn. split_and!; [done|done|].
    intros [Hre Hrl]%Forall_cons env. rewrite (Hc2 Hrl), (Hc1 Hre).
    change (e :: l) with ([e] ++ l). rewrite all_true_app, all_true_single. tauto.
Qed.

Lemma resolvable_split e c :
  resolvable left_tables right_tables e = true -> c ∈ split_conjunction e -> resolvable left_tables right_tables c = true.
Proof.
  induction e as [e IH] using expr_ind_children. intros Hr.
  assert (c ∈ [e] -> resolvable left_tables right_tables c = true) as Hs by by intros ->%list_elem_of_singleton.
  destruct e; try exact Hs. destruct op; [|exact Hs]. cbn [split_conjunction].
  intros (x & Hx%list_elem_of_In & Hc%list_elem_of_In)%list_elem_of_In%in_flat_map.
  eapply IH; [exact Hx| |exact Hc]. by eapply resolvable_child.
Qed.

Lemma all_true_split l env :
  Forall (fun e => boolean e /\ well_typed e) l -> all_true (flat_map split_conjunction l) env <-> all_true l env.
Proof.
  intros HF. rewrite Forall_forall in HF. unfold all_true. split.
  - intros Hall e He. destruct (HF e He) as [Hb Hw]. destruct (split_conjunction_splits e Hb Hw) as (Hne & _ & <-).
    apply truth_and_true; [done|]. intros c Hc. apply Hall, list_elem_of_In, in_flat_map.
    exists e. split; by apply list_elem_of_In.
  - intros Hall c (e & He%list_elem_of_In & Hc%list_elem_of_In)%list_elem_of_In%in_flat_map.
    destruct (HF e He) as [Hb Hw]. destruct (split_conjunction_splits e Hb Hw) as (Hne & _ & Ht).
    specialize (Hall e He). rewrite <- Ht in Hall. exact (proj1 (truth_and_true _ _ Hne) Hall c Hc).
Qed.

(** *** Conditions that are lost or changed *)

(** The sides of the operands and of the comparison. *)
Lemma comparison_side op l r : resolvable left_tables right_tables (Comparison op l r) = true ->
  exists s sl sr, try_from_expr (Comparison op l r) = Ok s /\ try_from_expr l = Ok sl /\ try_from_expr r = Ok sr
    /\ s = ExprJoinSide.combine sl sr.
Proof.
  intros Hres.
  assert (resolvable left_tables right_tables l = true /\ resolvable left_tables right_tables r = true) as [Hl Hr].
  { split; eapply resolvable_child; try exact Hres; [apply list_elem_of_here|apply list_elem_of_further, list_elem_of_here]. }
  destruct (side_inner_total _ _ _ ExprJoinSide.None Hres) as [s Hs], (side_inner_total _ _ l ExprJoinSide.None Hl) as [sl Hsl],
    (side_inner_total _ _ r ExprJoinSide.None Hr) as [sr Hsr]. exists s, sl, sr. split_and!; [done..|].
  apply try_from_expr_spec in Hs as [HL HR], Hsl as [HLl HRl], Hsr as [HLr HRr].
  assert (Hu : forall Q : TableRef -> Prop, (exists t, t ∈ get_table_references (Comparison op l r) /\ Q t)
    <-> (exists t, t ∈ get_table_references l /\ Q t) \/ exists t, t ∈ get_table_references r /\ Q t).
  { intros Q. rewrite uses_node by done. cbn [children]. split.
    - intros (c & [->|Hc]%elem_of_cons & Ht); [by left|]. apply list_elem_of_singleton in Hc as ->. by right.
    - intros [Ht|Ht]; [exists l|exists r]; (split; [|done]); [apply list_elem_of_here|apply list_elem_of_further, list_elem_of_here]. }
  apply side_ext; apply eq_true_iff_eq; rewrite ?combine_left, ?combine_right, orb_true_iff.
  - rewrite HL, HLl, HLr. apply Hu.
  - rewrite HR, HRl, HRr. apply Hu.
Qed.

Lemma side_of e s : try_from_expr e = Ok s ->
  (uses_left left_tables e /\ uses_right left_tables right_tables e -> s = ExprJoinSide.Both)
  /\ (uses_left left_tables e /\ ~ uses_right left_tables right_tables e -> s = ExprJoinSide.Left)
  /\ (~ uses_left left_tables e /\ uses_right left_tables right_tables e -> s = ExprJoinSide.Right).
Proof. intros [HL HR]%try_from_expr_spec. rewrite <- HL, <- HR. destruct s; cbn; naive_solver. Qed.

(** A comparison with an operand over both inputs is put nowhere. *)
Lemma extract_expr_lost x op l r : resolvable left_tables right_tables (Comparison op l r) = true ->
  uses_left left_tables l /\ uses_right left_tables right_tables l \/ uses_left left_tables r /\ uses_right left_tables right_tables r ->
  extract_expr x (Comparison op l r) = Ok x.
Proof.
  intros Hres Hboth. destruct (comparison_side op l r Hres) as (s & sl & sr & Hs & Hsl & Hsr & ->).
  unfold JoinConditions.extract_expr. rewrite Hs. cbn [mbind res_bind].
  assert (sl = ExprJoinSide.Both \/ sr = ExprJoinSide.Both) as Hor by (destruct Hboth as [H|H]; [left|right]; by eapply side_of).
  assert (ExprJoinSide.combine sl sr = ExprJoinSide.Both) as -> by (destruct Hor; subst; [by destruct sr|by destruct sl]).
  rewrite Hsl, Hsr. cbn [mbind res_bind]. destruct Hor; subst; [done|]. by destruct (bool_decide _).
Qed.

(** A comparison whose left operand is over the right input is flipped. *)
Lemma extract_expr_swapped x op l r : resolvable left_tables right_tables (Comparison op l r) = true ->
  uses_right left_tables right_tables l -> ~ uses_left left_tables l ->
  uses_left left_tables r -> ~ uses_right left_tables right_tables r ->
  extract_expr x (Comparison op l r) = Ok (push_comparison x (mkCondition r l (ComparisonOperator.flip op))).
Proof.
  intros Hres Hrl Hnl Hlr Hnr. destruct (comparison_side op l r Hres) as (s & sl & sr & Hs & Hsl & Hsr & ->).
  assert (sl = ExprJoinSide.Right) as -> by (by eapply side_of). assert (sr = ExprJoinSide.Left) as -> by (by eapply side_of).
  unfold JoinConditions.extract_expr. rewrite Hs. cbn [mbind res_bind ExprJoinSide.combine]. rewrite Hsl, Hsr. reflexivity.
Qed.

Lemma truth_swapped_not_distinct l r env :
  truth (condition_expr (mkCondition r l ComparisonOperator.IsDistinctFrom)) env
  = negb <$> truth (Comparison ComparisonOperator.IsNotDistinctFrom l r) env.
Proof.
  unfold truth, condition_expr. rewrite !eval_node. cbn. destruct (eval l env), (eval r env); cbn; rewrite ?as_of_bool; try done.
  by rewrite partial_eq_sym.
Qed.

Lemma extract_loop_app x es fs : extract_loop left_tables right_tables join_type x (es ++ fs)
  = (x' ← extract_loop left_tables right_tables join_type x es; extract_loop left_tables right_tables join_type x' fs).
Proof.
  revert x. induction es as [|e es IH]; intros x; [done|]. cbn [app extract_loop].
  destruct (JoinConditions.extract_expr _ _ _ x e) as [x'| |]; cbn [mbind res_bind]; [apply IH|done..].
Qed.

End Conditions.

(** ** Properties *)

(** C33. Join conditions are split correctly: for boolean conditions over the
    tables of the two inputs, [extract] succeeds (its assertion holds), every
    part is where it can be evaluated (comparisons have a left operand over the
    left input and a right operand over the right one, filters concern their
    input only and are pushed only to an input the join type does not preserve),
    and a pair of rows satisfies all the conditions exactly when it satisfies
    all the parts, provided no condition compares an operand that concerns both
    inputs and no IS NOT DISTINCT FROM has its operands swapped. *)
Theorem extract_conditions_correct {PL : Payload} {V : Type} {I : Interpretation PL V}
    left_tables right_tables join_type (exprs : list Expression) :
  Forall (fun e => boolean e /\ well_typed e) exprs ->
  Forall (fun e => resolvable left_tables right_tables e = true) exprs ->
  exists x, extract left_tables right_tables join_type exprs = Ok x
    /\ placed left_tables right_tables join_type x
    /\ (Forall (fun e => representable left_tables right_tables e = true) (flat_map split_conjunction exprs) ->
        forall env, all_true exprs env <-> all_true (conditions x) env).
Proof.
  intros HF Hres. unfold extract.
  destruct (extract_loop_spec left_tables right_tables join_type (flat_map split_conjunction exprs) no_conditions) as (x & Hx & Hp & Hc).
  - rewrite Forall_forall in *. intros c (e & He%list_elem_of_In & Hc%list_elem_of_In)%list_elem_of_In%in_flat_map.
    by apply (resolvable_split _ _ e); [apply Hres|].
  - split_and!; by try constructor.
  - exists x. split_and!; [done|done|]. intros Hrep env. rewrite (Hc Hrep), all_true_split by done.
    split; [|by intros []]. intros Ha. split; [by intros e He%not_elem_of_nil|done].
Qed.

(** C39. Two kinds of conditions are lost or changed, whatever the tables and the
    join type.  A comparison with an operand over both inputs is put nowhere:
    extracting a list with it gives what the list without it gives, so the join
    does not check it.  An IS NOT DISTINCT FROM whose left operand is over the
    right input and whose right operand is over the left one is extracted as the
    opposite test: on every pair of rows it is the negation of the condition. *)
Theorem extract_conditions_wrong {PL : Payload} {V : Type} {I : Interpretation PL V}
    left_tables right_tables join_type op (l r : Expression) :
  resolvable left_tables right_tables (Comparison op l r) = true ->
  (uses_left left_tables l /\ uses_right left_tables right_tables l \/ uses_left left_tables r /\ uses_right left_tables right_tables r ->
     forall before after, extract left_tables right_tables join_type (before ++ Comparison op l r :: after)
       = extract left_tables right_tables join_type (before ++ after))
  /\ (op = ComparisonOperator.IsNotDistinctFrom ->
      uses_right left_tables right_tables l -> ~ uses_left left_tables l ->
      uses_left left_tables r -> ~ uses_right left_tables right_tables r ->
      let c := mkCondition r l ComparisonOperator.IsDistinctFrom in
      extract left_tables right_tables join_type [Comparison op l r] = Ok (mkExtracted [c] [] [] [])
      /\ forall env, truth (condition_expr c) env = negb <$> truth (Comparison op l r) env).
Proof.
  intros Hres. split.
  - intros Hboth before after. unfold extract. rewrite !flat_map_app. cbn [flat_map split_conjunction app].
    rewrite !extract_loop_app. destruct (extract_loop _ _ _ _ (flat_map _ before)) as [x| |]; [|done..]. cbn [mbind res_bind extract_loop].
    by rewrite extract_expr_lost.
  - intros -> Hrl Hnl Hlr Hnr c. unfold extract. cbn [flat_map split_conjunction app extract_loop].
    rewrite extract_expr_swapped by done. split; [done|]. intros env. apply truth_swapped_not_distinct.
Qed.

Module JoinExample.
Import BoolExpr.

Definition left_table (t : TableRef) : bool := Nat.eqb t 0.
Definition right_table (t : TableRef) : bool := Nat.eqb t 1.

(** [r.a > l.a AND l.b AND (l.c OR r.c)] *)
Definition example_condition : Expression :=
  Conjunction ConjunctionOperator.And
    [Comparison ComparisonOperator.Gt (col 1 0) (col 0 0); col 0 1; Conjunction ConjunctionOperator.Or [col 0 2; col 1 2]].

Lemma extract_conditions_correct_witness :
  exists x, extract left_table right_table JoinType.Inner [example_condition] = Ok x
    /\ comparisons x = [mkCondition (col 0 0) (col 1 0) ComparisonOperator.Lt] /\ left_filter x = [col 0 1]
    /\ forall env, all_true [example_condition] env <-> all_true (conditions x) env.
Proof.
  destruct (extract_conditions_correct left_table right_table JoinType.Inner [example_condition]) as (x & Hx & _ & Hev).
  - constructor; [split; [apply boolean_any|apply conjunctions_ne_typed; vm_compute; reflexivity]|constructor].
  - constructor; [vm_compute; reflexivity|constructor].
  - exists x. split; [exact Hx|]. assert (comparisons x = [mkCondition (col 0 0) (col 1 0) ComparisonOperator.Lt]
      /\ left_filter x = [col 0 1]) as [Hc Hl] by (vm_compute in Hx; injection Hx as <-; split; reflexivity).
    split; [exact Hc|]. split; [exact Hl|]. apply Hev.
    repeat (constructor; [vm_compute; reflexivity|]). constructor.
Defined.

(** [l.a + r.a = r.b] is dropped from [r.a > l.a AND l.a + r.a = r.b], and
    [r.a IS NOT DISTINCT FROM l.a] becomes [l.a IS DISTINCT FROM r.a]. *)
Lemma extract_conditions_wrong_witness :
  extract left_table right_table JoinType.Inner
    ([example_condition] ++ Comparison ComparisonOperator.Eq (Arith ArithOperator.Add (col 0 0) (col 1 0) tt) (col 1 1) :: [])
  = extract left_table right_table JoinType.Inner ([example_condition] ++ [])
  /\ forall env, truth (condition_expr (mkCondition (col 0 0) (col 1 0) ComparisonOperator.IsDistinctFrom)) env
     = negb <$> truth (Comparison ComparisonOperator.IsNotDistinctFrom (col 1 0) (col 0 0)) env.
Proof.
  split.
  - destruct (extract_conditions_wrong left_table right_table JoinType.Inner ComparisonOperator.Eq
      (Arith ArithOperator.Add (col 0 0) (col 1 0) tt) (col 1 1)) as [Hlost _]; [vm_compute; reflexivity|].
    apply Hlost. left. split; [exists 0|exists 1]; by vm_compute.
  - destruct (extract_conditions_wrong left_table right_table JoinType.Inner ComparisonOperator.IsNotDistinctFrom
      (col 1 0) (col 0 0)) as [_ Hneg]; [vm_compute; reflexivity|].
    apply Hneg; [reflexivity| | | |].
    + exists 1. by vm_compute.
    + intros (t & Ht & Hl). rewrite references_node in Ht. apply elem_of_singleton in Ht as ->. discriminate Hl.
    + exists 0. by vm_compute.
    + intros (t & Ht & Hl & _). rewrite references_node in Ht. apply elem_of_singleton in Ht as ->. discriminate Hl.
Defined.

End JoinExample.
