(* ===== verification/JoinTable.v ===== *)
(** * The hash table of the hash join

    Models [execution/operators/hash_join/hash_table]: the chained hash table
    that the build side of a join fills and the probe side reads.  Rows are
    collected per partition, the blocks of all partitions are moved into one
    collection, and every partition links the rows of its share of the blocks
    into the chains of a directory with compare-and-swap.  A row keeps its
    hash in the bytes that later hold the pointer to the next row of its chain.
    Probing follows the chains of all rows of a batch at once; draining emits
    the rows of the build side that were, or were not, matched.

    Rows of batches are lists of values; the join keys are evaluated row by row,
    as the expression evaluator does ([ExprEval]).  Comparison and hashing of
    values are parameters. *)
From S2P Require Import Prelude PartitionSync RowBlocks Hash HashDirectory ExprEval LogicalExpr JoinConditions.

(** The position of a row in the blocks of the merged collection. *)
Abbreviation Ptr := (nat * nat)%type (only parsing).

(** The column that holds the hash while rows are collected, and the pointer to
    the next row of the chain once the row was inserted. *)
Inductive Link : Type :=
| HashOf (hash : Z)
| NextEntry (next : option Ptr).

(** ** Definitions *)

(** [needs_match_column] *)
Definition needs_match_column (join_type : JoinType.t) : bool :=
  match join_type with
  | JoinType.Left | JoinType.Full | JoinType.LeftSemi | JoinType.LeftAnti | JoinType.LeftMark _ => true
  | JoinType.Right | JoinType.Inner => false
  end.

(** [needs_drain] *)
Definition needs_drain (join_type : JoinType.t) : bool :=
  match join_type with
  | JoinType.Left | JoinType.LeftSemi | JoinType.LeftAnti | JoinType.Full | JoinType.LeftMark _ => true
  | JoinType.Inner | JoinType.Right => false
  end.

(** [(idx..num).step_by(n)] *)
Definition step_by (idx num n : nat) : list nat := (fun k => idx + k * n) <$> seq 0 ((num - idx + n - 1) / n).

Section JoinTable.
Context {V E : Type}.
Local Abbreviation Row := (list (option V)).

(** The value of an expression on a row; [HashValue::hash_one]; [==], [<] and
    [<=] of values; booleans as values; the heap bytes of an encoded row where
    the layout needs a heap; and the size of a directory for a number of rows
    before it is rounded up, [(num_rows as f64 / LOAD_FACTOR) as usize]. *)
Variable eval : E -> Row -> option V.
Variable hash_one : V -> Z.
Variables value_eq value_lt value_le : V -> V -> bool.
Variable bool_value : bool -> V.
Variable heap_size : option (Row -> nat).
Variable desired_size : nat -> nat.
Variable batch_size : nat.

(** [compare_nullable] of the matcher for the operator. *)
Definition compare_nullable (op : ComparisonOperator.t) (left right : option V) : bool :=
  let coerced (f : V -> V -> bool) := match left, right with Some l, Some r => f l r | _, _ => false end in
  match op with
  | ComparisonOperator.Eq => coerced value_eq
  | ComparisonOperator.NotEq => coerced (fun l r => negb (value_eq l r))
  | ComparisonOperator.Lt => coerced value_lt
  | ComparisonOperator.LtEq => coerced value_le
  | ComparisonOperator.Gt => coerced (fun l r => value_lt r l)
  | ComparisonOperator.GtEq => coerced (fun l r => value_le r l)
  | ComparisonOperator.IsDistinctFrom =>
      match left, right with
      | Some l, Some r => negb (value_eq l r)
      | Some _, None | None, Some _ => true
      | None, None => false
      end
  | ComparisonOperator.IsNotDistinctFrom =>
      match left, right with
      | Some l, Some r => value_eq l r
      | Some _, None | None, Some _ => false
      | None, None => true
      end
  end.

Record HashJoinCondition : Type := mkHashCondition {
  hc_left : E;
  hc_right : E;
  hc_op : ComparisonOperator.t;
}.

Record JoinHashTable : Type := mkJoinTable {
  join_type : JoinType.t;
  row_matcher : list ComparisonOperator.t;
  data_column_count : nat;
  encoded_key_columns : list nat;
  equality_columns : list nat;
  build_side_exprs : list E;
  probe_side_exprs : list E;
}.

(** The loop of [try_new] over the conditions: the columns of the keys among all
    encoded columns, and those compared by equality relative to the keys. *)
Fixpoint key_columns (encode_idx rel_key_idx : nat) (conditions : list HashJoinCondition) : list nat * list nat :=
  match conditions with
  | [] => ([], [])
  | condition :: rest =>
      let '(encoded, equality) := key_columns (S encode_idx) (S rel_key_idx) rest in
      (encode_idx :: encoded, if bool_decide (hc_op condition = ComparisonOperator.Eq) then rel_key_idx :: equality else equality)
  end.

(** [JoinHashTable::try_new] *)
Definition try_new (jt : JoinType.t) (left_columns : nat) (conditions : list HashJoinCondition) : res JoinHashTable :=
  let '(encoded, equality) := key_columns left_columns 0 conditions in
  _ ← rust_assert (negb (length conditions =? 0)) "assertion failed: !build_side_exprs.is_empty()";
  _ ← rust_assert (negb (length equality =? 0)) "Missing equality for join hash table";
  Ok (mkJoinTable jt (hc_op <$> conditions) left_columns encoded equality (hc_left <$> conditions) (hc_right <$> conditions)).

(** A row of the build side: the input columns and the join keys, then the hash
    or link, then the match column where there is one. *)
Record BuildRow : Type := mkBuildRow {
  encoded : Row;
  link : Link;
  matched : option bool;
}.

(** [HashTableOperatorState]: the collection of every partition with the number
    of partitions still pushing, the merged collection and the directory. *)
Record TableState : Type := mkTableState {
  collections : list (RowBlocks BuildRow);
  remaining : nat;
  merged : RowBlocks BuildRow;
  directory : option (list (option Ptr));
}.

(** [create_operator_state] and the operator state's part of
    [create_build_partition_states] *)
Definition create_table_state (partitions : nat) : TableState :=
  mkTableState (replicate partitions empty_blocks) partitions empty_blocks None.

(** *** Building *)

(** [eval_batch] into a batch of the batch size. *)
Definition eval_keys (exprs : list E) (rows : list Row) : res (list Row) :=
  _ ← rust_assert (length rows <=? batch_size) "index out of bounds";
  Ok ((fun row => (fun e => eval e row) <$> exprs) <$> rows).

(** [hash_many_arrays] on the columns of one row; without a column the hash
    keeps its initial zero. *)
Definition hash_columns (columns : list nat) (row : Row) : res Z :=
  vals ← collect (index row) columns;
  Ok (default 0%Z (row_hash_value hash_one vals)).

(** The row to encode: [columns, keys], hash and initial match. *)
Definition build_row (table : JoinHashTable) (row keys : Row) : res BuildRow :=
  key_cols ← collect (index (encoded_key_columns table)) (equality_columns table);
  hash ← hash_columns key_cols (row ++ keys);
  Ok (mkBuildRow (row ++ keys) (HashOf hash) (if needs_match_column (join_type table) then Some false else None)).

(** [RowCollection::append_arrays] *)
Definition append_build (blocks : RowBlocks BuildRow) (rows : list BuildRow) : res (RowBlocks BuildRow) :=
  append_rows batch_size blocks rows ((fun f => (fun r => f (encoded r)) <$> rows) <$> heap_size).

(** [collect_build] *)
Definition collect_build (table : JoinHashTable) (ts : TableState) (partition_idx : nat) (input : list Row) : res TableState :=
  keys ← eval_keys (build_side_exprs table) input;
  rows ← collect (fun rk : Row * Row => build_row table rk.1 rk.2) (zip input keys);
  blocks ← index (collections ts) partition_idx;
  blocks' ← append_build blocks rows;
  Ok (mkTableState (<[partition_idx := blocks']> (collections ts)) (remaining ts) (merged ts) (directory ts)).

(** [finish_build] *)
Definition finish_build (ts : TableState) : res (TableState * bool) :=
  _ ← rust_assert (negb (remaining ts =? 0)) "Atomic count for remaining partitions must not go negative";
  Ok (mkTableState (collections ts) (remaining ts - 1) (merged ts) (directory ts), remaining ts =? 1).

Definition MIN_SIZE : nat := 256.

(** [Directory::new_for_num_rows] *)
Definition new_for_num_rows (num_rows : nat) : res (list (option Ptr)) :=
  match checked_next_power_of_two (desired_size num_rows) with
  | Some size => Ok (replicate (Nat.max size MIN_SIZE) None)
  | None => Panic "attempt to add with overflow"
  end.

(** [RowCollection::merge_from] *)
Definition merge_blocks_from (self other : RowBlocks BuildRow) : RowBlocks BuildRow :=
  mkRowBlocks (row_blocks self ++ row_blocks other) (heap_blocks self ++ heap_blocks other).

(** [init_directory] *)
Definition init_directory (ts : TableState) : res TableState :=
  _ ← rust_assert (remaining ts =? 0) "Atomic count for partitions must be zero before initializing directory";
  let all := fold_left merge_blocks_from (collections ts) (merged ts) in
  dir ← new_for_num_rows (reserved_row_count all);
  _ ← rust_assert (bool_decide (directory ts = None)) "directory to be initialized only once";
  Ok (mkTableState ((fun _ => empty_blocks) <$> collections ts) (remaining ts) all (Some dir)).

(** *** Rows in memory *)

Local Abbreviation Memory := (list (list BuildRow)).

Definition row_at {R : Type} (blocks : list (list R)) (p : Ptr) : option R := blocks !! p.1 ≫= fun block => block !! p.2.

Definition read_row (mem : Memory) (p : option Ptr) : res BuildRow :=
  match p ≫= row_at mem with Some row => Ok row | None => Panic "invalid row pointer" end.

Definition alter_row (f : BuildRow -> BuildRow) (mem : Memory) (p : Ptr) : Memory := alter (alter f p.2) p.1 mem.

(** [write_next_entry_ptr] *)
Definition write_next_entry_ptr (mem : Memory) (p : Ptr) (next : option Ptr) : res Memory :=
  _ ← read_row mem (Some p);
  Ok (alter_row (fun r => mkBuildRow (encoded r) (NextEntry next) (matched r)) mem p).

(** [read_next_entry_ptr] *)
Definition read_next_entry_ptr (mem : Memory) (p : option Ptr) : res (option Ptr) :=
  row ← read_row mem p;
  match link row with NextEntry next => Ok next | HashOf _ => Panic "not a row pointer" end.

(** [write_rows_matched] *)
Fixpoint write_rows_matched (mem : Memory) (ptrs : list (option Ptr)) : res Memory :=
  match ptrs with
  | [] => Ok mem
  | p :: rest =>
      row ← read_row mem p;
      match p, matched row with
      | Some p, Some _ => write_rows_matched (alter_row (fun r => mkBuildRow (encoded r) (link r) (Some true)) mem p) rest
      | _, _ => Panic "match offset to exist"
      end
  end.

(** *** Inserting hashes *)

(** Where [insert_hashes] is with the row at the head of its list: every step
    makes one access to the atomic entry, and the writes to the row's own link
    belong to the access before them. *)
Inductive InsertPc : Type :=
| LoadEntry
| SwapEmpty
| LoadOccupied
| SwapOccupied (curr_ent : option Ptr).

(** [process_hashes] in progress: the scan, the hashes and pointers scanned that
    are still to be inserted, and the point in the insertion of the first. *)
Record Inserter : Type := mkInserter {
  scan : RowScanState;
  todo : list (Z * Ptr);
  pc : InsertPc;
}.

(** The start of [process_hashes]. *)
Definition start_insert (ts : TableState) (partition_idx : nat) : Inserter :=
  mkInserter (new_partial_scan (step_by partition_idx (length (row_blocks (merged ts))) (length (collections ts)))) [] LoadEntry.

(** [scan_columns] on the hash column. *)
Definition read_hash (row : BuildRow) : res Z :=
  match link row with HashOf h => Ok h | NextEntry _ => Panic "not a hash" end.

(** One step on the head of the list: what the atomic entry holds decides.  A
    [compare_exchange_weak] that fails although the entry is the expected one
    leaves everything as it is and is not a step. *)
Definition insert_step (mem : Memory) (dir : list (option Ptr)) (ins : Inserter) (hash : Z) (row_ptr : Ptr) (rest : list (Z * Ptr)) :
    res (Memory * list (option Ptr) * Inserter) :=
  let pos := compute_offset_from_hash hash (length dir) in
  current ← index dir pos;
  let inserted := Ok (mem, <[pos := Some row_ptr]> dir, mkInserter (scan ins) rest LoadEntry) in
  match pc ins with
  | LoadEntry =>
      match current with
      | None => mem' ← write_next_entry_ptr mem row_ptr None; Ok (mem', dir, mkInserter (scan ins) (todo ins) SwapEmpty)
      | Some _ => Ok (mem, dir, mkInserter (scan ins) (todo ins) LoadOccupied)
      end
  | SwapEmpty =>
      match current with
      | None => inserted
      | Some _ => Ok (mem, dir, mkInserter (scan ins) (todo ins) LoadOccupied)
      end
  | LoadOccupied =>
      mem' ← write_next_entry_ptr mem row_ptr current; Ok (mem', dir, mkInserter (scan ins) (todo ins) (SwapOccupied current))
  | SwapOccupied curr_ent =>
      if bool_decide (current = curr_ent) then inserted
      else mem' ← write_next_entry_ptr mem row_ptr current; Ok (mem', dir, mkInserter (scan ins) (todo ins) (SwapOccupied current))
  end.

(** One step of [process_hashes]: [None] when there are no more hashes. *)
Definition process_step (ts : TableState) (ins : Inserter) : res (TableState * option Inserter) :=
  match directory ts with
  | None => Panic "directory to have been initialized"
  | Some dir =>
      let mem := row_blocks (merged ts) in
      match todo ins with
      | [] =>
          '(scan', rows) ← scan_subset mem (scan ins) batch_size;
          if length rows =? 0 then Ok (ts, None)
          else hashes ← collect read_hash rows; Ok (ts, Some (mkInserter scan' (zip hashes (row_pointers scan')) LoadEntry))
      | (hash, row_ptr) :: rest =>
          '(mem', dir', ins') ← insert_step mem dir ins hash row_ptr rest;
          Ok (mkTableState (collections ts) (remaining ts) (mkRowBlocks mem' (heap_blocks (merged ts))) (Some dir'), Some ins')
      end
  end.

(** *** Probing *)

(** [HashTablePartitionScanState]: the rows of the batch that are still matched
    against their chains, the matches of the rows, the rows' current positions
    in the chains, and their join keys. *)
Record ScanState : Type := mkScan {
  selection : list nat;
  right_matches : list bool;
  scan_pointers : list (option Ptr);
  join_keys : list Row;
}.

Definition empty_scan_state : ScanState := mkScan [] [] [] [].

(** [probe] *)
Definition probe (table : JoinHashTable) (ts : TableState) (rhs : list Row) : res ScanState :=
  keys ← eval_keys (probe_side_exprs table) rhs;
  hashes ← collect (hash_columns (equality_columns table)) keys;
  match directory ts with
  | None => Panic "directory to have been initialized"
  | Some dir =>
      ptrs ← collect (fun h => index dir (compute_offset_from_hash h (length dir))) hashes;
      let sel := filter (fun i => ptrs !! i <> Some None) (seq 0 (length ptrs)) in
      Ok (mkScan sel (replicate (length rhs) false) ptrs keys)
  end.

(** [Matcher::compute_matches] for one pair of columns. *)
Fixpoint compute_matches (mem : Memory) (op : ComparisonOperator.t) (lhs_rows : list (option Ptr)) (lhs_column : nat)
    (keys : list Row) (rhs_column : nat) (sel : list nat) : res (list nat) :=
  match sel with
  | [] => Ok []
  | sel_idx :: rest =>
      lhs_row_ptr ← index lhs_rows sel_idx;
      row ← read_row mem lhs_row_ptr;
      lhs_val ← index (encoded row) lhs_column;
      key ← index keys sel_idx;
      rhs_val ← index key rhs_column;
      matches ← compute_matches mem op lhs_rows lhs_column keys rhs_column rest;
      Ok (if compare_nullable op lhs_val rhs_val then sel_idx :: matches else matches)
  end.

(** [PredicateRowMatcher::find_matches] from key column [rhs_column] on. *)
Fixpoint find_matches (mem : Memory) (lhs_rows : list (option Ptr)) (keys : list Row) (lhs_columns : list nat)
    (matchers : list ComparisonOperator.t) (rhs_column : nat) (sel : list nat) : res (list nat) :=
  match lhs_columns, matchers with
  | lhs_column :: lhs_columns', op :: matchers' =>
      sel' ← compute_matches mem op lhs_rows lhs_column keys rhs_column sel;
      find_matches mem lhs_rows keys lhs_columns' matchers' (S rhs_column) sel'
  | _, _ => Ok sel
  end.

(** [follow_next_in_chain] *)
Fixpoint follow_next_in_chain (mem : Memory) (ptrs : list (option Ptr)) (sel : list nat) : res (list (option Ptr) * list nat) :=
  match sel with
  | [] => Ok (ptrs, [])
  | ptr_idx :: rest =>
      ent ← index ptrs ptr_idx;
      next ← read_next_entry_ptr mem ent;
      '(ptrs', kept) ← follow_next_in_chain mem (<[ptr_idx := next]> ptrs) rest;
      Ok (ptrs', match next with Some _ => ptr_idx :: kept | None => kept end)
  end.

Definition follow (mem : Memory) (st : ScanState) : res ScanState :=
  '(ptrs, sel) ← follow_next_in_chain mem (scan_pointers st) (selection st);
  Ok (mkScan sel (right_matches st) ptrs (join_keys st)).

(** The loop that marks right rows; a row outside the list is out of bounds. *)
Fixpoint mark_right (matches : list bool) (sel : list nat) : res (list bool) :=
  match sel with
  | [] => Ok matches
  | i :: rest => _ ← index matches i; mark_right (<[i := true]> matches) rest
  end.

(** [chase_until_match_or_exhaust] *)
Fixpoint chase_until_match_or_exhaust (fuel : nat) (table : JoinHashTable) (mem : Memory) (track_right : bool) (st : ScanState) :
    res (ScanState * list nat) :=
  match fuel with
  | O => Panic "out of fuel"
  | S fuel' =>
      if length (selection st) =? 0 then Ok (st, [])
      else
        sel ← find_matches mem (scan_pointers st) (join_keys st) (encoded_key_columns table) (row_matcher table) 0 (selection st);
        rm ← (if track_right then mark_right (right_matches st) sel else Ok (right_matches st));
        let st' := mkScan (selection st) rm (scan_pointers st) (join_keys st) in
        if length sel =? 0 then st'' ← follow mem st'; chase_until_match_or_exhaust fuel' table mem track_right st''
        else Ok (st', sel)
  end.

(** Chains are no longer than the number of rows. *)
Definition chase_fuel (mem : Memory) : nat := S (length (concat mem)).

(** The pointers to the matched rows, marked as matched where there is a match
    column. *)
Definition mark_matched (table : JoinHashTable) (mem : Memory) (st : ScanState) (sel : list nat) : res (Memory * list (option Ptr)) :=
  ptrs ← collect (index (scan_pointers st)) sel;
  mem' ← (if needs_match_column (join_type table) then write_rows_matched mem ptrs else Ok mem);
  Ok (mem', ptrs).

(** [scan_next_inner_join] *)
Definition scan_next_inner_join (table : JoinHashTable) (mem : Memory) (rhs : list Row) (track_right : bool) (st : ScanState) :
    res (Memory * ScanState * list Row) :=
  if length (selection st) =? 0 then Ok (mem, st, [])
  else
    '(st, matched_sel) ← chase_until_match_or_exhaust (chase_fuel mem) table mem track_right st;
    if length matched_sel =? 0 then Ok (mem, st, [])
    else
      '(mem, ptrs) ← mark_matched table mem st matched_sel;
      _ ← rust_assert (length matched_sel <=? batch_size) "index out of bounds";
      lhs ← collect (read_row mem) ptrs;
      rhs_rows ← collect (index rhs) matched_sel;
      st ← follow mem st;
      Ok (mem, st, zip_with (fun l r => take (data_column_count table) (encoded l) ++ r) lhs rhs_rows).

(** [scan_next_right_join] *)
Definition scan_next_right_join (table : JoinHashTable) (mem : Memory) (rhs : list Row) (st : ScanState) :
    res (Memory * ScanState * list Row) :=
  '(mem, st, out) ← scan_next_inner_join table mem rhs true st;
  if length out =? 0 then
    let not_match_sel := filter (fun i => right_matches st !! i = Some false) (seq 0 (length (right_matches st))) in
    if length not_match_sel =? 0 then Ok (mem, st, [])
    else
      rhs_rows ← collect (index rhs) not_match_sel;
      Ok (mem, mkScan (selection st) [] (scan_pointers st) (join_keys st), fmap (M:=list) (fun r : Row => replicate (data_column_count table) None ++ r) rhs_rows)
  else Ok (mem, st, out).

(** The loop of [scan_next_left_mark] *)
Fixpoint left_mark_loop (fuel : nat) (table : JoinHashTable) (mem : Memory) (st : ScanState) : res (Memory * ScanState) :=
  match fuel with
  | O => Panic "out of fuel"
  | S fuel' =>
      '(st, matched_sel) ← chase_until_match_or_exhaust (chase_fuel mem) table mem false st;
      if length matched_sel =? 0 then Ok (mem, st)
      else
        _ ← rust_assert (needs_match_column (join_type table)) "Left mark(-like) join always needs match column";
        '(mem, _) ← mark_matched table mem st matched_sel;
        st ← follow mem st;
        left_mark_loop fuel' table mem st
  end.

Definition scan_next_left_mark (table : JoinHashTable) (mem : Memory) (st : ScanState) : res (Memory * ScanState * list Row) :=
  if length (selection st) =? 0 then Ok (mem, st, [])
  else '(mem, st) ← left_mark_loop (S (chase_fuel mem)) table mem st; Ok (mem, st, []).

(** [scan_next] *)
Definition scan_next (table : JoinHashTable) (mem : Memory) (rhs : list Row) (st : ScanState) : res (Memory * ScanState * list Row) :=
  match join_type table with
  | JoinType.Inner => scan_next_inner_join table mem rhs false st
  | JoinType.Left => scan_next_inner_join table mem rhs true st
  | JoinType.Right | JoinType.Full => scan_next_right_join table mem rhs st
  | JoinType.LeftSemi | JoinType.LeftMark _ => scan_next_left_mark table mem st
  | JoinType.LeftAnti => Err "scan join type: LEFT ANTI"
  end.

(** *** Draining *)

(** [HashTablePartitionDrainState] *)
Record DrainState : Type := mkDrain { curr_block_idx : nat; curr_row : nat }.

(** [create_drain_state_from_scan_state] *)
Definition create_drain_state (partition_idx : nat) : DrainState := mkDrain partition_idx 0.

(** The inner loop of [load_row_ptrs] over the rows of a block from [row_idx] on:
    the rows taken and, when the output is full, the row to go on with. *)
Fixpoint drain_block (match_fn : bool -> bool) (out_cap : nat) (row_idx : nat) (rows : list BuildRow) (taken : list BuildRow) :
    res (list BuildRow * option nat) :=
  match rows with
  | [] => Ok (taken, None)
  | row :: rest =>
      match matched row with
      | None => Panic "match offset to exist"
      | Some did_match =>
          if match_fn did_match then
            let taken := taken ++ [row] in
            if length taken =? out_cap then Ok (taken, Some (S row_idx)) else drain_block match_fn out_cap (S row_idx) rest taken
          else drain_block match_fn out_cap (S row_idx) rest taken
      end
  end.

(** The loop of [load_row_ptrs] over the blocks. *)
Fixpoint load_rows (fuel : nat) (mem : Memory) (partition_count : nat) (match_fn : bool -> bool) (out_cap : nat) (st : DrainState)
    (taken : list BuildRow) : res (DrainState * list BuildRow) :=
  match fuel with
  | O => Panic "out of fuel"
  | S fuel' =>
      match mem !! curr_block_idx st with
      | None => Ok (st, taken)
      | Some block =>
          '(taken, stop) ← drain_block match_fn out_cap (curr_row st) (drop (curr_row st) block) taken;
          match stop with
          | Some row => Ok (mkDrain (curr_block_idx st) row, taken)
          | None => load_rows fuel' mem partition_count match_fn out_cap (mkDrain (curr_block_idx st + partition_count) 0) taken
          end
      end
  end.

(** [load_row_ptrs] *)
Definition load_row_ptrs (ts : TableState) (match_fn : bool -> bool) (st : DrainState) : res (DrainState * list BuildRow) :=
  let mem := row_blocks (merged ts) in
  load_rows (S (length mem)) mem (length (collections ts)) match_fn batch_size st [].

(** [drain_next], with [drain_left_semi], [drain_left_mark] and [drain_left]; the
    output of a left join has [right_columns] more columns. *)
Definition drain_next (table : JoinHashTable) (ts : TableState) (right_columns : nat) (st : DrainState) : res (DrainState * list Row) :=
  let left_row (r : BuildRow) := take (data_column_count table) (encoded r) in
  match join_type table with
  | JoinType.LeftSemi =>
      '(st, rows) ← load_row_ptrs ts (fun did_match => did_match) st;
      Ok (st, fmap (M:=list) left_row rows)
  | JoinType.LeftMark _ =>
      '(st, rows) ← load_row_ptrs ts (fun _ => true) st;
      Ok (st, fmap (M:=list) (fun r => left_row r ++ [bool_value <$> matched r]) rows)
  | JoinType.Left =>
      '(st, rows) ← load_row_ptrs ts negb st;
      Ok (st, fmap (M:=list) (fun r => left_row r ++ replicate right_columns None) rows)
  | _ => Err "Unexpected join type for drain"
  end.

End JoinTable.

Arguments HashJoinCondition : clear implicits.
Arguments JoinHashTable : clear implicits.
Arguments BuildRow : clear implicits.
Arguments TableState : clear implicits.
Arguments ScanState : clear implicits.
