(* ===== verification/HashJoin.v ===== *)
(** * The hash join operator

    Models [execution/operators/hash_join/mod.rs]: the build side pushes its
    batches into the hash table of [JoinTable], the last partition to finish
    initializes the directory, all build partitions insert the hashes of their
    share of the rows, and the probe side joins its batches with the table and,
    for some join types, drains the rows of the build side at the end.  Build
    and probe partitions are tasks of their own that run concurrently; a task
    that is too early stores a waker.  An atomic step is one access to the
    shared state: a critical section, an atomic operation, or work on data that
    no other task touches at that time. *)
From S2P Require Import Prelude PartitionSync RowBlocks Hash HashDirectory LogicalExpr JoinConditions JoinTable.

Section Operator.
Context {V E : Type}.
Local Abbreviation Row := (list (option V)).
Variable eval : E -> Row -> option V.
Variable hash_one : V -> Z.
Variables value_eq value_lt value_le : V -> V -> bool.
Variable bool_value : bool -> V.
Variable heap_size : option (Row -> nat).
Variable desired_size : nat -> nat.
Variable batch_size : nat.

(** [PhysicalHashJoin] with the number of columns of both sides. *)
Record PhysicalHashJoin : Type := mkHashJoin {
  op_join_type : JoinType.t;
  left_types : nat;
  right_types : nat;
  conditions : list (HashJoinCondition E);
}.

(** [SharedState] *)
Record Shared : Type := mkShared {
  hash_inserts_ready : bool;
  scan_ready : bool;
  drain_ready : bool;
  remaining_hash_inserters : DelayedPartitionCount;
  remaining_probers : DelayedPartitionCount;
  pending_hash_inserters : PartitionWakers;
  pending_probers : PartitionWakers;
  pending_drainers : PartitionWakers;
}.

(** The points between the atomic steps of a build partition: collecting,
    finishing with or without being the last, with the directory initialized,
    waiting to insert hashes, inserting them, and at the end of it. *)
Inductive BuildState : Type :=
| Collecting
| Finishing (is_last : bool)
| DirectoryReady
| InsertWait
| Inserting (ins : Inserter)
| HashesInserted
| BuildDone.

Record Builder : Type := mkBuilder { bstate : BuildState; binput : list (list Row) }.

(** [HashJoinPartitionExecuteState], and the end. *)
Inductive ProbeState : Type :=
| Probing (scan_ready rhs_needs_probe : bool) (scan_state : ScanState V)
| Draining (drain_ready : bool) (drain_state : DrainState)
| ProbeDone.

Record Prober : Type := mkProber { pstate : ProbeState; pinput : list (list Row); emitted : list Row }.

Record System : Type := mkSystem {
  table_state : TableState V;
  shared : Shared;
  builders : list Builder;
  probers : list Prober;
}.

(** *** The build side *)

(** The last partition has initialized the directory: hash inserters can go on. *)
Definition publish_directory (sh : Shared) : Shared :=
  mkShared true (scan_ready sh) (drain_ready sh) (remaining_hash_inserters sh) (remaining_probers sh)
    (wake_all (pending_hash_inserters sh)) (pending_probers sh) (pending_drainers sh).

(** Whether hashes can be inserted; otherwise the waker is stored. *)
Definition check_insert (sh : Shared) (idx : nat) : res (bool * Shared) :=
  if hash_inserts_ready sh then Ok (true, sh)
  else
    w ← store_waker (pending_hash_inserters sh) idx;
    Ok (false, mkShared false (scan_ready sh) (drain_ready sh) (remaining_hash_inserters sh) (remaining_probers sh)
                 w (pending_probers sh) (pending_drainers sh)).

(** The end of [poll_finalize_push] *)
Definition finish_insert (sh : Shared) : res Shared :=
  count ← dec_by_one (remaining_hash_inserters sh);
  if bool_decide (count = Some 0) then
    Ok (mkShared (hash_inserts_ready sh) true (drain_ready sh) count (remaining_probers sh)
          (pending_hash_inserters sh) (wake_all (pending_probers sh)) (wake_all (pending_drainers sh)))
  else
    Ok (mkShared (hash_inserts_ready sh) (scan_ready sh) (drain_ready sh) count (remaining_probers sh)
          (pending_hash_inserters sh) (pending_probers sh) (pending_drainers sh)).

Definition parked (w : PartitionWakers) (idx : nat) : bool := default false (w !! idx).

(** One atomic step of [poll_push] or [poll_finalize_push] of build partition
    [idx]; [None] when it has nothing to do. *)
Definition build_step (table : JoinHashTable E) (idx : nat) (ts : TableState V) (sh : Shared) (b : Builder) :
    option (res (TableState V * Shared * Builder)) :=
  match bstate b with
  | Collecting =>
      match binput b with
      | batch :: rest =>
          Some (ts' ← collect_build eval hash_one heap_size batch_size table ts idx batch; Ok (ts', sh, mkBuilder Collecting rest))
      | [] => Some ('(ts', is_last) ← finish_build ts; Ok (ts', sh, mkBuilder (Finishing is_last) []))
      end
  | Finishing true => Some (ts' ← init_directory desired_size ts; Ok (ts', sh, mkBuilder DirectoryReady (binput b)))
  | DirectoryReady => Some (Ok (ts, publish_directory sh, mkBuilder InsertWait (binput b)))
  | Finishing false => Some ('(_, sh') ← check_insert sh idx; Ok (ts, sh', mkBuilder InsertWait (binput b)))
  | InsertWait =>
      if parked (pending_hash_inserters sh) idx then None
      else Some ('(ready, sh') ← check_insert sh idx;
                 Ok (ts, sh', mkBuilder (if ready : bool then Inserting (start_insert ts idx) else InsertWait) (binput b)))
  | Inserting ins =>
      Some ('(ts', ins') ← process_step batch_size ts ins;
            Ok (ts', sh, mkBuilder (match ins' with Some ins' => Inserting ins' | None => HashesInserted end) (binput b)))
  | HashesInserted => Some (sh' ← finish_insert sh; Ok (ts, sh', mkBuilder BuildDone (binput b)))
  | BuildDone => None
  end.

(** *** The probe side *)

(** Whether the table can be probed; otherwise the waker is stored. *)
Definition check_probe (sh : Shared) (idx : nat) : res (bool * Shared) :=
  if scan_ready sh then Ok (true, sh)
  else
    w ← store_waker (pending_probers sh) idx;
    Ok (false, mkShared (hash_inserts_ready sh) false (drain_ready sh) (remaining_hash_inserters sh) (remaining_probers sh)
                 (pending_hash_inserters sh) w (pending_drainers sh)).

(** Whether the table can be drained; otherwise the waker is stored. *)
Definition check_drain (sh : Shared) (idx : nat) : res (bool * Shared) :=
  if drain_ready sh && scan_ready sh then Ok (true, sh)
  else
    w ← store_waker (pending_drainers sh) idx;
    Ok (false, mkShared (hash_inserts_ready sh) (scan_ready sh) (drain_ready sh) (remaining_hash_inserters sh) (remaining_probers sh)
                 (pending_hash_inserters sh) (pending_probers sh) w).

(** [poll_finalize_execute] *)
Definition finalize_probe (table : JoinHashTable E) (idx : nat) (sh : Shared) : res (Shared * ProbeState) :=
  if needs_drain (join_type table) then
    count ← dec_by_one (remaining_probers sh);
    let sh' :=
      if bool_decide (count = Some 0) then
        mkShared (hash_inserts_ready sh) (scan_ready sh) true (remaining_hash_inserters sh) count
          (pending_hash_inserters sh) (pending_probers sh) (wake_all (pending_drainers sh))
      else
        mkShared (hash_inserts_ready sh) (scan_ready sh) (drain_ready sh) (remaining_hash_inserters sh) count
          (pending_hash_inserters sh) (pending_probers sh) (pending_drainers sh) in
    Ok (sh', Draining false (create_drain_state idx))
  else Ok (sh, ProbeDone).

(** [poll_execute] on a ready prober: the table with the new matches, the state,
    and the output. *)
Definition execute_probe (table : JoinHashTable E) (ts : TableState V) (needs_probe : bool) (st : ScanState V) (rhs : list Row) :
    res (TableState V * ScanState V * list Row) :=
  st ← (if needs_probe then probe eval hash_one batch_size table ts rhs else Ok st);
  '(mem, st, out) ← scan_next value_eq value_lt value_le batch_size table (row_blocks (merged ts)) rhs st;
  Ok (mkTableState (collections ts) (remaining ts) (mkRowBlocks mem (heap_blocks (merged ts))) (directory ts), st, out).

(** One atomic step of probe partition [idx]: [poll_execute] with the first batch
    of its input while it answers [HasMore], [poll_finalize_execute] when the
    input is exhausted. *)
Definition probe_step (op : PhysicalHashJoin) (table : JoinHashTable E) (idx : nat) (ts : TableState V) (sh : Shared) (p : Prober) :
    option (res (TableState V * Shared * Prober)) :=
  match pstate p with
  | Probing ready needs_probe st =>
      match pinput p with
      | [] => Some ('(sh', st') ← finalize_probe table idx sh; Ok (ts, sh', mkProber st' [] (emitted p)))
      | rhs :: rest =>
          if ready then
            Some ('(ts', st', out) ← execute_probe table ts needs_probe st rhs;
                  Ok (ts', sh, if length out =? 0 then mkProber (Probing true true st') rest (emitted p)
                               else mkProber (Probing true false st') (rhs :: rest) (emitted p ++ out)))
          else if parked (pending_probers sh) idx then None
          else Some ('(ready', sh') ← check_probe sh idx; Ok (ts, sh', mkProber (Probing ready' needs_probe st) (rhs :: rest) (emitted p)))
      end
  | Draining ready st =>
      if ready then
        Some ('(st', out) ← drain_next bool_value batch_size table ts (right_types op) st;
              Ok (ts, sh, if length out =? 0 then mkProber ProbeDone (pinput p) (emitted p)
                          else mkProber (Draining true st') (pinput p) (emitted p ++ out)))
      else if parked (pending_drainers sh) idx then None
      else Some ('(ready', sh') ← check_drain sh idx; Ok (ts, sh', mkProber (Draining ready' st) (pinput p) (emitted p)))
  | ProbeDone => None
  end.

(** ** Tasks and schedules *)

(** A task is a build or a probe partition. *)
Inductive Task : Type := BuildTask (idx : nat) | ProbeTask (idx : nat).

Definition system_step (op : PhysicalHashJoin) (table : JoinHashTable E) (t : Task) (s : System) : option (res System) :=
  match t with
  | BuildTask idx =>
      b ← builders s !! idx;
      r ← build_step table idx (table_state s) (shared s) b;
      Some ('(ts', sh', b') ← (r : res _); Ok (mkSystem ts' sh' (<[idx := b']> (builders s)) (probers s)))
  | ProbeTask idx =>
      p ← probers s !! idx;
      r ← probe_step op table idx (table_state s) (shared s) p;
      Some ('(ts', sh', p') ← (r : res _); Ok (mkSystem ts' sh' (builders s) (<[idx := p']> (probers s))))
  end.

Inductive step (op : PhysicalHashJoin) (table : JoinHashTable E) : System -> System -> Prop :=
| step_task t s s' : system_step op table t s = Some (Ok s') -> step op table s s'.

(** [create_operator_state], [create_partition_push_states] and
    [create_partition_execute_states], for the batches of every partition of the
    two sides. *)
Definition create (op : PhysicalHashJoin) (lefts rights : list (list (list Row))) : res (JoinHashTable E * System) :=
  table ← try_new (op_join_type op) (left_types op) (conditions op);
  inserters ← count_set None (length lefts);
  counted_probers ← count_set None (length lefts);
  hash_inserters ← init_for_partitions [] (length lefts);
  drainers ← init_for_partitions [] (length lefts);
  waiting_probers ← init_for_partitions [] (length rights);
  Ok (table, mkSystem (create_table_state (length lefts))
        (mkShared false false false inserters counted_probers hash_inserters waiting_probers drainers)
        (mkBuilder Collecting <$> lefts)
        ((fun bs => mkProber (Probing false true empty_scan_state) bs []) <$> rights)).

Definition finished (s : System) : Prop :=
  Forall (fun b => bstate b = BuildDone) (builders s) /\ Forall (fun p => pstate p = ProbeDone) (probers s).

(** ** The meaning of a join *)

(** A pair of rows satisfies all conditions. *)
Definition joins (op : PhysicalHashJoin) (l r : Row) : bool :=
  forallb (fun c => compare_nullable value_eq value_lt value_le (hc_op c) (eval (hc_left c) l) (eval (hc_right c) r)) (conditions op).

Definition inner_rows (op : PhysicalHashJoin) (ls rs : list Row) : list Row :=
  concat ((fun l => app l <$> filter (fun r => joins op l r) rs) <$> ls).

Definition has_match (op : PhysicalHashJoin) (rs : list Row) (l : Row) : bool := existsb (joins op l) rs.

(** The rows of the join, in some order; FULL and LEFT ANTI joins are not
    implemented. *)
Definition join_rows (op : PhysicalHashJoin) (ls rs : list Row) : option (list Row) :=
  match op_join_type op with
  | JoinType.Inner => Some (inner_rows op ls rs)
  | JoinType.Left =>
      Some (inner_rows op ls rs ++ ((fun l => l ++ replicate (right_types op) None) <$> filter (fun l => negb (has_match op rs l)) ls))
  | JoinType.Right =>
      Some (inner_rows op ls rs ++ (app (replicate (left_types op) None) <$> filter (fun r => negb (existsb (fun l => joins op l r) ls)) rs))
  | JoinType.LeftSemi => Some (filter (has_match op rs) ls)
  | JoinType.LeftMark _ => Some ((fun l => l ++ [Some (bool_value (has_match op rs l))]) <$> ls)
  | JoinType.Full | JoinType.LeftAnti => None
  end.

End Operator.

Arguments PhysicalHashJoin : clear implicits.
Arguments Builder : clear implicits.
Arguments ProbeState : clear implicits.
Arguments Prober : clear implicits.
Arguments System : clear implicits.
