(* ===== verification/JoinChains.v ===== *)
(** * Chains of rows in memory

    The theory of the join hash table of [JoinTable]: rows in blocks and their
    pointers, the chains that links form, what one atomic step of an inserting
    partition does to them, and what probing, scanning and draining compute from
    them. *)
From S2P Require Import Prelude PartitionSync RowBlocks Hash HashDirectory LogicalExpr JoinConditions JoinTable.

(** ** Pointers *)

Section Pointers.
Context {R : Type}.
Implicit Types (bl : list (list R)) (p : Ptr).

(** The pointers to the rows of every block. *)
Definition ptr_blocks bl : list (list Ptr) := imap (fun b block => pair b <$> seq 0 (length block)) bl.

Definition ptrs_of bl : list Ptr := concat (ptr_blocks bl).

Lemma ptr_blocks_lookup bl b : ptr_blocks bl !! b = (fun block => pair b <$> seq 0 (length block)) <$> bl !! b.
Proof. unfold ptr_blocks. apply list_lookup_imap. Qed.

Lemma elem_of_ptrs bl p : p ∈ ptrs_of bl <-> is_Some (row_at bl p).
Proof.
  unfold ptrs_of. rewrite list_elem_of_In, in_concat. unfold row_at. split.
  - intros (l & Hl & Hp). apply list_elem_of_In in Hl, Hp. apply list_elem_of_lookup in Hl as [b Hb]. rewrite ptr_blocks_lookup in Hb.
    destruct (bl !! b) as [block|] eqn:Hblock; [|done]. injection Hb as <-. apply list_elem_of_fmap in Hp as (r & -> & Hr%elem_of_seq).
    cbn. rewrite Hblock. cbn. apply lookup_lt_is_Some. lia.
  - destruct p as [b r]. cbn. destruct (bl !! b) as [block|] eqn:Hblock; [|by intros []]. cbn. intros Hr%lookup_lt_is_Some.
    exists (pair b <$> seq 0 (length block)). rewrite <- !list_elem_of_In. split.
    + apply list_elem_of_lookup. exists b. by rewrite ptr_blocks_lookup, Hblock.
    + apply list_elem_of_fmap. exists r. split; [done|]. apply elem_of_seq. lia.
Qed.

Lemma row_at_lt bl p r : row_at bl p = Some r -> p.1 < length bl.
Proof. unfold row_at. destruct (bl !! p.1) eqn:Hb; [|done]. intros _. by eapply lookup_lt_Some. Qed.

Lemma ptrs_of_nodup bl : NoDup (ptrs_of bl).
Proof.
  unfold ptrs_of, ptr_blocks. assert (forall k, NoDup (concat (imap (fun b block => pair (k + b) <$> seq 0 (length block)) bl))
    /\ forall p, p ∈ concat (imap (fun b block => pair (k + b) <$> seq 0 (length block)) bl) -> k <= p.1) as H; [|by destruct (H 0)].
  induction bl as [|block bl IH]; intros k; [split; [constructor|by intros p ?%list_elem_of_In]|]. cbn [imap concat].
  rewrite (imap_ext _ (fun b block => pair (S k + b) <$> seq 0 (length block)) bl) by (intros; cbn; f_equal; f_equal; lia).
  destruct (IH (S k)) as [Hnd Hge]. split.
  - apply NoDup_app. split_and!; [apply NoDup_fmap; [by intros ? ? [= ->]|apply NoDup_seq]| |done].
    intros p (r & -> & _)%list_elem_of_fmap Hp%Hge. cbn in Hp. lia.
  - intros p [(r & -> & _)%list_elem_of_fmap|Hp%Hge]%elem_of_app; cbn in *; lia.
Qed.

Lemma ptrs_of_rows bl : row_at bl <$> ptrs_of bl = Some <$> concat bl.
Proof.
  unfold ptrs_of. assert (forall k pre, k = length pre -> row_at (pre ++ bl) <$> concat (imap (fun b block => pair (k + b) <$> seq 0 (length block)) bl) = Some <$> concat bl) as H.
  2: { apply (H 0 [] eq_refl). }
  induction bl as [|block bl IH]; intros k pre Hk; [done|]. cbn [imap concat]. rewrite !fmap_app. f_equal.
  - rewrite <- list_fmap_compose. apply list_eq. intros i. rewrite !list_lookup_fmap. destruct (decide (i < length block)) as [Hi|Hi].
    + rewrite lookup_seq_lt by done. cbn. unfold row_at. cbn. rewrite Nat.add_0_r, lookup_app_r, Hk, Nat.sub_diag by lia. cbn.
      destruct (lookup_lt_is_Some_2 block i Hi) as [r Hr]. by rewrite Hr.
    + rewrite lookup_seq_ge by lia. cbn. by rewrite lookup_ge_None_2 by lia.
  - rewrite (imap_ext _ (fun b block => pair (S k + b) <$> seq 0 (length block)) bl) by (intros; cbn; f_equal; f_equal; lia).
    rewrite (cons_middle block pre bl), app_assoc. apply IH. rewrite length_app. simpl. lia.
Qed.

Lemma length_ptrs_of bl : length (ptrs_of bl) = length (concat bl).
Proof. rewrite <- (length_fmap (row_at bl) (ptrs_of bl)), ptrs_of_rows. apply length_fmap. Qed.

End Pointers.

Lemma ptr_blocks_fmap {A B} (f : A -> B) (bl : list (list A)) : ptr_blocks (fmap (M:=list) (fmap (M:=list) f) bl) = ptr_blocks bl.
Proof. unfold ptr_blocks. rewrite imap_fmap. apply imap_ext. intros b block _. cbn. by rewrite length_fmap. Qed.

Lemma ptrs_of_fmap {A B} (f : A -> B) (bl : list (list A)) : ptrs_of (fmap (M:=list) (fmap (M:=list) f) bl) = ptrs_of bl.
Proof. unfold ptrs_of. by rewrite ptr_blocks_fmap. Qed.

Lemma row_at_fmap {A B} (f : A -> B) (bl : list (list A)) p : row_at (fmap (M:=list) (fmap (M:=list) f) bl) p = f <$> row_at bl p.
Proof. unfold row_at. rewrite list_lookup_fmap. destruct (bl !! p.1); [|done]. cbn. by rewrite list_lookup_fmap. Qed.

(** ** Writes to rows *)

Section Memory.
Context {V : Type}.
Local Abbreviation Row := (list (option V)).
Local Abbreviation Memory := (list (list (BuildRow V))).
Implicit Types (mem : Memory) (p q : Ptr) (e : option Ptr) (ps : list Ptr).

(** What never changes: the encoded values of the rows in the blocks. *)
Definition values mem : list (list Row) := fmap (M:=list) (fmap (M:=list) encoded) mem.

Lemma row_at_alter f mem p q : row_at (alter_row f mem p) q = if decide (p = q) then f <$> row_at mem q else row_at mem q.
Proof.
  unfold row_at, alter_row. destruct p as [b r], q as [b' r']. cbn. destruct (decide (b = b')) as [<-|Hb].
  - rewrite list_lookup_alter_eq. destruct (mem !! b) as [block|]; cbn; [|by case_decide].
    destruct (decide (r = r')) as [<-|Hr]; [by rewrite list_lookup_alter_eq, decide_True|].
    rewrite list_lookup_alter_ne, decide_False by congruence. done.
  - rewrite list_lookup_alter_ne, decide_False by congruence. done.
Qed.

Lemma values_alter f mem p : (forall r, encoded (f r) = encoded r) -> values (alter_row f mem p) = values mem.
Proof.
  intros Hf. unfold values, alter_row. apply list_eq. intros b. rewrite !list_lookup_fmap. destruct (decide (p.1 = b)) as [<-|Hb].
  - rewrite list_lookup_alter_eq. destruct (mem !! p.1) as [block|]; [|done]. cbn. f_equal. apply list_eq. intros r. rewrite !list_lookup_fmap.
    destruct (decide (p.2 = r)) as [<-|Hr]; [|by rewrite list_lookup_alter_ne]. rewrite list_lookup_alter_eq.
    destruct (block !! p.2) as [r|]; [|done]. cbn. by rewrite (Hf r).
  - by rewrite list_lookup_alter_ne.
Qed.

Lemma row_at_values mem p : row_at (values mem) p = encoded <$> row_at mem p.
Proof. apply row_at_fmap. Qed.

Lemma row_at_of_values mem p vals : row_at (values mem) p = Some vals -> exists r, row_at mem p = Some r /\ encoded r = vals.
Proof. rewrite row_at_values. intros (r & Hr & ->)%fmap_Some. by exists r. Qed.

Definition set_next (next : option Ptr) (r : BuildRow V) : BuildRow V := mkBuildRow (encoded r) (NextEntry next) (matched r).
Definition set_matched (r : BuildRow V) : BuildRow V := mkBuildRow (encoded r) (link r) (Some true).

Lemma write_next_spec mem p r next : row_at mem p = Some r -> write_next_entry_ptr mem p next = Ok (alter_row (set_next next) mem p).
Proof. intros Hr. unfold write_next_entry_ptr, read_row. cbn. by rewrite Hr. Qed.

Lemma read_row_spec mem p r : row_at mem p = Some r -> read_row mem (Some p) = Ok r.
Proof. intros Hr. unfold read_row. cbn. by rewrite Hr. Qed.

(** Marking rows sets their match flags and changes nothing else. *)
Lemma write_rows_matched_spec mem ps :
  Forall (fun p => exists r b, row_at mem p = Some r /\ matched r = Some b) ps ->
  exists mem', write_rows_matched mem (Some <$> ps) = Ok mem' /\ values mem' = values mem
    /\ forall q, row_at mem' q = if decide (q ∈ ps) then set_matched <$> row_at mem q else row_at mem q.
Proof.
  revert mem. induction ps as [|p ps IH]; intros mem Hps; [by exists mem|]. apply Forall_cons in Hps as [(r & b & Hr & Hb) Hps].
  cbn [fmap list_fmap write_rows_matched]. rewrite (bind_ok _ _ _ (read_row_spec _ _ _ Hr)), Hb.
  destruct (IH (alter_row (fun r => mkBuildRow (encoded r) (link r) (Some true)) mem p)) as (mem' & -> & Hvals & Hmem').
  { eapply Forall_impl; [exact Hps|]. intros q (r' & b' & Hr' & Hb'). cbn. rewrite row_at_alter. destruct (decide (p = q)) as [->|]; [|by eauto].
    rewrite Hr'. eexists _, true. by split. }
  exists mem'. split; [done|]. split; [by rewrite Hvals, values_alter|]. intros q. rewrite Hmem', row_at_alter. destruct (decide (p = q)) as [->|Hpq].
  - destruct (decide (q ∈ q :: ps)) as [_|Hno]; [|by destruct Hno; left]. destruct (decide (q ∈ ps)); [|done]. by rewrite Hr.
  - destruct (decide (q ∈ ps)) as [Hq|Hq], (decide (q ∈ p :: ps)) as [Hq'|Hq']; [done|by destruct Hq'; right|by apply elem_of_cons in Hq' as [->|?]|done].
Qed.

(** ** Chains *)

Definition next_of mem p : option (option Ptr) :=
  r ← row_at mem p; match link r with NextEntry n => Some n | HashOf _ => None end.

(** The chain from an entry goes through these rows. *)
Fixpoint is_chain mem e ps : Prop :=
  match ps with
  | [] => e = None
  | p :: rest => e = Some p /\ exists n, next_of mem p = Some n /\ is_chain mem n rest
  end.

Lemma next_of_read mem p n : next_of mem p = Some n -> read_next_entry_ptr mem (Some p) = Ok n.
Proof.
  unfold next_of, read_next_entry_ptr. destruct (row_at mem p) as [r|] eqn:Hr; [|done]. cbn. intros Hl.
  rewrite (bind_ok _ _ _ (read_row_spec _ _ _ Hr)). destruct (link r); [done|]. by injection Hl as ->.
Qed.

Lemma next_of_set mem p n q r : row_at mem p = Some r -> next_of (alter_row (set_next n) mem p) q = if decide (p = q) then Some n else next_of mem q.
Proof. intros Hr. unfold next_of. rewrite row_at_alter. destruct (decide (p = q)) as [<-|]; [by rewrite Hr|done]. Qed.

(** Chains only depend on the links of their rows. *)
Lemma is_chain_frame mem mem' e ps : (forall p, p ∈ ps -> next_of mem' p = next_of mem p) -> is_chain mem e ps -> is_chain mem' e ps.
Proof.
  revert e. induction ps as [|p ps IH]; intros e Hsame; [done|]. intros (-> & n & Hn & Hps). split; [done|]. exists n.
  split; [rewrite Hsame; [done|left]|]. apply IH; [|done]. intros q Hq. apply Hsame. by right.
Qed.

Lemma is_chain_head mem e ps : is_chain mem e ps -> e = head ps.
Proof. destruct ps; [done|]. by intros [-> _]. Qed.

Lemma is_chain_tail mem p ps : is_chain mem (Some p) ps -> exists rest n, ps = p :: rest /\ next_of mem p = Some n /\ is_chain mem n rest.
Proof. destruct ps as [|q rest]; [done|]. intros ([= <-] & n & Hn & Hrest). by exists rest, n. Qed.

End Memory.

(** ** Scans only depend on the sizes of blocks *)

Lemma scan_loop_shape {R1 R2} (bl1 : list (list R1)) (bl2 : list (list R2)) fuel s cap o1 o2 :
  fmap (M:=list) length bl1 = fmap (M:=list) length bl2 ->
  match scan_loop bl1 fuel s cap o1, scan_loop bl2 fuel s cap o2 with
  | Ok (s1, _), Ok (s2, _) => s1 = s2
  | Panic _, Panic _ => True
  | _, _ => False
  end.
Proof.
  intros Hlen. revert s cap o1 o2. induction fuel as [|fuel IH]; intros s cap o1 o2; [done|]. cbn [scan_loop].
  destruct (cap =? 0); [done|]. destruct (next_block s) as [[c|] s1]; [|done]. unfold index.
  assert (length <$> bl1 !! c = length <$> bl2 !! c) as Hc by by rewrite <- !list_lookup_fmap, Hlen.
  destruct (bl1 !! c) as [b1|], (bl2 !! c) as [b2|]; try done. injection Hc as Hc. unfold mbind, res_bind. rewrite Hc.
  destruct (length b2 <=? row_idx s1); apply IH.
Qed.

Lemma scan_subset_shape {R1 R2} (bl1 : list (list R1)) (bl2 : list (list R2)) s count s1 rows1 s2 rows2 :
  fmap (M:=list) length bl1 = fmap (M:=list) length bl2 -> scan_subset bl1 s count = Ok (s1, rows1) -> scan_subset bl2 s count = Ok (s2, rows2) -> s1 = s2.
Proof.
  unfold scan_subset. intros Hlen H1 H2. pose proof (scan_loop_shape bl1 bl2 (S (S (2 * length (blocks_to_scan s) + count)))
    (mkScanState (blocks_to_scan s) (current_block s) (row_idx s) []) count [] [] Hlen) as H. by rewrite H1, H2 in H.
Qed.

Lemma ptr_blocks_shape {R} (bl : list (list R)) : fmap (M:=list) length (ptr_blocks bl) = fmap (M:=list) length bl.
Proof.
  apply list_eq. intros b. rewrite !list_lookup_fmap, ptr_blocks_lookup. destruct (bl !! b); [|done]. cbn. by rewrite length_fmap, length_seq.
Qed.

Lemma scan_wf_shape {R1 R2} (bl1 : list (list R1)) (bl2 : list (list R2)) s : length bl1 = length bl2 -> scan_wf bl1 s -> scan_wf bl2 s.
Proof. intros Hlen [Hq Hc]. split; by rewrite <- Hlen. Qed.

Lemma points_to_ptr {R} (bl : list (list R)) p q : points_to (ptr_blocks bl) p q -> q = p.
Proof.
  intros (block & Hb & Hr). rewrite ptr_blocks_lookup in Hb. destruct (bl !! p.1); [|done]. injection Hb as <-.
  rewrite list_lookup_fmap in Hr. apply fmap_Some in Hr as (k & [-> _]%lookup_seq & ->). by destruct p.
Qed.

(** A scan of the rows reads the rows of the next pointers. *)
Lemma scan_pointers_spec {R} (bl : list (list R)) s count :
  scan_wf bl s -> exists s' rows, scan_subset bl s count = Ok (s', rows) /\ scan_wf bl s'
    /\ row_pointers s' = take count (scan_left (ptr_blocks bl) s)
    /\ scan_left (ptr_blocks bl) s' = drop count (scan_left (ptr_blocks bl) s)
    /\ Forall2 (fun p r => row_at bl p = Some r) (row_pointers s') rows.
Proof.
  intros Hwf. destruct (scan_subset_spec bl s count Hwf) as (s' & Hrun & _ & Hwf' & Hpts).
  assert (length bl = length (ptr_blocks bl)) as Hlen by (unfold ptr_blocks; by rewrite length_imap).
  destruct (scan_subset_spec (ptr_blocks bl) s count) as (s2 & Hrun2 & Hleft2 & _ & Hpts2); [by eapply scan_wf_shape|].
  assert (s2 = s') as -> by (eapply scan_subset_shape; [|exact Hrun2|exact Hrun]; apply ptr_blocks_shape).
  exists s', (take count (scan_left bl s)). split_and!; try done.
  - generalize Hpts2. generalize (take count (scan_left (ptr_blocks bl) s)) (row_pointers s'). induction 1 as [|p q ps qs Hpq _ IH]; [done|].
    apply points_to_ptr in Hpq as ->. f_equal. by apply IH.
  - eapply Forall2_impl; [exact Hpts|]. intros p r (block & Hb & Hr). unfold row_at. by rewrite Hb.
Qed.

(** ** Inserting rows *)

Section Insert.
Context {V : Type}.
Local Abbreviation Row := (list (option V)).
Local Abbreviation Memory := (list (list (BuildRow V))).
(** The values of the rows in the blocks, the hash of a row, and the size of the
    directory. *)
Variable B : list (list Row).
Variable hash_of : Row -> Z.
Variable batch_size : nat.
Hypothesis batch_pos : 0 < batch_size.
Implicit Types (mem : Memory) (dir : list (option Ptr)) (chains : list (list Ptr)) (ins : Inserter) (p q : Ptr).

Definition phash p : Z := from_option hash_of 0%Z (row_at B p).

Definition bucket (cap : nat) p : nat := compute_offset_from_hash (phash p) cap.

(** Every entry of the directory starts a chain of rows of its bucket. *)
Record chained mem dir chains : Prop := {
  ch_values : values mem = B;
  ch_size : pow2 (length dir);
  ch_length : length chains = length dir;
  ch_chain : forall j e c, dir !! j = Some e -> chains !! j = Some c -> is_chain mem e c;
  ch_bucket : forall j c p, chains !! j = Some c -> p ∈ c -> bucket (length dir) p = j;
}.

(** The rows a partition has still to insert. *)
Definition to_scan ins : list Ptr := scan_left (ptr_blocks B) (scan ins).
Definition pending ins : list Ptr := (todo ins).*2 ++ to_scan ins.

Record inserter_ok mem ins : Prop := {
  in_scan : scan_wf B (scan ins);
  in_todo : Forall (fun hp => hp.1 = phash hp.2 /\ is_Some (row_at B hp.2)) (todo ins);
  in_pc : match todo ins, pc ins with
          | hp :: _, SwapEmpty => next_of mem hp.2 = Some None
          | hp :: _, SwapOccupied curr_ent => next_of mem hp.2 = Some curr_ent
          | _, _ => True
          end;
  in_hash : Forall (fun p => link <$> row_at mem p = Some (HashOf (phash p))) (to_scan ins);
}.

(** What is left of the insertion of the first row, where no other partition
    gets in between. *)
Definition rank dir ins : nat :=
  match todo ins with
  | [] => 5
  | (hash, _) :: _ =>
      match pc ins with
      | LoadEntry => 4
      | SwapEmpty => 3
      | LoadOccupied => 2
      | SwapOccupied curr_ent => if bool_decide (dir !! compute_offset_from_hash hash (length dir) = Some curr_ent) then 0 else 1
      end
  end.

Lemma rank_other dir dir' ins : rank dir' ins <= S (rank dir ins).
Proof. unfold rank. destruct (todo ins) as [|[h p] rest]; [lia|]. destruct (pc ins); try lia. repeat case_bool_decide; lia. Qed.

Lemma rank_le dir ins : rank dir ins <= 5.
Proof. unfold rank. destruct (todo ins) as [|[h p] rest]; [lia|]. destruct (pc ins); try lia. case_bool_decide; lia. Qed.

(** Writing the link of a row that is in no chain keeps the chains. *)
Lemma chained_write mem dir chains p next r :
  chained mem dir chains -> row_at mem p = Some r -> p ∉ concat chains -> chained (alter_row (set_next next) mem p) dir chains.
Proof.
  intros [Hv Hs Hl Hc Hb] Hr Hp. split; try done; [by rewrite values_alter|]. intros j e c He Hj. eapply is_chain_frame; [|by eapply Hc].
  intros q Hq. rewrite (next_of_set _ _ _ _ _ Hr), decide_False; [done|]. intros ->. apply Hp, list_elem_of_In, in_concat.
  exists c. split; apply list_elem_of_In; [|done]. by eapply list_elem_of_lookup_2.
Qed.

(** A row whose link is the current entry becomes the head of its chain. *)
Lemma chained_insert mem dir chains p curr c :
  chained mem dir chains -> dir !! bucket (length dir) p = Some curr -> chains !! bucket (length dir) p = Some c -> next_of mem p = Some curr ->
  chained mem (<[bucket (length dir) p := Some p]> dir) (<[bucket (length dir) p := p :: c]> chains)
  /\ concat (<[bucket (length dir) p := p :: c]> chains) ≡ₚ p :: concat chains.
Proof.
  intros [Hv Hs Hl Hc Hb] Hd Hch Hn. set (j := bucket (length dir) p) in *. split.
  - split; try done; rewrite ?length_insert; try done.
    + intros i e c' He Hi. destruct (decide (j = i)) as [<-|Hne].
      * rewrite list_lookup_insert_eq in He by (eapply lookup_lt_Some; eassumption). rewrite list_lookup_insert_eq in Hi by (eapply lookup_lt_Some; eassumption). simplify_eq. split; [done|]. exists curr. split; [done|]. by eapply Hc.
      * rewrite list_lookup_insert_ne in He by done. rewrite list_lookup_insert_ne in Hi by done. by eapply Hc.
    + intros i c' q Hi Hq. destruct (decide (j = i)) as [<-|Hne].
      * rewrite list_lookup_insert_eq in Hi by (eapply lookup_lt_Some; eassumption). simplify_eq. apply elem_of_cons in Hq as [->|Hq]; [done|]. by eapply Hb.
      * rewrite list_lookup_insert_ne in Hi by done. by eapply Hb.
  - destruct (concat_insert chains j c (p :: c) Hch) as (rest & H1 & H2). rewrite H2, H1. done.
Qed.

(** Rows other than [p] and the match flags are as before. *)
Definition only_link mem mem' p : Prop :=
  (forall q, q <> p -> row_at mem' q = row_at mem q) /\ forall q, matched <$> row_at mem' q = matched <$> row_at mem q.

Lemma only_link_refl mem p : only_link mem mem p.
Proof. by split. Qed.

Lemma only_link_set mem p next : only_link mem (alter_row (set_next next) mem p) p.
Proof.
  split; intros q; rewrite row_at_alter; destruct (decide (p = q)) as [->|]; try done. by destruct (row_at mem q).
Qed.

Lemma inserter_frame mem mem' ins p : only_link mem mem' p -> p ∉ pending ins -> inserter_ok mem ins -> inserter_ok mem' ins.
Proof.
  intros [Hsame _] Hp [Hs Ht Hpc Hh]. unfold pending in Hp. apply not_elem_of_app in Hp as [Hp1 Hp2]. split; try done.
  - destruct (todo ins) as [|[h q] rest]; [done|]. cbn in *. assert (q <> p) as Hqp by (intros ->; apply Hp1; left).
    assert (next_of mem' q = next_of mem q) as Hn by (unfold next_of; by rewrite Hsame). rewrite Hn. done.
  - apply Forall_forall. intros q Hq. rewrite Hsame by (intros ->; done). by eapply Forall_forall in Hh.
Qed.

(** The outcome of a step on the first row [p]: either nothing is inserted and the
    row is closer to its insertion, or the row becomes the head of its chain. *)
Definition step_outcome mem dir chains ins p (r : res (Memory * list (option Ptr) * Inserter)) : Prop :=
  exists mem' dir' chains' ins', r = Ok (mem', dir', ins')
    /\ chained mem' dir' chains' /\ inserter_ok mem' ins' /\ only_link mem mem' p /\ length dir' = length dir
    /\ concat chains' ++ pending ins' ≡ₚ concat chains ++ pending ins
    /\ ((dir' = dir /\ pending ins' = pending ins /\ rank dir' ins' < rank dir ins) \/ pending ins = p :: pending ins').

Section Head.
Context mem dir chains ins p rest (r : BuildRow V) (curr : option Ptr) (Hch : chained mem dir chains) (Hins : inserter_ok mem ins) (Htodo : todo ins = (phash p, p) :: rest).
Context (Hp : p ∉ concat chains) (Hps : p ∉ to_scan ins) (Hr : row_at mem p = Some r) (Hcurr : dir !! bucket (length dir) p = Some curr).

Lemma outcome_inserted : next_of mem p = Some curr ->
  step_outcome mem dir chains ins p (Ok (mem, <[bucket (length dir) p := Some p]> dir, mkInserter (scan ins) rest LoadEntry)).
Proof.
  intros Hn. destruct (lookup_lt_is_Some_2 chains (bucket (length dir) p)) as [c Hc]; [by rewrite (ch_length _ _ _ Hch); eapply lookup_lt_Some|].
  destruct (chained_insert mem dir chains p curr c Hch Hcurr Hc Hn) as [Hch' Hperm]. destruct Hins as [Hs Ht _ Hh].
  rewrite Htodo in Ht. apply Forall_cons in Ht as [_ Ht].
  eexists _, _, _, _. split_and!; [done|exact Hch'|split; [done|done|by destruct rest|done]|apply only_link_refl|by rewrite length_insert| |right; unfold pending, to_scan; by rewrite Htodo].
  rewrite Hperm. unfold pending, to_scan. rewrite Htodo. cbn. solve_Permutation.
Qed.

Lemma outcome_written next pc' :
  match pc' with SwapEmpty => next = None | SwapOccupied cur => next = cur | _ => True end ->
  rank dir (mkInserter (scan ins) (todo ins) pc') < rank dir ins ->
  step_outcome mem dir chains ins p (mem' ← write_next_entry_ptr mem p next; Ok (mem', dir, mkInserter (scan ins) (todo ins) pc')).
Proof.
  intros Hnext Hrank. rewrite (bind_ok _ _ _ (write_next_spec _ _ _ _ Hr)). eexists _, dir, chains, _.
  split_and!; [done|by eapply chained_write| |apply only_link_set|done|done|by left]. destruct Hins as [Hs Ht _ Hh]. split; cbn [scan todo pc]; try done.
  - rewrite Htodo. cbn. rewrite (next_of_set _ _ _ _ _ Hr), decide_True by done. by destruct pc'; subst.
  - apply Forall_forall. intros q Hq. rewrite row_at_alter, decide_False by (intros ->; done). by eapply Forall_forall in Hh.
Qed.

Lemma outcome_loaded pc' :
  match pc' with SwapEmpty | SwapOccupied _ => False | _ => True end -> rank dir (mkInserter (scan ins) (todo ins) pc') < rank dir ins ->
  step_outcome mem dir chains ins p (Ok (mem, dir, mkInserter (scan ins) (todo ins) pc')).
Proof.
  intros Hpc' Hrank. eexists mem, dir, chains, _. split_and!; [done|done| |apply only_link_refl|done|done|by left].
  destruct Hins as [Hs Ht _ Hh]. split; cbn [scan todo pc]; [done|done|rewrite Htodo; by destruct pc'|done].
Qed.

End Head.

Lemma insert_step_spec mem dir chains ins hash p rest :
  chained mem dir chains -> inserter_ok mem ins -> todo ins = (hash, p) :: rest -> p ∉ concat chains -> NoDup (pending ins) ->
  step_outcome mem dir chains ins p (insert_step mem dir ins hash p rest).
Proof.
  intros Hch Hins Htodo Hp Hnd. pose proof (in_todo _ _ Hins) as Ht. pose proof (in_pc _ _ Hins) as Hpc.
  rewrite Htodo in Ht, Hpc. apply Forall_cons in Ht as [[Hhash [vals Hvals]] _]. cbn in Hhash, Hvals, Hpc. subst hash.
  destruct (row_at_of_values mem p vals) as (r & Hr & _); [by rewrite (ch_values _ _ _ Hch)|].
  assert (bucket (length dir) p < length dir) as Hlt by apply offset_from_hash_lt, Hch.
  destruct (lookup_lt_is_Some_2 dir _ Hlt) as [curr Hcurr].
  assert (p ∉ to_scan ins) as Hps.
  { unfold pending in Hnd. rewrite Htodo in Hnd. apply NoDup_app in Hnd as (_ & Hno & _). apply Hno. left. }
  pose proof (outcome_inserted mem dir chains ins p rest curr Hch Hins Htodo Hcurr) as Hinserted.
  pose proof (outcome_written mem dir chains ins p rest r curr Hch Hins Htodo Hp Hps Hr Hcurr) as Hwritten.
  pose proof (outcome_loaded mem dir chains ins p rest Hch Hins Htodo) as Hloaded.
  unfold insert_step. fold (bucket (length dir) p). rewrite (bind_ok _ _ _ (proj2 (index_Ok _ _ _) Hcurr)).
  unfold rank in Hwritten, Hloaded. cbn [todo pc] in Hwritten, Hloaded. rewrite Htodo in Hwritten, Hloaded. rewrite Htodo.
  fold (bucket (length dir) p) in Hwritten. destruct (pc ins) as [| | |cur] eqn:Epc.
  - destruct curr as [e|]; [by apply Hloaded; [|lia]|by apply Hwritten; [|lia]].
  - destruct curr as [e|]; [by apply Hloaded; [|lia]|by apply Hinserted].
  - apply Hwritten; [done|]. rewrite bool_decide_eq_true_2 by done. lia.
  - destruct (decide (curr = cur)) as [<-|Hne]; [rewrite bool_decide_eq_true_2 by done; by apply Hinserted|].
    rewrite bool_decide_eq_false_2 by done. apply Hwritten; [done|].
    rewrite (bool_decide_eq_true_2 (dir !! _ = Some curr)), (bool_decide_eq_false_2 (dir !! _ = Some cur)) by congruence. lia.
Qed.

Lemma collect_hashes mem ps rows :
  Forall2 (fun p r => row_at mem p = Some r) ps rows -> Forall (fun p => link <$> row_at mem p = Some (HashOf (phash p))) ps ->
  collect read_hash rows = Ok (phash <$> ps).
Proof.
  induction 1 as [|p r ps rows Hr _ IH]; intros Hl; [done|]. apply Forall_cons in Hl as [Hp Hl]. rewrite Hr in Hp. injection Hp as Hp.
  assert (read_hash r = Ok (phash p)) as Hrh by (unfold read_hash; by rewrite Hp). cbn [collect fmap list_fmap].
  by rewrite (bind_ok _ _ _ Hrh), (bind_ok _ _ _ (IH Hl)).
Qed.

(** The end of a batch of hashes: the next hashes are read from rows that were
    not inserted yet, or all are inserted. *)
Lemma process_scan_spec (ts : TableState V) dir chains ins :
  directory ts = Some dir -> chained (row_blocks (merged ts)) dir chains -> inserter_ok (row_blocks (merged ts)) ins -> todo ins = [] ->
  (process_step batch_size ts ins = Ok (ts, None) /\ pending ins = [])
  \/ exists ins', process_step batch_size ts ins = Ok (ts, Some ins') /\ inserter_ok (row_blocks (merged ts)) ins'
       /\ pending ins' = pending ins /\ rank dir ins' < rank dir ins.
Proof.
  intros Hdir Hch [Hs _ _ Hh] Htodo. set (mem := row_blocks (merged ts)) in *.
  assert (length mem = length B) as Hlen by (rewrite <- (ch_values _ _ _ Hch); unfold values; by rewrite length_fmap).
  assert (ptr_blocks mem = ptr_blocks B) as Hptrs by (rewrite <- (ch_values _ _ _ Hch); unfold values; by rewrite ptr_blocks_fmap).
  destruct (scan_pointers_spec mem (scan ins) batch_size) as (s' & rows & Hrun & Hs' & Hps & Hleft & Hrows); [by eapply scan_wf_shape|].
  assert (process_step batch_size ts ins = if length rows =? 0 then Ok (ts, None)
    else hashes ← collect read_hash rows; Ok (ts, Some (mkInserter s' (zip hashes (row_pointers s')) LoadEntry))) as ->.
  { unfold process_step. rewrite Hdir, Htodo. by rewrite (bind_ok _ _ _ Hrun). }
  rewrite Hptrs in Hps, Hleft. fold (to_scan ins) in Hps, Hleft.
  pose proof (Forall2_length _ _ _ Hrows) as Hl. destruct (Nat.eqb_spec (length rows) 0) as [Hz|Hz].
  - left. split; [done|]. unfold pending. rewrite Htodo. cbn. rewrite Hps, length_take in Hl. destruct (to_scan ins); [done|simpl in Hl; lia].
  - right. assert (collect read_hash rows = Ok (phash <$> row_pointers s')) as ->.
    { eapply collect_hashes; [exact Hrows|]. rewrite Hps. by apply Forall_take. }
    unfold mbind, res_bind. eexists. split; [done|].
    assert (zip (phash <$> row_pointers s') (row_pointers s') = (fun p => (phash p, p)) <$> row_pointers s') as ->.
    { rewrite zip_with_fmap_l. apply zip_with_diag. }
    assert (pending (mkInserter s' ((fun p => (phash p, p)) <$> row_pointers s') LoadEntry) = pending ins) as Hpend.
    { unfold pending, to_scan. cbn [todo scan]. rewrite Htodo, Hleft, <- list_fmap_compose. cbn. rewrite list_fmap_id, Hps. apply take_drop. }
    split_and!; [|done|].
    + split; cbn [scan todo pc]; [eapply scan_wf_shape; [|exact Hs']; done| |by destruct (row_pointers s')|unfold to_scan; cbn [scan]; rewrite Hleft; by apply Forall_drop].
      apply Forall_fmap. cbn. rewrite Forall_forall. intros p Hp. split; [done|].
      apply list_elem_of_lookup in Hp as [i Hi]. destruct (Forall2_lookup_l _ _ _ _ _ Hrows Hi) as (r & _ & Hr).
      exists (encoded r). rewrite <- (ch_values _ _ _ Hch). rewrite row_at_values. cbn. by rewrite Hr.
    + unfold rank. cbn [todo pc]. rewrite Htodo. destruct (row_pointers s') as [|p ps]; [simpl in Hl; lia|]. cbn. lia.
Qed.

End Insert.

(** ** Matching the rows of a batch *)

Lemma concat_app_perm {A X} (f g : X -> list A) (l : list X) : concat ((fun x => f x ++ g x) <$> l) ≡ₚ concat (f <$> l) ++ concat (g <$> l).
Proof. induction l as [|x l IH]; [done|]. cbn [fmap list_fmap concat]. rewrite IH. solve_Permutation. Qed.

Lemma concat_filter {A X} (P : X -> Prop) `{forall x, Decision (P x)} (f : X -> A) (l : list X) :
  concat ((fun x => if decide (P x) then [f x] else []) <$> l) = f <$> filter P l.
Proof. induction l as [|x l IH]; [done|]. cbn [fmap list_fmap concat]. rewrite IH, filter_cons. by destruct (decide (P x)). Qed.

Section Batch.
Context {V E : Type}.
Local Abbreviation Row := (list (option V)).
Local Abbreviation Memory := (list (list (BuildRow V))).
Variables value_eq value_lt value_le : V -> V -> bool.
Variable batch_size : nat.
Variable table : JoinHashTable E.
(** The values of the rows in memory, the batch of the probe side and its keys. *)
Variable B : list (list Row).
Variables rhs keys : list Row.
Implicit Types (mem : Memory) (st : ScanState V) (rems : list (list Ptr)) (sel : list nat) (p q : Ptr).

Local Abbreviation n := (length rhs).
Local Abbreviation compare := (compare_nullable value_eq value_lt value_le).

Fixpoint keys_match (columns : list nat) (ops : list ComparisonOperator.t) (k : nat) (vals key : Row) : bool :=
  match columns, ops with
  | c :: columns', op :: ops' => compare op (vals !!! c) (key !!! k) && keys_match columns' ops' (S k) vals key
  | _, _ => true
  end.

(** Every row in memory has its key columns, every row of the batch its keys. *)
Record batch_ok : Prop := {
  bk_columns : forall p vals, row_at B p = Some vals -> Forall (fun c => c < length vals) (encoded_key_columns table);
  bk_ops : length (row_matcher table) = length (encoded_key_columns table);
  bk_keys : Forall (fun key => length key = length (row_matcher table)) keys;
  bk_rhs : length keys = n;
}.
Hypothesis Hok : batch_ok.

(** Row [i] of the batch matches the row at [p]. *)
Definition row_match (i : nat) p : bool :=
  match row_at B p with
  | Some vals => keys_match (encoded_key_columns table) (row_matcher table) 0 vals (keys !!! i)
  | None => false
  end.

(** The values of the row that row [i] of the batch is compared with. *)
Definition current_values (ptrs : list (option Ptr)) (i : nat) : option Row := match ptrs !! i with Some (Some p) => row_at B p | _ => None end.

Lemma compute_key_matches mem ptrs op c k sel :
  values mem = B ->
  (forall i, i ∈ sel -> exists p vals, ptrs !! i = Some (Some p) /\ row_at B p = Some vals /\ c < length vals /\ i < length keys) ->
  Forall (fun key => k < length key) keys ->
  compute_matches value_eq value_lt value_le mem op ptrs c keys k sel
  = Ok (filter (fun i => compare op (from_option (fun vals : Row => vals !!! c) None (current_values ptrs i)) ((keys !!! i) !!! k)) sel).
Proof.
  intros Hmem Hsel Hk. induction sel as [|i sel IH]; [done|].
  destruct (Hsel i (list_elem_of_here _ _)) as (p & vals & Hp & Hvals & Hc & Hi). cbn [compute_matches]. rewrite (bind_ok _ _ _ (proj2 (index_Ok _ _ _) Hp)).
  destruct (row_at_of_values mem p vals) as (r & Hr & <-); [by rewrite Hmem|]. rewrite (bind_ok _ _ _ (read_row_spec _ _ _ Hr)).
  destruct (lookup_lt_is_Some_2 _ _ Hc) as [l Hl]. rewrite (bind_ok _ _ _ (proj2 (index_Ok _ _ _) Hl)).
  destruct (lookup_lt_is_Some_2 keys i Hi) as [key Hkey]. rewrite (bind_ok _ _ _ (proj2 (index_Ok _ _ _) Hkey)).
  pose proof (Forall_lookup_1 _ _ _ _ Hk Hkey) as Hklt. destruct (lookup_lt_is_Some_2 key k Hklt) as [v Hv].
  rewrite (bind_ok _ _ _ (proj2 (index_Ok _ _ _) Hv)), IH by (intros j Hj; apply Hsel; by right). unfold mbind at 1, res_bind at 1.
  assert (current_values ptrs i = Some (encoded r)) as Hcv by (unfold current_values; by rewrite Hp).
  rewrite filter_cons, Hcv. cbn [from_option]. rewrite (list_lookup_total_correct _ _ _ Hl), (list_lookup_total_correct _ _ _ Hkey), (list_lookup_total_correct _ _ _ Hv).
  by destruct (compare op l v).
Qed.

Lemma find_key_matches mem ptrs columns ops k sel :
  values mem = B -> length ops = length columns ->
  (forall i, i ∈ sel -> exists p vals, ptrs !! i = Some (Some p) /\ row_at B p = Some vals /\ Forall (fun c => c < length vals) columns /\ i < length keys) ->
  Forall (fun key => k + length ops <= length key) keys ->
  find_matches value_eq value_lt value_le mem ptrs keys columns ops k sel
  = Ok (filter (fun i => from_option (fun vals => keys_match columns ops k vals (keys !!! i)) false (current_values ptrs i)) sel).
Proof.
  intros Hmem. revert ops k sel. induction columns as [|c columns IH]; intros [|op ops] k sel Hlen Hsel Hk; try done.
  { cbn. f_equal. symmetry. apply filter_all, Forall_forall. intros i Hi. destruct (Hsel i Hi) as (p & vals & Hp & Hv & _). unfold current_values. by rewrite Hp, Hv. }
  cbn [find_matches]. rewrite compute_key_matches; [|done| |].
  2: { intros i Hi. destruct (Hsel i Hi) as (p & vals & Hp & Hv & [Hc _]%Forall_cons & Hlt). by exists p, vals. }
  2: { eapply Forall_impl; [exact Hk|]. simpl. intros. lia. }
  unfold mbind at 1, res_bind at 1. rewrite IH; [|by injection Hlen| |].
  - f_equal. rewrite list_filter_filter. apply filter_ext_elem. intros i Hi. destruct (Hsel i Hi) as (p & vals & Hp & Hv & _).
    unfold current_values. rewrite Hp, Hv. cbn. rewrite andb_True. tauto.
  - intros i [_ Hi]%list_elem_of_filter. destruct (Hsel i Hi) as (p & vals & Hp & Hv & [_ Hc]%Forall_cons & Hlt). by exists p, vals.
  - eapply Forall_impl; [exact Hk|]. simpl. intros. lia.
Qed.

(** Following the chains of distinct rows of the batch. *)
Lemma follow_next_spec mem ptrs sel (nxt : nat -> option Ptr) :
  NoDup sel -> (forall i, i ∈ sel -> exists p, ptrs !! i = Some (Some p) /\ next_of mem p = Some (nxt i)) ->
  exists ptrs', follow_next_in_chain mem ptrs sel = Ok (ptrs', filter (fun i => nxt i <> None) sel)
    /\ length ptrs' = length ptrs /\ forall j, ptrs' !! j = if decide (j ∈ sel) then Some (nxt j) else ptrs !! j.
Proof.
  revert ptrs. induction sel as [|i sel IH]; intros ptrs Hnd Hsel; [by exists ptrs|]. apply NoDup_cons in Hnd as [Hi Hnd].
  destruct (Hsel i (list_elem_of_here _ _)) as (p & Hp & Hn). cbn [follow_next_in_chain].
  rewrite (bind_ok _ _ _ (proj2 (index_Ok _ _ _) Hp)), (bind_ok _ _ _ (next_of_read _ _ _ Hn)).
  destruct (IH (<[i := nxt i]> ptrs) Hnd) as (ptrs' & -> & Hlen & Hptrs).
  { intros j Hj. destruct (Hsel j (list_elem_of_further _ _ _ Hj)) as (q & Hq & Hnq). exists q. split; [|done]. rewrite list_lookup_insert_ne; [done|]. by intros ->. }
  unfold mbind at 1, res_bind at 1. exists ptrs'. split; [|split; [by rewrite Hlen, length_insert|]].
  - rewrite filter_cons. destruct (nxt i); [by rewrite decide_True|by rewrite decide_False by auto].
  - intros j. rewrite Hptrs. destruct (decide (j ∈ sel)) as [Hj|Hj], (decide (j ∈ i :: sel)) as [Hj'|Hj'].
    + done.
    + by destruct Hj'; right.
    + apply elem_of_cons in Hj' as [->|?]; [|done]. apply list_lookup_insert_eq. by eapply lookup_lt_Some.
    + apply list_lookup_insert_ne. intros ->. apply Hj'. left.
Qed.

Lemma mark_right_spec matches sel :
  Forall (fun i => i < length matches) sel ->
  exists matches', mark_right matches sel = Ok matches' /\ length matches' = length matches
    /\ forall j, matches' !! j = Some true <-> matches !! j = Some true \/ j ∈ sel.
Proof.
  revert matches. induction sel as [|i sel IH]; intros matches Hsel; [exists matches; split_and!; [done|done|]; intros j; split; [by left|by intros [?|?%elem_of_nil]]|].
  apply Forall_cons in Hsel as [Hi Hsel]. cbn [mark_right]. destruct (lookup_lt_is_Some_2 matches i Hi) as [b Hb].
  rewrite (bind_ok _ _ _ (proj2 (index_Ok _ _ _) Hb)). destruct (IH (<[i := true]> matches)) as (m' & -> & Hlen & Hm'); [by rewrite length_insert|].
  exists m'. rewrite length_insert in Hlen. split_and!; [done|done|]. intros j. rewrite Hm', elem_of_cons. destruct (decide (i = j)) as [->|Hne].
  - rewrite list_lookup_insert_eq by done. naive_solver.
  - rewrite list_lookup_insert_ne by done. naive_solver.
Qed.

(** *** The state of a scan *)

(** Every row of the batch has its remaining chain, and is selected while that
    chain is not empty. *)
Record scan_ok mem st rems : Prop := {
  so_values : values mem = B;
  so_length : length rems = n;
  so_pointers : length (scan_pointers st) = n;
  so_keys : join_keys st = keys;
  so_chain : forall i e c, scan_pointers st !! i = Some e -> rems !! i = Some c -> is_chain mem e c;
  so_valid : Forall (Forall (fun p => is_Some (row_at B p))) rems;
  so_selection : selection st = filter (fun i => rems !!! i <> []) (seq 0 n);
}.

(** The matches a scan has still to find, and those at the heads of the chains. *)
Definition hits rems : list (Ptr * nat) :=
  concat ((fun i => fmap (M:=list) (fun p => (p, i)) (filter (fun p => row_match i p) (rems !!! i))) <$> seq 0 n).

Definition head_match rems (i : nat) : bool := match rems !!! i with p :: _ => row_match i p | [] => false end.

Definition level_rows rems : list nat := filter (fun i => head_match rems i) (seq 0 n).

Definition level rems : list (Ptr * nat) := (fun i => (default (0, 0) (head (rems !!! i)), i)) <$> level_rows rems.

Lemma tails_lookup rems i : fmap (M:=list) tail rems !!! i = tail (rems !!! i).
Proof. rewrite !list_lookup_total_alt, list_lookup_fmap. by destruct (rems !! i). Qed.

Lemma hits_level rems : hits rems ≡ₚ level rems ++ hits (fmap (M:=list) tail rems).
Proof.
  unfold hits, level, level_rows. rewrite <- concat_filter, <- concat_app_perm. apply reflexive_eq. f_equal. apply list_fmap_ext. intros _ i _.
  rewrite tails_lookup. unfold head_match. destruct (rems !!! i) as [|p c]; [done|]. rewrite filter_cons. by destruct (decide (row_match i p)).
Qed.

Lemma hits_ext rems rems' :
  (forall i, filter (fun p => row_match i p) (rems !!! i) = filter (fun p => row_match i p) (rems' !!! i)) -> hits rems = hits rems'.
Proof. intros H. unfold hits. f_equal. apply list_fmap_ext. intros _ i _. by rewrite H. Qed.

Lemma selected mem st rems i :
  scan_ok mem st rems -> i ∈ selection st -> exists p c vals, rems !!! i = p :: c /\ i < n /\ scan_pointers st !! i = Some (Some p)
    /\ row_at B p = Some vals /\ is_chain mem (Some p) (p :: c).
Proof.
  intros [_ Hl Hp _ Hc Hv ->] [Hne Hi%elem_of_seq]%list_elem_of_filter. destruct (lookup_lt_is_Some_2 rems i) as [c Hci]; [lia|].
  rewrite (list_lookup_total_correct _ _ _ Hci) in *. destruct (lookup_lt_is_Some_2 (scan_pointers st) i) as [e He]; [lia|].
  pose proof (Hc i e c He Hci) as Hchain. destruct c as [|p c]; [done|]. pose proof (proj1 Hchain) as ->.
  pose proof (Forall_lookup_1 _ _ _ _ Hv Hci) as [[vals Hvals] _]%Forall_cons. exists p, c, vals. split_and!; [done|lia|done..].
Qed.

Lemma scan_selection_nil mem st rems : scan_ok mem st rems -> selection st = [] -> hits rems = [].
Proof.
  intros Hs Hnil. unfold hits. assert (forall i, i ∈ seq 0 n -> rems !!! i = []) as Hr.
  { intros i Hi. destruct (decide (rems !!! i = [])) as [|Hne]; [done|]. assert (i ∈ selection st) as Hin; [|by rewrite Hnil in Hin; apply elem_of_nil in Hin].
    rewrite (so_selection _ _ _ Hs). by apply list_elem_of_filter. }
  revert Hr. generalize (seq 0 n). induction l as [|i l IH]; intros Hr; [done|]. cbn [fmap list_fmap concat].
  rewrite (Hr i) by left. apply IH. intros j Hj. apply Hr. by right.
Qed.

Lemma find_spec mem st rems :
  scan_ok mem st rems ->
  find_matches value_eq value_lt value_le mem (scan_pointers st) (join_keys st) (encoded_key_columns table) (row_matcher table) 0 (selection st)
  = Ok (level_rows rems).
Proof.
  intros Hs. rewrite (so_keys _ _ _ Hs), find_key_matches; [|apply Hs|apply Hok| |].
  - f_equal. unfold level_rows. rewrite (so_selection _ _ _ Hs), list_filter_filter. apply filter_ext_elem. intros i Hi.
    unfold head_match, row_match, current_values. destruct (decide (rems !!! i = [])) as [->|Hne]; [cbn; tauto|].
    destruct (selected mem st rems i Hs) as (p & c & vals & -> & _ & -> & Hv & _); [rewrite (so_selection _ _ _ Hs); by apply list_elem_of_filter|].
    rewrite Hv. cbn. naive_solver.
  - intros i Hi. destruct (selected mem st rems i Hs Hi) as (p & c & vals & _ & Hlt & Hp & Hv & _). exists p, vals.
    split_and!; [done|done|by eapply bk_columns|by rewrite (bk_rhs Hok)].
  - eapply Forall_impl; [apply Hok|]. simpl. intros ? ->. lia.
Qed.

Lemma follow_spec mem st rems :
  scan_ok mem st rems ->
  exists st', follow mem st = Ok st' /\ scan_ok mem st' (fmap (M:=list) tail rems) /\ right_matches st' = right_matches st.
Proof.
  intros Hs. unfold follow.
  destruct (follow_next_spec mem (scan_pointers st) (selection st) (fun i => head (tail (rems !!! i)))) as (ptrs' & -> & Hlen & Hptrs).
  { rewrite (so_selection _ _ _ Hs). apply NoDup_filter, NoDup_seq. }
  { intros i Hi. destruct (selected mem st rems i Hs Hi) as (p & c & vals & -> & _ & Hp & _ & _ & n & Hn & Hc). exists p.
    split; [done|]. cbn. by rewrite <- (is_chain_head _ _ _ Hc). }
  unfold mbind, res_bind. eexists. split; [done|]. split; [|done]. destruct Hs as [Hb Hl Hp Hk Hc Hv Hsel].
  split; cbn [scan_pointers join_keys selection]; rewrite ?length_fmap; try done; [by rewrite Hlen| | |].
  - intros i e c He Hci. rewrite list_lookup_fmap in Hci. apply fmap_Some in Hci as (c0 & Hc0 & ->).
    assert (exists e0, scan_pointers st !! i = Some e0) as [e0 He0] by (apply lookup_lt_is_Some; rewrite Hp, <- Hl; by eapply lookup_lt_Some).
    pose proof (Hc i e0 c0 He0 Hc0) as Hchain. rewrite Hptrs, Hsel in He.
    destruct (decide (i ∈ filter (fun i => rems !!! i <> []) (seq 0 n))) as [Hin|Hin].
    + injection He as <-. rewrite (list_lookup_total_correct _ _ _ Hc0). destruct c0 as [|p c0]; [done|]. destruct Hchain as (_ & nx & _ & Hrest).
      cbn. by rewrite <- (is_chain_head _ _ _ Hrest).
    + destruct c0 as [|p c0]; [by simplify_eq/=|]. exfalso. apply Hin, list_elem_of_filter.
      split; [by rewrite (list_lookup_total_correct _ _ _ Hc0)|]. apply elem_of_seq. apply lookup_lt_Some in Hc0. lia.
  - apply Forall_fmap. eapply Forall_impl; [exact Hv|]. intros c Hall. cbn. destruct c; [done|]. by apply Forall_cons in Hall as [_ ?].
  - rewrite Hsel, list_filter_filter. apply filter_ext_elem. intros i Hi. rewrite tails_lookup.
    destruct (rems !!! i) as [|p [|q c]]; cbn; naive_solver.
Qed.

(** The right rows that are marked as matched. *)
Definition marked (track : bool) (rm rm' : list bool) (sel : list nat) : Prop :=
  if track then length rm' = length rm /\ forall j, rm' !! j = Some true <-> rm !! j = Some true \/ j ∈ sel else rm' = rm.

Lemma marked_nil track rm : marked track rm rm [].
Proof. destruct track; [|done]. split; [done|]. intros j. rewrite elem_of_nil. naive_solver. Qed.

Lemma level_rows_lt rems : Forall (fun i => i < n) (level_rows rems).
Proof. apply Forall_forall. intros i [_ Hi%elem_of_seq]%list_elem_of_filter. lia. Qed.

Lemma level_no_match rems i : level_rows rems = [] -> i < n -> filter (fun p => row_match i p) (rems !!! i) = filter (fun p => row_match i p) (tail (rems !!! i)).
Proof.
  intros Hnil Hi. destruct (rems !!! i) as [|p c] eqn:Hr; [done|]. rewrite filter_cons. rewrite decide_False; [done|]. intros Hm.
  assert (i ∈ level_rows rems) as Hin; [|by rewrite Hnil in Hin; apply elem_of_nil in Hin]. apply list_elem_of_filter. unfold head_match. rewrite Hr.
  split; [done|]. apply elem_of_seq. lia.
Qed.

(** Chasing skips the rows of the chains that match nothing, until some row
    matches or all chains are at their end. *)
Lemma chase_spec mem track k fuel : forall st rems,
  scan_ok mem st rems -> (track = true -> length (right_matches st) = n) -> Forall (fun c => length c <= k) rems -> k < fuel ->
  exists st' rems', chase_until_match_or_exhaust value_eq value_lt value_le fuel table mem track st = Ok (st', level_rows rems')
    /\ scan_ok mem st' rems' /\ hits rems = hits rems' /\ Forall (fun c => length c <= k) rems'
    /\ (level_rows rems' = [] -> selection st' = []) /\ marked track (right_matches st) (right_matches st') (level_rows rems').
Proof.
  revert k. induction fuel as [|fuel IH]; intros k st rems Hs Hrm Hk Hfuel; [lia|]. cbn [chase_until_match_or_exhaust].
  destruct (Nat.eqb_spec (length (selection st)) 0) as [Hz|Hz].
  { apply length_zero_iff_nil in Hz. assert (level_rows rems = []) as Hl.
    { destruct (level_rows rems) as [|i l] eqn:Hl; [done|]. assert (i ∈ level_rows rems) as [Hm Hi]%list_elem_of_filter by (rewrite Hl; left).
      assert (i ∈ selection st) as Hin; [|by rewrite Hz in Hin; apply elem_of_nil in Hin]. rewrite (so_selection _ _ _ Hs). apply list_elem_of_filter.
      split; [|done]. unfold head_match in Hm. by destruct (rems !!! i). }
    exists st, rems. rewrite Hl. split_and!; try done. apply marked_nil. }
  rewrite (bind_ok _ _ _ (find_spec mem st rems Hs)).
  assert (exists rm', (if track then mark_right (right_matches st) (level_rows rems) else Ok (right_matches st)) = Ok rm'
    /\ marked track (right_matches st) rm' (level_rows rems) /\ (level_rows rems = [] -> rm' = right_matches st)) as (rm' & -> & Hmark & Hsame).
  { destruct track; [|by exists (right_matches st)]. destruct (mark_right_spec (right_matches st) (level_rows rems)) as (rm' & Hrun & Hm).
    { rewrite Hrm by done. apply level_rows_lt. } exists rm'. split_and!; [done|done|]. intros Hl. rewrite Hl in Hrun. by injection Hrun. }
  unfold mbind at 1, res_bind at 1. set (st1 := mkScan _ rm' _ _). assert (scan_ok mem st1 rems) as Hs1 by (destruct Hs; by split).
  destruct (Nat.eqb_spec (length (level_rows rems)) 0) as [Hl|Hl].
  - apply length_zero_iff_nil in Hl. destruct (follow_spec mem st1 rems Hs1) as (st2 & Hrun & Hs2 & Hrm2). rewrite (bind_ok _ _ _ Hrun).
    cbn [right_matches st1] in Hrm2. rewrite (Hsame Hl) in Hrm2.
    assert (hits rems = hits (fmap (M:=list) tail rems)) as Hh.
    { unfold hits. f_equal. apply list_fmap_ext. intros j i Hi%lookup_seq. rewrite tails_lookup, level_no_match by (done || lia). done. }
    destruct k as [|k].
    { exfalso. apply Hz. rewrite (so_selection _ _ _ Hs), filter_none; [done|]. intros i Hi%elem_of_seq Hne. apply Hne.
      destruct (lookup_lt_is_Some_2 rems i) as [c Hc]; [rewrite (so_length _ _ _ Hs); lia|]. rewrite (list_lookup_total_correct _ _ _ Hc).
      pose proof (Forall_lookup_1 _ _ _ _ Hk Hc) as Hlen. cbn in Hlen. destruct c; [done|simpl in Hlen; lia]. }
    destruct (IH k st2 _ Hs2) as (st' & rems' & Hrun' & Hs' & Hh' & Hk' & Hend & Hm').
    { by rewrite Hrm2. }
    { apply Forall_fmap. eapply Forall_impl; [exact Hk|]. intros c Hc. cbn. destruct c; simpl in *; lia. }
    { lia. }
    exists st', rems'. split_and!; [done|done|by rewrite Hh|eapply Forall_impl; [exact Hk'|simpl; lia]|done|by rewrite <- Hrm2].
  - exists st1, rems. split_and!; try done. intros Hnil. by rewrite Hnil in Hl.
Qed.

(** *** Marking the matched rows *)

Local Abbreviation needs := (needs_match_column (join_type table)).

(** Where there is a match column every row has a flag. *)
Definition flags_ok mem : Prop := needs = true -> forall p r, row_at mem p = Some r -> is_Some (matched r).

(** The rows [ps] are marked, where there is a match column. *)
Definition mem_marked mem mem' (ps : list Ptr) : Prop :=
  values mem' = values mem
  /\ if needs then forall q, row_at mem' q = if decide (q ∈ ps) then set_matched <$> row_at mem q else row_at mem q else mem' = mem.

Lemma mem_marked_refl mem : mem_marked mem mem [].
Proof. split; [done|]. by destruct needs. Qed.

Lemma mem_marked_trans mem mem' mem'' ps qs rs :
  mem_marked mem mem' ps -> mem_marked mem' mem'' qs -> (forall q, q ∈ rs <-> q ∈ ps \/ q ∈ qs) -> mem_marked mem mem'' rs.
Proof.
  intros [Hv1 H1] [Hv2 H2] Hrs. split; [congruence|]. destruct needs; [|congruence]. intros q. rewrite H2, H1. specialize (Hrs q).
  repeat case_decide; try (exfalso; tauto); try done. by destruct (row_at mem q).
Qed.

Lemma marked_next mem mem' ps q : mem_marked mem mem' ps -> next_of mem' q = next_of mem q.
Proof.
  intros [_ Hm]. unfold next_of. destruct needs; [|by rewrite Hm]. rewrite Hm. case_decide; [|done]. by destruct (row_at mem q).
Qed.

Lemma marked_flags mem mem' ps : mem_marked mem mem' ps -> flags_ok mem -> flags_ok mem'.
Proof.
  intros [_ Hm] Hf Hn p r Hr. unfold flags_ok in Hf. rewrite Hn in *. rewrite Hm in Hr. specialize (Hf eq_refl p).
  case_decide; [|by eapply Hf]. destruct (row_at mem p); [|done]. by simplify_eq/=.
Qed.

Lemma scan_ok_frame mem mem' st rems : values mem' = values mem -> (forall q, next_of mem' q = next_of mem q) -> scan_ok mem st rems -> scan_ok mem' st rems.
Proof.
  intros Hvals Hn [Hb Hl Hp Hk Hc Hv Hsel]. split; try done; [by rewrite Hvals|]. intros i e c He Hci. eapply is_chain_frame; [|by eapply Hc].
  intros q _. apply Hn.
Qed.

Lemma marked_scan_ok mem mem' ps st rems : mem_marked mem mem' ps -> scan_ok mem st rems -> scan_ok mem' st rems.
Proof. intros Hm. apply scan_ok_frame; [apply Hm|]. intros q. exact (marked_next _ _ _ q Hm). Qed.

Lemma length_values mem : length (concat (values mem)) = length (concat mem).
Proof. unfold values. rewrite <- fmap_concat. apply length_fmap. Qed.

(** The head of the chain of a matching row of the batch. *)
Lemma level_pointer mem st rems i :
  scan_ok mem st rems -> i ∈ level_rows rems ->
  exists p vals, head (rems !!! i) = Some p /\ i < n /\ scan_pointers st !! i = Some (Some p) /\ row_at B p = Some vals.
Proof.
  intros Hs [Hm Hi]%list_elem_of_filter. destruct (selected mem st rems i Hs) as (p & c & vals & -> & Hlt & Hp & Hv & _); [|by exists p, vals].
  rewrite (so_selection _ _ _ Hs). apply list_elem_of_filter. split; [|done]. unfold head_match in Hm. by destruct (rems !!! i).
Qed.

Lemma mark_matched_spec mem st rems :
  scan_ok mem st rems -> flags_ok mem ->
  exists mem', mark_matched table mem st (level_rows rems) = Ok (mem', Some <$> (level rems).*1)
    /\ mem_marked mem mem' (level rems).*1 /\ scan_ok mem' st rems.
Proof.
  intros Hs Hf. assert (collect (index (scan_pointers st)) (level_rows rems) = Ok (Some <$> (level rems).*1)) as Hptrs.
  { unfold level. rewrite <- !list_fmap_compose. apply collect_map. intros i Hi. destruct (level_pointer mem st rems i Hs Hi) as (p & vals & Hh & _ & Hp & _).
    apply index_Ok. cbn. by rewrite Hh. }
  unfold mark_matched. rewrite (bind_ok _ _ _ Hptrs).
  assert (exists mem', (if needs then write_rows_matched mem (Some <$> (level rems).*1) else Ok mem) = Ok mem' /\ mem_marked mem mem' (level rems).*1) as (mem' & -> & Hm).
  { unfold mem_marked, flags_ok in *. destruct needs; [|by exists mem]. destruct (write_rows_matched_spec mem (level rems).*1) as (mem' & Hrun & Hv & Hq); [|by exists mem'].
    apply Forall_forall. intros p Hp. unfold level in Hp. rewrite <- list_fmap_compose in Hp. apply list_elem_of_fmap in Hp as (i & -> & Hi).
    destruct (level_pointer mem st rems i Hs Hi) as (p & vals & Hh & _ & _ & Hv). cbn. rewrite Hh. cbn.
    destruct (row_at_of_values mem p vals) as (r & Hr & _); [by rewrite (so_values _ _ _ Hs)|]. destruct (Hf eq_refl p r Hr) as [b Hb]. by exists r, b. }
  exists mem'. split_and!; [done|done|by eapply marked_scan_ok].
Qed.

(** *** Scanning *)

(** The output for a match. *)
Definition joined (pi : Ptr * nat) : Row := take (data_column_count table) (default [] (row_at B pi.1)) ++ rhs !!! pi.2.

Definition short_chains rems : Prop := Forall (fun c => length c <= length (concat B)) rems.

Lemma read_level mem st rems :
  scan_ok mem st rems -> exists lhs, collect (read_row mem) (Some <$> (level rems).*1) = Ok lhs /\ encoded <$> lhs = (fun pi => default [] (row_at B pi.1)) <$> level rems.
Proof.
  intros Hs. assert (Forall (fun i => exists p vals, head (rems !!! i) = Some p /\ row_at B p = Some vals) (level_rows rems)) as Hall.
  { apply Forall_forall. intros i Hi. destruct (level_pointer mem st rems i Hs Hi) as (p & vals & Hh & _ & _ & Hv). by exists p, vals. }
  unfold level. induction Hall as [|i l (p & vals & Hh & Hv) _ (lhs & Hrun & Hlhs)]; [by exists []|].
  destruct (row_at_of_values mem p vals) as (r & Hr & Hrv); [by rewrite (so_values _ _ _ Hs)|]. exists (r :: lhs).
  cbn [fmap list_fmap collect]. rewrite Hh. cbn [default from_option fst]. unfold id. rewrite (bind_ok _ _ _ (read_row_spec _ _ _ Hr)).
  split; [by rewrite (bind_ok _ _ _ Hrun)|]. rewrite Hv. cbn. f_equal; [done|exact Hlhs].
Qed.

Lemma inner_spec mem st rems track :
  scan_ok mem st rems -> flags_ok mem -> short_chains rems -> (track = true -> selection st <> [] -> length (right_matches st) = n) -> n <= batch_size ->
  exists mem' st' rems' lv, scan_next_inner_join value_eq value_lt value_le batch_size table mem rhs track st = Ok (mem', st', joined <$> lv)
    /\ hits rems ≡ₚ lv ++ hits rems' /\ mem_marked mem mem' lv.*1 /\ scan_ok mem' st' rems' /\ short_chains rems'
    /\ (lv = [] -> selection st' = [] /\ hits rems' = []) /\ marked track (right_matches st) (right_matches st') lv.*2.
Proof.
  intros Hs Hf Hk Hrm Hn. unfold scan_next_inner_join. destruct (Nat.eqb_spec (length (selection st)) 0) as [Hz|Hz].
  { apply length_zero_iff_nil in Hz. pose proof (scan_selection_nil _ _ _ Hs Hz) as Hh. exists mem, st, rems, []. rewrite Hh.
    split_and!; try done; [apply mem_marked_refl|apply marked_nil]. }
  destruct (chase_spec mem track (length (concat B)) (chase_fuel mem) st rems Hs) as (st1 & rems1 & -> & Hs1 & Hh1 & Hk1 & Hend & Hm1).
  { intros Ht. apply Hrm; [done|]. intros Hnil. by rewrite Hnil in Hz. }
  { exact Hk. }
  { unfold chase_fuel. rewrite <- length_values, (so_values _ _ _ Hs). lia. }
  unfold mbind at 1, res_bind at 1. destruct (Nat.eqb_spec (length (level_rows rems1)) 0) as [Hl|Hl].
  { apply length_zero_iff_nil in Hl. pose proof (scan_selection_nil _ _ _ Hs1 (Hend Hl)) as Hh. exists mem, st1, rems1, []. rewrite Hh1, Hh. rewrite Hl in Hm1.
    split_and!; try done; [apply mem_marked_refl|by intros _; split; [apply Hend|]]. }
  destruct (mark_matched_spec mem st1 rems1 Hs1 Hf) as (mem' & -> & Hmm & Hs2). unfold mbind at 1, res_bind at 1.
  assert (length (level_rows rems1) <= n) as Hlen by (unfold level_rows; etransitivity; [apply length_filter|by rewrite length_seq]).
  rewrite (proj2 (Nat.leb_le _ _)) by lia. unfold rust_assert. unfold mbind at 1, res_bind at 1.
  destruct (read_level mem' st1 rems1 Hs2) as (lhs & Hrun & Hlhs). rewrite (bind_ok _ _ _ Hrun).
  assert (collect (index rhs) (level_rows rems1) = Ok ((fun i => rhs !!! i) <$> level_rows rems1)) as Hr.
  { apply collect_map. intros i Hi. apply index_Ok, list_lookup_lookup_total_lt. by eapply Forall_forall in Hi; [|apply level_rows_lt]. }
  rewrite (bind_ok _ _ _ Hr). destruct (follow_spec mem' st1 rems1 Hs2) as (st2 & Hrun2 & Hs3 & Hrm2). rewrite (bind_ok _ _ _ Hrun2).
  exists mem', st2, (fmap (M:=list) tail rems1), (level rems1). split_and!.
  - do 2 f_equal. transitivity (zip_with (fun vals r : Row => take (data_column_count table) vals ++ r) (encoded <$> lhs) ((fun i => rhs !!! i) <$> level_rows rems1)).
    { by rewrite zip_with_fmap_l. }
    rewrite Hlhs. unfold level, joined. by rewrite <- !list_fmap_compose, zip_with_fmap_l, zip_with_fmap_r, zip_with_diag.
  - rewrite Hh1. apply hits_level.
  - done.
  - done.
  - apply Forall_fmap. eapply Forall_impl; [exact Hk1|]. intros c Hc. cbn. destruct c; simpl in *; lia.
  - intros Hnil. exfalso. apply Hl. unfold level in Hnil. apply fmap_nil_inv in Hnil. by rewrite Hnil.
  - rewrite Hrm2. unfold level. rewrite <- list_fmap_compose. cbn. by rewrite list_fmap_id.
Qed.

Lemma left_mark_spec k fuel : forall mem st rems,
  needs = true -> scan_ok mem st rems -> flags_ok mem -> Forall (fun c => length c <= k) rems -> k <= length (concat B) -> k < fuel ->
  exists mem' st' rems', left_mark_loop value_eq value_lt value_le fuel table mem st = Ok (mem', st')
    /\ scan_ok mem' st' rems' /\ selection st' = [] /\ mem_marked mem mem' (hits rems).*1 /\ Forall (fun c => length c <= k) rems' /\ hits rems' = []
    /\ right_matches st' = right_matches st.
Proof.
  revert k. induction fuel as [|fuel IH]; intros k mem st rems Hn Hs Hf Hk HkB Hfuel; [lia|]. cbn [left_mark_loop].
  destruct (chase_spec mem false k (chase_fuel mem) st rems Hs) as (st1 & rems1 & -> & Hs1 & Hh1 & Hk1 & Hend & Hrm1); [done|done| |].
  { unfold chase_fuel. rewrite <- length_values, (so_values _ _ _ Hs). lia. }
  unfold mbind at 1, res_bind at 1. rewrite Hh1. destruct (Nat.eqb_spec (length (level_rows rems1)) 0) as [Hl|Hl].
  { apply length_zero_iff_nil in Hl. pose proof (scan_selection_nil _ _ _ Hs1 (Hend Hl)) as Hh. exists mem, st1, rems1. rewrite Hh.
    split_and!; try done; [by apply Hend|apply mem_marked_refl]. }
  rewrite Hn. unfold rust_assert. unfold mbind at 1, res_bind at 1.
  destruct (mark_matched_spec mem st1 rems1 Hs1 Hf) as (mem1 & -> & Hmm & Hs2). unfold mbind at 1, res_bind at 1.
  destruct (follow_spec mem1 st1 rems1 Hs2) as (st2 & Hrun2 & Hs3 & Hrm2). rewrite (bind_ok _ _ _ Hrun2). cbn in Hrm1.
  destruct k as [|k].
  { exfalso. apply Hl. unfold level_rows. rewrite filter_none; [done|]. intros i Hi%elem_of_seq Hm. unfold head_match in Hm.
    destruct (lookup_lt_is_Some_2 rems1 i) as [c Hc]; [rewrite (so_length _ _ _ Hs1); lia|]. rewrite (list_lookup_total_correct _ _ _ Hc) in Hm.
    pose proof (Forall_lookup_1 _ _ _ _ Hk1 Hc) as Hlen. cbn in Hlen. destruct c; [done|simpl in Hlen; lia]. }
  destruct (IH k mem1 st2 (fmap (M:=list) tail rems1) Hn Hs3) as (mem' & st' & rems' & Hrun & Hs' & Hsel & Hmm' & Hk' & Hh' & Hrm').
  { by eapply marked_flags. }
  { apply Forall_fmap. eapply Forall_impl; [exact Hk1|]. intros c Hc. cbn. destruct c; simpl in *; lia. }
  { lia. }
  { lia. }
  exists mem', st', rems'. split_and!; [done|done|done| |eapply Forall_impl; [exact Hk'|cbn; lia]|done|congruence].
  eapply mem_marked_trans; [exact Hmm|exact Hmm'|]. intros q. by rewrite (hits_level rems1), fmap_app, elem_of_app.
Qed.

(** *** The output a batch is still owed *)

Lemma elem_of_hits rems p i : (p, i) ∈ hits rems <-> i < n /\ p ∈ rems !!! i /\ row_match i p.
Proof.
  unfold hits. rewrite list_elem_of_In, in_concat. split.
  - intros (l & Hl & Hin). apply list_elem_of_In in Hl, Hin. apply list_elem_of_fmap in Hl as (j & -> & Hj%elem_of_seq).
    apply list_elem_of_fmap in Hin as (q & [= -> ->] & [Hm Hq]%list_elem_of_filter). split_and!; [lia|done|done].
  - intros (Hi & Hp & Hm). exists (fmap (M:=list) (fun p => (p, i)) (filter (fun p => row_match i p) (rems !!! i))). rewrite <- !list_elem_of_In. split.
    + apply list_elem_of_fmap. exists i. split; [done|]. apply elem_of_seq. lia.
    + apply list_elem_of_fmap. exists p. split; [done|]. by apply list_elem_of_filter.
Qed.

Definition null_row (i : nat) : Row := replicate (data_column_count table) None ++ rhs !!! i.

(** Rows of the batch that have no match, as far as it is known and still to be
    found out. *)
Definition unmatched st rems : list nat :=
  filter (fun i => right_matches st !! i = Some false /\ i ∉ (hits rems).*2) (seq 0 (length (right_matches st))).

Definition owed st rems : list Row :=
  match join_type table with
  | JoinType.Inner | JoinType.Left => joined <$> hits rems
  | JoinType.Right => (joined <$> hits rems) ++ (null_row <$> unmatched st rems)
  | _ => []
  end.

Definition matches_ok st : Prop := (selection st <> [] -> length (right_matches st) = n) /\ length (right_matches st) <= n.

Lemma marked_ok track st st' sel : marked track (right_matches st) (right_matches st') sel -> matches_ok st -> (selection st = [] -> selection st' = []) -> matches_ok st'.
Proof.
  intros Hm [H1 H2] Hsel. assert (length (right_matches st') = length (right_matches st)) as Hlen.
  { unfold marked in Hm. destruct track; [apply Hm|by rewrite Hm]. }
  split; [|by rewrite Hlen]. intros Hne. rewrite Hlen. apply H1. intros Hnil. by apply Hne, Hsel.
Qed.

Lemma marked_none rm rm' : marked true rm rm' [] -> rm' = rm.
Proof.
  intros [Hlen Hm]. apply list_eq. intros i. specialize (Hm i). rewrite elem_of_nil in Hm. destruct (decide (i < length rm)) as [Hi|Hi].
  - destruct (lookup_lt_is_Some_2 rm i Hi) as [b Hb]. destruct (lookup_lt_is_Some_2 rm' i) as [b' Hb']; [lia|]. rewrite Hb, Hb' in *. destruct b, b'; naive_solver.
  - by rewrite !lookup_ge_None_2 by lia.
Qed.

Lemma unmatched_step st st' rems rems' lv :
  marked true (right_matches st) (right_matches st') lv.*2 -> hits rems ≡ₚ lv ++ hits rems' -> unmatched st rems = unmatched st' rems'.
Proof.
  intros [Hlen Hm] Hp. unfold unmatched. rewrite Hlen. apply filter_ext_elem. intros i Hi%elem_of_seq. rewrite Hp, fmap_app, elem_of_app. specialize (Hm i).
  destruct (lookup_lt_is_Some_2 (right_matches st) i) as [b Hb]; [lia|]. destruct (lookup_lt_is_Some_2 (right_matches st') i) as [b' Hb']; [lia|].
  rewrite Hb, Hb' in *. destruct b, b'; naive_solver.
Qed.

(** The outcome of a call of [scan_next]: what it emits is what the batch was owed
    and no longer is, the rows whose matches it has found are marked, and it
    emits nothing only when nothing is left. *)
Definition scan_outcome mem st rems (r : res (Memory * ScanState V * list Row)) : Prop :=
  exists mem' st' rems' lv out, r = Ok (mem', st', out)
    /\ owed st rems ≡ₚ out ++ owed st' rems' /\ (out = [] -> owed st' rems' = [] /\ hits rems' = [])
    /\ hits rems ≡ₚ lv ++ hits rems' /\ mem_marked mem mem' lv.*1 /\ scan_ok mem' st' rems' /\ short_chains rems' /\ matches_ok st'.

Lemma no_hits_left mem st rems lv rest : scan_ok mem st rems -> selection st = [] -> hits rems ≡ₚ lv ++ rest -> lv = [].
Proof. intros Hs Hnil Hh. rewrite (scan_selection_nil _ _ _ Hs Hnil) in Hh. apply Permutation_nil_l in Hh. symmetry in Hh. by apply app_eq_nil in Hh as [-> _]. Qed.

Lemma inner_outcome mem st rems track :
  join_type table = JoinType.Inner \/ join_type table = JoinType.Left ->
  scan_ok mem st rems -> flags_ok mem -> short_chains rems -> matches_ok st -> n <= batch_size ->
  scan_outcome mem st rems (scan_next_inner_join value_eq value_lt value_le batch_size table mem rhs track st).
Proof.
  intros Hj Hs Hf Hk Hrm Hn.
  destruct (inner_spec mem st rems track Hs Hf Hk) as (mem' & st' & rems' & lv & -> & Hh & Hmm & Hs' & Hk' & Hend & Hm); [by intros _; apply Hrm|done|].
  exists mem', st', rems', lv, (joined <$> lv).
  assert (forall s r, owed s r = joined <$> hits r) as Ho by (intros; unfold owed; by destruct Hj as [-> | ->]). rewrite !Ho. split_and!; try done.
  - by rewrite Hh, fmap_app.
  - intros Hnil%fmap_nil_inv. destruct (Hend Hnil) as [_ ->]. done.
  - eapply marked_ok; [exact Hm|done|]. intros Hnil. apply Hend. exact (no_hits_left _ _ _ _ _ Hs Hnil Hh).
Qed.

Lemma right_outcome mem st rems :
  join_type table = JoinType.Right -> scan_ok mem st rems -> short_chains rems -> matches_ok st -> n <= batch_size ->
  scan_outcome mem st rems (scan_next_right_join value_eq value_lt value_le batch_size table mem rhs st).
Proof.
  intros Hj Hs Hk Hrm Hn. unfold scan_next_right_join.
  destruct (inner_spec mem st rems true Hs) as (mem' & st' & rems' & lv & -> & Hh & Hmm & Hs' & Hk' & Hend & Hm); [by intros Hnd; rewrite Hj in Hnd|done|by intros _; apply Hrm|done|].
  assert (matches_ok st') as Hrm' by (eapply marked_ok; [exact Hm|done|]; intros Hnil; apply Hend; exact (no_hits_left _ _ _ _ _ Hs Hnil Hh)).
  unfold mbind at 1, res_bind at 1. unfold scan_outcome, owed. rewrite Hj, length_fmap. destruct (Nat.eqb_spec (length lv) 0) as [Hz|Hz].
  - apply length_zero_iff_nil in Hz as ->. destruct (Hend eq_refl) as [Hsel Hh0]. rewrite Hh0 in Hh. apply Permutation_nil_r in Hh. apply marked_none in Hm.
    set (sel := filter (fun i => right_matches st' !! i = Some false) (seq 0 (length (right_matches st')))).
    assert (forall s r, right_matches s = right_matches st' -> hits r = [] -> unmatched s r = sel) as Hsame.
    { intros s r Hr Hhr. unfold unmatched, sel. rewrite Hr, Hhr. apply filter_ext_elem. intros i _. cbn. rewrite elem_of_nil. tauto. }
    rewrite Hh, (Hsame st rems (eq_sym Hm) Hh). cbn [fmap list_fmap app]. destruct (Nat.eqb_spec (length sel) 0) as [Hsz|Hsz].
    + apply length_zero_iff_nil in Hsz. rewrite Hsz. exists mem', st', rems', [], []. rewrite Hh0, (Hsame st' rems' eq_refl Hh0), Hsz. by split_and!.
    + assert (collect (index rhs) sel = Ok ((fun i => rhs !!! i) <$> sel)) as Hr.
      { apply collect_map. intros i [_ Hi%elem_of_seq]%list_elem_of_filter. apply index_Ok, list_lookup_lookup_total_lt. destruct Hrm' as [_ Hle]. lia. }
      rewrite (bind_ok _ _ _ Hr). exists mem', (mkScan (selection st') [] (scan_pointers st') (join_keys st')), rems', [], (null_row <$> sel). rewrite Hh0, <- list_fmap_compose.
      cbn [right_matches]. split_and!; try done.
      * cbn. by rewrite app_nil_r.
      * destruct Hs'; by split.
      * split; cbn [selection right_matches]; [by rewrite Hsel|simpl; lia].
  - exists mem', st', rems', lv, (joined <$> lv). rewrite <- (unmatched_step _ _ _ _ _ Hm Hh). split_and!; try done.
    + rewrite Hh, fmap_app. by rewrite <- app_assoc.
    + intros Hnil. apply fmap_nil_inv in Hnil. by rewrite Hnil in Hz.
Qed.

Lemma mark_outcome mem st rems :
  needs = true -> (forall s r, owed s r = []) -> scan_ok mem st rems -> flags_ok mem -> short_chains rems -> matches_ok st ->
  scan_outcome mem st rems (scan_next_left_mark value_eq value_lt value_le table mem st).
Proof.
  intros Hnd Ho Hs Hf Hk Hrm. unfold scan_next_left_mark, scan_outcome. rewrite Ho. destruct (Nat.eqb_spec (length (selection st)) 0) as [Hz|Hz].
  - apply length_zero_iff_nil in Hz. pose proof (scan_selection_nil _ _ _ Hs Hz) as Hh. exists mem, st, rems, [], []. rewrite !Ho, Hh. split_and!; try done. apply mem_marked_refl.
  - destruct (left_mark_spec (length (concat B)) (S (chase_fuel mem)) mem st rems Hnd Hs Hf Hk) as (mem' & st' & rems' & -> & Hs' & Hsel & Hmm & Hk' & Hh' & Hrm'); [done| |].
    { unfold chase_fuel. rewrite <- length_values, (so_values _ _ _ Hs). lia. }
    exists mem', st', rems', (hits rems), []. rewrite !Ho, Hh'. split_and!; try done; [by rewrite app_nil_r|].
    split; [by rewrite Hsel|]. rewrite Hrm'. apply Hrm.
Qed.

(** The join types that are implemented. *)
Definition supported (jt : JoinType.t) : bool :=
  match jt with JoinType.Full | JoinType.LeftAnti => false | _ => true end.

Lemma scan_next_spec mem st rems :
  supported (join_type table) = true -> scan_ok mem st rems -> flags_ok mem -> short_chains rems -> matches_ok st -> n <= batch_size ->
  scan_outcome mem st rems (scan_next value_eq value_lt value_le batch_size table mem rhs st).
Proof.
  intros Hsup Hs Hf Hk Hrm Hn. unfold scan_next. destruct (join_type table) eqn:Hj; try done.
  - apply inner_outcome; auto.
  - by apply right_outcome.
  - apply inner_outcome; auto.
  - apply mark_outcome; try done; [by rewrite Hj|]. intros. unfold owed. by rewrite Hj.
  - apply mark_outcome; try done; [by rewrite Hj|]. intros. unfold owed. by rewrite Hj.
Qed.

End Batch.
