(* ===== verification/JoinProbe.v ===== *)
(** * Building, probing and draining a join hash table

    What the operations of [JoinTable] compute, in terms of the rows of the two
    sides: the table that the conditions of a join give, the rows the build side
    encodes, the matches a probe finds in complete chains, and the rows that the
    drains of the partitions emit. *)
From S2P Require Import Prelude PartitionSync RowBlocks Hash HashDirectory LogicalExpr JoinConditions JoinTable HashJoin JoinChains.

(** ** Strided block indices *)

Lemma step_by_nil idx num n : 0 < n -> num <= idx -> step_by idx num n = [].
Proof. intros Hn Hle. unfold step_by. replace ((num - idx + n - 1) / n) with 0; [done|]. symmetry. apply Nat.div_small. lia. Qed.

Lemma step_by_cons idx num n : 0 < n -> idx < num -> step_by idx num n = idx :: step_by (idx + n) num n.
Proof.
  intros Hn Hlt. unfold step_by. replace ((num - idx + n - 1) / n) with (S ((num - (idx + n) + n - 1) / n)).
  - cbn [seq fmap list_fmap]. f_equal; [lia|]. rewrite <- fmap_S_seq, <- list_fmap_compose. apply list_fmap_ext. intros _ k _. cbn. lia.
  - destruct (Nat.le_gt_cases num (idx + n)) as [Hle|Hgt].
    + replace (num - (idx + n) + n - 1) with (n - 1) by lia. rewrite (Nat.div_small (n - 1) n) by lia.
      replace (num - idx + n - 1) with ((num - idx - 1) + 1 * n) by lia. rewrite Nat.div_add, Nat.div_small by lia. done.
    + replace (num - idx + n - 1) with ((num - (idx + n) + n - 1) + 1 * n) by lia. rewrite Nat.div_add by lia. lia.
Qed.

Lemma elem_of_step_by b idx num n : 0 < n -> b ∈ step_by idx num n <-> idx <= b < num /\ (b - idx) mod n = 0.
Proof.
  intros Hn. unfold step_by. rewrite list_elem_of_fmap. split.
  - intros (k & -> & Hk%elem_of_seq). replace (idx + k * n - idx) with (k * n) by lia. rewrite Nat.Div0.mod_mul. split; [|done]. split; [lia|].
    assert (S k <= (num - idx + n - 1) / n) as Hle by lia. apply (Nat.mul_le_mono_l _ _ n) in Hle.
    pose proof (Nat.Div0.mul_div_le (num - idx + n - 1) n) as Hd. nia.
  - intros [[H1 H2] Hm]. apply Nat.Div0.mod_divides in Hm as [k Hk]. exists k. split; [lia|]. apply elem_of_seq. split; [lia|]. cbn.
    apply Nat.div_le_lower_bound; [lia|]. nia.
Qed.

Lemma step_by_share idx num n : idx < n -> step_by idx num n ≡ₚ filter (fun b => b mod n = idx) (seq 0 num).
Proof.
  intros Hidx. apply NoDup_Permutation.
  - unfold step_by. apply NoDup_fmap; [|apply NoDup_seq]. intros k k' Hk. nia.
  - apply NoDup_filter, NoDup_seq.
  - intros b. rewrite elem_of_step_by by lia. rewrite list_elem_of_filter, elem_of_seq. split.
    + intros [Hb Hm]. split; [|lia]. replace b with ((b - idx) + idx) by lia. rewrite Nat.Div0.add_mod, Hm. cbn. rewrite Nat.Div0.mod_mod. by apply Nat.mod_small.
    + intros [Hm Hb]. assert (idx <= b) by (rewrite <- Hm; apply Nat.Div0.mod_le). split; [lia|]. rewrite (Nat.div_mod_eq b n), Hm.
      replace (n * (b / n) + idx - idx) with ((b / n) * n) by lia. apply Nat.Div0.mod_mul.
Qed.

Lemma concat_fmap_perm {A X} (f : X -> list A) (l l' : list X) : l ≡ₚ l' -> concat (f <$> l) ≡ₚ concat (f <$> l').
Proof. induction 1; cbn [fmap list_fmap concat]; [done|by f_equiv|solve_Permutation|by etransitivity]. Qed.

(** Together the strides of the partitions are all blocks. *)
Lemma step_by_all {A} (f : nat -> list A) num n :
  0 < n -> concat ((fun idx => concat (f <$> step_by idx num n)) <$> seq 0 n) ≡ₚ concat (f <$> seq 0 num).
Proof.
  intros Hn. etransitivity; [|apply (concat_mod n f (seq 0 num) Hn)].
  assert (forall l, Forall (fun idx => idx < n) l -> concat ((fun idx => concat (f <$> step_by idx num n)) <$> l)
    ≡ₚ concat ((fun p => concat (f <$> filter (fun b => b mod n = p) (seq 0 num))) <$> l)) as H.
  { induction 1 as [|idx l Hidx _ IH]; [done|]. cbn [fmap list_fmap concat]. rewrite IH. apply Permutation_app_tail, concat_fmap_perm. by apply step_by_share. }
  apply H, Forall_forall. intros idx Hi%elem_of_seq. lia.
Qed.

(** ** Draining *)

Section Drain.
Context {V : Type}.
Implicit Types (mem : list (list (BuildRow V))) (rows : list (BuildRow V)) (st : DrainState).
Variable match_fn : bool -> bool.
Variables out_cap n : nat.
Hypothesis n_pos : 0 < n.

Definition did_match (r : BuildRow V) : bool := default false (matched r).

Definition wanted rows : list (BuildRow V) := filter (fun r => match_fn (did_match r)) rows.

Lemma wanted_cons r rows : wanted (r :: rows) = if match_fn (did_match r) then r :: wanted rows else wanted rows.
Proof. unfold wanted. rewrite filter_cons. by destruct (match_fn (did_match r)). Qed.

Lemma drain_block_spec row_idx rows taken :
  Forall (fun r => is_Some (matched r)) rows -> length taken < out_cap ->
  exists stop, drain_block match_fn out_cap row_idx rows taken = Ok (taken ++ take (out_cap - length taken) (wanted rows), stop)
    /\ match stop with
       | None => length taken + length (wanted rows) < out_cap
       | Some row => exists k, row = row_idx + k /\ wanted (drop k rows) = drop (out_cap - length taken) (wanted rows)
                       /\ out_cap <= length taken + length (wanted rows)
       end.
Proof.
  revert row_idx taken. induction rows as [|r rows IH]; intros row_idx taken Hrows Hlt.
  { exists None. cbn. rewrite take_nil, app_nil_r. split; [done|]. cbn. lia. }
  apply Forall_cons in Hrows as [[b Hb] Hrows]. cbn [drain_block]. rewrite Hb.
  assert (did_match r = b) as Hd by (unfold did_match; by rewrite Hb). rewrite wanted_cons, Hd. destruct (match_fn b) eqn:Hm.
  - rewrite length_app. cbn [length]. destruct (Nat.eqb_spec (length taken + 1) out_cap) as [Heq|Hne].
    + exists (Some (S row_idx)). replace (out_cap - length taken) with 1 by lia. cbn [take]. rewrite take_0. split; [done|]. exists 1. split_and!; [lia|done|lia].
    + destruct (IH (S row_idx) (taken ++ [r]) Hrows) as (stop & -> & Hstop); [rewrite length_app; simpl; lia|]. rewrite length_app in *. cbn [length] in *.
      exists stop. replace (out_cap - length taken) with (S (out_cap - (length taken + 1))) by lia. split; [by rewrite <- app_assoc|].
      destruct stop as [row|]; [|lia]. destruct Hstop as (k & -> & Hk & Hle). exists (S k). cbn [drop]. split_and!; [lia|done|lia].
  - destruct (IH (S row_idx) taken Hrows Hlt) as (stop & -> & Hstop). exists stop. split; [done|].
    destruct stop as [row|]; [|done]. destruct Hstop as (k & -> & Hk & Hle). exists (S k). cbn [drop]. split_and!; [lia|done|done].
Qed.

(** The rows a drain has still to look at. *)
Definition drain_rest mem st : list (BuildRow V) :=
  drop (curr_row st) (default [] (mem !! curr_block_idx st))
  ++ concat ((fun b => default [] (mem !! b)) <$> step_by (curr_block_idx st + n) (length mem) n).

Lemma drain_rest_next mem b : drain_rest mem (mkDrain b 0) = concat ((fun b => default [] (mem !! b)) <$> step_by b (length mem) n).
Proof.
  unfold drain_rest. cbn [curr_row curr_block_idx]. rewrite drop_0. destruct (Nat.le_gt_cases (length mem) b) as [Hge|Hlt].
  - rewrite lookup_ge_None_2, !step_by_nil by lia. done.
  - by rewrite (step_by_cons b) by done.
Qed.

Lemma load_rows_spec fuel mem st taken :
  Forall (Forall (fun r => is_Some (matched r))) mem -> length taken < out_cap -> length mem - curr_block_idx st < fuel ->
  exists st', load_rows fuel mem n match_fn out_cap st taken = Ok (st', taken ++ take (out_cap - length taken) (wanted (drain_rest mem st)))
    /\ wanted (drain_rest mem st') = drop (out_cap - length taken) (wanted (drain_rest mem st)).
Proof.
  intros Hmem. revert st taken. induction fuel as [|fuel IH]; intros st taken Hlt Hfuel; [lia|]. cbn [load_rows].
  destruct (mem !! curr_block_idx st) as [block|] eqn:Hb.
  2: { exists st. unfold drain_rest. rewrite Hb. apply lookup_ge_None in Hb. rewrite step_by_nil by lia. cbn. rewrite drop_nil. cbn. by rewrite take_nil, drop_nil, app_nil_r. }
  destruct (drain_block_spec (curr_row st) (drop (curr_row st) block) taken) as (stop & -> & Hstop); [by apply Forall_drop; eapply Forall_lookup_1 in Hmem|done|].
  unfold mbind, res_bind. set (next := concat ((fun b => default [] (mem !! b)) <$> step_by (curr_block_idx st + n) (length mem) n)).
  assert (wanted (drain_rest mem st) = wanted (drop (curr_row st) block) ++ wanted next) as Hw by (unfold drain_rest; rewrite Hb; apply filter_app).
  rewrite Hw. set (w := wanted (drop (curr_row st) block)) in *. destruct stop as [row|].
  - destruct Hstop as (k & -> & Hk & Hle). eexists. split; [by rewrite take_app_le by lia|]. rewrite drop_app_le by lia. rewrite <- Hk.
    unfold drain_rest. cbn [curr_row curr_block_idx]. rewrite Hb. cbn. unfold id. unfold wanted at 1. rewrite filter_app. by rewrite drop_drop.
  - rewrite (take_ge w) by lia. destruct (IH (mkDrain (curr_block_idx st + n) 0) (taken ++ w)) as (st' & -> & Hst'); [rewrite length_app; lia|cbn; apply lookup_lt_Some in Hb; lia|].
    exists st'. rewrite drain_rest_next in *. fold next in Hst' |- *. rewrite length_app in *. replace (out_cap - (length taken + length w)) with (out_cap - length taken - length w) in * by lia.
    rewrite take_app_ge, drop_app_ge, <- app_assoc by lia. done.
Qed.

End Drain.

(** ** The table of a join *)

Section Spec.
Context {V E : Type}.
Local Abbreviation Row := (list (option V)).
Variable eval : E -> Row -> option V.
Variable hash_one : V -> Z.
Variables value_eq value_lt value_le : V -> V -> bool.
Variable heap_size : option (Row -> nat).
Variable desired_size : nat -> nat.
Variable batch_size : nat.
Variable op : PhysicalHashJoin E.
Variable table : JoinHashTable E.
Hypothesis Htable : try_new (op_join_type op) (left_types op) (conditions op) = Ok table.
(** Equal values have equal hashes. *)
Hypothesis hash_eq : forall a b, value_eq a b = true -> hash_one a = hash_one b.
Hypothesis batch_pos : 0 < batch_size.

Local Abbreviation lw := (left_types op).
Local Abbreviation conds := (conditions op).
Local Abbreviation joins := (joins eval value_eq value_lt value_le op).

Lemma key_columns_spec (cs : list (HashJoinCondition E)) encode_idx rel :
  (key_columns encode_idx rel cs).1 = seq encode_idx (length cs)
  /\ Forall (fun i => rel <= i /\ exists c, cs !! (i - rel) = Some c /\ hc_op c = ComparisonOperator.Eq) (key_columns encode_idx rel cs).2.
Proof.
  revert encode_idx rel. induction cs as [|c cs IH]; intros encode_idx rel; [by split|]. cbn [key_columns].
  destruct (IH (S encode_idx) (S rel)) as [H1 H2]. destruct (key_columns (S encode_idx) (S rel) cs) as [enc eqs]. cbn in *. split; [by rewrite H1|].
  assert (Forall (fun i => rel <= i /\ exists c', (c :: cs) !! (i - rel) = Some c' /\ hc_op c' = ComparisonOperator.Eq) eqs) as H3.
  { eapply Forall_impl; [exact H2|]. cbn. intros i (Hi & c' & Hc' & Heq). split; [lia|]. exists c'. by replace (i - rel) with (S (i - S rel)) by lia. }
  case_bool_decide as Heq; [|done]. constructor; [|done]. split; [lia|]. exists c. by rewrite Nat.sub_diag.
Qed.

Lemma table_fields :
  join_type table = op_join_type op /\ row_matcher table = hc_op <$> conds /\ data_column_count table = lw
  /\ encoded_key_columns table = seq lw (length conds) /\ build_side_exprs table = hc_left <$> conds /\ probe_side_exprs table = hc_right <$> conds
  /\ equality_columns table <> [] /\ Forall (fun i => exists c, conds !! i = Some c /\ hc_op c = ComparisonOperator.Eq) (equality_columns table).
Proof.
  generalize Htable. unfold try_new. destruct (key_columns_spec conds lw 0) as [H1 H2]. destruct (key_columns lw 0 conds) as [enc eqs]. cbn in H1, H2.
  unfold rust_assert. destruct (Nat.eqb_spec (length conds) 0) as [|Hc]; [done|]. cbn. destruct (Nat.eqb_spec (length eqs) 0) as [|He]; [done|].
  intros [= <-]. cbn. split_and!; try done; [by intros ->|]. eapply Forall_impl; [exact H2|]. cbn. intros i (_ & c & Hc' & Heq). rewrite Nat.sub_0_r in Hc'. by exists c.
Qed.

(** The join keys of the rows of both sides, an encoded row, and its hash. *)
Definition left_key (l : Row) : Row := (fun c => eval (hc_left c) l) <$> conds.
Definition right_key (r : Row) : Row := (fun c => eval (hc_right c) r) <$> conds.
Definition encode (l : Row) : Row := l ++ left_key l.
Definition key_hash (key : Row) : Z := default 0%Z (row_hash_value hash_one ((fun i => key !!! i) <$> equality_columns table)).
Definition hash_of (vals : Row) : Z := key_hash (drop lw vals).
Definition new_row (l : Row) : BuildRow V :=
  mkBuildRow (encode l) (HashOf (key_hash (left_key l))) (if needs_match_column (op_join_type op) then Some false else None).

Lemma hash_of_encode l : length l = lw -> hash_of (encode l) = key_hash (left_key l).
Proof. intros Hl. unfold hash_of, encode. by rewrite drop_app_length'. Qed.

Lemma row_hash_ext xs ys : Forall2 (fun x y => value_hash hash_one x = value_hash hash_one y) xs ys -> row_hash_value hash_one xs = row_hash_value hash_one ys.
Proof.
  destruct 1 as [|x y xs ys Hxy Hrest]; [done|]. cbn. f_equal. rewrite Hxy. generalize (value_hash hash_one y). clear Hxy. induction Hrest as [|x' y' xs ys Hxy _ IH]; intros h; [done|].
  cbn. by rewrite Hxy.
Qed.

(** Rows that join have the same hash: NULLs do not join on an equality. *)
Lemma joins_hash l r : joins l r = true -> key_hash (left_key l) = key_hash (right_key r).
Proof.
  intros Hj. unfold key_hash. f_equal. apply row_hash_ext, Forall2_fmap_2, Forall_Forall2_diag. eapply Forall_impl; [apply table_fields|].
  cbn. intros i (c & Hc & Heq). unfold HashJoin.joins in Hj. rewrite forallb_forall in Hj. specialize (Hj c ltac:(apply list_elem_of_In; by eapply list_elem_of_lookup_2)).
  rewrite !list_lookup_total_alt. unfold left_key, right_key. rewrite !list_lookup_fmap, Hc. cbn. rewrite Heq in Hj. cbn in Hj.
  destruct (eval (hc_left c) l), (eval (hc_right c) r); try done. cbn. by apply hash_eq.
Qed.

Lemma keys_match_joins l r :
  length l = lw -> keys_match value_eq value_lt value_le (encoded_key_columns table) (row_matcher table) 0 (encode l) (right_key r) = joins l r.
Proof.
  intros Hl. destruct table_fields as (_ & -> & _ & -> & _). unfold HashJoin.joins.
  assert (forall pre cs, conds = pre ++ cs -> keys_match value_eq value_lt value_le (seq (lw + length pre) (length cs)) (hc_op <$> cs) (length pre) (encode l) (right_key r)
    = forallb (fun c => compare_nullable value_eq value_lt value_le (hc_op c) (eval (hc_left c) l) (eval (hc_right c) r)) cs) as H.
  2: { specialize (H [] conds eq_refl). by rewrite Nat.add_0_r in H. }
  intros pre cs. revert pre. induction cs as [|c cs IH]; intros pre Hc; [done|]. cbn [length seq fmap list_fmap keys_match forallb]. f_equal.
  - f_equal; [unfold encode|]; rewrite list_lookup_total_alt.
    + rewrite lookup_app_r by lia. replace (lw + length pre - length l) with (length pre) by lia. unfold left_key.
      by rewrite list_lookup_fmap, Hc, lookup_app_r, Nat.sub_diag by done.
    + unfold right_key. by rewrite list_lookup_fmap, Hc, lookup_app_r, Nat.sub_diag by done.
  - specialize (IH (pre ++ [c])). rewrite length_app, Nat.add_assoc in IH. cbn [length] in IH. rewrite !Nat.add_1_r in IH. apply IH. by rewrite <- app_assoc.
Qed.

Lemma hash_columns_spec cols (row key : Row) :
  Forall2 (fun c i => row !! c = key !! i /\ is_Some (key !! i)) cols (equality_columns table) -> hash_columns hash_one cols row = Ok (key_hash key).
Proof.
  intros H. unfold hash_columns. assert (collect (index row) cols = Ok ((fun i => key !!! i) <$> equality_columns table)) as Hc.
  { apply collect_Forall2, Forall2_fmap_r. eapply Forall2_impl; [exact H|]. cbn. intros c i [Hc [v Hv]]. apply index_Ok. rewrite Hc, Hv. f_equal.
    symmetry. by apply list_lookup_total_correct. }
  by rewrite (bind_ok _ _ _ Hc).
Qed.

Lemma equality_lt : Forall (fun i => i < length conds) (equality_columns table).
Proof. eapply Forall_impl; [apply table_fields|]. cbn. intros i (c & Hc & _). by eapply lookup_lt_Some. Qed.

Lemma build_row_spec l : length l = lw -> build_row hash_one table l (left_key l) = Ok (new_row l).
Proof.
  intros Hl. unfold build_row. destruct table_fields as (Hjt & _ & _ & Hk & _).
  assert (collect (index (encoded_key_columns table)) (equality_columns table) = Ok ((fun i => lw + i) <$> equality_columns table)) as Hc.
  { apply collect_map. intros i Hi. rewrite Hk. apply index_Ok, lookup_seq_lt. by eapply Forall_forall in Hi; [|apply equality_lt]. }
  rewrite (bind_ok _ _ _ Hc), (hash_columns_spec _ _ (left_key l)).
  - unfold mbind, res_bind, new_row. by rewrite Hjt.
  - apply Forall2_fmap_l, Forall_Forall2_diag. eapply Forall_impl; [apply equality_lt|]. cbn. intros i Hi. split.
    + rewrite lookup_app_r by lia. f_equal. lia.
    + apply lookup_lt_is_Some. unfold left_key. by rewrite length_fmap.
Qed.

Definition heap_ok (batch : list Row) : Prop :=
  forall f, heap_size = Some f -> (Z.of_nat (sum_list ((fun l => f (encode l)) <$> batch)) <= max_heap_size)%Z.

(** A batch of the build side is appended to the collection of its partition. *)
Lemma collect_build_spec (ts : TableState V) idx batch blocks old :
  collections ts !! idx = Some blocks -> blocks_hold blocks old -> Forall (fun l => length l = lw) batch -> length batch <= batch_size -> heap_ok batch ->
  exists blocks', collect_build eval hash_one heap_size batch_size table ts idx batch
      = Ok (mkTableState (<[idx := blocks']> (collections ts)) (remaining ts) (merged ts) (directory ts))
    /\ blocks_hold blocks' (old ++ (new_row <$> batch)).
Proof.
  intros Hb Hold Hw Hlen Hheap. unfold collect_build, eval_keys. rewrite (proj2 (Nat.leb_le _ _)) by done. unfold rust_assert. unfold mbind at 1, res_bind at 1.
  unfold mbind at 1, res_bind at 1. destruct table_fields as (_ & _ & _ & _ & -> & _).
  assert (collect (fun rk : Row * Row => build_row hash_one table rk.1 rk.2) (zip batch ((fun row => (fun e => eval e row) <$> (hc_left <$> conds)) <$> batch)) = Ok (new_row <$> batch)) as Hc.
  { rewrite zip_with_fmap_r, zip_with_diag. apply collect_Forall2, Forall2_fmap_2, Forall_Forall2_diag. eapply Forall_impl; [exact Hw|]. cbn. intros l Hl.
    rewrite <- list_fmap_compose. by apply build_row_spec. }
  rewrite (bind_ok _ _ _ Hc), (bind_ok _ _ _ (proj2 (index_Ok _ _ _) Hb)). unfold append_build.
  destruct (append_rows_spec batch_size blocks old (new_row <$> batch) ((fun f => (fun r => f (encoded r)) <$> (new_row <$> batch)) <$> heap_size) batch_pos Hold) as (blocks' & Hrun & Hhold & _).
  { intros sizes Hs. destruct heap_size as [f|] eqn:Hf; [|done]. injection Hs as <-. rewrite <- list_fmap_compose. by apply Hheap. }
  rewrite (bind_ok _ _ _ Hrun). by exists blocks'.
Qed.

(** *** The directory *)

Lemma pow2_max a b : pow2 a -> pow2 b -> pow2 (Nat.max a b).
Proof. intros Ha Hb. destruct (Nat.max_spec a b) as [[_ ->]|[_ ->]]; done. Qed.

Lemma merge_all (cs : list (RowBlocks (BuildRow V))) acc : row_blocks (fold_left merge_blocks_from cs acc) = row_blocks acc ++ concat (row_blocks <$> cs).
Proof. revert acc. induction cs as [|c cs IH]; intros acc; cbn; [by rewrite app_nil_r|]. rewrite IH. cbn. by rewrite app_assoc. Qed.

(** The blocks of all partitions hold their rows, one partition after another. *)
Lemma hold_all (cs : list (RowBlocks (BuildRow V))) rowss : Forall2 blocks_hold cs rowss -> concat (concat (row_blocks <$> cs)) = concat rowss.
Proof. induction 1 as [|c rows cs rowss Hc _ IH]; [done|]. cbn [fmap list_fmap concat]. by rewrite concat_app, IH, Hc. Qed.

Lemma reserved_concat {R} (blocks : RowBlocks R) : reserved_row_count blocks = length (concat (row_blocks blocks)).
Proof. unfold reserved_row_count. induction (row_blocks blocks) as [|b bs IH]; [done|]. cbn [fmap list_fmap concat]. rewrite length_app, <- IH. done. Qed.

Lemma empty_chains (mem : list (list (BuildRow V))) cap : pow2 cap -> chained (values mem) hash_of mem (replicate cap None) (replicate cap []).
Proof.
  intros Hcap. split; try done; rewrite ?length_replicate; try done.
  - intros j e c [-> _]%lookup_replicate [-> _]%lookup_replicate. done.
  - intros j c p [-> _]%lookup_replicate Hp. by apply elem_of_nil in Hp.
Qed.

Lemma init_directory_spec (ts : TableState V) rowss :
  remaining ts = 0 -> directory ts = None -> merged ts = empty_blocks -> Forall2 blocks_hold (collections ts) rowss ->
  Nat.log2_up (desired_size (length (concat rowss))) <= 63 ->
  exists ts' dir chains, init_directory desired_size ts = Ok ts' /\ directory ts' = Some dir /\ remaining ts' = 0
    /\ length (collections ts') = length (collections ts) /\ concat (row_blocks (merged ts')) = concat rowss
    /\ chained (values (row_blocks (merged ts'))) hash_of (row_blocks (merged ts')) dir chains /\ concat chains = [].
Proof.
  intros Hrem Hdir Hm Hhold Hsize. unfold init_directory. rewrite Hrem, Hdir, Hm. unfold rust_assert. cbn [Nat.eqb]. unfold mbind at 1, res_bind at 1.
  set (all := fold_left merge_blocks_from (collections ts) empty_blocks).
  assert (concat (row_blocks all) = concat rowss) as Hall by (unfold all; rewrite merge_all; cbn; by apply hold_all).
  unfold new_for_num_rows. rewrite reserved_concat, Hall. unfold checked_next_power_of_two. rewrite (proj2 (Nat.leb_le _ _)) by done.
  unfold mbind at 1, res_bind at 1. rewrite bool_decide_eq_true_2 by done. unfold mbind, res_bind.
  set (cap := Nat.max _ MIN_SIZE). assert (pow2 cap) as Hcap.
  { apply pow2_max; [apply next_power_of_two_spec|]. by exists 8. }
  eexists _, (replicate cap None), (replicate cap []). cbn [directory remaining collections merged]. split_and!; try done.
  - cbn. by rewrite length_fmap.
  - by apply empty_chains.
  - clear. induction cap as [|cap IH]; [done|]. cbn. exact IH.
Qed.

(** *** Probing complete chains *)

Section Probe.
Variable mem : list (list (BuildRow V)).
Variables (dir : list (option Ptr)) (chains : list (list Ptr)).
Local Abbreviation B := (values mem).
Hypothesis Hch : chained B hash_of mem dir chains.
Hypothesis Hall : concat chains ≡ₚ ptrs_of B.
(** The rows in memory are the encoded rows of the left side. *)
Hypothesis Hrows : forall p vals, row_at B p = Some vals -> exists l, vals = encode l /\ length l = lw.
Variable rhs : list Row.
Local Abbreviation keys := (right_key <$> rhs).

Lemma probe_batch_ok : batch_ok table B rhs keys.
Proof.
  destruct table_fields as (_ & Hm & _ & Hk & _). split.
  - intros p vals (l & -> & Hl)%Hrows. rewrite Hk. apply Forall_forall. intros c Hc%elem_of_seq. unfold encode, left_key. rewrite length_app, length_fmap. lia.
  - by rewrite Hm, Hk, length_fmap, length_seq.
  - apply Forall_fmap, Forall_forall. intros r _. cbn. rewrite Hm. unfold right_key. by rewrite !length_fmap.
  - by rewrite length_fmap.
Qed.

(** A row of the batch matches the rows of the build side that it joins with. *)
Lemma row_match_joins i p l : i < length rhs -> row_at B p = Some (encode l) -> length l = lw -> row_match value_eq value_lt value_le table B keys i p = joins l (rhs !!! i).
Proof.
  intros Hi Hp Hl. unfold row_match. rewrite Hp. rewrite list_lookup_total_alt, list_lookup_fmap, (list_lookup_lookup_total_lt rhs i) by done. cbn.
  by apply keys_match_joins.
Qed.

(** The chain of the bucket of a row's hash. *)
Definition chain_of (r : Row) : list Ptr := chains !!! compute_offset_from_hash (key_hash (right_key r)) (length dir).

Lemma probe_chains (ts : TableState V) :
  directory ts = Some dir -> length rhs <= batch_size ->
  exists st, probe eval hash_one batch_size table ts rhs = Ok st /\ scan_ok B rhs keys mem st (chain_of <$> rhs)
    /\ right_matches st = replicate (length rhs) false.
Proof.
  intros Hdir Hlen. unfold probe, eval_keys. rewrite (proj2 (Nat.leb_le _ _)) by done. unfold rust_assert. unfold mbind at 1, res_bind at 1.
  unfold mbind at 1, res_bind at 1. destruct table_fields as (_ & _ & _ & _ & _ & -> & _).
  assert ((fun row => (fun e => eval e row) <$> (hc_right <$> conds)) <$> rhs = keys) as ->.
  { apply list_fmap_ext. intros _ r _. by rewrite <- list_fmap_compose. }
  assert (collect (hash_columns hash_one (equality_columns table)) keys = Ok (key_hash <$> keys)) as Hc.
  { apply collect_map. intros key (r & -> & _)%list_elem_of_fmap. apply hash_columns_spec, Forall_Forall2_diag. eapply Forall_impl; [apply equality_lt|].
    cbn. intros i Hi. split; [done|]. apply lookup_lt_is_Some. unfold right_key. by rewrite length_fmap. }
  rewrite (bind_ok _ _ _ Hc), Hdir.
  set (ent := fun h : Z => head (chains !!! compute_offset_from_hash h (length dir))).
  assert (forall h, exists c, chains !! compute_offset_from_hash h (length dir) = Some c /\ dir !! compute_offset_from_hash h (length dir) = Some (head c)
    /\ is_chain mem (head c) c) as Hent.
  { intros h. pose proof (offset_from_hash_lt h _ (ch_size _ _ _ _ _ Hch)) as Hlt. destruct (lookup_lt_is_Some_2 dir _ Hlt) as [e He].
    destruct (lookup_lt_is_Some_2 chains (compute_offset_from_hash h (length dir))) as [c Hcc]; [by rewrite (ch_length _ _ _ _ _ Hch)|]. exists c.
    pose proof (ch_chain _ _ _ _ _ Hch _ _ _ He Hcc) as Hchain. rewrite <- (is_chain_head _ _ _ Hchain). by split_and!. }
  assert (collect (fun h => index dir (compute_offset_from_hash h (length dir))) (key_hash <$> keys) = Ok (ent <$> (key_hash <$> keys))) as Hp.
  { apply collect_map. intros h _. destruct (Hent h) as (c & Hcc & He & _). apply index_Ok. unfold ent. by rewrite (list_lookup_total_correct _ _ _ Hcc). }
  rewrite (bind_ok _ _ _ Hp). eexists. split; [done|]. split; [|done].
  assert (ent <$> (key_hash <$> keys) = (fun r => head (chain_of r)) <$> rhs) as -> by (by rewrite <- !list_fmap_compose).
  split; cbn [scan_pointers join_keys selection]; rewrite ?length_fmap; try done.
  - intros i e c He Hci. rewrite list_lookup_fmap in He. rewrite list_lookup_fmap in Hci. destruct (rhs !! i) as [r|]; [|done]. injection He as <-. injection Hci as <-.
    destruct (Hent (key_hash (right_key r))) as (c & Hcc & _ & Hchain). unfold chain_of. by rewrite (list_lookup_total_correct _ _ _ Hcc).
  - apply Forall_fmap, Forall_forall. intros r _. cbn. destruct (Hent (key_hash (right_key r))) as (c & Hcc & _). unfold chain_of.
    rewrite (list_lookup_total_correct _ _ _ Hcc). apply Forall_forall. intros p Hpc. apply elem_of_ptrs. rewrite <- Hall. apply list_elem_of_In, in_concat.
    exists c. split; apply list_elem_of_In; [by eapply list_elem_of_lookup_2|done].
  - apply filter_ext_elem. intros i Hi%elem_of_seq. rewrite list_lookup_total_alt, !list_lookup_fmap. destruct (lookup_lt_is_Some_2 rhs i) as [r Hr]; [lia|].
    rewrite Hr. cbn. destruct (chain_of r); cbn; naive_solver.
Qed.

(** In its chain a row finds all rows it joins with. *)
Lemma filter_chain (j : nat) (P : Ptr -> Prop) `{forall p, Decision (P p)} :
  j < length chains -> (forall p, is_Some (row_at B p) -> P p -> bucket B hash_of (length dir) p = j) -> filter P (chains !!! j) ≡ₚ filter P (ptrs_of B).
Proof.
  intros Hj HP. rewrite <- Hall. destruct (lookup_lt_is_Some_2 chains j Hj) as [c Hc]. rewrite (list_lookup_total_correct _ _ _ Hc).
  assert (forall k cs, (forall i c', cs !! i = Some c' -> chains !! (k + i) = Some c') -> (forall i, j <> k + i \/ length cs <= i) -> filter P (concat cs) = []) as Hno.
  { intros k cs Hcs Hk. apply filter_none. intros p Hp Hpp. apply list_elem_of_In, in_concat in Hp as (c' & Hc' & Hp). apply list_elem_of_In in Hc', Hp.
    apply list_elem_of_lookup in Hc' as [i Hi]. pose proof (Hcs i c' Hi) as Hci. pose proof (ch_bucket _ _ _ _ _ Hch _ _ _ Hci Hp) as Hb.
    rewrite HP in Hb; [|apply elem_of_ptrs; rewrite <- Hall; apply list_elem_of_In, in_concat; exists c'; split; apply list_elem_of_In; [by eapply list_elem_of_lookup_2|done]|done].
    destruct (Hk i) as [?|Hge]; [done|]. apply lookup_lt_Some in Hi. lia. }
  rewrite <- (take_drop_middle chains j c Hc), concat_app. cbn [concat]. rewrite !filter_app.
  rewrite (Hno 0 (take j chains)), (Hno (S j) (drop (S j) chains)), app_nil_r; [done| | | |].
  - intros i c' Hi. by rewrite lookup_drop in Hi.
  - intros i. left. lia.
  - intros i c' Hi. apply lookup_take_Some in Hi as [Hi _]. done.
  - intros i. rewrite length_take. destruct (decide (j = 0 + i)); [right; lia|by left].
Qed.

Lemma hits_complete : hits value_eq value_lt value_le table B rhs keys (chain_of <$> rhs) ≡ₚ hits value_eq value_lt value_le table B rhs keys (replicate (length rhs) (ptrs_of B)).
Proof.
  unfold hits. assert (forall l, Forall (fun i => i < length rhs) l ->
    concat ((fun i => fmap (M:=list) (fun p => (p, i)) (filter (fun p => row_match value_eq value_lt value_le table B keys i p) ((chain_of <$> rhs) !!! i))) <$> l)
    ≡ₚ concat ((fun i => fmap (M:=list) (fun p => (p, i)) (filter (fun p => row_match value_eq value_lt value_le table B keys i p) (replicate (length rhs) (ptrs_of B) !!! i))) <$> l)) as H.
  2: { apply H, Forall_forall. intros i Hi%elem_of_seq. lia. }
  induction 1 as [|i l Hi _ IH]; [done|]. cbn [fmap list_fmap concat]. rewrite IH. apply Permutation_app_tail. apply fmap_Permutation.
  destruct (lookup_lt_is_Some_2 rhs i Hi) as [r Hr]. rewrite list_lookup_total_alt, list_lookup_fmap, Hr, lookup_total_replicate_2 by done. cbn.
  unfold chain_of. apply filter_chain; [rewrite (ch_length _ _ _ _ _ Hch); apply offset_from_hash_lt, Hch|].
  intros p [vals Hvals] Hm. destruct (Hrows p vals Hvals) as (l0 & -> & Hl0). rewrite (row_match_joins i p l0) in Hm by done.
  rewrite (list_lookup_total_correct _ _ _ Hr) in Hm. unfold bucket, phash. rewrite Hvals. cbn. rewrite hash_of_encode by done. f_equal.
  by apply joins_hash, Is_true_true.
Qed.

End Probe.

End Spec.
