(* ===== verification/HashJoinSync.v ===== *)
(** * Synchronisation of the hash join

    The control part of the operator of [HashJoin]: what the flags, counts and
    wakers say about where the build and the probe partitions are.  The
    invariant is kept by every transition, and it shows that a partition that
    waits is woken. *)
From S2P Require Import Prelude PartitionSync RowBlocks Hash HashDirectory LogicalExpr JoinConditions JoinTable HashJoin.

(** The states of the partitions without their data. *)
Inductive BTag : Type := TCollect | TFinish (is_last : bool) | TDirectory | TWait | TInsert | TInserted | TBuilt.
Inductive PTag : Type := TProbe (ready more : bool) | TDrain (ready : bool) | TProbed.

#[global] Instance BTag_eq_dec : EqDecision BTag.
Proof. solve_decision. Defined.
#[global] Instance PTag_eq_dec : EqDecision PTag.
Proof. solve_decision. Defined.

Definition btag (st : BuildState) : BTag :=
  match st with
  | Collecting => TCollect
  | Finishing l => TFinish l
  | DirectoryReady => TDirectory
  | InsertWait => TWait
  | Inserting _ => TInsert
  | HashesInserted => TInserted
  | BuildDone => TBuilt
  end.

(** A prober that probes has more input or not. *)
Definition ptag {V} (p : Prober V) : PTag :=
  match pstate p with
  | Probing ready _ _ => TProbe ready (match pinput p with [] => false | _ => true end)
  | Draining ready _ => TDrain ready
  | ProbeDone => TProbed
  end.

Definition is_collecting (t : BTag) : nat := match t with TCollect => 1 | _ => 0 end.
Definition is_initializing (t : BTag) : nat := match t with TFinish true | TDirectory => 1 | _ => 0 end.
Definition is_building (t : BTag) : nat := match t with TBuilt => 0 | _ => 1 end.
Definition is_inserting (t : BTag) : bool := match t with TInsert | TInserted | TBuilt => true | _ => false end.
Definition is_probing (t : PTag) : nat := match t with TProbe _ _ => 1 | _ => 0 end.

Record sync_inv (drains : bool) (n : nat) (dir : bool) (remaining : nat) (sh : Shared) (bt : list BTag) (pt : list PTag) : Prop := {
  sy_builders : length bt = n;
  sy_probers : length pt = n;
  (** The last partition to finish initializes the directory and says so. *)
  sy_remaining : remaining = total is_collecting bt;
  sy_initializing : total is_initializing bt = if hash_inserts_ready sh then 0 else if remaining =? 0 then 1 else 0;
  sy_ready : hash_inserts_ready sh = true -> dir = true /\ remaining = 0;
  sy_dir : dir = true -> remaining = 0;
  sy_finish : forall i, bt !! i = Some (TFinish true) -> dir = false;
  sy_directory : forall i, bt !! i = Some TDirectory -> dir = true;
  sy_published : dir = true -> hash_inserts_ready sh = true \/ exists i, bt !! i = Some TDirectory;
  sy_inserting : forall i t, bt !! i = Some t -> is_inserting t = true -> hash_inserts_ready sh = true;
  (** The table can be probed when all hashes are inserted. *)
  sy_inserters : remaining_hash_inserters sh = Some (total is_building bt);
  sy_scan : scan_ready sh = bool_decide (total is_building bt = 0);
  (** The table can be drained when it was probed. *)
  sy_count : drains = true -> remaining_probers sh = Some (total is_probing pt);
  sy_drain : drains = true -> drain_ready sh = bool_decide (total is_probing pt = 0);
  sy_drains : forall i r, pt !! i = Some (TDrain r) -> drains = true;
  sy_probe_ready : forall i m, pt !! i = Some (TProbe true m) -> scan_ready sh = true;
  sy_drain_ready : forall i, pt !! i = Some (TDrain true) -> drain_ready sh = true /\ scan_ready sh = true;
  sy_done : forall i, drains = true -> pt !! i = Some TProbed -> drain_ready sh = true /\ scan_ready sh = true;
  (** Wakers are stored only by partitions that have to wait. *)
  sy_len_inserters : length (pending_hash_inserters sh) = n;
  sy_len_probers : length (pending_probers sh) = n;
  sy_len_drainers : length (pending_drainers sh) = n;
  sy_wait_insert : forall i, pending_hash_inserters sh !! i = Some true -> bt !! i = Some TWait /\ hash_inserts_ready sh = false;
  sy_wait_probe : forall i, pending_probers sh !! i = Some true -> pt !! i = Some (TProbe false true) /\ scan_ready sh = false;
  sy_wait_drain : forall i, pending_drainers sh !! i = Some true -> pt !! i = Some (TDrain false) /\ drain_ready sh && scan_ready sh = false;
}.

Lemma woken w i : wake_all w !! i = Some true -> False.
Proof. unfold wake_all. rewrite list_lookup_fmap. destruct (w !! i); [|done]. done. Qed.

Lemma woken_length w : length (wake_all w) = length w.
Proof. apply length_fmap. Qed.

(** Looking up a list in which one entry was replaced. *)
Lemma lookup_set {A} (l : list A) i j x y : <[i := x]> l !! j = Some y -> (i = j /\ y = x) \/ (i <> j /\ l !! j = Some y).
Proof. intros [(-> & -> & _)|[Hne Hj]]%list_lookup_insert_Some; [by left|by right]. Qed.

(** Case analysis on the entries of updated lists. *)
Ltac looked_up :=
  repeat match goal with
  | H : <[_ := _]> _ !! _ = Some _ |- _ => apply lookup_set in H as [[? ?]|[? ?]]; subst; try discriminate
  | H : wake_all _ !! _ = Some true |- _ => by destruct (woken _ _ H)
  end.

Section Sync.
Variables (drains : bool) (n : nat).
Implicit Types (dir : bool) (rem : nat) (sh : Shared) (bt : list BTag) (pt : list PTag).
Local Abbreviation sync := (sync_inv drains n).

(** *** The build side *)

Lemma sync_finish dir rem sh bt pt i :
  sync dir rem sh bt pt -> bt !! i = Some TCollect ->
  rem <> 0 /\ sync dir (rem - 1) sh (<[i := TFinish (rem =? 1)]> bt) pt.
Proof.
  intros [] Hi. pose proof (total_insert is_collecting bt i TCollect (TFinish (rem =? 1)) Hi) as H1. pose proof (total_lookup is_collecting bt i TCollect Hi) as H1'.
  pose proof (total_insert is_initializing bt i TCollect (TFinish (rem =? 1)) Hi) as H2. pose proof (total_insert is_building bt i TCollect (TFinish (rem =? 1)) Hi) as H3.
  cbn in H1, H1', H3. assert (rem <> 0) as Hrem by lia. assert (hash_inserts_ready sh = false) as Hr.
  { destruct (hash_inserts_ready sh) eqn:Hr; [|done]. destruct (sy_ready0 eq_refl). lia. }
  split; [done|]. split; rewrite ?length_insert; try done.
  - lia.
  - rewrite Hr in *. rewrite (proj2 (Nat.eqb_neq rem 0)) in sy_initializing0 by done. destruct (Nat.eqb_spec rem 1) as [->|Hne]; cbn in *; [lia|].
    rewrite (proj2 (Nat.eqb_neq (rem - 1) 0)) by lia. lia.
  - by rewrite Hr.
  - intros Hd. specialize (sy_dir0 Hd). lia.
  - intros j Hj. looked_up; [|by eapply sy_finish0]. destruct dir; [|done]. by specialize (sy_dir0 eq_refl).
  - intros j Hj. looked_up. by eapply sy_directory0.
  - intros Hd. by specialize (sy_dir0 Hd).
  - intros j t Hj Ht. looked_up. by eapply sy_inserting0.
  - rewrite sy_inserters0. f_equal. lia.
  - rewrite sy_scan0. apply bool_decide_ext. lia.
  - intros j Hj. destruct (sy_wait_insert0 j Hj) as [Hjt Hrd]. split; [|done]. rewrite list_lookup_insert_ne; [done|]. intros ->. by rewrite Hi in Hjt.
Qed.

Lemma sync_init dir rem sh bt pt i :
  sync dir rem sh bt pt -> bt !! i = Some (TFinish true) -> rem = 0 /\ dir = false /\ sync true rem sh (<[i := TDirectory]> bt) pt.
Proof.
  intros [] Hi. pose proof (total_insert is_collecting bt i _ TDirectory Hi) as H1. pose proof (total_insert is_initializing bt i _ TDirectory Hi) as H2.
  pose proof (total_lookup is_initializing bt i _ Hi) as H2'. pose proof (total_insert is_building bt i _ TDirectory Hi) as H3. cbn in *.
  assert (hash_inserts_ready sh = false /\ rem = 0) as [Hr Hrem].
  { destruct (hash_inserts_ready sh); [lia|]. destruct (Nat.eqb_spec rem 0); [done|lia]. }
  assert (dir = false) as Hd by by eapply sy_finish0. split_and!; [done|done|]. split; rewrite ?length_insert; try done.
  - lia.
  - by rewrite Hr, Hrem in *; cbn in *; lia.
  - intros j Hj. looked_up. assert (i = j) as ->; [|done]. destruct (decide (i = j)) as [|Hne]; [done|].
    pose proof (total_lookup is_initializing (<[i := TDirectory]> bt) i TDirectory) as Ha. rewrite list_lookup_insert_eq in Ha by (by eapply lookup_lt_Some).
    pose proof (total_insert is_initializing bt j _ TWait ltac:(eassumption)) as Hb. pose proof (total_lookup is_initializing (<[j := TWait]> bt) i (TFinish true)) as Hc.
    rewrite list_lookup_insert_ne in Hc by done. specialize (Hc Hi). rewrite Hr, Hrem in sy_initializing0. cbn in *. lia.
  - intros _. right. exists i. apply list_lookup_insert_eq. by eapply lookup_lt_Some.
  - intros j t Hj Ht. looked_up. by eapply sy_inserting0.
  - rewrite sy_inserters0. f_equal. lia.
  - rewrite sy_scan0. apply bool_decide_ext. lia.
  - intros j Hj. destruct (sy_wait_insert0 j Hj) as [Hjt Hrd]. split; [|done]. rewrite list_lookup_insert_ne; [done|]. intros ->. by rewrite Hi in Hjt.
Qed.

Lemma sync_publish dir rem sh bt pt i :
  sync dir rem sh bt pt -> bt !! i = Some TDirectory -> sync dir rem (publish_directory sh) (<[i := TWait]> bt) pt.
Proof.
  intros [] Hi. pose proof (total_insert is_collecting bt i _ TWait Hi) as H1. pose proof (total_insert is_initializing bt i _ TWait Hi) as H2.
  pose proof (total_lookup is_initializing bt i _ Hi) as H2'. pose proof (total_insert is_building bt i _ TWait Hi) as H3. cbn in *.
  assert (hash_inserts_ready sh = false /\ rem = 0) as [Hr Hrem].
  { destruct (hash_inserts_ready sh); [lia|]. destruct (Nat.eqb_spec rem 0); [done|lia]. }
  assert (dir = true) as Hd by by eapply sy_directory0. rewrite Hr, Hrem in *. cbn in *.
  split; cbn; rewrite ?length_insert, ?woken_length; try done.
  - lia.
  - lia.
  - intros j Hj. looked_up. by eapply sy_finish0.
  - intros _. by left.
  - rewrite sy_inserters0. f_equal. lia.
  - rewrite sy_scan0. apply bool_decide_ext. lia.
  - intros j Hj. looked_up.
Qed.

(** A partition that finishes and is not the last waits, or sees that the
    directory is there. *)
Lemma sync_check_finish dir rem sh bt pt i :
  sync dir rem sh bt pt -> bt !! i = Some (TFinish false) ->
  exists ready sh', check_insert sh i = Ok (ready, sh') /\ sync dir rem sh' (<[i := TWait]> bt) pt.
Proof.
  intros [] Hi. pose proof (total_insert is_collecting bt i _ TWait Hi) as H1. pose proof (total_insert is_initializing bt i _ TWait Hi) as H2.
  pose proof (total_insert is_building bt i _ TWait Hi) as H3. cbn in *. unfold check_insert, store_waker.
  assert (i < length (pending_hash_inserters sh)) as Hlt by (rewrite sy_len_inserters0, <- sy_builders0; by eapply lookup_lt_Some).
  rewrite (proj2 (Nat.ltb_lt _ _)) by done. destruct (hash_inserts_ready sh) eqn:Hr; (eexists _, _; split; [done|]); split; cbn; rewrite ?length_insert, ?Hr; try done; try lia;
    try (rewrite sy_inserters0; f_equal; lia); try (rewrite sy_scan0; apply bool_decide_ext; lia).
  - intros j Hj. looked_up. by eapply sy_finish0.
  - intros j Hj. looked_up. by eapply sy_directory0.
  - intros j Hj. destruct (sy_wait_insert0 j Hj) as [_ ?]. done.
  - intros j Hj. looked_up. by eapply sy_finish0.
  - intros j Hj. looked_up. by eapply sy_directory0.
  - intros Hd. right. destruct (sy_published0 Hd) as [?|[j Hj]]; [done|]. exists j. rewrite list_lookup_insert_ne; [done|]. intros ->. by rewrite Hi in Hj.
  - intros j t Hj Ht. looked_up. by eapply sy_inserting0.
  - intros j Hj. split; [|done]. destruct (decide (i = j)) as [<-|Hne]; [apply list_lookup_insert_eq; rewrite sy_builders0, <- sy_len_inserters0; done|].
    rewrite list_lookup_insert_ne in Hj by done. rewrite list_lookup_insert_ne by done. by apply sy_wait_insert0.
Qed.

Lemma sync_check_insert dir rem sh bt pt i :
  sync dir rem sh bt pt -> bt !! i = Some TWait ->
  exists ready sh', check_insert sh i = Ok (ready, sh') /\ ready = hash_inserts_ready sh /\ sync dir rem sh' (<[i := if ready : bool then TInsert else TWait]> bt) pt
    /\ (ready = false -> pending_hash_inserters sh' = <[i := true]> (pending_hash_inserters sh)) /\ (ready = true -> sh' = sh)
    /\ pending_probers sh' = pending_probers sh /\ pending_drainers sh' = pending_drainers sh.
Proof.
  intros [] Hi. unfold check_insert, store_waker.
  assert (i < length (pending_hash_inserters sh)) as Hlt by (rewrite sy_len_inserters0, <- sy_builders0; by eapply lookup_lt_Some).
  rewrite (proj2 (Nat.ltb_lt _ _)) by done. destruct (hash_inserts_ready sh) eqn:Hr; (eexists _, _; split; [done|split; [done|split; [|by split_and!]]]).
  - pose proof (total_insert is_collecting bt i _ TInsert Hi) as H1. pose proof (total_insert is_initializing bt i _ TInsert Hi) as H2.
    pose proof (total_insert is_building bt i _ TInsert Hi) as H3. cbn in *.
    split; rewrite ?length_insert, ?Hr; try done; try lia; try (rewrite sy_inserters0; f_equal; lia); try (rewrite sy_scan0; apply bool_decide_ext; lia).
    + intros j Hj. looked_up. by eapply sy_finish0.
    + intros j Hj. looked_up. by eapply sy_directory0.
    + intros j Hj. by destruct (sy_wait_insert0 j Hj) as [_ ?].
  - rewrite (list_insert_id bt i TWait) by done. split; cbn; rewrite ?length_insert, ?Hr; try done.
    intros j Hj. split; [|done]. destruct (decide (i = j)) as [<-|Hne]; [done|]. rewrite list_lookup_insert_ne in Hj by done. by apply sy_wait_insert0.
Qed.

Lemma sync_inserted dir rem sh bt pt i : sync dir rem sh bt pt -> bt !! i = Some TInsert -> sync dir rem sh (<[i := TInserted]> bt) pt.
Proof.
  intros [] Hi. pose proof (total_insert is_collecting bt i _ TInserted Hi) as H1. pose proof (total_insert is_initializing bt i _ TInserted Hi) as H2.
  pose proof (total_insert is_building bt i _ TInserted Hi) as H3. cbn in *.
  split; rewrite ?length_insert; try done; try lia; try (rewrite sy_inserters0; f_equal; lia); try (rewrite sy_scan0; apply bool_decide_ext; lia).
  - intros j Hj. looked_up. by eapply sy_finish0.
  - intros j Hj. looked_up. by eapply sy_directory0.
  - intros Hd. left. by eapply sy_inserting0.
  - intros j t Hj Ht. by eapply sy_inserting0.
  - intros j Hj. destruct (sy_wait_insert0 j Hj) as [Hjt Hrd]. split; [|done]. rewrite list_lookup_insert_ne; [done|]. intros ->. by rewrite Hi in Hjt.
Qed.

Lemma sync_built dir rem sh bt pt i :
  sync dir rem sh bt pt -> bt !! i = Some TInserted ->
  exists sh', finish_insert sh = Ok sh' /\ sync dir rem sh' (<[i := TBuilt]> bt) pt
    /\ scan_ready sh' = bool_decide (total is_building bt = 1) /\ pending_hash_inserters sh' = pending_hash_inserters sh /\ drain_ready sh' = drain_ready sh.
Proof.
  intros [] Hi. pose proof (total_insert is_collecting bt i _ TBuilt Hi) as H1. pose proof (total_insert is_initializing bt i _ TBuilt Hi) as H2.
  pose proof (total_insert is_building bt i _ TBuilt Hi) as H3. pose proof (total_lookup is_building bt i _ Hi) as H3'. cbn in *.
  assert (hash_inserts_ready sh = true) as Hr by by eapply sy_inserting0.
  assert (scan_ready sh = false) as Hsc by (rewrite sy_scan0; apply bool_decide_eq_false_2; lia).
  unfold finish_insert. rewrite sy_inserters0. destruct (total is_building bt) as [|k] eqn:Hk; [lia|]. cbn. assert (total is_building (<[i := TBuilt]> bt) = k) as Hk' by lia.
  destruct k as [|k]; [rewrite bool_decide_eq_true_2 by done|rewrite bool_decide_eq_false_2 by done]; (eexists; split; [done|]); (split; [|split_and!; [|done|done]]; [|cbn]).
  2: by rewrite bool_decide_eq_true_2. 3: by rewrite Hsc, bool_decide_eq_false_2 by lia.
  - split; cbn; rewrite ?length_insert, ?woken_length, ?Hr, ?Hk'; try done; try lia.
    + by rewrite Hr in *; lia.
    + intros _. by apply sy_ready0.
    + intros j Hj. looked_up. by eapply sy_finish0.
    + intros j Hj. looked_up. by eapply sy_directory0.
    + intros j Hj. destruct (sy_drain_ready0 j Hj). done.
    + intros j Hdr Hj. destruct (sy_done0 j Hdr Hj). done.
    + intros j Hj. destruct (sy_wait_insert0 j Hj) as [_ ?]. congruence.
    + intros j Hj. looked_up.
    + intros j Hj. looked_up.
  - split; cbn; rewrite ?length_insert, ?Hr, ?Hk'; try done; try lia; try (rewrite Hsc; symmetry; by apply bool_decide_eq_false_2).
    + by rewrite Hr in *; lia.
    + intros _. by apply sy_ready0.
    + intros j Hj. looked_up. by eapply sy_finish0.
    + intros j Hj. looked_up. by eapply sy_directory0.
    + intros j Hj. destruct (sy_wait_insert0 j Hj) as [_ ?]. congruence.
Qed.

(** *** The probe side *)

Lemma sync_more dir rem sh bt pt i m m' : sync dir rem sh bt pt -> pt !! i = Some (TProbe true m) -> sync dir rem sh bt (<[i := TProbe true m']> pt).
Proof.
  intros [] Hi. pose proof (total_insert is_probing pt i _ (TProbe true m') Hi) as H1. cbn in *. assert (scan_ready sh = true) as Hs by by eapply sy_probe_ready0.
  split; rewrite ?length_insert; try done.
  - intros Hd. rewrite sy_count0 by done. f_equal. lia.
  - intros Hd. rewrite sy_drain0 by done. apply bool_decide_ext. lia.
  - intros j r Hj. looked_up. by eapply sy_drains0.
  - intros j Hj. looked_up. by eapply sy_drain_ready0.
  - intros j Hd Hj. looked_up. by eapply sy_done0.
  - intros j Hj. destruct (sy_wait_probe0 j Hj) as [_ ?]. congruence.
  - intros j Hj. destruct (sy_wait_drain0 j Hj) as [Hjt ?]. split; [|done]. rewrite list_lookup_insert_ne; [done|]. intros ->. by rewrite Hi in Hjt.
Qed.

Lemma sync_check_probe dir rem sh bt pt i :
  sync dir rem sh bt pt -> pt !! i = Some (TProbe false true) ->
  exists ready sh', check_probe sh i = Ok (ready, sh') /\ ready = scan_ready sh /\ sync dir rem sh' bt (<[i := TProbe ready true]> pt)
    /\ scan_ready sh' = scan_ready sh /\ (ready = false -> pending_probers sh' = <[i := true]> (pending_probers sh)) /\ (ready = true -> sh' = sh)
    /\ pending_hash_inserters sh' = pending_hash_inserters sh /\ pending_drainers sh' = pending_drainers sh.
Proof.
  intros [] Hi. unfold check_probe, store_waker.
  assert (i < length (pending_probers sh)) as Hlt by (rewrite sy_len_probers0, <- sy_probers0; by eapply lookup_lt_Some).
  rewrite (proj2 (Nat.ltb_lt _ _)) by done. destruct (scan_ready sh) eqn:Hr; (eexists _, _; split; [done|split; [done|split; [|by split_and!]]]).
  - pose proof (total_insert is_probing pt i _ (TProbe true true) Hi) as H1. cbn in *. split; rewrite ?length_insert, ?Hr; try done.
    + intros Hd. rewrite sy_count0 by done. f_equal. lia.
    + intros Hd. rewrite sy_drain0 by done. apply bool_decide_ext. lia.
    + intros j r Hj. looked_up. by eapply sy_drains0.
    + intros j Hj. looked_up. by eapply sy_drain_ready0.
    + intros j Hd Hj. looked_up. by eapply sy_done0.
    + intros j Hj. by destruct (sy_wait_probe0 j Hj) as [_ ?].
    + intros j Hj. destruct (sy_wait_drain0 j Hj) as [Hjt ?]. split; [|done]. rewrite list_lookup_insert_ne; [done|]. intros ->. by rewrite Hi in Hjt.
  - rewrite (list_insert_id pt i) by done. split; cbn; rewrite ?length_insert, ?Hr; try done.
    intros j Hj. split; [|done]. destruct (decide (i = j)) as [<-|Hne]; [done|]. rewrite list_lookup_insert_ne in Hj by done. by apply sy_wait_probe0.
Qed.

Lemma join_sync_finalize {V E} (table : JoinHashTable E) dir rem sh bt pt i r :
  drains = needs_drain (join_type table) -> sync dir rem sh bt pt -> pt !! i = Some (TProbe r false) ->
  exists sh', finalize_probe table i sh = Ok (sh', if drains then Draining (V:=V) false (create_drain_state i) else ProbeDone)
    /\ sync dir rem sh' bt (<[i := if drains then TDrain false else TProbed]> pt)
    /\ scan_ready sh' = scan_ready sh /\ pending_hash_inserters sh' = pending_hash_inserters sh /\ pending_probers sh' = pending_probers sh
    /\ (drains = false -> sh' = sh).
Proof.
  intros Hdr [] Hi. unfold finalize_probe. rewrite <- Hdr. destruct drains eqn:Hd.
  - pose proof (total_insert is_probing pt i _ (TDrain false) Hi) as H1. pose proof (total_lookup is_probing pt i _ Hi) as H1'. cbn in *.
    rewrite sy_count0 by done. assert (drain_ready sh = false) as Hnd by (rewrite sy_drain0 by done; apply bool_decide_eq_false_2; lia).
    destruct (total is_probing pt) as [|k] eqn:Hk; [lia|]. cbn. assert (total is_probing (<[i := TDrain false]> pt) = k) as Hk' by lia.
    destruct k as [|k]; [rewrite bool_decide_eq_true_2 by done|rewrite bool_decide_eq_false_2 by done]; (eexists; split; [done|]); (split; [|by split_and!]);
      split; cbn; rewrite ?length_insert, ?woken_length, ?Hk'; try done.
    + intros j m Hj. looked_up. by eapply sy_probe_ready0.
    + intros j Hj. looked_up. destruct (sy_drain_ready0 j ltac:(eassumption)). congruence.
    + intros j _ Hj. looked_up. destruct (sy_done0 j eq_refl ltac:(eassumption)). congruence.
    + intros j Hj. destruct (sy_wait_probe0 j Hj) as [Hjt ?]. split; [|done]. rewrite list_lookup_insert_ne; [done|]. intros ->. by rewrite Hi in Hjt.
    + intros j Hj. looked_up.
    + intros j m Hj. looked_up. by eapply sy_probe_ready0.
    + intros j Hj. looked_up. destruct (sy_drain_ready0 j ltac:(eassumption)). congruence.
    + intros j _ Hj. looked_up. destruct (sy_done0 j eq_refl ltac:(eassumption)). congruence.
    + intros j Hj. destruct (sy_wait_probe0 j Hj) as [Hjt ?]. split; [|done]. rewrite list_lookup_insert_ne; [done|]. intros ->. by rewrite Hi in Hjt.
    + intros j Hj. destruct (sy_wait_drain0 j Hj) as [Hjt ?]. split; [|done]. rewrite list_lookup_insert_ne; [done|]. intros ->. by rewrite Hi in Hjt.
  - exists sh. split; [done|]. split; [|by split_and!]. split; rewrite ?length_insert; try done.
    + intros j r' Hj. looked_up. by eapply sy_drains0.
    + intros j m Hj. looked_up. by eapply sy_probe_ready0.
    + intros j Hj. looked_up. by eapply sy_drain_ready0.
    + intros j Hj. destruct (sy_wait_probe0 j Hj) as [Hjt ?]. split; [|done]. rewrite list_lookup_insert_ne; [done|]. intros ->. by rewrite Hi in Hjt.
    + intros j Hj. destruct (sy_wait_drain0 j Hj) as [Hjt ?]. by specialize (sy_drains0 j false Hjt).
Qed.

Lemma sync_check_drain dir rem sh bt pt i :
  sync dir rem sh bt pt -> pt !! i = Some (TDrain false) ->
  exists ready sh', check_drain sh i = Ok (ready, sh') /\ ready = drain_ready sh && scan_ready sh /\ sync dir rem sh' bt (<[i := TDrain ready]> pt)
    /\ scan_ready sh' = scan_ready sh /\ drain_ready sh' = drain_ready sh
    /\ (ready = false -> pending_drainers sh' = <[i := true]> (pending_drainers sh)) /\ (ready = true -> sh' = sh)
    /\ pending_hash_inserters sh' = pending_hash_inserters sh /\ pending_probers sh' = pending_probers sh.
Proof.
  intros [] Hi. unfold check_drain, store_waker.
  assert (i < length (pending_drainers sh)) as Hlt by (rewrite sy_len_drainers0, <- sy_probers0; by eapply lookup_lt_Some).
  rewrite (proj2 (Nat.ltb_lt _ _)) by done. destruct (drain_ready sh && scan_ready sh) eqn:Hr; (eexists _, _; split; [done|split; [done|split; [|by split_and!]]]).
  - apply andb_true_iff in Hr as [Hd Hs]. pose proof (total_insert is_probing pt i _ (TDrain true) Hi) as H1. cbn in *. split; rewrite ?length_insert; try done.
    + intros Hdr. rewrite sy_count0 by done. f_equal. lia.
    + intros Hdr. rewrite sy_drain0 by done. apply bool_decide_ext. lia.
    + intros j r Hj. looked_up; by eapply sy_drains0.
    + intros j Hj. destruct (sy_wait_probe0 j Hj) as [_ ?]. congruence.
    + intros j Hj. by destruct (sy_wait_drain0 j Hj) as [_ Hf].
  - rewrite (list_insert_id pt i) by done. split; cbn; rewrite ?length_insert; try done.
    intros j Hj. split; [|done]. destruct (decide (i = j)) as [<-|Hne]; [done|]. rewrite list_lookup_insert_ne in Hj by done. by apply sy_wait_drain0.
Qed.

Lemma sync_drained dir rem sh bt pt i : sync dir rem sh bt pt -> pt !! i = Some (TDrain true) -> sync dir rem sh bt (<[i := TProbed]> pt).
Proof.
  intros [] Hi. pose proof (total_insert is_probing pt i _ TProbed Hi) as H1. cbn in *. destruct (sy_drain_ready0 i Hi) as [Hd Hs]. split; rewrite ?length_insert; try done.
  - intros Hdr. rewrite sy_count0 by done. f_equal. lia.
  - intros Hdr. rewrite sy_drain0 by done. apply bool_decide_ext. lia.
  - intros j r Hj. looked_up. by eapply sy_drains0.
  - intros j Hj. destruct (sy_wait_probe0 j Hj) as [_ ?]. congruence.
  - intros j Hj. destruct (sy_wait_drain0 j Hj) as [_ Hf]. by rewrite Hd, Hs in Hf.
Qed.

(** *** No partition waits for ever *)

Definition build_blocked (sh : Shared) (i : nat) (t : BTag) : bool :=
  match t with TWait => parked (pending_hash_inserters sh) i | TBuilt => true | _ => false end.

Definition probe_blocked (sh : Shared) (i : nat) (t : PTag) : bool :=
  match t with TProbe false true => parked (pending_probers sh) i | TDrain false => parked (pending_drainers sh) i | TProbed => true | _ => false end.

Lemma parked_true w i : parked w i = true -> w !! i = Some true.
Proof. unfold parked. destruct (w !! i) as [[]|]; done. Qed.

(** When every partition is blocked, all have finished. *)
Lemma all_blocked_finished dir rem sh bt pt :
  sync dir rem sh bt pt -> (forall i t, bt !! i = Some t -> build_blocked sh i t = true) -> (forall i t, pt !! i = Some t -> probe_blocked sh i t = true) ->
  Forall (eq TBuilt) bt /\ Forall (eq TProbed) pt.
Proof.
  intros [] Hb Hp. assert (Forall (eq TBuilt) bt) as Hbuilt.
  { apply Forall_lookup. intros i t Ht. pose proof (Hb i t Ht) as Hbl. destruct t; try done. exfalso. cbn in Hbl. apply parked_true in Hbl.
    destruct (sy_wait_insert0 i Hbl) as [_ Hr]. rewrite Hr in sy_initializing0.
    assert (rem = 0) as ->.
    { destruct (decide (rem = 0)) as [|Hne]; [done|]. destruct (total_pos is_collecting bt) as (j & t & Hj & Hc); [lia|]. pose proof (Hb j t Hj). destruct t; cbn in Hc; lia || done. }
    cbn in sy_initializing0. destruct (total_pos is_initializing bt) as (j & t & Hj & Hc); [lia|]. pose proof (Hb j t Hj). destruct t as [|[]| | | | |]; cbn in Hc; lia || done. }
  split; [done|]. assert (total is_building bt = 0) as Hz.
  { destruct (decide (total is_building bt = 0)) as [|Hne]; [done|]. destruct (total_pos is_building bt) as (j & t & Hj & Hc); [lia|].
    pose proof (Forall_lookup_1 _ _ _ _ Hbuilt Hj) as <-. cbn in Hc. lia. }
  assert (scan_ready sh = true) as Hs by (rewrite sy_scan0; by apply bool_decide_eq_true_2).
  assert (forall i r m, pt !! i = Some (TProbe r m) -> False) as Hnp.
  { intros i r m Hi. pose proof (Hp i _ Hi) as Hbl. destruct r, m; try done. cbn in Hbl. apply parked_true in Hbl. destruct (sy_wait_probe0 i Hbl). congruence. }
  apply Forall_lookup. intros i t Ht. pose proof (Hp i t Ht) as Hbl. destruct t as [r m|r|]; [by destruct (Hnp _ _ _ Ht)| |done]. exfalso.
  destruct r; [done|]. cbn in Hbl. apply parked_true in Hbl. destruct (sy_wait_drain0 i Hbl) as [_ Hf]. rewrite Hs, andb_true_r in Hf.
  rewrite (sy_drain0 (sy_drains0 _ _ Ht)) in Hf. apply bool_decide_eq_false in Hf. destruct (total_pos is_probing pt) as (j & t & Hj & Hc); [lia|].
  destruct t as [r m| |]; cbn in Hc; try lia. by eapply Hnp.
Qed.

(** *** Creation *)

Lemma join_sync_create (m : list bool) :
  0 < n -> length m = n ->
  sync false n (mkShared false false false (Some n) (Some n) (replicate n false) (replicate n false) (replicate n false))
    (replicate n TCollect) (TProbe false <$> m).
Proof.
  intros Hn Hm. assert (forall f : BTag -> nat, total f (replicate n TCollect) = n * f TCollect) as Ht.
  { intros f. unfold total. rewrite fmap_replicate. clear. induction n as [|k IH]; [done|]. cbn. rewrite IH. lia. }
  assert (total is_probing (TProbe false <$> m) = n) as Hp.
  { unfold total. rewrite <- list_fmap_compose. rewrite <- Hm. clear. induction m as [|x m IH]; [done|]. cbn in *. by rewrite IH. }
  assert (forall i t, replicate n TCollect !! i = Some t -> t = TCollect) as Hl by (intros i t [-> _]%lookup_replicate; done).
  assert (forall i t, (TProbe false <$> m) !! i = Some t -> exists b, t = TProbe false b) as Hlp.
  { intros i t Hi. rewrite list_lookup_fmap in Hi. apply fmap_Some in Hi as (b & _ & ->). by exists b. }
  split; cbn; rewrite ?length_replicate, ?length_fmap, ?Ht, ?Hp; cbn [is_collecting is_initializing is_building]; rewrite ?Nat.mul_1_r, ?Nat.mul_0_r; try done;
    try (intros _; symmetry; apply bool_decide_eq_false_2; lia).
  - by rewrite (proj2 (Nat.eqb_neq n 0)) by lia.
  - by intros i [= ]%Hl.
  - intros i t ->%Hl. done.
  - symmetry. apply bool_decide_eq_false_2. lia.
  - intros i r (b & [=])%Hlp.
  - intros i b' (b & [=])%Hlp.
  - intros i (b & [=])%Hlp.
  - intros i _ (b & [=])%Hlp.
  - intros i [[=] _]%lookup_replicate.
  - intros i [[=] _]%lookup_replicate.
  - intros i [[=] _]%lookup_replicate.
Qed.

End Sync.

(** *** Schedules *)

(** What the synchronization alone says of the schedules of any join type. *)
Section Schedules.
Context {V E : Type}.
Local Abbreviation Row := (list (option V)).
Variable eval : E -> Row -> option V.
Variable hash_one : V -> Z.
Variables value_eq value_lt value_le : V -> V -> bool.
Variable bool_value : bool -> V.
Variable heap_size : option (Row -> nat).
Variable desired_size : nat -> nat.
Variable batch_size : nat.
Variable op : PhysicalHashJoin E.
Variable table : JoinHashTable E.
Implicit Types (ts : TableState V) (sh : Shared) (b : Builder V) (p : Prober V) (s : System V).

Local Abbreviation run := (system_step eval hash_one value_eq value_lt value_le bool_value heap_size desired_size batch_size op table).
Local Abbreviation is_built ts := (bool_decide (directory ts <> None)).
Local Abbreviation sync := (sync_inv (needs_drain (join_type table))).

Definition synchronized (n : nat) s : Prop :=
  sync n (is_built (table_state s)) (remaining (table_state s)) (shared s) (btag ∘ bstate <$> builders s) (ptag <$> probers s).

Lemma btag_lookup s i b : builders s !! i = Some b -> (btag ∘ bstate <$> builders s) !! i = Some (btag (bstate b)).
Proof. intros Hi. by rewrite list_lookup_fmap, Hi. Qed.

Lemma ptag_lookup s i p : probers s !! i = Some p -> (ptag <$> probers s) !! i = Some (ptag p).
Proof. intros Hi. by rewrite list_lookup_fmap, Hi. Qed.

Lemma build_step_sync n idx ts sh b ts' sh' b' bt pt :
  build_step eval hash_one heap_size desired_size batch_size table idx ts sh b = Some (Ok (ts', sh', b')) ->
  bt !! idx = Some (btag (bstate b)) -> sync n (is_built ts) (remaining ts) sh bt pt ->
  sync n (is_built ts') (remaining ts') sh' (<[idx := btag (bstate b')]> bt) pt.
Proof.
  unfold build_step. intros Hstep Hidx Hs. destruct (bstate b) as [|[]| | |ins| |]; cbn [btag] in Hidx.
  - destruct (binput b) as [|batch rest]; injection Hstep as Hstep.
    + destruct (sync_finish _ _ _ _ _ _ _ _ Hs Hidx) as [Hr Hs']. revert Hstep. unfold finish_build, rust_assert.
      rewrite (proj2 (Nat.eqb_neq _ 0)) by done. cbn. by intros [= <- <- <-].
    + apply bind_Ok_inv in Hstep as (ts1 & (keys & _ & (rows & _ & (blocks & _ & (blocks' & _ & Hts)%bind_Ok_inv)%bind_Ok_inv)%bind_Ok_inv)%bind_Ok_inv & Hstep).
      injection Hts as <-. injection Hstep as <- <- <-. cbn. by rewrite list_insert_id.
  - injection Hstep as Hstep. destruct (sync_init _ _ _ _ _ _ _ _ Hs Hidx) as (Hr & _ & Hs').
    apply bind_Ok_inv in Hstep as (ts1 & (u & _ & (dir & _ & (u' & _ & Hts)%bind_Ok_inv)%bind_Ok_inv)%bind_Ok_inv & Hstep).
    injection Hts as <-. by injection Hstep as <- <- <-.
  - injection Hstep as Hstep. destruct (sync_check_finish _ _ _ _ _ _ _ _ Hs Hidx) as (ready & sh1 & Hc & Hs'). revert Hstep. rewrite Hc. cbn. by intros [= <- <- <-].
  - injection Hstep as <- <- <-. by apply sync_publish.
  - destruct (parked _ idx); [done|]. injection Hstep as Hstep. destruct (sync_check_insert _ _ _ _ _ _ _ _ Hs Hidx) as (ready & sh1 & Hc & _ & Hs' & _).
    revert Hstep. rewrite Hc. cbn. intros [= <- <- <-]. by destruct ready.
  - injection Hstep as Hstep. revert Hstep. unfold process_step. destruct (directory ts) as [dir|] eqn:Hd; [|done].
    destruct (todo ins) as [|[hash row_ptr] rest].
    + destruct (scan_subset _ _ _) as [[scan' rows]| |]; [|done..]. cbn. destruct (length rows =? 0); cbn; [|destruct (collect _ _) as [hashes| |]; [|done..]; cbn];
        intros [= <- <- <-]; rewrite Hd; cbn [btag bstate]; [by apply sync_inserted|by rewrite list_insert_id].
    + destruct (insert_step _ _ _ _ _ _) as [[[mem' dir'] ins']| |]; [|done..]. cbn. intros [= <- <- <-]. cbn. by rewrite list_insert_id.
  - injection Hstep as Hstep. destruct (sync_built _ _ _ _ _ _ _ _ Hs Hidx) as (sh1 & Hf & Hs' & _). revert Hstep. rewrite Hf. cbn. by intros [= <- <- <-].
  - done.
Qed.

Lemma probe_step_sync n idx ts sh p ts' sh' p' bt pt :
  probe_step eval hash_one value_eq value_lt value_le bool_value batch_size op table idx ts sh p = Some (Ok (ts', sh', p')) ->
  pt !! idx = Some (ptag p) -> sync n (is_built ts) (remaining ts) sh bt pt ->
  sync n (is_built ts') (remaining ts') sh' bt (<[idx := ptag p']> pt).
Proof.
  unfold probe_step, ptag at 1. intros Hstep Hidx Hs. destruct (pstate p) as [ready fresh st|ready st|]; [| |done].
  - destruct (pinput p) as [|rhs rest].
    + injection Hstep as Hstep. destruct (join_sync_finalize (V:=V) _ _ table _ _ _ _ _ _ _ eq_refl Hs Hidx) as (sh1 & Hf & Hs' & _).
      revert Hstep. rewrite Hf. cbn. intros [= <- <- <-]. unfold ptag. cbn. by destruct (needs_drain _).
    + destruct ready; [|destruct (parked _ idx); [done|]]; injection Hstep as Hstep; revert Hstep.
      * unfold execute_probe. destruct (if fresh then _ else _) as [st1| |]; [|done..]. cbn. destruct (scan_next _ _ _ _ _ _ _ _) as [[[mem st2] out]| |]; [|done..]. cbn.
        intros [= <- <- <-]. cbn. unfold ptag. destruct (length out =? 0); cbn; by eapply sync_more.
      * destruct (sync_check_probe _ _ _ _ _ _ _ _ Hs Hidx) as (r1 & sh1 & Hc & _ & Hs' & _). rewrite Hc. cbn. by intros [= <- <- <-].
  - destruct ready; [|destruct (parked _ idx); [done|]]; injection Hstep as Hstep; revert Hstep.
    + destruct (drain_next _ _ _ _ _ _) as [[st' out]| |]; [|done..]. cbn. intros [= <- <- <-]. unfold ptag. destruct (length out =? 0); cbn; [by apply sync_drained|].
      by rewrite list_insert_id.
    + destruct (sync_check_drain _ _ _ _ _ _ _ _ Hs Hidx) as (r1 & sh1 & Hc & _ & Hs' & _). rewrite Hc. cbn. by intros [= <- <- <-].
Qed.

(** Every step keeps the synchronization, whatever the data. *)
Lemma step_synchronized n t s s' : synchronized n s -> run t s = Some (Ok s') -> synchronized n s'.
Proof.
  unfold synchronized. intros Hs. destruct t as [idx|idx]; cbn [system_step].
  - destruct (builders s !! idx) as [b|] eqn:Hb; [|done]. cbn. destruct (build_step _ _ _ _ _ _ _ _ _ _) as [r|] eqn:Hstep; [|done]. cbn.
    destruct r as [[[ts' sh'] b']| |]; cbn; [|done..]. intros [= <-]. cbn. rewrite list_fmap_insert. by eapply build_step_sync; [|apply btag_lookup|].
  - destruct (probers s !! idx) as [p|] eqn:Hp; [|done]. cbn. destruct (probe_step _ _ _ _ _ _ _ _ _ _ _ _ _) as [r|] eqn:Hstep; [|done]. cbn.
    destruct r as [[[ts' sh'] p']| |]; cbn; [|done..]. intros [= <-]. cbn. rewrite list_fmap_insert. by eapply probe_step_sync; [|apply ptag_lookup|].
Qed.

(** A partition that is not blocked has a step. *)
Lemma unblocked_build s i b : builders s !! i = Some b -> build_blocked (shared s) i (btag (bstate b)) = false -> run (BuildTask i) s <> None.
Proof.
  intros Hb Hbl. cbn [system_step]. rewrite Hb. cbn. unfold build_step. unfold build_blocked, btag in Hbl.
  destruct (bstate b) as [|[]| | | | |]; try done; [by destruct (binput b)|by rewrite Hbl].
Qed.

Lemma unblocked_probe s i p : probers s !! i = Some p -> probe_blocked (shared s) i (ptag p) = false -> run (ProbeTask i) s <> None.
Proof.
  intros Hp Hbl. cbn [system_step]. rewrite Hp. cbn. unfold probe_step. unfold probe_blocked, ptag in Hbl.
  destruct (pstate p) as [[] ? ?|[] ?|]; try done; [by destruct (pinput p)|destruct (pinput p); [done|by rewrite Hbl]|by rewrite Hbl].
Qed.

(** No deadlock: unless all are finished, some partition has a step. *)
Lemma synchronized_progress n s : synchronized n s -> finished s \/ exists t r, run t s = Some r.
Proof.
  intros Hs. destruct (decide (Exists (fun i => run (BuildTask i) s <> None) (seq 0 n))) as [He|Hb].
  { right. apply Exists_exists in He as (i & _ & Hr). destruct (run (BuildTask i) s) as [r|] eqn:Hrun; [by exists (BuildTask i), r|done]. }
  destruct (decide (Exists (fun i => run (ProbeTask i) s <> None) (seq 0 n))) as [He|Hp].
  { right. apply Exists_exists in He as (i & _ & Hr). destruct (run (ProbeTask i) s) as [r|] eqn:Hrun; [by exists (ProbeTask i), r|done]. }
  rewrite Exists_exists in Hb, Hp. left. destruct (all_blocked_finished _ _ _ _ _ _ _ Hs) as [H1 H2].
  - intros i t Ht. pose proof (lookup_lt_Some _ _ _ Ht) as Hlt. rewrite (sy_builders _ _ _ _ _ _ _ Hs) in Hlt.
    rewrite list_lookup_fmap in Ht. apply fmap_Some in Ht as (b & Hb1 & ->). cbn [compose].
    destruct (build_blocked _ i _) eqn:Hbl; [done|]. destruct Hb. exists i. split; [apply elem_of_seq; lia|]. by eapply unblocked_build.
  - intros i t Ht. pose proof (lookup_lt_Some _ _ _ Ht) as Hlt. rewrite (sy_probers _ _ _ _ _ _ _ Hs) in Hlt.
    rewrite list_lookup_fmap in Ht. apply fmap_Some in Ht as (p & Hp1 & ->).
    destruct (probe_blocked _ i _) eqn:Hbl; [done|]. destruct Hp. exists i. split; [apply elem_of_seq; lia|]. by eapply unblocked_probe.
  - split.
    + apply Forall_lookup. intros i b Hb1. pose proof (Forall_lookup_1 _ _ _ _ H1 (btag_lookup s i b Hb1)) as Ht. by destruct (bstate b).
    + apply Forall_lookup. intros i p Hp1. pose proof (Forall_lookup_1 _ _ _ _ H2 (ptag_lookup s i p Hp1)) as Ht. unfold ptag in Ht. by destruct (pstate p).
Qed.

(** *** The start *)

Definition new_system (lefts rights : list (list (list Row))) : System V :=
  let n := length lefts in
  mkSystem (create_table_state n)
    (mkShared false false false (Some n) (Some n) (replicate n false) (replicate n false) (replicate n false))
    (mkBuilder Collecting <$> lefts) ((fun bs => mkProber (Probing false true empty_scan_state) bs []) <$> rights).

Lemma new_system_created lefts rights :
  try_new (op_join_type op) (left_types op) (conditions op) = Ok table -> MIN_PARTITION_COUNT <= length lefts <= MAX_PARTITION_COUNT ->
  length rights = length lefts -> create op lefts rights = Ok (table, new_system lefts rights).
Proof.
  intros Htable [H1 H2] Hsame. unfold create. rewrite (bind_ok _ _ _ Htable), Hsame. set (n := length lefts) in *.
  assert (count_set None n = Ok (Some n)) as Hc.
  { unfold count_set, validate_partitions. rewrite (proj2 (Nat.ltb_ge _ _)), (proj2 (Nat.ltb_ge _ _)) by done. done. }
  assert (init_for_partitions [] n = Ok (replicate n false)) as Hi.
  { unfold init_for_partitions, rust_assert. rewrite (proj2 (Nat.eqb_neq n 0)) by (unfold MIN_PARTITION_COUNT in H1; lia). done. }
  by rewrite !(bind_ok _ _ _ Hc), !(bind_ok _ _ _ Hi).
Qed.

Lemma new_system_synchronized lefts rights :
  0 < length lefts -> length rights = length lefts -> synchronized (length lefts) (new_system lefts rights).
Proof.
  intros Hn Hsame. unfold synchronized. cbn [new_system table_state shared builders probers create_table_state remaining].
  assert (btag ∘ bstate <$> (mkBuilder Collecting <$> lefts) = replicate (length lefts) TCollect) as ->.
  { rewrite <- list_fmap_compose. clear. induction lefts as [|l ls IH]; [done|]. cbn in *. by rewrite IH. }
  set (m := (fun bs : list (list Row) => match bs with [] => false | _ => true end) <$> rights).
  assert (ptag <$> ((fun bs => mkProber (Probing false true empty_scan_state) bs []) <$> rights) = TProbe false <$> m) as ->
    by (unfold m; by rewrite <- !list_fmap_compose).
  apply (join_sync_create _ (length lefts) m); [done|unfold m; by rewrite length_fmap].
Qed.

End Schedules.
