(* ===== verification/HashJoinSteps.v ===== *)
(** * The invariant of the hash join

    Every step of a build or probe partition of [HashJoin] keeps an invariant
    that says, next to the synchronisation of [HashJoinSync], what the
    partitions have done with the data: the build side has its rows in the
    collections, then in the chains of the directory or still to insert; the
    probe side has emitted what the batches it is done with join with, has
    marked the rows that were matched, and drains what is left.  Every step also
    decreases a measure. *)
From S2P Require Import Prelude PartitionSync RowBlocks Hash HashDirectory LogicalExpr JoinConditions JoinTable HashJoin JoinChains JoinProbe HashJoinSync.

Section Steps.
Context {V E : Type}.
Local Abbreviation Row := (list (option V)).
Local Abbreviation Memory := (list (list (BuildRow V))).
Variable eval : E -> Row -> option V.
Variable hash_one : V -> Z.
Variables value_eq value_lt value_le : V -> V -> bool.
Variable bool_value : bool -> V.
Variable heap_size : option (Row -> nat).
Variable desired_size : nat -> nat.
Variable batch_size : nat.
Variable op : PhysicalHashJoin E.
Variable table : JoinHashTable E.
Variables lefts rights : list (list (list Row)).

Definition all_left : list Row := concat (concat lefts).
Definition all_right : list Row := concat (concat rights).

(** A batch of the build side has its columns, fits into a batch, and its rows
    fit into a heap block. *)
Definition left_batch (batch : list Row) : Prop :=
  Forall (fun l => length l = left_types op) batch /\ length batch <= batch_size /\ heap_ok eval heap_size op batch.

Record join_input : Prop := {
  ji_partitions : MIN_PARTITION_COUNT <= length lefts <= MAX_PARTITION_COUNT;
  ji_same : length rights = length lefts;
  ji_supported : supported (op_join_type op) = true;
  ji_left : Forall (Forall left_batch) lefts;
  ji_right : Forall (Forall (fun batch => length batch <= batch_size)) rights;
  ji_size : Nat.log2_up (desired_size (length all_left)) <= 63;
}.
Hypothesis Hin : join_input.
Hypothesis Htable : try_new (op_join_type op) (left_types op) (conditions op) = Ok table.
Hypothesis hash_eq : forall a b, value_eq a b = true -> hash_one a = hash_one b.
Hypothesis batch_pos : 0 < batch_size.

Local Abbreviation n := (length lefts).
Local Abbreviation jt := (op_join_type op).
Local Abbreviation drains := (needs_drain (op_join_type op)).
Local Abbreviation needs := (needs_match_column (op_join_type op)).
Local Abbreviation key := (right_key eval op).
Local Abbreviation hash := (hash_of hash_one op table).
Local Abbreviation hits_of B rhs := (hits value_eq value_lt value_le table B rhs%list (key <$> rhs%list)).
Local Abbreviation owed_of B rhs := (owed value_eq value_lt value_le table B rhs%list (key <$> rhs%list)).

Local Abbreviation fields := (table_fields batch_size op table Htable batch_pos).

Implicit Types (mem : Memory) (B : list (list Row)) (ts : TableState V) (sh : Shared) (b : Builder V) (p : Prober V) (rhs : list Row) (g : list (list Ptr)) (q : Ptr).

Lemma n_pos : 0 < n.
Proof. pose proof (ji_partitions Hin) as [H _]. unfold MIN_PARTITION_COUNT in H. lia. Qed.

Lemma table_join_type : join_type table = jt.
Proof. by apply fields. Qed.

(** ** What a batch of the probe side is joined with *)

(** The output of a batch and the rows it marks, given the rows of the table. *)
Definition batch_out B rhs : list Row :=
  owed_of B rhs (mkScan [] (replicate (length rhs) false) [] []) (replicate (length rhs) (ptrs_of B)).

Definition batch_marks B rhs : list Ptr := (hits_of B rhs (replicate (length rhs) (ptrs_of B))).*1.

Lemma owed_perm B rhs (st st' : ScanState V) g g' :
  hits_of B rhs g ≡ₚ hits_of B rhs g' -> right_matches st = right_matches st' -> owed_of B rhs st g ≡ₚ owed_of B rhs st' g'.
Proof.
  intros Hh Hrm. unfold owed. assert (unmatched value_eq value_lt value_le table B rhs (key <$> rhs) st g = unmatched value_eq value_lt value_le table B rhs (key <$> rhs) st' g') as ->.
  { unfold unmatched. rewrite Hrm. apply filter_ext_elem. intros i _. by rewrite Hh. }
  destruct (join_type table); try done; by rewrite Hh.
Qed.

Lemma length_hits B rhs k : length (hits_of B rhs (replicate k (ptrs_of B))) <= length rhs * length (concat B).
Proof.
  assert (forall i, length (replicate k (ptrs_of B) !!! i) <= length (concat B)) as Hc.
  { intros i. rewrite list_lookup_total_alt. destruct (replicate k (ptrs_of B) !! i) as [c|] eqn:Hc; [|cbn; lia].
    apply lookup_replicate in Hc as [-> _]. cbn. by rewrite length_ptrs_of. }
  unfold hits. replace (length rhs * length (concat B)) with (length (seq 0 (length rhs)) * length (concat B)) by by rewrite length_seq.
  generalize (seq 0 (length rhs)). induction l as [|i l IH]; [cbn; lia|]. cbn [fmap list_fmap concat length]. rewrite length_app, length_fmap.
  etransitivity; [apply Nat.add_le_mono; [etransitivity; [apply length_filter|apply Hc]|exact IH]|]. lia.
Qed.

Lemma length_batch_out B rhs : length (batch_out B rhs) <= length rhs * S (length (concat B)).
Proof.
  unfold batch_out, owed. pose proof (length_hits B rhs (length rhs)) as Hh.
  destruct (join_type table); rewrite ?length_app, ?length_fmap; cbn [length]; try lia.
  unfold unmatched. cbn [right_matches]. rewrite length_replicate. pose proof (length_filter (fun i => replicate (length rhs) false !! i = Some false
    /\ i ∉ (hits_of B rhs (replicate (length rhs) (ptrs_of B))).*2) (seq 0 (length rhs))) as Hf. rewrite length_seq in Hf. lia.
Qed.

(** ** What is drained *)

Definition drain_fn : bool -> bool :=
  match jt with JoinType.LeftSemi => fun did_match => did_match | JoinType.LeftMark _ => fun _ => true | JoinType.Left => negb | _ => fun _ => false end.

Definition drain_row (r : BuildRow V) : Row :=
  let left_row := take (left_types op) (encoded r) in
  match jt with
  | JoinType.LeftMark _ => left_row ++ [bool_value <$> matched r]
  | JoinType.Left => left_row ++ replicate (right_types op) None
  | _ => left_row
  end.

Definition drained mem (st : DrainState) : list (BuildRow V) := wanted drain_fn (drain_rest n mem st).

Lemma drain_next_rows ts (st : DrainState) :
  drains = true -> length (collections ts) = n -> flags_ok table (row_blocks (merged ts)) ->
  let mem := row_blocks (merged ts) in
  exists st', drain_next bool_value batch_size table ts (right_types op) st = Ok (st', drain_row <$> take batch_size (drained mem st))
    /\ drained mem st' = drop batch_size (drained mem st).
Proof.
  intros Hd Hc Hf mem. assert (Forall (Forall (fun r => is_Some (matched r))) mem) as Hmem.
  { apply Forall_lookup. intros i block Hi. apply Forall_lookup. intros j r Hj. apply (Hf ltac:(rewrite table_join_type; generalize Hd; by destruct jt) (i, j) r).
    unfold row_at. cbn. fold mem. by rewrite Hi. }
  destruct (load_rows_spec drain_fn batch_size n n_pos (S (length mem)) mem st [] Hmem) as (st' & Hrun & Hst'); [done|lia|]. cbn [app length] in Hrun.
  rewrite Nat.sub_0_r in *. exists st'. split; [|done].
  assert (load_row_ptrs batch_size ts drain_fn st = Ok (st', take batch_size (drained mem st))) as Hload by (unfold load_row_ptrs; by rewrite Hc).
  destruct fields as (Hjt & _ & Hdc & _). unfold drain_next. rewrite Hjt, Hdc. unfold drain_row.
  generalize Hload (ji_supported Hin) Hd. unfold drain_fn at 1. destruct jt eqn:Ejt; try done; intros Hl _ _; by rewrite (bind_ok _ _ _ Hl).
Qed.

(** ** The invariant *)

(** The inserter of a build partition, also before it starts. *)
Definition start (blocks i : nat) : Inserter := mkInserter (new_partial_scan (step_by i blocks n)) [] LoadEntry.

Definition binserter (blocks i : nat) (st : BuildState) : option Inserter :=
  match st with Inserting ins => Some ins | HashesInserted | BuildDone => None | _ => Some (start blocks i) end.

Definition bpending B (i : nat) b : list Ptr := from_option (pending B) [] (binserter (length B) i (bstate b)).

(** Rows are collected: those collected and those of the batches to come are the
    rows of the partition. *)
Record collecting ts (bs : list (Builder V)) : Prop := {
  co_merged : merged ts = empty_blocks;
  co_rows : forall i blocks b, collections ts !! i = Some blocks -> bs !! i = Some b ->
    exists rows, blocks_hold blocks (new_row eval hash_one op table <$> rows) /\ rows ++ concat (binput b) = concat (lefts !!! i);
}.

(** The rows are in memory: every row is in the chain of its bucket or has still
    to be inserted by the partition it is assigned to. *)
Record inserting ts (bs : list (Builder V)) (dir : list (option Ptr)) (chains : list (list Ptr)) : Prop := {
  it_chained : chained (values (row_blocks (merged ts))) hash (row_blocks (merged ts)) dir chains;
  it_rows : concat (values (row_blocks (merged ts))) = encode eval op <$> all_left;
  it_all : concat chains ++ concat (imap (bpending (values (row_blocks (merged ts)))) bs) ≡ₚ ptrs_of (values (row_blocks (merged ts)));
  it_ok : forall i b ins, bs !! i = Some b -> binserter (length (row_blocks (merged ts))) i (bstate b) = Some ins ->
    inserter_ok (values (row_blocks (merged ts))) hash (row_blocks (merged ts)) ins;
  it_flags : flags_ok table (row_blocks (merged ts));
}.

Record build_inv ts (bs : list (Builder V)) : Prop := {
  bi_length : length (collections ts) = n;
  bi_input : forall i b, bs !! i = Some b -> Forall left_batch (binput b) /\ (bstate b = Collecting \/ binput b = []);
  bi_data : match directory ts with None => collecting ts bs | Some dir => exists chains, inserting ts bs dir chains end;
}.

(** The output a probe partition has still to give for its batches, and the rows
    it has still to mark; [g] is what is left of the chains of its current
    batch. *)
Definition rest_out B p g : list Row :=
  match pstate p, pinput p with
  | Probing _ fresh st, rhs :: rest => (if fresh then batch_out B rhs else owed_of B rhs st g) ++ concat (batch_out B <$> rest)
  | _, _ => []
  end.

Definition rest_marks B p g : list Ptr :=
  match pstate p, pinput p with
  | Probing _ fresh st, rhs :: rest => (if fresh then batch_marks B rhs else (hits_of B rhs g).*1) ++ concat (batch_marks B <$> rest)
  | _, _ => []
  end.

Definition probe_total B (i : nat) : list Row := concat (batch_out B <$> rights !!! i).
Definition drain_total mem (i : nat) : list Row := drain_row <$> drained mem (create_drain_state i).

Definition prober_ok mem (i : nat) p g : Prop :=
  let B := values mem in
  match pstate p with
  | Probing ready fresh st =>
      emitted p ++ rest_out B p g ≡ₚ probe_total B i
      /\ (fresh = false -> ready = true /\ exists rhs rest, pinput p = rhs :: rest /\ scan_ok B rhs (key <$> rhs) mem st g /\ short_chains B g /\ matches_ok rhs st)
  | Draining false st => st = create_drain_state i /\ emitted p ≡ₚ probe_total B i
  | Draining true st => emitted p ++ (drain_row <$> drained mem st) ≡ₚ probe_total B i ++ drain_total mem i
  | ProbeDone => emitted p ≡ₚ probe_total B i ++ (if drains then drain_total mem i else [])
  end.

Definition flagged mem q : Prop := exists r, row_at mem q = Some r /\ matched r = Some true.

Definition all_marks B : list Ptr := concat (batch_marks B <$> concat rights).

Record probers_ok mem (ps : list (Prober V)) (gs : list (list (list Ptr))) : Prop := {
  po_ok : forall i p g, ps !! i = Some p -> gs !! i = Some g -> prober_ok mem i p g;
  po_marks : needs = true -> forall q, q ∈ all_marks (values mem)
    <-> flagged mem q \/ exists i p g, ps !! i = Some p /\ gs !! i = Some g /\ q ∈ rest_marks (values mem) p g;
}.

(** Before the rows are in memory, the probe partitions are ready for all rows
    that may come. *)
Definition probe_inv ts (ps : list (Prober V)) (gs : list (list (list Ptr))) : Prop :=
  match directory ts with
  | None => forall mem, (forall q, ~ flagged mem q) -> probers_ok mem ps gs
  | Some _ => probers_ok (row_blocks (merged ts)) ps gs
  end.

Local Abbreviation is_built ts := (bool_decide (directory ts <> None)).

Record inv (s : System V) (gs : list (list (list Ptr))) : Prop := {
  iv_sync : sync_inv drains n (is_built (table_state s)) (remaining (table_state s)) (shared s) (btag ∘ bstate <$> builders s) (ptag <$> probers s);
  iv_build : build_inv (table_state s) (builders s);
  iv_ghosts : length gs = n;
  iv_batches : forall i p, probers s !! i = Some p -> Forall (fun batch => length batch <= batch_size) (pinput p);
  iv_probe : probe_inv (table_state s) (probers s) gs;
}.

(** ** The measure *)

Definition pend_rows ts (bs : list (Builder V)) : nat :=
  match directory ts with
  | None => length all_left
  | Some _ => length (concat (imap (bpending (values (row_blocks (merged ts)))) bs))
  end.

Definition build_work (dir : option (list (option Ptr))) b : nat :=
  match bstate b with
  | Collecting => 11 + length (binput b)
  | Finishing _ => 10
  | DirectoryReady => 9
  | InsertWait => 8
  | Inserting ins => 2 + rank (default [] dir) ins
  | HashesInserted => 1
  | BuildDone => 0
  end.

Definition fresh_work rhs : nat := length rhs * S (length all_left) + 2.

Definition probe_work mem (pg : Prober V * list (list Ptr)) : nat :=
  match pstate pg.1 with
  | Probing ready fresh st =>
      length all_left + (if ready then 3 else 4)
      + match pinput pg.1 with
        | [] => 0
        | rhs :: rest => (if fresh then fresh_work rhs else S (length (owed_of (values mem) rhs st pg.2))) + sum_list (fresh_work <$> rest)
        end
  | Draining true st => S (length (drained mem st))
  | Draining false _ => S (S (length all_left))
  | ProbeDone => 0
  end.

Definition work (s : System V) (gs : list (list (list Ptr))) : nat :=
  (n + 7) * pend_rows (table_state s) (builders s) + total (build_work (directory (table_state s))) (builders s)
  + total (probe_work (row_blocks (merged (table_state s)))) (zip (probers s) gs).

(** The partitions that are awake although they may have to wait. *)
Definition build_awake sh (i : nat) (t : BTag) : nat :=
  match t with TWait => if parked (pending_hash_inserters sh) i then 0 else 1 | _ => 0 end.

Definition probe_awake sh (i : nat) (t : PTag) : nat :=
  match t with
  | TProbe false true => if parked (pending_probers sh) i then 0 else 1
  | TDrain false => if parked (pending_drainers sh) i then 0 else 1
  | _ => 0
  end.

Definition awake (s : System V) : nat :=
  sum_list (imap (build_awake (shared s)) (btag ∘ bstate <$> builders s)) + sum_list (imap (probe_awake (shared s)) (ptag <$> probers s)).

Definition measure (s : System V) (gs : list (list (list Ptr))) : nat := (2 * n + 1) * work s gs + awake s.

Lemma awake_le s gs : inv s gs -> awake s <= 2 * n.
Proof.
  intros Hinv. unfold awake. pose proof (sy_builders _ _ _ _ _ _ _ (iv_sync _ _ Hinv)) as Hb. pose proof (sy_probers _ _ _ _ _ _ _ (iv_sync _ _ Hinv)) as Hp.
  assert (sum_list (imap (build_awake (shared s)) (btag ∘ bstate <$> builders s)) <= n) as H1.
  { rewrite <- Hb. apply sum_imap_le. intros i [|[]| | | | |]; cbn; try lia. destruct (parked _ i); lia. }
  assert (sum_list (imap (probe_awake (shared s)) (ptag <$> probers s)) <= n) as H2.
  { transitivity (length (ptag <$> probers s)); [|by rewrite Hp]. apply sum_imap_le. intros i [[] []|[]|]; cbn; try lia; destruct (parked _ i); lia. }
  lia.
Qed.

(** A step that does some work decreases the measure, and so does one that only
    puts a partition to sleep. *)
Lemma measure_lt s gs s' gs' :
  inv s' gs' -> work s' gs' < work s gs \/ (work s' gs' = work s gs /\ awake s' < awake s) -> measure s' gs' < measure s gs.
Proof. intros Hinv Hlt. pose proof (awake_le s' gs' Hinv). unfold measure. nia. Qed.

(** ** The build side *)

Lemma imap_insert_same {A X} (f : nat -> A -> X) (l : list A) i x x' : l !! i = Some x -> f i x' = f i x -> imap f (<[i := x']> l) = imap f l.
Proof.
  intros Hi Hf. apply list_eq. intros j. rewrite !list_lookup_imap. destruct (decide (i = j)) as [<-|Hne]; [|by rewrite list_lookup_insert_ne].
  rewrite list_lookup_insert_eq by (by eapply lookup_lt_Some). rewrite Hi. cbn. by rewrite Hf.
Qed.

Lemma imap_insert {A X} (f : nat -> A -> X) (l : list A) i x : imap f (<[i := x]> l) = <[i := f i x]> (imap f l).
Proof.
  apply list_eq. intros j. rewrite list_lookup_imap, !list_lookup_insert, list_lookup_imap, length_imap. repeat case_decide; naive_solver.
Qed.

(** Steps that do not touch the data of the build side. *)
Section BuildNeutral.
Context ts ts' (bs : list (Builder V)) idx b b' (Hinv : build_inv ts bs) (Hb : bs !! idx = Some b).
Context (Hcoll : collections ts' = collections ts) (Hmerged : merged ts' = merged ts) (Hdir : directory ts' = directory ts).
Context (Hinput : binput b' = binput b) (Hstate : bstate b' = Collecting \/ binput b' = []).
Context (Hins : directory ts <> None -> binserter (length (row_blocks (merged ts))) idx (bstate b') = binserter (length (row_blocks (merged ts))) idx (bstate b)).

Lemma length_blocks mem : length (values mem) = length mem.
Proof. unfold values. apply length_fmap. Qed.

Lemma bpending_neutral : directory ts <> None ->
  imap (bpending (values (row_blocks (merged ts)))) (<[idx := b']> bs) = imap (bpending (values (row_blocks (merged ts)))) bs.
Proof. intros Hd. eapply imap_insert_same; [done|]. unfold bpending. by rewrite length_blocks, Hins. Qed.

Lemma build_inv_neutral : build_inv ts' (<[idx := b']> bs).
Proof.
  destruct Hinv as [Hlen Hin' Hdata]. split.
  - by rewrite Hcoll.
  - intros i b1 Hi. looked_up; [|by eapply Hin']. rewrite Hinput. destruct (Hin' _ _ Hb) as [Hv _]. split; [done|]. by rewrite <- Hinput.
  - rewrite Hdir. pose proof bpending_neutral as Hp. destruct (directory ts) as [dir|].
    + destruct Hdata as (chains & [H1 H2 H3 H4 H5]). exists chains. split; rewrite ?Hmerged; try done.
      * by rewrite Hp.
      * intros i b1 ins Hi Hb1. looked_up; [|by eapply H4]. rewrite Hins in Hb1 by done. by eapply H4.
    + destruct Hdata as [H1 H2]. split; [by rewrite Hmerged|]. rewrite Hcoll. intros i blocks b1 Hi Hb1. looked_up; [rewrite Hinput|]; by eapply H2.
Qed.

Lemma pend_rows_neutral : pend_rows ts' (<[idx := b']> bs) = pend_rows ts bs.
Proof. unfold pend_rows. rewrite Hdir, Hmerged. pose proof bpending_neutral as Hp. destruct (directory ts); [by rewrite Hp|done]. Qed.

End BuildNeutral.

Lemma collect_inv ts (bs : list (Builder V)) idx b batch rest :
  build_inv ts bs -> directory ts = None -> bs !! idx = Some b -> length bs = n -> binput b = batch :: rest ->
  exists ts', collect_build eval hash_one heap_size batch_size table ts idx batch = Ok ts'
    /\ build_inv ts' (<[idx := mkBuilder Collecting rest]> bs) /\ remaining ts' = remaining ts /\ directory ts' = None /\ merged ts' = merged ts.
Proof.
  intros [Hlen Hbi Hdata] Hdir Hb Hbs Hb2. rewrite Hdir in Hdata. destruct Hdata as [Hm Hrows]. destruct (Hbi _ _ Hb) as [Hbatch _]. rewrite Hb2 in Hbatch.
  apply Forall_cons in Hbatch as [(Hw & Hsize & Hheap) Hrest].
  destruct (lookup_lt_is_Some_2 (collections ts) idx) as [blocks Hblocks]; [rewrite Hlen, <- Hbs; by eapply lookup_lt_Some|].
  destruct (Hrows _ _ _ Hblocks Hb) as (rows & Hhold & Hleft).
  destruct (collect_build_spec eval hash_one heap_size batch_size op table Htable batch_pos ts idx batch blocks _ Hblocks Hhold Hw Hsize Hheap) as (blocks' & -> & Hhold').
  eexists. split; [done|]. split_and!; try done. split; cbn [collections directory]; rewrite ?length_insert; try done.
  - intros i b1 Hi. looked_up; [cbn; auto|by eapply Hbi].
  - rewrite Hdir. split; [done|]. cbn [collections]. intros i bl b1 Hi Hb1. looked_up; try done; cbn [binput] in *; [|by eapply Hrows].
    exists (rows ++ batch). rewrite fmap_app. split; [done|]. rewrite <- Hleft, Hb2. cbn. by rewrite app_assoc.
Qed.

Lemma row_at_concat {R} (bl : list (list R)) q r : row_at bl q = Some r -> r ∈ concat bl.
Proof.
  unfold row_at. destruct (bl !! q.1) as [block|] eqn:Hb; [|done]. cbn. intros Hr. apply list_elem_of_In, in_concat. exists block.
  split; apply list_elem_of_In; by eapply list_elem_of_lookup_2.
Qed.

Lemma left_width : Forall (fun l => length l = left_types op) all_left.
Proof.
  unfold all_left. apply Forall_concat, Forall_concat. eapply Forall_impl; [apply Hin|]. cbn. intros bs Hbs. eapply Forall_impl; [exact Hbs|]. by intros batch [? _].
Qed.

(** Together the partitions insert all rows. *)
Lemma start_pending B (bs : list (Builder V)) :
  length bs = n -> (forall i b, bs !! i = Some b -> binserter (length B) i (bstate b) = Some (start (length B) i)) -> concat (imap (bpending B) bs) ≡ₚ ptrs_of B.
Proof.
  intros Hbs Hst. assert (imap (bpending B) bs = (fun i => concat ((fun c => default [] (ptr_blocks B !! c)) <$> step_by i (length B) n)) <$> seq 0 n) as ->.
  { apply list_eq. intros i. rewrite list_lookup_imap, list_lookup_fmap. destruct (bs !! i) as [b|] eqn:Hb.
    - rewrite lookup_seq_lt by (rewrite <- Hbs; by eapply lookup_lt_Some). cbn. unfold bpending. rewrite (Hst _ _ Hb). cbn. by f_equal.
    - rewrite lookup_seq_ge; [done|]. apply lookup_ge_None in Hb. lia. }
  etransitivity; [apply step_by_all, n_pos|]. unfold ptrs_of. apply reflexive_eq. f_equal. apply list_eq. intros i. rewrite list_lookup_fmap.
  assert (length (ptr_blocks B) = length B) as Hl by (unfold ptr_blocks; by rewrite length_imap). destruct (ptr_blocks B !! i) as [ps|] eqn:Hi.
  - rewrite lookup_seq_lt by (rewrite <- Hl; by eapply lookup_lt_Some). cbn. by rewrite Hi.
  - rewrite lookup_seq_ge; [done|]. apply lookup_ge_None in Hi. lia.
Qed.

Lemma start_ok mem i :
  Forall (fun r => exists l, r = new_row eval hash_one op table l /\ length l = left_types op) (concat mem) ->
  inserter_ok (values mem) hash mem (start (length mem) i).
Proof.
  intros Hmem. split; cbn [todo pc scan start]; [|done|done|].
  - unfold start. cbn [scan]. apply partial_scan_wf. rewrite length_blocks. apply Forall_forall. intros b Hb%elem_of_step_by; [lia|apply n_pos].
  - apply Forall_forall. intros q Hq. unfold to_scan, start in Hq. cbn [scan] in Hq. rewrite scan_left_partial in Hq.
    assert (q ∈ ptrs_of (values mem)) as [vals Hv]%elem_of_ptrs.
    { unfold ptrs_of. apply list_elem_of_In, in_concat in Hq as (l & Hl & Hq). apply list_elem_of_In in Hl, Hq. apply list_elem_of_fmap in Hl as (c & -> & _).
      destruct (ptr_blocks (values mem) !! c) as [l|] eqn:Hc; [|by apply elem_of_nil in Hq]. apply list_elem_of_In, in_concat. exists l. split; apply list_elem_of_In; [by eapply list_elem_of_lookup_2|done]. }
    destruct (row_at_of_values mem q vals Hv) as (r & Hr & Hrv). rewrite Hr. cbn. pose proof (proj1 (Forall_forall _ _) Hmem r (row_at_concat _ _ _ Hr)) as (l & -> & Hl).
    cbn [link new_row]. unfold phash. rewrite Hv. cbn. rewrite <- Hrv. cbn [encoded new_row]. by rewrite hash_of_encode.
Qed.

Lemma init_directory_inv ts (bs : list (Builder V)) :
  build_inv ts bs -> remaining ts = 0 -> directory ts = None -> length bs = n ->
  (forall i b, bs !! i = Some b -> binput b = [] /\ forall blocks, binserter blocks i (bstate b) = Some (start blocks i)) ->
  exists ts', init_directory desired_size ts = Ok ts' /\ directory ts' <> None /\ remaining ts' = 0 /\ build_inv ts' bs
    /\ pend_rows ts' bs = length all_left /\ forall q, ~ flagged (row_blocks (merged ts')) q.
Proof.
  intros [Hlen Hbi Hdata] Hrem Hdir Hbs Hst. rewrite Hdir in Hdata. destruct Hdata as [Hm Hrows].
  set (rowss := fmap (M:=list) (fun bs => fmap (M:=list) (new_row eval hash_one op table) (concat bs)) lefts).
  assert (concat rowss = new_row eval hash_one op table <$> all_left) as Hall.
  { unfold rowss, all_left. clear. induction lefts as [|l ls IH]; [done|]. cbn [fmap list_fmap concat]. by rewrite IH, concat_app, fmap_app. }
  destruct (init_directory_spec hash_one desired_size op table ts rowss Hrem Hdir Hm) as (ts' & dir & chains & Hrun & Hdir' & Hrem' & Hlen' & Hmem & Hch & Hnil).
  { apply Forall2_same_length_lookup_2; [unfold rowss; by rewrite length_fmap|]. intros i blocks rows Hblocks Hi. unfold rowss in Hi. rewrite list_lookup_fmap in Hi.
    destruct (lefts !! i) as [l|] eqn:Hl; [|done]. injection Hi as <-. destruct (lookup_lt_is_Some_2 bs i) as [b Hb]; [rewrite Hbs; by eapply lookup_lt_Some|].
    destruct (Hrows _ _ _ Hblocks Hb) as (rows & Hhold & Hleft). rewrite (proj1 (Hst _ _ Hb)), app_nil_r in Hleft. by rewrite (list_lookup_total_correct _ _ _ Hl) in Hleft; subst rows. }
  { rewrite Hall, length_fmap. apply Hin. }
  exists ts'. set (mem := row_blocks (merged ts')) in *. rewrite Hall in Hmem.
  assert (Forall (fun r => exists l, r = new_row eval hash_one op table l /\ length l = left_types op) (concat mem)) as Hnew.
  { rewrite Hmem. apply Forall_fmap. eapply Forall_impl; [apply left_width|]. cbn. intros l Hl. by exists l. }
  assert (concat (imap (bpending (values mem)) bs) ≡ₚ ptrs_of (values mem)) as Hpend by (apply start_pending; [done|]; intros i b Hb; by apply Hst).
  assert (forall q r, row_at mem q = Some r -> matched r = if needs then Some false else None) as Hflag.
  { intros q r Hr. pose proof (proj1 (Forall_forall _ _) Hnew r (row_at_concat _ _ _ Hr)) as (l & -> & _). done. }
  assert (concat (values mem) = encode eval op <$> all_left) as Hvals.
  { unfold values. rewrite <- fmap_concat, Hmem, <- list_fmap_compose. done. }
  split_and!; try done; [by rewrite Hdir'|split| |].
  - by rewrite Hlen'.
  - done.
  - rewrite Hdir'. exists chains. split; try done.
    + by rewrite Hnil.
    + intros i b ins Hb Hi. rewrite (proj2 (Hst _ _ Hb)) in Hi. injection Hi as <-. by apply start_ok.
    + intros Hn q r Hr. rewrite (Hflag _ _ Hr). rewrite table_join_type in Hn. by rewrite Hn.
  - unfold pend_rows. rewrite Hdir'. fold mem. rewrite Hpend, length_ptrs_of, Hvals. apply length_fmap.
  - intros q (r & Hr & Hf). rewrite (Hflag _ _ Hr) in Hf. by destruct needs.
Qed.

Lemma concat_disjoint {A} (ls : list (list A)) i j l l' x : NoDup (concat ls) -> ls !! i = Some l -> ls !! j = Some l' -> i <> j -> x ∈ l -> x ∉ l'.
Proof.
  revert i j. induction ls as [|l0 ls IH]; intros i j Hnd Hi Hj Hne Hx; [done|]. cbn in Hnd. apply NoDup_app in Hnd as (_ & Hno & Hnd).
  assert (forall k y m, ls !! k = Some m -> y ∈ m -> y ∈ concat ls) as Hc.
  { intros k y m Hk Hy. apply list_elem_of_In, in_concat. exists m. split; apply list_elem_of_In; [by eapply list_elem_of_lookup_2|done]. }
  destruct i as [|i], j as [|j]; simplify_eq/=; [|intros Hx'|by eapply (IH i j); auto].
  - intros Hx'. eapply Hno; [exact Hx|]. by eapply Hc.
  - eapply Hno; [exact Hx'|]. by eapply Hc.
Qed.

(** A build partition at work on its rows. *)
Section InsertStep.
Context ts (bs : list (Builder V)) (dir : list (option Ptr)) (idx : nat) b (ins : Inserter) (Hinv : build_inv ts bs) (Hdir : directory ts = Some dir) (Hb : bs !! idx = Some b).
Context (Hst : bstate b = Inserting ins) (Hbs : length bs = n).
Local Abbreviation mem := (row_blocks (merged ts)).
Local Abbreviation B := (values (row_blocks (merged ts))).
Local Abbreviation moved oins := (mkBuilder (match oins with Some ins' => Inserting ins' | None => HashesInserted end) (binput b)).

Definition insert_outcome (r : res (TableState V * option Inserter)) : Prop :=
  exists ts' oins dir', r = Ok (ts', oins) /\ directory ts' = Some dir' /\ remaining ts' = remaining ts /\ build_inv ts' (<[idx := moved oins]> bs)
    /\ values (row_blocks (merged ts')) = B /\ (forall q, matched <$> row_at (row_blocks (merged ts')) q = matched <$> row_at mem q)
    /\ (n + 7) * pend_rows ts' (<[idx := moved oins]> bs) + total (build_work (Some dir')) (<[idx := moved oins]> bs)
       < (n + 7) * pend_rows ts bs + total (build_work (Some dir)) bs.

Lemma pending_here : bpending B idx b = pending B ins.
Proof. unfold bpending. by rewrite Hst. Qed.

(** Reading hashes, and the end. *)
Lemma insert_scanned oins :
  from_option (pending B) [] oins = pending B ins -> (forall ins', oins = Some ins' -> inserter_ok B hash mem ins' /\ rank dir ins' < rank dir ins) ->
  insert_outcome (Ok (ts, oins)).
Proof.
  intros Hpend Hok. destruct Hinv as [Hlen Hbi Hdata]. rewrite Hdir in Hdata. destruct Hdata as (chains & [Hch Hrows Hall Hins Hflags]).
  assert (imap (bpending B) (<[idx := moved oins]> bs) = imap (bpending B) bs) as Hsame.
  { eapply imap_insert_same; [done|]. rewrite pending_here. unfold bpending. cbn [bstate]. by destruct oins. }
  exists ts, oins, dir. split_and!; try done.
  - split; [done| |].
    + intros i b1 Hi. looked_up; [|by eapply Hbi]. cbn. split; [by eapply Hbi|]. right. destruct (Hbi _ _ Hb) as [_ [Hc|?]]; [congruence|done].
    + rewrite Hdir. exists chains. split; try done; [by rewrite Hsame|]. intros i b1 ins1 Hi Hb1. looked_up; [|by eapply Hins]. cbn in Hb1.
      destruct oins as [ins'|]; [|done]. injection Hb1 as <-. by apply Hok.
  - unfold pend_rows. rewrite Hdir, Hsame. pose proof (total_insert (build_work (Some dir)) bs idx b (moved oins) Hb) as Ht.
    unfold build_work in Ht at 2 4. rewrite Hst in Ht. cbn [bstate default from_option] in Ht. destruct oins as [ins'|]; [|lia].
    destruct (Hok _ eq_refl) as [_ Hr]. unfold id in *. lia.
Qed.

Lemma insert_moved h q rest : todo ins = (h, q) :: rest -> insert_outcome (process_step batch_size ts ins).
Proof.
  intros Htodo. destruct Hinv as [Hlen Hbi Hdata]. rewrite Hdir in Hdata. destruct Hdata as (chains & [Hch Hrows Hall Hins Hflags]).
  pose proof (ptrs_of_nodup B) as Hnd. rewrite <- Hall in Hnd. apply NoDup_app in Hnd as (_ & Hdisj & Hnd).
  assert (imap (bpending B) bs !! idx = Some (pending B ins)) as Hidx by (rewrite list_lookup_imap, Hb; cbn; by rewrite pending_here).
  assert (q ∈ pending B ins) as Hq by (unfold pending; rewrite Htodo; left).
  assert (forall x l i, imap (bpending B) bs !! i = Some l -> x ∈ l -> x ∈ concat (imap (bpending B) bs)) as Hsub.
  { intros x l i Hi Hx. apply list_elem_of_In, in_concat. exists l. split; apply list_elem_of_In; [by eapply list_elem_of_lookup_2|done]. }
  assert (NoDup (pending B ins)) as Hndi.
  { destruct (concat_insert _ idx _ [] Hidx) as (r & Hr & _). rewrite Hr in Hnd. by apply NoDup_app in Hnd as (? & _). }
  destruct (insert_step_spec B hash batch_size batch_pos mem dir chains ins h q rest Hch (Hins _ _ _ Hb ltac:(by rewrite Hst)) Htodo) as
    (mem' & dir' & chains' & ins' & Hrun & Hch' & Hins' & Honly & Hlen' & Hperm & Hcase); [|done|].
  { intros Hc. eapply Hdisj; [exact Hc|]. by eapply Hsub. }
  destruct (concat_insert _ idx _ (pending B ins') Hidx) as (others & Ho1 & Ho2).
  set (ts' := mkTableState (collections ts) (remaining ts) (mkRowBlocks mem' (heap_blocks (merged ts))) (Some dir')).
  assert (process_step batch_size ts ins = Ok (ts', Some ins')) as -> by (unfold process_step; rewrite Hdir, Htodo; by rewrite Hrun).
  pose proof (ch_values _ _ _ _ _ Hch') as Hv. exists ts', (Some ins'), dir'. unfold pend_rows. rewrite Hdir. cbn [ts' directory merged row_blocks remaining]. rewrite Hv.
  assert (concat (imap (bpending B) (<[idx := moved (Some ins')]> bs)) ≡ₚ pending B ins' ++ others) as Hnew by (by rewrite imap_insert; unfold bpending at 1; cbn).
  split_and!; try done.
  - split; cbn [collections directory]; [done| |].
    + intros i b1 Hi. looked_up; [|by eapply Hbi]. cbn. split; [by eapply Hbi|]. right. destruct (Hbi _ _ Hb) as [_ [Hc|?]]; [congruence|done].
    + exists chains'. split; cbn [ts' merged row_blocks]; rewrite ?Hv; try done.
      * rewrite Hnew, <- Hall, Ho1, !app_assoc. by rewrite Hperm.
      * intros i b1 ins1 Hi Hb1. looked_up; [cbn in Hb1; by injection Hb1 as <-|]. rewrite <- (length_blocks mem'), Hv, length_blocks in Hb1.
        eapply inserter_frame; [exact Honly| |by eapply Hins]. eapply (concat_disjoint _ idx i); [exact Hnd|exact Hidx| |done|done].
        rewrite list_lookup_imap. match goal with H : bs !! i = Some b1 |- _ => rewrite H end. cbn. unfold bpending. by rewrite length_blocks, Hb1.
      * intros Hn p r Hr. destruct Honly as [_ Hm]. specialize (Hm p). rewrite Hr in Hm. destruct (row_at mem p) as [r0|] eqn:Hr0; [|done]. injection Hm as Hm.
        destruct (Hflags Hn p r0 Hr0) as [f Hf]. by exists f; rewrite Hm.
  - apply Honly.
  - rewrite Hnew, Ho1, !length_app. pose proof (total_insert (build_work (Some dir')) bs idx b (moved (Some ins')) Hb) as Ht. unfold build_work in Ht at 2 4.
    rewrite Hst in Ht. cbn [bstate default from_option] in Ht. unfold id in Ht. destruct Hcase as [(-> & -> & Hr)| ->]; [lia|].
    assert (total (build_work (Some dir')) bs <= total (build_work (Some dir)) bs + n) as Hle.
    { rewrite <- Hbs. clear -batch_pos. induction bs as [|b0 bl IH]; [done|]. unfold total in *. cbn [fmap list_fmap sum_list_with sum_list length] in *.
      assert (build_work (Some dir') b0 <= S (build_work (Some dir) b0)); [|cbn; unfold id in *; lia]. unfold build_work. destruct (bstate b0); try lia. cbn. unfold id.
      pose proof (rank_other batch_size batch_pos dir dir' ins). lia. }
    pose proof (rank_le batch_size batch_pos dir' ins'). cbn [length]. nia.
Qed.

Lemma insert_inv : insert_outcome (process_step batch_size ts ins).
Proof.
  destruct (todo ins) as [|[h q] rest] eqn:Htodo; [|by eapply insert_moved].
  destruct Hinv as [_ _ Hdata]. rewrite Hdir in Hdata. destruct Hdata as (chains & [Hch _ _ Hins _]).
  destruct (process_scan_spec B hash batch_size batch_pos ts dir chains ins Hdir Hch (Hins _ _ _ Hb ltac:(by rewrite Hst)) Htodo) as [[-> Hp]|(ins' & -> & Hok & Hp & Hr)].
  - apply insert_scanned; [done|done].
  - apply insert_scanned; [done|]. by intros ? [= <-].
Qed.

End InsertStep.

(** ** The probe side *)

(** What a prober knows survives changes of memory it does not depend on. *)
Lemma prober_frame mem mem' i p g :
  values mem' = values mem -> (forall fresh st, pstate p = Probing true fresh st -> forall q, next_of mem' q = next_of mem q) ->
  (forall st, pstate p <> Draining true st) -> (drains = true -> pstate p <> ProbeDone) -> prober_ok mem i p g -> prober_ok mem' i p g.
Proof.
  intros Hv Hn Hd Hdone. unfold prober_ok. destruct (pstate p) as [ready fresh st|[] st|] eqn:Hst; rewrite ?Hv; try done.
  - intros [Ho Hs]. split; [done|]. intros Hf. destruct (Hs Hf) as (-> & rhs & rest & Hi & Hok & Hrest). split; [done|]. exists rhs, rest. split_and!; try done; [|by apply Hrest..].
    eapply scan_ok_frame; [done|by eapply Hn|done].
  - by destruct (Hd st).
  - destruct drains; [by destruct Hdone|done].
Qed.

Lemma probe_work_frame mem mem' (pg : Prober V * list (list Ptr)) :
  values mem' = values mem -> (forall st, pstate pg.1 <> Draining true st) -> probe_work mem' pg = probe_work mem pg.
Proof. intros Hv Hd. unfold probe_work. rewrite Hv. destruct (pstate pg.1) as [| [] st|] eqn:Hst; try done. by destruct (Hd st). Qed.

(** One prober goes on. *)
Lemma probers_update mem mem' (ps : list (Prober V)) gs idx p g p' g' :
  probers_ok mem ps gs -> ps !! idx = Some p -> gs !! idx = Some g -> values mem' = values mem ->
  (forall j p1 g1, j <> idx -> ps !! j = Some p1 -> prober_ok mem j p1 g1 -> prober_ok mem' j p1 g1) -> prober_ok mem' idx p' g' ->
  (needs = true -> forall q, flagged mem' q \/ q ∈ rest_marks (values mem) p' g' <-> flagged mem q \/ q ∈ rest_marks (values mem) p g) ->
  probers_ok mem' (<[idx := p']> ps) (<[idx := g']> gs).
Proof.
  intros [Hok Hmarks] Hp Hg Hv Hothers Hnew Hm. split.
  - intros i p1 g1 Hi Hg1. looked_up; try done. by apply Hothers; [congruence|done|eapply Hok].
  - intros Hn q. rewrite Hv, Hmarks by done. specialize (Hm Hn q).
    assert ((exists i p1 g1, <[idx := p']> ps !! i = Some p1 /\ <[idx := g']> gs !! i = Some g1 /\ q ∈ rest_marks (values mem) p1 g1)
      <-> q ∈ rest_marks (values mem) p' g' \/ exists i p1 g1, i <> idx /\ ps !! i = Some p1 /\ gs !! i = Some g1 /\ q ∈ rest_marks (values mem) p1 g1) as ->.
    { split.
      - intros (i & p1 & g1 & Hi & Hg1 & Hq). looked_up; try done; [by left|]. right. exists i, p1, g1. by split_and!.
      - intros [Hq|(i & p1 & g1 & Hne & Hi & Hg1 & Hq)].
        + exists idx, p', g'. rewrite !list_lookup_insert_eq by (by eapply lookup_lt_Some). done.
        + exists i, p1, g1. by rewrite !list_lookup_insert_ne. }
    assert ((exists i p1 g1, ps !! i = Some p1 /\ gs !! i = Some g1 /\ q ∈ rest_marks (values mem) p1 g1)
      <-> q ∈ rest_marks (values mem) p g \/ exists i p1 g1, i <> idx /\ ps !! i = Some p1 /\ gs !! i = Some g1 /\ q ∈ rest_marks (values mem) p1 g1) as ->.
    { split.
      - intros (i & p1 & g1 & Hi & Hg1 & Hq). destruct (decide (i = idx)) as [->|Hne]; [left; by simplify_eq|]. right. by exists i, p1, g1.
      - intros [Hq|(i & p1 & g1 & _ & Hrest)]; [by exists idx, p, g|by exists i, p1, g1]. }
    tauto.
Qed.

(** Links of rows are written only while no prober is ready. *)
Lemma probers_links mem mem' (ps : list (Prober V)) gs :
  probers_ok mem ps gs -> values mem' = values mem -> (forall q, matched <$> row_at mem' q = matched <$> row_at mem q) ->
  (forall i p, ps !! i = Some p -> match pstate p with Probing ready _ _ | Draining ready _ => ready = false | ProbeDone => drains = false end) ->
  probers_ok mem' ps gs.
Proof.
  intros [Hok Hmarks] Hv Hm Hready. split.
  - intros i p g Hi Hg. specialize (Hready _ _ Hi). apply (prober_frame mem); [done| | | |by eapply Hok].
    + intros fresh st Hst. by rewrite Hst in Hready.
    + intros st Hst. by rewrite Hst in Hready.
    + intros Hd Hst. rewrite Hst in Hready. congruence.
  - intros Hn q. rewrite Hv, Hmarks by done. assert (flagged mem' q <-> flagged mem q) as ->; [|done]. unfold flagged. specialize (Hm q).
    destruct (row_at mem' q) as [r|], (row_at mem q) as [r0|]; try done. injection Hm as Hm. split; intros (? & [= <-] & ?); eexists; split; eauto; congruence.
Qed.

(** *** Probing *)

Section Execute.
Context ts (dir : list (option Ptr)) (chains : list (list Ptr)) (i : nat) p g (fresh : bool) (st : ScanState V) rhs (rest : list (list Row)).
Local Abbreviation mem := (row_blocks (merged ts)).
Local Abbreviation B := (values (row_blocks (merged ts))).
Context (Hdir : directory ts = Some dir) (Hch : chained B hash mem dir chains) (Hall : concat chains ≡ₚ ptrs_of B) (Hrows : concat B = encode eval op <$> all_left).
Context (Hflags : flags_ok table mem) (Hst : pstate p = Probing true fresh st) (Hinput : pinput p = rhs :: rest) (Hrhs : length rhs <= batch_size).
Context (Hok : prober_ok mem i p g).

Lemma encoded_rows q vals : row_at B q = Some vals -> exists l, vals = encode eval op l /\ length l = left_types op.
Proof.
  intros Hq. pose proof (row_at_concat _ _ _ Hq) as Hin'. rewrite Hrows in Hin'. apply list_elem_of_fmap in Hin' as (l & -> & Hl). exists l. split; [done|].
  by eapply Forall_forall in Hl; [|apply left_width].
Qed.

Lemma length_build_rows : length (concat B) = length all_left.
Proof. rewrite Hrows. apply length_fmap. Qed.

Lemma chain_short c : c ∈ chains -> length c <= length (concat B).
Proof.
  intros Hc. rewrite <- length_ptrs_of, <- Hall. apply list_elem_of_lookup in Hc as [j Hj]. destruct (concat_insert chains j c [] Hj) as (r & -> & _). rewrite length_app. lia.
Qed.

(** The state of the scan after [probe], where it is called. *)
Lemma probe_start :
  exists st0 g0, (if fresh then probe eval hash_one batch_size table ts rhs else Ok st) = Ok st0
    /\ scan_ok B rhs (key <$> rhs) mem st0 g0 /\ short_chains B g0 /\ matches_ok rhs st0
    /\ rest_out B p g ≡ₚ owed_of B rhs st0 g0 ++ concat (batch_out B <$> rest)
    /\ rest_marks B p g ≡ₚ (hits_of B rhs g0).*1 ++ concat (batch_marks B <$> rest)
    /\ length all_left + 3 + S (length (owed_of B rhs st0 g0)) + sum_list (fresh_work <$> rest) <= probe_work mem (p, g).
Proof.
  unfold rest_out, rest_marks, probe_work. cbn [fst snd]. rewrite Hst, Hinput. generalize Hok. unfold prober_ok. rewrite Hst. intros [_ Hs]. destruct fresh.
  - destruct (probe_chains eval hash_one desired_size batch_size op table Htable batch_pos mem dir chains Hch Hall rhs ts Hdir Hrhs) as (st0 & Hrun & Hscan & Hrm).
    pose proof (hits_complete eval hash_one value_eq value_lt value_le batch_size op table Htable hash_eq batch_pos mem dir chains Hch Hall encoded_rows rhs) as Hh.
    set (g0 := chain_of eval hash_one op table dir chains <$> rhs) in *. exists st0, g0.
    assert (owed_of B rhs st0 g0 ≡ₚ batch_out B rhs) as Ho by by apply owed_perm. split_and!; try done.
    + apply Forall_fmap, Forall_forall. intros r _. cbn. unfold chain_of. rewrite list_lookup_total_alt.
      destruct (chains !! _) as [c|] eqn:Hc; [|cbn; lia]. cbn. by eapply chain_short, list_elem_of_lookup_2.
    + split; rewrite Hrm, length_replicate; [done|lia].
    + by rewrite Ho.
    + unfold batch_marks. by rewrite Hh.
    + rewrite Ho. pose proof (length_batch_out B rhs) as Hl. rewrite length_build_rows in Hl. unfold fresh_work at 2. lia.
  - destruct (Hs eq_refl) as (_ & rhs0 & rest0 & Heq & Hscan & Hshort & Hmatch). rewrite Hinput in Heq. injection Heq as <- <-. exists st, g. split_and!; try done. lia.
Qed.

Local Abbreviation next_state st' out :=
  (if length out =? 0 then mkProber (Probing true true st') rest (emitted p) else mkProber (Probing true false st') (rhs :: rest) (emitted p ++ out)).

Lemma fresh_rest_out B' st' e g' : rest_out B' (mkProber (Probing true true st') rest e) g' = concat (batch_out B' <$> rest).
Proof. unfold rest_out. cbn [pstate pinput]. by destruct rest. Qed.

Lemma fresh_rest_marks B' st' e g' : rest_marks B' (mkProber (Probing true true st') rest e) g' = concat (batch_marks B' <$> rest).
Proof. unfold rest_marks. cbn [pstate pinput]. by destruct rest. Qed.

Lemma execute_spec :
  exists mem' st' out g' lv, execute_probe eval hash_one value_eq value_lt value_le batch_size table ts fresh st rhs
      = Ok (mkTableState (collections ts) (remaining ts) (mkRowBlocks mem' (heap_blocks (merged ts))) (Some dir), st', out)
    /\ mem_marked table mem mem' lv /\ Forall (fun q => is_Some (row_at B q)) lv /\ prober_ok mem' i (next_state st' out) g'
    /\ probe_work mem' (next_state st' out, g') < probe_work mem (p, g)
    /\ forall q, q ∈ rest_marks B p g <-> q ∈ lv \/ q ∈ rest_marks B (next_state st' out) g'.
Proof.
  destruct probe_start as (st0 & g0 & Hrun & Hscan & Hshort & Hmatch & Hout & Hmarks & Hwork).
  pose proof (probe_batch_ok eval batch_size op table Htable batch_pos mem encoded_rows rhs) as Hbatch.
  destruct (scan_next_spec value_eq value_lt value_le batch_size table B rhs (key <$> rhs) Hbatch mem st0 g0) as
    (mem' & st' & g' & lv & out & Hnext & Howed & Hend & Hhits & Hmm & Hscan' & Hshort' & Hmatch'); try done.
  { rewrite table_join_type. apply Hin. }
  pose proof (proj1 Hmm) as Hv. exists mem', st', out, g', lv.*1. split; [|split; [done|split]].
  - unfold execute_probe. rewrite (bind_ok _ _ _ Hrun), (bind_ok _ _ _ Hnext). by rewrite Hdir.
  - apply Forall_fmap, Forall_forall. intros [q j] Hq. cbn. assert ((q, j) ∈ hits_of B rhs g0) as (Hj & Hq' & _)%elem_of_hits by (rewrite Hhits, elem_of_app; by left).
    destruct (lookup_lt_is_Some_2 g0 j) as [c Hc]; [by rewrite (so_length _ _ _ _ _ _ Hscan)|]. rewrite (list_lookup_total_correct _ _ _ Hc) in Hq'.
    pose proof (Forall_lookup_1 _ _ _ _ (so_valid _ _ _ _ _ _ Hscan) Hc) as Hcv. by eapply Forall_forall in Hcv.
  - generalize Hok. unfold prober_ok at 1. rewrite Hst. intros [Htotal _]. rewrite Hout, Howed in Htotal. destruct (Nat.eqb_spec (length out) 0) as [Hz|Hz].
    + apply length_zero_iff_nil in Hz as ->. destruct (Hend eq_refl) as [Hnil Hh]. split_and!.
      * unfold prober_ok. cbn [pstate]. split; [|done]. rewrite fresh_rest_out, Hv. cbn [emitted]. by rewrite Hnil in Htotal.
      * unfold probe_work at 1. cbn [fst pstate pinput]. eapply Nat.lt_le_trans; [|exact Hwork]. destruct rest as [|r rs]; cbn; unfold id; lia.
      * intros q. rewrite Hmarks, Hhits, Hh, fresh_rest_marks, app_nil_r, elem_of_app. done.
    + split_and!.
      * unfold prober_ok. cbn [pstate]. split.
        { rewrite Hv. unfold rest_out. cbn [pstate pinput emitted]. rewrite <- Htotal. solve_Permutation. }
        intros _. split; [done|]. exists rhs, rest. rewrite Hv. done.
      * unfold probe_work at 1. cbn [fst snd pstate pinput]. rewrite Hv. eapply Nat.lt_le_trans; [|exact Hwork]. rewrite Howed, length_app. lia.
      * intros q. rewrite Hmarks, Hhits. unfold rest_marks. cbn [pstate pinput]. rewrite fmap_app, !elem_of_app. tauto.
Qed.

End Execute.

Lemma flagged_marked mem mem' (lv : list Ptr) q :
  needs = true -> mem_marked table mem mem' lv -> Forall (fun q => is_Some (row_at (values mem) q)) lv -> flagged mem' q <-> flagged mem q \/ q ∈ lv.
Proof.
  intros Hn [_ Hm] Hlv. rewrite table_join_type, Hn in Hm. unfold flagged. rewrite Hm. destruct (decide (q ∈ lv)) as [Hq|Hq].
  - split; [by right|]. intros _. pose proof (proj1 (Forall_forall _ _) Hlv q Hq) as [vals Hv]. destruct (row_at_of_values _ _ _ Hv) as (r & -> & _). by eexists.
  - split; [by left|]. by intros [?|?].
Qed.

(** *** Draining *)

Lemma wanted_concat {X} (f : X -> list (BuildRow V)) (l : list X) : concat ((fun x => wanted drain_fn (f x)) <$> l) = wanted drain_fn (concat (f <$> l)).
Proof. unfold wanted. induction l as [|x l IH]; [done|]. cbn [fmap list_fmap concat]. by rewrite filter_app, IH. Qed.

(** Together the partitions drain all rows that are wanted. *)
Lemma drained_all mem : concat ((fun i => drained mem (create_drain_state i)) <$> seq 0 n) ≡ₚ wanted drain_fn (concat mem).
Proof.
  unfold drained. rewrite wanted_concat. apply filter_Permutation.
  transitivity (concat ((fun c => default [] (mem !! c)) <$> seq 0 (length mem))).
  - etransitivity; [|apply (step_by_all _ _ n), n_pos]. apply reflexive_eq. f_equal. apply list_fmap_ext. intros _ i _. apply drain_rest_next, n_pos.
  - apply reflexive_eq. f_equal. apply list_eq. intros i. rewrite list_lookup_fmap. destruct (mem !! i) as [block|] eqn:Hi.
    + rewrite lookup_seq_lt by (by eapply lookup_lt_Some). cbn. by rewrite Hi.
    + rewrite lookup_seq_ge; [done|]. by apply lookup_ge_None in Hi.
Qed.

Lemma drained_le mem i : i < n -> length (drained mem (create_drain_state i)) <= length (concat mem).
Proof.
  intros Hi. transitivity (length (wanted drain_fn (concat mem))); [|apply length_filter]. rewrite <- drained_all.
  destruct (concat_insert ((fun i => drained mem (create_drain_state i)) <$> seq 0 n) i (drained mem (create_drain_state i)) []) as (r & -> & _).
  - by rewrite list_lookup_fmap, lookup_seq_lt.
  - rewrite length_app. lia.
Qed.

(** ** Steps of the system *)

Definition task_outcome (s : System V) (gs : list (list (list Ptr))) (r : res (System V)) : Prop :=
  exists s' gs', r = Ok s' /\ inv s' gs' /\ (work s' gs' < work s gs \/ (work s' gs' = work s gs /\ awake s' < awake s)).

Section Facts.
Context (s : System V) (gs : list (list (list Ptr))) (Hinv : inv s gs).
Local Abbreviation sync := (iv_sync _ _ Hinv).

Lemma builders_length : length (builders s) = n.
Proof. pose proof (sy_builders _ _ _ _ _ _ _ sync) as H. by rewrite length_fmap in H. Qed.

Lemma probers_length : length (probers s) = n.
Proof. pose proof (sy_probers _ _ _ _ _ _ _ sync) as H. by rewrite length_fmap in H. Qed.

(** While a partition builds, no prober is ready. *)
Lemma not_ready : scan_ready (shared s) = false ->
  forall i p, probers s !! i = Some p -> match pstate p with Probing ready _ _ | Draining ready _ => ready = false | ProbeDone => drains = false end.
Proof.
  intros Hs i p Hp. pose proof (ptag_lookup s i p Hp) as Ht. unfold ptag in Ht. destruct (pstate p) as [[] ? ?|[] ?|]; try done.
  - pose proof (sy_probe_ready _ _ _ _ _ _ _ sync _ _ Ht). congruence.
  - pose proof (sy_drain_ready _ _ _ _ _ _ _ sync _ Ht) as [_ ?]. congruence.
  - destruct drains eqn:Hd; [|done]. pose proof (sy_done _ _ _ _ _ _ _ sync _ Hd Ht) as [_ ?]. congruence.
Qed.

Lemma building_not_ready i b : builders s !! i = Some b -> bstate b <> BuildDone -> scan_ready (shared s) = false.
Proof.
  intros Hb Hne. rewrite (sy_scan _ _ _ _ _ _ _ sync). apply bool_decide_eq_false_2. intros Hz. pose proof (total_zero _ _ _ _ Hz (btag_lookup s i b Hb)) as Ht.
  by destruct (bstate b).
Qed.

Lemma all_done : scan_ready (shared s) = true -> forall i b, builders s !! i = Some b -> bstate b = BuildDone.
Proof.
  intros Hs i b Hb. pose proof (building_not_ready i b Hb) as Hf. rewrite Hs in Hf. destruct (bstate b); by specialize (Hf ltac:(done)) || done.
Qed.

(** When the probers are ready the chains are complete. *)
Lemma chains_complete : scan_ready (shared s) = true ->
  exists dir chains, let mem := row_blocks (merged (table_state s)) in directory (table_state s) = Some dir
    /\ chained (values mem) hash mem dir chains /\ concat chains ≡ₚ ptrs_of (values mem) /\ concat (values mem) = encode eval op <$> all_left /\ flags_ok table mem.
Proof.
  intros Hs. pose proof (all_done Hs) as Hdone.
  destruct (lookup_lt_is_Some_2 (builders s) 0) as [b Hb]; [rewrite builders_length; apply n_pos|].
  pose proof (sy_inserting _ _ _ _ _ _ _ sync 0 TBuilt) as Hr. rewrite (btag_lookup s 0 b Hb), (Hdone _ _ Hb) in Hr. specialize (Hr eq_refl eq_refl).
  destruct (sy_ready _ _ _ _ _ _ _ sync Hr) as [Hd _]. apply bool_decide_eq_true in Hd. pose proof (bi_data _ _ (iv_build _ _ Hinv)) as Hdata.
  destruct (directory (table_state s)) as [dir|]; [|done]. destruct Hdata as (chains & [H1 H2 H3 H4 H5]). exists dir, chains. split_and!; try done.
  rewrite <- H3. assert (concat (imap (bpending (values (row_blocks (merged (table_state s))))) (builders s)) = []) as ->; [|by rewrite app_nil_r].
  apply concat_nil_Forall, Forall_lookup. intros i l Hi. rewrite list_lookup_imap in Hi. destruct (builders s !! i) as [b1|] eqn:Hb1; [|done]. injection Hi as <-.
  unfold bpending. by rewrite (Hdone _ _ Hb1).
Qed.

End Facts.

(** Idle probers do not look at the rows. *)
Lemma idle_work (s : System V) gs mem mem' :
  inv s gs -> scan_ready (shared s) = false -> (forall i p g, probers s !! i = Some p -> gs !! i = Some g -> exists mem0, prober_ok mem0 i p g) ->
  total (probe_work mem') (zip (probers s) gs) = total (probe_work mem) (zip (probers s) gs).
Proof.
  intros Hinv Hs Hok. apply total_ext. intros i [p g] Hi. apply lookup_zip_with_Some in Hi as (p0 & g0 & [= <- <-] & Hp & Hg).
  destruct (Hok i p g Hp Hg) as (mem0 & Hpo). pose proof (not_ready s gs Hinv Hs i p Hp) as Hr. unfold probe_work, prober_ok in *. cbn [fst snd].
  destruct (pstate p) as [ready fresh st|ready st|]; [|by subst|done]. subst. destruct Hpo as [_ Hf]. destruct fresh; [done|]. by destruct (Hf eq_refl).
Qed.

(** *** A build partition *)

Section BuildTask.
Context (s : System V) (gs : list (list (list Ptr))) (Hinv : inv s gs) (idx : nat) b (Hb : builders s !! idx = Some b).
Local Abbreviation ts := (table_state s).
Local Abbreviation sh := (shared s).
Local Abbreviation sync := (iv_sync _ _ Hinv).
Local Abbreviation moved ts' sh' b' := (mkSystem ts' sh' (<[idx := b']> (builders s)) (probers s)).

Lemma build_tags_insert b' : btag ∘ bstate <$> <[idx := b']> (builders s) = <[idx := btag (bstate b')]> (btag ∘ bstate <$> builders s).
Proof. apply (list_fmap_insert (btag ∘ bstate)). Qed.

Lemma build_tag : (btag ∘ bstate <$> builders s) !! idx = Some (btag (bstate b)).
Proof. by apply btag_lookup. Qed.

(** A step that does not touch the data. *)
Section Neutral.
Context (ts' : TableState V) (sh' : Shared) (b' : Builder V).
Context (Hcoll : collections ts' = collections ts) (Hmerged : merged ts' = merged ts) (Hdir : directory ts' = directory ts).
Context (Hinput : binput b' = binput b) (Hstate : bstate b' = Collecting \/ binput b' = []).
Context (Hins : directory ts <> None -> binserter (length (row_blocks (merged ts))) idx (bstate b') = binserter (length (row_blocks (merged ts))) idx (bstate b)).
Context (Hsync : sync_inv drains n (is_built ts) (remaining ts') sh' (<[idx := btag (bstate b')]> (btag ∘ bstate <$> builders s)) (ptag <$> probers s)).

Lemma neutral_inv : inv (moved ts' sh' b') gs.
Proof.
  destruct Hinv as [_ Hbuild Hghosts Hbatches Hprobe]. split; cbn [table_state shared builders probers]; try done.
  - by rewrite Hdir, build_tags_insert.
  - by eapply build_inv_neutral.
  - generalize Hprobe. unfold probe_inv. by rewrite Hdir, Hmerged.
Qed.

Lemma neutral_work : work (moved ts' sh' b') gs + build_work (directory ts) b = work s gs + build_work (directory ts) b'.
Proof.
  unfold work. cbn [table_state builders probers]. rewrite Hdir, Hmerged. erewrite pend_rows_neutral by done.
  pose proof (total_insert (build_work (directory ts)) (builders s) idx b b' Hb). lia.
Qed.

Lemma neutral_outcome : build_work (directory ts) b' < build_work (directory ts) b -> task_outcome s gs (Ok (moved ts' sh' b')).
Proof. intros Hlt. exists (moved ts' sh' b'), gs. split_and!; [done|apply neutral_inv|]. left. pose proof neutral_work. lia. Qed.

End Neutral.

Lemma no_directory : bstate b = Collecting -> directory ts = None.
Proof.
  intros Hst. pose proof build_tag as Ht. rewrite Hst in Ht. destruct (sync_finish _ _ _ _ _ _ _ _ sync Ht) as [Hrem _].
  destruct (directory ts) as [dir|] eqn:Hd; [|done]. pose proof (sy_dir _ _ _ _ _ _ _ sync) as H. rewrite Hd in H. by rewrite H in Hrem by done.
Qed.

Lemma build_collect batch rest :
  bstate b = Collecting -> binput b = batch :: rest ->
  task_outcome s gs ('(ts', sh', b') ← (ts' ← collect_build eval hash_one heap_size batch_size table ts idx batch; Ok (ts', sh, mkBuilder Collecting rest)); Ok (moved ts' sh' b')).
Proof.
  intros Hst Hin'. pose proof (no_directory Hst) as Hd.
  destruct (collect_inv ts (builders s) idx b batch rest (iv_build _ _ Hinv) Hd Hb (builders_length s gs Hinv) Hin') as (ts' & -> & Hbuild & Hrem & Hdir & Hm).
  unfold mbind, res_bind. eexists _, gs. split; [done|]. destruct Hinv as [Hsync _ Hghosts Hbatches Hprobe]. split.
  - split; cbn [table_state shared builders probers]; try done.
    + rewrite Hrem, Hdir, build_tags_insert. cbn [bstate btag]. rewrite list_insert_id by (rewrite build_tag; by rewrite Hst). by rewrite Hd in Hsync.
    + generalize Hprobe. unfold probe_inv. by rewrite Hdir, Hd.
  - left. unfold work. cbn [table_state builders probers]. unfold pend_rows. rewrite Hdir, Hd, Hm.
    pose proof (total_insert (build_work None) (builders s) idx b (mkBuilder Collecting rest) Hb) as Ht. unfold build_work in Ht at 2 4. rewrite Hst, Hin' in Ht. cbn in Ht. lia.
Qed.

Lemma build_finish :
  bstate b = Collecting -> binput b = [] ->
  task_outcome s gs ('(ts', sh', b') ← ('(ts', is_last) ← finish_build ts; Ok (ts', sh, mkBuilder (Finishing is_last) [])); Ok (moved ts' sh' b')).
Proof.
  intros Hst Hin'. pose proof build_tag as Ht. rewrite Hst in Ht. destruct (sync_finish _ _ _ _ _ _ _ _ sync Ht) as [Hrem Hsync].
  unfold finish_build, rust_assert. rewrite (proj2 (Nat.eqb_neq (remaining ts) 0)) by done. cbn. apply neutral_outcome; try done; [by right|by rewrite Hst|].
  unfold build_work. rewrite Hst, Hin'. cbn. lia.
Qed.

Lemma build_input_nil : bstate b <> Collecting -> binput b = [].
Proof. intros Hne. by destruct (bi_input _ _ (iv_build _ _ Hinv) _ _ Hb) as [_ [?|?]]. Qed.

Lemma build_init :
  bstate b = Finishing true ->
  task_outcome s gs ('(ts', sh', b') ← (ts' ← init_directory desired_size ts; Ok (ts', sh, mkBuilder DirectoryReady (binput b))); Ok (moved ts' sh' b')).
Proof.
  intros Hst. pose proof build_tag as Ht. rewrite Hst in Ht. destruct (sync_init _ _ _ _ _ _ _ _ sync Ht) as (Hrem & Hd & Hsync). apply bool_decide_eq_false in Hd.
  assert (directory ts = None) as Hdir by (destruct (directory ts); [by destruct Hd|done]).
  assert (forall i b1, builders s !! i = Some b1 -> binput b1 = [] /\ forall blocks, binserter blocks i (bstate b1) = Some (start blocks i)) as Hstart.
  { intros i b1 Hb1. pose proof (btag_lookup s i b1 Hb1) as Ht1. split.
    - destruct (bi_input _ _ (iv_build _ _ Hinv) _ _ Hb1) as [_ [Hc|?]]; [|done]. rewrite Hc in Ht1. by destruct (sync_finish _ _ _ _ _ _ _ _ sync Ht1).
    - intros blocks. pose proof (sy_inserting _ _ _ _ _ _ _ sync i _ Ht1) as Hi. assert (hash_inserts_ready sh = false) as Hr.
      { destruct (hash_inserts_ready sh) eqn:Hr; [|done]. destruct (sy_ready _ _ _ _ _ _ _ sync Hr) as [Hx _]. by rewrite Hdir in Hx. }
      rewrite Hr in Hi. destruct (bstate b1); try done; by specialize (Hi eq_refl). }
  destruct (init_directory_inv ts (builders s) (iv_build _ _ Hinv) Hrem Hdir (builders_length s gs Hinv) Hstart) as (ts' & -> & Hdir' & Hrem' & Hbuild & Hpend & Hflags).
  unfold mbind, res_bind. eexists _, gs. split; [done|]. pose proof Hinv as [_ _ Hghosts Hbatches Hprobe]. split.
  - split; cbn [table_state shared builders probers]; try done.
    + rewrite Hrem', build_tags_insert, bool_decide_eq_true_2 by done. cbn [bstate btag]. by rewrite Hrem in Hsync.
    + eapply (build_inv_neutral ts' ts'); try done; [right; apply build_input_nil; congruence|by rewrite Hst].
    + unfold probe_inv in *. rewrite Hdir in Hprobe. destruct (directory ts'); [by apply Hprobe|done].
  - left. unfold work. cbn [table_state builders probers]. rewrite (pend_rows_neutral ts' ts' (builders s) idx b) by (done || by rewrite Hst). rewrite Hpend. unfold pend_rows at 1. rewrite Hdir.
    assert (total (build_work (directory ts')) (<[idx := mkBuilder DirectoryReady (binput b)]> (builders s)) < total (build_work None) (builders s)) as Hlt.
    { pose proof (total_insert (build_work (directory ts')) (builders s) idx b (mkBuilder DirectoryReady (binput b)) Hb) as Htot. unfold build_work in Htot at 2 4.
      rewrite Hst in Htot. cbn [bstate] in Htot. rewrite (total_ext (build_work None) (build_work (directory ts'))); [lia|].
      intros i b1 Hb1. specialize (Hstart i b1 Hb1) as [_ Hs]. unfold build_work. destruct (bstate b1) as [| | | |ins| |] eqn:Hst1; try done.
      pose proof (sy_inserting _ _ _ _ _ _ _ sync i TInsert) as Hi. rewrite (btag_lookup s i b1 Hb1), Hst1 in Hi. specialize (Hi eq_refl eq_refl).
      destruct (sy_ready _ _ _ _ _ _ _ sync Hi) as [Hx _]. by rewrite Hdir in Hx. }
    assert (total (probe_work (row_blocks (merged ts'))) (zip (probers s) gs) = total (probe_work (row_blocks (merged ts))) (zip (probers s) gs)) as ->; [|lia].
    apply idle_work; [exact Hinv|by eapply building_not_ready; [done..|rewrite Hst]|]. intros i p g Hp Hg. unfold probe_inv in Hprobe. rewrite Hdir in Hprobe.
    exists []. by eapply po_ok; [apply Hprobe; by intros q (r & ? & _)|..].
Qed.

Lemma build_publish : bstate b = DirectoryReady -> task_outcome s gs (Ok (moved ts (publish_directory sh) (mkBuilder InsertWait (binput b)))).
Proof.
  intros Hst. pose proof build_tag as Ht. rewrite Hst in Ht. pose proof (sync_publish _ _ _ _ _ _ _ _ sync Ht) as Hsync.
  apply neutral_outcome; try done; [right; apply build_input_nil; congruence|by rewrite Hst|]. unfold build_work. rewrite Hst. cbn. lia.
Qed.

Lemma build_finish_wait :
  bstate b = Finishing false ->
  task_outcome s gs ('(ts', sh', b') ← ('(_, sh') ← check_insert sh idx; Ok (ts, sh', mkBuilder InsertWait (binput b))); Ok (moved ts' sh' b')).
Proof.
  intros Hst. pose proof build_tag as Ht. rewrite Hst in Ht. destruct (sync_check_finish _ _ _ _ _ _ _ _ sync Ht) as (ready & sh' & -> & Hsync).
  unfold mbind, res_bind. apply neutral_outcome; try done; [right; apply build_input_nil; congruence|by rewrite Hst|]. unfold build_work. rewrite Hst. cbn. lia.
Qed.

Lemma awake_parked sh' b' :
  bstate b = InsertWait -> bstate b' = InsertWait -> parked (pending_hash_inserters sh) idx = false ->
  pending_hash_inserters sh' = <[idx := true]> (pending_hash_inserters sh) -> pending_probers sh' = pending_probers sh -> pending_drainers sh' = pending_drainers sh ->
  awake (moved ts sh' b') < awake s.
Proof.
  intros Hst Hst' Hpk Hins Hpr Hdr. unfold awake. cbn [shared builders probers]. rewrite build_tags_insert, Hst', list_insert_id by (rewrite build_tag; by rewrite Hst).
  apply Nat.add_lt_le_mono.
  - eapply (sum_imap_lt _ _ _ idx); [|rewrite build_tag; by rewrite Hst|].
    + intros j t _. unfold build_awake. destruct t; try done. rewrite Hins. unfold parked. destruct (decide (idx = j)) as [->|Hne]; [|by rewrite list_lookup_insert_ne].
      destruct (decide (j < length (pending_hash_inserters sh))); [rewrite list_lookup_insert_eq by done; cbn; lia|by rewrite list_insert_ge by lia].
    + cbn. rewrite Hpk, Hins. unfold parked. rewrite list_lookup_insert_eq; [cbn; lia|].
      rewrite (sy_len_inserters _ _ _ _ _ _ _ sync), <- (builders_length s gs Hinv). by eapply lookup_lt_Some.
  - apply sum_imap_mono. intros j t _. unfold probe_awake. by rewrite Hpr, Hdr.
Qed.

Lemma build_wait :
  bstate b = InsertWait -> parked (pending_hash_inserters sh) idx = false ->
  task_outcome s gs ('(ts', sh', b') ← ('(ready, sh') ← check_insert sh idx;
    Ok (ts, sh', mkBuilder (if ready : bool then Inserting (start_insert ts idx) else InsertWait) (binput b))); Ok (moved ts' sh' b')).
Proof.
  intros Hst Hpk. pose proof build_tag as Ht. rewrite Hst in Ht. destruct (sync_check_insert _ _ _ _ _ _ _ _ sync Ht) as (ready & sh' & -> & Hready & Hsync & Hpark & Hsame & Hpr & Hdr).
  unfold mbind, res_bind. destruct ready.
  - assert (binserter (length (row_blocks (merged ts))) idx (Inserting (start_insert ts idx)) = Some (start (length (row_blocks (merged ts))) idx)) as Hs.
    { cbn. unfold start_insert, start. by rewrite (bi_length _ _ (iv_build _ _ Hinv)). }
    apply neutral_outcome; try done; [right; apply build_input_nil; congruence|by rewrite Hst|]. unfold build_work. rewrite Hst. cbn [bstate].
    pose proof (rank_le batch_size batch_pos (default [] (directory ts)) (start_insert ts idx)). lia.
  - set (b' := mkBuilder InsertWait (binput b)). exists (moved ts sh' b'), gs. split; [done|]. split.
    + apply neutral_inv; try done; [right; apply build_input_nil; congruence|by rewrite Hst].
    + right. split; [|by apply awake_parked; auto].
      assert (work (moved ts sh' b') gs + build_work (directory ts) b = work s gs + build_work (directory ts) b') as Hw by (apply neutral_work; try done; by rewrite Hst).
      unfold build_work in Hw. rewrite Hst in Hw. cbn in Hw. lia.
Qed.

Lemma build_insert ins :
  bstate b = Inserting ins ->
  task_outcome s gs ('(ts', sh', b') ← ('(ts', ins') ← process_step batch_size ts ins;
    Ok (ts', sh, mkBuilder (match ins' with Some ins' => Inserting ins' | None => HashesInserted end) (binput b))); Ok (moved ts' sh' b')).
Proof.
  intros Hst. pose proof build_tag as Ht. rewrite Hst in Ht. pose proof (sy_inserting _ _ _ _ _ _ _ sync _ _ Ht eq_refl) as Hr.
  destruct (sy_ready _ _ _ _ _ _ _ sync Hr) as [Hd _]. apply bool_decide_eq_true in Hd. destruct (directory ts) as [dir|] eqn:Hdir; [|done].
  destruct (insert_inv ts (builders s) dir idx b ins (iv_build _ _ Hinv) Hdir Hb Hst (builders_length s gs Hinv)) as (ts' & oins & dir' & -> & Hdir' & Hrem & Hbuild & Hv & Hm & Hlt).
  assert (scan_ready sh = false) as Hs by (eapply building_not_ready; [done..|by rewrite Hst]).
  unfold mbind, res_bind. eexists _, gs. split; [done|]. pose proof Hinv as [Hsync _ Hghosts Hbatches Hprobe]. unfold probe_inv in Hprobe. rewrite Hdir in Hprobe. split.
  - split; cbn [table_state shared builders probers]; try done.
    + rewrite Hrem, Hdir', build_tags_insert. rewrite Hdir in Hsync. destruct oins as [ins'|]; cbn [bstate btag]; [by rewrite list_insert_id|by eapply sync_inserted].
    + unfold probe_inv. rewrite Hdir'. eapply probers_links; [exact Hprobe|done|done|by eapply not_ready].
  - left. unfold work. cbn [table_state builders probers]. rewrite Hdir, Hdir'.
    rewrite (idle_work s gs (row_blocks (merged ts)) (row_blocks (merged ts')) Hinv Hs); [lia|]. intros i p g Hp Hg. eexists. by eapply po_ok.
Qed.

Lemma build_end :
  bstate b = HashesInserted -> task_outcome s gs ('(ts', sh', b') ← (sh' ← finish_insert sh; Ok (ts, sh', mkBuilder BuildDone (binput b))); Ok (moved ts' sh' b')).
Proof.
  intros Hst. pose proof build_tag as Ht. rewrite Hst in Ht. destruct (sync_built _ _ _ _ _ _ _ _ sync Ht) as (sh' & -> & Hsync & _).
  unfold mbind, res_bind. apply neutral_outcome; try done; [right; apply build_input_nil; congruence|by rewrite Hst|]. unfold build_work. rewrite Hst. cbn. lia.
Qed.

End BuildTask.

Local Abbreviation run := (system_step eval hash_one value_eq value_lt value_le bool_value heap_size desired_size batch_size op table).

Lemma build_task_inv s gs idx r : inv s gs -> run (BuildTask idx) s = Some r -> task_outcome s gs r.
Proof.
  intros Hinv. cbn [system_step]. destruct (builders s !! idx) as [b|] eqn:Hb; [|done]. cbn. unfold build_step.
  destruct (bstate b) as [|[]| | |ins| |] eqn:Hst; [destruct (binput b) as [|batch rest] eqn:Hi|..]; cbn -[parked]; try done; intros Hr.
  - injection Hr as <-. by eapply build_finish.
  - injection Hr as <-. by eapply build_collect.
  - injection Hr as <-. by eapply build_init.
  - injection Hr as <-. by eapply build_finish_wait.
  - injection Hr as <-. by eapply build_publish.
  - destruct (parked _ idx) eqn:Hp; [done|]. injection Hr as <-. by eapply build_wait.
  - injection Hr as <-. by eapply build_insert.
  - injection Hr as <-. by eapply build_end.
Qed.

(** *** A probe partition *)

(** Marking rows keeps the invariant of the build side once all is built. *)
Lemma build_inv_marked ts (bs : list (Builder V)) dir mem' (lv : list Ptr) :
  build_inv ts bs -> directory ts = Some dir -> (forall i b, bs !! i = Some b -> bstate b = BuildDone) -> mem_marked table (row_blocks (merged ts)) mem' lv ->
  let ts' := mkTableState (collections ts) (remaining ts) (mkRowBlocks mem' (heap_blocks (merged ts))) (Some dir) in
  build_inv ts' bs /\ pend_rows ts' bs = pend_rows ts bs.
Proof.
  intros [Hlen Hbi Hdata] Hdir Hdone Hm ts'. pose proof (proj1 Hm) as Hv. rewrite Hdir in Hdata. destruct Hdata as (chains & [[H11 H12 H13 H14 H15] H2 H3 H4 H5]). split.
  - split; [done|done|]. cbn [ts' directory]. exists chains. split; cbn [ts' merged row_blocks]; rewrite ?Hv; try done.
    + split; try done. intros j e c He Hc. eapply is_chain_frame; [|by eapply H14]. intros q _. exact (marked_next _ _ _ _ q Hm).
    + intros i b ins Hb Hi. by rewrite (Hdone _ _ Hb) in Hi.
    + by eapply marked_flags.
  - unfold pend_rows. rewrite Hdir. cbn [ts' directory merged row_blocks]. by rewrite Hv.
Qed.

Section ProbeTask.
Context (s : System V) (gs : list (list (list Ptr))) (Hinv : inv s gs) (idx : nat) p g (Hp : probers s !! idx = Some p) (Hg : gs !! idx = Some g).
Local Abbreviation ts := (table_state s).
Local Abbreviation sh := (shared s).
Local Abbreviation mem := (row_blocks (merged (table_state s))).
Local Abbreviation sync := (iv_sync _ _ Hinv).
Local Abbreviation moved ts' sh' p' := (mkSystem ts' sh' (builders s) (<[idx := p']> (probers s))).

Lemma ptags_insert p' : ptag <$> <[idx := p']> (probers s) = <[idx := ptag p']> (ptag <$> probers s).
Proof. apply (list_fmap_insert ptag). Qed.

Lemma probe_tag : (ptag <$> probers s) !! idx = Some (ptag p).
Proof. by apply ptag_lookup. Qed.

Lemma prober_idx_lt : idx < n.
Proof. rewrite <- (probers_length s gs Hinv). by eapply lookup_lt_Some. Qed.

Lemma zip_lookup : zip (probers s) gs !! idx = Some (p, g).
Proof. apply lookup_zip_with_Some. by exists p, g. Qed.

Lemma zip_insert p' g' : zip (<[idx := p']> (probers s)) (<[idx := g']> gs) = <[idx := (p', g')]> (zip (probers s) gs).
Proof. symmetry. apply insert_zip_with. Qed.

(** A step on the state of one prober alone. *)
Section ProbeNeutral.
Context (sh' : Shared) (p' : Prober V).
Context (Hok : forall mem0, (directory ts <> None -> mem0 = mem) -> prober_ok mem0 idx p g -> prober_ok mem0 idx p' g) (Hmarks : forall B, rest_marks B p' g = rest_marks B p g) (Hinput : pinput p' = pinput p).
Context (Hsync : sync_inv drains n (is_built ts) (remaining ts) sh' (btag ∘ bstate <$> builders s) (<[idx := ptag p']> (ptag <$> probers s))).

Lemma probe_neutral_inv : inv (moved ts sh' p') gs.
Proof.
  destruct Hinv as [_ Hbuild Hghosts Hbatches Hprobe]. split; cbn [table_state shared builders probers]; try done.
  - by rewrite ptags_insert.
  - intros i p1 Hi. looked_up; [rewrite Hinput|]; by eapply Hbatches.
  - assert (forall mem0, (directory ts <> None -> mem0 = mem) -> probers_ok mem0 (probers s) gs -> probers_ok mem0 (<[idx := p']> (probers s)) gs) as Hstep.
    { intros mem0 Hmem0 Hpo. rewrite <- (list_insert_id gs idx g Hg). eapply probers_update; try done.
      - apply Hok; [done|]. by eapply po_ok.
      - intros _ q. by rewrite Hmarks. }
    unfold probe_inv in *. destruct (directory ts); [by apply Hstep|]. intros mem0 Hf. apply Hstep; [done|by apply Hprobe].
Qed.

Lemma probe_neutral_work : work (moved ts sh' p') gs + probe_work mem (p, g) = work s gs + probe_work mem (p', g).
Proof.
  unfold work. cbn [table_state builders probers]. pose proof (zip_insert p' g) as Hz. rewrite (list_insert_id gs idx g Hg) in Hz. rewrite Hz.
  pose proof (total_insert (probe_work mem) _ idx _ (p', g) zip_lookup). lia.
Qed.

Lemma probe_neutral_outcome : probe_work mem (p', g) < probe_work mem (p, g) -> task_outcome s gs (Ok (moved ts sh' p')).
Proof. intros Hlt. exists (moved ts sh' p'), gs. split_and!; [done|apply probe_neutral_inv|]. left. pose proof probe_neutral_work. lia. Qed.

(** The prober goes to sleep. *)
Lemma probe_sleep_outcome :
  ptag p' = ptag p -> probe_work mem (p', g) = probe_work mem (p, g) -> probe_awake sh' idx (ptag p) < probe_awake sh idx (ptag p) ->
  (forall j t, j <> idx -> probe_awake sh' j t = probe_awake sh j t) -> pending_hash_inserters sh' = pending_hash_inserters sh ->
  task_outcome s gs (Ok (moved ts sh' p')).
Proof.
  intros Ht Hw Hlt Hothers Hpi. exists (moved ts sh' p'), gs. split_and!; [done|apply probe_neutral_inv|]. right. pose proof probe_neutral_work. split; [lia|].
  unfold awake. cbn [shared builders probers]. rewrite ptags_insert, Ht, list_insert_id by apply probe_tag. apply Nat.add_le_lt_mono.
  - apply sum_imap_mono. intros j t _. unfold build_awake. by rewrite Hpi.
  - eapply (sum_imap_lt _ _ _ idx); [|apply probe_tag|done]. intros j t Hj. destruct (decide (j = idx)) as [->|Hne]; [|by rewrite Hothers].
    rewrite probe_tag in Hj. injection Hj as <-. lia.
Qed.

End ProbeNeutral.

Lemma probe_finalize ready fresh st :
  pstate p = Probing ready fresh st -> pinput p = [] ->
  task_outcome s gs ('(ts', sh', p') ← ('(sh', st') ← finalize_probe table idx sh; Ok (ts, sh', mkProber st' [] (emitted p))); Ok (moved ts' sh' p')).
Proof.
  intros Hst Hi. pose proof probe_tag as Ht. unfold ptag in Ht at 2. rewrite Hst, Hi in Ht.
  destruct (join_sync_finalize (V:=V) _ _ table _ _ _ _ _ _ _ ltac:(by rewrite table_join_type) sync Ht) as (sh' & -> & Hsync & _). unfold mbind, res_bind.
  apply probe_neutral_outcome.
  - intros mem0 _. unfold prober_ok, rest_out. rewrite Hst, Hi. intros [Ho _]. rewrite app_nil_r in Ho. cbn [pstate emitted]. destruct drains eqn:Hd; [done|by rewrite app_nil_r].
  - intros B. unfold rest_marks. rewrite Hst, Hi. cbn [pstate pinput]. by destruct drains.
  - by rewrite Hi.
  - by destruct drains.
  - unfold probe_work. cbn [fst snd pstate pinput]. rewrite Hst, Hi. destruct drains, ready; lia.
Qed.

Lemma probe_wait fresh st rhs rest :
  pstate p = Probing false fresh st -> pinput p = rhs :: rest -> parked (pending_probers sh) idx = false ->
  task_outcome s gs ('(ts', sh', p') ← ('(ready', sh') ← check_probe sh idx; Ok (ts, sh', mkProber (Probing ready' fresh st) (rhs :: rest) (emitted p))); Ok (moved ts' sh' p')).
Proof.
  intros Hst Hi Hpk. pose proof probe_tag as Ht. unfold ptag in Ht at 2. rewrite Hst, Hi in Ht.
  destruct (sync_check_probe _ _ _ _ _ _ _ _ sync Ht) as (ready' & sh' & -> & Hready & Hsync & _ & Hpark & _ & Hpi & Hpd). unfold mbind, res_bind.
  assert (forall mem0, prober_ok mem0 idx p g -> prober_ok mem0 idx (mkProber (Probing ready' fresh st) (rhs :: rest) (emitted p)) g) as Hok.
  { intros mem0. unfold prober_ok, rest_out. rewrite Hst, Hi. cbn [pstate pinput emitted]. intros [Ho Hf]. split; [done|]. intros Hfr. by destruct (Hf Hfr). }
  assert (forall B, rest_marks B (mkProber (Probing ready' fresh st) (rhs :: rest) (emitted p)) g = rest_marks B p g) as Hmk by (intros B; unfold rest_marks; by rewrite Hst, Hi).
  destruct ready'.
  - apply probe_neutral_outcome; try done; [by intros mem0 _; apply Hok|]. unfold probe_work. cbn [fst snd pstate pinput]. rewrite Hst, Hi. lia.
  - apply probe_sleep_outcome; try done; [by intros mem0 _; apply Hok|..].
    + unfold ptag. by rewrite Hst, Hi.
    + unfold probe_work. cbn [fst snd pstate pinput]. by rewrite Hst, Hi.
    + unfold ptag. rewrite Hst, Hi. cbn. rewrite Hpk, (Hpark eq_refl). unfold parked. rewrite list_lookup_insert_eq; [cbn; lia|].
      rewrite (sy_len_probers _ _ _ _ _ _ _ sync). apply prober_idx_lt.
    + intros j t Hne. unfold probe_awake. by rewrite Hpd, (Hpark eq_refl); unfold parked; rewrite list_lookup_insert_ne.
Qed.

Lemma drain_wait st :
  pstate p = Draining false st -> parked (pending_drainers sh) idx = false ->
  task_outcome s gs ('(ts', sh', p') ← ('(ready', sh') ← check_drain sh idx; Ok (ts, sh', mkProber (Draining ready' st) (pinput p) (emitted p))); Ok (moved ts' sh' p')).
Proof.
  intros Hst Hpk. pose proof probe_tag as Ht. unfold ptag in Ht at 2. rewrite Hst in Ht.
  destruct (sync_check_drain _ _ _ _ _ _ _ _ sync Ht) as (ready' & sh' & -> & Hready & Hsync & _ & _ & Hpark & _ & Hpi & Hpr). unfold mbind, res_bind.
  assert (forall mem0, prober_ok mem0 idx p g -> prober_ok mem0 idx (mkProber (Draining ready' st) (pinput p) (emitted p)) g) as Hok.
  { intros mem0. unfold prober_ok. rewrite Hst. cbn [pstate emitted]. intros [-> Ho]. destruct ready'; [|done]. by rewrite Ho. }
  assert (forall B, rest_marks B (mkProber (Draining ready' st) (pinput p) (emitted p)) g = rest_marks B p g) as Hmk by (intros B; unfold rest_marks; by rewrite Hst).
  destruct ready'.
  - apply probe_neutral_outcome; try done; [by intros mem0 _; apply Hok|]. unfold probe_work. cbn [fst snd pstate pinput]. rewrite Hst.
    symmetry in Hready. apply andb_true_iff in Hready as [_ Hs]. destruct (chains_complete s gs Hinv Hs) as (dir & chains & Hdir & _ & _ & Hrows & _).
    pose proof (iv_probe _ _ Hinv) as Hprobe. unfold probe_inv in Hprobe. rewrite Hdir in Hprobe. pose proof (po_ok _ _ _ Hprobe _ _ _ Hp Hg) as Hpo.
    unfold prober_ok in Hpo. rewrite Hst in Hpo. destruct Hpo as [-> _]. pose proof (drained_le mem idx prober_idx_lt) as Hle.
    rewrite <- length_values, Hrows, length_fmap in Hle. lia.
  - apply probe_sleep_outcome; try done; [by intros mem0 _; apply Hok|..].
    + unfold ptag. by rewrite Hst.
    + unfold probe_work. cbn [fst snd pstate pinput]. by rewrite Hst.
    + unfold ptag. rewrite Hst. cbn. rewrite Hpk, (Hpark eq_refl). unfold parked. rewrite list_lookup_insert_eq; [cbn; lia|].
      rewrite (sy_len_drainers _ _ _ _ _ _ _ sync). apply prober_idx_lt.
    + intros j t Hne. unfold probe_awake. by rewrite Hpr, (Hpark eq_refl); unfold parked; rewrite list_lookup_insert_ne.
Qed.

Lemma probe_drain st :
  pstate p = Draining true st ->
  task_outcome s gs ('(ts', sh', p') ← ('(st', out) ← drain_next bool_value batch_size table ts (right_types op) st;
    Ok (ts, sh, if length out =? 0 then mkProber ProbeDone (pinput p) (emitted p) else mkProber (Draining true st') (pinput p) (emitted p ++ out))); Ok (moved ts' sh' p')).
Proof.
  intros Hst. pose proof probe_tag as Ht. unfold ptag in Ht at 2. rewrite Hst in Ht. pose proof (sy_drains _ _ _ _ _ _ _ sync _ _ Ht) as Hd.
  destruct (sy_drain_ready _ _ _ _ _ _ _ sync _ Ht) as [_ Hs]. destruct (chains_complete s gs Hinv Hs) as (dir & chains & Hdir & _ & _ & _ & Hflags).
  destruct (drain_next_rows ts st Hd (bi_length _ _ (iv_build _ _ Hinv)) Hflags) as (st' & -> & Hst'). unfold mbind, res_bind. rewrite length_fmap.
  destruct (Nat.eqb_spec (length (take batch_size (drained mem st))) 0) as [Hz|Hz]; rewrite length_take in Hz.
  - assert (drained mem st = []) as Hnil by (apply length_zero_iff_nil; lia). apply probe_neutral_outcome; try done.
    + intros mem0 Hmem0. rewrite Hmem0 by by rewrite Hdir. unfold prober_ok. rewrite Hst. cbn [pstate emitted]. rewrite Hnil, Hd. cbn. by rewrite app_nil_r.
    + intros B. unfold rest_marks. by rewrite Hst.
    + exact (sync_drained _ _ _ _ _ _ _ _ sync Ht).
    + unfold probe_work. cbn [fst pstate]. rewrite Hst. lia.
  - apply probe_neutral_outcome; try done.
    + intros mem0 Hmem0. rewrite Hmem0 by by rewrite Hdir. unfold prober_ok. rewrite Hst. cbn [pstate emitted]. intros <-. rewrite Hst', <- app_assoc, <- fmap_app, take_drop. done.
    + intros B. unfold rest_marks. by rewrite Hst.
    + change (ptag (mkProber (Draining true st') (pinput p) (emitted p ++ (drain_row <$> take batch_size (drained mem st))))) with (TDrain true). rewrite (list_insert_id _ _ _ Ht). exact sync.
    + unfold probe_work. cbn [fst pstate]. rewrite Hst, Hst', length_drop. lia.
Qed.

(** While a partition probes, none drains. *)
Lemma none_drained ready fresh st :
  pstate p = Probing ready fresh st -> forall j p1, probers s !! j = Some p1 -> (forall st1, pstate p1 <> Draining true st1) /\ (drains = true -> pstate p1 <> ProbeDone).
Proof.
  intros Hst. pose proof probe_tag as Ht. unfold ptag in Ht at 2. rewrite Hst in Ht. assert (drains = true -> drain_ready sh = false) as Hnd.
  { intros Hd. rewrite (sy_drain _ _ _ _ _ _ _ sync Hd). apply bool_decide_eq_false_2. intros Hz. by pose proof (total_zero _ _ _ _ Hz Ht). }
  intros j p1 Hj. pose proof (ptag_lookup s j p1 Hj) as Htj. unfold ptag in Htj. split.
  - intros st1 Hst1. rewrite Hst1 in Htj. destruct (sy_drain_ready _ _ _ _ _ _ _ sync _ Htj) as [Hx _]. rewrite (Hnd (sy_drains _ _ _ _ _ _ _ sync _ _ Htj)) in Hx. done.
  - intros Hd Hst1. rewrite Hst1 in Htj. destruct (sy_done _ _ _ _ _ _ _ sync _ Hd Htj) as [Hx _]. by rewrite (Hnd Hd) in Hx.
Qed.

Lemma probe_execute fresh st rhs rest :
  pstate p = Probing true fresh st -> pinput p = rhs :: rest ->
  task_outcome s gs ('(ts', sh', p') ← ('(ts', st', out) ← execute_probe eval hash_one value_eq value_lt value_le batch_size table ts fresh st rhs;
    Ok (ts', sh, if length out =? 0 then mkProber (Probing true true st') rest (emitted p) else mkProber (Probing true false st') (rhs :: rest) (emitted p ++ out)));
    Ok (moved ts' sh' p')).
Proof.
  intros Hst Hi. pose proof probe_tag as Ht. unfold ptag in Ht at 2. rewrite Hst, Hi in Ht. pose proof (sy_probe_ready _ _ _ _ _ _ _ sync _ _ Ht) as Hs.
  destruct (chains_complete s gs Hinv Hs) as (dir & chains & Hdir & Hch & Hall & Hrows & Hflags). pose proof Hinv as [Hsync Hbuild Hghosts Hbatches Hprobe].
  unfold probe_inv in Hprobe. rewrite Hdir in Hprobe. pose proof (Hbatches _ _ Hp) as Hbat. rewrite Hi in Hbat. apply Forall_cons in Hbat as [Hrhs Hrest].
  destruct (execute_spec ts dir chains idx p g fresh st rhs rest Hdir Hch Hall Hrows Hflags Hst Hi Hrhs (po_ok _ _ _ Hprobe _ _ _ Hp Hg))
    as (mem' & st' & out & g' & lv & -> & Hmm & Hlv & Hok & Hwork & Hmarks). unfold mbind, res_bind.
  set (p' := if length out =? 0 then _ else _) in *. pose proof (none_drained true fresh st Hst) as Hnone. pose proof (proj1 Hmm) as Hv.
  destruct (build_inv_marked ts (builders s) dir mem' lv Hbuild Hdir (all_done s gs Hinv Hs) Hmm) as [Hbuild' Hpend].
  eexists _, (<[idx := g']> gs). split; [done|]. split.
  - split; cbn [table_state shared builders probers remaining directory]; rewrite ?length_insert; try done.
    + rewrite ptags_insert. rewrite Hdir in Hsync. assert (exists m, ptag p' = TProbe true m) as [m ->] by (unfold p', ptag; destruct (length out =? 0); by eexists).
      by eapply sync_more.
    + intros i p1 Hi1. looked_up; [|by eapply Hbatches]. unfold p'. destruct (length out =? 0); cbn; [done|by apply Forall_cons].
    + unfold probe_inv. cbn [directory merged row_blocks]. eapply probers_update; try done.
      * intros j p1 g1 _ Hj Hpo. destruct (Hnone j p1 Hj) as [H1 H2]. apply (prober_frame mem); try done. intros _ _ _ q. exact (marked_next _ _ _ _ q Hmm).
      * intros Hn q. rewrite (flagged_marked _ _ _ q Hn Hmm Hlv), (Hmarks q). tauto.
  - left. unfold work. cbn [table_state builders probers directory merged row_blocks]. rewrite Hpend, Hdir, zip_insert.
    pose proof (total_insert (probe_work mem') _ idx _ (p', g') zip_lookup) as Htot.
    assert (total (probe_work mem') (zip (probers s) gs) = total (probe_work mem) (zip (probers s) gs)) as Hsame.
    { apply total_ext. intros i [p1 g1] Hi1. apply lookup_zip_with_Some in Hi1 as (? & ? & [= <- <-] & Hp1 & _). apply probe_work_frame; [done|]. by apply (Hnone i). }
    assert (probe_work mem' (p, g) = probe_work mem (p, g)) as Hsame1 by (apply probe_work_frame; [done|]; by apply (Hnone idx)). lia.
Qed.

End ProbeTask.

Lemma probe_task_inv s gs idx r : inv s gs -> run (ProbeTask idx) s = Some r -> task_outcome s gs r.
Proof.
  intros Hinv. cbn [system_step]. destruct (probers s !! idx) as [p|] eqn:Hp; [|done].
  destruct (lookup_lt_is_Some_2 gs idx) as [g Hg]; [rewrite (iv_ghosts _ _ Hinv), <- (probers_length s gs Hinv); by eapply lookup_lt_Some|]. cbn. unfold probe_step.
  destruct (pstate p) as [ready fresh st|ready st|] eqn:Hst; [destruct (pinput p) as [|rhs rest] eqn:Hi; [|destruct ready; [|destruct (parked _ idx) eqn:Hpk]]|..];
    cbn -[parked]; try done; try (intros Hr; injection Hr as <-).
  - by eapply probe_finalize.
  - by eapply probe_execute.
  - by eapply probe_wait.
  - destruct ready; [|destruct (parked _ idx) eqn:Hpk]; try done; intros Hr; injection Hr as <-; [by eapply probe_drain|by eapply drain_wait].
Qed.

(** Every step succeeds, keeps the invariant and decreases the measure. *)
Lemma join_step_inv s gs t r : inv s gs -> run t s = Some r -> exists s' gs', r = Ok s' /\ inv s' gs' /\ measure s' gs' < measure s gs.
Proof.
  intros Hinv Hr. assert (task_outcome s gs r) as (s' & gs' & -> & Hinv' & Hlt); [|exists s', gs'; split_and!; [done|done|by apply measure_lt]].
  destruct t as [idx|idx]; [by eapply build_task_inv|by eapply probe_task_inv].
Qed.

(** A system that is not finished has a step. *)
Lemma join_progress s gs : inv s gs -> finished s \/ exists t r, run t s = Some r.
Proof.
  intros Hinv. apply (synchronized_progress _ _ _ _ _ _ _ _ _ _ _ n). unfold synchronized. rewrite table_join_type. apply (iv_sync _ _ Hinv).
Qed.

(** ** The start *)

Local Abbreviation new_system := (new_system lefts rights).

Lemma join_create_ok : create op lefts rights = Ok (table, new_system).
Proof. apply new_system_created; [done|apply Hin|apply Hin]. Qed.

Lemma join_start_inv : inv new_system (replicate n []).
Proof.
  split; cbn [new_system table_state shared builders probers create_table_state remaining].
  - pose proof (new_system_synchronized table lefts rights n_pos (ji_same Hin)) as Hs. unfold synchronized in Hs. by rewrite table_join_type in Hs.
  - split; cbn [create_table_state collections directory]; [by rewrite length_replicate| |].
    + intros i b Hb. rewrite list_lookup_fmap in Hb. destruct (lefts !! i) as [bs|] eqn:Hi; [|done]. injection Hb as <-. cbn. split; [|by left].
      by eapply Forall_lookup_1 in Hi; [|apply Hin].
    + split; [done|]. cbn [create_table_state collections]. intros i blocks b [-> _]%lookup_replicate Hb. exists []. split; [done|]. rewrite list_lookup_fmap in Hb.
      destruct (lefts !! i) as [bs|] eqn:Hi; [|done]. injection Hb as <-. cbn. by rewrite (list_lookup_total_correct _ _ _ Hi).
  - by rewrite length_replicate.
  - intros i p Hp. rewrite list_lookup_fmap in Hp. destruct (rights !! i) as [bs|] eqn:Hi; [|done]. injection Hp as <-. cbn. by eapply Forall_lookup_1 in Hi; [|apply Hin].
  - unfold probe_inv. cbn [create_table_state directory]. intros mem Hnf. split.
    + intros i p g Hp _. rewrite list_lookup_fmap in Hp. destruct (rights !! i) as [bs|] eqn:Hi; [|done]. injection Hp as <-. unfold prober_ok. cbn [pstate emitted app].
      split; [|done]. unfold rest_out, probe_total. cbn [pstate pinput]. rewrite (list_lookup_total_correct _ _ _ Hi). by destruct bs.
    + intros _ q. unfold all_marks. rewrite list_elem_of_In, in_concat. split.
      * intros (l & Hl & Hq). apply list_elem_of_In in Hl, Hq. apply list_elem_of_fmap in Hl as (rhs & -> & Hr). apply list_elem_of_In, in_concat in Hr as (bs & Hbs & Hr).
        apply list_elem_of_In in Hbs, Hr. apply list_elem_of_lookup in Hbs as [i Hi]. right. exists i, (mkProber (Probing false true empty_scan_state) bs []), [].
        rewrite list_lookup_fmap, Hi, lookup_replicate_2 by (rewrite <- (ji_same Hin); by eapply lookup_lt_Some). split_and!; [done|done|]. unfold rest_marks. cbn [pstate pinput].
        assert (q ∈ concat (batch_marks (values mem) <$> bs)) as Hc; [|by destruct bs]. apply list_elem_of_In, in_concat. exists (batch_marks (values mem) rhs).
        split; apply list_elem_of_In; [|done]. apply list_elem_of_fmap. by exists rhs.
      * intros [Hf|(i & p & g & Hp & _ & Hq)]; [by destruct (Hnf q)|]. rewrite list_lookup_fmap in Hp. destruct (rights !! i) as [bs|] eqn:Hi; [|done]. injection Hp as <-.
        assert (q ∈ concat (batch_marks (values mem) <$> bs)) as Hc by (generalize Hq; unfold rest_marks; cbn [pstate pinput]; by destruct bs).
        apply list_elem_of_In, in_concat in Hc as (l & Hl & Hq'). apply list_elem_of_In, list_elem_of_fmap in Hl as (rhs & -> & Hr). exists (batch_marks (values mem) rhs).
        split; [|done]. apply list_elem_of_In, list_elem_of_fmap. exists rhs. split; [done|]. apply list_elem_of_In, in_concat. exists bs. split; apply list_elem_of_In; [by eapply list_elem_of_lookup_2|done].
Qed.

(** The number of steps that any schedule can take. *)
Definition step_bound : nat :=
  (2 * n + 1) * ((n + 7) * length all_left + sum_list ((fun bs => 11 + length bs) <$> lefts)
                 + sum_list ((fun bs => length all_left + 4 + sum_list (fresh_work <$> bs)) <$> rights)) + 2 * n.

Lemma join_start_measure : measure new_system (replicate n []) <= step_bound.
Proof.
  unfold measure, step_bound. pose proof (awake_le _ _ join_start_inv) as Ha. apply Nat.add_le_mono; [|done]. apply Nat.mul_le_mono_l. unfold work.
  cbn [new_system table_state builders probers]. apply Nat.add_le_mono; [apply Nat.add_le_mono|]; [done| |].
  - unfold total. rewrite <- list_fmap_compose. done.
  - generalize (row_blocks (merged (create_table_state n : TableState V))) as mem0. intros mem0. rewrite <- (ji_same Hin). apply Nat.eq_le_incl.
    clear. unfold total. induction rights as [|bs rs IH]; [done|].
    transitivity (probe_work mem0 (mkProber (Probing false true empty_scan_state) bs [], []) + sum_list (probe_work mem0 <$> zip ((fun bs => mkProber (Probing false true empty_scan_state) bs []) <$> rs)
      (replicate (length rs) []))); [done|]. rewrite IH. unfold probe_work. cbn. destruct bs; cbn; unfold id; lia.
Qed.

(** ** The result *)

Local Abbreviation joins_rows := (joins eval value_eq value_lt value_le op).
Local Abbreviation matched_by := (has_match eval value_eq value_lt value_le op).

Section Result.
Context mem (Hrows : concat (values mem) = encode eval op <$> all_left).
Local Abbreviation B := (values mem).

(** The columns of the left side of an encoded row. *)
Definition left_row (vals : Row) : Row := take (left_types op) vals.

Lemma left_row_encode l : length l = left_types op -> left_row (encode eval op l) = l.
Proof. intros Hl. unfold left_row, encode. by rewrite take_app_length'. Qed.

Lemma left_rows : left_row <$> concat B = all_left.
Proof.
  rewrite Hrows, <- list_fmap_compose. transitivity (id <$> all_left); [|apply list_fmap_id]. apply list_fmap_ext. intros i l Hl. apply left_row_encode.
  by eapply Forall_lookup_1 in Hl; [|apply left_width].
Qed.

Definition row_of q : Row := left_row (default [] (row_at B q)).

Lemma rows_of : row_of <$> ptrs_of B = all_left.
Proof.
  rewrite <- left_rows. transitivity ((fun o => left_row (default [] o)) <$> (row_at B <$> ptrs_of B)); [by rewrite <- list_fmap_compose|].
  rewrite ptrs_of_rows, <- list_fmap_compose. done.
Qed.

Lemma match_joins rhs j q : j < length rhs -> q ∈ ptrs_of B -> row_match value_eq value_lt value_le table B (key <$> rhs) j q = joins_rows (row_of q) (rhs !!! j).
Proof.
  intros Hj [vals Hv]%elem_of_ptrs. pose proof (row_at_concat _ _ _ Hv) as Hin'. rewrite Hrows in Hin'. apply list_elem_of_fmap in Hin' as (l & -> & Hl).
  assert (length l = left_types op) as Hlen by (by eapply Forall_forall in Hl; [|apply left_width]).
  rewrite (row_match_joins eval value_eq value_lt value_le batch_size op table Htable batch_pos mem rhs j q l) by done. unfold row_of. rewrite Hv. cbn. by rewrite left_row_encode.
Qed.

Lemma index_rows {A} `{Inhabited A} (l : list A) : (fun j => l !!! j) <$> seq 0 (length l) = l.
Proof.
  apply list_eq. intros i. rewrite list_lookup_fmap. destruct (l !! i) as [x|] eqn:Hi.
  - rewrite lookup_seq_lt by (by eapply lookup_lt_Some). cbn. by rewrite (list_lookup_total_correct _ _ _ Hi).
  - rewrite lookup_seq_ge; [done|]. by apply lookup_ge_None in Hi.
Qed.

(** The matches of a batch, row by row. *)
Lemma joined_hits rhs :
  joined table B rhs <$> hits_of B rhs (replicate (length rhs) (ptrs_of B)) = concat ((fun r => (fun l => l ++ r) <$> filter (fun l => joins_rows l r) all_left) <$> rhs).
Proof.
  unfold hits. rewrite fmap_concat, <- list_fmap_compose.
  transitivity (concat ((fun j => (fun l => l ++ rhs !!! j) <$> filter (fun l => joins_rows l (rhs !!! j)) all_left) <$> seq 0 (length rhs))).
  - f_equal. apply list_fmap_ext. intros k j Hj. apply lookup_seq in Hj as [-> Hj]. cbn. rewrite lookup_total_replicate_2 by done.
    rewrite <- rows_of, filter_map_swap, <- !list_fmap_compose.
    rewrite (filter_ext_elem (fun q => row_match value_eq value_lt value_le table B (key <$> rhs) k q) (fun q => joins_rows (row_of q) (rhs !!! k)));
      [|intros q Hq; by rewrite match_joins].
    apply list_fmap_ext. intros _ q _. cbn. unfold joined. cbn [fst snd]. destruct fields as (_ & _ & -> & _). done.
  - transitivity (concat ((fun r => (fun l => l ++ r) <$> filter (fun l => joins_rows l r) all_left) <$> ((fun j => rhs !!! j) <$> seq 0 (length rhs)))); [by rewrite <- list_fmap_compose|].
    by rewrite index_rows.
Qed.

Lemma marks_joins rhs q : q ∈ batch_marks B rhs <-> q ∈ ptrs_of B /\ exists r, r ∈ rhs /\ joins_rows (row_of q) r.
Proof.
  unfold batch_marks. rewrite list_elem_of_fmap. split.
  - intros ([q' j] & -> & (Hj & Hq & Hm)%elem_of_hits). cbn. rewrite lookup_total_replicate_2 in Hq by done. split; [done|]. rewrite match_joins in Hm by done.
    exists (rhs !!! j). split; [by apply list_elem_of_lookup_total_2|done].
  - intros (Hq & r & Hr & Hj). apply list_elem_of_lookup in Hr as [j Hr]. exists (q, j). split; [done|]. apply elem_of_hits.
    assert (j < length rhs) as Hlt by by eapply lookup_lt_Some. rewrite lookup_total_replicate_2 by done. split_and!; [done|done|]. rewrite match_joins by done.
    by rewrite (list_lookup_total_correct _ _ _ Hr).
Qed.

Lemma unmatched_rows rhs :
  null_row table rhs <$> unmatched value_eq value_lt value_le table B rhs (key <$> rhs) (mkScan [] (replicate (length rhs) false) [] []) (replicate (length rhs) (ptrs_of B))
  = app (replicate (left_types op) None) <$> filter (fun r => negb (existsb (fun l => joins_rows l r) all_left)) rhs.
Proof.
  unfold unmatched. cbn [right_matches]. rewrite length_replicate.
  transitivity (app (replicate (left_types op) None) <$> filter (fun r => negb (existsb (fun l => joins_rows l r) all_left)) ((fun j => rhs !!! j) <$> seq 0 (length rhs))); [|by rewrite index_rows].
  rewrite filter_map_swap, <- list_fmap_compose.
  unfold null_row. destruct fields as (_ & _ & -> & _). f_equal. apply filter_ext_elem. intros j Hj%elem_of_seq. rewrite lookup_replicate_2 by lia.
  rewrite Is_true_true, negb_true_iff, <- not_true_iff_false, existsb_exists. rewrite <- rows_of. split.
  - intros [_ Hno] (l & Hl & Hm). apply list_elem_of_In, list_elem_of_fmap in Hl as (q & -> & Hq). apply Hno. apply list_elem_of_fmap. exists (q, j). split; [done|].
    apply elem_of_hits. rewrite lookup_total_replicate_2 by lia. split_and!; [lia|done|]. rewrite match_joins by (done || lia). by apply Is_true_true.
  - intros Hno. split; [done|]. intros ([q k] & -> & (Hk & Hq & Hm)%elem_of_hits)%list_elem_of_fmap. cbn in *. apply Hno. rewrite lookup_total_replicate_2 in Hq by done.
    exists (row_of q). split; [apply list_elem_of_In, list_elem_of_fmap; by exists q|]. rewrite match_joins in Hm by done. by apply Is_true_true.
Qed.

Local Abbreviation inner := (inner_rows eval value_eq value_lt value_le op).

Lemma inner_swap (ls rs : list Row) : concat ((fun r => (fun l => l ++ r) <$> filter (fun l => joins_rows l r) ls) <$> rs) ≡ₚ inner ls rs.
Proof.
  unfold inner_rows. transitivity (concat ((fun r => concat ((fun l => if decide (joins_rows l r) then [l ++ r] else []) <$> ls)) <$> rs)).
  - apply reflexive_eq. f_equal. apply list_fmap_ext. intros _ r _. by rewrite <- (concat_filter (fun l => joins_rows l r)).
  - rewrite concat_swap. apply reflexive_eq. f_equal. apply list_fmap_ext. intros _ l _. by rewrite (concat_filter (fun r => joins_rows l r)).
Qed.

Definition probe_rows : list Row :=
  match jt with
  | JoinType.Inner | JoinType.Left => inner all_left all_right
  | JoinType.Right => inner all_left all_right ++ (app (replicate (left_types op) None) <$> filter (fun r => negb (existsb (fun l => joins_rows l r) all_left)) all_right)
  | _ => []
  end.

Lemma concat_nested {X Y} (f : X -> list Y) (ls : list (list X)) : concat (fmap (M:=list) (fun l : list X => concat (f <$> l)) ls) = concat (f <$> concat ls).
Proof. induction ls as [|l ls IH]; [done|]. cbn [fmap list_fmap concat]. by rewrite IH, fmap_app, concat_app. Qed.

Lemma concat_fmap_filter {X Y} (f : X -> Y) (P : X -> Prop) `{forall x, Decision (P x)} (ls : list (list X)) : concat (fmap (M:=list) (fun l : list X => fmap (M:=list) f (filter P l)) ls) = fmap (M:=list) f (filter P (concat ls)).
Proof. induction ls as [|l ls IH]; [done|]. cbn [fmap list_fmap concat]. by rewrite IH, filter_app, fmap_app. Qed.

(** What the batches of the probe side give together. *)
Lemma all_batches : concat (batch_out B <$> concat rights) ≡ₚ probe_rows.
Proof.
  assert (concat ((fun rhs => joined table B rhs <$> hits_of B rhs (replicate (length rhs) (ptrs_of B))) <$> concat rights) ≡ₚ inner all_left all_right) as Hinner.
  { rewrite (list_fmap_ext _ (fun rhs => concat ((fun r => (fun l => l ++ r) <$> filter (fun l => joins_rows l r) all_left) <$> rhs))) by (intros; apply joined_hits).
    rewrite concat_nested. apply inner_swap. }
  pose proof unmatched_rows as Hun. unfold batch_out, probe_rows, owed. rewrite table_join_type. generalize (ji_supported Hin). destruct jt; try done; intros _.
  - rewrite concat_app_perm, Hinner. apply Permutation_app_head, reflexive_eq.
    rewrite (list_fmap_ext _ (fun rhs => app (replicate (left_types op) None) <$> filter (fun r => negb (existsb (fun l => joins_rows l r) all_left)) rhs)) by (intros; apply Hun).
    apply concat_fmap_filter.
  - apply reflexive_eq. clear. induction (concat rights) as [|rhs l IH]; [done|]. cbn. exact IH.
  - apply reflexive_eq. clear. induction (concat rights) as [|rhs l IH]; [done|]. cbn. exact IH.
Qed.

Definition drain_rows : list Row :=
  match jt with
  | JoinType.Left => (fun l => l ++ replicate (right_types op) None) <$> filter (fun l => negb (matched_by all_right l)) all_left
  | JoinType.LeftSemi => filter (matched_by all_right) all_left
  | JoinType.LeftMark _ => (fun l => l ++ [Some (bool_value (matched_by all_right l))]) <$> all_left
  | _ => []
  end.

Section Marked.
Context (Hflags : flags_ok table mem) (Hneeds : needs = true) (Hmarks : forall q, q ∈ all_marks B <-> flagged mem q).

Lemma matched_rows r : r ∈ concat mem -> matched r = Some (matched_by all_right (left_row (encoded r))).
Proof.
  intros Hr. assert (exists q, row_at mem q = Some r) as [q Hq].
  { assert (Some r ∈ row_at mem <$> ptrs_of mem) as (q & Hq & _)%list_elem_of_fmap by (rewrite ptrs_of_rows; by apply list_elem_of_fmap_2). by exists q. }
  assert (row_at B q = Some (encoded r)) as Hv by by rewrite row_at_values, Hq.
  destruct (Hflags ltac:(by rewrite table_join_type) q r Hq) as [f Hf]. rewrite Hf. f_equal. apply eq_true_iff_eq.
  assert (f = true <-> flagged mem q) as ->.
  { unfold flagged. rewrite Hq. split; [intros ->; by exists r|]. intros (? & [= <-] & ?). congruence. }
  rewrite <- Hmarks. unfold all_marks, has_match. rewrite existsb_exists, list_elem_of_In, in_concat. unfold all_right. split.
  - intros (l & Hl & Hql). apply list_elem_of_In, list_elem_of_fmap in Hl as (rhs & -> & Hrhs). apply list_elem_of_In, marks_joins in Hql as (_ & r' & Hr' & Hj).
    exists r'. split; [apply in_concat; exists rhs; by rewrite <- !list_elem_of_In|]. unfold row_of in Hj. rewrite Hv in Hj. by apply Is_true_true.
  - intros (r' & Hr' & Hj). apply in_concat in Hr' as (rhs & Hrhs & Hr'). exists (batch_marks B rhs). rewrite <- !list_elem_of_In in *. split; [apply list_elem_of_fmap; by exists rhs|].
    apply marks_joins. split; [apply elem_of_ptrs; by rewrite Hv|]. exists r'. split; [done|]. unfold row_of. rewrite Hv. by apply Is_true_true.
Qed.

Lemma did_match_rows r : r ∈ concat mem -> did_match r = matched_by all_right (left_row (encoded r)).
Proof. intros Hr. unfold did_match. by rewrite matched_rows. Qed.

Lemma all_drained : drain_row <$> wanted drain_fn (concat mem) = drain_rows.
Proof.
  assert (all_left = (fun r => left_row (encoded r)) <$> concat mem) as Hleft.
  { rewrite <- left_rows. unfold values. rewrite <- fmap_concat, <- list_fmap_compose. done. }
  pose proof matched_rows as Hm. pose proof did_match_rows as Hd. unfold drain_rows, drain_row, drain_fn, wanted. rewrite Hleft. unfold left_row in *.
  generalize (ji_supported Hin) Hneeds. destruct jt; try done; intros _ _; rewrite ?filter_map_swap, <- ?list_fmap_compose.
  - f_equal. apply filter_ext_elem. intros r Hr. by rewrite Hd.
  - f_equal. apply filter_ext_elem. intros r Hr. by rewrite Hd.
  - rewrite filter_all by (by apply Forall_forall). apply list_fmap_ext. intros k r Hr. cbn. by rewrite Hm by (by eapply list_elem_of_lookup_2).
Qed.

End Marked.

End Result.

Lemma concat_perm_lookup {X Y} (f : X -> list Y) (h : nat -> list Y) (l : list X) :
  (forall i x, l !! i = Some x -> f x ≡ₚ h i) -> concat (f <$> l) ≡ₚ concat (h <$> seq 0 (length l)).
Proof.
  revert h. induction l as [|x l IH]; intros h Hl; [done|]. cbn [fmap list_fmap concat length seq]. rewrite (Hl 0 x eq_refl). apply Permutation_app_head.
  rewrite <- fmap_S_seq, <- list_fmap_compose. apply IH. intros i y Hi. by apply (Hl (S i)).
Qed.

(** When all partitions are finished they have emitted the rows of the join. *)
Lemma join_finished_result s gs :
  inv s gs -> finished s -> exists rows, join_rows eval value_eq value_lt value_le bool_value op all_left all_right = Some rows /\ concat (emitted <$> probers s) ≡ₚ rows.
Proof.
  intros Hinv [Hb Hp]. assert (scan_ready (shared s) = true) as Hs.
  { rewrite (sy_scan _ _ _ _ _ _ _ (iv_sync _ _ Hinv)). apply bool_decide_eq_true_2. destruct (decide (total is_building (btag ∘ bstate <$> builders s) = 0)) as [|Hne]; [done|].
    destruct (total_pos is_building (btag ∘ bstate <$> builders s)) as (i & t & Hi & Ht); [lia|]. rewrite list_lookup_fmap in Hi. apply fmap_Some in Hi as (b & Hbi & ->).
    pose proof (Forall_lookup_1 _ _ _ _ Hb Hbi) as Hst. cbn in Hst, Ht. rewrite Hst in Ht. cbn in Ht. lia. }
  destruct (chains_complete s gs Hinv Hs) as (dir & chains & Hdir & _ & _ & Hrows & Hflags). set (mem := row_blocks (merged (table_state s))) in *.
  pose proof (iv_probe _ _ Hinv) as Hprobe. unfold probe_inv in Hprobe. rewrite Hdir in Hprobe. fold mem in Hprobe. destruct Hprobe as [Hok Hmarks].
  assert (concat (emitted <$> probers s) ≡ₚ probe_rows ++ (if drains then drain_rows else [])) as Hout.
  { rewrite (concat_perm_lookup emitted (fun i => probe_total (values mem) i ++ (if drains then drain_total mem i else []))).
    - rewrite concat_app_perm, (probers_length s gs Hinv). apply Permutation_app.
      + rewrite <- (all_batches mem Hrows), <- concat_nested. unfold probe_total. rewrite <- (ji_same Hin). apply reflexive_eq. f_equal.
        transitivity ((fun bs => concat (batch_out (values mem) <$> bs)) <$> ((fun i => rights !!! i) <$> seq 0 (length rights))); [by rewrite <- list_fmap_compose|by rewrite index_rows].
      + destruct drains eqn:Hd.
        * rewrite <- (all_drained mem Hrows Hflags).
          -- rewrite <- (drained_all mem), fmap_concat, <- list_fmap_compose. done.
          -- generalize Hd. by destruct jt.
          -- intros q. rewrite Hmarks by (generalize Hd; by destruct jt). split; [|by left]. intros [?|(i & p & g & Hi & _ & Hq)]; [done|].
             unfold rest_marks in Hq. rewrite (Forall_lookup_1 _ _ _ _ Hp Hi) in Hq. by apply elem_of_nil in Hq.
        * apply reflexive_eq. clear. induction (seq 0 n) as [|i l IH]; [done|]. cbn. exact IH.
    - intros i p Hi. destruct (lookup_lt_is_Some_2 gs i) as [g Hg]; [rewrite (iv_ghosts _ _ Hinv), <- (probers_length s gs Hinv); by eapply lookup_lt_Some|].
      specialize (Hok i p g Hi Hg). unfold prober_ok in Hok. by rewrite (Forall_lookup_1 _ _ _ _ Hp Hi) in Hok. }
  unfold join_rows. unfold probe_rows, drain_rows in Hout. generalize (ji_supported Hin) Hout. clear. destruct jt; try done; intros _ Hout; (eexists; split; [done|]);
    cbn [needs_drain] in Hout; by rewrite ?app_nil_r in Hout.
Qed.

End Steps.
