(* ===== verification/HashJoinCorrect.v ===== *)
(** * Correctness of the hash join

    The operator of [HashJoin] joins: under every schedule of its build and
    probe partitions the output is the rows of the join of the two inputs, for
    INNER, LEFT, RIGHT, LEFT SEMI and LEFT MARK joins.  It does not fail, does
    not lose a wakeup, and ends.  FULL and LEFT ANTI joins can only end in an
    error. *)
From S2P Require Import Prelude PartitionSync RowBlocks Hash HashDirectory LogicalExpr JoinConditions JoinTable HashJoin JoinChains JoinProbe HashJoinSync HashJoinSteps.

Section Theorems.
Context {V E : Type}.
Local Abbreviation Row := (list (option V)).
Variable eval : E -> Row -> option V.
Variable hash_one : V -> Z.
Variables value_eq value_lt value_le : V -> V -> bool.
Variable bool_value : bool -> V.
Variable heap_size : option (Row -> nat).
Variable desired_size : nat -> nat.
Variable batch_size : nat.
Implicit Types (op : PhysicalHashJoin E) (lefts rights : list (list (list Row))).

Local Abbreviation the_run op table := (system_step eval hash_one value_eq value_lt value_le bool_value heap_size desired_size batch_size op table).
Local Abbreviation the_step op table := (step eval hash_one value_eq value_lt value_le bool_value heap_size desired_size batch_size op table).

(** A hash join has a condition that compares for equality, values that are
    equal have the same hash, and the inputs are those of [join_input]. *)
Record hash_join_input op lefts rights : Prop := {
  hj_equality : Exists (fun c => hc_op c = ComparisonOperator.Eq) (conditions op);
  hj_hash : forall a b, value_eq a b = true -> hash_one a = hash_one b;
  hj_batch : 0 < batch_size;
  hj_input : join_input eval heap_size desired_size batch_size op lefts rights;
}.

Lemma key_columns_equality (cs : list (HashJoinCondition E)) encode_idx rel :
  Exists (fun c => hc_op c = ComparisonOperator.Eq) cs -> (key_columns encode_idx rel cs).2 <> [].
Proof.
  intros He. revert encode_idx rel. induction He as [c cs Hc|c cs _ IH]; intros encode_idx rel; cbn [key_columns].
  - destruct (key_columns (S encode_idx) (S rel) cs) as [enc eqs]. by rewrite bool_decide_eq_true_2.
  - specialize (IH (S encode_idx) (S rel)). destruct (key_columns (S encode_idx) (S rel) cs) as [enc eqs]. cbn in *. by case_bool_decide.
Qed.

Lemma join_table_ok op : Exists (fun c => hc_op c = ComparisonOperator.Eq) (conditions op) ->
  exists table, try_new (op_join_type op) (left_types op) (conditions op) = Ok table.
Proof.
  intros He. unfold try_new. pose proof (key_columns_equality (conditions op) (left_types op) 0 He) as Hk.
  destruct (key_columns (left_types op) 0 (conditions op)) as [enc eqs]. cbn in Hk. unfold rust_assert.
  destruct (conditions op) as [|c cs]; [by inversion He|]. destruct eqs; [done|]. by eexists.
Qed.

(** The operator of an input starts in the invariant. *)
Lemma started op lefts rights :
  hash_join_input op lefts rights -> exists table, try_new (op_join_type op) (left_types op) (conditions op) = Ok table
    /\ create op lefts rights = Ok (table, new_system lefts rights).
Proof.
  intros [He Hh Hb Hin]. destruct (join_table_ok op He) as [table Htable]. exists table. split; [done|]. by eapply join_create_ok.
Qed.

Local Abbreviation inv op table lefts rights := (inv eval hash_one value_eq value_lt value_le bool_value heap_size batch_size op table lefts rights).

Local Abbreviation measure op table lefts := (measure eval value_eq value_lt value_le op table lefts).

Lemma step_ok op table lefts rights s gs t r :
  hash_join_input op lefts rights -> try_new (op_join_type op) (left_types op) (conditions op) = Ok table ->
  inv op table lefts rights s gs -> the_run op table t s = Some r ->
  exists s' gs', r = Ok s' /\ inv op table lefts rights s' gs' /\ measure op table lefts s' gs' < measure op table lefts s gs.
Proof. intros [He Hh Hb Hin] Htable Hinv Hr. by eapply join_step_inv. Qed.

Lemma join_reachable_inv op table lefts rights :
  hash_join_input op lefts rights -> try_new (op_join_type op) (left_types op) (conditions op) = Ok table ->
  forall s gs, inv op table lefts rights s gs -> forall s', rtc (the_step op table) s s' -> exists gs', inv op table lefts rights s' gs'.
Proof.
  intros Hin Htable s gs Hinv s' Hsteps. revert gs Hinv. induction Hsteps as [s|s1 s2 s3 [t sa sb Hstep] _ IH]; intros gs Hinv; [by exists gs|].
  destruct (step_ok _ _ _ _ _ _ _ _ Hin Htable Hinv Hstep) as (s' & gs' & [= <-] & Hinv' & _). by eapply IH.
Qed.

(** C4. A hash join computes the join: however its build and probe partitions are
    scheduled, when all are finished their outputs together are the rows of the
    join of the rows of the two sides. *)
Theorem hash_join_correct op lefts rights :
  hash_join_input op lefts rights ->
  exists table s0, create op lefts rights = Ok (table, s0) /\ forall s, rtc (the_step op table) s0 s -> finished s ->
    exists rows, join_rows eval value_eq value_lt value_le bool_value op (concat (concat lefts)) (concat (concat rights)) = Some rows
      /\ concat (emitted <$> probers s) ≡ₚ rows.
Proof.
  intros Hin. destruct (started op lefts rights Hin) as (table & Htable & Hcreate). exists table, (new_system lefts rights). split; [done|]. intros s Hsteps Hfin.
  destruct (join_reachable_inv op table lefts rights Hin Htable (new_system lefts rights) (replicate (length lefts) [])) with s as (gs & Hinv); [|done|].
  - destruct Hin. by eapply join_start_inv.
  - destruct Hin. by eapply join_finished_result.
Qed.

(** C5. A hash join never gets stuck: in every reachable state no step of a
    partition fails (no error, assertion or access to a row that is not there;
    in particular the chains are followed and the matches read only when they
    are complete), and unless all partitions are finished some partition can
    take a step, so no wakeup is lost. *)
Theorem hash_join_progress op lefts rights :
  hash_join_input op lefts rights ->
  exists table s0, create op lefts rights = Ok (table, s0) /\ forall s, rtc (the_step op table) s0 s ->
    (forall t r, the_run op table t s = Some r -> is_ok r = true) /\ (finished s \/ exists s', the_step op table s s').
Proof.
  intros Hin. destruct (started op lefts rights Hin) as (table & Htable & Hcreate). exists table, (new_system lefts rights). split; [done|]. intros s Hsteps.
  destruct (join_reachable_inv op table lefts rights Hin Htable (new_system lefts rights) (replicate (length lefts) [])) with s as (gs & Hinv); [|done|].
  - destruct Hin. by eapply join_start_inv.
  - assert (forall t r, the_run op table t s = Some r -> exists s', r = Ok s') as Hok.
    { intros t r Hr. destruct (step_ok _ _ _ _ _ _ _ _ Hin Htable Hinv Hr) as (s' & gs' & -> & _). by eexists. }
    split; [by intros t r (s' & ->)%Hok|]. assert (finished s \/ exists t r, the_run op table t s = Some r) as [Hf|(t & r & Hr)] by (destruct Hin; by eapply join_progress); [by left|right].
    destruct (Hok t r Hr) as (s' & ->). exists s'. by apply (step_task _ _ _ _ _ _ _ _ _ _ _ t).
Qed.

(** C6. A hash join terminates: no schedule has more steps than a bound that
    depends on the inputs alone, failed compare-and-swaps, waiting and waking
    up included. *)
Theorem hash_join_terminates op lefts rights :
  hash_join_input op lefts rights ->
  exists table s0, create op lefts rights = Ok (table, s0) /\ forall k s, nsteps (the_step op table) k s0 s -> k <= step_bound lefts rights.
Proof.
  intros Hin. destruct (started op lefts rights Hin) as (table & Htable & Hcreate). exists table, (new_system lefts rights). split; [done|].
  assert (inv op table lefts rights (new_system lefts rights) (replicate (length lefts) [])) as Hinv by (destruct Hin; by eapply join_start_inv).
  assert (measure op table lefts (new_system lefts rights) (replicate (length lefts) []) <= step_bound lefts rights) as Hle
    by (destruct Hin; by eapply join_start_measure).
  intros k s Hsteps. etransitivity; [|exact Hle]. clear Hle Hcreate. revert Hinv.
  generalize (replicate (length lefts) (@nil (list (nat * nat)))). induction Hsteps as [s0|k s1 s2 s3 [t sa sb Hstep] _ IH]; intros gs Hinv; [lia|].
  destruct (step_ok _ _ _ _ _ _ _ _ Hin Htable Hinv Hstep) as (s' & gs' & [= <-] & Hinv' & Hlt). specialize (IH gs' Hinv'). lia.
Qed.

(** A prober of a FULL or LEFT ANTI join has to drain, which fails. *)
Lemma full_undrained op table t s s' :
  op_join_type op = JoinType.Full \/ op_join_type op = JoinType.LeftAnti -> try_new (op_join_type op) (left_types op) (conditions op) = Ok table ->
  Forall (fun p => pstate p <> ProbeDone) (probers s) -> the_run op table t s = Some (Ok s') ->
  Forall (fun p => pstate p <> ProbeDone) (probers s').
Proof.
  intros Hjt Htable Hp. assert (join_type table = op_join_type op) as Ht.
  { generalize Htable. unfold try_new. destruct (key_columns _ _ _) as [enc eqs]. unfold rust_assert. destruct (length (conditions op) =? 0); [done|].
    cbn. destruct (length eqs =? 0); [done|]. by intros [= <-]. }
  destruct t as [idx|idx]; cbn [system_step].
  - destruct (builders s !! idx) as [b|]; [|done]. cbn. destruct (build_step _ _ _ _ _ _ _ _ _ _) as [r|]; [|done]. cbn. destruct r as [[[ts' sh'] b']| |]; try done. by intros [= <-].
  - destruct (probers s !! idx) as [p|] eqn:Hidx; [|done]. cbn. destruct (probe_step _ _ _ _ _ _ _ _ _ _ _ _ _) as [r|] eqn:Hstep; [|done]. cbn.
    destruct r as [[[ts' sh'] p']| |]; try done. intros [= <-]. cbn. apply Forall_insert; [done|].
    revert Hstep. unfold probe_step. pose proof (Forall_lookup_1 _ _ _ _ Hp Hidx) as Hne. cbn in Hne. destruct (pstate p) as [ready fresh st|ready st|]; [| |done].
    + destruct (pinput p) as [|rhs rest].
      * unfold finalize_probe. assert (needs_drain (join_type table) = true) as -> by (rewrite Ht; by destruct Hjt as [-> | ->]).
        intros [= Hr]. revert Hr. destruct (dec_by_one (remaining_probers (shared s))) as [c| |]; cbn; try done. by intros [= _ _ <-].
      * destruct ready; [|destruct (parked _ idx); [done|]]; intros [= Hr]; revert Hr.
        -- destruct (execute_probe _ _ _ _ _ _ _ _ _ _ _) as [[[ts1 st1] out]| |]; cbn; try done. intros [= _ _ <-]. by destruct (length out =? 0).
        -- destruct (check_probe (shared s) idx) as [[r1 sh1]| |]; cbn; try done. by intros [= _ _ <-].
    + destruct ready; [|destruct (parked _ idx); [done|]]; intros [= Hr]; revert Hr.
      * unfold drain_next. rewrite Ht. by destruct Hjt as [-> | ->].
      * destruct (check_drain (shared s) idx) as [[r1 sh1]| |]; cbn; try done. by intros [= _ _ <-].
Qed.

Lemma full_reachable op table n s s' :
  op_join_type op = JoinType.Full \/ op_join_type op = JoinType.LeftAnti -> try_new (op_join_type op) (left_types op) (conditions op) = Ok table ->
  synchronized table n s -> rtc (the_step op table) s s' -> Forall (fun p => pstate p <> ProbeDone) (probers s) ->
  synchronized table n s' /\ Forall (fun p => pstate p <> ProbeDone) (probers s').
Proof.
  intros Hjt Htable Hs Hsteps. induction Hsteps as [s|s1 s2 s3 [t sa sb Hstep] _ IH]; intros Hp; [done|].
  apply IH; [by eapply step_synchronized|by eapply full_undrained].
Qed.

(** The operator of a FULL or LEFT ANTI join. *)
Lemma full_started op lefts rights :
  Exists (fun c => hc_op c = ComparisonOperator.Eq) (conditions op) -> MIN_PARTITION_COUNT <= length lefts <= MAX_PARTITION_COUNT ->
  length rights = length lefts ->
  exists table, try_new (op_join_type op) (left_types op) (conditions op) = Ok table /\ join_type table = op_join_type op
    /\ create op lefts rights = Ok (table, new_system lefts rights) /\ synchronized table (length lefts) (new_system lefts rights).
Proof.
  intros He Hn Hsame. destruct (join_table_ok op He) as [table Htable]. exists table. split_and!; [done| | |].
  - generalize Htable. unfold try_new. destruct (key_columns _ _ _) as [enc eqs].
    intros (u & _ & (u' & _ & Ht)%bind_Ok_inv)%bind_Ok_inv. by injection Ht as <-.
  - by eapply new_system_created.
  - apply new_system_synchronized; [unfold MIN_PARTITION_COUNT in Hn; lia|done].
Qed.

(** C36. FULL and LEFT ANTI joins are not implemented.  The operator can be
    created for them, and no schedule gets to the end or into a deadlock: in
    every reachable state some partition is not finished, and some partition
    has a step, so that a run can only stop at a step that fails.  The drain
    that every partition is sent to after its input answers with an error, and a
    LEFT ANTI join already fails on the first batch that it probes. *)
Theorem full_join_never_finishes op lefts rights :
  op_join_type op = JoinType.Full \/ op_join_type op = JoinType.LeftAnti ->
  Exists (fun c => hc_op c = ComparisonOperator.Eq) (conditions op) -> MIN_PARTITION_COUNT <= length lefts <= MAX_PARTITION_COUNT ->
  length rights = length lefts ->
  exists table s0, create op lefts rights = Ok (table, s0) /\ forall s, rtc (the_step op table) s0 s ->
    ~ finished s
    /\ (exists t r, the_run op table t s = Some r)
    /\ (forall idx p st, probers s !! idx = Some p -> pstate p = Draining true st ->
          the_run op table (ProbeTask idx) s = Some (Err "Unexpected join type for drain"))
    /\ (forall idx p ready fresh st, probers s !! idx = Some p -> pstate p = Probing ready fresh st -> pinput p = [] ->
          exists s' p', the_run op table (ProbeTask idx) s = Some (Ok s') /\ probers s' !! idx = Some p'
            /\ pstate p' = Draining false (create_drain_state idx))
    /\ (op_join_type op = JoinType.LeftAnti -> forall idx p fresh st, probers s !! idx = Some p -> pstate p = Probing true fresh st -> pinput p <> [] ->
          exists r, the_run op table (ProbeTask idx) s = Some r /\ is_ok r = false).
Proof.
  intros Hjt He Hn Hsame. destruct (full_started op lefts rights He Hn Hsame) as (table & Htable & Hjoin & Hcreate & Hsync).
  exists table, (new_system lefts rights). split; [done|]. intros s Hsteps.
  destruct (full_reachable op table (length lefts) _ s Hjt Htable Hsync Hsteps) as (Hs & Hp).
  { apply Forall_fmap, Forall_forall. done. }
  assert (~ finished s) as Hnf.
  { intros [_ Hfin]. pose proof (sy_probers _ _ _ _ _ _ _ Hs) as Hlen. rewrite length_fmap in Hlen. unfold MIN_PARTITION_COUNT in Hn.
    destruct (probers s) as [|p ps]; [cbn in Hlen; lia|]. apply Forall_cons in Hfin as [Hd _]. by apply Forall_cons in Hp as [Hp _]. }
  split_and!; [done| | | |].
  - by destruct (synchronized_progress eval hash_one value_eq value_lt value_le bool_value heap_size desired_size batch_size op table _ _ Hs).
  - intros idx p st Hidx Hst. cbn [system_step]. rewrite Hidx. cbn. unfold probe_step, drain_next. rewrite Hst, Hjoin. by destruct Hjt as [-> | ->].
  - intros idx p ready fresh st Hidx Hst Hnil. pose proof (ptag_lookup s idx p Hidx) as Htag. unfold ptag in Htag. rewrite Hst, Hnil in Htag.
    destruct (join_sync_finalize (V:=V) _ _ table _ _ _ _ _ _ _ eq_refl Hs Htag) as (sh' & Hf & _).
    assert (needs_drain (join_type table) = true) as Hd by (rewrite Hjoin; by destruct Hjt as [-> | ->]). rewrite Hd in Hf.
    eexists _, _. cbn [system_step]. rewrite Hidx. cbn. unfold probe_step. rewrite Hst, Hnil, Hf. cbn. split; [done|]. cbn.
    rewrite list_lookup_insert_eq by (by eapply lookup_lt_Some). done.
  - intros Hanti idx p fresh st Hidx Hst Hne. cbn [system_step]. rewrite Hidx. cbn. unfold probe_step. rewrite Hst.
    destruct (pinput p) as [|rhs rest]; [done|]. cbn. eexists. split; [reflexivity|]. unfold execute_probe, scan_next. rewrite Hjoin, Hanti.
    by destruct (if fresh then _ else _).
Qed.

End Theorems.

(** *** Examples *)

(** Two partitions on both sides joined on equality of the first columns and an
    order of the second ones, with NULLs and several rows per key. *)
Module HashJoinExample.

Definition column (c : nat) (row : list (option Z)) : option Z := default None (row !! c).
Definition int_bool (b : bool) : Z := if b then 1%Z else 0%Z.
Definition load (num_rows : nat) : nat := num_rows * 10 / 7.

Definition join (jt : JoinType.t) : PhysicalHashJoin nat :=
  mkHashJoin jt 2 2 [mkHashCondition 0 0 ComparisonOperator.Eq; mkHashCondition 1 1 ComparisonOperator.LtEq].

Definition row (a b : Z) : list (option Z) := [Some a; Some b].
Definition build_side : list (list (list (list (option Z)))) := [[[row 1 10; row 2 20]; [row 1 30; [None; Some 5%Z]]]; [[row 3 1; row 1 5]]].
Definition probe_side : list (list (list (list (option Z)))) := [[[row 1 10; row 2 30; [None; Some 5%Z]]]; [[row 1 50; row 9 1]; [row 3 0]]].

Local Abbreviation the_run jt table := (system_step column wrap_u64 Z.eqb Z.ltb Z.leb int_bool None load 3 (join jt) table).
Local Abbreviation the_step jt table := (step column wrap_u64 Z.eqb Z.ltb Z.leb int_bool None load 3 (join jt) table).

Fixpoint run_steps (jt : JoinType.t) (table : JoinHashTable nat) (schedule : list Task) (s : System Z) : option (System Z) :=
  match schedule with
  | [] => Some s
  | t :: rest => match the_run jt table t s with Some (Ok s') => run_steps jt table rest s' | Some _ => None | None => run_steps jt table rest s end
  end.

Lemma run_tasks_rtc jt table schedule s s' : run_steps jt table schedule s = Some s' -> rtc (the_step jt table) s s'.
Proof.
  revert s. induction schedule as [|t rest IH]; intros s; cbn [run_steps]; [by intros [= ->]|].
  destruct (the_run jt table t s) as [[s1| |]|] eqn:Hs; try done; [|apply IH]. intros Hr.
  eapply rtc_l; [by apply (step_task _ _ _ _ _ _ _ _ _ _ _ t)|by apply IH].
Qed.

Lemma join_ok jt : supported jt = true -> hash_join_input column wrap_u64 Z.eqb None load 3 (join jt) build_side probe_side.
Proof.
  intros Hs. split; [by left|by intros a b ->%Z.eqb_eq|lia|]. split; try done.
  - unfold MIN_PARTITION_COUNT, MAX_PARTITION_COUNT. cbn. lia.
  - repeat constructor; done.
  - repeat constructor.
  - vm_compute. lia.
Qed.

(** The tasks step in turn; the probe side starts too early. *)
Definition in_turn : list Task := concat (replicate 40 [BuildTask 0; ProbeTask 0; BuildTask 1; ProbeTask 1]).

Definition left_rows : list (list (option Z)) :=
  [[Some 1; Some 5; Some 1; Some 10]; [Some 2; Some 20; Some 2; Some 30]; [Some 1; Some 10; Some 1; Some 10]; [Some 3; Some 1; None; None];
   [Some 1; Some 5; Some 1; Some 50]; [Some 1; Some 30; Some 1; Some 50]; [Some 1; Some 10; Some 1; Some 50]; [None; Some 5; None; None]]%Z.

Lemma hash_join_correct_witness :
  exists table s0 s, create (join JoinType.Left) build_side probe_side = Ok (table, s0) /\ rtc (the_step JoinType.Left table) s0 s /\ finished s
    /\ concat (emitted <$> probers s) = left_rows
    /\ exists rows, join_rows column Z.eqb Z.ltb Z.leb int_bool (join JoinType.Left) (concat (concat build_side)) (concat (concat probe_side)) = Some rows /\ left_rows ≡ₚ rows.
Proof.
  destruct (hash_join_correct column wrap_u64 Z.eqb Z.ltb Z.leb int_bool None load 3 (join JoinType.Left) build_side probe_side (join_ok JoinType.Left eq_refl)) as (table & s0 & Hc & Hs).
  assert (exists s, run_steps JoinType.Left table in_turn s0 = Some s /\ finished s /\ concat (emitted <$> probers s) = left_rows) as (s & Hr & Hf & He).
  { vm_compute in Hc. injection Hc as <- <-. eexists. split; [vm_compute; reflexivity|]. split; [|vm_compute; reflexivity]. split; repeat constructor. }
  apply run_tasks_rtc in Hr. exists table, s0, s. split; [exact Hc|]. split; [exact Hr|]. split; [exact Hf|]. split; [exact He|]. rewrite <- He. exact (Hs s Hr Hf).
Defined.

Lemma hash_join_progress_witness :
  exists table s0, create (join JoinType.Right) build_side probe_side = Ok (table, s0)
    /\ forall s, rtc (the_step JoinType.Right table) s0 s -> finished s \/ exists s', the_step JoinType.Right table s s'.
Proof.
  destruct (hash_join_progress column wrap_u64 Z.eqb Z.ltb Z.leb int_bool None load 3 (join JoinType.Right) build_side probe_side (join_ok JoinType.Right eq_refl)) as (table & s0 & Hc & Hs).
  exists table, s0. split; [exact Hc|]. intros s Hr. apply (Hs s Hr).
Defined.

Lemma hash_join_terminates_witness :
  exists table s0, create (join (JoinType.LeftMark 0)) build_side probe_side = Ok (table, s0)
    /\ forall k s, nsteps (the_step (JoinType.LeftMark 0) table) k s0 s -> k <= 739.
Proof.
  apply (hash_join_terminates column wrap_u64 Z.eqb Z.ltb Z.leb int_bool None load 3 (join (JoinType.LeftMark 0)) build_side probe_side (join_ok (JoinType.LeftMark 0) eq_refl)).
Defined.

(** The FULL join runs into the error: all rows are built and probed, and the
    next step of the first partition fails. *)
Lemma full_join_never_finishes_witness :
  exists table s0 s, create (join JoinType.Full) build_side probe_side = Ok (table, s0) /\ rtc (the_step JoinType.Full table) s0 s /\ ~ finished s
    /\ the_run JoinType.Full table (ProbeTask 0) s = Some (Err "Unexpected join type for drain").
Proof.
  destruct (full_join_never_finishes column wrap_u64 Z.eqb Z.ltb Z.leb int_bool None load 3 (join JoinType.Full) build_side probe_side) as (table & s0 & Hc & Hs);
    [by left|by left|unfold MIN_PARTITION_COUNT, MAX_PARTITION_COUNT; cbn; lia|reflexivity|]. exists table, s0.
  assert (exists s, run_steps JoinType.Full table (take 125 in_turn) s0 = Some s /\ the_run JoinType.Full table (ProbeTask 0) s = Some (Err "Unexpected join type for drain")) as (s & Hr & He).
  { vm_compute in Hc. injection Hc as <- <-. eexists. split; [vm_compute; reflexivity|vm_compute; reflexivity]. }
  apply run_tasks_rtc in Hr. exists s. split; [exact Hc|]. split; [exact Hr|]. split; [|exact He]. apply (Hs s Hr).
Defined.

End HashJoinExample.
