(* ===== verification/Keywords.v ===== *)
(** * Keywords of the SQL dialect

    [glaredb_parser/src/keywords.rs]: the [Keyword] enum, its table of strings,
    the binary search that turns a word into a keyword, and back.

    A Rust [char] is a code point in [Z] and a [str] a list of them.  The order of
    [unicase::Ascii], which compares strings without regard to the case of ASCII
    letters, is a parameter ([AsciiOrder]) with its documented laws
    ([AsciiOrderLaws]). *)
From S2P Require Import Prelude.
Open Scope Z_scope.

Abbreviation char := Z (only parsing).
Abbreviation str := (list Z) (only parsing).

(** A string literal of the source. *)
Definition lit (s : string) : str :=
  (fun a => Z.of_nat (Ascii.nat_of_ascii a)) <$> String.list_ascii_of_string s.

(** [char::to_ascii_lowercase] *)
Definition to_ascii_lowercase (c : char) : char :=
  if (65 <=? c) && (c <=? 90) then c + 32 else c.

Definition ascii_lower (s : str) : str := to_ascii_lowercase <$> s.

(** ** The table *)

Module Keyword.

(** [enum Keyword], in the order of the source. *)
Inductive t : Set :=
  | ALL | ANALYZE | AND | ANTI | ANY | AS | ASC | ATTACH | BEGIN | BETWEEN | BIGDECIMAL
  | BIGINT | BIGNUMERIC | BINARY | BLOB | BOOL | BOOLEAN | BY | CASCADE | CASE | CAST
  | CATALOGS | CENTURIES | CENTURY | CLUSTER | COLUMNS | COPY | CREATE | CROSS | CUBE | CURRENT
  | DATABASE | DATABASES | DATE | DAY | DAYS | DECADE | DECADES | DECIMAL | DESC | DESCRIBE
  | DETACH | DISCARD | DISTINCT | DISTRIBUTE | DOUBLE | DOW | DOY | DROP | ELSE | END | EPOCH
  | EXCEPT | EXCLUDE | EXISTS | EXPLAIN | EXTERNAL | EXTRACT | FALSE | FETCH | FILTER | FIRST
  | FLOAT | FLOAT2 | FLOAT4 | FLOAT8 | FOLLOWING | FOR | FORMAT | FROM | FULL | FUNCTION
  | GROUP | GROUPING | GROUPS | HALF | HAVING | HOUR | HOURS | IF | ILIKE | IN | INDEX | INNER
  | INSERT | INT | INT1 | INT2 | INT4 | INT8 | INTEGER | INTERSECT | INTERVAL | INTO | IS
  | ISODOW | ISOYEAR | JOIN | JSON | JULIAN | LAST | LATERAL | LEFT | LIKE | LIMIT
  | MATERIALIZED | METADATA | MICROSECOND | MICROSECONDS | MILLENIUM | MILLENIUMS | MILLISECOND
  | MILLISECONDS | MINUTE | MINUTES | MONTH | MONTHS | NANOSECOND | NANOSECONDS | NATURAL | NO
  | NOT | NULL | NULLS | NUMERIC | OFFSET | ON | OR | ORDER | OTHERS | OUTER | OVER | PARTITION
  | PIVOT | PLANS | POSITION | PRECEDING | PRIMARY | QUALIFY | QUARTER | RANGE | REAL
  | RECURSIVE | REGEXP | REPLACE | RESET | RESTRICT | RIGHT | RLIKE | ROLLBACK | ROLLUP | ROW
  | ROWS | SCHEMA | SCHEMAS | SECOND | SECONDS | SELECT | SEMI | SET | SETS | SHOW | SIMILAR
  | SMALLINT | SOME | SORT | STRING | SUBSTRING | TABLE | TABLES | TEMP | TEMPORARY | TEXT
  | THEN | TIES | TIMESTAMP | TIMESTAMPTZ | TIMEZONE | TIMEZONE_HOUR | TIMEZONE_MINUTE
  | TINYINT | TO | TOP | TRUE | UBIGINT | UINT | UINT1 | UINT2 | UINT4 | UINT8 | UNBOUNDED
  | UNION | UNPIVOT | USING | USMALLINT | UTINYINT | VALUES | VARCHAR | VERBOSE | VIEW | WEEK
  | WEEKS | WHEN | WHERE | WINDOW | WITH | XOR | YEAR | YEARS.

(** The discriminant of a variant: the derived [Ord] compares these. *)
Definition index (k : t) : nat :=
  match k with
  | ALL => 0 | ANALYZE => 1 | AND => 2 | ANTI => 3 | ANY => 4 | AS => 5 | ASC => 6
  | ATTACH => 7 | BEGIN => 8 | BETWEEN => 9 | BIGDECIMAL => 10 | BIGINT => 11
  | BIGNUMERIC => 12 | BINARY => 13 | BLOB => 14 | BOOL => 15 | BOOLEAN => 16 | BY => 17
  | CASCADE => 18 | CASE => 19 | CAST => 20 | CATALOGS => 21 | CENTURIES => 22 | CENTURY => 23
  | CLUSTER => 24 | COLUMNS => 25 | COPY => 26 | CREATE => 27 | CROSS => 28 | CUBE => 29
  | CURRENT => 30 | DATABASE => 31 | DATABASES => 32 | DATE => 33 | DAY => 34 | DAYS => 35
  | DECADE => 36 | DECADES => 37 | DECIMAL => 38 | DESC => 39 | DESCRIBE => 40 | DETACH => 41
  | DISCARD => 42 | DISTINCT => 43 | DISTRIBUTE => 44 | DOUBLE => 45 | DOW => 46 | DOY => 47
  | DROP => 48 | ELSE => 49 | END => 50 | EPOCH => 51 | EXCEPT => 52 | EXCLUDE => 53
  | EXISTS => 54 | EXPLAIN => 55 | EXTERNAL => 56 | EXTRACT => 57 | FALSE => 58 | FETCH => 59
  | FILTER => 60 | FIRST => 61 | FLOAT => 62 | FLOAT2 => 63 | FLOAT4 => 64 | FLOAT8 => 65
  | FOLLOWING => 66 | FOR => 67 | FORMAT => 68 | FROM => 69 | FULL => 70 | FUNCTION => 71
  | GROUP => 72 | GROUPING => 73 | GROUPS => 74 | HALF => 75 | HAVING => 76 | HOUR => 77
  | HOURS => 78 | IF => 79 | ILIKE => 80 | IN => 81 | INDEX => 82 | INNER => 83 | INSERT => 84
  | INT => 85 | INT1 => 86 | INT2 => 87 | INT4 => 88 | INT8 => 89 | INTEGER => 90
  | INTERSECT => 91 | INTERVAL => 92 | INTO => 93 | IS => 94 | ISODOW => 95 | ISOYEAR => 96
  | JOIN => 97 | JSON => 98 | JULIAN => 99 | LAST => 100 | LATERAL => 101 | LEFT => 102
  | LIKE => 103 | LIMIT => 104 | MATERIALIZED => 105 | METADATA => 106 | MICROSECOND => 107
  | MICROSECONDS => 108 | MILLENIUM => 109 | MILLENIUMS => 110 | MILLISECOND => 111
  | MILLISECONDS => 112 | MINUTE => 113 | MINUTES => 114 | MONTH => 115 | MONTHS => 116
  | NANOSECOND => 117 | NANOSECONDS => 118 | NATURAL => 119 | NO => 120 | NOT => 121
  | NULL => 122 | NULLS => 123 | NUMERIC => 124 | OFFSET => 125 | ON => 126 | OR => 127
  | ORDER => 128 | OTHERS => 129 | OUTER => 130 | OVER => 131 | PARTITION => 132 | PIVOT => 133
  | PLANS => 134 | POSITION => 135 | PRECEDING => 136 | PRIMARY => 137 | QUALIFY => 138
  | QUARTER => 139 | RANGE => 140 | REAL => 141 | RECURSIVE => 142 | REGEXP => 143
  | REPLACE => 144 | RESET => 145 | RESTRICT => 146 | RIGHT => 147 | RLIKE => 148
  | ROLLBACK => 149 | ROLLUP => 150 | ROW => 151 | ROWS => 152 | SCHEMA => 153 | SCHEMAS => 154
  | SECOND => 155 | SECONDS => 156 | SELECT => 157 | SEMI => 158 | SET => 159 | SETS => 160
  | SHOW => 161 | SIMILAR => 162 | SMALLINT => 163 | SOME => 164 | SORT => 165 | STRING => 166
  | SUBSTRING => 167 | TABLE => 168 | TABLES => 169 | TEMP => 170 | TEMPORARY => 171
  | TEXT => 172 | THEN => 173 | TIES => 174 | TIMESTAMP => 175 | TIMESTAMPTZ => 176
  | TIMEZONE => 177 | TIMEZONE_HOUR => 178 | TIMEZONE_MINUTE => 179 | TINYINT => 180
  | TO => 181 | TOP => 182 | TRUE => 183 | UBIGINT => 184 | UINT => 185 | UINT1 => 186
  | UINT2 => 187 | UINT4 => 188 | UINT8 => 189 | UNBOUNDED => 190 | UNION => 191
  | UNPIVOT => 192 | USING => 193 | USMALLINT => 194 | UTINYINT => 195 | VALUES => 196
  | VARCHAR => 197 | VERBOSE => 198 | VIEW => 199 | WEEK => 200 | WEEKS => 201 | WHEN => 202
  | WHERE => 203 | WINDOW => 204 | WITH => 205 | XOR => 206 | YEAR => 207 | YEARS => 208
  end.

End Keyword.

Section Tables.
Import Keyword.

Definition ALL_KEYWORDS : list Keyword.t := 
  [ALL; ANALYZE; AND; ANTI; ANY; AS; ASC; ATTACH; BEGIN; BETWEEN; BIGDECIMAL; BIGINT;
   BIGNUMERIC; BINARY; BLOB; BOOL; BOOLEAN; BY; CASCADE; CASE; CAST; CATALOGS; CENTURIES;
   CENTURY; CLUSTER; COLUMNS; COPY; CREATE; CROSS; CUBE; CURRENT; DATABASE; DATABASES; DATE;
   DAY; DAYS; DECADE; DECADES; DECIMAL; DESC; DESCRIBE; DETACH; DISCARD; DISTINCT; DISTRIBUTE;
   DOUBLE; DOW; DOY; DROP; ELSE; END; EPOCH; EXCEPT; EXCLUDE; EXISTS; EXPLAIN; EXTERNAL;
   EXTRACT; FALSE; FETCH; FILTER; FIRST; FLOAT; FLOAT2; FLOAT4; FLOAT8; FOLLOWING; FOR; FORMAT;
   FROM; FULL; FUNCTION; GROUP; GROUPING; GROUPS; HALF; HAVING; HOUR; HOURS; IF; ILIKE; IN;
   INDEX; INNER; INSERT; INT; INT1; INT2; INT4; INT8; INTEGER; INTERSECT; INTERVAL; INTO; IS;
   ISODOW; ISOYEAR; JOIN; JSON; JULIAN; LAST; LATERAL; LEFT; LIKE; LIMIT; MATERIALIZED;
   METADATA; MICROSECOND; MICROSECONDS; MILLENIUM; MILLENIUMS; MILLISECOND; MILLISECONDS;
   MINUTE; MINUTES; MONTH; MONTHS; NANOSECOND; NANOSECONDS; NATURAL; NO; NOT; NULL; NULLS;
   NUMERIC; OFFSET; ON; OR; ORDER; OTHERS; OUTER; OVER; PARTITION; PIVOT; PLANS; POSITION;
   PRECEDING; PRIMARY; QUALIFY; QUARTER; RANGE; REAL; RECURSIVE; REGEXP; REPLACE; RESET;
   RESTRICT; RIGHT; RLIKE; ROLLBACK; ROLLUP; ROW; ROWS; SCHEMA; SCHEMAS; SECOND; SECONDS;
   SELECT; SEMI; SET; SETS; SHOW; SIMILAR; SMALLINT; SOME; SORT; STRING; SUBSTRING; TABLE;
   TABLES; TEMP; TEMPORARY; TEXT; THEN; TIES; TIMESTAMP; TIMESTAMPTZ; TIMEZONE; TIMEZONE_HOUR;
   TIMEZONE_MINUTE; TINYINT; TO; TOP; TRUE; UBIGINT; UINT; UINT1; UINT2; UINT4; UINT8;
   UNBOUNDED; UNION; UNPIVOT; USING; USMALLINT; UTINYINT; VALUES; VARCHAR; VERBOSE; VIEW; WEEK;
   WEEKS; WHEN; WHERE; WINDOW; WITH; XOR; YEAR; YEARS].

Definition KEYWORD_STRINGS : list str := lit <$>
  ["ALL"; "ANALYZE"; "AND"; "ANTI"; "ANY"; "AS"; "ASC"; "ATTACH"; "BEGIN"; "BETWEEN";
   "BIGDECIMAL"; "BIGINT"; "BIGNUMERIC"; "BINARY"; "BLOB"; "BOOL"; "BOOLEAN"; "BY"; "CASCADE";
   "CASE"; "CAST"; "CATALOGS"; "CENTURIES"; "CENTURY"; "CLUSTER"; "COLUMNS"; "COPY"; "CREATE";
   "CROSS"; "CUBE"; "CURRENT"; "DATABASE"; "DATABASES"; "DATE"; "DAY"; "DAYS"; "DECADE";
   "DECADES"; "DECIMAL"; "DESC"; "DESCRIBE"; "DETACH"; "DISCARD"; "DISTINCT"; "DISTRIBUTE";
   "DOUBLE"; "DOW"; "DOY"; "DROP"; "ELSE"; "END"; "EPOCH"; "EXCEPT"; "EXCLUDE"; "EXISTS";
   "EXPLAIN"; "EXTERNAL"; "EXTRACT"; "FALSE"; "FETCH"; "FILTER"; "FIRST"; "FLOAT"; "FLOAT2";
   "FLOAT4"; "FLOAT8"; "FOLLOWING"; "FOR"; "FORMAT"; "FROM"; "FULL"; "FUNCTION"; "GROUP";
   "GROUPING"; "GROUPS"; "HALF"; "HAVING"; "HOUR"; "HOURS"; "IF"; "ILIKE"; "IN"; "INDEX";
   "INNER"; "INSERT"; "INT"; "INT1"; "INT2"; "INT4"; "INT8"; "INTEGER"; "INTERSECT";
   "INTERVAL"; "INTO"; "IS"; "ISODOW"; "ISOYEAR"; "JOIN"; "JSON"; "JULIAN"; "LAST"; "LATERAL";
   "LEFT"; "LIKE"; "LIMIT"; "MATERIALIZED"; "METADATA"; "MICROSECOND"; "MICROSECONDS";
   "MILLENIUM"; "MILLENIUMS"; "MILLISECOND"; "MILLISECONDS"; "MINUTE"; "MINUTES"; "MONTH";
   "MONTHS"; "NANOSECOND"; "NANOSECONDS"; "NATURAL"; "NO"; "NOT"; "NULL"; "NULLS"; "NUMERIC";
   "OFFSET"; "ON"; "OR"; "ORDER"; "OTHERS"; "OUTER"; "OVER"; "PARTITION"; "PIVOT"; "PLANS";
   "POSITION"; "PRECEDING"; "PRIMARY"; "QUALIFY"; "QUARTER"; "RANGE"; "REAL"; "RECURSIVE";
   "REGEXP"; "REPLACE"; "RESET"; "RESTRICT"; "RIGHT"; "RLIKE"; "ROLLBACK"; "ROLLUP"; "ROW";
   "ROWS"; "SCHEMA"; "SCHEMAS"; "SECOND"; "SECONDS"; "SELECT"; "SEMI"; "SET"; "SETS"; "SHOW";
   "SIMILAR"; "SMALLINT"; "SOME"; "SORT"; "STRING"; "SUBSTRING"; "TABLE"; "TABLES"; "TEMP";
   "TEMPORARY"; "TEXT"; "THEN"; "TIES"; "TIMESTAMP"; "TIMESTAMPTZ"; "TIMEZONE";
   "TIMEZONE_HOUR"; "TIMEZONE_MINUTE"; "TINYINT"; "TO"; "TOP"; "TRUE"; "UBIGINT"; "UINT";
   "UINT1"; "UINT2"; "UINT4"; "UINT8"; "UNBOUNDED"; "UNION"; "UNPIVOT"; "USING"; "USMALLINT";
   "UTINYINT"; "VALUES"; "VARCHAR"; "VERBOSE"; "VIEW"; "WEEK"; "WEEKS"; "WHEN"; "WHERE";
   "WINDOW"; "WITH"; "XOR"; "YEAR"; "YEARS"]%string.

Definition RESERVED_FOR_TABLE_ALIAS : list Keyword.t := 
  [WITH; EXPLAIN; ANALYZE; SELECT; WHERE; GROUP; SORT; HAVING; ORDER; PIVOT; UNPIVOT; TOP;
   LATERAL; VIEW; LIMIT; OFFSET; FETCH; UNION; EXCEPT; INTERSECT; ON; JOIN; INNER; CROSS; FULL;
   LEFT; RIGHT; NATURAL; SEMI; USING; CLUSTER; DISTRIBUTE; OUTER; SET; QUALIFY; WINDOW; END;
   PARTITION].

Definition RESERVED_FOR_COLUMN_ALIAS : list Keyword.t := 
  [WITH; EXPLAIN; ANALYZE; SELECT; WHERE; GROUP; SORT; HAVING; ORDER; TOP; LATERAL; VIEW;
   LIMIT; OFFSET; FETCH; UNION; EXCEPT; INTERSECT; CLUSTER; DISTRIBUTE; FROM; INTO; END].

End Tables.

#[global] Instance keyword_index_inj : Inj (=) (=) Keyword.index.
Proof.
  intros j k Hjk.
  assert (H : forall k, ALL_KEYWORDS !! Keyword.index k = Some k) by (intros []; reflexivity).
  pose proof (H j) as Hj. rewrite Hjk, H in Hj. congruence.
Qed.

#[global] Instance keyword_eq_dec : EqDecision Keyword.t.
Proof.
  intros j k. destruct (decide (Keyword.index j = Keyword.index k)) as [H|H].
  - left. by apply keyword_index_inj.
  - right. by intros ->.
Defined.

(** ** Searching the table *)

(** The order of [unicase::Ascii] on strings. *)
Class AsciiOrder := ascii_cmp : str -> str -> comparison.

Section BinarySearch.
Context {A : Type} (f : A -> comparison) (l : list A).

(** The loop of [slice::binary_search_by]: the answer, if any, lies in the
    [size] elements from [base] on. *)
Fixpoint binary_search_loop (fuel base size : nat) : nat :=
  match fuel with
  | O => base
  | S fuel' =>
    if (size <=? 1)%nat then base
    else
      let half := (size / 2)%nat in
      let mid := (base + half)%nat in
      let base' := match f <$> (l !! mid) with Some Gt => base | _ => mid end in
      binary_search_loop fuel' base' (size - half)
  end.

(** [slice::binary_search_by]; the insertion point of an absent value is not
    used by the callers. *)
Definition binary_search_by : option nat :=
  match l with
  | [] => None
  | _ =>
    let base := binary_search_loop (length l) 0 (length l) in
    match f <$> (l !! base) with
    | Some Eq => Some base
    | _ => None
    end
  end.
End BinarySearch.

(** [keyword_from_str] *)
Definition keyword_from_str `{AsciiOrder} (s : str) : option Keyword.t :=
  match binary_search_by (fun k => ascii_cmp k s) KEYWORD_STRINGS with
  | Some idx => ALL_KEYWORDS !! idx
  | None => None
  end.

(** [str_from_keyword], with its two [expect]s. *)
Definition str_from_keyword (kw : Keyword.t) : res str :=
  match binary_search_by (fun k => Nat.compare (Keyword.index k) (Keyword.index kw)) ALL_KEYWORDS with
  | Some idx => match KEYWORD_STRINGS !! idx with
                | Some s => Ok s
                | None => Panic "keyword string to exist"
                end
  | None => Panic "keyword to exist"
  end.

(** ** Correctness of the search *)

Section BinarySearchCorrect.
Context {A : Type} (f : A -> comparison) (l : list A).

(** [f] compares the elements of a strictly sorted list with a fixed value: left
    of an element that is not greater than it, all are smaller. *)
Definition monotone : Prop :=
  forall i j x y, (i < j)%nat -> l !! i = Some x -> l !! j = Some y -> f y <> Gt -> f x = Lt.

(** Where the value can still be: from [base] on, before [base + size]. *)
Definition narrowed (base size : nat) : Prop :=
  (base + size <= length l)%nat
  /\ (forall i x, (base + size <= i)%nat -> l !! i = Some x -> f x = Gt)
  /\ (base = 0%nat \/ exists x, l !! base = Some x /\ f x <> Gt).

Lemma binary_search_loop_narrows (Hf : monotone) fuel base size :
  (size <= fuel)%nat -> (1 <= size)%nat -> narrowed base size ->
  narrowed (binary_search_loop f l fuel base size) 1.
Proof.
  revert base size. induction fuel as [|fuel IH]; intros base size Hfuel H1 Hn; [lia|]. cbn [binary_search_loop].
  destruct (Nat.leb_spec size 1) as [Hs|Hs]; [by replace 1%nat with size by lia|].
  destruct Hn as (Hlen & Hright & Hleft).
  pose proof (Nat.div_mod_eq size 2) as Hhalf. pose proof (Nat.mod_upper_bound size 2 ltac:(lia)) as Hmod.
  destruct (lookup_lt_is_Some_2 l (base + size / 2)%nat) as [m Hm]; [lia|].
  rewrite Hm. cbn [fmap option_fmap option_map]. apply IH; [lia|lia|]. destruct (f m) eqn:Hfm.
  1,2: split_and!; [lia|intros i x Hi; apply Hright; lia|right; exists m; rewrite Hfm; done].
  split_and!; [lia| |done]. intros i x Hi Hx.
  destruct (decide (i = (base + size / 2)%nat)) as [->|Hne]; [congruence|].
  destruct (f x) eqn:Hfx; [| |done];
    rewrite (Hf (base + size / 2)%nat i m x) in Hfm; congruence || lia.
Qed.

Lemma binary_search_by_Some (Hf : monotone) i :
  binary_search_by f l = Some i <-> exists x, l !! i = Some x /\ f x = Eq.
Proof.
  assert (Hn : l <> [] -> narrowed (binary_search_loop f l (length l) 0 (length l)) 1).
  { intros Hl. assert (length l <> 0%nat) by by rewrite length_zero_iff_nil.
    apply binary_search_loop_narrows; [done|lia|lia|].
    split_and!; [lia| |by left]. intros j x Hj Hx%lookup_lt_Some. lia. }
  destruct (decide (l = [])) as [Hl|Hl].
  { unfold binary_search_by. rewrite Hl. split; [done|by intros (? & ? & _)]. }
  destruct (Hn Hl) as (Hlen & Hright & Hleft). clear Hn.
  assert (Hdef : binary_search_by f l =
    let base := binary_search_loop f l (length l) 0 (length l) in
    match f <$> (l !! base) with Some Eq => Some base | _ => None end)
    by (unfold binary_search_by; destruct l; done).
  rewrite Hdef. clear Hdef Hl. cbv zeta.
  set (b := binary_search_loop _ _ _ _ _) in *. clearbody b.
  split.
  - destruct (l !! b) as [y|] eqn:Hy; simpl; [|done].
    destruct (f y) eqn:Hfy; [|done..]. intros [= <-]. by exists y.
  - intros (x & Hx & Hfx). assert (Hle : (i <= b)%nat).
    { destruct (decide (b + 1 <= i)%nat) as [Hi|]; [|lia].
      by rewrite (Hright i x Hi Hx) in Hfx. }
    destruct (decide (i = b)) as [->|Hne]; [by rewrite Hx; simpl; rewrite Hfx|].
    destruct Hleft as [->|(y & Hy & Hfy)]; [lia|].
    rewrite (Hf i b x y) in Hfx; done || lia.
Qed.
End BinarySearchCorrect.

(** The documented laws of [unicase::Ascii], and the order of the table that the
    test [keywords_sorted] asserts. *)
Class AsciiOrderLaws `{AsciiOrder} : Prop := {
  ascii_cmp_eq a b : ascii_cmp a b = Eq <-> ascii_lower a = ascii_lower b;
  ascii_cmp_antisym a b : ascii_cmp b a = CompOpp (ascii_cmp a b);
  ascii_cmp_trans a b c : ascii_cmp a b = Lt -> ascii_cmp b c = Lt -> ascii_cmp a c = Lt;
  keywords_sorted : Sorted (fun a b => ascii_cmp a b = Lt) KEYWORD_STRINGS
}.

(** The string of a keyword in the table. *)
Definition keyword_str (kw : Keyword.t) : str := default [] (KEYWORD_STRINGS !! Keyword.index kw).

Lemma all_keywords_lookup i kw : ALL_KEYWORDS !! i = Some kw <-> i = Keyword.index kw.
Proof.
  assert (Hk : forall k, ALL_KEYWORDS !! Keyword.index k = Some k) by (intros []; reflexivity).
  assert (Hi : Forall (fun p => Keyword.index p.2 = p.1) (imap pair ALL_KEYWORDS)) by (vm_compute; repeat constructor).
  split; [|by intros ->]. intros Hl. rewrite Forall_lookup in Hi.
  specialize (Hi i (i, kw)). rewrite list_lookup_imap, Hl in Hi. symmetry. by apply Hi.
Qed.

Lemma keyword_str_lookup kw : KEYWORD_STRINGS !! Keyword.index kw = Some (keyword_str kw).
Proof. by destruct kw. Qed.

(** The string of every keyword exists: the [expect]s do not fail. *)
Lemma str_from_keyword_ok kw : str_from_keyword kw = Ok (keyword_str kw).
Proof.
  unfold str_from_keyword.
  assert (Hs : binary_search_by (fun k => Nat.compare (Keyword.index k) (Keyword.index kw)) ALL_KEYWORDS
               = Some (Keyword.index kw)).
  { apply binary_search_by_Some.
    - intros i j x y Hij ->%all_keywords_lookup ->%all_keywords_lookup.
      rewrite Nat.compare_lt_iff, Nat.compare_gt_iff. lia.
    - exists kw. by rewrite all_keywords_lookup, Nat.compare_eq_iff. }
  by rewrite Hs, keyword_str_lookup.
Qed.

Section KeywordLookup.
Context `{AsciiOrderLaws}.

Lemma ascii_cmp_le_trans a b c : ascii_cmp a b = Lt -> ascii_cmp b c <> Gt -> ascii_cmp a c = Lt.
Proof.
  intros Hab Hbc. destruct (ascii_cmp b c) eqn:E; [|by eapply ascii_cmp_trans|done].
  destruct (ascii_cmp a c) eqn:Hac; [| done|].
  - assert (Eq = Lt); [|done]. rewrite <- Hab. symmetry. apply ascii_cmp_eq.
    apply ascii_cmp_eq in E, Hac. congruence.
  - assert (Hca : ascii_cmp c a = Lt) by by rewrite ascii_cmp_antisym, Hac.
    pose proof (ascii_cmp_trans _ _ _ Hca Hab) as Hcb.
    rewrite ascii_cmp_antisym, E in Hcb. done.
Qed.

Lemma keyword_strings_monotone s : monotone (fun k => ascii_cmp k s) KEYWORD_STRINGS.
Proof.
  intros i j x y Hij Hx Hy Hys.
  assert (Hss : StronglySorted (fun a b => ascii_cmp a b = Lt) KEYWORD_STRINGS).
  { apply Sorted_StronglySorted; [intros ???; apply ascii_cmp_trans|apply keywords_sorted]. }
  apply ascii_cmp_le_trans with y; [|done].
  clear -Hss Hij Hx Hy. revert i j Hij Hx Hy.
  induction Hss as [|a l _ IH Ha]; intros i j Hij Hx Hy; [done|].
  destruct j as [|j]; [lia|]. simpl in Hy. destruct i as [|i]; simpl in Hx.
  - injection Hx as ->. rewrite Forall_forall in Ha. by apply Ha, list_elem_of_lookup_2 with j.
  - apply (IH i j); [lia|done..].
Qed.

(** A word is the keyword whose string it equals up to the case of its letters,
    and only that one. *)
Lemma keyword_from_str_spec s kw :
  keyword_from_str s = Some kw <-> ascii_lower s = ascii_lower (keyword_str kw).
Proof.
  unfold keyword_from_str. rewrite <- (ascii_cmp_eq s), ascii_cmp_antisym.
  pose proof (binary_search_by_Some _ _ (keyword_strings_monotone s)) as Hspec.
  transitivity (exists x, KEYWORD_STRINGS !! Keyword.index kw = Some x /\ ascii_cmp x s = Eq).
  - rewrite <- Hspec. destruct (binary_search_by _ _) as [i|]; [|split; done].
    rewrite all_keywords_lookup. naive_solver.
  - rewrite keyword_str_lookup. split; [intros (x & [= <-] & ->); done|].
    intros E. exists (keyword_str kw). split; [done|].
    by destruct (ascii_cmp (keyword_str kw) s).
Qed.

Lemma keyword_from_keyword_str kw : keyword_from_str (keyword_str kw) = Some kw.
Proof. by apply keyword_from_str_spec. Qed.
End KeywordLookup.

(** ** An order with the laws *)

Module AsciiExample.

(** The lexicographic order of the lowered strings. *)
Fixpoint lex_cmp (a b : str) : comparison :=
  match a, b with
  | [], [] => Eq
  | [], _ :: _ => Lt
  | _ :: _, [] => Gt
  | x :: a', y :: b' => match x ?= y with Eq => lex_cmp a' b' | o => o end
  end.

Lemma lex_cmp_eq a b : lex_cmp a b = Eq <-> a = b.
Proof.
  revert b. induction a as [|x a IH]; intros [|y b]; simpl; [done..|].
  destruct (Z.compare_spec x y) as [->|Hxy|Hxy]; [rewrite IH|..]; naive_solver lia.
Qed.

Lemma lex_cmp_antisym a b : lex_cmp b a = CompOpp (lex_cmp a b).
Proof.
  revert b. induction a as [|x a IH]; intros [|y b]; simpl; [done..|].
  rewrite Z.compare_antisym. destruct (x ?= y); simpl; [apply IH|done..].
Qed.

Lemma lex_cmp_trans a b c : lex_cmp a b = Lt -> lex_cmp b c = Lt -> lex_cmp a c = Lt.
Proof.
  revert b c. induction a as [|x a IH]; intros [|y b] [|z c]; simpl; try done.
  destruct (Z.compare_spec x y) as [->|Hxy|Hxy]; destruct (Z.compare_spec y z) as [->|Hyz|Hyz]; try done.
  - apply IH.
  - by rewrite (proj2 (Z.compare_lt_iff x z)).
  - rewrite (proj2 (Z.compare_lt_iff x z)); [done|lia].
Qed.

#[export] Instance order : AsciiOrder := fun a b => lex_cmp (ascii_lower a) (ascii_lower b).

#[export] Instance order_laws : AsciiOrderLaws.
Proof.
  split.
  - intros a b. apply lex_cmp_eq.
  - intros a b. apply lex_cmp_antisym.
  - intros a b c. apply lex_cmp_trans.
  - vm_compute. repeat constructor.
Qed.

End AsciiExample.
