(* ===== verification/Tokenizer.v ===== *)
(** * The tokenizer

    [glaredb_parser/src/tokens.rs]: tokens, the cursor over the query, and the
    tokenizer.  Indices into the query are byte offsets, and slicing at an offset
    inside a character panics, as it does in Rust.  The Unicode classes of
    characters are a parameter ([Unicode]). *)
From Stdlib Require Import Ascii.
From S2P Require Import Prelude Keywords.
Open Scope Z_scope.

(** ** Tokens *)

Inductive Comment :=
| SingleLine (s : str)
| Multiline (s : str).

Record Word := {
  word_value : str;
  word_quote : option char;
  word_keyword : option Keyword.t
}.

Module Token.
Inductive t :=
| Word (w : Word)
| SingleQuotedString (s : str)
| Number (s : str)
| Whitespace
| Comment (c : Comment)
| Eq | DoubleEq | Neq | Lt | Gt | LtEq | GtEq
| Plus | Minus | Mul | Div | IntDiv | Mod | Exponent
| BitShiftLeft | BitShiftRight | Pipe | Ampersand | Hash | Concat
| Comma | LeftParen | RightParen | Period | Colon | DoubleColon | SemiColon
| LeftBrace | RightBrace | LeftBracket | RightBracket
| RightArrow | Exclamation | Caret | Tilde | CaretAt.
End Token.

#[global] Instance comment_eq_dec : EqDecision Comment.
Proof. solve_decision. Defined.
#[global] Instance word_eq_dec : EqDecision Word.
Proof. solve_decision. Defined.
#[global] Instance token_eq_dec : EqDecision Token.t.
Proof. solve_decision. Defined.

Record TokenWithLocation := {
  token : Token.t;
  start_idx : nat;
  tok_line : nat;
  tok_col : nat
}.

(** [TokenWithLocation::is_keyword] *)
Definition is_keyword (t : TokenWithLocation) (other : Keyword.t) : bool :=
  match token t with
  | Token.Word w => match word_keyword w with
                    | Some k => bool_decide (k = other)
                    | None => false
                    end
  | _ => false
  end.

(** [TokenWithLocation::keyword] *)
Definition keyword (t : TokenWithLocation) : option Keyword.t :=
  match token t with
  | Token.Word w => word_keyword w
  | _ => None
  end.

(** [Word::new] *)
Definition Word_new `{AsciiOrder} (value : str) (quote : option char) : Word := {|
  word_value := value;
  word_quote := quote;
  word_keyword := match quote with Some _ => None | None => keyword_from_str value end
|}.

(** ** Strings as UTF-8 *)

(** The character of a literal. *)
Definition ch (a : Ascii.ascii) : char := Z.of_nat (Ascii.nat_of_ascii a).
Arguments ch a%_char.

Definition newline : char := 10.
Definition quotation_mark : char := 34.
Definition apostrophe : char := 39.

(** [char::len_utf8] *)
Definition len_utf8 (c : char) : nat :=
  if c <? 128 then 1 else if c <? 2048 then 2 else if c <? 65536 then 3 else 4.

(** [str::len], in bytes. *)
Fixpoint str_len (s : str) : nat :=
  match s with
  | [] => 0
  | c :: s' => len_utf8 c + str_len s'
  end.

(** [&s[idx..]] *)
Fixpoint slice_from (s : str) (idx : nat) : res str :=
  match idx, s with
  | O, _ => Ok s
  | _, [] => Panic "byte index out of bounds"
  | _, c :: s' =>
    if (idx <? len_utf8 c)%nat then Panic "byte index is not a char boundary"
    else slice_from s' (idx - len_utf8 c)
  end.

(** [&s[..idx]] *)
Fixpoint slice_to (s : str) (idx : nat) : res str :=
  match idx, s with
  | O, _ => Ok []
  | _, [] => Panic "byte index out of bounds"
  | _, c :: s' =>
    if (idx <? len_utf8 c)%nat then Panic "byte index is not a char boundary"
    else r ← slice_to s' (idx - len_utf8 c); Ok (c :: r)
  end.

(** [&s[a..b]] *)
Definition slice (s : str) (a b : nat) : res str :=
  if (b <? a)%nat then Panic "slice index starts at a but ends at b"
  else r ← slice_from s a; slice_to r (b - a).

(** [char::is_alphabetic] and [char::is_numeric], from the Unicode tables. *)
Class Unicode := {
  is_alphabetic : char -> bool;
  is_numeric : char -> bool
}.

(** [char::is_alphanumeric] *)
Definition is_alphanumeric `{Unicode} (c : char) : bool := is_alphabetic c || is_numeric c.

(** [char::is_ascii_digit] *)
Definition is_ascii_digit (c : char) : bool := (48 <=? c) && (c <=? 57).

(** ** The cursor *)

Record State := {
  query : str;
  idx : nat;
  line : nat;
  col : nat
}.

(** [State::peek] *)
Definition peek : M State (option char) :=
  s ← get;
  chars ← lift (slice_from (query s) (idx s));
  mret (head chars).

(** [State::next] *)
Definition next : M State (option char) :=
  s ← get;
  chars ← lift (slice_from (query s) (idx s));
  match chars with
  | [] => mret None
  | c :: chars' =>
    let '(line', col') := if c =? newline then (S (line s), O) else (line s, S (col s)) in
    let idx' := match chars' with
                | _ :: _ => (idx s + len_utf8 c)%nat
                | [] => str_len (query s)
                end in
    _ ← put {| query := query s; idx := idx'; line := line'; col := col' |};
    mret (Some c)
  end.

(** The loop of [take_while]: the offset of the first character that the
    predicate rejects.  The predicate is an [FnMut] closure with state [st]. *)
Fixpoint scan_while {St} (predicate : St -> char -> bool * St) (st : St) (char_idx : nat) (chars : str)
    : option nat :=
  match chars with
  | [] => None
  | c :: chars' =>
    let '(keep, st') := predicate st c in
    if keep then scan_while predicate st' (char_idx + len_utf8 c) chars' else Some char_idx
  end.

(** [State::take_while] *)
Definition take_while_st {St} (predicate : St -> char -> bool * St) (st : St) : M State str :=
  s ← get;
  chars ← lift (slice_from (query s) (idx s));
  let end_idx := match scan_while predicate st 0 chars with
                 | Some char_idx => (char_idx + idx s)%nat
                 | None => str_len (query s)
                 end in
  result ← lift (slice (query s) (idx s) end_idx);
  _ ← put {| query := query s; idx := end_idx; line := line s; col := col s |};
  mret result.

Definition take_while (predicate : char -> bool) : M State str :=
  take_while_st (fun _ c => (predicate c, tt)) tt.

(** ** The tokenizer *)

Section Tokenizer.
Context `{Unicode} `{AsciiOrder}.

Definition take_single_line_comment : M State str :=
  take_while (fun c => negb (c =? newline)).

Definition take_quoted_string (quote : char) : M State str :=
  s ← take_while (fun c => negb (c =? quote));
  _ ← next;
  mret s.

Definition take_quoted_identifier : M State Word :=
  _ ← next;
  quoted ← take_quoted_string quotation_mark;
  mret (Word_new quoted (Some quotation_mark)).

Definition take_identifier : M State Word :=
  s ← take_while (fun c => is_alphanumeric c || (c =? ch "_"));
  mret (Word_new s None).

Definition is_identifier_start (c : char) : bool := is_alphabetic c || (c =? ch "_").

Definition is_quoted_identifier_start (c : char) : bool := c =? quotation_mark.

(** The closure that takes a number; its state is [period_found]. *)
Definition number_char (period_found : bool) (c : char) : bool * bool :=
  if is_ascii_digit c then (true, period_found)
  else if period_found then (false, period_found)
  else if c =? ch "." then (true, true)
  else (false, period_found).

(** [self.state.next(); tok], and the same with one character of lookahead. *)
Definition take (t : Token.t) : M State Token.t := _ ← next; mret t.

Definition take_two (followed : list (Ascii.ascii * Token.t)) (t : Token.t) : M State Token.t :=
  _ ← next;
  c ← peek;
  match c with
  | Some c => match list_find (fun p => ch p.1 = c) followed with
              | Some (_, (_, t')) => take t'
              | None => mret t
              end
  | None => mret t
  end.

(** The [match c] of [next_token]: the token that starts with [c]. *)
Definition token_at (c : char) : M State Token.t :=
  if existsb (Z.eqb c) [ch " "; 9; newline; 13] then take Token.Whitespace
  else if c =? ch ";" then take Token.SemiColon
  else if c =? ch "(" then take Token.LeftParen
  else if c =? ch ")" then take Token.RightParen
  else if c =? ch "[" then take Token.LeftBracket
  else if c =? ch "]" then take Token.RightBracket
  else if c =? ch "," then take Token.Comma
  else if c =? ch "*" then take_two [("*"%char, Token.Exponent)] Token.Mul
  else if c =? ch "+" then take Token.Plus
  else if c =? ch "-" then
    (_ ← next;
     p ← peek;
     if bool_decide (p = Some (ch "-")) then
       _ ← next;
       s ← take_single_line_comment;
       mret (Token.Comment (SingleLine s))
     else mret Token.Minus)
  else if c =? ch "/" then take_two [("/"%char, Token.IntDiv)] Token.Div
  else if c =? ch "%" then take Token.Mod
  else if c =? ch "#" then take Token.Hash
  else if c =? ch "^" then take_two [("@"%char, Token.CaretAt)] Token.Caret
  else if c =? ch ">" then
    take_two [("="%char, Token.GtEq); (">"%char, Token.BitShiftRight)] Token.Gt
  else if c =? ch "<" then
    take_two [("="%char, Token.LtEq); (">"%char, Token.Neq); ("<"%char, Token.BitShiftLeft)] Token.Lt
  else if c =? ch "!" then take_two [("="%char, Token.Neq)] Token.Exclamation
  else if c =? ch "|" then take_two [("|"%char, Token.Concat)] Token.Pipe
  else if c =? ch "&" then take Token.Ampersand
  else if c =? ch "~" then take Token.Tilde
  else if c =? ch ":" then take_two [(":"%char, Token.DoubleColon)] Token.Colon
  else if c =? apostrophe then
    (_ ← next;
     s ← take_quoted_string apostrophe;
     mret (Token.SingleQuotedString s))
  else if is_ascii_digit c || (c =? ch ".") then
    (s ← take_while_st number_char false;
     if bool_decide (s = [ch "."]) then mret Token.Period else mret (Token.Number s))
  else if c =? ch "=" then
    take_two [(">"%char, Token.RightArrow); ("="%char, Token.DoubleEq)] Token.Eq
  else if is_identifier_start c then
    (ident ← take_identifier; mret (Token.Word ident))
  else if is_quoted_identifier_start c then
    (ident ← take_quoted_identifier; mret (Token.Word ident))
  else fail "Unhandled character".

(** [Tokenizer::next_token] *)
Definition next_token : M State (option Token.t) :=
  p ← peek;
  match p with
  | None => mret None
  | Some c => t ← token_at c; mret (Some t)
  end.

(** The loop of [tokenize], which pushes to [tokens]. *)
Fixpoint tokenize_loop (fuel : nat) (start : nat) (tokens : list TokenWithLocation)
    : M State (list TokenWithLocation) :=
  match fuel with
  | O => lift (Panic "out of fuel")
  | S fuel' =>
    t ← next_token;
    match t with
    | None => mret tokens
    | Some t =>
      s ← get;
      tokenize_loop fuel' (idx s)
        (tokens ++ [{| token := t; start_idx := start; tok_line := line s; tok_col := col s |}])
    end
  end.

(** [Tokenizer::new(query).tokenize(&mut tokens)] for an empty [tokens].  Every
    token takes a character, so the length of the query is fuel enough. *)
Definition tokenize (q : str) : res (list TokenWithLocation) :=
  (tokenize_loop (S (length q)) 0 [] {| query := q; idx := 0; line := 0; col := 0 |}).1.

End Tokenizer.

Module TokenizerExample.
Export AsciiExample.

(** Letters and digits of ASCII only. *)
#[export] Instance ascii_only : Unicode := {|
  is_alphabetic c := (65 <=? c) && (c <=? 90) || (97 <=? c) && (c <=? 122);
  is_numeric := is_ascii_digit
|}.

End TokenizerExample.
