(* ===== verification/TokenizerCorrect.v ===== *)
(** * Correctness of the tokenizer

    The tokenizer is total, its tokens spell the query without gaps, and printing
    tokens and reading them back gives the tokens. *)
From Stdlib Require Import Ascii.
From S2P Require Import Prelude Keywords Tokenizer.
Open Scope Z_scope.

(** ** The cursor *)

(** The cursor stands between [pre] and [rest]. *)
Definition here (pre rest : str) (s : State) : Prop :=
  query s = pre ++ rest /\ idx s = str_len pre.

Lemma str_len_app a b : str_len (a ++ b) = (str_len a + str_len b)%nat.
Proof. induction a as [|c a IH]; simpl; [done|]. rewrite IH. lia. Qed.

Lemma len_utf8_pos c : (0 < len_utf8 c)%nat.
Proof. unfold len_utf8. repeat case_match; lia. Qed.

Lemma slice_from_app a b : slice_from (a ++ b) (str_len a) = Ok b.
Proof.
  induction a as [|c a IH]; simpl; [by destruct b|].
  pose proof (len_utf8_pos c). destruct (len_utf8 c + str_len a)%nat eqn:E; [lia|]. rewrite <- E.
  rewrite (proj2 (Nat.ltb_ge _ _)) by lia. by replace (len_utf8 c + str_len a - len_utf8 c)%nat with (str_len a) by lia.
Qed.

Lemma slice_to_app a b : slice_to (a ++ b) (str_len a) = Ok a.
Proof.
  induction a as [|c a IH]; simpl; [by destruct b|].
  pose proof (len_utf8_pos c). destruct (len_utf8 c + str_len a)%nat eqn:E; [lia|]. rewrite <- E.
  rewrite (proj2 (Nat.ltb_ge _ _)) by lia. replace (len_utf8 c + str_len a - len_utf8 c)%nat with (str_len a) by lia.
  by rewrite IH.
Qed.

Lemma slice_app a b c : slice (a ++ b ++ c) (str_len a) (str_len a + str_len b) = Ok b.
Proof.
  unfold slice. rewrite (proj2 (Nat.ltb_ge _ _)) by lia. rewrite slice_from_app. simpl.
  replace (str_len a + str_len b - str_len a)%nat with (str_len b) by lia. apply slice_to_app.
Qed.

Lemma peek_here pre rest s : here pre rest s -> peek s = (Ok (head rest), s).
Proof. intros [Hq Hi]. unfold peek, mbind, M_bind, get, lift. by rewrite Hq, Hi, slice_from_app. Qed.

Lemma next_here pre c rest s :
  here pre (c :: rest) s -> exists s', next s = (Ok (Some c), s') /\ here (pre ++ [c]) rest s'.
Proof.
  intros [Hq Hi]. unfold next, mbind, M_bind, get, lift, put. rewrite Hq, Hi, slice_from_app.
  destruct (if c =? newline then _ else _) as [l k]. eexists. split; [done|].
  split; simpl; [by rewrite <- app_assoc|]. rewrite !str_len_app. simpl.
  destruct rest; simpl; lia.
Qed.

Lemma next_end pre s : here pre [] s -> next s = (Ok None, s).
Proof. intros [Hq Hi]. unfold next, mbind, M_bind, get, lift. by rewrite Hq, Hi, slice_from_app. Qed.

(** What [take_while] takes and what it leaves. *)
Fixpoint span {St} (p : St -> char -> bool * St) (st : St) (l : str) : str * str :=
  match l with
  | [] => ([], [])
  | c :: l' =>
    let '(keep, st') := p st c in
    if keep then let '(a, b) := span p st' l' in (c :: a, b) else ([], l)
  end.

Lemma span_scan {St} (p : St -> char -> bool * St) st l n :
  l = (span p st l).1 ++ (span p st l).2
  /\ scan_while p st n l = match (span p st l).2 with
                           | [] => None
                           | _ => Some (n + str_len (span p st l).1)%nat
                           end.
Proof.
  revert st n. induction l as [|c l IH]; intros st n; simpl; [done|].
  destruct (p st c) as [[|] st']; simpl; [|split; [done|by rewrite Nat.add_0_r]].
  destruct (IH st' (n + len_utf8 c)%nat) as [Happ Hscan]. destruct (span p st' l) as [a b]. simpl in *.
  split; [by rewrite Happ at 1|]. rewrite Hscan. destruct b; [done|]. f_equal. lia.
Qed.

Lemma take_while_st_here {St} (p : St -> char -> bool * St) st pre rest s :
  here pre rest s ->
  exists s', take_while_st p st s = (Ok (span p st rest).1, s')
             /\ here (pre ++ (span p st rest).1) (span p st rest).2 s'.
Proof.
  intros [Hq Hi]. unfold take_while_st, mbind, M_bind, get, lift, put. rewrite Hq, Hi, slice_from_app.
  destruct (span_scan p st rest 0) as [Happ Hscan]. rewrite Hscan. clear Hscan.
  destruct (span p st rest) as [a b]. simpl in *. subst rest.
  assert (Hend : match match b with [] => None | _ :: _ => Some (str_len a) end with
                 | Some char_idx => (char_idx + str_len pre)%nat
                 | None => str_len (pre ++ a ++ b)
                 end = (str_len pre + str_len a)%nat).
  { destruct b; rewrite ?app_nil_r, ?str_len_app; lia. }
  rewrite Hend, slice_app. eexists. split; [done|].
  split; simpl; [by rewrite <- app_assoc|by rewrite str_len_app].
Qed.

(** [m] reads [text] in front of [rest] and returns [a]. *)
Definition runs {A} (m : M State A) (text rest : str) (a : A) : Prop :=
  forall pre s, here pre (text ++ rest) s ->
    exists s', m s = (Ok a, s') /\ here (pre ++ text) rest s'.

Lemma runs_ret {A} rest (a : A) : runs (mret a) [] rest a.
Proof. intros pre s Hs. exists s. by rewrite app_nil_r. Qed.

Lemma runs_bind {A B} (m : M State A) (k : A -> M State B) t1 t2 rest a b :
  runs m t1 (t2 ++ rest) a -> runs (k a) t2 rest b -> runs (m ≫= k) (t1 ++ t2) rest b.
Proof.
  intros Hm Hk pre s Hs. rewrite <- app_assoc in Hs.
  destruct (Hm _ _ Hs) as (s1 & E1 & H1). destruct (Hk _ _ H1) as (s2 & E2 & H2).
  exists s2. unfold mbind, M_bind. rewrite E1. rewrite app_assoc. done.
Qed.

(** The last step of a sequence. *)
Lemma runs_fmap {A B} (m : M State A) (k : A -> M State B) text rest a b :
  runs m text rest a -> runs (k a) [] rest b -> runs (m ≫= k) text rest b.
Proof. intros Hm Hk. rewrite <- (app_nil_r text). by apply runs_bind with a. Qed.

Lemma runs_peek text rest : runs peek [] (text ++ rest) (head (text ++ rest)).
Proof. intros pre s Hs. exists s. rewrite app_nil_r. split; [by eapply peek_here|done]. Qed.

Lemma runs_next c rest : runs next [c] rest (Some c).
Proof. intros pre s Hs. by apply next_here. Qed.

Lemma runs_next_end : runs next [] [] None.
Proof. intros pre s Hs. exists s. rewrite app_nil_r. split; [by apply next_end with pre|done]. Qed.

Lemma runs_take_while_st {St} (p : St -> char -> bool * St) st text rest :
  span p st (text ++ rest) = (text, rest) -> runs (take_while_st p st) text rest text.
Proof.
  intros Hspan pre s Hs. destruct (take_while_st_here p st _ _ _ Hs) as (s' & E & H').
  rewrite Hspan in E, H'. by exists s'.
Qed.

Lemma span_all (p : char -> bool) text rest :
  forallb p text = true -> match rest with c :: _ => p c = false | [] => True end ->
  span (fun _ c => (p c, tt)) tt (text ++ rest) = (text, rest).
Proof.
  intros Hp Hr. induction text as [|c text IH]; simpl in *.
  - destruct rest as [|c rest]; simpl; [done|]. by rewrite Hr.
  - apply andb_true_iff in Hp as [-> Hp]. by rewrite IH.
Qed.

Lemma span_inv (p : char -> bool) l :
  let '(a, b) := span (fun _ c => (p c, tt)) tt l in
  l = a ++ b /\ forallb p a = true /\ match b with c :: _ => p c = false | [] => True end.
Proof.
  induction l as [|c l IH]; simpl; [done|].
  destruct (p c) eqn:Hc; [|done]. destruct (span _ _ l) as [a b]. simpl. rewrite Hc. naive_solver.
Qed.

(** Any text splits at the end of what the predicate accepts. *)
Lemma split_while (p : char -> bool) l :
  exists a b, l = a ++ b /\ forallb p a = true /\ match b with c :: _ => p c = false | [] => True end.
Proof. pose proof (span_inv p l) as H. destruct (span _ _ l) as [a b]. by exists a, b. Qed.

Lemma runs_take_while (p : char -> bool) text rest :
  forallb p text = true -> match rest with c :: _ => p c = false | [] => True end ->
  runs (take_while p) text rest text.
Proof. intros. by apply runs_take_while_st, span_all. Qed.

Lemma runs_take t c rest : runs (take t) [c] rest t.
Proof. apply runs_fmap with (Some c); [apply runs_next|apply runs_ret]. Qed.

(** A character that is not followed by one of [followed]. *)
Lemma runs_take_one followed t c rest :
  match rest with d :: _ => list_find (fun p => ch p.1 = d) followed = None | [] => True end ->
  runs (take_two followed t) [c] rest t.
Proof.
  intros Hr. apply runs_fmap with (Some c); [apply runs_next|].
  apply runs_fmap with (head rest); [apply (runs_peek [] rest)|].
  destruct rest as [|d rest]; simpl; [apply runs_ret|]. rewrite Hr. apply runs_ret.
Qed.

Lemma runs_take_followed followed t c d i a t' rest :
  list_find (fun p => ch p.1 = d) followed = Some (i, (a, t')) -> runs (take_two followed t) [c; d] rest t'.
Proof.
  intros Hd. apply (runs_bind _ _ [c] [d] _ (Some c)); [apply runs_next|].
  apply (runs_bind _ _ [] [d] _ (Some d)); [apply (runs_peek [d] rest)|].
  rewrite Hd. apply runs_take.
Qed.

(** ** Spellings *)

(** The texts of a token without a payload. *)
Definition spellings (t : Token.t) : list str :=
  match t with
  | Token.Whitespace => [[ch " "]; [9]; [newline]; [13]]
  | Token.Eq => [lit "="] | Token.DoubleEq => [lit "=="] | Token.Neq => [lit "!="; lit "<>"]
  | Token.Lt => [lit "<"] | Token.Gt => [lit ">"] | Token.LtEq => [lit "<="] | Token.GtEq => [lit ">="]
  | Token.Plus => [lit "+"] | Token.Minus => [lit "-"] | Token.Mul => [lit "*"] | Token.Div => [lit "/"]
  | Token.IntDiv => [lit "//"] | Token.Mod => [lit "%"] | Token.Exponent => [lit "**"]
  | Token.BitShiftLeft => [lit "<<"] | Token.BitShiftRight => [lit ">>"] | Token.Pipe => [lit "|"]
  | Token.Ampersand => [lit "&"] | Token.Hash => [lit "#"] | Token.Concat => [lit "||"]
  | Token.Comma => [lit ","] | Token.LeftParen => [lit "("] | Token.RightParen => [lit ")"]
  | Token.Period => [lit "."] | Token.Colon => [lit ":"] | Token.DoubleColon => [lit "::"]
  | Token.SemiColon => [lit ";"] | Token.LeftBracket => [lit "["] | Token.RightBracket => [lit "]"]
  | Token.RightArrow => [lit "=>"] | Token.Exclamation => [lit "!"] | Token.Caret => [lit "^"]
  | Token.Tilde => [lit "~"] | Token.CaretAt => [lit "^@"]
  | _ => []
  end.

(** [s] between two [quote]s; the closing one may be missing at the end of the
    query. *)
Definition quoted (quote : char) (s text rest : str) : Prop :=
  forallb (fun c => negb (c =? quote)) s = true
  /\ (text = [quote] ++ s ++ [quote] \/ text = [quote] ++ s /\ rest = []).

Section Spelling.
Context `{Unicode} `{AsciiOrder}.

Definition is_identifier_part (c : char) : bool := is_alphanumeric c || (c =? ch "_").

Definition is_identifier (s : str) : bool :=
  match s with c :: s' => is_identifier_start c && forallb is_identifier_part s' | [] => false end.

(** A token spelled [text], in front of [rest]. *)
Definition spells (t : Token.t) (text rest : str) : Prop :=
  match t with
  | Token.Word w =>
    w = Word_new text None /\ forallb is_identifier_part text = true
    \/ w = Word_new (word_value w) (Some quotation_mark) /\ quoted quotation_mark (word_value w) text rest
  | Token.SingleQuotedString s => quoted apostrophe s text rest
  | Token.Number s => text = s /\ forallb (fun c => is_ascii_digit c || (c =? ch ".")) s = true
  | Token.Comment (SingleLine s) => text = lit "--" ++ s /\ forallb (fun c => negb (c =? newline)) s = true
  | _ => text ∈ spellings t
  end.

(** The tokens from byte [i] on spell the text: they follow each other without a
    gap, and each records where it starts. *)
Inductive tokenized : nat -> list TokenWithLocation -> str -> Prop :=
| tokenized_nil i : tokenized i [] []
| tokenized_cons i t toks text rest :
    start_idx t = i -> text <> [] -> spells (token t) text rest ->
    tokenized (i + str_len text) toks rest ->
    tokenized i (t :: toks) (text ++ rest).

(** ** Every character starts a token or is refused *)

(** [m] reads one token at the front of the text [c :: rest]. *)
Definition reads (c : char) (rest : str) (m : M State Token.t) : Prop :=
  exists text rest' t, c :: rest = text ++ rest' /\ text <> [] /\ spells t text rest' /\ runs m text rest' t.

Lemma spellings_spells t text rest : text ∈ spellings t -> spells t text rest.
Proof. destruct t as [| | | |[]| | | | | | | | | | | | | | | | | | | | | | | | | | | | | | | | | | | |]; simpl; try done; by intros ?%elem_of_nil. Qed.

Lemma reads_take c rest t : [c] ∈ spellings t -> reads c rest (take t).
Proof. intros Ht. exists [c], rest, t. split_and!; [done..|by apply spellings_spells|apply runs_take]. Qed.

Lemma reads_take_two c rest followed t :
  [c] ∈ spellings t -> Forall (fun p => [c; ch p.1] ∈ spellings p.2) followed ->
  reads c rest (take_two followed t).
Proof.
  intros Ht Hf.
  assert (Hone : match rest with d :: _ => list_find (fun p => ch p.1 = d) followed = None | [] => True end ->
                 reads c rest (take_two followed t)).
  { intros Hd. exists [c], rest, t. split_and!; [done..|by apply spellings_spells|by apply runs_take_one]. }
  destruct rest as [|d rest]; [by apply Hone|].
  destruct (list_find (fun p => ch p.1 = d) followed) as [[i [a t']]|] eqn:Hd; [|by apply Hone].
  exists [c; d], rest, t'. apply list_find_Some in Hd as Hd'. destruct Hd' as (Hi & <- & _).
  split_and!; [done..| |by apply runs_take_followed with i a].
  apply spellings_spells. exact (Forall_lookup_1 _ _ _ _ Hf Hi).
Qed.

Lemma runs_minus rest :
  head rest <> Some (ch "-") ->
  runs (_ ← next; p ← peek;
        if bool_decide (p = Some (ch "-")) then
          _ ← next; s ← take_single_line_comment; mret (Token.Comment (SingleLine s))
        else mret Token.Minus) [ch "-"] rest Token.Minus.
Proof.
  intros Hd. apply runs_fmap with (Some (ch "-")); [apply runs_next|].
  apply runs_fmap with (head rest); [apply (runs_peek [] rest)|].
  rewrite bool_decide_false by done. apply runs_ret.
Qed.

Lemma reads_minus rest :
  reads (ch "-") rest
    (_ ← next; p ← peek;
     if bool_decide (p = Some (ch "-")) then
       _ ← next; s ← take_single_line_comment; mret (Token.Comment (SingleLine s))
     else mret Token.Minus).
Proof.
  destruct (decide (head rest = Some (ch "-"))) as [Hd|Hd].
  - destruct rest as [|d rest]; [done|]. injection Hd as ->.
    destruct (split_while (fun c => negb (c =? newline)) rest) as (a & b & -> & Ha & Hb).
    exists (ch "-" :: ch "-" :: a), b, (Token.Comment (SingleLine a)). split_and!; [done..|].
    apply (runs_bind _ _ [ch "-"] (ch "-" :: a) _ (Some (ch "-"))); [apply runs_next|].
    apply (runs_bind _ _ [] (ch "-" :: a) _ (Some (ch "-"))); [apply (runs_peek (ch "-" :: a) b)|].
    rewrite bool_decide_true by done.
    apply (runs_bind _ _ [ch "-"] a _ (Some (ch "-"))); [apply runs_next|].
    apply runs_fmap with a; [by apply runs_take_while|apply runs_ret].
  - exists [ch "-"], rest, Token.Minus. split_and!; [done..|by apply spellings_spells; left|].
    by apply runs_minus.
Qed.

(** A quoted string, after its opening quote. *)
Lemma runs_take_quoted_string quote s rest :
  forallb (fun c => negb (c =? quote)) s = true ->
  runs (take_quoted_string quote) (s ++ [quote]) rest s.
Proof.
  intros Hs. apply runs_bind with s; [apply runs_take_while; [done|]|].
  - simpl. by rewrite Z.eqb_refl.
  - apply runs_fmap with (Some quote); [apply runs_next|apply runs_ret].
Qed.

Lemma reads_quoted quote rest :
  exists s text rest', quote :: rest = text ++ rest' /\ text <> [] /\ quoted quote s text rest'
    /\ forall B (k : str -> B), runs (_ ← next; s ← take_quoted_string quote; mret (k s)) text rest' (k s).
Proof.
  destruct (split_while (fun c => negb (c =? quote)) rest) as (s & b & -> & Hs & Hb).
  exists s. destruct b as [|d b].
  - exists ([quote] ++ s), []. split_and!; [done..|by split; [|right]|].
    intros B k. apply runs_bind with (Some quote); [apply runs_next|].
    apply runs_fmap with s; [|apply runs_ret].
    apply runs_fmap with s; [by apply runs_take_while|].
    apply runs_fmap with None; [apply runs_next_end|apply runs_ret].
  - apply negb_false_iff, Z.eqb_eq in Hb as ->.
    exists ([quote] ++ s ++ [quote]), b. split_and!; [simpl; by rewrite <- app_assoc|done|by split; [|left]|].
    intros B k. apply runs_bind with (Some quote); [apply runs_next|].
    apply runs_fmap with s; [by apply runs_take_quoted_string|apply runs_ret].
Qed.

Lemma span_number b l :
  let '(x, y) := span number_char b l in
  l = x ++ y /\ forallb (fun c => is_ascii_digit c || (c =? ch ".")) x = true.
Proof.
  revert b. induction l as [|c l IH]; intros b; simpl; [done|]. unfold number_char at 1.
  destruct (is_ascii_digit c) eqn:Hd; [|destruct b; [done|destruct (c =? ch ".") eqn:Hp; [|done]]].
  - specialize (IH b). destruct (span _ _ _) as [x y]. simpl. rewrite Hd. naive_solver.
  - specialize (IH true). destruct (span _ _ _) as [x y]. simpl. rewrite Hp, orb_true_r. naive_solver.
Qed.

Lemma reads_number c rest :
  is_ascii_digit c || (c =? ch ".") = true ->
  reads c rest
    (s ← take_while_st number_char false;
     if bool_decide (s = [ch "."]) then mret Token.Period else mret (Token.Number s)).
Proof.
  intros Hc. pose proof (span_number false (c :: rest)) as Hs.
  destruct (span number_char false (c :: rest)) as [x y] eqn:E. destruct Hs as [Happ Hx].
  assert (x <> []).
  { intros ->. simpl in E. unfold number_char in E at 1.
    destruct (is_ascii_digit c); [|simpl in Hc; rewrite Hc in E]; by destruct (span _ _ _). }
  exists x, y, (if bool_decide (x = [ch "."]) then Token.Period else Token.Number x).
  split_and!; [done..| |].
  - case_bool_decide as Hp; [|by split]. apply spellings_spells. rewrite Hp. by left.
  - apply runs_fmap with x; [apply runs_take_while_st; by rewrite <- Happ|].
    case_bool_decide; apply runs_ret.
Qed.

Lemma reads_identifier c rest :
  is_identifier_start c = true -> reads c rest (ident ← take_identifier; mret (Token.Word ident)).
Proof.
  intros Hc. destruct (split_while is_identifier_part rest) as (a & b & -> & Ha & Hb).
  assert (Hca : forallb is_identifier_part (c :: a) = true).
  { simpl. rewrite Ha, andb_true_r. unfold is_identifier_start in Hc.
    unfold is_identifier_part, is_alphanumeric. by destruct (is_alphabetic c), (is_numeric c). }
  exists (c :: a), b, (Token.Word (Word_new (c :: a) None)). split_and!; [done..|by left|].
  apply runs_fmap with (Word_new (c :: a) None); [|apply runs_ret].
  apply runs_fmap with (c :: a); [by apply runs_take_while|apply runs_ret].
Qed.

(** The characters a token can start with. *)
Definition starts_token (c : char) : bool :=
  existsb (Z.eqb c) (lit " ;()[],*+-/%#^><!|&~:.=" ++ [9; newline; 13; apostrophe; quotation_mark])
  || is_ascii_digit c || is_identifier_start c.

Lemma starts_token_in c l :
  c ∈ l -> forallb starts_token l = true -> starts_token c = true.
Proof. intros Hc Hl. rewrite forallb_forall in Hl. apply Hl. by apply list_elem_of_In. Qed.

(** A token is read, or the character is refused. *)
Lemma token_at_reads c rest :
  starts_token c = true /\ reads c rest (token_at c)
  \/ starts_token c = false /\ token_at c = fail "Unhandled character".
Proof.
  unfold token_at.
  destruct (existsb (Z.eqb c) [ch " "; 9; newline; 13]) eqn:Hws.
  { apply existsb_exists in Hws as (d & Hd & ->%Z.eqb_eq). left. split.
    - apply (starts_token_in _ [ch " "; 9; newline; 13]); [by apply list_elem_of_In|done].
    - apply reads_take. simpl in *. set_solver. }
  repeat match goal with
  | |- context [if c =? ?x then _ else _] =>
    destruct (Z.eqb_spec c x) as [->|?];
    [left; split; [reflexivity|];
     first [ apply reads_take; by left
           | apply reads_minus
           | apply reads_take_two; [by left|repeat constructor; simpl; set_solver]
           | idtac ] |]
  end.
  - destruct (reads_quoted apostrophe rest) as (s & text & rest' & Happ & Hne & Hq & Hrun).
    exists text, rest', (Token.SingleQuotedString s). split_and!; [done..|apply Hrun].
  - destruct (is_ascii_digit c || (c =? ch ".")) eqn:Hn.
    { left. split; [|by apply reads_number]. unfold starts_token.
      apply orb_true_iff in Hn as [->| ->%Z.eqb_eq]; [by rewrite orb_true_r|done]. }
    apply orb_false_iff in Hn as [Hdigit Hperiod].
    destruct (is_identifier_start c) eqn:Hid.
    { left. split; [|by apply reads_identifier]. unfold starts_token. by rewrite Hid, orb_true_r. }
    unfold is_quoted_identifier_start. destruct (Z.eqb_spec c quotation_mark) as [->|Hquote]; [left|right].
    + split; [done|]. destruct (reads_quoted quotation_mark rest) as (s & text & rest' & Happ & Hne & Hq & Hrun).
      exists text, rest', (Token.Word (Word_new s (Some quotation_mark))).
      split_and!; [done..|by right|].
      apply runs_fmap with (Word_new s (Some quotation_mark)); [|apply runs_ret].
      apply (Hrun _ (fun s => Word_new s (Some quotation_mark))).
    + split; [|done]. unfold starts_token. rewrite Hdigit, Hid, !orb_false_r.
      apply not_true_iff_false. intros (d & Hd & ->%Z.eqb_eq)%existsb_exists. simpl in Hd.
      repeat (destruct Hd as [<-|Hd]; [by match goal with H : ?x <> ?x' |- _ => case H end|]).
      done.
Qed.

(** ** The whole query *)

Lemma next_token_here pre c rest s : here pre (c :: rest) s -> next_token s = (t ← token_at c; mret (Some t)) s.
Proof.
  intros Hs. unfold next_token, mbind at 1, M_bind at 1. by rewrite (peek_here _ _ _ Hs).
Qed.

Lemma tokenize_loop_nil fuel start acc pre s :
  here pre [] s -> (tokenize_loop (S fuel) start acc s).1 = Ok acc.
Proof.
  intros Hs. simpl. unfold mbind, M_bind at 1, next_token, mbind, M_bind. by rewrite (peek_here _ _ _ Hs).
Qed.

Lemma tokenize_loop_cons fuel start acc pre s text rest t :
  text <> [] -> here pre (text ++ rest) s ->
  runs (default (fail "") (token_at <$> head text)) text rest t ->
  exists s' tl, here (pre ++ text) rest s' /\ token tl = t /\ start_idx tl = start
    /\ tokenize_loop (S fuel) start acc s = tokenize_loop fuel (str_len (pre ++ text)) (acc ++ [tl]) s'.
Proof.
  intros Hne Hs Hrun. destruct text as [|c text]; [done|]. simpl in Hrun.
  destruct (Hrun _ _ Hs) as (s' & E & Hs').
  exists s', {| token := t; start_idx := start; tok_line := line s'; tok_col := col s' |}.
  split_and!; [done..|]. cbn [tokenize_loop]. unfold mbind at 1, M_bind at 1.
  rewrite (next_token_here pre c (text ++ rest) s Hs). unfold mbind at 1, M_bind at 1. rewrite E.
  unfold mret, M_ret, mbind, M_bind, get. destruct Hs' as [_ ->]. done.
Qed.

Lemma tokenize_loop_spec fuel pre rest s acc :
  (length rest < fuel)%nat -> here pre rest s ->
  match (tokenize_loop fuel (str_len pre) acc s).1 with
  | Ok toks => exists new, toks = acc ++ new /\ tokenized (str_len pre) new rest
  | Err _ => exists c, c ∈ rest /\ starts_token c = false
  | Panic _ => False
  end.
Proof.
  revert pre rest s acc. induction fuel as [|fuel IH]; intros pre rest s acc Hfuel Hs; [lia|].
  destruct rest as [|c rest].
  { rewrite (tokenize_loop_nil _ _ _ _ _ Hs). exists []. rewrite app_nil_r. split; [done|constructor]. }
  destruct (token_at_reads c rest) as [[_ (text & rest' & t & Happ & Hne & Hsp & Hrun)]|[Hc Hfail]].
  - rewrite Happ in Hs, Hfuel. destruct text as [|d text]; [done|]. injection Happ as <- ->.
    destruct (tokenize_loop_cons fuel (str_len pre) acc pre s (c :: text) rest' t)
      as (s' & tl & Hs' & <- & Hstart & ->); [done..|].
    specialize (IH (pre ++ c :: text) rest' s' (acc ++ [tl])).
    simpl in Hfuel. rewrite length_app in Hfuel.
    specialize (IH ltac:(lia) Hs'). destruct (tokenize_loop _ _ _ _).1 as [toks|e|w]; [|naive_solver set_solver|done].
    destruct IH as (new & -> & Hnew). exists (tl :: new). rewrite <- app_assoc. split; [done|].
    rewrite app_comm_cons. constructor; [done..|]. by rewrite <- str_len_app.
  - cbn [tokenize_loop]. unfold mbind at 1, M_bind at 1. rewrite (next_token_here _ _ _ _ Hs), Hfail.
    exists c. split; [by left|done].
Qed.

(** What the whole loop gives, from the start of the query. *)
Lemma tokenize_reads q :
  match tokenize q with
  | Ok toks => tokenized 0 toks q
  | Err _ => exists c, c ∈ q /\ starts_token c = false
  | Panic _ => False
  end.
Proof.
  unfold tokenize.
  pose proof (tokenize_loop_spec (S (length q)) [] q {| query := q; idx := 0; line := 0; col := 0 |} []
    ltac:(lia) ltac:(done)) as Hspec. simpl str_len in Hspec.
  destruct (tokenize_loop _ _ _ _).1; [|done..]. by destruct Hspec as (new & -> & Hnew).
Qed.

(** C16. The tokenizer is total: it either returns tokens that spell the query, one
    after the other and each with the offset where it starts, or refuses a
    character that no token starts with.  It does not slice inside a character
    and its loop ends. *)
Theorem tokenize_spec q :
  match tokenize q with
  | Ok toks => tokenized 0 toks q
  | Err _ => exists c, c ∈ q /\ starts_token c = false
  | Panic _ => False
  end.
Proof. apply tokenize_reads. Qed.

End Spelling.

(** ** Printing tokens *)

(** The Unicode classes on ASCII, as documented. *)
Class UnicodeLaws `{Unicode} : Prop := {
  is_alphabetic_ascii c : 0 <= c < 128 ->
    is_alphabetic c = (65 <=? c) && (c <=? 90) || (97 <=? c) && (c <=? 122);
  is_numeric_ascii c : 0 <= c < 128 -> is_numeric c = is_ascii_digit c
}.

Definition space : char := ch " ".

(** A text for a token. *)
Definition text_of (t : Token.t) : str :=
  match t with
  | Token.Word w => match word_quote w with
                    | Some q => [q] ++ word_value w ++ [q]
                    | None => word_value w
                    end
  | Token.SingleQuotedString s => [apostrophe] ++ s ++ [apostrophe]
  | Token.Number s => s
  | _ => default [] (head (spellings t))
  end.

(** Tokens, each followed by a space. *)
Definition render (ts : list Token.t) : str := concat ((fun t => text_of t ++ [space]) <$> ts).

Section Printing.
Context `{UnicodeLaws} `{AsciiOrder}.

(** Tokens that the tokenizer can produce from a text of their own; white space
    and comments are not among them, and braces are never produced. *)
Definition printable (t : Token.t) : Prop :=
  match t with
  | Token.Word w =>
    w = Word_new (word_value w) None /\ is_identifier (word_value w) = true
    \/ w = Word_new (word_value w) (Some quotation_mark)
       /\ forallb (fun c => negb (c =? quotation_mark)) (word_value w) = true
  | Token.SingleQuotedString s => forallb (fun c => negb (c =? apostrophe)) s = true
  | Token.Number s => s <> [] /\ s <> [ch "."] /\ span number_char false s = (s, [])
  | Token.Whitespace | Token.Comment _ | Token.LeftBrace | Token.RightBrace => False
  | _ => True
  end.

Lemma identifier_start_ascii c :
  0 <= c < 128 -> is_identifier_start c = (65 <=? c) && (c <=? 90) || (97 <=? c) && (c <=? 122) || (c =? 95).
Proof. intros Hc. unfold is_identifier_start. by rewrite is_alphabetic_ascii. Qed.

(** Refutes that a concrete ASCII character starts an identifier. *)
Ltac not_a_letter Hc :=
  exfalso; revert Hc; rewrite identifier_start_ascii by (vm_compute; split; congruence); vm_compute; discriminate.

Lemma token_at_identifier c :
  is_identifier_start c = true -> token_at c = (ident ← take_identifier; mret (Token.Word ident)).
Proof.
  intros Hc.
  assert (Hdigit : is_ascii_digit c = false).
  { apply not_true_iff_false. unfold is_ascii_digit. intros Hd. rewrite identifier_start_ascii in Hc; lia. }
  unfold token_at. destruct (existsb (Z.eqb c) [ch " "; 9; newline; 13]) eqn:Hws.
  { apply existsb_exists in Hws as (d & Hd & ->%Z.eqb_eq). simpl in Hd.
    repeat (destruct Hd as [<-|Hd]; [not_a_letter Hc|]). done. }
  repeat match goal with
  | |- context [if c =? ?x then _ else _] =>
    destruct (Z.eqb_spec c x) as [->|?]; [not_a_letter Hc|]
  end.
  rewrite Hdigit. simpl. destruct (Z.eqb_spec c (ch ".")) as [->|_]; [not_a_letter Hc|]. by rewrite Hc.
Qed.

Lemma identifier_part_space : is_identifier_part space = false.
Proof. unfold is_identifier_part, is_alphanumeric. by rewrite is_alphabetic_ascii, is_numeric_ascii. Qed.

Lemma identifier_start_part c : is_identifier_start c = true -> is_identifier_part c = true.
Proof.
  unfold is_identifier_start, is_identifier_part, is_alphanumeric. by destruct (is_alphabetic c), (is_numeric c).
Qed.

(** A number stays a number in front of a space. *)
Lemma span_number_space b s rest :
  span number_char b s = (s, []) -> span number_char b (s ++ space :: rest) = (s, space :: rest).
Proof.
  revert b. induction s as [|c s IH]; intros b; simpl; [by destruct b|].
  destruct (number_char b c) as [[|] b']; [|done]. specialize (IH b').
  destruct (span number_char b' s) as [x y]. intros [= -> ->]. by rewrite IH.
Qed.

Lemma token_at_number c : is_ascii_digit c || (c =? ch ".") = true ->
  token_at c = (s ← take_while_st number_char false;
     if bool_decide (s = [ch "."]) then mret Token.Period else mret (Token.Number s)).
Proof.
  intros Hc.
  unfold token_at.
  destruct (existsb (Z.eqb c) [ch " "; 9; newline; 13]) eqn:Hws.
  { apply existsb_exists in Hws as (d & Hd & ->%Z.eqb_eq). simpl in Hd.
    repeat (destruct Hd as [<-|Hd]; [discriminate Hc|]). done. }
  repeat match goal with
  | |- context [if c =? ?x then _ else _] => destruct (Z.eqb_spec c x) as [->|?]; [discriminate Hc|]
  end.
  by rewrite Hc.
Qed.

Lemma token_at_quotation_mark :
  token_at quotation_mark = (ident ← take_quoted_identifier; mret (Token.Word ident)).
Proof.
  change (token_at quotation_mark) with
    (if is_identifier_start quotation_mark then (ident ← take_identifier; mret (Token.Word ident))
     else (ident ← take_quoted_identifier; mret (Token.Word ident))).
  rewrite identifier_start_ascii; [done|]. vm_compute; split; congruence.
Qed.

(** A printable token in front of a space is read back. *)
Lemma token_at_text t rest :
  printable t ->
  text_of t <> [] /\ runs (default (fail "") (token_at <$> head (text_of t))) (text_of t) (space :: rest) t.
Proof.
  destruct t as [[v q k]|s|s| |cm| | | | | | | | | | | | | | | | | | | | | | | | | | | | | | | | | | | |];
    cbn [printable]; try done; intros Hp.
  { destruct Hp as [[Hw Hid]|[Hw Hq]]; simpl in *; unfold Word_new in Hw; injection Hw as -> ->.
    - destruct v as [|c v]; [done|]. simpl in Hid. apply andb_true_iff in Hid as [Hc Hv].
      split; [done|]. simpl. rewrite (token_at_identifier c Hc).
      apply runs_fmap with (Word_new (c :: v) None); [|apply runs_ret].
      apply runs_fmap with (c :: v); [apply runs_take_while|apply runs_ret].
      + apply andb_true_iff. split; [by apply identifier_start_part|done].
      + apply identifier_part_space.
    - split; [done|]. cbn [default fmap option_fmap option_map head].
      rewrite token_at_quotation_mark.
      apply runs_fmap with (Word_new v (Some quotation_mark)); [|apply runs_ret].
      apply (runs_bind _ _ [quotation_mark] (v ++ [quotation_mark]) _ (Some quotation_mark)); [apply runs_next|].
      apply runs_fmap with v; [by apply runs_take_quoted_string|apply runs_ret]. }
  { split; [done|]. change ([apostrophe] ++ s ++ [apostrophe]) with (apostrophe :: s ++ [apostrophe]).
    apply (runs_bind _ _ [apostrophe] (s ++ [apostrophe]) _ (Some apostrophe)); [apply runs_next|].
    apply runs_fmap with s; [by apply runs_take_quoted_string|apply runs_ret]. }
  { destruct Hp as (Hne & Hdot & Hs). split; [done|]. destruct s as [|c s]; [done|].
    cbn [text_of default fmap option_fmap option_map head].
    rewrite token_at_number.
    - apply runs_fmap with (c :: s); [by apply runs_take_while_st, span_number_space|].
      rewrite bool_decide_false by done. apply runs_ret.
    - simpl in Hs. unfold number_char in Hs at 1.
      destruct (is_ascii_digit c); [done|]. by destruct (c =? ch "."). }
  all: split; [done|].
  all: try exact (runs_take _ _ _).
  all: try (refine (runs_take_followed _ _ _ _ _ _ _ _ _); reflexivity).
  all: try (refine (runs_take_one _ _ _ _ _); reflexivity).
  - by refine (runs_minus _ _).
  - refine (runs_fmap _ _ _ _ [ch "."] _ _ _); [by apply runs_take_while_st|]. apply runs_ret.
Qed.
Lemma tokenize_loop_render fuel ts pre s acc :
  (length ts * 2 < fuel)%nat -> Forall printable ts -> here pre (render ts) s ->
  exists toks, (tokenize_loop fuel (str_len pre) acc s).1 = Ok (acc ++ toks)
    /\ token <$> toks = ts ≫= fun t => [t; Token.Whitespace].
Proof.
  revert fuel pre s acc. induction ts as [|t ts IH]; intros fuel pre s acc Hfuel Hts Hs.
  { destruct fuel as [|fuel]; [lia|]. exists []. by rewrite (tokenize_loop_nil _ _ _ _ _ Hs), app_nil_r. }
  apply Forall_cons in Hts as [Ht Hts]. destruct (token_at_text t (render ts) Ht) as [Hne Hrun].
  destruct fuel as [|[|fuel]]; simpl in Hfuel; [lia..|].
  change (render (t :: ts)) with ((text_of t ++ [space]) ++ render ts) in Hs. rewrite <- app_assoc in Hs.
  destruct (tokenize_loop_cons (S fuel) (str_len pre) acc _ _ _ _ _ Hne Hs Hrun) as (s1 & tl & Hs1 & Htl & _ & E1).
  assert (Hspace : runs (token_at space) [space] (render ts) Token.Whitespace) by exact (runs_take _ _ _).
  destruct (tokenize_loop_cons fuel (str_len (pre ++ text_of t)) (acc ++ [tl]) _ _ [space] _ _ ltac:(done) Hs1 Hspace)
    as (s2 & wl & Hs2 & Hwl & _ & E2).
  destruct (IH fuel _ s2 ((acc ++ [tl]) ++ [wl]) ltac:(lia) Hts Hs2) as (toks & E3 & Htoks).
  exists (tl :: wl :: toks). rewrite E1, E2, E3. split; [by rewrite <- !app_assoc|].
  rewrite !fmap_cons, Htl, Hwl, Htoks. done.
Qed.

(** The tokens of a printed text are those printed, with white space between them. *)
Lemma tokenize_printed ts :
  Forall printable ts ->
  exists toks, tokenize (render ts) = Ok toks /\ token <$> toks = ts ≫= fun t => [t; Token.Whitespace].
Proof.
  intros Hts. unfold tokenize.
  apply (tokenize_loop_render _ ts [] _ []); [|done..].
  assert (Hlen : (length ts * 2 <= length (render ts))%nat); [|lia].
  clear -Hts H0 H1. induction Hts as [|t ts Ht _ IH]; [done|].
  change (render (t :: ts)) with ((text_of t ++ [space]) ++ render ts).
  rewrite !length_app. simpl. destruct (token_at_text t [] Ht) as [Hne _].
  destruct (text_of t); [done|]. simpl. lia.
Qed.

(** C17. Printing a list of tokens and tokenizing the text gives the tokens back:
    with a white space after each, and exactly the tokens once these are left out. *)
Theorem tokenize_render ts :
  Forall printable ts ->
  exists toks, tokenize (render ts) = Ok toks
    /\ token <$> toks = (ts ≫= fun t => [t; Token.Whitespace])
    /\ filter (fun t => t <> Token.Whitespace) (token <$> toks) = ts.
Proof.
  intros Hts. destruct (tokenize_printed ts Hts) as (toks & Htok & Htoks).
  exists toks. split_and!; [done..|]. rewrite Htoks. clear Htoks Htok.
  induction Hts as [|t ts Ht _ IH]; [done|]. rewrite bind_cons. cbn [app].
  rewrite filter_cons_True by (intros ->; done). rewrite filter_cons_False by (intros Hw; by apply Hw). by rewrite IH.
Qed.

End Printing.

(** ** Examples *)

Module PrintingExample.
Export TokenizerExample.

#[export] Instance ascii_only_laws : UnicodeLaws.
Proof. by split. Qed.

Lemma tokenize_render_witness :
  let ts := [Token.Word (Word_new (lit "select") None); Token.Number (lit "1.5"); Token.DoubleColon;
             Token.Word (Word_new (lit "a b") (Some quotation_mark)); Token.SingleQuotedString (lit "x")] in
  Forall printable ts
  /\ exists toks, tokenize (render ts) = Ok toks
       /\ token <$> toks = (ts ≫= fun t => [t; Token.Whitespace])
       /\ filter (fun t => t <> Token.Whitespace) (token <$> toks) = ts.
Proof.
  assert (Hts : Forall printable [Token.Word (Word_new (lit "select") None); Token.Number (lit "1.5"); Token.DoubleColon;
             Token.Word (Word_new (lit "a b") (Some quotation_mark)); Token.SingleQuotedString (lit "x")]).
  { repeat (apply List.Forall_cons); [..|constructor].
    - left. split; [|vm_compute]; reflexivity.
    - split_and!; [discriminate..|vm_compute; reflexivity].
    - exact I.
    - right. split; [|vm_compute]; reflexivity.
    - vm_compute. reflexivity. }
  split; [exact Hts|]. apply (tokenize_render _ Hts).
Defined.

End PrintingExample.
