(* ===== verification/SqlAst.v ===== *)
(** * The syntax tree of SQL

    [glaredb_parser/src/ast] and [statement.rs]: the trees the parser builds, for
    [AstMeta = Raw].  A variant [T::V] of the source is the constructor [T_V].
    The types that contain expressions, queries or FROM nodes without being one
    are parametric in them; the four that are mutually recursive ([Expr],
    [QueryNode], [QueryNodeBody] and [FromNode]) are tied together at the end. *)
From S2P Require Import Prelude Keywords Tokenizer.
Open Scope Z_scope.

(** ** Identifiers and types *)

Record Ident := { ident_value : str; ident_quoted : bool }.

#[global] Instance ident_eq_dec : EqDecision Ident.
Proof. solve_decision. Defined.

#[global] Instance ident_countable : Countable Ident :=
  inj_countable' (fun i => (ident_value i, ident_quoted i))
    (fun p => {| ident_value := p.1; ident_quoted := p.2 |}) (fun i => match i with Build_Ident _ _ => eq_refl end).

Abbreviation ObjectReference := (list Ident) (only parsing).

Inductive DataType :=
| DataType_Varchar (n : option Z) | DataType_Binary (n : option Z)
| DataType_TinyInt | DataType_SmallInt | DataType_Integer | DataType_BigInt
| DataType_UnsignedTinyInt | DataType_UnsignedSmallInt | DataType_UnsignedInt | DataType_UnsignedBigInt
| DataType_Half | DataType_Real | DataType_Double
| DataType_Decimal (prec scale : option Z)
| DataType_Bool | DataType_Date | DataType_Timestamp | DataType_Interval.

#[global] Instance datatype_eq_dec : EqDecision DataType.
Proof. solve_decision. Defined.

(** ** Parts of expressions *)

Inductive UnaryOperator := UnaryOperator_Plus | UnaryOperator_Minus | UnaryOperator_Not | UnaryOperator_BitwiseNot.

Module BinaryOperator.
Inductive t :=
| Plus | Minus | Multiply | Divide | IntDiv | Modulo | Exponent
| StringConcat | StringStartsWith
| Gt | Lt | GtEq | LtEq | Spaceship | Eq | NotEq
| And | Or | Xor | BitwiseOr | BitwiseAnd | BitShiftLeft | BitShiftRight
| IsDistinctFrom | IsNotDistinctFrom.
End BinaryOperator.

Inductive ColumnsExpr := ColumnsExpr_Pattern (s : str).

Module IntervalUnit.
Inductive t :=
| Millenium | Century | Decade | Year | Month | Week | Day | Hour | Minute | Second
| Millisecond | Microsecond | Nanosecond.
End IntervalUnit.

Module DatePart.
Inductive t :=
| Century | Day | Decade | DayOfWeek | DayOfYear | Epoch | Hour | IsoDayOfWeek | IsoYear
| Julian | Microseconds | Millenium | Milliseconds | Minute | Month | Quarter | Second
| Timezone | TimezoneHour | TimezoneMinute | Week | Year.
End DatePart.

Inductive OrderByType := OrderByType_Asc | OrderByType_Desc.
Inductive OrderByNulls := OrderByNulls_First | OrderByNulls_Last.
Inductive WindowFrameUnit := WindowFrameUnit_Rows | WindowFrameUnit_Range | WindowFrameUnit_Groups.
Inductive WindowFrameExclusion :=
| ExcludeCurrentRow | ExcludeGroup | ExcludeTies | ExcludeNoOthers.
Inductive SetOperation := SetOperation_Union | SetOperation_Except | SetOperation_Intersect.
Inductive JoinType :=
| JoinType_Inner | JoinType_Left | JoinType_Right | JoinType_Outer
| JoinType_LeftAnti | JoinType_LeftSemi | JoinType_RightAnti | JoinType_RightSemi.

Section Exprs.
Context {E : Type}.

Inductive Literal :=
| Literal_Number (s : str)
| Literal_SingleQuotedString (s : str)
| Literal_Boolean (b : bool)
| Literal_Null
| Literal_Struct (keys : list str) (values : list E).

Inductive FunctionArg :=
| FunctionArg_Named (name : Ident) (arg : E)
| FunctionArg_Unnamed (arg : E).

Inductive ArraySubscript :=
| ArraySubscript_Index (e : E)
| ArraySubscript_Slice (lower upper stride : option E).

Record Interval := {
  interval_value : E;
  interval_leading : option IntervalUnit.t;
  interval_trailing : option IntervalUnit.t
}.

Record OrderByNode := {
  order_by_typ : option OrderByType;
  order_by_nulls : option OrderByNulls;
  order_by_expr : E
}.

Inductive WindowFrameBound :=
| WindowFrameBound_CurrentRow
| WindowFrameBound_UnboundedPreceding
| WindowFrameBound_Preceding (e : E)
| WindowFrameBound_UnboundedFollowing
| WindowFrameBound_Following (e : E).

Record WindowFrame := {
  frame_unit : WindowFrameUnit;
  frame_start : WindowFrameBound;
  frame_end : option WindowFrameBound;
  frame_exclusion : option WindowFrameExclusion
}.

Record WindowDefinition := {
  window_existing : option Ident;
  window_partition_by : list E;
  window_order_by : list OrderByNode;
  window_frame : option WindowFrame
}.

Inductive WindowSpec :=
| WindowSpec_Named (i : Ident)
| WindowSpec_Definition (d : WindowDefinition).

Record Function := {
  function_reference : ObjectReference;
  function_distinct : bool;
  function_star : bool;
  function_args : list FunctionArg;
  function_filter : option E;
  function_over : option WindowSpec
}.

(** ** Parts of queries *)

Record LimitModifier := { limit_limit : option E; limit_offset : option E }.

Inductive DistinctModifier :=
| DistinctModifier_Distinct
| DistinctModifier_On (es : list E)
| DistinctModifier_All.

Record ReplaceColumn := { replace_col : Ident; replace_expr : E }.

Record WildcardModifier := {
  exclude_cols : list Ident;
  replace_cols : list ReplaceColumn
}.

Inductive SelectExpr :=
| SelectExpr_Expr (e : E)
| SelectExpr_AliasedExpr (e : E) (alias : Ident)
| SelectExpr_QualifiedWildcard (reference : ObjectReference) (m : WildcardModifier)
| SelectExpr_Wildcard (m : WildcardModifier).

Inductive WildcardExpr :=
| WildcardExpr_Wildcard
| WildcardExpr_QualifiedWildcard (reference : ObjectReference)
| WildcardExpr_Expr (e : E).

Inductive GroupByExpr :=
| GroupByExpr_Expr (es : list E)
| GroupByExpr_Cube (es : list E)
| GroupByExpr_Rollup (es : list E)
| GroupByExpr_GroupingSets (es : list E).

Inductive GroupByNode :=
| GroupByNode_All
| GroupByNode_Exprs (exprs : list GroupByExpr).

Record Values := { values_rows : list (list E) }.

Inductive JoinCondition :=
| JoinCondition_On (e : E)
| JoinCondition_Using (cols : list Ident)
| JoinCondition_Natural
| JoinCondition_None.
End Exprs.
Arguments Literal : clear implicits.
Arguments FunctionArg : clear implicits.
Arguments ArraySubscript : clear implicits.
Arguments Interval : clear implicits.
Arguments OrderByNode : clear implicits.
Arguments WindowFrameBound : clear implicits.
Arguments WindowFrame : clear implicits.
Arguments WindowDefinition : clear implicits.
Arguments WindowSpec : clear implicits.
Arguments Function : clear implicits.
Arguments LimitModifier : clear implicits.
Arguments DistinctModifier : clear implicits.
Arguments ReplaceColumn : clear implicits.
Arguments WildcardModifier : clear implicits.
Arguments SelectExpr : clear implicits.
Arguments WildcardExpr : clear implicits.
Arguments GroupByExpr : clear implicits.
Arguments GroupByNode : clear implicits.
Arguments Values : clear implicits.
Arguments JoinCondition : clear implicits.

Record FromAlias := { from_alias : Ident; from_columns : option (list Ident) }.

Section Nodes.
Context {E Q F : Type}.

Record CommonTableExpr := {
  cte_alias : Ident;
  cte_column_aliases : option (list Ident);
  cte_materialized : bool;
  cte_body : Q
}.

Record CommonTableExprs := { ctes_recursive : bool; ctes_ctes : list CommonTableExpr }.

Record FromJoin := {
  join_left : F;
  join_right : F;
  join_type : JoinType;
  join_condition : JoinCondition E
}.

Inductive FromNodeBody :=
| FromNodeBody_BaseTable (reference : ObjectReference)
| FromNodeBody_File (path : str)
| FromNodeBody_Subquery (lateral : bool) (query : Q)
| FromNodeBody_TableFunction (lateral : bool) (reference : ObjectReference) (args : list (FunctionArg E))
| FromNodeBody_Join (j : FromJoin).

Record SelectNode := {
  select_distinct : option (DistinctModifier E);
  select_projections : list (SelectExpr E);
  select_from : option F;
  select_where : option E;
  select_group_by : option (GroupByNode E);
  select_having : option E
}.

Inductive Describe :=
| Describe_Query (query : Q)
| Describe_FromNode (from : F).
End Nodes.
Arguments CommonTableExpr : clear implicits.
Arguments CommonTableExprs : clear implicits.
Arguments FromJoin : clear implicits.
Arguments FromNodeBody : clear implicits.
Arguments SelectNode : clear implicits.
Arguments Describe : clear implicits.

(** ** Expressions and queries *)

Inductive Expr :=
| Expr_Ident (i : Ident)
| Expr_CompoundIdent (idents : list Ident)
| Expr_QualifiedWildcard (idents : list Ident)
| Expr_Literal (l : Literal Expr)
| Expr_Array (es : list Expr)
| Expr_Columns (c : ColumnsExpr)
| Expr_ArraySubscript (expr : Expr) (subscript : ArraySubscript Expr)
| Expr_UnaryExpr (op : UnaryOperator) (expr : Expr)
| Expr_BinaryExpr (left : Expr) (op : BinaryOperator.t) (right : Expr)
| Expr_Function (f : Function Expr)
| Expr_Subquery (q : QueryNode)
| Expr_Nested (e : Expr)
| Expr_Tuple (es : list Expr)
| Expr_Collate (expr : Expr) (collation : ObjectReference)
| Expr_Exists (subquery : QueryNode) (not_exists : bool)
| Expr_AnySubquery (left : Expr) (op : BinaryOperator.t) (right : QueryNode)
| Expr_AllSubquery (left : Expr) (op : BinaryOperator.t) (right : QueryNode)
| Expr_InSubquery (negated : bool) (expr : Expr) (subquery : QueryNode)
| Expr_InList (negated : bool) (expr : Expr) (es : list Expr)
| Expr_TypedString (datatype : DataType) (value : str)
| Expr_Cast (datatype : DataType) (expr : Expr)
| Expr_Like (expr pattern : Expr) (negated case_insensitive : bool)
| Expr_IsNull (expr : Expr) (negated : bool)
| Expr_IsBool (expr : Expr) (val negated : bool)
| Expr_Interval (i : Interval Expr)
| Expr_Between (negated : bool) (expr low high : Expr)
| Expr_Case (expr : option Expr) (conditions results : list Expr) (else_expr : option Expr)
| Expr_Substring (expr from : Expr) (count : option Expr)
| Expr_Position (substring string : Expr)
| Expr_Extract (date_part : DatePart.t) (expr : Expr)
with QueryNode :=
| Query (ctes : option (CommonTableExprs QueryNode)) (body : QueryNodeBody)
    (order_by : option (list (OrderByNode Expr))) (limit : LimitModifier Expr)
with QueryNodeBody :=
| QueryNodeBody_Select (s : SelectNode Expr FromNode)
| QueryNodeBody_Nested (q : QueryNode)
| QueryNodeBody_Set (left right : QueryNodeBody) (operation : SetOperation) (all : bool)
| QueryNodeBody_Values (v : Values Expr)
| QueryNodeBody_Describe (d : Describe QueryNode FromNode)
with FromNode :=
| From (alias : option FromAlias) (body : FromNodeBody Expr QueryNode FromNode).

(** ** Statements *)

Inductive AttachType := AttachType_Database | AttachType_Table.

Record Attach := {
  attach_datasource_name : Ident;
  attach_attach_type : AttachType;
  attach_alias : ObjectReference;
  attach_options : gmap Ident Expr
}.

Record Detach := { detach_attach_type : AttachType; detach_alias : ObjectReference }.

Inductive CopyToSource :=
| CopyToSource_Query (q : QueryNode)
| CopyToSource_Table (reference : ObjectReference).

Inductive CopyToTarget := CopyToTarget_File (s : str).

Record CopyOption := { copy_key : Ident; copy_val : Expr }.

Record CopyTo := { copy_source : CopyToSource; copy_target : CopyToTarget; copy_options : list CopyOption }.

Record CreateSchema := { schema_if_not_exists : bool; schema_name : ObjectReference }.

Inductive ColumnOption := ColumnOption_Null | ColumnOption_NotNull.

Record ColumnDef := { column_name : Ident; column_datatype : DataType; column_opts : list ColumnOption }.

Record CreateTable := {
  table_or_replace : bool;
  table_if_not_exists : bool;
  table_temp : bool;
  table_external : bool;
  table_name : ObjectReference;
  table_columns : list ColumnDef;
  table_source : option QueryNode
}.

Record CreateView := {
  view_or_replace : bool;
  view_temp : bool;
  view_name : ObjectReference;
  view_column_aliases : option (list Ident);
  view_query_sql : str;
  view_query : QueryNode
}.

Inductive DiscardType := DiscardType_All | DiscardType_Plans | DiscardType_Temp | DiscardType_Metadata.

Inductive DropType := DropType_Index | DropType_Function | DropType_Table | DropType_View | DropType_Schema.
Inductive DropDependents := DropDependents_Restrict | DropDependents_Cascade.

Record DropStatement := {
  drop_type : DropType;
  drop_if_exists : bool;
  drop_name : ObjectReference;
  drop_deps : option DropDependents
}.

Inductive ExplainOutput := ExplainOutput_Text | ExplainOutput_Json.

Record ExplainNode := {
  explain_analyze : bool;
  explain_verbose : bool;
  explain_body : QueryNode;
  explain_output : option ExplainOutput
}.

Record Insert := { insert_table : ObjectReference; insert_columns : list Ident; insert_source : QueryNode }.

Inductive ShowReference :=
| ShowReference_Variable (reference : ObjectReference)
| ShowReference_Databases
| ShowReference_Schemas
| ShowReference_Tables.

Record SetVariable := { set_reference : ObjectReference; set_value : Expr }.

Inductive VariableOrAll := VariableOrAll_Variable (reference : ObjectReference) | VariableOrAll_All.

Inductive Statement :=
| Statement_Attach (a : Attach)
| Statement_Detach (d : Detach)
| Statement_Explain (e : ExplainNode)
| Statement_CopyTo (c : CopyTo)
| Statement_Query (q : QueryNode)
| Statement_CreateTable (c : CreateTable)
| Statement_CreateSchema (c : CreateSchema)
| Statement_CreateView (c : CreateView)
| Statement_Drop (d : DropStatement)
| Statement_Insert (i : Insert)
| Statement_SetVariable (s : SetVariable)
| Statement_Show (reference : ShowReference)
| Statement_ResetVariable (var : VariableOrAll)
| Statement_Discard (discard_type : DiscardType).
