(* ===== verification/SqlParser.v ===== *)
(** * The parser's state and primitives

    [glaredb_parser/src/parser.rs] without the statements: the position in the
    list of tokens, looking ahead, and the combinators the parsers of the syntax
    tree are built from.  The parser of [Ident] and [ObjectReference]
    ([ast/mod.rs]), of data types ([ast/datatype.rs]) and of literals
    ([ast/expr.rs]) are here too, as they do not recurse.

    Error messages are kept without the tokens they print. *)
From Stdlib Require Import Ascii.
From S2P Require Import Prelude Keywords Tokenizer SqlAst.
Open Scope Z_scope.

Record Parser := {
  toks : list TokenWithLocation;
  sql : str;
  pos : nat
}.

(** [Parser::with_tokens] *)
Definition with_tokens (toks : list TokenWithLocation) (sql : str) : Parser :=
  {| toks := toks; sql := sql; pos := 0 |}.

(** [self.idx = idx] *)
Definition set_pos (i : nat) (p : Parser) : Parser := {| toks := toks p; sql := sql p; pos := i |}.

Abbreviation P := (M Parser).

Definition panic {A} (why : string) : P A := lift (Panic why).

(** White space and comments, which [next] and [peek] skip. *)
Definition is_trivia (t : Token.t) : bool :=
  match t with
  | Token.Whitespace | Token.Comment _ => true
  | _ => false
  end.

(** The loop of [next], over the tokens from [i] on. *)
Fixpoint next_from (i : nat) (l : list TokenWithLocation) : option TokenWithLocation * nat :=
  match l with
  | [] => (None, i)
  | t :: l' => if is_trivia (token t) then next_from (S i) l' else (Some t, S i)
  end.

Definition next : P (option TokenWithLocation) := fun p =>
  let '(t, i) := next_from (pos p) (drop (pos p) (toks p)) in (Ok t, set_pos i p).

(** The loop of [peek_nth]. *)
Fixpoint peek_nth_from (n : nat) (l : list TokenWithLocation) : option TokenWithLocation :=
  match l with
  | [] => None
  | t :: l' =>
    if is_trivia (token t) then peek_nth_from n l'
    else match n with O => Some t | S n' => peek_nth_from n' l' end
  end.

Definition peek_nth (n : nat) : P (option TokenWithLocation) := fun p =>
  (Ok (peek_nth_from n (drop (pos p) (toks p))), p).

Definition peek : P (option TokenWithLocation) := peek_nth 0.

(** [peek_keyword] *)
Definition peek_keyword : P (option Keyword.t) :=
  t ← peek; mret (t ≫= keyword).

(** [self.peek().map(|t| &t.token)] *)
Definition peek_token : P (option Token.t) :=
  t ← peek; mret (token <$> t).

(** [let idx = self.idx; ...; self.idx = idx] around a test. *)
Definition get_pos : P nat := fun p => (Ok (pos p), p).
Definition reset_pos (i : nat) : P unit := fun p => (Ok tt, set_pos i p).

Definition parse_keyword (kw : Keyword.t) : P bool :=
  idx ← get_pos;
  t ← next;
  match t with
  | Some t => if is_keyword t kw then mret true else (_ ← reset_pos idx; mret false)
  | None => _ ← reset_pos idx; mret false
  end.

(** The loop of [parse_keyword_sequence]; [idx] is where it started. *)
Fixpoint parse_keyword_sequence_loop (idx : nat) (kws : list Keyword.t) : P bool :=
  match kws with
  | [] => mret true
  | kw :: kws' =>
    t ← next;
    match t with
    | Some t =>
      if is_keyword t kw then parse_keyword_sequence_loop idx kws' else (_ ← reset_pos idx; mret false)
    | None => _ ← reset_pos idx; mret false
    end
  end.

Definition parse_keyword_sequence (kws : list Keyword.t) : P bool :=
  idx ← get_pos; parse_keyword_sequence_loop idx kws.

(** [parse_one_of_keywords]; at the end of the tokens it returns early and does
    not reset the position. *)
Definition parse_one_of_keywords (kws : list Keyword.t) : P (option Keyword.t) :=
  idx ← get_pos;
  t ← next;
  match t with
  | None => mret None
  | Some t =>
    match list_find (fun kw => keyword t = Some kw) kws with
    | Some (_, kw) => mret (Some kw)
    | None => _ ← reset_pos idx; mret None
    end
  end.

Definition consume_token (expected : Token.t) : P bool :=
  t ← peek;
  match t with
  | None => mret false
  | Some t => if bool_decide (token t = expected) then (_ ← next; mret true) else mret false
  end.

Definition expect_token (expected : Token.t) : P unit :=
  b ← consume_token expected;
  if b : bool then mret tt else fail "Expected token".

Fixpoint expect_one_of_tokens (expected : list Token.t) : P unit :=
  match expected with
  | [] => fail "Expected one of"
  | t :: expected' =>
    b ← consume_token t;
    if b : bool then mret tt else expect_one_of_tokens expected'
  end.

Definition expect_keyword (expected : Keyword.t) : P unit :=
  b ← parse_keyword expected;
  if b : bool then mret tt else fail "Expected keyword".

Definition next_keyword : P Keyword.t :=
  t ← peek_token;
  match t with
  | None => fail "Expected keyword, got end of statement"
  | Some (Token.Word w) =>
    match word_keyword w with
    | Some k => _ ← next; mret k
    | None => fail "Expected a keyword"
    end
  | Some _ => fail "Expected a keyword"
  end.

(** [maybe_parse]: an error resets the position. *)
Definition maybe_parse {A} (f : P A) : P (option A) := fun p =>
  match f p with
  | (Ok v, p') => (Ok (Some v), p')
  | (Err _, p') => (Ok None, set_pos (pos p) p')
  | (Panic w, p') => (Panic w, p')
  end.

(** [impl From<Word> for Ident] *)
Definition Ident_from (w : Word) : Ident :=
  {| ident_value := word_value w; ident_quoted := bool_decide (word_quote w = Some quotation_mark) |}.

Definition parse_alias (reserved : list Keyword.t) : P (option Ident) :=
  has_as ← parse_keyword Keyword.AS;
  t ← peek_token;
  match t with
  | None => mret None
  | Some t =>
    let accept i := _ ← next; mret (Some i) : P (option Ident) in
    match t with
    | Token.Word w =>
      if has_as : bool then accept (Ident_from w)
      else match word_keyword w with
           | Some kw => if bool_decide (kw ∈ reserved) then mret None else accept (Ident_from w)
           | None => accept (Ident_from w)
           end
    | Token.SingleQuotedString s => accept {| ident_value := s; ident_quoted := false |}
    | _ => if has_as : bool then fail "Expected an identifier after AS" else mret None
    end
  end.

(** Whether a list ends after a trailing comma. *)
Definition ends_list (t : Token.t) : bool :=
  match t with
  | Token.RightParen | Token.SemiColon | Token.RightBrace | Token.RightBracket => true
  | Token.Word w =>
    match word_keyword w with
    | Some kw => bool_decide (kw ∈ RESERVED_FOR_COLUMN_ALIAS)
    | None => false
    end
  | _ => false
  end.

(** The loop of [parse_comma_separated]; every turn but the last takes a comma. *)
Fixpoint comma_separated_loop {A} (fuel : nat) (f : P A) (values : list A) : P (list A) :=
  match fuel with
  | O => panic "out of fuel"
  | S fuel' =>
    v ← f;
    comma ← consume_token Token.Comma;
    if comma : bool then
      t ← peek_token;
      match t with
      | None => mret (values ++ [v])
      | Some t => if ends_list t then mret (values ++ [v]) else comma_separated_loop fuel' f (values ++ [v])
      end
    else mret (values ++ [v])
  end.

(** Loops that take a token per turn run at most this often. *)
Definition loop_fuel : P nat := fun p => (Ok (S (length (toks p))), p).

Definition parse_comma_separated {A} (f : P A) : P (list A) :=
  n ← loop_fuel; comma_separated_loop n f [].

Definition parse_parenthesized_comma_separated {A} (f : P A) : P (list A) :=
  _ ← expect_token Token.LeftParen;
  empty ← consume_token Token.RightParen;
  if empty : bool then mret []
  else
    vals ← parse_comma_separated f;
    _ ← expect_token Token.RightParen;
    mret vals.

(** [sql_slice_starting_at]: [str::get] has no value where slicing panics. *)
Definition sql_slice_starting_at (start : TokenWithLocation) : P str :=
  stop ← peek;
  p ← get;
  match (match stop with
         | Some stop => slice (sql p) (start_idx start) (start_idx stop)
         | None => slice_from (sql p) (start_idx start)
         end) with
  | Ok s => mret s
  | _ => fail "Unable to get string slice for original sql string"
  end.

(** ** Identifiers, literals and types *)

Definition Ident_parse : P Ident :=
  t ← next;
  match token <$> t with
  | None => fail "Expected identifier, found end of statement"
  | Some (Token.Word w) => mret (Ident_from w)
  | Some _ => fail "Unexpected token. Expected an identifier."
  end.

(** The [while let] of [ObjectReference::parse]. *)
Fixpoint object_reference_loop (fuel : nat) (idents : list Ident) : P ObjectReference :=
  match fuel with
  | O => panic "out of fuel"
  | S fuel' =>
    t ← next;
    match token <$> t with
    | None => mret idents
    | Some (Token.Word w) =>
      period ← consume_token Token.Period;
      if period : bool then object_reference_loop fuel' (idents ++ [Ident_from w])
      else mret (idents ++ [Ident_from w])
    | Some _ => fail "Unexpected token. Expected an object reference."
    end
  end.

Definition ObjectReference_parse : P ObjectReference :=
  n ← loop_fuel; object_reference_loop n [].

Definition parse_string_literal : P str :=
  t ← next;
  match token <$> t with
  | None => fail "Unexpected end of statement"
  | Some (Token.SingleQuotedString s) => mret s
  | Some _ => fail "Expected string literal"
  end.

Definition i64_min : Z := -2 ^ 63.
Definition i64_max : Z := 2 ^ 63 - 1.

(** The digits of an integer, most significant first. *)
Fixpoint digits (acc : Z) (s : str) : option Z :=
  match s with
  | [] => Some acc
  | c :: s' => if is_ascii_digit c then digits (10 * acc + (c - 48)) s' else None
  end.

(** [str::parse::<i64>]: an optional sign and at least one digit, in range. *)
Definition parse_i64 (s : str) : option Z :=
  let parsed := match s with
    | [] => None
    | c :: s' =>
      if c =? ch "+" then match s' with [] => None | _ => digits 0 s' end
      else if c =? ch "-" then match s' with [] => None | _ => Z.opp <$> digits 0 s' end
      else digits 0 s
    end in
  v ← parsed; if (i64_min <=? v) && (v <=? i64_max) then Some v else None.

(** [i64::neg], which overflows on the smallest value. *)
Definition neg_i64 (v : Z) : res Z :=
  if v =? i64_min then Panic "attempt to negate with overflow" else Ok (- v).

Definition parse_i64_literal : P Z :=
  t ← next;
  match token <$> t with
  | None => fail "Unexpected end of statement"
  | Some Token.Minus =>
    t' ← next;
    match token <$> t' with
    | None => fail "Unexpected end of statement"
    | Some (Token.Number s) =>
      match parse_i64 s with
      | Some v => lift (neg_i64 v)
      | None => fail "Unable to parse as an integer"
      end
    | Some _ => fail "Expected integer literal"
    end
  | Some (Token.Number s) =>
    match parse_i64 s with
    | Some v => mret v
    | None => fail "Unable to parse as an integer"
    end
  | Some _ => fail "Expected integer literal"
  end.

(** [DataType::parse_precision_scale] *)
Definition parse_precision_scale : P (option Z * option Z) :=
  paren ← consume_token Token.LeftParen;
  if paren : bool then
    prec ← parse_i64_literal;
    comma ← consume_token Token.Comma;
    scale ← (if comma : bool then (v ← parse_i64_literal; mret (Some v)) else mret None);
    _ ← expect_token Token.RightParen;
    mret (Some prec, scale)
  else mret (None, None).

Definition DataType_parse : P DataType :=
  t ← next;
  match t with
  | None => fail "Unexpected end of query"
  | Some t =>
    match keyword t with
    | None => fail "Expected keyword"
    | Some kw =>
      match kw with
      | Keyword.VARCHAR | Keyword.TEXT | Keyword.STRING => mret (DataType_Varchar None)
      | Keyword.BINARY | Keyword.BLOB => mret (DataType_Binary None)
      | Keyword.TINYINT | Keyword.INT1 => mret DataType_TinyInt
      | Keyword.SMALLINT | Keyword.INT2 => mret DataType_SmallInt
      | Keyword.INT | Keyword.INTEGER | Keyword.INT4 => mret DataType_Integer
      | Keyword.BIGINT | Keyword.INT8 => mret DataType_BigInt
      | Keyword.UTINYINT | Keyword.UINT1 => mret DataType_UnsignedTinyInt
      | Keyword.USMALLINT | Keyword.UINT2 => mret DataType_UnsignedSmallInt
      | Keyword.UINT | Keyword.UINT4 => mret DataType_UnsignedInt
      | Keyword.UBIGINT | Keyword.UINT8 => mret DataType_UnsignedBigInt
      | Keyword.HALF | Keyword.FLOAT2 => mret DataType_Half
      | Keyword.REAL | Keyword.FLOAT | Keyword.FLOAT4 => mret DataType_Real
      | Keyword.DOUBLE | Keyword.FLOAT8 => mret DataType_Double
      | Keyword.DECIMAL | Keyword.NUMERIC =>
        ps ← parse_precision_scale; mret (DataType_Decimal ps.1 ps.2)
      | Keyword.BOOL | Keyword.BOOLEAN => mret DataType_Bool
      | Keyword.DATE => mret DataType_Date
      | Keyword.TIMESTAMP => mret DataType_Timestamp
      | Keyword.INTERVAL => mret DataType_Interval
      | _ => fail "Unexpected keyword for data type"
      end
    end
  end.
