(* ===== verification/ExprParser.v ===== *)
(** * The expression parser

    [glaredb_parser/src/ast/expr.rs], [window.rs] and [modifiers.rs]: expressions
    by precedence climbing, window definitions, ORDER BY and LIMIT.

    The parsers of expressions and queries are recursive through four of them,
    the fields of [Parsers]; the others are written for any four. *)
From Stdlib Require Import Ascii.
From S2P Require Import Prelude Keywords Tokenizer SqlAst SqlParser.
Open Scope Z_scope.

Class Parsers := {
  Expr_parse_subexpr : Z -> P Expr;
  QueryNode_parse : P QueryNode;
  QueryNodeBody_parse_inner : Z -> P QueryNodeBody;
  FromNode_parse : P FromNode
}.

(** ** Precedences *)

Definition PREC_OR : Z := 10.
Definition PREC_AND : Z := 20.
Definition PREC_NOT : Z := 30.
Definition PREC_IS : Z := 40.
Definition PREC_COMPARISON : Z := 50.
Definition PREC_CONTAINMENT : Z := 60.
Definition PREC_EVERYTHING_ELSE : Z := 70.
Definition PREC_ADD_SUB : Z := 80.
Definition PREC_MUL_DIV_MOD : Z := 90.
Definition PREC_EXPONENTIATION : Z := 100.
Definition PREC_UNARY_MINUS : Z := 105.
Definition PREC_ARRAY_ELEM : Z := 130.
Definition PREC_CAST : Z := 140.

(** The precedence of the infix operator that starts with [t], where [next_kw] is
    the keyword after it. *)
Definition infix_precedence (t : Token.t) (next_kw : option Keyword.t) : Z :=
  match t with
  | Token.Word w =>
    match word_keyword w with
    | Some Keyword.OR => PREC_OR
    | Some Keyword.AND => PREC_AND
    | Some Keyword.NOT =>
      match next_kw with
      | Some (Keyword.IN | Keyword.BETWEEN | Keyword.LIKE | Keyword.ILIKE
             | Keyword.RLIKE | Keyword.REGEXP | Keyword.SIMILAR) => PREC_CONTAINMENT
      | _ => 0
      end
    | Some Keyword.IS => match next_kw with Some _ => PREC_IS | None => 0 end
    | Some (Keyword.IN | Keyword.BETWEEN | Keyword.LIKE | Keyword.ILIKE
           | Keyword.RLIKE | Keyword.REGEXP | Keyword.SIMILAR) => PREC_CONTAINMENT
    | Some Keyword.XOR => PREC_EVERYTHING_ELSE
    | _ => 0
    end
  | Token.Eq | Token.DoubleEq | Token.Neq | Token.Lt | Token.LtEq | Token.Gt | Token.GtEq => PREC_COMPARISON
  | Token.Plus | Token.Minus => PREC_ADD_SUB
  | Token.Mul | Token.Div | Token.IntDiv | Token.Mod => PREC_MUL_DIV_MOD
  | Token.Caret | Token.Exponent => PREC_EXPONENTIATION
  | Token.BitShiftLeft | Token.BitShiftRight | Token.Pipe | Token.Ampersand | Token.Hash => PREC_EVERYTHING_ELSE
  | Token.DoubleColon => PREC_CAST
  | Token.Concat | Token.CaretAt => PREC_EVERYTHING_ELSE
  | Token.LeftBrace | Token.LeftBracket => PREC_ARRAY_ELEM
  | _ => 0
  end.

Definition get_infix_precedence : P Z :=
  t ← peek_token;
  match t with
  | None => mret 0
  | Some t =>
    t1 ← peek_nth 1;
    mret (infix_precedence t (t1 ≫= keyword))
  end.

(** ** Small parsers *)

Definition IntervalUnit_parse : P IntervalUnit.t :=
  kw ← next_keyword;
  match kw with
  | Keyword.MILLENIUM | Keyword.MILLENIUMS => mret IntervalUnit.Millenium
  | Keyword.CENTURY | Keyword.CENTURIES => mret IntervalUnit.Century
  | Keyword.DECADE | Keyword.DECADES => mret IntervalUnit.Decade
  | Keyword.YEAR | Keyword.YEARS => mret IntervalUnit.Year
  | Keyword.MONTH | Keyword.MONTHS => mret IntervalUnit.Month
  | Keyword.WEEK | Keyword.WEEKS => mret IntervalUnit.Week
  | Keyword.DAY | Keyword.DAYS => mret IntervalUnit.Day
  | Keyword.HOUR | Keyword.HOURS => mret IntervalUnit.Hour
  | Keyword.MINUTE | Keyword.MINUTES => mret IntervalUnit.Minute
  | Keyword.SECOND | Keyword.SECONDS => mret IntervalUnit.Second
  | Keyword.MILLISECOND | Keyword.MILLISECONDS => mret IntervalUnit.Millisecond
  | Keyword.MICROSECOND | Keyword.MICROSECONDS => mret IntervalUnit.Microsecond
  | Keyword.NANOSECOND | Keyword.NANOSECONDS => mret IntervalUnit.Nanosecond
  | _ => fail "Expected interval unit"
  end.

(** [DatePart::try_from_kw] *)
Definition DatePart_try_from_kw (kw : Keyword.t) : res DatePart.t :=
  match kw with
  | Keyword.CENTURY => Ok DatePart.Century
  | Keyword.DAY => Ok DatePart.Day
  | Keyword.DECADE => Ok DatePart.Decade
  | Keyword.DOW => Ok DatePart.DayOfWeek
  | Keyword.DOY => Ok DatePart.DayOfYear
  | Keyword.EPOCH => Ok DatePart.Epoch
  | Keyword.HOUR => Ok DatePart.Hour
  | Keyword.ISODOW => Ok DatePart.IsoDayOfWeek
  | Keyword.ISOYEAR => Ok DatePart.IsoYear
  | Keyword.JULIAN => Ok DatePart.Julian
  | Keyword.MICROSECONDS => Ok DatePart.Microseconds
  | Keyword.MILLENIUM => Ok DatePart.Millenium
  | Keyword.MILLISECONDS => Ok DatePart.Milliseconds
  | Keyword.MINUTE => Ok DatePart.Minute
  | Keyword.MONTH => Ok DatePart.Month
  | Keyword.QUARTER => Ok DatePart.Quarter
  | Keyword.SECOND => Ok DatePart.Second
  | Keyword.TIMEZONE => Ok DatePart.Timezone
  | Keyword.TIMEZONE_HOUR => Ok DatePart.TimezoneHour
  | Keyword.TIMEZONE_MINUTE => Ok DatePart.TimezoneMinute
  | Keyword.WEEK => Ok DatePart.Week
  | Keyword.YEAR => Ok DatePart.Year
  | _ => Err "Unexepcted date part"
  end.

(** [DatePart::into_kw] *)
Definition DatePart_into_kw (d : DatePart.t) : Keyword.t :=
  match d with
  | DatePart.Century => Keyword.CENTURY
  | DatePart.Day => Keyword.DAY
  | DatePart.Decade => Keyword.DECADE
  | DatePart.DayOfWeek => Keyword.DOW
  | DatePart.DayOfYear => Keyword.DOY
  | DatePart.Epoch => Keyword.EPOCH
  | DatePart.Hour => Keyword.HOUR
  | DatePart.IsoDayOfWeek => Keyword.ISODOW
  | DatePart.IsoYear => Keyword.ISOYEAR
  | DatePart.Julian => Keyword.JULIAN
  | DatePart.Microseconds => Keyword.MICROSECONDS
  | DatePart.Millenium => Keyword.MILLENIUM
  | DatePart.Milliseconds => Keyword.MILLISECONDS
  | DatePart.Minute => Keyword.MINUTE
  | DatePart.Month => Keyword.MONTH
  | DatePart.Quarter => Keyword.QUARTER
  | DatePart.Second => Keyword.SECOND
  | DatePart.Timezone => Keyword.TIMEZONE
  | DatePart.TimezoneHour => Keyword.TIMEZONE_HOUR
  | DatePart.TimezoneMinute => Keyword.TIMEZONE_MINUTE
  | DatePart.Week => Keyword.WEEK
  | DatePart.Year => Keyword.YEAR
  end.

(** The keyword of a date part names it. *)
Lemma DatePart_try_from_into_kw d : DatePart_try_from_kw (DatePart_into_kw d) = Ok d.
Proof. by destruct d. Qed.

Definition DatePart_parse `{AsciiOrder} : P DatePart.t :=
  t ← peek_token;
  match t with
  | None => fail "Expected keyword or string, got end of statement"
  | Some (Token.Word w) =>
    match word_keyword w with
    | None => fail "Expected a keyword"
    | Some kw => _ ← next; lift (DatePart_try_from_kw kw)
    end
  | Some (Token.SingleQuotedString s) =>
    match keyword_from_str s with
    | None => fail "Unexpected date part"
    | Some kw => _ ← next; lift (DatePart_try_from_kw kw)
    end
  | Some _ => fail "Expected a keyword"
  end.

Definition WindowFrameUnit_parse : P WindowFrameUnit :=
  kw ← parse_one_of_keywords [Keyword.ROWS; Keyword.RANGE; Keyword.GROUPS];
  match kw with
  | Some Keyword.ROWS => mret WindowFrameUnit_Rows
  | Some Keyword.RANGE => mret WindowFrameUnit_Range
  | Some Keyword.GROUPS => mret WindowFrameUnit_Groups
  | _ => fail "Expected ROWS, RANGE, or GROUPS for window frame unit"
  end.

(** [if parser.parse_keyword_sequence(kws) { then } else { otherwise }] *)
Definition if_keywords {A} (kws : list Keyword.t) (yes no : P A) : P A :=
  b ← parse_keyword_sequence kws; if b : bool then yes else no.

(** [if parser.parse_keyword(kw) { then } else { otherwise }] *)
Definition if_keyword {A} (kw : Keyword.t) (yes no : P A) : P A :=
  b ← parse_keyword kw; if b : bool then yes else no.

(** [if parser.consume_token(&t) { then } else { otherwise }] *)
Definition if_token {A} (t : Token.t) (yes no : P A) : P A :=
  b ← consume_token t; if b : bool then yes else no.

(** [Some(m?)] *)
Definition some {A} (m : P A) : P (option A) := a ← m; mret (Some a).

Definition WindowFrameExclusion_parse : P WindowFrameExclusion :=
  if_keywords [Keyword.EXCLUDE; Keyword.CURRENT; Keyword.ROW] (mret ExcludeCurrentRow)
  (if_keywords [Keyword.EXCLUDE; Keyword.GROUP] (mret ExcludeGroup)
  (if_keywords [Keyword.EXCLUDE; Keyword.TIES] (mret ExcludeTies)
  (if_keywords [Keyword.EXCLUDE; Keyword.NO; Keyword.OTHERS] (mret ExcludeNoOthers)
  (fail "Expected EXLUDE CURRENT ROW, EXCLUDE GROUP, EXCLUDE TIES, EXCLUDE NO OTHERS for window frame exclusion")))).

(** [QueryNode::is_query_node_start], which resets the position. *)
Definition is_query_node_start : P bool := fun p =>
  match next_keyword p with
  | (Ok (Keyword.SELECT | Keyword.WITH | Keyword.VALUES), p') => (Ok true, set_pos (pos p) p')
  | (Panic w, p') => (Panic w, p')
  | (_, p') => (Ok false, set_pos (pos p) p')
  end.

Section Recursive.
Context `{AsciiOrder} {K : Parsers}.

(** [Expr::parse] *)
Definition Expr_parse : P Expr := Expr_parse_subexpr 0.

(** A query in parentheses. *)
Definition parse_subquery : P QueryNode :=
  _ ← expect_token Token.LeftParen;
  q ← QueryNode_parse;
  _ ← expect_token Token.RightParen;
  mret q.

(** ** Windows and modifiers *)

Definition OrderByNode_parse : P (OrderByNode Expr) :=
  expr ← Expr_parse;
  typ ← if_keyword Keyword.ASC (mret (Some OrderByType_Asc))
        (if_keyword Keyword.DESC (mret (Some OrderByType_Desc)) (mret None));
  nulls ← if_keywords [Keyword.NULLS; Keyword.FIRST] (mret (Some OrderByNulls_First))
          (if_keywords [Keyword.NULLS; Keyword.LAST] (mret (Some OrderByNulls_Last)) (mret None));
  mret {| order_by_typ := typ; order_by_nulls := nulls; order_by_expr := expr |}.

Definition LimitModifier_parse : P (LimitModifier Expr) :=
  limit ← if_keyword Keyword.LIMIT (some Expr_parse) (mret None);
  offset ← if_keyword Keyword.OFFSET (some Expr_parse) (mret None);
  limit ← if_keyword Keyword.LIMIT (some Expr_parse) (mret limit);
  mret {| limit_limit := limit; limit_offset := offset |}.

Definition WindowFrameBound_parse : P (WindowFrameBound Expr) :=
  if_keywords [Keyword.UNBOUNDED; Keyword.PRECEDING] (mret WindowFrameBound_UnboundedPreceding)
  (if_keywords [Keyword.UNBOUNDED; Keyword.FOLLOWING] (mret WindowFrameBound_UnboundedFollowing)
  (if_keywords [Keyword.CURRENT; Keyword.ROW] (mret WindowFrameBound_CurrentRow)
  (expr ← Expr_parse;
   kw ← parse_one_of_keywords [Keyword.PRECEDING; Keyword.FOLLOWING];
   match kw with
   | Some Keyword.PRECEDING => mret (WindowFrameBound_Preceding expr)
   | Some Keyword.FOLLOWING => mret (WindowFrameBound_Following expr)
   | _ => fail "Expected <expr> PRECEDING or <expr> FOLLOWING for window frame bound"
   end))).

Definition WindowFrame_parse : P (WindowFrame Expr) :=
  unit ← WindowFrameUnit_parse;
  if_keyword Keyword.BETWEEN
    (start ← WindowFrameBound_parse;
     _ ← expect_keyword Keyword.AND;
     stop ← WindowFrameBound_parse;
     exclusion ← maybe_parse WindowFrameExclusion_parse;
     mret {| frame_unit := unit; frame_start := start; frame_end := Some stop; frame_exclusion := exclusion |})
    (start ← WindowFrameBound_parse;
     exclusion ← maybe_parse WindowFrameExclusion_parse;
     mret {| frame_unit := unit; frame_start := start; frame_end := None; frame_exclusion := exclusion |}).

(** [WindowDefinition::default] *)
Definition WindowDefinition_default : WindowDefinition Expr :=
  {| window_existing := None; window_partition_by := []; window_order_by := []; window_frame := None |}.

Definition WindowDefinition_parse : P (WindowDefinition Expr) :=
  kw ← peek_keyword;
  existing ← match kw with None => some Ident_parse | Some _ => mret None end;
  partition_by ← if_keywords [Keyword.PARTITION; Keyword.BY] (parse_comma_separated Expr_parse) (mret []);
  order_by ← if_keywords [Keyword.ORDER; Keyword.BY] (parse_comma_separated OrderByNode_parse) (mret []);
  frame ← maybe_parse WindowFrame_parse;
  mret {| window_existing := existing; window_partition_by := partition_by;
          window_order_by := order_by; window_frame := frame |}.

(** ** Expressions *)

Definition FunctionArg_parse : P (FunctionArg Expr) :=
  t ← peek_nth 1;
  if match token <$> t with Some (Token.RightArrow | Token.Eq) => true | _ => false end then
    ident ← Ident_parse;
    _ ← expect_one_of_tokens [Token.RightArrow; Token.Eq];
    expr ← Expr_parse;
    mret (FunctionArg_Named ident expr)
  else
    expr ← Expr_parse;
    mret (FunctionArg_Unnamed expr).

Definition Interval_parse : P (Interval Expr) :=
  expr ← Expr_parse_subexpr PREC_CAST;
  trailing ← maybe_parse IntervalUnit_parse;
  mret {| interval_value := expr; interval_leading := None; interval_trailing := trailing |}.

Definition ArraySubscript_parse : P (ArraySubscript Expr) :=
  lower ← if_token Token.Colon (mret None) (some Expr_parse);
  if_token Token.RightBracket
    (mret match lower with
          | Some lower => ArraySubscript_Index lower
          | None => ArraySubscript_Slice None None None
          end)
    (_ ← match lower with Some _ => expect_token Token.Colon | None => mret tt end;
     if_token Token.RightBracket
       (mret (ArraySubscript_Slice lower None None))
       (upper ← some Expr_parse;
        if_token Token.RightBracket
          (mret (ArraySubscript_Slice lower upper None))
          (_ ← expect_token Token.Colon;
           stride ← some Expr_parse;
           _ ← expect_token Token.RightBracket;
           mret (ArraySubscript_Slice lower upper stride)))).

(** The [while] over the parts of a compound identifier. *)
Fixpoint compound_ident_loop (fuel : nat) (wildcard : bool) (idents : list Ident) : P (bool * list Ident) :=
  match fuel with
  | O => panic "out of fuel"
  | S fuel' =>
    if_token Token.Period
      (t ← next;
       match token <$> t with
       | Some (Token.Word w) => compound_ident_loop fuel' wildcard (idents ++ [Ident_from w])
       | Some Token.Mul => compound_ident_loop fuel' true idents
       | Some _ => fail "Unexpected token in compound identifier"
       | None => fail "Expected identifier after '.'"
       end)
      (mret (wildcard, idents))
  end.

(** The arguments of a call, after the left parenthesis and DISTINCT, and whether
    they are a star. *)
Definition parse_function_args : P (list (FunctionArg Expr) * bool) :=
  if_token Token.RightParen (mret ([], false))
    (t ← peek_token;
     if bool_decide (t = Some Token.Mul) then
       _ ← next;
       _ ← expect_token Token.RightParen;
       mret ([], true)
     else
       args ← parse_comma_separated FunctionArg_parse;
       _ ← expect_token Token.RightParen;
       mret (args, false)).

Definition parse_filter : P (option Expr) :=
  if_keyword Keyword.FILTER
    (_ ← expect_token Token.LeftParen;
     _ ← expect_keyword Keyword.WHERE;
     filter ← Expr_parse;
     _ ← expect_token Token.RightParen;
     mret (Some filter))
    (mret None).

Definition parse_over : P (option (WindowSpec Expr)) :=
  if_keyword Keyword.OVER
    (if_token Token.LeftParen
      (if_token Token.RightParen
        (mret (Some (WindowSpec_Definition WindowDefinition_default)))
        (d ← WindowDefinition_parse;
         _ ← expect_token Token.RightParen;
         mret (Some (WindowSpec_Definition d))))
      (i ← Ident_parse; mret (Some (WindowSpec_Named i))))
    (mret None).

Definition parse_ident_expr (w : Word) : P Expr :=
  n ← loop_fuel;
  wi ← compound_ident_loop n false [Ident_from w];
  let '(wildcard, idents) := wi in
  if_token Token.LeftParen
    (distinct ← parse_keyword Keyword.DISTINCT;
     if wildcard : bool then fail "Cannot have wildcard function call"
     else
       args ← parse_function_args;
       filter ← parse_filter;
       over ← parse_over;
       mret (Expr_Function {| function_reference := idents; function_distinct := distinct;
                              function_star := args.2; function_args := args.1;
                              function_filter := filter; function_over := over |}))
    (match idents with
     | [i] => if wildcard : bool then mret (Expr_QualifiedWildcard idents) else mret (Expr_Ident i)
     | _ => if wildcard : bool then mret (Expr_QualifiedWildcard idents) else mret (Expr_CompoundIdent idents)
     end).

(** The WHEN and THEN branches of CASE. *)
Fixpoint case_loop (fuel : nat) (conditions results : list Expr) : P (list Expr * list Expr) :=
  match fuel with
  | O => panic "out of fuel"
  | S fuel' =>
    condition ← Expr_parse;
    _ ← expect_keyword Keyword.THEN;
    result ← Expr_parse;
    if_keyword Keyword.WHEN
      (case_loop fuel' (conditions ++ [condition]) (results ++ [result]))
      (mret (conditions ++ [condition], results ++ [result]))
  end.

Definition parse_case : P Expr :=
  expr ← if_keyword Keyword.WHEN (mret None)
           (expr ← Expr_parse; _ ← expect_keyword Keyword.WHEN; mret (Some expr));
  n ← loop_fuel;
  branches ← case_loop n [] [];
  else_expr ← if_keyword Keyword.ELSE (some Expr_parse) (mret None);
  _ ← expect_keyword Keyword.END;
  mret (Expr_Case expr branches.1 branches.2 else_expr).

(** [parser.consume_token(&Token::Comma) || parser.parse_keyword(kw)] *)
Definition comma_or_keyword (kw : Keyword.t) : P bool :=
  if_token Token.Comma (mret true) (parse_keyword kw).

Definition parse_substring : P Expr :=
  _ ← expect_token Token.LeftParen;
  expr ← Expr_parse;
  has_from ← comma_or_keyword Keyword.FROM;
  from ← (if has_from : bool then Expr_parse else fail "Missing FROM argument for SUBSTRING");
  has_for ← comma_or_keyword Keyword.FOR;
  count ← (if has_for : bool then some Expr_parse else mret None);
  _ ← expect_token Token.RightParen;
  mret (Expr_Substring expr from count).

Definition parse_position : P Expr :=
  _ ← expect_token Token.LeftParen;
  substring ← Expr_parse_subexpr PREC_CONTAINMENT;
  has_in ← parse_keyword Keyword.IN;
  if has_in : bool then
    string ← Expr_parse;
    _ ← expect_token Token.RightParen;
    mret (Expr_Position substring string)
  else fail "Missing IN keyword for POSITION".

Definition parse_extract : P Expr :=
  _ ← expect_token Token.LeftParen;
  date_part ← DatePart_parse;
  _ ← expect_keyword Keyword.FROM;
  expr ← Expr_parse;
  _ ← expect_token Token.RightParen;
  mret (Expr_Extract date_part expr).

Definition parse_cast : P Expr :=
  _ ← expect_token Token.LeftParen;
  expr ← Expr_parse;
  _ ← expect_keyword Keyword.AS;
  datatype ← DataType_parse;
  _ ← expect_token Token.RightParen;
  mret (Expr_Cast datatype expr).

Definition parse_columns : P Expr :=
  _ ← expect_token Token.LeftParen;
  pattern ← parse_string_literal;
  _ ← expect_token Token.RightParen;
  mret (Expr_Columns (ColumnsExpr_Pattern pattern)).

(** NOT in front of an expression. *)
Definition parse_not : P Expr :=
  kw ← peek_keyword;
  if bool_decide (kw = Some Keyword.EXISTS) then
    _ ← expect_keyword Keyword.EXISTS;
    subquery ← parse_subquery;
    mret (Expr_Exists subquery true)
  else
    expr ← Expr_parse_subexpr PREC_NOT;
    mret (Expr_UnaryExpr UnaryOperator_Not expr).

(** What follows a left parenthesis: a subquery, an expression or a tuple. *)
Definition parse_parens : P Expr :=
  is_query ← is_query_node_start;
  expr ← (if is_query : bool then (subquery ← QueryNode_parse; mret (Expr_Subquery subquery))
          else
            exprs ← parse_comma_separated Expr_parse;
            match exprs with
            | [] => fail "No expressions"
            | [e] => mret (Expr_Nested e)
            | _ => mret (Expr_Tuple exprs)
            end);
  _ ← expect_token Token.RightParen;
  mret expr.

Definition parse_array : P Expr :=
  if_token Token.RightBracket (mret (Expr_Array []))
    (es ← parse_comma_separated Expr_parse;
     _ ← expect_token Token.RightBracket;
     mret (Expr_Array es)).

(** An expression that starts with a word. *)
Definition parse_prefix_word (w : Word) : P Expr :=
  match word_keyword w with
  | Some Keyword.TRUE => mret (Expr_Literal (Literal_Boolean true))
  | Some Keyword.FALSE => mret (Expr_Literal (Literal_Boolean false))
  | Some Keyword.NULL => mret (Expr_Literal Literal_Null)
  | Some Keyword.EXISTS => subquery ← parse_subquery; mret (Expr_Exists subquery false)
  | Some Keyword.NOT => parse_not
  | Some Keyword.CAST => parse_cast
  | Some Keyword.CASE => parse_case
  | Some Keyword.POSITION => parse_position
  | Some Keyword.SUBSTRING => parse_substring
  | Some Keyword.EXTRACT => parse_extract
  | Some Keyword.COLUMNS => parse_columns
  | _ => parse_ident_expr w
  end.

Definition parse_prefix_token (t : Token.t) : P Expr :=
  match t with
  | Token.Word w => parse_prefix_word w
  | Token.LeftBracket => parse_array
  | Token.SingleQuotedString s => mret (Expr_Literal (Literal_SingleQuotedString s))
  | Token.Number s => mret (Expr_Literal (Literal_Number s))
  | Token.LeftParen => parse_parens
  | Token.Minus => e ← Expr_parse_subexpr PREC_UNARY_MINUS; mret (Expr_UnaryExpr UnaryOperator_Minus e)
  | Token.Plus => e ← Expr_parse_subexpr PREC_UNARY_MINUS; mret (Expr_UnaryExpr UnaryOperator_Plus e)
  | Token.Tilde => e ← Expr_parse_subexpr PREC_UNARY_MINUS; mret (Expr_UnaryExpr UnaryOperator_BitwiseNot e)
  | _ => fail "Unexpected token. Expected expression."
  end.

Definition parse_prefix : P Expr :=
  dt ← maybe_parse DataType_parse;
  match dt with
  | Some DataType_Interval => i ← Interval_parse; mret (Expr_Interval i)
  | Some dt => s ← parse_string_literal; mret (Expr_TypedString dt s)
  | None =>
    t ← next;
    match token <$> t with
    | None => fail "Expected prefix expression, found end of statement"
    | Some t => parse_prefix_token t
    end
  end.

(** The binary operator a token stands for in [parse_infix]. *)
Definition bin_op (t : Token.t) : option BinaryOperator.t :=
  match t with
  | Token.DoubleEq | Token.Eq => Some BinaryOperator.Eq
  | Token.Neq => Some BinaryOperator.NotEq
  | Token.Gt => Some BinaryOperator.Gt
  | Token.GtEq => Some BinaryOperator.GtEq
  | Token.Lt => Some BinaryOperator.Lt
  | Token.LtEq => Some BinaryOperator.LtEq
  | Token.Plus => Some BinaryOperator.Plus
  | Token.Minus => Some BinaryOperator.Minus
  | Token.Mul => Some BinaryOperator.Multiply
  | Token.Div => Some BinaryOperator.Divide
  | Token.IntDiv => Some BinaryOperator.IntDiv
  | Token.Mod => Some BinaryOperator.Modulo
  | Token.Caret | Token.Exponent => Some BinaryOperator.Exponent
  | Token.BitShiftLeft => Some BinaryOperator.BitShiftLeft
  | Token.BitShiftRight => Some BinaryOperator.BitShiftRight
  | Token.Hash => Some BinaryOperator.Xor
  | Token.Pipe => Some BinaryOperator.BitwiseOr
  | Token.Ampersand => Some BinaryOperator.BitwiseAnd
  | Token.Concat => Some BinaryOperator.StringConcat
  | Token.CaretAt => Some BinaryOperator.StringStartsWith
  | Token.Word w =>
    match word_keyword w with
    | Some Keyword.AND => Some BinaryOperator.And
    | Some Keyword.OR => Some BinaryOperator.Or
    | Some Keyword.XOR => Some BinaryOperator.Xor
    | _ => None
    end
  | _ => None
  end.

(** An operator and its right operand, which can be ANY or ALL of a subquery. *)
Definition parse_binary (prefix : Expr) (op : BinaryOperator.t) (prec : Z) : P Expr :=
  kw ← parse_one_of_keywords [Keyword.ALL; Keyword.ANY; Keyword.SOME];
  match kw with
  | Some kw =>
    right ← parse_subquery;
    match kw with
    | Keyword.ALL => mret (Expr_AllSubquery prefix op right)
    | Keyword.ANY | Keyword.SOME => mret (Expr_AnySubquery prefix op right)
    | _ => panic "internal error: entered unreachable code"
    end
  | None =>
    right ← Expr_parse_subexpr prec;
    mret (Expr_BinaryExpr prefix op right)
  end.

Definition parse_distinct_from (prefix : Expr) (op : BinaryOperator.t) : P Expr :=
  _ ← expect_keyword Keyword.FROM;
  right ← Expr_parse_subexpr PREC_CONTAINMENT;
  mret (Expr_BinaryExpr prefix op right).

(** What follows IS. *)
Definition parse_is (prefix : Expr) : P Expr :=
  kw ← next_keyword;
  match kw with
  | Keyword.NULL => mret (Expr_IsNull prefix false)
  | Keyword.TRUE => mret (Expr_IsBool prefix true false)
  | Keyword.FALSE => mret (Expr_IsBool prefix false false)
  | Keyword.DISTINCT => parse_distinct_from prefix BinaryOperator.IsDistinctFrom
  | Keyword.NOT =>
    kw ← next_keyword;
    match kw with
    | Keyword.NULL => mret (Expr_IsNull prefix true)
    | Keyword.TRUE => mret (Expr_IsBool prefix true true)
    | Keyword.FALSE => mret (Expr_IsBool prefix false true)
    | Keyword.DISTINCT => parse_distinct_from prefix BinaryOperator.IsNotDistinctFrom
    | _ => fail "Unexpected keyword in IS NOT expression"
    end
  | _ => fail "Unexpected keyword in IS expression"
  end.

(** What follows IN and NOT IN. *)
Definition parse_in (prefix : Expr) (negated : bool) : P Expr :=
  _ ← expect_token Token.LeftParen;
  is_query ← is_query_node_start;
  expr ← (if is_query : bool then (q ← QueryNode_parse; mret (Expr_InSubquery negated prefix q))
          else (es ← parse_comma_separated Expr_parse; mret (Expr_InList negated prefix es)));
  _ ← expect_token Token.RightParen;
  mret expr.

Definition parse_like (prefix : Expr) (negated case_insensitive : bool) : P Expr :=
  pattern ← Expr_parse_subexpr PREC_CONTAINMENT;
  mret (Expr_Like prefix pattern negated case_insensitive).

Definition parse_between (prefix : Expr) (negated : bool) : P Expr :=
  low ← Expr_parse_subexpr PREC_CONTAINMENT;
  _ ← expect_keyword Keyword.AND;
  high ← Expr_parse_subexpr PREC_CONTAINMENT;
  mret (Expr_Between negated prefix low high).

(** An infix expression whose operator is a keyword. *)
Definition parse_infix_keyword (prefix : Expr) (kw : Keyword.t) : P Expr :=
  match kw with
  | Keyword.IS => parse_is prefix
  | Keyword.NOT =>
    kw ← next_keyword;
    match kw with
    | Keyword.IN => parse_in prefix true
    | Keyword.LIKE => parse_like prefix true false
    | Keyword.ILIKE => parse_like prefix true true
    | Keyword.BETWEEN => parse_between prefix true
    | _ => fail "Unexpected keyword after NOT"
    end
  | Keyword.IN => parse_in prefix false
  | Keyword.LIKE => parse_like prefix false false
  | Keyword.ILIKE => parse_like prefix false true
  | Keyword.BETWEEN => parse_between prefix false
  | _ => fail "Unexpected keyword in infix expression"
  end.

Definition parse_infix (prefix : Expr) (prec : Z) : P Expr :=
  t ← next;
  match token <$> t with
  | None => fail "Expected infix expression, found end of statement"
  | Some t =>
    match bin_op t with
    | Some op => parse_binary prefix op prec
    | None =>
      match t with
      | Token.Word w =>
        match word_keyword w with
        | None => fail "Unexpected token in infix expression"
        | Some kw => parse_infix_keyword prefix kw
        end
      | Token.LeftBracket =>
        subscript ← ArraySubscript_parse; mret (Expr_ArraySubscript prefix subscript)
      | Token.DoubleColon => datatype ← DataType_parse; mret (Expr_Cast datatype prefix)
      | _ => fail "Unable to parse token as an expression"
      end
    end
  end.

(** The loop of [parse_subexpr]. *)
Fixpoint infix_loop (fuel : nat) (prec : Z) (expr : Expr) : P Expr :=
  match fuel with
  | O => panic "out of fuel"
  | S fuel' =>
    next_prec ← get_infix_precedence;
    if next_prec <=? prec then mret expr
    else
      expr ← parse_infix expr next_prec;
      infix_loop fuel' prec expr
  end.

(** [Expr::parse_subexpr] *)
Definition parse_subexpr (prec : Z) : P Expr :=
  expr ← parse_prefix;
  n ← loop_fuel;
  infix_loop n prec expr.

End Recursive.
