(* ===== verification/QueryParser.v ===== *)
(** * The query and statement parsers

    SELECT lists ([glaredb_parser/src/ast/select.rs]), FROM clauses and joins
    ([from.rs]), common table expressions ([cte.rs]), query bodies with set
    operations ([query.rs]), the statements of the other files of [ast], and
    [parse] of [parser.rs].

    [parsers n] ties the recursion of the parsers with [n] nested calls.  Every
    nested call is made after a token was taken, so one more than the number of
    tokens is enough. *)
From Stdlib Require Import Ascii.
From S2P Require Import Prelude Keywords Tokenizer SqlAst SqlParser ExprParser.
Open Scope Z_scope.

Section Queries.
Context `{AsciiOrder} {K : Parsers}.

(** ** SELECT *)

(** The parts of a possible qualified wildcard after the first.  [None] when no
    star follows, and the text has to be read as an expression. *)
Fixpoint wildcard_loop (fuel : nat) (idents : list Ident) : P (option ObjectReference) :=
  match fuel with
  | O => panic "out of fuel"
  | S fuel' =>
    if_token Token.Period
      (t ← next;
       match token <$> t with
       | None => fail "Expected an identifier or '*' after '.', found end of statement"
       | Some (Token.Word w) => wildcard_loop fuel' (idents ++ [Ident_from w])
       | Some (Token.SingleQuotedString s) =>
         wildcard_loop fuel' (idents ++ [{| ident_value := s; ident_quoted := false |}])
       | Some Token.Mul => mret (Some idents)
       | Some _ => fail "Expected an identifier or '*' after '.'"
       end)
      (mret None)
  end.

Definition WildcardExpr_parse : P (WildcardExpr Expr) :=
  idx ← get_pos;
  let as_expr : P (WildcardExpr Expr) :=
    _ ← reset_pos idx;
    expr ← Expr_parse;
    mret (WildcardExpr_Expr expr) in
  let qualified (ident : Ident) : P (WildcardExpr Expr) :=
    n ← loop_fuel;
    w ← wildcard_loop n [ident];
    match w with
    | Some idents => mret (WildcardExpr_QualifiedWildcard idents)
    | None => as_expr
    end in
  t ← next;
  match token <$> t with
  | None => fail "Expected wild card expression, found end of statement"
  | Some Token.Mul => mret WildcardExpr_Wildcard
  | Some (Token.Word w) => qualified (Ident_from w)
  | Some (Token.SingleQuotedString s) => qualified {| ident_value := s; ident_quoted := false |}
  | Some _ => as_expr
  end.

Definition ReplaceColumn_parse : P (ReplaceColumn Expr) :=
  expr ← Expr_parse;
  alias ← parse_alias RESERVED_FOR_COLUMN_ALIAS;
  match alias with
  | Some alias => mret {| replace_col := alias; replace_expr := expr |}
  | None => fail "REPLACE requires column name"
  end.

Definition WildcardModifier_parse : P (WildcardModifier Expr) :=
  kw ← parse_one_of_keywords [Keyword.EXCEPT; Keyword.EXCLUDE];
  exclude ← match kw with
            | Some (Keyword.EXCEPT | Keyword.EXCLUDE) => parse_parenthesized_comma_separated Ident_parse
            | _ => mret []
            end;
  replace ← if_keyword Keyword.REPLACE (parse_parenthesized_comma_separated ReplaceColumn_parse) (mret []);
  mret {| exclude_cols := exclude; replace_cols := replace |}.

Definition SelectExpr_parse : P (SelectExpr Expr) :=
  expr ← WildcardExpr_parse;
  match expr with
  | WildcardExpr_Wildcard => m ← WildcardModifier_parse; mret (SelectExpr_Wildcard m)
  | WildcardExpr_QualifiedWildcard name =>
    m ← WildcardModifier_parse; mret (SelectExpr_QualifiedWildcard name m)
  | WildcardExpr_Expr expr =>
    alias ← parse_alias RESERVED_FOR_COLUMN_ALIAS;
    mret match alias with
         | Some alias => SelectExpr_AliasedExpr expr alias
         | None => SelectExpr_Expr expr
         end
  end.

Definition GroupByExpr_parse : P (GroupByExpr Expr) :=
  t ← peek;
  match t with
  | None => fail "Expected expression for GROUP BY, found end of statement"
  | Some t =>
    match keyword t with
    | Some Keyword.CUBE =>
      _ ← next;
      exprs ← parse_parenthesized_comma_separated Expr_parse;
      mret (GroupByExpr_Cube exprs)
    | Some Keyword.ROLLUP =>
      _ ← next;
      exprs ← parse_parenthesized_comma_separated Expr_parse;
      mret (GroupByExpr_Rollup exprs)
    | Some Keyword.GROUPING =>
      _ ← next;
      _ ← expect_keyword Keyword.SETS;
      exprs ← parse_parenthesized_comma_separated Expr_parse;
      mret (GroupByExpr_GroupingSets exprs)
    | _ =>
      exprs ← parse_comma_separated Expr_parse;
      mret (GroupByExpr_Expr exprs)
    end
  end.

Definition GroupByNode_parse : P (GroupByNode Expr) :=
  if_keyword Keyword.ALL (mret GroupByNode_All)
    (exprs ← parse_comma_separated GroupByExpr_parse; mret (GroupByNode_Exprs exprs)).

Definition parse_distinct : P (option (DistinctModifier Expr)) :=
  all ← parse_keyword Keyword.ALL;
  let distinct := if all : bool then Some DistinctModifier_All else None in
  if_keyword Keyword.DISTINCT
    (if all : bool then fail "Cannot specify both ALL and DISTINCT"
     else if_keyword Keyword.ON (fail "DISTINCT ON") (mret (Some DistinctModifier_Distinct)))
    (mret distinct).

Definition SelectNode_parse : P (SelectNode Expr FromNode) :=
  distinct ← parse_distinct;
  projections ← parse_comma_separated SelectExpr_parse;
  from ← if_keyword Keyword.FROM (some FromNode_parse) (mret None);
  where_expr ← if_keyword Keyword.WHERE (some Expr_parse) (mret None);
  group_by ← if_keywords [Keyword.GROUP; Keyword.BY] (some GroupByNode_parse) (mret None);
  having ← if_keyword Keyword.HAVING (some Expr_parse) (mret None);
  mret {| select_distinct := distinct; select_projections := projections; select_from := from;
          select_where := where_expr; select_group_by := group_by; select_having := having |}.

(** A row of VALUES. *)
Definition parse_values_row : P (list Expr) :=
  _ ← expect_token Token.LeftParen;
  exprs ← parse_comma_separated Expr_parse;
  _ ← expect_token Token.RightParen;
  mret exprs.

Definition Values_parse : P (Values Expr) :=
  rows ← parse_comma_separated parse_values_row;
  mret {| values_rows := rows |}.

(** ** FROM *)

Definition maybe_parse_alias : P (option FromAlias) :=
  alias ← parse_alias RESERVED_FOR_TABLE_ALIAS;
  match alias with
  | None => mret None
  | Some alias =>
    columns ← if_token Token.LeftParen
      (aliases ← parse_comma_separated Ident_parse;
       _ ← expect_token Token.RightParen;
       mret (Some aliases))
      (mret None);
    mret (Some {| from_alias := alias; from_columns := columns |})
  end.

(** A query that is only a list of values. *)
Definition values_query (v : Values Expr) : QueryNode :=
  Query None (QueryNodeBody_Values v) None {| limit_limit := None; limit_offset := None |}.

(** A table or a table function. *)
Definition parse_table (lateral : bool) : P FromNode :=
  reference ← ObjectReference_parse;
  t ← peek_token;
  body ← (if bool_decide (t = Some Token.LeftParen) then
            args ← parse_parenthesized_comma_separated FunctionArg_parse;
            mret (FromNodeBody_TableFunction lateral reference args)
          else if lateral then
            fail "LATERAL can only be used with subqueries and table functions on the right side"
          else mret (FromNodeBody_BaseTable reference));
  alias ← maybe_parse_alias;
  mret (From alias body).

Definition parse_base_from : P FromNode :=
  lateral ← parse_keyword Keyword.LATERAL;
  if_token Token.LeftParen
    (subquery ← QueryNode_parse;
     _ ← expect_token Token.RightParen;
     alias ← maybe_parse_alias;
     mret (From alias (FromNodeBody_Subquery lateral subquery)))
    (if_keyword Keyword.VALUES
      (values ← Values_parse;
       alias ← maybe_parse_alias;
       mret (From alias (FromNodeBody_Subquery lateral (values_query values))))
      (t ← peek_token;
       match t with
       | Some (Token.SingleQuotedString s) =>
         _ ← next;
         alias ← maybe_parse_alias;
         mret (From alias (FromNodeBody_File s))
       | _ => parse_table lateral
       end)).

(** The keywords after LEFT or RIGHT. *)
Definition parse_side (side : Keyword.t) (outer anti semi : JoinType) : P JoinType :=
  _ ← expect_keyword side;
  kw ← parse_one_of_keywords [Keyword.JOIN; Keyword.OUTER; Keyword.ANTI; Keyword.SEMI];
  match kw with
  | Some Keyword.JOIN => mret outer
  | Some Keyword.OUTER => _ ← expect_keyword Keyword.JOIN; mret outer
  | Some Keyword.ANTI => _ ← expect_keyword Keyword.JOIN; mret anti
  | Some Keyword.SEMI => _ ← expect_keyword Keyword.JOIN; mret semi
  | _ => fail "Expected one of OUTER, SEMI, or JOIN"
  end.

(** The join type that starts with [kw], or [None] when no join follows. *)
Definition parse_join_type (kw : Keyword.t) : P (option JoinType) :=
  match kw with
  | Keyword.JOIN | Keyword.INNER =>
    _ ← parse_keyword Keyword.INNER;
    _ ← expect_keyword Keyword.JOIN;
    mret (Some JoinType_Inner)
  | Keyword.LEFT => some (parse_side Keyword.LEFT JoinType_Left JoinType_LeftAnti JoinType_LeftSemi)
  | Keyword.RIGHT => some (parse_side Keyword.RIGHT JoinType_Right JoinType_RightAnti JoinType_RightSemi)
  | Keyword.FULL =>
    _ ← expect_keyword Keyword.FULL;
    _ ← parse_keyword Keyword.OUTER;
    _ ← expect_keyword Keyword.JOIN;
    mret (Some JoinType_Outer)
  | Keyword.SEMI =>
    _ ← expect_keyword Keyword.SEMI;
    _ ← expect_keyword Keyword.JOIN;
    mret (Some JoinType_LeftSemi)
  | _ => mret None
  end.

Definition parse_join_condition (natural : bool) : P (JoinCondition Expr) :=
  kw ← peek_keyword;
  match kw with
  | Some Keyword.ON =>
    _ ← parse_keyword Keyword.ON;
    has_paren ← consume_token Token.LeftParen;
    condition ← Expr_parse;
    _ ← (if has_paren : bool then expect_token Token.RightParen else mret tt);
    mret (JoinCondition_On condition)
  | Some Keyword.USING =>
    _ ← parse_keyword Keyword.USING;
    cols ← parse_parenthesized_comma_separated Ident_parse;
    mret (JoinCondition_Using cols)
  | _ => mret (if natural then JoinCondition_Natural else JoinCondition_None)
  end.

(** The right side of CROSS JOIN or of a comma. *)
Definition parse_cross (node : FromNode) : P FromNode :=
  right ← FromNode_parse;
  alias ← maybe_parse_alias;
  mret (From alias (FromNodeBody_Join {| join_left := node; join_right := right;
                                         join_type := JoinType_Inner; join_condition := JoinCondition_None |})).

(** One turn of the loop of [FromNode::parse]: the node with one more join, or
    [None] when it is complete. *)
Definition parse_join (node : FromNode) : P (option FromNode) :=
  if_keyword Keyword.CROSS
    (_ ← expect_keyword Keyword.JOIN; some (parse_cross node))
    (if_token Token.Comma (some (parse_cross node))
      (natural ← parse_keyword Keyword.NATURAL;
       kw ← peek_keyword;
       match kw with
       | None => mret None
       | Some kw =>
         join_type ← parse_join_type kw;
         match join_type with
         | None => mret None
         | Some join_type =>
           right ← FromNode_parse;
           join_condition ← parse_join_condition natural;
           mret (Some (From None (FromNodeBody_Join {| join_left := node; join_right := right;
                                    join_type := join_type; join_condition := join_condition |})))
         end
       end)).

Fixpoint from_loop (fuel : nat) (node : FromNode) : P FromNode :=
  match fuel with
  | O => panic "out of fuel"
  | S fuel' =>
    joined ← parse_join node;
    match joined with
    | Some node => from_loop fuel' node
    | None => mret node
    end
  end.

(** [FromNode::parse] *)
Definition parse_from : P FromNode :=
  node ← parse_base_from;
  n ← loop_fuel;
  from_loop n node.

(** ** Queries *)

Definition Describe_parse : P (Describe QueryNode FromNode) :=
  is_query ← is_query_node_start;
  if is_query : bool then (query ← QueryNode_parse; mret (Describe_Query query))
  else (from ← parse_base_from; mret (Describe_FromNode from)).

Definition CommonTableExpr_parse : P (CommonTableExpr QueryNode) :=
  alias ← Ident_parse;
  column_aliases ← if_keyword Keyword.AS (mret None)
    (aliases ← parse_parenthesized_comma_separated Ident_parse;
     _ ← expect_keyword Keyword.AS;
     mret (Some aliases));
  materialized ← parse_keyword Keyword.MATERIALIZED;
  body ← parse_subquery;
  mret {| cte_alias := alias; cte_column_aliases := column_aliases;
          cte_materialized := materialized; cte_body := body |}.

Definition CommonTableExprs_parse : P (CommonTableExprs QueryNode) :=
  recursive ← parse_keyword Keyword.RECURSIVE;
  ctes ← parse_comma_separated CommonTableExpr_parse;
  mret {| ctes_recursive := recursive; ctes_ctes := ctes |}.

(** The first part of a query body. *)
Definition parse_body : P QueryNodeBody :=
  if_keyword Keyword.SELECT (s ← SelectNode_parse; mret (QueryNodeBody_Select s))
  (if_keyword Keyword.VALUES (v ← Values_parse; mret (QueryNodeBody_Values v))
  (if_keyword Keyword.DESCRIBE (d ← Describe_parse; mret (QueryNodeBody_Describe d))
  (if_token Token.LeftParen
    (nested ← QueryNode_parse;
     _ ← expect_token Token.RightParen;
     mret (QueryNodeBody_Nested nested))
    (fail "Expected SELECT or VALUES")))).

(** The set operations and their precedences. *)
Definition set_operation (kw : option Keyword.t) : option (SetOperation * Z) :=
  match kw with
  | Some Keyword.UNION => Some (SetOperation_Union, 10)
  | Some Keyword.EXCEPT => Some (SetOperation_Except, 10)
  | Some Keyword.INTERSECT => Some (SetOperation_Intersect, 20)
  | _ => None
  end.

(** The [while let] over set operations. *)
Fixpoint set_loop (fuel : nat) (precedence : Z) (body : QueryNodeBody) : P QueryNodeBody :=
  match fuel with
  | O => panic "out of fuel"
  | S fuel' =>
    kw ← peek_keyword;
    match set_operation kw with
    | None => mret body
    | Some (op, next_precedence) =>
      if next_precedence <=? precedence then mret body
      else
        _ ← next;
        all ← parse_keyword Keyword.ALL;
        right ← QueryNodeBody_parse_inner next_precedence;
        set_loop fuel' precedence (QueryNodeBody_Set body right op all)
    end
  end.

(** [QueryNodeBody::parse_inner] *)
Definition parse_inner (precedence : Z) : P QueryNodeBody :=
  body ← parse_body;
  n ← loop_fuel;
  set_loop n precedence body.

(** [QueryNode::parse] *)
Definition parse_query : P QueryNode :=
  ctes ← if_keyword Keyword.WITH (some CommonTableExprs_parse) (mret None);
  body ← parse_inner 0;
  order_by ← if_keywords [Keyword.ORDER; Keyword.BY] (some (parse_comma_separated OrderByNode_parse)) (mret None);
  limit ← LimitModifier_parse;
  mret (Query ctes body order_by limit).

End Queries.

(** ** The knot *)

Definition exhausted : Parsers := {|
  Expr_parse_subexpr _ := panic "out of fuel";
  QueryNode_parse := panic "out of fuel";
  QueryNodeBody_parse_inner _ := panic "out of fuel";
  FromNode_parse := panic "out of fuel"
|}.

Fixpoint parsers `{AsciiOrder} (fuel : nat) : Parsers :=
  match fuel with
  | O => exhausted
  | S fuel' =>
    let K := parsers fuel' in
    {| Expr_parse_subexpr := parse_subexpr;
       QueryNode_parse := parse_query;
       QueryNodeBody_parse_inner := parse_inner;
       FromNode_parse := parse_from |}
  end.
