(* ===== verification/StatementParser.v ===== *)
(** * The statement parser

    The statements of [glaredb_parser/src/ast] and the entry points of
    [parser.rs]: [parse_statement], [parse_statements] and [parse]. *)
From Stdlib Require Import Ascii.
From S2P Require Import Prelude Keywords Tokenizer SqlAst SqlParser ExprParser QueryParser.
Open Scope Z_scope.

Section Statements.
Context `{AsciiOrder} {K : Parsers}.

(** ** ATTACH and DETACH *)

Definition parse_attach_type : P AttachType :=
  kw ← next_keyword;
  match kw with
  | Keyword.DATABASE => mret AttachType_Database
  | Keyword.TABLE => mret AttachType_Table
  | _ => fail "Expected DATABASE or TABLE for attach type"
  end.

Fixpoint attach_options_loop (fuel : nat) (options : gmap Ident Expr) : P (gmap Ident Expr) :=
  match fuel with
  | O => panic "out of fuel"
  | S fuel' =>
    key ← Ident_parse;
    val ← Expr_parse;
    if_token Token.RightParen (mret (<[key := val]> options))
      (_ ← expect_token Token.Comma; attach_options_loop fuel' (<[key := val]> options))
  end.

Definition Attach_parse : P Attach :=
  _ ← expect_keyword Keyword.ATTACH;
  datasource_name ← Ident_parse;
  attach_type ← parse_attach_type;
  _ ← expect_keyword Keyword.AS;
  alias ← ObjectReference_parse;
  options ← if_token Token.LeftParen (n ← loop_fuel; attach_options_loop n ∅) (mret ∅);
  mret {| attach_datasource_name := datasource_name; attach_attach_type := attach_type;
          attach_alias := alias; attach_options := options |}.

Definition Detach_parse : P Detach :=
  _ ← expect_keyword Keyword.DETACH;
  attach_type ← parse_attach_type;
  alias ← ObjectReference_parse;
  mret {| detach_attach_type := attach_type; detach_alias := alias |}.

(** ** COPY *)

Definition CopyOption_parse : P CopyOption :=
  key ← Ident_parse;
  val ← Expr_parse;
  mret {| copy_key := key; copy_val := val |}.

Definition CopyTo_parse : P CopyTo :=
  _ ← expect_keyword Keyword.COPY;
  source ← if_token Token.LeftParen
    (query ← QueryNode_parse;
     _ ← expect_token Token.RightParen;
     mret (CopyToSource_Query query))
    (reference ← ObjectReference_parse; mret (CopyToSource_Table reference));
  _ ← expect_keyword Keyword.TO;
  file ← parse_string_literal;
  options ← if_token Token.LeftParen
    (options ← parse_comma_separated CopyOption_parse;
     _ ← expect_token Token.RightParen;
     mret options)
    (mret []);
  mret {| copy_source := source; copy_target := CopyToTarget_File file; copy_options := options |}.

(** ** CREATE *)

Definition CreateSchema_parse : P CreateSchema :=
  _ ← expect_keyword Keyword.CREATE;
  _ ← expect_keyword Keyword.SCHEMA;
  if_not_exists ← parse_keyword_sequence [Keyword.IF; Keyword.NOT; Keyword.EXISTS];
  name ← ObjectReference_parse;
  mret {| schema_if_not_exists := if_not_exists; schema_name := name |}.

Definition ColumnDef_parse : P ColumnDef :=
  name ← Ident_parse;
  datatype ← DataType_parse;
  not_null ← parse_keyword_sequence [Keyword.NOT; Keyword.NULL];
  null ← parse_keyword Keyword.NULL;
  mret {| column_name := name; column_datatype := datatype;
          column_opts := (if not_null : bool then [ColumnOption_NotNull] else [])
                         ++ (if null : bool then [ColumnOption_Null] else []) |}.

(** [parse_one_of_keywords(&[TEMP, TEMPORARY]).is_some()] *)
Definition parse_temp : P bool :=
  kw ← parse_one_of_keywords [Keyword.TEMP; Keyword.TEMPORARY];
  mret (bool_decide (is_Some kw)).

Definition CreateTable_parse : P CreateTable :=
  _ ← expect_keyword Keyword.CREATE;
  or_replace ← parse_keyword_sequence [Keyword.OR; Keyword.REPLACE];
  temp ← parse_temp;
  external ← parse_keyword Keyword.EXTERNAL;
  _ ← expect_keyword Keyword.TABLE;
  if_not_exists ← parse_keyword_sequence [Keyword.IF; Keyword.NOT; Keyword.EXISTS];
  name ← ObjectReference_parse;
  columns ← if_token Token.LeftParen
    (columns ← parse_comma_separated ColumnDef_parse;
     _ ← expect_token Token.RightParen;
     mret columns)
    (mret []);
  source ← if_keyword Keyword.AS (some QueryNode_parse) (mret None);
  mret {| table_or_replace := or_replace; table_if_not_exists := if_not_exists; table_temp := temp;
          table_external := external; table_name := name; table_columns := columns; table_source := source |}.

Definition CreateView_parse : P CreateView :=
  _ ← expect_keyword Keyword.CREATE;
  or_replace ← parse_keyword_sequence [Keyword.OR; Keyword.REPLACE];
  temp ← parse_temp;
  _ ← expect_keyword Keyword.VIEW;
  name ← ObjectReference_parse;
  column_aliases ← if_keyword Keyword.AS (mret None)
    (aliases ← parse_parenthesized_comma_separated Ident_parse;
     _ ← expect_keyword Keyword.AS;
     mret (Some aliases));
  query_tok ← peek;
  match query_tok with
  | None => fail "Unexpected end of statement, expect view body"
  | Some query_tok =>
    query ← QueryNode_parse;
    query_sql ← sql_slice_starting_at query_tok;
    mret {| view_or_replace := or_replace; view_temp := temp; view_name := name;
            view_column_aliases := column_aliases; view_query_sql := query_sql; view_query := query |}
  end.

(** [Parser::parse_create], which looks for the object and starts over. *)
Definition parse_create : P Statement :=
  start ← get_pos;
  _ ← expect_keyword Keyword.CREATE;
  _ ← parse_keyword_sequence [Keyword.OR; Keyword.REPLACE];
  _ ← parse_temp;
  if_keyword Keyword.TABLE
    (_ ← reset_pos start; c ← CreateTable_parse; mret (Statement_CreateTable c))
    (if_keyword Keyword.SCHEMA
      (_ ← reset_pos start; c ← CreateSchema_parse; mret (Statement_CreateSchema c))
      (if_keyword Keyword.VIEW
        (_ ← reset_pos start; c ← CreateView_parse; mret (Statement_CreateView c))
        (fail "CREATE"))).

(** ** The others *)

Definition DiscardStatement_parse : P DiscardType :=
  _ ← expect_keyword Keyword.DISCARD;
  kw ← next_keyword;
  match kw with
  | Keyword.ALL => mret DiscardType_All
  | Keyword.PLANS => mret DiscardType_Plans
  | Keyword.TEMP | Keyword.TEMPORARY => mret DiscardType_Temp
  | Keyword.METADATA => mret DiscardType_Metadata
  | _ => fail "Got unexpected keyword for discard type"
  end.

Definition parse_drop_type : P DropType :=
  kw ← next_keyword;
  match kw with
  | Keyword.TABLE => mret DropType_Table
  | Keyword.INDEX => mret DropType_Index
  | Keyword.FUNCTION => mret DropType_Function
  | Keyword.SCHEMA => mret DropType_Schema
  | Keyword.VIEW => mret DropType_View
  | _ => fail "Got unexpected keyword for drop type"
  end.

Definition DropStatement_parse : P DropStatement :=
  _ ← expect_keyword Keyword.DROP;
  drop_type ← parse_drop_type;
  if_exists ← parse_keyword_sequence [Keyword.IF; Keyword.EXISTS];
  name ← ObjectReference_parse;
  deps ← if_keyword Keyword.CASCADE (mret (Some DropDependents_Cascade))
         (if_keyword Keyword.RESTRICT (mret (Some DropDependents_Restrict)) (mret None));
  mret {| drop_type := drop_type; drop_if_exists := if_exists; drop_name := name; drop_deps := deps |}.

Definition Insert_parse : P Insert :=
  _ ← expect_keyword Keyword.INSERT;
  _ ← expect_keyword Keyword.INTO;
  table ← ObjectReference_parse;
  columns ← if_token Token.LeftParen
    (columns ← parse_comma_separated Ident_parse;
     _ ← expect_token Token.RightParen;
     mret columns)
    (mret []);
  source ← QueryNode_parse;
  mret {| insert_table := table; insert_columns := columns; insert_source := source |}.

Definition Show_parse : P ShowReference :=
  _ ← expect_keyword Keyword.SHOW;
  kw ← parse_one_of_keywords [Keyword.DATABASES; Keyword.CATALOGS];
  match kw with
  | Some _ => mret ShowReference_Databases
  | None =>
    if_keyword Keyword.SCHEMAS (mret ShowReference_Schemas)
      (if_keyword Keyword.TABLES (mret ShowReference_Tables)
        (name ← ObjectReference_parse; mret (ShowReference_Variable name)))
  end.

Definition SetVariable_parse : P SetVariable :=
  _ ← expect_keyword Keyword.SET;
  name ← ObjectReference_parse;
  has_value ← if_keyword Keyword.TO (mret true) (consume_token Token.Eq);
  if has_value : bool then
    expr ← Expr_parse;
    mret {| set_reference := name; set_value := expr |}
  else fail "Expected 'SET name TO <value>' or SET name = <value>'".

Definition ResetVariable_parse : P VariableOrAll :=
  _ ← expect_keyword Keyword.RESET;
  if_keyword Keyword.ALL (mret VariableOrAll_All)
    (name ← ObjectReference_parse; mret (VariableOrAll_Variable name)).

Definition parse_explain_format : P (option ExplainOutput) :=
  if_token Token.LeftParen
    (_ ← expect_keyword Keyword.FORMAT;
     format ← if_keyword Keyword.JSON (mret ExplainOutput_Json)
              (if_keyword Keyword.TEXT (mret ExplainOutput_Text) (fail "Expect JSON or TEXT for explain format"));
     _ ← expect_token Token.RightParen;
     mret (Some format))
    (mret None).

(** [ExplainNode::parse]; EXPLAIN contains a statement. *)
Definition ExplainNode_parse (parse_statement : P Statement) : P ExplainNode :=
  _ ← expect_keyword Keyword.EXPLAIN;
  analyze ← parse_keyword Keyword.ANALYZE;
  verbose ← parse_keyword Keyword.VERBOSE;
  output ← parse_explain_format;
  body ← parse_statement;
  match body with
  | Statement_Query query =>
    mret {| explain_analyze := analyze; explain_verbose := verbose;
            explain_body := query; explain_output := output |}
  | _ => fail "Unexpected body in EXPLAIN"
  end.

Definition statement_for_keyword (parse_statement : P Statement) (kw : Keyword.t) : P Statement :=
  match kw with
  | Keyword.ATTACH => a ← Attach_parse; mret (Statement_Attach a)
  | Keyword.DETACH => d ← Detach_parse; mret (Statement_Detach d)
  | Keyword.COPY => c ← CopyTo_parse; mret (Statement_CopyTo c)
  | Keyword.CREATE => parse_create
  | Keyword.DROP => d ← DropStatement_parse; mret (Statement_Drop d)
  | Keyword.SET => s ← SetVariable_parse; mret (Statement_SetVariable s)
  | Keyword.RESET => r ← ResetVariable_parse; mret (Statement_ResetVariable r)
  | Keyword.SHOW => s ← Show_parse; mret (Statement_Show s)
  | Keyword.SELECT | Keyword.WITH | Keyword.VALUES | Keyword.DESCRIBE =>
    q ← QueryNode_parse; mret (Statement_Query q)
  | Keyword.INSERT => i ← Insert_parse; mret (Statement_Insert i)
  | Keyword.EXPLAIN => e ← ExplainNode_parse parse_statement; mret (Statement_Explain e)
  | Keyword.DISCARD => d ← DiscardStatement_parse; mret (Statement_Discard d)
  | _ => fail "Unexpected keyword"
  end.

End Statements.

(** [Parser::parse_statement]; a nested statement follows EXPLAIN. *)
Fixpoint parse_statement `{AsciiOrder} {K : Parsers} (fuel : nat) : P Statement :=
  match fuel with
  | O => panic "out of fuel"
  | S fuel' =>
    t ← peek_token;
    match t with
    | None => fail "Empty SQL statement"
    | Some (Token.Word w) =>
      match word_keyword w with
      | None => fail "Expected a keyword"
      | Some kw => statement_for_keyword (parse_statement fuel') kw
      end
    | Some _ => fail "Expected a SQL statement"
    end
  end.

(** [while self.consume_token(&Token::SemiColon)]; whether there was one. *)
Fixpoint skip_semicolons (fuel : nat) : P bool :=
  match fuel with
  | O => panic "out of fuel"
  | S fuel' =>
    semicolon ← consume_token Token.SemiColon;
    if semicolon : bool then (_ ← skip_semicolons fuel'; mret true) else mret false
  end.

(** The loop of [parse_statements]. *)
Fixpoint statements_loop `{AsciiOrder} {K : Parsers} (fuel : nat) (expect_delimiter : bool)
    (stmts : list Statement) : P (list Statement) :=
  match fuel with
  | O => panic "out of fuel"
  | S fuel' =>
    n ← loop_fuel;
    skipped ← skip_semicolons n;
    t ← peek;
    match t with
    | None => mret stmts
    | Some _ =>
      if expect_delimiter && negb skipped then fail "Expected semicolon between statements."
      else
        stmt ← parse_statement n;
        statements_loop fuel' true (stmts ++ [stmt])
    end
  end.

(** [Parser::parse_statements] *)
Definition parse_statements `{AsciiOrder} {K : Parsers} : P (list Statement) :=
  n ← loop_fuel; statements_loop n false [].

(** [parse], with fuel for as many nested calls as there are tokens. *)
Definition parse `{Unicode} `{AsciiOrder} (sql : str) : res (list Statement) :=
  toks ← tokenize sql;
  (parse_statements (K := parsers (S (length toks))) (with_tokens toks sql)).1.
