(* ===== verification/ParserTotal.v ===== *)
(** * The parser is total

    On every query [parse] returns statements or an error: no loop or recursion
    runs out of fuel, and no [unreachable!], negation or slice panics.

    The proof is a small program logic: [good N strict m] says of a parser that
    with fewer than [N] tokens left it does not panic, takes no tokens back, and
    takes at least one when [strict]. *)
From Stdlib Require Import Ascii.
From S2P Require Import Prelude Keywords Tokenizer TokenizerCorrect SqlAst SqlParser ExprParser QueryParser StatementParser.
Open Scope nat_scope.

(** ** The remaining tokens *)

(** The tokens left that are not white space or comments. *)
Definition rest (p : Parser) : list TokenWithLocation :=
  filter (fun t => is_trivia (token t) = false) (drop (pos p) (toks p)).

(** A number holds digits and periods only, as the tokenizer makes them. *)
Definition token_ok (t : TokenWithLocation) : Prop :=
  match token t with
  | Token.Number s => forallb (fun c => is_ascii_digit c || (c =? ch ".")%Z) s = true
  | _ => True
  end.

Definition tokens_ok (p : Parser) : Prop := Forall token_ok (toks p).

Lemma next_from_rest i l :
  match filter (fun t => is_trivia (token t) = false) l with
  | [] => (next_from i l).1 = None /\ filter (fun t => is_trivia (token t) = false) (drop ((next_from i l).2 - i) l) = []
  | t :: ts => (next_from i l).1 = Some t
               /\ filter (fun t => is_trivia (token t) = false) (drop ((next_from i l).2 - i) l) = ts
  end /\ i <= (next_from i l).2.
Proof.
  revert i. induction l as [|t l IH]; intros i; simpl; [by rewrite drop_nil|].
  rewrite filter_cons. destruct (is_trivia (token t)) eqn:Ht.
  - rewrite decide_False by done. destruct (IH (S i)) as [IH1 IH2].
    replace ((next_from (S i) l).2 - i) with (S ((next_from (S i) l).2 - S i)) by lia. simpl.
    split; [|lia]. destruct (filter _ l); done.
  - rewrite decide_True by done. cbn [fst snd]. replace (S i - i) with 1 by lia. split; [done|lia].
Qed.

(** [next] takes the first of the remaining tokens. *)
Lemma next_rest p :
  exists p', next p = (Ok (head (rest p)), p') /\ rest p' = tail (rest p) /\ toks p' = toks p /\ sql p' = sql p.
Proof.
  unfold next. pose proof (next_from_rest (pos p) (drop (pos p) (toks p))) as [Hn Hle].
  destruct (next_from _ _) as [t i]. exists (set_pos i p). unfold rest in *. cbn [fst snd] in *. simpl.
  rewrite drop_drop in Hn. replace (pos p + (i - pos p)) with i in Hn by lia.
  destruct (filter _ (drop (pos p) (toks p))); naive_solver.
Qed.

Lemma peek_nth_from_rest n l :
  peek_nth_from n l = filter (fun t => is_trivia (token t) = false) l !! n.
Proof.
  revert n. induction l as [|t l IH]; intros n; simpl; [done|]. rewrite filter_cons.
  destruct (is_trivia (token t)); [by rewrite decide_False|]. rewrite decide_True by done.
  destruct n; [done|apply IH].
Qed.

(** [peek_nth] looks at the remaining tokens. *)
Lemma peek_nth_rest n p : peek_nth n p = (Ok (rest p !! n), p).
Proof. unfold peek_nth, rest. by rewrite peek_nth_from_rest. Qed.

Lemma set_pos_pos p p' : toks p' = toks p -> sql p' = sql p -> set_pos (pos p) p' = p.
Proof. destruct p, p'; simpl. by intros -> ->. Qed.

Lemma rest_le p : length (rest p) <= length (toks p).
Proof. unfold rest. rewrite length_filter, length_drop. lia. Qed.

(** ** The logic *)

Definition good {A} (N : nat) (strict : bool) (m : P A) : Prop :=
  forall p, tokens_ok p -> length (rest p) < N ->
    match m p with
    | (Ok _, p') => toks p' = toks p /\ sql p' = sql p
                    /\ length (rest p') + (if strict then 1 else 0) <= length (rest p)
    | (Err _, p') => toks p' = toks p /\ sql p' = sql p
    | (Panic _, _) => False
    end.

Lemma good_mono {A} N N' s s' (m : P A) :
  good N s m -> N' <= N -> (s' = true -> s = true) -> good N' s' m.
Proof.
  intros Hm HN Hs p Hp Hl. specialize (Hm p Hp ltac:(lia)).
  destruct (m p) as [[a|e|w] p']; [|done..]. destruct s', s; naive_solver lia.
Qed.

Lemma good_lax {A} N (m : P A) : good N true m -> good N false m.
Proof. intros Hm. by eapply good_mono. Qed.

Lemma good_ret {A} N (a : A) : good N false (mret a : P A).
Proof. intros p Hp Hl. simpl. split_and!; [done..|lia]. Qed.

Lemma good_fail {A} N s e : good N s (fail e : P A).
Proof. by intros p Hp Hl. Qed.

Lemma good_bind {A B} N s (m : P A) (k : A -> P B) :
  good N false m -> (forall a, good N s (k a)) -> good N s (m ≫= k).
Proof.
  intros Hm Hk p Hp Hl. unfold mbind, M_bind. specialize (Hm p Hp Hl).
  destruct (m p) as [[a|e|w] p']; [|done..]. destruct Hm as (Ht & Hq & Hr).
  specialize (Hk a p' ltac:(unfold tokens_ok; by rewrite Ht) ltac:(lia)).
  destruct (k a p') as [[b|e|w] p'']; [|naive_solver congruence|done].
  destruct Hk as (Ht' & Hq' & Hr'). split_and!; [congruence..|lia].
Qed.

(** After a token was taken, one less is left. *)
Lemma good_bind_strict {A B} N s (m : P A) (k : A -> P B) :
  good N true m -> (forall a, good (pred N) false (k a)) -> good N s (m ≫= k).
Proof.
  intros Hm Hk p Hp Hl. unfold mbind, M_bind. specialize (Hm p Hp Hl).
  destruct (m p) as [[a|e|w] p']; [|done..]. destruct Hm as (Ht & Hq & Hr).
  specialize (Hk a p' ltac:(unfold tokens_ok; by rewrite Ht) ltac:(lia)).
  destruct (k a p') as [[b|e|w] p'']; [|naive_solver congruence|done].
  destruct Hk as (Ht' & Hq' & Hr'). split_and!; [congruence..|destruct s; lia].
Qed.

(** A parser of an option that takes a token when it has one. *)
Definition good_some {A} (N : nat) (m : P (option A)) (Q : A -> Prop) : Prop :=
  forall p, tokens_ok p -> length (rest p) < N ->
    match m p with
    | (Ok o, p') => toks p' = toks p /\ sql p' = sql p
                    /\ match o with
                       | Some a => Q a /\ S (length (rest p')) <= length (rest p)
                       | None => length (rest p') <= length (rest p)
                       end
    | (Err _, p') => toks p' = toks p /\ sql p' = sql p
    | (Panic _, _) => False
    end.

Lemma good_bind_some {A B} N s (m : P (option A)) Q (k : option A -> P B) :
  good_some N m Q -> (forall a, Q a -> good (pred N) false (k (Some a))) -> good N s (k None) ->
  good N s (m ≫= k).
Proof.
  intros Hm Hk Hn p Hp Hl. unfold mbind, M_bind. specialize (Hm p Hp Hl).
  destruct (m p) as [[o|e|w] p']; [|done..]. destruct Hm as (Ht & Hq & Hr).
  assert (Hp' : tokens_ok p') by (unfold tokens_ok; by rewrite Ht). destruct o as [a|].
  - destruct Hr as [HQ Hr]. specialize (Hk a HQ p' Hp' ltac:(lia)).
    destruct (k (Some a) p') as [[b|e|w] p'']; [|naive_solver congruence|done].
    destruct Hk as (Ht' & Hq' & Hr'). split_and!; [congruence..|destruct s; lia].
  - specialize (Hn p' Hp' ltac:(lia)).
    destruct (k None p') as [[b|e|w] p'']; [|naive_solver congruence|done].
    destruct Hn as (Ht' & Hq' & Hr'). split_and!; [congruence..|lia].
Qed.

(** A test that takes a token when it succeeds. *)
Definition good_test (N : nat) (m : P bool) : Prop :=
  good_some N (b ← m; mret (if b : bool then Some tt else None)) (fun _ => True).

Lemma good_bind_test {B} N s (m : P bool) (k : bool -> P B) :
  good_test N m -> good (pred N) false (k true) -> good N s (k false) -> good N s (m ≫= k).
Proof.
  intros Hm Ht Hf p Hp Hl.
  pose proof (good_bind_some N s _ _ (fun o => k (if o is Some _ then true else false)) Hm (fun _ _ => Ht) Hf p Hp Hl) as H.
  unfold mbind, M_bind, mret, M_ret in *. by destruct (m p) as [[[]|e|w] p'].
Qed.

(** ** Primitives *)

Lemma rest_tokens_ok p : tokens_ok p -> Forall token_ok (rest p).
Proof.
  intros Hp. unfold rest. apply Forall_forall. intros t [_ Ht]%list_elem_of_filter.
  assert (Hd : Forall token_ok (drop (pos p) (toks p))) by by apply Forall_drop.
  rewrite Forall_forall in Hd. by apply Hd.
Qed.

Lemma good_next N : good_some N next token_ok.
Proof.
  intros p Hp Hl. destruct (next_rest p) as (p' & -> & Hr & Ht & Hq). split_and!; [done..|].
  pose proof (rest_tokens_ok p Hp) as Hok. rewrite Hr.
  destruct (rest p) as [|t ts]; simpl; [lia|]. apply Forall_cons in Hok as [Hok _]. split; [done|lia].
Qed.

Lemma good_next_lax N : good N false next.
Proof.
  intros p Hp Hl. destruct (next_rest p) as (p' & -> & Hr & Ht & Hq). split_and!; [done..|].
  rewrite Hr. destruct (rest p); simpl; lia.
Qed.

Lemma good_peek_nth N n : good N false (peek_nth n).
Proof. intros p Hp Hl. rewrite peek_nth_rest. split_and!; [done..|lia]. Qed.

Lemma good_peek N : good N false peek.
Proof. apply good_peek_nth. Qed.

Lemma good_peek_token N : good N false peek_token.
Proof. apply good_bind; [apply good_peek|intros; apply good_ret]. Qed.

Lemma good_peek_keyword N : good N false peek_keyword.
Proof. apply good_bind; [apply good_peek|intros; apply good_ret]. Qed.

Lemma good_get_pos N : good N false get_pos.
Proof. intros p Hp Hl. simpl. split_and!; [done..|lia]. Qed.

Lemma good_get N : good N false (get : P Parser).
Proof. intros p Hp Hl. simpl. split_and!; [done..|lia]. Qed.

Lemma peek_token_rest p : peek_token p = (Ok (token <$> head (rest p)), p).
Proof.
  unfold peek_token, mbind, M_bind, peek. rewrite peek_nth_rest. by destruct (rest p).
Qed.

(** The sequence of keywords at the front, and how far it goes. *)
Lemma keyword_sequence_rest idx kws p :
  exists p', parse_keyword_sequence_loop idx kws p = (Ok true, p')
             /\ length (rest p') + length kws = length (rest p) /\ toks p' = toks p /\ sql p' = sql p
          \/ parse_keyword_sequence_loop idx kws p = (Ok false, set_pos idx p).
Proof.
  revert p. induction kws as [|kw kws IH]; intros p; simpl.
  { exists p. left. split_and!; [done|simpl; lia|done..]. }
  unfold mbind, M_bind. destruct (next_rest p) as (p' & -> & Hr & Ht & Hq).
  assert (Hset : forall q, toks q = toks p -> sql q = sql p -> set_pos idx q = set_pos idx p)
    by (intros [] ; unfold set_pos; simpl; by intros -> ->).
  destruct (rest p) as [|t ts] eqn:Hrest; simpl.
  { exists p'. right. by rewrite Hset. }
  destruct (is_keyword t kw); [|exists p'; right; simpl; by rewrite Hset].
  destruct (IH p') as (p'' & [(-> & Hl & Ht' & Hq')|Hf]).
  - exists p''. left. rewrite Hr in Hl. simpl in Hl. split_and!; [done|lia|congruence..].
  - exists p''. right. rewrite Hf. by rewrite Hset.
Qed.

Lemma good_parse_keyword_sequence N kws : kws <> [] -> good_test N (parse_keyword_sequence kws).
Proof.
  intros Hne p Hp Hl. unfold parse_keyword_sequence, get_pos, mbind, M_bind.
  destruct (keyword_sequence_rest (pos p) kws p) as (p' & [(-> & Hlen & Ht & Hq)| ->]); simpl.
  - split_and!; [done..|]. destruct kws; [done|]. simpl in Hlen. lia.
  - by rewrite set_pos_pos.
Qed.

Lemma parse_keyword_sequence_one kw p : parse_keyword kw p = parse_keyword_sequence [kw] p.
Proof.
  unfold parse_keyword, parse_keyword_sequence, get_pos, mbind, M_bind. simpl. unfold mbind, M_bind.
  by destruct (next p) as [[[t|]|e|w] p'].
Qed.

Lemma good_parse_keyword N kw : good_test N (parse_keyword kw).
Proof.
  intros p Hp Hl. pose proof (good_parse_keyword_sequence N [kw] ltac:(done) p Hp Hl) as H.
  unfold mbind, M_bind in *. by rewrite parse_keyword_sequence_one.
Qed.

Lemma good_consume_token N t : good_test N (consume_token t).
Proof.
  intros p Hp Hl. unfold consume_token, peek, mbind, M_bind. rewrite peek_nth_rest.
  destruct (rest p) as [|u us] eqn:Hr; simpl; [by rewrite Hr|].
  case_bool_decide; simpl; [|rewrite Hr; split_and!; [done..|simpl; lia]].
  destruct (next_rest p) as (p' & -> & Hr' & Ht & Hq). rewrite Hr in Hr'. simpl.
  split_and!; [done..|]. rewrite Hr'. simpl. lia.
Qed.

Lemma good_one_of_keywords N kws : good_some N (parse_one_of_keywords kws) (fun kw => kw ∈ kws).
Proof.
  intros p Hp Hl. unfold parse_one_of_keywords, get_pos, mbind, M_bind.
  destruct (next_rest p) as (p' & -> & Hr & Ht & Hq).
  destruct (rest p) as [|t ts] eqn:Hrest; simpl; [rewrite Hr; split_and!; done|].
  destruct (list_find _ kws) as [[i kw]|] eqn:Hf; simpl.
  - apply list_find_Some in Hf as (Hi & _). split_and!; [done..| |rewrite Hr; simpl; lia].
    by apply list_elem_of_lookup_2 with i.
  - rewrite set_pos_pos by done. rewrite Hrest. split_and!; [done..|simpl; lia].
Qed.

Lemma good_test_lax N m : good_test N m -> good N false m.
Proof.
  intros Hm p Hp Hl. specialize (Hm p Hp Hl). unfold mbind, M_bind, mret, M_ret in Hm.
  destruct (m p) as [[[]|e|w] p']; [| |done..]; naive_solver lia.
Qed.

Lemma good_some_lax {A} N (m : P (option A)) Q : good_some N m Q -> good N false m.
Proof.
  intros Hm p Hp Hl. specialize (Hm p Hp Hl).
  destruct (m p) as [[[a|]|e|w] p']; [| |done..]; naive_solver lia.
Qed.

Lemma good_maybe_parse {A} N (m : P A) : good N false m -> good N false (maybe_parse m).
Proof.
  intros Hm p Hp Hl. unfold maybe_parse. specialize (Hm p Hp Hl).
  destruct (m p) as [[a|e|w] p']; [done| |done]. destruct Hm as [Ht Hq]. rewrite set_pos_pos by done.
  split_and!; [done..|lia].
Qed.

Lemma good_maybe_parse_strict {A} N (m : P A) : good N true m -> good_some N (maybe_parse m) (fun _ => True).
Proof.
  intros Hm p Hp Hl. unfold maybe_parse. specialize (Hm p Hp Hl).
  destruct (m p) as [[a|e|w] p']; [naive_solver lia| |done]. destruct Hm as [Ht Hq]. by rewrite set_pos_pos.
Qed.

Lemma good_expect_token N t : good N true (expect_token t).
Proof.
  apply good_bind_test; [apply good_consume_token|apply good_ret|apply good_fail].
Qed.

Lemma good_expect_keyword N kw : good N true (expect_keyword kw).
Proof. apply good_bind_test; [apply good_parse_keyword|apply good_ret|apply good_fail]. Qed.

Lemma good_expect_one_of_tokens N ts : good N true (expect_one_of_tokens ts).
Proof.
  induction ts as [|t ts IH]; simpl; [apply good_fail|].
  apply good_bind_test; [apply good_consume_token|apply good_ret|done].
Qed.

Lemma good_next_keyword N : good N true next_keyword.
Proof.
  intros p Hp Hl. unfold next_keyword, mbind, M_bind. rewrite peek_token_rest.
  destruct (rest p) as [|t ts] eqn:Hr; simpl; [done|].
  destruct (token t); try done.
  destruct (word_keyword w); [|done].
  destruct (next_rest p) as (p' & -> & Hr' & Ht & Hq). simpl. split_and!; [done..|].
  rewrite Hr', Hr. simpl. lia.
Qed.

Lemma good_is_query_node_start N : good N false is_query_node_start.
Proof.
  intros p Hp Hl. unfold is_query_node_start. pose proof (good_next_keyword N p Hp Hl) as H.
  destruct (next_keyword p) as [[kw|e|w] p']; [| |done].
  - destruct H as (Ht & Hq & _).
    assert (exists b, match kw with
      | Keyword.SELECT | Keyword.WITH | Keyword.VALUES => (Ok true, set_pos (pos p) p')
      | _ => (Ok false, set_pos (pos p) p') end = (Ok b, p)) as [b Hb].
    { rewrite set_pos_pos by done. destruct kw; eauto. }
    rewrite Hb. split_and!; [done..|lia].
  - destruct H as (Ht & Hq). rewrite set_pos_pos by done. split_and!; [done..|lia].
Qed.

(** A loop that is given one more turn than there are tokens. *)
Lemma good_loop_fuel {B} N s (k : nat -> P B) :
  (forall n N', N' <= N -> N' <= n -> good N' s (k n)) -> good N s (loop_fuel ≫= k).
Proof.
  intros Hk p Hp Hl. unfold loop_fuel, mbind, M_bind. pose proof (rest_le p).
  apply (Hk _ (S (length (rest p)))); [lia|lia|done|lia].
Qed.

Lemma good_parse_keyword_lax N kw : good N false (parse_keyword kw).
Proof. apply good_test_lax, good_parse_keyword. Qed.

Lemma good_consume_token_lax N t : good N false (consume_token t).
Proof. apply good_test_lax, good_consume_token. Qed.

(** ** Automation *)

Create HintDb parse.
#[export] Hint Resolve good_ret good_fail good_next_lax good_peek_nth good_peek good_peek_token good_peek_keyword
  good_get_pos good_get good_expect_token good_expect_keyword good_expect_one_of_tokens good_next_keyword
  good_is_query_node_start good_parse_keyword_lax good_consume_token_lax : parse.
#[export] Hint Resolve good_lax | 5 : parse.
#[export] Hint Extern 1 (_ <= _) => lia : parse.

Lemma good_if_keyword {A} N s kw (yes no : P A) :
  good (pred N) false yes -> good N s no -> good N s (if_keyword kw yes no).
Proof. intros. by apply good_bind_test; [apply good_parse_keyword|..]. Qed.

Lemma good_if_keywords {A} N s kws (yes no : P A) :
  kws <> [] -> good (pred N) false yes -> good N s no -> good N s (if_keywords kws yes no).
Proof. intros. by apply good_bind_test; [apply good_parse_keyword_sequence|..]. Qed.

Lemma good_if_token {A} N s t (yes no : P A) :
  good (pred N) false yes -> good N s no -> good N s (if_token t yes no).
Proof. intros. by apply good_bind_test; [apply good_consume_token|..]. Qed.

(** A sub-parser. *)
Ltac good_call := solve [ eauto with parse nocore ].

(** Cases on a token, a keyword or a flag. *)
Ltac good_cases :=
  match goal with
  | |- good _ _ (match ?x with _ => _ end) => destruct x eqn:?
  | |- good _ _ (mret (match ?x with _ => _ end)) => apply good_ret
  end.

(** One step of a parser. *)
Ltac good_step :=
  match goal with
  | |- good _ _ (if_keyword _ _ _) => apply good_if_keyword
  | |- good _ _ (if_keywords _ _ _) => apply good_if_keywords; [done|..]
  | |- good _ _ (if_token _ _ _) => apply good_if_token
  | |- good _ _ (some _) => unfold some
  | |- good _ _ (loop_fuel ≫= _) => apply good_loop_fuel; intros
  | |- good _ _ (next ≫= _) => eapply good_bind_some; [apply good_next|intros ? ?|]
  | |- good _ _ (parse_one_of_keywords _ ≫= _) => eapply good_bind_some; [apply good_one_of_keywords|intros ? ?|]
  | |- good _ _ (maybe_parse _ ≫= _) =>
    first [ eapply good_bind_some; [apply good_maybe_parse_strict; good_call|intros ? _|]
          | eapply good_bind; [apply good_maybe_parse; good_call|intros ?] ]
  | |- good _ _ (parse_keyword _ ≫= _) =>
    first [ eapply good_bind_test; [apply good_parse_keyword|..] ]
  | |- good _ _ (consume_token _ ≫= _) => eapply good_bind_test; [apply good_consume_token|..]
  | |- good _ _ (parse_keyword_sequence _ ≫= _) =>
    eapply good_bind_test; [apply good_parse_keyword_sequence; done|..]
  | |- good _ _ (?m ≫= _) =>
    first [ eapply good_bind_strict; [good_call|intros ?]
          | eapply good_bind; [good_call|intros ?]
          | eapply good_bind_strict; [solve [repeat good_step]|intros ?]
          | eapply good_bind; [|intros ?] ]
  | _ => good_call
  | _ => good_cases
  end.

Ltac good := repeat (cbv beta zeta; cbn [fmap option_fmap option_map]; good_step).

(** ** Combinators, identifiers and types *)

Lemma good_parse_alias N reserved : good N false (parse_alias reserved).
Proof. unfold parse_alias. good. Qed.

Lemma good_comma_separated_loop {A} fuel N s (f : P A) vs :
  N <= fuel -> (forall N' s', N' <= N -> (s' = true -> s = true) -> good N' s' f) ->
  good N s (comma_separated_loop fuel f vs).
Proof.
  revert N s vs. induction fuel as [|fuel IH]; intros N s vs HN Hf.
  { intros p Hp Hl. lia. }
  assert (Hnext : forall v, good N false (comma ← consume_token Token.Comma;
    if comma : bool then
      t ← peek_token;
      match t with
      | None => mret (vs ++ [v])
      | Some t => if ends_list t then mret (vs ++ [v]) else comma_separated_loop fuel f (vs ++ [v])
      end
    else mret (vs ++ [v]))).
  { intros v. good. apply IH; [lia|]. intros N' s' ? ?. apply Hf; [lia|naive_solver]. }
  simpl. destruct s.
  - eapply good_bind_strict; [by apply Hf|]. intros v. eapply good_mono; [apply Hnext|lia|done].
  - eapply good_bind; [by apply Hf|]. done.
Qed.

Lemma good_parse_comma_separated {A} N s (f : P A) : good N s f -> good N s (parse_comma_separated f).
Proof.
  intros Hf. apply good_loop_fuel. intros n N' ? ?. apply good_comma_separated_loop; [done|].
  intros N'' s' ? ?. eapply good_mono; [done|lia|done].
Qed.

Lemma good_parenthesized {A} N (f : P A) :
  good (pred N) false f -> good N true (parse_parenthesized_comma_separated f).
Proof.
  intros Hf. unfold parse_parenthesized_comma_separated. good_step. good_step; [good|].
  eapply good_bind; [by apply good_parse_comma_separated|]. intros vs. good.
Qed.

Lemma good_Ident_parse N : good N true Ident_parse.
Proof. unfold Ident_parse. good. Qed.

Lemma good_parse_string_literal N : good N true parse_string_literal.
Proof. unfold parse_string_literal. good. Qed.
#[export] Hint Resolve good_parse_alias good_parse_comma_separated good_parenthesized
  good_Ident_parse good_parse_string_literal : parse.

Lemma good_object_reference_loop fuel N ids : N <= fuel -> good N false (object_reference_loop fuel ids).
Proof.
  revert N ids. induction fuel as [|fuel IH]; intros N ids HN; [intros p Hp Hl; lia|].
  simpl. good.
Qed.

Lemma good_ObjectReference_parse N : good N false ObjectReference_parse.
Proof. apply good_loop_fuel. intros. by apply good_object_reference_loop. Qed.
#[export] Hint Resolve good_ObjectReference_parse : parse.

Lemma digits_nonneg acc s v : (0 <= acc)%Z -> digits acc s = Some v -> (0 <= v)%Z.
Proof.
  revert acc. induction s as [|c s IH]; intros acc Hacc; simpl; [by intros [= <-]|].
  destruct (is_ascii_digit c) eqn:Hc; [|done]. apply IH. unfold is_ascii_digit in Hc. lia.
Qed.

(** The number of a token is not negative, so it can be negated. *)
Lemma parse_i64_neg t s v :
  token_ok t -> token t = Token.Number s -> parse_i64 s = Some v -> neg_i64 v = Ok (- v)%Z.
Proof.
  unfold token_ok. intros Hok Ht. rewrite Ht in Hok.
  assert (Hs : parse_i64 s = Some v -> (0 <= v)%Z).
  { destruct s as [|c s]; [done|]. simpl in Hok. apply andb_true_iff in Hok as [Hc _].
    assert ((c =? 43)%Z = false /\ (c =? 45)%Z = false) as [H43 H45] by (unfold is_ascii_digit in Hc; change (ch ".") with 46%Z in Hc; lia).
    unfold parse_i64. change (ch "+") with 43%Z. change (ch "-") with 45%Z. rewrite H43, H45.
    destruct (digits 0 (c :: s)) as [u|] eqn:Hd; simpl; [|done].
    case_match; [|done]. intros [= <-]. by apply digits_nonneg in Hd. }
  intros Hv. specialize (Hs Hv). unfold neg_i64, i64_min. destruct (Z.eqb_spec v (-2 ^ 63)); [lia|done].
Qed.

Lemma good_parse_i64_literal N : good N true parse_i64_literal.
Proof.
  unfold parse_i64_literal. good. erewrite parse_i64_neg by done. apply good_ret.
Qed.

Lemma good_parse_precision_scale N : good N false parse_precision_scale.
Proof. pose proof good_parse_i64_literal. unfold parse_precision_scale. good. Qed.

Lemma good_DataType_parse N : good N true DataType_parse.
Proof. pose proof good_parse_precision_scale. unfold DataType_parse. good. Qed.

Lemma good_IntervalUnit_parse N : good N true IntervalUnit_parse.
Proof. unfold IntervalUnit_parse. good. Qed.

Lemma good_DatePart_parse `{AsciiOrder} N : good N false DatePart_parse.
Proof.
  assert (Hkw : forall N kw, good N false (lift (DatePart_try_from_kw kw))) by (intros ? []; done || apply good_ret).
  unfold DatePart_parse. good.
Qed.

Lemma good_get_infix_precedence N : good N false get_infix_precedence.
Proof. unfold get_infix_precedence. good. Qed.
#[export] Hint Resolve good_parse_i64_literal good_DataType_parse good_IntervalUnit_parse good_DatePart_parse
  good_get_infix_precedence : parse.

(** ** Expressions *)

Section Good.
Context `{AsciiOrder} {K : Parsers} (L : nat).
Context (HE : forall N prec, N <= L -> good N true (Expr_parse_subexpr prec)).
Context (HQ : forall N, N <= L -> good N true QueryNode_parse).
Context (HI : forall N prec, N <= L -> good N true (QueryNodeBody_parse_inner prec)).
Context (HF : forall N, N <= L -> good N false FromNode_parse).
#[local] Hint Resolve HE HQ HI HF : parse.

Lemma good_Expr_parse N : N <= L -> good N true Expr_parse.
Proof. apply HE. Qed.
#[local] Hint Resolve good_Expr_parse : parse.

Lemma good_parse_subquery N : N <= S L -> good N true parse_subquery.
Proof. intros. unfold parse_subquery. good. Qed.
#[local] Hint Resolve good_parse_subquery : parse.

Lemma good_OrderByNode_parse N : N <= L -> good N true OrderByNode_parse.
Proof. intros. unfold OrderByNode_parse. good. Qed.
#[local] Hint Resolve good_OrderByNode_parse : parse.

Lemma good_LimitModifier_parse N : N <= S L -> good N false LimitModifier_parse.
Proof. intros. unfold LimitModifier_parse. good. Qed.

Lemma good_WindowFrameBound_parse N : N <= L -> good N false WindowFrameBound_parse.
Proof. intros. unfold WindowFrameBound_parse. good. Qed.
#[local] Hint Resolve good_WindowFrameBound_parse : parse.

Lemma good_WindowFrameExclusion_parse N : good N false WindowFrameExclusion_parse.
Proof. unfold WindowFrameExclusion_parse. good. Qed.
#[local] Hint Resolve good_WindowFrameExclusion_parse : parse.

Lemma good_WindowFrame_parse N : N <= L -> good N false WindowFrame_parse.
Proof. intros. unfold WindowFrame_parse, WindowFrameUnit_parse. good. Qed.
#[local] Hint Resolve good_WindowFrame_parse : parse.

Lemma good_WindowDefinition_parse N : N <= L -> good N false WindowDefinition_parse.
Proof. intros. unfold WindowDefinition_parse. good. Qed.
#[local] Hint Resolve good_WindowDefinition_parse : parse.

Lemma good_FunctionArg_parse N : N <= L -> good N true FunctionArg_parse.
Proof. intros. unfold FunctionArg_parse. good. Qed.
#[local] Hint Resolve good_FunctionArg_parse : parse.

Lemma good_Interval_parse N : N <= L -> good N true Interval_parse.
Proof. intros. unfold Interval_parse. good. Qed.
#[local] Hint Resolve good_Interval_parse : parse.

Lemma good_ArraySubscript_parse N : N <= L -> good N false ArraySubscript_parse.
Proof. intros. unfold ArraySubscript_parse. good. Qed.
#[local] Hint Resolve good_ArraySubscript_parse : parse.

Lemma good_compound_ident_loop fuel N w ids : N <= fuel -> good N false (compound_ident_loop fuel w ids).
Proof.
  revert N w ids. induction fuel as [|fuel IH]; intros N w ids HN; [intros p Hp Hl; lia|].
  simpl. good.
Qed.
#[local] Hint Resolve good_compound_ident_loop : parse.

Lemma good_parse_function_args N : N <= L -> good N false parse_function_args.
Proof. intros. unfold parse_function_args. good. Qed.

Lemma good_parse_filter N : N <= L -> good N false parse_filter.
Proof. intros. unfold parse_filter. good. Qed.

Lemma good_parse_over N : N <= L -> good N false parse_over.
Proof. intros. unfold parse_over. good. Qed.
#[local] Hint Resolve good_parse_function_args good_parse_filter good_parse_over : parse.

Lemma good_parse_ident_expr N w : N <= L -> good N false (parse_ident_expr w).
Proof. intros. unfold parse_ident_expr. good. Qed.

Lemma good_case_loop fuel N cs rs : N <= fuel -> N <= L -> good N false (case_loop fuel cs rs).
Proof.
  revert N cs rs. induction fuel as [|fuel IH]; intros N cs rs HN HL; [intros p Hp Hl; lia|].
  simpl. good.
Qed.
#[local] Hint Resolve good_case_loop : parse.

Lemma good_parse_case N : N <= L -> good N false parse_case.
Proof. intros. unfold parse_case. good. Qed.

Lemma good_parse_substring N : N <= L -> good N false parse_substring.
Proof. intros. unfold parse_substring, comma_or_keyword. good. Qed.

Lemma good_parse_position N : N <= L -> good N false parse_position.
Proof. intros. unfold parse_position. good. Qed.

Lemma good_parse_extract N : N <= L -> good N false parse_extract.
Proof. intros. unfold parse_extract. good. Qed.

Lemma good_parse_cast N : N <= L -> good N false parse_cast.
Proof. intros. unfold parse_cast. good. Qed.

Lemma good_parse_columns N : N <= L -> good N false parse_columns.
Proof. intros. unfold parse_columns. good. Qed.

Lemma good_parse_not N : N <= L -> good N false parse_not.
Proof. intros. unfold parse_not. good. Qed.

Lemma good_parse_parens N : N <= L -> good N false parse_parens.
Proof. intros. unfold parse_parens. good. Qed.

Lemma good_parse_array N : N <= L -> good N false parse_array.
Proof. intros. unfold parse_array. good. Qed.
#[local] Hint Resolve good_parse_ident_expr good_parse_case good_parse_substring good_parse_position
  good_parse_extract good_parse_cast good_parse_columns good_parse_not good_parse_parens good_parse_array : parse.

Lemma good_parse_prefix_token N t : N <= L -> good N false (parse_prefix_token t).
Proof. intros. unfold parse_prefix_token, parse_prefix_word. good. Qed.
#[local] Hint Resolve good_parse_prefix_token : parse.

Lemma good_parse_prefix N : N <= S L -> good N true parse_prefix.
Proof. intros. unfold parse_prefix. good. Qed.

Lemma good_parse_binary N e op prec : N <= L -> good N false (parse_binary e op prec).
Proof.
  intros. unfold parse_binary. eapply good_bind_some; [apply good_one_of_keywords| |good].
  intros kw Hkw. eapply good_bind_strict; [good_call|]. intros q.
  rewrite !elem_of_cons, elem_of_nil in Hkw. destruct Hkw as [->|[->|[->|[]]]]; apply good_ret.
Qed.

Lemma good_parse_distinct_from N e op : N <= L -> good N false (parse_distinct_from e op).
Proof. intros. unfold parse_distinct_from. good. Qed.
#[local] Hint Resolve good_parse_distinct_from : parse.

Lemma good_parse_is N e : N <= L -> good N false (parse_is e).
Proof. intros. unfold parse_is. good. Qed.

Lemma good_parse_in N e b : N <= L -> good N false (parse_in e b).
Proof. intros. unfold parse_in. good. Qed.

Lemma good_parse_like N e b c : N <= L -> good N false (parse_like e b c).
Proof. intros. unfold parse_like. good. Qed.

Lemma good_parse_between N e b : N <= L -> good N false (parse_between e b).
Proof. intros. unfold parse_between. good. Qed.
#[local] Hint Resolve good_parse_binary good_parse_is good_parse_in good_parse_like good_parse_between : parse.

Lemma good_parse_infix_keyword N e kw : N <= L -> good N false (parse_infix_keyword e kw).
Proof. intros. unfold parse_infix_keyword. good. Qed.
#[local] Hint Resolve good_parse_infix_keyword : parse.

Lemma good_parse_infix N e prec : N <= S L -> good N true (parse_infix e prec).
Proof. intros. unfold parse_infix. good. Qed.
#[local] Hint Resolve good_parse_infix good_parse_prefix : parse.

Lemma good_infix_loop fuel N prec e : N <= fuel -> N <= S L -> good N false (infix_loop fuel prec e).
Proof.
  revert N e. induction fuel as [|fuel IH]; intros N e HN HL; [intros p Hp Hl; lia|].
  simpl. good.
Qed.
#[local] Hint Resolve good_infix_loop : parse.

Lemma good_parse_subexpr N prec : N <= S L -> good N true (parse_subexpr prec).
Proof. intros. unfold parse_subexpr. good. Qed.

(** ** Queries *)

Lemma good_wildcard_loop fuel N ids : N <= fuel -> good N false (wildcard_loop fuel ids).
Proof.
  revert N ids. induction fuel as [|fuel IH]; intros N ids HN; [intros p Hp Hl; lia|]. simpl. good.
Qed.

(** [good] for a parser that was started at [p0] and may go back there. *)
Definition good_from {A} (p0 : Parser) (strict : bool) (m : P A) : Prop :=
  forall p, toks p = toks p0 -> sql p = sql p0 -> length (rest p) <= length (rest p0) ->
    match m p with
    | (Ok _, p') => toks p' = toks p0 /\ sql p' = sql p0
                    /\ length (rest p') + (if strict then 1 else 0) <= length (rest p0)
    | (Err _, p') => toks p' = toks p0 /\ sql p' = sql p0
    | (Panic _, _) => False
    end.

Lemma good_get_pos_from {A} N s (k : nat -> P A) :
  (forall p0, tokens_ok p0 -> length (rest p0) < N -> good_from p0 s (k (pos p0))) ->
  good N s (i ← get_pos; k i).
Proof. intros Hk p Hp Hl. by apply (Hk p Hp Hl p). Qed.

Lemma good_from_good {A} p0 N s (m : P A) :
  good N s m -> tokens_ok p0 -> length (rest p0) < N -> good_from p0 s m.
Proof.
  intros Hm Hp Hl p Ht Hq Hr. specialize (Hm p ltac:(unfold tokens_ok; by rewrite Ht) ltac:(lia)).
  destruct (m p) as [[a|e|w] p']; [|naive_solver congruence|done].
  destruct Hm as (? & ? & ?). split_and!; [congruence..|lia].
Qed.

Lemma good_from_bind {A B} p0 s (m : P A) (k : A -> P B) :
  good_from p0 false m -> (forall a, good_from p0 s (k a)) -> good_from p0 s (m ≫= k).
Proof.
  intros Hm Hk p Ht Hq Hr. unfold mbind, M_bind. specialize (Hm p Ht Hq Hr).
  destruct (m p) as [[a|e|w] p']; [|done..]. destruct Hm as (? & ? & ?). apply Hk; [done..|lia].
Qed.

Lemma good_from_reset {A} p0 N s (m : P A) :
  good N s m -> tokens_ok p0 -> length (rest p0) < N -> good_from p0 s (_ ← reset_pos (pos p0); m).
Proof.
  intros Hm Hp Hl p Ht Hq Hr. unfold mbind, M_bind, reset_pos. rewrite set_pos_pos by done. by apply Hm.
Qed.

Lemma good_WildcardExpr_parse N : N <= L -> good N false WildcardExpr_parse.
Proof.
  intros HN. apply good_get_pos_from. intros p0 Hp0 Hl0. cbv zeta.
  assert (Hexpr : good_from p0 false (_ ← reset_pos (pos p0); expr ← Expr_parse; mret (WildcardExpr_Expr expr)))
    by (apply good_from_reset with N; [good|done..]).
  assert (Hqual : forall i, good_from p0 false (n ← loop_fuel; w ← wildcard_loop n [i];
    match w with
    | Some idents => mret (WildcardExpr_QualifiedWildcard idents)
    | None => _ ← reset_pos (pos p0); expr ← Expr_parse; mret (WildcardExpr_Expr expr)
    end)).
  { intros i p Ht Hq Hr. pose proof (rest_le p) as Hle. unfold loop_fuel, mbind at 1, M_bind at 1. cbv beta iota.
    eapply (good_from_bind p0 false); [|intros [ids|]|done..].
    - apply good_from_good with (S (length (rest p0))); [|done|lia]. apply good_wildcard_loop.
      rewrite Ht. pose proof (rest_le p0). lia.
    - by apply good_from_good with N; [apply good_ret|..].
    - done. }
  apply good_from_bind; [by apply good_from_good with N; [apply good_next_lax|..]|].
  assert (Hfail : forall e, good_from p0 false (fail e : P (WildcardExpr Expr)))
    by (intros; by apply good_from_good with N; [apply good_fail|..]).
  intros [t|]; [|apply Hfail]. cbn [fmap option_fmap option_map].
  destruct (token t); try apply Hqual; try apply Hexpr.
  by apply good_from_good with N; [apply good_ret|..].
Qed.
#[local] Hint Resolve good_WildcardExpr_parse : parse.

Lemma good_ReplaceColumn_parse N : N <= L -> good N false ReplaceColumn_parse.
Proof. intros. unfold ReplaceColumn_parse. good. Qed.
#[local] Hint Resolve good_ReplaceColumn_parse : parse.

Lemma good_WildcardModifier_parse N : N <= L -> good N false WildcardModifier_parse.
Proof. intros. unfold WildcardModifier_parse. good. Qed.
#[local] Hint Resolve good_WildcardModifier_parse : parse.

Lemma good_SelectExpr_parse N : N <= L -> good N false SelectExpr_parse.
Proof. intros. unfold SelectExpr_parse. good. Qed.
#[local] Hint Resolve good_SelectExpr_parse : parse.

Lemma good_GroupByExpr_parse N : N <= L -> good N false GroupByExpr_parse.
Proof. intros. unfold GroupByExpr_parse. good. Qed.
#[local] Hint Resolve good_GroupByExpr_parse : parse.

Lemma good_GroupByNode_parse N : N <= L -> good N false GroupByNode_parse.
Proof. intros. unfold GroupByNode_parse. good. Qed.
#[local] Hint Resolve good_GroupByNode_parse : parse.

Lemma good_parse_distinct N : good N false parse_distinct.
Proof. unfold parse_distinct. good. Qed.
#[local] Hint Resolve good_parse_distinct : parse.

Lemma good_SelectNode_parse N : N <= L -> good N false SelectNode_parse.
Proof. intros. unfold SelectNode_parse. good. Qed.

Lemma good_parse_values_row N : N <= S L -> good N true parse_values_row.
Proof. intros. unfold parse_values_row. good. Qed.
#[local] Hint Resolve good_parse_values_row : parse.

Lemma good_Values_parse N : N <= S L -> good N true Values_parse.
Proof. intros. unfold Values_parse. good. Qed.
#[local] Hint Resolve good_SelectNode_parse good_Values_parse : parse.

Lemma good_maybe_parse_alias N : good N false maybe_parse_alias.
Proof. unfold maybe_parse_alias. good. Qed.
#[local] Hint Resolve good_maybe_parse_alias : parse.

Lemma good_parse_table N b : N <= S L -> good N false (parse_table b).
Proof. intros. unfold parse_table. good. Qed.
#[local] Hint Resolve good_parse_table : parse.

Lemma good_parse_base_from N : N <= S L -> good N false parse_base_from.
Proof. intros. unfold parse_base_from. good. Qed.
#[local] Hint Resolve good_parse_base_from : parse.

(** ** Joins *)

Abbreviation always := (fun _ => True).

Lemma good_some_strict {A} N (m : P (option A)) : good N true m -> good_some N m always.
Proof.
  intros Hm p Hp Hl. specialize (Hm p Hp Hl).
  destruct (m p) as [[[a|]|e|w] p']; [| |done..]; naive_solver lia.
Qed.

Lemma good_some_none {A} N : good_some N (mret None : P (option A)) always.
Proof. intros p Hp Hl. simpl. done. Qed.

Lemma good_some_bind {A B} N (m : P A) (k : A -> P (option B)) :
  good N false m -> (forall a, good_some N (k a) always) -> good_some N (m ≫= k) always.
Proof.
  intros Hm Hk p Hp Hl. unfold mbind, M_bind. specialize (Hm p Hp Hl).
  destruct (m p) as [[a|e|w] p']; [|done..]. destruct Hm as (Ht & Hq & Hr).
  specialize (Hk a p' ltac:(unfold tokens_ok; by rewrite Ht) ltac:(lia)).
  destruct (k a p') as [[[b|]|e|w] p'']; naive_solver (congruence || lia).
Qed.

Lemma good_some_bind_some {A B} N (m : P (option A)) Q (k : option A -> P (option B)) :
  good_some N m Q -> (forall a, Q a -> good (pred N) false (k (Some a))) -> good_some N (k None) always ->
  good_some N (m ≫= k) always.
Proof.
  intros Hm Hk Hn p Hp Hl. unfold mbind, M_bind. specialize (Hm p Hp Hl).
  destruct (m p) as [[[a|]|e|w] p']; [| |done..]; destruct Hm as (Ht & Hq & Hr).
  - destruct Hr as [HQa Hr]. specialize (Hk a HQa p' ltac:(unfold tokens_ok; by rewrite Ht) ltac:(lia)).
    destruct (k (Some a) p') as [[[b|]|e|w] p'']; naive_solver (congruence || lia).
  - specialize (Hn p' ltac:(unfold tokens_ok; by rewrite Ht) ltac:(lia)).
    destruct (k None p') as [[[b|]|e|w] p'']; naive_solver (congruence || lia).
Qed.

Lemma good_some_bind_test {B} N (m : P bool) (k : bool -> P (option B)) :
  good_test N m -> good (pred N) false (k true) -> good_some N (k false) always -> good_some N (m ≫= k) always.
Proof.
  intros Hm Ht Hf p Hp Hl.
  pose proof (good_some_bind_some N _ _ (fun o => k (if o is Some _ then true else false)) Hm
    (fun _ _ => Ht) Hf p Hp Hl) as Hb.
  unfold mbind, M_bind, mret, M_ret in *. by destruct (m p) as [[[]|e|w] p'].
Qed.

Lemma good_parse_side N kw a b c : good N true (parse_side kw a b c).
Proof. unfold parse_side. good. Qed.
#[local] Hint Resolve good_parse_side : parse.

Lemma good_parse_join_type N kw : good_some N (parse_join_type kw) always.
Proof.
  unfold parse_join_type. destruct kw; try apply good_some_none; apply good_some_strict; good.
Qed.

Lemma good_parse_join_condition N b : N <= L -> good N false (parse_join_condition b).
Proof. intros. unfold parse_join_condition. good. Qed.

Lemma good_parse_cross N node : N <= L -> good N false (parse_cross node).
Proof. intros. unfold parse_cross. good. Qed.
#[local] Hint Resolve good_parse_join_condition good_parse_cross : parse.

Lemma good_parse_join N node : N <= S L -> good_some N (parse_join node) always.
Proof.
  intros. unfold parse_join, if_keyword, if_token.
  apply good_some_bind_test; [apply good_parse_keyword|good|].
  apply good_some_bind_test; [apply good_consume_token|good|].
  apply good_some_bind; [good_call|intros natural].
  apply good_some_bind; [good_call|intros [kw|]; [|apply good_some_none]].
  eapply good_some_bind_some; [apply good_parse_join_type|intros jt _; good|apply good_some_none].
Qed.

Lemma good_from_loop fuel N node : N <= fuel -> N <= S L -> good N false (from_loop fuel node).
Proof.
  revert N node. induction fuel as [|fuel IH]; intros N node HN HL; [intros p Hp Hl; lia|]. simpl.
  eapply good_bind_some; [by apply good_parse_join|intros; good|good].
Qed.
#[local] Hint Resolve good_from_loop : parse.

Lemma good_parse_from N : N <= S L -> good N false parse_from.
Proof. intros. unfold parse_from. good. Qed.

(** ** Set operations *)

Lemma good_Describe_parse N : N <= L -> good N false Describe_parse.
Proof. intros. unfold Describe_parse. good. Qed.

Lemma good_CommonTableExpr_parse N : N <= L -> good N true CommonTableExpr_parse.
Proof. intros. unfold CommonTableExpr_parse. good. Qed.
#[local] Hint Resolve good_Describe_parse good_CommonTableExpr_parse : parse.

Lemma good_CommonTableExprs_parse N : N <= L -> good N false CommonTableExprs_parse.
Proof. intros. unfold CommonTableExprs_parse. good. Qed.

Lemma good_parse_body N : N <= S L -> good N true parse_body.
Proof. intros. unfold parse_body. good. Qed.
#[local] Hint Resolve good_CommonTableExprs_parse good_parse_body : parse.

(** A set operator was looked at, so [next] takes a token. *)
Lemma good_peek_next {B} N (o : option Keyword.t) (k : P B) :
  o <> None -> good (pred N) false k ->
  forall p, tokens_ok p -> length (rest p) < N -> peek_keyword p = (Ok o, p) ->
    match (_ ← next; k) p with
    | (Ok _, p') => toks p' = toks p /\ sql p' = sql p /\ length (rest p') <= length (rest p)
    | (Err _, p') => toks p' = toks p /\ sql p' = sql p
    | (Panic _, _) => False
    end.
Proof.
  intros Ho Hk p Hp Hl Hpeek. unfold peek_keyword, peek, mbind, M_bind in Hpeek. rewrite peek_nth_rest in Hpeek.
  unfold mbind, M_bind. destruct (next_rest p) as (p' & -> & Hr & Ht & Hq).
  destruct (rest p) as [|t ts]; [simpl in Hpeek; by injection Hpeek|]. simpl in *.
  specialize (Hk p' ltac:(unfold tokens_ok; by rewrite Ht) ltac:(rewrite Hr; lia)).
  destruct (k p') as [[b|e|w] p'']; [|naive_solver congruence|done].
  destruct Hk as (? & ? & ?). rewrite Hr in *. split_and!; [congruence..|lia].
Qed.

Lemma good_set_loop fuel N prec body : N <= fuel -> N <= S L -> good N false (set_loop fuel prec body).
Proof.
  revert N body. induction fuel as [|fuel IH]; intros N body HN HL p Hp Hl; [lia|]. simpl.
  assert (Hpeek : exists o, peek_keyword p = (Ok o, p)).
  { unfold peek_keyword, peek, mbind, M_bind. rewrite peek_nth_rest. eauto. }
  destruct Hpeek as [o Ho]. unfold mbind at 1, M_bind at 1. rewrite Ho.
  destruct (set_operation o) as [[op nprec]|] eqn:Hop; [|simpl; split_and!; [done..|lia]].
  destruct (nprec <=? prec)%Z; [simpl; split_and!; [done..|lia]|].
  assert (Hgood : good (pred N) false (all ← parse_keyword Keyword.ALL;
      right ← QueryNodeBody_parse_inner nprec;
      set_loop fuel prec (QueryNodeBody_Set body right op all))) by good.
  pose proof (good_peek_next N o _ ltac:(by intros ->) Hgood p Hp Hl Ho) as Hres.
  destruct ((_ ← next; _) p) as [[b|e|w] p']; [naive_solver lia|done..].
Qed.
#[local] Hint Resolve good_set_loop : parse.

Lemma good_parse_inner N prec : N <= S L -> good N true (parse_inner prec).
Proof. intros. unfold parse_inner. good. Qed.
#[local] Hint Resolve good_parse_inner good_LimitModifier_parse : parse.

Lemma good_parse_query N : N <= S L -> good N true parse_query.
Proof. intros. unfold parse_query. good. Qed.

(** ** Statements *)

Lemma good_parse_attach_type N : good N true parse_attach_type.
Proof. unfold parse_attach_type. good. Qed.

Lemma good_attach_options_loop fuel N o : N <= fuel -> N <= L -> good N false (attach_options_loop fuel o).
Proof.
  revert N o. induction fuel as [|fuel IH]; intros N o HN HL; [intros p Hp Hl; lia|]. simpl. good.
Qed.
#[local] Hint Resolve good_parse_attach_type good_attach_options_loop : parse.

Lemma good_Attach_parse N : N <= L -> good N true Attach_parse.
Proof. intros. unfold Attach_parse. good. Qed.

Lemma good_Detach_parse N : good N true Detach_parse.
Proof. unfold Detach_parse. good. Qed.

Lemma good_CopyOption_parse N : N <= L -> good N true CopyOption_parse.
Proof. intros. unfold CopyOption_parse. good. Qed.
#[local] Hint Resolve good_CopyOption_parse : parse.

Lemma good_CopyTo_parse N : N <= L -> good N true CopyTo_parse.
Proof. intros. unfold CopyTo_parse. good. Qed.

Lemma good_CreateSchema_parse N : good N true CreateSchema_parse.
Proof. unfold CreateSchema_parse. good. Qed.

Lemma good_ColumnDef_parse N : good N true ColumnDef_parse.
Proof. unfold ColumnDef_parse. good. Qed.

Lemma good_parse_temp N : good N false parse_temp.
Proof. unfold parse_temp. good. Qed.
#[local] Hint Resolve good_ColumnDef_parse good_parse_temp : parse.

Lemma good_CreateTable_parse N : N <= L -> good N true CreateTable_parse.
Proof. intros. unfold CreateTable_parse. good. Qed.

Lemma good_sql_slice N t : good N false (sql_slice_starting_at t).
Proof. unfold sql_slice_starting_at. good. Qed.
#[local] Hint Resolve good_sql_slice : parse.

Lemma good_CreateView_parse N : N <= L -> good N true CreateView_parse.
Proof. intros. unfold CreateView_parse. good. Qed.

Lemma good_parse_create N : N <= L -> good N true parse_create.
Proof.
  intros HN. apply good_get_pos_from. intros p0 Hp0 Hl0.
  assert (Hgood : forall A s (m : P A), good N s m -> good_from p0 s m) by (intros; by apply good_from_good with N).
  assert (Hreset : forall A (m : P A) (f : A -> Statement), good N true m ->
    good_from p0 true (_ ← reset_pos (pos p0); c ← m; mret (f c))).
  { intros A m f Hm. apply good_from_reset with N; [|done..]. good. }
  unfold if_keyword.
  apply good_from_bind; [apply Hgood; good|intros _].
  apply good_from_bind; [by apply Hgood, good_test_lax, good_parse_keyword_sequence|intros _].
  apply good_from_bind; [apply Hgood; good|intros _].
  apply good_from_bind; [apply Hgood; good|intros []; [apply Hreset, good_CreateTable_parse, HN|]].
  apply good_from_bind; [apply Hgood; good|intros []; [apply Hreset, good_CreateSchema_parse|]].
  apply good_from_bind; [apply Hgood; good|intros []; [apply Hreset, good_CreateView_parse, HN|]].
  apply Hgood, good_fail.
Qed.

Lemma good_DiscardStatement_parse N : good N true DiscardStatement_parse.
Proof. unfold DiscardStatement_parse. good. Qed.

Lemma good_DropStatement_parse N : good N true DropStatement_parse.
Proof. unfold DropStatement_parse, parse_drop_type. good. Qed.

Lemma good_Insert_parse N : N <= L -> good N true Insert_parse.
Proof. intros. unfold Insert_parse. good. Qed.

Lemma good_Show_parse N : good N true Show_parse.
Proof. unfold Show_parse. good. Qed.

Lemma good_SetVariable_parse N : N <= L -> good N true SetVariable_parse.
Proof. intros. unfold SetVariable_parse. good. Qed.

Lemma good_ResetVariable_parse N : good N true ResetVariable_parse.
Proof. unfold ResetVariable_parse. good. Qed.

Lemma good_parse_explain_format N : good N false parse_explain_format.
Proof. unfold parse_explain_format. good. Qed.
#[local] Hint Resolve good_Attach_parse good_Detach_parse good_CopyTo_parse good_parse_create
  good_DiscardStatement_parse good_DropStatement_parse good_Insert_parse good_Show_parse good_SetVariable_parse
  good_ResetVariable_parse good_parse_explain_format : parse.

Lemma good_parse_statement fuel N : N <= fuel -> N <= L -> good N true (parse_statement fuel).
Proof.
  revert N. induction fuel as [|fuel IH]; intros N HN HL; [intros p Hp Hl; lia|].
  simpl. unfold statement_for_keyword, ExplainNode_parse. good.
Qed.
#[local] Hint Resolve good_parse_statement : parse.

Lemma good_skip_semicolons fuel N : N <= fuel -> good N false (skip_semicolons fuel).
Proof.
  revert N. induction fuel as [|fuel IH]; intros N HN; [intros p Hp Hl; lia|]. simpl. good.
Qed.
#[local] Hint Resolve good_skip_semicolons : parse.

Lemma good_statements_loop fuel N d stmts :
  N <= fuel -> N <= L -> good N false (statements_loop fuel d stmts).
Proof.
  revert N d stmts. induction fuel as [|fuel IH]; intros N d stmts HN HL; [intros p Hp Hl; lia|].
  simpl. good.
Qed.
#[local] Hint Resolve good_statements_loop : parse.

Lemma good_parse_statements N : N <= L -> good N false parse_statements.
Proof. intros. unfold parse_statements. good. Qed.

End Good.

(** ** The knot *)

(** With [n] nested calls the parsers are good for fewer than [n] tokens. *)
Lemma good_parsers `{AsciiOrder} n :
  let K := parsers n in
  (forall N prec, N <= n -> good N true (Expr_parse_subexpr prec))
  /\ (forall N, N <= n -> good N true QueryNode_parse)
  /\ (forall N prec, N <= n -> good N true (QueryNodeBody_parse_inner prec))
  /\ (forall N, N <= n -> good N false FromNode_parse).
Proof.
  induction n as [|n (HE & HQ & HI & HF)].
  { split_and!; intros; intros p Hp Hl; lia. }
  split_and!; intros; simpl.
  - by apply good_parse_subexpr with n.
  - by apply good_parse_query with n.
  - by apply good_parse_inner with n.
  - by apply good_parse_from with n.
Qed.

Lemma tokenized_ok `{Unicode} `{AsciiOrder} i toks q : tokenized i toks q -> Forall token_ok toks.
Proof.
  induction 1 as [|i t toks text rest Hi Hne Hsp _ IH]; constructor; [|done].
  unfold token_ok. by destruct (token t); simpl in *; destruct_and?.
Qed.

(** C13. Parsing ends and does not panic, whatever the query: the result is a list of
    statements or an error.  In particular the bound on nested calls and the
    bounds on loops of the model are never reached. *)
Theorem parse_total `{Unicode} `{AsciiOrder} q : is_panic (parse q) = false.
Proof.
  unfold parse. pose proof (tokenize_reads q) as Htok. destruct (tokenize q) as [toks|e|w]; simpl; [|done..].
  destruct (good_parsers (S (length toks))) as (HE & HQ & HI & HF).
  set (p := with_tokens toks q).
  assert (Hlen : length (rest p) <= length toks) by apply rest_le.
  pose proof (good_parse_statements (S (length toks)) HE HQ (S (length toks)) (Nat.le_refl _) p
    (tokenized_ok _ _ _ Htok) ltac:(lia)) as Hgood.
  destruct (parse_statements p) as [[stmts|e|w] p']; done.
Qed.
