(* ===== verification/Grammar.v ===== *)
(** * A grammar of SQL expressions

    The grammar that the expression parser implements, as relations: [Gexpr p e ts r]
    says that in front of the tokens [r] the expression [e] is written [ts], with
    all its outermost infix operators binding stronger than [p].  White space and
    comments do not appear.  What follows matters in two ways: an operand ends
    where an operator of a precedence not above its own follows ([iprec]), and some
    constructs end only where no optional part of theirs can follow. *)
From S2P Require Import Prelude Keywords Tokenizer SqlAst SqlParser ExprParser.
Open Scope Z_scope.

Abbreviation tokens := (list Token.t) (only parsing).

Definition token_keyword (t : Token.t) : option Keyword.t :=
  match t with Token.Word w => word_keyword w | _ => None end.

(** The precedence of what follows, as [get_infix_precedence] finds it. *)
Definition iprec (ts : tokens) : Z :=
  match ts with
  | [] => 0
  | t :: ts' => infix_precedence t (head ts' ≫= token_keyword)
  end.

(** What does not follow. *)
Definition not_next (t : Token.t) (r : tokens) : Prop := head r <> Some t.
Definition not_kw (kw : Keyword.t) (r : tokens) : Prop := head r ≫= token_keyword <> Some kw.
Definition not_ends (r : tokens) : Prop :=
  match r with [] => False | t :: _ => ends_list t = false end.

(** Not the start of a subquery. *)
Definition not_query (r : tokens) : Prop :=
  match head r ≫= token_keyword with
  | Some (Keyword.SELECT | Keyword.WITH | Keyword.VALUES) => False
  | _ => True
  end.

(** ** Data types *)

Definition simple_datatype (kw : Keyword.t) : option DataType :=
  match kw with
  | Keyword.VARCHAR | Keyword.TEXT | Keyword.STRING => Some (DataType_Varchar None)
  | Keyword.BINARY | Keyword.BLOB => Some (DataType_Binary None)
  | Keyword.TINYINT | Keyword.INT1 => Some DataType_TinyInt
  | Keyword.SMALLINT | Keyword.INT2 => Some DataType_SmallInt
  | Keyword.INT | Keyword.INTEGER | Keyword.INT4 => Some DataType_Integer
  | Keyword.BIGINT | Keyword.INT8 => Some DataType_BigInt
  | Keyword.UTINYINT | Keyword.UINT1 => Some DataType_UnsignedTinyInt
  | Keyword.USMALLINT | Keyword.UINT2 => Some DataType_UnsignedSmallInt
  | Keyword.UINT | Keyword.UINT4 => Some DataType_UnsignedInt
  | Keyword.UBIGINT | Keyword.UINT8 => Some DataType_UnsignedBigInt
  | Keyword.HALF | Keyword.FLOAT2 => Some DataType_Half
  | Keyword.REAL | Keyword.FLOAT | Keyword.FLOAT4 => Some DataType_Real
  | Keyword.DOUBLE | Keyword.FLOAT8 => Some DataType_Double
  | Keyword.BOOL | Keyword.BOOLEAN => Some DataType_Bool
  | Keyword.DATE => Some DataType_Date
  | Keyword.TIMESTAMP => Some DataType_Timestamp
  | Keyword.INTERVAL => Some DataType_Interval
  | _ => None
  end.

Definition is_decimal (kw : Keyword.t) : bool :=
  match kw with Keyword.DECIMAL | Keyword.NUMERIC => true | _ => false end.

(** An integer literal of a precision or a scale. *)
Inductive Gint : Z -> tokens -> Prop :=
| Gint_pos s v : parse_i64 s = Some v -> Gint v [Token.Number s]
| Gint_neg s v : parse_i64 s = Some v -> v <> i64_min -> Gint (- v) [Token.Minus; Token.Number s].

Inductive Gdatatype : DataType -> tokens -> tokens -> Prop :=
| Gdt_simple kw w dt r :
    word_keyword w = Some kw -> simple_datatype kw = Some dt -> Gdatatype dt [Token.Word w] r
| Gdt_decimal kw w r :
    word_keyword w = Some kw -> is_decimal kw = true -> not_next Token.LeftParen r ->
    Gdatatype (DataType_Decimal None None) [Token.Word w] r
| Gdt_prec kw w v ts r :
    word_keyword w = Some kw -> is_decimal kw = true -> Gint v ts ->
    Gdatatype (DataType_Decimal (Some v) None)
      (Token.Word w :: Token.LeftParen :: ts ++ [Token.RightParen]) r
| Gdt_scale kw w v ts v' ts' r :
    word_keyword w = Some kw -> is_decimal kw = true -> Gint v ts -> Gint v' ts' ->
    Gdatatype (DataType_Decimal (Some v) (Some v'))
      (Token.Word w :: Token.LeftParen :: ts ++ Token.Comma :: ts' ++ [Token.RightParen]) r.

(** A word that is read as an identifier in an expression: not a keyword that
    starts an expression of its own, and not a data type. *)
Definition plain_keyword (kw : Keyword.t) : bool :=
  match kw with
  | Keyword.TRUE | Keyword.FALSE | Keyword.NULL | Keyword.EXISTS | Keyword.NOT | Keyword.CAST | Keyword.CASE
  | Keyword.POSITION | Keyword.SUBSTRING | Keyword.EXTRACT | Keyword.COLUMNS => false
  | _ => negb (is_decimal kw) && bool_decide (simple_datatype kw = None)
  end.

Definition plain_word (w : Word) : bool :=
  match word_keyword w with Some kw => plain_keyword kw | None => true end.

(** The parts of a compound identifier after the first. *)
Inductive Gpath : list Ident -> tokens -> Prop :=
| Gpath_nil : Gpath [] []
| Gpath_cons w ids ts : Gpath ids ts -> Gpath (Ident_from w :: ids) (Token.Period :: Token.Word w :: ts).

Definition path_expr (ids : list Ident) : Expr :=
  match ids with [i] => Expr_Ident i | _ => Expr_CompoundIdent ids end.

(** One or more items with commas between them. *)
Inductive Gcomma {A} (R : A -> tokens -> tokens -> Prop) : list A -> tokens -> tokens -> Prop :=
| Gcomma_one a ts r : R a ts r -> not_next Token.Comma r -> Gcomma R [a] ts r
| Gcomma_more a l ts ts' r :
    R a ts (Token.Comma :: ts' ++ r) -> not_ends (ts' ++ r) -> Gcomma R l ts' r ->
    Gcomma R (a :: l) (ts ++ Token.Comma :: ts') r.

(** Keywords that may be absent. *)
Inductive Gflag (kw : Keyword.t) : bool -> tokens -> tokens -> Prop :=
| Gflag_absent r : not_kw kw r -> Gflag kw false [] r
| Gflag_present t r : token_keyword t = Some kw -> Gflag kw true [t] r.

(** The operators in front of an operand. *)
Definition unary_op (t : Token.t) : option UnaryOperator :=
  match t with
  | Token.Minus => Some UnaryOperator_Minus
  | Token.Plus => Some UnaryOperator_Plus
  | Token.Tilde => Some UnaryOperator_BitwiseNot
  | _ => None
  end.

(** The unit of an interval. *)
Definition interval_unit (kw : Keyword.t) : option IntervalUnit.t :=
  match kw with
  | Keyword.MILLENIUM | Keyword.MILLENIUMS => Some IntervalUnit.Millenium
  | Keyword.CENTURY | Keyword.CENTURIES => Some IntervalUnit.Century
  | Keyword.DECADE | Keyword.DECADES => Some IntervalUnit.Decade
  | Keyword.YEAR | Keyword.YEARS => Some IntervalUnit.Year
  | Keyword.MONTH | Keyword.MONTHS => Some IntervalUnit.Month
  | Keyword.WEEK | Keyword.WEEKS => Some IntervalUnit.Week
  | Keyword.DAY | Keyword.DAYS => Some IntervalUnit.Day
  | Keyword.HOUR | Keyword.HOURS => Some IntervalUnit.Hour
  | Keyword.MINUTE | Keyword.MINUTES => Some IntervalUnit.Minute
  | Keyword.SECOND | Keyword.SECONDS => Some IntervalUnit.Second
  | Keyword.MILLISECOND | Keyword.MILLISECONDS => Some IntervalUnit.Millisecond
  | Keyword.MICROSECOND | Keyword.MICROSECONDS => Some IntervalUnit.Microsecond
  | Keyword.NANOSECOND | Keyword.NANOSECONDS => Some IntervalUnit.Nanosecond
  | _ => None
  end.

(** ** Expressions *)

Inductive Gexpr : Z -> Expr -> tokens -> tokens -> Prop :=
| G_prefix p e ts r : Gprefix e ts r -> Gexpr p e ts r
| G_infix p l e ts ts' r :
    Gexpr p l ts (ts' ++ r) -> p < iprec (ts' ++ r) -> Ginfix (iprec (ts' ++ r)) l e ts' r ->
    Gexpr p e (ts ++ ts') r

(** An expression that starts with a token of its own. *)
with Gprefix : Expr -> tokens -> tokens -> Prop :=
| Gnumber s r : Gprefix (Expr_Literal (Literal_Number s)) [Token.Number s] r
| Gstring s r : Gprefix (Expr_Literal (Literal_SingleQuotedString s)) [Token.SingleQuotedString s] r
| Gtrue t r : token_keyword t = Some Keyword.TRUE -> Gprefix (Expr_Literal (Literal_Boolean true)) [t] r
| Gfalse t r : token_keyword t = Some Keyword.FALSE -> Gprefix (Expr_Literal (Literal_Boolean false)) [t] r
| Gnull t r : token_keyword t = Some Keyword.NULL -> Gprefix (Expr_Literal Literal_Null) [t] r
| Gident w ids ts r :
    plain_word w = true -> Gpath ids ts -> not_next Token.Period r -> not_next Token.LeftParen r ->
    Gprefix (path_expr (Ident_from w :: ids)) (Token.Word w :: ts) r
| Gwildcard w ids ts r :
    plain_word w = true -> Gpath ids ts -> not_next Token.Period r -> not_next Token.LeftParen r ->
    Gprefix (Expr_QualifiedWildcard (Ident_from w :: ids)) (Token.Word w :: ts ++ [Token.Period; Token.Mul]) r
| Gcall w ids ts distinct dts args star ats filter fts over ots r :
    plain_word w = true -> Gpath ids ts ->
    Gflag Keyword.DISTINCT distinct dts (ats ++ Token.RightParen :: fts ++ ots ++ r) ->
    Gargs args star ats (Token.RightParen :: fts ++ ots ++ r) ->
    Gfilter filter fts (ots ++ r) ->
    Gover over ots r ->
    Gprefix (Expr_Function {| function_reference := Ident_from w :: ids; function_distinct := distinct;
                              function_star := star; function_args := args;
                              function_filter := filter; function_over := over |})
      (Token.Word w :: ts ++ Token.LeftParen :: dts ++ ats ++ Token.RightParen :: fts ++ ots) r
| Gempty_array r : Gprefix (Expr_Array []) [Token.LeftBracket; Token.RightBracket] r
| Garray es ts r :
    not_next Token.RightBracket ts ->
    Gcomma (fun e ts r => Gexpr 0 e ts r /\ iprec r <= 0) es ts (Token.RightBracket :: r) ->
    Gprefix (Expr_Array es) (Token.LeftBracket :: ts ++ [Token.RightBracket]) r
| Gcolumns t s r :
    token_keyword t = Some Keyword.COLUMNS ->
    Gprefix (Expr_Columns (ColumnsExpr_Pattern s))
      [t; Token.LeftParen; Token.SingleQuotedString s; Token.RightParen] r
| Gnested e ts r :
    not_query ts -> Gexpr 0 e ts (Token.RightParen :: r) ->
    Gprefix (Expr_Nested e) (Token.LeftParen :: ts ++ [Token.RightParen]) r
| Gtuple e e' es ts r :
    not_query ts ->
    Gcomma (fun e ts r => Gexpr 0 e ts r /\ iprec r <= 0) (e :: e' :: es) ts (Token.RightParen :: r) ->
    Gprefix (Expr_Tuple (e :: e' :: es)) (Token.LeftParen :: ts ++ [Token.RightParen]) r
| Gunary t op e ts r :
    unary_op t = Some op -> Gexpr PREC_UNARY_MINUS e ts r -> iprec r <= PREC_UNARY_MINUS ->
    Gprefix (Expr_UnaryExpr op e) (t :: ts) r
| Gnot t e ts r :
    token_keyword t = Some Keyword.NOT -> not_kw Keyword.EXISTS (ts ++ r) ->
    Gexpr PREC_NOT e ts r -> iprec r <= PREC_NOT ->
    Gprefix (Expr_UnaryExpr UnaryOperator_Not e) (t :: ts) r
| Gcast_call t a dt dts e ts r :
    token_keyword t = Some Keyword.CAST -> token_keyword a = Some Keyword.AS ->
    Gexpr 0 e ts (a :: dts ++ Token.RightParen :: r) -> Gdatatype dt dts (Token.RightParen :: r) ->
    Gprefix (Expr_Cast dt e) (t :: Token.LeftParen :: ts ++ a :: dts ++ [Token.RightParen]) r
| Gcase_plain c w conds ress ts els ets n r :
    token_keyword c = Some Keyword.CASE -> token_keyword w = Some Keyword.WHEN ->
    token_keyword n = Some Keyword.END ->
    Gbranches conds ress ts (ets ++ n :: r) -> Gelse els ets (n :: r) ->
    Gprefix (Expr_Case None conds ress els) (c :: w :: ts ++ ets ++ [n]) r
| Gcase_of c e ts0 w conds ress ts els ets n r :
    token_keyword c = Some Keyword.CASE -> token_keyword w = Some Keyword.WHEN ->
    token_keyword n = Some Keyword.END -> not_kw Keyword.WHEN ts0 ->
    Gexpr 0 e ts0 (w :: ts ++ ets ++ n :: r) ->
    Gbranches conds ress ts (ets ++ n :: r) -> Gelse els ets (n :: r) ->
    Gprefix (Expr_Case (Some e) conds ress els) (c :: ts0 ++ w :: ts ++ ets ++ [n]) r
| Gsubstring t e ts sep e' ts' r :
    token_keyword t = Some Keyword.SUBSTRING -> sep = Token.Comma \/ token_keyword sep = Some Keyword.FROM ->
    Gexpr 0 e ts (sep :: ts' ++ Token.RightParen :: r) -> Gexpr 0 e' ts' (Token.RightParen :: r) ->
    Gprefix (Expr_Substring e e' None) (t :: Token.LeftParen :: ts ++ sep :: ts' ++ [Token.RightParen]) r
| Gsubstring_for t e ts sep e' ts' sep' e'' ts'' r :
    token_keyword t = Some Keyword.SUBSTRING -> sep = Token.Comma \/ token_keyword sep = Some Keyword.FROM ->
    sep' = Token.Comma \/ token_keyword sep' = Some Keyword.FOR ->
    Gexpr 0 e ts (sep :: ts' ++ sep' :: ts'' ++ Token.RightParen :: r) ->
    Gexpr 0 e' ts' (sep' :: ts'' ++ Token.RightParen :: r) -> Gexpr 0 e'' ts'' (Token.RightParen :: r) ->
    Gprefix (Expr_Substring e e' (Some e''))
      (t :: Token.LeftParen :: ts ++ sep :: ts' ++ sep' :: ts'' ++ [Token.RightParen]) r
| Gposition t i e ts e' ts' r :
    token_keyword t = Some Keyword.POSITION -> token_keyword i = Some Keyword.IN ->
    Gexpr PREC_CONTAINMENT e ts (i :: ts' ++ Token.RightParen :: r) -> Gexpr 0 e' ts' (Token.RightParen :: r) ->
    Gprefix (Expr_Position e e') (t :: Token.LeftParen :: ts ++ i :: ts' ++ [Token.RightParen]) r
| Gextract t d kw dp f e ts r :
    token_keyword t = Some Keyword.EXTRACT -> token_keyword d = Some kw -> DatePart_try_from_kw kw = Ok dp ->
    token_keyword f = Some Keyword.FROM -> Gexpr 0 e ts (Token.RightParen :: r) ->
    Gprefix (Expr_Extract dp e) (t :: Token.LeftParen :: d :: f :: ts ++ [Token.RightParen]) r
| Gtyped dt dts s r :
    dt <> DataType_Interval -> Gdatatype dt dts (Token.SingleQuotedString s :: r) ->
    Gprefix (Expr_TypedString dt s) (dts ++ [Token.SingleQuotedString s]) r
| Ginterval t e ts r :
    token_keyword t = Some Keyword.INTERVAL -> Gexpr PREC_CAST e ts r -> iprec r <= PREC_CAST ->
    (head r ≫= token_keyword) ≫= interval_unit = None ->
    Gprefix (Expr_Interval {| interval_value := e; interval_leading := None; interval_trailing := None |}) (t :: ts) r
| Ginterval_unit t e ts u kw unit r :
    token_keyword t = Some Keyword.INTERVAL -> Gexpr PREC_CAST e ts (u :: r) ->
    token_keyword u = Some kw -> interval_unit kw = Some unit ->
    Gprefix (Expr_Interval {| interval_value := e; interval_leading := None; interval_trailing := Some unit |})
      (t :: ts ++ [u]) r

(** An operator after the expression [l], with its other operands. *)
with Ginfix : Z -> Expr -> Expr -> tokens -> tokens -> Prop :=
| Gbinary q l t op e ts r :
    bin_op t = Some op ->
    not_kw Keyword.ALL (ts ++ r) -> not_kw Keyword.ANY (ts ++ r) -> not_kw Keyword.SOME (ts ++ r) ->
    Gexpr q e ts r -> iprec r <= q ->
    Ginfix q l (Expr_BinaryExpr l op e) (t :: ts) r
| Gis_null q l i negated nts n r :
    token_keyword i = Some Keyword.IS -> token_keyword n = Some Keyword.NULL ->
    Gflag Keyword.NOT negated nts (n :: r) ->
    Ginfix q l (Expr_IsNull l negated) (i :: nts ++ [n]) r
| Gis_bool q l i negated nts (val : bool) n r :
    token_keyword i = Some Keyword.IS -> token_keyword n = Some (if val then Keyword.TRUE else Keyword.FALSE) ->
    Gflag Keyword.NOT negated nts (n :: r) ->
    Ginfix q l (Expr_IsBool l val negated) (i :: nts ++ [n]) r
| Gis_distinct q l i (negated : bool) nts d f e ts r :
    token_keyword i = Some Keyword.IS -> token_keyword d = Some Keyword.DISTINCT ->
    token_keyword f = Some Keyword.FROM ->
    Gflag Keyword.NOT negated nts (d :: f :: ts ++ r) ->
    Gexpr PREC_CONTAINMENT e ts r -> iprec r <= PREC_CONTAINMENT ->
    Ginfix q l (Expr_BinaryExpr l (if negated then BinaryOperator.IsNotDistinctFrom
                                   else BinaryOperator.IsDistinctFrom) e) (i :: nts ++ d :: f :: ts) r
| Gin_list q l negated nts i es ts r :
    Gflag Keyword.NOT negated nts (i :: Token.LeftParen :: ts ++ Token.RightParen :: r) ->
    token_keyword i = Some Keyword.IN -> not_query ts ->
    Gcomma (fun e ts r => Gexpr 0 e ts r /\ iprec r <= 0) es ts (Token.RightParen :: r) ->
    Ginfix q l (Expr_InList negated l es) (nts ++ i :: Token.LeftParen :: ts ++ [Token.RightParen]) r
| Glike q l negated nts (case_insensitive : bool) i e ts r :
    Gflag Keyword.NOT negated nts (i :: ts ++ r) ->
    token_keyword i = Some (if case_insensitive then Keyword.ILIKE else Keyword.LIKE) ->
    Gexpr PREC_CONTAINMENT e ts r -> iprec r <= PREC_CONTAINMENT ->
    Ginfix q l (Expr_Like l e negated case_insensitive) (nts ++ i :: ts) r
| Gbetween q l negated nts b low ts a high ts' r :
    Gflag Keyword.NOT negated nts (b :: ts ++ a :: ts' ++ r) ->
    token_keyword b = Some Keyword.BETWEEN -> token_keyword a = Some Keyword.AND ->
    Gexpr PREC_CONTAINMENT low ts (a :: ts' ++ r) ->
    Gexpr PREC_CONTAINMENT high ts' r -> iprec r <= PREC_CONTAINMENT ->
    Ginfix q l (Expr_Between negated l low high) (nts ++ b :: ts ++ a :: ts') r
| Gindex q l e ts r :
    not_next Token.Colon ts -> Gexpr 0 e ts (Token.RightBracket :: r) ->
    Ginfix q l (Expr_ArraySubscript l (ArraySubscript_Index e)) (Token.LeftBracket :: ts ++ [Token.RightBracket]) r
| Gslice q l lower upper ts r :
    Gbounds lower upper ts (Token.RightBracket :: r) ->
    Ginfix q l (Expr_ArraySubscript l (ArraySubscript_Slice lower upper None))
      (Token.LeftBracket :: ts ++ [Token.RightBracket]) r
| Gcast q l dt dts r :
    Gdatatype dt dts r -> Ginfix q l (Expr_Cast dt l) (Token.DoubleColon :: dts) r

(** The bounds of a slice. *)
with Gbounds : option Expr -> option Expr -> tokens -> tokens -> Prop :=
| Gbounds_none r : Gbounds None None [Token.Colon] r
| Gbounds_lower e ts r :
    not_next Token.Colon ts -> Gexpr 0 e ts (Token.Colon :: r) -> Gbounds (Some e) None (ts ++ [Token.Colon]) r
| Gbounds_upper e ts r :
    not_next Token.RightBracket ts -> Gexpr 0 e ts r -> Gbounds None (Some e) (Token.Colon :: ts) r
| Gbounds_both e ts e' ts' r :
    not_next Token.Colon ts -> not_next Token.RightBracket ts' ->
    Gexpr 0 e ts (Token.Colon :: ts' ++ r) -> Gexpr 0 e' ts' r ->
    Gbounds (Some e) (Some e') (ts ++ Token.Colon :: ts') r

(** The arguments of a call. *)
with Gargs : list (FunctionArg Expr) -> bool -> tokens -> tokens -> Prop :=
| Gargs_none r : Gargs [] false [] r
| Gargs_star r : Gargs [] true [Token.Mul] r
| Gargs_some args ts r :
    not_next Token.RightParen ts -> not_next Token.Mul ts ->
    Gcomma Garg args ts r -> Gargs args false ts r

with Garg : FunctionArg Expr -> tokens -> tokens -> Prop :=
| Garg_named w a e ts r :
    a = Token.RightArrow \/ a = Token.Eq -> Gexpr 0 e ts r -> iprec r <= 0 ->
    Garg (FunctionArg_Named (Ident_from w) e) (Token.Word w :: a :: ts) r
| Garg_unnamed e ts r :
    (ts ++ r) !! 1%nat <> Some Token.RightArrow -> (ts ++ r) !! 1%nat <> Some Token.Eq ->
    Gexpr 0 e ts r -> iprec r <= 0 ->
    Garg (FunctionArg_Unnamed e) ts r

with Gfilter : option Expr -> tokens -> tokens -> Prop :=
| Gfilter_none r : not_kw Keyword.FILTER r -> Gfilter None [] r
| Gfilter_some f w e ts r :
    token_keyword f = Some Keyword.FILTER -> token_keyword w = Some Keyword.WHERE ->
    Gexpr 0 e ts (Token.RightParen :: r) ->
    Gfilter (Some e) (f :: Token.LeftParen :: w :: ts ++ [Token.RightParen]) r

(** OVER with a named, an empty or a PARTITION BY window. *)
with Gover : option (WindowSpec Expr) -> tokens -> tokens -> Prop :=
| Gover_none r : not_kw Keyword.OVER r -> Gover None [] r
| Gover_named o w r :
    token_keyword o = Some Keyword.OVER -> Gover (Some (WindowSpec_Named (Ident_from w))) [o; Token.Word w] r
| Gover_empty o r :
    token_keyword o = Some Keyword.OVER ->
    Gover (Some (WindowSpec_Definition WindowDefinition_default)) [o; Token.LeftParen; Token.RightParen] r
| Gover_partition o p b es ts r :
    token_keyword o = Some Keyword.OVER -> token_keyword p = Some Keyword.PARTITION ->
    token_keyword b = Some Keyword.BY ->
    Gcomma (fun e ts r => Gexpr 0 e ts r /\ iprec r <= 0) es ts (Token.RightParen :: r) ->
    Gover (Some (WindowSpec_Definition {| window_existing := None; window_partition_by := es;
                                          window_order_by := []; window_frame := None |}))
      (o :: Token.LeftParen :: p :: b :: ts ++ [Token.RightParen]) r

(** WHEN and THEN, after the first WHEN. *)
with Gbranches : list Expr -> list Expr -> tokens -> tokens -> Prop :=
| Gbranches_one c ts t e ts' r :
    token_keyword t = Some Keyword.THEN -> Gexpr 0 c ts (t :: ts' ++ r) ->
    Gexpr 0 e ts' r -> iprec r <= 0 -> not_kw Keyword.WHEN r ->
    Gbranches [c] [e] (ts ++ t :: ts') r
| Gbranches_more c ts t e ts' w conds ress ts'' r :
    token_keyword t = Some Keyword.THEN -> token_keyword w = Some Keyword.WHEN ->
    Gexpr 0 c ts (t :: ts' ++ w :: ts'' ++ r) -> Gexpr 0 e ts' (w :: ts'' ++ r) ->
    Gbranches conds ress ts'' r ->
    Gbranches (c :: conds) (e :: ress) (ts ++ t :: ts' ++ w :: ts'') r

with Gelse : option Expr -> tokens -> tokens -> Prop :=
| Gelse_none r : not_kw Keyword.ELSE r -> Gelse None [] r
| Gelse_some l e ts r :
    token_keyword l = Some Keyword.ELSE -> Gexpr 0 e ts r -> iprec r <= 0 -> Gelse (Some e) (l :: ts) r.
