(* ===== verification/ParserComplete.v ===== *)
(** * The expression parser implements the grammar

    A second program logic: [yields m ts a r] says that a parser in front of the
    tokens [ts] returns [a] and leaves [r], whatever white space lies between
    them. *)
From S2P Require Import Prelude Keywords Tokenizer SqlAst SqlParser ExprParser QueryParser ParserTotal Grammar.
Open Scope Z_scope.

(** The tokens left, without their locations. *)
Definition left_tokens (p : Parser) : tokens := token <$> rest p.

Definition yields {A} (m : P A) (ts : tokens) (a : A) (r : tokens) : Prop :=
  forall p, left_tokens p = ts ->
    exists p', m p = (Ok a, p') /\ left_tokens p' = r /\ toks p' = toks p /\ sql p' = sql p.

(** The parser refuses the tokens. *)
Definition refuses {A} (m : P A) (ts : tokens) : Prop :=
  forall p, left_tokens p = ts -> exists e p', m p = (Err e, p') /\ toks p' = toks p /\ sql p' = sql p.

Lemma yields_ret {A} ts (a : A) : yields (mret a) ts a ts.
Proof. intros p Hp. by exists p. Qed.

Lemma yields_bind {A B} (m : P A) (k : A -> P B) ts a ts' b r :
  yields m ts a ts' -> yields (k a) ts' b r -> yields (m ≫= k) ts b r.
Proof.
  intros Hm Hk p Hp. destruct (Hm p Hp) as (p' & E & Hp' & Ht & Hq).
  destruct (Hk p' Hp') as (p'' & E' & Hp'' & Ht' & Hq').
  exists p''. unfold mbind, M_bind. rewrite E. split_and!; [done..|congruence|congruence].
Qed.

Lemma refuses_fail {A} ts e : refuses (fail e : P A) ts.
Proof. intros p Hp. by exists e, p. Qed.

Lemma refuses_bind {A B} (m : P A) (k : A -> P B) ts a ts' :
  yields m ts a ts' -> refuses (k a) ts' -> refuses (m ≫= k) ts.
Proof.
  intros Hm Hk p Hp. destruct (Hm p Hp) as (p' & E & Hp' & Ht & Hq).
  destruct (Hk p' Hp') as (e & p'' & E' & Ht' & Hq').
  exists e, p''. unfold mbind, M_bind. rewrite E. split_and!; [done|congruence..].
Qed.

Lemma refuses_bind_first {A B} (m : P A) (k : A -> P B) ts : refuses m ts -> refuses (m ≫= k) ts.
Proof. intros Hm p Hp. destruct (Hm p Hp) as (e & p' & E & H'). exists e, p'. unfold mbind, M_bind. by rewrite E. Qed.

(** ** Primitives *)

Lemma left_tokens_next p :
  exists p', next p = (Ok (head (rest p)), p') /\ left_tokens p' = tail (left_tokens p)
             /\ toks p' = toks p /\ sql p' = sql p.
Proof.
  destruct (next_rest p) as (p' & E & Hr & Ht & Hq). exists p'. split_and!; [done| |done..].
  unfold left_tokens. rewrite Hr. by destruct (rest p).
Qed.

(** The next token, whatever its location. *)
Lemma yields_next {B} (k : option TokenWithLocation -> P B) t ts b r :
  (forall tl, token tl = t -> yields (k (Some tl)) ts b r) -> yields (next ≫= k) (t :: ts) b r.
Proof.
  intros Hk p Hp. destruct (left_tokens_next p) as (p' & E & Hp' & Ht & Hq).
  unfold left_tokens in Hp. destruct (rest p) as [|tl tls] eqn:Hrest; [done|]. injection Hp as Htl Hts.
  destruct (Hk tl Htl p') as (p'' & E' & Hp'' & Ht' & Hq').
  { rewrite Hp'. unfold left_tokens. rewrite Hrest. done. }
  exists p''. unfold mbind, M_bind. rewrite E. simpl. split_and!; [done..|congruence|congruence].
Qed.

Lemma refuses_next {B} (k : option TokenWithLocation -> P B) t ts :
  (forall tl, token tl = t -> refuses (k (Some tl)) ts) -> refuses (next ≫= k) (t :: ts).
Proof.
  intros Hk p Hp. destruct (left_tokens_next p) as (p' & E & Hp' & Ht & Hq).
  unfold left_tokens in Hp. destruct (rest p) as [|tl tls] eqn:Hrest; [done|]. injection Hp as Htl Hts.
  destruct (Hk tl Htl p') as (e & p'' & E' & Ht' & Hq').
  { rewrite Hp'. unfold left_tokens. rewrite Hrest. done. }
  exists e, p''. unfold mbind, M_bind. rewrite E. simpl. split_and!; [done|congruence..].
Qed.

Lemma yields_peek_nth {B} (k : option TokenWithLocation -> P B) n ts b r :
  (forall o, token <$> o = ts !! n -> yields (k o) ts b r) -> yields (peek_nth n ≫= k) ts b r.
Proof.
  intros Hk p Hp. unfold mbind, M_bind. rewrite peek_nth_rest. apply Hk; [|done].
  rewrite <- Hp. unfold left_tokens. by rewrite list_lookup_fmap.
Qed.

Lemma lookup_0_head {A} (l : list A) : l !! 0%nat = head l.
Proof. by destruct l. Qed.

Lemma yields_peek_token ts : yields peek_token ts (head ts) ts.
Proof.
  intros p Hp. exists p. rewrite peek_token_rest. split_and!; [|done..]. rewrite <- Hp.
  unfold left_tokens. by destruct (rest p).
Qed.

Lemma keyword_token tl : keyword tl = token_keyword (token tl).
Proof. done. Qed.

Lemma yields_peek_keyword ts : yields peek_keyword ts (head ts ≫= token_keyword) ts.
Proof.
  apply yields_peek_nth. intros o Ho. rewrite lookup_0_head in Ho.
  replace (head ts ≫= token_keyword) with (o ≫= keyword); [apply yields_ret|].
  rewrite <- Ho. by destruct o.
Qed.

Lemma is_keyword_token tl kw : is_keyword tl kw = bool_decide (token_keyword (token tl) = Some kw).
Proof.
  unfold is_keyword, token_keyword. destruct (token tl); try done. destruct (word_keyword w); [|done].
  apply bool_decide_ext. naive_solver.
Qed.

Lemma yields_reset {B} (m : P B) p0 p ts b r :
  left_tokens p0 = ts -> toks p = toks p0 -> sql p = sql p0 -> yields m ts b r ->
  exists p', (_ ← reset_pos (pos p0); m) p = (Ok b, p') /\ left_tokens p' = r /\ toks p' = toks p0 /\ sql p' = sql p0.
Proof.
  intros Hp0 Ht Hq Hm. destruct (Hm p0 Hp0) as (p' & E & Hp' & Ht' & Hq').
  exists p'. unfold mbind, M_bind, reset_pos. by rewrite set_pos_pos, E.
Qed.

(** A sequence of keywords, present or not. *)
Lemma yields_keyword_sequence kws ks r :
  Forall2 (fun kw k => token_keyword k = Some kw) kws ks ->
  yields (parse_keyword_sequence kws) (ks ++ r) true r.
Proof.
  intros Hks. assert (Hloop : forall idx, yields (parse_keyword_sequence_loop idx kws) (ks ++ r) true r).
  { intros idx. induction Hks as [|kw k kws ks Hk _ IH]; simpl; [apply yields_ret|].
    apply yields_next. intros tl <-. by rewrite is_keyword_token, bool_decide_true. }
  intros p Hp. unfold parse_keyword_sequence, get_pos, mbind, M_bind. by apply Hloop.
Qed.

Lemma yields_no_keyword_sequence kw kws ts :
  not_kw kw ts -> yields (parse_keyword_sequence (kw :: kws)) ts false ts.
Proof.
  intros Hk p Hp. unfold parse_keyword_sequence, get_pos, mbind at 1, M_bind at 1. cbv beta iota. simpl.
  destruct (left_tokens_next p) as (p' & E & Hp' & Ht & Hq).
  unfold mbind at 1, M_bind at 1. rewrite E.
  assert (Hback : exists p'', (_ ← reset_pos (pos p); mret false) p' = (Ok false, p'')
            /\ left_tokens p'' = ts /\ toks p'' = toks p /\ sql p'' = sql p)
    by (apply yields_reset with ts; [done..|apply yields_ret]).
  destruct (rest p) as [|tl tls] eqn:Hrest; simpl; [done|].
  rewrite is_keyword_token, bool_decide_false; [done|].
  unfold left_tokens in Hp. rewrite Hrest in Hp. by rewrite <- Hp in Hk.
Qed.

Lemma yields_keyword_true kw t ts : token_keyword t = Some kw -> yields (parse_keyword kw) (t :: ts) true ts.
Proof.
  intros Ht p Hp. rewrite parse_keyword_sequence_one. by apply (yields_keyword_sequence [kw] [t]); [repeat constructor|].
Qed.

Lemma yields_keyword_false kw ts : not_kw kw ts -> yields (parse_keyword kw) ts false ts.
Proof. intros Ht p Hp. rewrite parse_keyword_sequence_one. by apply yields_no_keyword_sequence. Qed.

Lemma yields_consume_true t ts : yields (consume_token t) (t :: ts) true ts.
Proof.
  unfold consume_token, peek. apply yields_peek_nth. intros [tl|] Ho; simpl in Ho; [|done].
  injection Ho as Ho. rewrite bool_decide_true by done.
  apply yields_next. intros. apply yields_ret.
Qed.

Lemma yields_consume_false t ts : not_next t ts -> yields (consume_token t) ts false ts.
Proof.
  intros Hn. unfold consume_token, peek. apply yields_peek_nth. intros o Ho. rewrite lookup_0_head in Ho.
  destruct o as [tl|]; simpl in Ho; [|apply yields_ret].
  rewrite bool_decide_false; [apply yields_ret|]. intros Ht. apply Hn. by rewrite <- Ho, Ht.
Qed.

Lemma yields_expect_token t ts : yields (expect_token t) (t :: ts) tt ts.
Proof. eapply yields_bind; [apply yields_consume_true|apply yields_ret]. Qed.

Lemma yields_expect_keyword kw t ts : token_keyword t = Some kw -> yields (expect_keyword kw) (t :: ts) tt ts.
Proof. intros. eapply yields_bind; [by apply yields_keyword_true|apply yields_ret]. Qed.

Lemma yields_next_keyword kw t ts : token_keyword t = Some kw -> yields next_keyword (t :: ts) kw ts.
Proof.
  intros Hkw. eapply yields_bind; [apply yields_peek_token|]. simpl. destruct t; try done. simpl in Hkw.
  rewrite Hkw. apply yields_next. intros. apply yields_ret.
Qed.

Lemma refuses_next_keyword ts : head ts ≫= token_keyword = None -> refuses next_keyword ts.
Proof.
  intros Hkw. eapply refuses_bind; [apply yields_peek_token|]. destruct ts as [|t ts]; [apply refuses_fail|].
  simpl in *. destruct t; try apply refuses_fail. simpl in Hkw. rewrite Hkw. apply refuses_fail.
Qed.

Lemma yields_one_of_none kws ts :
  Forall (fun kw => not_kw kw ts) kws -> ts <> [] -> yields (parse_one_of_keywords kws) ts None ts.
Proof.
  intros Hkws Hne p Hp. unfold parse_one_of_keywords, get_pos, mbind at 1, M_bind at 1. cbv beta iota.
  destruct (left_tokens_next p) as (p' & E & Hp' & Ht & Hq).
  unfold mbind at 1, M_bind at 1. rewrite E. unfold left_tokens in Hp.
  destruct (rest p) as [|tl tls] eqn:Hrest; simpl in *; [by subst|].
  destruct (list_find _ kws) as [[i kw]|] eqn:Hf.
  - apply list_find_Some in Hf as (Hi & Hkw & _). eapply Forall_lookup_1 in Hkws; [|done].
    exfalso. apply Hkws. by rewrite <- Hp.
  - apply yields_reset with ts; [|done..|apply yields_ret].
    unfold left_tokens. by rewrite Hrest.
Qed.

Lemma yields_maybe_some {A} (m : P A) ts a r : yields m ts a r -> yields (maybe_parse m) ts (Some a) r.
Proof.
  intros Hm p Hp. destruct (Hm p Hp) as (p' & E & H'). exists p'. unfold maybe_parse. by rewrite E.
Qed.

Lemma yields_maybe_none {A} (m : P A) ts : refuses m ts -> yields (maybe_parse m) ts None ts.
Proof.
  intros Hm p Hp. destruct (Hm p Hp) as (e & p' & E & Ht & Hq). exists p. unfold maybe_parse.
  rewrite E, set_pos_pos by done. done.
Qed.

Lemma yields_query_start_false ts : not_query ts -> yields is_query_node_start ts false ts.
Proof.
  intros Hq p Hp. exists p. unfold is_query_node_start. unfold not_query in Hq.
  destruct (head ts ≫= token_keyword) as [kw|] eqn:Hkw.
  - destruct ts as [|t ts]; [done|]. simpl in Hkw.
    destruct (yields_next_keyword kw t ts Hkw p Hp) as (p' & E & _ & Ht' & Hq'). rewrite E.
    rewrite set_pos_pos by done. split_and!; [|done..]. by destruct kw.
  - destruct (refuses_next_keyword ts Hkw p Hp) as (e & p' & E & Ht' & Hq'). rewrite E.
    by rewrite set_pos_pos.
Qed.

Lemma yields_loop_fuel {B} (k : nat -> P B) ts b r :
  (forall n, (length ts < n)%nat -> yields (k n) ts b r) -> yields (loop_fuel ≫= k) ts b r.
Proof.
  intros Hk p Hp. unfold loop_fuel, mbind, M_bind. apply Hk; [|done].
  pose proof (rest_le p). rewrite <- Hp. unfold left_tokens. rewrite length_fmap. lia.
Qed.

(** ** Branches *)

Lemma yields_if_keyword_true {A} kw t (yes no : P A) ts a r :
  token_keyword t = Some kw -> yields yes ts a r -> yields (if_keyword kw yes no) (t :: ts) a r.
Proof. intros. eapply yields_bind; [by apply yields_keyword_true|done]. Qed.

Lemma yields_if_keyword_false {A} kw (yes no : P A) ts a r :
  not_kw kw ts -> yields no ts a r -> yields (if_keyword kw yes no) ts a r.
Proof. intros. eapply yields_bind; [by apply yields_keyword_false|done]. Qed.

Lemma yields_if_keywords_true {A} kws ks (yes no : P A) ts a r :
  Forall2 (fun kw k => token_keyword k = Some kw) kws ks ->
  yields yes ts a r -> yields (if_keywords kws yes no) (ks ++ ts) a r.
Proof. intros. eapply yields_bind; [by apply yields_keyword_sequence|done]. Qed.

Lemma yields_if_keywords_false {A} kw kws (yes no : P A) ts a r :
  not_kw kw ts -> yields no ts a r -> yields (if_keywords (kw :: kws) yes no) ts a r.
Proof. intros. eapply yields_bind; [by apply yields_no_keyword_sequence|done]. Qed.

Lemma yields_if_token_true {A} t (yes no : P A) ts a r :
  yields yes ts a r -> yields (if_token t yes no) (t :: ts) a r.
Proof. intros. eapply yields_bind; [by apply yields_consume_true|done]. Qed.

Lemma yields_if_token_false {A} t (yes no : P A) ts a r :
  not_next t ts -> yields no ts a r -> yields (if_token t yes no) ts a r.
Proof. intros. eapply yields_bind; [by apply yields_consume_false|done]. Qed.

Lemma yields_flag kw b ts r : Gflag kw b ts r -> yields (parse_keyword kw) (ts ++ r) b r.
Proof. intros []; [by apply yields_keyword_false|by apply yields_keyword_true]. Qed.

(** ** Identifiers and types *)

Lemma yields_Ident w ts : yields Ident_parse (Token.Word w :: ts) (Ident_from w) ts.
Proof. apply yields_next. intros tl Htl. simpl. rewrite Htl. apply yields_ret. Qed.

Lemma yields_string_literal s ts : yields parse_string_literal (Token.SingleQuotedString s :: ts) s ts.
Proof. apply yields_next. intros tl Htl. simpl. rewrite Htl. apply yields_ret. Qed.

Lemma yields_int v ts r : Gint v ts -> yields parse_i64_literal (ts ++ r) v r.
Proof.
  intros [s v' Hv|s v' Hv Hmin]; apply yields_next; intros tl Htl; simpl; rewrite Htl.
  - rewrite Hv. apply yields_ret.
  - apply yields_next. intros tl' Htl'. simpl. rewrite Htl', Hv.
    unfold neg_i64. rewrite (proj2 (Z.eqb_neq v' i64_min)) by done. apply yields_ret.
Qed.

(** Normalises the tokens in front of a parser. *)
Ltac tokens := repeat (progress (simpl; rewrite <- ?app_assoc)).

Lemma yields_datatype dt ts r : Gdatatype dt ts r -> yields DataType_parse (ts ++ r) dt r.
Proof.
  intros HG. destruct HG as [kw w dt r Hw Hdt|kw w r Hw Hdec Hr|kw w v ts r Hw Hdec Hv|kw w v ts v' ts' r Hw Hdec Hv Hv'];
    apply yields_next; intros tl Htl; rewrite keyword_token, Htl; simpl; rewrite Hw.
  - destruct kw; simplify_eq/=; apply yields_ret.
  - assert (Hps : yields parse_precision_scale r (None, None) r)
      by (apply yields_if_token_false; [done|apply yields_ret]).
    destruct kw; simplify_eq/=; (eapply yields_bind; [apply Hps|apply yields_ret]).
  - assert (Hps : yields parse_precision_scale (Token.LeftParen :: (ts ++ [Token.RightParen]) ++ r) (Some v, None) r).
    { apply yields_if_token_true. tokens. eapply yields_bind; [eapply yields_int; eassumption|].
      eapply yields_bind; [by apply yields_consume_false|]. eapply yields_bind; [apply yields_ret|].
      eapply yields_bind; [apply yields_expect_token|apply yields_ret]. }
    destruct kw; simplify_eq/=; (eapply yields_bind; [apply Hps|apply yields_ret]).
  - assert (Hps : yields parse_precision_scale
      (Token.LeftParen :: (ts ++ Token.Comma :: ts' ++ [Token.RightParen]) ++ r) (Some v, Some v') r).
    { apply yields_if_token_true. tokens. eapply yields_bind; [eapply yields_int; eassumption|].
      eapply yields_bind; [apply yields_consume_true|].
      eapply yields_bind; [eapply yields_bind; [eapply yields_int; eassumption|apply yields_ret]|].
      eapply yields_bind; [apply yields_expect_token|apply yields_ret]. }
    destruct kw; simplify_eq/=; (eapply yields_bind; [apply Hps|apply yields_ret]).
Qed.

(** The keywords that start a data type. *)
Definition datatype_keyword (kw : Keyword.t) : bool := is_decimal kw || bool_decide (is_Some (simple_datatype kw)).

Lemma refuses_datatype t ts :
  match token_keyword t with Some kw => datatype_keyword kw = false | None => True end ->
  refuses DataType_parse (t :: ts).
Proof.
  intros Ht. apply refuses_next. intros tl Htl. rewrite keyword_token, Htl.
  destruct (token_keyword t) as [kw|]; [|apply refuses_fail].
  by destruct kw; try apply refuses_fail.
Qed.

(** ** Lists *)

Lemma yields_comma_loop {A} (R : A -> tokens -> tokens -> Prop) (f : P A) l ts r n acc :
  (forall a ts' r', (length ts' <= length ts)%nat -> R a ts' r' -> yields f (ts' ++ r') a r') ->
  Gcomma R l ts r -> (length ts < n)%nat -> yields (comma_separated_loop n f acc) (ts ++ r) (acc ++ l) r.
Proof.
  intros Hf HG. revert n acc. induction HG as [a ts r Ha Hr|a l ts ts' r Ha Hne HG IH]; intros n acc Hn;
    (destruct n as [|n]; [lia|]); simpl.
  - eapply yields_bind; [by apply Hf|]. eapply yields_bind; [by apply yields_consume_false|]. apply yields_ret.
  - tokens. rewrite length_app in Hn. simpl in Hn.
    eapply yields_bind; [apply Hf; [rewrite length_app; lia|done]|].
    eapply yields_bind; [apply yields_consume_true|]. simpl.
    eapply yields_bind; [apply yields_peek_token|].
    unfold not_ends in Hne. destruct (ts' ++ r) as [|t u] eqn:E; [done|]. simpl. rewrite Hne.
    rewrite (cons_middle a acc l), (app_assoc acc). apply IH; [|lia].
    intros a' ts'' r' Hlen. apply Hf. rewrite length_app. simpl. lia.
Qed.

Lemma yields_comma {A} (R : A -> tokens -> tokens -> Prop) (f : P A) l ts r :
  (forall a ts' r', (length ts' <= length ts)%nat -> R a ts' r' -> yields f (ts' ++ r') a r') ->
  Gcomma R l ts r -> yields (parse_comma_separated f) (ts ++ r) l r.
Proof.
  intros Hf HG. apply yields_loop_fuel. intros n Hn. rewrite length_app in Hn.
  eapply (yields_comma_loop R f l ts r n []); [done..|lia].
Qed.

(** A compound identifier; [wild] is whether it ends in a star. *)
Lemma yields_path ids ts (wild : bool) ids0 r n :
  Gpath ids ts -> not_next Token.Period r ->
  (length ts + (if wild then 2 else 0) < n)%nat ->
  yields (compound_ident_loop n false ids0) (ts ++ (if wild then [Token.Period; Token.Mul] else []) ++ r) (wild, ids0 ++ ids) r.
Proof.
  intros HG Hr. revert n ids0. induction HG as [|w ids ts HG IH]; intros n ids0 Hn;
    (destruct n as [|n]; [lia|]); simpl.
  - rewrite app_nil_r. destruct wild; simpl.
    + apply yields_if_token_true, yields_next. intros tl Htl. simpl. rewrite Htl.
      destruct n as [|n]; [simpl in Hn; lia|]. simpl. by apply yields_if_token_false; [|apply yields_ret].
    + by apply yields_if_token_false; [|apply yields_ret].
  - apply yields_if_token_true, yields_next. intros tl Htl. simpl. rewrite Htl.
    rewrite (cons_middle (Ident_from w) ids0 ids), (app_assoc ids0). apply IH. simpl in Hn. lia.
Qed.

(** ** Operands *)

(** Keywords that are not infix operators. *)
Definition closing (kw : Keyword.t) : bool :=
  match kw with
  | Keyword.AS | Keyword.THEN | Keyword.WHEN | Keyword.ELSE | Keyword.END | Keyword.FROM | Keyword.FOR => true
  | _ => bool_decide (is_Some (interval_unit kw))
  end.

Lemma iprec_closing t kw r p : token_keyword t = Some kw -> closing kw = true -> 0 <= p -> iprec (t :: r) <= p.
Proof.
  intros Ht Hc Hp. destruct t; try done. simpl in *. rewrite Ht. by destruct kw.
Qed.

Lemma iprec_containment t kw r :
  token_keyword t = Some kw -> kw = Keyword.IN \/ kw = Keyword.AND -> iprec (t :: r) <= PREC_CONTAINMENT.
Proof. intros Ht Hkw. destruct t; try done. simpl in *. rewrite Ht. by destruct Hkw as [-> | ->]. Qed.

Ltac side_len :=
  repeat match goal with
  | H : context [length (_ ++ _)] |- _ => rewrite length_app in H
  | H : context [length (_ :: _)] |- _ => rewrite length_cons in H
  | |- context [length (_ ++ _)] => rewrite length_app
  | |- context [length (_ :: _)] => rewrite length_cons
  end; simpl length in *; lia.

Ltac side_prec :=
  first [ assumption | done
        | eapply iprec_closing; [eassumption|reflexivity|done]
        | eapply iprec_containment; [eassumption|auto] ].

Lemma not_kw_other kw kw' t r : token_keyword t = Some kw' -> kw' <> kw -> not_kw kw (t :: r).
Proof. intros Ht Hne. unfold not_kw. simpl. rewrite Ht. congruence. Qed.

Lemma not_kw_token kw t r : token_keyword t = None -> not_kw kw (t :: r).
Proof. intros Ht. unfold not_kw. simpl. by rewrite Ht. Qed.

Lemma not_next_keyword t t' kw r : token_keyword t' = Some kw -> token_keyword t = None -> not_next t (t' :: r).
Proof. intros Ht Hn [= ->]. congruence. Qed.

(** The head of a list of tokens stays the head. *)
Lemma head_app {A} (l k : list A) : l <> [] -> head (l ++ k) = head l.
Proof. by destruct l. Qed.

Lemma not_next_app t l k : l <> [] -> not_next t l -> not_next t (l ++ k).
Proof. intros Hne Hn. unfold not_next. by rewrite head_app. Qed.

Lemma not_kw_app kw l k : l <> [] -> not_kw kw l -> not_kw kw (l ++ k).
Proof. intros Hne Hn. unfold not_kw. by rewrite head_app. Qed.

Lemma not_query_app l k : l <> [] -> not_query l -> not_query (l ++ k).
Proof. intros Hne Hn. unfold not_query. by rewrite head_app. Qed.

(** Expressions are not empty. *)
Lemma Gprefix_nonempty e ts r : Gprefix e ts r -> ts <> [].
Proof. intros []; try done; by intros [? ?]%app_eq_nil. Qed.

Lemma Ginfix_nonempty q l e ts r : Ginfix q l e ts r -> ts <> [].
Proof. intros []; try done; by intros [? ?]%app_eq_nil. Qed.

Lemma Gexpr_nonempty p e ts r : Gexpr p e ts r -> ts <> [].
Proof.
  intros [p' e' ts' r' HG|p' l e' ts' ts'' r' _ _ HI]; [by eapply Gprefix_nonempty|].
  apply Ginfix_nonempty in HI. by intros [_ ->]%app_eq_nil.
Qed.

Lemma Gcomma_nonempty {A} (R : A -> tokens -> tokens -> Prop) l ts r :
  (forall a ts r, R a ts r -> ts <> []) -> Gcomma R l ts r -> ts <> [].
Proof. intros HR [a ts' r' Ha _|a l' ts' ts'' r' _ _ _]; [by eapply HR|]. by intros [_ ?]%app_eq_nil. Qed.

Lemma Gexprs_nonempty l ts r : Gcomma (fun e ts r => Gexpr 0 e ts r /\ iprec r <= 0) l ts r -> ts <> [].
Proof. apply Gcomma_nonempty. intros a ts' r' [HG _]. by eapply Gexpr_nonempty. Qed.

Section Complete.
Context `{AsciiOrder} {K : Parsers} (L : nat).
Context (HE : forall p e ts r, (length ts <= L)%nat -> Gexpr p e ts r -> iprec r <= p ->
                yields (Expr_parse_subexpr p) (ts ++ r) e r).

Lemma yields_expr e ts r :
  (length ts <= L)%nat -> Gexpr 0 e ts r -> iprec r <= 0 -> yields Expr_parse (ts ++ r) e r.
Proof. apply HE. Qed.

Lemma yields_exprs l ts r :
  (length ts <= L)%nat -> Gcomma (fun e ts r => Gexpr 0 e ts r /\ iprec r <= 0) l ts r ->
  yields (parse_comma_separated Expr_parse) (ts ++ r) l r.
Proof.
  intros Hlen HG. eapply yields_comma; [|done]. intros a ts' r' Hts [Ha Hr]. apply yields_expr; [lia|done..].
Qed.

(** One step of a parser in front of known tokens. *)
Ltac y_step :=
  match goal with
  | |- yields (mret _) _ _ _ => apply yields_ret
  | |- yields (some _) _ _ _ => unfold some
  | |- yields (if_token ?t _ _) (?t :: _) _ _ => apply yields_if_token_true
  | |- yields (if_token _ _ _) _ _ _ => apply yields_if_token_false; [done || by eapply not_next_keyword|]
  | |- yields (if_keyword _ _ _) (_ :: _) _ _ =>
    first [ apply yields_if_keyword_true; [eassumption|]
          | apply yields_if_keyword_false; [by eapply not_kw_other || by apply not_kw_token|] ]
  | |- yields (if_keyword _ _ _) _ _ _ => apply yields_if_keyword_false; [assumption|]
  | |- yields (expect_token _ ≫= _) _ _ _ => eapply yields_bind; [apply yields_expect_token|]
  | |- yields (expect_keyword _ ≫= _) _ _ _ => eapply yields_bind; [apply yields_expect_keyword; eassumption|]
  | |- yields (next_keyword ≫= _) _ _ _ => eapply yields_bind; [apply yields_next_keyword; eassumption|]
  | |- yields (parse_string_literal ≫= _) _ _ _ => eapply yields_bind; [apply yields_string_literal|]
  | |- yields (Ident_parse ≫= _) _ _ _ => eapply yields_bind; [apply yields_Ident|]
  | HG : Gexpr ?p ?e ?ts ?r |- yields (Expr_parse_subexpr ?p ≫= _) (?ts ++ ?r) _ _ =>
    eapply yields_bind; [apply HE; [side_len|exact HG|side_prec]|]
  | HG : Gexpr 0 ?e ?ts ?r |- yields (Expr_parse ≫= _) (?ts ++ ?r) _ _ =>
    eapply yields_bind; [apply yields_expr; [side_len|exact HG|side_prec]|]
  | HG : Gcomma _ ?l ?ts ?r |- yields (parse_comma_separated Expr_parse ≫= _) (?ts ++ ?r) _ _ =>
    eapply yields_bind; [apply yields_exprs; [side_len|exact HG]|]
  | HG : Gdatatype ?dt ?ts ?r |- yields (DataType_parse ≫= _) (?ts ++ ?r) _ _ =>
    eapply yields_bind; [apply yields_datatype, HG|]
  end.
Ltac y := repeat (tokens; y_step; cbv beta).

Lemma yields_cast e ts a dt dts r :
  (length ts < L)%nat -> token_keyword a = Some Keyword.AS ->
  Gexpr 0 e ts (a :: dts ++ Token.RightParen :: r) -> Gdatatype dt dts (Token.RightParen :: r) ->
  yields parse_cast (Token.LeftParen :: ts ++ a :: dts ++ Token.RightParen :: r) (Expr_Cast dt e) r.
Proof. intros. unfold parse_cast. y. Qed.

Lemma yields_columns s r :
  yields parse_columns (Token.LeftParen :: Token.SingleQuotedString s :: Token.RightParen :: r)
    (Expr_Columns (ColumnsExpr_Pattern s)) r.
Proof. unfold parse_columns. y. Qed.

Lemma yields_parse_not e ts r :
  (length ts <= L)%nat -> not_kw Keyword.EXISTS (ts ++ r) -> Gexpr PREC_NOT e ts r -> iprec r <= PREC_NOT ->
  yields parse_not (ts ++ r) (Expr_UnaryExpr UnaryOperator_Not e) r.
Proof.
  intros Hlen Hex HG Hr. eapply yields_bind; [apply yields_peek_keyword|].
  rewrite bool_decide_false by done. y.
Qed.

Lemma yields_array es ts r :
  (length ts <= L)%nat -> not_next Token.RightBracket ts ->
  Gcomma (fun e ts r => Gexpr 0 e ts r /\ iprec r <= 0) es ts (Token.RightBracket :: r) ->
  yields parse_array (ts ++ Token.RightBracket :: r) (Expr_Array es) r.
Proof.
  intros Hlen Hne HG. apply yields_if_token_false; [apply not_next_app; [by eapply Gexprs_nonempty|done]|]. y.
Qed.

Lemma yields_parens es ts r :
  (length ts <= L)%nat -> not_query ts ->
  Gcomma (fun e ts r => Gexpr 0 e ts r /\ iprec r <= 0) es ts (Token.RightParen :: r) ->
  yields parse_parens (ts ++ Token.RightParen :: r)
    match es with [e] => Expr_Nested e | _ => Expr_Tuple es end r.
Proof.
  intros Hlen Hq HG. assert (Hne : ts <> []) by by eapply Gexprs_nonempty.
  eapply yields_bind; [by apply yields_query_start_false, not_query_app|]. cbv beta iota.
  eapply yields_bind; [|y]. y_step. by destruct HG as [|? ? ? ? ? ? ? []]; apply yields_ret.
Qed.

Lemma yields_case_loop conds ress ts r n acc acc' :
  (length ts <= L)%nat -> (length ts < n)%nat -> Gbranches conds ress ts r ->
  yields (case_loop n acc acc') (ts ++ r) (acc ++ conds, acc' ++ ress) r.
Proof.
  revert conds ress ts r acc acc'. induction n as [|n IH]; intros conds ress ts r acc acc' HL Hn HG; [lia|].
  destruct HG as [c ts t e ts' r Ht Hc He Hr Hw|c ts t e ts' w conds ress ts'' r Ht Hw Hc He HB]; simpl; y.
  replace (acc ++ c :: conds) with ((acc ++ [c]) ++ conds) by by rewrite <- app_assoc.
  replace (acc' ++ e :: ress) with ((acc' ++ [e]) ++ ress) by by rewrite <- app_assoc.
  apply IH; [side_len|side_len|done].
Qed.

(** CASE after its optional operand and the first WHEN. *)
Lemma yields_case_tail o conds ress ts els ets n r :
  (length ts + length ets <= L)%nat -> token_keyword n = Some Keyword.END ->
  Gbranches conds ress ts (ets ++ n :: r) -> Gelse els ets (n :: r) ->
  yields (m ← loop_fuel;
          branches ← case_loop m [] [];
          else_expr ← if_keyword Keyword.ELSE (some Expr_parse) (mret None);
          _ ← expect_keyword Keyword.END;
          mret (Expr_Case o branches.1 branches.2 else_expr)) (ts ++ ets ++ n :: r) (Expr_Case o conds ress els) r.
Proof.
  intros HL Hn HB HEl. apply yields_loop_fuel. intros m Hm. rewrite length_app in Hm.
  eapply yields_bind; [apply yields_case_loop; [lia|lia|done]|]. simpl.
  eapply (yields_bind _ _ _ els (n :: r)); [|y].
  inversion HEl; subst; y.
Qed.

Lemma yields_case_plain conds ress ts els ets w n r :
  (length ts + length ets <= L)%nat -> token_keyword w = Some Keyword.WHEN -> token_keyword n = Some Keyword.END ->
  Gbranches conds ress ts (ets ++ n :: r) -> Gelse els ets (n :: r) ->
  yields parse_case (w :: ts ++ ets ++ n :: r) (Expr_Case None conds ress els) r.
Proof.
  intros. eapply yields_bind; [y|]. by apply yields_case_tail.
Qed.

Lemma yields_case_of e ts0 conds ress ts els ets w n r :
  (length ts0 + length ts + length ets <= L)%nat -> token_keyword w = Some Keyword.WHEN ->
  token_keyword n = Some Keyword.END -> not_kw Keyword.WHEN ts0 ->
  Gexpr 0 e ts0 (w :: ts ++ ets ++ n :: r) ->
  Gbranches conds ress ts (ets ++ n :: r) -> Gelse els ets (n :: r) ->
  yields parse_case (ts0 ++ w :: ts ++ ets ++ n :: r) (Expr_Case (Some e) conds ress els) r.
Proof.
  intros HL Hw Hn Hk HG HB HEl. eapply yields_bind.
  - apply yields_if_keyword_false; [apply not_kw_app; [by eapply Gexpr_nonempty|done]|]. y.
  - apply yields_case_tail; [lia|done..].
Qed.

Lemma yields_comma_or_keyword kw sep r :
  sep = Token.Comma \/ token_keyword sep = Some kw -> yields (comma_or_keyword kw) (sep :: r) true r.
Proof.
  intros [->|Hs]; [apply yields_if_token_true, yields_ret|].
  apply yields_if_token_false; [by eapply not_next_keyword|]. by apply yields_keyword_true.
Qed.

Lemma iprec_separator kw sep r :
  closing kw = true -> sep = Token.Comma \/ token_keyword sep = Some kw -> iprec (sep :: r) <= 0.
Proof. intros Hc [->|Hs]; [done|]. by eapply iprec_closing. Qed.

Lemma yields_substring t e ts sep e' ts' c cts r :
  (length ts + length ts' + length cts <= L)%nat ->
  token_keyword t = Some Keyword.SUBSTRING ->
  sep = Token.Comma \/ token_keyword sep = Some Keyword.FROM ->
  Gexpr 0 e ts (sep :: ts' ++ cts ++ Token.RightParen :: r) ->
  Gexpr 0 e' ts' (cts ++ Token.RightParen :: r) ->
  (c = None /\ cts = []) \/ (exists sep' e'' ts'', c = Some e'' /\ cts = sep' :: ts''
     /\ (sep' = Token.Comma \/ token_keyword sep' = Some Keyword.FOR) /\ Gexpr 0 e'' ts'' (Token.RightParen :: r)) ->
  yields parse_substring (Token.LeftParen :: ts ++ sep :: ts' ++ cts ++ Token.RightParen :: r) (Expr_Substring e e' c) r.
Proof.
  intros HL Ht Hsep He He' Hc. unfold parse_substring. y_step.
  eapply yields_bind; [apply yields_expr; [side_len|done|by apply (iprec_separator Keyword.FROM)]|].
  eapply yields_bind; [by apply yields_comma_or_keyword|]. cbv beta iota.
  destruct Hc as [[-> ->]|(sep' & e'' & ts'' & -> & -> & Hsep' & He'')]; simpl in *.
  - y_step. eapply yields_bind; [apply yields_if_token_false; [done|by apply yields_keyword_false]|]. simpl.
    eapply yields_bind; [apply yields_ret|]. y.
  - eapply yields_bind; [apply yields_expr; [side_len|done|by apply (iprec_separator Keyword.FOR)]|].
    eapply yields_bind; [by apply yields_comma_or_keyword|]. cbv beta iota.
    eapply yields_bind; [y|]. y.
Qed.

Lemma yields_position e ts i e' ts' r :
  (length ts + length ts' <= L)%nat -> token_keyword i = Some Keyword.IN ->
  Gexpr PREC_CONTAINMENT e ts (i :: ts' ++ Token.RightParen :: r) -> Gexpr 0 e' ts' (Token.RightParen :: r) ->
  yields parse_position (Token.LeftParen :: ts ++ i :: ts' ++ Token.RightParen :: r) (Expr_Position e e') r.
Proof.
  intros HL Hi He He'. unfold parse_position. y.
  eapply yields_bind; [by apply yields_keyword_true|]. y.
Qed.

Lemma yields_DatePart d kw dp r :
  token_keyword d = Some kw -> DatePart_try_from_kw kw = Ok dp -> yields DatePart_parse (d :: r) dp r.
Proof.
  intros Hd Hdp. destruct d; try done. eapply yields_bind; [apply yields_peek_token|]. cbn [head].
  cbn [token_keyword] in Hd. rewrite Hd. apply yields_next. intros tl _. rewrite Hdp. apply yields_ret.
Qed.

Lemma yields_extract d kw dp f e ts r :
  (length ts <= L)%nat -> token_keyword d = Some kw -> DatePart_try_from_kw kw = Ok dp ->
  token_keyword f = Some Keyword.FROM -> Gexpr 0 e ts (Token.RightParen :: r) ->
  yields parse_extract (Token.LeftParen :: d :: f :: ts ++ Token.RightParen :: r) (Expr_Extract dp e) r.
Proof.
  intros. unfold parse_extract. y. eapply yields_bind; [by eapply yields_DatePart|]. y.
Qed.

Lemma yields_interval_unit u kw unit r :
  token_keyword u = Some kw -> interval_unit kw = Some unit -> yields IntervalUnit_parse (u :: r) unit r.
Proof.
  intros Hu Hunit. unfold IntervalUnit_parse. y_step. by destruct kw; simplify_eq/=; apply yields_ret.
Qed.

Lemma refuses_interval_unit r : (head r ≫= token_keyword) ≫= interval_unit = None -> refuses IntervalUnit_parse r.
Proof.
  intros Hr. destruct (head r ≫= token_keyword) as [kw|] eqn:Hkw.
  - destruct r as [|t r]; [done|]. eapply refuses_bind; [by apply yields_next_keyword|]. simpl in Hr.
    by destruct kw; try apply refuses_fail.
  - by apply refuses_bind_first, refuses_next_keyword.
Qed.

(** ** Calls *)

Lemma yields_arg a ts r :
  (length ts <= L)%nat -> Garg a ts r -> yields FunctionArg_parse (ts ++ r) a r.
Proof.
  intros HL HG. apply yields_peek_nth. intros o Ho.
  destruct HG as [w a e ts r Ha HG Hr|e ts r Hne1 Hne2 HG Hr].
  - simpl in Ho. destruct o as [tl|]; [|done]. injection Ho as Ho. simpl. rewrite Ho.
    assert (Hexp : yields (expect_one_of_tokens [Token.RightArrow; Token.Eq]) (a :: ts ++ r) tt (ts ++ r)).
    { destruct Ha as [-> | ->]; simpl.
      - eapply yields_bind; [apply yields_consume_true|apply yields_ret].
      - eapply yields_bind; [by apply yields_consume_false|]. simpl.
        eapply yields_bind; [apply yields_consume_true|apply yields_ret]. }
    assert (Hbody : yields (ident ← Ident_parse; _ ← expect_one_of_tokens [Token.RightArrow; Token.Eq];
      expr ← Expr_parse; mret (FunctionArg_Named ident expr)) (Token.Word w :: a :: ts ++ r)
      (FunctionArg_Named (Ident_from w) e) r).
    { y. eapply yields_bind; [apply Hexp|]. y. }
    by destruct Ha as [-> | ->].
  - assert (Hbody : yields (expr ← Expr_parse; mret (FunctionArg_Unnamed expr)) (ts ++ r) (FunctionArg_Unnamed e) r) by y.
    rewrite <- Ho in Hne1, Hne2. destruct (token <$> o) as [[]|]; try done.
Qed.

Lemma Garg_nonempty a ts r : Garg a ts r -> ts <> [].
Proof. intros []; [done|by eapply Gexpr_nonempty]. Qed.

Lemma yields_args args star ats r :
  (length ats <= L)%nat -> Gargs args star ats (Token.RightParen :: r) ->
  yields parse_function_args (ats ++ Token.RightParen :: r) (args, star) r.
Proof.
  intros HL HG. unfold parse_function_args. inversion HG as [|?|? ? ? Hnr Hnm HC]; subst.
  - y.
  - apply yields_if_token_false; [done|]. eapply yields_bind; [apply yields_peek_token|]. simpl.
    apply yields_next. intros tl _. y.
  - assert (Hne : ats <> []) by (eapply Gcomma_nonempty; [|done]; intros; by eapply Garg_nonempty).
    apply yields_if_token_false; [by apply not_next_app|].
    eapply yields_bind; [apply yields_peek_token|]. rewrite bool_decide_false by (by apply not_next_app).
    eapply yields_bind.
    { eapply yields_comma; [|done]. intros a ts' r' Hts Ha. apply yields_arg; [lia|done]. }
    y.
Qed.

Lemma yields_filter o ts r :
  (length ts <= L)%nat -> Gfilter o ts r -> yields parse_filter (ts ++ r) o r.
Proof. intros HL HG. unfold parse_filter. destruct HG; y. Qed.

(** PARTITION BY in parentheses; no frame follows. *)
Lemma yields_partition p b es ts r :
  (length ts <= L)%nat -> token_keyword p = Some Keyword.PARTITION -> token_keyword b = Some Keyword.BY ->
  Gcomma (fun e ts r => Gexpr 0 e ts r /\ iprec r <= 0) es ts (Token.RightParen :: r) ->
  yields WindowDefinition_parse (p :: b :: ts ++ Token.RightParen :: r)
    {| window_existing := None; window_partition_by := es; window_order_by := []; window_frame := None |}
    (Token.RightParen :: r).
Proof.
  intros HL Hp Hb HG. unfold WindowDefinition_parse.
  eapply yields_bind; [apply yields_peek_keyword|]. simpl. rewrite Hp. eapply yields_bind; [apply yields_ret|].
  eapply yields_bind.
  { apply (yields_if_keywords_true _ [p; b]); [by repeat constructor|]. by apply yields_exprs. }
  eapply yields_bind; [apply yields_if_keywords_false; [done|apply yields_ret]|].
  eapply yields_bind; [apply yields_maybe_none|apply yields_ret].
  apply refuses_bind_first. eapply refuses_bind; [by apply yields_one_of_none; [repeat constructor|]|].
  apply refuses_fail.
Qed.

Lemma yields_over o ts r :
  (length ts <= L)%nat -> Gover o ts r -> yields parse_over (ts ++ r) o r.
Proof.
  intros HL HG. unfold parse_over. destruct HG as [|?|?|? ? ? ? ? ? ? ? ? HC]; y.
  eapply yields_bind; [apply yields_partition; [side_len|done..]|]. y.
Qed.

(** ** Prefixes *)

Lemma yields_prefix_token t ts e r :
  match token_keyword t with Some kw => datatype_keyword kw = false | None => True end ->
  yields (parse_prefix_token t) ts e r -> yields parse_prefix (t :: ts) e r.
Proof.
  intros Ht Hy. eapply yields_bind; [by apply yields_maybe_none, refuses_datatype|].
  apply yields_next. intros tl Htl. simpl. by rewrite Htl.
Qed.

(** A keyword that starts an expression. *)
Lemma yields_prefix_keyword t kw m ts e r :
  token_keyword t = Some kw -> datatype_keyword kw = false ->
  (forall w, word_keyword w = Some kw -> parse_prefix_word w = m) ->
  yields m ts e r -> yields parse_prefix (t :: ts) e r.
Proof.
  intros Ht Hdt Hm Hy. apply yields_prefix_token; [by rewrite Ht|].
  destruct t; try done. simpl in *. by rewrite (Hm w Ht).
Qed.

Lemma plain_word_keyword w : plain_word w = true ->
  match word_keyword w with Some kw => datatype_keyword kw = false | None => True end
  /\ parse_prefix_word w = parse_ident_expr w.
Proof.
  unfold plain_word, parse_prefix_word. destruct (word_keyword w) as [kw|]; [|done].
  by destruct kw; try discriminate.
Qed.

Lemma yields_ident_expr w ids ts (wild : bool) r :
  Gpath ids ts -> not_next Token.Period r -> not_next Token.LeftParen r ->
  yields (parse_ident_expr w) (ts ++ (if wild then [Token.Period; Token.Mul] else []) ++ r)
    (if wild then Expr_QualifiedWildcard (Ident_from w :: ids) else path_expr (Ident_from w :: ids)) r.
Proof.
  intros HG Hp Hl. apply yields_loop_fuel. intros n Hn.
  eapply yields_bind; [apply yields_path; [done|done|destruct wild; side_len]|].
  apply yields_if_token_false; [done|]. simpl. destruct ids, wild; apply yields_ret.
Qed.

Lemma yields_call w ids ts distinct dts args star ats filter fts over ots r :
  (length ats + length fts + length ots <= L)%nat -> Gpath ids ts ->
  Gflag Keyword.DISTINCT distinct dts (ats ++ Token.RightParen :: fts ++ ots ++ r) ->
  Gargs args star ats (Token.RightParen :: fts ++ ots ++ r) ->
  Gfilter filter fts (ots ++ r) -> Gover over ots r ->
  yields (parse_ident_expr w) (ts ++ Token.LeftParen :: dts ++ ats ++ Token.RightParen :: fts ++ ots ++ r)
    (Expr_Function {| function_reference := Ident_from w :: ids; function_distinct := distinct;
                      function_star := star; function_args := args;
                      function_filter := filter; function_over := over |}) r.
Proof.
  intros HL HP HD HA HFi HO. apply yields_loop_fuel. intros n Hn.
  eapply yields_bind; [apply (yields_path ids ts false); [done|done|simpl; side_len]|].
  simpl. apply yields_if_token_true.
  eapply yields_bind; [by apply yields_flag|]. simpl.
  eapply yields_bind; [apply yields_args; [lia|done]|].
  eapply yields_bind; [apply yields_filter; [lia|done]|].
  eapply yields_bind; [apply yields_over; [lia|done]|]. apply yields_ret.
Qed.

(** Where the typed string of a data type, or an interval, follows. *)
Lemma yields_typed dt dts s r :
  dt <> DataType_Interval -> Gdatatype dt dts (Token.SingleQuotedString s :: r) ->
  yields parse_prefix (dts ++ Token.SingleQuotedString s :: r) (Expr_TypedString dt s) r.
Proof.
  intros Hne HG. eapply yields_bind; [apply yields_maybe_some, yields_datatype, HG|].
  assert (Hs : yields (s' ← parse_string_literal; mret (Expr_TypedString dt s'))
    (Token.SingleQuotedString s :: r) (Expr_TypedString dt s) r) by y.
  by destruct dt.
Qed.

Lemma yields_interval t ts i r :
  token_keyword t = Some Keyword.INTERVAL -> yields Interval_parse ts i r ->
  yields parse_prefix (t :: ts) (Expr_Interval i) r.
Proof.
  intros Ht Hi. destruct t; try done. simpl in Ht.
  eapply yields_bind; [apply yields_maybe_some, (yields_datatype DataType_Interval [Token.Word w] ts)|].
  { by apply Gdt_simple with Keyword.INTERVAL. }
  cbv beta iota. eapply yields_bind; [apply Hi|apply yields_ret].
Qed.

Lemma yields_prefix e ts r :
  (length ts <= S L)%nat -> Gprefix e ts r -> yields parse_prefix (ts ++ r) e r.
Proof.
  intros HL HG. destruct HG; tokens.
  all: try (apply yields_prefix_token; [done|]; simpl).
  all: try (eapply yields_prefix_keyword;
            [eassumption|reflexivity|intros ? Hkw; unfold parse_prefix_word; rewrite Hkw; reflexivity|]).
  all: try apply yields_ret.
  - apply yields_prefix_token; [by apply plain_word_keyword|]. simpl.
    rewrite (proj2 (plain_word_keyword w ltac:(done))). by apply (yields_ident_expr w ids ts false).
  - apply yields_prefix_token; [by apply plain_word_keyword|]. simpl.
    rewrite (proj2 (plain_word_keyword w ltac:(done))). by apply (yields_ident_expr w ids ts true).
  - apply yields_prefix_token; [by apply plain_word_keyword|]. simpl.
    rewrite (proj2 (plain_word_keyword w ltac:(done))). apply yields_call; [side_len|done..].
  - apply yields_if_token_true, yields_ret.
  - apply yields_array; [side_len|done..].
  - apply yields_columns.
  - apply (yields_parens [e]); [side_len|done|]. by apply Gcomma_one.
  - by apply (yields_parens (e :: e' :: es)); [side_len|..].
  - assert (Hop : yields (e' ← Expr_parse_subexpr PREC_UNARY_MINUS; mret (Expr_UnaryExpr op e')) (ts ++ r)
      (Expr_UnaryExpr op e) r) by y.
    apply yields_prefix_token; [by destruct t|]. by destruct t; simplify_eq/=.
  - apply yields_parse_not; [side_len|done..].
  - apply yields_cast; [side_len|done..].
  - apply yields_case_plain; [side_len|done..].
  - apply yields_case_of; [side_len|done..].
  - eapply (yields_substring t e ts sep e' ts' None []); [side_len|done..|by left].
  - eapply (yields_substring t e ts sep e' ts' (Some e'') (sep' :: ts'')); [side_len|done..|].
    right. by exists sep', e'', ts''.
  - apply yields_position; [side_len|done..].
  - eapply yields_extract; [side_len|done..].
  - by apply yields_typed.
  - apply yields_interval; [done|]. unfold Interval_parse. y.
    eapply yields_bind; [by apply yields_maybe_none, refuses_interval_unit|apply yields_ret].
  - apply yields_interval; [done|]. unfold Interval_parse.
    eapply yields_bind; [apply HE; [side_len|done|]|].
    + eapply iprec_closing; [done| |done]. by destruct kw.
    + eapply yields_bind; [by eapply yields_maybe_some, yields_interval_unit|apply yields_ret].
Qed.

(** ** Infix operators *)

(** A keyword that is an infix operator of its own. *)
Lemma yields_infix_keyword t kw l q ts e r :
  token_keyword t = Some kw -> bin_op t = None -> yields (parse_infix_keyword l kw) ts e r ->
  yields (parse_infix l q) (t :: ts) e r.
Proof.
  intros Ht Hb Hy. apply yields_next. intros tl Htl. simpl. rewrite Htl, Hb.
  destruct t; try done. simpl in Ht. by rewrite Ht.
Qed.

Lemma yields_distinct_from l op f e ts r :
  (length ts <= L)%nat -> token_keyword f = Some Keyword.FROM ->
  Gexpr PREC_CONTAINMENT e ts r -> iprec r <= PREC_CONTAINMENT ->
  yields (parse_distinct_from l op) (f :: ts ++ r) (Expr_BinaryExpr l op e) r.
Proof. intros. unfold parse_distinct_from. y. Qed.

Lemma yields_in l negated es ts r :
  (length ts <= L)%nat -> not_query ts ->
  Gcomma (fun e ts r => Gexpr 0 e ts r /\ iprec r <= 0) es ts (Token.RightParen :: r) ->
  yields (parse_in l negated) (Token.LeftParen :: ts ++ Token.RightParen :: r) (Expr_InList negated l es) r.
Proof.
  intros HL Hq HG. unfold parse_in. y_step.
  eapply yields_bind; [apply yields_query_start_false, not_query_app; [by eapply Gexprs_nonempty|done]|].
  cbv beta iota. eapply yields_bind; [y|]. y.
Qed.

Lemma yields_like l negated ci e ts r :
  (length ts <= L)%nat -> Gexpr PREC_CONTAINMENT e ts r -> iprec r <= PREC_CONTAINMENT ->
  yields (parse_like l negated ci) (ts ++ r) (Expr_Like l e negated ci) r.
Proof. intros. unfold parse_like. y. Qed.

Lemma yields_between l negated low ts a high ts' r :
  (length ts + length ts' <= L)%nat -> token_keyword a = Some Keyword.AND ->
  Gexpr PREC_CONTAINMENT low ts (a :: ts' ++ r) ->
  Gexpr PREC_CONTAINMENT high ts' r -> iprec r <= PREC_CONTAINMENT ->
  yields (parse_between l negated) (ts ++ a :: ts' ++ r) (Expr_Between negated l low high) r.
Proof. intros. unfold parse_between. y. Qed.

(** The operators that NOT can precede. *)
Definition containment (l : Expr) (kw : Keyword.t) (negated : bool) : option (P Expr) :=
  match kw with
  | Keyword.IN => Some (parse_in l negated)
  | Keyword.LIKE => Some (parse_like l negated false)
  | Keyword.ILIKE => Some (parse_like l negated true)
  | Keyword.BETWEEN => Some (parse_between l negated)
  | _ => None
  end.

Lemma yields_containment l q negated nts t kw m ts e r :
  Gflag Keyword.NOT negated nts (t :: ts) -> token_keyword t = Some kw -> containment l kw negated = Some m ->
  yields m ts e r -> yields (parse_infix l q) (nts ++ t :: ts) e r.
Proof.
  intros HN Ht Hm Hy.
  assert (Hb : forall t' kw', token_keyword t' = Some kw' -> kw' = kw \/ kw' = Keyword.NOT -> bin_op t' = None).
  { intros t' kw' Ht' Hkw. destruct t'; try done. simpl in *. rewrite Ht'.
    destruct Hkw as [-> | ->]; [by destruct kw|done]. }
  inversion HN as [? Hr|n ? Hn]; subst; simpl.
  - eapply yields_infix_keyword; [done|by eapply Hb; [|left]|]. by destruct kw; simplify_eq/=.
  - eapply yields_infix_keyword; [done|by eapply Hb; [|right]|]. simpl.
    eapply yields_bind; [by apply yields_next_keyword|]. by destruct kw; simplify_eq/=.
Qed.

(** IS and IS NOT. *)
Lemma yields_is l q i negated nts t kw m ts e r :
  token_keyword i = Some Keyword.IS -> Gflag Keyword.NOT negated nts (t :: ts) -> token_keyword t = Some kw ->
  match kw with
  | Keyword.NULL => m = mret (Expr_IsNull l negated)
  | Keyword.TRUE => m = mret (Expr_IsBool l true negated)
  | Keyword.FALSE => m = mret (Expr_IsBool l false negated)
  | Keyword.DISTINCT => m = parse_distinct_from l (if negated : bool then BinaryOperator.IsNotDistinctFrom
                                                   else BinaryOperator.IsDistinctFrom)
  | _ => False
  end ->
  yields m ts e r -> yields (parse_infix l q) (i :: nts ++ t :: ts) e r.
Proof.
  intros Hi HN Ht Hm Hy. eapply yields_infix_keyword; [done|destruct i; try done; simpl in *; by rewrite Hi|].
  simpl. unfold parse_is. inversion HN as [? Hr|n ? Hn]; subst; simpl.
  - eapply yields_bind; [by apply yields_next_keyword|]. by destruct kw; try done; subst.
  - eapply yields_bind; [by apply yields_next_keyword|]. simpl.
    eapply yields_bind; [by apply yields_next_keyword|]. by destruct kw; try done; subst.
Qed.

Lemma yields_slice lower upper ts r :
  (length ts <= L)%nat -> Gbounds lower upper ts (Token.RightBracket :: r) ->
  yields ArraySubscript_parse (ts ++ Token.RightBracket :: r) (ArraySubscript_Slice lower upper None) r.
Proof.
  intros HL HG. unfold ArraySubscript_parse.
  inversion HG as [?|e ts' ? Hn He|e ts' ? Hn He|e ts' e' ts'' ? Hn Hn' He He']; subst; tokens.
  - eapply yields_bind; [y|]. y.
  - eapply yields_bind; [apply yields_if_token_false; [by apply not_next_app; [eapply Gexpr_nonempty|]|y]|].
    apply yields_if_token_false; [done|]. y.
  - eapply yields_bind; [y|]. apply yields_if_token_false; [by apply not_next_app; [eapply Gexpr_nonempty|]|].
    eapply yields_bind; [apply yields_ret|].
    apply yields_if_token_false; [by apply not_next_app; [eapply Gexpr_nonempty|]|].
    eapply yields_bind; [y|]. y.
  - eapply yields_bind; [apply yields_if_token_false; [by apply not_next_app; [eapply Gexpr_nonempty|]|y]|].
    apply yields_if_token_false; [done|]. y.
    apply yields_if_token_false; [by apply not_next_app; [eapply Gexpr_nonempty|]|].
    eapply yields_bind; [y|]. y.
Qed.

Lemma yields_index e ts r :
  (length ts <= L)%nat -> not_next Token.Colon ts -> Gexpr 0 e ts (Token.RightBracket :: r) ->
  yields ArraySubscript_parse (ts ++ Token.RightBracket :: r) (ArraySubscript_Index e) r.
Proof.
  intros HL Hn He. unfold ArraySubscript_parse.
  eapply yields_bind; [apply yields_if_token_false; [by apply not_next_app; [eapply Gexpr_nonempty|]|y]|]. y.
Qed.

Lemma yields_binary q l t op e ts r :
  (length ts <= L)%nat -> bin_op t = Some op ->
  not_kw Keyword.ALL (ts ++ r) -> not_kw Keyword.ANY (ts ++ r) -> not_kw Keyword.SOME (ts ++ r) ->
  Gexpr q e ts r -> iprec r <= q ->
  yields (parse_infix l q) (t :: ts ++ r) (Expr_BinaryExpr l op e) r.
Proof.
  intros HL Hop Hall Hany Hsome HG Hr. apply yields_next. intros tl Htl. simpl. rewrite Htl, Hop.
  eapply yields_bind; [apply yields_one_of_none; [by repeat constructor|]|].
  { apply Gexpr_nonempty in HG. by destruct ts. }
  cbv beta iota. y.
Qed.

Lemma yields_infix q l e ts r :
  (length ts <= S L)%nat -> Ginfix q l e ts r -> yields (parse_infix l q) (ts ++ r) e r.
Proof.
  intros HL HG. destruct HG; tokens.
  - apply yields_binary; [side_len|done..].
  - eapply yields_is; [done..|reflexivity|apply yields_ret].
  - destruct val; (eapply yields_is; [done..|reflexivity|apply yields_ret]).
  - eapply yields_is; [done..|reflexivity|]. apply yields_distinct_from; [side_len|done..].
  - eapply yields_containment; [done..|reflexivity|]. apply yields_in; [side_len|done..].
  - destruct case_insensitive;
      (eapply yields_containment; [done..|reflexivity|apply yields_like; [side_len|done..]]).
  - eapply yields_containment; [done..|reflexivity|]. apply yields_between; [side_len|done..].
  - apply yields_next. intros tl Htl. simpl. rewrite Htl. simpl.
    eapply yields_bind; [apply yields_index; [side_len|done..]|apply yields_ret].
  - apply yields_next. intros tl Htl. simpl. rewrite Htl. simpl.
    eapply yields_bind; [apply yields_slice; [side_len|done]|apply yields_ret].
  - apply yields_next. intros tl Htl. simpl. rewrite Htl. simpl. y.
Qed.

(** ** The loop *)

Lemma yields_infix_precedence {B} (k : Z -> P B) ts b r :
  yields (k (iprec ts)) ts b r -> yields (get_infix_precedence ≫= k) ts b r.
Proof.
  intros Hk. eapply yields_bind; [|apply Hk]. eapply yields_bind; [apply yields_peek_token|].
  destruct ts as [|t ts]; simpl; [apply yields_ret|].
  apply yields_peek_nth. intros o Ho. simpl in Ho. rewrite lookup_0_head in Ho.
  replace (o ≫= keyword) with (head ts ≫= token_keyword); [apply yields_ret|].
  rewrite <- Ho. by destruct o.
Qed.

(** More turns do not change what a loop returns. *)
Lemma infix_loop_mono n m p e ts b r :
  (n <= m)%nat -> yields (infix_loop n p e) ts b r -> yields (infix_loop m p e) ts b r.
Proof.
  intros Hnm Hy q Hq. destruct (Hy q Hq) as (q' & E & Hq'). exists q'. split; [|done]. clear -Hnm E.
  revert m e q Hnm E. induction n as [|n IH]; intros m e q Hnm E; [done|].
  destruct m as [|m]; [lia|]. simpl in *. unfold mbind, M_bind in *.
  destruct (get_infix_precedence q) as [[np| |] q1]; [|done..].
  destruct (np <=? p); [done|]. unfold mbind, M_bind in *.
  destruct (parse_infix e np q1) as [[e'| |] q2]; [|done..]. apply IH; [lia|done].
Qed.

(** An expression is a prefix and infix operators, which the loop takes one by
    one. *)
Lemma yields_spine p e ts r n b r' :
  (length ts <= S L)%nat -> Gexpr p e ts r -> yields (infix_loop n p e) r b r' ->
  exists e0 ts0 ts1, ts = ts0 ++ ts1 /\ yields parse_prefix (ts ++ r) e0 (ts1 ++ r)
    /\ yields (infix_loop (n + length ts1) p e0) (ts1 ++ r) b r'.
Proof.
  remember (length ts) as len eqn:Hlen. assert (Hle : (length ts <= len)%nat) by lia. clear Hlen.
  revert p e ts r n b r' Hle. induction len as [|len IH]; intros p e ts r n b r' Hle HL HG Hloop.
  { apply Gexpr_nonempty in HG. destruct ts; [done|simpl in Hle; lia]. }
  destruct HG as [p e ts r HG|p l e ts ts' r HG Hp HI].
  - exists e, ts, []. rewrite app_nil_r, Nat.add_0_r. split_and!; [done|apply yields_prefix; [lia|done]|done].
  - apply Ginfix_nonempty in HI as Hne.
    assert (Hlen' : (0 < length ts')%nat) by (destruct ts'; [done|simpl; lia]). rewrite length_app in Hle.
    assert (Hstep : yields (infix_loop (S n) p l) (ts' ++ r) b r').
    { simpl. apply yields_infix_precedence. rewrite (proj2 (Z.leb_gt _ _)) by done.
      eapply yields_bind; [apply yields_infix; [lia|done]|done]. }
    destruct (IH p l ts (ts' ++ r) (S n) b r' ltac:(lia) ltac:(lia) HG Hstep) as (e0 & ts0 & ts1 & -> & Hpre & Hl).
    exists e0, ts0, (ts1 ++ ts'). rewrite <- !app_assoc in *. split_and!; [done..|].
    eapply infix_loop_mono; [|apply Hl]. rewrite length_app. lia.
Qed.

Lemma yields_subexpr p e ts r :
  (length ts <= S L)%nat -> Gexpr p e ts r -> iprec r <= p -> yields (parse_subexpr p) (ts ++ r) e r.
Proof.
  intros HL HG Hr.
  assert (Hone : yields (infix_loop 1 p e) r e r).
  { simpl. apply yields_infix_precedence. rewrite (proj2 (Z.leb_le _ _)) by done. apply yields_ret. }
  destruct (yields_spine p e ts r 1 e r HL HG Hone) as (e0 & ts0 & ts1 & -> & Hpre & Hl).
  eapply yields_bind; [apply Hpre|]. apply yields_loop_fuel. intros m Hm. rewrite length_app in Hm.
  eapply infix_loop_mono; [|apply Hl]. lia.
Qed.

End Complete.

(** With as many nested calls as an expression has tokens, the parser reads it. *)
Lemma yields_parsers `{AsciiOrder} n p e ts r :
  (length ts <= n)%nat -> Gexpr p e ts r -> iprec r <= p ->
  yields (Expr_parse_subexpr (Parsers := parsers n) p) (ts ++ r) e r.
Proof.
  revert p e ts r. induction n as [|n IH]; intros p e ts r Hlen HG Hr.
  - apply Gexpr_nonempty in HG. destruct ts; [done|simpl in Hlen; lia].
  - by apply (yields_subexpr (K := parsers n) n IH).
Qed.
