(* ===== verification/ParserCorrect.v ===== *)
(** * From text to statements

    The tokenizer and the parser together: the text of a grammatical list of
    expressions is parsed to its syntax tree, operators group by their precedence
    and to the left, and what the parser does with some texts at the edge of the
    grammar. *)
From Stdlib Require Import Ascii.
From S2P Require Import Prelude Keywords Tokenizer TokenizerCorrect SqlAst SqlParser ExprParser QueryParser.
From S2P Require Import StatementParser ParserTotal Grammar ParserComplete.
Open Scope Z_scope.

(** ** A statement from its tokens *)

Section Texts.
Context `{UnicodeLaws} `{AsciiOrderLaws}.

Lemma printable_not_trivia t : printable t -> is_trivia t = false.
Proof. by destruct t. Qed.

(** The tokens of a printed text are the tokens that were printed. *)
Lemma left_tokens_render ts toks q :
  Forall printable ts -> token <$> toks = (ts ≫= fun t => [t; Token.Whitespace]) ->
  left_tokens (with_tokens toks q) = ts.
Proof.
  intros Hts Htoks. unfold left_tokens, rest. simpl. rewrite drop_0.
  transitivity (filter (fun t => is_trivia t = false) (token <$> toks)); [symmetry; apply filter_map_swap|].
  rewrite Htoks. clear Htoks.
  induction Hts as [|t ts Ht _ IH]; [done|].
  rewrite bind_cons. cbn [app]. rewrite filter_cons, decide_True by by apply printable_not_trivia.
  rewrite filter_cons, decide_False by done. by rewrite IH.
Qed.

(** The text of a single statement. *)
Lemma parse_render ts stmt :
  Forall printable ts -> head ts <> Some Token.SemiColon -> ts <> [] ->
  (forall n m, (length ts < n)%nat -> (length ts < m)%nat ->
     yields (parse_statement (K := parsers n) m) ts stmt []) ->
  parse (render ts) = Ok [stmt].
Proof.
  intros Hts Hsemi Hne Hstmt. destruct (tokenize_printed ts Hts) as (toks & Htok & Htoks).
  unfold parse. rewrite Htok. unfold mbind, res_bind. pose proof (left_tokens_render ts toks (render ts) Hts Htoks) as Hleft.
  assert (Hlen : (length ts <= length toks)%nat).
  { rewrite <- Hleft. unfold left_tokens. rewrite length_fmap. apply rest_le. }
  assert (Hy : yields (parse_statements (K := parsers (S (length toks)))) ts [stmt] []).
  { assert (HK : forall m, (length ts < m)%nat ->
      yields (parse_statement (K := parsers (S (length toks))) m) ts stmt []) by (intros; apply Hstmt; lia).
    clear Hstmt. generalize dependent (parsers (S (length toks))). intros K HK.
    apply yields_loop_fuel. intros n Hn. destruct n as [|[|n]]; [lia|destruct ts; [done|simpl in Hn; lia]|].
    simpl. apply yields_loop_fuel. intros m Hm. destruct m as [|m]; [lia|].
    eapply (yields_bind _ _ _ false ts).
    { eapply yields_bind; [by apply yields_consume_false|apply yields_ret]. }
    apply yields_peek_nth. intros o Ho. destruct o as [tl|]; [|by destruct ts]. cbv beta match delta [andb].
    eapply yields_bind; [by apply HK|]. simpl.
    apply yields_loop_fuel. intros m' Hm'. destruct m' as [|m']; [lia|].
    eapply (yields_bind _ _ _ false []).
    { eapply yields_bind; [by apply yields_consume_false|apply yields_ret]. }
    apply yields_peek_nth. intros o Ho'. destruct o; [done|]. apply yields_ret. }
  destruct (Hy _ Hleft) as (p' & E & _). by rewrite E.
Qed.

(** ** Lists of expressions *)

(** A keyword as the parser prints it. *)
Definition keyword_token_of (kw : Keyword.t) : Token.t := Token.Word (Word_new (keyword_str kw) None).

Lemma keyword_token_of_keyword kw : token_keyword (keyword_token_of kw) = Some kw.
Proof. apply keyword_from_keyword_str. Qed.

(** Keywords are upper case letters, digits and underscores. *)
Lemma keyword_str_ascii kw :
  match keyword_str kw with
  | c :: s => (65 <=? c) && (c <=? 90)
              && forallb (fun c => (65 <=? c) && (c <=? 90) || (c =? 95) || is_ascii_digit c) s
  | [] => false
  end = true.
Proof. destruct kw; vm_compute; reflexivity. Qed.

Lemma keyword_token_of_printable kw : printable (keyword_token_of kw).
Proof.
  left. split; [done|]. change (is_identifier (keyword_str kw) = true).
  pose proof (keyword_str_ascii kw) as Hall. destruct (keyword_str kw) as [|c s]; [done|].
  apply andb_true_iff in Hall as [Hc Hs]. simpl. rewrite identifier_start_ascii by lia.
  apply andb_true_iff. split; [lia|]. apply forallb_forall. intros d Hd.
  rewrite forallb_forall in Hs. specialize (Hs d Hd). unfold is_ascii_digit in Hs.
  unfold is_identifier_part, is_alphanumeric. rewrite is_alphabetic_ascii, is_numeric_ascii by lia.
  unfold is_ascii_digit. change (ch "_") with 95. lia.
Qed.

(** A row of VALUES. *)
Inductive Grow : list Expr -> tokens -> tokens -> Prop :=
| Grow_intro es ts r :
    Gcomma (fun e ts r => Gexpr 0 e ts r /\ iprec r <= 0) es ts (Token.RightParen :: r) ->
    Grow es (Token.LeftParen :: ts ++ [Token.RightParen]) r.

Lemma yields_rows n rows ts r :
  (length ts <= n)%nat -> Gcomma Grow rows ts r ->
  yields (Values_parse (K := parsers n)) (ts ++ r) {| values_rows := rows |} r.
Proof.
  intros Hn HG. eapply yields_bind; [|apply yields_ret]. eapply yields_comma; [|done].
  intros es ts' r' Hlen Hrow. destruct Hrow as [es ts' r' HC]. simpl. rewrite <- app_assoc. simpl in Hlen. rewrite length_app in Hlen.
  eapply yields_bind; [apply yields_expect_token|].
  eapply yields_bind; [eapply (yields_exprs n); [apply yields_parsers|lia|done]|].
  eapply yields_bind; [apply yields_expect_token|apply yields_ret].
Qed.

(** A query that consists of VALUES. *)
Lemma yields_values_query n v rows ts :
  (length ts < n)%nat -> token_keyword v = Some Keyword.VALUES -> Gcomma Grow rows ts [] ->
  yields (QueryNode_parse (Parsers := parsers n)) (v :: ts) (values_query {| values_rows := rows |}) [].
Proof.
  intros Hn Hv HG. destruct n as [|n]; [lia|]. change (QueryNode_parse (Parsers := parsers (S n))) with (parse_query (K := parsers n)).
  assert (Hno : forall kw, kw <> Keyword.VALUES -> not_kw kw (v :: ts)).
  { intros kw Hkw. by eapply not_kw_other. }
  eapply yields_bind; [apply yields_if_keyword_false; [by apply Hno|apply yields_ret]|].
  eapply yields_bind.
  { eapply yields_bind.
    { apply yields_if_keyword_false; [by apply Hno|]. apply yields_if_keyword_true; [done|].
      eapply yields_bind; [|apply yields_ret]. rewrite <- (app_nil_r ts). apply yields_rows; [lia|done]. }
    apply yields_loop_fuel. intros m Hm. destruct m as [|m]; [simpl in Hm; lia|]. simpl.
    eapply yields_bind; [apply yields_peek_keyword|apply yields_ret]. }
  eapply yields_bind; [by apply yields_if_keywords_false; [|apply yields_ret]|].
  eapply yields_bind; [|apply yields_ret].
  do 3 (eapply yields_bind; [by apply yields_if_keyword_false; [|apply yields_ret]|]). apply yields_ret.
Qed.

(** The text of VALUES with its rows. *)
Lemma parse_rows rows ts :
  Gcomma Grow rows ts [] -> Forall printable ts ->
  parse (render (keyword_token_of Keyword.VALUES :: ts))
  = Ok [Statement_Query (values_query {| values_rows := rows |})].
Proof.
  intros HG Hts. pose proof (keyword_token_of_keyword Keyword.VALUES) as Hv.
  apply parse_render; [by constructor; [apply keyword_token_of_printable|]|done|done|].
  intros n m Hn Hm. destruct m as [|m]; [lia|]. cbn [parse_statement].
  eapply yields_bind; [apply yields_peek_token|]. cbn [head]. unfold keyword_token_of at 1.
  change (word_keyword (Word_new (keyword_str Keyword.VALUES) None) = Some Keyword.VALUES) in Hv.
  cbv beta match. rewrite Hv. cbn [statement_for_keyword].
  eapply yields_bind; [apply yields_values_query; [|done..]|apply yields_ret]. simpl in Hn. lia.
Qed.

(** C14. Rows of expressions: the text of VALUES with grammatical rows is parsed to
    the rows, whatever operators, calls and nested expressions they contain. *)
Theorem parse_values rows ts :
  Gcomma Grow rows ts [] -> Forall printable ts ->
  parse (render (keyword_token_of Keyword.VALUES :: ts))
  = Ok [Statement_Query (values_query {| values_rows := rows |})].
Proof. apply parse_rows. Qed.

(** ** Precedence *)

Lemma Gexpr_number p s r : Gexpr p (Expr_Literal (Literal_Number s)) [Token.Number s] r.
Proof. apply G_prefix. constructor. Qed.

(** Binary operators have a precedence that does not depend on what follows. *)
Lemma bin_op_precedence t op kw :
  bin_op t = Some op -> 0 < infix_precedence t None /\ infix_precedence t kw = infix_precedence t None.
Proof.
  destruct t; simpl; try done.
  match goal with |- context [word_keyword ?w] => destruct (word_keyword w) as [[]|] end; done.
Qed.

(** An operator and a number after an expression. *)
Lemma Ginfix_number q l t op s r :
  bin_op t = Some op -> iprec r <= q ->
  Ginfix q l (Expr_BinaryExpr l op (Expr_Literal (Literal_Number s))) [t; Token.Number s] r.
Proof. intros Hop Hr. apply (Gbinary q l t op _ [Token.Number s]); [done..|apply Gexpr_number|done]. Qed.

Lemma iprec_operator t op s r : bin_op t = Some op -> iprec (t :: Token.Number s :: r) = infix_precedence t None.
Proof. intros Hop. by apply (bin_op_precedence t op). Qed.

Lemma Gexpr_operator p e ts t op s r :
  bin_op t = Some op -> Gexpr p e ts (t :: Token.Number s :: r) -> p < infix_precedence t None ->
  iprec r <= infix_precedence t None ->
  Gexpr p (Expr_BinaryExpr e op (Expr_Literal (Literal_Number s))) (ts ++ [t; Token.Number s]) r.
Proof.
  intros Hop He Hp Hr. apply G_infix with e; [done|..].
  - cbn [app]. by rewrite (iprec_operator t op).
  - apply Ginfix_number; [done|]. cbn [app]. by rewrite (iprec_operator t op).
Qed.

(** C15. Two binary operators in a row: the first is grouped first unless the second
    binds stronger, so operators of the same precedence group to the left. *)
Theorem binary_precedence a b c t1 t2 op1 op2 :
  bin_op t1 = Some op1 -> bin_op t2 = Some op2 ->
  Forall printable [Token.Number a; t1; Token.Number b; t2; Token.Number c] ->
  let num s := Expr_Literal (Literal_Number s) in
  parse (render [keyword_token_of Keyword.VALUES; Token.LeftParen; Token.Number a; t1; Token.Number b; t2;
                 Token.Number c; Token.RightParen])
  = Ok [Statement_Query (values_query {| values_rows := [[
      if infix_precedence t2 None <=? infix_precedence t1 None
      then Expr_BinaryExpr (Expr_BinaryExpr (num a) op1 (num b)) op2 (num c)
      else Expr_BinaryExpr (num a) op1 (Expr_BinaryExpr (num b) op2 (num c)) ]] |})].
Proof.
  intros Hop1 Hop2 Hp num.
  destruct (bin_op_precedence t1 op1 None Hop1) as [P1 _]. destruct (bin_op_precedence t2 op2 None Hop2) as [P2 _].
  apply parse_rows; [|constructor; [done|]; by apply (Forall_app_2 _ _ [Token.RightParen] Hp); constructor].
  apply Gcomma_one; [|done].
  apply (Grow_intro _ [Token.Number a; t1; Token.Number b; t2; Token.Number c]).
  apply Gcomma_one; [|done]. split; [|done].
  destruct (Z.leb_spec (infix_precedence t2 None) (infix_precedence t1 None)) as [Hle|Hlt].
  - apply (Gexpr_operator 0 _ [Token.Number a; t1; Token.Number b] t2 op2); [done| |done|simpl; lia].
    apply (Gexpr_operator 0 _ [Token.Number a] t1 op1); [done|apply Gexpr_number|done|].
    by rewrite (iprec_operator t2 op2).
  - apply (G_infix 0 (num a) _ [Token.Number a] [t1; Token.Number b; t2; Token.Number c]);
      [apply Gexpr_number|cbn [app]; by rewrite (iprec_operator t1 op1)|].
    cbn [app]. rewrite (iprec_operator t1 op1) by done.
    apply (Gbinary _ _ t1 op1 _ [Token.Number b; t2; Token.Number c]); [done..| |simpl; lia].
    apply (Gexpr_operator _ _ [Token.Number b] t2 op2); [done|apply Gexpr_number|done|simpl; lia].
Qed.

End Texts.

(** ** Examples *)

Module ParserExample.
Export PrintingExample.

Definition number (s : string) : Expr := Expr_Literal (Literal_Number (lit s)).
Definition num (s : string) : Token.t := Token.Number (lit s).

(** The printable tokens of the examples are checked by evaluation. *)
Ltac printable_tokens :=
  repeat match goal with
  | |- Forall _ [] => constructor
  | |- Forall _ (_ :: _) => apply List.Forall_cons
  | |- printable (Token.Word _) => left; split; [|vm_compute]; reflexivity
  | |- printable (Token.Number _) => split_and!; [discriminate..|vm_compute; reflexivity]
  | |- printable (num _) => split_and!; [discriminate..|vm_compute; reflexivity]
  | |- printable _ => exact I
  end.

(** VALUES (1), (- 2) *)
Lemma parse_values_witness :
  let ts := [Token.LeftParen; num "1"; Token.RightParen; Token.Comma;
             Token.LeftParen; Token.Minus; num "2"; Token.RightParen] in
  let rows := [[number "1"]; [Expr_UnaryExpr UnaryOperator_Minus (number "2")]] in
  Gcomma Grow rows ts [] /\ Forall printable ts
  /\ parse (render (keyword_token_of Keyword.VALUES :: ts))
     = Ok [Statement_Query (values_query {| values_rows := rows |})].
Proof.
  assert (HG : Gcomma Grow [[number "1"]; [Expr_UnaryExpr UnaryOperator_Minus (number "2")]]
    [Token.LeftParen; num "1"; Token.RightParen; Token.Comma;
     Token.LeftParen; Token.Minus; num "2"; Token.RightParen] []).
  { apply (Gcomma_more _ _ _ [Token.LeftParen; num "1"; Token.RightParen]
      [Token.LeftParen; Token.Minus; num "2"; Token.RightParen]); [|reflexivity|].
    - apply (Grow_intro _ [num "1"]). apply Gcomma_one; [|discriminate]. split; [apply Gexpr_number|]. discriminate.
    - apply Gcomma_one; [|discriminate]. apply (Grow_intro _ [Token.Minus; num "2"]).
      apply Gcomma_one; [|discriminate]. split; [|discriminate]. apply G_prefix.
      apply (Gunary Token.Minus _ _ [num "2"]); [reflexivity|apply Gexpr_number|discriminate]. }
  assert (HP : Forall printable [Token.LeftParen; num "1"; Token.RightParen; Token.Comma;
     Token.LeftParen; Token.Minus; num "2"; Token.RightParen]) by printable_tokens.
  split; [exact HG|]. split; [exact HP|]. exact (parse_values _ _ HG HP).
Defined.

(** 1 - 2 * 3 and 1 - 2 - 3 *)
Lemma binary_precedence_witness :
  parse (render [keyword_token_of Keyword.VALUES; Token.LeftParen; num "1"; Token.Minus; num "2"; Token.Mul;
                 num "3"; Token.RightParen])
  = Ok [Statement_Query (values_query {| values_rows := [[
      Expr_BinaryExpr (number "1") BinaryOperator.Minus
        (Expr_BinaryExpr (number "2") BinaryOperator.Multiply (number "3")) ]] |})]
  /\ parse (render [keyword_token_of Keyword.VALUES; Token.LeftParen; num "1"; Token.Minus; num "2"; Token.Minus;
                 num "3"; Token.RightParen])
  = Ok [Statement_Query (values_query {| values_rows := [[
      Expr_BinaryExpr (Expr_BinaryExpr (number "1") BinaryOperator.Minus (number "2"))
        BinaryOperator.Minus (number "3") ]] |})].
Proof.
  split.
  - apply (binary_precedence (lit "1") (lit "2") (lit "3") Token.Minus Token.Mul); [reflexivity..|printable_tokens].
  - apply (binary_precedence (lit "1") (lit "2") (lit "3") Token.Minus Token.Minus); [reflexivity..|printable_tokens].
Defined.

End ParserExample.
