(* ===== verification/ParserEdges.v ===== *)
(** * Texts at the edge of the grammar

    What the parser does with some concrete texts where the code differs from its
    own comments or from the grammar around it.  The texts are ASCII, so any
    Unicode tables and any order of words with the documented laws give the same
    results; the ones of the examples are used to evaluate. *)
From S2P Require Import Prelude Keywords Tokenizer TokenizerCorrect SqlAst SqlParser ExprParser QueryParser.
From S2P Require Import StatementParser ParserCorrect.
Open Scope Z_scope.
Import ParserExample.

Definition rejected {A} (r : res A) : bool := match r with Err _ => true | _ => false end.

(** Texts at the edge.  AS at the end of the query is dropped, although AS
    without an identifier is refused elsewhere.  A condition of ON that starts
    with a parenthesis has to end with it, unlike one of WHERE.  A name that is
    missing at the end of the query is the empty name.  An argument with [=] as
    its second token is a named argument, so a comparison of a literal cannot be
    an argument.  The column of a token is not where it starts: [take_while],
    which takes words and numbers, does not count, so [ab cd] has columns 0, 1
    and 1 instead of 0, 2 and 3. *)
Example parser_edges :
  parse (lit "SELECT a AS") = parse (lit "SELECT a")
  /\ rejected (parse (lit "SELECT a")) = false
  /\ rejected (parse (lit "SELECT a AS, b")) = true
  /\ rejected (parse (lit "SELECT * FROM t1 JOIN t2 ON (a = b) AND c = d")) = true
  /\ rejected (parse (lit "SELECT * FROM t1 JOIN t2 ON c = d AND (a = b)")) = false
  /\ rejected (parse (lit "SELECT * FROM t1, t2 WHERE (a = b) AND c = d")) = false
  /\ rejected (parse (lit "DROP TABLE")) = false
  /\ rejected (parse (lit "DROP TABLE ;")) = true
  /\ rejected (parse (lit "SELECT f(1 = 2)")) = true
  /\ rejected (parse (lit "SELECT f(1 < 2)")) = false
  /\ parse (lit "SELECT f(a = 2)") = parse (lit "SELECT f(a => 2)")
  /\ match tokenize (lit "ab cd") with Ok toks => tok_col <$> toks = [0; 1; 1]%nat | _ => False end.
Proof. vm_compute. repeat split. Qed.

(** NATURAL without a join is dropped, of two limits the last one counts, and a
    string that is not closed ends with the query. *)
Example dropped_parts :
  parse (lit "SELECT * FROM t NATURAL") = parse (lit "SELECT * FROM t")
  /\ parse (lit "SELECT 1 LIMIT 1 LIMIT 2") = parse (lit "SELECT 1 LIMIT 2")
  /\ parse (lit "SELECT 'a") = parse (lit "SELECT 'a'").
Proof. vm_compute. repeat split. Qed.
