(* ===== verification/ParquetBits.v ===== *)
(** * Bits and bytes of Parquet pages

    The cursor over the bytes of a page ([read_buffer.rs]), unpacking of values
    of a fixed number of bits, variable length and zigzag integers
    ([column/bitutil.rs]), and the writer of such streams ([util/bit_util.rs]).
    All paths are relative to [src/crates/glaredb_ext_parquet/src].

    A sequence of bytes is read as a little-endian number ([le]), and a stream of
    values of [w] bits as a number too ([packed]): unpacking a value takes the low
    bits of the rest of the number. *)
From S2P Require Import Prelude.
Open Scope Z_scope.

(** ** Machine integers *)

(** [x as u64], and the wrap-around of operations on [u64]. *)
Definition u64 (x : Z) : Z := x mod 2 ^ 64.

(** Two's complement of [b] bits. *)
Definition signed (b x : Z) : Z :=
  let y := x mod 2 ^ b in if y <? 2 ^ (b - 1) then y else y - 2 ^ b.

(** The integer types that are unpacked: their number of bytes and sign. *)
Record IntType := { int_bytes : nat; int_signed : bool }.
Definition u8_t : IntType := {| int_bytes := 1; int_signed := false |}.
Definition u32_t : IntType := {| int_bytes := 4; int_signed := false |}.
Definition i16_t : IntType := {| int_bytes := 2; int_signed := true |}.
Definition i32_t : IntType := {| int_bytes := 4; int_signed := true |}.
Definition i64_t : IntType := {| int_bytes := 8; int_signed := true |}.

Definition int_bits (t : IntType) : Z := 8 * Z.of_nat (int_bytes t).

(** [BitPackEncodeable::from_u64]: the low bytes that fit the type. *)
Definition from_u64 (t : IntType) (v : Z) : Z :=
  if int_signed t then signed (int_bits t) v else v mod 2 ^ int_bits t.

(** [to_le_bytes] of the low [n] bytes, and [from_le_bytes]. *)
Fixpoint to_le (n : nat) (x : Z) : list Z :=
  match n with
  | O => []
  | S n' => x mod 256 :: to_le n' (x / 256)
  end.

Fixpoint le (l : list Z) : Z :=
  match l with
  | [] => 0
  | b :: l' => b + 256 * le l'
  end.

(** [num::Integer::div_ceil] *)
Definition ceil (value divisor : Z) : Z := (value + divisor - 1) / divisor.

(** [num_required_bits]: 64 less the leading zeros of a [u64]. *)
Definition num_required_bits (x : Z) : Z := if x =? 0 then 0 else Z.log2 x + 1.

(** ** Cursors *)

(** A [ReadCursor]: the bytes from its pointer to the end of the buffer.  A read
    beyond them is undefined behaviour (and a failed [debug_assert]), here a
    panic. *)
Definition ReadCursor := list Z.

Definition remaining (c : ReadCursor) : nat := length c.

Definition out_of_bytes : string := "read past the end of the buffer".

Definition peek_next_u8 : M ReadCursor Z := fun c =>
  match c with
  | [] => (Panic out_of_bytes, c)
  | b :: _ => (Ok b, c)
  end.

Definition skip_bytes_unchecked (n : nat) : M ReadCursor unit := fun c =>
  if (length c <? n)%nat then (Panic out_of_bytes, c) else (Ok tt, drop n c).

Definition read_bytes_unchecked (n : nat) : M ReadCursor (list Z) := fun c =>
  if (length c <? n)%nat then (Panic out_of_bytes, c) else (Ok (take n c), drop n c).

Definition read_next_u8 : M ReadCursor Z :=
  v ← peek_next_u8; _ ← skip_bytes_unchecked 1; mret v.

(** [read_next_unchecked::<T>] for an integer type, little-endian. *)
Definition read_next_unchecked (t : IntType) : M ReadCursor Z :=
  bs ← read_bytes_unchecked (int_bytes t); mret (from_u64 t (le bs)).

(** The checked variants. *)
Definition skip_bytes (n : nat) : M ReadCursor bool := fun c =>
  if (remaining c <? n)%nat then (Ok false, c)
  else match skip_bytes_unchecked n c with (Ok _, c') => (Ok true, c') | (Err e, c') => (Err e, c') | (Panic w, c') => (Panic w, c') end.

Definition read_next (t : IntType) : M ReadCursor (option Z) := fun c =>
  if (remaining c <? int_bytes t)%nat then (Ok None, c)
  else (v ← read_next_unchecked t; mret (Some v)) c.

Definition read_bytes (n : nat) : M ReadCursor (option (list Z)) := fun c =>
  if (remaining c <? n)%nat then (Ok None, c)
  else (bs ← read_bytes_unchecked n; mret (Some bs)) c.

(** [ReadCursor::take] *)
Definition take_cursor (n : nat) : M ReadCursor ReadCursor := read_bytes_unchecked n.

(** ** Unpacking *)

Definition BITPACK_MASKS : list Z := Z.ones <$> seqZ 0 65.

Definition BYTE_WIDTH : Z := 8.

Record BitUnpackState := { bit_pos : Z; bit_width : Z }.

Definition BitUnpackState_new (w : Z) : BitUnpackState := {| bit_pos := 0; bit_width := w |}.

(** The [while] loop of [bit_unpack], which assembles one value from the bytes it
    spans; it takes at least a bit every time. *)
Fixpoint unpack_loop (fuel : nat) (bits_needed value bit_offset_in_value cur_bit_pos : Z)
    : M ReadCursor (Z * Z) :=
  match fuel with
  | O => lift (Panic "out of fuel")
  | S fuel' =>
    if bits_needed <=? 0 then mret (value, cur_bit_pos)
    else
      byte ← peek_next_u8;
      let bits_available := BYTE_WIDTH - cur_bit_pos in
      let take := Z.min bits_needed bits_available in
      let mask := Z.shiftl (Z.shiftl 1 take - 1) cur_bit_pos in
      let chunk := Z.shiftr (Z.land byte mask) cur_bit_pos in
      let value := Z.lor value (u64 (Z.shiftl chunk bit_offset_in_value)) in
      let bits_needed := bits_needed - take in
      let bit_offset_in_value := bit_offset_in_value + take in
      let cur_bit_pos := cur_bit_pos + take in
      if cur_bit_pos =? BYTE_WIDTH then
        _ ← read_next_u8; unpack_loop fuel' bits_needed value bit_offset_in_value 0
      else unpack_loop fuel' bits_needed value bit_offset_in_value cur_bit_pos
  end.

(** The loop over the output slice of length [n]. *)
Fixpoint unpack_values (t : IntType) (w : Z) (n : nat) (pos : Z) : M ReadCursor (list Z * Z) :=
  match n with
  | O => mret ([], pos)
  | S n' =>
    '(v, pos') ← unpack_loop (S (Z.to_nat w)) w 0 0 pos;
    '(vs, pos'') ← unpack_values t w n' pos';
    mret (from_u64 t v :: vs, pos'')
  end.

(** [bit_unpack] into a slice of [n] values of type [t]. *)
Definition bit_unpack (t : IntType) (state : BitUnpackState) (n : nat) : M ReadCursor (list Z * BitUnpackState) :=
  let w := bit_width state in
  mask ← lift (index BITPACK_MASKS (Z.to_nat w));
  if mask =? 0 then mret (replicate n 0, state)
  else if w >? 64 then fail "bit width greater than 64 not supported"
  else
    '(vs, pos) ← unpack_values t w n (bit_pos state);
    mret (vs, {| bit_pos := pos; bit_width := w |}).

(** ** Variable length integers *)

(** The loop of [read_unsigned_vlq]. *)
Fixpoint vlq_loop (fuel : nat) (result shift : Z) : M ReadCursor Z :=
  match fuel with
  | O => lift (Panic "out of fuel")
  | S fuel' =>
    byte ← read_next_u8;
    let result := Z.lor result (u64 (Z.shiftl (Z.land byte 127) shift)) in
    if Z.land byte 128 =? 0 then mret result
    else
      let shift := shift + 7 in
      if 64 <=? shift then fail "VLQ integer too large" else vlq_loop fuel' result shift
  end.

(** [read_unsigned_vlq]; the shift reaches 64 in the tenth step. *)
Definition read_unsigned_vlq : M ReadCursor Z := vlq_loop 10 0 0.

Definition zigzag_decode (n : Z) : Z := Z.lxor (Z.shiftr n 1) (- Z.land n 1).

Definition zigzag_encode (n : Z) : Z := u64 (Z.lxor (signed 64 (Z.shiftl n 1)) (Z.shiftr n 63)).

(** ** Writing *)

Record BitWriter := { buffer : list Z; buffered_values : Z; bit_offset : Z }.

Definition BitWriter_new_from_buf (buf : list Z) : BitWriter :=
  {| buffer := buf; buffered_values := 0; bit_offset := 0 |}.

Definition flush (w : BitWriter) : BitWriter :=
  let num_bytes := ceil (bit_offset w) 8 in
  BitWriter_new_from_buf (buffer w ++ take (Z.to_nat num_bytes) (to_le 8 (buffered_values w))).

Definition BitWriter_consume (w : BitWriter) : list Z := buffer (flush w).

Definition bytes_written (w : BitWriter) : Z := Z.of_nat (length (buffer w)) + ceil (bit_offset w) 8.

Definition skip (num_bytes : nat) (w : BitWriter) : nat * BitWriter :=
  let w := flush w in
  (length (buffer w), BitWriter_new_from_buf (buffer w ++ replicate num_bytes 0)).

(** [self.buffer[offset] = value] *)
Definition write_at (offset : nat) (value : Z) (w : BitWriter) : res BitWriter :=
  if (offset <? length (buffer w))%nat then
    Ok {| buffer := <[offset := value]> (buffer w); buffered_values := buffered_values w; bit_offset := bit_offset w |}
  else Panic "index out of bounds".

(** [v.checked_shr(n).unwrap_or(0)] on a [u64]. *)
Definition shr_or_zero (v n : Z) : Z := if n <? 64 then Z.shiftr v n else 0.

Definition put_value (v num_bits : Z) (w : BitWriter) : res BitWriter :=
  _ ← rust_assert (num_bits <=? 64) "num_bits <= 64";
  _ ← rust_assert (shr_or_zero v num_bits =? 0) "value does not fit";
  let buffered := Z.lor (buffered_values w) (u64 (Z.shiftl v (bit_offset w))) in
  let offset := bit_offset w + num_bits in
  if 64 <=? offset then
    let offset := offset - 64 in
    Ok {| buffer := buffer w ++ to_le 8 buffered;
          buffered_values := shr_or_zero v (num_bits - offset);
          bit_offset := offset |}
  else Ok {| buffer := buffer w; buffered_values := buffered; bit_offset := offset |}.

(** A loop that writes values of the same width. *)
Fixpoint put_values (vs : list Z) (num_bits : Z) (w : BitWriter) : res BitWriter :=
  match vs with
  | [] => Ok w
  | v :: vs' => w ← put_value v num_bits w; put_values vs' num_bits w
  end.

(** [put_aligned] of a [u64] or a [u8], which has [size] bytes. *)
Definition put_aligned (size : nat) (val : Z) (num_bytes : nat) (w : BitWriter) : BitWriter :=
  let w := flush w in
  let len := Nat.min num_bytes size in
  BitWriter_new_from_buf (buffer w ++ take len (to_le size val)).

(** [put_aligned_offset] of a [u8] and one byte. *)
Definition put_aligned_offset (val : Z) (offset : nat) (w : BitWriter) : res BitWriter := write_at offset val w.

(** The loop of [put_vlq_int]; a [u64] has at most ten groups of seven bits. *)
Fixpoint put_vlq_loop (fuel : nat) (v : Z) (w : BitWriter) : res BitWriter :=
  match fuel with
  | O => Panic "out of fuel"
  | S fuel' =>
    if Z.land v 18446744073709551488 =? 0 then Ok (put_aligned 1 (Z.land v 127) 1 w)
    else put_vlq_loop fuel' (Z.shiftr v 7) (put_aligned 1 (Z.lor (Z.land v 127) 128) 1 w)
  end.

Definition put_vlq_int (v : Z) (w : BitWriter) : res BitWriter := put_vlq_loop 10 v w.

Definition put_zigzag_vlq_int (v : Z) (w : BitWriter) : res BitWriter := put_vlq_int (zigzag_encode v) w.
