(* ===== verification/BitStreams.v ===== *)
(** * Streams of bits

    The theory of [ParquetBits]: bytes as little-endian numbers, what unpacking
    reads, what the writer holds, and that variable length integers are read
    back. *)
From S2P Require Import Prelude ParquetBits.
Open Scope Z_scope.

(** ** Powers of two *)

Lemma two_pow_pos n : 0 <= n -> 0 < 2 ^ n.
Proof. intros. apply Z.pow_pos_nonneg; lia. Qed.

Lemma pow256 n : 256 ^ Z.of_nat n = 2 ^ (8 * Z.of_nat n).
Proof. change 256 with (2 ^ 8). rewrite <- Z.pow_mul_r by lia. done. Qed.

(** The parts of a number below and from a bit on do not overlap. *)
Lemma lor_add_shift x y n : 0 <= n -> 0 <= x < 2 ^ n -> Z.lor x (Z.shiftl y n) = x + 2 ^ n * y.
Proof.
  intros Hn Hx. rewrite Z.shiftl_mul_pow2 by done. rewrite (Z.mul_comm (2 ^ n)).
  assert (Hland : Z.land x (y * 2 ^ n) = 0); [|by rewrite Z.add_nocarry_lxor, Z.lxor_lor].
  apply Z.bits_inj'. intros i Hi. rewrite Z.land_spec, Z.mul_pow2_bits, Z.bits_0 by lia.
  destruct (Z.ltb_spec i n); [rewrite (Z.testbit_neg_r y) by lia; apply andb_false_r|].
  destruct (decide (x = 0)) as [->|Hne]; [by rewrite Z.bits_0|].
  rewrite (Z.bits_above_log2 x i); [done|lia|].
  apply Z.log2_lt_pow2; [lia|]. apply Z.lt_le_trans with (2 ^ n); [lia|apply Z.pow_le_mono_r; lia].
Qed.

(** The [n] bits from bit [p] on, the way the code masks them. *)
Lemma masked_bits x n p : 0 <= n -> 0 <= p ->
  Z.shiftr (Z.land x (Z.shiftl (Z.shiftl 1 n - 1) p)) p = (x / 2 ^ p) mod 2 ^ n.
Proof.
  intros Hn Hp. rewrite Z.shiftr_land, Z.shiftr_shiftl_l, Z.sub_diag by done.
  rewrite Z.shiftl_0_r, Z.shiftl_1_l. replace (2 ^ n - 1) with (Z.ones n) by (rewrite Z.ones_equiv; lia).
  by rewrite Z.land_ones, Z.shiftr_div_pow2 by done.
Qed.

(** Cutting a number into [a] low bits and the rest. *)
Lemma mod_pow2_split x a b : 0 <= a -> 0 <= b -> x mod 2 ^ (a + b) = x mod 2 ^ a + 2 ^ a * ((x / 2 ^ a) mod 2 ^ b).
Proof. intros Ha Hb. rewrite Z.pow_add_r by done. apply Z.rem_mul_r; pose proof (two_pow_pos a); pose proof (two_pow_pos b); lia. Qed.

Lemma div_pow2_add x a b : 0 <= a -> 0 <= b -> x / 2 ^ a / 2 ^ b = x / 2 ^ (a + b).
Proof. intros Ha Hb. rewrite Z.pow_add_r by done. apply Z.div_div; pose proof (two_pow_pos a); pose proof (two_pow_pos b); lia. Qed.

(** ** Bytes *)

Definition is_byte (b : Z) : Prop := 0 <= b < 256.

Lemma length_to_le n x : length (to_le n x) = n.
Proof. revert x. induction n as [|n IH]; intros x; simpl; [done|]. by rewrite IH. Qed.

Lemma to_le_bytes n x : Forall is_byte (to_le n x).
Proof. revert x. induction n as [|n IH]; intros x; simpl; constructor; [|done]. apply Z.mod_pos_bound. lia. Qed.

Lemma le_to_le n x : le (to_le n x) = x mod 2 ^ (8 * Z.of_nat n).
Proof.
  revert x. induction n as [|n IH]; intros x; [by rewrite Z.mod_1_r|]. cbn [to_le le]. rewrite IH.
  replace (8 * Z.of_nat (S n)) with (8 + 8 * Z.of_nat n) by lia. rewrite mod_pow2_split by lia. done.
Qed.

Lemma le_app a b : le (a ++ b) = le a + 2 ^ (8 * Z.of_nat (length a)) * le b.
Proof.
  induction a as [|x a IH]; cbn [app le length]; [lia|]. rewrite IH.
  replace (8 * Z.of_nat (S (length a))) with (8 + 8 * Z.of_nat (length a)) by lia.
  rewrite Z.pow_add_r by lia. change (2 ^ 8) with 256. ring.
Qed.

Lemma le_bounds l : Forall is_byte l -> 0 <= le l < 2 ^ (8 * Z.of_nat (length l)).
Proof.
  induction 1 as [|b l Hb _ IH]; [done|]. cbn [le length]. unfold is_byte in Hb.
  replace (8 * Z.of_nat (S (length l))) with (8 + 8 * Z.of_nat (length l)) by lia.
  rewrite Z.pow_add_r by lia. change (2 ^ 8) with 256. lia.
Qed.

(** Bytes are determined by their number. *)
Lemma to_le_of_le l : Forall is_byte l -> to_le (length l) (le l) = l.
Proof.
  induction 1 as [|b l Hb _ IH]; [done|]. cbn [le length to_le]. unfold is_byte in Hb.
  rewrite (Z.mul_comm 256), Z.mod_add, Z.div_add by lia. rewrite Z.mod_small, Z.div_small by lia.
  by rewrite Z.add_0_l, IH.
Qed.

Lemma le_inj a b : Forall is_byte a -> Forall is_byte b -> length a = length b -> le a = le b -> a = b.
Proof. intros Ha Hb Hlen E. rewrite <- (to_le_of_le a Ha), <- (to_le_of_le b Hb). congruence. Qed.

Lemma to_le_app n m x : to_le (n + m) x = to_le n x ++ to_le m (x / 2 ^ (8 * Z.of_nat n)).
Proof.
  revert x. induction n as [|n IH]; intros x; [by rewrite Z.div_1_r|]. cbn [Nat.add to_le app]. f_equal.
  rewrite IH. f_equal. f_equal. replace (8 * Z.of_nat (S n)) with (8 + 8 * Z.of_nat n) by lia.
  rewrite <- div_pow2_add by lia. done.
Qed.

Lemma take_to_le n m x : (n <= m)%nat -> take n (to_le m x) = to_le n x.
Proof.
  intros Hnm. replace m with (n + (m - n))%nat by lia. rewrite to_le_app.
  by rewrite take_app_le, take_ge by (rewrite length_to_le; lia).
Qed.

Lemma le_drop n l : Forall is_byte l -> (n <= length l)%nat -> le (drop n l) = le l / 2 ^ (8 * Z.of_nat n).
Proof.
  intros Hl Hn. rewrite <- (take_drop n l) at 2. rewrite le_app, length_take, Nat.min_l by done.
  rewrite Z.mul_comm, Z.div_add by (pose proof (two_pow_pos (8 * Z.of_nat n)); lia).
  rewrite Z.div_small; [lia|]. pose proof (le_bounds (take n l) (Forall_take _ n _ Hl)) as Hb.
  by rewrite length_take, Nat.min_l in Hb.
Qed.

Lemma le_take n l : Forall is_byte l -> (n <= length l)%nat -> le (take n l) = le l mod 2 ^ (8 * Z.of_nat n).
Proof.
  intros Hl Hn. rewrite <- (take_drop n l) at 2. rewrite le_app, length_take, Nat.min_l by done.
  rewrite Z.mul_comm, Z.mod_add by (pose proof (two_pow_pos (8 * Z.of_nat n)); lia).
  rewrite Z.mod_small; [done|]. pose proof (le_bounds (take n l) (Forall_take _ n _ Hl)) as Hb.
  by rewrite length_take, Nat.min_l in Hb.
Qed.

(** ** Unpacking *)

(** The bits of a cursor from bit [pos] of its first byte on. *)
Definition stream (pos : Z) (c : ReadCursor) : Z := le c / 2 ^ pos.

(** The cursor after [k] more bits. *)
Definition advance (pos k : Z) (c : ReadCursor) : ReadCursor := drop (Z.to_nat ((pos + k) / 8)) c.

Lemma peek_cons b c : peek_next_u8 (b :: c) = (Ok b, b :: c).
Proof. done. Qed.

Lemma read_next_u8_cons b c : read_next_u8 (b :: c) = (Ok b, c).
Proof. done. Qed.

Lemma advance_cons b c pos k :
  0 <= pos -> 8 <= pos + k -> advance pos k (b :: c) = advance 0 (pos + k - 8) c.
Proof.
  intros Hpos Hk. unfold advance. rewrite Z.add_0_l.
  replace ((pos + k) / 8) with (1 + (pos + k - 8) / 8) by (Z.div_mod_to_equations; lia).
  rewrite Z2Nat.inj_add by (try lia; apply Z.div_pos; lia). done.
Qed.

Lemma advance_stay c pos k : 0 <= pos -> 0 <= k -> pos + k < 8 -> advance pos k c = c.
Proof. intros. unfold advance. by rewrite Z.div_small by lia. Qed.

Lemma unpack_loop_spec fuel need value off pos c :
  Forall is_byte c -> 0 <= pos < 8 -> 0 <= need -> pos + need <= 8 * Z.of_nat (length c) ->
  0 <= off -> off + need <= 64 -> 0 <= value < 2 ^ off -> (Z.to_nat need < fuel)%nat ->
  unpack_loop fuel need value off pos c
  = (Ok (value + 2 ^ off * (stream pos c mod 2 ^ need), (pos + need) mod 8), advance pos need c).
Proof.
  revert need value off pos c. induction fuel as [|fuel IH]; intros need value off pos c Hc Hpos Hneed Hlen Hoff H64 Hv Hfuel; [lia|].
  cbn [unpack_loop]. destruct (Z.leb_spec need 0) as [H0|H0].
  { assert (need = 0) as -> by lia. rewrite Z.mod_1_r, Z.mul_0_r, !Z.add_0_r, Z.mod_small by lia.
    by rewrite advance_stay by lia. }
  destruct c as [|b c]; [simpl in Hlen; lia|]. apply Forall_cons in Hc as [Hb Hc]. unfold is_byte in Hb.
  cbn [length] in Hlen. unfold mbind at 1, M_bind at 1. rewrite peek_cons.
  change BYTE_WIDTH with 8. cbv zeta. set (tk := Z.min need (8 - pos)).
  rewrite masked_bits by lia.
  set (chunk := (b / 2 ^ pos) mod 2 ^ tk).
  assert (Hchunk : 0 <= chunk < 2 ^ tk) by (apply Z.mod_pos_bound, two_pow_pos; lia).
  assert (Hstream : stream pos (b :: c) = b / 2 ^ pos + 2 ^ (8 - pos) * le c).
  { unfold stream. cbn [le]. replace (256 * le c) with (2 ^ (8 - pos) * le c * 2 ^ pos).
    - rewrite Z.div_add by (pose proof (two_pow_pos pos); lia). done.
    - change 256 with (2 ^ 8). replace 8 with (8 - pos + pos) at 2 by lia. rewrite Z.pow_add_r by lia. ring. }
  assert (Hbyte : 0 <= b / 2 ^ pos < 2 ^ (8 - pos)).
  { split; [apply Z.div_pos; [lia|apply two_pow_pos; lia]|]. apply Z.div_lt_upper_bound; [apply two_pow_pos; lia|].
    rewrite <- Z.pow_add_r by lia. replace (pos + (8 - pos)) with 8 by lia. change (2 ^ 8) with 256. lia. }
  assert (Hsmall : chunk * 2 ^ off < 2 ^ 64).
  { apply Z.lt_le_trans with (2 ^ tk * 2 ^ off); [apply Z.mul_lt_mono_pos_r; [apply two_pow_pos; lia|lia]|].
    rewrite <- Z.pow_add_r by lia. apply Z.pow_le_mono_r; lia. }
  assert (Hval : Z.lor value (u64 (Z.shiftl chunk off)) = value + 2 ^ off * chunk).
  { unfold u64. rewrite Z.mod_small by (rewrite Z.shiftl_mul_pow2 by lia; pose proof (two_pow_pos off); nia).
    by rewrite lor_add_shift. }
  rewrite Hval.
  assert (Hval' : 0 <= value + 2 ^ off * chunk < 2 ^ (off + tk)).
  { rewrite Z.pow_add_r by lia. pose proof (two_pow_pos off). nia. }
  destruct (Z.eqb_spec (pos + tk) 8) as [H8|H8].
  - assert (Htk : tk = 8 - pos) by lia. unfold mbind at 1, M_bind at 1. rewrite read_next_u8_cons.
    rewrite IH by (done || lia). rewrite advance_cons by lia.
    replace (0 + (need - tk)) with (pos + need - 8) by lia. replace (pos + need - 8) with (need - tk) by lia.
    assert (Hsplit : stream pos (b :: c) mod 2 ^ need = chunk + 2 ^ tk * (le c mod 2 ^ (need - tk))).
    { replace need with (tk + (need - tk)) at 1 by lia. rewrite mod_pow2_split, Hstream, <- Htk by lia.
      rewrite (Z.mul_comm (2 ^ tk) (le c)), Z.mod_add, Z.div_add by (pose proof (two_pow_pos tk); lia).
      by rewrite (Z.div_small (b / 2 ^ pos)), Z.add_0_l by (rewrite Htk; lia). }
    rewrite Hsplit. unfold stream. rewrite Z.div_1_r, Z.pow_add_r by lia. f_equal. f_equal. f_equal.
    + ring.
    + rewrite <- (Z.mod_add (need - tk) 1 8) by lia. f_equal. lia.
  - assert (Htk : tk = need) by lia. rewrite IH by first [done | cbn [length]; lia | by apply Forall_cons].
    rewrite Htk, Z.sub_diag, Z.mod_1_r, Z.mul_0_r, !Z.add_0_r.
    rewrite !advance_stay by lia. f_equal. f_equal. f_equal.
    f_equal. f_equal. unfold chunk. rewrite Hstream, Htk.
    replace (8 - pos) with (need + (8 - pos - need)) by lia. rewrite Z.pow_add_r by lia.
    rewrite <- Z.mul_assoc, (Z.mul_comm (2 ^ need)), Z.mod_add by (pose proof (two_pow_pos need); lia). done.
Qed.

Lemma advance_length pos k c : 0 <= pos -> 0 <= k -> pos + k <= 8 * Z.of_nat (length c) ->
  Z.of_nat (length (advance pos k c)) = Z.of_nat (length c) - (pos + k) / 8.
Proof.
  intros. unfold advance. rewrite length_drop.
  assert (0 <= (pos + k) / 8 <= Z.of_nat (length c)) by (Z.div_mod_to_equations; lia). lia.
Qed.

Lemma advance_bytes pos k c : Forall is_byte c -> Forall is_byte (advance pos k c).
Proof. apply Forall_drop. Qed.

Lemma advance_advance pos a b c : 0 <= pos -> 0 <= a -> 0 <= b ->
  advance ((pos + a) mod 8) b (advance pos a c) = advance pos (a + b) c.
Proof.
  intros. unfold advance. rewrite drop_drop. f_equal.
  assert (0 <= (pos + a) / 8 /\ 0 <= ((pos + a) mod 8 + b) / 8) by (Z.div_mod_to_equations; lia).
  rewrite <- Z2Nat.inj_add by lia. f_equal. Z.div_mod_to_equations. lia.
Qed.

Lemma stream_advance pos k c : Forall is_byte c -> 0 <= pos -> 0 <= k -> pos + k <= 8 * Z.of_nat (length c) ->
  stream ((pos + k) mod 8) (advance pos k c) = stream pos c / 2 ^ k.
Proof.
  intros Hc Hpos Hk Hlen. unfold stream, advance.
  assert (Hq : 0 <= (pos + k) / 8 <= Z.of_nat (length c)) by (Z.div_mod_to_equations; lia).
  rewrite le_drop by (done || lia). rewrite Z2Nat.id by lia.
  rewrite !div_pow2_add by (Z.div_mod_to_equations; lia). f_equal. f_equal. Z.div_mod_to_equations. lia.
Qed.

(** ** Values of a fixed width *)

(** The number that values of [w] bits make one after the other. *)
Fixpoint packed (w : Z) (vs : list Z) : Z :=
  match vs with
  | [] => 0
  | v :: vs' => v + 2 ^ w * packed w vs'
  end.

Definition fits (w v : Z) : Prop := 0 <= v < 2 ^ w.

Lemma packed_bounds w vs : 0 <= w -> Forall (fits w) vs -> 0 <= packed w vs < 2 ^ (w * Z.of_nat (length vs)).
Proof.
  intros Hw. induction 1 as [|v vs Hv _ IH]; [by rewrite Z.mul_0_r|]. cbn [packed length]. unfold fits in Hv.
  replace (w * Z.of_nat (S (length vs))) with (w + w * Z.of_nat (length vs)) by lia.
  rewrite Z.pow_add_r by lia. pose proof (two_pow_pos w Hw). nia.
Qed.

Lemma packed_app w a b : 0 <= w ->
  packed w (a ++ b) = packed w a + 2 ^ (w * Z.of_nat (length a)) * packed w b.
Proof.
  intros Hw. induction a as [|v a IH]; [rewrite Z.mul_0_r; cbn [app packed]; lia|]. cbn [app packed length]. rewrite IH.
  replace (w * Z.of_nat (S (length a))) with (w + w * Z.of_nat (length a)) by lia.
  rewrite Z.pow_add_r by lia. ring.
Qed.

(** From bit [pos] on, the cursor holds the values [vs] of [w] bits each. *)
Record holds (pos w : Z) (vs : list Z) (c : ReadCursor) : Prop := {
  holds_bytes : Forall is_byte c;
  holds_pos : 0 <= pos < 8;
  holds_fits : Forall (fits w) vs;
  holds_length : pos + w * Z.of_nat (length vs) <= 8 * Z.of_nat (length c);
  holds_stream : stream pos c mod 2 ^ (w * Z.of_nat (length vs)) = packed w vs
}.

Lemma holds_app pos w a b c : 0 <= w -> holds pos w (a ++ b) c ->
  stream pos c mod 2 ^ (w * Z.of_nat (length a)) = packed w a
  /\ holds ((pos + w * Z.of_nat (length a)) mod 8) w b (advance pos (w * Z.of_nat (length a)) c).
Proof.
  intros Hw [Hc Hpos Hf Hlen Hs]. apply Forall_app in Hf as [Hfa Hfb]. rewrite length_app in Hlen, Hs.
  set (la := w * Z.of_nat (length a)) in *. set (lb := w * Z.of_nat (length b)).
  assert (0 <= la /\ 0 <= lb) by (unfold la, lb; lia).
  replace (w * Z.of_nat (length a + length b)) with (la + lb) in Hlen, Hs by (unfold la, lb; lia).
  pose proof (packed_bounds w a Hw Hfa) as Ba. fold la in Ba.
  rewrite mod_pow2_split, packed_app in Hs by lia. fold la in Hs.
  pose proof (Z.mod_pos_bound (stream pos c) (2 ^ la) (two_pow_pos la ltac:(lia))) as Bm.
  pose proof (two_pow_pos la ltac:(lia)) as Pla.
  destruct (Z.div_mod_unique (2 ^ la) ((stream pos c / 2 ^ la) mod 2 ^ lb) (packed w b)
    (stream pos c mod 2 ^ la) (packed w a)) as [E1 E2]; [by left|by left|lia|].
  split; [done|]. constructor.
  - by apply advance_bytes.
  - apply Z.mod_pos_bound. lia.
  - done.
  - rewrite advance_length by lia. fold lb. Z.div_mod_to_equations. lia.
  - rewrite stream_advance by (done || lia). done.
Qed.

(** Groups of eight values are whole bytes. *)
Lemma packed_holds w g us c : 0 <= w -> length us = (8 * g)%nat -> Forall (fits w) us -> Forall is_byte c ->
  holds 0 w us (to_le (Z.to_nat w * g) (packed w us) ++ c)
  /\ w * Z.of_nat (length us) = 8 * Z.of_nat (Z.to_nat w * g)
  /\ advance 0 (w * Z.of_nat (length us)) (to_le (Z.to_nat w * g) (packed w us) ++ c) = c.
Proof.
  intros Hw Hlen Hus Hc. assert (E : w * Z.of_nat (length us) = 8 * Z.of_nat (Z.to_nat w * g)) by (rewrite Hlen; lia).
  split_and!; [|done|].
  - constructor; [apply Forall_app; split; [apply to_le_bytes|done]|lia|done|rewrite length_app, length_to_le; lia|].
    unfold stream. rewrite Z.div_1_r, le_app, length_to_le, le_to_le, <- E.
    rewrite (Z.mul_comm (2 ^ _) (le c)), Z.mod_add by (apply Z.pow_nonzero; lia). rewrite Z.mod_mod by (apply Z.pow_nonzero; lia).
    by apply Z.mod_small, packed_bounds.
  - unfold advance. rewrite Z.add_0_l, E, Z.mul_comm, Z.div_mul, Nat2Z.id by lia.
    rewrite drop_app_length' by (by rewrite length_to_le). done.
Qed.

Lemma from_u64_0 t : (0 < int_bytes t)%nat -> from_u64 t 0 = 0.
Proof.
  intros Ht. unfold from_u64, signed, int_bits. rewrite Z.mod_0_l by (apply Z.pow_nonzero; lia).
  destruct (int_signed t); [|done].
  pose proof (two_pow_pos (8 * Z.of_nat (int_bytes t) - 1) ltac:(lia)).
  by destruct (Z.ltb_spec 0 (2 ^ (8 * Z.of_nat (int_bytes t) - 1))); [|lia].
Qed.

Lemma unpack_values_spec t w vs rest pos c : 0 <= w <= 64 -> holds pos w (vs ++ rest) c ->
  unpack_values t w (length vs) pos c
  = (Ok (from_u64 t <$> vs, (pos + w * Z.of_nat (length vs)) mod 8), advance pos (w * Z.of_nat (length vs)) c).
Proof.
  intros Hw. revert pos c. induction vs as [|v vs IH]; intros pos c Hc.
  { rewrite Z.mul_0_r, Z.add_0_r, Z.mod_small, advance_stay by (destruct (holds_pos _ _ _ _ Hc); lia). done. }
  destruct (holds_app pos w [v] (vs ++ rest) c ltac:(lia) Hc) as [Hv Hrest]. cbn [length Z.of_nat packed] in Hv, Hrest.
  rewrite Z.mul_1_r in Hv, Hrest. rewrite Z.mul_0_r, Z.add_0_r in Hv.
  destruct Hc as [Hb Hpos Hf Hlen Hs]. cbn [length app] in *. rewrite length_app in Hlen.
  cbn [unpack_values]. unfold mbind at 1, M_bind at 1.
  rewrite unpack_loop_spec by first [done | lia].
  cbv beta match. rewrite Z.mul_1_l, Z.add_0_l, Hv. unfold mbind at 1, M_bind at 1.
  rewrite (IH _ _ Hrest), advance_advance by lia.
  replace (w + w * Z.of_nat (length vs)) with (w * Z.of_nat (S (length vs))) by lia.
  rewrite Z.add_mod_idemp_l by lia. cbn [fmap list_fmap]. unfold mret, M_ret. f_equal. f_equal. f_equal. f_equal. lia.
Qed.

Lemma bit_unpack_spec t w vs rest pos c : (0 < int_bytes t)%nat -> 0 <= w <= 64 -> holds pos w (vs ++ rest) c ->
  bit_unpack t {| bit_pos := pos; bit_width := w |} (length vs) c
  = (Ok (from_u64 t <$> vs, {| bit_pos := (pos + w * Z.of_nat (length vs)) mod 8; bit_width := w |}),
     advance pos (w * Z.of_nat (length vs)) c).
Proof.
  intros Ht Hw Hc. unfold bit_unpack. cbn [bit_width bit_pos].
  assert (Hm : index BITPACK_MASKS (Z.to_nat w) = Ok (Z.ones w)).
  { apply index_Ok. unfold BITPACK_MASKS. rewrite list_lookup_fmap, lookup_seqZ_lt by lia. simpl. f_equal. f_equal. lia. }
  unfold mbind at 1, M_bind at 1. unfold lift. rewrite Hm. cbv beta match.
  destruct (decide (w = 0)) as [->|Hw0].
  - destruct Hc as [Hb Hpos Hf Hlen Hs]. simpl (Z.ones 0 =? 0). cbv beta match.
    rewrite Z.mul_0_l, Z.add_0_r, Z.mod_small, advance_stay by lia. unfold mret, M_ret. f_equal. f_equal. f_equal.
    apply Forall_app in Hf as [Hf _]. clear -Hf Ht. induction Hf as [|v vs Hv _ IH]; [done|]. simpl. rewrite IH. f_equal.
    unfold fits in Hv. rewrite Z.pow_0_r in Hv. assert (v = 0) as -> by lia. by rewrite from_u64_0.
  - assert (Hne : (Z.ones w =? 0) = false).
    { apply Z.eqb_neq. rewrite Z.ones_equiv. pose proof (Z.pow_gt_lin_r 2 w ltac:(lia) ltac:(lia)). lia. }
    rewrite Hne. replace (w >? 64) with false by lia. unfold mbind at 1, M_bind at 1.
    by rewrite (unpack_values_spec t w vs rest).
Qed.

(** ** The writer *)

Record writer_ok (w : BitWriter) : Prop := {
  writer_bytes : Forall is_byte (buffer w);
  writer_offset : 0 <= bit_offset w < 64;
  writer_buffered : fits (bit_offset w) (buffered_values w)
}.

(** The number of bits written, and the number they make. *)
Definition written_bits (w : BitWriter) : Z := 8 * Z.of_nat (length (buffer w)) + bit_offset w.
Definition written (w : BitWriter) : Z :=
  le (buffer w) + 2 ^ (8 * Z.of_nat (length (buffer w))) * buffered_values w.

Lemma shr_or_zero_div v n : 0 <= v < 2 ^ 64 -> 0 <= n -> shr_or_zero v n = v / 2 ^ n.
Proof.
  intros Hv Hn. unfold shr_or_zero. destruct (Z.ltb_spec n 64); [by apply Z.shiftr_div_pow2|].
  rewrite Z.div_small; [done|]. split; [lia|]. apply Z.lt_le_trans with (2 ^ 64); [lia|]. apply Z.pow_le_mono_r; lia.
Qed.

Lemma fits_mono w w' v : 0 <= w <= w' -> fits w v -> fits w' v.
Proof. intros Hw [H0 H1]. split; [done|]. apply Z.lt_le_trans with (2 ^ w); [done|]. apply Z.pow_le_mono_r; lia. Qed.

(** What is left of [b] and a value put on top of it, below and above bit 64. *)
Lemma lor_shift_wrap b v off : 0 <= off < 64 -> fits off b -> 0 <= v ->
  Z.lor b (u64 (Z.shiftl v off)) = (b + 2 ^ off * v) mod 2 ^ 64
  /\ (b + 2 ^ off * v) / 2 ^ 64 = v / 2 ^ (64 - off).
Proof.
  intros Hoff Hb Hv. pose proof (two_pow_pos off ltac:(lia)) as P. unfold fits in Hb.
  assert (Hw : u64 (Z.shiftl v off) = Z.shiftl (v mod 2 ^ (64 - off)) off).
  { unfold u64. rewrite !Z.shiftl_mul_pow2 by lia. replace (2 ^ 64) with (2 ^ (64 - off) * 2 ^ off)
      by (rewrite <- Z.pow_add_r by lia; f_equal; lia). apply Z.mul_mod_distr_r; apply Z.pow_nonzero; lia. }
  assert (Hmod : b + 2 ^ off * (v mod 2 ^ (64 - off)) = (b + 2 ^ off * v) mod 2 ^ 64).
  { replace 64 with (off + (64 - off)) at 2 by lia. rewrite mod_pow2_split by lia.
    rewrite (Z.mul_comm _ v), Z.mod_add, Z.div_add by lia. by rewrite (Z.mod_small b), (Z.div_small b), Z.add_0_l by lia. }
  split; [rewrite Hw, lor_add_shift by (done || lia); exact Hmod|].
  replace 64 with (off + (64 - off)) at 1 by lia. rewrite <- div_pow2_add by lia.
  rewrite (Z.mul_comm _ v), Z.div_add by lia. by rewrite (Z.div_small b), Z.add_0_l by lia.
Qed.

Lemma put_value_spec v n w : writer_ok w -> 0 <= n <= 64 -> fits n v ->
  exists w', put_value v n w = Ok w' /\ writer_ok w'
    /\ written_bits w' = written_bits w + n /\ written w' = written w + 2 ^ written_bits w * v
    /\ buffer w `prefix_of` buffer w'.
Proof.
  intros [Hbytes Hoff Hbuf] Hn Hv. unfold put_value. cbv zeta.
  assert (Hv64 : fits 64 v) by (apply fits_mono with n; [lia|done]).
  replace (n <=? 64) with true by lia. cbn [rust_assert]. unfold mbind, res_bind.
  rewrite shr_or_zero_div by (done || lia). unfold fits in Hv. rewrite Z.div_small by lia. cbn [Z.eqb rust_assert].
  destruct (lor_shift_wrap (buffered_values w) v (bit_offset w) Hoff Hbuf ltac:(lia)) as [-> Hhigh].
  set (off := bit_offset w) in *. set (b := buffered_values w) in *.
  assert (HF : fits (off + n) (b + 2 ^ off * v)).
  { unfold fits in *. rewrite Z.pow_add_r by lia. pose proof (two_pow_pos off). nia. }
  pose proof (two_pow_pos (8 * Z.of_nat (length (buffer w)))) as P.
  destruct (Z.leb_spec 64 (off + n)) as [H64|H64].
  - eexists. split; [done|]. unfold written, written_bits. cbn [buffer buffered_values bit_offset].
    rewrite length_app, length_to_le, le_app, le_to_le. fold off b.
    rewrite shr_or_zero_div by (done || lia).
    replace (n - (off + n - 64)) with (64 - off) by lia. rewrite <- Hhigh.
    split_and!; [|lia| |by eexists].
    + split; cbn [buffer buffered_values bit_offset]; [apply Forall_app; split; [done|apply to_le_bytes]|lia|].
      unfold fits in *. split; [apply Z.div_pos; lia|]. apply Z.div_lt_upper_bound; [lia|].
      rewrite <- Z.pow_add_r by lia. replace (64 + (off + n - 64)) with (off + n) by lia. lia.
    + change (8 * Z.of_nat 8) with 64. rewrite Z.mod_mod by lia.
      replace (8 * Z.of_nat (length (buffer w) + 8)) with (8 * Z.of_nat (length (buffer w)) + 64) by lia.
      rewrite !(Z.pow_add_r 2 (8 * Z.of_nat (length (buffer w)))) by lia.
      pose proof (Z.div_mod (b + 2 ^ off * v) (2 ^ 64) ltac:(lia)) as E. nia.
  - unfold fits in HF. rewrite Z.mod_small.
    2:{ split; [lia|]. apply Z.lt_le_trans with (2 ^ (off + n)); [lia|]. apply Z.pow_le_mono_r; lia. }
    eexists. split; [done|]. unfold written, written_bits. cbn [buffer buffered_values bit_offset]. fold off b.
    split_and!; [split; cbn [buffer buffered_values bit_offset]; [done|lia|exact HF]|lia| |done].
    rewrite (Z.pow_add_r 2 (8 * Z.of_nat (length (buffer w)))) by lia. ring.
Qed.

Lemma put_values_spec vs n w : writer_ok w -> 0 <= n <= 64 -> Forall (fits n) vs ->
  exists w', put_values vs n w = Ok w' /\ writer_ok w'
    /\ written_bits w' = written_bits w + n * Z.of_nat (length vs)
    /\ written w' = written w + 2 ^ written_bits w * packed n vs
    /\ buffer w `prefix_of` buffer w'.
Proof.
  intros Hw Hn Hvs. revert w Hw. induction Hvs as [|v vs Hv _ IH]; intros w Hw.
  { exists w. cbn [packed length]. split_and!; [done|done|lia|lia|done]. }
  destruct (put_value_spec v n w Hw Hn Hv) as (w1 & E1 & Hw1 & B1 & N1 & P1).
  destruct (IH w1 Hw1) as (w2 & E2 & Hw2 & B2 & N2 & P2).
  exists w2. cbn [put_values packed length]. unfold mbind, res_bind. rewrite E1, E2. split_and!; [done|done|lia| |by etrans].
  rewrite N2, N1, B1. rewrite Z.pow_add_r; [ring| |lia]. destruct Hw. unfold written_bits. lia.
Qed.

(** What the writer holds once it is flushed. *)
Abbreviation contents := BitWriter_consume (only parsing).

Lemma ceil8 n : 0 <= n -> 0 <= ceil n 8 /\ n <= 8 * ceil n 8 < n + 8.
Proof. intros. unfold ceil. Z.div_mod_to_equations. lia. Qed.

Lemma flush_spec w : writer_ok w ->
  writer_ok (flush w) /\ le (contents w) = written w /\ buffer w `prefix_of` contents w
  /\ Z.of_nat (length (contents w)) = Z.of_nat (length (buffer w)) + ceil (bit_offset w) 8.
Proof.
  intros [Hbytes Hoff Hbuf]. destruct (ceil8 (bit_offset w) ltac:(lia)) as [H0 H8].
  unfold BitWriter_consume, flush. cbn [buffer BitWriter_new_from_buf].
  rewrite take_to_le by lia.
  split_and!; [|rewrite le_app, le_to_le, Z2Nat.id by lia|by eexists|rewrite length_app, length_to_le; lia].
  - split; cbn [buffer BitWriter_new_from_buf bit_offset buffered_values]; [|lia|by split].
    apply Forall_app. split; [done|apply to_le_bytes].
  - unfold written. f_equal. f_equal. apply Z.mod_small. apply fits_mono with (bit_offset w); [lia|done].
Qed.

(** ** Whole bytes *)

Definition aligned (w : BitWriter) : Prop := written_bits w mod 8 = 0.

Lemma new_from_buf_ok buf : Forall is_byte buf -> writer_ok (BitWriter_new_from_buf buf).
Proof. intros Hb. by split. Qed.

Lemma new_from_buf_contents buf : contents (BitWriter_new_from_buf buf) = buf.
Proof. apply app_nil_r. Qed.

Lemma new_from_buf_aligned buf : aligned (BitWriter_new_from_buf buf).
Proof. unfold aligned, written_bits. cbn [BitWriter_new_from_buf buffer bit_offset]. by rewrite Z.add_0_r, Z.mul_comm, Z.mod_mul. Qed.

Lemma contents_bytes w : writer_ok w -> Forall is_byte (contents w).
Proof. intros Hw. by destruct (flush_spec w Hw) as [[]]. Qed.

Lemma contents_length w : writer_ok w -> aligned w -> written_bits w = 8 * Z.of_nat (length (contents w)).
Proof.
  intros Hw Ha. destruct (flush_spec w Hw) as (_ & _ & _ & Hlen). rewrite Hlen. unfold aligned, written_bits in *.
  destruct Hw as [_ Hoff _]. unfold ceil. Z.div_mod_to_equations. lia.
Qed.

(** Values that fill whole bytes are appended to the contents. *)
Lemma contents_put_values vs n w bytes : writer_ok w -> aligned w -> 0 <= n <= 64 -> Forall (fits n) vs ->
  n * Z.of_nat (length vs) = 8 * Z.of_nat bytes ->
  exists w', put_values vs n w = Ok w' /\ writer_ok w' /\ aligned w'
    /\ contents w' = contents w ++ to_le bytes (packed n vs) /\ buffer w `prefix_of` buffer w'.
Proof.
  intros Hw Ha Hn Hvs Hbytes. destruct (put_values_spec vs n w Hw Hn Hvs) as (w' & E & Hw' & B & N & P).
  pose proof (contents_length w Hw Ha) as Hlen.
  assert (Ha' : aligned w') by (unfold aligned; rewrite B, Hlen, Hbytes; Z.div_mod_to_equations; lia).
  exists w'. split_and!; [done..| |done]. pose proof (contents_length w' Hw' Ha') as Hlen'.
  destruct (flush_spec w Hw) as (_ & Hle & _). destruct (flush_spec w' Hw') as (_ & Hle' & _).
  apply le_inj.
  - by apply contents_bytes.
  - apply Forall_app. split; [by apply contents_bytes|apply to_le_bytes].
  - rewrite length_app, length_to_le. lia.
  - rewrite le_app, le_to_le, Hle, Hle', N, Hlen, Z.mod_small; [done|].
    pose proof (packed_bounds n vs ltac:(lia) Hvs) as Hb. by rewrite Hbytes in Hb.
Qed.

Lemma put_aligned_spec size val k w : writer_ok w ->
  let w' := put_aligned size val k w in
  writer_ok w' /\ aligned w' /\ bit_offset w' = 0 /\ contents w' = contents w ++ to_le (Nat.min k size) val.
Proof.
  intros Hw w'. unfold w', put_aligned. rewrite new_from_buf_contents, take_to_le by lia. split_and!; [|apply new_from_buf_aligned|done|done].
  apply new_from_buf_ok, Forall_app. split; [by apply contents_bytes|apply to_le_bytes].
Qed.

Lemma skip_spec n w : writer_ok w ->
  let '(pos, w') := skip n w in
  pos = length (contents w) /\ writer_ok w' /\ aligned w' /\ contents w' = contents w ++ replicate n 0
  /\ buffer w' = contents w'.
Proof.
  intros Hw. unfold skip. rewrite new_from_buf_contents. split_and!; [done| |apply new_from_buf_aligned|done|done].
  apply new_from_buf_ok, Forall_app. split; [by apply contents_bytes|]. by apply Forall_replicate.
Qed.

(** Overwriting a byte that has left the bit buffer. *)
Lemma write_at_spec i v w : writer_ok w -> is_byte v -> (i < length (buffer w))%nat ->
  exists w', write_at i v w = Ok w' /\ writer_ok w' /\ written_bits w' = written_bits w
    /\ contents w' = <[i := v]> (contents w) /\ buffer w' = <[i := v]> (buffer w).
Proof.
  intros [Hb Ho Hf] Hv Hi. unfold write_at. rewrite (proj2 (Nat.ltb_lt i _) Hi). eexists. split; [done|].
  split_and!; [|by unfold written_bits; cbn [buffer bit_offset]; rewrite length_insert| |done].
  - split; cbn [buffer bit_offset buffered_values]; [|done..]. by apply Forall_insert.
  - unfold BitWriter_consume, flush. cbn [buffer BitWriter_new_from_buf bit_offset buffered_values].
    by rewrite insert_app_l.
Qed.

(** ** Variable length integers *)

Fixpoint vlq_groups (fuel : nat) (v : Z) : list Z :=
  match fuel with
  | O => []
  | S fuel' => if v <? 128 then [v] else (v mod 128 + 128) :: vlq_groups fuel' (v / 128)
  end.

(** The bytes of a variable length integer. *)
Definition vlq (v : Z) : list Z := vlq_groups 10 v.

Lemma seven_bits x : 0 <= x < 128 ->
  Z.land x 127 = x /\ Z.land x 128 = 0 /\ Z.land (x + 128) 127 = x /\ Z.land (x + 128) 128 = 128
  /\ Z.lor x 128 = x + 128.
Proof.
  intros Hx.
  assert (Hall : Forall (fun x => Z.land x 127 = x /\ Z.land x 128 = 0 /\ Z.land (x + 128) 127 = x
    /\ Z.land (x + 128) 128 = 128 /\ Z.lor x 128 = x + 128) (seqZ 0 128)) by (vm_compute; repeat constructor).
  rewrite Forall_forall in Hall. apply Hall, elem_of_seqZ. lia.
Qed.

Lemma vlq_groups_bytes fuel v : 0 <= v -> Forall is_byte (vlq_groups fuel v).
Proof.
  revert v. induction fuel as [|fuel IH]; intros v Hv; [constructor|]. cbn [vlq_groups].
  destruct (Z.ltb_spec v 128); constructor; [unfold is_byte; lia|constructor|unfold is_byte|apply IH, Z.div_pos; lia].
  pose proof (Z.mod_pos_bound v 128). lia.
Qed.

Lemma vlq_bytes v : 0 <= v -> Forall is_byte (vlq v).
Proof. apply vlq_groups_bytes. Qed.

(** A single byte if the value has at most seven bits. *)
Lemma vlq_length v : (0 < length (vlq v))%nat.
Proof. unfold vlq. cbn [vlq_groups]. destruct (v <? 128); cbn [length]; lia. Qed.

Lemma vlq_small v : 0 <= v < 128 -> vlq v = [v].
Proof. intros Hv. unfold vlq. cbn [vlq_groups]. by rewrite (proj2 (Z.ltb_lt v 128)) by lia. Qed.

Lemma high_bits v : 0 <= v < 2 ^ 64 -> (Z.land v 18446744073709551488 =? 0) = (v <? 128).
Proof.
  intros Hv. change 18446744073709551488 with (Z.shiftl (Z.ones 57) 7).
  assert (E : Z.land v (Z.shiftl (Z.ones 57) 7) = Z.shiftl (v / 2 ^ 7) 7).
  { rewrite <- (Z.mod_small (v / 2 ^ 7) (2 ^ 57)), <- Z.land_ones, <- Z.shiftr_div_pow2 by
      first [lia | split; [apply Z.div_pos; lia|apply Z.div_lt_upper_bound; lia]].
    apply Z.bits_inj'. intros i Hi. rewrite Z.land_spec, !Z.shiftl_spec by lia.
    destruct (Z.ltb_spec i 7) as [H7|H7].
    - rewrite !(Z.testbit_neg_r _ (i - 7)) by lia. apply andb_false_r.
    - rewrite Z.land_spec, Z.shiftr_spec by lia. by replace (i - 7 + 7) with i by lia. }
  rewrite E, Z.shiftl_mul_pow2 by lia. apply eq_bool_prop_intro.
  destruct (Z.ltb_spec v 128); destruct (Z.eqb_spec (v / 2 ^ 7 * 2 ^ 7) 0); try done.
  - rewrite Z.div_small in n by lia. lia.
  - pose proof (Z.div_le_lower_bound v (2 ^ 7) 1). lia.
Qed.

Lemma put_vlq_loop_spec fuel v w : writer_ok w -> 0 <= v < 2 ^ 64 -> v < 2 ^ (7 * Z.of_nat fuel) -> (0 < fuel)%nat ->
  exists w', put_vlq_loop fuel v w = Ok w' /\ writer_ok w' /\ aligned w' /\ bit_offset w' = 0
    /\ contents w' = contents w ++ vlq_groups fuel v.
Proof.
  revert v w. induction fuel as [|fuel IH]; intros v w Hw Hv Hb Hf; [lia|]. cbn [put_vlq_loop vlq_groups].
  rewrite high_bits by done. destruct (Z.ltb_spec v 128) as [H|H].
  - destruct (seven_bits v ltac:(lia)) as [-> _].
    destruct (put_aligned_spec 1 v 1 w Hw) as (H1 & H2 & H3 & H4). eexists. split_and!; [done..|].
    rewrite H4. cbn [Nat.min to_le]. by rewrite Z.mod_small by lia.
  - destruct fuel as [|fuel]; [change (7 * Z.of_nat 1) with 7 in Hb; lia|].
    assert (Hm : 0 <= v mod 128 < 128) by (apply Z.mod_pos_bound; lia).
    change 127 with (Z.ones 7). rewrite Z.land_ones, Z.shiftr_div_pow2 by lia. change (2 ^ 7) with 128.
    destruct (seven_bits _ Hm) as (_ & _ & _ & _ & ->).
    destruct (put_aligned_spec 1 (v mod 128 + 128) 1 w Hw) as (H1 & H2 & H3 & H4).
    destruct (IH (v / 128) _ H1) as (w' & E & Hw' & Ha' & Ho' & Hc').
    + split; [apply Z.div_pos; lia|]. apply Z.div_lt_upper_bound; lia.
    + apply Z.div_lt_upper_bound; [lia|]. replace (7 * Z.of_nat (S (S fuel))) with (7 + 7 * Z.of_nat (S fuel)) in Hb by lia.
      by rewrite Z.pow_add_r in Hb by lia.
    + lia.
    + exists w'. split_and!; [done..|]. rewrite Hc', H4, <- app_assoc. cbn [Nat.min to_le].
      by rewrite (Z.mod_small (v mod 128 + 128)) by lia.
Qed.

Lemma put_vlq_int_spec v w : writer_ok w -> 0 <= v < 2 ^ 64 ->
  exists w', put_vlq_int v w = Ok w' /\ writer_ok w' /\ aligned w' /\ bit_offset w' = 0 /\ contents w' = contents w ++ vlq v.
Proof. intros Hw Hv. apply put_vlq_loop_spec; [done|done|change (2 ^ (7 * Z.of_nat 10)) with (2 ^ 70); lia|lia]. Qed.

Lemma vlq_loop_spec fuel result shift v c :
  0 <= v < 2 ^ (7 * Z.of_nat fuel) -> (0 < fuel)%nat -> 0 <= shift -> fits shift result ->
  result + 2 ^ shift * v < 2 ^ 64 ->
  vlq_loop fuel result shift (vlq_groups fuel v ++ c) = (Ok (result + 2 ^ shift * v), c).
Proof.
  revert result shift v c. induction fuel as [|fuel IH]; intros result shift v c Hv Hf Hs Hr Hsum; [lia|].
  pose proof (two_pow_pos shift Hs) as P. unfold fits in Hr. cbn [vlq_loop vlq_groups].
  assert (Hstep : forall x, 0 <= x < 128 -> x <= v ->
    Z.lor result (u64 (Z.shiftl x shift)) = result + 2 ^ shift * x).
  { intros x Hx Hxv. unfold u64. rewrite Z.mod_small by (rewrite Z.shiftl_mul_pow2 by lia; nia).
    by apply lor_add_shift. }
  destruct (Z.ltb_spec v 128) as [H|H].
  - cbn [app]. unfold mbind, M_bind. rewrite read_next_u8_cons. destruct (seven_bits v ltac:(lia)) as (-> & -> & _).
    by rewrite Hstep by lia.
  - destruct fuel as [|fuel]; [change (2 ^ (7 * Z.of_nat 1)) with 128 in Hv; lia|].
    assert (Hm : 0 <= v mod 128 < 128) by (apply Z.mod_pos_bound; lia).
    pose proof (Z.div_mod v 128 ltac:(lia)) as Hdm.
    rewrite <- app_comm_cons. unfold mbind at 1, M_bind at 1. rewrite read_next_u8_cons.
    destruct (seven_bits _ Hm) as (_ & _ & -> & -> & _). rewrite Hstep by (try apply Z.mod_le; lia).
    change (128 =? 0) with false. cbv beta match zeta.
    assert (Hs64 : shift + 7 < 64).
    { apply (Z.pow_lt_mono_r_iff 2); [lia|lia|]. rewrite Z.pow_add_r by lia. change (2 ^ 7) with 128. nia. }
    rewrite (proj2 (Z.leb_gt 64 (shift + 7))) by lia.
    assert (E : result + 2 ^ shift * v = result + 2 ^ shift * (v mod 128) + 2 ^ (shift + 7) * (v / 128)).
    { rewrite Z.pow_add_r by lia. change (2 ^ 7) with 128. rewrite Hdm at 1. ring. }
    rewrite IH; [by rewrite E| |lia|lia| |lia].
    + split; [apply Z.div_pos; lia|]. apply Z.div_lt_upper_bound; [lia|].
      replace (7 * Z.of_nat (S (S fuel))) with (7 + 7 * Z.of_nat (S fuel)) in Hv by lia.
      rewrite Z.pow_add_r in Hv by lia. lia.
    + unfold fits. rewrite Z.pow_add_r by lia. change (2 ^ 7) with 128. nia.
Qed.

Lemma read_vlq v c : 0 <= v < 2 ^ 64 -> read_unsigned_vlq (vlq v ++ c) = (Ok v, c).
Proof.
  intros Hv. unfold read_unsigned_vlq, vlq. rewrite vlq_loop_spec; [by rewrite Z.mul_1_l| |lia|lia|by split|lia].
  change (2 ^ (7 * Z.of_nat 10)) with (2 ^ 70). lia.
Qed.

(** ** Zigzag *)

Lemma signed_eq b x : 0 < b -> exists k, signed b x = x + k * 2 ^ b.
Proof.
  intros Hb. unfold signed. pose proof (Z.div_mod x (2 ^ b) ltac:(apply Z.pow_nonzero; lia)) as E.
  destruct (_ <? _); [exists (- (x / 2 ^ b))|exists (- (x / 2 ^ b) - 1)]; lia.
Qed.

Lemma signed_mod b x : 0 < b -> signed b x mod 2 ^ b = x mod 2 ^ b.
Proof. intros Hb. destruct (signed_eq b x Hb) as [k ->]. apply Z.mod_add, Z.pow_nonzero; lia. Qed.

(** A number in range is its own two's complement. *)
Lemma signed_id b x : 0 < b -> - 2 ^ (b - 1) <= x < 2 ^ (b - 1) -> signed b x = x.
Proof.
  intros Hb Hx. unfold signed. assert (H2 : 2 ^ b = 2 * 2 ^ (b - 1)) by (rewrite <- Z.pow_succ_r by lia; f_equal; lia).
  destruct (decide (0 <= x)) as [H0|H0].
  - rewrite Z.mod_small by lia. by rewrite (proj2 (Z.ltb_lt x _)) by lia.
  - rewrite <- (Z.mod_add x 1), Z.mul_1_l, Z.mod_small by lia. rewrite (proj2 (Z.ltb_ge (x + 2 ^ b) _)) by lia. lia.
Qed.

Lemma signed_range b x : 0 < b -> - 2 ^ (b - 1) <= signed b x < 2 ^ (b - 1).
Proof.
  intros Hb. unfold signed. assert (H2 : 2 ^ b = 2 * 2 ^ (b - 1)) by (rewrite <- Z.pow_succ_r by lia; f_equal; lia).
  pose proof (Z.mod_pos_bound x (2 ^ b) ltac:(apply two_pow_pos; lia)).
  destruct (Z.ltb_spec (x mod 2 ^ b) (2 ^ (b - 1))); lia.
Qed.

Definition is_i64 (n : Z) : Prop := - 2 ^ 63 <= n < 2 ^ 63.

Lemma zigzag_encode_spec n : is_i64 n -> zigzag_encode n = if 0 <=? n then 2 * n else - 2 * n - 1.
Proof.
  intros Hn. unfold is_i64 in Hn. unfold zigzag_encode, u64. rewrite Z.shiftl_mul_pow2, Z.shiftr_div_pow2 by lia. change (2 ^ 1) with 2.
  destruct (signed_eq 64 (n * 2) ltac:(lia)) as [k ->]. destruct (Z.leb_spec 0 n) as [H|H].
  - rewrite (Z.div_small n), Z.lxor_0_r, Z.mod_add, Z.mod_small by lia. lia.
  - assert (n / 2 ^ 63 = -1) as -> by (Z.div_mod_to_equations; lia).
    rewrite Z.lxor_m1_r. unfold Z.lnot. replace (Z.pred (- (n * 2 + k * 2 ^ 64))) with (- 2 * n - 1 + (- k) * 2 ^ 64) by lia.
    rewrite Z.mod_add, Z.mod_small by lia. done.
Qed.

Lemma zigzag_encode_u64 n : is_i64 n -> 0 <= zigzag_encode n < 2 ^ 64.
Proof. intros _. apply Z.mod_pos_bound. done. Qed.

Lemma zigzag_round_trip n : is_i64 n -> zigzag_decode (zigzag_encode n) = n.
Proof.
  intros Hn. rewrite zigzag_encode_spec by done. unfold zigzag_decode. change (Z.land ?x 1) with (Z.land x (Z.ones 1)).
  rewrite Z.land_ones, Z.shiftr_div_pow2 by lia. change (2 ^ 1) with 2. destruct (Z.leb_spec 0 n) as [H|H].
  - rewrite Z.mul_comm, Z.div_mul, Z.mod_mul by lia. apply Z.lxor_0_r.
  - replace (- 2 * n - 1) with (1 + (- n - 1) * 2) by lia. rewrite Z.div_add, Z.mod_add by lia.
    change (- (1 mod 2)) with (-1). rewrite Z.lxor_m1_r. unfold Z.lnot. change (1 / 2) with 0. lia.
Qed.
