(* ===== verification/ParquetRle.v ===== *)
(** * The RLE / bit-packing hybrid encoding

    The encoder ([encodings/rle.rs], [RleEncoder]), which decides every eight
    values between a run of one value and bit-packed groups, and the decoder of
    the column reader ([column/encoding/rle_bit_packed.rs]), which can be read
    from in pieces of any size.  Dictionary indices, booleans and definition
    levels are written this way. *)
From S2P Require Import Prelude ParquetBits.
Open Scope Z_scope.

(** ** Encoder *)

Definition MAX_GROUPS_PER_BIT_PACKED_RUN : nat := 64.

Record RleEncoder := {
  enc_bit_width : Z;
  bit_writer : BitWriter;
  enc_buffered : list Z;
  num_buffered_values : nat;
  current_value : Z;
  repeat_count : nat;
  bit_packed_count : nat;
  indicator_byte_pos : Z
}.

Definition new_from_buf (w : Z) (buf : list Z) : RleEncoder := {|
  enc_bit_width := w; bit_writer := BitWriter_new_from_buf buf; enc_buffered := replicate 8 0;
  num_buffered_values := 0; current_value := 0; repeat_count := 0; bit_packed_count := 0;
  indicator_byte_pos := -1
|}.

Definition flush_rle_run (e : RleEncoder) : res RleEncoder :=
  _ ← rust_assert (0 <? repeat_count e)%nat "self.repeat_count > 0";
  let indicator_value := Z.shiftl (Z.of_nat (repeat_count e)) 1 in
  w ← put_vlq_int (u64 indicator_value) (bit_writer e);
  let w := put_aligned 8 (current_value e) (Z.to_nat (ceil (enc_bit_width e) 8)) w in
  Ok {| enc_bit_width := enc_bit_width e; bit_writer := w; enc_buffered := enc_buffered e;
        num_buffered_values := 0; current_value := current_value e; repeat_count := 0;
        bit_packed_count := bit_packed_count e; indicator_byte_pos := indicator_byte_pos e |}.

Definition flush_bit_packed_run (update_indicator_byte : bool) (e : RleEncoder) : res RleEncoder :=
  let '(pos, w) :=
    if indicator_byte_pos e <? 0 then let '(p, w) := skip 1 (bit_writer e) in (Z.of_nat p, w)
    else (indicator_byte_pos e, bit_writer e) in
  w ← put_values (take (num_buffered_values e) (enc_buffered e)) (enc_bit_width e) w;
  if update_indicator_byte then
    let num_groups := (bit_packed_count e / 8)%nat in
    let indicator_byte := Z.lor (Z.shiftl (Z.of_nat num_groups) 1) 1 mod 256 in
    w ← put_aligned_offset indicator_byte (Z.to_nat pos) w;
    Ok {| enc_bit_width := enc_bit_width e; bit_writer := w; enc_buffered := enc_buffered e;
          num_buffered_values := 0; current_value := current_value e; repeat_count := repeat_count e;
          bit_packed_count := 0; indicator_byte_pos := -1 |}
  else
    Ok {| enc_bit_width := enc_bit_width e; bit_writer := w; enc_buffered := enc_buffered e;
          num_buffered_values := 0; current_value := current_value e; repeat_count := repeat_count e;
          bit_packed_count := bit_packed_count e; indicator_byte_pos := pos |}.

Definition set_repeat (n : nat) (e : RleEncoder) : RleEncoder :=
  {| enc_bit_width := enc_bit_width e; bit_writer := bit_writer e; enc_buffered := enc_buffered e;
     num_buffered_values := num_buffered_values e; current_value := current_value e; repeat_count := n;
     bit_packed_count := bit_packed_count e; indicator_byte_pos := indicator_byte_pos e |}.

Definition set_current (v : Z) (e : RleEncoder) : RleEncoder :=
  {| enc_bit_width := enc_bit_width e; bit_writer := bit_writer e; enc_buffered := enc_buffered e;
     num_buffered_values := num_buffered_values e; current_value := v; repeat_count := repeat_count e;
     bit_packed_count := bit_packed_count e; indicator_byte_pos := indicator_byte_pos e |}.

Definition set_buffered (bs : list Z) (n : nat) (e : RleEncoder) : RleEncoder :=
  {| enc_bit_width := enc_bit_width e; bit_writer := bit_writer e; enc_buffered := bs;
     num_buffered_values := n; current_value := current_value e; repeat_count := repeat_count e;
     bit_packed_count := bit_packed_count e; indicator_byte_pos := indicator_byte_pos e |}.

Definition set_packed_count (n : nat) (e : RleEncoder) : RleEncoder :=
  {| enc_bit_width := enc_bit_width e; bit_writer := bit_writer e; enc_buffered := enc_buffered e;
     num_buffered_values := num_buffered_values e; current_value := current_value e; repeat_count := repeat_count e;
     bit_packed_count := n; indicator_byte_pos := indicator_byte_pos e |}.

Definition flush_buffered_values (e : RleEncoder) : res RleEncoder :=
  if (8 <=? repeat_count e)%nat then
    let e := set_buffered (enc_buffered e) 0 e in
    if (0 <? bit_packed_count e)%nat then
      _ ← rust_assert (bit_packed_count e mod 8 =? 0)%nat "self.bit_packed_count % 8 == 0";
      flush_bit_packed_run true e
    else Ok e
  else
    let e := set_packed_count (bit_packed_count e + num_buffered_values e) e in
    let num_groups := (bit_packed_count e / 8)%nat in
    e ← (if (MAX_GROUPS_PER_BIT_PACKED_RUN <=? num_groups + 1)%nat then
           _ ← rust_assert (0 <=? indicator_byte_pos e) "self.indicator_byte_pos >= 0";
           flush_bit_packed_run true e
         else flush_bit_packed_run false e);
    Ok (set_repeat 0 e).

(** The end of [put], for a value that is buffered. *)
Definition buffer_value (value : Z) (e : RleEncoder) : res RleEncoder :=
  _ ← rust_assert (num_buffered_values e <? length (enc_buffered e))%nat "index out of bounds";
  let e := set_buffered (<[num_buffered_values e := value]> (enc_buffered e)) (S (num_buffered_values e)) e in
  if (num_buffered_values e =? 8)%nat then
    _ ← rust_assert (bit_packed_count e mod 8 =? 0)%nat "self.bit_packed_count % 8 == 0";
    flush_buffered_values e
  else Ok e.

(** [RleEncoder::put] *)
Definition put (value : Z) (e : RleEncoder) : res RleEncoder :=
  if current_value e =? value then
    let e := set_repeat (S (repeat_count e)) e in
    if (8 <? repeat_count e)%nat then Ok e else buffer_value value e
  else
    e ← (if (8 <=? repeat_count e)%nat then
           _ ← rust_assert (bit_packed_count e =? 0)%nat "self.bit_packed_count == 0";
           flush_rle_run e
         else Ok e);
    buffer_value value (set_current value (set_repeat 1 e)).

(** [RleEncoder::flush] *)
Definition flush_encoder (e : RleEncoder) : res RleEncoder :=
  if ((0 <? bit_packed_count e) || (0 <? repeat_count e) || (0 <? num_buffered_values e))%nat then
    let all_repeat := ((bit_packed_count e =? 0)
      && ((repeat_count e =? num_buffered_values e) || (num_buffered_values e =? 0)))%nat in
    if (0 <? repeat_count e)%nat && all_repeat then flush_rle_run e
    else
      let n := num_buffered_values e in
      let e := if (0 <? n)%nat then set_buffered (take n (enc_buffered e) ++ replicate (8 - n) 0) (Nat.max n 8) e else e in
      let e := set_packed_count (bit_packed_count e + num_buffered_values e) e in
      e ← flush_bit_packed_run true e;
      Ok (set_repeat 0 e)
  else Ok e.

(** [RleEncoder::consume] *)
Definition consume (e : RleEncoder) : res (list Z) :=
  e ← flush_encoder e; Ok (BitWriter_consume (bit_writer e)).

Fixpoint put_all (vs : list Z) (e : RleEncoder) : res RleEncoder :=
  match vs with
  | [] => Ok e
  | v :: vs' => e ← put v e; put_all vs' e
  end.

(** ** Decoder *)

Record RleBitPackedDecoder := {
  dec_buffer : ReadCursor;
  dec_bit_width : Z;
  curr_val : Z;
  rle_left : Z;
  bit_packed_left : Z;
  dec_bit_pos : Z;
  byte_enc_len : nat
}.

Definition RleBitPackedDecoder_new (buf : ReadCursor) (w : Z) : res RleBitPackedDecoder :=
  _ ← rust_assert (w <=? 64) "bit_width <= 64";
  Ok {| dec_buffer := buf; dec_bit_width := w; curr_val := 0; rle_left := 0; bit_packed_left := 0;
        dec_bit_pos := 0; byte_enc_len := Z.to_nat (ceil w 8) |}.

Definition set_dec_buffer (c : ReadCursor) (d : RleBitPackedDecoder) : RleBitPackedDecoder :=
  {| dec_buffer := c; dec_bit_width := dec_bit_width d; curr_val := curr_val d; rle_left := rle_left d;
     bit_packed_left := bit_packed_left d; dec_bit_pos := dec_bit_pos d; byte_enc_len := byte_enc_len d |}.

(** Reading from the decoder's buffer. *)
Definition on_buffer {A} (m : M ReadCursor A) : M RleBitPackedDecoder A := fun d =>
  let '(r, c) := m (dec_buffer d) in (r, set_dec_buffer c d).

(** The bytes of the repeated value, the loop of [read_next]. *)
Fixpoint read_repeated (n idx : nat) (curr : Z) : M ReadCursor Z :=
  match n with
  | O => mret curr
  | S n' =>
    b ← read_next_u8;
    read_repeated n' (S idx) (Z.lor curr (u64 (Z.shiftl b (Z.of_nat idx * 8))))
  end.

Definition set_run (curr rle packed : Z) : M RleBitPackedDecoder unit := fun d =>
  (Ok tt, {| dec_buffer := dec_buffer d; dec_bit_width := dec_bit_width d; curr_val := curr; rle_left := rle;
             bit_packed_left := packed; dec_bit_pos := dec_bit_pos d; byte_enc_len := byte_enc_len d |}).

Definition read_next : M RleBitPackedDecoder unit :=
  d ← get;
  if negb (dec_bit_pos d =? 0) then fail "RleBpDecoder.read_next requires byte alignment"
  else
    indicator_val ← on_buffer read_unsigned_vlq;
    if Z.land indicator_val 1 =? 1 then
      let num_groups := Z.shiftr indicator_val 1 in
      _ ← lift (rust_assert (num_groups * 8 <? 2 ^ 64) "attempt to multiply with overflow");
      set_run (curr_val d) (rle_left d) (num_groups * 8)
    else
      _ ← set_run (curr_val d) (Z.shiftr indicator_val 1) (bit_packed_left d);
      v ← on_buffer (read_repeated (byte_enc_len d) 0 0);
      set_run v (Z.shiftr indicator_val 1) (bit_packed_left d).

Definition set_bit_packed (pos packed : Z) : M RleBitPackedDecoder unit := fun d =>
  (Ok tt, {| dec_buffer := dec_buffer d; dec_bit_width := dec_bit_width d; curr_val := curr_val d; rle_left := rle_left d;
             bit_packed_left := packed; dec_bit_pos := pos; byte_enc_len := byte_enc_len d |}).

(** The loop of [read], with [n] values to go.  Every round reads a value or at
    least a byte of a header. *)
Fixpoint read_loop (t : IntType) (fuel n : nat) : M RleBitPackedDecoder (list Z) :=
  match fuel with
  | O => lift (Panic "out of fuel")
  | S fuel' =>
    if (n =? 0)%nat then mret []
    else
      d ← get;
      if 0 <? rle_left d then
        let count := Z.to_nat (Z.min (Z.of_nat n) (rle_left d)) in
        _ ← set_run (curr_val d) (rle_left d - Z.of_nat count) (bit_packed_left d);
        vs ← read_loop t fuel' (n - count);
        mret (replicate count (from_u64 t (curr_val d)) ++ vs)
      else if 0 <? bit_packed_left d then
        let count := Z.to_nat (Z.min (Z.of_nat n) (bit_packed_left d)) in
        '(us, state) ← on_buffer (bit_unpack t {| bit_pos := dec_bit_pos d; bit_width := dec_bit_width d |} count);
        _ ← set_bit_packed (bit_pos state) (bit_packed_left d - Z.of_nat count);
        vs ← read_loop t fuel' (n - count);
        mret (us ++ vs)
      else
        _ ← read_next; read_loop t fuel' n
  end.

(** [RleBitPackedDecoder::read] into a slice of [n] values. *)
Definition read (t : IntType) (n : nat) : M RleBitPackedDecoder (list Z) := fun d =>
  read_loop t (S (n + length (dec_buffer d))) n d.

(** Reading in several calls. *)
Fixpoint reads (t : IntType) (ns : list nat) : M RleBitPackedDecoder (list (list Z)) :=
  match ns with
  | [] => mret []
  | n :: ns' => vs ← read t n; vss ← reads t ns'; mret (vs :: vss)
  end.
