(* ===== verification/RleCorrect.v ===== *)
(** * The hybrid encoding is read back

    The grammar of the encoding, that the encoder writes it, and that the decoder
    reads it, whatever the sizes of the reads. *)
From S2P Require Import Prelude ParquetBits BitStreams ParquetRle.
Open Scope Z_scope.

(** ** The grammar *)

(** The bytes of a value of [w] bits. *)
Definition width_bytes (w : Z) : nat := Z.to_nat (ceil w 8).

(** [hybrid w bs vs]: the bytes [bs] are runs that encode the values [vs] of [w]
    bits: a repeated value with its count, or groups of eight values. *)
Inductive hybrid (w : Z) : list Z -> list Z -> Prop :=
| hybrid_nil : hybrid w [] []
| hybrid_rle n v bs vs :
    2 * Z.of_nat n < 2 ^ 64 -> fits w v -> hybrid w bs vs ->
    hybrid w (vlq (2 * Z.of_nat n) ++ to_le (width_bytes w) v ++ bs) (replicate n v ++ vs)
| hybrid_packed g us bs vs :
    16 * Z.of_nat g < 2 ^ 64 -> length us = (8 * g)%nat -> Forall (fits w) us -> hybrid w bs vs ->
    hybrid w (vlq (2 * Z.of_nat g + 1) ++ to_le (Z.to_nat w * g) (packed w us) ++ bs) (us ++ vs).

Lemma hybrid_app w bs bs' vs vs' : hybrid w bs vs -> hybrid w bs' vs' -> hybrid w (bs ++ bs') (vs ++ vs').
Proof. intros H H'. induction H; [done|..]; rewrite <- !app_assoc; by constructor. Qed.

Lemma hybrid_bytes w bs vs : hybrid w bs vs -> Forall is_byte bs.
Proof.
  induction 1; [constructor|..]; rewrite !Forall_app; split_and!; try done; first [apply to_le_bytes|apply vlq_bytes; lia].
Qed.

Lemma hybrid_rle_run w n v : 2 * Z.of_nat n < 2 ^ 64 -> fits w v ->
  hybrid w (vlq (2 * Z.of_nat n) ++ to_le (width_bytes w) v) (replicate n v).
Proof.
  intros Hn Hv. rewrite <- (app_nil_r (replicate n v)), <- (app_nil_r (to_le _ v)). constructor; [done..|constructor].
Qed.

Lemma hybrid_packed_run w g us : 16 * Z.of_nat g < 2 ^ 64 -> length us = (8 * g)%nat -> Forall (fits w) us ->
  hybrid w (vlq (2 * Z.of_nat g + 1) ++ to_le (Z.to_nat w * g) (packed w us)) us.
Proof.
  intros Hg Hus Hf. rewrite <- (app_nil_r us) at 2. rewrite <- (app_nil_r (to_le _ _)). constructor; [done..|constructor].
Qed.

(** ** The decoder *)

(** The values that a decoder will give: those of the run it is in, then those of
    the runs that follow. *)
Inductive decodes (d : RleBitPackedDecoder) : list Z -> Prop :=
| decodes_rle vs :
    0 <= rle_left d -> bit_packed_left d = 0 -> dec_bit_pos d = 0 ->
    (0 < rle_left d -> fits (dec_bit_width d) (curr_val d)) -> hybrid (dec_bit_width d) (dec_buffer d) vs ->
    decodes d (replicate (Z.to_nat (rle_left d)) (curr_val d) ++ vs)
| decodes_packed us vs :
    rle_left d = 0 -> bit_packed_left d = Z.of_nat (length us) ->
    holds (dec_bit_pos d) (dec_bit_width d) us (dec_buffer d) ->
    (dec_bit_pos d + dec_bit_width d * Z.of_nat (length us)) mod 8 = 0 ->
    hybrid (dec_bit_width d) (advance (dec_bit_pos d) (dec_bit_width d * Z.of_nat (length us)) (dec_buffer d)) vs ->
    decodes d (us ++ vs).

Lemma decodes_rle_intro d n v vs :
  rle_left d = Z.of_nat n -> bit_packed_left d = 0 -> dec_bit_pos d = 0 -> curr_val d = v ->
  ((0 < n)%nat -> fits (dec_bit_width d) v) -> hybrid (dec_bit_width d) (dec_buffer d) vs ->
  decodes d (replicate n v ++ vs).
Proof.
  intros Hr Hp Hpos Hv Hf Hy. subst v. rewrite <- (Nat2Z.id n), <- Hr. constructor; [lia|done..| |done].
  intros H0. apply Hf. lia.
Qed.

(** The width stays as it is created. *)
Record dec_ok (d : RleBitPackedDecoder) : Prop := {
  dec_width : 0 <= dec_bit_width d <= 64;
  dec_bytes : byte_enc_len d = width_bytes (dec_bit_width d)
}.

Lemma read_repeated_spec n idx curr bs c :
  length bs = n -> Forall is_byte bs -> (idx + n <= 8)%nat -> fits (8 * Z.of_nat idx) curr ->
  read_repeated n idx curr (bs ++ c) = (Ok (curr + 2 ^ (8 * Z.of_nat idx) * le bs), c).
Proof.
  revert idx curr bs. induction n as [|n IH]; intros idx curr [|b bs] Hlen Hbs Hidx Hc; try done.
  { cbn [le app read_repeated]. by rewrite Z.mul_0_r, Z.add_0_r. }
  apply Forall_cons in Hbs as [Hb Hbs]. injection Hlen as Hlen. cbn [app read_repeated].
  unfold mbind, M_bind. rewrite read_next_u8_cons.
  assert (P : 0 < 2 ^ (8 * Z.of_nat idx)) by (apply two_pow_pos; lia). unfold is_byte, fits in *.
  assert (Hb64 : b * 2 ^ (8 * Z.of_nat idx) < 2 ^ 64).
  { apply Z.lt_le_trans with (2 ^ 8 * 2 ^ (8 * Z.of_nat idx)); [change (2 ^ 8) with 256; nia|].
    rewrite <- Z.pow_add_r by lia. apply Z.pow_le_mono_r; lia. }
  rewrite (Z.mul_comm (Z.of_nat idx)). unfold u64.
  rewrite Z.mod_small by (rewrite Z.shiftl_mul_pow2 by lia; nia). rewrite lor_add_shift by lia.
  assert (E : 2 ^ (8 * Z.of_nat (S idx)) = 256 * 2 ^ (8 * Z.of_nat idx)).
  { replace (8 * Z.of_nat (S idx)) with (8 + 8 * Z.of_nat idx) by lia. by rewrite Z.pow_add_r by lia. }
  rewrite IH by (first [done | lia | rewrite E; nia]). rewrite E. cbn [le]. f_equal. f_equal. ring.
Qed.

Lemma width_bytes_spec w : 0 <= w <= 64 -> w <= 8 * Z.of_nat (width_bytes w) < w + 8 /\ (width_bytes w <= 8)%nat.
Proof. intros Hw. destruct (ceil8 w ltac:(lia)). unfold width_bytes. lia. Qed.

(** The value of a run is read back. *)
Lemma read_repeated_to_le w v c : 0 <= w <= 64 -> fits w v ->
  read_repeated (width_bytes w) 0 0 (to_le (width_bytes w) v ++ c) = (Ok v, c).
Proof.
  intros Hw Hv. destruct (width_bytes_spec w Hw) as [Hb H8].
  rewrite read_repeated_spec by first [apply length_to_le | apply to_le_bytes | lia | by split].
  rewrite le_to_le, Z.mul_1_l, Z.add_0_l, Z.mod_small; [done|]. apply fits_mono with w; [lia|done].
Qed.

Lemma land_one x : Z.land x 1 = x mod 2.
Proof. change 1 with (Z.ones 1) at 1. by rewrite Z.land_ones. Qed.

(** Reading a header at the end of a run, with values to come. *)
Lemma read_next_spec d vs : dec_ok d -> rle_left d = 0 -> bit_packed_left d = 0 -> dec_bit_pos d = 0 ->
  hybrid (dec_bit_width d) (dec_buffer d) vs -> vs <> [] ->
  exists d', read_next d = (Ok tt, d') /\ dec_ok d' /\ decodes d' vs
    /\ (length (dec_buffer d') < length (dec_buffer d))%nat.
Proof.
  intros [Hw Hlen] Hr Hp Hpos Hy Hne. unfold read_next. unfold mbind at 1, M_bind at 1, get. rewrite Hpos. cbn [Z.eqb negb].
  inversion Hy as [E1 E2|n v bs vs' Hn Hv Hbs E1 E2|g us bs vs' Hg Hus Hf Hbs E1 E2]; [congruence|..].
  - unfold mbind at 1, M_bind at 1, on_buffer at 1. rewrite <- E1, read_vlq by lia. cbv beta match.
    rewrite land_one. assert ((2 * Z.of_nat n) mod 2 = 0) as -> by (Z.div_mod_to_equations; lia). cbn [Z.eqb]. unfold mbind at 1, M_bind at 1, set_run at 1.
    unfold mbind at 1, M_bind at 1, on_buffer at 1. cbn [dec_buffer set_dec_buffer]. rewrite Hlen, read_repeated_to_le by done.
    unfold set_run. eexists. split; [done|]. cbn [dec_buffer set_dec_buffer dec_bit_width curr_val rle_left bit_packed_left dec_bit_pos byte_enc_len].
    rewrite Z.shiftr_div_pow2 by lia. assert ((2 * Z.of_nat n) / 2 ^ 1 = Z.of_nat n) as -> by (Z.div_mod_to_equations; lia).
    split_and!; [done| |].
    + by apply decodes_rle_intro.
    + rewrite !length_app. pose proof (vlq_length (2 * Z.of_nat n)). lia.
  - unfold mbind at 1, M_bind at 1, on_buffer at 1. rewrite <- E1, read_vlq by lia. cbv beta match.
    rewrite land_one. assert ((2 * Z.of_nat g + 1) mod 2 = 1) as -> by (Z.div_mod_to_equations; lia). cbn [Z.eqb Pos.eqb].
    rewrite Z.shiftr_div_pow2 by lia. assert ((2 * Z.of_nat g + 1) / 2 ^ 1 = Z.of_nat g) as -> by (Z.div_mod_to_equations; lia).
    rewrite (proj2 (Z.ltb_lt _ (2 ^ 64))) by lia. unfold mbind, M_bind. cbn [rust_assert lift].
    unfold set_run. eexists. split; [done|]. cbn [dec_buffer set_dec_buffer dec_bit_width curr_val rle_left bit_packed_left dec_bit_pos byte_enc_len].
    split_and!; [done| |].
    + destruct (packed_holds (dec_bit_width d) g us bs ltac:(lia) Hus Hf (hybrid_bytes _ _ _ Hbs)) as (Hh & Hb & Ha).
      apply decodes_packed; cbn [dec_buffer set_dec_buffer dec_bit_width curr_val rle_left bit_packed_left dec_bit_pos byte_enc_len].
      * done.
      * lia.
      * by rewrite Hpos.
      * rewrite Hpos, Hb, Z.add_0_l, Z.mul_comm. by apply Z.mod_mul.
      * by rewrite Hpos, Ha.
    + rewrite !length_app. pose proof (vlq_length (2 * Z.of_nat g + 1)). lia.
Qed.

Lemma split_prefix {A} k (a b c d : list A) : (k <= length a)%nat -> (k <= length b)%nat -> a ++ c = b ++ d ->
  take k a = take k b /\ drop k a ++ c = drop k b ++ d.
Proof.
  intros Ha Hb E. split.
  - rewrite <- (take_app_le a c k), <- (take_app_le b d k) by done. by rewrite E.
  - rewrite <- (drop_app_le a c k), <- (drop_app_le b d k) by done. by rewrite E.
Qed.

(** A read inside a run of one value, and inside groups. *)
Lemma read_rle_run t fuel d vs : dec_ok d -> decodes d vs -> 0 < rle_left d -> forall n, (0 < n <= length vs)%nat ->
  exists k d', (0 < k <= n)%nat /\ dec_ok d' /\ decodes d' (drop k vs) /\ dec_buffer d' = dec_buffer d
    /\ read_loop t (S fuel) n d
       = match read_loop t fuel (n - k) d' with
         | (Ok us, d'') => (Ok ((from_u64 t <$> take k vs) ++ us), d'')
         | r => r
         end.
Proof.
  intros Hok Hd Hr n Hn. inversion Hd as [ws Hr' Hp Hpos Hf Hy E|us ws H0]; [|lia]. subst vs.
  set (k := Z.to_nat (Z.min (Z.of_nat n) (rle_left d))).
  exists k, (set_run (curr_val d) (rle_left d - Z.of_nat k) (bit_packed_left d) d).2.
  split_and!; [lia|lia|by destruct Hok| |done|].
  - rewrite drop_app_le, drop_replicate by (rewrite length_replicate; lia).
    apply decodes_rle_intro; [|done..| |done]; [|intros; by apply Hf].
    cbn [snd set_run rle_left]. lia.
  - cbn [read_loop]. replace (n =? 0)%nat with false by (symmetry; apply Nat.eqb_neq; lia).
    unfold mbind at 1, M_bind at 1, get. rewrite (proj2 (Z.ltb_lt 0 _)) by done. cbv zeta. fold k.
    unfold mbind at 1, M_bind at 1. cbn [fst snd set_run]. unfold mbind at 1, M_bind at 1.
    rewrite take_app_le, take_replicate, fmap_replicate, Nat.min_l by (rewrite ?length_replicate; lia).
    destruct (read_loop t fuel (n - k) _) as [[us|e|p] d'']; done.
Qed.

Lemma read_packed_run t fuel d vs : (0 < int_bytes t)%nat -> dec_ok d -> decodes d vs ->
  0 < bit_packed_left d -> forall n, (0 < n <= length vs)%nat ->
  exists k d', (0 < k <= n)%nat /\ dec_ok d' /\ decodes d' (drop k vs)
    /\ (length (dec_buffer d') <= length (dec_buffer d))%nat
    /\ read_loop t (S fuel) n d
       = match read_loop t fuel (n - k) d' with
         | (Ok us, d'') => (Ok ((from_u64 t <$> take k vs) ++ us), d'')
         | r => r
         end.
Proof.
  intros Ht [Hw Hb] Hd Hp0 n Hn. inversion Hd as [ws Hr' Hp|us ws Hr Hp Hh Hal Hy E]; [lia|]. subst vs.
  set (k := Z.to_nat (Z.min (Z.of_nat n) (bit_packed_left d))).
  assert (Hk : (0 < k <= n)%nat /\ (k <= length us)%nat) by lia.
  rewrite <- (take_drop k us) in Hh.
  pose proof (bit_unpack_spec t _ _ _ _ _ Ht Hw Hh) as Hun.
  destruct (holds_app _ _ _ _ _ (proj1 Hw) Hh) as [_ Hrest].
  rewrite length_take, Nat.min_l in Hun, Hrest by lia.
  set (pos := (dec_bit_pos d + dec_bit_width d * Z.of_nat k) mod 8) in *.
  set (c := advance (dec_bit_pos d) (dec_bit_width d * Z.of_nat k) (dec_buffer d)) in *.
  exists k, (set_bit_packed pos (bit_packed_left d - Z.of_nat k) (set_dec_buffer c d)).2.
  split_and!; [lia|lia|done| | |].
  - rewrite drop_app_le by lia. destruct (holds_pos _ _ _ _ Hh) as [Hpos0 Hpos8].
    assert (Hlen : Z.of_nat (length us) = Z.of_nat k + Z.of_nat (length us - k)) by lia.
    apply decodes_packed; cbn [snd set_bit_packed set_dec_buffer dec_buffer rle_left bit_packed_left dec_bit_pos dec_bit_width].
    + done.
    + rewrite length_drop. lia.
    + done.
    + rewrite length_drop. unfold pos. rewrite Z.add_mod_idemp_l by lia. rewrite <- Hal. f_equal. rewrite Hlen. ring.
    + rewrite length_drop. unfold c, pos. rewrite advance_advance by first [lia | apply Z.mul_nonneg_nonneg; lia].
      replace (dec_bit_width d * Z.of_nat k + dec_bit_width d * Z.of_nat (length us - k))
        with (dec_bit_width d * Z.of_nat (length us)) by (rewrite Hlen; ring). done.
  - cbn [snd set_bit_packed set_dec_buffer dec_buffer]. unfold c, advance. rewrite length_drop. lia.
  - cbn [read_loop]. replace (n =? 0)%nat with false by (symmetry; apply Nat.eqb_neq; lia).
    unfold mbind at 1, M_bind at 1, get. rewrite Hr, (proj2 (Z.ltb_lt 0 (bit_packed_left d))) by done. cbn [Z.ltb Z.compare]. cbv zeta. fold k.
    unfold mbind at 1, M_bind at 1, on_buffer. rewrite Hun. cbv beta match.
    unfold mbind at 1, M_bind at 1. cbn [fst snd set_bit_packed bit_pos]. unfold mbind at 1, M_bind at 1.
    rewrite take_app_le by lia.
    destruct (read_loop t fuel (n - k) _) as [[vs'|e|p] d'']; done.
Qed.

Lemma read_loop_spec t fuel d vs more : (0 < int_bytes t)%nat -> dec_ok d -> decodes d (vs ++ more) ->
  (length vs + length (dec_buffer d) < fuel)%nat ->
  exists d', read_loop t fuel (length vs) d = (Ok (from_u64 t <$> vs), d') /\ dec_ok d' /\ decodes d' more.
Proof.
  intros Ht. revert d vs. induction fuel as [|fuel IH]; intros d vs Hok Hd Hfuel; [lia|].
  destruct (decide (vs = [])) as [->|Hne]; [by exists d|].
  assert (Hlen : (0 < length vs)%nat) by (destruct vs; simpl; [done|lia]).
  assert (Hrun : forall k d', (0 < k <= length vs)%nat -> dec_ok d' -> decodes d' (drop k (vs ++ more)) ->
    (length (dec_buffer d') <= length (dec_buffer d))%nat ->
    read_loop t (S fuel) (length vs) d
    = match read_loop t fuel (length vs - k) d' with
      | (Ok us, d'') => (Ok ((from_u64 t <$> take k (vs ++ more)) ++ us), d'')
      | r => r
      end -> exists d'', read_loop t (S fuel) (length vs) d = (Ok (from_u64 t <$> vs), d'') /\ dec_ok d'' /\ decodes d'' more).
  { intros k d' Hk Hok' Hd' Hb ->. rewrite drop_app_le in Hd' by lia.
    destruct (IH d' (drop k vs) Hok' Hd' ltac:(rewrite length_drop; lia)) as (d'' & E & Hok'' & Hd'').
    rewrite length_drop in E. rewrite E, take_app_le by lia. exists d''. split_and!; [|done..].
    by rewrite <- fmap_app, take_drop. }
  destruct (decide (0 < rle_left d)) as [Hr|Hr].
  { destruct (read_rle_run t fuel d _ Hok Hd Hr (length vs)) as (k & d' & Hk & Hok' & Hd' & Hb & E);
      [rewrite length_app; lia|]. apply (Hrun k d'); [done..|by rewrite Hb|done]. }
  destruct (decide (0 < bit_packed_left d)) as [Hp|Hp].
  { destruct (read_packed_run t fuel d _ Ht Hok Hd Hp (length vs)) as (k & d' & Hk & Hok' & Hd' & Hb & E);
      [rewrite length_app; lia|]. by apply (Hrun k d'). }
  assert (Hy : rle_left d = 0 /\ bit_packed_left d = 0 /\ dec_bit_pos d = 0
    /\ hybrid (dec_bit_width d) (dec_buffer d) (vs ++ more)).
  { clear Hrun. inversion Hd as [ws Hr' Hp' Hpos Hf Hy E|us ws Hr' Hp' Hh Hal Hy E].
    - assert (rle_left d = 0) as E0 by lia. by rewrite E0.
    - assert (us = []) as -> by (destruct us; [done|simpl in Hp'; lia]). cbn [length app] in *.
      rewrite Z.mul_0_r, Z.add_0_r in Hal. rewrite Z.mul_0_r in Hy.
      pose proof (holds_pos _ _ _ _ Hh) as Hpos. rewrite Z.mod_small in Hal by done.
      rewrite advance_stay in Hy by lia. done. }
  destruct Hy as (Hr0 & Hp0 & Hpos & Hy).
  destruct (read_next_spec d (vs ++ more) Hok Hr0 Hp0 Hpos Hy) as (d' & E & Hok' & Hd' & Hb); [by destruct vs|].
  destruct (IH d' vs Hok' Hd' ltac:(lia)) as (d'' & E' & Hres). exists d''. split; [|done]. rewrite <- E'.
  cbn [read_loop]. replace (length vs =? 0)%nat with false by (symmetry; apply Nat.eqb_neq; lia).
  unfold mbind at 1, M_bind at 1, get. rewrite Hr0, Hp0. cbn [Z.ltb Z.compare]. unfold mbind at 1, M_bind at 1. by rewrite E.
Qed.

(** Reading in pieces. *)
Lemma reads_spec t ns d vs : (0 < int_bytes t)%nat -> dec_ok d -> decodes d vs -> (sum_list ns <= length vs)%nat ->
  exists uss d', reads t ns d = (Ok uss, d') /\ length <$> uss = ns
    /\ concat uss = from_u64 t <$> take (sum_list ns) vs.
Proof.
  intros Ht. revert d vs. induction ns as [|n ns IH]; intros d vs Hok Hd Hlen.
  { by exists [], d. }
  change (sum_list (n :: ns)) with (n + sum_list ns)%nat in *.
  rewrite <- (take_drop n vs) in Hd.
  destruct (read_loop_spec t (S (n + length (dec_buffer d))) d _ _ Ht Hok Hd) as (d' & E & Hok' & Hd');
    [rewrite length_take; lia|]. rewrite length_take, Nat.min_l in E by lia.
  destruct (IH d' (drop n vs) Hok' Hd' ltac:(rewrite length_drop; lia)) as (uss & d'' & E' & Hls & Hc).
  exists ((from_u64 t <$> take n vs) :: uss), d''. split_and!.
  - cbn [reads]. unfold mbind at 1, M_bind at 1, read. rewrite E. unfold mbind, M_bind. by rewrite E'.
  - rewrite fmap_cons, Hls, length_fmap, length_take, Nat.min_l by lia. done.
  - cbn [concat]. rewrite Hc, <- fmap_app. f_equal. rewrite <- take_take_drop. done.
Qed.

(** A decoder on the bytes of the grammar. *)
Lemma new_decodes w bs vs : 0 <= w <= 64 -> hybrid w bs vs ->
  exists d, RleBitPackedDecoder_new bs w = Ok d /\ dec_ok d /\ decodes d vs.
Proof.
  intros Hw Hy. unfold RleBitPackedDecoder_new. rewrite (proj2 (Z.leb_le w 64)) by lia. eexists.
  split; [done|]. split; [done|]. apply (decodes_rle_intro _ 0 0); [done..|lia|done].
Qed.

(** ** The encoder *)

(** Projections of an updated encoder. *)
Ltac enc_simpl :=
  cbn [enc_bit_width bit_writer enc_buffered num_buffered_values current_value repeat_count bit_packed_count
       indicator_byte_pos set_repeat set_current set_buffered set_packed_count new_from_buf] in *.

Lemma to_le_mod n x : to_le n (x mod 2 ^ (8 * Z.of_nat n)) = to_le n x.
Proof.
  apply le_inj; [apply to_le_bytes..|by rewrite !length_to_le|]. rewrite !le_to_le. apply Z.mod_mod, Z.pow_nonzero; lia.
Qed.

(** Groups are packed one after the other. *)
Lemma packed_to_le_app w g h us xs : 0 <= w -> length us = (8 * g)%nat -> Forall (fits w) us ->
  to_le (Z.to_nat w * (g + h)) (packed w (us ++ xs))
  = to_le (Z.to_nat w * g) (packed w us) ++ to_le (Z.to_nat w * h) (packed w xs).
Proof.
  intros Hw Hus Hf. rewrite Nat.mul_add_distr_l, to_le_app.
  assert (E : w * Z.of_nat (length us) = 8 * Z.of_nat (Z.to_nat w * g)) by (rewrite Hus; lia).
  pose proof (packed_bounds w us Hw Hf) as Hb. rewrite packed_app, E in * by done.
  rewrite <- to_le_mod, (Z.mul_comm (2 ^ _)), Z.mod_add, Z.div_add by (apply Z.pow_nonzero; lia).
  by rewrite Z.mod_small, Z.div_small, Z.add_0_l by done.
Qed.

(** The writer holds [P], and after it the groups [us] of a run whose header, at
    [pos], is not written yet. *)
Record opened (w pos : Z) (wr : BitWriter) (P us : list Z) (g : nat) : Prop := {
  opened_writer : writer_ok wr;
  opened_aligned : aligned wr;
  opened_groups : length us = (8 * g)%nat;
  opened_fits : Forall (fits w) us;
  opened_contents :
    pos < 0 /\ us = [] /\ contents wr = P
    \/ pos = Z.of_nat (length P) /\ (length P < length (buffer wr))%nat
       /\ contents wr = P ++ [0] ++ to_le (Z.to_nat w * g) (packed w us)
}.

Lemma to_le_nil x : to_le 0 x = [].
Proof. done. Qed.

(** The header of a run is reserved if it is not yet. *)
Lemma open_run w pos wr P us g : opened w pos wr P us g ->
  exists pos' wr', (if pos <? 0 then let '(p, w) := skip 1 wr in (Z.of_nat p, w) else (pos, wr)) = (pos', wr')
    /\ writer_ok wr' /\ aligned wr' /\ pos' = Z.of_nat (length P) /\ (length P < length (buffer wr'))%nat
    /\ contents wr' = P ++ [0] ++ to_le (Z.to_nat w * g) (packed w us).
Proof.
  intros [Hw Ha Hg Hf [(Hpos & -> & Hc)|(Hpos & Hlt & Hc)]].
  - rewrite (proj2 (Z.ltb_lt pos 0)) by done. assert (g = 0%nat) as -> by (simpl in Hg; lia).
    pose proof (skip_spec 1 wr Hw) as Hs. destruct (skip 1 wr) as [p wr']. destruct Hs as (Hp & Hw' & Ha' & Hc' & Hb').
    exists (Z.of_nat p), wr'. rewrite Nat.mul_0_r, to_le_nil, app_nil_r. rewrite Hc in *. split_and!; [done..|by rewrite Hp| |done].
    rewrite Hb', Hc', length_app. simpl. lia.
  - rewrite (proj2 (Z.ltb_ge pos 0)) by lia. by exists pos, wr.
Qed.

Lemma flush_bit_packed_run_spec update e P us g h :
  0 <= enc_bit_width e <= 64 -> opened (enc_bit_width e) (indicator_byte_pos e) (bit_writer e) P us g ->
  let xs := take (num_buffered_values e) (enc_buffered e) in
  length xs = (8 * h)%nat -> Forall (fits (enc_bit_width e)) xs ->
  bit_packed_count e = (8 * (g + h))%nat -> (g + h <= 63)%nat ->
  exists e', flush_bit_packed_run update e = Ok e'
    /\ enc_bit_width e' = enc_bit_width e /\ enc_buffered e' = enc_buffered e /\ num_buffered_values e' = 0%nat
    /\ current_value e' = current_value e /\ repeat_count e' = repeat_count e
    /\ if update then
         bit_packed_count e' = 0%nat /\ indicator_byte_pos e' < 0
         /\ opened (enc_bit_width e) (indicator_byte_pos e') (bit_writer e')
              (P ++ vlq (2 * Z.of_nat (g + h) + 1) ++ to_le (Z.to_nat (enc_bit_width e) * (g + h)) (packed (enc_bit_width e) (us ++ xs))) [] 0
       else
         bit_packed_count e' = bit_packed_count e /\ 0 <= indicator_byte_pos e'
         /\ opened (enc_bit_width e) (indicator_byte_pos e') (bit_writer e') P (us ++ xs) (g + h).
Proof.
  intros Hw Ho xs Hxs Hfx Hcount Hmax. set (w := enc_bit_width e) in *. unfold flush_bit_packed_run.
  destruct (open_run _ _ _ _ _ _ Ho) as (pos & wr & -> & Hwr & Hal & Hpos & Hlt & Hc). fold w xs.
  destruct (contents_put_values xs w wr (Z.to_nat w * h) Hwr Hal Hw Hfx) as (wr' & E & Hwr' & Hal' & Hc' & Hpre);
    [rewrite Hxs; lia|].
  destruct Ho as [_ _ Hg Hf _].
  assert (Hc2 : contents wr' = P ++ [0] ++ to_le (Z.to_nat w * (g + h)) (packed w (us ++ xs))).
  { rewrite Hc', Hc, <- !app_assoc, packed_to_le_app by (done || lia). done. }
  assert (Hlt' : (length P < length (buffer wr'))%nat) by (apply prefix_length in Hpre; lia).
  unfold mbind, res_bind. rewrite E. destruct update.
  - assert (Hg2 : (bit_packed_count e / 8 = g + h)%nat) by (rewrite Hcount, Nat.mul_comm; by apply Nat.div_mul).
    rewrite Hg2.
    assert (Hib : Z.lor (Z.shiftl (Z.of_nat (g + h)) 1) 1 mod 256 = 2 * Z.of_nat (g + h) + 1).
    { rewrite Z.lor_comm, lor_add_shift by lia. change (2 ^ 1) with 2. rewrite Z.mod_small; lia. }
    rewrite Hib, Hpos, Nat2Z.id. unfold put_aligned_offset.
    destruct (write_at_spec (length P) (2 * Z.of_nat (g + h) + 1) wr' Hwr' ltac:(unfold is_byte; lia) Hlt')
      as (wr2 & E2 & Hwr2 & Hb2 & Hc3 & _).
    rewrite E2. eexists. split; [done|]. enc_simpl. split_and!; [done..|lia|].
    constructor; [done|by unfold aligned; rewrite Hb2|done|constructor|]. left. split_and!; [lia|done|].
    rewrite Hc3, Hc2, insert_app_r_alt, Nat.sub_diag by lia. by rewrite vlq_small by lia.
  - eexists. split; [done|]. enc_simpl. split_and!; [done..|lia|].
    constructor; [done|done|rewrite length_app; lia|by apply Forall_app|]. right. done.
Qed.

(** What the encoder keeps: closed runs of [done], an open run of [us], and
    pending values, which are either repetitions of the current value or in the
    buffer. *)
Record encodes (w : Z) (buf : list Z) (e : RleEncoder) (vs : list Z) : Prop := {
  enc_width : enc_bit_width e = w;
  enc_slots : length (enc_buffered e) = 8%nat;
  enc_current : fits w (current_value e);
  enc_state : exists done runs us g pending,
    vs = done ++ us ++ pending /\ hybrid w runs done
    /\ opened w (indicator_byte_pos e) (bit_writer e) (buf ++ runs) us g
    /\ bit_packed_count e = (8 * g)%nat /\ (g <= 62)%nat
    /\ (indicator_byte_pos e < 0 <-> us = [])
    /\ Forall (fits w) pending
    /\ (num_buffered_values e = 0%nat /\ (8 <= repeat_count e)%nat /\ us = []
        /\ pending = replicate (repeat_count e) (current_value e)
        \/ (num_buffered_values e < 8)%nat /\ (repeat_count e <= num_buffered_values e)%nat
           /\ ((0 < num_buffered_values e)%nat -> (0 < repeat_count e)%nat)
           /\ pending = take (num_buffered_values e) (enc_buffered e)
           /\ drop (num_buffered_values e - repeat_count e) pending = replicate (repeat_count e) (current_value e))
}.

Lemma new_encodes w buf : 0 <= w <= 64 -> Forall is_byte buf -> encodes w buf (new_from_buf w buf) [].
Proof.
  intros Hw Hb. constructor; [done|done|split; [done|apply two_pow_pos; lia]|].
  exists [], [], [], 0%nat, []. split_and!; [done|constructor| |done|lia|done|constructor|].
  - constructor; [by apply new_from_buf_ok|apply new_from_buf_aligned|done|constructor|].
    left. rewrite app_nil_r. split_and!; [done..|]. apply new_from_buf_contents.
  - right. enc_simpl. split_and!; [lia|lia|lia|done|done].
Qed.

(** A run of one value is written. *)
Lemma flush_rle_run_spec e P : 0 <= enc_bit_width e <= 64 -> writer_ok (bit_writer e) -> contents (bit_writer e) = P ->
  (0 < repeat_count e)%nat -> 2 * Z.of_nat (repeat_count e) < 2 ^ 64 ->
  exists e', flush_rle_run e = Ok e'
    /\ enc_bit_width e' = enc_bit_width e /\ enc_buffered e' = enc_buffered e /\ num_buffered_values e' = 0%nat
    /\ current_value e' = current_value e /\ repeat_count e' = 0%nat /\ bit_packed_count e' = bit_packed_count e
    /\ indicator_byte_pos e' = indicator_byte_pos e
    /\ writer_ok (bit_writer e') /\ aligned (bit_writer e')
    /\ contents (bit_writer e')
       = P ++ vlq (2 * Z.of_nat (repeat_count e)) ++ to_le (width_bytes (enc_bit_width e)) (current_value e).
Proof.
  intros Hw Hwr <- Hr H64. unfold flush_rle_run. rewrite (proj2 (Nat.ltb_lt 0 _) Hr). cbn [rust_assert].
  unfold mbind, res_bind. rewrite Z.shiftl_mul_pow2 by lia. change (2 ^ 1) with 2. unfold u64. rewrite Z.mod_small by lia.
  rewrite Z.mul_comm. destruct (put_vlq_int_spec (2 * Z.of_nat (repeat_count e)) _ Hwr ltac:(lia)) as (wr & -> & Hwr' & Ha & _ & Hc).
  destruct (put_aligned_spec 8 (current_value e) (Z.to_nat (ceil (enc_bit_width e) 8)) wr Hwr') as (Hwr2 & Ha2 & _ & Hc2).
  destruct (width_bytes_spec (enc_bit_width e) Hw) as [_ H8]. unfold width_bytes in *.
  eexists. split; [done|]. enc_simpl. split_and!; [done..|]. by rewrite Hc2, Hc, <- app_assoc, Nat.min_l by done.
Qed.

(** An encoder about to buffer a value. *)
Record buffering (w : Z) (buf : list Z) (e : RleEncoder) (vs : list Z) : Prop := {
  buf_width : enc_bit_width e = w;
  buf_slots : length (enc_buffered e) = 8%nat;
  buf_current : fits w (current_value e);
  buf_state : exists done runs us g pending,
    vs = done ++ us ++ pending /\ hybrid w runs done
    /\ opened w (indicator_byte_pos e) (bit_writer e) (buf ++ runs) us g
    /\ bit_packed_count e = (8 * g)%nat /\ (g <= 62)%nat
    /\ (indicator_byte_pos e < 0 <-> us = [])
    /\ Forall (fits w) pending
    /\ (num_buffered_values e < 8)%nat /\ (0 < repeat_count e <= S (num_buffered_values e))%nat
    /\ pending = take (num_buffered_values e) (enc_buffered e)
    /\ drop (S (num_buffered_values e) - repeat_count e) (pending ++ [current_value e])
       = replicate (repeat_count e) (current_value e)
}.

Lemma closed_run_app w buf runs us g done : 0 <= w -> hybrid w runs done -> length us = (8 * g)%nat -> Forall (fits w) us ->
  (g <= 63)%nat ->
  (buf ++ runs) ++ vlq (2 * Z.of_nat g + 1) ++ to_le (Z.to_nat w * g) (packed w us)
  = buf ++ (runs ++ vlq (2 * Z.of_nat g + 1) ++ to_le (Z.to_nat w * g) (packed w us))
  /\ hybrid w (runs ++ vlq (2 * Z.of_nat g + 1) ++ to_le (Z.to_nat w * g) (packed w us)) (done ++ us).
Proof.
  intros Hw Hy Hus Hf Hg. split; [by rewrite <- !app_assoc|]. apply hybrid_app; [done|]. apply hybrid_packed_run; [lia|done..].
Qed.

Lemma opened_closed_pos w pos wr P g : opened w pos wr P [] g -> g = 0%nat.
Proof. intros []. simpl in *. lia. Qed.

(** The eighth value is buffered. *)
Section FlushBuffered.
Context (buf : list Z) (e : RleEncoder) (done runs us : list Z) (g : nat).
Local Abbreviation w := (enc_bit_width e).
Hypothesis Hw : 0 <= w <= 64.
Hypothesis Hsl : length (enc_buffered e) = 8%nat.
Hypothesis Hcur : fits w (current_value e).
Hypothesis Hy : hybrid w runs done.
Hypothesis Ho : opened w (indicator_byte_pos e) (bit_writer e) (buf ++ runs) us g.
Hypothesis Hcount : bit_packed_count e = (8 * g)%nat.
Hypothesis Hg : (g <= 62)%nat.
Hypothesis Hind : indicator_byte_pos e < 0 <-> us = [].
Hypothesis Hf : Forall (fits w) (enc_buffered e).
Hypothesis Hnum : num_buffered_values e = 8%nat.
Hypothesis Hrep : (0 < repeat_count e <= 8)%nat.
Hypothesis Hlast : drop (8 - repeat_count e) (enc_buffered e) = replicate (repeat_count e) (current_value e).

(** All eight are the same: an open run is closed and the eight stay pending. *)
Lemma flush_repeated : repeat_count e = 8%nat ->
  exists e', flush_buffered_values e = Ok e' /\ encodes w buf e' (done ++ us ++ enc_buffered e).
Proof.
  intros Hr8. pose proof (opened_groups _ _ _ _ _ _ Ho) as Hus. pose proof (opened_fits _ _ _ _ _ _ Ho) as Hfu.
  unfold flush_buffered_values. rewrite (proj2 (Nat.leb_le 8 _)) by lia.
  pose proof Hlast as Hlast'. rewrite Hr8, Nat.sub_diag, drop_0 in Hlast'.
  enc_simpl. destruct (Nat.ltb_spec 0 (bit_packed_count e)) as [Hpos|Hzero].
  + rewrite Hcount. rewrite (Nat.mul_comm 8 g), Nat.Div0.mod_mul, Nat.eqb_refl. cbn [rust_assert]. unfold mbind, res_bind.
    destruct (flush_bit_packed_run_spec true (set_buffered (enc_buffered e) 0 e) (buf ++ runs) us g 0)
      as (e' & -> & E1 & E2 & E3 & E4 & E5 & E6 & Eneg & E7); [done|done|done|constructor|enc_simpl; lia|lia|].
    enc_simpl. rewrite Nat.add_0_r, take_0, app_nil_r in E7.
    destruct (closed_run_app w buf runs us g done ltac:(lia) Hy Hus Hfu ltac:(lia)) as [Eapp Hy'].
    rewrite Eapp in E7. exists e'. split; [done|]. constructor; [done|by rewrite E2|by rewrite E4|].
    eexists (done ++ us), _, [], 0%nat, (enc_buffered e).
    split_and!; [by rewrite <- app_assoc|exact Hy'|exact E7|done|lia|..].
    * by split.
    * done.
    * left. rewrite E4, E5. split_and!; [done|lia|done|]. by rewrite Hr8.
  + assert (g = 0%nat) as -> by lia. assert (us = []) as -> by (apply nil_length_inv; lia).
    eexists. split; [done|]. constructor; enc_simpl; [done..|].
    exists done, runs, [], 0%nat, (enc_buffered e). enc_simpl. split_and!; [done..|].
    left. rewrite Hr8. by split_and!.
Qed.

(** The eight are a group of the open run, which is closed when it is full. *)
Lemma flush_packed : (repeat_count e < 8)%nat ->
  exists e', flush_buffered_values e = Ok e' /\ encodes w buf e' (done ++ us ++ enc_buffered e).
Proof.
  intros H8. pose proof (opened_groups _ _ _ _ _ _ Ho) as Hus. pose proof (opened_fits _ _ _ _ _ _ Ho) as Hfu.
  unfold flush_buffered_values. rewrite (proj2 (Nat.leb_gt 8 _)) by lia.
  enc_simpl. rewrite Hcount, Hnum. replace (8 * g + 8)%nat with (8 * (g + 1))%nat by lia.
  assert (Hdiv : (8 * (g + 1) / 8 = g + 1)%nat) by (rewrite Nat.mul_comm; by apply Nat.div_mul). rewrite Hdiv.
  set (e1 := set_packed_count (8 * (g + 1)) e).
  assert (Hx : take (num_buffered_values e1) (enc_buffered e1) = enc_buffered e).
  { unfold e1. enc_simpl. rewrite Hnum. apply take_ge. lia. }
  assert (Hspec : forall up, exists e', flush_bit_packed_run up e1 = Ok e'
    /\ enc_bit_width e' = w /\ enc_buffered e' = enc_buffered e /\ num_buffered_values e' = 0%nat
    /\ current_value e' = current_value e /\ repeat_count e' = repeat_count e
    /\ if up then
       bit_packed_count e' = 0%nat /\ indicator_byte_pos e' < 0
       /\ opened w (indicator_byte_pos e') (bit_writer e')
            ((buf ++ runs) ++ vlq (2 * Z.of_nat (g + 1) + 1) ++ to_le (Z.to_nat w * (g + 1)) (packed w (us ++ enc_buffered e))) [] 0
     else
       bit_packed_count e' = (8 * (g + 1))%nat /\ 0 <= indicator_byte_pos e'
       /\ opened w (indicator_byte_pos e') (bit_writer e') (buf ++ runs) (us ++ enc_buffered e) (g + 1)).
  { intros up. destruct (flush_bit_packed_run_spec up e1 (buf ++ runs) us g 1) as (e' & H); [done|done|by rewrite Hx|by rewrite Hx|done|lia|].
    rewrite Hx in H. by exists e'. }
  assert (Hcat : length (us ++ enc_buffered e) = (8 * (g + 1))%nat) by (rewrite length_app; lia).
  assert (Hfc : Forall (fits w) (us ++ enc_buffered e)) by by apply Forall_app.
  change MAX_GROUPS_PER_BIT_PACKED_RUN with 64%nat. destruct (Nat.leb_spec 64 (g + 1 + 1)) as [Hmax|Hmax].
  + assert (Hi : 0 <= indicator_byte_pos e).
    { destruct (decide (indicator_byte_pos e < 0)) as [Hn|]; [|lia]. apply Hind in Hn. subst us. simpl in Hus. lia. }
    change (indicator_byte_pos e1) with (indicator_byte_pos e). rewrite (proj2 (Z.leb_le 0 _) Hi). cbn [rust_assert]. unfold mbind, res_bind.
    destruct (Hspec true) as (e' & -> & E1 & E2 & E3 & E4 & E5 & E6 & Eneg & E7).
    destruct (closed_run_app w buf runs _ _ done ltac:(lia) Hy Hcat Hfc ltac:(lia)) as [Eapp Hy']. rewrite Eapp in E7.
    eexists. split; [done|]. constructor; enc_simpl; [done|by rewrite E2|by rewrite E4|].
    eexists (done ++ us ++ enc_buffered e), _, [], 0%nat, [].
    split_and!; [by rewrite !app_nil_r|exact Hy'|exact E7|enc_simpl; done|lia| |constructor|].
    * by split.
    * right. enc_simpl. rewrite E3. split_and!; [lia|lia|lia|done|done].
  + unfold mbind, res_bind. destruct (Hspec false) as (e' & -> & E1 & E2 & E3 & E4 & E5 & E6 & E7 & E8).
    eexists. split; [done|]. constructor; enc_simpl; [done|by rewrite E2|by rewrite E4|].
    eexists done, runs, (us ++ enc_buffered e), (g + 1)%nat, [].
    split_and!; [by rewrite app_nil_r|exact Hy|exact E8|done|lia| |constructor|].
    * enc_simpl. split; [lia|]. intros Hnil. rewrite Hnil in Hcat. simpl in Hcat. lia.
    * right. enc_simpl. rewrite E3. split_and!; [lia|lia|lia|done|done].
Qed.

Lemma flush_buffered_values_spec :
  exists e', flush_buffered_values e = Ok e' /\ encodes w buf e' (done ++ us ++ enc_buffered e).
Proof. destruct (decide (repeat_count e = 8%nat)); [by apply flush_repeated|apply flush_packed; lia]. Qed.

End FlushBuffered.

Lemma buffer_value_spec w buf e vs : 0 <= w <= 64 -> buffering w buf e vs ->
  exists e', buffer_value (current_value e) e = Ok e' /\ encodes w buf e' (vs ++ [current_value e]).
Proof.
  intros Hw [Hwd Hsl Hcur (done & runs & us & g & pending & -> & Hy & Ho & Hcount & Hg & Hind & Hf & Hnum & Hrep & Hpend & Hlast)].
  subst w. set (v := current_value e) in *. set (n := num_buffered_values e) in *.
  unfold buffer_value. fold n. rewrite Hsl, (proj2 (Nat.ltb_lt _ 8) Hnum). cbn [rust_assert]. unfold mbind, res_bind. enc_simpl. fold n.
  set (bs := <[n := v]> (enc_buffered e)).
  assert (Hbs : take (S n) bs = pending ++ [v]).
  { unfold bs. rewrite Hpend, (take_S_r _ n v) by (rewrite list_lookup_insert_eq; [done|lia]).
    by rewrite take_insert_ge by lia. }
  assert (Hlen : length bs = 8%nat) by (unfold bs; by rewrite length_insert).
  destruct (Nat.eqb_spec (S n) 8) as [E8|E8].
  - rewrite Hcount, (Nat.mul_comm 8 g), Nat.Div0.mod_mul. cbn [Nat.eqb rust_assert].
    rewrite take_ge in Hbs by lia.
    destruct (flush_buffered_values_spec buf (set_buffered bs (S n) e) done runs us g) as (e' & E & He');
      enc_simpl; try done; try lia.
    + rewrite Hbs. apply Forall_app. split; [done|]. by constructor.
    + by rewrite Hbs, <- E8.
    + exists e'. rewrite E. split; [done|]. rewrite Hbs in He'. by rewrite <- !app_assoc.
  - eexists. split; [done|]. constructor; enc_simpl; [done..|].
    exists done, runs, us, g, (pending ++ [v]). enc_simpl. split_and!; [by rewrite <- !app_assoc|done..| |].
    + apply Forall_app. split; [done|]. by constructor.
    + right. split_and!; [lia|lia|lia|by rewrite Hbs|done].
Qed.

(** Before another value, the repetitions of the current one are written as a run
    if there are enough. *)
Lemma put_other_spec w buf e vs v : 0 <= w <= 64 -> encodes w buf e vs -> fits w v -> Z.of_nat (length vs) < 2 ^ 60 ->
  exists e1, (if (8 <=? repeat_count e)%nat then
       _ ← rust_assert (bit_packed_count e =? 0)%nat "self.bit_packed_count == 0"; flush_rle_run e else Ok e) = Ok e1
     /\ buffering w buf (set_current v (set_repeat 1 e1)) vs.
Proof.
  intros Hw [Hwd Hsl Hcur (done & runs & us & g & pending & Evs & Hy & Ho & Hcount & Hg & Hind & Hf & Hst)] Hv Hmax.
  destruct Hst as [(Hn & Hr & -> & Hp)|(Hn & Hr & Hr0 & Hp & Hlast)].
  - rewrite (proj2 (Nat.leb_le 8 _) Hr). pose proof (opened_closed_pos _ _ _ _ _ Ho) as ->.
    rewrite Hcount. cbn [Nat.mul Nat.eqb rust_assert]. unfold mbind, res_bind.
    destruct Ho as [Hwr Ha _ _ Hc]. assert (Hpos : indicator_byte_pos e < 0) by by apply Hind.
    destruct Hc as [(_ & _ & Hc)|(Hc & _)]; [|lia].
    assert (Hrep : 2 * Z.of_nat (repeat_count e) < 2 ^ 64) by (rewrite Evs, Hp, !length_app, length_replicate in Hmax; lia).
    destruct (flush_rle_run_spec e (buf ++ runs)) as (e1 & E & E1 & E2 & E3 & E4 & E5 & E6 & E7 & Hwr1 & Ha1 & Hc1);
      [by rewrite Hwd|done|done|lia|done|].
    exists e1. split; [done|]. rewrite Hwd in *. constructor; enc_simpl; [by rewrite E1|by rewrite E2|done|].
    eexists (done ++ pending), _, [], 0%nat, []. enc_simpl. rewrite E3, E6, E7.
    split_and!; [by rewrite Evs, !app_nil_r| | |done|lia|done|by apply Forall_nil|lia|lia|lia|done|done].
    + apply hybrid_app; [exact Hy|]. rewrite Hp. by apply hybrid_rle_run.
    + constructor; [done|done|done|constructor|]. left. rewrite Hc1. split_and!; [done|done|by rewrite <- app_assoc].
  - rewrite (proj2 (Nat.leb_gt 8 _)) by lia. exists e. split; [done|].
    constructor; enc_simpl; [done..|]. exists done, runs, us, g, pending. enc_simpl. split_and!; [done..|lia|lia|done|].
    assert (Hpl : length pending = num_buffered_values e) by (rewrite Hp, length_take; lia).
    cbn [Nat.sub]. rewrite Nat.sub_0_r, drop_app_ge, Hpl, Nat.sub_diag by lia. done.
Qed.

Lemma put_spec w buf e vs v : 0 <= w <= 64 -> encodes w buf e vs -> fits w v -> Z.of_nat (length vs) < 2 ^ 60 ->
  exists e', put v e = Ok e' /\ encodes w buf e' (vs ++ [v]).
Proof.
  intros Hw He Hv Hmax. pose proof He as [Hwd Hsl Hcur (done & runs & us & g & pending & Evs & Hy & Ho & Hcount & Hg & Hind & Hf & Hst)].
  unfold put. destruct (Z.eqb_spec (current_value e) v) as [<-|Hne].
  - enc_simpl. destruct Hst as [(Hn & Hr & Hus & Hp)|(Hn & Hr & Hr0 & Hp & Hlast)].
    + rewrite (proj2 (Nat.ltb_lt 8 _)) by lia. eexists. split; [done|]. constructor; enc_simpl; [done..|].
      exists done, runs, us, g, (pending ++ [current_value e]). enc_simpl.
      split_and!; [by rewrite Evs, <- !app_assoc|done..|apply Forall_app; split; [done|by constructor]|].
      left. split_and!; [done|lia|done|]. by rewrite Hp, replicate_S_end.
    + rewrite (proj2 (Nat.ltb_ge 8 _)) by lia.
      apply (buffer_value_spec w buf (set_repeat (S (repeat_count e)) e) vs Hw).
      constructor; enc_simpl; [done..|]. exists done, runs, us, g, pending. enc_simpl. split_and!; [done..|lia|lia|done|].
      assert (Hpl : length pending = num_buffered_values e) by (rewrite Hp, length_take; lia).
      rewrite replicate_S_end, <- Hlast. cbn [Nat.sub]. by rewrite drop_app_le by lia.
  - destruct (put_other_spec w buf e vs v Hw He Hv Hmax) as (e1 & -> & Hb). unfold mbind, res_bind.
    by apply (buffer_value_spec w buf (set_current v (set_repeat 1 e1)) vs Hw).
Qed.

Lemma put_all_spec w buf vs e us : 0 <= w <= 64 -> encodes w buf e us -> Forall (fits w) vs ->
  Z.of_nat (length us + length vs) < 2 ^ 60 -> exists e', put_all vs e = Ok e' /\ encodes w buf e' (us ++ vs).
Proof.
  intros Hw. revert e us. induction vs as [|v vs IH]; intros e us He Hf Hlen.
  { exists e. by rewrite app_nil_r. }
  apply Forall_cons in Hf as [Hv Hf]. cbn [length] in Hlen.
  destruct (put_spec w buf e us v Hw He Hv ltac:(lia)) as (e1 & E & He1).
  destruct (IH e1 (us ++ [v]) He1 Hf) as (e2 & E2 & He2); [rewrite length_app; cbn [length]; lia|].
  exists e2. cbn [put_all]. unfold mbind, res_bind. rewrite E. split; [done|]. by rewrite <- app_assoc in He2.
Qed.

(** The end of the values: what is pending is written as a run, or as a group
    filled up with zeros. *)
Lemma flush_group_spec w buf e done runs us g pending : 0 <= w <= 64 -> enc_bit_width e = w ->
  hybrid w runs done -> opened w (indicator_byte_pos e) (bit_writer e) (buf ++ runs) us g ->
  bit_packed_count e = (8 * g)%nat -> (g <= 62)%nat -> Forall (fits w) pending ->
  (num_buffered_values e < 8)%nat -> length (enc_buffered e) = 8%nat -> pending = take (num_buffered_values e) (enc_buffered e) ->
  let n := num_buffered_values e in
  let e1 := if (0 <? n)%nat then set_buffered (take n (enc_buffered e) ++ replicate (8 - n) 0) (Nat.max n 8) e else e in
  exists e' bs pad,
    flush_bit_packed_run true (set_packed_count (bit_packed_count e1 + num_buffered_values e1) e1) = Ok e'
    /\ contents (bit_writer e') = buf ++ bs /\ hybrid w bs (done ++ us ++ pending ++ replicate pad 0) /\ (pad < 8)%nat.
Proof.
  intros Hw <- Hy Ho Hcount Hg Hf Hn Hsl Hp n e1. set (w := enc_bit_width e) in *.
  pose proof (opened_groups _ _ _ _ _ _ Ho) as Hus. pose proof (opened_fits _ _ _ _ _ _ Ho) as Hfu.
  set (h := if (0 <? n)%nat then 1%nat else 0%nat). set (pad := if (0 <? n)%nat then (8 - n)%nat else 0%nat).
  assert (Hpl : length pending = n) by (rewrite Hp, length_take; lia).
  assert (He1 : enc_bit_width e1 = w /\ indicator_byte_pos e1 = indicator_byte_pos e /\ bit_writer e1 = bit_writer e
    /\ bit_packed_count e1 = (8 * g)%nat /\ num_buffered_values e1 = (8 * h)%nat
    /\ take (num_buffered_values e1) (enc_buffered e1) = pending ++ replicate pad 0).
  { unfold e1, h, pad. destruct (Nat.ltb_spec 0 n); enc_simpl; split_and!; try done; try lia.
    - fold n in Hp. rewrite <- Hp. apply take_ge. rewrite length_app, length_replicate. lia.
    - by rewrite <- Hp, app_nil_r. }
  destruct He1 as (W1 & W2 & W3 & W4 & W5 & W6).
  assert (Hx : length (pending ++ replicate pad 0) = (8 * h)%nat).
  { rewrite length_app, length_replicate, Hpl. unfold pad, h. destruct (Nat.ltb_spec 0 n); lia. }
  assert (Hfx : Forall (fits w) (pending ++ replicate pad 0)).
  { apply Forall_app. split; [done|]. apply Forall_replicate. split; [done|apply two_pow_pos; lia]. }
  assert (Hh : (g + h <= 63)%nat) by (unfold h; destruct (0 <? n)%nat; lia).
  destruct (flush_bit_packed_run_spec true (set_packed_count (bit_packed_count e1 + num_buffered_values e1) e1)
    (buf ++ runs) us g h) as (e' & E & _ & _ & _ & _ & _ & _ & Hneg & E7); enc_simpl; rewrite ?W1, ?W2, ?W3, ?W6; try done.
  { rewrite W4, W5. lia. }
  rewrite W1, W6 in E7.
  destruct (closed_run_app w buf runs (us ++ pending ++ replicate pad 0) (g + h) done) as [Eapp Hy'];
    [lia|done|rewrite length_app; lia|by apply Forall_app|done|]. rewrite Eapp in E7.
  destruct E7 as [_ _ _ _ [(_ & _ & Hc)|(Hc & _)]]; [|lia].
  eexists e', _, pad. split_and!; [done|exact Hc|exact Hy'|]. unfold pad. destruct (Nat.ltb_spec 0 n); lia.
Qed.

Lemma consume_spec w buf e vs : 0 <= w <= 64 -> encodes w buf e vs -> Z.of_nat (length vs) < 2 ^ 60 ->
  exists bs pad, consume e = Ok (buf ++ bs) /\ hybrid w bs (vs ++ replicate pad 0) /\ (pad < 8)%nat.
Proof.
  intros Hw [Hwd Hsl Hcur (done & runs & us & g & pending & Evs & Hy & Ho & Hcount & Hg & Hind & Hf & Hst)] Hlen.
  unfold consume, flush_encoder, mbind, res_bind.
  destruct (_ || _) eqn:Hany.
  2: { apply orb_false_iff in Hany as [Hany Hb]. apply orb_false_iff in Hany as [Ha Hr].
    apply Nat.ltb_ge in Ha, Hb, Hr. destruct Hst as [(_ & Hr8 & _)|(Hn & _ & _ & Hp & _)]; [lia|].
    assert (g = 0%nat) as -> by lia. destruct Ho as [_ _ Hus _ Hc]. apply nil_length_inv in Hus as ->.
    destruct Hc as [(_ & _ & Hc)|(Hpos & _ & _)]; [|destruct Hind as [_ Hneg]; specialize (Hneg eq_refl); lia].
    exists runs, 0%nat. rewrite Hp, (proj1 (Nat.le_0_r _) Hb) in Evs.
    split_and!; [by rewrite Hc|by rewrite Evs, !app_nil_r|lia]. }
  destruct ((0 <? repeat_count e)%nat && _) eqn:Hall.
  - apply andb_prop in Hall as [Hr Hall]. apply andb_prop in Hall as [Hz Hall].
    apply Nat.ltb_lt in Hr. apply Nat.eqb_eq in Hz. assert (g = 0%nat) as -> by lia.
    destruct Ho as [Hwr Ha Hus _ Hc]. apply nil_length_inv in Hus as ->.
    destruct Hc as [(_ & _ & Hc)|(Hpos & _ & _)]; [|destruct Hind as [_ Hneg]; specialize (Hneg eq_refl); lia].
    assert (Hrep : pending = replicate (repeat_count e) (current_value e)).
    { destruct Hst as [(_ & _ & _ & Hp)|(Hn & Hr1 & _ & Hp & Hlast)]; [done|].
      assert (Heq : repeat_count e = num_buffered_values e).
      { apply orb_prop in Hall as [H%Nat.eqb_eq|H%Nat.eqb_eq]; lia. }
      by rewrite Heq, Nat.sub_diag, drop_0 in Hlast; rewrite Heq. }
    destruct (flush_rle_run_spec e (buf ++ runs)) as (e1 & -> & E1 & _ & _ & _ & _ & _ & _ & _ & _ & Hc1);
      [by rewrite Hwd|done|done|done|rewrite Evs, Hrep, !length_app, length_replicate in Hlen; lia|].
    eexists _, 0%nat. split_and!; [by rewrite Hc1, <- app_assoc| |lia].
    rewrite Hwd, Evs, app_nil_r. cbn [app]. apply hybrid_app; [done|]. rewrite Hrep. apply hybrid_rle_run; [|done].
    rewrite Evs, Hrep, !length_app, length_replicate in Hlen. lia.
  - destruct Hst as [(Hn & Hr & -> & Hp)|(Hn & _ & _ & Hp & _)].
    { assert (g = 0%nat) as -> by by eapply opened_closed_pos. rewrite Hcount, Hn, orb_true_r, andb_true_r in Hall.
      apply Nat.ltb_ge in Hall. lia. }
    destruct (flush_group_spec w buf e done runs us g pending) as (e' & bs & pad & -> & Hc & Hy' & Hpad); try done.
    exists bs, pad. split_and!; [by rewrite <- Hc|by rewrite Evs, <- !app_assoc|done].
Qed.

(** What the encoder writes after [buf] for a list of values. *)
Definition encode (w : Z) (vs buf : list Z) : res (list Z) :=
  e ← put_all vs (new_from_buf w buf); consume e.

(** What the decoder reads, in reads of [ns] values. *)
Definition decode (t : IntType) (w : Z) (ns : list nat) (bs : list Z) : res (list (list Z)) :=
  d ← RleBitPackedDecoder_new bs w; (reads t ns d).1.

Lemma encode_hybrid w vs buf : 0 <= w <= 64 -> Forall (fits w) vs -> Forall is_byte buf -> Z.of_nat (length vs) < 2 ^ 60 ->
  exists bs pad, encode w vs buf = Ok (buf ++ bs) /\ hybrid w bs (vs ++ replicate pad 0) /\ (pad < 8)%nat.
Proof.
  intros Hw Hf Hb Hlen. destruct (put_all_spec w buf vs _ [] Hw (new_encodes w buf Hw Hb) Hf Hlen) as (e & E & He).
  unfold encode, mbind, res_bind. rewrite E. by apply consume_spec.
Qed.

Lemma decode_hybrid t w ns bs vs : (0 < int_bytes t)%nat -> 0 <= w <= 64 -> hybrid w bs vs -> (sum_list ns <= length vs)%nat ->
  exists uss, decode t w ns bs = Ok uss /\ length <$> uss = ns /\ concat uss = from_u64 t <$> take (sum_list ns) vs.
Proof.
  intros Ht Hw Hy Hn. destruct (new_decodes w bs vs Hw Hy) as (d & E & Hok & Hd).
  destruct (reads_spec t ns d vs Ht Hok Hd Hn) as (uss & d' & E' & H). exists uss.
  unfold decode, mbind, res_bind. by rewrite E, E'.
Qed.

(** A value of [w] bits that the type holds. *)
Definition value_of (t : IntType) (w v : Z) : Prop := fits w v /\ from_u64 t v = v.

Lemma values_of_fits t w vs : Forall (value_of t w) vs -> Forall (fits w) vs.
Proof. intros H. eapply List.Forall_impl, H. by intros v []. Qed.

Lemma values_of_id t w vs n : Forall (value_of t w) vs -> from_u64 t <$> take n vs = take n vs.
Proof.
  intros Hf. rewrite <- (list_fmap_id (take n vs)) at 2. apply list_fmap_ext. intros i v Hv.
  apply lookup_take_Some in Hv as [Hv _]. by apply (Forall_lookup_1 _ _ _ _ Hf Hv).
Qed.

(** C19. The hybrid encoding is read back: for every width and every list of values
    of that width, the encoder puts bytes after what its buffer holds, without a
    failed assertion or an index out of range, and the decoder over these bytes
    gives the values back, in reads of any sizes that together ask for no more
    than was written; it never reads past the bytes. *)
Theorem rle_round_trip t w vs buf ns :
  (0 < int_bytes t)%nat -> 0 <= w <= 64 -> Forall (value_of t w) vs -> Forall is_byte buf ->
  Z.of_nat (length vs) < 2 ^ 60 -> (sum_list ns <= length vs)%nat ->
  exists bs uss, encode w vs buf = Ok (buf ++ bs) /\ decode t w ns bs = Ok uss
    /\ length <$> uss = ns /\ concat uss = take (sum_list ns) vs.
Proof.
  intros Ht Hw Hv Hb Hlen Hns. pose proof (values_of_fits _ _ _ Hv) as Hf.
  destruct (encode_hybrid w vs buf Hw Hf Hb Hlen) as (bs & pad & E & Hy & _).
  destruct (decode_hybrid t w ns bs _ Ht Hw Hy) as (uss & D & Hl & Hc); [rewrite length_app; lia|].
  exists bs, uss. split_and!; [done..|]. rewrite Hc, take_app_le by done. by apply values_of_id with w.
Qed.

Module RleExample.

(** Twelve levels of three bits, after a byte: a run of nine and a group. *)
Definition levels : list Z := [5; 5; 5; 5; 5; 5; 5; 5; 5; 1; 2; 7].

Example encode_levels : encode 3 levels [170] = Ok [170; 18; 5; 3; 209; 1; 0].
Proof. vm_compute. reflexivity. Qed.

Lemma rle_round_trip_witness : exists bs uss, encode 3 levels [170] = Ok ([170] ++ bs)
  /\ decode i16_t 3 [4; 0; 7; 1]%nat bs = Ok uss
  /\ length <$> uss = [4; 0; 7; 1]%nat /\ concat uss = take 12 levels.
Proof.
  apply (rle_round_trip i16_t 3 levels [170] [4; 0; 7; 1]%nat).
  - vm_compute. lia.
  - lia.
  - repeat constructor; vm_compute; congruence.
  - repeat constructor; vm_compute; congruence.
  - vm_compute. reflexivity.
  - vm_compute. lia.
Defined.

End RleExample.
