(* ===== verification/ParquetDelta.v ===== *)
(** * The delta binary packed encoding

    The encoder of 32 and 64 bit integers ([encodings/encoding/mod.rs],
    [DeltaBitPackEncoder]), which writes blocks of four miniblocks of differences,
    and the decoder of the column reader
    ([column/encoding/delta_binary_packed.rs]).  The integer type is [i32_t] or
    [i64_t]; arithmetic that wraps in the source wraps here, and an unchecked
    subtraction below zero is a panic. *)
From S2P Require Import Prelude ParquetBits.
Open Scope Z_scope.

(** ** Encoder *)

Definition DEFAULT_NUM_MINI_BLOCKS : nat := 4.

Record DeltaBitPackEncoder := {
  page_header_writer : BitWriter;
  delta_writer : BitWriter;
  enc_total_values : nat;
  first_value : Z;
  delta_current : Z;
  block_size : nat;
  mini_block_size : nat;
  num_mini_blocks : nat;
  values_in_block : nat;
  deltas : list Z
}.

(** [DeltaBitPackEncoder::new]: miniblocks of as many values as the type has
    bits. *)
Definition DeltaBitPackEncoder_new (t : IntType) : DeltaBitPackEncoder :=
  let mini_block_size := (8 * int_bytes t)%nat in
  let block_size := (mini_block_size * DEFAULT_NUM_MINI_BLOCKS)%nat in
  {| page_header_writer := BitWriter_new_from_buf []; delta_writer := BitWriter_new_from_buf [];
     enc_total_values := 0; first_value := 0; delta_current := 0; block_size := block_size;
     mini_block_size := mini_block_size; num_mini_blocks := DEFAULT_NUM_MINI_BLOCKS;
     values_in_block := 0; deltas := replicate block_size 0 |}.

(** [subtract] and [subtract_u64]: the difference in the type, and as an unsigned
    number of the type's width. *)
Definition subtract (t : IntType) (left right : Z) : Z :=
  signed (int_bits t) (signed (int_bits t) left - signed (int_bits t) right).

Definition subtract_u64 (t : IntType) (left right : Z) : Z :=
  subtract t left right mod 2 ^ int_bits t.

Definition set_writer (w : BitWriter) (n : nat) (e : DeltaBitPackEncoder) : DeltaBitPackEncoder :=
  {| page_header_writer := page_header_writer e; delta_writer := w; enc_total_values := enc_total_values e;
     first_value := first_value e; delta_current := delta_current e; block_size := block_size e;
     mini_block_size := mini_block_size e; num_mini_blocks := num_mini_blocks e; values_in_block := n;
     deltas := deltas e |}.

(** The elements at [start .. start + n], read one by one. *)
Definition index_range (l : list Z) (start n : nat) : res (list Z) :=
  if (start + n <=? length l)%nat then Ok (take n (drop start l)) else Panic "index out of bounds".

(** The widths of the miniblocks that no value is left for. *)
Fixpoint write_padding (rounds at_ : nat) (w : BitWriter) : res BitWriter :=
  match rounds with
  | O => Ok w
  | S r => w ← write_at at_ 0 w; write_padding r (S at_) w
  end.

(** The loop over the miniblocks of [flush_block_values], in round [i] of
    [i + rounds]; it gives the values that are left as well. *)
Fixpoint flush_mini_blocks (t : IntType) (ds : list Z) (size offset : nat) (min_delta : Z)
    (rounds i left : nat) (w : BitWriter) : res (BitWriter * nat) :=
  match rounds with
  | O => Ok (w, left)
  | S r =>
    let n := Nat.min size left in
    if (n =? 0)%nat then w ← write_padding rounds (offset + i) w; Ok (w, left)
    else
      mb ← index_range ds (i * size) n;
      let max_delta := foldl Z.max (- 2 ^ 63) mb in
      let width := num_required_bits (subtract_u64 t max_delta min_delta) in
      w ← write_at (offset + i) (width mod 256) w;
      w ← put_values ((fun d => subtract_u64 t d min_delta) <$> mb) width w;
      w ← put_values (replicate (size - n) 0) width w;
      flush_mini_blocks t ds size offset min_delta r (S i) (left - n) w
  end.

Definition flush_block_values (t : IntType) (e : DeltaBitPackEncoder) : res DeltaBitPackEncoder :=
  if (values_in_block e =? 0)%nat then Ok e
  else
    ds ← index_range (deltas e) 0 (values_in_block e);
    let min_delta := foldl Z.min (2 ^ 63 - 1) ds in
    w ← put_zigzag_vlq_int min_delta (delta_writer e);
    let '(offset, w) := skip (num_mini_blocks e) w in
    '(w, rest) ← flush_mini_blocks t (deltas e) (mini_block_size e) offset min_delta
                   (num_mini_blocks e) 0 (values_in_block e) w;
    _ ← rust_assert (rest =? 0)%nat "Expected 0 values in block";
    Ok (set_writer w rest e).

(** One step of the loop of [put]. *)
Definition put_delta (t : IntType) (value : Z) (e : DeltaBitPackEncoder) : res DeltaBitPackEncoder :=
  if (values_in_block e <? length (deltas e))%nat then
    let e := {| page_header_writer := page_header_writer e; delta_writer := delta_writer e;
                enc_total_values := enc_total_values e; first_value := first_value e; delta_current := value;
                block_size := block_size e; mini_block_size := mini_block_size e;
                num_mini_blocks := num_mini_blocks e; values_in_block := S (values_in_block e);
                deltas := <[values_in_block e := subtract t value (delta_current e)]> (deltas e) |} in
    if (values_in_block e =? block_size e)%nat then flush_block_values t e else Ok e
  else Panic "index out of bounds".

Fixpoint put_deltas (t : IntType) (values : list Z) (e : DeltaBitPackEncoder) : res DeltaBitPackEncoder :=
  match values with
  | [] => Ok e
  | v :: vs => e ← put_delta t v e; put_deltas t vs e
  end.

Definition set_total (total : nat) (first current : Z) (e : DeltaBitPackEncoder) : DeltaBitPackEncoder :=
  {| page_header_writer := page_header_writer e; delta_writer := delta_writer e; enc_total_values := total;
     first_value := first; delta_current := current; block_size := block_size e;
     mini_block_size := mini_block_size e; num_mini_blocks := num_mini_blocks e;
     values_in_block := values_in_block e; deltas := deltas e |}.

(** [Encoder::put] *)
Definition delta_put (t : IntType) (values : list Z) (e : DeltaBitPackEncoder) : res DeltaBitPackEncoder :=
  match values with
  | [] => Ok e
  | v :: vs =>
    let total := (enc_total_values e + length values)%nat in
    if (enc_total_values e =? 0)%nat then put_deltas t vs (set_total total v v e)
    else put_deltas t values (set_total total (first_value e) (delta_current e) e)
  end.

Definition write_page_header (e : DeltaBitPackEncoder) : res BitWriter :=
  w ← put_vlq_int (Z.of_nat (block_size e)) (page_header_writer e);
  w ← put_vlq_int (Z.of_nat (num_mini_blocks e)) w;
  w ← put_vlq_int (Z.of_nat (enc_total_values e)) w;
  put_zigzag_vlq_int (first_value e) w.

(** [Encoder::flush_buffer], which leaves an encoder for another page. *)
Definition delta_flush_buffer (t : IntType) (e : DeltaBitPackEncoder) : res (list Z * DeltaBitPackEncoder) :=
  e ← flush_block_values t e;
  header ← write_page_header e;
  Ok (BitWriter_consume header ++ BitWriter_consume (delta_writer e),
      {| page_header_writer := BitWriter_new_from_buf []; delta_writer := BitWriter_new_from_buf [];
         enc_total_values := 0; first_value := 0; delta_current := 0; block_size := block_size e;
         mini_block_size := mini_block_size e; num_mini_blocks := num_mini_blocks e; values_in_block := 0;
         deltas := deltas e |}).

(** ** Decoder *)

Record DeltaDecoder := {
  cursor : ReadCursor;
  mini_block_count : nat;
  total_values : nat;
  values_remaining : nat;
  mini_block_bit_widths : list Z;
  mini_block_idx : nat;
  mini_block_value_idx : nat;
  values_per_mini_block : nat;
  min_delta : Z;
  prev_value : Z;
  bit_unpack_state : BitUnpackState
}.

(** [T::from_i64] *)
Definition from_i64 (t : IntType) (v : Z) : option Z :=
  if signed (int_bits t) v =? v then Some v else None.

Definition read_zigzag (t : IntType) (error : string) : M ReadCursor Z :=
  v ← read_unsigned_vlq;
  match from_i64 t (zigzag_decode v) with
  | Some v => mret v
  | None => fail error
  end.

(** The bytes of the bit widths. *)
Fixpoint read_widths (n : nat) : M ReadCursor (list Z) :=
  match n with
  | O => mret []
  | S n' => b ← read_next_u8; bs ← read_widths n'; mret (b :: bs)
  end.

Definition set_cursor (c : ReadCursor) (d : DeltaDecoder) : DeltaDecoder :=
  {| cursor := c; mini_block_count := mini_block_count d; total_values := total_values d;
     values_remaining := values_remaining d; mini_block_bit_widths := mini_block_bit_widths d;
     mini_block_idx := mini_block_idx d; mini_block_value_idx := mini_block_value_idx d;
     values_per_mini_block := values_per_mini_block d; min_delta := min_delta d; prev_value := prev_value d;
     bit_unpack_state := bit_unpack_state d |}.

Definition on_cursor {A} (m : M ReadCursor A) : M DeltaDecoder A := fun d =>
  let '(r, c) := m (cursor d) in (r, set_cursor c d).

(** A block is entered: its bit widths and smallest difference. *)
Definition set_block (widths : list Z) (min first : Z) : M DeltaDecoder unit := fun d =>
  (Ok tt,
   {| cursor := cursor d; mini_block_count := mini_block_count d; total_values := total_values d;
      values_remaining := values_remaining d; mini_block_bit_widths := widths; mini_block_idx := 0;
      mini_block_value_idx := 0; values_per_mini_block := values_per_mini_block d; min_delta := min;
      prev_value := prev_value d; bit_unpack_state := BitUnpackState_new first |}).

Definition load_next_block (t : IntType) : M DeltaDecoder unit :=
  min ← on_cursor (read_zigzag t "Min delta too large");
  d ← get;
  widths ← on_cursor (read_widths (mini_block_count d));
  first ← lift (index widths 0);
  set_block widths min first.

(** The page header: block size, miniblocks per block, values, first value. *)
Definition read_page_header (t : IntType) : M ReadCursor (Z * Z * Z * Z) :=
  bs ← read_unsigned_vlq;
  n ← read_unsigned_vlq;
  total ← read_unsigned_vlq;
  first ← read_zigzag t "first value too large";
  mret (bs, n, total, first).

Definition decoder_of_header (c : ReadCursor) (bs n total first : Z) : DeltaDecoder :=
  {| cursor := c; mini_block_count := Z.to_nat n; total_values := Z.to_nat total;
     values_remaining := Z.to_nat total - 1; mini_block_bit_widths := replicate (Z.to_nat n) 0;
     mini_block_idx := 0; mini_block_value_idx := 0; values_per_mini_block := Z.to_nat (bs / n);
     min_delta := 0; prev_value := first; bit_unpack_state := BitUnpackState_new 0 |}.

(** [DeltaBinaryPackedValueDecoder::try_new] *)
Definition delta_try_new (t : IntType) (c : ReadCursor) : res DeltaDecoder :=
  let '(header, c) := read_page_header t c in
  '(bs, n, total, first) ← header;
  _ ← rust_assert (negb (n =? 0)) "attempt to divide by zero";
  let d := decoder_of_header c bs n total first in
  if 0 <? total then let '(r, d) := load_next_block t d in _ ← r; Ok d else Ok d.

Definition set_unpack (s : BitUnpackState) : M DeltaDecoder unit := fun d =>
  (Ok tt,
   {| cursor := cursor d; mini_block_count := mini_block_count d; total_values := total_values d;
      values_remaining := values_remaining d; mini_block_bit_widths := mini_block_bit_widths d;
      mini_block_idx := mini_block_idx d; mini_block_value_idx := mini_block_value_idx d;
      values_per_mini_block := values_per_mini_block d; min_delta := min_delta d; prev_value := prev_value d;
      bit_unpack_state := s |}).

Definition set_mini_block (idx value_idx : nat) : M DeltaDecoder unit := fun d =>
  (Ok tt,
   {| cursor := cursor d; mini_block_count := mini_block_count d; total_values := total_values d;
      values_remaining := values_remaining d; mini_block_bit_widths := mini_block_bit_widths d;
      mini_block_idx := idx; mini_block_value_idx := value_idx;
      values_per_mini_block := values_per_mini_block d; min_delta := min_delta d; prev_value := prev_value d;
      bit_unpack_state := bit_unpack_state d |}).

(** The body of the [for] loop of [read]: an unpacked number becomes a value. *)
Definition add_delta (t : IntType) (output : Z) : M DeltaDecoder Z := fun d =>
  let final_v := signed (int_bits t) (signed (int_bits t) (output + min_delta d) + prev_value d) in
  let d' := {| cursor := cursor d; mini_block_count := mini_block_count d; total_values := total_values d;
               values_remaining := values_remaining d - 1; mini_block_bit_widths := mini_block_bit_widths d;
               mini_block_idx := mini_block_idx d; mini_block_value_idx := S (mini_block_value_idx d);
               values_per_mini_block := values_per_mini_block d; min_delta := min_delta d; prev_value := final_v;
               bit_unpack_state := bit_unpack_state d |} in
  if (values_remaining d =? 0)%nat then (Panic "attempt to subtract with overflow", d) else (Ok final_v, d').

Fixpoint add_deltas (t : IntType) (us : list Z) : M DeltaDecoder (list Z) :=
  match us with
  | [] => mret []
  | u :: us' => v ← add_delta t u; vs ← add_deltas t us'; mret (v :: vs)
  end.

(** The start of a round of the loop of [read]: the next block and the width of
    the next miniblock are loaded where they are due. *)
Definition enter_mini_block (t : IntType) : M DeltaDecoder unit :=
  d ← get;
  _ ← (if ((values_per_mini_block d <=? mini_block_value_idx d) || (mini_block_count d <=? mini_block_idx d))%nat
       then load_next_block t else mret tt);
  d ← get;
  if (mini_block_value_idx d =? 0)%nat then
    w ← lift (index (mini_block_bit_widths d) (mini_block_idx d)); set_unpack (BitUnpackState_new w)
  else mret tt.

(** One round, with [room] values of the output to go. *)
Definition read_round (t : IntType) (room : nat) : M DeltaDecoder (list Z) :=
  _ ← enter_mini_block t;
  d ← get;
  let rem_in_mini_block := (values_per_mini_block d - mini_block_value_idx d)%nat in
  let count := Nat.min room rem_in_mini_block in
  '(us, state) ← on_cursor (bit_unpack t (bit_unpack_state d) count);
  _ ← set_unpack state;
  vs ← add_deltas t us;
  d ← get;
  _ ← (if (values_per_mini_block d <=? mini_block_value_idx d)%nat
       then set_mini_block (S (mini_block_idx d)) 0 else mret tt);
  mret vs.

(** The loop of [read].  A round reads a value, or loads a block of at least a
    byte. *)
Fixpoint delta_loop (t : IntType) (fuel room : nat) : M DeltaDecoder (list Z) :=
  match fuel with
  | O => lift (Panic "out of fuel")
  | S fuel' =>
    d ← get;
    if ((room =? 0) || (values_remaining d =? 0))%nat then mret []
    else
      vs ← read_round t room;
      ws ← delta_loop t fuel' (room - length vs);
      mret (vs ++ ws)
  end.

(** [read] into a slice that holds [out]. *)
Definition delta_read (t : IntType) (out : list Z) : M DeltaDecoder (list Z) :=
  match out with
  | [] => mret []
  | _ :: out' =>
    d ← get;
    vs ← delta_loop t (S (length out' + length (cursor d))) (length out');
    mret (prev_value d :: vs ++ drop (length vs) out')
  end.

(** [try_into_cursor]: the cursor behind the miniblock it is in. *)
Definition try_into_cursor (d : DeltaDecoder) : res ReadCursor :=
  width ← index (mini_block_bit_widths d) (mini_block_idx d);
  let rem_vals := (values_per_mini_block d - mini_block_value_idx d)%nat in
  if (0 <? width) && (0 <? rem_vals)%nat then
    let '(r, c) := skip_bytes_unchecked (Z.to_nat (ceil (width * Z.of_nat rem_vals) 8)) (cursor d) in
    _ ← r; Ok c
  else Ok (cursor d).
