(* ===== verification/DeltaCorrect.v ===== *)
(** * Differences are read back

    The blocks of the delta binary packed encoding as a grammar, that the encoder
    writes them, that one read of the decoder gives the values back and leaves the
    cursor behind them, and where the decoder goes wrong. *)
From S2P Require Import Prelude ParquetBits BitStreams ParquetDelta.
Open Scope Z_scope.

(** ** Wrapping arithmetic *)

Lemma signed_cong b x y : x mod 2 ^ b = y mod 2 ^ b -> signed b x = signed b y.
Proof. unfold signed. by intros ->. Qed.

Lemma signed_mod_cong b x : 0 < b -> signed b (x mod 2 ^ b) = signed b x.
Proof. intros Hb. apply signed_cong, Z.mod_mod, Z.pow_nonzero; lia. Qed.

Lemma signed_add_l b x y : 0 < b -> signed b (signed b x + y) = signed b (x + y).
Proof.
  intros Hb. apply signed_cong. rewrite <- (Z.add_mod_idemp_l (signed b x)), signed_mod by (done || apply Z.pow_nonzero; lia).
  apply Z.add_mod_idemp_l, Z.pow_nonzero; lia.
Qed.

Lemma signed_add_r b x y : 0 < b -> signed b (x + signed b y) = signed b (x + y).
Proof. intros Hb. rewrite Z.add_comm, signed_add_l, Z.add_comm by done. done. Qed.

Lemma signed_sub b x y : 0 < b -> signed b (signed b x - signed b y) = signed b (x - y).
Proof.
  intros Hb. apply signed_cong. rewrite Zminus_mod, !signed_mod, <- Zminus_mod by done. done.
Qed.

Lemma signed_signed b x : 0 < b -> signed b (signed b x) = signed b x.
Proof. intros Hb. by apply signed_id, signed_range. Qed.

(** ** The grammar *)

Section Delta.
Context (t : IntType).
Hypothesis Ht : (0 < int_bytes t <= 8)%nat.
Hypothesis Hs : int_signed t = true.

Local Abbreviation b := (int_bits t).

Lemma int_bits_pos : 0 < b <= 64.
Proof. unfold int_bits. lia. Qed.

(** A value of the type. *)
Definition in_type (v : Z) : Prop := signed b v = v.

Lemma in_type_signed x : in_type (signed b x).
Proof. apply signed_signed. pose proof int_bits_pos. lia. Qed.

Lemma in_type_i64 v : in_type v -> is_i64 v.
Proof.
  intros <-. pose proof (signed_range b v ltac:(pose proof int_bits_pos; lia)) as H. unfold is_i64.
  pose proof (Z.pow_le_mono_r 2 (b - 1) 63 ltac:(lia) ltac:(pose proof int_bits_pos; lia)). lia.
Qed.

(** A miniblock: the width and the numbers of that width; groups of eight. *)
Record MiniBlock := { mini_width : Z; mini_values : list Z }.

Record mini_wf (g : nat) (mb : MiniBlock) : Prop := {
  mini_width_ok : 0 <= mini_width mb <= 64;
  mini_length : length (mini_values mb) = (8 * g)%nat;
  mini_fits : Forall (fits (mini_width mb)) (mini_values mb)
}.

Definition mini_bytes (g : nat) (mb : MiniBlock) : list Z :=
  to_le (Z.to_nat (mini_width mb) * g) (packed (mini_width mb) (mini_values mb)).

(** The differences that the numbers of miniblocks stand for. *)
Definition mini_deltas (min : Z) (mb : MiniBlock) : list Z := (fun r => signed b (r + min)) <$> mini_values mb.

Definition minis_bytes (g : nat) (mbs : list MiniBlock) : list Z := concat (mini_bytes g <$> mbs).
Definition minis_deltas (min : Z) (mbs : list MiniBlock) : list Z := concat (mini_deltas min <$> mbs).

(** [blocks g m bs ds]: blocks of [m] miniblocks with the differences [ds]; the
    last block may have fewer, and its other widths are zero. *)
Inductive blocks (g m : nat) : list Z -> list Z -> Prop :=
| blocks_nil : blocks g m [] []
| blocks_cons min mbs bs ds :
    in_type min -> (0 < length mbs <= m)%nat -> Forall (mini_wf g) mbs -> ((length mbs < m)%nat -> bs = []) ->
    blocks g m bs ds ->
    blocks g m (vlq (zigzag_encode min) ++ (mini_width <$> mbs) ++ replicate (m - length mbs) 0 ++ minis_bytes g mbs ++ bs)
      (minis_deltas min mbs ++ ds).

(** The values that differences make from a first one. *)
Fixpoint sums (prev : Z) (ds : list Z) : list Z :=
  match ds with
  | [] => []
  | d :: ds' => let v := signed b (prev + d) in v :: sums v ds'
  end.

Lemma sums_length prev ds : length (sums prev ds) = length ds.
Proof. revert prev. induction ds; intros; simpl; [done|]. by f_equal. Qed.

(** The last of them. *)
Definition sum_to (prev : Z) (ds : list Z) : Z := foldl (fun p d => signed b (p + d)) prev ds.

Lemma sums_app prev ds ds' : sums prev (ds ++ ds') = sums prev ds ++ sums (sum_to prev ds) ds'.
Proof. revert prev. induction ds as [|d ds IH]; intros prev; [done|]. cbn [sums app]. by rewrite IH. Qed.

Lemma sum_to_app prev ds ds' : sum_to prev (ds ++ ds') = sum_to (sum_to prev ds) ds'.
Proof. apply foldl_app. Qed.

(** ** The decoder *)

(** The differences ahead. *)
Definition ahead (d : DeltaDecoder) (mbs : list MiniBlock) (ds : list Z) : list Z := minis_deltas (min_delta d) mbs ++ ds.

(** The number of differences in all. *)
Context (N : nat).

(** Between two miniblocks: the miniblocks of the block that are left, then
    blocks, then other bytes. *)
Record between (g m : nat) (d : DeltaDecoder) (mbs : list MiniBlock) (bs ds tail : list Z) : Prop := {
  between_per : values_per_mini_block d = (8 * g)%nat;
  between_count : mini_block_count d = m;
  between_start : mini_block_value_idx d = 0%nat;
  between_min : in_type (min_delta d);
  between_fit : (mini_block_idx d + length mbs <= m)%nat;
  between_last : (mini_block_idx d + length mbs < m)%nat -> bs = [];
  between_widths : mini_block_bit_widths d
    = take (mini_block_idx d) (mini_block_bit_widths d) ++ (mini_width <$> mbs)
      ++ replicate (m - (mini_block_idx d + length mbs)) 0;
  between_len : length (mini_block_bit_widths d) = m;
  between_wf : Forall (mini_wf g) mbs;
  between_blocks : blocks g m bs ds;
  between_tail : Forall is_byte tail;
  between_cursor : cursor d = minis_bytes g mbs ++ bs ++ tail;
  between_phase : exists q, N = (8 * g * (m * q + mini_block_idx d) + length (ahead d mbs ds))%nat;
  between_fresh : mini_block_idx d = 0%nat -> mbs <> []
}.

Lemma minis_bytes_bytes g mbs : Forall is_byte (minis_bytes g mbs).
Proof. unfold minis_bytes. induction mbs as [|mb mbs IH]; [constructor|]. simpl. apply Forall_app. split; [apply to_le_bytes|done]. Qed.

Lemma blocks_bytes g m bs ds : blocks g m bs ds -> Forall is_byte bs.
Proof.
  induction 1 as [|min mbs bs ds Hmin Hl Hwf _ _ IH]; [constructor|]. rewrite !Forall_app. split_and!.
  - apply vlq_bytes, zigzag_encode_u64, in_type_i64, Hmin.
  - apply Forall_fmap. eapply List.Forall_impl, Hwf. intros mb []. unfold is_byte. simpl. lia.
  - by apply Forall_replicate.
  - apply minis_bytes_bytes.
  - done.
Qed.

Lemma read_widths_spec ws c : read_widths (length ws) (ws ++ c) = (Ok ws, c).
Proof.
  revert c. induction ws as [|w ws IH]; intros c; [done|]. cbn [length read_widths app].
  unfold mbind, M_bind. by rewrite read_next_u8_cons, IH.
Qed.

Lemma read_zigzag_spec v error c : in_type v -> read_zigzag t error (vlq (zigzag_encode v) ++ c) = (Ok v, c).
Proof.
  intros Hv. unfold read_zigzag, mbind, M_bind.
  rewrite read_vlq, zigzag_round_trip by first [by apply in_type_i64|by apply zigzag_encode_u64, in_type_i64].
  unfold from_i64. by rewrite Hv, Z.eqb_refl.
Qed.

(** A block is loaded. *)
Lemma load_next_block_spec g m d bs ds tail : values_per_mini_block d = (8 * g)%nat -> mini_block_count d = m ->
  blocks g m bs ds -> Forall is_byte tail -> cursor d = bs ++ tail -> bs <> [] ->
  (exists q, N = (8 * g * (m * q) + length ds)%nat) ->
  exists d' mb mbs bs' ds', load_next_block t d = (Ok tt, d') /\ between g m d' (mb :: mbs) bs' ds' tail
    /\ mini_block_idx d' = 0%nat /\ ahead d' (mb :: mbs) ds' = ds
    /\ prev_value d' = prev_value d /\ values_remaining d' = values_remaining d /\ total_values d' = total_values d.
Proof.
  intros Hper Hm Hb Htail Hc Hne [q HN]. destruct Hb as [|min mbs bs ds Hmin Hl Hwf Hlast Hb]; [done|].
  destruct mbs as [|mb mbs]; [simpl in Hl; lia|].
  unfold load_next_block. unfold mbind at 1, M_bind at 1, on_cursor at 1. rewrite Hc, <- !app_assoc, read_zigzag_spec by done.
  unfold mbind at 1, M_bind at 1, get at 1. unfold mbind at 1, M_bind at 1, on_cursor at 1. cbn [set_cursor cursor mini_block_count].
  set (ws := (mini_width <$> mb :: mbs) ++ replicate (m - length (mb :: mbs)) 0).
  assert (Hws : length ws = mini_block_count d).
  { unfold ws. rewrite length_app, length_fmap, length_replicate. lia. }
  rewrite <- Hws. rewrite (app_assoc (mini_width <$> mb :: mbs)). fold ws. rewrite read_widths_spec.
  unfold mbind, M_bind, lift, set_block. cbn [ws fmap list_fmap app index lookup list_lookup].
  eexists _, mb, mbs, bs, ds. split; [done|]. split_and!; try done.
  constructor; cbn [values_per_mini_block mini_block_count mini_block_value_idx min_delta mini_block_idx mini_block_bit_widths cursor set_cursor]; try done; [lia|by etransitivity; [exact Hws|]|].
  exists q. rewrite HN. unfold ahead. cbn [min_delta mini_block_idx]. lia.
Qed.

(** At the start of a miniblock, its width is set. *)
Lemma enter_mini_block_spec g m d mbs bs ds tail : (0 < g)%nat -> between g m d mbs bs ds tail -> ahead d mbs ds <> [] ->
  exists d' mb mbs' bs' ds', enter_mini_block t d = (Ok tt, d') /\ between g m d' (mb :: mbs') bs' ds' tail
    /\ bit_unpack_state d' = BitUnpackState_new (mini_width mb) /\ ahead d' (mb :: mbs') ds' = ahead d mbs ds
    /\ prev_value d' = prev_value d /\ values_remaining d' = values_remaining d /\ total_values d' = total_values d.
Proof.
  intros Hg Hd Hne.
  assert (Hset : forall d0 mb mbs' bs' ds', between g m d0 (mb :: mbs') bs' ds' tail ->
    (d ← get; if (mini_block_value_idx d =? 0)%nat then
       w ← lift (index (mini_block_bit_widths d) (mini_block_idx d)); set_unpack (BitUnpackState_new w)
     else mret tt) d0 = set_unpack (BitUnpackState_new (mini_width mb)) d0).
  { intros d0 mb mbs' bs' ds' H0. unfold mbind at 1, M_bind at 1, get. rewrite (between_start _ _ _ _ _ _ _ H0). cbn [Nat.eqb].
    assert (Hi : index (mini_block_bit_widths d0) (mini_block_idx d0) = Ok (mini_width mb)).
    { apply index_Ok. pose proof (between_widths _ _ _ _ _ _ _ H0) as Hw. rewrite Hw.
      assert (Hl : length (take (mini_block_idx d0) (mini_block_bit_widths d0)) = mini_block_idx d0).
      { pose proof (between_fit _ _ _ _ _ _ _ H0). pose proof (between_len _ _ _ _ _ _ _ H0). rewrite length_take. cbn [length] in *. lia. }
      by rewrite lookup_app_r, Hl, Nat.sub_diag by lia. }
    unfold mbind, M_bind, lift. by rewrite Hi. }
  unfold enter_mini_block. unfold mbind at 1, M_bind at 1, get at 1.
  destruct Hd as [Hper Hm Hstart Hmin Hfit Hlast Hws Hwl Hwf Hb Htail Hc [q HN] Hfresh]. rewrite Hper, Hstart, Hm.
  rewrite (proj2 (Nat.leb_gt (8 * g) 0)) by lia. cbn [orb]. destruct mbs as [|mb mbs].
  - cbn [length] in *. rewrite Nat.add_0_r in *.
    assert (Hbs : bs <> []). { intros ->. inversion Hb; subst; [done|]. by destruct (vlq (zigzag_encode min)) eqn:E; [apply (f_equal length) in E; pose proof (vlq_length (zigzag_encode min)); simpl in *; lia|]. }
    assert (Him : mini_block_idx d = m) by (destruct (decide (mini_block_idx d < m)%nat); [exfalso; auto|lia]).
    rewrite Him in HN |- *. rewrite Nat.leb_refl. destruct (load_next_block_spec g m d bs ds tail) as (d' & mb & mbs & bs' & ds' & E & Hd' & H); try done;
      [exists (S q); rewrite HN; by rewrite Nat.mul_succ_r|].
    unfold mbind at 1, M_bind at 1. rewrite E, (Hset _ _ _ _ _ Hd').
    eexists _, mb, mbs, bs', ds'. split; [done|]. destruct H as (_ & Ha & Hp & Hv & Htot). split_and!; try done; by destruct Hd'.
  - cbn [length] in Hfit. rewrite (proj2 (Nat.leb_gt m _)) by lia. unfold mbind at 1, M_bind at 1, mret at 1, M_ret at 1.
    rewrite (Hset d mb mbs bs ds) by (constructor; try done; by exists q).
    eexists _, mb, mbs, bs, ds. split; [done|]. split_and!; try done. constructor; try done. by exists q.
Qed.

(** Unpacked numbers become values. *)
Lemma add_deltas_spec rs d : (length rs <= values_remaining d)%nat ->
  let ds := (fun r => signed b (r + min_delta d)) <$> rs in
  add_deltas t (signed b <$> rs) d
  = (Ok (sums (prev_value d) ds),
     {| cursor := cursor d; mini_block_count := mini_block_count d; total_values := total_values d;
        values_remaining := values_remaining d - length rs; mini_block_bit_widths := mini_block_bit_widths d;
        mini_block_idx := mini_block_idx d; mini_block_value_idx := mini_block_value_idx d + length rs;
        values_per_mini_block := values_per_mini_block d; min_delta := min_delta d;
        prev_value := sum_to (prev_value d) ds; bit_unpack_state := bit_unpack_state d |}).
Proof.
  revert d. induction rs as [|r rs IH]; intros d Hlen.
  { cbn. rewrite Nat.sub_0_r, Nat.add_0_r. by destruct d. }
  cbn [length] in *. cbn [fmap list_fmap add_deltas]. unfold mbind at 1, M_bind at 1, add_delta.
  rewrite (proj2 (Nat.eqb_neq (values_remaining d) 0)) by lia.
  assert (E : signed b (signed b (signed b r + min_delta d) + prev_value d) = signed b (prev_value d + signed b (r + min_delta d))).
  { pose proof int_bits_pos. rewrite signed_add_r, signed_add_l, <- Z.add_assoc, signed_add_l by lia. f_equal. lia. }
  rewrite E. unfold mbind at 1, M_bind at 1. rewrite IH by (cbn [values_remaining]; lia).
  cbn [values_remaining min_delta prev_value cursor mini_block_count total_values mini_block_bit_widths mini_block_idx
       mini_block_value_idx values_per_mini_block bit_unpack_state].
  cbn [sums]. unfold mret, M_ret. f_equal. f_equal; lia.
Qed.

(** Inside a miniblock, of which [k] values are read. *)
Record inside (g m : nat) (d : DeltaDecoder) (mb : MiniBlock) (mbs : list MiniBlock) (bs ds tail : list Z) (k : nat) : Prop := {
  inside_k : (0 < k < 8 * g)%nat;
  inside_per : values_per_mini_block d = (8 * g)%nat;
  inside_pos : mini_block_value_idx d = k;
  inside_width : mini_block_bit_widths d !! mini_block_idx d = Some (mini_width mb);
  inside_wf : mini_wf g mb;
  inside_rest : Forall (mini_wf g) mbs;
  inside_phase : exists q, N = (8 * g * S q + length (ahead d mbs ds))%nat;
  inside_blocks : blocks g m bs ds;
  inside_cursor : cursor d = advance 0 (mini_width mb * Z.of_nat k) (mini_bytes g mb ++ minis_bytes g mbs ++ bs ++ tail)
}.

(** Where a read ends: between miniblocks or inside one, with [rest] ahead. *)
Definition stopped (g m : nat) (d : DeltaDecoder) (rest tail : list Z) : Prop :=
  exists mbs bs ds, between g m d mbs bs ds tail /\ rest = ahead d mbs ds
    \/ exists mb k, inside g m d mb mbs bs ds tail k /\ rest = drop k (mini_deltas (min_delta d) mb) ++ ahead d mbs ds.

Lemma ahead_cons d mb mbs ds : ahead d (mb :: mbs) ds = mini_deltas (min_delta d) mb ++ ahead d mbs ds.
Proof. unfold ahead, minis_deltas. cbn [fmap list_fmap concat]. by rewrite <- app_assoc. Qed.

Ltac delta_simpl :=
  cbn [cursor mini_block_count total_values values_remaining mini_block_bit_widths mini_block_idx mini_block_value_idx
       values_per_mini_block min_delta prev_value bit_unpack_state set_cursor].

(** The widths that are left when a miniblock is done. *)
Lemma between_next_widths i ws (w : Z) (xs : list Z) : ws = take i ws ++ w :: xs -> (i < length ws)%nat -> ws = take (S i) ws ++ xs.
Proof.
  intros E Hi. assert (Hw : ws !! i = Some w).
  { rewrite E, lookup_app_r by (rewrite length_take; lia). rewrite length_take, Nat.min_l, Nat.sub_diag by lia. done. }
  rewrite (take_S_r _ _ _ Hw), <- app_assoc. done.
Qed.

Lemma read_round_spec g m d mbs bs ds tail room : (0 < g)%nat -> between g m d mbs bs ds tail ->
  (0 < room <= length (ahead d mbs ds))%nat -> (room <= values_remaining d)%nat ->
  exists k d', (0 < k <= room)%nat /\ read_round t room d = (Ok (sums (prev_value d) (take k (ahead d mbs ds))), d')
    /\ prev_value d' = sum_to (prev_value d) (take k (ahead d mbs ds))
    /\ (values_remaining d' + k)%nat = values_remaining d
    /\ stopped g m d' (drop k (ahead d mbs ds)) tail
    /\ ((k < room)%nat -> exists mbs' bs' ds', between g m d' mbs' bs' ds' tail /\ ahead d' mbs' ds' = drop k (ahead d mbs ds)).
Proof.
  intros Hg Hd Hroom Hrem.
  destruct (enter_mini_block_spec g m d mbs bs ds tail Hg Hd) as (d1 & mb & mbs1 & bs1 & ds1 & E & H1 & Hun & Ha & Hp & Hv & Htot).
  { intros Hnil. rewrite Hnil in Hroom. simpl in Hroom. lia. }
  unfold read_round. unfold mbind at 1, M_bind at 1. rewrite E.
  rewrite <- Ha in Hroom |- *. rewrite <- Hp. rewrite <- Hv in Hrem |- *. clear Ha Hp Hv Htot Hd d E mbs bs ds.
  rename d1 into d, mbs1 into mbs, bs1 into bs, ds1 into ds.
  unfold mbind at 1, M_bind at 1, get at 1.
  destruct H1 as [Hper Hm Hstart Hmin Hfit Hlast Hws Hwl Hwf Hb Htail Hc [q HN] Hfresh].
  apply Forall_cons in Hwf as [Hmb Hwf]. pose proof Hmb as [Hw Hlen Hfits].
  rewrite Hper, Hstart, Nat.sub_0_r, Hun. set (k := Nat.min room (8 * g)).
  assert (Hk : (0 < k <= room)%nat /\ (k <= 8 * g)%nat) by lia.
  unfold minis_bytes in Hc. cbn [fmap list_fmap concat] in Hc. fold (minis_bytes g mbs) in Hc. rewrite <- app_assoc in Hc.
  destruct (packed_holds (mini_width mb) g (mini_values mb) (minis_bytes g mbs ++ bs ++ tail)) as (Hh & Hbits & Hadv);
    [lia|done|done|rewrite !Forall_app; split_and!; [apply minis_bytes_bytes|by eapply blocks_bytes|done]|].
  change (to_le _ _) with (mini_bytes g mb) in Hh, Hadv.
  unfold mbind at 1, M_bind at 1, on_cursor at 1. rewrite Hc.
  rewrite <- (take_drop k (mini_values mb)) in Hh.
  pose proof (bit_unpack_spec t _ _ _ _ _ ltac:(lia) Hw Hh) as Hunp. rewrite length_take, Nat.min_l in Hunp by lia.
  unfold BitUnpackState_new. rewrite Hunp. cbv beta match.
  assert (Hfu : from_u64 t <$> take k (mini_values mb) = signed b <$> take k (mini_values mb)).
  { apply list_fmap_ext. intros. unfold from_u64. by rewrite Hs. }
  rewrite Hfu. unfold mbind at 1, M_bind at 1, set_unpack at 1. unfold mbind at 1, M_bind at 1.
  rewrite add_deltas_spec by (delta_simpl; rewrite length_take; lia). delta_simpl.
  rewrite length_take, (Nat.min_l k) by lia. rewrite Hstart, Nat.add_0_l.
  unfold mbind at 1, M_bind at 1, get at 1. delta_simpl. rewrite Hper.
  assert (Hta : (fun r => signed b (r + min_delta d)) <$> take k (mini_values mb) = take k (ahead d (mb :: mbs) ds)).
  { rewrite ahead_cons, take_app_le by (unfold mini_deltas; rewrite length_fmap; lia). unfold mini_deltas. by rewrite <- fmap_take. }
  rewrite Hta. exists k.
  assert (Hwi : (mini_block_idx d < length (mini_block_bit_widths d))%nat) by (cbn [length] in Hfit; lia).
  assert (Hdr : drop k (ahead d (mb :: mbs) ds) = drop k (mini_deltas (min_delta d) mb) ++ ahead d mbs ds).
  { rewrite ahead_cons, drop_app_le by (unfold mini_deltas; rewrite length_fmap; lia). done. }
  destruct (Nat.leb_spec (8 * g) k) as [Hfull|Hpart].
  - unfold mbind, M_bind, set_mini_block. eexists. split; [lia|]. split; [done|]. delta_simpl.
    assert (Hk8 : k = (8 * g)%nat) by lia.
    rewrite Hdr, (drop_ge (mini_deltas _ _)) by (unfold mini_deltas; rewrite length_fmap; lia). cbn [app].
    match goal with |- context [stopped _ _ ?dd _ _] => assert (Hbt : between g m dd mbs bs ds tail) end.
    { cbn [length] in *. constructor; delta_simpl; try done; [lia|intros; apply Hlast; lia| | |].
      - apply between_next_widths with (mini_width mb); [|done]. rewrite Hws at 1. cbn [fmap list_fmap app].
        by replace (m - (mini_block_idx d + S (length mbs)))%nat with (m - (S (mini_block_idx d) + length mbs))%nat by lia.
      - rewrite Hk8, <- Hlen. done.
      - exists q. rewrite HN, ahead_cons, length_app. unfold mini_deltas. rewrite length_fmap, Hlen. unfold ahead. delta_simpl. lia. }
    split_and!; [done|lia|exists mbs, bs, ds; by left|]. intros _. by exists mbs, bs, ds.
  - unfold mbind, M_bind, mret, M_ret. eexists. split; [lia|]. split; [done|]. delta_simpl.
    split_and!; [done|lia| |lia]. exists mbs, bs, ds. right. exists mb, k. split; [|done].
    constructor; delta_simpl; try done; [lia| |].
    + rewrite Hws, lookup_app_r by (rewrite length_take; lia). by rewrite length_take, Nat.min_l, Nat.sub_diag by lia.
    + exists (m * q + mini_block_idx d)%nat. rewrite HN, ahead_cons, length_app. unfold mini_deltas.
      rewrite length_fmap, Hlen. unfold ahead. delta_simpl. lia.
Qed.

Lemma delta_loop_spec g m fuel room d mbs bs ds tail : (0 < g)%nat -> between g m d mbs bs ds tail ->
  (room <= length (ahead d mbs ds))%nat -> (room <= values_remaining d)%nat -> (room < fuel)%nat ->
  exists d', delta_loop t fuel room d = (Ok (sums (prev_value d) (take room (ahead d mbs ds))), d')
    /\ stopped g m d' (drop room (ahead d mbs ds)) tail
    /\ prev_value d' = sum_to (prev_value d) (take room (ahead d mbs ds)).
Proof.
  intros Hg. revert room d mbs bs ds. induction fuel as [|fuel IH]; intros room d mbs bs ds Hd Hroom Hrem Hfuel; [lia|].
  cbn [delta_loop]. unfold mbind at 1, M_bind at 1, get at 1.
  destruct (decide (room = 0%nat)) as [->|Hr0].
  { exists d. split; [done|]. split; [|done]. exists mbs, bs, ds. by left. }
  rewrite !(proj2 (Nat.eqb_neq _ 0)) by lia. cbn [orb].
  destruct (read_round_spec g m d mbs bs ds tail room Hg Hd ltac:(lia) Hrem) as (k & d1 & Hk & E & Hp & Hv & Hst & Hbt).
  unfold mbind at 1, M_bind at 1. rewrite E, sums_length, length_take, Nat.min_l by lia.
  destruct (decide (k = room)) as [->|Hne].
  - exists d1. rewrite Nat.sub_diag. destruct fuel as [|fuel]; [lia|]. cbn [delta_loop].
    unfold mbind, M_bind, get, mret, M_ret. cbn [Nat.eqb orb]. by rewrite app_nil_r.
  - destruct Hbt as (mbs1 & bs1 & ds1 & H1 & Ha); [lia|].
    destruct (IH (room - k)%nat d1 mbs1 bs1 ds1 H1) as (d2 & E2 & Hst2 & Hp2); [rewrite Ha, length_drop; lia|lia|lia|].
    exists d2. unfold mbind, M_bind. rewrite E2, Hp, Ha in *. rewrite drop_drop in Hst2.
    replace (k + (room - k))%nat with room in Hst2 by lia.
    assert (Et : take room (ahead d mbs ds) = take k (ahead d mbs ds) ++ take (room - k) (drop k (ahead d mbs ds))).
    { rewrite take_take_drop. f_equal. lia. }
    rewrite Et, sums_app, sum_to_app. by rewrite Hp2.
Qed.

(** ** Behind the values *)

Lemma minis_deltas_length g min mbs : Forall (mini_wf g) mbs -> length (minis_deltas min mbs) = (8 * g * length mbs)%nat.
Proof.
  unfold minis_deltas. induction 1 as [|mb mbs [_ Hl _] _ IH]; [simpl; lia|]. cbn [fmap list_fmap concat length].
  rewrite length_app, IH. unfold mini_deltas. rewrite length_fmap. lia.
Qed.

Lemma blocks_short g m bs ds : blocks g m bs ds -> (length ds < 8 * g)%nat -> bs = [] /\ ds = [].
Proof.
  destruct 1 as [|min mbs bs ds _ Hl Hwf _ _]; [done|]. rewrite length_app, (minis_deltas_length g) by done. nia.
Qed.

(** Less than a miniblock is left: there is none. *)
Lemma ahead_short g m d mbs bs ds : Forall (mini_wf g) mbs -> blocks g m bs ds -> (length (ahead d mbs ds) < 8 * g)%nat ->
  mbs = [] /\ bs = [] /\ ds = [].
Proof.
  intros Hwf Hb Hl. unfold ahead in Hl. rewrite length_app, (minis_deltas_length g) in Hl by done.
  destruct (blocks_short g m bs ds Hb ltac:(lia)) as [-> ->]. destruct mbs; [done|]. cbn [length] in Hl. lia.
Qed.

(** Skipping what is left of a miniblock. *)
Lemma skip_mini_block g w k : 0 <= w -> (k <= 8 * g)%nat ->
  (Z.to_nat ((0 + w * Z.of_nat k) / 8) + Z.to_nat (ceil (w * Z.of_nat (8 * g - k)) 8))%nat = (Z.to_nat w * g)%nat.
Proof.
  intros Hw Hk. unfold ceil. rewrite Z.add_0_l.
  replace (w * Z.of_nat (8 * g - k) + 8 - 1) with (8 * (w * Z.of_nat g) - w * Z.of_nat k + 7) by nia.
  set (x := w * Z.of_nat k). set (y := w * Z.of_nat g).
  assert (0 <= x) by (unfold x; nia). assert (x <= 8 * y) by (unfold x, y; nia).
  assert (Ey : y = Z.of_nat (Z.to_nat w * g)) by (unfold y; lia).
  apply Nat2Z.inj. rewrite Nat2Z.inj_add, !Z2Nat.id, <- Ey by (Z.div_mod_to_equations; lia). Z.div_mod_to_equations. lia.
Qed.

Lemma try_into_cursor_inside g m d mb mbs bs ds tail k rest : inside g m d mb mbs bs ds tail k ->
  rest = drop k (mini_deltas (min_delta d) mb) ++ ahead d mbs ds -> (length rest < 8 * g)%nat ->
  try_into_cursor d = Ok tail.
Proof.
  intros [Hk Hper Hpos Hwd [Hw Hlen Hf] Hwf _ Hb Hc] -> Hl. rewrite length_app in Hl.
  destruct (ahead_short g m d mbs bs ds Hwf Hb ltac:(lia)) as (-> & -> & ->). clear Hl Hwf.
  unfold try_into_cursor. rewrite (proj2 (index_Ok _ _ _) Hwd), Hper, Hpos. cbn [mbind res_bind].
  rewrite (proj2 (Nat.ltb_lt 0 _)), andb_true_r by lia. unfold minis_bytes in Hc. cbn [fmap list_fmap concat app] in Hc.
  assert (Hbl : length (mini_bytes g mb) = (Z.to_nat (mini_width mb) * g)%nat) by apply length_to_le.
  destruct (Z.ltb_spec 0 (mini_width mb)) as [H0|H0].
  - pose proof (skip_mini_block g (mini_width mb) k ltac:(lia) ltac:(lia)) as Hsk.
    unfold skip_bytes_unchecked. rewrite Hc. unfold advance. rewrite length_drop, length_app, Hbl.
    rewrite (proj2 (Nat.ltb_ge _ _)) by lia. cbn [mbind res_bind]. f_equal. rewrite drop_drop, Hsk, <- Hbl. apply drop_app_length.
  - assert (mini_width mb = 0) as E0 by lia. unfold mbind, res_bind. rewrite Hc, E0, advance_stay by lia. unfold mini_bytes. by rewrite E0.
Qed.

Lemma try_into_cursor_between g m d mbs bs ds tail : between g m d mbs bs ds tail ->
  (length (ahead d mbs ds) < 8 * g)%nat ->
  try_into_cursor d = if (mini_block_idx d <? m)%nat then Ok tail else Panic "index out of bounds".
Proof.
  intros [Hper Hm Hstart Hmin Hfit Hlast Hws Hwl Hwf Hb Htail Hc _ _] Hl.
  destruct (ahead_short g m d mbs bs ds Hwf Hb Hl) as (-> & -> & ->). cbn [length] in *. rewrite Nat.add_0_r in *.
  cbn [fmap list_fmap app] in Hws. unfold try_into_cursor.
  assert (Hlen : length (take (mini_block_idx d) (mini_block_bit_widths d)) = mini_block_idx d) by (rewrite length_take; lia).
  destruct (Nat.ltb_spec (mini_block_idx d) m) as [Hi|Hi].
  - assert (E : index (mini_block_bit_widths d) (mini_block_idx d) = Ok 0).
    { apply index_Ok. rewrite Hws, lookup_app_r by lia. apply lookup_replicate. lia. }
    rewrite E. cbn. by rewrite Hc.
  - unfold index. by rewrite lookup_ge_None_2 by lia.
Qed.

(** The cursor behind the values, unless they end a block. *)
Lemma try_into_cursor_stopped g m d rest tail n : (0 < g)%nat -> stopped g m d rest tail -> (length rest < 8 * g)%nat ->
  N = (n + length rest)%nat ->
  try_into_cursor d = if (n mod (8 * g * m) =? 0)%nat then Panic "index out of bounds" else Ok tail.
Proof.
  intros Hg (mbs & bs & ds & [[Hd ->]|(mb & k & Hd & Hrest)]) Hl HN.
  - rewrite (try_into_cursor_between g m d mbs bs ds tail Hd Hl). destruct Hd as [_ _ _ _ Hfit _ _ _ Hwf Hb _ _ [q Hq] Hfresh].
    destruct (ahead_short g m d mbs bs ds Hwf Hb Hl) as (-> & -> & ->). cbn [length] in Hfit.
    assert (En : n = (mini_block_idx d * (8 * g) + q * (8 * g * m))%nat) by (rewrite HN in Hq; nia).
    assert (Hi : mini_block_idx d <> 0%nat) by (intros H0; by apply Hfresh).
    rewrite En, Nat.Div0.mod_add. destruct (Nat.ltb_spec (mini_block_idx d) m) as [Hlt|Hge].
    + rewrite Nat.mod_small by nia. by rewrite (proj2 (Nat.eqb_neq _ 0)) by nia.
    + replace (mini_block_idx d * (8 * g))%nat with (8 * g * m)%nat by nia. by rewrite Nat.Div0.mod_same.
  - rewrite (try_into_cursor_inside g m d mb mbs bs ds tail k rest Hd Hrest Hl).
    destruct Hd as [Hk _ _ _ [_ Hlen _] Hwf [q Hq] Hb _]. subst rest. rewrite length_app in *.
    destruct (ahead_short g m d mbs bs ds Hwf Hb ltac:(lia)) as (-> & -> & ->).
    change (length (ahead d [] [])) with 0%nat in *. rewrite length_drop in *. unfold mini_deltas in *. rewrite length_fmap, Hlen in *.
    assert (En : n = (k + q * (8 * g))%nat) by nia.
    destruct (Nat.eqb_spec (n mod (8 * g * m)) 0) as [Hz|]; [|done]. exfalso.
    apply Nat.Div0.mod_divides in Hz as [c Hc]. assert (Hm8 : (n mod (8 * g) = k)%nat) by (rewrite En, Nat.Div0.mod_add, Nat.mod_small; lia).
    rewrite Hc, <- Nat.mul_assoc, (Nat.mul_comm (8 * g)), Nat.Div0.mod_mul in Hm8. lia.
Qed.

(** ** Pages *)

(** The header of a page. *)
Definition page_header (size m total : nat) (first : Z) : list Z :=
  vlq (Z.of_nat size) ++ vlq (Z.of_nat m) ++ vlq (Z.of_nat total) ++ vlq (zigzag_encode first).

Lemma read_page_header_spec size m total first c : Z.of_nat size < 2 ^ 64 -> Z.of_nat m < 2 ^ 64 -> Z.of_nat total < 2 ^ 64 ->
  in_type first ->
  read_page_header t (page_header size m total first ++ c) = (Ok (Z.of_nat size, Z.of_nat m, Z.of_nat total, first), c).
Proof.
  intros H1 H2 H3 Hf. unfold read_page_header, page_header. rewrite <- !app_assoc.
  do 3 (unfold mbind at 1, M_bind at 1; rewrite read_vlq by lia). unfold mbind, M_bind. by rewrite read_zigzag_spec.
Qed.

(** A decoder on a page with differences. *)
Lemma delta_try_new_spec g m total first bs ds tail : (0 < g)%nat -> (0 < m)%nat -> Z.of_nat (8 * g * m) < 2 ^ 64 ->
  (0 < total)%nat -> Z.of_nat total < 2 ^ 64 -> in_type first -> blocks g m bs ds -> bs <> [] -> Forall is_byte tail -> N = length ds ->
  exists d mbs bs' ds', delta_try_new t (page_header (8 * g * m) m total first ++ bs ++ tail) = Ok d
    /\ between g m d mbs bs' ds' tail /\ ahead d mbs ds' = ds
    /\ prev_value d = first /\ values_remaining d = (total - 1)%nat /\ total_values d = total.
Proof.
  intros Hg Hm Hsize Ht0 Htot Hf Hb Hne Htail HN. unfold delta_try_new.
  rewrite read_page_header_spec by (done || nia). unfold mbind, res_bind.
  rewrite (proj2 (Z.eqb_neq _ 0)) by lia. cbn [negb rust_assert]. rewrite (proj2 (Z.ltb_lt 0 _)) by lia.
  set (d0 := decoder_of_header _ _ _ _ _).
  assert (Hper : values_per_mini_block d0 = (8 * g)%nat).
  { unfold d0, decoder_of_header. delta_simpl. rewrite Nat2Z.inj_mul, Z.div_mul by lia. lia. }
  destruct (load_next_block_spec g m d0 bs ds tail) as (d & mb & mbs & bs' & ds' & -> & Hd & _ & Ha & Hp & Hv & Htt); try done.
  - unfold d0, decoder_of_header. delta_simpl. lia.
  - exists 0%nat. lia.
  - exists d, (mb :: mbs), bs', ds'. split_and!; try done.
    + rewrite Hv. unfold d0, decoder_of_header. delta_simpl. lia.
    + rewrite Htt. unfold d0, decoder_of_header. delta_simpl. lia.
Qed.

(** One read of the decoder. *)
Lemma delta_read_spec g m d mbs bs ds tail k out : (0 < g)%nat -> between g m d mbs bs ds tail ->
  length out = S k -> (k <= length (ahead d mbs ds))%nat -> (k <= values_remaining d)%nat ->
  exists d', delta_read t out d = (Ok (prev_value d :: sums (prev_value d) (take k (ahead d mbs ds))), d')
    /\ stopped g m d' (drop k (ahead d mbs ds)) tail
    /\ prev_value d' = sum_to (prev_value d) (take k (ahead d mbs ds)).
Proof.
  intros Hg Hd Hout Hk Hrem. destruct out as [|o out]; [done|]. injection Hout as Hout.
  unfold delta_read. unfold mbind at 1, M_bind at 1, get at 1. rewrite Hout.
  destruct (delta_loop_spec g m (S (k + length (cursor d))) k d mbs bs ds tail) as (d' & E & Hst & Hp); try done; [lia|].
  exists d'. split_and!; try done. unfold mbind, M_bind. rewrite E, sums_length, length_take, Nat.min_l, drop_ge, app_nil_r by lia. done.
Qed.

(** ** The encoder *)

Lemma in_type_range v : in_type v <-> - 2 ^ (b - 1) <= v < 2 ^ (b - 1).
Proof.
  pose proof int_bits_pos. split; [intros <-; apply signed_range; lia|]. intros H'. apply signed_id; lia.
Qed.

Lemma subtract_in_type x y : in_type (subtract t x y).
Proof. apply in_type_signed. Qed.

(** Above the smallest difference, nothing wraps. *)
Lemma subtract_u64_exact d min : in_type d -> in_type min -> min <= d -> subtract_u64 t d min = d - min.
Proof.
  intros Hd Hm Hle. pose proof int_bits_pos. unfold subtract_u64, subtract. rewrite Hd, Hm, signed_mod by lia.
  apply in_type_range in Hd, Hm. apply Z.mod_small. replace (2 ^ b) with (2 * 2 ^ (b - 1)); [lia|].
  rewrite <- Z.pow_succ_r by lia. f_equal. lia.
Qed.

Lemma num_required_bits_spec x : 0 <= x < 2 ^ 64 ->
  0 <= num_required_bits x <= 64 /\ forall y, 0 <= y <= x -> fits (num_required_bits x) y.
Proof.
  intros Hx. unfold num_required_bits. destruct (Z.eqb_spec x 0) as [->|Hne].
  { split; [lia|]. intros y Hy. split; [lia|]. simpl. lia. }
  pose proof (Z.log2_spec x ltac:(lia)) as [_ Hl]. pose proof (Z.log2_nonneg x).
  assert (Z.log2 x < 64) by (apply Z.log2_lt_pow2; lia). split; [lia|]. intros y Hy. unfold fits, Z.succ in *. lia.
Qed.

Lemma foldl_max_spec ds i : i <= foldl Z.max i ds /\ Forall (fun d => d <= foldl Z.max i ds) ds
  /\ (foldl Z.max i ds = i \/ foldl Z.max i ds ∈ ds).
Proof.
  revert i. induction ds as [|d ds IH]; intros i; cbn [foldl]; [split_and!; [lia|constructor|by left]|].
  destruct (IH (Z.max i d)) as (H1 & H2 & H3). split_and!; [lia|constructor; [lia|done]|].
  destruct H3 as [E|H3]; [|right; by apply list_elem_of_further]. rewrite E.
  destruct (Z.max_spec i d) as [[_ ->]|[_ ->]]; [right; apply list_elem_of_here|by left].
Qed.

Lemma foldl_min_spec ds i : foldl Z.min i ds <= i /\ Forall (fun d => foldl Z.min i ds <= d) ds
  /\ (foldl Z.min i ds = i \/ foldl Z.min i ds ∈ ds).
Proof.
  revert i. induction ds as [|d ds IH]; intros i; cbn [foldl]; [split_and!; [lia|constructor|by left]|].
  destruct (IH (Z.min i d)) as (H1 & H2 & H3). split_and!; [lia|constructor; [lia|done]|].
  destruct H3 as [E|H3]; [|right; by apply list_elem_of_further]. rewrite E.
  destruct (Z.min_spec i d) as [[_ ->]|[_ ->]]; [by left|right; apply list_elem_of_here].
Qed.

(** The miniblock of some differences. *)
Definition mini_of (g : nat) (min : Z) (ds : list Z) : MiniBlock :=
  let max_delta := foldl Z.max (- 2 ^ 63) ds in
  {| mini_width := num_required_bits (subtract_u64 t max_delta min);
     mini_values := ((fun d => subtract_u64 t d min) <$> ds) ++ replicate (8 * g - length ds) 0 |}.

Lemma mini_of_spec g min ds : in_type min -> ds <> [] -> Forall in_type ds -> Forall (fun d => min <= d) ds ->
  (length ds <= 8 * g)%nat ->
  mini_wf g (mini_of g min ds) /\ mini_deltas min (mini_of g min ds) = ds ++ replicate (8 * g - length ds) min.
Proof.
  intros Hm Hne Hds Hle Hlen. destruct (foldl_max_spec ds (- 2 ^ 63)) as (_ & Hmax & Hin).
  set (mx := foldl Z.max (- 2 ^ 63) ds) in *. pose proof int_bits_pos.
  assert (Hmx : in_type mx /\ min <= mx).
  { assert (mx ∈ ds) as Hi.
    { destruct Hin as [E|Hi]; [|done]. destruct ds as [|d ds]; [done|]. apply Forall_cons in Hmax as [H1 _].
      apply Forall_cons in Hds as [H2 _]. apply in_type_i64 in H2. unfold is_i64 in H2. replace mx with d by lia. apply list_elem_of_here. }
    split; [by eapply Forall_forall in Hds|by eapply Forall_forall in Hle]. }
  destruct Hmx as [Hmx Hge].
  assert (Hb64 : 0 <= subtract_u64 t mx min < 2 ^ 64).
  { unfold subtract_u64. pose proof (Z.mod_pos_bound (subtract t mx min) (2 ^ b) ltac:(apply two_pow_pos; lia)).
    pose proof (Z.pow_le_mono_r 2 b 64 ltac:(lia) ltac:(lia)). lia. }
  destruct (num_required_bits_spec _ Hb64) as [Hw Hfit]. rewrite (subtract_u64_exact mx) in Hfit by done.
  assert (Hexact : Forall (fun d => subtract_u64 t d min = d - min /\ min <= d <= mx) ds).
  { rewrite Forall_forall in *. intros d Hd. split; [apply subtract_u64_exact; auto|auto]. }
  split.
  - constructor; [done| |].
    + cbn [mini_of mini_values]. rewrite length_app, length_fmap, length_replicate. lia.
    + cbn [mini_of mini_values mini_width]. fold mx. rewrite (subtract_u64_exact mx) by done. apply Forall_app. split.
      * apply Forall_fmap. eapply List.Forall_impl, Hexact. intros d [E Hd]. cbn. rewrite E. apply Hfit. lia.
      * apply Forall_replicate, Hfit. lia.
  - unfold mini_deltas. cbn [mini_of mini_values]. rewrite fmap_app, fmap_replicate, Z.add_0_l, Hm. f_equal.
    rewrite <- list_fmap_compose. rewrite <- (list_fmap_id ds) at 2. apply list_fmap_ext. intros i d Hd.
    eapply Forall_lookup_1 in Hexact as [E _]; [|exact Hd]. cbn. rewrite E. replace (d - min + min) with d by lia.
    by eapply Forall_lookup_1 in Hds.
Qed.

Lemma put_values_app us vs n w : put_values (us ++ vs) n w = (w' ← put_values us n w; put_values vs n w').
Proof.
  revert w. induction us as [|u us IH]; intros w; [done|]. cbn [app put_values]. unfold mbind, res_bind in *.
  destruct (put_value u n w); [apply IH|done..].
Qed.

(** Zeros where zeros are. *)
Lemma write_padding_spec rounds P xs w : writer_ok w -> contents w = P ++ replicate rounds 0 ++ xs ->
  (length P + rounds <= length (buffer w))%nat ->
  exists w', write_padding rounds (length P) w = Ok w' /\ writer_ok w' /\ written_bits w' = written_bits w /\ contents w' = contents w.
Proof.
  revert P w. induction rounds as [|r IH]; intros P w Hw Hc Hl; [by exists w|]. cbn [write_padding].
  destruct (write_at_spec (length P) 0 w Hw ltac:(by split) ltac:(lia)) as (w1 & E & Hw1 & Hb & Hc1 & Hbuf).
  assert (Hc2 : contents w1 = contents w).
  { rewrite Hc1, Hc, insert_app_r_alt, Nat.sub_diag by lia. done. }
  destruct (IH (P ++ [0]) w1) as (w2 & E2 & Hw2 & Hb2 & Hc3); [done|by rewrite Hc2, Hc, <- app_assoc| |].
  { rewrite Hbuf, length_insert, length_app. cbn [length]. lia. }
  rewrite length_app, Nat.add_1_r in E2. unfold mbind, res_bind. rewrite E. exists w2. split_and!; [done..|lia|congruence].
Qed.

(** One miniblock is written: its width in the place kept for it, its numbers at
    the end. *)
Lemma write_mini_block g min c P ws r xs w : in_type min -> c <> [] -> Forall in_type c -> Forall (fun d => min <= d) c ->
  (length c <= 8 * g)%nat -> writer_ok w -> aligned w -> contents w = P ++ ws ++ replicate (S r) 0 ++ xs ->
  (length P + length ws + S r <= length (buffer w))%nat ->
  let mb := mini_of g min c in
  exists w1 w2 w3, write_at (length P + length ws) (mini_width mb mod 256) w = Ok w1
    /\ put_values ((fun d => subtract_u64 t d min) <$> c) (mini_width mb) w1 = Ok w2
    /\ put_values (replicate (8 * g - length c) 0) (mini_width mb) w2 = Ok w3
    /\ writer_ok w3 /\ aligned w3
    /\ contents w3 = P ++ (ws ++ [mini_width mb]) ++ replicate r 0 ++ xs ++ mini_bytes g mb
    /\ (length (buffer w) <= length (buffer w3))%nat.
Proof.
  intros Hmin Hne Hty Hle Hcl Hw Ha Hc Hl mb. destruct (mini_of_spec g min c) as [[Hwd Hml Hmf] _]; try done.
  fold mb in Hwd, Hml, Hmf. rewrite Z.mod_small by lia.
  destruct (write_at_spec (length P + length ws) (mini_width mb) w Hw ltac:(unfold is_byte; lia) ltac:(lia)) as (w1 & E1 & Hw1 & Hb1 & Hc1 & Hbuf1).
  destruct (contents_put_values (mini_values mb) (mini_width mb) w1 (Z.to_nat (mini_width mb) * g)) as (w3 & E3 & Hw3 & Ha3 & Hc3 & Hp3);
    [done|unfold aligned; by rewrite Hb1|done|done|rewrite Hml; lia|].
  change (mini_values mb) with (((fun d => subtract_u64 t d min) <$> c) ++ replicate (8 * g - length c) 0) in E3.
  rewrite put_values_app in E3. unfold mbind, res_bind in E3.
  destruct (put_values (_ <$> c) _ w1) as [w2| |] eqn:E2; [|done..]. exists w1, w2, w3. split_and!; try done.
  - rewrite Hc3, Hc1, Hc, insert_app_r. rewrite insert_app_r_alt, Nat.sub_diag by lia.
    change (<[0%nat:=mini_width mb]> (replicate (S r) 0 ++ xs)) with (mini_width mb :: replicate r 0 ++ xs).
    rewrite <- !app_assoc. cbn [app]. by rewrite <- app_assoc.
  - apply prefix_length in Hp3. by rewrite Hbuf1, length_insert in Hp3.
Qed.

(** The next chunk of the differences. *)
Lemma take_chunk (ds : list Z) size i left : let n := Nat.min size left in
  take left (drop (i * size) ds) = take n (drop (i * size) ds) ++ take (left - n) (drop (S i * size) ds).
Proof.
  intros n. destruct (decide (size <= left)%nat) as [H8|H8].
  - assert (n = size) as -> by lia. replace (S i * size)%nat with (i * size + size)%nat by lia.
    rewrite <- drop_drop, take_take_drop. f_equal. lia.
  - assert (n = left) as -> by lia. by rewrite Nat.sub_diag, take_0, app_nil_r.
Qed.

Lemma flush_mini_blocks_spec g min ds P rounds i left w ws xs :
  (0 < g)%nat -> in_type min -> ((i + rounds) * (8 * g) <= length ds)%nat -> (left <= rounds * (8 * g))%nat ->
  let real := take left (drop (i * (8 * g)) ds) in
  Forall in_type real -> Forall (fun d => min <= d) real ->
  writer_ok w -> aligned w -> length ws = i -> contents w = P ++ ws ++ replicate rounds 0 ++ xs ->
  (length P + i + rounds <= length (buffer w))%nat ->
  exists w' mbs pad, flush_mini_blocks t ds (8 * g) (length P) min rounds i left w = Ok (w', 0%nat)
    /\ writer_ok w' /\ aligned w'
    /\ contents w' = P ++ ws ++ (mini_width <$> mbs) ++ replicate (rounds - length mbs) 0 ++ xs ++ minis_bytes g mbs
    /\ Forall (mini_wf g) mbs /\ (length mbs <= rounds)%nat
    /\ minis_deltas min mbs = real ++ replicate pad min /\ (pad < 8 * g)%nat.
Proof.
  intros Hg Hmin. revert i left w ws xs. induction rounds as [|r IH]; intros i left w ws xs Hds Hleft real Hty Hle Hw Ha Hws Hc Hl.
  { assert (left = 0%nat) as -> by lia. exists w, [], 0%nat. unfold minis_bytes. cbn. rewrite app_nil_r. split_and!; try done; lia. }
  cbn [flush_mini_blocks]. destruct (Nat.eqb_spec (Nat.min (8 * g) left) 0) as [Hn0|Hn0].
  - assert (left = 0%nat) as -> by lia.
    destruct (write_padding_spec (S r) (P ++ ws) xs w Hw) as (w' & E & Hw' & Hb & Hc'); [by rewrite Hc, <- app_assoc|rewrite length_app; lia|].
    rewrite length_app, Hws in E. unfold mbind, res_bind. rewrite E. exists w', [], 0%nat.
    split_and!; [done|done|unfold aligned; by rewrite Hb| |constructor|simpl; lia|done|lia].
    rewrite Hc', Hc. unfold minis_bytes. cbn. by rewrite app_nil_r.
  - pose proof (take_chunk ds (8 * g) i left) as Hreal. cbv zeta in Hreal. fold real in Hreal.
    set (n := Nat.min (8 * g) left) in *. unfold index_range. rewrite (proj2 (Nat.leb_le _ _)) by lia.
    cbn [mbind res_bind]. set (c := take n (drop (i * (8 * g)) ds)) in *.
    rewrite Hreal, Forall_app in Hty, Hle. destruct Hty as [Htc Htr]. destruct Hle as [Hlc Hlr].
    assert (Hcl : length c = n) by (unfold c; rewrite length_take, length_drop; lia).
    assert (Hcne : c <> []) by (intros E0; rewrite E0 in Hcl; simpl in Hcl; lia).
    destruct (mini_of_spec g min c) as [Hwf Hmd]; try done; [lia|].
    change (num_required_bits _) with (mini_width (mini_of g min c)).
    destruct (write_mini_block g min c P ws r xs w) as (w1 & w2 & w3 & E1 & E2 & E3 & Hw3 & Ha3 & Hc3 & Hb3); try done; [lia|lia|].
    set (mb := mini_of g min c) in *.
    destruct (IH (S i) (left - n)%nat w3 (ws ++ [mini_width mb]) (xs ++ mini_bytes g mb)) as (w4 & mbs & pad & E4 & Hw4 & Ha4 & Hc4 & Hwf4 & Hl4 & Hd4 & Hpad);
      try done; try lia; [rewrite length_app; simpl; lia|].
    rewrite Hws, Hcl in *. rewrite E1. cbn [mbind res_bind]. rewrite E2. cbn [mbind res_bind]. rewrite E3. cbn [mbind res_bind]. rewrite E4.
    exists w4, (mb :: mbs), (8 * g - n + pad)%nat.
    assert (Hpads : (left - n = 0 /\ pad = 0 \/ n = 8 * g)%nat).
    { destruct (decide (left - n = 0)%nat) as [Hz|Hz]; [left; split; [done|]|right; lia].
      apply (f_equal length) in Hd4. rewrite (minis_deltas_length g), length_app, length_replicate, Hz, take_0 in Hd4 by done. cbn [length] in Hd4.
      destruct mbs as [|mb2 mbs2]; cbn [length] in Hd4; rewrite ?Nat.mul_0_r, ?Nat.mul_succ_r in Hd4; lia. }
    split_and!; [done|done|done| |by constructor|cbn [length]; lia| |lia]; [rewrite Hc4, <- !app_assoc; done|].
    unfold minis_deltas. cbn [fmap list_fmap concat]. fold (minis_deltas min mbs). rewrite Hmd, Hd4, Hreal.
    destruct Hpads as [[Hz ->]|Hn8].
    + rewrite Hz, take_0, Nat.add_0_r. cbn [replicate app]. by rewrite !app_nil_r.
    + rewrite Hn8, Nat.sub_diag. cbn [replicate Nat.add]. by rewrite app_nil_r, <- app_assoc.
Qed.

Lemma flush_block_values_spec g m e P : (0 < g)%nat -> (0 < m)%nat ->
  mini_block_size e = (8 * g)%nat -> num_mini_blocks e = m -> length (deltas e) = (m * (8 * g))%nat ->
  (0 < values_in_block e <= m * (8 * g))%nat -> Forall in_type (take (values_in_block e) (deltas e)) ->
  writer_ok (delta_writer e) -> contents (delta_writer e) = P ->
  exists w min mbs pad, flush_block_values t e = Ok (set_writer w 0 e) /\ writer_ok w /\ aligned w
    /\ contents w = P ++ vlq (zigzag_encode min) ++ (mini_width <$> mbs) ++ replicate (m - length mbs) 0 ++ minis_bytes g mbs
    /\ in_type min /\ Forall (mini_wf g) mbs /\ (length mbs <= m)%nat
    /\ minis_deltas min mbs = take (values_in_block e) (deltas e) ++ replicate pad min /\ (pad < 8 * g)%nat.
Proof.
  intros Hg Hm Hms Hnum Hdl Hn Hty Hw HP. unfold flush_block_values. rewrite (proj2 (Nat.eqb_neq _ 0)) by lia.
  unfold index_range. rewrite Nat.add_0_l, (proj2 (Nat.leb_le _ _)), drop_0 by lia. cbn [mbind res_bind].
  set (n := values_in_block e) in *. set (real := take n (deltas e)) in *.
  destruct (foldl_min_spec real (2 ^ 63 - 1)) as (_ & Hle & Hin). set (min := foldl Z.min (2 ^ 63 - 1) real) in *.
  assert (Hmin : in_type min).
  { destruct Hin as [E|Hi]; [|by eapply Forall_forall in Hty].
    assert (Hex : exists d, d ∈ real).
    { destruct (lookup_lt_is_Some_2 real 0) as [d Hd]; [unfold real; rewrite length_take; lia|].
      exists d. by eapply list_elem_of_lookup_2. }
    destruct Hex as [d Hd]. pose proof (proj1 (Forall_forall _ _) Hty d Hd) as Hdt.
    pose proof (proj1 (Forall_forall _ _) Hle d Hd) as Hdl'. pose proof (in_type_i64 _ Hdt) as H64. unfold is_i64 in H64.
    cbn in Hdl'. by replace min with d by lia. }
  destruct (put_vlq_int_spec (zigzag_encode min) _ Hw (zigzag_encode_u64 _ (in_type_i64 _ Hmin))) as (w1 & E1 & Hw1 & _ & _ & Hc1).
  unfold put_zigzag_vlq_int. rewrite E1. cbn [mbind res_bind]. rewrite Hnum, Hms.
  pose proof (skip_spec m w1 Hw1) as Hskip. destruct (skip m w1) as [pos w2]. destruct Hskip as (-> & Hw2 & Ha2 & Hc2 & Hb2).
  destruct (flush_mini_blocks_spec g min (deltas e) (contents w1) m 0 n w2 [] []) as (w3 & mbs & pad & E3 & Hw3 & Ha3 & Hc3 & Hwf & Hl & Hd & Hpad);
    try done; try lia.
  - by rewrite Hc2, app_nil_r.
  - rewrite Hb2, Hc2, length_app, length_replicate. lia.
  - rewrite E3. cbn [mbind res_bind Nat.eqb rust_assert]. exists w3, min, mbs, pad. split_and!; try done.
    rewrite Hc3, Hc1, HP. cbn [app]. by rewrite <- app_assoc.
Qed.

(** The differences of values. *)
Fixpoint diffs (prev : Z) (vs : list Z) : list Z :=
  match vs with
  | [] => []
  | v :: vs' => subtract t v prev :: diffs v vs'
  end.

Lemma diffs_length prev vs : length (diffs prev vs) = length vs.
Proof. revert prev. induction vs; intros; simpl; [done|]. by f_equal. Qed.

Lemma diffs_in_type prev vs : Forall in_type (diffs prev vs).
Proof. revert prev. induction vs; intros; constructor; [apply subtract_in_type|done]. Qed.

Lemma diffs_snoc prev vs v : diffs prev (vs ++ [v]) = diffs prev vs ++ [subtract t v (default prev (last vs))].
Proof.
  revert prev. induction vs as [|u vs IH]; intros prev; [done|]. cbn [diffs app]. rewrite IH, last_cons. by destruct (last vs).
Qed.

Lemma sums_diffs prev vs : Forall in_type vs -> sums prev (diffs prev vs) = vs.
Proof.
  intros H. revert prev. induction H as [|v vs Hv _ IH]; intros prev; [done|]. cbn [diffs sums].
  assert (E : signed b (prev + subtract t v prev) = v).
  { pose proof int_bits_pos. unfold subtract. rewrite signed_add_r, <- signed_add_r, signed_sub, signed_add_r by lia.
    replace (prev + (v - prev)) with v by lia. done. }
  by rewrite E, IH.
Qed.

Lemma take_sums prev k ds : take k (sums prev ds) = sums prev (take k ds).
Proof. revert prev ds. induction k as [|k IH]; intros prev [|d ds]; [done..|]. cbn [sums take]. by rewrite IH. Qed.

(** Bytes that are whole blocks: blocks can follow. *)
Definition full_blocks (g m : nat) (bs ds : list Z) : Prop :=
  forall bs' ds', blocks g m bs' ds' -> blocks g m (bs ++ bs') (ds ++ ds').

(** The encoder after the values [vs]. *)
Record delta_encodes (g m : nat) (e : DeltaBitPackEncoder) (vs : list Z) : Prop := {
  de_size : block_size e = (m * (8 * g))%nat;
  de_mini : mini_block_size e = (8 * g)%nat;
  de_num : num_mini_blocks e = m;
  de_deltas : length (deltas e) = (m * (8 * g))%nat;
  de_header : page_header_writer e = BitWriter_new_from_buf [];
  de_writer : writer_ok (delta_writer e) /\ aligned (delta_writer e);
  de_room : (values_in_block e < m * (8 * g))%nat;
  de_values : match vs with
    | [] => values_in_block e = 0%nat /\ contents (delta_writer e) = [] /\ first_value e = 0
    | v :: vs' => first_value e = v /\ delta_current e = default v (last vs')
        /\ exists done, full_blocks g m (contents (delta_writer e)) done
             /\ diffs v vs' = done ++ take (values_in_block e) (deltas e)
    end
}.

(** One more value. *)
Lemma put_delta_spec g m e v vs x : (0 < g)%nat -> (0 < m)%nat -> delta_encodes g m e (v :: vs) ->
  exists e', put_delta t x e = Ok e' /\ enc_total_values e' = enc_total_values e /\ delta_encodes g m e' (v :: vs ++ [x]).
Proof.
  intros Hg Hm [Hsz Hmn Hnum Hdl Hh [Hw Ha] Hroom (Hf & Hcur & dn & Hfull & Hd)].
  unfold put_delta. rewrite Hdl, (proj2 (Nat.ltb_lt _ _)) by lia. set (n := values_in_block e) in *.
  set (dx := subtract t x (delta_current e)). cbn [values_in_block block_size]. rewrite Hsz.
  assert (Hdx : diffs v (vs ++ [x]) = dn ++ take (S n) (<[n := dx]> (deltas e))).
  { rewrite diffs_snoc, Hd, <- app_assoc, <- Hcur. f_equal.
    rewrite (take_S_r _ n dx) by (rewrite list_lookup_insert_eq; [done|lia]). by rewrite take_insert_ge by lia. }
  assert (Hlast : x = default v (last (vs ++ [x]))) by by rewrite last_snoc.
  destruct (Nat.eqb_spec (S n) (m * (8 * g))) as [Hfl|Hfl].
  - match goal with |- context [flush_block_values t ?e0] => set (e1 := e0) end.
    destruct (flush_block_values_spec g m e1 (contents (delta_writer e))) as (w & min & mbs & pad & E & Hw' & Ha' & Hc & Hmin & Hwf & Hl & Hmd & Hpad);
      try done; try (unfold e1; cbn [values_in_block deltas delta_writer]; lia).
    + unfold e1. cbn [deltas]. by rewrite length_insert.
    + unfold e1. cbn [deltas values_in_block]. pose proof (diffs_in_type v (vs ++ [x])) as Hty. rewrite Hdx in Hty. by apply Forall_app in Hty as [_ Hty].
    + rewrite E. eexists. split_and!; [done|done|].
      assert (Hml : length mbs = m /\ pad = 0%nat).
      { apply (f_equal length) in Hmd. rewrite (minis_deltas_length g), length_app, length_replicate, length_take in Hmd by done.
        unfold e1 in Hmd. cbn [values_in_block deltas] in Hmd. rewrite length_insert in Hmd. nia. }
      destruct Hml as [Hml ->]. cbn [replicate] in Hmd. rewrite app_nil_r in Hmd.
      constructor; cbn [set_writer values_in_block]; unfold e1;
        cbn [block_size mini_block_size num_mini_blocks deltas page_header_writer delta_writer values_in_block set_writer first_value delta_current];
        try done; [by rewrite length_insert|nia|]. split_and!; [done|done|].
      exists (dn ++ minis_deltas min mbs). split.
      * intros bs' ds' Hb. rewrite Hc, Hml, Nat.sub_diag. cbn [replicate app]. rewrite <- !app_assoc. apply Hfull.
        pose proof (blocks_cons g m min mbs bs' ds' Hmin ltac:(lia) Hwf ltac:(lia) Hb) as Hcons.
        rewrite Hml, Nat.sub_diag in Hcons. exact Hcons.
      * rewrite Hdx, take_0, app_nil_r. f_equal. by rewrite Hmd.
  - eexists. split_and!; [done|done|].
    constructor; cbn [block_size mini_block_size num_mini_blocks deltas page_header_writer delta_writer values_in_block first_value delta_current];
      try done; [by rewrite length_insert|lia|]. split_and!; [done|done|]. by exists dn.
Qed.

Lemma put_deltas_spec g m xs e v vs : (0 < g)%nat -> (0 < m)%nat -> delta_encodes g m e (v :: vs) ->
  exists e', put_deltas t xs e = Ok e' /\ enc_total_values e' = enc_total_values e /\ delta_encodes g m e' (v :: vs ++ xs).
Proof.
  intros Hg Hm. revert e vs. induction xs as [|x xs IH]; intros e vs He; [exists e; by rewrite app_nil_r|].
  destruct (put_delta_spec g m e v vs x Hg Hm He) as (e1 & E1 & T1 & He1).
  destruct (IH e1 (vs ++ [x]) He1) as (e2 & E2 & T2 & He2). cbn [put_deltas]. unfold mbind, res_bind. rewrite E1.
  exists e2. split_and!; [done|congruence|]. by rewrite <- app_assoc in He2.
Qed.

Lemma blocks_full_nil g m : full_blocks g m [] [].
Proof. by intros bs ds. Qed.

(** [put] of some values. *)
Lemma delta_put_spec g m vs xs e : (0 < g)%nat -> (0 < m)%nat -> delta_encodes g m e vs -> enc_total_values e = length vs ->
  exists e', delta_put t xs e = Ok e' /\ delta_encodes g m e' (vs ++ xs) /\ enc_total_values e' = length (vs ++ xs).
Proof.
  intros Hg Hm He Ht'. unfold delta_put. destruct xs as [|x xs]; [exists e; by rewrite app_nil_r|].
  rewrite Ht'. pose proof He as [Hsz Hmn Hnum Hdl Hh Hw Hroom Hv]. destruct vs as [|v vs]; cbn [length Nat.eqb].
  - destruct Hv as (Hn & Hc & _).
    destruct (put_deltas_spec g m xs (set_total (0 + S (length xs)) x x e) x []) as (e' & E & T & He'); [done|done| |by exists e'].
    constructor; cbn [set_total block_size mini_block_size num_mini_blocks deltas page_header_writer delta_writer values_in_block first_value delta_current]; try done.
    split_and!; [done|done|]. exists []. rewrite Hc, Hn. split; [apply blocks_full_nil|done].
  - destruct (put_deltas_spec g m (x :: xs) (set_total (S (length vs) + S (length xs)) (first_value e) (delta_current e) e) v vs)
      as (e' & E & T & He'); [done|done|by constructor|]. exists e'. split_and!; [done|done|]. rewrite T.
    cbn [set_total enc_total_values app length]. rewrite length_app. simpl. lia.
Qed.

Lemma write_page_header_spec e : page_header_writer e = BitWriter_new_from_buf [] -> Z.of_nat (block_size e) < 2 ^ 64 ->
  Z.of_nat (num_mini_blocks e) < 2 ^ 64 -> Z.of_nat (enc_total_values e) < 2 ^ 64 -> in_type (first_value e) ->
  exists w, write_page_header e = Ok w
    /\ contents w = page_header (block_size e) (num_mini_blocks e) (enc_total_values e) (first_value e).
Proof.
  intros Hh H1 H2 H3 Hf. unfold write_page_header, page_header. rewrite Hh. unfold mbind, res_bind.
  destruct (put_vlq_int_spec (Z.of_nat (block_size e)) (BitWriter_new_from_buf [])) as (w1 & -> & Hw1 & _ & _ & C1); [by apply new_from_buf_ok|lia|].
  destruct (put_vlq_int_spec (Z.of_nat (num_mini_blocks e)) w1 Hw1) as (w2 & -> & Hw2 & _ & _ & C2); [lia|].
  destruct (put_vlq_int_spec (Z.of_nat (enc_total_values e)) w2 Hw2) as (w3 & -> & Hw3 & _ & _ & C3); [lia|].
  destruct (put_vlq_int_spec (zigzag_encode (first_value e)) w3 Hw3) as (w4 & E4 & Hw4 & _ & _ & C4); [by apply zigzag_encode_u64, in_type_i64|].
  exists w4. split; [done|]. rewrite C4, C3, C2, C1, new_from_buf_contents, <- !app_assoc. done.
Qed.

(** The values of a page, and what is behind them. *)
Record page_of (g m : nat) (vs page : list Z) : Prop := {
  page_blocks : exists bs pad min, page = page_header (m * (8 * g)) m (length vs) (default 0 (head vs)) ++ bs
    /\ blocks g m bs (diffs (default 0 (head vs)) (tail vs) ++ replicate pad min) /\ (pad < 8 * g)%nat
    /\ ((length vs <= 1)%nat <-> bs = [])
}.

Lemma blocks_nonempty g m bs ds : blocks g m bs ds -> ds <> [] -> bs <> [].
Proof.
  destruct 1 as [|min mbs bs ds]; [done|]. intros _ E. apply (f_equal length) in E. rewrite length_app in E.
  pose proof (vlq_length (zigzag_encode min)). simpl in E. lia.
Qed.

Lemma in_type_0 : in_type 0.
Proof. apply in_type_range. pose proof (two_pow_pos (b - 1) ltac:(pose proof int_bits_pos; lia)). lia. Qed.

(** The last block, if there are values for one. *)
Lemma flush_last_block g m e vs : (0 < g)%nat -> (0 < m)%nat -> delta_encodes g m e vs ->
  exists w pad min, flush_block_values t e = Ok (set_writer w 0 e)
    /\ blocks g m (contents w) (diffs (default 0 (head vs)) (tail vs) ++ replicate pad min) /\ (pad < 8 * g)%nat.
Proof.
  intros Hg Hm [Hsz Hmn Hnum Hdl Hh [Hw Ha] Hroom Hv]. destruct (decide (values_in_block e = 0%nat)) as [Hn|Hn].
  - exists (delta_writer e), 0%nat, 0. unfold flush_block_values. rewrite Hn. split_and!; [by destruct e; simpl in *; subst| |lia].
    rewrite app_nil_r. destruct vs as [|v vs]; [destruct Hv as (_ & -> & _); constructor|].
    destruct Hv as (_ & _ & dn & Hfull & Hd). cbn [head tail default from_option id]. rewrite Hd, Hn, take_0.
    rewrite <- (app_nil_r (contents _)). apply Hfull. constructor.
  - destruct vs as [|v vs]; [by destruct Hv|]. destruct Hv as (_ & _ & dn & Hfull & Hd).
    assert (Hty : Forall in_type (take (values_in_block e) (deltas e))).
    { pose proof (diffs_in_type v vs) as H. rewrite Hd in H. by apply Forall_app in H as [_ H]. }
    destruct (flush_block_values_spec g m e (contents (delta_writer e))) as (w & min & mbs & pad & E & Hw' & _ & Hc & Hmin & Hwf & Hl & Hmd & Hpad);
      try done; [lia|]. exists w, pad, min. split_and!; [done| |done].
    cbn [head tail default from_option id]. rewrite Hc, Hd, <- app_assoc, <- Hmd. apply Hfull.
    rewrite <- (app_nil_r (minis_bytes g mbs)), <- (app_nil_r (minis_deltas min mbs)). constructor; try done; [|constructor].
    split; [|done]. destruct mbs; [|simpl; lia]. apply (f_equal length) in Hmd. rewrite length_app, length_take in Hmd. simpl in Hmd. lia.
Qed.

(** The end of a page; the encoder is as new. *)
Lemma delta_flush_buffer_spec g m vs e : (0 < g)%nat -> (0 < m)%nat -> Z.of_nat (m * (8 * g)) < 2 ^ 64 -> Z.of_nat (length vs) < 2 ^ 64 ->
  Forall in_type vs -> delta_encodes g m e vs -> enc_total_values e = length vs ->
  exists page e', delta_flush_buffer t e = Ok (page, e') /\ page_of g m vs page /\ delta_encodes g m e' [] /\ enc_total_values e' = 0%nat.
Proof.
  intros Hg Hm Hsize Hlen Hty He Htot. unfold delta_flush_buffer.
  destruct (flush_last_block g m e vs Hg Hm He) as (w & pad & min & -> & Hb & Hpad).
  destruct He as [Hsz Hmn Hnum Hdl Hh _ Hroom Hv].
  assert (Hfirst : first_value e = default 0 (head vs)) by (destruct vs; [by destruct Hv as (_ & _ & ->)|by destruct Hv as (-> & _)]).
  assert (Hft : in_type (first_value e)).
  { rewrite Hfirst. destruct vs; [apply in_type_0|by apply Forall_cons in Hty as [Hx _]]. }
  cbn [mbind res_bind]. destruct (write_page_header_spec (set_writer w 0 e)) as (hw & -> & Hhc);
    cbn [set_writer page_header_writer block_size num_mini_blocks enc_total_values first_value] in *; try done; try nia.
  cbn [mbind res_bind]. rewrite Hhc. cbn [mbind res_bind set_writer delta_writer block_size mini_block_size num_mini_blocks deltas].
  eexists _, _. split; [done|]. split_and!; [|constructor; cbn; try done; nia|done].
  constructor. exists (contents w), pad, min. rewrite Hsz, Hnum, Htot, Hfirst. split_and!; [done|done|done|].
  split.
  - intros H1. destruct vs as [|v [|v2 vs]]; [| |simpl in H1; lia]; cbn [tail diffs app] in Hb.
    all: apply blocks_short in Hb; [by destruct Hb|rewrite length_replicate; lia].
  - intros H0. rewrite H0 in Hb. inversion Hb as [E1 E2|? ? ? ? ? ? ? ? ? E1 E2].
    + destruct vs as [|v [|v2 vs]]; simpl; [lia|lia|]. by simpl in E2.
    + apply (f_equal length) in E1. rewrite length_app in E1. pose proof (vlq_length (zigzag_encode min0)). simpl in E1. lia.
Qed.

End Delta.

(** ** Encoding and decoding a page *)

(** The types of the encoding. *)
Definition supported (t : IntType) : Prop := t = i32_t \/ t = i64_t.

Lemma supported_ok t : supported t -> (0 < int_bytes t <= 8)%nat /\ int_signed t = true.
Proof. intros [-> | ->]; simpl; split; (done || lia). Qed.

(** The values of a block. *)
Definition values_per_block (t : IntType) : nat := 4 * (8 * int_bytes t).

Fixpoint put_chunks (t : IntType) (vss : list (list Z)) (e : DeltaBitPackEncoder) : res DeltaBitPackEncoder :=
  match vss with
  | [] => Ok e
  | vs :: vss' => e ← delta_put t vs e; put_chunks t vss' e
  end.

(** A page of the chunks [vss], and the first [n] values of a page with the cursor
    behind them. *)
Definition delta_encode (t : IntType) (vss : list (list Z)) : res (list Z) :=
  e ← put_chunks t vss (DeltaBitPackEncoder_new t);
  '(page, _) ← delta_flush_buffer t e;
  Ok page.

Definition delta_decode (t : IntType) (n : nat) (bs : list Z) : res (list Z * res ReadCursor) :=
  d ← delta_try_new t bs;
  let '(r, d) := delta_read t (replicate n 0) d in
  vs ← r;
  Ok (vs, try_into_cursor d).

Lemma new_delta_encodes t : (0 < int_bytes t)%nat -> delta_encodes t (int_bytes t) 4 (DeltaBitPackEncoder_new t) [].
Proof.
  intros Ht. constructor; cbn [DeltaBitPackEncoder_new block_size mini_block_size num_mini_blocks deltas page_header_writer
    delta_writer values_in_block]; unfold DEFAULT_NUM_MINI_BLOCKS; try done; try lia.
  rewrite length_replicate. lia.
Qed.

Lemma put_chunks_spec t vss e vs : (0 < int_bytes t <= 8)%nat -> delta_encodes t (int_bytes t) 4 e vs -> enc_total_values e = length vs ->
  exists e', put_chunks t vss e = Ok e' /\ delta_encodes t (int_bytes t) 4 e' (vs ++ concat vss)
    /\ enc_total_values e' = length (vs ++ concat vss).
Proof.
  intros Ht. revert e vs. induction vss as [|xs vss IH]; intros e vs He Htot; [exists e; by rewrite app_nil_r|].
  destruct (delta_put_spec t Ht (int_bytes t) 4 vs xs e ltac:(lia) ltac:(lia) He Htot) as (e1 & E1 & He1 & T1).
  destruct (IH e1 (vs ++ xs) He1 T1) as (e2 & E2 & He2 & T2). cbn [put_chunks concat]. unfold mbind, res_bind. rewrite E1.
  exists e2. by rewrite app_assoc.
Qed.

Lemma delta_encode_page t vss : supported t -> Forall (in_type t) (concat vss) -> Z.of_nat (length (concat vss)) < 2 ^ 64 ->
  exists page, delta_encode t vss = Ok page /\ page_of t (int_bytes t) 4 (concat vss) page.
Proof.
  intros Hsup Hty Hlen. destruct (supported_ok t Hsup) as [Ht Hs].
  destruct (put_chunks_spec t vss _ [] Ht (new_delta_encodes t ltac:(lia)) eq_refl) as (e & E & He & Htot).
  destruct (delta_flush_buffer_spec t Ht (int_bytes t) 4 (concat vss) e) as (page & e' & F & Hp & _); try done; try lia.
  exists page. unfold delta_encode, mbind, res_bind. by rewrite E, F.
Qed.

Lemma delta_decode_page t vs page n tail : supported t -> Forall (in_type t) vs -> page_of t (int_bytes t) 4 vs page ->
  (length vs <> 1)%nat -> Z.of_nat (length vs) < 2 ^ 64 -> (n <= length vs)%nat -> Forall is_byte tail ->
  exists r, delta_decode t n (page ++ tail) = Ok (take n vs, r)
    /\ (n = length vs -> r = if ((0 <? n) && ((n - 1) mod values_per_block t =? 0))%nat then Panic "index out of bounds" else Ok tail).
Proof.
  intros Hsup Hty [(bs & pad & min & -> & Hb & Hpad & Hbs)] H1 Hlen Hn Htail. destruct (supported_ok t Hsup) as [Ht Hs].
  set (g := int_bytes t) in *. rewrite <- app_assoc. unfold delta_decode. replace (4 * (8 * g))%nat with (8 * g * 4)%nat by lia.
  destruct vs as [|v [|v2 vs]]; [|by simpl in H1|].
  - assert (bs = []) as -> by (apply Hbs; simpl; lia). assert (n = 0%nat) as -> by (simpl in Hn; lia).
    unfold delta_try_new. rewrite (read_page_header_spec t Ht) by (try apply (in_type_0 t Ht); simpl; lia).
    cbn -[Z.div Z.mul]. eexists. split; [done|]. intros _.
    unfold try_into_cursor, decoder_of_header. cbn. by destruct (Pos.to_nat 4) eqn:E.
  - set (vs' := v2 :: vs) in *. change (blocks t g 4 bs (diffs t v vs' ++ replicate pad min)) in Hb.
    set (ds := diffs t v vs' ++ replicate pad min) in *.
    assert (Hdl : length ds = (length vs' + pad)%nat) by (unfold ds; rewrite length_app, diffs_length, length_replicate; done).
    assert (Hne : bs <> []) by (intros E0; apply Hbs in E0; simpl in E0; lia).
    apply Forall_cons in Hty as [Hv Hty].
    destruct (delta_try_new_spec t Ht (length ds) g 4 (length (v :: vs')) v bs ds tail)
      as (d & mbs & bs' & ds' & E & Hd & Ha & Hp & Hrem & _); try done; try lia; [simpl; lia|].
    cbn [head default from_option id]. rewrite E. cbn [mbind res_bind].
    destruct n as [|k]; [by eexists|]. cbn [length] in Hn, Hrem.
    destruct (delta_read_spec t Ht Hs (length ds) g 4 d mbs bs' ds' tail k (replicate (S k) 0)) as (d' & E' & Hst & _);
      try done; [lia|by rewrite length_replicate|rewrite Ha; lia|lia|].
    rewrite E', Ha, Hp in *. cbn [mbind res_bind]. eexists. split.
    + do 2 f_equal. cbn [take]. f_equal. unfold ds. rewrite take_app_le by (rewrite diffs_length; lia).
      by rewrite <- take_sums, sums_diffs.
    + intros En. injection En as En. assert (Hdr : drop k ds = replicate pad min).
      { unfold ds. rewrite En, drop_app_length'; [done|by rewrite diffs_length]. }
      rewrite Hdr in Hst. cbn [Nat.ltb Nat.leb andb]. rewrite Nat.sub_succ, Nat.sub_0_r. unfold values_per_block. fold g.
      replace (4 * (8 * g))%nat with (8 * g * 4)%nat by lia.
      apply (try_into_cursor_stopped t Ht (length ds) g 4 d' (replicate pad min) tail k); try done; try lia;
        rewrite length_replicate; [done|rewrite Hdl; simpl; lia].
Qed.

(** The decoder of a page knows the number of its values. *)
Lemma delta_page_total t vs page tail : supported t -> Forall (in_type t) vs -> page_of t (int_bytes t) 4 vs page ->
  (length vs <> 1)%nat -> Z.of_nat (length vs) < 2 ^ 64 -> Forall is_byte tail ->
  exists d, delta_try_new t (page ++ tail) = Ok d /\ total_values d = length vs.
Proof.
  intros Hsup Hty [(bs & pad & min & -> & Hb & Hpad & Hbs)] H1 Hlen Htail. destruct (supported_ok t Hsup) as [Ht Hs].
  set (g := int_bytes t) in *. rewrite <- app_assoc. replace (4 * (8 * g))%nat with (8 * g * 4)%nat by lia.
  destruct vs as [|v [|v2 vs]]; [|by simpl in H1|].
  - unfold delta_try_new. rewrite (read_page_header_spec t Ht) by (try apply (in_type_0 t Ht); simpl; lia). cbn. by eexists.
  - apply Forall_cons in Hty as [Hv _].
    set (ds := diffs t _ _ ++ _) in Hb.
    destruct (delta_try_new_spec t Ht (length ds) g 4 (length (v :: v2 :: vs)) v bs ds tail ltac:(lia) ltac:(lia) ltac:(lia) ltac:(simpl; lia) Hlen Hv Hb)
      as (d & _ & _ & _ & E & _ & _ & _ & _ & Htot); try done; [|by exists d].
    intros E0. apply Hbs in E0. simpl in E0. lia.
Qed.

(** C20. A page of delta binary packed integers is read back: whatever the chunks
    the values are put in, the encoder writes a page without a panic and, unless
    it is a page of exactly one value, one read of the decoder gives the first [n]
    values, however the differences wrap around; after all of them the cursor is
    behind the page, unless the values after the first fill whole blocks, where
    asking for the cursor panics.  Pages of one value, and pages that are read in
    several calls, are those of [delta_edges], where the decoder fails. *)
Theorem delta_round_trip t vss n tail :
  supported t -> Forall (in_type t) (concat vss) -> (length (concat vss) <> 1)%nat -> Z.of_nat (length (concat vss)) < 2 ^ 64 ->
  (n <= length (concat vss))%nat -> Forall is_byte tail ->
  exists page r, delta_encode t vss = Ok page /\ delta_decode t n (page ++ tail) = Ok (take n (concat vss), r)
    /\ (n = length (concat vss) ->
        r = if ((0 <? n) && ((n - 1) mod values_per_block t =? 0))%nat then Panic "index out of bounds" else Ok tail).
Proof.
  intros Hsup Hty H1 Hlen Hn Htail. destruct (delta_encode_page t vss Hsup Hty Hlen) as (page & E & Hp).
  destruct (delta_decode_page t _ page n tail Hsup Hty Hp H1 Hlen Hn Htail) as (r & D & Hr). by exists page, r.
Qed.

(** ** Where the decoder goes wrong *)

(** A page read in two calls. *)
Definition decode_twice (t : IntType) (n m : nat) (bs : list Z) : res (list Z * list Z) :=
  d ← delta_try_new t bs;
  let '(r, d) := delta_read t (replicate n 0) d in
  us ← r;
  let '(r, d) := delta_read t (replicate m 0) d in
  vs ← r;
  Ok (us, vs).

(** A read starts with the previous value, whatever the decoder is at. *)
Lemma delta_read_head t o out d : exists r d', delta_read t (o :: out) d = (r, d')
  /\ forall us, r = Ok us -> exists us', us = prev_value d :: us'.
Proof.
  unfold delta_read, mbind, M_bind, get. destruct (delta_loop t _ _ d) as [[vs| |] d']; eexists _, _; (split; [done|]); intros us [=].
  subst us. by eexists.
Qed.

Lemma delta_read_one t d : delta_read t [0] d = (Ok [prev_value d], d).
Proof. unfold delta_read, mbind, M_bind, get. cbn [length Nat.add delta_loop]. unfold mbind, M_bind, get, mret, M_ret. by cbn. Qed.

Lemma sum_to_last t prev ds : sum_to t prev ds = default prev (last (sums t prev ds)).
Proof.
  revert prev. induction ds as [|x ds IH]; intros prev; [done|]. change (sum_to t prev (x :: ds)) with (sum_to t (signed (int_bits t) (prev + x)) ds).
  rewrite IH. cbn [sums]. rewrite last_cons. by destruct (last _).
Qed.

(** A read of the first values of a page leaves the decoder at the last of them. *)
Lemma delta_read_page t vs page n v : supported t -> Forall (in_type t) vs -> page_of t (int_bytes t) 4 vs page ->
  (length vs <> 1)%nat -> Z.of_nat (length vs) < 2 ^ 64 -> vs !! n = Some v ->
  exists d d', delta_try_new t page = Ok d /\ delta_read t (replicate (S n) 0) d = (Ok (take (S n) vs), d') /\ prev_value d' = v.
Proof.
  intros Hsup Hty [(bs & pad & min & -> & Hb & Hpad & Hbs)] H1 Hlen Hn. destruct (supported_ok t Hsup) as [Ht Hs].
  set (g := int_bytes t) in *. replace (4 * (8 * g))%nat with (8 * g * 4)%nat by lia.
  destruct vs as [|x [|x2 vs]]; [done|by simpl in H1|]. set (vs' := x2 :: vs) in *.
  pose proof (lookup_lt_Some _ _ _ Hn) as Hlt. cbn [length] in Hlt.
  change (blocks t g 4 bs (diffs t x vs' ++ replicate pad min)) in Hb. set (ds := diffs t x vs' ++ replicate pad min) in *.
  assert (Hdl : length ds = (length vs' + pad)%nat) by (unfold ds; rewrite length_app, diffs_length, length_replicate; done).
  assert (Hne : bs <> []) by (intros E0; apply Hbs in E0; simpl in E0; lia). apply Forall_cons in Hty as [Hv Hty].
  destruct (delta_try_new_spec t Ht (length ds) g 4 (length (x :: vs')) x bs ds [])
    as (d & mbs & bs' & ds' & E & Hd & Ha & Hp & Hrem & _); try done; try lia; [simpl; lia|]. rewrite app_nil_r in E.
  cbn [length] in Hrem.
  destruct (delta_read_spec t Ht Hs (length ds) g 4 d mbs bs' ds' [] n (replicate (S n) 0)) as (d' & E' & _ & Hp');
    try done; [lia|by rewrite length_replicate|rewrite Ha; lia|lia|].
  assert (Hsum : sums t x (take n ds) = take n vs').
  { unfold ds. rewrite take_app_le by (rewrite diffs_length; lia). by rewrite <- take_sums, sums_diffs. }
  rewrite Ha, Hp in E', Hp'. rewrite sum_to_last, Hsum in Hp'. rewrite Hsum in E'.
  exists d, d'. split_and!; [done|done|]. rewrite Hp'. destruct n as [|n]; [by injection Hn|]. cbn [lookup list_lookup] in Hn.
  by rewrite (take_S_r _ _ _ Hn), last_snoc.
Qed.

(** C37. Where the delta decoder fails on the pages of its own encoder.  A page
    of one value has no block, but the decoder loads one: on a page with nothing
    behind it, it reads past the end.  And a page that is read in several calls
    is not read back: every call stores the previous value first, so after a read
    of the first [n + 1] values the next read repeats the last of them, a read of
    one value included, which always answers with it. *)
Theorem delta_edges t vss :
  supported t -> Forall (in_type t) (concat vss) -> Z.of_nat (length (concat vss)) < 2 ^ 64 ->
  exists page, delta_encode t vss = Ok page
    /\ (length (concat vss) = 1%nat -> delta_try_new t page = Panic out_of_bytes)
    /\ (length (concat vss) <> 1%nat -> forall n v, concat vss !! n = Some v ->
         decode_twice t (S n) 1 page = Ok (take (S n) (concat vss), [v])
         /\ forall m us ws, decode_twice t (S n) (S m) page = Ok (us, ws) -> us = take (S n) (concat vss) /\ head ws = Some v).
Proof.
  intros Hsup Hty Hlen. destruct (delta_encode_page t vss Hsup Hty Hlen) as (page & E & Hp). exists page. split_and!; [done| |].
  - intros H1. destruct (supported_ok t Hsup) as [Ht _]. destruct Hp as [(bs & pad & min & -> & _ & _ & Hbs)].
    destruct (concat vss) as [|v [|]]; [done| |done]. apply Forall_cons in Hty as [Hv _].
    rewrite (proj1 Hbs) by (simpl; lia). unfold delta_try_new.
    rewrite (read_page_header_spec t Ht) by (done || (simpl; lia)). by cbn.
  - intros H1 n v Hn. destruct (delta_read_page t _ page n v Hsup Hty Hp H1 Hlen Hn) as (d & d' & En & Er & Hv).
    unfold decode_twice. rewrite En. cbn [mbind res_bind]. rewrite Er. cbn [mbind res_bind]. split.
    + change (replicate 1 0) with [0]. rewrite delta_read_one. cbn. by rewrite Hv.
    + intros m us ws. destruct (delta_read_head t 0 (replicate m 0) d') as (r & d2 & Hr & Hh).
      change (replicate (S m) 0) with (0 :: replicate m 0). rewrite Hr. destruct r as [r| |]; cbn; intros [=].
      destruct (Hh r eq_refl) as (us' & Hus). split; [done|]. subst ws. by rewrite Hus, Hv.
Qed.

Module DeltaExample.

(** Wrapping differences, in two chunks. *)
Definition chunks : list (list Z) := [[2147483647; -2147483648; 0]; [17]].

Lemma delta_round_trip_witness : exists page r, delta_encode i32_t chunks = Ok page
  /\ delta_decode i32_t 4 (page ++ [9; 9]) = Ok (take 4 (concat chunks), r)
  /\ (4%nat = length (concat chunks) ->
      r = if ((0 <? 4) && ((4 - 1) mod values_per_block i32_t =? 0))%nat then Panic "index out of bounds" else Ok [9; 9]).
Proof.
  apply (delta_round_trip i32_t chunks 4 [9; 9]).
  - by left.
  - repeat constructor.
  - by vm_compute.
  - by vm_compute.
  - vm_compute. lia.
  - repeat constructor; vm_compute; congruence.
Defined.

(** A page of three values, read in two calls, and a page of one value. *)
Lemma delta_edges_witness :
  (exists page, delta_encode i64_t [[5; 6]; [-7]] = Ok page /\ decode_twice i64_t 2 1 page = Ok ([5; 6], [6]))
  /\ exists page, delta_encode i32_t [[7]] = Ok page /\ delta_try_new i32_t page = Panic out_of_bytes.
Proof.
  split.
  - destruct (delta_edges i64_t [[5; 6]; [-7]]) as (page & E & _ & Hp); [by right|repeat constructor|by vm_compute|].
    exists page. split; [exact E|]. apply (Hp ltac:(discriminate) 1%nat 6 eq_refl).
  - destruct (delta_edges i32_t [[7]]) as (page & E & Hp & _); [by left|repeat constructor|by vm_compute|].
    exists page. split; [exact E|exact (Hp eq_refl)].
Defined.

End DeltaExample.
