(* ===== verification/ParquetValues.v ===== *)
(** * Values of a page

    The value readers ([column/value_reader]), which take one value of a page from
    its bytes, and the plain decoder ([column/encoding/plain.rs]), which fills rows
    of an array with them and with NULLs according to the definition levels.  All
    paths are relative to [src/crates/glaredb_ext_parquet/src].

    An integer reader covers the floats as well: a float is its bits. *)
From S2P Require Import Prelude Arrays ArrayData ParquetBits.
Open Scope Z_scope.

(** ** Errors of value readers *)

Definition ReaderErrorState := option string.

(** [set_error_fn]: the first error stays. *)
Definition set_error_fn (e : string) (st : ReaderErrorState) : ReaderErrorState :=
  match st with
  | None => Some e
  | Some _ => st
  end.

Definition into_result (st : ReaderErrorState) : res unit :=
  match st with
  | Some e => Err e
  | None => Ok tt
  end.

(** ** The trait *)

(** What a reader works on: itself, the bytes, the error state. *)
Record ReadState (R : Type) := mkReadState {
  rs_reader : R;
  rs_cursor : ReadCursor;
  rs_error : ReaderErrorState
}.
Arguments mkReadState {R}.
Arguments rs_reader {R}.
Arguments rs_cursor {R}.
Arguments rs_error {R}.

(** [ValueReader]: [Default], and the two methods; a read gives the value to put
    in the output, or nothing when it set an error. *)
Class ValueReader (R V : Type) := {
  vr_default : R;
  vr_read_next_unchecked : M (ReadState R) (option V);
  vr_skip_unchecked : M (ReadState R) unit
}.

Definition on_data {R A} (m : M ReadCursor A) : M (ReadState R) A := fun s =>
  let '(r, c) := m (rs_cursor s) in (r, mkReadState (rs_reader s) c (rs_error s)).

Definition set_error {R} (e : string) : M (ReadState R) unit := fun s =>
  (Ok tt, mkReadState (rs_reader s) (rs_cursor s) (set_error_fn e (rs_error s))).

(** ** The readers *)

(** [PrimitiveValueReader] of an integer type. *)
Record PrimitiveReader (t : IntType) := mkPrimitive {}.
Arguments mkPrimitive {t}.

#[export] Instance primitive_reader t : ValueReader (PrimitiveReader t) Z := {|
  vr_default := mkPrimitive;
  vr_read_next_unchecked := v ← on_data (read_next_unchecked t); mret (Some v);
  vr_skip_unchecked := on_data (skip_bytes_unchecked (int_bytes t))
|}.

(** [CastingValueReader] from a type to the type of the storage.  Its skip uses the
    size of the marker type, which is zero. *)
Record CastingReader (t s : IntType) := mkCasting {}.
Arguments mkCasting {t s}.

#[export] Instance casting_reader t s : ValueReader (CastingReader t s) Z := {|
  vr_default := mkCasting;
  vr_read_next_unchecked := v ← on_data (read_next_unchecked t); mret (Some (from_u64 s v));
  vr_skip_unchecked := on_data (skip_bytes_unchecked 0)
|}.

(** [BoolValueReader]: the bit of the byte it is at. *)
Record BoolReader := mkBool { bool_pos : nat }.

Definition advance_bool : M (ReadState BoolReader) unit := fun s =>
  let pos := S (bool_pos (rs_reader s)) in
  if (pos =? 8)%nat then on_data (skip_bytes_unchecked 1) (mkReadState (mkBool 0) (rs_cursor s) (rs_error s))
  else (Ok tt, mkReadState (mkBool pos) (rs_cursor s) (rs_error s)).

#[export] Instance bool_reader : ValueReader BoolReader bool := {|
  vr_default := mkBool 0;
  vr_read_next_unchecked :=
    v ← on_data peek_next_u8;
    s ← get;
    let b := negb (Z.land (Z.shiftr v (Z.of_nat (bool_pos (rs_reader s)))) 1 =? 0) in
    _ ← advance_bool;
    mret (Some b);
  vr_skip_unchecked := advance_bool
|}.

(** [RealSizedBoolReader]: a bool of one byte; any other byte than 0 and 1 is no
    bool of Rust. *)
Record RealSizedBoolReader := mkRealSizedBool {}.

#[export] Instance real_sized_bool_reader : ValueReader RealSizedBoolReader bool := {|
  vr_default := mkRealSizedBool;
  vr_read_next_unchecked :=
    v ← on_data (read_next_unchecked u8_t);
    _ ← lift (rust_assert ((v =? 0) || (v =? 1)) "invalid bool");
    mret (Some (v =? 1));
  vr_skip_unchecked := on_data (skip_bytes_unchecked 1)
|}.

(** [Int96TsReader]: nanoseconds of the day, and the Julian day. *)
Definition UNIX_EPOCH_JULIAN : Z := 2440588.
Definition MILLIS_PER_DAY : Z := 86400000.
Definition MICROS_PER_DAY : Z := MILLIS_PER_DAY * 1000.
Definition NANOS_PER_DAY : Z := MICROS_PER_DAY * 1000.

Record Int96TsReader := mkInt96 {}.

(** An [i64] result, with a panic on overflow. *)
Definition checked_i64 (why : string) (v : Z) : res Z :=
  if signed 64 v =? v then Ok v else Panic why.

#[export] Instance int96_reader : ValueReader Int96TsReader Z := {|
  vr_default := mkInt96;
  vr_read_next_unchecked :=
    nanos ← on_data (read_next_unchecked i64_t);
    julian ← on_data (read_next_unchecked u32_t);
    days_since ← lift (if julian <? UNIX_EPOCH_JULIAN then Panic "attempt to subtract with overflow"
                       else Ok (julian - UNIX_EPOCH_JULIAN));
    full ← lift (checked_i64 "attempt to multiply with overflow" (days_since * NANOS_PER_DAY));
    full_nanos ← lift (checked_i64 "attempt to add with overflow" (full + nanos));
    mret (Some full_nanos);
  vr_skip_unchecked := on_data (skip_bytes_unchecked 12)
|}.

(** *** Strings *)

(** [str::from_utf8]: the well-formed byte sequences. *)
Definition continuation (b : Z) : bool := (128 <=? b) && (b <? 192).

Definition between_bytes (lo hi b : Z) : bool := (lo <=? b) && (b <=? hi).

Fixpoint utf8_valid (bs : list Z) : bool :=
  match bs with
  | [] => true
  | b0 :: r0 =>
    if b0 <? 128 then utf8_valid r0
    else if between_bytes 194 223 b0 then
      match r0 with
      | b1 :: r1 => continuation b1 && utf8_valid r1
      | _ => false
      end
    else if between_bytes 224 239 b0 then
      match r0 with
      | b1 :: b2 :: r2 =>
        (if b0 =? 224 then between_bytes 160 191 b1
         else if b0 =? 237 then between_bytes 128 159 b1
         else continuation b1) && continuation b2 && utf8_valid r2
      | _ => false
      end
    else if between_bytes 240 244 b0 then
      match r0 with
      | b1 :: b2 :: b3 :: r3 =>
        (if b0 =? 240 then between_bytes 144 191 b1
         else if b0 =? 244 then between_bytes 128 143 b1
         else continuation b1) && continuation b2 && continuation b3 && utf8_valid r3
      | _ => false
      end
    else false
  end.

(** The length and the bytes of a value, or [None] if there are not enough. *)
Definition read_prefixed : M ReadCursor (option (list Z)) :=
  len ← read_next u32_t;
  match len with
  | Some len => read_bytes (Z.to_nat len)
  | None => mret None
  end.

Definition skip_prefixed {R} : M (ReadState R) unit :=
  len ← on_data (read_next u32_t);
  did_skip ← match len with
             | Some len => on_data (skip_bytes (Z.to_nat len))
             | None => mret false
             end;
  if did_skip : bool then mret tt else set_error "Not enough bytes to skip".

(** [BinaryValueReader] *)
Record BinaryReader := mkBinary {}.

#[export] Instance binary_reader : ValueReader BinaryReader (list Z) := {|
  vr_default := mkBinary;
  vr_read_next_unchecked :=
    bs ← on_data read_prefixed;
    match bs with
    | Some bs => mret (Some bs)
    | None => _ ← set_error "Not enough bytes to read"; mret None
    end;
  vr_skip_unchecked := skip_prefixed
|}.

(** [Utf8ValueReader] *)
Record Utf8Reader := mkUtf8 {}.

#[export] Instance utf8_reader : ValueReader Utf8Reader (list Z) := {|
  vr_default := mkUtf8;
  vr_read_next_unchecked :=
    bs ← on_data read_prefixed;
    match bs with
    | Some bs =>
      if utf8_valid bs then mret (Some bs)
      else _ ← set_error "Failed to read valid utf8 bytes"; mret None
    | None => _ ← set_error "Not enough bytes to read"; mret None
    end;
  vr_skip_unchecked := skip_prefixed
|}.

(** ** Definition levels *)

Inductive Definitions :=
| HasDefinitions (levels : list Z) (max : Z)
| NoDefinitions.

(** The rows of a read: whether each is NULL.  The length of the levels is a
    [debug_assert] in all decoders. *)
Definition null_slots (definitions : Definitions) (count : nat) : res (list bool) :=
  match definitions with
  | HasDefinitions levels max =>
    _ ← rust_assert (length levels =? count)%nat "levels.len() == count";
    Ok ((fun level => level <? max) <$> levels)
  | NoDefinitions => Ok (replicate count false)
  end.

(** The number of values to read: the levels that are the largest one. *)
Definition read_count (definitions : Definitions) (count : nat) : res nat :=
  match definitions with
  | HasDefinitions levels max =>
    _ ← rust_assert (length levels =? count)%nat "levels.len() == count";
    Ok (length (filter (fun def => def = max) levels))
  | NoDefinitions => Ok count
  end.

(** ** Filling rows *)

(** The buffer and the validity of the output during a read. *)
Record Rows (V : Type) := mkRows { row_values : list V; row_validity : Validity.t }.
Arguments mkRows {V}.
Arguments row_values {V}.
Arguments row_validity {V}.

Definition on_fst {S T A} (m : M S A) : M (S * T) A := fun '(s, t) =>
  let '(r, s') := m s in (r, (s', t)).

Definition on_snd {S T} (f : T -> res T) : M (S * T) unit := fun '(s, t) =>
  match f t with
  | Ok t' => (Ok tt, (s, t'))
  | Err e => (Err e, (s, t))
  | Panic w => (Panic w, (s, t))
  end.

Definition put_row {V} (i : nat) (v : V) (o : Rows V) : res (Rows V) :=
  vals ← put_val (row_values o) i v; Ok (mkRows vals (row_validity o)).

Definition null_row {V} (i : nat) (o : Rows V) : res (Rows V) :=
  va ← Validity.set_invalid (row_validity o) i; Ok (mkRows (row_values o) va).

(** The loop all decoders share: a NULL row is marked, for another one [next] gives
    the value, if any. *)
Fixpoint fill {S V} (next : M S (option V)) (slots : list bool) (write_idx : nat) : M (S * Rows V) unit :=
  match slots with
  | [] => mret tt
  | null :: slots' =>
    _ ← (if null : bool then on_snd (null_row write_idx)
         else
           v ← on_fst next;
           match v with
           | Some v => on_snd (put_row write_idx v)
           | None => mret tt
           end);
    fill next slots' (Datatypes.S write_idx)
  end.

(** Filling rows of an array: its buffer must be its own, then the slots of the
    definitions are checked. *)
Definition fill_array {S V DT} (next : M S (option V)) (definitions : Definitions) (offset count : nat)
    : M (S * Array V DT) unit := fun '(s, output) =>
  match (vals ← downcast_mut (data output); slots ← null_slots definitions count; Ok (vals, slots)) with
  | Ok (vals, slots) =>
    let '(r, (s', o)) := fill next slots offset (s, mkRows vals (validity output)) in
    (r, (s', mkArray (datatype output) (row_validity o) (Leaf Unique (row_values o))))
  | Err e => (Err e, (s, output))
  | Panic w => (Panic w, (s, output))
  end.

(** ** The plain decoder *)

Record PlainDecoder (R : Type) := mkPlain { plain_buffer : ReadCursor; plain_reader : R }.
Arguments mkPlain {R}.
Arguments plain_buffer {R}.
Arguments plain_reader {R}.

(** [PlainDecoder::read_plain]: every read starts without an error, and an error
    is reported once all rows are done. *)
Definition read_plain {R V DT} `{ValueReader R V} (definitions : Definitions) (offset count : nat)
    : M (PlainDecoder R * Array V DT) unit := fun '(dec, output) =>
  let '(r, (s, output')) :=
    fill_array vr_read_next_unchecked definitions offset count (mkReadState (plain_reader dec) (plain_buffer dec) None, output) in
  (_ ← r; into_result (rs_error s), (mkPlain (rs_cursor s) (rs_reader s), output')).
