(* ===== verification/ValuesCorrect.v ===== *)
(** * Rows are filled with the values of a page

    What a decoder promises ([Supplies]): a state stands for the values it will
    give.  Against this interface, filling rows puts the values in the rows that
    are not NULL.  The value readers and the byte array decoders are instances. *)
From S2P Require Import Prelude Arrays ArrayData ParquetBits BitStreams ParquetValues.
Open Scope Z_scope.

(** ** Rows of a read *)

(** The rows that slots and values make. *)
Fixpoint place {V} (slots : list bool) (vs : list V) : list (option V) :=
  match slots, vs with
  | [], _ => []
  | true :: slots', _ => None :: place slots' vs
  | false :: slots', v :: vs' => Some v :: place slots' vs'
  | false :: slots', [] => None :: place slots' []
  end.

(** The rows that are not NULL. *)
Fixpoint non_null (slots : list bool) : nat :=
  match slots with
  | [] => 0
  | true :: slots' => non_null slots'
  | false :: slots' => S (non_null slots')
  end.

Lemma length_place {V} slots (vs : list V) : length (place slots vs) = length slots.
Proof. revert vs. induction slots as [|[] slots IH]; intros [|v vs]; simpl; [done..| | | |]; by rewrite IH. Qed.

Lemma place_app {V} slots slots' (vs vs' : list V) : length vs = non_null slots ->
  place (slots ++ slots') (vs ++ vs') = place slots vs ++ place slots' vs'.
Proof.
  revert vs. induction slots as [|[] slots IH]; intros vs Hl; simpl in *.
  - by destruct vs.
  - by rewrite IH.
  - destruct vs as [|v vs]; [done|]. simpl. rewrite IH; [done|]. by injection Hl.
Qed.

Lemma non_null_app a b : non_null (a ++ b) = (non_null a + non_null b)%nat.
Proof. induction a as [|[] a IH]; simpl; lia. Qed.

Lemma non_null_replicate n : non_null (replicate n false) = n.
Proof. induction n; simpl; lia. Qed.

Lemma place_all {V} (vs : list V) : place (replicate (length vs) false) vs = Some <$> vs.
Proof. induction vs as [|v vs IH]; [done|]. simpl. by rewrite IH. Qed.

(** ** The interface *)

(** In a state that stands for [v] and more, the next value is [v]. *)
Class Supplies {S V : Type} (next : M S (option V)) (P : S -> list V -> Prop) : Prop :=
  supplies : forall s v vs, P s (v :: vs) -> exists s', next s = (Ok (Some v), s') /\ P s' vs.

(** An array that can be filled from [offset] on: its own flat buffer, with the
    rows from there valid. *)
Record fillable {V DT} (offset n : nat) (a : Array V DT) : Prop := {
  fillable_wf : array_wf a;
  fillable_leaf : exists vals, data a = Leaf Unique vals;
  fillable_room : (offset + n <= logical_len (data a))%nat;
  fillable_valid : forall i, (offset <= i < offset + n)%nat -> valid_list (validity a) !! i = Some true
}.

Section Fill.
Context {S V DT : Type} (next : M S (option V)) (P : S -> list V -> Prop) `{!Supplies next P}.

(** The array that buffer and validity make. *)
Local Abbreviation arr dt o := (mkArray dt (row_validity o) (Leaf Unique (row_values o))).

Lemma fillable_put (dt : DT) (o : Rows V) i n (v : V) : fillable i (Datatypes.S n) (arr dt o) ->
  exists o', put_row i v o = Ok o' /\ fillable (Datatypes.S i) n (arr dt o') /\ rows (arr dt o') = <[i := Some v]> (rows (arr dt o))
    /\ row_validity o' = row_validity o.
Proof.
  intros [[Hb Hv Hl Hu] _ Hroom Hvalid]. simpl in *. unfold put_row, put_val.
  rewrite (proj2 (Nat.ltb_lt i _)) by lia. eexists. split; [done|]. cbn [row_values row_validity]. split_and!; [|by apply rows_put; [lia|apply Hvalid; lia]|done].
  constructor; simpl; [split; simpl; [done|done|by rewrite length_insert|done]|by eexists|rewrite length_insert; lia|intros; apply Hvalid; lia].
Qed.

Lemma fillable_null (dt : DT) (o : Rows V) i n : fillable i (Datatypes.S n) (arr dt o) ->
  exists o', null_row i o = Ok o' /\ fillable (Datatypes.S i) n (arr dt o') /\ rows (arr dt o') = <[i := None]> (rows (arr dt o))
    /\ (forall j, j <> i -> valid_list (row_validity o') !! j = valid_list (row_validity o) !! j).
Proof.
  intros [[Hb Hv Hl Hu] _ Hroom Hvalid]. simpl in *. unfold null_row.
  destruct (set_invalid_spec (row_validity o) i Hv ltac:(lia)) as (va & -> & Hv' & Hlist). cbn [mbind res_bind].
  assert (Hlen : Validity.len va = Validity.len (row_validity o)) by by rewrite <- !length_valid_list, Hlist, length_insert.
  eexists. split; [done|]. cbn [row_values row_validity]. split_and!.
  - constructor; simpl; [split; simpl; [done|done|lia|done]|by eexists|lia|].
    intros j Hj. rewrite Hlist, list_lookup_insert_ne by lia. apply Hvalid. lia.
  - apply rows_invalidate; simpl; [lia|lia|done].
  - intros j Hj. by rewrite Hlist, list_lookup_insert_ne.
Qed.

Lemma fill_spec (dt : DT) slots offset s vs more (o : Rows V) : P s (vs ++ more) -> length vs = non_null slots ->
  fillable offset (length slots) (arr dt o) ->
  exists s' o', fill next slots offset (s, o) = (Ok tt, (s', o')) /\ P s' more
    /\ fillable (offset + length slots) 0 (arr dt o')
    /\ rows (arr dt o') = list_inserts offset (place slots vs) (rows (arr dt o))
    /\ (forall j, (j < offset \/ offset + length slots <= j)%nat -> valid_list (row_validity o') !! j = valid_list (row_validity o) !! j).
Proof.
  revert offset s vs o. induction slots as [|[] slots IH]; intros offset s vs o HP Hl Hf; cbn [non_null length] in *.
  - destruct vs; [|done]. exists s, o. rewrite Nat.add_0_r. by split_and!.
  - destruct (fillable_null dt o offset _ Hf) as (o1 & E1 & Hf1 & Hr1 & Hv1).
    destruct (IH (Datatypes.S offset) s vs o1 HP Hl Hf1) as (s' & o' & E & HP' & Hf' & Hr & Hv).
    exists s', o'. cbn [fill place]. unfold mbind, M_bind, on_snd. rewrite E1, E. split_and!; [done|done|by rewrite Nat.add_succ_r| |].
    + rewrite Hr, Hr1. symmetry. apply list_insert_inserts_lt. lia.
    + intros j Hj. rewrite Hv, Hv1 by lia. done.
  - destruct vs as [|v vs]; [done|]. injection Hl as Hl.
    destruct (supplies s v _ HP) as (s1 & E1 & HP1). destruct (fillable_put dt o offset _ v Hf) as (o1 & E2 & Hf1 & Hr1 & Hv1).
    destruct (IH (Datatypes.S offset) s1 vs o1 HP1 Hl Hf1) as (s' & o' & E & HP' & Hf' & Hr & Hv).
    exists s', o'. cbn [fill place]. unfold mbind, M_bind, on_fst, on_snd. rewrite E1, E2, E. split_and!; [done|done|by rewrite Nat.add_succ_r| |].
    + rewrite Hr, Hr1. symmetry. apply list_insert_inserts_lt. lia.
    + intros j Hj. rewrite Hv, Hv1 by lia. done.
Qed.

Lemma fill_array_spec definitions slots offset count s vs more (a : Array V DT) : null_slots definitions count = Ok slots ->
  P s (vs ++ more) -> length vs = non_null slots -> fillable offset (length slots) a ->
  exists s' a', fill_array next definitions offset count (s, a) = (Ok tt, (s', a')) /\ P s' more
    /\ fillable (offset + length slots) 0 a' /\ datatype a' = datatype a
    /\ rows a' = list_inserts offset (place slots vs) (rows a)
    /\ (forall j, (j < offset \/ offset + length slots <= j)%nat -> valid_list (validity a') !! j = valid_list (validity a) !! j).
Proof.
  intros Hs HP Hl Hf. pose proof (fillable_leaf _ _ _ Hf) as [vals Hd]. destruct a as [dt va d]. simpl in Hd. subst d.
  destruct (fill_spec dt slots offset s vs more (mkRows vals va) HP Hl Hf) as (s' & o' & E & HP' & Hf' & Hr & Hv).
  exists s', (arr dt o'). unfold fill_array. simpl. rewrite Hs. simpl. rewrite E. by split_and!.
Qed.

End Fill.

(** ** The plain decoder *)

(** The decoder stands for values if its reader does, without an error. *)
Definition plain_supplies {R V} (P : ReadState R -> list V -> Prop) (dec : PlainDecoder R) (vs : list V) : Prop :=
  P (mkReadState (plain_reader dec) (plain_buffer dec) None) vs.

(** What a value reader promises: it supplies values and sets no error. *)
Class ReaderLaws (R V : Type) `{ValueReader R V} (P : ReadState R -> list V -> Prop) : Prop := {
  reader_supplies :: Supplies vr_read_next_unchecked P;
  reader_no_error : forall s vs, P s vs -> rs_error s = None
}.

Lemma read_plain_spec {R V DT} `{ReaderLaws R V P} definitions slots offset count dec vs more (a : Array V DT) :
  null_slots definitions count = Ok slots -> plain_supplies P dec (vs ++ more) -> length vs = non_null slots ->
  fillable offset (length slots) a ->
  exists dec' a', read_plain definitions offset count (dec, a) = (Ok tt, (dec', a')) /\ plain_supplies P dec' more
    /\ fillable (offset + length slots) 0 a' /\ datatype a' = datatype a
    /\ rows a' = list_inserts offset (place slots vs) (rows a)
    /\ (forall j, (j < offset \/ offset + length slots <= j)%nat -> valid_list (validity a') !! j = valid_list (validity a) !! j).
Proof.
  intros Hs HP Hl Hf. destruct (fill_array_spec vr_read_next_unchecked P definitions slots offset count _ vs more a Hs HP Hl Hf)
    as (s' & a' & E & HP' & Hrest).
  pose proof (reader_no_error s' more HP') as He.
  exists (mkPlain (rs_cursor s') (rs_reader s')), a'. unfold read_plain. rewrite E, He. split; [done|]. split; [|done].
  unfold plain_supplies. cbn [plain_reader plain_buffer]. rewrite <- He. by destruct s'.
Qed.

(** *** Values of whole bytes *)

(** The bytes of a state are those of the values, then others. *)
Record byte_values {R V} (enc : V -> list Z) (ok : V -> Prop) (s : ReadState R) (vs : list V) : Prop := {
  bv_error : rs_error s = None;
  bv_ok : Forall ok vs;
  bv_cursor : exists rest, rs_cursor s = concat (enc <$> vs) ++ rest
}.

(** A reader whose read is a read of the cursor. *)
Lemma reader_byte_values {R V} `{VR : ValueReader R V} (enc : V -> list Z) ok :
  (forall s v c, ok v -> rs_cursor s = enc v ++ c -> vr_read_next_unchecked s = (Ok (Some v), mkReadState (rs_reader s) c (rs_error s))) ->
  ReaderLaws R V (byte_values enc ok).
Proof.
  intros Hn. split; [|by intros s vs []]. intros s v vs [He Hok [rest Hc]]. apply Forall_cons in Hok as [Hv Hok].
  cbn [fmap list_fmap concat] in Hc. rewrite <- app_assoc in Hc. rewrite (Hn s v _ Hv Hc). eexists. split; [done|].
  constructor; [done|done|by exists rest].
Qed.

Lemma read_next_unchecked_le t bs c : length bs = int_bytes t -> read_next_unchecked t (bs ++ c) = (Ok (from_u64 t (le bs)), c).
Proof.
  intros Hl. unfold read_next_unchecked, mbind, M_bind, read_bytes_unchecked. rewrite length_app, Hl.
  rewrite (proj2 (Nat.ltb_ge _ _)) by lia. by rewrite <- Hl, take_app_length, drop_app_length.
Qed.

Lemma from_u64_mod t v : (0 < int_bytes t)%nat -> from_u64 t (v mod 2 ^ int_bits t) = from_u64 t v.
Proof.
  intros Ht. assert (H0 : 2 ^ int_bits t <> 0) by (apply Z.pow_nonzero; unfold int_bits; lia).
  unfold from_u64, signed. by rewrite Z.mod_mod.
Qed.

Lemma read_int t v c : (0 < int_bytes t)%nat -> read_next_unchecked t (to_le (int_bytes t) v ++ c) = (Ok (from_u64 t v), c).
Proof. intros Ht. rewrite read_next_unchecked_le by apply length_to_le. by rewrite le_to_le, from_u64_mod. Qed.

(** Integers (and floats) of the type. *)
#[export] Instance primitive_laws t `{!TCEq (0 <? int_bytes t)%nat true} :
  ReaderLaws (PrimitiveReader t) Z (byte_values (to_le (int_bytes t)) (fun v => from_u64 t v = v)).
Proof.
  assert (Ht : (0 < int_bytes t)%nat) by (apply Nat.ltb_lt; by apply TCEq_eq).
  apply reader_byte_values. intros s v c Hv Hc. cbn. unfold mbind, M_bind, on_data. by rewrite Hc, read_int, Hv.
Qed.

(** Integers stored in a wider or narrower type. *)
#[export] Instance casting_laws t u `{!TCEq (0 <? int_bytes t)%nat true} :
  ReaderLaws (CastingReader t u) Z (byte_values (to_le (int_bytes t)) (fun v => from_u64 u (from_u64 t v) = v)).
Proof.
  assert (Ht : (0 < int_bytes t)%nat) by (apply Nat.ltb_lt; by apply TCEq_eq).
  apply reader_byte_values. intros s v c Hv Hc. cbn. unfold mbind, M_bind, on_data. by rewrite Hc, read_int, Hv.
Qed.

(** Strings: a length of four bytes, then the bytes. *)
Definition prefixed (bs : list Z) : list Z := to_le 4 (Z.of_nat (length bs)) ++ bs.

Lemma read_prefixed_spec bs c : Z.of_nat (length bs) < 2 ^ 32 -> read_prefixed (prefixed bs ++ c) = (Ok (Some bs), c).
Proof.
  intros Hl. unfold read_prefixed, prefixed. rewrite <- app_assoc. unfold mbind at 1, M_bind at 1, read_next.
  unfold remaining. rewrite length_app, length_to_le, (proj2 (Nat.ltb_ge _ _)) by (simpl; lia).
  unfold mbind at 1, M_bind at 1. change 4%nat with (int_bytes u32_t) at 1. rewrite read_int by (simpl; lia).
  cbn [mret M_ret]. change (from_u64 u32_t (Z.of_nat (length bs))) with (Z.of_nat (length bs) mod 2 ^ 32).
  rewrite Z.mod_small, Nat2Z.id by lia. unfold read_bytes, remaining. rewrite length_app, (proj2 (Nat.ltb_ge _ _)) by lia.
  unfold mbind, M_bind, read_bytes_unchecked. rewrite length_app, (proj2 (Nat.ltb_ge _ _)) by lia.
  by rewrite take_app_length, drop_app_length.
Qed.

#[export] Instance binary_laws : ReaderLaws BinaryReader (list Z) (byte_values prefixed (fun bs => Z.of_nat (length bs) < 2 ^ 32)).
Proof.
  apply reader_byte_values. intros s v c Hv Hc. cbn. unfold mbind at 1, M_bind at 1, on_data.
  by rewrite Hc, read_prefixed_spec.
Qed.

#[export] Instance utf8_laws : ReaderLaws Utf8Reader (list Z)
  (byte_values prefixed (fun bs => Z.of_nat (length bs) < 2 ^ 32 /\ utf8_valid bs = true)).
Proof.
  apply reader_byte_values. intros s v c [Hv Hu] Hc. cbn. unfold mbind at 1, M_bind at 1, on_data.
  by rewrite Hc, read_prefixed_spec, Hu.
Qed.

(** A timestamp: nanoseconds since 1970, kept as a day and the nanoseconds of it. *)
Definition int96_bytes (nanos : Z) : list Z :=
  to_le 8 (nanos mod NANOS_PER_DAY) ++ to_le 4 (UNIX_EPOCH_JULIAN + nanos / NANOS_PER_DAY).

#[export] Instance int96_laws : ReaderLaws Int96TsReader Z (byte_values int96_bytes (fun v => 0 <= v < 2 ^ 63)).
Proof.
  apply reader_byte_values. intros s v c Hv Hc. unfold int96_bytes in Hc. rewrite <- app_assoc in Hc. cbn [vr_read_next_unchecked int96_reader].
  change NANOS_PER_DAY with 86400000000000 in *. change UNIX_EPOCH_JULIAN with 2440588 in *.
  pose proof (Z.mod_pos_bound v 86400000000000 ltac:(lia)) as Hm. pose proof (Z.div_mod v 86400000000000 ltac:(lia)) as Hd.
  assert (Hq : 0 <= v / 86400000000000 < 106752) by (Z.div_mod_to_equations; lia).
  unfold mbind at 1, M_bind at 1, on_data at 1. rewrite Hc. change 8%nat with (int_bytes i64_t). rewrite read_int by (simpl; lia).
  change (from_u64 i64_t) with (signed 64). rewrite signed_id by lia.
  unfold mbind at 1, M_bind at 1, on_data at 1. cbn [rs_cursor rs_reader rs_error]. change 4%nat with (int_bytes u32_t). rewrite read_int by (simpl; lia).
  change (from_u64 u32_t) with (fun x => x mod 2 ^ 32). cbv beta. rewrite (Z.mod_small (2440588 + _)) by lia.
  unfold mbind at 1, M_bind at 1, lift at 1. rewrite (proj2 (Z.ltb_ge _ 2440588)) by lia.
  replace (2440588 + v / 86400000000000 - 2440588) with (v / 86400000000000) by lia.
  unfold mbind at 1, M_bind at 1, lift at 1, checked_i64 at 1. rewrite signed_id, Z.eqb_refl by lia.
  unfold mbind at 1, M_bind at 1, lift at 1, checked_i64 at 1. rewrite signed_id, Z.eqb_refl by lia.
  cbn [mret M_ret rs_cursor rs_reader rs_error]. unfold mret, M_ret. do 3 f_equal. lia.
Qed.

(** *** Bits *)

(** The bits from the position of the reader on. *)
Record bit_values (s : ReadState BoolReader) (vs : list bool) : Prop := {
  bits_error : rs_error s = None;
  bits_hold : exists more, holds (Z.of_nat (bool_pos (rs_reader s))) 1 ((Z.b2z <$> vs) ++ more) (rs_cursor s)
}.

Lemma bit_of_byte v pos : negb (Z.land (Z.shiftr v (Z.of_nat pos)) 1 =? 0) = Z.testbit v (Z.of_nat pos).
Proof.
  change 1 with (Z.ones 1) at 1. rewrite Z.land_ones by lia. change (2 ^ 1) with 2. rewrite <- Z.bit0_mod, Z.shiftr_spec, Z.add_0_l by lia.
  by destruct (Z.testbit v (Z.of_nat pos)).
Qed.

#[export] Instance bool_laws : ReaderLaws BoolReader bool bit_values.
Proof.
  split; [|by intros s vs []]. intros s v vs [He [more Hh]]. cbn [fmap list_fmap app] in Hh.
  destruct (holds_app _ 1 [Z.b2z v] _ _ ltac:(lia) Hh) as [Hv Hrest]. cbn [length packed Z.of_nat] in Hv, Hrest.
  destruct Hh as [Hb Hpos Hf Hlen _]. destruct s as [[pos] c err]. cbn [rs_reader rs_cursor rs_error bool_pos] in *.
  cbn [length] in Hlen. destruct c as [|byte c]; [simpl in Hlen; lia|]. apply Forall_cons in Hb as [Hbyte Hb].
  assert (Ebit : Z.testbit byte (Z.of_nat pos) = v).
  { unfold stream in Hv. cbn [le] in Hv. change (1 * Z.of_nat 1) with 1 in Hv. change (2 ^ 1 * 0) with 0 in Hv. rewrite Z.add_0_r in Hv.
    rewrite <- Z.testbit_spec' in Hv by lia. apply Z.b2z_inj in Hv. rewrite <- Hv.
    replace (byte + 256 * le c) with (byte + le c * 2 ^ 8) by lia.
    rewrite <- (Z.mod_pow2_bits_low (byte + le c * 2 ^ 8) 8) by lia. rewrite Z.mod_add by lia. by rewrite Z.mod_pow2_bits_low by lia. }
  cbn [vr_read_next_unchecked bool_reader]. unfold mbind at 1, M_bind at 1, on_data at 1. cbn [rs_cursor]. rewrite peek_cons.
  unfold mbind at 1, M_bind at 1, get. cbn [rs_reader bool_pos]. rewrite bit_of_byte, Ebit.
  unfold mbind at 1, M_bind at 1, advance_bool. cbn [rs_reader bool_pos rs_cursor rs_error].
  destruct (Nat.eqb_spec (S pos) 8) as [H8|H8].
  - unfold on_data. cbn. eexists. split; [done|]. split; [done|]. exists more. cbn [rs_reader bool_pos rs_cursor].
    assert (Hp7 : Z.of_nat pos = 7) by lia. rewrite Hp7 in Hrest. exact Hrest.
  - eexists. split; [done|]. split; [done|]. exists more. cbn [rs_reader bool_pos rs_cursor].
    rewrite Z.mod_small in Hrest by lia. rewrite advance_stay in Hrest by lia. by replace (Z.of_nat (S pos)) with (Z.of_nat pos + 1 * 1) by lia.
Qed.

#[export] Instance real_sized_bool_laws : ReaderLaws RealSizedBoolReader bool (byte_values (fun b => [Z.b2z b]) (fun _ => True)).
Proof. apply reader_byte_values. intros [r cur err] v c _ Hc. simpl in Hc. subst cur. by destruct v. Qed.

(** ** Reading in pieces *)

Section Pieces.
Context {S V DT : Type} (fresh : DT -> nat -> list V) (dt : DT).

(** A read into a new array, and several of them. *)
Definition fill_piece (next : M S (option V)) (definitions : Definitions) (count : nat) (s : S) : res (list (option V)) * S :=
  let '(r, (s', a)) := fill_array next definitions 0 count (s, new_array fresh dt count) in
  (_ ← r; Ok (rows a), s').

Fixpoint fill_pieces (next : M S (option V)) (pieces : list (Definitions * nat)) : M S (list (list (option V))) :=
  match pieces with
  | [] => mret []
  | (definitions, count) :: pieces' =>
    xs ← fill_piece next definitions count;
    xss ← fill_pieces next pieces';
    mret (xs :: xss)
  end.

Lemma list_inserts_all {A} (xs ys : list A) : length xs = length ys -> list_inserts 0 xs ys = xs.
Proof.
  intros Hl. apply list_eq. intros i. destruct (decide (i < length xs)%nat) as [Hi|Hi].
  - rewrite list_lookup_inserts by lia. by rewrite Nat.sub_0_r.
  - rewrite !lookup_ge_None_2; [done|lia|]. rewrite length_inserts. lia.
Qed.

Hypothesis fresh_capacity : forall dt capacity, length (fresh dt capacity) = capacity.

Lemma new_array_fillable n : fillable 0 n (new_array fresh dt n).
Proof.
  constructor; [by apply new_array_wf|by eexists|simpl; rewrite fresh_capacity; lia|].
  intros i Hi. simpl. apply lookup_replicate. lia.
Qed.

Lemma null_slots_length definitions count slots : null_slots definitions count = Ok slots -> length slots = count.
Proof.
  destruct definitions as [levels max|]; simpl.
  - destruct (Nat.eqb_spec (length levels) count) as [<-|]; [|done]. intros [= <-]. apply length_fmap.
  - intros [= <-]. apply length_replicate.
Qed.

Lemma fill_pieces_spec (next : M S (option V)) P `{!Supplies next P} pieces slotss s vs more :
  Forall2 (fun p slots => null_slots p.1 p.2 = Ok slots) pieces slotss -> P s (vs ++ more) -> length vs = non_null (concat slotss) ->
  exists xss s', fill_pieces next pieces s = (Ok xss, s') /\ P s' more /\ concat xss = place (concat slotss) vs.
Proof.
  intros Hp. revert s vs. induction Hp as [|[defs count] slots pieces slotss Hs _ IH]; intros s vs HP Hl.
  { destruct vs; [|done]. exists [], s. by split_and!. }
  cbn [concat] in Hl. rewrite non_null_app in Hl. simpl in Hs. pose proof (null_slots_length _ _ _ Hs) as Hc.
  rewrite <- (take_drop (non_null slots) vs), <- app_assoc in HP.
  destruct (fill_array_spec next P defs slots 0 count s _ _ (new_array fresh dt count) Hs HP) as (s1 & a & E & HP1 & _ & _ & Hr & _);
    [rewrite length_take; lia|rewrite Hc; apply new_array_fillable|].
  destruct (IH s1 _ HP1) as (xss & s2 & E2 & HP2 & Hcat); [rewrite length_drop; lia|].
  exists (rows a :: xss), s2. cbn [fill_pieces]. unfold mbind, M_bind, fill_piece. rewrite E, E2. split_and!; [done|done|].
  cbn [concat]. rewrite Hcat, Hr, list_inserts_all.
  - rewrite <- place_app by (rewrite length_take; lia). by rewrite take_drop.
  - rewrite length_place, length_rows. simpl. by rewrite fresh_capacity.
Qed.

End Pieces.
