(* ===== verification/ParquetByteArrays.v ===== *)
(** * Byte arrays with delta encoded lengths

    The encoders [DeltaLengthByteArrayEncoder] and [DeltaByteArrayEncoder]
    ([encodings/encoding/mod.rs]) and the decoders of the column reader
    ([column/encoding/delta_length_byte_array.rs], [delta_byte_array.rs]).  The
    first keeps the lengths apart from the bytes; the second keeps of every value
    only what differs from the one before. *)
From S2P Require Import Prelude Arrays ArrayData ParquetBits ParquetDelta ParquetValues.
Open Scope Z_scope.

(** ** Encoders *)

Record DeltaLengthByteArrayEncoder := mkLengthEncoder {
  len_encoder : DeltaBitPackEncoder;
  enc_data : list (list Z);
  encoded_size : nat
}.

Definition DeltaLengthByteArrayEncoder_new : DeltaLengthByteArrayEncoder :=
  mkLengthEncoder (DeltaBitPackEncoder_new i32_t) [] 0.

(** [byte_array.len() as i32] *)
Definition len_i32 (bs : list Z) : Z := signed 32 (Z.of_nat (length bs)).

Definition length_put (values : list (list Z)) (e : DeltaLengthByteArrayEncoder) : res DeltaLengthByteArrayEncoder :=
  le ← delta_put i32_t (len_i32 <$> values) (len_encoder e);
  Ok (mkLengthEncoder le (enc_data e ++ values) (encoded_size e + sum_list (length <$> values))).

Definition length_flush_buffer (e : DeltaLengthByteArrayEncoder) : res (list Z * DeltaLengthByteArrayEncoder) :=
  '(lengths, le) ← delta_flush_buffer i32_t (len_encoder e);
  Ok (lengths ++ concat (enc_data e), mkLengthEncoder le [] 0).

Record DeltaByteArrayEncoder := mkByteArrayEncoder {
  prefix_len_encoder : DeltaBitPackEncoder;
  suffix_writer : DeltaLengthByteArrayEncoder;
  previous : list Z
}.

Definition DeltaByteArrayEncoder_new : DeltaByteArrayEncoder :=
  mkByteArrayEncoder (DeltaBitPackEncoder_new i32_t) DeltaLengthByteArrayEncoder_new [].

(** The [while] loop of [put]: the length of the common prefix. *)
Fixpoint match_len (previous current : list Z) : nat :=
  match previous, current with
  | p :: ps, c :: cs => if p =? c then S (match_len ps cs) else 0
  | _, _ => 0
  end.

(** The loop over the values: prefix lengths, suffixes, and the last value. *)
Fixpoint split_values (previous : list Z) (values : list (list Z)) : list Z * list (list Z) * list Z :=
  match values with
  | [] => ([], [], previous)
  | current :: rest =>
    let n := match_len previous current in
    let '(prefixes, suffixes, last) := split_values current rest in
    (signed 32 (Z.of_nat n) :: prefixes, drop n current :: suffixes, last)
  end.

Definition byte_array_put (values : list (list Z)) (e : DeltaByteArrayEncoder) : res DeltaByteArrayEncoder :=
  let '(prefixes, suffixes, last) := split_values (previous e) values in
  pe ← delta_put i32_t prefixes (prefix_len_encoder e);
  sw ← length_put suffixes (suffix_writer e);
  Ok (mkByteArrayEncoder pe sw last).

Definition byte_array_flush_buffer (e : DeltaByteArrayEncoder) : res (list Z * DeltaByteArrayEncoder) :=
  '(lengths, pe) ← delta_flush_buffer i32_t (prefix_len_encoder e);
  '(suffixes, sw) ← length_flush_buffer (suffix_writer e);
  Ok (lengths ++ suffixes, mkByteArrayEncoder pe sw []).

(** ** Decoders *)

(** [len as usize] of an [i32]. *)
Definition as_usize (len : Z) : Z := len mod 2 ^ 64.

(** [read_bytes_unchecked(len as usize)] *)
Definition read_len (len : Z) : M ReadCursor (list Z) := fun c =>
  if Z.of_nat (length c) <? as_usize len then (Panic out_of_bytes, c) else read_bytes_unchecked (Z.to_nat len) c.

(** The lengths at the start of a page, and the cursor behind them. *)
Definition read_lengths (c : ReadCursor) : res (list Z * ReadCursor) :=
  d ← delta_try_new i32_t c;
  let '(r, d) := delta_read i32_t (replicate (total_values d) 0) d in
  lengths ← r;
  c ← try_into_cursor d;
  Ok (lengths, c).

(** [iter().sum()] of [i32]s. *)
Fixpoint sum_i32 (acc : Z) (l : list Z) : res Z :=
  match l with
  | [] => Ok acc
  | x :: l' => if signed 32 (acc + x) =? acc + x then sum_i32 (acc + x) l' else Panic "attempt to add with overflow"
  end.

Record DeltaLengthByteArrayDecoder := mkLengthDecoder {
  ld_verify_utf8 : bool;
  ld_curr_len_idx : nat;
  ld_lengths : list Z;
  ld_cursor : ReadCursor
}.

Definition length_try_new (c : ReadCursor) (verify_utf8 : bool) : res DeltaLengthByteArrayDecoder :=
  '(lengths, c) ← read_lengths c;
  total ← sum_i32 0 lengths;
  if negb (as_usize total =? Z.of_nat (remaining c)) then
    Err "DELTA_LENGTH_BYTE_ARRAY: Total length does not equal remaining length in byte cursor"
  else Ok (mkLengthDecoder verify_utf8 0 lengths c).

(** The next value of [read]. *)
Definition length_next : M DeltaLengthByteArrayDecoder (option (list Z)) := fun d =>
  match index (ld_lengths d) (ld_curr_len_idx d) with
  | Ok len =>
    let '(r, c) := read_len len (ld_cursor d) in
    (bs ← r; if ld_verify_utf8 d && negb (utf8_valid bs) then Err "Did not read valid utf8" else Ok (Some bs),
     mkLengthDecoder (ld_verify_utf8 d) (S (ld_curr_len_idx d)) (ld_lengths d) c)
  | Err e => (Err e, d)
  | Panic w => (Panic w, d)
  end.

Definition length_read {DT} (definitions : Definitions) (offset count : nat)
    : M (DeltaLengthByteArrayDecoder * Array (list Z) DT) unit := fill_array length_next definitions offset count.

Record DeltaByteArrayDecoder := mkByteArrayDecoder {
  bd_verify_utf8 : bool;
  bd_val_buf : list Z;
  bd_curr_len_idx : nat;
  bd_prefix_lengths : list Z;
  bd_suffix_lengths : list Z;
  bd_cursor : ReadCursor
}.

Definition byte_array_try_new (c : ReadCursor) (verify_utf8 : bool) : res DeltaByteArrayDecoder :=
  '(prefix_lengths, c) ← read_lengths c;
  '(suffix_lengths, c) ← read_lengths c;
  if negb (length prefix_lengths =? length suffix_lengths)%nat then
    Err "Decoded different number of prefix and suffix lengths"
  else Ok (mkByteArrayDecoder verify_utf8 [] 0 prefix_lengths suffix_lengths c).

(** [Vec::truncate] to a [usize]. *)
Definition truncate (n : Z) (buf : list Z) : list Z :=
  if as_usize n <? Z.of_nat (length buf) then take (Z.to_nat n) buf else buf.

Definition byte_array_next : M DeltaByteArrayDecoder (option (list Z)) := fun d =>
  match (p ← index (bd_prefix_lengths d) (bd_curr_len_idx d); s ← index (bd_suffix_lengths d) (bd_curr_len_idx d); Ok (p, s)) with
  | Ok (prefix, suffix) =>
    let buf := truncate prefix (bd_val_buf d) in
    let with_ buf c := mkByteArrayDecoder (bd_verify_utf8 d) buf (S (bd_curr_len_idx d)) (bd_prefix_lengths d) (bd_suffix_lengths d) c in
    if Z.of_nat (remaining (bd_cursor d)) <? as_usize suffix then
      (Err "Not enough bytes remaining in the cursor", with_ buf (bd_cursor d))
    else
      let '(r, c) := read_len suffix (bd_cursor d) in
      match r with
      | Ok bs =>
        let buf := buf ++ bs in
        (if bd_verify_utf8 d && negb (utf8_valid buf) then Err "Did not read valid utf8" else Ok (Some buf), with_ buf c)
      | Err e => (Err e, with_ buf c)
      | Panic w => (Panic w, with_ buf c)
      end
  | Err e => (Err e, d)
  | Panic w => (Panic w, d)
  end.

Definition byte_array_read {DT} (definitions : Definitions) (offset count : nat)
    : M (DeltaByteArrayDecoder * Array (list Z) DT) unit := fill_array byte_array_next definitions offset count.
