(* ===== verification/ByteArraysCorrect.v ===== *)
(** * Byte arrays are read back

    The two delta encodings of byte arrays: what the encoders write, and that the
    decoders give the values back in pieces of any sizes, with NULLs between them;
    and the pages on which the decoders cannot be created. *)
From S2P Require Import Prelude Arrays ArrayData ParquetBits BitStreams ParquetDelta DeltaCorrect ParquetValues ValuesCorrect ParquetByteArrays.
Open Scope Z_scope.

(** ** Lengths *)

Lemma i32_supported : supported i32_t.
Proof. by left. Qed.

(** After [n] values that end a block, the cursor behind the lengths is not had. *)
Definition ends_block (n : nat) : bool := ((0 <? n) && ((n - 1) mod 128 =? 0))%nat.

Lemma read_lengths_page vs page tail : Forall (in_type i32_t) vs -> page_of i32_t 4 4 vs page ->
  (length vs <> 1)%nat -> Z.of_nat (length vs) < 2 ^ 64 -> Forall is_byte tail ->
  read_lengths (page ++ tail) = if ends_block (length vs) then Panic "index out of bounds" else Ok (vs, tail).
Proof.
  intros Hty Hp H1 Hlen Htail.
  destruct (delta_page_total i32_t vs page tail i32_supported Hty Hp H1 Hlen Htail) as (d & E & Htot).
  destruct (delta_decode_page i32_t vs page (length vs) tail i32_supported Hty Hp H1 Hlen ltac:(lia) Htail) as (r & D & Hr).
  specialize (Hr eq_refl). unfold delta_decode in D. unfold read_lengths. rewrite E in *. unfold mbind, res_bind in *. rewrite Htot in *.
  destruct (delta_read i32_t (replicate (length vs) 0) d) as [[us|e|w] d']; [|done..]. injection D as -> D.
  rewrite take_ge by lia. rewrite D, Hr. unfold ends_block, values_per_block. simpl (4 * (8 * int_bytes i32_t))%nat.
  by destruct (_ && _).
Qed.

(** The lengths of byte arrays that are not too long. *)
Lemma len_i32_exact bs : Z.of_nat (length bs) < 2 ^ 31 -> len_i32 bs = Z.of_nat (length bs).
Proof. intros H. unfold len_i32. apply signed_id; lia. Qed.

Lemma as_usize_nat n : Z.of_nat n < 2 ^ 64 -> as_usize (Z.of_nat n) = Z.of_nat n.
Proof. intros H. apply Z.mod_small. lia. Qed.

Lemma len_i32_in_type (vs : list (list Z)) : Forall (in_type i32_t) (len_i32 <$> vs).
Proof. apply Forall_fmap, Forall_true. intros bs. by apply signed_signed. Qed.

Definition total_length (vs : list (list Z)) : Z := Z.of_nat (length (concat vs)).

Lemma total_length_cons v vs : total_length (v :: vs) = Z.of_nat (length v) + total_length vs.
Proof. unfold total_length. cbn [concat]. rewrite length_app. lia. Qed.

Lemma sum_i32_lengths acc vs : 0 <= acc -> acc + total_length vs < 2 ^ 31 -> sum_i32 acc (len_i32 <$> vs) = Ok (acc + total_length vs).
Proof.
  revert acc. induction vs as [|v vs IH]; intros acc H0 Ht; [cbn; by rewrite Z.add_0_r|]. rewrite total_length_cons in *.
  assert (0 <= total_length vs) by (unfold total_length; lia). cbn [fmap list_fmap sum_i32]. rewrite len_i32_exact by lia.
  rewrite signed_id, Z.eqb_refl by lia. rewrite IH by lia. f_equal. lia.
Qed.

Lemma read_len_spec bs c : Z.of_nat (length bs) < 2 ^ 31 -> read_len (Z.of_nat (length bs)) (bs ++ c) = (Ok bs, c).
Proof.
  intros Hl. unfold read_len. rewrite as_usize_nat, length_app, (proj2 (Z.ltb_ge _ _)) by lia.
  unfold read_bytes_unchecked. rewrite Nat2Z.id, length_app, (proj2 (Nat.ltb_ge _ _)) by lia.
  by rewrite take_app_length, drop_app_length.
Qed.

(** ** Lengths, then bytes *)

(** The values from the current length on. *)
Record length_supplies (d : DeltaLengthByteArrayDecoder) (vs : list (list Z)) : Prop := {
  ls_lengths : drop (ld_curr_len_idx d) (ld_lengths d) = len_i32 <$> vs;
  ls_small : Forall (fun v => Z.of_nat (length v) < 2 ^ 31) vs;
  ls_utf8 : ld_verify_utf8 d = true -> Forall (fun v => utf8_valid v = true) vs;
  ls_cursor : ld_cursor d = concat vs
}.

#[export] Instance length_next_supplies : Supplies length_next length_supplies.
Proof.
  intros d v vs [Hl Hsm Hu Hc]. apply Forall_cons in Hsm as [Hv Hsm]. cbn [fmap list_fmap concat] in *.
  assert (Hi : ld_lengths d !! ld_curr_len_idx d = Some (len_i32 v)).
  { rewrite <- (Nat.add_0_r (ld_curr_len_idx d)), <- lookup_drop. by rewrite Hl. }
  unfold length_next. rewrite (proj2 (index_Ok _ _ _) Hi), Hc, len_i32_exact, read_len_spec by done.
  assert (Hvu : ld_verify_utf8 d && negb (utf8_valid v) = false).
  { destruct (ld_verify_utf8 d) eqn:E; [|done]. specialize (Hu eq_refl). apply Forall_cons in Hu as [-> _]. done. }
  cbn [mbind res_bind]. rewrite Hvu. eexists. split; [done|]. constructor; cbn; [|done| |done].
  - rewrite <- Nat.add_1_r, <- drop_drop, Hl. done.
  - intros E. specialize (Hu E). by apply Forall_cons in Hu as [_ Hu].
Qed.

Fixpoint length_put_chunks (vss : list (list (list Z))) (e : DeltaLengthByteArrayEncoder) : res DeltaLengthByteArrayEncoder :=
  match vss with
  | [] => Ok e
  | vs :: vss' => e ← length_put vs e; length_put_chunks vss' e
  end.

Definition length_encode (vss : list (list (list Z))) : res (list Z) :=
  e ← length_put_chunks vss DeltaLengthByteArrayEncoder_new;
  '(page, _) ← length_flush_buffer e;
  Ok page.

(** The encoder after the values [vs]. *)
Record length_encodes (e : DeltaLengthByteArrayEncoder) (vs : list (list Z)) : Prop := {
  le_lengths : delta_encodes i32_t 4 4 (len_encoder e) (len_i32 <$> vs);
  le_total : enc_total_values (len_encoder e) = length vs;
  le_data : enc_data e = vs
}.

Lemma new_length_encodes : length_encodes DeltaLengthByteArrayEncoder_new [].
Proof. constructor; [apply new_delta_encodes; simpl; lia|done|done]. Qed.

Lemma length_put_spec e vs xs : length_encodes e vs -> exists e', length_put xs e = Ok e' /\ length_encodes e' (vs ++ xs).
Proof.
  intros [Hl Ht Hd]. destruct (delta_put_spec i32_t ltac:(simpl; lia) 4 4 (len_i32 <$> vs) (len_i32 <$> xs) (len_encoder e))
    as (le' & E & Hl' & Ht'); [lia|lia|done|by rewrite length_fmap|].
  unfold length_put, mbind, res_bind. rewrite E. eexists. split; [done|].
  constructor; cbn; [by rewrite fmap_app|by rewrite Ht', <- fmap_app, length_fmap|by rewrite Hd].
Qed.

Lemma length_put_chunks_spec vss e vs : length_encodes e vs ->
  exists e', length_put_chunks vss e = Ok e' /\ length_encodes e' (vs ++ concat vss).
Proof.
  revert e vs. induction vss as [|xs vss IH]; intros e vs He; [exists e; by rewrite app_nil_r|].
  destruct (length_put_spec e vs xs He) as (e1 & E1 & He1). destruct (IH e1 _ He1) as (e2 & E2 & He2).
  exists e2. cbn [length_put_chunks concat]. unfold mbind, res_bind. rewrite E1. by rewrite app_assoc.
Qed.

Lemma length_flush_spec e vs : length_encodes e vs -> Z.of_nat (length vs) < 2 ^ 64 ->
  exists page e', length_flush_buffer e = Ok (page ++ concat vs, e') /\ page_of i32_t 4 4 (len_i32 <$> vs) page
    /\ length_encodes e' [].
Proof.
  intros [Hl Ht Hd] Hlen.
  destruct (delta_flush_buffer_spec i32_t ltac:(simpl; lia) 4 4 (len_i32 <$> vs) (len_encoder e)) as (page & le' & E & Hp & He' & Ht');
    try done; try lia; [by rewrite length_fmap|apply len_i32_in_type|by rewrite length_fmap|].
  exists page, (mkLengthEncoder le' [] 0). unfold length_flush_buffer, mbind, res_bind. rewrite E, Hd.
  split_and!; [done|done|]. by constructor.
Qed.

Lemma place_take {V} slots (vs : list V) : place slots (take (non_null slots) vs) = place slots vs.
Proof.
  revert vs. induction slots as [|[] slots IH]; intros vs; [done|cbn; by rewrite IH|]. destruct vs as [|v vs]; [done|].
  cbn. by rewrite IH.
Qed.

(** Pieces of what a decoder supplies. *)
Lemma supply_pieces {S DT} (fresh : DT -> nat -> list (list Z)) dt (next : M S (option (list Z))) P `{!Supplies next P} pieces slotss s vs :
  (forall dt capacity, length (fresh dt capacity) = capacity) ->
  Forall2 (fun p slots => null_slots p.1 p.2 = Ok slots) pieces slotss -> P s vs -> (non_null (concat slotss) <= length vs)%nat ->
  exists xss s', fill_pieces fresh dt next pieces s = (Ok xss, s') /\ concat xss = place (concat slotss) vs.
Proof.
  intros Hfr Hp HP Hn. rewrite <- (take_drop (non_null (concat slotss)) vs) in HP.
  destruct (fill_pieces_spec fresh dt Hfr next P pieces slotss s _ _ Hp HP) as (xss & s' & E & _ & Hc); [rewrite length_take; lia|].
  exists xss, s'. split; [done|]. by rewrite Hc, place_take.
Qed.

(** Values a page can hold. *)
Record writable (vs : list (list Z)) : Prop := {
  writable_bytes : Forall (Forall is_byte) vs;
  writable_total : total_length vs < 2 ^ 31;
  writable_count : Z.of_nat (length vs) < 2 ^ 64
}.

Lemma writable_small vs : writable vs -> Forall (fun v => Z.of_nat (length v) < 2 ^ 31) vs.
Proof.
  intros [_ Ht _]. induction vs as [|v vs IH]; [constructor|]. rewrite total_length_cons in Ht.
  assert (0 <= total_length vs) by (unfold total_length; lia). constructor; [lia|]. apply IH. lia.
Qed.

Lemma writable_concat vs : writable vs -> Forall is_byte (concat vs).
Proof. intros [Hb _ _]. by apply Forall_concat. Qed.

(** The decoder of a page of lengths. *)
Lemma length_try_new_spec vs page verify : writable vs -> page_of i32_t 4 4 (len_i32 <$> vs) page -> (length vs <> 1)%nat ->
  length_try_new (page ++ concat vs) verify
  = if ends_block (length vs) then Panic "index out of bounds" else Ok (mkLengthDecoder verify 0 (len_i32 <$> vs) (concat vs)).
Proof.
  intros Hw Hp H1. pose proof (writable_concat vs Hw) as Hb. destruct Hw as [_ Ht Hc]. unfold length_try_new.
  rewrite (read_lengths_page (len_i32 <$> vs)) by (done || apply len_i32_in_type || by rewrite length_fmap). rewrite length_fmap.
  destruct (ends_block (length vs)); [done|]. cbn [mbind res_bind]. rewrite sum_i32_lengths by lia. cbn [mbind res_bind].
  rewrite Z.add_0_l. unfold total_length at 1. rewrite as_usize_nat by (unfold total_length in Ht; lia).
  unfold remaining. by rewrite Z.eqb_refl.
Qed.

(** The page of some values and its decoder. *)
Lemma length_encode_spec vss verify : writable (concat vss) -> (length (concat vss) <> 1)%nat ->
  (verify = true -> Forall (fun v => utf8_valid v = true) (concat vss)) ->
  exists page, length_encode vss = Ok page
    /\ if ends_block (length (concat vss)) then length_try_new page verify = Panic "index out of bounds"
       else exists d, length_try_new page verify = Ok d /\ length_supplies d (concat vss).
Proof.
  intros Hw H1 Hu. destruct (length_put_chunks_spec vss _ _ new_length_encodes) as (e & E & He).
  destruct (length_flush_spec e _ He (writable_count _ Hw)) as (page & e' & F & Hpage & _).
  eexists. unfold length_encode, mbind, res_bind. rewrite E, F. split; [done|]. cbn [app] in *.
  rewrite (length_try_new_spec _ page verify Hw Hpage H1). destruct (ends_block _); [done|].
  eexists. split; [done|]. constructor; cbn; [done|by apply writable_small|done|done].
Qed.

(** Byte arrays with their lengths apart are read back: whatever the chunks
    the values are put in, reads of any sizes into new arrays give the values in
    the rows that are not NULL, in order.  If the values after the first fill whole
    blocks of 128, no decoder can be had for the page. *)
Theorem length_round_trip {DT} (fresh : DT -> nat -> list (list Z)) dt vss verify pieces slotss :
  (forall dt capacity, length (fresh dt capacity) = capacity) ->
  writable (concat vss) -> (length (concat vss) <> 1)%nat ->
  (verify = true -> Forall (fun v => utf8_valid v = true) (concat vss)) ->
  Forall2 (fun p slots => null_slots p.1 p.2 = Ok slots) pieces slotss -> (non_null (concat slotss) <= length (concat vss))%nat ->
  exists page, length_encode vss = Ok page
    /\ if ends_block (length (concat vss)) then length_try_new page verify = Panic "index out of bounds"
       else exists d xss d', length_try_new page verify = Ok d
              /\ fill_pieces fresh dt length_next pieces d = (Ok xss, d') /\ concat xss = place (concat slotss) (concat vss).
Proof.
  intros Hfr Hw H1 Hu Hp Hn. destruct (length_encode_spec vss verify Hw H1 Hu) as (page & E & Hpage). exists page. split; [done|].
  destruct (ends_block _); [done|]. destruct Hpage as (d & Ed & Hd).
  destruct (supply_pieces fresh dt length_next length_supplies pieces slotss d _ Hfr Hp Hd Hn) as (xss & d' & R & Hc).
  by exists d, xss, d'.
Qed.

(** ** Prefixes and suffixes *)

Lemma match_len_spec p c : take (match_len p c) p = take (match_len p c) c /\ (match_len p c <= length p)%nat /\ (match_len p c <= length c)%nat.
Proof.
  revert c. induction p as [|x p IH]; intros [|y c]; cbn [match_len length]; try (split_and!; [done|lia|lia]).
  destruct (Z.eqb_spec x y) as [->|]; [|split_and!; [done|lia|lia]]. destruct (IH c) as (E & H1 & H2). cbn [take]. split_and!; [by rewrite E|lia|lia].
Qed.

(** The parts of the values after [previous]. *)
Definition prefixes (previous : list Z) (vs : list (list Z)) : list Z := (split_values previous vs).1.1.
Definition suffixes (previous : list Z) (vs : list (list Z)) : list (list Z) := (split_values previous vs).1.2.
Definition last_value (previous : list Z) (vs : list (list Z)) : list Z := (split_values previous vs).2.

Lemma split_values_eq previous vs : split_values previous vs = (prefixes previous vs, suffixes previous vs, last_value previous vs).
Proof. unfold prefixes, suffixes, last_value. by destruct (split_values previous vs) as [[]]. Qed.

Lemma split_cons previous v vs :
  prefixes previous (v :: vs) = signed 32 (Z.of_nat (match_len previous v)) :: prefixes v vs
  /\ suffixes previous (v :: vs) = drop (match_len previous v) v :: suffixes v vs
  /\ last_value previous (v :: vs) = last_value v vs.
Proof. unfold prefixes, suffixes, last_value. cbn [split_values]. by destruct (split_values v vs) as [[]]. Qed.

Lemma split_app previous vs ws :
  prefixes previous (vs ++ ws) = prefixes previous vs ++ prefixes (last_value previous vs) ws
  /\ suffixes previous (vs ++ ws) = suffixes previous vs ++ suffixes (last_value previous vs) ws
  /\ last_value previous (vs ++ ws) = last_value (last_value previous vs) ws.
Proof.
  revert previous. induction vs as [|v vs IH]; intros previous; [done|]. cbn [app].
  destruct (split_cons previous v (vs ++ ws)) as (-> & -> & ->). destruct (split_cons previous v vs) as (-> & -> & ->).
  destruct (IH v) as (-> & -> & ->). done.
Qed.

Lemma split_lengths previous vs : length (prefixes previous vs) = length vs /\ length (suffixes previous vs) = length vs.
Proof.
  revert previous. induction vs as [|v vs IH]; intros previous; [done|]. destruct (split_cons previous v vs) as (-> & -> & _).
  destruct (IH v) as [H1 H2]. cbn [length]. by rewrite H1, H2.
Qed.

Lemma prefixes_in_type previous vs : Forall (in_type i32_t) (prefixes previous vs).
Proof.
  revert previous. induction vs as [|v vs IH]; intros previous; [constructor|]. destruct (split_cons previous v vs) as (-> & _ & _).
  constructor; [by apply signed_signed|done].
Qed.

Lemma suffixes_writable previous vs : writable vs -> writable (suffixes previous vs).
Proof.
  intros [Hb Ht Hc]. constructor.
  - clear Ht Hc. revert previous. induction Hb as [|v vs Hv _ IH]; intros previous; [constructor|].
    destruct (split_cons previous v vs) as (_ & -> & _). constructor; [by apply Forall_drop|done].
  - eapply Z.le_lt_trans; [|exact Ht]. clear. revert previous. induction vs as [|v vs IH]; intros previous; [done|].
    destruct (split_cons previous v vs) as (_ & -> & _). rewrite !total_length_cons. specialize (IH v). rewrite length_drop. lia.
  - by rewrite (proj2 (split_lengths previous vs)).
Qed.

(** The values from the current prefix on, after the value in the buffer. *)
Record byte_array_supplies (d : DeltaByteArrayDecoder) (vs : list (list Z)) : Prop := {
  bs_prefixes : drop (bd_curr_len_idx d) (bd_prefix_lengths d) = prefixes (bd_val_buf d) vs;
  bs_suffixes : drop (bd_curr_len_idx d) (bd_suffix_lengths d) = len_i32 <$> suffixes (bd_val_buf d) vs;
  bs_small : Forall (fun v => Z.of_nat (length v) < 2 ^ 31) vs;
  bs_utf8 : bd_verify_utf8 d = true -> Forall (fun v => utf8_valid v = true) vs;
  bs_cursor : bd_cursor d = concat (suffixes (bd_val_buf d) vs)
}.

Lemma index_of_drop {A} (l : list A) i x l' : drop i l = x :: l' -> index l i = Ok x.
Proof. intros E. apply index_Ok. rewrite <- (Nat.add_0_r i), <- lookup_drop. by rewrite E. Qed.

Lemma drop_of_drop {A} (l : list A) i x l' : drop i l = x :: l' -> drop (S i) l = l'.
Proof. intros E. by rewrite <- Nat.add_1_r, <- drop_drop, E. Qed.

#[export] Instance byte_array_next_supplies : Supplies byte_array_next byte_array_supplies.
Proof.
  intros d v vs [Hp Hs Hsm Hu Hc]. apply Forall_cons in Hsm as [Hv Hsm].
  destruct (split_cons (bd_val_buf d) v vs) as (E1 & E2 & _). rewrite E1 in Hp. rewrite E2 in Hs, Hc. cbn [fmap list_fmap concat] in *.
  destruct (match_len_spec (bd_val_buf d) v) as (Et & Hl1 & Hl2). set (n := match_len (bd_val_buf d) v) in *.
  rewrite signed_id in Hp by lia. assert (Hsl : Z.of_nat (length (drop n v)) < 2 ^ 31) by (rewrite length_drop; lia).
  rewrite len_i32_exact in Hs by done.
  assert (Htr : truncate (Z.of_nat n) (bd_val_buf d) = take n (bd_val_buf d)).
  { unfold truncate. rewrite as_usize_nat, Nat2Z.id by lia. destruct (Z.ltb_spec (Z.of_nat n) (Z.of_nat (length (bd_val_buf d)))); [done|].
    symmetry. apply take_ge. lia. }
  unfold byte_array_next. rewrite (index_of_drop _ _ _ _ Hp), (index_of_drop _ _ _ _ Hs). cbn [mbind res_bind].
  rewrite Htr, Hc, as_usize_nat by lia. unfold remaining. rewrite (proj2 (Z.ltb_ge _ _)) by (rewrite length_app; lia).
  rewrite read_len_spec, Et, take_drop by done.
  assert (Hvu : bd_verify_utf8 d && negb (utf8_valid v) = false).
  { destruct (bd_verify_utf8 d) eqn:E; [|done]. specialize (Hu eq_refl). apply Forall_cons in Hu as [-> _]. done. }
  rewrite Hvu. eexists. split; [done|]. constructor; cbn; [by apply drop_of_drop in Hp|by apply drop_of_drop in Hs|done| |done].
  intros E. specialize (Hu E). by apply Forall_cons in Hu as [_ Hu].
Qed.

Fixpoint byte_array_put_chunks (vss : list (list (list Z))) (e : DeltaByteArrayEncoder) : res DeltaByteArrayEncoder :=
  match vss with
  | [] => Ok e
  | vs :: vss' => e ← byte_array_put vs e; byte_array_put_chunks vss' e
  end.

Definition byte_array_encode (vss : list (list (list Z))) : res (list Z) :=
  e ← byte_array_put_chunks vss DeltaByteArrayEncoder_new;
  '(page, _) ← byte_array_flush_buffer e;
  Ok page.

Record byte_array_encodes (e : DeltaByteArrayEncoder) (vs : list (list Z)) : Prop := {
  be_prefixes : delta_encodes i32_t 4 4 (prefix_len_encoder e) (prefixes [] vs);
  be_total : enc_total_values (prefix_len_encoder e) = length vs;
  be_suffixes : length_encodes (suffix_writer e) (suffixes [] vs);
  be_previous : previous e = last_value [] vs
}.

Lemma byte_array_put_spec e vs xs : byte_array_encodes e vs ->
  exists e', byte_array_put xs e = Ok e' /\ byte_array_encodes e' (vs ++ xs).
Proof.
  intros [Hp Ht Hs Hprev]. unfold byte_array_put. rewrite split_values_eq, Hprev.
  destruct (split_app [] vs xs) as (E1 & E2 & E3).
  destruct (delta_put_spec i32_t ltac:(simpl; lia) 4 4 (prefixes [] vs) (prefixes (last_value [] vs) xs) (prefix_len_encoder e))
    as (pe & E & Hp' & Ht'); [lia|lia|done|by rewrite (proj1 (split_lengths _ _))|].
  destruct (length_put_spec (suffix_writer e) _ (suffixes (last_value [] vs) xs) Hs) as (sw & F & Hs').
  unfold mbind, res_bind. rewrite E, F. eexists. split; [done|].
  constructor; cbn; rewrite ?E1, ?E2, ?E3; [done| |done|done]. by rewrite Ht', <- E1, (proj1 (split_lengths _ _)).
Qed.

Lemma byte_array_put_chunks_spec vss e vs : byte_array_encodes e vs ->
  exists e', byte_array_put_chunks vss e = Ok e' /\ byte_array_encodes e' (vs ++ concat vss).
Proof.
  revert e vs. induction vss as [|xs vss IH]; intros e vs He; [exists e; by rewrite app_nil_r|].
  destruct (byte_array_put_spec e vs xs He) as (e1 & E1 & He1). destruct (IH e1 _ He1) as (e2 & E2 & He2).
  exists e2. cbn [byte_array_put_chunks concat]. unfold mbind, res_bind. rewrite E1. by rewrite app_assoc.
Qed.

Lemma new_byte_array_encodes : byte_array_encodes DeltaByteArrayEncoder_new [].
Proof. constructor; [apply new_delta_encodes; simpl; lia|done|apply new_length_encodes|done]. Qed.

Lemma byte_array_flush_spec e vs : byte_array_encodes e vs -> Z.of_nat (length vs) < 2 ^ 64 ->
  exists p1 p2 e', byte_array_flush_buffer e = Ok (p1 ++ p2 ++ concat (suffixes [] vs), e')
    /\ page_of i32_t 4 4 (prefixes [] vs) p1 /\ page_of i32_t 4 4 (len_i32 <$> suffixes [] vs) p2.
Proof.
  intros [Hp Ht Hs _] Hlen. destruct (split_lengths [] vs) as [L1 L2].
  destruct (delta_flush_buffer_spec i32_t ltac:(simpl; lia) 4 4 (prefixes [] vs) (prefix_len_encoder e)) as (p1 & pe & E & Hp1 & _);
    try done; try lia; [apply prefixes_in_type|].
  destruct (length_flush_spec _ _ Hs) as (p2 & sw & F & Hp2 & _); [by rewrite L2|].
  exists p1, p2. unfold byte_array_flush_buffer, mbind, res_bind. rewrite E, F. eexists. by rewrite app_assoc.
Qed.

Lemma page_of_bytes vs page : page_of i32_t 4 4 vs page -> Forall (in_type i32_t) vs -> Forall is_byte page.
Proof.
  intros [(bs & pad & min & -> & Hb & _)] Hty. unfold page_header.
  assert (Hf : in_type i32_t (default 0 (head vs))) by (destruct vs; [done|by apply Forall_cons in Hty as [H _]]).
  rewrite !Forall_app. split_and!; try (apply vlq_bytes; lia).
  - by apply vlq_bytes, zigzag_encode_u64, (in_type_i64 i32_t ltac:(simpl; lia)).
  - by eapply (blocks_bytes i32_t ltac:(simpl; lia)).
Qed.

Lemma byte_array_try_new_spec vs p1 p2 verify : writable vs -> (length vs <> 1)%nat ->
  page_of i32_t 4 4 (prefixes [] vs) p1 -> page_of i32_t 4 4 (len_i32 <$> suffixes [] vs) p2 ->
  byte_array_try_new (p1 ++ p2 ++ concat (suffixes [] vs)) verify
  = if ends_block (length vs) then Panic "index out of bounds"
    else Ok (mkByteArrayDecoder verify [] 0 (prefixes [] vs) (len_i32 <$> suffixes [] vs) (concat (suffixes [] vs))).
Proof.
  intros Hw H1 Hp1 Hp2. destruct (split_lengths [] vs) as [L1 L2]. pose proof (suffixes_writable [] vs Hw) as Hws.
  pose proof (writable_concat _ Hws) as Hcb. pose proof (writable_count _ Hw) as Hcount.
  unfold byte_array_try_new. rewrite (read_lengths_page (prefixes [] vs));
    [|apply prefixes_in_type|done|by rewrite L1|by rewrite L1|apply Forall_app; split; [|done]].
  2: { apply (page_of_bytes (len_i32 <$> suffixes [] vs)); [done|apply len_i32_in_type]. }
  rewrite L1. destruct (ends_block (length vs)) eqn:Eb; [done|]. cbn [mbind res_bind].
  rewrite (read_lengths_page (len_i32 <$> suffixes [] vs)); [|apply len_i32_in_type|done|by rewrite length_fmap, L2..|done].
  rewrite length_fmap, L2, Eb. cbn [mbind res_bind]. by rewrite length_fmap, L1, L2, Nat.eqb_refl.
Qed.

Lemma byte_array_encode_spec vss verify : writable (concat vss) -> (length (concat vss) <> 1)%nat ->
  (verify = true -> Forall (fun v => utf8_valid v = true) (concat vss)) ->
  exists page, byte_array_encode vss = Ok page
    /\ if ends_block (length (concat vss)) then byte_array_try_new page verify = Panic "index out of bounds"
       else exists d, byte_array_try_new page verify = Ok d /\ byte_array_supplies d (concat vss).
Proof.
  intros Hw H1 Hu. destruct (byte_array_put_chunks_spec vss _ _ new_byte_array_encodes) as (e & E & He).
  destruct (byte_array_flush_spec e _ He (writable_count _ Hw)) as (p1 & p2 & e' & F & Hp1 & Hp2).
  eexists. unfold byte_array_encode, mbind, res_bind. rewrite E, F. split; [done|]. cbn [app] in *.
  rewrite (byte_array_try_new_spec _ p1 p2 verify Hw H1 Hp1 Hp2). destruct (ends_block _); [done|].
  eexists. split; [done|]. constructor; cbn; [done|done|by apply writable_small|done|done].
Qed.

(** C21. Byte arrays that share prefixes are read back: for values whose number
    and total size fit the encoding, except exactly one value, on which the
    decoder fails ([delta_edges]), and which are valid UTF-8 where the decoder is to
    verify that, whatever the chunks the values are put in, reads of any sizes
    into new arrays rebuild the values from the prefix of the one before and the
    suffix, in the rows that are not NULL.  If the values after the first fill
    whole blocks of 128, no decoder can be had for the page. *)
Theorem byte_array_round_trip {DT} (fresh : DT -> nat -> list (list Z)) dt vss verify pieces slotss :
  (forall dt capacity, length (fresh dt capacity) = capacity) ->
  writable (concat vss) -> (length (concat vss) <> 1)%nat ->
  (verify = true -> Forall (fun v => utf8_valid v = true) (concat vss)) ->
  Forall2 (fun p slots => null_slots p.1 p.2 = Ok slots) pieces slotss -> (non_null (concat slotss) <= length (concat vss))%nat ->
  exists page, byte_array_encode vss = Ok page
    /\ if ends_block (length (concat vss)) then byte_array_try_new page verify = Panic "index out of bounds"
       else exists d xss d', byte_array_try_new page verify = Ok d
              /\ fill_pieces fresh dt byte_array_next pieces d = (Ok xss, d') /\ concat xss = place (concat slotss) (concat vss).
Proof.
  intros Hfr Hw H1 Hu Hp Hn. destruct (byte_array_encode_spec vss verify Hw H1 Hu) as (page & E & Hpage). exists page. split; [done|].
  destruct (ends_block _); [done|]. destruct Hpage as (d & Ed & Hd).
  destruct (supply_pieces fresh dt byte_array_next byte_array_supplies pieces slotss d _ Hfr Hp Hd Hn) as (xss & d' & R & Hc).
  by exists d, xss, d'.
Qed.

Module ByteArrayExample.

(** Three strings in two chunks, read in two pieces with a NULL. *)
Definition strings : list (list (list Z)) := [[[97; 98; 99]; [97; 98; 100]]; [[97; 98; 100; 101]]].
Definition pieces : list (Definitions * nat) := [(HasDefinitions [1; 0; 1] 1, 3%nat); (NoDefinitions, 1%nat)].
Definition slots : list (list bool) := [[false; true; false]; [false]].
Definition blank (dt : unit) (n : nat) : list (list Z) := replicate n [].

Lemma strings_writable : writable (concat strings).
Proof. constructor; [repeat constructor; vm_compute; congruence|done..]. Qed.

Lemma length_round_trip_witness : exists page, length_encode strings = Ok page
  /\ if ends_block (length (concat strings)) then length_try_new page true = Panic "index out of bounds"
     else exists d xss d', length_try_new page true = Ok d
            /\ fill_pieces blank tt length_next pieces d = (Ok xss, d') /\ concat xss = place (concat slots) (concat strings).
Proof.
  apply (length_round_trip blank tt strings true pieces slots).
  - intros. apply length_replicate.
  - apply strings_writable.
  - by vm_compute.
  - intros _. repeat constructor.
  - repeat constructor.
  - vm_compute. lia.
Defined.

Lemma byte_array_round_trip_witness : exists page, byte_array_encode strings = Ok page
  /\ if ends_block (length (concat strings)) then byte_array_try_new page true = Panic "index out of bounds"
     else exists d xss d', byte_array_try_new page true = Ok d
            /\ fill_pieces blank tt byte_array_next pieces d = (Ok xss, d') /\ concat xss = place (concat slots) (concat strings).
Proof.
  apply (byte_array_round_trip blank tt strings true pieces slots).
  - intros. apply length_replicate.
  - apply strings_writable.
  - by vm_compute.
  - intros _. repeat constructor.
  - repeat constructor.
  - vm_compute. lia.
Defined.

(** The bytes of the second encoding: prefix lengths 0 2 3, suffix lengths 3 1 1. *)
Example encode_strings : byte_array_encode strings
  = Ok ([128; 1; 4; 3; 0; 2; 1; 0; 0; 0; 1; 0; 0; 0] ++ [128; 1; 4; 3; 6; 3; 2; 0; 0; 0; 8; 0; 0; 0; 0; 0; 0; 0] ++ [97; 98; 99; 100; 101]).
Proof. vm_compute. reflexivity. Qed.

(** A page of one string. *)
Example one_string : (page ← length_encode [[[104; 101; 108; 108; 111]]]; length_try_new page true) = Panic out_of_bytes.
Proof. vm_compute. reflexivity. Qed.

End ByteArrayExample.
