(* ===== verification/ParquetPages.v ===== *)
(** * Pages and columns

    The decoders of the page encodings ([column/encoding]), the page reader
    ([column/page_reader.rs]) that splits a column chunk into pages and sets their
    decoders up, and the column reader ([column/column_reader.rs]) that fills
    arrays from as many pages as it takes.

    Decompression and Thrift are parameters: a codec turns bytes and a destination
    into the destination after, [read_header] gives the header at the start of some
    bytes with its length, and [from_thrift] converts the statistics of a page,
    which are not used. *)
From S2P Require Import Prelude Arrays ArrayData ParquetBits ParquetRle ParquetDelta ParquetValues ParquetByteArrays.
Open Scope Z_scope.

(** ** Enumerations and headers *)

(** [basic::Type] and [basic::Encoding] *)
Inductive PhysicalType := BOOLEAN | INT32 | INT64 | INT96 | FLOAT | DOUBLE | BYTE_ARRAY | FIXED_LEN_BYTE_ARRAY.

Inductive Encoding := PLAIN | PLAIN_DICTIONARY | RLE | BIT_PACKED | DELTA_BINARY_PACKED | DELTA_LENGTH_BYTE_ARRAY
  | DELTA_BYTE_ARRAY | RLE_DICTIONARY | BYTE_STREAM_SPLIT.

#[export] Instance physical_type_eq : EqDecision PhysicalType.
Proof. solve_decision. Defined.
#[export] Instance encoding_eq : EqDecision Encoding.
Proof. solve_decision. Defined.

(** [page.rs]; the statistics and the checksum of a page are not read. *)
Record DataPageHeader := { v1_num_values : Z; v1_encoding : Encoding; v1_def_level_encoding : Encoding; v1_rep_level_encoding : Encoding }.

Record DataPageHeaderV2 := {
  v2_num_values : Z; v2_encoding : Encoding; v2_num_nulls : Z; v2_num_rows : Z;
  v2_def_levels_byte_len : Z; v2_rep_levels_byte_len : Z; v2_is_compressed : bool
}.

Record DictionaryPageHeader := { dict_num_values : Z; dict_encoding : Encoding; dict_is_sorted : bool }.

Inductive PageType :=
| DataPage (h : DataPageHeader)
| DataPageV2 (h : DataPageHeaderV2)
| Dictionary (h : DictionaryPageHeader).

Record PageMetadata := { uncompressed_page_size : Z; compressed_page_size : Z }.

Record PageHeader := { metadata : PageMetadata; page_type : PageType }.

(** *** From the Thrift structures ([format.rs], generated) *)

Record FormatDataPageHeader (St : Type) := mkFormatV1 {
  f1_num_values : Z; f1_encoding : Z; f1_definition_level_encoding : Z; f1_repetition_level_encoding : Z; f1_statistics : option St
}.
Record FormatDictionaryPageHeader := mkFormatDict { fd_num_values : Z; fd_encoding : Z; fd_is_sorted : option bool }.
Record FormatDataPageHeaderV2 (St : Type) := mkFormatV2 {
  f2_num_values : Z; f2_num_nulls : Z; f2_num_rows : Z; f2_encoding : Z; f2_definition_levels_byte_length : Z;
  f2_repetition_levels_byte_length : Z; f2_is_compressed : option bool; f2_statistics : option St
}.
Record FormatPageHeader (St : Type) := mkFormatHeader {
  f_type : Z; f_uncompressed_page_size : Z; f_compressed_page_size : Z;
  f_data_page_header : option (FormatDataPageHeader St);
  f_dictionary_page_header : option FormatDictionaryPageHeader;
  f_data_page_header_v2 : option (FormatDataPageHeaderV2 St)
}.
Arguments f1_num_values {St}.
Arguments f1_encoding {St}.
Arguments f1_definition_level_encoding {St}.
Arguments f1_repetition_level_encoding {St}.
Arguments f1_statistics {St}.
Arguments f2_num_values {St}.
Arguments f2_num_nulls {St}.
Arguments f2_num_rows {St}.
Arguments f2_encoding {St}.
Arguments f2_definition_levels_byte_length {St}.
Arguments f2_repetition_levels_byte_length {St}.
Arguments f2_is_compressed {St}.
Arguments f2_statistics {St}.
Arguments f_type {St}.
Arguments f_uncompressed_page_size {St}.
Arguments f_compressed_page_size {St}.
Arguments f_data_page_header {St}.
Arguments f_dictionary_page_header {St}.
Arguments f_data_page_header_v2 {St}.

(** [Encoding::try_from], on the number of a Thrift enum. *)
Definition encoding_try_from (n : Z) : res Encoding :=
  match n with
  | 0 => Ok PLAIN
  | 2 => Ok PLAIN_DICTIONARY
  | 3 => Ok RLE
  | 4 => Ok BIT_PACKED
  | 5 => Ok DELTA_BINARY_PACKED
  | 6 => Ok DELTA_LENGTH_BYTE_ARRAY
  | 7 => Ok DELTA_BYTE_ARRAY
  | 8 => Ok RLE_DICTIONARY
  | 9 => Ok BYTE_STREAM_SPLIT
  | _ => Err "unexpected parquet encoding"
  end.

(** [u32::try_from] of an [i32]. *)
Definition u32_try_from (n : Z) : res Z := if n <? 0 then Err "out of range integral type conversion attempted" else Ok n.

Definition ok_or {A} (o : option A) (e : string) : res A :=
  match o with
  | Some a => Ok a
  | None => Err e
  end.

(** [PageHeader::try_from_format]; [from_thrift] converts statistics. *)
Definition try_from_format {St} (from_thrift : PhysicalType -> option St -> res unit) (header : FormatPageHeader St) (ty : PhysicalType) : res PageHeader :=
  page_type ←
    (if f_type header =? 2 then
       h ← ok_or (f_dictionary_page_header header) "Missing dictionary page header";
       n ← u32_try_from (fd_num_values h);
       enc ← encoding_try_from (fd_encoding h);
       Ok (Dictionary {| dict_num_values := n; dict_encoding := enc; dict_is_sorted := default false (fd_is_sorted h) |})
     else if f_type header =? 0 then
       h ← ok_or (f_data_page_header header) "Missing V1 data page header";
       n ← u32_try_from (f1_num_values h);
       enc ← encoding_try_from (f1_encoding h);
       def_enc ← encoding_try_from (f1_definition_level_encoding h);
       rep_enc ← encoding_try_from (f1_repetition_level_encoding h);
       _ ← from_thrift ty (f1_statistics h);
       Ok (DataPage {| v1_num_values := n; v1_encoding := enc; v1_def_level_encoding := def_enc; v1_rep_level_encoding := rep_enc |})
     else if f_type header =? 3 then
       h ← ok_or (f_data_page_header_v2 header) "Missing V2 data page header";
       n ← u32_try_from (f2_num_values h);
       enc ← encoding_try_from (f2_encoding h);
       nulls ← u32_try_from (f2_num_nulls h);
       rows ← u32_try_from (f2_num_rows h);
       def_len ← u32_try_from (f2_definition_levels_byte_length h);
       rep_len ← u32_try_from (f2_repetition_levels_byte_length h);
       _ ← from_thrift ty (f2_statistics h);
       Ok (DataPageV2 {| v2_num_values := n; v2_encoding := enc; v2_num_nulls := nulls; v2_num_rows := rows;
                         v2_def_levels_byte_len := def_len; v2_rep_levels_byte_len := rep_len;
                         v2_is_compressed := default true (f2_is_compressed h) |})
     else Err "Decoding page header type");
  Ok {| metadata := {| uncompressed_page_size := f_uncompressed_page_size header; compressed_page_size := f_compressed_page_size header |};
        page_type := page_type |}.

(** [Codec::decompress] into a slice. *)
Definition Codec := list Z -> list Z -> res (list Z).

(** ** Output storage *)

(** What [PhysicalBinary] and [PhysicalBool] find in an array of [V]: whether the
    downcast succeeds, and the value to store. *)
Class Storage (V : Type) := {
  as_binary : option (list Z -> V);
  as_bool : option (bool -> V)
}.

#[export] Instance storage_int : Storage Z := {| as_binary := None; as_bool := None |}.
#[export] Instance storage_bool : Storage bool := {| as_binary := None; as_bool := Some id |}.
#[export] Instance storage_bytes : Storage (list Z) := {| as_binary := Some id; as_bool := None |}.

Definition wrong_storage : string := "Failed to downcast array buffer".

(** A reader whose values are stored as another type. *)
Definition mapped_reader {R U V} (f : U -> V) `{ValueReader R U} : ValueReader R V := {|
  vr_default := vr_default;
  vr_read_next_unchecked := o ← vr_read_next_unchecked; mret (f <$> o);
  vr_skip_unchecked := vr_skip_unchecked
|}.

Definition mapped_next {S U V} (f : U -> V) (next : M S (option U)) : M S (option V) := o ← next; mret (f <$> o).

(** [ReadCursor::from_slice] of integers. *)
Definition from_ints (t : IntType) (vs : list Z) : ReadCursor := concat (to_le (int_bytes t) <$> vs).

Section Pages.
Context {R V DT P : Type} `{VR : ValueReader R V} `{ST : Storage V} `{EqDecision P}.
Context (fresh : DT -> nat -> list V) (physical_type_of : P -> PhysicalType).
Context {St : Type} (from_thrift : PhysicalType -> option St -> res unit) (read_header : list Z -> res (FormatPageHeader St * nat)).

(** ** Decoders over an output array *)

(** A plain decoder over bytes that are there already. *)
Definition read_bytes_plain (bytes : ReadCursor) (definitions : Definitions) (offset count : nat) (output : Array V DT) : res unit * Array V DT :=
  let '(r, (_, output')) := read_plain definitions offset count (mkPlain bytes vr_default, output) in (r, output').

(** [DeltaBinaryPackedDecoder::read] *)
Definition delta_decoder_read (t : IntType) (definitions : Definitions) (offset count : nat) : M (DeltaDecoder * Array V DT) unit :=
  fun '(d, output) =>
    match read_count definitions count with
    | Ok n =>
      match delta_read t (replicate n 0) d with
      | (Ok vs, d') => let '(r, output') := read_bytes_plain (from_ints t vs) definitions offset count output in (r, (d', output'))
      | (Err e, d') => (Err e, (d', output))
      | (Panic w, d') => (Panic w, (d', output))
      end
    | Err e => (Err e, (d, output))
    | Panic w => (Panic w, (d, output))
    end.

(** [RleBoolDecoder::read] *)
Definition rle_bool_read (definitions : Definitions) (offset count : nat) : M (RleBitPackedDecoder * Array V DT) unit :=
  fun '(d, output) =>
    match read_count definitions count with
    | Ok n =>
      match ParquetRle.read u8_t n d with
      | (Ok vs, d') =>
        match as_bool with
        | Some f =>
          let '(r, (_, output')) := @read_plain RealSizedBoolReader V DT (mapped_reader f) definitions offset count
            (mkPlain (from_ints u8_t vs) mkRealSizedBool, output) in
          (r, (d', output'))
        | None => (Err wrong_storage, (d', output))
        end
      | (Err e, d') => (Err e, (d', output))
      | (Panic w, d') => (Panic w, (d', output))
      end
    | Err e => (Err e, (d, output))
    | Panic w => (Panic w, (d, output))
    end.

(** [ByteStreamSplit::try_new] for values of [k] bytes: a cursor for every byte. *)
Fixpoint take_streams (k n : nat) : M ReadCursor (list ReadCursor) :=
  match k with
  | O => mret []
  | S k' => s ← take_cursor n; ss ← take_streams k' n; mret (s :: ss)
  end.

Definition split_try_new (k : nat) (c : ReadCursor) : res (list ReadCursor) :=
  if negb (remaining c mod k =? 0)%nat then Err "Cursor size not a multiple of the value size"
  else (take_streams k (remaining c / k) c).1.

(** [ByteStreamSplit::read] of [n] values: the bytes of every stream. *)
Fixpoint read_streams (n : nat) (streams : list ReadCursor) : res (list (list Z) * list ReadCursor) :=
  match streams with
  | [] => Ok ([], [])
  | s :: streams' =>
    let '(r, s') := read_bytes_unchecked n s in
    bs ← r;
    '(bss, ss) ← read_streams n streams';
    Ok (bs :: bss, s' :: ss)
  end.

(** The values, byte by byte. *)
Definition interleave (n : nat) (bss : list (list Z)) : list Z :=
  concat ((fun j => (fun bs => bs !!! j) <$> bss) <$> seq 0 n).

(** [ByteStreamSplitDecoder::read] *)
Definition split_read (definitions : Definitions) (offset count : nat) : M (list ReadCursor * Array V DT) unit :=
  fun '(streams, output) =>
    match (n ← read_count definitions count; '(bss, ss) ← read_streams n streams; Ok (n, bss, ss)) with
    | Ok (n, bss, ss) =>
      let '(r, output') := read_bytes_plain (interleave n bss) definitions offset count output in (r, (ss, output'))
    | Err e => (Err e, (streams, output))
    | Panic w => (Panic w, (streams, output))
    end.

(** ** Dictionaries *)

(** [Dictionary::prepare_with_values]: the values of a page and a NULL. *)
Definition prepare_with_values (dict_size : nat) (buffer : ReadCursor) : M (Array V DT) unit := fun dict =>
  let dict := new_array fresh (datatype dict) (dict_size + 1) in
  let '(r, dict) := read_bytes_plain buffer NoDefinitions 0 dict_size dict in
  match (_ ← r; Validity.set_invalid (validity dict) dict_size) with
  | Ok va => (Ok tt, mkArray (datatype dict) va (data dict))
  | Err e => (Err e, dict)
  | Panic w => (Panic w, dict)
  end.

(** The mapping of a read with definitions: the next index, or the NULL. *)
Fixpoint dictionary_mapping (null_idx : nat) (max : Z) (levels sel : list Z) (write_idx : nat) : res (list (nat * nat)) :=
  match levels with
  | [] => Ok []
  | level :: levels' =>
    if level =? max then
      match sel with
      | src :: sel' => m ← dictionary_mapping null_idx max levels' sel' (S write_idx); Ok ((Z.to_nat src, write_idx) :: m)
      | [] => Panic "index out of bounds"
      end
    else m ← dictionary_mapping null_idx max levels' sel (S write_idx); Ok ((null_idx, write_idx) :: m)
  end.

(** [DictionaryDecoder::read] *)
Definition dictionary_read (dict : Array V DT) (definitions : Definitions) (offset count : nat) : M (RleBitPackedDecoder * Array V DT) unit :=
  fun '(d, output) =>
    match read_count definitions count with
    | Ok n =>
      match ParquetRle.read u32_t n d with
      | (Ok sel, d') =>
        let copied :=
          mapping ← match definitions with
                    | HasDefinitions levels max =>
                      null_idx ← (if (logical_len (data dict) =? 0)%nat then Panic "attempt to subtract with overflow"
                                  else Ok (logical_len (data dict) - 1)%nat);
                      dictionary_mapping null_idx max levels sel offset
                    | NoDefinitions => Ok (imap (fun i src => (Z.to_nat src, (i + offset)%nat)) sel)
                    end;
          copy_rows dict mapping output in
        match copied with
        | Ok output' => (Ok tt, (d', output'))
        | Err e => (Err e, (d', output))
        | Panic w => (Panic w, (d', output))
        end
      | (Err e, d') => (Err e, (d', output))
      | (Panic w, d') => (Panic w, (d', output))
      end
    | Err e => (Err e, (d, output))
    | Panic w => (Panic w, (d, output))
    end.

(** ** Page decoders *)

Inductive PageDecoder :=
| PlainPage (d : PlainDecoder R)
| DictionaryPage (d : RleBitPackedDecoder)
| DeltaBinaryPackedI32 (d : DeltaDecoder)
| DeltaBinaryPackedI64 (d : DeltaDecoder)
| DeltaLengthByteArray (d : DeltaLengthByteArrayDecoder)
| DeltaByteArray (d : DeltaByteArrayDecoder)
| RleBool (d : RleBitPackedDecoder)
| ByteStreamSplit4 (d : list ReadCursor)
| ByteStreamSplit8 (d : list ReadCursor).

(** Running a read of one kind of decoder. *)
Definition with_decoder {D} (mk : D -> PageDecoder) (m : M (D * Array V DT) unit) (d : D) (output : Array V DT)
    : res unit * (PageDecoder * Array V DT) :=
  let '(r, (d', output')) := m (d, output) in (r, (mk d', output')).

(** The [match] over the decoders in [ValueColumnReader::read]. *)
Definition decoder_read (dict : Array V DT) (definitions : Definitions) (offset count : nat) : M (PageDecoder * Array V DT) unit :=
  fun '(dec, output) =>
    match dec with
    | PlainPage d => with_decoder PlainPage (read_plain definitions offset count) d output
    | DictionaryPage d => with_decoder DictionaryPage (dictionary_read dict definitions offset count) d output
    | DeltaBinaryPackedI32 d => with_decoder DeltaBinaryPackedI32 (delta_decoder_read i32_t definitions offset count) d output
    | DeltaBinaryPackedI64 d => with_decoder DeltaBinaryPackedI64 (delta_decoder_read i64_t definitions offset count) d output
    | DeltaLengthByteArray d =>
      match as_binary with
      | Some f => with_decoder DeltaLengthByteArray (fill_array (mapped_next f length_next) definitions offset count) d output
      | None => (Err wrong_storage, (dec, output))
      end
    | DeltaByteArray d =>
      match as_binary with
      | Some f => with_decoder DeltaByteArray (fill_array (mapped_next f byte_array_next) definitions offset count) d output
      | None => (Err wrong_storage, (dec, output))
      end
    | RleBool d => with_decoder RleBool (rle_bool_read definitions offset count) d output
    | ByteStreamSplit4 d => with_decoder ByteStreamSplit4 (split_read definitions offset count) d output
    | ByteStreamSplit8 d => with_decoder ByteStreamSplit8 (split_read definitions offset count) d output
    end.

(** ** The page reader *)

Record ColumnDescriptor := mkDescr { primitive_type : P; max_def_level : Z; max_rep_level : Z }.

Definition physical_type (descr : ColumnDescriptor) : PhysicalType := physical_type_of (primitive_type descr).

Record ScanState := mkState {
  remaining_page_values : nat;
  definition_levels : option RleBitPackedDecoder;
  repetition_levels : option RleBitPackedDecoder;
  page_decoder : option PageDecoder;
  dictionary : Array V DT
}.

(** The chunk is a [DbVec], whose capacity can exceed its length; of the
    decompressed page, the bytes that are not taken yet. *)
Record PageReader := mkReader {
  descr : ColumnDescriptor;
  chunk_offset : nat;
  chunk : list Z;
  chunk_capacity : nat;
  decompressed_page : list Z;
  codec : option Codec;
  state : ScanState
}.

(** [PageReader::try_new] *)
Definition reader_try_new (dt : DT) (d : ColumnDescriptor) : PageReader :=
  mkReader d 0 [] 0 [] None (mkState 0 None None None (new_array fresh dt 0)).

(** Assignments to fields. *)
Definition set_offset (n : nat) : M PageReader unit := fun s =>
  (Ok tt, mkReader (descr s) n (chunk s) (chunk_capacity s) (decompressed_page s) (codec s) (state s)).

Definition set_page (page : list Z) : M PageReader unit := fun s =>
  (Ok tt, mkReader (descr s) (chunk_offset s) (chunk s) (chunk_capacity s) page (codec s) (state s)).

Definition set_state (st : ScanState) : M PageReader unit := fun s =>
  (Ok tt, mkReader (descr s) (chunk_offset s) (chunk s) (chunk_capacity s) (decompressed_page s) (codec s) st).

Definition modify_state (f : ScanState -> ScanState) : M PageReader unit := s ← get; set_state (f (state s)).

Definition with_remaining (n : nat) (st : ScanState) : ScanState :=
  mkState n (definition_levels st) (repetition_levels st) (page_decoder st) (dictionary st).
Definition with_definitions (d : option RleBitPackedDecoder) (st : ScanState) : ScanState :=
  mkState (remaining_page_values st) d (repetition_levels st) (page_decoder st) (dictionary st).
Definition with_repetitions (d : option RleBitPackedDecoder) (st : ScanState) : ScanState :=
  mkState (remaining_page_values st) (definition_levels st) d (page_decoder st) (dictionary st).
Definition with_page_decoder (d : PageDecoder) (st : ScanState) : ScanState :=
  mkState (remaining_page_values st) (definition_levels st) (repetition_levels st) (Some d) (dictionary st).
Definition with_dictionary (d : Array V DT) (st : ScanState) : ScanState :=
  mkState (remaining_page_values st) (definition_levels st) (repetition_levels st) (page_decoder st) d.

(** [OwnedReadBuffer]: [reset_and_resize] leaves bytes that are not initialised,
    zeros here; a size from a negative number cannot be allocated. *)
Definition reset_and_resize (size : Z) : M PageReader unit :=
  if 2 ^ 63 <=? as_usize size then fail "Failed to allocate" else set_page (replicate (Z.to_nat size) 0).

Definition skip_page (n : Z) : M PageReader unit :=
  s ← get;
  if Z.of_nat (length (decompressed_page s)) <? n then fail "Attempted to skip more bytes than remaining"
  else set_page (drop (Z.to_nat n) (decompressed_page s)).

Definition take_next (n : Z) : M PageReader ReadCursor :=
  s ← get; _ ← skip_page n; mret (take (Z.to_nat n) (decompressed_page s)).

Definition take_remaining : M PageReader ReadCursor :=
  s ← get; _ ← set_page []; mret (decompressed_page s).

(** [PageReader::chunk_slice], and the same code in the other two functions. *)
Definition chunk_slice (size : Z) : M PageReader (list Z) :=
  s ← get;
  if 2 ^ 64 <=? Z.of_nat (chunk_offset s) + as_usize size then lift (Panic "attempt to add with overflow")
  else if Z.of_nat (length (chunk s)) <? Z.of_nat (chunk_offset s) + as_usize size then
    fail "chunk buffer not large enough to read from"
  else mret (take (Z.to_nat size) (drop (chunk_offset s) (chunk s))).

Definition advance_chunk (n : nat) : M PageReader unit := s ← get; set_offset (chunk_offset s + n).

(** [copy_from_slice] *)
Definition copy_from_slice (dest src : list Z) : res (list Z) :=
  if (length dest =? length src)%nat then Ok src else Panic "source slice length does not match destination slice length".

(** The bytes of a page of version 1 or of a dictionary. *)
Definition load_page (m : PageMetadata) : M PageReader unit :=
  _ ← reset_and_resize (uncompressed_page_size m);
  src ← chunk_slice (compressed_page_size m);
  _ ← advance_chunk (length src);
  s ← get;
  match codec s with
  | Some decompress => dest ← lift (decompress src (decompressed_page s)); set_page dest
  | None => dest ← lift (copy_from_slice (decompressed_page s) src); set_page dest
  end.

Definition prepare_dictionary (m : PageMetadata) (h : DictionaryPageHeader) : M PageReader unit :=
  _ ← load_page m;
  buffer ← take_remaining;
  s ← get;
  let '(r, dict) := prepare_with_values (Z.to_nat (dict_num_values h)) buffer (dictionary (state s)) in
  _ ← modify_state (with_dictionary dict);
  lift r.

(** The decoder of levels of at most [max] over some bytes. *)
Definition level_decoder (max : Z) (c : ReadCursor) : M PageReader RleBitPackedDecoder :=
  lift (RleBitPackedDecoder_new c (num_required_bits (max mod 2 ^ 64))).

(** [get_level_decoder] of version 1: the length is in the page. *)
Definition level_decoder_v1 (max : Z) : M PageReader RleBitPackedDecoder :=
  c ← take_next 4;
  len ← lift (read_next_unchecked i32_t c).1;
  levels ← take_next (as_usize len);
  level_decoder max levels.

(** [init_page_decoder] *)
Definition set_decoder (d : PageDecoder) : M PageReader unit := modify_state (with_page_decoder d).

Definition init_page_decoder (encoding : Encoding) : M PageReader unit :=
  s ← get;
  let ty := physical_type (descr s) in
  match encoding with
  | PLAIN => c ← take_remaining; set_decoder (PlainPage (mkPlain c vr_default))
  | PLAIN_DICTIONARY | RLE_DICTIONARY =>
    c ← take_remaining;
    let '(w, c) := read_next_unchecked u8_t c in
    w ← lift w;
    rle ← lift (RleBitPackedDecoder_new c w);
    set_decoder (DictionaryPage rle)
  | RLE =>
    if decide (ty <> BOOLEAN) then fail "RLE only valid for BOOL"
    else
      c ← take_remaining;
      let '(len, c) := read_next_unchecked u32_t c in
      _ ← lift len;
      rle ← lift (RleBitPackedDecoder_new c 1);
      set_decoder (RleBool rle)
  | DELTA_BINARY_PACKED =>
    match ty with
    | INT32 => c ← take_remaining; d ← lift (delta_try_new i32_t c); set_decoder (DeltaBinaryPackedI32 d)
    | INT64 => c ← take_remaining; d ← lift (delta_try_new i64_t c); set_decoder (DeltaBinaryPackedI64 d)
    | _ => fail "Unsupported physical type for delta binary packed encoding"
    end
  | DELTA_LENGTH_BYTE_ARRAY =>
    if decide (ty <> BYTE_ARRAY) then fail "DELTA_LENGTH_BYTE_ARRAY only valid for BYTE_ARRAY"
    else c ← take_remaining; d ← lift (length_try_new c true); set_decoder (DeltaLengthByteArray d)
  | DELTA_BYTE_ARRAY =>
    if decide (ty <> BYTE_ARRAY /\ ty <> FIXED_LEN_BYTE_ARRAY) then
      fail "DELTA_BYTE_ARRAY only valid for BYTE_ARRAY or FIXED_LEN_BYTE_ARRAY"
    else c ← take_remaining; d ← lift (byte_array_try_new c true); set_decoder (DeltaByteArray d)
  | BYTE_STREAM_SPLIT =>
    c ← take_remaining;
    match ty with
    | INT32 | FLOAT => d ← lift (split_try_new 4 c); set_decoder (ByteStreamSplit4 d)
    | INT64 | DOUBLE => d ← lift (split_try_new 8 c); set_decoder (ByteStreamSplit8 d)
    | _ => fail "BYTE_STREAM_SPLIT only valid for INT32, INT64, FLOAT, DOUBLE"
    end
  | BIT_PACKED => fail "Unsupported encoding"
  end.

(** [prepare_data_page] *)
Definition prepare_data_page (m : PageMetadata) (h : DataPageHeader) : M PageReader unit :=
  _ ← load_page m;
  _ ← modify_state (with_remaining (Z.to_nat (v1_num_values h)));
  s ← get;
  _ ← (if 0 <? max_rep_level (descr s) then
         if decide (v1_rep_level_encoding h <> RLE) then fail "RLE encoding required for repetition levels"
         else d ← level_decoder_v1 (max_rep_level (descr s)); modify_state (with_repetitions (Some d))
       else modify_state (with_repetitions None));
  _ ← (if 0 <? max_def_level (descr s) then
         if decide (v1_def_level_encoding h <> RLE) then fail "RLE encoding required for definition levels"
         else d ← level_decoder_v1 (max_def_level (descr s)); modify_state (with_definitions (Some d))
       else modify_state (with_definitions None));
  init_page_decoder (v1_encoding h).

(** The bytes of a page of version 2: the levels are never compressed, and the
    header's flag is not looked at. *)
Definition load_page_v2 (m : PageMetadata) (h : DataPageHeaderV2) : M PageReader unit :=
  _ ← reset_and_resize (uncompressed_page_size m);
  s ← get;
  let dest := decompressed_page s in
  match codec s with
  | None =>
    src ← chunk_slice (compressed_page_size m);
    dest ← lift (copy_from_slice dest src);
    _ ← set_page dest;
    advance_chunk (length src)
  | Some decompress =>
    let levels_len := v2_rep_levels_byte_len h + v2_def_levels_byte_len h in
    _ ← lift (rust_assert (levels_len <? 2 ^ 32) "attempt to add with overflow");
    _ ← lift (rust_assert (levels_len <=? Z.of_nat (length dest)) "range end index out of range");
    levels_src ← chunk_slice levels_len;
    _ ← set_page (levels_src ++ drop (Z.to_nat levels_len) dest);
    _ ← advance_chunk (Z.to_nat levels_len);
    _ ← lift (rust_assert (levels_len <=? as_usize (compressed_page_size m)) "attempt to subtract with overflow");
    page_src ← chunk_slice (as_usize (compressed_page_size m) - levels_len);
    _ ← advance_chunk (length page_src);
    if (0 <? length page_src)%nat then
      page ← lift (decompress page_src (drop (Z.to_nat levels_len) dest));
      set_page (levels_src ++ page)
    else mret tt
  end.

(** The levels of version 2: their length is in the header, and bytes of levels
    that the column does not have are skipped. *)
Definition levels_v2 (max len : Z) : M PageReader (option RleBitPackedDecoder) :=
  if 0 <? max then c ← take_next len; d ← level_decoder max c; mret (Some d)
  else _ ← (if 0 <? len then skip_page len else mret tt); mret None.

(** [prepare_data_page_v2] *)
Definition prepare_data_page_v2 (m : PageMetadata) (h : DataPageHeaderV2) : M PageReader unit :=
  _ ← load_page_v2 m h;
  _ ← modify_state (with_remaining (Z.to_nat (v2_num_values h)));
  s ← get;
  reps ← levels_v2 (max_rep_level (descr s)) (v2_rep_levels_byte_len h);
  _ ← modify_state (with_repetitions reps);
  defs ← levels_v2 (max_def_level (descr s)) (v2_def_levels_byte_len h);
  _ ← modify_state (with_definitions defs);
  init_page_decoder (v2_encoding h).

(** [prepare_next]; the end of the chunk is judged by its capacity. *)
Definition prepare_next : M PageReader unit :=
  s ← get;
  if (chunk_capacity s <=? chunk_offset s)%nat then fail "Reached end of page chunk, expected more"
  else
    _ ← lift (rust_assert (chunk_offset s <=? length (chunk s))%nat "range start index out of range");
    '(header, n) ← lift (read_header (drop (chunk_offset s) (chunk s)));
    _ ← set_offset (chunk_offset s + n);
    header ← lift (try_from_format from_thrift header (physical_type (descr s)));
    match page_type header with
    | DataPage h => prepare_data_page (metadata header) h
    | DataPageV2 h => prepare_data_page_v2 (metadata header) h
    | Dictionary h => prepare_dictionary (metadata header) h
    end.

(** [prepare_scan_unit], and [prepare_for_chunk] with the chunk that is read into
    the buffer afterwards. *)
Definition prepare_scan_unit (d : ColumnDescriptor) : M PageReader unit := fun s =>
  if decide (primitive_type d <> primitive_type (descr s)) then
    (Err "Primitive types don't match, cannot update this column value reader.", s)
  else (Ok tt, mkReader d (chunk_offset s) (chunk s) (chunk_capacity s) (decompressed_page s) (codec s) (state s)).

Definition prepare_for_chunk (c : option Codec) (bytes : list Z) : M PageReader unit := fun s =>
  (Ok tt, mkReader (descr s) 0 bytes (Nat.max (chunk_capacity s) (length bytes)) (decompressed_page s) c (state s)).

(** ** The column reader *)

(** [read_levels] into slices of [count] levels, as far as there are decoders. *)
Definition read_level (levels : ScanState -> option RleBitPackedDecoder) (set : option RleBitPackedDecoder -> ScanState -> ScanState)
    (count : nat) : M PageReader (list Z) :=
  s ← get;
  match levels (state s) with
  | Some d =>
    let '(r, d') := ParquetRle.read i16_t count d in
    _ ← modify_state (set (Some d')); lift r
  | None => mret []
  end.

Definition read_levels (count : nat) : M PageReader (list Z) :=
  defs ← read_level definition_levels with_definitions count;
  _ ← read_level repetition_levels with_repetitions count;
  mret defs.

(** One round of the loop of [ValueColumnReader::read] with values in the page:
    the number of rows. *)
Definition read_rows (offset want : nat) : M (PageReader * Array V DT) nat := fun '(s, output) =>
  let count := Nat.min want (remaining_page_values (state s)) in
  let '(r, s) := read_levels count s in
  match r with
  | Ok levels =>
    let definitions :=
      match definition_levels (state s) with
      | Some _ => HasDefinitions levels (max_def_level (descr s))
      | None => NoDefinitions
      end in
    match page_decoder (state s) with
    | None => (Err "Missing page decoder", (s, output))
    | Some dec =>
      let '(r, (dec', output')) := decoder_read (dictionary (state s)) definitions offset count (dec, output) in
      let left := match r with Ok _ => (remaining_page_values (state s) - count)%nat | _ => remaining_page_values (state s) end in
      (_ ← r; Ok count, ((modify_state (fun st => with_remaining left (with_page_decoder dec' st)) s).2, output'))
    end
  | Err e => (Err e, (s, output))
  | Panic w => (Panic w, (s, output))
  end.

(** The loop of [ValueColumnReader::read]. *)
Fixpoint column_loop (fuel offset want : nat) : M (PageReader * Array V DT) unit :=
  match fuel with
  | O => lift (Panic "out of fuel")
  | S fuel' =>
    if (want =? 0)%nat then mret tt
    else
      s ← get;
      if (remaining_page_values (state s.1) =? 0)%nat then
        _ ← on_fst prepare_next; column_loop fuel' offset want
      else
        n ← read_rows offset want; column_loop fuel' (offset + n) (want - n)
  end.

(** [ValueColumnReader::read]; a round takes a row, or a page of at least a byte of
    header. *)
Definition column_read (count : nat) : M (PageReader * Array V DT) unit := fun '(s, output) =>
  column_loop (S (count + (length (chunk s) - chunk_offset s))) 0 count (s, output).

End Pages.
