(* ===== verification/PagesCorrect.v ===== *)
(** * A column is read back from its pages

    What a page decoder stands for ([supplies_page]), that a read of it fills rows
    with these values, that the column reader goes through the pages of a chunk in
    order whatever the sizes of its reads. *)
From S2P Require Import Prelude Arrays ArrayData ParquetBits BitStreams ParquetRle RleCorrect ParquetValues ValuesCorrect ParquetDelta ParquetByteArrays ByteArraysCorrect ParquetPages.
Open Scope Z_scope.

(** ** Definition levels and slots *)

(** The slots of levels, none above the largest one. *)
Definition slots_of (max : Z) (levels : list Z) : list bool := (fun l => l <? max) <$> levels.

Lemma null_slots_levels levels max : null_slots (HasDefinitions levels max) (length levels) = Ok (slots_of max levels).
Proof. simpl. by rewrite Nat.eqb_refl. Qed.

(** The definitions of a read and its slots. *)
Inductive defined : Definitions -> list bool -> Prop :=
| defined_levels levels max : Forall (fun l => l <= max) levels -> defined (HasDefinitions levels max) (slots_of max levels)
| defined_none n : defined NoDefinitions (replicate n false).

Lemma defined_null_slots definitions slots : defined definitions slots -> null_slots definitions (length slots) = Ok slots.
Proof.
  destruct 1 as [levels max _|n]; [|simpl; by rewrite length_replicate]. rewrite <- (null_slots_levels levels max).
  unfold slots_of. by rewrite length_fmap.
Qed.

Lemma defined_read_count definitions slots : defined definitions slots -> read_count definitions (length slots) = Ok (non_null slots).
Proof.
  destruct 1 as [levels max Hle|n]; simpl; [|by rewrite length_replicate, non_null_replicate].
  unfold slots_of. rewrite length_fmap, Nat.eqb_refl. cbn [mbind res_bind rust_assert]. f_equal.
  induction Hle as [|l levels Hl _ IH]; [done|]. cbn [fmap list_fmap non_null].
  destruct (Z.ltb_spec l max) as [H|H].
  - rewrite filter_cons_False by lia. done.
  - rewrite filter_cons_True by lia. cbn [length]. by rewrite IH.
Qed.

(** ** A read *)

(** What a read of [vs] into the slots does to a decoder and an array. *)
Definition reads_rows {D V DT} (m : M (D * Array V DT) unit) (Q : D -> Prop) (offset : nat) (slots : list bool) (vs : list V)
    (d : D) (a : Array V DT) : Prop :=
  exists d' a', m (d, a) = (Ok tt, (d', a')) /\ Q d'
    /\ array_wf a' /\ (exists vals, data a' = Leaf Unique vals) /\ logical_len (data a') = logical_len (data a)
    /\ datatype a' = datatype a
    /\ rows a' = list_inserts offset (place slots vs) (rows a)
    /\ (forall j, (offset + length slots <= j)%nat -> valid_list (validity a') !! j = valid_list (validity a) !! j).

(** A read into the slots of [vs], whatever the definitions. *)
Definition decodes_rows {D V DT} (read : Definitions -> nat -> nat -> M (D * Array V DT) unit) (P : D -> list V -> Prop) : Prop :=
  forall definitions slots offset d vs more (a : Array V DT), defined definitions slots -> P d (vs ++ more) -> length vs = non_null slots ->
    fillable offset (length slots) a ->
    reads_rows (read definitions offset (length slots)) (fun d' => P d' more) offset slots vs d a.

Lemma rows_logical_len {V DT} (a a' : Array V DT) offset xs : rows a' = list_inserts offset xs (rows a) ->
  logical_len (data a') = logical_len (data a).
Proof. intros E. rewrite <- !length_rows, E. apply length_inserts. Qed.

(** Reads that fill an array from what is supplied. *)
Lemma fill_decodes {D V DT} (next : M D (option V)) P `{!Supplies next P} :
  decodes_rows (fun definitions offset count => @fill_array D V DT next definitions offset count) P.
Proof.
  intros definitions slots offset d vs more a Hdef HP Hl Hf.
  destruct (fill_array_spec next P definitions slots offset (length slots) d vs more a (defined_null_slots _ _ Hdef) HP Hl Hf)
    as (d' & a' & E & HP' & Hf' & Hdt & Hr & Hv).
  exists d', a'. destruct Hf' as [Hwf Hleaf _ _]. split_and!; try done; [by eapply rows_logical_len|].
  intros j Hj. apply Hv. by right.
Qed.

#[export] Instance mapped_supplies {D U V} (f : U -> V) (next : M D (option U)) P `{!Supplies next P} :
  Supplies (mapped_next f next) (fun d vs => exists us, vs = f <$> us /\ P d us).
Proof.
  intros d v vs (us & E & HP). destruct us as [|u us]; [done|]. injection E as -> ->.
  destruct (supplies d u us HP) as (d' & En & HP'). exists d'. unfold mapped_next, mbind, M_bind. rewrite En.
  split; [done|]. by exists us.
Qed.

Lemma plain_decodes {R V DT} `{ReaderLaws R V P} : decodes_rows (fun definitions offset count => @read_plain R V DT _ definitions offset count) (plain_supplies P).
Proof.
  intros definitions slots offset d vs more a Hdef HP Hl Hf.
  destruct (read_plain_spec definitions slots offset (length slots) d vs more a (defined_null_slots _ _ Hdef) HP Hl Hf)
    as (d' & a' & E & HP' & Hf' & Hdt & Hr & Hv).
  exists d', a'. destruct Hf' as [Hwf Hleaf _ _]. split_and!; try done; [by eapply rows_logical_len|].
  intros j Hj. apply Hv. by right.
Qed.

(** ** Dictionaries *)

(** A prepared dictionary: the values, then a NULL. *)
Record dictionary_of {V DT} (dict : Array V DT) (values : list V) : Prop := {
  dict_wf : array_wf dict;
  dict_rows : rows dict = (Some <$> values) ++ [None]
}.

Lemma dictionary_len {V DT} (dict : Array V DT) values : dictionary_of dict values -> logical_len (data dict) = S (length values).
Proof. intros [_ Hr]. rewrite <- length_rows, Hr, length_app, length_fmap. simpl. lia. Qed.

(** The indices to come. *)
Definition index_supplies {V} (values : list V) (d : RleBitPackedDecoder) (vs : list V) : Prop :=
  dec_ok d /\ exists idxs more, decodes d (idxs ++ more) /\ Forall2 (fun i v => 0 <= i < 2 ^ 32 /\ values !! Z.to_nat i = Some v) idxs vs.

(** Rows written one after the other. *)
Lemma write_rows_inserts {V} (src : list (option V)) mapping offset dest : mapping.*2 = seq offset (length mapping) ->
  write_rows src mapping dest = list_inserts offset ((fun p => src !!! p.1) <$> mapping) dest.
Proof.
  revert offset dest. induction mapping as [|[s w] mapping IH]; intros offset dest E; [done|].
  cbn [fmap list_fmap length seq] in E. injection E as -> E. change (write_rows src ((s, offset) :: mapping) dest) with (write_rows src mapping (<[offset := src !!! s]> dest)).
  rewrite (IH (S offset)) by done. cbn [fmap list_fmap list_inserts fst]. symmetry. apply list_insert_inserts_lt. lia.
Qed.

(** The mapping of a read of indices. *)
Lemma dictionary_mapping_spec {V} (values : list V) max levels idxs vs offset :
  Forall (fun l => l <= max) levels -> Forall2 (fun i v => 0 <= i < 2 ^ 32 /\ values !! Z.to_nat i = Some v) idxs vs ->
  length idxs = non_null (slots_of max levels) ->
  exists mapping, dictionary_mapping (length values) max levels idxs offset = Ok mapping
    /\ mapping.*2 = seq offset (length levels) /\ Forall (fun p => (p.1 < S (length values))%nat) mapping
    /\ (fun p => ((Some <$> values) ++ [None]) !!! p.1) <$> mapping = place (slots_of max levels) vs.
Proof.
  intros Hle. revert idxs vs offset. induction Hle as [|l levels Hl _ IH]; intros idxs vs offset Hi Hlen.
  { destruct idxs; [|done]. inversion Hi. by exists []. }
  cbn [slots_of fmap list_fmap non_null dictionary_mapping] in *. fold (slots_of max levels) in *.
  destruct (Z.ltb_spec l max) as [H|H].
  - rewrite (proj2 (Z.eqb_neq l max)) by lia. destruct (IH idxs vs (S offset) Hi Hlen) as (m & E & E2 & Hlt & Hp).
    rewrite E. eexists. split; [done|]. cbn [fmap list_fmap length seq place fst snd]. split_and!; [by rewrite E2|constructor; [simpl; lia|done]|].
    rewrite Hp. f_equal. rewrite list_lookup_total_alt, lookup_app_r, length_fmap, Nat.sub_diag by (rewrite length_fmap; lia). done.
  - rewrite (proj2 (Z.eqb_eq l max)) by lia. destruct Hi as [|i v idxs vs [Hi32 Hv] Hi]; [done|]. injection Hlen as Hlen.
    destruct (IH idxs vs (S offset) Hi Hlen) as (m & E & E2 & Hlt & Hp). rewrite E.
    pose proof (lookup_lt_Some _ _ _ Hv) as Hil. eexists. split; [done|]. cbn [fmap list_fmap length seq place fst snd].
    split_and!; [by rewrite E2|constructor; [simpl; lia|done]|].
    rewrite Hp. f_equal. rewrite list_lookup_total_alt, lookup_app_l by (rewrite length_fmap; lia). by rewrite list_lookup_fmap, Hv.
Qed.

(** Values of the type come out of a run-length decoder as they are. *)
Lemma rle_read t d vs more : (0 < int_bytes t)%nat -> dec_ok d -> decodes d (vs ++ more) -> Forall (fun v => from_u64 t v = v) vs ->
  exists d', ParquetRle.read t (length vs) d = (Ok vs, d') /\ dec_ok d' /\ decodes d' more.
Proof.
  intros Ht Hok Hd Hv. destruct (read_loop_spec t (S (length vs + length (dec_buffer d))) d vs more Ht Hok Hd ltac:(lia)) as (d' & E & H).
  exists d'. split; [|done]. unfold ParquetRle.read. rewrite E. do 2 f_equal.
  clear -Hv. induction Hv as [|v vs Hv _ IH]; [done|]. cbn [fmap list_fmap]. by rewrite Hv, IH.
Qed.

Lemma mapping_without_levels null sel offset :
  dictionary_mapping null 0 (replicate (length sel) 0) sel offset = Ok (imap (fun i src => (Z.to_nat src, (i + offset)%nat)) sel).
Proof.
  revert offset. induction sel as [|src sel IH]; intros offset; [done|]. cbn [length replicate dictionary_mapping Z.eqb].
  rewrite IH. cbn [mbind res_bind]. rewrite imap_cons. f_equal. f_equal. apply imap_ext. intros i x _. cbn. f_equal. lia.
Qed.

Lemma slots_without_levels n : slots_of 0 (replicate n 0) = replicate n false.
Proof. unfold slots_of. by rewrite fmap_replicate. Qed.

(** Rows that are not written keep their validity. *)
Lemma copy_loop_validity {V} (f : ExecutionFormat V) av sv mapping buf vl buf' vl' :
  validity_wf vl -> Forall (fun p => (p.2 < Validity.len vl)%nat) mapping ->
  copy_loop f av sv mapping buf vl = Ok (buf', vl') -> forall j, j ∉ mapping.*2 -> valid_list vl' !! j = valid_list vl !! j.
Proof.
  revert buf vl. induction mapping as [|[s w] mapping IH]; intros buf vl Hwf Hlt E j Hj; [by injection E as _ ->|].
  apply Forall_cons in Hlt as [Hw Hlt]. rewrite fmap_cons, not_elem_of_cons in Hj. destruct Hj as [Hne Hj]. cbn [copy_loop fst snd] in *.
  unfold mbind, res_bind in E. destruct (if av then Ok true else Validity.is_valid sv s) as [[]| |]; [| |done..].
  - destruct (read_format f s); [|done..]. destruct (put_val buf w _); [|done..]. by eapply IH.
  - destruct (set_invalid_spec vl w Hwf Hw) as (vl1 & E1 & Hwf1 & Hl1). rewrite E1 in E.
    rewrite (IH buf vl1 Hwf1); [|by rewrite <- length_valid_list, Hl1, length_insert, length_valid_list|exact E|done].
    by rewrite Hl1, list_lookup_insert_ne.
Qed.

Lemma copy_rows_validity {V DT} (src dest dest' : Array V DT) mapping : array_wf dest ->
  Forall (fun p => (p.2 < logical_len (data dest))%nat) mapping -> copy_rows src mapping dest = Ok dest' ->
  forall j, j ∉ mapping.*2 -> valid_list (validity dest') !! j = valid_list (validity dest) !! j.
Proof.
  intros Hwf Hlt E. unfold copy_rows, mbind, res_bind in E. destruct (downcast_mut (data dest)) as [buf| |]; [|done..].
  destruct (downcast_execution_format (data src)) as [f| |]; [|done..]. destruct (Validity.all_valid (validity src)) as [av| |]; [|done..].
  destruct (copy_loop f av (validity src) mapping buf (validity dest)) as [[buf' vl']| |] eqn:El; [|done..]. injection E as <-. cbn.
  eapply copy_loop_validity; [apply Hwf|by rewrite (wf_len _ Hwf)|exact El].
Qed.

(** Copying rows of a dictionary. *)
Lemma copy_dictionary {V DT} (dict : Array V DT) values mapping offset slots (vs : list V) a :
  dictionary_of dict values -> mapping.*2 = seq offset (length slots) -> Forall (fun p => (p.1 < S (length values))%nat) mapping ->
  (fun p => ((Some <$> values) ++ [None]) !!! p.1) <$> mapping = place slots vs -> fillable offset (length slots) a ->
  exists a', copy_rows dict mapping a = Ok a' /\ array_wf a' /\ (exists vals, data a' = Leaf Unique vals)
    /\ logical_len (data a') = logical_len (data a) /\ datatype a' = datatype a
    /\ rows a' = list_inserts offset (place slots vs) (rows a)
    /\ (forall j, (offset + length slots <= j)%nat -> valid_list (validity a') !! j = valid_list (validity a) !! j).
Proof.
  intros Hd E2 Hlt Hp [Hwf [vals Hleaf] Hroom Hvalid]. pose proof (dictionary_len _ _ Hd) as Hdl.
  assert (Hml : length mapping = length slots) by (rewrite <- (length_fmap snd mapping), E2; apply length_seq).
  assert (Hin2 : Forall (fun p : nat * nat => (offset <= p.2 < offset + length slots)%nat) mapping).
  { apply Forall_forall. intros p Hin. apply elem_of_seq. rewrite <- E2. by apply (list_elem_of_fmap_2 snd). }
  destruct (copy_rows_spec dict mapping a vals (dict_wf _ _ Hd) Hwf Hleaf) as (a' & vals' & E & Hwf' & Hleaf' & Hl & Hdt & Hr).
  - rewrite Hleaf in Hroom. simpl in Hroom. rewrite Forall_forall in *. intros p Hin. specialize (Hlt p Hin). specialize (Hin2 p Hin). cbn in *.
    split_and!; [lia|lia|apply Hvalid; lia].
  - rewrite E2. apply NoDup_seq.
  - exists a'. split_and!; try done; [by eexists|rewrite Hleaf, Hleaf'; simpl; lia| |].
    + rewrite Hr, (dict_rows _ _ Hd), (write_rows_inserts _ _ offset) by (by rewrite Hml). by rewrite Hp.
    + intros j Hj. apply (copy_rows_validity dict a a' mapping Hwf); [|done|].
      * eapply List.Forall_impl, Hin2. cbn. lia.
      * rewrite E2, elem_of_seq. lia.
Qed.

Lemma dictionary_decodes {V DT} (dict : Array V DT) values : dictionary_of dict values ->
  decodes_rows (dictionary_read dict) (index_supplies values).
Proof.
  intros Hdict definitions slots offset d vs more a Hdef (Hok & idxs & rest & Hd & Hi) Hl Hf.
  apply Forall2_app_inv_r in Hi as (idxs1 & idxs2 & Hi1 & Hi2 & ->). rewrite <- app_assoc in Hd.
  pose proof (Forall2_length _ _ _ Hi1) as Hl1.
  assert (Hu : Forall (fun v => from_u64 u32_t v = v) idxs1).
  { clear -Hi1. induction Hi1 as [|i v il vs [Hi _] _ IH]; constructor; [|done]. apply Z.mod_small. done. }
  destruct (rle_read u32_t d idxs1 (idxs2 ++ rest) ltac:(simpl; lia) Hok Hd Hu) as (d' & E & Hok' & Hd').
  unfold dictionary_read. pose proof (dictionary_len _ _ Hdict) as Hdl.
  assert (Hmap : exists mapping, match definitions with
      | HasDefinitions levels max => null_idx ← (if (logical_len (data dict) =? 0)%nat then Panic "attempt to subtract with overflow"
          else Ok (logical_len (data dict) - 1)%nat); dictionary_mapping null_idx max levels idxs1 offset
      | NoDefinitions => Ok (imap (fun i src => (Z.to_nat src, (i + offset)%nat)) idxs1)
      end = Ok mapping /\ mapping.*2 = seq offset (length slots) /\ Forall (fun p => (p.1 < S (length values))%nat) mapping
      /\ (fun p => ((Some <$> values) ++ [None]) !!! p.1) <$> mapping = place slots vs).
  { destruct Hdef as [levels max Hle|n].
    - rewrite Hdl. cbn [Nat.eqb mbind res_bind Nat.sub]. rewrite Nat.sub_0_r. replace (length (slots_of max levels)) with (length levels) by (symmetry; apply length_fmap).
      apply dictionary_mapping_spec; [done|done|lia].
    - rewrite non_null_replicate in Hl. rewrite length_replicate, <- (mapping_without_levels (length values)), <- slots_without_levels.
      destruct (dictionary_mapping_spec values 0 (replicate n 0) idxs1 vs offset) as (m & Em & Hm);
        [by apply Forall_replicate|done|rewrite slots_without_levels, non_null_replicate; lia|].
      rewrite length_replicate in Hm. exists m. rewrite Hl1, Hl. done. }
  destruct Hmap as (mapping & Em & E2 & Hlt & Hp).
  destruct (copy_dictionary dict values mapping offset slots vs a Hdict E2 Hlt Hp Hf) as (a' & Ec & Hwf & Hleaf & Hll & Hdt & Hr & Hv).
  exists d', a'. pose proof (defined_read_count definitions slots Hdef) as Hrc. rewrite Hrc, <- Hl, <- Hl1, E, Em. cbn [mbind res_bind]. rewrite Ec.
  split_and!; try done. split; [done|]. by exists idxs2, rest.
Qed.

(** ** Booleans in runs *)

Lemma mapped_laws {R U V} (f : U -> V) `{VR : ValueReader R U} P `{!ReaderLaws R U P} :
  @ReaderLaws R V (mapped_reader f) (fun s vs => exists us, vs = f <$> us /\ P s us).
Proof.
  split.
  - apply (mapped_supplies f vr_read_next_unchecked P).
  - intros s vs (us & _ & HP). by eapply reader_no_error.
Qed.

Definition bool_supplies {V} (f : bool -> V) (d : RleBitPackedDecoder) (vs : list V) : Prop :=
  dec_ok d /\ exists bits more, vs = f <$> bits /\ decodes d ((Z.b2z <$> bits) ++ more).

Lemma from_ints_bools bits : from_ints u8_t (Z.b2z <$> bits) = concat ((fun b => [Z.b2z b]) <$> bits).
Proof. unfold from_ints. induction bits as [|[] bits IH]; [done|..]; cbn; f_equal; done. Qed.

Lemma rle_bool_decodes {V DT} `{ST : Storage V} f : as_bool = Some f ->
  decodes_rows (@rle_bool_read V DT ST) (bool_supplies f).
Proof.
  intros Hf definitions slots offset d vs more a Hdef (Hok & bits & rest & Ebits & Hd) Hl Hfill.
  symmetry in Ebits. apply fmap_app_inv in Ebits as (bits1 & bits2 & -> & -> & ->). rewrite length_fmap in Hl. rewrite fmap_app, <- app_assoc in Hd.
  destruct (rle_read u8_t d (Z.b2z <$> bits1) ((Z.b2z <$> bits2) ++ rest) ltac:(simpl; lia) Hok Hd) as (d' & E & Hok' & Hd').
  { apply Forall_fmap, Forall_true. by intros []. }
  rewrite length_fmap in E. unfold reads_rows, rle_bool_read. rewrite (defined_read_count _ _ Hdef), <- Hl, E, Hf.
  assert (HP : exists us, (f <$> bits1) ++ [] = f <$> us
    /\ byte_values (fun b => [Z.b2z b]) (fun _ => True) (mkReadState mkRealSizedBool (from_ints u8_t (Z.b2z <$> bits1)) None) us).
  { exists bits1. split; [apply app_nil_r|]. constructor; [done|by apply Forall_true|]. exists []. by rewrite app_nil_r, <- from_ints_bools. }
  destruct (@read_plain_spec RealSizedBoolReader V DT (mapped_reader f) _ (mapped_laws f _) definitions slots offset (length slots)
    (mkPlain (from_ints u8_t (Z.b2z <$> bits1)) mkRealSizedBool) (f <$> bits1) [] a (defined_null_slots _ _ Hdef) HP) as (p' & a' & Er & _ & Hf' & Hdt & Hr & Hv);
    [by rewrite length_fmap|done|].
  exists d', a'. rewrite Er. destruct Hf' as [Hwf Hleaf _ _]. split_and!; try done; [|by eapply rows_logical_len|intros j Hj; apply Hv; by right].
  split; [done|]. by exists bits2, rest.
Qed.

(** ** Bytes of values in streams *)

(** Every stream has its byte of the values, which a reader reads back. *)
Definition stream_supplies {R V} `{ValueReader R V} (P : ReadState R -> list V -> Prop) (k : nat) (streams : list ReadCursor) (vs : list V) : Prop :=
  exists (enc : V -> list Z) (ok : V -> Prop) rests,
    (forall us, Forall ok us -> P (mkReadState vr_default (concat (enc <$> us)) None) us)
    /\ Forall ok vs /\ Forall (fun v => length (enc v) = k) vs /\ length rests = k
    /\ streams = zip_with app ((fun j => (fun v => enc v !!! j) <$> vs) <$> seq 0 k) rests.

Lemma read_streams_spec n (cols rests : list (list Z)) : Forall (fun c => length c = n) cols -> length cols = length rests ->
  read_streams n (zip_with app cols rests) = Ok (cols, rests).
Proof.
  intros Hc. revert rests. induction Hc as [|c cols Hc _ IH]; intros [|r rests] Hl; [done..|]. cbn [zip_with read_streams].
  unfold read_bytes_unchecked. rewrite length_app, (proj2 (Nat.ltb_ge _ _)) by lia. cbn [mbind res_bind].
  rewrite IH by (by injection Hl). cbn [mbind res_bind]. by rewrite <- Hc, take_app_length, drop_app_length.
Qed.

Lemma interleave_columns {V} (enc : V -> list Z) k vs : Forall (fun v => length (enc v) = k) vs ->
  interleave (length vs) ((fun j => (fun v => enc v !!! j) <$> vs) <$> seq 0 k) = concat (enc <$> vs).
Proof.
  intros Hk. unfold interleave. f_equal. apply list_eq. intros i. rewrite !list_lookup_fmap.
  destruct (decide (i < length vs)%nat) as [Hi|Hi].
  - rewrite lookup_seq_lt by done. destruct (lookup_lt_is_Some_2 vs i Hi) as [v Hv]. rewrite Hv. cbn. f_equal.
    apply (Forall_lookup_1 _ _ _ _ Hk) in Hv as Hvl. cbn in Hvl. apply list_eq. intros j. rewrite !list_lookup_fmap.
    destruct (decide (j < k)%nat) as [Hj|Hj].
    + rewrite lookup_seq_lt by done. cbn. rewrite list_lookup_total_alt, list_lookup_fmap, Hv. cbn. rewrite <- list_lookup_lookup_total_lt by lia. done.
    + rewrite lookup_seq_ge by lia. cbn. symmetry. apply lookup_ge_None_2. lia.
  - rewrite lookup_seq_ge by lia. cbn. symmetry. rewrite lookup_ge_None_2 by lia. done.
Qed.

Lemma split_decodes {R V DT} `{VR : ValueReader R V} P `{!ReaderLaws R V P} k : decodes_rows (@split_read R V DT VR) (stream_supplies P k).
Proof.
  intros definitions slots offset d vs more a Hdef (enc & ok & rests & HP & Hok & Hk & Hr & ->) Hl Hf.
  apply Forall_app in Hok as [Hok1 Hok2]. pose proof Hk as [Hk1 Hk2]%Forall_app.
  set (cols := (fun j => (fun v => enc v !!! j) <$> vs) <$> seq 0 k).
  set (rests' := zip_with app ((fun j => (fun v => enc v !!! j) <$> more) <$> seq 0 k) rests).
  assert (Es : zip_with app ((fun j => (fun v => enc v !!! j) <$> vs ++ more) <$> seq 0 k) rests = zip_with app cols rests').
  { unfold cols, rests'. clear -Hr. revert rests Hr. generalize 0%nat as o. induction k as [|k IH]; intros o [|r rests] Hr; [done..|].
    cbn [seq fmap list_fmap zip_with]. rewrite IH by (by injection Hr). by rewrite fmap_app, <- app_assoc. }
  assert (Hrl : length cols = length rests').
  { unfold cols, rests'. rewrite length_zip_with, !length_fmap, length_seq. lia. }
  unfold reads_rows, split_read. rewrite (defined_read_count _ _ Hdef), <- Hl, Es. cbn [mbind res_bind].
  rewrite read_streams_spec; [|unfold cols; apply Forall_fmap, Forall_true; intros j; apply length_fmap|done]. cbn [mbind res_bind].
  unfold cols. rewrite interleave_columns by done. unfold read_bytes_plain.
  destruct (read_plain_spec definitions slots offset (length slots) (mkPlain (concat (enc <$> vs)) vr_default) vs [] a (defined_null_slots _ _ Hdef))
    as (p' & a' & Er & _ & Hf' & Hdt & Hrw & Hv); [rewrite app_nil_r; by apply HP|done|done|].
  exists rests', a'. rewrite Er. destruct Hf' as [Hwf Hleaf _ _].
  split_and!; try done; [|by eapply rows_logical_len|intros j Hj; apply Hv; by right].
  exists enc, ok, rests. by split_and!.
Qed.

(** ** Page decoders *)

Section PageDecoders.
Context {R V DT : Type} `{VR : ValueReader R V} `{ST : Storage V} (P : ReadState R -> list V -> Prop) `{!ReaderLaws R V P}.

(** The values a page decoder stands for, with the dictionary of the column. *)
Inductive supplies_page (dict : Array V DT) : PageDecoder (R := R) -> list V -> Prop :=
| supplies_plain d vs : plain_supplies P d vs -> supplies_page dict (PlainPage d) vs
| supplies_dictionary values d vs : dictionary_of dict values -> index_supplies values d vs -> supplies_page dict (DictionaryPage d) vs
| supplies_length f d us : as_binary = Some f -> length_supplies d us -> supplies_page dict (DeltaLengthByteArray d) (f <$> us)
| supplies_byte_array f d us : as_binary = Some f -> byte_array_supplies d us -> supplies_page dict (DeltaByteArray d) (f <$> us)
| supplies_bool f d vs : as_bool = Some f -> bool_supplies f d vs -> supplies_page dict (RleBool d) vs
| supplies_split4 d vs : stream_supplies P 4 d vs -> supplies_page dict (ByteStreamSplit4 d) vs
| supplies_split8 d vs : stream_supplies P 8 d vs -> supplies_page dict (ByteStreamSplit8 d) vs.

(** A read of one kind of decoder is a read of the page. *)
Lemma with_decoder_reads {D} (mk : D -> PageDecoder (R := R)) (m : M (D * Array V DT) unit) (Q : D -> Prop) (Q' : PageDecoder -> Prop) offset slots vs d a :
  reads_rows m Q offset slots vs d a -> (forall d', Q d' -> Q' (mk d')) ->
  exists dec' a', with_decoder mk m d a = (Ok tt, (dec', a')) /\ Q' dec'
    /\ array_wf a' /\ (exists vals, data a' = Leaf Unique vals) /\ logical_len (data a') = logical_len (data a)
    /\ datatype a' = datatype a /\ rows a' = list_inserts offset (place slots vs) (rows a)
    /\ (forall j, (offset + length slots <= j)%nat -> valid_list (validity a') !! j = valid_list (validity a) !! j).
Proof.
  intros (d' & a' & E & HQ & Hrest) Hmk. exists (mk d'), a'. unfold with_decoder. rewrite E. split; [done|]. split; [by apply Hmk|done].
Qed.

Lemma page_decodes dict : decodes_rows (decoder_read dict) (supplies_page dict).
Proof.
  intros definitions slots offset dec vs more a Hdef Hs Hl Hf. unfold reads_rows.
  inversion Hs as [d ws Hd E1 E2|values d ws Hdict Hd E1 E2|f d us Hb Hd E1 E2|f d us Hb Hd E1 E2|f d ws Hb Hd E1 E2|d ws Hd E1 E2|d ws Hd E1 E2]; subst; cbn [decoder_read].
  - eapply with_decoder_reads; [by apply plain_decodes|]. by constructor.
  - eapply with_decoder_reads; [by eapply dictionary_decodes|]. intros d' Hd'. by eapply supplies_dictionary.
  - rewrite Hb. eapply with_decoder_reads; [eapply (fill_decodes (mapped_next f length_next) _ definitions slots offset d vs more); try done; by exists us|].
    intros d' (us' & -> & Hd'). by constructor.
  - rewrite Hb. eapply with_decoder_reads; [eapply (fill_decodes (mapped_next f byte_array_next) _ definitions slots offset d vs more); try done; by exists us|].
    intros d' (us' & -> & Hd'). by constructor.
  - eapply with_decoder_reads; [by eapply rle_bool_decodes|]. intros d' Hd'. by eapply supplies_bool.
  - eapply with_decoder_reads; [by apply (split_decodes P 4)|]. by constructor.
  - eapply with_decoder_reads; [by apply (split_decodes P 8)|]. by constructor.
Qed.

End PageDecoders.

(** ** The column reader *)

Section Column.
Context {R V DT PT : Type} `{VR : ValueReader R V} `{ST : Storage V} `{EqDecision PT}.
Context (P : ReadState R -> list V -> Prop) `{!ReaderLaws R V P}.
Context (fresh : DT -> nat -> list V) (physical_type_of : PT -> PhysicalType).
Context {St : Type} (from_thrift : PhysicalType -> option St -> res unit) (read_header : list Z -> res (FormatPageHeader St * nat)).

Local Abbreviation Reader := (PageReader (R := R) (V := V) (DT := DT) (P := PT)).
Local Abbreviation next_page := (prepare_next (R := R) (V := V) (DT := DT) fresh physical_type_of from_thrift read_header).

(** The page of a reader has the slots and values that are left of it. *)
Record page_levels (s : Reader) (slots : list bool) : Prop := {
  levels_defs : match definition_levels (state s) with
    | Some d => dec_ok d /\ exists levels more, decodes d (levels ++ more) /\ slots = slots_of (max_def_level (descr s)) levels
        /\ Forall (fun l => l <= max_def_level (descr s)) levels /\ Forall (fun l => from_u64 i16_t l = l) levels
    | None => slots = replicate (length slots) false
    end;
  levels_reps : match repetition_levels (state s) with
    | Some d => dec_ok d /\ exists reps more, decodes d (reps ++ more) /\ length reps = length slots /\ Forall (fun l => from_u64 i16_t l = l) reps
    | None => True
    end
}.

Record holds_page (s : Reader) (slots : list bool) (vs : list V) : Prop := {
  hp_remaining : remaining_page_values (state s) = length slots;
  hp_values : length vs = non_null slots;
  hp_page : slots <> [] -> page_levels s slots /\ exists dec, page_decoder (state s) = Some dec /\ supplies_page P (dictionary (state s)) dec vs
}.

(** A chunk that is being read. *)
Context (D : ColumnDescriptor (P := PT)) (C : list Z) (K : option Codec).

Record in_chunk (s : Reader) : Prop := {
  in_descr : descr s = D;
  in_bytes : chunk s = C;
  in_capacity : (length C <= chunk_capacity s)%nat;
  in_codec : codec s = K
}.

(** The rows from an offset of the chunk on: page after page, each of which the
    reader sets up wherever it comes from. *)
Inductive column_rows : nat -> Array V DT -> list (option V) -> Prop :=
| column_end off dict : column_rows off dict []
| column_page off dict off' dict' slots vs rows :
    (forall s, in_chunk s -> chunk_offset s = off -> remaining_page_values (state s) = 0%nat -> dictionary (state s) = dict ->
       exists s', next_page s = (Ok tt, s') /\ in_chunk s' /\ chunk_offset s' = off' /\ dictionary (state s') = dict' /\ holds_page s' slots vs) ->
    (off < off' <= length C)%nat -> column_rows off' dict' rows -> column_rows off dict (place slots vs ++ rows).

(** The rows ahead of a reader. *)
Definition rows_ahead (s : Reader) (xs : list (option V)) : Prop :=
  in_chunk s /\ exists slots vs rest, holds_page s slots vs /\ column_rows (chunk_offset s) (dictionary (state s)) rest /\ xs = place slots vs ++ rest.

Lemma slots_of_app max a b : slots_of max (a ++ b) = slots_of max a ++ slots_of max b.
Proof. apply fmap_app. Qed.

(** What a read of levels leaves as it is. *)
Record same_page (s s' : Reader) : Prop := {
  same_descr : descr s' = descr s;
  same_offset : chunk_offset s' = chunk_offset s;
  same_chunk : chunk s' = chunk s;
  same_capacity : chunk_capacity s' = chunk_capacity s;
  same_codec : codec s' = codec s;
  same_remaining : remaining_page_values (state s') = remaining_page_values (state s);
  same_decoder : page_decoder (state s') = page_decoder (state s);
  same_dictionary : dictionary (state s') = dictionary (state s)
}.

Lemma slots_of_split max levels slots more : slots ++ more = slots_of max levels ->
  exists l1 l2, levels = l1 ++ l2 /\ slots = slots_of max l1 /\ more = slots_of max l2.
Proof.
  intros E. exists (take (length slots) levels), (drop (length slots) levels). rewrite take_drop. unfold slots_of in *.
  by rewrite fmap_take, fmap_drop, <- E, take_app_length, drop_app_length.
Qed.

(** The levels of a read. *)
Lemma read_levels_spec s slots more : page_levels s (slots ++ more) ->
  exists levels s' definitions, read_levels (length slots) s = (Ok levels, s') /\ page_levels s' more /\ defined definitions slots
    /\ definitions = match definition_levels (state s') with Some _ => HasDefinitions levels (max_def_level (descr s')) | None => NoDefinitions end
    /\ same_page s s'.
Proof.
  intros [Hd Hr]. destruct s as [ds off ck cap pg cd [rem dd rr dec dict]]. cbn [state definition_levels repetition_levels descr] in *.
  assert (Hreps : exists rr', (forall dd, exists x, read_level repetition_levels with_repetitions (length slots) (mkReader ds off ck cap pg cd (mkState rem dd rr dec dict))
      = (Ok x, mkReader ds off ck cap pg cd (mkState rem dd rr' dec dict)))
    /\ match rr' with
       | Some d => dec_ok d /\ exists reps rest, decodes d (reps ++ rest) /\ length reps = length more /\ Forall (fun l => from_u64 i16_t l = l) reps
       | None => True
       end).
  { destruct rr as [r|]; [|by exists None; split; [|done]; intros; exists []]. destruct Hr as (Hok & reps & rest & Hdec & Hlen & Hi).
    rewrite length_app in Hlen. rewrite <- (take_drop (length slots) reps), <- app_assoc in Hdec. rewrite <- (take_drop (length slots) reps) in Hi.
    apply Forall_app in Hi as [Hi1 Hi2]. destruct (rle_read i16_t r _ _ ltac:(simpl; lia) Hok Hdec Hi1) as (r' & E & Hok' & Hdec').
    rewrite length_take, Nat.min_l in E by lia. exists (Some r'). split.
    - intros dd'. eexists. unfold read_level, mbind, M_bind, get. cbn [state repetition_levels]. by rewrite E.
    - split; [done|]. exists (drop (length slots) reps), rest. split_and!; [done|rewrite length_drop; lia|done]. }
  destruct Hreps as (rr' & Hrr & Hrr'). destruct dd as [d|].
  - destruct Hd as (Hok & levels & rest & Hdec & Es & Hmax & Hi). destruct (slots_of_split _ _ _ _ Es) as (l1 & l2 & -> & -> & ->).
    apply Forall_app in Hmax as [Hm1 Hm2]. apply Forall_app in Hi as [Hi1 Hi2]. rewrite <- app_assoc in Hdec.
    destruct (rle_read i16_t d l1 _ ltac:(simpl; lia) Hok Hdec Hi1) as (d' & E & Hok' & Hdec').
    assert (Hl1 : length (slots_of (max_def_level ds) l1) = length l1) by apply length_fmap. rewrite Hl1 in *.
    destruct (Hrr (Some d')) as [x Hx]. exists l1, (mkReader ds off ck cap pg cd (mkState rem (Some d') rr' dec dict)), (HasDefinitions l1 (max_def_level ds)).
    split_and!; [|constructor; [|done]|by constructor|done|done].
    + assert (E1 : read_level definition_levels with_definitions (length l1) (mkReader ds off ck cap pg cd (mkState rem (Some d) rr dec dict))
        = (Ok l1, mkReader ds off ck cap pg cd (mkState rem (Some d') rr dec dict))).
      { unfold read_level, mbind, M_bind, get. cbn [state definition_levels]. by rewrite E. }
      unfold read_levels. unfold mbind at 1, M_bind at 1. rewrite E1. unfold mbind at 1, M_bind at 1. by rewrite Hx.
    + cbn [state definition_levels descr]. split; [done|]. by exists l2, rest.
  - destruct (Hrr None) as [x Hx]. rewrite length_app, replicate_add in Hd. apply app_inj_1 in Hd as [Hs Hm]; [|by rewrite length_replicate].
    exists [], (mkReader ds off ck cap pg cd (mkState rem None rr' dec dict)), NoDefinitions.
    split_and!; [|by constructor|rewrite Hs; constructor|done|done].
    assert (E1 : read_level definition_levels with_definitions (length slots) (mkReader ds off ck cap pg cd (mkState rem None rr dec dict))
      = (Ok [], mkReader ds off ck cap pg cd (mkState rem None rr dec dict))) by done.
    unfold read_levels. unfold mbind at 1, M_bind at 1. rewrite E1. unfold mbind at 1, M_bind at 1. by rewrite Hx.
Qed.

(** What is left of an array that is filled. *)
Record filled (offset n : nat) (xs : list (option V)) (a a' : Array V DT) : Prop := {
  filled_wf : array_wf a';
  filled_leaf : exists vals, data a' = Leaf Unique vals;
  filled_len : logical_len (data a') = logical_len (data a);
  filled_dt : datatype a' = datatype a;
  filled_rows : rows a' = list_inserts offset xs (rows a);
  filled_valid : forall j, (offset + n <= j)%nat -> valid_list (validity a') !! j = valid_list (validity a) !! j
}.

Lemma filled_fillable offset n m xs a a' : filled offset n xs a a' -> fillable offset (n + m) a -> fillable (offset + n) m a'.
Proof.
  intros [Hwf Hleaf Hlen _ _ Hv] [_ _ Hroom Hvalid]. constructor; [done|done|lia|]. intros i Hi. rewrite Hv by lia. apply Hvalid. lia.
Qed.

Lemma fillable_le offset n m (a : Array V DT) : (n <= m)%nat -> fillable offset m a -> fillable offset n a.
Proof. intros Hle [Hwf Hleaf Hroom Hv]. constructor; [done|done|lia|]. intros i Hi. apply Hv. lia. Qed.

(** One round with rows in the page. *)
Lemma read_rows_spec s slots more vs ws offset want a : holds_page s (slots ++ more) (vs ++ ws) -> length vs = non_null slots ->
  slots <> [] -> length slots = Nat.min want (length (slots ++ more)) -> fillable offset (length slots) a ->
  exists s' a', read_rows offset want (s, a) = (Ok (length slots), (s', a')) /\ holds_page s' more ws
    /\ (in_chunk s -> in_chunk s') /\ chunk_offset s' = chunk_offset s /\ dictionary (state s') = dictionary (state s)
    /\ filled offset (length slots) (place slots vs) a a'.
Proof.
  intros [Hrem Hvals Hpage] Hl Hne Hn Hf. destruct Hpage as (Hlev & dec & Hdec & Hsup); [by destruct slots|].
  destruct (read_levels_spec s slots more Hlev) as (levels & s1 & definitions & E & Hlev1 & Hdef & Edef & Hsame).
  destruct (page_decodes P (dictionary (state s)) definitions slots offset dec vs ws a Hdef Hsup Hl Hf)
    as (dec' & a' & Er & Hsup' & Hwf & Hleaf & Hll & Hdt & Hrows & Hv).
  destruct Hsame as [S1 S2 S3 S4 S5 S6 S7 S8]. rewrite length_app in Hrem. rewrite !length_app, non_null_app in Hvals.
  eexists _, a'. unfold read_rows. rewrite Hrem, <- length_app, <- Hn, E, <- Edef, S7, Hdec, S8, Er. cbn [mbind res_bind].
  split; [done|]. destruct s1 as [ds off ck cap pg cd [rem dd rr dc dict]]. cbn in *. subst. split_and!; try done.
  - constructor; unfold modify_state, mbind, M_bind, get, set_state; cbn; [lia|lia|]. intros _. split; [|by exists dec'].
    destruct Hlev1 as [H1 H2]. by constructor.
  - intros [I1 I2 I3 I4]. by constructor.
Qed.

(** The loop of a read. *)
Lemma column_loop_spec fuel offset want s xs more a : rows_ahead s (xs ++ more) -> length xs = want -> fillable offset want a ->
  (want + (length C - chunk_offset s) < fuel)%nat ->
  exists s' a', column_loop fresh physical_type_of from_thrift read_header fuel offset want (s, a) = (Ok tt, (s', a')) /\ rows_ahead s' more
    /\ filled offset want xs a a'.
Proof.
  revert offset want s xs a. induction fuel as [|fuel IH]; intros offset want s xs a Hs Hl Hf Hfuel; [lia|]. cbn [column_loop].
  destruct (Nat.eqb_spec want 0) as [->|Hw].
  { destruct xs; [|done]. exists s, a. split_and!; try done. destruct Hf as [Hwf Hleaf Hroom _]. by constructor. }
  unfold mbind at 1, M_bind at 1, get at 1. cbn [fst].
  destruct Hs as (Hin & slots & vs & rest & Hpage & Hcol & E). pose proof (hp_remaining _ _ _ Hpage) as Hrem.
  destruct (Nat.eqb_spec (remaining_page_values (state s)) 0) as [Hz|Hz].
  - assert (slots = []) as -> by (apply nil_length_inv; lia). cbn [place app] in E. subst rest.
    remember (chunk_offset s) as off eqn:Eoff. remember (dictionary (state s)) as dict eqn:Ed.
    inversion Hcol as [? ? E1 E2 E3|? ? off' dict' slots' vs' rows' Hnext Hoff Hcol' E1 E2 E3].
    { destruct xs; simpl in *; [lia|done]. }
    subst off0 dict0. destruct (Hnext s Hin (eq_sym Eoff) Hz (eq_sym Ed)) as (s1 & En & Hin1 & Ho1 & Hd1 & Hp1).
    destruct (IH offset want s1 xs a) as (s2 & a2 & E2 & Hs2 & Hfl); [|done|done|lia|].
    + split; [done|]. exists slots', vs', rows'. rewrite Ho1, Hd1. split_and!; [done|done|congruence].
    + exists s2, a2. unfold mbind, M_bind, on_fst. by rewrite En.
  - assert (Hslots : slots <> []) by (destruct slots; [simpl in Hrem; lia|done]).
    set (n := Nat.min want (length slots)).
    assert (Hn : length (take n slots) = n) by (rewrite length_take; lia).
    set (k := non_null (take n slots)).
    assert (Hk : length (take k vs) = k).
    { pose proof (hp_values _ _ _ Hpage) as Hv. rewrite <- (take_drop n slots), non_null_app in Hv. rewrite length_take. lia. }
    rewrite <- (take_drop n slots), <- (take_drop k vs) in Hpage.
    destruct (read_rows_spec s (take n slots) (drop n slots) (take k vs) (drop k vs) offset want a Hpage Hk) as (s1 & a1 & E1 & Hp1 & Hin1 & Ho1 & Hd1 & Hfl1).
    { intros E0. rewrite E0 in Hn. simpl in Hn. destruct slots; [done|simpl in *; lia]. }
    { by rewrite take_drop, Hn. }
    { rewrite Hn. by apply (fillable_le _ n want); [lia|]. }
    rewrite Hn in *.
    assert (Ex : xs = place (take n slots) (take k vs) ++ drop n xs).
    { rewrite <- (take_drop n xs) at 1. f_equal. rewrite <- (take_app_le xs more) by lia. rewrite E.
      rewrite <- (take_drop n slots) at 1. rewrite <- (take_drop k vs) at 1. rewrite place_app, <- app_assoc by done.
      rewrite take_app_le, take_ge by (rewrite length_place; lia). done. }
    destruct (IH (offset + n)%nat (want - n)%nat s1 (drop n xs) a1) as (s2 & a2 & E2 & Hs2 & Hfl2).
    + split; [by apply Hin1|]. exists (drop n slots), (drop k vs), rest. rewrite Ho1, Hd1. split_and!; [done|done|].
      rewrite <- (take_drop n slots), <- (take_drop k vs), place_app, <- app_assoc in E by done.
      rewrite Ex, <- app_assoc in E. by apply app_inv_head in E.
    + rewrite length_drop. lia.
    + apply (filled_fillable offset n (want - n) _ a a1 Hfl1). by replace (n + (want - n))%nat with want by lia.
    + rewrite Ho1. lia.
    + exists s2, a2. unfold mbind, M_bind. rewrite E1, E2. split_and!; [done|done|].
      destruct Hfl1 as [W1 L1 N1 T1 R1 V1]. destruct Hfl2 as [W2 L2 N2 T2 R2 V2]. constructor; [done|done|congruence|congruence| |].
      * rewrite R2, R1. rewrite Ex at 2. rewrite list_inserts_app_l, length_place, Hn by lia. by rewrite Nat.add_comm.
      * intros j Hj. rewrite V2, V1 by lia. done.
Qed.

(** Reads into one array after the other, each with its number of rows. *)
Fixpoint read_batches (jobs : list (nat * Array V DT)) : M Reader (list (Array V DT)) := fun s =>
  match jobs with
  | [] => (Ok [], s)
  | (count, a) :: jobs' =>
    let '(r, (s, a)) := column_read fresh physical_type_of from_thrift read_header count (s, a) in
    match r with
    | Ok _ => (rest ← read_batches jobs'; mret (a :: rest)) s
    | Err e => (Err e, s)
    | Panic w => (Panic w, s)
    end
  end.

Lemma column_read_spec count s xs more a : rows_ahead s (xs ++ more) -> length xs = count -> fillable 0 count a ->
  exists s' a', column_read fresh physical_type_of from_thrift read_header count (s, a) = (Ok tt, (s', a')) /\ rows_ahead s' more
    /\ filled 0 count xs a a'.
Proof.
  intros Hs Hl Hf. unfold column_read. apply (column_loop_spec _ 0 count s xs more a Hs Hl Hf).
  destruct Hs as [[_ -> _ _] _]. lia.
Qed.

Lemma read_batches_spec jobs xss s more : rows_ahead s (concat xss ++ more) -> Forall2 (fun j xs => length xs = j.1 /\ fillable 0 j.1 j.2) jobs xss ->
  exists s' out, read_batches jobs s = (Ok out, s') /\ rows_ahead s' more
    /\ Forall2 (fun a xs => array_wf a /\ take (length xs) (rows a) = xs) out xss.
Proof.
  intros Hs Hj. revert s Hs. induction Hj as [|[count a] xs jobs xss [Hl Hf] _ IH]; intros s Hs; [exists s, []; by split_and!|].
  cbn [fst snd concat] in *. rewrite <- app_assoc in Hs. destruct (column_read_spec count s xs _ a Hs Hl Hf) as (s1 & a1 & E & Hs1 & Hfl).
  destruct (IH s1 Hs1) as (s2 & out & E2 & Hs2 & Hout). exists s2, (a1 :: out). cbn [read_batches]. rewrite E. unfold mbind, M_bind. rewrite E2.
  split_and!; [done|done|]. constructor; [|done]. split; [apply Hfl|]. rewrite (filled_rows _ _ _ _ _ Hfl).
  destruct Hf as [_ _ Hroom _]. rewrite <- length_rows in Hroom.
  rewrite <- (take_drop count (rows a)), list_inserts_0_r by (rewrite length_take; lia). by rewrite take_app_length.
Qed.

End Column.
