(* ===== verification/ColumnChunks.v ===== *)
(** * Column chunks

    The layout of a column chunk: a header and a body for every page, the body of a
    data page with its levels and its values in one of the encodings.  The page
    reader sets up every page of such a chunk, so the column reader gives the rows
    of the chunk in order, whatever the sizes of its reads. *)
From S2P Require Import Prelude Arrays ArrayData ParquetBits BitStreams ParquetRle RleCorrect ParquetDelta ParquetValues ValuesCorrect ParquetByteArrays ByteArraysCorrect ParquetPages PagesCorrect.
Open Scope Z_scope.

(** A step that succeeds. *)
Lemma M_bind_step {S A B} (m : M S A) (f : A -> M S B) s a s' : m s = (Ok a, s') -> (m ≫= f) s = f a s'.
Proof. intros E. unfold mbind, M_bind. by rewrite E. Qed.

(** ** Levels *)

(** Levels from 0 to [max] in the hybrid encoding, and what pads the last group. *)
Definition level_bytes (max : Z) (levels bs : list Z) : Prop :=
  exists more, hybrid (num_required_bits max) bs (levels ++ more).

(** With the length in front, as version 1 has it; without levels, nothing. *)
Definition levels_v1_bytes (max : Z) (levels bs : list Z) : Prop :=
  if 0 <? max then exists es, bs = to_le 4 (Z.of_nat (length es)) ++ es /\ Z.of_nat (length es) < 2 ^ 31 /\ level_bytes max levels es
  else bs = [].

(** In version 2 the length is in the header; bytes without levels are skipped. *)
Definition levels_v2_bytes (max : Z) (levels bs : list Z) : Prop :=
  0 < max -> level_bytes max levels bs.

Definition level_range (max : Z) (levels : list Z) : Prop := Forall (fun l => 0 <= l <= max) levels.

Lemma level_width max : 0 <= max < 2 ^ 15 -> max mod 2 ^ 64 = max /\ 0 <= num_required_bits max <= 64.
Proof.
  intros H. split; [apply Z.mod_small; lia|]. unfold num_required_bits. destruct (Z.eqb_spec max 0) as [|Hn]; [lia|].
  assert (Z.log2 max < 15) by (apply Z.log2_lt_pow2; lia). pose proof (Z.log2_nonneg max). lia.
Qed.

Lemma level_range_i16 max levels : max < 2 ^ 15 -> level_range max levels -> Forall (fun l => from_u64 i16_t l = l) levels.
Proof.
  intros Hm Hr. eapply List.Forall_impl, Hr. cbn beta. intros l Hl. apply (signed_id 16); lia.
Qed.

(** The rows of a page: which are NULL follows from the definition levels. *)
Record page_rows (max_def max_rep : Z) (defs reps : list Z) (slots : list bool) : Prop := {
  pr_defs : if 0 <? max_def then slots = slots_of max_def defs /\ level_range max_def defs else slots = replicate (length slots) false;
  pr_reps : 0 < max_rep -> length reps = length slots /\ level_range max_rep reps
}.

(** ** A page of the chunk *)

Section Chunk.
Context {R V DT PT : Type} `{VR : ValueReader R V} `{ST : Storage V} `{EqDecision PT}.
Context (P : ReadState R -> list V -> Prop) `{!ReaderLaws R V P}.
Context (fresh : DT -> nat -> list V) (physical_type_of : PT -> PhysicalType).
Context {St : Type} (from_thrift : PhysicalType -> option St -> res unit) (read_header : list Z -> res (FormatPageHeader St * nat)).
Context (D : ColumnDescriptor (P := PT)) (C : list Z) (K : option Codec).
Context (def_range : 0 <= max_def_level D < 2 ^ 15) (rep_range : 0 <= max_rep_level D < 2 ^ 15).
Context (chunk_size : Z.of_nat (length C) < 2 ^ 63).
Context (fresh_capacity : forall dt capacity, length (fresh dt capacity) = capacity).

Local Abbreviation Reader := (PageReader (R := R) (V := V) (DT := DT) (P := PT)).
(** A reader in the chunk. *)
Local Abbreviation rd off cap pg st := (mkReader D off C cap pg K st : Reader).

(** The bytes of a page as they are stored, and what they decompress to. *)
Definition stored_as (stored body : list Z) : Prop :=
  match K with
  | None => stored = body
  | Some decompress => decompress stored (replicate (length body) 0) = Ok body
  end.

(** The bytes at an offset of the chunk. *)
Definition bytes_at (off : nat) (bs : list Z) : Prop := exists rest, drop off C = bs ++ rest.

Lemma bytes_at_fits off bs : bytes_at off bs -> bs <> [] -> (off + length bs <= length C)%nat.
Proof.
  intros [rest E] Hne. apply (f_equal length) in E. rewrite length_drop, length_app in E. destruct bs; [done|]. simpl in *. lia.
Qed.

Lemma chunk_slice_spec off cap pg k (st : ScanState) bs : bytes_at off bs -> (off <= length C)%nat ->
  chunk_slice (Z.of_nat (length bs)) (mkReader D off C cap pg k st : Reader) = (Ok bs, mkReader D off C cap pg k st).
Proof.
  intros [rest E] Ho. pose proof (f_equal length E) as El. rewrite length_drop, length_app in El.
  unfold chunk_slice, mbind, M_bind, get. cbn [chunk_offset chunk]. rewrite as_usize_nat by lia.
  rewrite (proj2 (Z.leb_gt _ _)), (proj2 (Z.ltb_ge _ _)) by lia. by rewrite Nat2Z.id, E, take_app_length.
Qed.

Lemma load_page_spec off cap pg st stored body : bytes_at off stored -> (off <= length C)%nat -> stored_as stored body ->
  Z.of_nat (length body) < 2 ^ 31 ->
  load_page {| uncompressed_page_size := Z.of_nat (length body); compressed_page_size := Z.of_nat (length stored) |} (rd off cap pg st)
  = (Ok tt, rd (off + length stored) cap body st).
Proof.
  intros Hb Ho Hs Hl. unfold load_page, reset_and_resize. cbn [uncompressed_page_size compressed_page_size].
  rewrite as_usize_nat, (proj2 (Z.leb_gt _ _)), Nat2Z.id by lia.
  erewrite M_bind_step by reflexivity. cbn [descr chunk_offset chunk chunk_capacity codec state].
  erewrite M_bind_step by (by apply chunk_slice_spec). erewrite M_bind_step by reflexivity.
  erewrite M_bind_step by reflexivity. unfold stored_as in Hs. cbn [codec descr chunk_offset chunk chunk_capacity state decompressed_page].
  destruct K as [f|].
  - rewrite Hs. done.
  - subst. unfold copy_from_slice. rewrite length_replicate, Nat.eqb_refl. done.
Qed.

(** ** Levels *)

Lemma level_decoder_spec max bs levels (s : Reader) : 0 <= max < 2 ^ 15 -> level_bytes max levels bs ->
  exists d more, level_decoder max bs s = (Ok d, s) /\ dec_ok d /\ decodes d (levels ++ more).
Proof.
  intros Hm [more Hy]. destruct (level_width max Hm) as [E Hw]. destruct (new_decodes _ _ _ Hw Hy) as (d & Ed & Hok & Hd).
  exists d, more. unfold level_decoder, lift. by rewrite E, Ed.
Qed.

Lemma take_next_spec bs rest off cap st : Z.of_nat (length bs) < 2 ^ 64 ->
  take_next (Z.of_nat (length bs)) (rd off cap (bs ++ rest) st) = (Ok bs, rd off cap rest st).
Proof.
  intros Hl. unfold take_next. erewrite M_bind_step by reflexivity. unfold skip_page. cbn [decompressed_page].
  erewrite M_bind_step.
  2:{ erewrite M_bind_step by reflexivity. cbn [decompressed_page]. rewrite (proj2 (Z.ltb_ge _ _)) by (rewrite length_app; lia). reflexivity. }
  unfold mret, M_ret. cbn [descr chunk_offset chunk chunk_capacity codec state]. by rewrite Nat2Z.id, take_app_length, drop_app_length.
Qed.

Lemma level_decoder_v1_spec max es levels rest off cap st : 0 <= max < 2 ^ 15 -> Z.of_nat (length es) < 2 ^ 31 -> level_bytes max levels es ->
  exists d more, level_decoder_v1 max (rd off cap (to_le 4 (Z.of_nat (length es)) ++ es ++ rest) st) = (Ok d, rd off cap rest st)
    /\ dec_ok d /\ decodes d (levels ++ more).
Proof.
  intros Hm Hl Hb. destruct (level_decoder_spec max es levels (rd off cap rest st) Hm Hb) as (d & more & E & H). exists d, more. split; [|done].
  unfold level_decoder_v1. erewrite M_bind_step.
  2:{ pose proof (take_next_spec (to_le 4 (Z.of_nat (length es))) (es ++ rest) off cap st) as Ht. rewrite length_to_le in Ht. apply Ht. lia. }
  pose proof (read_int i32_t (Z.of_nat (length es)) [] ltac:(simpl; lia)) as Hr. rewrite app_nil_r in Hr. change (int_bytes i32_t) with 4%nat in Hr. rewrite Hr. cbn [fst].
  assert (E1 : from_u64 i32_t (Z.of_nat (length es)) = Z.of_nat (length es)).
  { apply (signed_id 32); lia. }
  rewrite E1. unfold lift. erewrite M_bind_step by reflexivity. rewrite as_usize_nat by lia.
  erewrite M_bind_step by (apply take_next_spec; lia). done.
Qed.

(** ** Values *)

(** Every stream has its byte of the values. *)
Definition split_bytes (k : nat) (enc : V -> list Z) (vs : list V) : list Z :=
  concat ((fun j => (fun v => enc v !!! j) <$> vs) <$> seq 0 k).

(** The bytes of values in an encoding, after a dictionary page with these values.
    The two delta encodings are those of the crate's own encoders, on strings, and
    without the pages of one value and of whole blocks on which the decoder fails
    ([delta_edges], [byte_array_round_trip]). *)
Inductive value_bytes (dict : option (list V)) : Encoding -> list Z -> list V -> Prop :=
| plain_bytes bs vs : plain_supplies P (mkPlain bs vr_default) vs -> value_bytes dict PLAIN bs vs
| dictionary_bytes enc w bs values idxs more vs : enc = PLAIN_DICTIONARY \/ enc = RLE_DICTIONARY ->
    0 <= w <= 64 -> dict = Some values -> hybrid w bs (idxs ++ more) ->
    Forall2 (fun i v => 0 <= i < 2 ^ 32 /\ values !! Z.to_nat i = Some v) idxs vs -> value_bytes dict enc (w :: bs) vs
| bool_bytes f bs bits more : physical_type physical_type_of D = BOOLEAN -> as_bool = Some f ->
    hybrid 1 bs ((Z.b2z <$> bits) ++ more) -> value_bytes dict RLE (to_le 4 (Z.of_nat (length bs)) ++ bs) (f <$> bits)
| length_bytes f vss bs : physical_type physical_type_of D = BYTE_ARRAY -> as_binary = Some f ->
    writable (concat vss) -> (length (concat vss) <> 1)%nat -> ends_block (length (concat vss)) = false ->
    Forall (fun v => utf8_valid v = true) (concat vss) -> length_encode vss = Ok bs ->
    value_bytes dict DELTA_LENGTH_BYTE_ARRAY bs (f <$> concat vss)
| byte_array_bytes f vss bs : physical_type physical_type_of D = BYTE_ARRAY \/ physical_type physical_type_of D = FIXED_LEN_BYTE_ARRAY ->
    as_binary = Some f -> writable (concat vss) -> (length (concat vss) <> 1)%nat -> ends_block (length (concat vss)) = false ->
    Forall (fun v => utf8_valid v = true) (concat vss) -> byte_array_encode vss = Ok bs ->
    value_bytes dict DELTA_BYTE_ARRAY bs (f <$> concat vss)
| split_bytes_4 enc ok vs : physical_type physical_type_of D = INT32 \/ physical_type physical_type_of D = FLOAT ->
    (forall us, Forall ok us -> P (mkReadState vr_default (concat (enc <$> us)) None) us) -> Forall ok vs ->
    Forall (fun v => length (enc v) = 4%nat) vs -> value_bytes dict BYTE_STREAM_SPLIT (split_bytes 4 enc vs) vs
| split_bytes_8 enc ok vs : physical_type physical_type_of D = INT64 \/ physical_type physical_type_of D = DOUBLE ->
    (forall us, Forall ok us -> P (mkReadState vr_default (concat (enc <$> us)) None) us) -> Forall ok vs ->
    Forall (fun v => length (enc v) = 8%nat) vs -> value_bytes dict BYTE_STREAM_SPLIT (split_bytes 8 enc vs) vs.

(** The array of a dictionary page, if there was one. *)
Definition dict_holds (dict : option (list V)) (a : Array V DT) : Prop :=
  match dict with
  | Some values => dictionary_of a values
  | None => True
  end.

Lemma take_streams_spec k o n (enc : V -> list Z) vs : length vs = n ->
  take_streams k n (concat ((fun j => (fun v => enc v !!! j) <$> vs) <$> seq o k)) = (Ok ((fun j => (fun v => enc v !!! j) <$> vs) <$> seq o k), []).
Proof.
  intros Hn. revert o. induction k as [|k IH]; intros o; [done|]. cbn [take_streams seq fmap list_fmap concat].
  erewrite M_bind_step. 2:{ unfold take_cursor, read_bytes_unchecked. rewrite (proj2 (Nat.ltb_ge _ _)) by (rewrite length_app, length_fmap; lia). reflexivity. }
  rewrite <- Hn, <- (length_fmap (fun v => enc v !!! o) vs), take_app_length, drop_app_length, length_fmap, Hn.
  erewrite M_bind_step by apply IH. done.
Qed.

Lemma length_split_bytes k enc vs : length (split_bytes k enc vs) = (k * length vs)%nat.
Proof.
  unfold split_bytes. generalize 0%nat as o. induction k as [|k IH]; intros o; [done|]. cbn [seq fmap list_fmap concat].
  rewrite length_app, length_fmap, IH. lia.
Qed.

Lemma split_try_new_spec k enc ok vs : (0 < k)%nat ->
  (forall us, Forall ok us -> P (mkReadState vr_default (concat (enc <$> us)) None) us) -> Forall ok vs ->
  Forall (fun v => length (enc v) = k) vs ->
  exists d, split_try_new k (split_bytes k enc vs) = Ok d /\ stream_supplies P k d vs.
Proof.
  intros Hk HP Hok Hl. eexists. split.
  - unfold split_try_new, remaining. rewrite length_split_bytes, Nat.mul_comm, Nat.Div0.mod_mul, Nat.div_mul by lia. cbn [Nat.eqb negb].
    unfold split_bytes. by rewrite take_streams_spec.
  - exists enc, ok, (replicate k []). split_and!; [done|done|done|apply length_replicate|].
    generalize 0%nat as o. clear. induction k as [|k IH]; intros o; [done|]. cbn [seq fmap list_fmap replicate zip_with]. by rewrite <- IH, app_nil_r.
Qed.

Lemma take_remaining_spec pg off cap st : take_remaining (rd off cap pg st) = (Ok pg, rd off cap [] st).
Proof. done. Qed.

Lemma init_page_decoder_spec encoding bs vs off cap n dd rr dec values dict : value_bytes values encoding bs vs -> dict_holds values dict ->
  exists dec', init_page_decoder physical_type_of encoding (rd off cap bs (mkState n dd rr dec dict))
      = (Ok tt, rd off cap [] (mkState n dd rr (Some dec') dict))
    /\ supplies_page P dict dec' vs.
Proof.
  intros Hv Hdict. unfold init_page_decoder. erewrite M_bind_step by reflexivity. cbn [descr].
  destruct Hv as [bs vs HP|enc w bs vals idxs more vs Henc Hw -> Hy Hi|f bs bits more Ht Hf Hy|f vss bs Ht Hf Hw H1 He Hu E
    |f vss bs Ht Hf Hw H1 He Hu E|enc ok vs Ht HP Hok Hl|enc ok vs Ht HP Hok Hl].
  - exists (PlainPage (mkPlain bs vr_default)). erewrite M_bind_step by apply take_remaining_spec. split; [done|]. by constructor.
  - destruct (new_decodes w bs _ Hw Hy) as (d & Ed & Hok & Hdec). exists (DictionaryPage d).
    split; [|apply (supplies_dictionary P dict vals); [done|]; split; [done|]; by exists idxs, more].
    assert (E : forall c, read_next_unchecked u8_t (w :: c) = (Ok w, c)).
    { intros c. change (w :: c) with ([w] ++ c). rewrite read_next_unchecked_le by done. cbn. f_equal. f_equal. rewrite Z.mul_0_r, Z.add_0_r. apply (Z.mod_small w 256). lia. }
    destruct Henc as [-> | ->]; (erewrite M_bind_step by apply take_remaining_spec); rewrite E; (erewrite M_bind_step by reflexivity); rewrite Ed; done.
  - rewrite decide_False by tauto. erewrite M_bind_step by apply take_remaining_spec.
    change 4%nat with (int_bytes u32_t). rewrite read_int by (simpl; lia).
    destruct (new_decodes 1 bs _ ltac:(lia) Hy) as (d & Ed & Hok & Hdec). exists (RleBool d). unfold lift. rewrite Ed. split; [done|].
    apply (supplies_bool P dict f); [done|]. split; [done|]. by exists bits, more.
  - rewrite decide_False by tauto. erewrite M_bind_step by apply take_remaining_spec.
    destruct (length_encode_spec vss true Hw H1 (fun _ => Hu)) as (page & E' & Hp). rewrite He in Hp. destruct Hp as (d & Ed & Hd).
    replace page with bs in * by congruence. exists (DeltaLengthByteArray d). unfold lift. rewrite Ed. split; [done|]. by constructor.
  - rewrite decide_False by tauto. erewrite M_bind_step by apply take_remaining_spec.
    destruct (byte_array_encode_spec vss true Hw H1 (fun _ => Hu)) as (page & E' & Hp). rewrite He in Hp. destruct Hp as (d & Ed & Hd).
    replace page with bs in * by congruence. exists (DeltaByteArray d). unfold lift. rewrite Ed. split; [done|]. by constructor.
  - erewrite M_bind_step by apply take_remaining_spec. destruct (split_try_new_spec 4 enc ok vs ltac:(lia) HP Hok Hl) as (d & Ed & Hd).
    exists (ByteStreamSplit4 d). split; [|by constructor]. destruct Ht as [-> | ->]; unfold lift; by rewrite Ed.
  - erewrite M_bind_step by apply take_remaining_spec. destruct (split_try_new_spec 8 enc ok vs ltac:(lia) HP Hok Hl) as (d & Ed & Hd).
    exists (ByteStreamSplit8 d). split; [|by constructor]. destruct Ht as [-> | ->]; unfold lift; by rewrite Ed.
Qed.

(** ** Data pages *)

(** The decoder of levels that a page is left with. *)
Definition level_result (max : Z) (levels : list Z) (o : option RleBitPackedDecoder) : Prop :=
  if 0 <? max then exists d more, o = Some d /\ dec_ok d /\ decodes d (levels ++ more) else o = None.

Lemma levels_v1_step (set : option RleBitPackedDecoder -> ScanState -> ScanState) max encoding e levels bs rest off cap st :
  0 <= max < 2 ^ 15 -> levels_v1_bytes max levels bs -> (0 < max -> encoding = RLE) ->
  exists o, level_result max levels o
    /\ (if 0 <? max then if decide (encoding <> RLE) then fail e else d ← level_decoder_v1 max; modify_state (set (Some d))
        else modify_state (set None)) (rd off cap (bs ++ rest) st) = (Ok tt, rd off cap rest (set o st)).
Proof.
  intros Hm Hb He. unfold levels_v1_bytes, level_result in *. destruct (Z.ltb_spec 0 max) as [H|H].
  - rewrite He, decide_False by tauto. destruct Hb as (es & -> & Hl & Hb).
    destruct (level_decoder_v1_spec max es levels rest off cap st Hm Hl Hb) as (d & more & E & Hd).
    exists (Some d). split; [by exists d, more|]. rewrite <- app_assoc. by erewrite M_bind_step by exact E.
  - subst. by exists None.
Qed.

Lemma levels_v2_spec max levels bs rest off cap st : 0 <= max < 2 ^ 15 -> levels_v2_bytes max levels bs -> Z.of_nat (length bs) < 2 ^ 32 ->
  exists o, level_result max levels o /\ levels_v2 max (Z.of_nat (length bs)) (rd off cap (bs ++ rest) st) = (Ok o, rd off cap rest st).
Proof.
  intros Hm Hb Hl. unfold levels_v2_bytes, level_result, levels_v2 in *. destruct (Z.ltb_spec 0 max) as [H|H].
  - destruct (level_decoder_spec max bs levels (rd off cap rest st) Hm (Hb H)) as (d & more & E & Hd).
    exists (Some d). split; [by exists d, more|]. erewrite M_bind_step by (apply take_next_spec; lia). by erewrite M_bind_step by exact E.
  - exists None. split; [done|]. destruct (Z.ltb_spec 0 (Z.of_nat (length bs))) as [H0|H0].
    + erewrite M_bind_step; [reflexivity|]. unfold skip_page. erewrite M_bind_step by reflexivity. cbn [decompressed_page].
      rewrite (proj2 (Z.ltb_ge _ _)) by (rewrite length_app; lia). rewrite Nat2Z.id, drop_app_length. done.
    + destruct bs; [done|simpl in H0; lia].
Qed.

(** What the page is left with stands for its rows. *)
Lemma page_levels_intro slots defs reps dd rr off cap pg n dec dict : page_rows (max_def_level D) (max_rep_level D) defs reps slots ->
  level_result (max_def_level D) defs dd -> level_result (max_rep_level D) reps rr ->
  page_levels (rd off cap pg (mkState n dd rr dec dict)) slots.
Proof.
  intros [Hd Hr] Ld Lr. unfold level_result in *. constructor; cbn [state definition_levels repetition_levels descr].
  - destruct (0 <? max_def_level D); [|by subst]. destruct Ld as (d & more & -> & Hok & Hdec). destruct Hd as [-> Hrange]. split; [done|].
    exists defs, more. split_and!; [done|done| |by apply (level_range_i16 (max_def_level D)); [lia|]].
    eapply List.Forall_impl, Hrange. cbn beta. lia.
  - destruct (Z.ltb_spec 0 (max_rep_level D)); [|by subst]. destruct Lr as (d & more & -> & Hok & Hdec). destruct Hr as [Hl Hrange]; [done|].
    split; [done|]. exists reps, more. split_and!; [done|done|]. by apply (level_range_i16 (max_rep_level D)); [lia|].
Qed.

(** What a data page holds: its levels and its values. *)
Record page_body (levels_bytes : Z -> list Z -> list Z -> Prop) (encoding : Encoding) (dict : option (list V)) (slots : list bool) (vs : list V)
    (rbs dbs bs : list Z) : Prop := mk_page_body {
  body_levels : exists defs reps, page_rows (max_def_level D) (max_rep_level D) defs reps slots
    /\ levels_bytes (max_def_level D) defs dbs /\ levels_bytes (max_rep_level D) reps rbs;
  body_values : value_bytes dict encoding bs vs;
  body_count : length vs = non_null slots;
  body_size : Z.of_nat (length (rbs ++ dbs ++ bs)) < 2 ^ 31
}.

Lemma prepare_data_page_spec off cap pg st values h slots vs rbs dbs bs stored : dict_holds values (dictionary st) -> bytes_at off stored -> (off <= length C)%nat ->
  page_body levels_v1_bytes (v1_encoding h) values slots vs rbs dbs bs -> stored_as stored (rbs ++ dbs ++ bs) ->
  v1_num_values h = Z.of_nat (length slots) -> (0 < max_def_level D -> v1_def_level_encoding h = RLE) ->
  (0 < max_rep_level D -> v1_rep_level_encoding h = RLE) ->
  exists st', prepare_data_page physical_type_of {| uncompressed_page_size := Z.of_nat (length (rbs ++ dbs ++ bs)); compressed_page_size := Z.of_nat (length stored) |} h
      (rd off cap pg st) = (Ok tt, rd (off + length stored) cap [] st')
    /\ dictionary st' = dictionary st /\ holds_page P (rd (off + length stored) cap [] st') slots vs.
Proof.
  intros Hdict Hat Ho [(defs & reps & Hrows & Hdb & Hrb) Hv Hc Hsize] Hst Hn Hde Hre. unfold prepare_data_page.
  erewrite M_bind_step by (by apply load_page_spec). erewrite M_bind_step by reflexivity. erewrite M_bind_step by reflexivity.
  cbn [descr chunk_offset chunk chunk_capacity decompressed_page codec state].
  destruct (levels_v1_step with_repetitions _ _ "RLE encoding required for repetition levels" reps rbs (dbs ++ bs) (off + length stored) cap
    (with_remaining (Z.to_nat (v1_num_values h)) st) rep_range Hrb Hre) as (rr & Lr & Er). erewrite M_bind_step by exact Er.
  destruct (levels_v1_step with_definitions _ _ "RLE encoding required for definition levels" defs dbs bs (off + length stored) cap
    (with_repetitions rr (with_remaining (Z.to_nat (v1_num_values h)) st)) def_range Hdb Hde) as (dd & Ld & Ed). erewrite M_bind_step by exact Ed.
  destruct st as [n0 dd0 rr0 dec0 dict]. cbn [with_definitions with_repetitions with_remaining remaining_page_values definition_levels repetition_levels page_decoder dictionary] in *.
  destruct (init_page_decoder_spec _ bs vs (off + length stored) cap (Z.to_nat (v1_num_values h)) dd rr dec0 values dict Hv Hdict) as (dec & E & Hs).
  eexists. split; [exact E|]. split; [done|]. constructor; cbn; [by rewrite Hn, Nat2Z.id|done|].
  intros _. split; [by eapply page_levels_intro|by exists dec].
Qed.

(** In version 2 only the values are compressed, and under a codec the reader
    takes them to be compressed whatever [is_compressed] of the header says. *)
Definition stored_v2 (rbs dbs bs stored : list Z) : Prop :=
  match K with
  | None => stored = rbs ++ dbs ++ bs
  | Some decompress => exists cs, stored = (rbs ++ dbs) ++ cs
      /\ match cs with [] => bs = [] | _ => decompress cs (replicate (length bs) 0) = Ok bs end
  end.

Lemma bytes_at_app off a b : bytes_at off (a ++ b) -> bytes_at off a /\ bytes_at (off + length a) b.
Proof.
  intros [rest E]. split; [exists (b ++ rest); by rewrite E, app_assoc|]. exists rest. by rewrite <- drop_drop, E, <- app_assoc, drop_app_length.
Qed.

Lemma load_page_v2_spec off cap pg st h rbs dbs bs stored : bytes_at off stored -> (off <= length C)%nat -> stored_v2 rbs dbs bs stored ->
  Z.of_nat (length (rbs ++ dbs ++ bs)) < 2 ^ 31 -> v2_rep_levels_byte_len h = Z.of_nat (length rbs) -> v2_def_levels_byte_len h = Z.of_nat (length dbs) ->
  load_page_v2 {| uncompressed_page_size := Z.of_nat (length (rbs ++ dbs ++ bs)); compressed_page_size := Z.of_nat (length stored) |} h (rd off cap pg st)
  = (Ok tt, rd (off + length stored) cap (rbs ++ dbs ++ bs) st).
Proof.
  intros Hat Ho Hs Hsize Hr Hd. assert (Hlen : v2_rep_levels_byte_len h + v2_def_levels_byte_len h = Z.of_nat (length (rbs ++ dbs))) by (rewrite Hr, Hd, length_app; lia).
  assert (Hst : Z.of_nat (length stored) < 2 ^ 63).
  { destruct Hat as [rest E]. apply (f_equal length) in E. rewrite length_drop, length_app in E. lia. }
  unfold load_page_v2, stored_v2, reset_and_resize in *. cbn [uncompressed_page_size compressed_page_size] in *.
  rewrite !app_assoc in *. set (ls := rbs ++ dbs) in *. rewrite !as_usize_nat, (proj2 (Z.leb_gt (2 ^ 63) _)), Nat2Z.id by lia.
  do 2 erewrite M_bind_step by reflexivity. cbn [descr chunk_offset chunk chunk_capacity codec state decompressed_page]. destruct K as [f|].
  - destruct Hs as (cs & -> & Hcs). apply bytes_at_app in Hat as [Hl Hc]. rewrite Hlen, length_replicate. rewrite !length_app in *.
    assert (Hoff : (off + length ls <= length C)%nat).
    { destruct Hl as [rest E]. apply (f_equal length) in E. rewrite length_drop, length_app in E. lia. }
    assert (Hdrop : drop (length ls) (replicate (length ls + length bs) 0) = replicate (length bs) 0) by (rewrite drop_replicate; f_equal; lia).
    rewrite (proj2 (Z.ltb_lt _ _)), !(proj2 (Z.leb_le _ _)) by lia. do 2 erewrite M_bind_step by reflexivity.
    erewrite M_bind_step by (by apply chunk_slice_spec). do 2 erewrite M_bind_step by reflexivity. erewrite M_bind_step by reflexivity.
    rewrite !Nat2Z.id, Hdrop. cbn [descr chunk_offset chunk chunk_capacity codec state decompressed_page].
    replace (Z.of_nat (length ls + length cs) - Z.of_nat (length ls)) with (Z.of_nat (length cs)) by lia.
    erewrite M_bind_step by (by apply chunk_slice_spec). erewrite M_bind_step by reflexivity. rewrite Nat.add_assoc.
    cbn [descr chunk_offset chunk chunk_capacity codec state decompressed_page]. destruct cs as [|c cs].
    + subst. done.
    + cbn [Nat.ltb Nat.leb length]. unfold lift. rewrite Hcs. done.
  - subst. erewrite M_bind_step by (by apply chunk_slice_spec). unfold copy_from_slice, lift. rewrite length_replicate, Nat.eqb_refl.
    erewrite M_bind_step by reflexivity. done.
Qed.

Lemma prepare_data_page_v2_spec off cap pg st values h slots vs rbs dbs bs stored : dict_holds values (dictionary st) -> bytes_at off stored -> (off <= length C)%nat ->
  page_body levels_v2_bytes (v2_encoding h) values slots vs rbs dbs bs -> stored_v2 rbs dbs bs stored ->
  v2_num_values h = Z.of_nat (length slots) -> v2_rep_levels_byte_len h = Z.of_nat (length rbs) -> v2_def_levels_byte_len h = Z.of_nat (length dbs) ->
  exists st', prepare_data_page_v2 physical_type_of {| uncompressed_page_size := Z.of_nat (length (rbs ++ dbs ++ bs)); compressed_page_size := Z.of_nat (length stored) |} h
      (rd off cap pg st) = (Ok tt, rd (off + length stored) cap [] st')
    /\ dictionary st' = dictionary st /\ holds_page P (rd (off + length stored) cap [] st') slots vs.
Proof.
  intros Hdict Hat Ho [(defs & reps & Hrows & Hdb & Hrb) Hv Hc Hsize] Hst Hn Hr Hd. unfold prepare_data_page_v2.
  erewrite M_bind_step by (by apply load_page_v2_spec). do 2 erewrite M_bind_step by reflexivity. rewrite !length_app in Hsize.
  cbn [descr chunk_offset chunk chunk_capacity decompressed_page codec state]. rewrite Hr, Hd.
  destruct (levels_v2_spec _ reps rbs (dbs ++ bs) (off + length stored) cap
    (with_remaining (Z.to_nat (v2_num_values h)) st) rep_range Hrb ltac:(lia)) as (rr & Lr & Er). erewrite M_bind_step by exact Er.
  erewrite M_bind_step by reflexivity.
  destruct (levels_v2_spec _ defs dbs bs (off + length stored) cap
    (with_repetitions rr (with_remaining (Z.to_nat (v2_num_values h)) st)) def_range Hdb ltac:(lia)) as (dd & Ld & Ed). erewrite M_bind_step by exact Ed.
  erewrite M_bind_step by reflexivity.
  destruct st as [n0 dd0 rr0 dec0 dict]. cbn [dictionary] in *.
  destruct (init_page_decoder_spec _ bs vs (off + length stored) cap (Z.to_nat (v2_num_values h)) dd rr dec0 values dict Hv Hdict) as (dec & E & Hs).
  eexists. split; [exact E|]. split; [done|]. constructor; cbn; [by rewrite Hn, Nat2Z.id|done|].
  intros _. split; [by eapply page_levels_intro|by exists dec].
Qed.

(** ** Dictionary pages *)

Lemma prepare_with_values_spec (dict : Array V DT) body values : plain_supplies P (mkPlain body vr_default) values ->
  exists dict', prepare_with_values fresh (length values) body dict = (Ok tt, dict') /\ dictionary_of dict' values.
Proof.
  intros HP. unfold prepare_with_values, read_bytes_plain. set (a := new_array fresh (datatype dict) (length values + 1)).
  assert (Hf : fillable 0 (length (replicate (length values) false)) a).
  { eapply fillable_le, new_array_fillable; [rewrite length_replicate; lia|done]. }
  destruct (read_plain_spec (P := P) NoDefinitions (replicate (length values) false) 0 (length values) (mkPlain body vr_default) values [] a)
    as (d' & a' & E & _ & Hf' & Hdt & Hr & Hv); [done|by rewrite app_nil_r|by rewrite non_null_replicate|done|]. rewrite E. cbn [mbind res_bind].
  destruct Hf' as [Hwf [vals Hleaf] Hroom _].
  assert (Hll : logical_len (data a') = (length values + 1)%nat).
  { rewrite <- length_rows, Hr, length_inserts, length_rows. subst a. simpl. apply fresh_capacity. }
  destruct Hwf as [Wb Wv Wl Wu]. destruct (set_invalid_spec (validity a') (length values) Wv ltac:(lia)) as (va & -> & Wv' & Hva).
  eexists. split; [done|]. constructor.
  - split; simpl; [done|done| |by rewrite Hleaf]. by rewrite <- length_valid_list, Hva, length_insert, length_valid_list.
  - rewrite (rows_invalidate _ (validity a') _ _ (length values)) by (done || lia).
    destruct a' as [dt' va' b']. cbn [data validity datatype] in *. rewrite Hr, place_all.
    assert (Ha : length (rows a) = (length values + 1)%nat) by (rewrite length_rows; apply fresh_capacity).
    rewrite <- (take_drop (length values) (rows a)), list_inserts_0_r by (rewrite length_take, length_fmap; lia).
    destruct (drop (length values) (rows a)) as [|x [|y l]] eqn:Ed; apply (f_equal length) in Ed; rewrite length_drop in Ed; simpl in Ed; [lia| |lia].
    replace (length values) with (length (Some <$> values) + 0)%nat by (rewrite length_fmap; lia). by rewrite insert_app_r.
Qed.

Lemma prepare_dictionary_spec off cap pg st h stored body (values : list V) dict' : bytes_at off stored -> (off <= length C)%nat -> stored_as stored body ->
  Z.of_nat (length body) < 2 ^ 31 -> dict_num_values h = Z.of_nat (length values) ->
  prepare_with_values fresh (length values) body (dictionary st) = (Ok tt, dict') ->
  prepare_dictionary fresh {| uncompressed_page_size := Z.of_nat (length body); compressed_page_size := Z.of_nat (length stored) |} h (rd off cap pg st)
  = (Ok tt, rd (off + length stored) cap [] (with_dictionary dict' st)).
Proof.
  intros Hat Ho Hs Hl Hn E.
  unfold prepare_dictionary. erewrite M_bind_step by (by apply load_page_spec). erewrite M_bind_step by apply take_remaining_spec.
  erewrite M_bind_step by reflexivity. cbn [state]. by rewrite Hn, Nat2Z.id, E.
Qed.

(** ** The chunk *)

(** A header in the chunk, and the page it announces. *)
Definition header_at (off n : nat) (h : PageHeader) : Prop :=
  exists fh, read_header (drop off C) = Ok (fh, n) /\ try_from_format from_thrift fh (physical_type physical_type_of D) = Ok h.

(** A page of some stored bytes between two offsets. *)
Definition page_at (off off' : nat) (pt : PageType) (size : nat) (stored : list Z) (start : nat) : Prop :=
  exists n, header_at off n {| metadata := {| uncompressed_page_size := Z.of_nat size; compressed_page_size := Z.of_nat (length stored) |}; page_type := pt |}
    /\ (0 < n)%nat /\ start = (off + n)%nat /\ bytes_at start stored /\ off' = (start + length stored)%nat /\ (off' <= length C)%nat.

(** The rows from an offset on, after a dictionary page with these values or
    none. *)
Inductive chunk_rows : nat -> option (list V) -> list (option V) -> Prop :=
| chunk_end off dict : chunk_rows off dict []
| chunk_dictionary off off' start dict h stored body values rows :
    page_at off off' (Dictionary h) (length body) stored start -> stored_as stored body -> Z.of_nat (length body) < 2 ^ 31 ->
    plain_supplies P (mkPlain body vr_default) values -> dict_num_values h = Z.of_nat (length values) ->
    chunk_rows off' (Some values) rows -> chunk_rows off dict rows
| chunk_v1 off off' start dict h slots vs rbs dbs bs stored rows :
    page_at off off' (DataPage h) (length (rbs ++ dbs ++ bs)) stored start -> stored_as stored (rbs ++ dbs ++ bs) ->
    page_body levels_v1_bytes (v1_encoding h) dict slots vs rbs dbs bs -> v1_num_values h = Z.of_nat (length slots) ->
    (0 < max_def_level D -> v1_def_level_encoding h = RLE) -> (0 < max_rep_level D -> v1_rep_level_encoding h = RLE) ->
    chunk_rows off' dict rows -> chunk_rows off dict (place slots vs ++ rows)
| chunk_v2 off off' start dict h slots vs rbs dbs bs stored rows :
    page_at off off' (DataPageV2 h) (length (rbs ++ dbs ++ bs)) stored start -> stored_v2 rbs dbs bs stored ->
    page_body levels_v2_bytes (v2_encoding h) dict slots vs rbs dbs bs -> v2_num_values h = Z.of_nat (length slots) ->
    v2_rep_levels_byte_len h = Z.of_nat (length rbs) -> v2_def_levels_byte_len h = Z.of_nat (length dbs) ->
    chunk_rows off' dict rows -> chunk_rows off dict (place slots vs ++ rows).

Local Abbreviation next_page := (prepare_next (R := R) (V := V) (DT := DT) fresh physical_type_of from_thrift read_header).

(** The header of a page is read, and the page prepared. *)
Lemma prepare_next_step off off' pt size stored start s : page_at off off' pt size stored start -> in_chunk D C K s -> chunk_offset s = off ->
  (off < off' <= length C)%nat /\ (start <= length C)%nat /\ bytes_at start stored /\ off' = (start + length stored)%nat /\
  exists cap pg, (length C <= cap)%nat /\
    let m := {| uncompressed_page_size := Z.of_nat size; compressed_page_size := Z.of_nat (length stored) |} in
    next_page s = match pt with
      | DataPage h => prepare_data_page physical_type_of m h
      | DataPageV2 h => prepare_data_page_v2 physical_type_of m h
      | Dictionary h => prepare_dictionary fresh m h
      end (rd start cap pg (state s)).
Proof.
  intros (n & (fh & Er & Et) & Hn & -> & Hat & -> & Hle) [Hd Hc Hcap Hk] Ho. split_and!; [lia|lia|lia|done|done|].
  destruct s as [ds o ck cap pg k st]. cbn in *. subst. exists cap, pg. split; [done|].
  unfold prepare_next. erewrite M_bind_step by reflexivity. cbn [chunk_capacity chunk_offset chunk descr].
  rewrite (proj2 (Nat.leb_gt _ _)), (proj2 (Nat.leb_le _ _)) by lia. erewrite M_bind_step by reflexivity. rewrite Er.
  erewrite M_bind_step by reflexivity. cbn beta iota. erewrite M_bind_step by reflexivity. rewrite Et. erewrite M_bind_step by reflexivity.
  cbn [page_type metadata]. by destruct pt.
Qed.

(** Every page of the chunk is set up. *)
Lemma chunk_column_rows off values xs : chunk_rows off values xs -> forall dict, dict_holds values dict ->
  column_rows P fresh physical_type_of from_thrift read_header D C K off dict xs.
Proof.
  induction 1 as [off values|off off' start o h stored body values rows Hp Hst Hsz HP Hn _ IH|off off' start o h slots vs rbs dbs bs stored rows Hp Hst Hb Hn Hde Hre _ IH
    |off off' start o h slots vs rbs dbs bs stored rows Hp Hst Hb Hn Hr Hd _ IH]; intros dict Hdict; [constructor| | |].
  - destruct (prepare_with_values_spec dict body values HP) as (dict' & E & Hd'). change rows with (place [] (@nil V) ++ rows).
    assert (Hoff : (off < off' <= length C)%nat) by (destruct Hp as (n & _ & ? & -> & _ & -> & ?); lia).
    eapply (column_page _ _ _ _ _ _ _ _ off dict off' dict' [] []); [|done|by apply IH].
    intros s Hin Ho Hz Hds. destruct (prepare_next_step _ _ _ _ _ _ s Hp Hin Ho) as (_ & Hs & Hat & -> & cap & pg & Hcap & En).
    eexists. rewrite En. erewrite prepare_dictionary_spec by (done || by rewrite Hds). split; [done|].
    split_and!; [by constructor|done|done|]. constructor; [done|done|done].
  - assert (Hoff : (off < off' <= length C)%nat) by (destruct Hp as (n & _ & ? & -> & _ & -> & ?); lia).
    eapply (column_page _ _ _ _ _ _ _ _ off dict off' dict); [|done|by apply IH].
    intros s Hin Ho Hz <-. destruct (prepare_next_step _ _ _ _ _ _ s Hp Hin Ho) as (_ & Hs & Hat & -> & cap & pg & Hcap & En).
    destruct (prepare_data_page_spec start cap pg (state s) o h slots vs rbs dbs bs stored) as (st' & E & Hd' & Hh); try done.
    eexists. rewrite En, E. by split_and!.
  - assert (Hoff : (off < off' <= length C)%nat) by (destruct Hp as (n & _ & ? & -> & _ & -> & ?); lia).
    eapply (column_page _ _ _ _ _ _ _ _ off dict off' dict); [|done|by apply IH].
    intros s Hin Ho Hz <-. destruct (prepare_next_step _ _ _ _ _ _ s Hp Hin Ho) as (_ & Hs & Hat & -> & cap & pg & Hcap & En).
    destruct (prepare_data_page_v2_spec start cap pg (state s) o h slots vs rbs dbs bs stored) as (st' & E & Hd' & Hh); try done.
    eexists. rewrite En, E. by split_and!.
Qed.

(** A scan of the chunk: the reader takes the column's descriptor and the chunk,
    then reads as often as it is asked to. *)
Definition scan_chunk (jobs : list (nat * Array V DT)) : M Reader (list (Array V DT)) :=
  _ ← prepare_scan_unit D;
  _ ← prepare_for_chunk K C;
  read_batches fresh physical_type_of from_thrift read_header jobs.

(** C18. A column is read back from its pages.  The chunk consists of pages with
    their headers as [chunk_rows] has them: dictionary pages with plain values;
    data pages of both versions with repetition and definition levels in the
    run-length encoding; values plain, as indices into the dictionary, as
    run-length booleans, split into streams of bytes, or as byte arrays in one of
    the two delta encodings.  The bodies are stored as they are when the chunk has
    no codec, and otherwise decompressed by it, in version 2 the values alone and
    always, since the reader does not look at the flag that says a page was left
    as it is.  The byte arrays of the delta encodings are what the encoders of
    this crate write, of valid UTF-8 strings, and not of exactly one value nor of
    one value and whole blocks of 128, on which the decoder fails; integers in the
    delta encoding are not covered.  Over such a chunk, reads of any sizes into
    arrays that can be filled give its rows in order, NULL where a level is below
    the largest, however the reads cut the pages, and leave the arrays
    well-formed.  The loop of a read ends within its rows and the bytes that are
    left. *)
Theorem scan_chunk_correct s jobs xss more :
  primitive_type (descr s) = primitive_type D -> remaining_page_values (state s) = 0%nat ->
  chunk_rows 0 None (concat xss ++ more) -> Forall2 (fun j xs => length xs = j.1 /\ fillable 0 j.1 j.2) jobs xss ->
  exists s' out, scan_chunk jobs s = (Ok out, s') /\ Forall2 (fun a xs => array_wf a /\ take (length xs) (rows a) = xs) out xss.
Proof.
  intros Hp Hz Hc Hj. unfold scan_chunk, prepare_scan_unit. erewrite M_bind_step by (rewrite decide_False by (by intros []); reflexivity).
  erewrite M_bind_step by reflexivity. cbn [descr chunk_capacity decompressed_page state].
  destruct (read_batches_spec P fresh physical_type_of from_thrift read_header D C K jobs xss
    (rd 0 (Nat.max (chunk_capacity s) (length C)) (decompressed_page s) (state s)) more) as (s' & out & E & _ & Ho); [|done|by exists s', out].
  split; [constructor; cbn; (done || lia)|]. exists [], [], (concat xss ++ more). split_and!; [by constructor| |done].
  by eapply chunk_column_rows.
Qed.

End Chunk.

(** ** A chunk of three pages *)

Module ChunkExample.

(** Nullable integers of 32 bits: a dictionary of two values, four rows of indices
    and two plain rows, version 1 and version 2.  A byte stands for each header. *)
Definition column : ColumnDescriptor := mkDescr tt 1 0.

Definition headers (bs : list Z) : res (FormatPageHeader unit * nat) :=
  match bs with
  | 200 :: _ => Ok (mkFormatHeader unit 2 8 8 None (Some (mkFormatDict 2 0 None)) None, 1%nat)
  | 201 :: _ => Ok (mkFormatHeader unit 0 9 9 (Some (mkFormatV1 unit 4 8 3 3 None)) None None, 1%nat)
  | 202 :: _ => Ok (mkFormatHeader unit 3 10 10 None None (Some (mkFormatV2 unit 2 0 2 0 2 0 (Some false) None)), 1%nat)
  | _ => Err "not a header"
  end.

Definition statistics (ty : PhysicalType) (st : option unit) : res unit := Ok tt.
Definition blank (dt : unit) (n : nat) : list Z := replicate n 0.

Definition dictionary_body : list Z := [7; 0; 0; 0; 9; 0; 0; 0].
Definition indices_body : list Z := [2; 0; 0; 0; 3; 13] ++ [1; 3; 6].
Definition plain_body : list Z := [4; 1] ++ [5; 0; 0; 0; 255; 255; 255; 255].
Definition chunk_of_pages : list Z := [200] ++ dictionary_body ++ [201] ++ indices_body ++ [202] ++ plain_body.

Local Abbreviation int_values := (byte_values (R := PrimitiveReader i32_t) (to_le 4) (fun v => from_u64 i32_t v = v)).
Local Abbreviation rows_of := (chunk_rows int_values (fun _ => INT32) statistics headers column chunk_of_pages None).

Lemma definition_levels_of_indices : hybrid 1 [3; 13] ([1; 0; 1; 1] ++ [0; 0; 0; 0]).
Proof. apply (hybrid_packed_run 1 1 [1; 0; 1; 1; 0; 0; 0; 0]); [lia|done|]. repeat constructor; lia. Qed.

Lemma definition_levels_of_plain : hybrid 1 [4; 1] ([1; 1] ++ []).
Proof. apply (hybrid_rle_run 1 2 1); [lia|]. split; lia. Qed.

Lemma indices_of_page : hybrid 1 [3; 6] ([0; 1; 1] ++ [0; 0; 0; 0; 0]).
Proof. apply (hybrid_packed_run 1 1 [0; 1; 1; 0; 0; 0; 0; 0]); [lia|done|]. repeat constructor; lia. Qed.

Lemma plain_page : rows_of 19 (Some [7; 9]) [Some 5; Some (-1)].
Proof.
  change [Some 5; Some (-1)] with (place [false; false] [5; -1] ++ []).
  eapply (chunk_v2 _ _ _ _ _ _ _ 19 30 20 _ _ [false; false] [5; -1] [] [4; 1] [5; 0; 0; 0; 255; 255; 255; 255] plain_body).
  - exists 1%nat. split_and!; [eexists; split; reflexivity|lia|done|by exists []|done|simpl; lia].
  - done.
  - constructor; [|by constructor; constructor; [done|repeat constructor|exists []]|done|done].
    exists [1; 1], []. split_and!; [|intros _; exists []; apply definition_levels_of_plain|done].
    constructor; [split; [done|repeat constructor; cbn; lia]|cbn; lia].
  - done.
  - done.
  - done.
  - constructor.
Qed.

Lemma indices_page : rows_of 9 (Some [7; 9]) ([Some 7; None; Some 9; Some 9] ++ [Some 5; Some (-1)]).
Proof.
  eapply (chunk_v1 _ _ _ _ _ _ _ 9 19 10 _ _ [false; true; false; false] [7; 9; 9] [] [2; 0; 0; 0; 3; 13] [1; 3; 6] indices_body).
  - exists 1%nat. split_and!; [eexists; split; reflexivity|lia|done|by eexists|done|simpl; lia].
  - done.
  - constructor; [| |done|done].
    + exists [1; 0; 1; 1], []. split_and!; [|exists [3; 13]; split_and!; [done|simpl; lia|eexists; apply definition_levels_of_indices]|done].
      constructor; [split; [done|repeat constructor; cbn; lia]|cbn; lia].
    + eapply (dictionary_bytes _ _ _ _ RLE_DICTIONARY 1 [3; 6] [7; 9] [0; 1; 1]); [by right|lia|done|apply indices_of_page|].
      repeat constructor; lia.
  - done.
  - done.
  - done.
  - apply plain_page.
Qed.

Lemma chunk_pages : rows_of 0 None ([Some 7; None; Some 9; Some 9] ++ [Some 5; Some (-1)]).
Proof.
  eapply (chunk_dictionary _ _ _ _ _ _ _ 0 9 1 _ _ dictionary_body dictionary_body [7; 9]).
  - exists 1%nat. split_and!; [eexists; split; reflexivity|lia|done|by eexists|done|simpl; lia].
  - done.
  - done.
  - constructor; [done|repeat constructor|by exists []].
  - done.
  - apply indices_page.
Qed.

Definition first_reader : PageReader (R := PrimitiveReader i32_t) (V := Z) (DT := unit) (P := unit) := reader_try_new blank tt (mkDescr tt 0 0).

(** Three rows into an array of four, then the other three: the second read goes
    on in the middle of the page of indices. *)
Definition two_reads : list (nat * Array Z unit) := [(3%nat, new_array blank tt 4); (3%nat, new_array blank tt 3)].

Lemma scan_chunk_correct_witness : exists s' out,
  scan_chunk blank (fun _ => INT32) statistics headers column chunk_of_pages None two_reads first_reader = (Ok out, s')
  /\ Forall2 (fun a xs => array_wf a /\ take (length xs) (rows a) = xs) out [[Some 7; None; Some 9]; [Some 9; Some 5; Some (-1)]].
Proof.
  apply (scan_chunk_correct int_values blank (fun _ => INT32) statistics headers column chunk_of_pages None) with (more := []).
  - simpl. lia.
  - simpl. lia.
  - simpl. lia.
  - intros dt n. apply length_replicate.
  - reflexivity.
  - reflexivity.
  - apply chunk_pages.
  - assert (Hb : forall (dt : unit) n, length (blank dt n) = n) by (intros; apply length_replicate).
    constructor; [split; [done|]|constructor; [split; [done|]|constructor]].
    + apply (fillable_le 0 3 4); [lia|]. by apply new_array_fillable.
    + by apply new_array_fillable.
Defined.

(** What the second read leaves in its array. *)
Example second_read :
  match scan_chunk blank (fun _ => INT32) statistics headers column chunk_of_pages None two_reads first_reader with
  | (Ok [a; b], _) => rows a = [Some 7; None; Some 9; Some 0] /\ rows b = [Some 9; Some 5; Some (-1)]
  | _ => False
  end.
Proof. vm_compute. by split. Qed.

End ChunkExample.
