(* ===== verification/ColumnCollection.v ===== *)
(** * Column collections

    Models [arrays/collection]: chunks of rows ([chunk.rs]), segments of chunks
    ([segment.rs]), and the collection that tasks append to and scan concurrently
    ([concurrent.rs]).  A chunk holds its rows; its buffers are shared when it is
    full, and are not written to any more.  All columns are projected. *)
From S2P Require Import Prelude.

Section Collection.
Context {R : Type}.

(** [ColumnChunk] *)
Record ColumnChunk : Type := mkChunk {
  relative_offset : nat;
  capacity : nat;
  crows : list R;
}.

Definition filled (c : ColumnChunk) : nat := length (crows c).

Definition chunk_try_new (capacity : nat) : ColumnChunk := mkChunk 0 capacity [].

(** [ColumnChunk::copy_rows] *)
Definition chunk_copy_rows (src : list R) (c : ColumnChunk) : res ColumnChunk :=
  _ ← rust_assert (length src <=? capacity c - filled c) "assertion failed: count <= self.capacity - self.filled";
  Ok (mkChunk (relative_offset c) (capacity c) (crows c ++ src)).

(** [ColumnCollectionSegment] *)
Record Segment : Type := mkSegment { chunk_capacity : nat; chunks : list ColumnChunk }.

Definition segment_new (capacity : nat) : Segment := mkSegment capacity [].

Fixpoint set_offsets (offset : nat) (cs : list ColumnChunk) : list ColumnChunk :=
  match cs with
  | [] => []
  | c :: cs' => mkChunk offset (capacity c) (crows c) :: set_offsets (offset + filled c) cs'
  end.

Definition set_relative_offsets (offset : nat) (s : Segment) : Segment := mkSegment (chunk_capacity s) (set_offsets offset (chunks s)).

Definition num_chunks (s : Segment) : nat := length (chunks s).

Definition num_rows (s : Segment) : nat := sum_list (filled <$> chunks s).

(** The loop of [ColumnCollectionSegment::append_batch], over the chunks before the
    last and the last. *)
Fixpoint append_loop (fuel cap : nat) (full : list ColumnChunk) (chunk : ColumnChunk) (rows : list R) : res (list ColumnChunk) :=
  match fuel with
  | O => Panic "out of fuel"
  | S fuel' =>
    match rows with
    | [] => Ok (full ++ [chunk])
    | _ :: _ =>
      let copy_count := Nat.min (capacity chunk - filled chunk) (length rows) in
      chunk ← chunk_copy_rows (take copy_count rows) chunk;
      match drop copy_count rows with
      | [] => Ok (full ++ [chunk])
      | rest => append_loop fuel' cap (full ++ [chunk]) (chunk_try_new cap) rest
      end
    end
  end.

Definition segment_append_batch (batch : list R) (s : Segment) : res Segment :=
  let cs := match chunks s with [] => [chunk_try_new (chunk_capacity s)] | cs => cs end in
  match last cs with
  | Some chunk => cs ← append_loop (S (S (length batch))) (chunk_capacity s) (removelast cs) chunk batch; Ok (mkSegment (chunk_capacity s) cs)
  | None => Panic "at least one chunk"
  end.

(** [ConcurrentColumnCollection], the flushed segments included. *)
Record Collection : Type := mkCollection {
  segment_size : nat;
  col_chunk_capacity : nat;
  segments : list Segment;
  flushed_row_count : nat;
}.

Definition collection_new (segment_size chunk_capacity : nat) : Collection := mkCollection segment_size chunk_capacity [] 0.

(** [ColumnCollectionAppendState] is a segment. *)
Definition init_append_state (c : Collection) : Segment := segment_new (col_chunk_capacity c).

Definition flush (st : Segment) (c : Collection) : Collection * Segment :=
  if num_rows st =? 0 then (c, init_append_state c)
  else (mkCollection (segment_size c) (col_chunk_capacity c) (segments c ++ [set_relative_offsets (flushed_row_count c) st])
          (flushed_row_count c + num_rows st), init_append_state c).

Definition append_batch (batch : list R) (st : Segment) (c : Collection) : res (Collection * Segment) :=
  st ← segment_append_batch batch st;
  if segment_size c <=? num_chunks st then Ok (flush st c) else Ok (c, st).

(** [ColumnCollectionScanState] *)
Record ScanState : Type := mkScan {
  relative_scan_offset : nat;
  next_segment_idx : nat;
  scan_segment : option Segment;
  chunk_idx : nat;
}.

Definition init_scan_state : ScanState := mkScan 0 0 None 0.

(** [scan_inner]: the rows that are scanned, the state, and what the function that
    determines the next segment leaves. *)
Section Scan.
Context {X : Type} (next_segment_fn : nat -> X -> nat * X) (segs : list Segment).

Fixpoint scan_loop (fuel : nat) (x : X) (st : ScanState) : res (list R * ScanState * X) :=
  match fuel with
  | O => Panic "out of fuel"
  | S fuel' =>
    let taken :=
      match scan_segment st with
      | Some seg => Some (seg, st, x)
      | None =>
        seg ← segs !! next_segment_idx st;
        let '(i, x) := next_segment_fn (next_segment_idx st) x in
        Some (seg, mkScan 0 i (Some seg) 0, x)
      end in
    match taken with
    | None => Ok ([], st, x)
    | Some (seg, st, x) =>
      match chunks seg !! chunk_idx st with
      | Some c => Ok (crows c, mkScan (relative_offset c) (next_segment_idx st) (Some seg) (S (chunk_idx st)), x)
      | None => scan_loop fuel' x (mkScan (relative_scan_offset st) (next_segment_idx st) None (chunk_idx st))
      end
    end
  end.

Definition scan_inner (x : X) (st : ScanState) : res (list R * ScanState * X) := scan_loop (S (S (length segs))) x st.

End Scan.

(** [scan] *)
Definition scan (c : Collection) (st : ScanState) : res (list R * ScanState) :=
  '(rows, st, _) ← scan_inner (fun curr (_ : unit) => (curr + 1, tt)) (segments c) tt st;
  Ok (rows, st).

(** [parallel_scan], over the next segment that the states share, and the states
    of [init_parallel_scan_states] with that of the counter. *)
Definition parallel_scan (c : Collection) (next : nat) (st : ScanState) : res (list R * ScanState * nat) :=
  scan_inner (fun _ next => (next, S next)) (segments c) next st.

Definition init_parallel_scan_states (num_parallel : nat) : list ScanState * nat :=
  ((fun idx => mkScan 0 idx None 0) <$> seq 0 num_parallel, num_parallel).

(** ** Rows *)

Definition rows_of (cs : list ColumnChunk) : list R := concat (crows <$> cs).

Definition all_chunks (segs : list Segment) : list ColumnChunk := concat (chunks <$> segs).

Definition collected_rows (c : Collection) : list R := rows_of (all_chunks (segments c)).

Lemma rows_of_app a b : rows_of (a ++ b) = rows_of a ++ rows_of b.
Proof. unfold rows_of. by rewrite fmap_app, concat_app. Qed.

Lemma num_rows_length s : num_rows s = length (rows_of (chunks s)).
Proof. unfold num_rows, rows_of. induction (chunks s) as [|c cs IH]; [done|]. cbn. rewrite length_app, IH. done. Qed.

Lemma rows_set_offsets off cs : rows_of (set_offsets off cs) = rows_of cs.
Proof. revert off. induction cs as [|c cs IH]; intros off; [done|]. cbn. f_equal. apply IH. Qed.

(** Chunks with rows, whose offsets are the numbers of rows before them. *)
Fixpoint chunks_at (off : nat) (cs : list ColumnChunk) : Prop :=
  match cs with
  | [] => True
  | c :: cs' => relative_offset c = off /\ crows c <> [] /\ chunks_at (off + filled c) cs'
  end.

Lemma chunks_at_app off a b : chunks_at off (a ++ b) <-> chunks_at off a /\ chunks_at (off + length (rows_of a)) b.
Proof.
  revert off. induction a as [|c a IH]; intros off; cbn [app chunks_at rows_of fmap list_fmap concat length].
  - rewrite Nat.add_0_r. tauto.
  - rewrite IH. unfold rows_of, filled. cbn. rewrite length_app, Nat.add_assoc. tauto.
Qed.

Lemma chunks_at_set_offsets off cs : Forall (fun c => crows c <> []) cs -> chunks_at off (set_offsets off cs).
Proof. intros Hc. revert off. induction Hc as [|c cs Hc _ IH]; intros off; [done|]. cbn. split_and!; [done|done|apply IH]. Qed.

(** A collection: every segment has chunks. *)
Record collection_wf (c : Collection) : Prop := {
  col_chunks : chunks_at 0 (all_chunks (segments c));
  col_segments : Forall (fun s => chunks s <> []) (segments c);
  col_count : flushed_row_count c = length (collected_rows c);
}.

(** A segment that is appended to: its chunks have rows, except a first one. *)
Record append_wf (cap : nat) (s : Segment) : Prop := {
  app_capacity : chunk_capacity s = cap;
  app_positive : 0 < cap;
  app_chunks : Forall (fun c => capacity c = cap /\ filled c <= cap) (chunks s);
  app_rows : Forall (fun c => crows c <> []) (chunks s) \/ exists c, chunks s = [c] /\ crows c = [];
}.

Lemma collection_new_wf size cap : collection_wf (collection_new size cap).
Proof. by constructor. Qed.

Lemma segment_new_wf cap : 0 < cap -> append_wf cap (segment_new cap).
Proof. intros Hc. constructor; [done|done|constructor|by left]. Qed.

(** ** Appending *)

(** Chunks of a segment that is appended to. *)
Definition good_chunks (cap : nat) (cs : list ColumnChunk) : Prop := Forall (fun c => capacity c = cap /\ filled c <= cap) cs.

Definition with_rows (cs : list ColumnChunk) : Prop := Forall (fun c => crows c <> []) cs.

Lemma chunk_append_loop_spec cap fuel full chunk rows : 0 < cap -> good_chunks cap (full ++ [chunk]) -> with_rows full ->
  (full = [] \/ crows chunk <> [] \/ rows <> []) -> length rows + (if decide (filled chunk = cap) then 1 else 0) < fuel ->
  exists cs, append_loop fuel cap full chunk rows = Ok cs /\ rows_of cs = rows_of (full ++ [chunk]) ++ rows
    /\ good_chunks cap cs /\ (with_rows cs \/ exists c, cs = [c] /\ crows c = []).
Proof.
  intros Hcap. revert full chunk rows. induction fuel as [|fuel IH]; intros full chunk rows Hg Hf Hne Hfuel; [lia|]. cbn [append_loop].
  destruct rows as [|r rows'].
  { exists (full ++ [chunk]). rewrite app_nil_r. split_and!; [done|done|done|]. destruct (crows chunk) as [|x l] eqn:E.
    - destruct Hne as [->|[H|H]]; [right; by exists chunk|done|done].
    - left. apply Forall_app. split; [done|]. constructor; [by rewrite E|constructor]. }
  remember (r :: rows') as rows eqn:Er. assert (Hpos : 0 < length rows) by (subst; simpl; lia). clear Hne Er r rows'.
  apply Forall_app in Hg as [Hgf Hgc]. apply Forall_cons in Hgc as [[Hc Hl] _]. rewrite Hc.
  set (n := Nat.min (cap - filled chunk) (length rows)). unfold chunk_copy_rows. rewrite Hc, (proj2 (Nat.leb_le _ _)) by (rewrite length_take; lia).
  cbn [rust_assert mbind res_bind]. set (chunk' := mkChunk _ _ _).
  assert (Hl' : filled chunk' = filled chunk + n) by (unfold filled; cbn; rewrite length_app, length_take; lia).
  assert (Hg' : good_chunks cap (full ++ [chunk'])) by (apply Forall_app; split; [done|]; constructor; [split; [done|lia]|constructor]).
  assert (Hr' : rows_of (full ++ [chunk']) = rows_of (full ++ [chunk]) ++ take n rows).
  { rewrite !rows_of_app, <- app_assoc. f_equal. unfold rows_of. cbn. by rewrite !app_nil_r. }
  assert (Hw' : 0 < filled chunk' -> with_rows (full ++ [chunk'])).
  { intros H. apply Forall_app. split; [done|]. constructor; [|constructor]. intros E. unfold filled in H. rewrite E in H. simpl in H. lia. }
  pose proof (take_drop n rows) as Htd. destruct (drop n rows) as [|x rest] eqn:Ed.
  - exists (full ++ [chunk']). rewrite app_nil_r in Htd. rewrite Hr', Htd. split_and!; [done|done|done|]. left. apply Hw'.
    apply (f_equal length) in Ed. rewrite length_drop in Ed. simpl in Ed. lia.
  - assert (Hlen : length (x :: rest) = length rows - n) by (rewrite <- Ed; apply length_drop).
    destruct (IH (full ++ [chunk']) (chunk_try_new cap) (x :: rest)) as (cs & E & Hr & Hgc & Hs).
    + apply Forall_app. split; [done|]. constructor; [split; [done|unfold filled; simpl; lia]|constructor].
    + apply Hw'. simpl in Hlen. lia.
    + right. right. done.
    + rewrite Hlen. destruct (decide (filled (chunk_try_new cap) = cap)); [unfold filled in *; simpl in *; lia|]. simpl in Hlen.
      destruct (decide (filled chunk = cap)); lia.
    + exists cs. split_and!; [done| |done|done]. rewrite Hr, rows_of_app, Hr'. unfold rows_of at 2. cbn. rewrite app_nil_r, <- app_assoc. by rewrite Htd.
Qed.

Lemma segment_append_batch_spec cap batch s : append_wf cap s ->
  exists s', segment_append_batch batch s = Ok s' /\ append_wf cap s' /\ rows_of (chunks s') = rows_of (chunks s) ++ batch.
Proof.
  intros [Hcap Hpos Hg Hr]. unfold segment_append_batch. rewrite Hcap.
  set (cs := match chunks s with [] => [chunk_try_new cap] | cs => cs end).
  assert (Hcs : good_chunks cap cs /\ (with_rows cs \/ exists c, cs = [c] /\ crows c = []) /\ rows_of cs = rows_of (chunks s) /\ cs <> []).
  { subst cs. destruct (chunks s) as [|c l]; [|done]. split_and!; [constructor; [unfold filled; simpl; split; [done|lia]|constructor]|right; by eexists|done|done]. }
  clearbody cs. clear Hg Hr. destruct Hcs as (Hg & Hw & Hrows & Hne). destruct (exists_last Hne) as (full & chunk & ->). rewrite last_snoc, removelast_last.
  destruct (chunk_append_loop_spec cap (S (S (length batch))) full chunk batch Hpos Hg) as (cs & E & Hr & Hg' & Hw').
  - destruct Hw as [Hw|(c & Hc & _)]; [by apply Forall_app in Hw as [? _]|]. destruct full; [constructor|]. by destruct full.
  - destruct Hw as [Hw|(c & Hc & _)]; [apply Forall_app in Hw as [_ Hw]; inversion Hw; tauto|]. destruct full as [|? full]; [by left|by destruct full].
  - destruct (decide _); lia.
  - rewrite E. eexists. split; [done|]. split; [by constructor|]. cbn [chunks]. by rewrite Hr, Hrows.
Qed.

(** ** Flushing *)

Lemma collection_flush_spec cap c st : collection_wf c -> append_wf cap st -> col_chunk_capacity c = cap ->
  exists c' st', flush st c = (c', st') /\ collection_wf c' /\ append_wf cap st' /\ rows_of (chunks st') = []
    /\ collected_rows c' = collected_rows c ++ rows_of (chunks st)
    /\ segment_size c' = segment_size c /\ col_chunk_capacity c' = col_chunk_capacity c.
Proof.
  intros [Ha Hs Hn] [Hcap Hpos Hg Hr] Hcc. unfold flush. pose proof (num_rows_length st) as Hnr. destruct (Nat.eqb_spec (num_rows st) 0) as [E|E].
  - assert (rows_of (chunks st) = []) as -> by (apply nil_length_inv; lia). eexists _, _. split; [done|].
    split_and!; [done|unfold init_append_state; rewrite Hcc; by apply segment_new_wf|done|by rewrite app_nil_r|done|done].
  - assert (Hw : with_rows (chunks st)).
    { destruct Hr as [Hw|(ch & Hch & Hrows)]; [done|]. rewrite Hch in Hnr. unfold rows_of in Hnr. cbn in Hnr. rewrite Hrows in Hnr. simpl in Hnr. lia. }
    assert (Hrows : collected_rows (mkCollection (segment_size c) (col_chunk_capacity c) (segments c ++ [set_relative_offsets (flushed_row_count c) st])
          (flushed_row_count c + num_rows st)) = collected_rows c ++ rows_of (chunks st)).
    { unfold collected_rows, all_chunks. cbn [segments]. rewrite fmap_app, concat_app, rows_of_app. cbn [fmap list_fmap concat chunks set_relative_offsets].
      by rewrite app_nil_r, rows_set_offsets. }
    eexists _, _. split; [done|]. split_and!; [|unfold init_append_state; rewrite Hcc; by apply segment_new_wf|done|exact Hrows|done|done].
    constructor; cbn [segments flushed_row_count].
    + unfold all_chunks. rewrite fmap_app, concat_app. apply chunks_at_app. split; [done|]. cbn [fmap list_fmap concat chunks set_relative_offsets]. rewrite app_nil_r, Nat.add_0_l, Hn.
      by apply chunks_at_set_offsets.
    + apply Forall_app. split; [done|]. constructor; [|constructor]. cbn. intros E0. destruct (chunks st) as [|ch l] eqn:Ec; [|done]. apply E. unfold num_rows. by rewrite Ec.
    + rewrite Hrows, length_app, Hn. lia.
Qed.

Lemma append_batch_spec cap batch c st : collection_wf c -> append_wf cap st -> col_chunk_capacity c = cap ->
  exists c' st', append_batch batch st c = Ok (c', st') /\ collection_wf c' /\ append_wf cap st'
    /\ collected_rows c' ++ rows_of (chunks st') = collected_rows c ++ rows_of (chunks st) ++ batch
    /\ segment_size c' = segment_size c /\ col_chunk_capacity c' = col_chunk_capacity c.
Proof.
  intros Hc Hst Hcc. destruct (segment_append_batch_spec cap batch st Hst) as (st1 & E & Hst1 & Hr). unfold append_batch. rewrite E. cbn [mbind res_bind].
  destruct (segment_size c <=? num_chunks st1).
  - destruct (collection_flush_spec cap c st1 Hc Hst1 Hcc) as (c' & st' & -> & Hc' & Hst' & Hr' & Hcr & H1 & H2). exists c', st'.
    split_and!; [done|done|done| |done|done]. by rewrite Hr', app_nil_r, Hcr, Hr.
  - exists c, st1. split_and!; [done|done|done| |done|done]. by rewrite Hr.
Qed.

(** ** Scanning *)

(** The chunks of the current segment that are left. *)
Definition local_chunks (st : ScanState) : list ColumnChunk :=
  match scan_segment st with
  | Some seg => drop (chunk_idx st) (chunks seg)
  | None => []
  end.

Section ScanSpec.
Context {X : Type} (next_segment_fn : nat -> X -> nat * X) (segs : list Segment).
Hypothesis segs_chunks : Forall (fun s => chunks s <> []) segs.

(** In the current segment, in the next one, or at the end. *)
Lemma scan_inner_spec x st :
  match local_chunks st with
  | c :: cs => exists st', scan_inner next_segment_fn segs x st = Ok (crows c, st', x) /\ local_chunks st' = cs
      /\ relative_scan_offset st' = relative_offset c /\ next_segment_idx st' = next_segment_idx st
  | [] =>
    match segs !! next_segment_idx st with
    | Some seg => exists c cs st', chunks seg = c :: cs
        /\ scan_inner next_segment_fn segs x st = Ok (crows c, st', (next_segment_fn (next_segment_idx st) x).2)
        /\ local_chunks st' = cs /\ relative_scan_offset st' = relative_offset c
        /\ next_segment_idx st' = (next_segment_fn (next_segment_idx st) x).1
    | None => exists st', scan_inner next_segment_fn segs x st = Ok ([], st', x) /\ local_chunks st' = []
        /\ next_segment_idx st' = next_segment_idx st
    end
  end.
Proof.
  assert (Hnone : forall fuel x st, scan_segment st = None ->
    match segs !! next_segment_idx st with
    | Some seg => exists c cs st', chunks seg = c :: cs
        /\ scan_loop next_segment_fn segs (S fuel) x st = Ok (crows c, st', (next_segment_fn (next_segment_idx st) x).2)
        /\ local_chunks st' = cs /\ relative_scan_offset st' = relative_offset c
        /\ next_segment_idx st' = (next_segment_fn (next_segment_idx st) x).1
    | None => exists st', scan_loop next_segment_fn segs (S fuel) x st = Ok ([], st', x) /\ local_chunks st' = []
        /\ next_segment_idx st' = next_segment_idx st
    end).
  { clear x st. intros fuel x st En. cbn [scan_loop]. rewrite En. destruct (segs !! next_segment_idx st) as [seg|] eqn:Es; cbn [mbind option_bind].
    - pose proof (Forall_lookup_1 _ _ _ _ segs_chunks Es) as Hne. destruct (next_segment_fn (next_segment_idx st) x) as [i x'] eqn:Ei.
      destruct (chunks seg) as [|c cs] eqn:Ec; [done|]. eexists c, cs, _. split; [done|]. cbn [chunk_idx next_segment_idx]. cbn [lookup list_lookup].
      split; [done|]. cbn. unfold local_chunks. cbn. rewrite Ec. by split_and!.
    - exists st. split_and!; [done|unfold local_chunks; by rewrite En|done]. }
  unfold scan_inner, local_chunks. destruct (scan_segment st) as [seg|] eqn:Eseg; [|by apply (Hnone (S (length segs)))].
  destruct (drop (chunk_idx st) (chunks seg)) as [|c cs] eqn:Ed.
  - specialize (Hnone (length segs) x (mkScan (relative_scan_offset st) (next_segment_idx st) None (chunk_idx st)) eq_refl). cbn [next_segment_idx] in Hnone.
    assert (El : scan_loop next_segment_fn segs (S (S (length segs))) x st
      = scan_loop next_segment_fn segs (S (length segs)) x (mkScan (relative_scan_offset st) (next_segment_idx st) None (chunk_idx st))).
    { cbn [scan_loop]. rewrite Eseg. by rewrite (lookup_ge_None_2 (chunks seg)) by (apply (f_equal length) in Ed; rewrite length_drop in Ed; simpl in Ed; lia). }
    rewrite El. exact Hnone.
  - assert (Hlk : chunks seg !! chunk_idx st = Some c) by (rewrite <- (Nat.add_0_r (chunk_idx st)), <- lookup_drop; by rewrite Ed).
    eexists. cbn [scan_loop]. rewrite Eseg, Hlk. split; [done|]. cbn. split_and!; [|done|done].
    rewrite <- Nat.add_1_r, <- drop_drop, Ed. done.
Qed.

End ScanSpec.

(** What a sequential scan has ahead. *)
Definition ahead (segs : list Segment) (st : ScanState) : list ColumnChunk := local_chunks st ++ all_chunks (drop (next_segment_idx st) segs).

Lemma all_chunks_drop segs i seg : segs !! i = Some seg -> all_chunks (drop i segs) = chunks seg ++ all_chunks (drop (S i) segs).
Proof. intros E. by rewrite (drop_S _ _ _ E). Qed.

Lemma scan_spec c st : collection_wf c ->
  exists rows st', scan c st = Ok (rows, st')
    /\ match ahead (segments c) st with
       | ch :: cs => rows = crows ch /\ ahead (segments c) st' = cs /\ relative_scan_offset st' = relative_offset ch
       | [] => rows = [] /\ ahead (segments c) st' = []
       end.
Proof.
  intros [_ Hs _]. pose proof (scan_inner_spec (fun curr (_ : unit) => (curr + 1, tt)) (segments c) Hs tt st) as H. unfold scan, ahead.
  destruct (local_chunks st) as [|ch cs].
  - destruct (segments c !! next_segment_idx st) as [seg|] eqn:Es.
    + destruct H as (ch & cs & st' & Ec & E & Hl & Ho & Hn). rewrite E. eexists _, st'. split; [done|]. cbn [app]. rewrite (all_chunks_drop _ _ _ Es), Ec. cbn [app].
      rewrite Hl, Hn. cbn [fst]. by rewrite Nat.add_1_r.
    + destruct H as (st' & E & Hl & Hn). rewrite E. eexists _, st'. split; [done|]. rewrite Hl, Hn, drop_ge by (by apply lookup_ge_None). done.
  - destruct H as (st' & E & Hl & Ho & Hn). rewrite E. eexists _, st'. split; [done|]. cbn [app]. by rewrite Hl, Hn.
Qed.

Lemma parallel_scan_spec c next st : collection_wf c ->
  exists rows st' next', parallel_scan c next st = Ok (rows, st', next')
    /\ match local_chunks st with
       | ch :: cs => rows = crows ch /\ local_chunks st' = cs /\ relative_scan_offset st' = relative_offset ch
           /\ next_segment_idx st' = next_segment_idx st /\ next' = next
       | [] =>
         match segments c !! next_segment_idx st with
         | Some seg => exists ch cs, chunks seg = ch :: cs /\ rows = crows ch /\ local_chunks st' = cs
             /\ relative_scan_offset st' = relative_offset ch /\ next_segment_idx st' = next /\ next' = S next
         | None => rows = [] /\ local_chunks st' = [] /\ next_segment_idx st' = next_segment_idx st /\ next' = next
         end
       end.
Proof.
  intros [_ Hs _]. pose proof (scan_inner_spec (fun _ next => (next, S next)) (segments c) Hs next st) as H. unfold parallel_scan.
  destruct (local_chunks st) as [|ch cs].
  - destruct (segments c !! next_segment_idx st) as [seg|] eqn:Es.
    + destruct H as (ch & cs & st' & Ec & E & Hl & Ho & Hn). rewrite E. eexists _, st', _. split; [done|]. exists ch, cs. by split_and!.
    + destruct H as (st' & E & Hl & Hn). rewrite E. eexists _, st', _. split; [done|]. by split_and!.
  - destruct H as (st' & E & Hl & Ho & Hn). rewrite E. eexists _, st', _. split; [done|]. by split_and!.
Qed.

End Collection.

Arguments ColumnChunk : clear implicits.
Arguments Segment : clear implicits.
Arguments Collection : clear implicits.
Arguments ScanState : clear implicits.
