(* ===== verification/NestedLoopJoin.v ===== *)
(** * The nested loop join operator

    Models [execution/operators/nested_loop_join]: the build side appends its
    batches to a shared collection ([ColumnCollection]); the probe side goes
    through the whole collection for every batch of its own, one row of the build
    side at a time ([cross_product.rs]), filters the pairs, and keeps track of the
    rows that matched ([match_tracker.rs]); for some join types the rows of the
    build side are drained at the end, every segment of the collection by one
    partition.  Build and probe partitions are concurrent tasks.  An atomic step is
    a critical section, an atomic operation, or work on data that no other task
    touches at that time. *)
From S2P Require Import Prelude PartitionSync LogicalExpr JoinConditions ColumnCollection.

(** ** Match tracker *)

(** [MatchTracker] is its list of matches. *)
Abbreviation MatchTracker := (list bool) (only parsing).

(** [Vec::resize] *)
Definition ensure_initialized (num_rows : nat) (m : MatchTracker) : MatchTracker := take num_rows m ++ replicate (num_rows - length m) false.

Definition set_match (row_idx : nat) (m : MatchTracker) : res MatchTracker :=
  if row_idx <? length m then Ok (<[row_idx := true]> m) else Panic "index out of bounds".

Fixpoint set_matches (idxs : list nat) (m : MatchTracker) : res MatchTracker :=
  match idxs with
  | [] => Ok m
  | i :: idxs' => m ← set_match i m; set_matches idxs' m
  end.

(** The rows at the indices of [MatchIndexIter]. *)
Fixpoint pick {R} (b : bool) (m : MatchTracker) (rows : list R) : list R :=
  match m, rows with
  | x :: m', r :: rows' => if bool_decide (x = b) then r :: pick b m' rows' else pick b m' rows'
  | _, _ => []
  end.

(** [matches[offset..(offset + count)]] *)
Definition match_slice (offset count : nat) (m : MatchTracker) : res MatchTracker :=
  if offset + count <=? length m then Ok (take count (drop offset m)) else Panic "range end index out of range".

Section Operator.
Context {V : Type}.
Local Abbreviation Row := (list (option V)).
Variable bool_value : bool -> V.
Variable batch_size : nat.

(** [PhysicalNestedLoopJoin], with the number of columns of both sides and a filter
    by the rows that it selects. *)
Record PhysicalNestedLoopJoin : Type := mkNestedLoopJoin {
  nl_join_type : JoinType.t;
  nl_left_types : nat;
  nl_right_types : nat;
  nl_filter : option (Row -> bool);
}.

Definition nested_loop_join_new (jt : JoinType.t) (left_types right_types : nat) (filter : option (Row -> bool)) : res PhysicalNestedLoopJoin :=
  match jt with
  | JoinType.Full | JoinType.LeftAnti => Err "Unsupported join type for nested loop join"
  | _ => Ok (mkNestedLoopJoin jt left_types right_types filter)
  end.

(** Whether the build side is drained at the end, whether its matches are marked,
    and whether nothing is emitted before the drain. *)
Definition tracks_left (jt : JoinType.t) : bool :=
  match jt with
  | JoinType.Left | JoinType.LeftSemi | JoinType.LeftAnti | JoinType.Full | JoinType.LeftMark _ => true
  | _ => false
  end.

Definition marks_left (jt : JoinType.t) : bool :=
  match jt with
  | JoinType.Left | JoinType.LeftSemi | JoinType.LeftAnti | JoinType.LeftMark _ => true
  | _ => false
  end.

Definition left_only (jt : JoinType.t) : bool :=
  match jt with
  | JoinType.LeftSemi | JoinType.LeftAnti | JoinType.LeftMark _ => true
  | _ => false
  end.

Definition is_right (jt : JoinType.t) : bool := match jt with JoinType.Right => true | _ => false end.

(** ** Results of the match tracker *)

Definition right_outer_result (left_types : nat) (m : MatchTracker) (right : list Row) : res (list Row) :=
  _ ← rust_assert (length m =? length right) "assertion failed: self.matches.len() == right.num_rows()";
  Ok (app (replicate left_types None) <$> pick false m right).

Definition left_outer_result (right_types left_offset : nat) (m : MatchTracker) (left : list Row) : res (list Row) :=
  m ← match_slice left_offset (length left) m;
  Ok ((fun l => l ++ replicate right_types None) <$> pick false m left).

Definition left_semi_result (left_offset : nat) (m : MatchTracker) (left : list Row) : res (list Row) :=
  m ← match_slice left_offset (length left) m;
  Ok (pick true m left).

Definition left_mark_result (left_offset : nat) (m : MatchTracker) (left : list Row) : res (list Row) :=
  m ← match_slice left_offset (length left) m;
  Ok (zip_with (fun l b => l ++ [Some (bool_value b)]) left m).

(** ** Cross product *)

(** [CrossProductState] *)
Record CrossProductState : Type := mkCross {
  cross_scan : option (ScanState Row);
  cross_batch : list Row;
  batch_row_idx : nat;
}.

Definition cross_new : CrossProductState := mkCross None [] 0.

Definition collection_scan_offset (c : CrossProductState) : option nat :=
  st ← cross_scan c; Some (relative_scan_offset st + batch_row_idx c).

(** [CrossProductState::scan_next]: the pairs of the next row of the left side with
    the right batch, if there is one. *)
Definition scan_next (left : Collection Row) (right : list Row) (c : CrossProductState) : res (option (list Row) * CrossProductState) :=
  let '(st, idx) := match cross_scan c with Some st => (st, S (batch_row_idx c)) | None => (init_scan_state, 0) end in
  if length (cross_batch c) <=? idx then
    '(rows, st) ← scan left st;
    match rows with
    | [] => Ok (None, mkCross None [] 0)
    | l :: _ => Ok (Some (app l <$> right), mkCross (Some st) rows 0)
    end
  else
    l ← index (cross_batch c) idx;
    Ok (Some (app l <$> right), mkCross (Some st) (cross_batch c) idx).

(** ** State *)

(** [NestedLoopJoinOperatorState], with the counter that the drain states share. *)
Record NlShared : Type := mkNlShared {
  collected : Collection Row;
  drain_next_segment : nat;
  remaining_build_inputs : DelayedPartitionCount;
  remaining_probe_inputs : DelayedPartitionCount;
  probe_wakers : PartitionWakers;
  left_matches : MatchTracker;
}.

(** A build partition: pushing, flushed in [poll_finalize_push], and at its end. *)
Inductive NlBuildState : Type := Pushing | Flushed | Built.

Record NlBuilder : Type := mkNlBuilder { nl_bstate : NlBuildState; append_state : Segment Row; nl_binput : list (list Row) }.

(** The points of a probe partition: executing, and while draining before the
    check of the other partitions, before the scan of the next batch, before the
    result of a scanned batch, and at the end. *)
Inductive NlProbeState : Type := Executing | DrainCheck | DrainScan | DrainEmit (batch : list Row) | Drained.

Record NlProber : Type := mkNlProber {
  nl_pstate : NlProbeState;
  build_complete : bool;
  cross_state : CrossProductState;
  right_matches : MatchTracker;
  left_drain_state : ScanState Row;
  nl_pinput : list (list Row);
  nl_emitted : list Row;
}.

Record NlSystem : Type := mkNlSystem { nl_shared : NlShared; nl_builders : list NlBuilder; nl_probers : list NlProber }.

(** Assignments to fields. *)
Definition set_collected (c : Collection Row) (sh : NlShared) : NlShared :=
  mkNlShared c (drain_next_segment sh) (remaining_build_inputs sh) (remaining_probe_inputs sh) (probe_wakers sh) (left_matches sh).
Definition set_wakers (w : PartitionWakers) (sh : NlShared) : NlShared :=
  mkNlShared (collected sh) (drain_next_segment sh) (remaining_build_inputs sh) (remaining_probe_inputs sh) w (left_matches sh).
Definition set_left_matches (m : MatchTracker) (sh : NlShared) : NlShared :=
  mkNlShared (collected sh) (drain_next_segment sh) (remaining_build_inputs sh) (remaining_probe_inputs sh) (probe_wakers sh) m.
Definition set_pstate (st : NlProbeState) (p : NlProber) : NlProber :=
  mkNlProber st (build_complete p) (cross_state p) (right_matches p) (left_drain_state p) (nl_pinput p) (nl_emitted p).

(** ** The build side *)

(** The end of [poll_finalize_push]. *)
Definition finish_build_input (op : PhysicalNestedLoopJoin) (sh : NlShared) : res NlShared :=
  remaining ← dec_by_one (remaining_build_inputs sh);
  if bool_decide (remaining = Some 0) then
    let m := if tracks_left (nl_join_type op) then ensure_initialized (flushed_row_count (collected sh)) (left_matches sh) else left_matches sh in
    Ok (mkNlShared (collected sh) (drain_next_segment sh) remaining (remaining_probe_inputs sh) (wake_all (probe_wakers sh)) m)
  else Ok (mkNlShared (collected sh) (drain_next_segment sh) remaining (remaining_probe_inputs sh) (probe_wakers sh) (left_matches sh)).

(** A step of [poll_push] or [poll_finalize_push]; [None] when there is nothing to
    do. *)
Definition nl_build_step (op : PhysicalNestedLoopJoin) (sh : NlShared) (b : NlBuilder) : option (res (NlShared * NlBuilder)) :=
  match nl_bstate b with
  | Pushing =>
    match nl_binput b with
    | batch :: rest => Some ('(c, st) ← append_batch batch (append_state b) (collected sh); Ok (set_collected c sh, mkNlBuilder Pushing st rest))
    | [] => Some (let '(c, st) := flush (append_state b) (collected sh) in Ok (set_collected c sh, mkNlBuilder Flushed st []))
    end
  | Flushed => Some (sh ← finish_build_input op sh; Ok (sh, mkNlBuilder Built (append_state b) (nl_binput b)))
  | Built => None
  end.

(** ** The probe side *)

(** [poll_execute] with [build_complete] not set: whether all rows are collected;
    otherwise the waker is stored. *)
Definition check_build (idx : nat) (sh : NlShared) (p : NlProber) : res (NlShared * NlProber) :=
  count ← count_current (remaining_build_inputs sh);
  if 0 <? count then w ← store_waker (probe_wakers sh) idx; Ok (set_wakers w sh, p)
  else Ok (sh, mkNlProber (nl_pstate p) true (cross_state p) (right_matches p) (left_drain_state p) (nl_pinput p) (nl_emitted p)).

(** [poll_execute] while draining: whether all partitions are done probing. *)
Definition check_probes (idx : nat) (sh : NlShared) (p : NlProber) : res (NlShared * NlProber) :=
  count ← count_current (remaining_probe_inputs sh);
  if 0 <? count then w ← store_waker (probe_wakers sh) idx; Ok (set_wakers w sh, p)
  else Ok (sh, set_pstate DrainScan p).

(** The next input after the current one, with some output. *)
Definition next_input (cross : CrossProductState) (out : list Row) (p : NlProber) : NlProber :=
  mkNlProber (nl_pstate p) (build_complete p) cross [] (left_drain_state p) (tl (nl_pinput p)) (nl_emitted p ++ out).

(** The same input again, with some output or after a round without output. *)
Definition same_input (cross : CrossProductState) (m : MatchTracker) (out : list Row) (p : NlProber) : NlProber :=
  mkNlProber (nl_pstate p) (build_complete p) cross m (left_drain_state p) (nl_pinput p) (nl_emitted p ++ out).

(** The indices of the rows that the filter selects. *)
Definition selected (f : Row -> bool) (rows : list Row) : list nat :=
  filter (fun i => default false (f <$> rows !! i) = true) (seq 0 (length rows)).

(** The round of the loop of [poll_execute] for pairs that are selected. *)
Definition selected_round (op : PhysicalNestedLoopJoin) (f : Row -> bool) (rows : list Row) (cross : CrossProductState) (m : MatchTracker)
    (sh : NlShared) (p : NlProber) : res (NlShared * NlProber) :=
  match selected f rows with
  | [] => Ok (sh, same_input cross m [] p)
  | sel =>
    m ← (if is_right (nl_join_type op) then set_matches sel m else Ok m);
    sh ← (if marks_left (nl_join_type op) then
            match collection_scan_offset cross with
            | Some left_row => lm ← set_match left_row (left_matches sh); Ok (set_left_matches lm sh)
            | None => Err "Expected in-progress cross product scan"
            end
          else Ok sh);
    if left_only (nl_join_type op) then Ok (sh, same_input cross m [] p)
    else Ok (sh, same_input cross m (filter (fun row => f row = true) rows) p)
  end.

(** A round of the loop of [poll_execute].  Without a filter a join that only
    emits rows of the left side would answer with an output it has not written;
    the planner only leaves out the filter of inner joins. *)
Definition execute_round (op : PhysicalNestedLoopJoin) (rhs : list Row) (sh : NlShared) (p : NlProber) : res (NlShared * NlProber) :=
  let m := if is_right (nl_join_type op) then ensure_initialized (length rhs) (right_matches p) else right_matches p in
  '(out, cross) ← scan_next (collected sh) rhs (cross_state p);
  match out with
  | None =>
    if is_right (nl_join_type op) then out ← right_outer_result (nl_left_types op) m rhs; Ok (sh, next_input cross out p)
    else Ok (sh, next_input cross [] p)
  | Some [] => Ok (sh, same_input cross m [] p)
  | Some rows =>
    match nl_filter op with
    | Some f => selected_round op f rows cross m sh p
    | None => if left_only (nl_join_type op) then Panic "output not written" else Ok (sh, same_input cross m rows p)
    end
  end.

(** [poll_finalize_execute] *)
Definition finalize_execute (op : PhysicalNestedLoopJoin) (sh : NlShared) (p : NlProber) : res (NlShared * NlProber) :=
  remaining ← dec_by_one (remaining_probe_inputs sh);
  let w := if tracks_left (nl_join_type op) && bool_decide (remaining = Some 0) then wake_all (probe_wakers sh) else probe_wakers sh in
  Ok (mkNlShared (collected sh) (drain_next_segment sh) (remaining_build_inputs sh) remaining w (left_matches sh),
      set_pstate (if tracks_left (nl_join_type op) then DrainCheck else Drained) p).

(** The next batch of the left side that this partition drains. *)
Definition drain_scan (sh : NlShared) (p : NlProber) : res (NlShared * NlProber) :=
  '(rows, st, next) ← parallel_scan (collected sh) (drain_next_segment sh) (left_drain_state p);
  Ok (mkNlShared (collected sh) next (remaining_build_inputs sh) (remaining_probe_inputs sh) (probe_wakers sh) (left_matches sh),
      mkNlProber (match rows with [] => Drained | _ => DrainEmit rows end) (build_complete p) (cross_state p) (right_matches p) st (nl_pinput p) (nl_emitted p)).

Definition drain_result (op : PhysicalNestedLoopJoin) (offset : nat) (m : MatchTracker) (batch : list Row) : res (list Row) :=
  match nl_join_type op with
  | JoinType.Left | JoinType.Full => left_outer_result (nl_right_types op) offset m batch
  | JoinType.LeftSemi => left_semi_result offset m batch
  | JoinType.LeftMark _ => left_mark_result offset m batch
  | _ => Err "drain for join type"
  end.

(** The output for a batch that is drained. *)
Definition drain_emit (op : PhysicalNestedLoopJoin) (batch : list Row) (sh : NlShared) (p : NlProber) : res (NlShared * NlProber) :=
  out ← drain_result op (relative_scan_offset (left_drain_state p)) (left_matches sh) batch;
  Ok (sh, mkNlProber DrainCheck (build_complete p) (cross_state p) (right_matches p) (left_drain_state p) (nl_pinput p) (nl_emitted p ++ out)).

Definition nl_parked (idx : nat) (sh : NlShared) : bool := default false (probe_wakers sh !! idx).

(** A step of [poll_execute], with the first batch of the input while there is one,
    or of [poll_finalize_execute]; [None] when the partition waits to be woken up
    or is at its end. *)
Definition nl_probe_step (op : PhysicalNestedLoopJoin) (idx : nat) (sh : NlShared) (p : NlProber) : option (res (NlShared * NlProber)) :=
  match nl_pstate p with
  | Executing =>
    match nl_pinput p with
    | [] => Some (finalize_execute op sh p)
    | rhs :: _ =>
      if build_complete p then Some (execute_round op rhs sh p)
      else if nl_parked idx sh then None
      else Some (check_build idx sh p)
    end
  | DrainCheck =>
    if nl_parked idx sh then None
    else if build_complete p then Some (check_probes idx sh p)
    else Some (check_build idx sh p)
  | DrainScan => Some (drain_scan sh p)
  | DrainEmit batch => Some (drain_emit op batch sh p)
  | Drained => None
  end.

(** ** Tasks and schedules *)

Inductive NlTask : Type := NlBuild (idx : nat) | NlProbe (idx : nat).

Definition nl_system_step (op : PhysicalNestedLoopJoin) (t : NlTask) (s : NlSystem) : option (res NlSystem) :=
  match t with
  | NlBuild idx =>
    b ← nl_builders s !! idx;
    r ← nl_build_step op (nl_shared s) b;
    Some ('(sh, b) ← (r : res _); Ok (mkNlSystem sh (<[idx := b]> (nl_builders s)) (nl_probers s)))
  | NlProbe idx =>
    p ← nl_probers s !! idx;
    r ← nl_probe_step op idx (nl_shared s) p;
    Some ('(sh, p) ← (r : res _); Ok (mkNlSystem sh (nl_builders s) (<[idx := p]> (nl_probers s))))
  end.

Inductive nl_step (op : PhysicalNestedLoopJoin) : NlSystem -> NlSystem -> Prop :=
| nl_step_task t s s' : nl_system_step op t s = Some (Ok s') -> nl_step op s s'.

(** [create_operator_state], [create_partition_push_states] and
    [create_partition_execute_states], for the batches of every partition. *)
Definition nl_create (lefts rights : list (list (list Row))) : res NlSystem :=
  let c := collection_new 1 batch_size in
  builds ← count_set None (length lefts);
  wakers ← init_for_partitions [] (length rights);
  probes ← count_set None (length rights);
  let '(states, next) := init_parallel_scan_states (length rights) in
  Ok (mkNlSystem (mkNlShared c next builds probes wakers [])
        (mkNlBuilder Pushing (init_append_state c) <$> lefts)
        (zip_with (fun st bs => mkNlProber Executing false cross_new [] st bs []) states rights)).

Definition nl_finished (s : NlSystem) : Prop :=
  Forall (fun b => nl_bstate b = Built) (nl_builders s) /\ Forall (fun p => nl_pstate p = Drained) (nl_probers s).

(** ** The meaning of a join *)

(** A pair of rows passes the filter. *)
Definition nl_joins (op : PhysicalNestedLoopJoin) (l r : Row) : bool :=
  match nl_filter op with
  | Some f => f (l ++ r)
  | None => true
  end.

Definition nl_pairs (op : PhysicalNestedLoopJoin) (ls rs : list Row) : list Row :=
  concat ((fun l => app l <$> filter (fun r => nl_joins op l r = true) rs) <$> ls).

Definition nl_has_match (op : PhysicalNestedLoopJoin) (rs : list Row) (l : Row) : bool := existsb (nl_joins op l) rs.

Definition nl_right_unmatched (op : PhysicalNestedLoopJoin) (ls rs : list Row) : list Row :=
  app (replicate (nl_left_types op) None) <$> filter (fun r => existsb (fun l => nl_joins op l r) ls = false) rs.

(** What a row of the left side becomes at the end, given whether it has a match. *)
Definition nl_left_row (op : PhysicalNestedLoopJoin) (matched : bool) (l : Row) : list Row :=
  match nl_join_type op with
  | JoinType.Left | JoinType.Full => if matched then [] else [l ++ replicate (nl_right_types op) None]
  | JoinType.LeftSemi => if matched then [l] else []
  | JoinType.LeftMark _ => [l ++ [Some (bool_value matched)]]
  | _ => []
  end.

(** The rows of the join, in some order. *)
Definition nl_join_rows (op : PhysicalNestedLoopJoin) (ls rs : list Row) : list Row :=
  (if left_only (nl_join_type op) then [] else nl_pairs op ls rs)
  ++ (if is_right (nl_join_type op) then nl_right_unmatched op ls rs else [])
  ++ concat ((fun l => nl_left_row op (nl_has_match op rs l) l) <$> ls).

End Operator.

Arguments PhysicalNestedLoopJoin : clear implicits.
Arguments CrossProductState : clear implicits.
Arguments NlShared : clear implicits.
Arguments NlBuilder : clear implicits.
Arguments NlProbeState : clear implicits.
Arguments NlProber : clear implicits.
Arguments NlSystem : clear implicits.
