(* ===== verification/NestedLoopScan.v ===== *)
(** * A round of the nested loop join

    What the cross product, the match tracker and a round of [poll_execute] of
    [NestedLoopJoin] do, on a collection that is complete: the [k]-th round for a
    batch pairs it with the [k]-th row of the collection. *)
From S2P Require Import Prelude PartitionSync LogicalExpr JoinConditions ColumnCollection NestedLoopJoin.

(** ** Match trackers *)

Lemma ensure_initialized_same m : ensure_initialized (length m) m = m.
Proof. unfold ensure_initialized. by rewrite take_ge, Nat.sub_diag, app_nil_r by lia. Qed.

Lemma ensure_initialized_new n : ensure_initialized n [] = replicate n false.
Proof. unfold ensure_initialized. by rewrite take_nil, Nat.sub_0_r. Qed.

Lemma set_matches_spec idxs (m : list bool) : Forall (fun i => i < length m) idxs ->
  set_matches idxs m = Ok (imap (fun i b => bool_decide (i ∈ idxs) || b) m).
Proof.
  revert m. induction idxs as [|i idxs IH]; intros m Hi; cbn [set_matches].
  - f_equal. symmetry. apply list_eq. intros j. rewrite list_lookup_imap. by destruct (m !! j).
  - apply Forall_cons in Hi as [Hi Hr]. unfold set_match. rewrite (proj2 (Nat.ltb_lt _ _)) by done. cbn [mbind res_bind]. rewrite IH by (by rewrite length_insert).
    f_equal. apply list_eq. intros j. rewrite !list_lookup_imap. destruct (decide (i = j)) as [->|Hne].
    + rewrite list_lookup_insert_eq by done. destruct (lookup_lt_is_Some_2 m j Hi) as [b ->]. cbn. f_equal. rewrite orb_true_r. symmetry. apply orb_true_iff. left.
      apply bool_decide_eq_true. set_solver.
    + rewrite list_lookup_insert_ne by done. destruct (m !! j) as [b|]; [|done]. cbn. f_equal. f_equal. apply bool_decide_ext. set_solver.
Qed.

(** The rows whose match has a value, when the matches are a function of the rows. *)
Lemma pick_fmap {R} (g : R -> bool) b rows : pick b (g <$> rows) rows = filter (fun r => g r = b) rows.
Proof. induction rows as [|r rows IH]; [done|]. cbn [fmap list_fmap pick]. rewrite filter_cons, IH. case_bool_decide; by case_decide. Qed.

(** ** Slices of the collection *)

(** Rows that are found at an offset of a list. *)
Definition slice_at {R} (g : list R) (offset : nat) (rows : list R) : Prop := exists before after, g = before ++ rows ++ after /\ length before = offset.

Lemma match_slice_fmap {R} (g : R -> bool) (rows : list R) offset slice :
  slice_at rows offset slice -> match_slice offset (length slice) (g <$> rows) = Ok (g <$> slice).
Proof.
  intros (a & c & -> & <-). unfold match_slice. rewrite (proj2 (Nat.leb_le _ _)) by (rewrite length_fmap, !length_app; lia).
  rewrite !fmap_app, drop_app_length' by (by rewrite length_fmap). by rewrite take_app_length' by (by rewrite length_fmap).
Qed.

Section Slices.
Context {R : Type}.
Implicit Types (c : ColumnChunk R) (cs : list (ColumnChunk R)).

Lemma chunks_slices off cs : chunks_at off cs -> forall pre : list R, length pre = off ->
  Forall (fun c => slice_at (pre ++ rows_of cs) (relative_offset c) (crows c) /\ crows c <> []) cs.
Proof.
  revert off. induction cs as [|c cs IH]; intros off Hc pre Hp; [constructor|]. destruct Hc as (Ho & Hne & Hc). constructor.
  - split; [|done]. exists pre, (rows_of cs). split; [done|lia].
  - specialize (IH _ Hc (pre ++ crows c)). rewrite <- app_assoc in IH. apply IH. rewrite length_app. unfold filled. lia.
Qed.

(** Every chunk of a collection is where its offset says. *)
Lemma collection_slices (col : Collection R) : collection_wf col ->
  Forall (fun c => slice_at (collected_rows col) (relative_offset c) (crows c) /\ crows c <> []) (all_chunks (segments col)).
Proof. intros [Hc _ _]. by apply (chunks_slices 0 _ Hc []). Qed.

End Slices.

(** ** The cross product *)

Section Cross.
Context {V : Type}.
Local Abbreviation Row := (list (option V)).
Implicit Types (col : Collection Row) (cr : CrossProductState V).

(** How many rows of the collection the batch was paired with. *)
Definition scanned (cr : CrossProductState V) : nat := match collection_scan_offset cr with Some offset => S offset | None => 0 end.

Definition cross_ok (col : Collection Row) (cr : CrossProductState V) : Prop :=
  match cross_scan cr with
  | None => cr = cross_new
  | Some st => exists before c, all_chunks (segments col) = before ++ c :: ahead (segments col) st /\ cross_batch cr = crows c
      /\ relative_scan_offset st = relative_offset c /\ batch_row_idx cr < length (crows c)
  end.

Lemma cross_new_ok col : cross_ok col cross_new.
Proof. done. Qed.

(** Where a chunk is among the rows. *)
Lemma chunk_rows col before c after : collection_wf col -> all_chunks (segments col) = before ++ c :: after ->
  collected_rows col = rows_of before ++ crows c ++ rows_of after /\ relative_offset c = length (rows_of before) /\ crows c <> [].
Proof.
  intros [Hc _ _] E. unfold collected_rows. rewrite E in *. apply chunks_at_app in Hc as [_ (Ho & Hne & _)]. rewrite Nat.add_0_l in Ho. split_and!; [|done|done]. by rewrite rows_of_app.
Qed.

Lemma scanned_le col cr : collection_wf col -> cross_ok col cr -> scanned cr <= length (collected_rows col).
Proof.
  intros Hwf Hc. unfold cross_ok, scanned, collection_scan_offset in *. destruct (cross_scan cr) as [st|]; cbn; [|lia]. destruct Hc as (before & c & E & _ & Ho & Hlt).
  destruct (chunk_rows _ _ _ _ Hwf E) as (-> & Hb & _). rewrite !length_app. lia.
Qed.

(** The chunk after those that are paired, or the next row of the current one. *)
Lemma scan_next_chunk col rhs cr before st idx batch : collection_wf col ->
  match cross_scan cr with Some st => (st, S (batch_row_idx cr)) | None => (init_scan_state, 0) end = (st, idx) -> cross_batch cr = batch -> length batch <= idx ->
  all_chunks (segments col) = before ++ ahead (segments col) st ->
  match rows_of (ahead (segments col) st) with
  | [] => scan_next col rhs cr = Ok (None, cross_new)
  | l :: _ => exists cr', scan_next col rhs cr = Ok (Some (app l <$> rhs), cr') /\ cross_ok col cr' /\ collection_scan_offset cr' = Some (length (rows_of before))
  end.
Proof.
  intros Hwf Est <- Hle Hall. destruct (scan_spec col st Hwf) as (rows & st' & Esc & Hsc). unfold scan_next. rewrite Est, (proj2 (Nat.leb_le _ _)), Esc by done. cbn [mbind res_bind].
  destruct (ahead (segments col) st) as [|c cs]; [by destruct Hsc as [-> _]|]. destruct Hsc as (-> & Hah & Hoff).
  destruct (chunk_rows _ _ _ _ Hwf Hall) as (_ & Hb & Hne). destruct (crows c) as [|l ls] eqn:Ec; [done|]. unfold rows_of at 1. cbn [fmap list_fmap concat]. rewrite Ec. cbn [app].
  eexists. split; [done|]. unfold cross_ok, collection_scan_offset. cbn. split; [|f_equal; lia]. exists before, c. rewrite Hah, Ec. split_and!; [done|done|done|simpl; lia].
Qed.

Lemma cross_scan_next_spec col rhs cr : collection_wf col -> cross_ok col cr ->
  match drop (scanned cr) (collected_rows col) with
  | [] => scan_next col rhs cr = Ok (None, cross_new)
  | l :: _ => exists cr', scan_next col rhs cr = Ok (Some (app l <$> rhs), cr') /\ cross_ok col cr' /\ collection_scan_offset cr' = Some (scanned cr)
  end.
Proof.
  intros Hwf Hok. unfold cross_ok, scanned, collection_scan_offset in *. destruct (cross_scan cr) as [st|] eqn:Est; cbn [mbind option_bind].
  - destruct Hok as (before & c & E & Hb & Ho & Hlt). destruct (chunk_rows _ _ _ _ Hwf E) as (-> & Hrel & Hne).
    rewrite drop_app_ge by lia. replace (S (relative_scan_offset st + batch_row_idx cr) - length (rows_of before)) with (S (batch_row_idx cr)) by lia.
    destruct (decide (length (crows c) <= S (batch_row_idx cr))) as [Hle|Hgt].
    + rewrite drop_app_length' by lia. replace (S (relative_scan_offset st + batch_row_idx cr)) with (length (rows_of (before ++ [c]))).
      * eapply scan_next_chunk; [done|by rewrite Est|exact Hb|done|by rewrite <- app_assoc].
      * rewrite rows_of_app. unfold rows_of at 2. cbn. rewrite app_nil_r, length_app. lia.
    + rewrite drop_app_le by lia. destruct (lookup_lt_is_Some_2 (crows c) (S (batch_row_idx cr))) as [l Hl]; [lia|]. rewrite (drop_S _ _ _ Hl). cbn [app].
      eexists. unfold scan_next, index. rewrite Est, Hb, (proj2 (Nat.leb_gt _ _)), Hl by lia. split; [done|]. cbn. split; [|f_equal; lia].
      exists before, c. split_and!; [done|done|done|lia].
  - subst cr. rewrite drop_0. eapply (scan_next_chunk _ _ _ [] init_scan_state 0); [done|done|done|done|]. cbn [app]. unfold ahead, init_scan_state. cbn. by rewrite drop_0.
Qed.

End Cross.

(** ** A round *)

Section Round.
Context {V : Type}.
Local Abbreviation Row := (list (option V)).
Variable op : PhysicalNestedLoopJoin V.
Implicit Types (l r : Row) (rhs : list Row) (sh : NlShared V) (p : NlProber V).

Local Abbreviation jt := (nl_join_type op).

(** The matches of a batch after it was paired with some rows. *)
Definition matches_after (ls rhs : list Row) : list bool := (fun r => existsb (fun l => nl_joins op l r) ls) <$> rhs.

(** Those of a partition: empty before the first row. *)
Definition right_ok (ls rhs : list Row) (m : list bool) : Prop := is_right jt = true -> m = match ls with [] => [] | _ => matches_after ls rhs end.

Lemma matches_after_nil rhs : matches_after [] rhs = replicate (length rhs) false.
Proof. unfold matches_after. cbn. by apply const_fmap. Qed.

Lemma matches_after_snoc ls l rhs : matches_after (ls ++ [l]) rhs = zip_with (fun b r => nl_joins op l r || b) (matches_after ls rhs) rhs.
Proof.
  unfold matches_after. rewrite <- (list_fmap_id rhs) at 3. rewrite zip_with_fmap_l, zip_with_fmap_r, zip_with_diag. apply list_fmap_ext. intros _ r _. rewrite existsb_app. cbn.
  by rewrite orb_false_r, orb_comm.
Qed.

Lemma ensure_right ls rhs m : right_ok ls rhs m -> is_right jt = true -> ensure_initialized (length rhs) m = matches_after ls rhs.
Proof.
  intros Hm Hr. rewrite (Hm Hr). destruct ls as [|l ls]; [by rewrite ensure_initialized_new, matches_after_nil|].
  rewrite <- (length_fmap (fun r => existsb (fun l => nl_joins op l r) (l :: ls)) rhs). apply ensure_initialized_same.
Qed.

(** The selected rows of the pairs with a row. *)
Lemma selected_elem f l rhs i : nl_filter op = Some f -> i ∈ selected f (app l <$> rhs) <-> exists r, rhs !! i = Some r /\ nl_joins op l r = true.
Proof.
  intros Hf. unfold selected, nl_joins. rewrite Hf, list_elem_of_filter, elem_of_seq, list_lookup_fmap, length_fmap. destruct (rhs !! i) as [r|] eqn:Er; cbn.
  - apply lookup_lt_Some in Er. split; [intros [H _]; by exists r|]. intros (r' & [= ->] & H). split; [done|lia].
  - split; [by intros [? _]|by intros (r & ? & _)].
Qed.

Lemma selected_none f l rhs : nl_filter op = Some f -> selected f (app l <$> rhs) = [] -> filter (fun r => nl_joins op l r = true) rhs = [] /\ nl_has_match op rhs l = false.
Proof.
  intros Hf Hs. assert (Hn : forall r, r ∈ rhs -> nl_joins op l r = false).
  { intros r [i Hi]%list_elem_of_lookup. destruct (nl_joins op l r) eqn:Ej; [|done]. assert (i ∈ selected f (app l <$> rhs)) as H by (apply selected_elem; [done|by exists r]).
    rewrite Hs in H. by apply elem_of_nil in H. }
  split.
  - clear Hs. induction rhs as [|r rhs IH]; [done|]. rewrite filter_cons, (Hn r) by set_solver. apply IH. set_solver.
  - unfold nl_has_match. apply not_true_iff_false. rewrite existsb_exists. intros (r & Hr & Ej). by rewrite (Hn r (proj2 (list_elem_of_In _ _) Hr)) in Ej.
Qed.

Lemma selected_some f l rhs i idxs : nl_filter op = Some f -> selected f (app l <$> rhs) = i :: idxs -> nl_has_match op rhs l = true.
Proof.
  intros Hf Hs. assert (Hi : i ∈ selected f (app l <$> rhs)) by (rewrite Hs; set_solver). apply selected_elem in Hi as (r & Hr & Ej); [|done].
  apply existsb_exists. exists r. split; [|done]. apply list_elem_of_In. by eapply list_elem_of_lookup_2.
Qed.

Lemma filter_pairs f l rhs : nl_filter op = Some f -> filter (fun row => f row = true) (app l <$> rhs) = app l <$> filter (fun r => nl_joins op l r = true) rhs.
Proof. intros Hf. unfold nl_joins. rewrite Hf. induction rhs as [|r rhs IH]; [done|]. cbn [fmap list_fmap]. rewrite !filter_cons, IH. by case_decide. Qed.

Lemma set_selected f ls l rhs : nl_filter op = Some f ->
  set_matches (selected f (app l <$> rhs)) (matches_after ls rhs) = Ok (matches_after (ls ++ [l]) rhs).
Proof.
  intros Hf. rewrite set_matches_spec.
  - f_equal. rewrite matches_after_snoc. apply list_eq. intros i. unfold matches_after. rewrite list_lookup_imap, lookup_zip_with, list_lookup_fmap.
    destruct (rhs !! i) as [r|] eqn:Er; cbn; [|done]. f_equal. f_equal.
    destruct (nl_joins op l r) eqn:Ej; [apply bool_decide_eq_true_2|apply bool_decide_eq_false_2]; rewrite selected_elem by done; [by exists r|].
    intros (r' & Er' & Ej'). congruence.
  - apply Forall_forall. intros i (r & Hr & _)%selected_elem; [|done]. unfold matches_after. rewrite length_fmap. by eapply lookup_lt_Some.
Qed.

(** What a round with the row [l] after the rows [ls] leaves. *)
Definition round_matches (lm : list bool) (k : nat) (l : Row) (rhs : list Row) : list bool :=
  if tracks_left jt && nl_has_match op rhs l then <[k := true]> lm else lm.

Definition round_out (l : Row) (rhs : list Row) : list Row := if left_only jt then [] else app l <$> filter (fun r => nl_joins op l r = true) rhs.

Lemma set_left_matches_id sh : set_left_matches (left_matches sh) sh = sh.
Proof. by destruct sh. Qed.

(** A round that selects rows, or none. *)
Lemma selected_round_spec f l rhs ls k cross m sh p : marks_left jt = tracks_left jt -> nl_filter op = Some f -> (is_right jt = true -> m = matches_after ls rhs) ->
  collection_scan_offset cross = Some k -> (tracks_left jt = true -> k < length (left_matches sh)) ->
  exists m', selected_round op f (app l <$> rhs) cross m sh p
      = Ok (set_left_matches (round_matches (left_matches sh) k l rhs) sh, same_input cross m' (round_out l rhs) p)
    /\ (is_right jt = true -> m' = matches_after (ls ++ [l]) rhs).
Proof.
  intros Hml Hf Hm Hk Hlen. unfold selected_round. rewrite Hml. destruct (selected f (app l <$> rhs)) as [|i idxs] eqn:Es.
  - destruct (selected_none f l rhs Hf Es) as [Hp Hh]. unfold round_matches, round_out. rewrite Hh, Hp, andb_false_r, set_left_matches_id. exists m.
    split; [by destruct (left_only jt)|]. intros Hr. rewrite (Hm Hr). pose proof (set_selected f ls l rhs Hf) as H. rewrite Es in H. by injection H.
  - rewrite <- Es. assert (exists m', (if is_right jt then set_matches (selected f (app l <$> rhs)) m else Ok m) = Ok m' /\ (is_right jt = true -> m' = matches_after (ls ++ [l]) rhs)) as (m' & Em & Hm').
    { destruct (is_right jt); [|by eexists]. rewrite (Hm eq_refl), (set_selected f ls l rhs Hf). by eexists. }
    rewrite Em. cbn [mbind res_bind]. exists m'. split; [|done]. unfold round_matches, round_out. rewrite (selected_some f l rhs i idxs Hf Es), andb_true_r, (filter_pairs f l rhs Hf).
    destruct (tracks_left jt) eqn:Et; cbn [mbind res_bind].
    + rewrite Hk. unfold set_match. rewrite (proj2 (Nat.ltb_lt _ _)) by auto. cbn. by destruct (left_only jt).
    + rewrite set_left_matches_id. cbn. by destruct (left_only jt).
Qed.

(** The planner leaves out the filter of inner joins only, and a FULL join is
    refused. *)
Hypothesis marks_ok : marks_left jt = tracks_left jt.
Hypothesis filter_ok : nl_filter op = None -> nl_join_type op = JoinType.Inner.

(** The round for the [k]-th row, and the one at the end of the collection. *)
Lemma execute_round_spec rhs sh p :
  let G := collected_rows (collected sh) in let k := scanned (cross_state p) in
  collection_wf (collected sh) -> cross_ok (collected sh) (cross_state p) -> right_ok (take k G) rhs (right_matches p) ->
  (tracks_left jt = true -> length (left_matches sh) = length G) ->
  match drop k G with
  | [] => execute_round op rhs sh p = Ok (sh, next_input cross_new (if is_right jt then nl_right_unmatched op G rhs else []) p)
  | l :: _ => exists cross m, cross_ok (collected sh) cross /\ scanned cross = S k /\ right_ok (take (S k) G) rhs m
      /\ execute_round op rhs sh p = Ok (set_left_matches (round_matches (left_matches sh) k l rhs) sh, same_input cross m (round_out l rhs) p)
  end.
Proof.
  intros G k Hwf Hcr Hrm Hlen. unfold execute_round. pose proof (cross_scan_next_spec (collected sh) rhs (cross_state p) Hwf Hcr) as Hs. fold G k in Hs.
  set (m := if is_right jt then _ else _). assert (Hm : is_right jt = true -> m = matches_after (take k G) rhs).
  { intros Hr. subst m. rewrite Hr. by apply ensure_right. }
  clearbody m. destruct (drop k G) as [|l rest] eqn:Ed.
  - rewrite Hs. cbn [mbind res_bind]. destruct (is_right jt) eqn:Er; [|done]. unfold right_outer_result. rewrite (Hm eq_refl).
    unfold matches_after. rewrite length_fmap, Nat.eqb_refl. cbn. rewrite pick_fmap, take_ge; [done|]. apply (f_equal length) in Ed. rewrite length_drop in Ed. simpl in Ed. lia.
  - destruct Hs as (cr & -> & Hcr' & Hoff). cbn [mbind res_bind]. assert (Hk : k < length G).
    { apply (f_equal length) in Ed. rewrite length_drop in Ed. simpl in Ed. lia. }
    assert (Hl : G !! k = Some l) by (rewrite <- (Nat.add_0_r k), <- lookup_drop; by rewrite Ed). rewrite (take_S_r _ _ _ Hl).
    assert (Hsc : scanned cr = S k) by (unfold scanned; by rewrite Hoff).
    assert (Hgoal : forall m', (is_right jt = true -> m' = matches_after (take k G ++ [l]) rhs) -> right_ok (take k G ++ [l]) rhs m').
    { intros m' H Hr. rewrite (H Hr). by destruct (take k G). }
    destruct rhs as [|r rhs'].
    { exists cr, m. split_and!; [done|done|apply Hgoal; intros Hr; by rewrite (Hm Hr)|]. cbn. unfold round_matches, round_out. cbn.
      rewrite andb_false_r, set_left_matches_id. by destruct (left_only jt). }
    remember (r :: rhs') as rhs eqn:Erhs. replace (app l <$> rhs) with ((l ++ r) :: (app l <$> rhs')) by (by subst).
    assert (Erows : (l ++ r) :: (app l <$> rhs') = app l <$> rhs) by (by subst). destruct (nl_filter op) as [f|] eqn:Ef.
    + rewrite Erows. destruct (selected_round_spec f l rhs (take k G) k cr m sh p marks_ok Ef Hm Hoff) as (m' & E & Hm'); [intros Ht; rewrite Hlen by done; lia|].
      exists cr, m'. by split_and!; [| |apply Hgoal|].
    + pose proof (filter_ok eq_refl) as Hj. unfold round_matches, round_out, right_ok. rewrite Hj. cbn. exists cr, m. split_and!; [done|done|done|].
      rewrite set_left_matches_id, Erows. do 4 f_equal. unfold nl_joins. rewrite Ef. clear. induction rhs as [|x rhs IH]; [done|]. rewrite filter_cons. cbn. by f_equal.
Qed.

End Round.
