(* ===== verification/NestedLoopSteps.v ===== *)
(** * The invariant of the nested loop join

    What holds between the steps of the build and probe partitions of
    [NestedLoopJoin]: which rows are still owed by the partitions, which matches of
    the rows of the build side are still to be found, and who waits.  Every step
    keeps it and makes a measure smaller. *)
From S2P Require Import Prelude PartitionSync LogicalExpr JoinConditions ColumnCollection NestedLoopJoin NestedLoopScan.

(** Fields of states that were just built. *)
Ltac nl_fields := cbn [nl_shared nl_builders nl_probers set_wakers set_collected set_left_matches set_pstate collected drain_next_segment remaining_build_inputs remaining_probe_inputs
  probe_wakers left_matches nl_bstate append_state nl_binput nl_pstate build_complete cross_state right_matches left_drain_state nl_pinput nl_emitted next_input same_input].

(** ** Any and concatenation of updated lists *)

Lemma existsb_insert {A} (f : A -> bool) l i x y : l !! i = Some x ->
  exists b, existsb f l = f x || b /\ existsb f (<[i := y]> l) = f y || b.
Proof.
  revert i. induction l as [|z l IH]; intros [|i] Hi; simplify_eq/=; [by eexists|].
  destruct (IH i Hi) as (b & -> & ->). exists (f z || b). by destruct (f z), (f x), (f y), b.
Qed.

Lemma concat_map_insert {A B} (f : A -> list B) l i x y : l !! i = Some x ->
  exists rest, concat (f <$> l) ≡ₚ f x ++ rest /\ concat (f <$> <[i := y]> l) ≡ₚ f y ++ rest.
Proof. intros Hi. rewrite list_fmap_insert. apply concat_insert. by rewrite list_lookup_fmap, Hi. Qed.

(** ** The meaning of the join *)

Section Meaning.
Context {V : Type}.
Local Abbreviation Row := (list (option V)).
Variable bool_value : bool -> V.
Variable op : PhysicalNestedLoopJoin V.
Implicit Types (ls rs : list Row).
Local Abbreviation jt := (nl_join_type op).

Lemma nl_pairs_app_l ls ls' rs : nl_pairs op (ls ++ ls') rs = nl_pairs op ls rs ++ nl_pairs op ls' rs.
Proof. unfold nl_pairs. by rewrite fmap_app, concat_app. Qed.

Lemma nl_pairs_app_r ls rs rs' : nl_pairs op ls (rs ++ rs') ≡ₚ nl_pairs op ls rs ++ nl_pairs op ls rs'.
Proof.
  induction ls as [|l ls IH]; [done|]. unfold nl_pairs in *. cbn [fmap list_fmap concat]. rewrite IH, filter_app, fmap_app. solve_Permutation.
Qed.

#[global] Instance nl_pairs_proper : Proper ((≡ₚ) ==> (=) ==> (≡ₚ)) (nl_pairs op).
Proof. intros ls ls' Hl rs ? <-. unfold nl_pairs. by rewrite Hl. Qed.

Lemma existsb_perm {A} (f : A -> bool) l l' : l ≡ₚ l' -> existsb f l = existsb f l'.
Proof. induction 1 as [|x l l' _ IH|x y l|l l' l'' _ IH1 _ IH2]; cbn; [done|by rewrite IH|by destruct (f x), (f y)|by rewrite IH1]. Qed.

Lemma nl_right_unmatched_perm ls ls' rs : ls ≡ₚ ls' -> nl_right_unmatched op ls rs = nl_right_unmatched op ls' rs.
Proof. intros Hl. unfold nl_right_unmatched. f_equal. apply list_filter_iff. intros r. by rewrite (existsb_perm _ _ _ Hl). Qed.

Lemma nl_right_unmatched_app ls rs rs' : nl_right_unmatched op ls (rs ++ rs') = nl_right_unmatched op ls rs ++ nl_right_unmatched op ls rs'.
Proof. unfold nl_right_unmatched. by rewrite filter_app, fmap_app. Qed.

(** What a batch of the right side still gives after [k] rows of the left side. *)
Definition batch_rest (ls : list Row) (k : nat) (rhs : list Row) : list Row :=
  (if left_only jt then [] else nl_pairs op (drop k ls) rhs) ++ (if is_right jt then nl_right_unmatched op ls rhs else []).

Lemma batch_rest_all ls (batches : list (list Row)) :
  concat (batch_rest ls 0 <$> batches)
  ≡ₚ (if left_only jt then [] else nl_pairs op ls (concat batches)) ++ (if is_right jt then nl_right_unmatched op ls (concat batches) else []).
Proof.
  unfold batch_rest. rewrite drop_0. induction batches as [|b bs IH]; cbn [fmap list_fmap concat].
  - replace (nl_pairs op ls []) with (@nil Row); [by destruct (left_only jt), (is_right jt)|]. unfold nl_pairs. clear. by induction ls.
  - rewrite IH. destruct (left_only jt), (is_right jt); rewrite ?nl_pairs_app_r, ?nl_right_unmatched_app; solve_Permutation.
Qed.

(** A row of the left side at the end. *)
Definition drained_rows (rs ls : list Row) : list Row := concat ((fun l => nl_left_row bool_value op (nl_has_match op rs l) l) <$> ls).

Lemma drained_rows_app rs ls ls' : drained_rows rs (ls ++ ls') = drained_rows rs ls ++ drained_rows rs ls'.
Proof. unfold drained_rows. by rewrite fmap_app, concat_app. Qed.

#[global] Instance drained_rows_proper rs : Proper ((≡ₚ) ==> (≡ₚ)) (drained_rows rs).
Proof. intros ls ls' Hl. unfold drained_rows. by rewrite Hl. Qed.

Lemma drained_rows_untracked rs ls : tracks_left jt = false -> drained_rows rs ls = [].
Proof. unfold drained_rows, nl_left_row. intros Ht. induction ls as [|l ls IH]; [done|]. cbn [fmap list_fmap concat]. rewrite IH. by destruct jt. Qed.

Lemma nl_join_rows_batches ls ls' (batches : list (list Row)) : ls ≡ₚ ls' ->
  concat (batch_rest ls 0 <$> batches) ++ drained_rows (concat batches) ls ≡ₚ nl_join_rows bool_value op ls' (concat batches).
Proof.
  intros Hl. rewrite batch_rest_all. unfold nl_join_rows. fold (drained_rows (concat batches) ls'). rewrite (nl_right_unmatched_perm _ _ _ Hl), <- app_assoc.
  apply Permutation_app; [|by rewrite Hl]. destruct (left_only jt); [done|by rewrite Hl].
Qed.

(** The result for a slice that is drained, when the matches are complete. *)
Lemma drain_result_spec rs (G : list Row) offset batch : tracks_left jt = true -> is_ok (nested_loop_join_new jt (nl_left_types op) (nl_right_types op) (nl_filter op)) = true ->
  slice_at G offset batch -> drain_result bool_value op offset (nl_has_match op rs <$> G) batch = Ok (drained_rows rs batch).
Proof.
  intros Ht Hn Hs. pose proof (match_slice_fmap (nl_has_match op rs) G offset batch Hs) as E. unfold drain_result, left_outer_result, left_semi_result, left_mark_result, drained_rows, nl_left_row.
  rewrite E. cbn [mbind res_bind]. destruct jt; try done; rewrite ?pick_fmap; f_equal; clear.
  - induction batch as [|l b IH]; [done|]. rewrite filter_cons. cbn [fmap list_fmap concat]. rewrite <- IH. by destruct (nl_has_match op rs l).
  - induction batch as [|l b IH]; [done|]. rewrite filter_cons. cbn [fmap list_fmap concat]. rewrite <- IH. by destruct (nl_has_match op rs l).
  - induction batch as [|l b IH]; [done|]. cbn [fmap list_fmap zip_with concat]. by rewrite IH.
Qed.

End Meaning.

(** ** The invariant *)

(** The inputs: as many partitions as a session can have, and batches with room. *)
Record nl_input {V} (batch_size : nat) (op : PhysicalNestedLoopJoin V) (lefts rights : list (list (list (list (option V))))) : Prop := {
  nli_supported : nested_loop_join_new (nl_join_type op) (nl_left_types op) (nl_right_types op) (nl_filter op) = Ok op;
  nli_filter : nl_filter op = None -> nl_join_type op = JoinType.Inner;
  nli_batch : 0 < batch_size;
  nli_lefts : MIN_PARTITION_COUNT <= length lefts <= MAX_PARTITION_COUNT;
  nli_rights : MIN_PARTITION_COUNT <= length rights <= MAX_PARTITION_COUNT;
}.

Section Inv.
Context {V : Type}.
Local Abbreviation Row := (list (option V)).
Variable bool_value : bool -> V.
Variable batch_size : nat.
Variable op : PhysicalNestedLoopJoin V.
Variables lefts rights : list (list (list Row)).
Hypothesis Hin : nl_input batch_size op lefts rights.
Implicit Types (l r : Row) (sh : NlShared V) (b : NlBuilder V) (p : NlProber V) (ps : list (NlProber V)) (s : NlSystem V).

Local Abbreviation jt := (nl_join_type op).
Local Abbreviation n := (length rights).
Local Abbreviation all_left := (concat (concat lefts)).
Local Abbreviation all_right := (concat (concat rights)).

Definition unbuilt b : nat := match nl_bstate b with Built => 0 | _ => 1 end.
Definition executing p : nat := match nl_pstate p with Executing => 1 | _ => 0 end.

(** What a partition still owes of its input, and whether it will still match a row
    of the left side. *)
Definition rest_out (G : list Row) p : list Row :=
  match nl_pinput p with
  | [] => []
  | rhs :: rest => batch_rest op G (scanned (cross_state p)) rhs ++ concat (batch_rest op G 0 <$> rest)
  end.

Definition rest_match (i : nat) l p : bool :=
  match nl_pinput p with
  | [] => false
  | rhs :: rest => (scanned (cross_state p) <=? i) && nl_has_match op rhs l || nl_has_match op (concat rest) l
  end.

(** The rows a partition has yet to scan, in its segment and in the next one that
    it took, and those it has yet to drain. *)
Definition unscanned (segs : list (Segment Row)) p : list Row :=
  rows_of (local_chunks (left_drain_state p)) ++ rows_of (from_option chunks [] (segs !! next_segment_idx (left_drain_state p))).

Definition undrained (segs : list (Segment Row)) p : list Row :=
  match nl_pstate p with DrainEmit batch => batch | _ => [] end ++ unscanned segs p.

Definition untaken sh : list Row := rows_of (all_chunks (drop (drain_next_segment sh) (segments (collected sh)))).

Record prober_ok sh (rp : nat) p : Prop := {
  po_next : next_segment_idx (left_drain_state p) < drain_next_segment sh;
  po_local : Forall (fun c => slice_at (collected_rows (collected sh)) (relative_offset c) (crows c) /\ crows c <> []) (local_chunks (left_drain_state p));
  po_cross : cross_ok (collected sh) (cross_state p);
  po_state :
    match nl_pstate p with
    | Executing => (nl_pinput p = [] -> cross_state p = cross_new)
        /\ forall rhs rest, nl_pinput p = rhs :: rest -> right_ok op (take (scanned (cross_state p)) (collected_rows (collected sh))) rhs (right_matches p)
    | DrainCheck => nl_pinput p = [] /\ tracks_left jt = true
    | DrainScan => nl_pinput p = [] /\ tracks_left jt = true /\ rp = 0
    | DrainEmit batch => nl_pinput p = [] /\ tracks_left jt = true /\ rp = 0
        /\ slice_at (collected_rows (collected sh)) (relative_scan_offset (left_drain_state p)) batch
    | Drained => nl_pinput p = [] /\ (tracks_left jt = true -> local_chunks (left_drain_state p) = []
        /\ segments (collected sh) !! next_segment_idx (left_drain_state p) = None)
    end;
}.

(** When all rows are collected. *)
Record probing sh ps (rp : nat) : Prop := {
  pb_rows : collected_rows (collected sh) ≡ₚ all_left;
  pb_probers : forall i p, ps !! i = Some p -> prober_ok sh rp p;
  pb_matches : tracks_left jt = true -> length (left_matches sh) = length (collected_rows (collected sh))
    /\ forall i l, collected_rows (collected sh) !! i = Some l -> default false (left_matches sh !! i) || existsb (rest_match i l) ps = nl_has_match op all_right l;
  pb_out : concat (nl_emitted <$> ps) ++ concat (rest_out (collected_rows (collected sh)) <$> ps)
      ++ drained_rows bool_value op all_right (concat (undrained (segments (collected sh)) <$> ps) ++ untaken sh)
    ≡ₚ nl_join_rows bool_value op all_left all_right;
}.

(** A partition that has not started. *)
Definition idle (i : nat) (batches : list (list Row)) p : Prop :=
  exists st, p = mkNlProber st false cross_new [] (mkScan 0 i None 0) batches []
    /\ (st = Executing \/ batches = [] /\ st = if tracks_left jt then DrainCheck else Drained).

Definition pending_rows b : list Row := rows_of (chunks (append_state b)) ++ concat (nl_binput b).

(** Until then. *)
Record building sh (bs : list (NlBuilder V)) ps : Prop := {
  bu_builders : forall i b, bs !! i = Some b -> append_wf batch_size (append_state b) /\ (nl_bstate b <> Pushing -> pending_rows b = []);
  bu_rows : collected_rows (collected sh) ++ concat (pending_rows <$> bs) ≡ₚ all_left;
  bu_probers : forall i p, ps !! i = Some p -> exists batches, rights !! i = Some batches /\ idle i batches p;
  bu_matches : left_matches sh = [];
  bu_next : drain_next_segment sh = n;
}.

(** A waker is stored only by a partition that has to wait. *)
Definition parked_ok (rb rp : nat) (w : list bool) ps : Prop :=
  forall i, w !! i = Some true -> exists p, ps !! i = Some p
    /\ match nl_pstate p with Executing => 0 < rb /\ nl_pinput p <> [] | DrainCheck => tracks_left jt = true /\ (0 < rb \/ 0 < rp) | _ => False end.

Record nl_inv s : Prop := {
  ni_build : remaining_build_inputs (nl_shared s) = Some (total unbuilt (nl_builders s));
  ni_probe : remaining_probe_inputs (nl_shared s) = Some (total executing (nl_probers s));
  ni_probers : length (nl_probers s) = n;
  ni_wakers : length (probe_wakers (nl_shared s)) = n;
  ni_parked : parked_ok (total unbuilt (nl_builders s)) (total executing (nl_probers s)) (probe_wakers (nl_shared s)) (nl_probers s);
  ni_wf : collection_wf (collected (nl_shared s));
  ni_capacity : col_chunk_capacity (collected (nl_shared s)) = batch_size;
  ni_phase : if decide (total unbuilt (nl_builders s) = 0) then probing (nl_shared s) (nl_probers s) (total executing (nl_probers s))
    else building (nl_shared s) (nl_builders s) (nl_probers s);
}.

(** ** The measure *)

Definition build_work b : nat := length (nl_binput b) + match nl_bstate b with Pushing => 2 | Flushed => 1 | Built => 0 end.

Definition probe_work p : nat :=
  (if build_complete p then 0 else 1) +
  match nl_pstate p with
  | Executing => 5 + (S (length all_left) * length (nl_pinput p) - scanned (cross_state p))
  | DrainCheck => 2
  | DrainScan => 1
  | DrainEmit _ => 4
  | Drained => 0
  end.

(** Rows that are not scanned in a drain. *)
Definition drain_work s : nat :=
  if decide (total unbuilt (nl_builders s) = 0) then
    4 * (total (fun p => length (unscanned (segments (collected (nl_shared s))) p)) (nl_probers s) + length (untaken (nl_shared s)))
  else 4 * length all_left.

Definition nl_tasks s : nat := total build_work (nl_builders s) + total probe_work (nl_probers s) + drain_work s.

Definition unparked (w : list bool) : nat := total (fun b : bool => if b then 0 else 1) w.

Definition nl_work s : nat := S n * nl_tasks s + unparked (probe_wakers (nl_shared s)).

Definition nl_good s (r : res (NlSystem V)) : Prop := exists s', r = Ok s' /\ nl_inv s' /\ nl_work s' < nl_work s.

(** ** Shared lemmas *)

Lemma unparked_le w : unparked w <= length w.
Proof. unfold unparked, total. induction w as [|[] w IH]; [done|..]; cbn in *; lia. Qed.

(** A step that works is worth more than all wakers. *)
Lemma work_less s s' : nl_tasks s' < nl_tasks s -> length (probe_wakers (nl_shared s')) = n -> nl_work s' < nl_work s.
Proof. intros Ht Hw. unfold nl_work. pose proof (unparked_le (probe_wakers (nl_shared s'))). nia. Qed.

Lemma parked_woken rb rp w ps : parked_ok rb rp (wake_all w) ps.
Proof. intros i Hi. unfold wake_all in Hi. rewrite list_lookup_fmap in Hi. by destruct (w !! i). Qed.

Lemma parked_move rb rp rp' w ps idx p' : parked_ok rb rp w ps -> w !! idx <> Some true -> (tracks_left jt = true -> 0 < rp -> 0 < rp') -> parked_ok rb rp' w (<[idx := p']> ps).
Proof.
  intros Hp Hi Hrp i Hw. destruct (Hp i Hw) as (p & Hip & Hst). exists p. rewrite list_lookup_insert_ne by (by intros ->). split; [done|]. destruct (nl_pstate p); tauto.
Qed.

Lemma nl_parked_store rb rp w ps idx p : parked_ok rb rp w ps -> ps !! idx = Some p ->
  match nl_pstate p with Executing => 0 < rb /\ nl_pinput p <> [] | DrainCheck => tracks_left jt = true /\ (0 < rb \/ 0 < rp) | _ => False end -> parked_ok rb rp (<[idx := true]> w) ps.
Proof. intros Hp Hi Hst i Hw. destruct (decide (idx = i)) as [<-|Hne]; [by exists p|]. rewrite list_lookup_insert_ne in Hw by done. by apply Hp. Qed.

Lemma unparked_store w idx : idx < length w -> default false (w !! idx) = false -> unparked (<[idx := true]> w) < unparked w.
Proof.
  intros Hlt Hd. destruct (lookup_lt_is_Some_2 w idx Hlt) as [b Hb]. rewrite Hb in Hd. cbn in Hd. subst b. unfold unparked.
  pose proof (total_insert (fun b : bool => if b then 0 else 1) w idx false true Hb) as H. cbn in H. lia.
Qed.

Lemma existsb_empty {A} (f : A -> bool) (l : list A) : (forall x, x ∈ l -> f x = false) -> existsb f l = false.
Proof. intros H. apply not_true_iff_false. rewrite existsb_exists. intros (x & Hx%list_elem_of_In & E). by rewrite H in E. Qed.

(** One prober goes on, and gives what it owes. *)
Lemma probing_update sh ps rp idx p sh' p' rp' :
  probing sh ps rp -> ps !! idx = Some p -> collected sh' = collected sh -> rp' <= rp -> drain_next_segment sh <= drain_next_segment sh' -> prober_ok sh' rp' p' ->
  (tracks_left jt = true -> length (left_matches sh') = length (left_matches sh)
    /\ forall i l, collected_rows (collected sh) !! i = Some l ->
         default false (left_matches sh' !! i) || rest_match i l p' = default false (left_matches sh !! i) || rest_match i l p) ->
  (let G := collected_rows (collected sh) in let segs := segments (collected sh) in let rows := drained_rows bool_value op all_right in
    nl_emitted p' ++ rest_out G p' ++ rows (undrained segs p' ++ untaken sh') ≡ₚ nl_emitted p ++ rest_out G p ++ rows (undrained segs p ++ untaken sh)) ->
  probing sh' (<[idx := p']> ps) rp'.
Proof.
  intros [Hrows Hps Hm Ho] Hp Hc Hrp Hdn Hok Hm' Ho'. constructor; rewrite ?Hc; [done| | |].
  - intros i q [(<- & -> & _)|[Hne Hq]]%list_lookup_insert_Some; [done|]. destruct (Hps i q Hq) as [H1 H2 H3 H4]. constructor; rewrite ?Hc; [lia|done|done|].
    destruct (nl_pstate q); try done; destruct H4 as (? & ? & H4); [split_and!; [done|done|lia]|]. destruct H4. split_and!; [done|done|lia|done].
  - intros Ht. destruct (Hm Ht) as [Hl Hi]. destruct (Hm' Ht) as [Hl' Hi']. split; [congruence|]. intros i l Hil. rewrite <- (Hi i l Hil).
    specialize (Hi' i l Hil). destruct (existsb_insert (rest_match i l) ps idx p p' Hp) as (b & -> & ->). by rewrite !orb_assoc, Hi'.
  - rewrite <- Ho. destruct (concat_map_insert nl_emitted ps idx p p' Hp) as (r1 & -> & ->).
    destruct (concat_map_insert (rest_out (collected_rows (collected sh))) ps idx p p' Hp) as (r2 & -> & ->).
    destruct (concat_map_insert (undrained (segments (collected sh))) ps idx p p' Hp) as (r3 & -> & ->). cbn zeta in Ho'. revert Ho'. rewrite !drained_rows_app. intros Ho'.
    transitivity ((nl_emitted p' ++ rest_out (collected_rows (collected sh)) p'
      ++ drained_rows bool_value op all_right (undrained (segments (collected sh)) p') ++ drained_rows bool_value op all_right (untaken sh'))
      ++ r1 ++ r2 ++ drained_rows bool_value op all_right r3); [solve_Permutation|]. rewrite Ho'. solve_Permutation.
Qed.

(** A batch that was not paired yet. *)
Lemma rest_out_fresh (H : list Row) p : cross_state p = cross_new -> rest_out H p = concat (batch_rest op H 0 <$> nl_pinput p).
Proof. intros Hc. unfold rest_out. rewrite Hc. by destruct (nl_pinput p). Qed.

Lemma rest_match_fresh i l p : cross_state p = cross_new -> rest_match i l p = nl_has_match op (concat (nl_pinput p)) l.
Proof. intros Hc. unfold rest_match. rewrite Hc. destruct (nl_pinput p) as [|rhs rest]; [done|]. cbn [concat]. unfold nl_has_match. by rewrite existsb_app. Qed.

(** ** The probe side *)

Lemma probing_inv s : nl_inv s -> total unbuilt (nl_builders s) = 0 -> probing (nl_shared s) (nl_probers s) (total executing (nl_probers s)).
Proof. intros Hinv Hrb. pose proof (ni_phase s Hinv) as H. by rewrite decide_True in H by done. Qed.

Lemma waker_stored s idx p : nl_inv s -> nl_probers s !! idx = Some p -> store_waker (probe_wakers (nl_shared s)) idx = Ok (<[idx := true]> (probe_wakers (nl_shared s))).
Proof.
  intros Hinv Hp%lookup_lt_Some. unfold store_waker. rewrite (proj2 (Nat.ltb_lt _ _)); [done|]. by rewrite (ni_wakers s Hinv), <- (ni_probers s Hinv).
Qed.

(** A partition that has to wait. *)
Lemma park_good s idx p : nl_inv s -> nl_probers s !! idx = Some p -> nl_parked idx (nl_shared s) = false ->
  match nl_pstate p with
  | Executing => 0 < total unbuilt (nl_builders s) /\ nl_pinput p <> []
  | DrainCheck => tracks_left jt = true /\ (0 < total unbuilt (nl_builders s) \/ 0 < total executing (nl_probers s))
  | _ => False
  end ->
  nl_good s (Ok (mkNlSystem (set_wakers (<[idx := true]> (probe_wakers (nl_shared s))) (nl_shared s)) (nl_builders s) (<[idx := p]> (nl_probers s)))).
Proof.
  intros Hinv Hp Hpk Hst. rewrite (list_insert_id _ _ _ Hp). eexists. split; [done|]. split.
  - destruct Hinv. constructor; nl_fields; rewrite ?length_insert; try done.
    + by eapply nl_parked_store.
    + destruct (decide _); destruct ni_phase0 as [H1 H2 H3 H4]; constructor; try done. intros i q Hq. by destruct (H2 i q Hq).
  - assert (idx < length (probe_wakers (nl_shared s))) as Hlt by (rewrite (ni_wakers s Hinv), <- (ni_probers s Hinv); by eapply lookup_lt_Some).
    pose proof (unparked_store _ idx Hlt Hpk). unfold nl_work, nl_tasks, drain_work, untaken. nl_fields. lia.
Qed.

(** A step of a prober when all rows are collected. *)
Lemma probe_good s idx p sh' p' : nl_inv s -> total unbuilt (nl_builders s) = 0 -> nl_probers s !! idx = Some p ->
  remaining_build_inputs sh' = remaining_build_inputs (nl_shared s) -> remaining_probe_inputs sh' = Some (total executing (<[idx := p']> (nl_probers s))) ->
  length (probe_wakers sh') = n -> parked_ok 0 (total executing (<[idx := p']> (nl_probers s))) (probe_wakers sh') (<[idx := p']> (nl_probers s)) ->
  collected sh' = collected (nl_shared s) -> probing sh' (<[idx := p']> (nl_probers s)) (total executing (<[idx := p']> (nl_probers s))) ->
  (let segs := segments (collected sh') in probe_work p' + 4 * (length (unscanned segs p') + length (untaken sh'))
    < probe_work p + 4 * (length (unscanned segs p) + length (untaken (nl_shared s)))) ->
  nl_good s (Ok (mkNlSystem sh' (nl_builders s) (<[idx := p']> (nl_probers s)))).
Proof.
  intros Hinv Hrb Hp Hb Hpr Hw Hpk Hc Hpb Hlt. eexists. split; [done|]. split.
  - destruct Hinv. constructor; nl_fields; rewrite ?length_insert, ?Hb, ?Hc, ?Hrb; try done. congruence.
  - apply work_less; [|done]. unfold nl_tasks, drain_work. nl_fields. rewrite !decide_True by done. rewrite Hc in *.
    pose proof (total_insert probe_work _ idx p p' Hp). pose proof (total_insert (fun p => length (unscanned (segments (collected (nl_shared s))) p)) _ idx p p' Hp). cbn in *. lia.
Qed.

Section ProbeStep.
Variables (s : NlSystem V) (idx : nat) (p : NlProber V).
Hypothesis Hinv : nl_inv s.
Hypothesis Hrb : total unbuilt (nl_builders s) = 0.
Hypothesis Hp : nl_probers s !! idx = Some p.
Local Abbreviation sh := (nl_shared s).
Local Abbreviation G := (collected_rows (collected sh)).
Local Abbreviation moved r := ('(sh', p') ← r; Ok (mkNlSystem sh' (nl_builders s) (<[idx := p']> (nl_probers s)))).

Lemma prober_is_ok : prober_ok sh (total executing (nl_probers s)) p.
Proof. by apply (pb_probers _ _ _ (probing_inv s Hinv Hrb)) with idx. Qed.

Lemma length_collected : length G = length all_left.
Proof. by rewrite (pb_rows _ _ _ (probing_inv s Hinv Hrb)). Qed.

(** Only a partition that waits for the others is parked. *)
Lemma nl_not_parked : nl_pstate p <> DrainCheck -> probe_wakers sh !! idx <> Some true.
Proof.
  intros Hst Hw. destruct (ni_parked s Hinv idx Hw) as (q & Hq & Hs). rewrite Hp in Hq. injection Hq as <-. rewrite Hrb in Hs. destruct (nl_pstate p); try done. destruct Hs. lia.
Qed.

Lemma unparked_waker : nl_parked idx sh = false -> probe_wakers sh !! idx <> Some true.
Proof. unfold nl_parked. by intros Hd Hw; rewrite Hw in Hd. Qed.

(** A step that leaves the counts and the wakers. *)
Lemma local_good sh' p' : probe_wakers sh !! idx <> Some true -> executing p' = executing p ->
  (remaining_build_inputs sh', remaining_probe_inputs sh', probe_wakers sh') = (remaining_build_inputs sh, remaining_probe_inputs sh, probe_wakers sh) ->
  collected sh' = collected sh -> drain_next_segment sh <= drain_next_segment sh' -> prober_ok sh' (total executing (nl_probers s)) p' ->
  (tracks_left jt = true -> length (left_matches sh') = length (left_matches sh)
    /\ forall i l, G !! i = Some l -> default false (left_matches sh' !! i) || rest_match i l p' = default false (left_matches sh !! i) || rest_match i l p) ->
  (let segs := segments (collected sh) in let rows := drained_rows bool_value op all_right in
    nl_emitted p' ++ rest_out G p' ++ rows (undrained segs p' ++ untaken sh') ≡ₚ nl_emitted p ++ rest_out G p ++ rows (undrained segs p ++ untaken sh)) ->
  (let segs := segments (collected sh) in probe_work p' + 4 * (length (unscanned segs p') + length (untaken sh'))
    < probe_work p + 4 * (length (unscanned segs p) + length (untaken sh))) ->
  nl_good s (Ok (mkNlSystem sh' (nl_builders s) (<[idx := p']> (nl_probers s)))).
Proof.
  intros Hw He [= Hb Hpr Hwk] Hc Hdn Hok Hm Ho Hlt. pose proof (total_insert executing _ idx p p' Hp) as Ht. assert (total executing (<[idx := p']> (nl_probers s)) = total executing (nl_probers s)) as Ht' by lia.
  eapply probe_good; try done; rewrite ?Ht', ?Hwk, ?Hpr, ?Hc; try apply Hinv.
  - eapply parked_move; [|done|done]. pose proof (ni_parked s Hinv) as H. by rewrite Hrb in H.
  - eapply probing_update; [by apply probing_inv|done..].
  - done.
Qed.

(** The build side is found complete. *)
Lemma build_checked : build_complete p = false -> probe_wakers sh !! idx <> Some true -> nl_good s (moved (check_build idx sh p)).
Proof.
  intros Hbc Hw. unfold check_build. rewrite (ni_build s Hinv), Hrb. cbn [count_current mbind res_bind Nat.ltb Nat.leb]. pose proof prober_is_ok as [H1 H2 H3 H4].
  apply local_good; nl_fields; try done. unfold probe_work, unscanned. nl_fields. rewrite Hbc. lia.
Qed.

(** All partitions are done, or this one waits. *)
Lemma probes_checked : nl_pstate p = DrainCheck -> nl_parked idx sh = false -> nl_good s (moved (check_probes idx sh p)).
Proof.
  intros Hst Hpk. unfold check_probes. rewrite (ni_probe s Hinv). cbn [count_current mbind res_bind]. pose proof prober_is_ok as [H1 H2 H3 H4]. rewrite Hst in H4. destruct H4 as [H4 Ht].
  destruct (Nat.ltb_spec 0 (total executing (nl_probers s))) as [Hpos|Hz].
  - rewrite (waker_stored s idx p Hinv Hp). cbn [mbind res_bind]. apply park_good; try done. rewrite Hst. tauto.
  - apply local_good; nl_fields; try done; [by apply unparked_waker|unfold executing; nl_fields; by rewrite Hst| | |].
    + constructor; nl_fields; try done. split_and!; [done|done|lia].
    + unfold undrained. nl_fields. by rewrite Hst.
    + unfold probe_work, unscanned. nl_fields. rewrite Hst. lia.
Qed.

(** The end of the input. *)
Lemma probe_finalized : nl_pstate p = Executing -> nl_pinput p = [] -> nl_good s (moved (finalize_execute op sh p)).
Proof.
  intros Hst Hi. unfold finalize_execute. rewrite (ni_probe s Hinv). pose proof (total_lookup executing _ _ _ Hp) as Hpos. unfold executing at 1 in Hpos. rewrite Hst in Hpos.
  set (p' := set_pstate _ p). assert (He : executing p' = 0) by (unfold p', executing; nl_fields; by destruct (tracks_left jt)).
  pose proof (total_insert executing _ idx p p' Hp) as Ht. rewrite He in Ht. unfold executing at 2 in Ht. rewrite Hst in Ht.
  destruct (total executing (nl_probers s)) as [|rp] eqn:Erp; [lia|]. cbn [dec_by_one mbind res_bind]. assert (total executing (<[idx := p']> (nl_probers s)) = rp) as Ht' by lia.
  pose proof prober_is_ok as [H1 H2 H3 H4]. pose proof (ni_parked s Hinv) as Hpk. rewrite Hrb, Erp in Hpk. assert (Hw : probe_wakers sh !! idx <> Some true) by (apply nl_not_parked; by rewrite Hst).
  apply probe_good with p; nl_fields; rewrite ?Ht'; try done.
  - destruct (_ && _); [unfold wake_all; rewrite length_fmap|]; apply Hinv.
  - destruct (tracks_left jt && bool_decide (Some rp = Some 0)) eqn:E; [apply parked_woken|]. apply parked_move with (S rp); [done|done|]. intros Htr _. rewrite Htr in E.
    apply bool_decide_eq_false in E. destruct rp; [done|lia].
  - pose proof (probing_inv s Hinv Hrb) as Hpb. rewrite Erp in Hpb. eapply probing_update; nl_fields; [done|done|done|lia|done| | |].
    + constructor; nl_fields; try done. destruct (tracks_left jt) eqn:Etr; [done|]. by split.
    + done.
    + unfold undrained, untaken. subst p'. nl_fields. rewrite Hst. by destruct (tracks_left jt).
  - unfold probe_work, unscanned, untaken. subst p'. nl_fields. rewrite Hst. destruct (tracks_left jt); lia.
Qed.

(** The end of the collection: the next batch. *)
Lemma round_last rhs rest out : nl_pstate p = Executing -> nl_pinput p = rhs :: rest -> drop (scanned (cross_state p)) G = [] ->
  out = (if is_right jt then nl_right_unmatched op G rhs else []) -> nl_good s (Ok (mkNlSystem sh (nl_builders s) (<[idx := next_input cross_new out p]> (nl_probers s)))).
Proof.
  intros Hst Hi Hd ->. pose proof prober_is_ok as [H1 H2 H3 H4]. pose proof (scanned_le _ _ (ni_wf s Hinv) H3) as Hle.
  assert (Hk : scanned (cross_state p) = length G) by (apply (f_equal length) in Hd; rewrite length_drop in Hd; simpl in Hd; lia).
  apply local_good; try done; [apply nl_not_parked; by rewrite Hst|..].
  - constructor; try done. nl_fields. rewrite Hst. split; [done|]. intros rhs' rest' _ _. done.
  - intros _. split; [done|]. intros i l Hl%lookup_lt_Some. f_equal. rewrite rest_match_fresh by done. unfold rest_match. nl_fields. rewrite Hi. cbn [tl].
    by rewrite (proj2 (Nat.leb_gt _ _)) by lia.
  - rewrite rest_out_fresh by done. unfold rest_out, batch_rest at 2, undrained. nl_fields. rewrite Hi, Hd, Hst. cbn [tl]. destruct (left_only jt); cbn; by rewrite <- !app_assoc.
  - cbn zeta. unfold probe_work, unscanned. nl_fields. rewrite Hst, Hi, Hk, length_collected. cbn [tl length]. rewrite Nat.mul_succ_r. unfold scanned. cbn. lia.
Qed.

(** A row of the collection. *)
Lemma round_row rhs rest l after cross m : nl_pstate p = Executing -> nl_pinput p = rhs :: rest -> drop (scanned (cross_state p)) G = l :: after ->
  cross_ok (collected sh) cross -> scanned cross = S (scanned (cross_state p)) -> right_ok op (take (S (scanned (cross_state p))) G) rhs m ->
  nl_good s (Ok (mkNlSystem (set_left_matches (round_matches op (left_matches sh) (scanned (cross_state p)) l rhs) sh) (nl_builders s)
    (<[idx := same_input cross m (round_out op l rhs) p]> (nl_probers s)))).
Proof.
  intros Hst Hi Hd Hcr Hsc Hr. pose proof prober_is_ok as [H1 H2 H3 H4]. pose proof (scanned_le _ _ (ni_wf s Hinv) H3) as Hle. set (k := scanned (cross_state p)) in *.
  assert (Hk : k < length G) by (apply (f_equal length) in Hd; rewrite length_drop in Hd; simpl in Hd; lia).
  assert (Hl : G !! k = Some l) by (rewrite <- (Nat.add_0_r k), <- lookup_drop; by rewrite Hd).
  apply local_good; try done; [apply nl_not_parked; by rewrite Hst|..].
  - constructor; try done. nl_fields. rewrite Hst, Hi, Hsc. split; [done|]. by intros rhs' rest' [= <- <-].
  - intros Ht. destruct (pb_matches _ _ _ (probing_inv s Hinv Hrb) Ht) as [Hlm _]. nl_fields. unfold round_matches, rest_match. nl_fields. rewrite Ht, Hi, Hsc. fold k. cbn [andb].
    split; [destruct (nl_has_match op rhs l); by rewrite ?length_insert|]. intros i l' Hl'. destruct (decide (i = k)) as [->|Hne].
    + rewrite Hl in Hl'. injection Hl' as <-. rewrite Nat.leb_refl, (proj2 (Nat.leb_gt (S k) k)) by lia. destruct (nl_has_match op rhs l); [|done].
      rewrite list_lookup_insert_eq by lia. cbn. by rewrite orb_true_r.
    + replace (S k <=? i) with (k <=? i) by (destruct (Nat.leb_spec k i), (Nat.leb_spec (S k) i); lia || done). destruct (nl_has_match op rhs l); [|done]. by rewrite list_lookup_insert_ne by done.
  - cbn zeta. unfold rest_out, batch_rest, round_out, undrained. nl_fields. rewrite Hi, Hst, Hsc. fold k. rewrite (drop_S _ _ _ Hl) in *. destruct (left_only jt); cbn; [by rewrite app_nil_r|].
    unfold nl_pairs at 2. cbn [fmap list_fmap concat]. fold (nl_pairs op (drop (S k) G) rhs). unfold untaken. nl_fields. by rewrite <- !app_assoc.
  - cbn zeta. unfold probe_work, unscanned, untaken. nl_fields. rewrite Hst, Hi, Hsc. fold k. cbn [length]. rewrite Nat.mul_succ_r. rewrite length_collected in Hk. lia.
Qed.

Lemma round_executed rhs rest : nl_pstate p = Executing -> nl_pinput p = rhs :: rest -> nl_good s (moved (execute_round op rhs sh p)).
Proof.
  intros Hst Hi. pose proof prober_is_ok as [H1 H2 H3 H4]. rewrite Hst in H4. destruct H4 as [_ Hr].
  assert (Hml : marks_left jt = tracks_left jt) by (pose proof (nli_supported _ _ _ _ Hin); by destruct jt).
  pose proof (execute_round_spec op Hml (nli_filter _ _ _ _ Hin) rhs sh p (ni_wf s Hinv) H3 (Hr _ _ Hi)) as H. cbn zeta in H. specialize (H (fun Ht => proj1 (pb_matches _ _ _ (probing_inv s Hinv Hrb) Ht))).
  destruct (drop (scanned (cross_state p)) G) as [|l after] eqn:Ed.
  - rewrite H. by apply (round_last rhs rest).
  - destruct H as (cross & m & Hcr & Hsc & Hrm & ->). by eapply round_row.
Qed.

(** ** The drain *)

(** Nothing is left to be matched: the matches are complete. *)
Lemma matches_complete : tracks_left jt = true -> total executing (nl_probers s) = 0 -> left_matches sh = nl_has_match op all_right <$> G.
Proof.
  intros Ht Hrp. destruct (probing_inv s Hinv Hrb) as [_ Hps Hm _]. destruct (Hm Ht) as [Hlen Hi]. apply list_eq. intros i. rewrite list_lookup_fmap. destruct (G !! i) as [l|] eqn:El; cbn.
  - destruct (lookup_lt_is_Some_2 (left_matches sh) i) as [b Hb]; [rewrite Hlen; by eapply lookup_lt_Some|]. rewrite Hb. f_equal. rewrite <- (Hi i l El), Hb. cbn. rewrite existsb_empty; [by rewrite orb_false_r|].
    intros q [j Hj]%list_elem_of_lookup. destruct (Hps j q Hj) as [_ _ _ Hs]. pose proof (total_zero _ _ _ _ Hrp Hj) as He. unfold executing in He. unfold rest_match.
    by destruct (nl_pstate q); [done|..]; destruct Hs as [-> _].
  - apply lookup_ge_None. rewrite Hlen. by apply lookup_ge_None.
Qed.

Lemma seg_slices i seg : segments (collected sh) !! i = Some seg -> Forall (fun c => slice_at G (relative_offset c) (crows c) /\ crows c <> []) (chunks seg).
Proof.
  intros Hs. apply Forall_forall. intros c Hc. pose proof (collection_slices _ (ni_wf s Hinv)) as H. rewrite Forall_forall in H. apply H. unfold all_chunks. apply list_elem_of_In, in_concat.
  exists (chunks seg). split; apply list_elem_of_In; [|done]. apply list_elem_of_fmap. exists seg. split; [done|by eapply list_elem_of_lookup_2].
Qed.

Lemma rows_of_cons (c : ColumnChunk Row) cs : rows_of (c :: cs) = crows c ++ rows_of cs.
Proof. done. Qed.

Lemma untaken_next segs i : rows_of (all_chunks (drop i segs)) = rows_of (from_option (chunks (R := Row)) [] (segs !! i)) ++ rows_of (all_chunks (drop (S i) segs)).
Proof.
  destruct (segs !! i) as [seg|] eqn:E; [by rewrite (all_chunks_drop _ _ _ E), rows_of_app|]. apply lookup_ge_None in E. by rewrite !drop_ge by lia.
Qed.

(** A chunk is scanned. *)
Lemma chunk_scanned c st next : nl_pstate p = DrainScan -> slice_at G (relative_offset c) (crows c) -> crows c <> [] -> relative_scan_offset st = relative_offset c ->
  Forall (fun c => slice_at G (relative_offset c) (crows c) /\ crows c <> []) (local_chunks st) -> next_segment_idx st < next -> drain_next_segment sh <= next ->
  crows c ++ rows_of (local_chunks st) ++ rows_of (from_option chunks [] (segments (collected sh) !! next_segment_idx st)) ++ rows_of (all_chunks (drop next (segments (collected sh))))
    = unscanned (segments (collected sh)) p ++ untaken sh ->
  nl_good s (Ok (mkNlSystem (mkNlShared (collected sh) next (remaining_build_inputs sh) (remaining_probe_inputs sh) (probe_wakers sh) (left_matches sh)) (nl_builders s)
    (<[idx := mkNlProber (DrainEmit (crows c)) (build_complete p) (cross_state p) (right_matches p) st (nl_pinput p) (nl_emitted p)]> (nl_probers s)))).
Proof.
  intros Hst Hs Hne Ho Hloc Hn Hdn Hrows. pose proof prober_is_ok as [H1 H2 H3 H4]. rewrite Hst in H4. destruct H4 as (Hi & Ht & Hrp).
  apply local_good; nl_fields; try done; [apply nl_not_parked; by rewrite Hst|unfold executing; nl_fields; by rewrite Hst|..].
  - constructor; nl_fields; try done. rewrite Ho. by split_and!.
  - cbn zeta. unfold undrained. nl_fields. rewrite Hst. cbn [app]. rewrite <- Hrows. unfold untaken, unscanned, rest_out. nl_fields. by rewrite Hi, <- !app_assoc.
  - cbn zeta. apply (f_equal length) in Hrows. unfold probe_work, untaken, unscanned in *. nl_fields. rewrite Hst. rewrite !length_app in *.
    assert (0 < length (crows c)) by (by destruct (crows c); [|simpl; lia]). lia.
Qed.

Lemma drain_scanned : nl_pstate p = DrainScan -> nl_good s (moved (drain_scan sh p)).
Proof.
  intros Hst. pose proof prober_is_ok as [H1 H2 H3 H4]. rewrite Hst in H4. destruct H4 as (Hi & Ht & Hrp). unfold drain_scan.
  destruct (parallel_scan_spec (collected sh) (drain_next_segment sh) (left_drain_state p) (ni_wf s Hinv)) as (rows & st & next & E & H). rewrite E. cbn [mbind res_bind].
  destruct (local_chunks (left_drain_state p)) as [|c cs] eqn:El.
  - destruct (segments (collected sh) !! next_segment_idx (left_drain_state p)) as [seg|] eqn:Eseg.
    + destruct H as (c & cs & Ec & -> & Hl & Ho & Hn & ->). pose proof (seg_slices _ _ Eseg) as Hall. rewrite Ec in Hall. apply Forall_cons in Hall as [[Hs Hne] Hall].
      replace (match crows c with [] => Drained | _ => DrainEmit (crows c) end) with (DrainEmit (crows c)) by (by destruct (crows c)).
      apply chunk_scanned; try done; rewrite ?Hl, ?Hn; [done|lia|lia|]. unfold unscanned, untaken. rewrite El, Eseg, (untaken_next _ (drain_next_segment sh)).
      cbn [from_option]. rewrite Ec, rows_of_cons. cbn [rows_of app fmap list_fmap concat]. by rewrite <- !app_assoc.
    + destruct H as (-> & Hl & Hn & ->). apply local_good; nl_fields; try done; [apply nl_not_parked; by rewrite Hst|unfold executing; nl_fields; by rewrite Hst|..].
      * constructor; nl_fields; rewrite ?Hl, ?Hn; done.
      * cbn zeta. unfold undrained, unscanned, untaken, rest_out. nl_fields. by rewrite Hst, Hl, Hn, El.
      * cbn zeta. unfold probe_work, untaken, unscanned. nl_fields. rewrite Hst, Hl, Hn, El. lia.
  - destruct H as (-> & Hl & Ho & Hn & ->). apply Forall_cons in H2 as [[Hs Hne] Hall].
    replace (match crows c with [] => Drained | _ => DrainEmit (crows c) end) with (DrainEmit (crows c)) by (by destruct (crows c)).
    apply chunk_scanned; try done; rewrite ?Hl, ?Hn; [done|done|]. unfold unscanned, untaken. rewrite El, rows_of_cons. by rewrite <- !app_assoc.
Qed.

Lemma drain_emitted batch : nl_pstate p = DrainEmit batch -> nl_good s (moved (drain_emit bool_value op batch sh p)).
Proof.
  intros Hst. pose proof prober_is_ok as [H1 H2 H3 H4]. rewrite Hst in H4. destruct H4 as (Hi & Ht & Hrp & Hs). unfold drain_emit. rewrite (matches_complete Ht Hrp).
  rewrite (drain_result_spec bool_value op all_right G) by (done || (rewrite (nli_supported _ _ _ _ Hin); done)). cbn [mbind res_bind].
  apply local_good; nl_fields; try done; [apply nl_not_parked; by rewrite Hst|unfold executing; nl_fields; by rewrite Hst|..].
  - cbn zeta. unfold undrained, rest_out. nl_fields. rewrite Hst, Hi, !drained_rows_app. cbn [app]. unfold unscanned. nl_fields. by rewrite <- !app_assoc.
  - cbn zeta. unfold probe_work, unscanned. nl_fields. rewrite Hst. lia.
Qed.

End ProbeStep.

(** ** The start of the probe side *)

Lemma total_length {A B} (f : A -> list B) (l : list A) : total (fun x => length (f x)) l = length (concat (f <$> l)).
Proof. unfold total. induction l as [|x l IH]; [done|]. cbn. by rewrite length_app, IH. Qed.

Lemma segments_shares (segs : list (Segment Row)) m :
  concat ((fun i => rows_of (from_option chunks [] (segs !! i))) <$> seq 0 m) ++ rows_of (all_chunks (drop m segs)) = rows_of (all_chunks segs).
Proof.
  induction m as [|m IH]; [by rewrite drop_0|]. rewrite seq_S, fmap_app, concat_app, <- app_assoc. cbn [fmap list_fmap concat]. rewrite app_nil_r, Nat.add_0_l, <- IH. f_equal.
  symmetry. destruct (segs !! m) as [seg|] eqn:E; [by rewrite (all_chunks_drop _ _ _ E), rows_of_app|]. apply lookup_ge_None in E. by rewrite !drop_ge by lia.
Qed.

Section Start.
Variables (sh : NlShared V) (ps : list (NlProber V)).
Hypothesis Hidle : forall i p, ps !! i = Some p -> exists batches, rights !! i = Some batches /\ idle i batches p.
Hypothesis Hlen : length ps = n.

(** Idle partitions share the collection. *)
Lemma idle_shares : drain_next_segment sh = n ->
  concat (unscanned (segments (collected sh)) <$> ps) ++ untaken sh = collected_rows (collected sh).
Proof.
  intros Hn. unfold untaken, collected_rows. rewrite Hn, <- (segments_shares (segments (collected sh)) n). f_equal. f_equal. apply list_eq. intros i. rewrite !list_lookup_fmap.
  destruct (ps !! i) as [p|] eqn:Hp; cbn.
  - pose proof (lookup_lt_Some _ _ _ Hp). rewrite lookup_seq_lt by lia. cbn. f_equal. by destruct (Hidle i p Hp) as (bs & _ & st & -> & _).
  - apply lookup_ge_None in Hp. by rewrite lookup_seq_ge by lia.
Qed.

Lemma idle_inputs : nl_pinput <$> ps = rights.
Proof.
  apply list_eq. intros i. rewrite list_lookup_fmap. destruct (ps !! i) as [p|] eqn:Hp; cbn.
  - by destruct (Hidle i p Hp) as (bs & -> & st & -> & _).
  - symmetry. apply lookup_ge_None. apply lookup_ge_None in Hp. lia.
Qed.

Lemma idle_cross p : p ∈ ps -> cross_state p = cross_new /\ nl_emitted p = [] /\ undrained (segments (collected sh)) p = unscanned (segments (collected sh)) p.
Proof.
  intros [i Hp]%list_elem_of_lookup. destruct (Hidle i p Hp) as (bs & _ & st & -> & Hs). split_and!; [done|done|]. unfold undrained. nl_fields. destruct Hs as [->|[_ ->]]; [done|]. by destruct (tracks_left jt).
Qed.

Lemma idle_match i l : existsb (rest_match i l) ps = nl_has_match op all_right l.
Proof.
  rewrite <- idle_inputs. assert (Hc : forall p, p ∈ ps -> cross_state p = cross_new) by (intros p Hp; by apply idle_cross). clear Hidle Hlen. induction ps as [|p l' IH]; [done|].
  cbn [fmap list_fmap existsb concat]. rewrite rest_match_fresh, IH by (intros; apply Hc; set_solver). unfold nl_has_match. by rewrite concat_app, existsb_app.
Qed.

Lemma idle_out (H : list Row) : concat (rest_out H <$> ps) = concat (batch_rest op H 0 <$> concat rights).
Proof.
  rewrite <- idle_inputs. assert (Hc : forall p, p ∈ ps -> cross_state p = cross_new) by (intros p Hp; by apply idle_cross). clear Hidle Hlen. induction ps as [|p l' IH]; [done|].
  cbn [fmap list_fmap concat]. rewrite rest_out_fresh, IH by (intros; apply Hc; set_solver). by rewrite fmap_app, concat_app.
Qed.

Lemma idle_ok rp i p : collection_wf (collected sh) -> drain_next_segment sh = n -> ps !! i = Some p -> prober_ok sh rp p.
Proof.
  intros Hwf Hn Hp. pose proof (lookup_lt_Some _ _ _ Hp). destruct (Hidle i p Hp) as (bs & _ & st & -> & Hs). constructor; nl_fields; cbn [next_segment_idx]; [lia|constructor|done|].
  destruct Hs as [->|[-> ->]]; [by split|]. by destruct (tracks_left jt).
Qed.

Lemma probing_start rp : collection_wf (collected sh) -> drain_next_segment sh = n -> collected_rows (collected sh) ≡ₚ all_left ->
  (tracks_left jt = true -> left_matches sh = replicate (length (collected_rows (collected sh))) false) -> probing sh ps rp.
Proof.
  intros Hwf Hn Hrows Hm. constructor; [done| | |].
  - intros i p Hp. by apply (idle_ok rp i).
  - intros Ht. rewrite (Hm Ht), length_replicate. split; [done|]. intros i l Hl. rewrite lookup_replicate_2 by (by eapply lookup_lt_Some). apply idle_match.
  - rewrite idle_out. assert (nl_emitted <$> ps = replicate (length ps) []) as ->.
    { apply list_eq. intros i. rewrite list_lookup_fmap. destruct (ps !! i) as [p|] eqn:Hp; cbn.
      - rewrite lookup_replicate_2 by (by eapply lookup_lt_Some). f_equal. apply idle_cross. by eapply list_elem_of_lookup_2.
      - symmetry. apply lookup_ge_None. rewrite length_replicate. by apply lookup_ge_None. }
    assert (undrained (segments (collected sh)) <$> ps = unscanned (segments (collected sh)) <$> ps) as ->.
    { apply list_fmap_ext. intros i p Hp. apply idle_cross. by eapply list_elem_of_lookup_2. }
    rewrite idle_shares by done. replace (concat (replicate (length ps) [])) with (@nil Row) by (clear; by induction ps). cbn [app]. by apply nl_join_rows_batches.
Qed.

End Start.

(** ** While the build side is collected *)

Section BuildStep.
Variables (s : NlSystem V) (idx : nat).
Hypothesis Hinv : nl_inv s.
Hypothesis Hrb : total unbuilt (nl_builders s) <> 0.
Local Abbreviation sh := (nl_shared s).
Local Abbreviation probe_moved r := ('(sh', p') ← r; Ok (mkNlSystem sh' (nl_builders s) (<[idx := p']> (nl_probers s)))).
Local Abbreviation build_moved r := ('(sh', b') ← r; Ok (mkNlSystem sh' (<[idx := b']> (nl_builders s)) (nl_probers s))).

Lemma building_inv : building sh (nl_builders s) (nl_probers s).
Proof. pose proof (ni_phase s Hinv) as H. by rewrite decide_False in H by done. Qed.

Lemma prober_idle p : nl_probers s !! idx = Some p -> exists batches, rights !! idx = Some batches /\ idle idx batches p.
Proof. apply building_inv. Qed.

Lemma idle_parks p : nl_probers s !! idx = Some p -> nl_parked idx sh = false -> (nl_pstate p = Executing /\ nl_pinput p <> [] \/ nl_pstate p = DrainCheck) -> nl_good s (probe_moved (check_build idx sh p)).
Proof.
  intros Hp Hpk Hst. unfold check_build. rewrite (ni_build s Hinv). cbn [count_current mbind res_bind]. rewrite (proj2 (Nat.ltb_lt _ _)) by lia. rewrite (waker_stored s idx p Hinv Hp).
  cbn [mbind res_bind]. apply park_good; try done. destruct (prober_idle p Hp) as (bs & _ & st & -> & Hs). cbn in *. destruct Hs as [->|[_ ->]]; [destruct Hst as [[_ ?]|?]; [split; [lia|done]|done]|].
  destruct (tracks_left jt); [|by destruct Hst as [[? _]|?]]. split; [done|lia].
Qed.

Lemma idle_finalized p : nl_probers s !! idx = Some p -> nl_pstate p = Executing -> nl_pinput p = [] -> nl_good s (probe_moved (finalize_execute op sh p)).
Proof.
  intros Hp Hst Hi. destruct (prober_idle p Hp) as (bs & Hbs & st & -> & _). cbn in Hst, Hi. subst st bs. unfold finalize_execute. rewrite (ni_probe s Hinv). nl_fields.
  set (p' := set_pstate _ _). pose proof (total_lookup executing _ _ _ Hp) as Hpos. pose proof (total_insert executing _ idx _ p' Hp) as Ht.
  assert (He : executing p' = 0) by (unfold p', executing; nl_fields; by destruct (tracks_left jt)). rewrite He in Ht. cbn in Hpos, Ht.
  destruct (total executing (nl_probers s)) as [|rp] eqn:Erp; [lia|]. cbn [dec_by_one mbind res_bind]. assert (total executing (<[idx := p']> (nl_probers s)) = rp) as Ht' by lia.
  pose proof (ni_parked s Hinv) as Hpk. rewrite Erp in Hpk. assert (Hlen : length (if tracks_left jt && bool_decide (Some rp = Some 0) then wake_all (probe_wakers sh) else probe_wakers sh) = n).
  { destruct (_ && _); [unfold wake_all; rewrite length_fmap|]; apply Hinv. }
  eexists. split; [done|]. split.
  - pose proof Hinv as []. constructor; nl_fields; rewrite ?length_insert, ?Ht'; try done.
    + destruct (tracks_left jt && bool_decide (Some rp = Some 0)) eqn:E; [apply parked_woken|]. apply parked_move with (S rp); [done| |].
      * intros Hw. destruct (Hpk idx Hw) as (q & Hq & Hs). rewrite Hp in Hq. injection Hq as <-. by destruct Hs.
      * intros Htr _. rewrite Htr in E. apply bool_decide_eq_false in E. destruct rp; [done|lia].
    + rewrite decide_False by done. destruct building_inv as [H1 H2 H3 H4 H5]. constructor; nl_fields; try done. intros i q [(<- & <- & _)|[Hne Hq]]%list_lookup_insert_Some; [|by apply H3].
      exists []. split; [done|]. eexists. split; [done|]. right. by split.
  - apply work_less; nl_fields; [|done]. unfold nl_tasks, drain_work. nl_fields. rewrite !decide_False by done. pose proof (total_insert probe_work _ idx _ p' Hp) as Hw. unfold probe_work at 2 4 in Hw. subst p'. nl_fields. cbn in Hw.
    destruct (tracks_left jt); lia.
Qed.

(** A builder adds to the collection. *)
Lemma build_kept b c b' : nl_builders s !! idx = Some b -> unbuilt b = 1 -> unbuilt b' = 1 -> append_wf batch_size (append_state b') -> (nl_bstate b' <> Pushing -> pending_rows b' = []) ->
  collection_wf c -> col_chunk_capacity c = batch_size -> collected_rows c ++ pending_rows b' = collected_rows (collected sh) ++ pending_rows b -> build_work b' < build_work b ->
  nl_good s (Ok (mkNlSystem (set_collected c sh) (<[idx := b']> (nl_builders s)) (nl_probers s))).
Proof.
  intros Hb Hu Hu' Hwf Hst Hc Hcap Hrows Hwork. pose proof (total_insert unbuilt _ idx b b' Hb) as Ht. assert (total unbuilt (<[idx := b']> (nl_builders s)) = total unbuilt (nl_builders s)) as Ht' by lia.
  eexists. split; [done|]. split.
  - pose proof Hinv as []. constructor; nl_fields; rewrite ?Ht'; try done. rewrite decide_False by done. destruct building_inv as [H1 H2 H3 H4 H5]. constructor; nl_fields; try done.
    + intros i q [(<- & <- & _)|[Hne Hq]]%list_lookup_insert_Some; [done|by eapply H1].
    + rewrite <- H2. destruct (concat_map_insert pending_rows _ idx b b' Hb) as (r & -> & ->). by rewrite !app_assoc, Hrows.
  - apply work_less; nl_fields; [|apply Hinv]. unfold nl_tasks, drain_work. nl_fields. rewrite Ht', !decide_False by done. pose proof (total_insert build_work _ idx b b' Hb). lia.
Qed.

Lemma build_pushed b batch rest : nl_builders s !! idx = Some b -> nl_bstate b = Pushing -> nl_binput b = batch :: rest ->
  nl_good s (build_moved ('(c, st) ← append_batch batch (append_state b) (collected sh); Ok (set_collected c sh, mkNlBuilder Pushing st rest))).
Proof.
  intros Hb Hst Hi. destruct (bu_builders _ _ _ building_inv idx b Hb) as [Hwf _].
  destruct (append_batch_spec batch_size batch (collected sh) (append_state b) (ni_wf s Hinv) Hwf (ni_capacity s Hinv)) as (c & st & -> & Hc & Hst' & Hrows & _ & Hcap). cbn [mbind res_bind].
  apply (build_kept b); try done.
  - unfold unbuilt. by rewrite Hst.
  - rewrite Hcap. apply Hinv.
  - unfold pending_rows. nl_fields. rewrite Hi. cbn [concat]. rewrite app_assoc, Hrows. by rewrite <- !app_assoc.
  - unfold build_work. nl_fields. rewrite Hst, Hi. cbn. lia.
Qed.

Lemma build_flushed b : nl_builders s !! idx = Some b -> nl_bstate b = Pushing -> nl_binput b = [] ->
  nl_good s (build_moved (let '(c, st) := flush (append_state b) (collected sh) in Ok (set_collected c sh, mkNlBuilder Flushed st []))).
Proof.
  intros Hb Hst Hi. destruct (bu_builders _ _ _ building_inv idx b Hb) as [Hwf _].
  destruct (collection_flush_spec batch_size (collected sh) (append_state b) (ni_wf s Hinv) Hwf (ni_capacity s Hinv)) as (c & st & -> & Hc & Hst' & Hr & Hrows & _ & Hcap). cbn [mbind res_bind].
  assert (Hp : pending_rows (mkNlBuilder Flushed st []) = []) by (unfold pending_rows; nl_fields; by rewrite Hr).
  apply (build_kept b); try done.
  - unfold unbuilt. by rewrite Hst.
  - rewrite Hcap. apply Hinv.
  - rewrite Hp, Hrows. unfold pending_rows. rewrite Hi. cbn [concat]. by rewrite !app_nil_r.
  - unfold build_work. nl_fields. rewrite Hst, Hi. cbn. lia.
Qed.

(** The last builder starts the probe side. *)
Lemma build_finished b : nl_builders s !! idx = Some b -> nl_bstate b = Flushed ->
  nl_good s (build_moved (sh' ← finish_build_input op sh; Ok (sh', mkNlBuilder Built (append_state b) (nl_binput b)))).
Proof.
  intros Hb Hst. set (b' := mkNlBuilder Built _ _). pose proof building_inv as [H1 H2 H3 H4 H5]. destruct (H1 idx b Hb) as [Hwf Hp]. specialize (Hp ltac:(by rewrite Hst)).
  pose proof (total_insert unbuilt _ idx b b' Hb) as Ht. unfold unbuilt at 2 4 in Ht. rewrite Hst in Ht. cbn in Ht.
  pose proof (total_insert build_work _ idx b b' Hb) as Hbw. unfold build_work at 2 4 in Hbw. rewrite Hst in Hbw. cbn in Hbw.
  destruct (concat_map_insert pending_rows _ idx b b' Hb) as (r & Hr1 & Hr2). change (pending_rows b') with (pending_rows b) in Hr2. rewrite <- Hr1 in Hr2.
  assert (Hbs : forall i q, <[idx := b']> (nl_builders s) !! i = Some q -> append_wf batch_size (append_state q) /\ (nl_bstate q <> Pushing -> pending_rows q = [])).
  { intros i q [(<- & <- & _)|[Hne Hq]]%list_lookup_insert_Some; [done|by eapply H1]. }
  unfold finish_build_input. rewrite (ni_build s Hinv). destruct (total unbuilt (nl_builders s)) as [|rb] eqn:Erb; [done|]. cbn [dec_by_one mbind res_bind].
  assert (Ht' : total unbuilt (<[idx := b']> (nl_builders s)) = rb) by lia. pose proof Hinv as []. destruct rb as [|rb].
  - rewrite bool_decide_eq_true_2 by done. cbn [mbind res_bind]. eexists. split; [done|].
    assert (Hrows : collected_rows (collected sh) ≡ₚ all_left).
    { rewrite <- H2, <- Hr2. replace (concat (pending_rows <$> <[idx := b']> (nl_builders s))) with (@nil Row); [by rewrite app_nil_r|]. symmetry. apply concat_nil_Forall, Forall_fmap, Forall_lookup.
      intros i q Hq. apply (proj2 (Hbs i q Hq)). pose proof (total_zero _ _ _ _ Ht' Hq) as Hz. unfold unbuilt in Hz. by destruct (nl_bstate q). }
    split.
    + constructor; nl_fields; rewrite ?Ht'; try done; [unfold wake_all; by rewrite length_fmap|apply parked_woken|]. rewrite decide_True by done.
      apply probing_start; nl_fields; try done. intros Htr. rewrite Htr, H4, (col_count _ ni_wf0). apply ensure_initialized_new.
    + apply work_less; nl_fields; [|unfold wake_all; by rewrite length_fmap]. unfold nl_tasks, drain_work. nl_fields. rewrite Erb, Ht', decide_True, decide_False by done.
      pose proof (idle_shares sh (nl_probers s) H3 ni_probers0 H5) as Hsh. apply (f_equal length) in Hsh. rewrite length_app, Hrows in Hsh. rewrite total_length. unfold untaken in *. nl_fields. lia.
  - rewrite bool_decide_eq_false_2 by done. cbn [mbind res_bind]. eexists. split; [done|]. split.
    + constructor; nl_fields; rewrite ?Ht'; try done.
      * intros i Hw. destruct (ni_parked0 i Hw) as (q & Hq & Hs). exists q. split; [done|]. destruct (nl_pstate q); try done; [destruct Hs; split; [lia|done]|]. split; [tauto|lia].
      * rewrite decide_False by lia. constructor; nl_fields; try done. by rewrite Hr2.
    + apply work_less; nl_fields; [|done]. unfold nl_tasks, drain_work. nl_fields. rewrite Erb, Ht', !decide_False by lia. lia.
Qed.

End BuildStep.

(** ** All steps *)

Lemma probe_step_good s idx p (res : res (NlShared V * NlProber V)) : nl_inv s -> nl_probers s !! idx = Some p -> nl_probe_step bool_value op idx (nl_shared s) p = Some res ->
  nl_good s ('(sh', p') ← res; Ok (mkNlSystem sh' (nl_builders s) (<[idx := p']> (nl_probers s)))).
Proof.
  intros Hinv Hp. unfold nl_probe_step. destruct (decide (total unbuilt (nl_builders s) = 0)) as [Hz|Hnz].
  - destruct (nl_pstate p) as [| | |batch|] eqn:Hst.
    + destruct (nl_pinput p) as [|rhs rest] eqn:Hi; [intros [= <-]; by apply probe_finalized|]. destruct (build_complete p) eqn:Hbc; [intros [= <-]; by eapply round_executed|].
      destruct (nl_parked _ _) eqn:Hpk; [done|]. intros [= <-]. apply build_checked; try done. by apply unparked_waker.
    + destruct (nl_parked _ _) eqn:Hpk; [done|]. destruct (build_complete p) eqn:Hbc; intros [= <-]; [by apply probes_checked|]. apply build_checked; try done. by apply unparked_waker.
    + intros [= <-]. by apply drain_scanned.
    + intros [= <-]. by apply drain_emitted.
    + done.
  - destruct (prober_idle s idx Hinv Hnz p Hp) as (bs & _ & st & Ep & Hs). destruct (nl_pstate p) as [| | |batch|] eqn:Hst; try (rewrite Ep in Hst; cbn in Hst; subst st; by destruct Hs as [?|[_ ?]]; [|destruct (tracks_left jt)]).
    + destruct (nl_pinput p) as [|rhs rest] eqn:Hi; [intros [= <-]; by apply idle_finalized|]. rewrite Ep at 1. cbn [build_complete].
      destruct (nl_parked _ _) eqn:Hpk; [done|]. intros [= <-]. apply idle_parks; try done. left. by rewrite Hi.
    + destruct (nl_parked _ _) eqn:Hpk; [done|]. rewrite Ep at 1. cbn [build_complete]. intros [= <-]. apply idle_parks; try done. by right.
Qed.

Lemma build_step_good s idx b (res : res (NlShared V * NlBuilder V)) : nl_inv s -> nl_builders s !! idx = Some b -> nl_build_step op (nl_shared s) b = Some res ->
  nl_good s ('(sh', b') ← res; Ok (mkNlSystem sh' (<[idx := b']> (nl_builders s)) (nl_probers s))).
Proof.
  intros Hinv Hb. assert (Hnz : nl_bstate b <> Built -> total unbuilt (nl_builders s) <> 0).
  { intros Hst Hz. pose proof (total_zero _ _ _ _ Hz Hb) as H. unfold unbuilt in H. by destruct (nl_bstate b). }
  unfold nl_build_step. destruct (nl_bstate b) eqn:Hst; [|intros [= <-]; by apply build_finished; [|apply Hnz|..]|done].
  destruct (nl_binput b) as [|batch rest] eqn:Hi; intros [= <-]; [by apply build_flushed; [|apply Hnz|..]|by apply build_pushed; [|apply Hnz|..]].
Qed.

Lemma system_step_good s t (res : res (NlSystem V)) : nl_inv s -> nl_system_step bool_value op t s = Some res -> nl_good s res.
Proof.
  intros Hinv. destruct t as [idx|idx]; cbn [nl_system_step].
  - destruct (nl_builders s !! idx) as [b|] eqn:Hb; [|done]. cbn [mbind option_bind]. destruct (nl_build_step _ _ _) as [r'|] eqn:E; [|done]. cbn [mbind option_bind]. intros [= <-]. by eapply build_step_good.
  - destruct (nl_probers s !! idx) as [p|] eqn:Hp; [|done]. cbn [mbind option_bind]. destruct (nl_probe_step _ _ _ _ _) as [r'|] eqn:E; [|done]. cbn [mbind option_bind]. intros [= <-]. by eapply probe_step_good.
Qed.

End Inv.
