(* ===== verification/NestedLoopCorrect.v ===== *)
(** * Correctness of the nested loop join

    Every schedule of the build and probe partitions of [NestedLoopJoin] joins the
    two sides, none gets stuck, and all end. *)
From S2P Require Import Prelude PartitionSync LogicalExpr JoinConditions ColumnCollection NestedLoopJoin NestedLoopScan NestedLoopSteps.

Section Reachable.
Context {V : Type}.
Local Abbreviation Row := (list (option V)).
Variable bool_value : bool -> V.
Variable batch_size : nat.
Variable op : PhysicalNestedLoopJoin V.
Variables lefts rights : list (list (list Row)).
Hypothesis Hin : nl_input batch_size op lefts rights.
Implicit Types (s : NlSystem V).
Local Abbreviation the_inv := (nl_inv bool_value batch_size op lefts rights).
Local Abbreviation the_work := (nl_work lefts rights).

(** ** The start *)

Definition nl_start : NlSystem V :=
  mkNlSystem (mkNlShared (collection_new 1 batch_size) (length rights) (Some (length lefts)) (Some (length rights)) (replicate (length rights) false) [])
    (mkNlBuilder Pushing (segment_new batch_size) <$> lefts)
    (imap (fun i batches => mkNlProber Executing false cross_new [] (mkScan 0 i None 0) batches []) rights).

Lemma validated k : MIN_PARTITION_COUNT <= k <= MAX_PARTITION_COUNT -> validate_partitions k = Ok tt.
Proof. intros Hk. unfold validate_partitions. by rewrite (proj2 (Nat.ltb_ge k _)), (proj2 (Nat.ltb_ge _ k)) by lia. Qed.

Lemma zip_states {A B} (g : nat -> A -> B) (l : list A) i : zip_with g (seq i (length l)) l = imap (fun j x => g (i + j) x) l.
Proof.
  revert i. induction l as [|x l IH]; intros i; [done|]. cbn [length seq zip_with]. rewrite imap_cons, IH. cbn. rewrite Nat.add_0_r. f_equal. apply imap_ext. intros j y _. cbn. f_equal. lia.
Qed.

Lemma nl_created : nl_create batch_size lefts rights = Ok nl_start.
Proof.
  destruct Hin as [_ _ _ Hl Hr]. unfold nl_create, count_set. rewrite (validated _ Hl), (validated _ Hr). cbn [mbind res_bind]. unfold init_for_partitions. cbn [length Nat.eqb rust_assert mbind res_bind].
  unfold MIN_PARTITION_COUNT in Hr. rewrite (proj2 (Nat.eqb_neq (length rights) 0)) by lia. cbn [negb rust_assert mbind res_bind init_parallel_scan_states]. do 2 f_equal.
  rewrite zip_with_fmap_l. apply (zip_states (fun idx batches => mkNlProber Executing false cross_new [] (mkScan 0 idx None 0) batches [])).
Qed.

Lemma total_ones {A} (f : A -> nat) (l : list A) : (forall i x, l !! i = Some x -> f x = 1) -> total f l = length l.
Proof. intros Hf. rewrite (total_ext f (fun _ => 1)) by done. unfold total. clear Hf. induction l as [|x l IH]; [done|]. cbn. by rewrite <- IH. Qed.

Lemma start_prober i p : nl_probers nl_start !! i = Some p ->
  exists batches, rights !! i = Some batches /\ p = mkNlProber Executing false cross_new [] (mkScan 0 i None 0) batches [].
Proof. cbn. rewrite list_lookup_imap. destruct (rights !! i) as [bs|]; [|done]. intros [= <-]. by exists bs. Qed.

Lemma start_builder i b : nl_builders nl_start !! i = Some b -> exists batches, lefts !! i = Some batches /\ b = mkNlBuilder Pushing (segment_new batch_size) batches.
Proof. cbn. rewrite list_lookup_fmap. destruct (lefts !! i) as [bs|]; [|done]. intros [= <-]. by exists bs. Qed.

Lemma start_counts : total unbuilt (nl_builders nl_start) = length lefts /\ total executing (nl_probers nl_start) = length rights.
Proof.
  split; (etransitivity; [apply total_ones|]).
  - intros i b (bs & _ & ->)%start_builder. done.
  - cbn. apply length_fmap.
  - intros i p (bs & _ & ->)%start_prober. done.
  - cbn. apply length_imap.
Qed.

Lemma start_inv : the_inv nl_start.
Proof.
  destruct Hin as [_ _ Hbs Hl _]. destruct start_counts as [H1 H2]. constructor; rewrite ?H1, ?H2; try done.
  - cbn. apply length_imap.
  - cbn. apply length_replicate.
  - intros i Hi. cbn in Hi. apply lookup_replicate in Hi as [? _]. done.
  - unfold MIN_PARTITION_COUNT in Hl. rewrite decide_False by lia. constructor; try done.
    + intros i b (bs & _ & ->)%start_builder. split; [by apply segment_new_wf|done].
    + cbn. apply reflexive_eq. clear. unfold pending_rows. induction lefts as [|bs l IH]; [done|]. cbn in *. by rewrite IH, concat_app.
    + intros i p (bs & Hi & ->)%start_prober. exists bs. split; [done|]. eexists. split; [done|]. by left.
Qed.

(** The number of steps of any schedule. *)
Definition nl_step_bound : nat :=
  S (length rights) * (length (concat lefts) + 2 * length lefts + (6 * length rights + S (length (concat (concat lefts))) * length (concat rights)) + 4 * length (concat (concat lefts)))
  + length rights.

Lemma start_work : the_work nl_start <= nl_step_bound.
Proof.
  unfold nl_work, nl_step_bound. assert (Hu : unparked (probe_wakers (nl_shared nl_start)) <= length rights) by (etransitivity; [apply unparked_le|]; cbn; by rewrite length_replicate).
  assert (Ht : nl_tasks lefts nl_start = length (concat lefts) + 2 * length lefts + (6 * length rights + S (length (concat (concat lefts))) * length (concat rights)) + 4 * length (concat (concat lefts))); [|rewrite Ht; lia].
  unfold nl_tasks, drain_work. destruct start_counts as [-> _]. destruct Hin as [_ _ _ Hl _]. unfold MIN_PARTITION_COUNT in Hl. rewrite decide_False by lia. f_equal. f_equal.
  - cbn. clear. unfold total. induction lefts as [|bs l IH]; [done|]. cbn in *. rewrite length_app, IH. lia.
  - unfold total. assert (probe_work lefts <$> nl_probers nl_start = (fun batches => 6 + S (length (concat (concat lefts))) * length batches) <$> rights) as ->.
    { apply list_eq. intros i. cbn [nl_start nl_probers]. rewrite !list_lookup_fmap, list_lookup_imap. destruct (rights !! i) as [bs|]; [|done]. cbn -[Nat.mul]. f_equal. unfold probe_work, scanned. cbn -[Nat.mul]. lia. }
    clear. generalize (S (length (concat (concat lefts)))). intros L. induction rights as [|bs l IH]; [cbn; lia|]. cbn [concat length]. rewrite length_app.
    rewrite fmap_cons. change (sum_list ((6 + L * length bs) :: ((fun batches => 6 + L * length batches) <$> l))) with (6 + L * length bs + sum_list ((fun batches => 6 + L * length batches) <$> l)). rewrite IH. lia.
Qed.

(** ** Reachable states *)

Lemma nl_reachable s s' : the_inv s -> rtc (nl_step bool_value op) s s' -> the_inv s'.
Proof.
  intros Hinv Hsteps. induction Hsteps as [s|s1 s2 s3 [t sa sb Hstep] _ IH]; [done|]. destruct (system_step_good _ _ _ _ _ Hin _ _ _ Hinv Hstep) as (s' & [= <-] & Hinv' & _). by apply IH.
Qed.

Lemma nl_finished_result s : the_inv s -> nl_finished s -> concat (nl_emitted <$> nl_probers s) ≡ₚ nl_join_rows bool_value op (concat (concat lefts)) (concat (concat rights)).
Proof.
  intros Hinv [Hb Hp]. assert (Hz : total unbuilt (nl_builders s) = 0).
  { clear Hp. unfold total. induction Hb as [|b bs Hb _ IH]; [done|]. cbn. unfold unbuilt at 1. by rewrite Hb, IH. }
  pose proof (probing_inv _ _ _ _ _ s Hinv Hz) as [_ Hps _ Ho]. rewrite Forall_lookup in Hp. rewrite <- Ho.
  assert (Hst : forall i p, nl_probers s !! i = Some p -> nl_pinput p = [] /\ (tracks_left (nl_join_type op) = true -> local_chunks (left_drain_state p) = []
     /\ segments (collected (nl_shared s)) !! next_segment_idx (left_drain_state p) = None)).
  { intros i p Hi. destruct (Hps i p Hi) as [_ _ _ Hs]. by rewrite (Hp i p Hi) in Hs. }
  replace (concat (rest_out op (collected_rows (collected (nl_shared s))) <$> nl_probers s)) with (@nil Row).
  2: { symmetry. apply concat_nil_Forall, Forall_fmap, Forall_lookup. intros i p Hi. unfold compose, rest_out. by rewrite (proj1 (Hst i p Hi)). }
  cbn [app]. destruct (tracks_left (nl_join_type op)) eqn:Ht; [|by rewrite drained_rows_untracked, app_nil_r by done].
  replace (concat (undrained (segments (collected (nl_shared s))) <$> nl_probers s)) with (@nil Row).
  2: { symmetry. apply concat_nil_Forall, Forall_fmap, Forall_lookup. intros i p Hi. unfold compose, undrained, unscanned. destruct (Hst i p Hi) as [_ Hd].
       destruct (Hd eq_refl) as [-> ->]. by rewrite (Hp i p Hi). }
  destruct (nl_probers s !! 0) as [p|] eqn:H0.
  - destruct (Hst 0 p H0) as [_ Hd]. destruct (Hd eq_refl) as [_ Hn%lookup_ge_None]. pose proof (po_next _ _ _ _ (Hps 0 p H0)). unfold untaken. rewrite drop_ge by lia. by rewrite app_nil_r.
  - apply lookup_ge_None in H0. destruct Hin as [_ _ _ _ Hr]. unfold MIN_PARTITION_COUNT in Hr. rewrite (ni_probers _ _ _ _ _ s Hinv) in H0. lia.
Qed.

Definition undone (p : NlProber V) : nat := match nl_pstate p with Drained => 0 | _ => 1 end.

Lemma probe_enabled i sh p : nl_parked i sh = false -> 0 < undone p -> nl_probe_step bool_value op i sh p <> None.
Proof.
  intros Hk Hu. unfold nl_probe_step. unfold undone in Hu. rewrite Hk. destruct (nl_pstate p); [|by destruct (build_complete p)|done|done|lia].
  destruct (nl_pinput p); [done|]. by destruct (build_complete p).
Qed.

(** Some partition goes on. *)
Lemma nl_goes_on s : the_inv s -> nl_finished s \/ exists t r, nl_system_step bool_value op t s = Some r.
Proof.
  intros Hinv. assert (Hprobe : forall i p, nl_probers s !! i = Some p -> nl_probe_step bool_value op i (nl_shared s) p <> None -> exists t r, nl_system_step bool_value op t s = Some r).
  { intros i p Hp Hs. exists (NlProbe i). cbn [nl_system_step]. rewrite Hp. cbn [mbind option_bind]. destruct (nl_probe_step _ _ _ _ _); [by eexists|done]. }
  destruct (decide (total unbuilt (nl_builders s) = 0)) as [Hz|Hnz].
  - assert (Hpark : forall i p, nl_probers s !! i = Some p -> nl_parked i (nl_shared s) = true -> nl_pstate p = DrainCheck /\ 0 < total executing (nl_probers s)).
    { intros i p Hp Hk. unfold nl_parked in Hk. destruct (probe_wakers (nl_shared s) !! i) as [[]|] eqn:Hw; try done. destruct (ni_parked _ _ _ _ _ s Hinv i Hw) as (q & Hq & Hs).
      rewrite Hp in Hq. injection Hq as <-. rewrite Hz in Hs. destruct (nl_pstate p); try done; [by destruct Hs; lia|]. split; [done|lia]. }
    assert (Hall : Forall (fun b => nl_bstate b = Built) (nl_builders s)).
    { apply Forall_lookup. intros i b Hb. pose proof (total_zero _ _ _ _ Hz Hb) as H. unfold unbuilt in H. by destruct (nl_bstate b). }
    destruct (decide (total executing (nl_probers s) = 0)) as [Hrp|Hrp].
    + destruct (decide (total undone (nl_probers s) = 0)) as [Hd|Hd].
      * left. split; [done|]. apply Forall_lookup. intros i p Hp. pose proof (total_zero _ _ _ _ Hd Hp) as H. unfold undone in H. by destruct (nl_pstate p).
      * right. destruct (total_pos undone (nl_probers s)) as (i & p & Hp & Hu); [lia|]. apply (Hprobe i p Hp), probe_enabled; [|done].
        destruct (nl_parked i (nl_shared s)) eqn:Hk; [|done]. destruct (Hpark i p Hp Hk). lia.
    + right. destruct (total_pos executing (nl_probers s)) as (i & p & Hp & Hu); [lia|]. unfold executing in Hu. apply (Hprobe i p Hp), probe_enabled.
      * destruct (nl_parked i (nl_shared s)) eqn:Hk; [|done]. destruct (Hpark i p Hp Hk) as [Hs _]. rewrite Hs in Hu. lia.
      * unfold undone. destruct (nl_pstate p); lia.
  - right. destruct (total_pos unbuilt (nl_builders s)) as (i & b & Hb & Hu); [lia|]. exists (NlBuild i). cbn [nl_system_step]. rewrite Hb. cbn [mbind option_bind]. unfold unbuilt in Hu. unfold nl_build_step.
    destruct (nl_bstate b); [|by eexists|lia]. destruct (nl_binput b); by eexists.
Qed.

End Reachable.

(** ** The theorems *)

Section Theorems.
Context {V : Type}.
Variable bool_value : bool -> V.
Variable batch_size : nat.

(** C10. A nested loop join computes the join: however its build and probe
    partitions are scheduled, when all are finished their outputs together are the
    rows of the join of the rows of the two sides. *)
Theorem nested_loop_join_correct op lefts rights :
  nl_input batch_size op lefts rights ->
  exists s0, nl_create batch_size lefts rights = Ok s0 /\ forall s, rtc (nl_step bool_value op) s0 s -> nl_finished s ->
    concat (nl_emitted <$> nl_probers s) ≡ₚ nl_join_rows bool_value op (concat (concat lefts)) (concat (concat rights)).
Proof.
  intros Hin. exists (nl_start batch_size lefts rights). split; [by eapply nl_created|]. intros s Hs Hf.
  eapply nl_finished_result; [done| |done]. eapply nl_reachable; [done| |done]. by apply start_inv.
Qed.

(** C11. A nested loop join never gets stuck: in every reachable state no step of a
    partition fails (no error, assertion or index that is out of bounds), and
    unless all partitions are finished some partition can take a step, so no wakeup
    is lost. *)
Theorem nested_loop_join_progress op lefts rights :
  nl_input batch_size op lefts rights ->
  exists s0, nl_create batch_size lefts rights = Ok s0 /\ forall s, rtc (nl_step bool_value op) s0 s ->
    (forall t r, nl_system_step bool_value op t s = Some r -> is_ok r = true) /\ (nl_finished s \/ exists s', nl_step bool_value op s s').
Proof.
  intros Hin. exists (nl_start batch_size lefts rights). split; [by eapply nl_created|]. intros s Hs.
  assert (Hinv : nl_inv bool_value batch_size op lefts rights s) by (eapply nl_reachable; [done| |done]; by apply start_inv).
  assert (Hok : forall t r, nl_system_step bool_value op t s = Some r -> exists s', r = Ok s').
  { intros t r Hr. destruct (system_step_good _ _ _ _ _ Hin _ _ _ Hinv Hr) as (s' & -> & _). by eexists. }
  split; [by intros t r (s' & ->)%Hok|]. destruct (nl_goes_on _ _ _ _ _ s Hinv) as [Hf|(t & r & Hr)]; [by left|right].
  destruct (Hok t r Hr) as (s' & ->). exists s'. by apply nl_step_task with t.
Qed.

(** C12. A nested loop join terminates: no schedule has more steps than a bound that
    depends on the inputs alone, waiting and waking up included. *)
Theorem nested_loop_join_terminates op lefts rights :
  nl_input batch_size op lefts rights ->
  exists s0, nl_create batch_size lefts rights = Ok s0 /\ forall k s, nsteps (nl_step bool_value op) k s0 s -> k <= nl_step_bound lefts rights.
Proof.
  intros Hin. exists (nl_start batch_size lefts rights). split; [by eapply nl_created|]. pose proof (start_work batch_size op lefts rights Hin) as Hle.
  pose proof (start_inv bool_value batch_size op lefts rights Hin) as Hinv. intros k s Hsteps. etransitivity; [|exact Hle]. clear Hle. revert Hinv.
  induction Hsteps as [s0|k s1 s2 s3 [t sa sb Hstep] _ IH]; intros Hinv; [lia|].
  destruct (system_step_good _ _ _ _ _ Hin _ _ _ Hinv Hstep) as (s' & [= <-] & Hinv' & Hlt). specialize (IH Hinv'). lia.
Qed.

End Theorems.

(** ** Examples *)

(** Two partitions that build and three that probe, joined on an order of columns;
    one partition has no input, and one an empty batch. *)
Module NestedLoopExample.

Definition int_bool (b : bool) : Z := if b then 1%Z else 0%Z.

(** The first column is less than the second; not if one is NULL. *)
Definition less (row : list (option Z)) : bool :=
  match row with
  | Some a :: Some b :: _ => Z.ltb a b
  | _ => false
  end.

Definition join (jt : JoinType.t) : PhysicalNestedLoopJoin Z := mkNestedLoopJoin jt 1 1 (Some less).

Definition build_side : list (list (list (list (option Z)))) := [[[[Some 1%Z]; [Some 7%Z]; [None]]; [[Some 3%Z]]]; [[[Some 4%Z]]]].
Definition probe_side : list (list (list (list (option Z)))) := [[[[Some 2%Z]; [Some 9%Z]]; []]; []; [[[None]]; [[Some 0%Z]; [Some 4%Z]]]].

Lemma nl_join_ok jt : match jt with JoinType.Full | JoinType.LeftAnti => false | _ => true end = true -> nl_input 2 (join jt) build_side probe_side.
Proof. intros Hj. unfold build_side, probe_side. split; unfold MIN_PARTITION_COUNT, MAX_PARTITION_COUNT; cbn; [by destruct jt|done|lia|lia|lia]. Qed.

Fixpoint run_steps (jt : JoinType.t) (schedule : list NlTask) (s : NlSystem Z) : option (NlSystem Z) :=
  match schedule with
  | [] => Some s
  | t :: rest => match nl_system_step int_bool (join jt) t s with Some (Ok s') => run_steps jt rest s' | Some _ => None | None => run_steps jt rest s end
  end.

Lemma nl_run_steps_rtc jt schedule s s' : run_steps jt schedule s = Some s' -> rtc (nl_step int_bool (join jt)) s s'.
Proof.
  revert s. induction schedule as [|t rest IH]; intros s; cbn [run_steps]; [by intros [= ->]|].
  destruct (nl_system_step int_bool (join jt) t s) as [[s1| |]|] eqn:Hs; try done; [|apply IH]. intros Hr. eapply rtc_l; [by apply nl_step_task with t|by apply IH].
Qed.

(** The tasks step in turn; the probe side starts too early. *)
Definition in_turn : list NlTask := concat (replicate 30 [NlProbe 0; NlBuild 0; NlProbe 1; NlBuild 1; NlProbe 2]).

Definition left_rows : list (list (option Z)) :=
  [[Some 1; Some 2]; [Some 1; Some 9]; [Some 7; Some 9]; [Some 4; Some 9]; [Some 3; Some 9]; [Some 1; Some 4]; [Some 3; Some 4]; [None; None]]%Z.

Lemma nested_loop_join_correct_witness :
  exists s0 s, nl_create 2 build_side probe_side = Ok s0 /\ rtc (nl_step int_bool (join JoinType.Left)) s0 s /\ nl_finished s
    /\ concat (nl_emitted <$> nl_probers s) ≡ₚ left_rows
    /\ concat (nl_emitted <$> nl_probers s) ≡ₚ nl_join_rows int_bool (join JoinType.Left) (concat (concat build_side)) (concat (concat probe_side)).
Proof.
  destruct (nested_loop_join_correct int_bool 2 (join JoinType.Left) build_side probe_side (nl_join_ok JoinType.Left eq_refl)) as (s0 & Hc & Hs).
  assert (exists s, run_steps JoinType.Left in_turn s0 = Some s /\ nl_finished s) as (s & Hr & Hf).
  { vm_compute in Hc. injection Hc as <-. eexists. split; [vm_compute; reflexivity|]. split; repeat constructor. }
  apply nl_run_steps_rtc in Hr. exists s0, s. split; [exact Hc|]. split; [exact Hr|]. split; [exact Hf|]. split; [|exact (Hs s Hr Hf)].
  etransitivity; [exact (Hs s Hr Hf)|]. vm_compute. solve_Permutation.
Defined.

Lemma nested_loop_join_progress_witness :
  exists s0, nl_create 2 build_side probe_side = Ok s0
    /\ forall s, rtc (nl_step int_bool (join JoinType.Right)) s0 s -> nl_finished s \/ exists s', nl_step int_bool (join JoinType.Right) s s'.
Proof.
  destruct (nested_loop_join_progress int_bool 2 (join JoinType.Right) build_side probe_side (nl_join_ok JoinType.Right eq_refl)) as (s0 & Hc & Hs).
  exists s0. split; [exact Hc|]. intros s Hr. apply (Hs s Hr).
Defined.

Lemma nested_loop_join_terminates_witness :
  exists s0, nl_create 2 build_side probe_side = Ok s0 /\ forall k s, nsteps (nl_step int_bool (join (JoinType.LeftMark 0))) k s0 s -> k <= 279.
Proof. exact (nested_loop_join_terminates int_bool 2 (join (JoinType.LeftMark 0)) build_side probe_side (nl_join_ok (JoinType.LeftMark 0) eq_refl)). Defined.

End NestedLoopExample.
